(* ===== verification/_CoqProject ===== *)
-Q . S2P
Prelude.v
Cursors.v
AckPolicy.v
Lineage.v
Stages.v
Presence.v
Gate.v
GateProofs.v
Codec.v
Journal.v
Wire.v
Protocol.v
Acks.v
Receiver.v
Reader.v
Segments.v
Scanner.v
Rings.v
Disruptor.v
Spsc.v
Seqlock.v
Snapshot.v
CatchUp.v
Resync.v
Handoff.v
Recovery.v
Disk.v
Sequencer.v
Handover.v
Restart.v
ClientWire.v
Ingress.v
Egress.v
Response.v
Client.v
Dialogue.v
Failover.v
Survival.v
RaftStore.v
Mailbox.v
Admission.v
