(* ===== verification/Prelude.v ===== *)
(** * Melin, verified

    Melin is an event-sourced transaction engine. Clients send requests to a
    primary; the primary gives every state-changing event a sequence number,
    journals it, ships it to up to two replicas, runs it through the application
    and answers the client once the ack policy in force says enough copies
    exist. A restart replays the journal; a replica holds the primary's journal
    byte for byte, and a Raft control plane decides when one may take over. This
    library models the parts that carry those promises, in the Rust sources
    under [crates/core], and proves them.

    ** The program's parts and the files that model them

    One event's way through the system, and the file for each part:

    - In. [ClientWire] is the frames of the client protocol
      ([wire-protocol/src/framing.rs], [control.rs], [control_codec.rs]);
      [Ingress] what a connection's bytes become: published to the input ring,
      answered early, shed or parked ([server-runtime/src/client_frames.rs],
      [early_reply.rs]); [Admission] who may connect and how many ([app/src/auth.rs],
      [client_auth.rs], [connection_limit.rs]).
    - The rings between the stages. [Rings] is the shared memory and the argument
      both buffers rest on, [Disruptor] and [Spsc] the buffers
      ([pipeline/src/ring.rs], [spsc.rs], [wait.rs]), [Seqlock] the sequence lock
      on a memory with relaxed accesses ([seqlock.rs]).
    - The journal's bytes. [Codec] is the entry and file-header formats
      ([journal/src/codec.rs], [le.rs]). [Journal] is the writer: short writes
      ([Io]), the per-segment hash chain ([Chain], [chain.rs]), sequencing and
      framing ([Encoder], [encoder.rs]), the segment file with its allocation and
      rotation ([Segment], [segment_file.rs]) and their composition ([Writer],
      [buffered_writer.rs], [write.rs]). [Reader] is the buffered reader and the
      rule that tells a torn tail from damage ([reader.rs]); [Scanner] the raw
      scanner and the segment prefixes ([reader.rs], [segment.rs]); [Segments] the
      walk over archives and live segment ([segment.rs], [verify_lineage]).
    - The journal's threads. [Sequencer] is the sequencing thread
      ([transport-core/src/pipeline.rs]), [Disk] the write ring and the disk
      thread ([journal/src/write_ring.rs], [journal_disk.rs]), [Handover] what the
      one has handed to the other. [Recovery] is the walk of a restarting node
      ([journaled_app.rs]), [Snapshot] the snapshot files ([snapshot.rs]);
      [Restart] puts both threads, a crash and recovery together.
    - The stages. [Stages] holds the dispatch path ([dispatch.rs]), the journal
      stage's sequencing rule and the matching stage ([pipeline.rs]), the shadow
      stage ([shadow.rs]) and replay ([journaled_app.rs], [snapshot.rs]).
      [Lineage] is the event type ([journal/src/event.rs]) and the lineage
      metadata every copy folds ([lineage.rs]).
    - Replication. [Wire] is the [InputBatch] frame and the journal stage's loop
      on both nodes ([replication_wire.rs], [pipeline.rs]); [Protocol] the control
      messages ([replication/protocol.rs]) and the key exchange
      ([server-runtime/src/replication/auth.rs]); [CatchUp], [Handoff] and
      [Resync] a replica's join: the stream from disk, the change to the live
      ring, the re-seeding from a snapshot ([replication/catchup.rs],
      [handoff.rs], [validate.rs], [persist_watch.rs]); [Acks] the replica's ack
      queue ([ack_queue.rs]); [Receiver] its receive loop
      ([receiver_transport.rs]); [Cursors] what the primary records of its
      replicas, with the fence ([cursors.rs], [fence.rs], [metrics.rs], [sent.rs]).
    - Out. [AckPolicy] is the clause language, its evaluator and the four named
      policies ([transport-core/src/ack_policy.rs],
      [server-runtime/src/ack_policy.rs]); [Presence] who is streaming, the halt
      and the operator's override ([replica_presence.rs], [halt.rs]); [Mailbox]
      how an operator's change reaches the journal ([policy_control.rs]); [Gate]
      the durability gate every reply passes ([durability_gate.rs]), and
      [GateProofs] its contract; [Response] the response stage around it
      ([response_loop.rs]), [Egress] the bytes it sends ([response.rs],
      [response_frame.rs]).
    - The other end. [Client] is the client library ([client/src/lib.rs],
      [outstanding.rs], [polled.rs]); [Dialogue] the client and the response stage
      together.
    - Taking over. [Failover] is the voter's filter, the promotion rules and their
      thread, the epoch a tenure mints ([raft/src/recency.rs], [rpc_server.rs],
      [driver.rs], [raft_promotion.rs], [promotion.rs], [server.rs]); [Survival]
      the primary's response stage and those rules together; [RaftStore] the
      control plane's files ([raft/src/storage.rs]).

    This file is the prelude: machine integers, the result type and its
    notation, list and order lemmas, the tactics and the hint database [melin].

    ** How the code is modelled

    A Rust integer is a [Z], its width written out where the code wraps,
    saturates or narrows ([wrapping_add], [sat_sub], [le], [u64_max]); an index or
    a length is a [nat]. A struct is a record, an enum an inductive type, a
    [Result] the type [result], a panic [None] where it can occur. A byte buffer
    is the list of its bytes. A mutating method takes the state and returns the
    new one; a loop is a recursive function. What another thread or the kernel
    supplies (cursor values, flags, received bytes, how much one [write] took,
    whether a send was accepted) is an argument: a list of what is read, in the
    order the code reads it, and the theorems quantify over it. Where threads
    meet in shared memory they are run as step relations, one access or one
    critical section at a time ([Presence], [Rings], [Seqlock], [Disk], [Mailbox]).
    Where a crash matters the disk is a state of its own, with what is durable
    apart from what is visible ([Snapshot], [Disk], [RaftStore]); in [Snapshot] the
    directory changes since the last sync reach the disk in any choice and order,
    a rename whole or half. [RaftStore] runs
    its code in a monad of system calls, with a Hoare logic whose triples have a
    crash condition.

    Components meet at interfaces: the application ([Stages.Dispatch.Application],
    [Codec.AppEvent]), the response stage's egress ([Response.Interface]), the
    client's byte stream ([Client.Polled.ByteStream]), the Raft library
    ([Failover.Rpc.RaftApi]), each a class with the laws its clients rely on.

    Fuel. Loops that consume their input take the number of bytes, entries or
    queued items left as fuel (the readers', scanners' and receivers' loops the
    bytes left; the frame loops the buffer's length; [pop_ready] the queue's
    length; a bisection the entries; the gate's drain the pending changes), which
    each turn strictly decreases; the theorems state the result itself, so none
    can hold by running out. The waits that do depend on others ([wait_durable],
    the blocking pops, the sequencing thread's spins) return a distinct value
    when the values supplied end, and the liveness theorems say when they return
    earlier. In [RaftStore] the count of system calls left is what a crash cuts,
    and every triple bounds the calls its code makes.

    Parameters, code outside the repository: [crc32c] (only its 32-bit range is
    used), the hash behind the chain (nothing is assumed), Ed25519's key check
    and verifier (for the honest replica, that its own signature verifies), the
    client's signature, what the kernel's sends and receives return, the Raft
    library and the serializer of its types (that it reads back what it wrote),
    base64.
    Each theorem that uses one of these has a witness with a concrete instance.

    ** What the theorems show

    - A reply is backed, whole and in order. [every_reply_backed]: no reply marked
      as backed by the policy leaves the response stage before the copies that
      policy demands exist, and one marked primary-only only after the grace
      period, on this node's disk or on such copies;
      [policy_refines_contract]: the gate's policy moves only as the abstract
      machine allows; [replies_delivered_in_order], [replies_once_and_whole]: what
      each socket gets, up to a panic of the egress too; [client_and_node_agree]:
      what a client whose requests are answered at most once makes of it;
      [admit_terminates]; [evaluate_correct] and [named_policy_meaning] say what
      the policy arithmetic means.
    - A request enters once. [ingress_exactly_once], [shed_burst_stays_shed],
      [park_makes_progress]; [polled_sends_in_order] and [polled_hears_stream] for
      the client's side; [decoder_exact], [control_frames_read_back],
      [tag_space_rules] for the frames. [admitted_as_listed]: a connection is who
      the keys file says; [ring_sizing]: any accepted cap has rings that hold it.
    - The journal is a log. [journal_is_a_log]: any appends, flushes and
      rotations leave segments that pass the audit and read back as exactly the
      events appended; [announced_is_durable]: nothing is announced before it is
      on disk, under any interleaving and failing system calls;
      [crash_restart_exact], [clean_stop_whole], [restart_exact],
      [recovery_verdict]: what a restart finds; [recovery_rule],
      [torn_tail_bounded]; [snapshot_save_crash_safe].
    - The rings. [ring_sound], [spsc_sound], [seqlock_coherent]: no interleaving
      races, loses or repeats, and a reader never sees a torn value.
    - Every copy agrees. [replay_reaches_live], [snapshot_restore_exact],
      [reply_wire_seq_covers_history], [lineage_names_last_transition].
    - Replication is faithful. [replica_mirrors_primary]: the frame a primary
      ships makes a replica write the same bytes; [catch_up_exact],
      [handoff_no_gap], [resync_exact]: a joining replica gets the history without
      gap or repeat; [receive_gate]: nothing damaged, skipped or repeated enters a
      replica's pipeline; [acks_tell_the_truth]: a replica never claims more than
      it holds; [refused_ack_is_forgotten]: on a transport that refuses an ack it
      may claim less for good; [control_round_trip], [auth_admits_key_holders].
    - The halt and the operator. [override_ended_by_first_ack],
      [verdict_follows_presence]; [mailbox_truthful]: what an operator is told of
      a policy change is what the journal holds.
    - Taking over. [failover_keeps_acked]: an automatic promotion loses no event
      acknowledged under the policy, where no policy change was forced with no
      replica to witness it (primary-only acknowledgements can be lost, and are
      marked); [promotion_earned], [tenure_fences], [votes_steered];
      [raft_store_survives]: the control plane's files keep what was acknowledged
      through any crashes; [opened_vote_can_be_forgotten]: not what a process that
      merely died left unsynced.

    ** What is not modelled

    The sockets, io_uring and DPDK, with the loops that only move bytes between
    them and the modelled code (the io_uring reader, the senders' connection
    management, the DPDK egress): their effects are the arguments above. The
    library openraft. File preparation and preallocation, which only change when
    an allocation happens. Thread creation and wiring, process start;
    health, admin and tracing output; the test node, tools and examples. *)

From Stdlib Require Export ZArith Lia.
From stdpp Require Export base numbers option sets relations list.

#[global] Open Scope Z_scope.

(** ** Machine integers

    A Rust [u8], [u16], [u32] or [u64] is a [Z]; the width is written out
    where the source wraps, saturates or converts. *)

Definition u8_max : Z := 2 ^ 8 - 1.
Definition u16_max : Z := 2 ^ 16 - 1.
Definition u32_max : Z := 2 ^ 32 - 1.
Definition u64_max : Z := 2 ^ 64 - 1.

Definition in_u8 (v : Z) : Prop := 0 <= v <= u8_max.
Definition in_u16 (v : Z) : Prop := 0 <= v <= u16_max.
Definition in_u32 (v : Z) : Prop := 0 <= v <= u32_max.
Definition in_u64 (v : Z) : Prop := 0 <= v <= u64_max.

(** [u64::saturating_add], [u64::saturating_sub], [u64::wrapping_add]. *)
Definition sat_add (a b : Z) : Z := Z.min (a + b) u64_max.
Definition sat_sub (a b : Z) : Z := Z.max (a - b) 0.
Definition wrapping_add (a b : Z) : Z := (a + b) mod 2 ^ 64.

#[export] Instance in_u8_dec v : Decision (in_u8 v).
Proof. unfold in_u8. apply _. Defined.
#[export] Instance in_u16_dec v : Decision (in_u16 v).
Proof. unfold in_u16. apply _. Defined.
#[export] Instance in_u32_dec v : Decision (in_u32 v).
Proof. unfold in_u32. apply _. Defined.
#[export] Instance in_u64_dec v : Decision (in_u64 v).
Proof. unfold in_u64. apply _. Defined.

(** Unfold the width constants, so that [lia] sees numerals. *)
Ltac widths :=
  unfold in_u8, in_u16, in_u32, in_u64, u8_max, u16_max, u32_max, u64_max in *.

(** ** Fallible code

    Rust's [Result], with the [?] operator as the bind. *)

Inductive result (A E : Type) : Type :=
| Ok (a : A)
| Err (e : E).
Arguments Ok {A E} a.
Arguments Err {A E} e.

#[export] Instance result_eq_dec {A E} `{!EqDecision A, !EqDecision E} : EqDecision (result A E).
Proof. solve_decision. Defined.

Definition rbind {A B E} (r : result A E) (k : A -> result B E) : result B E :=
  match r with Ok a => k a | Err e => Err e end.

Definition rmap_err {A E F} (f : E -> F) (r : result A E) : result A F :=
  match r with Ok a => Ok a | Err e => Err (f e) end.

Declare Scope melin_scope.
Delimit Scope melin_scope with melin.
#[global] Open Scope melin_scope.

Notation "x <-? r ;; k" := (rbind r (fun x => k))
  (at level 100, r at next level, right associativity) : melin_scope.
Notation "'guard?' b 'else' e ;; k" := (if b : bool then k else Err e)
  (at level 100, b at next level, e at next level, right associativity) : melin_scope.

(** ** Automation

    [zb] turns every boolean comparison of the context and the goal into a
    proposition over [Z]; [crush] closes the goals that remain once the
    matches are gone. *)

Create HintDb melin.
Create Rewrite HintDb zb.

Lemma ltb_true a b : (a <? b) = true <-> a < b. Proof. apply Z.ltb_lt. Qed.
Lemma ltb_false a b : (a <? b) = false <-> b <= a. Proof. apply Z.ltb_ge. Qed.
Lemma leb_true a b : (a <=? b) = true <-> a <= b. Proof. apply Z.leb_le. Qed.
Lemma leb_false a b : (a <=? b) = false <-> b < a. Proof. apply Z.leb_gt. Qed.
Lemma eqb_true a b : (a =? b) = true <-> a = b. Proof. apply Z.eqb_eq. Qed.
Lemma eqb_false a b : (a =? b) = false <-> a <> b. Proof. apply Z.eqb_neq. Qed.

#[export] Hint Rewrite ltb_true ltb_false leb_true leb_false eqb_true eqb_false
  andb_true_iff andb_false_iff orb_true_iff orb_false_iff negb_true_iff negb_false_iff : zb.

Ltac zb := autorewrite with zb in *.

(** Case analysis on the innermost scrutinee of the goal or of a hypothesis. *)
Ltac brk :=
  match goal with
  | |- context [match ?x with _ => _ end] =>
      lazymatch x with context [match _ with _ => _ end] => fail | _ => destruct x eqn:? end
  | H : context [match ?x with _ => _ end] |- _ =>
      lazymatch x with context [match _ with _ => _ end] => fail | _ => destruct x eqn:? end
  end.

(** A guard that let a result through. *)
Lemma guard_ok {A X} (b : bool) (k : result A X) e a :
  (if b then k else Err e) = Ok a -> b = true /\ k = Ok a.
Proof. by destruct b. Qed.

Ltac crush := simplify_eq/=; zb; try done; try lia; eauto with melin.

Lemma map_drop {A B} (f : A -> B) n xs : map f (drop n xs) = drop n (map f xs).
Proof. symmetry. apply skipn_map. Qed.

(** ** Counting by position

    How many elements of a list satisfy a predicate, bounded from below by a
    duplicate-free list of positions that do, and from above by any list of
    positions that covers them. *)

Section positions.
Context {A : Type} (P : A -> Prop) `{!forall x, Decision (P x)}.

Fixpoint positions (k : nat) (xs : list A) : list nat :=
  match xs with
  | [] => []
  | x :: rest => if decide (P x) then k :: positions (S k) rest else positions (S k) rest
  end.

Lemma length_positions k xs : length (positions k xs) = length (filter P xs).
Proof.
  revert k; induction xs as [|x xs IH]; intros k; [done|].
  cbn [positions]. rewrite filter_cons. case_decide; cbn [length]; by rewrite IH.
Qed.

Lemma elem_of_positions k xs i :
  i ∈ positions k xs <-> exists x, (k <= i)%nat /\ xs !! (i - k)%nat = Some x /\ P x.
Proof.
  revert k; induction xs as [|x xs IH]; intros k; cbn.
  { split; [by intros ?%elem_of_nil|]. intros (?&?&?&?). by rewrite lookup_nil in *. }
  assert (Htl : forall y, (S k <= i)%nat /\ xs !! (i - S k)%nat = Some y /\ P y <->
                i <> k /\ (k <= i)%nat /\ (x :: xs) !! (i - k)%nat = Some y /\ P y).
  { intros y. destruct (decide (i = k)) as [->|].
    - split; [lia|]. by intros [].
    - destruct (decide (k < i)%nat); [|lia].
      replace (i - k)%nat with (S (i - S k)) by lia. cbn. split; [|tauto].
      intros (?&?&?); repeat split; auto; lia. }
  case_decide as Hx.
  - rewrite elem_of_cons, IH. setoid_rewrite Htl. split.
    + intros [->|(y&?&?&?&?)]; [|eauto].
      exists x. rewrite Nat.sub_diag. eauto.
    + intros (y&?&?&?). destruct (decide (i = k)); eauto 10.
  - rewrite IH. setoid_rewrite Htl. split; [intros (y&_&?); eauto|].
    intros (y&?&Hy&?). exists y. repeat split; auto. intros ->.
    rewrite Nat.sub_diag in Hy. by simplify_eq/=.
Qed.

Lemma NoDup_positions k xs : NoDup (positions k xs).
Proof.
  revert k; induction xs as [|x xs IH]; intros k; cbn; [constructor|].
  case_decide; [|done]. constructor; [|done].
  rewrite elem_of_positions. intros (?&?&_). lia.
Qed.

Lemma count_lower (idx : list nat) xs :
  NoDup idx -> (forall i, i ∈ idx -> exists x, xs !! i = Some x /\ P x) ->
  (length idx <= length (filter P xs))%nat.
Proof.
  intros Hnd Hin. rewrite <- (length_positions 0). apply submseteq_length, NoDup_submseteq; [done|].
  intros i Hi. apply elem_of_positions. destruct (Hin i Hi) as (x&?&?).
  exists x. rewrite Nat.sub_0_r. split; [lia|done].
Qed.

Lemma count_upper (idx : list nat) xs :
  (forall i x, xs !! i = Some x -> P x -> i ∈ idx) ->
  (length (filter P xs) <= length idx)%nat.
Proof.
  intros Hin. rewrite <- (length_positions 0).
  apply submseteq_length, NoDup_submseteq; [apply NoDup_positions|].
  intros i (x&_&Hx&?)%elem_of_positions. rewrite Nat.sub_0_r in Hx. eauto.
Qed.
End positions.

(** How a count changes when one element of a list is replaced. *)
Section counting.
Context {A : Type} (P : A -> Prop) `{!forall x, Decision (P x)}.

Definition count_of (l : list A) : Z := Z.of_nat (length (filter P l)).
Definition weight (x : A) : Z := if decide (P x) then 1 else 0.

Lemma count_of_cons x l : count_of (x :: l) = weight x + count_of l.
Proof. unfold count_of, weight. rewrite filter_cons. case_decide; cbn [length]; lia. Qed.

Lemma count_of_app l k : count_of (l ++ k) = count_of l + count_of k.
Proof. unfold count_of. rewrite filter_app, length_app. lia. Qed.

Lemma count_of_nonneg l : 0 <= count_of l.
Proof. unfold count_of. lia. Qed.

Lemma count_of_insert l i x y :
  l !! i = Some x -> count_of (<[i:=y]> l) = count_of l - weight x + weight y.
Proof.
  revert i; induction l as [|z l IH]; intros i; [done|].
  destruct i as [|i]; intros Hi; cbn in Hi.
  - simplify_eq. change (<[0%nat:=y]> (x :: l)) with (y :: l). rewrite !count_of_cons. lia.
  - change (<[S i:=y]> (z :: l)) with (z :: <[i:=y]> l). rewrite !count_of_cons, (IH _ Hi). lia.
Qed.

Lemma count_of_zero l i x : count_of l = 0 -> l !! i = Some x -> ~ P x.
Proof.
  intros Hz Hi Hp. assert (Hin : x ∈ filter P l).
  { apply list_elem_of_filter. split; [done|]. by eapply list_elem_of_lookup_2. }
  unfold count_of in Hz. destruct (filter P l); [by apply elem_of_nil in Hin|]. cbn in Hz. lia.
Qed.
End counting.
