(* ===== verification/Cursors.v ===== *)
(** * Replica progress cursors

    The primary's view of its replicas: the slot-acked encoding and its two
    derived views ([transport-core/src/cursors.rs], module [Slots]), the
    advertised journal tip and the fence latch ([cursors.rs], [fence.rs]), the
    one writer of the per-slot cursors with its ack-sanity check
    ([replication/cursors.rs], module [Writer]) and the sent high water it is
    checked against ([replication/sent.rs]).

    An array of two slots is a list of length two; an access out of range
    panics in the source and is [None] here. *)

From S2P Require Import Prelude.

Module Slots.

(** ** Slot-acked space *)

Definition DISENGAGED : Z := u64_max.

Definition from_acked (acked : Z) : Z := sat_add acked 1.

Definition acked (raw : Z) : option Z :=
  if raw =? u64_max then None else Some (sat_sub raw 1).

Abbreviation ReplicaSlotCursors := (list Z).

Definition SLOTS : nat := 2.

Definition new : ReplicaSlotCursors := [DISENGAGED; DISENGAGED].

Definition store (slots : ReplicaSlotCursors) (slot : nat) (v : Z)
    : option ReplicaSlotCursors :=
  if bool_decide (slot < length slots)%nat then Some (<[slot := v]> slots) else None.

Definition quorum_acked (slots : ReplicaSlotCursors) : option Z :=
  match slots with
  | [a; b] => acked (Z.min a b)
  | _ => None
  end.

(** [Option::max]: [None] is below every [Some]. *)
Definition option_max (a b : option Z) : option Z :=
  match a, b with
  | Some x, Some y => Some (Z.max x y)
  | Some x, None => Some x
  | None, y => y
  end.

Definition fastest_acked (slots : ReplicaSlotCursors) : option Z :=
  match slots with
  | [a; b] => option_max (acked a) (acked b)
  | _ => None
  end.

(** ** The advertised journal tip *)

Definition tip_advance (tip seq : Z) : Z := Z.max tip seq.
Definition tip_reset (tip seq : Z) : Z := seq.

(** ** The fence *)

Record FenceState := { epoch : Z; fenced : bool }.

Definition fence_new (initial_epoch : Z) : FenceState :=
  {| epoch := initial_epoch; fenced := false |}.

Definition observe_epoch (f : FenceState) (e : Z) : Z * FenceState :=
  let prev := epoch f in
  (Z.max prev e, {| epoch := Z.max prev e; fenced := fenced f |}).

Definition fence (f : FenceState) : bool * FenceState :=
  (negb (fenced f), {| epoch := epoch f; fenced := true |}).

(** [fence_if_superseded] also sets the shared [shutdown] flag. *)
Definition fence_if_superseded (f : FenceState) (peer_epoch : Z) (shutdown : bool)
    : option bool * FenceState * bool :=
  if peer_epoch <=? epoch f then (None, f, shutdown)
  else let '(first, f') := fence f in (Some first, f', true).

Definition refuses_primary (f : FenceState) (primary_epoch : Z) : bool :=
  primary_epoch <? epoch f.

Definition observe_into (current observed : Z) : Z := Z.max current observed.

(** ** Lemmas *)

(** A slot: parked, or engaged at an acked sequence below the two values the
    encoding cannot tell from a parked one. *)
Definition encode_slot (o : option Z) : Z :=
  match o with Some a => from_acked a | None => DISENGAGED end.

Definition representable (o : option Z) : Prop :=
  match o with Some a => 0 <= a < u64_max - 1 | None => True end.

Lemma acked_encode o : representable o -> acked (encode_slot o) = o.
Proof.
  destruct o as [a|]; cbn; [|done]. unfold from_acked, acked, sat_add, sat_sub.
  intros H. rewrite Z.min_l by lia.
  destruct (a + 1 =? u64_max) eqn:E; zb; [lia|]. f_equal. lia.
Qed.

Definition option_min (a b : option Z) : option Z :=
  match a, b with
  | Some x, Some y => Some (Z.min x y)
  | Some x, None => Some x
  | None, y => y
  end.

Lemma encode_slot_min a b :
  representable a -> representable b ->
  Z.min (encode_slot a) (encode_slot b) = encode_slot (option_min a b).
Proof.
  destruct a as [a|], b as [b|]; cbn; unfold from_acked, sat_add, DISENGAGED; lia.
Qed.

Lemma representable_min a b :
  representable a -> representable b -> representable (option_min a b).
Proof. destruct a, b; cbn; lia. Qed.

End Slots.

Module Writer.
Import Slots.

Record Ack := { acked_sequence : Z; in_memory_sequence : Z }.

(** The per-slot gauges of [ReplicationMetrics] that this module writes,
    with the other counters of the struct the health endpoint reads. *)
Record ReplicationMetrics := {
  m_acked_sequence : list Z;
  m_in_memory_sequence : list Z;
  m_bytes_sent : list Z;
  m_ack_latency_us : list Z;
  m_acks_received : list Z;
  m_catching_up : list bool;
  m_evictions_total : Z;
  m_divergence_total : Z;
}.

Definition metrics_default : ReplicationMetrics := {|
  m_acked_sequence := [0; 0];
  m_in_memory_sequence := [0; 0];
  m_bytes_sent := [0; 0];
  m_ack_latency_us := [0; 0];
  m_acks_received := [0; 0];
  m_catching_up := [false; false];
  m_evictions_total := 0;
  m_divergence_total := 0;
|}.

Definition set_gauges (m : ReplicationMetrics) (slot : nat) (a i : Z) : ReplicationMetrics := {|
  m_acked_sequence := <[slot := a]> (m_acked_sequence m);
  m_in_memory_sequence := <[slot := i]> (m_in_memory_sequence m);
  m_bytes_sent := m_bytes_sent m;
  m_ack_latency_us := m_ack_latency_us m;
  m_acks_received := m_acks_received m;
  m_catching_up := m_catching_up m;
  m_evictions_total := m_evictions_total m;
  m_divergence_total := m_divergence_total m;
|}.

(** [acks_received[slot].fetch_add(1)], which wraps. *)
Definition count_ack (m : ReplicationMetrics) (slot : nat) : ReplicationMetrics := {|
  m_acked_sequence := m_acked_sequence m;
  m_in_memory_sequence := m_in_memory_sequence m;
  m_bytes_sent := m_bytes_sent m;
  m_ack_latency_us := m_ack_latency_us m;
  m_acks_received := alter (fun n => wrapping_add n 1) slot (m_acks_received m);
  m_catching_up := m_catching_up m;
  m_evictions_total := m_evictions_total m;
  m_divergence_total := m_divergence_total m;
|}.

Record ReplicaCursors := { slots : ReplicaSlotCursors; metrics : ReplicationMetrics }.

Record AckViolation := {
  v_slot : nat;
  v_acked_sequence : Z;
  v_in_memory_sequence : Z;
  v_highest_sent_sequence : Z;
}.

(** [ReplicaCursors::new]: park every slot. *)
Definition rc_new (s : ReplicaSlotCursors) (m : ReplicationMetrics) : option ReplicaCursors :=
  s1 ← store s 0 DISENGAGED;
  s2 ← store s1 1 DISENGAGED;
  Some {| slots := s2; metrics := m |}.

Definition seed_on_handshake (rc : ReplicaCursors) (slot : nat) (handshake_last_sequence : Z)
    : option ReplicaCursors :=
  s ← store (slots rc) slot (from_acked handshake_last_sequence);
  Some {| slots := s;
          metrics := set_gauges (metrics rc) slot handshake_last_sequence handshake_last_sequence |}.

Definition record_ack (rc : ReplicaCursors) (slot : nat) (ack : Ack)
    (highest_sent_sequence : Z) : option (ReplicaCursors * result unit AckViolation) :=
  if (highest_sent_sequence <? in_memory_sequence ack)
     || (in_memory_sequence ack <? acked_sequence ack)
  then
    Some (rc, Err {| v_slot := slot;
                     v_acked_sequence := acked_sequence ack;
                     v_in_memory_sequence := in_memory_sequence ack;
                     v_highest_sent_sequence := highest_sent_sequence |})
  else
    s ← store (slots rc) slot (from_acked (acked_sequence ack));
    Some ({| slots := s;
             metrics := count_ack
               (set_gauges (metrics rc) slot (acked_sequence ack) (in_memory_sequence ack)) slot |},
          Ok tt).

Definition clear_on_disconnect (rc : ReplicaCursors) (slot : nat) : option ReplicaCursors :=
  s ← store (slots rc) slot DISENGAGED;
  Some {| slots := s; metrics := set_gauges (metrics rc) slot 0 0 |}.

(** ** The sent high water *)

Definition sent_seed (handshake_last_sequence catchup_end : Z) : Z :=
  Z.max handshake_last_sequence catchup_end.

Definition sent_advance (sent end_sequence : Z) : Z := Z.max sent end_sequence.

(** ** One replica connection

    What a sender does on one slot, in the order it does it: stream a chunk,
    apply an ack. An ack the check refuses evicts the replica. *)

Inductive conn_event :=
| Stream (end_sequence : Z)
| AckIn (ack : Ack).

Record Conn := { c_sent : Z; c_cursors : ReplicaCursors }.

Inductive conn_outcome :=
| Running (c : Conn)
| Evicted (c : Conn) (v : AckViolation)
| Panicked.

Definition conn_step (slot : nat) (c : Conn) (e : conn_event) : conn_outcome :=
  match e with
  | Stream n => Running {| c_sent := sent_advance (c_sent c) n; c_cursors := c_cursors c |}
  | AckIn a =>
    match record_ack (c_cursors c) slot a (c_sent c) with
    | None => Panicked
    | Some (rc, Ok _) => Running {| c_sent := c_sent c; c_cursors := rc |}
    | Some (rc, Err v) => Evicted {| c_sent := c_sent c; c_cursors := rc |} v
    end
  end.

Fixpoint conn_run (slot : nat) (c : Conn) (es : list conn_event) : conn_outcome :=
  match es with
  | [] => Running c
  | e :: rest =>
    match conn_step slot c e with
    | Running c' => conn_run slot c' rest
    | o => o
    end
  end.

(** ** The writer's operations, in any order on any slot *)

Inductive cursor_op :=
| OpSeed (slot : nat) (handshake_last_sequence : Z)
| OpAck (slot : nat) (ack : Ack) (highest_sent_sequence : Z)
| OpClear (slot : nat).

Definition cursor_step (rc : ReplicaCursors) (o : cursor_op) : option ReplicaCursors :=
  match o with
  | OpSeed slot h => seed_on_handshake rc slot h
  | OpAck slot a hs => fst <$> record_ack rc slot a hs
  | OpClear slot => clear_on_disconnect rc slot
  end.

Definition cursor_run (rc : ReplicaCursors) (os : list cursor_op) : option ReplicaCursors :=
  foldl (fun acc o => acc ≫= fun rc => cursor_step rc o) (Some rc) os.

(** The operation's sequences are wire sequences, well below [u64::MAX]. *)
Definition op_ok (o : cursor_op) : Prop :=
  match o with
  | OpSeed slot h => (slot < SLOTS)%nat /\ 0 <= h < u64_max - 1
  | OpAck slot a hs => (slot < SLOTS)%nat /\ 0 <= acked_sequence a /\ 0 <= hs < u64_max - 1
  | OpClear slot => (slot < SLOTS)%nat
  end.

(** A slot's cursor and gauge pair agree: parked with zeroed gauges, or
    engaged at the acked gauge, which the in-memory gauge covers. *)
Inductive slot_wf : Z -> Z -> Z -> Prop :=
| slot_parked : slot_wf DISENGAGED 0 0
| slot_engaged a i : 0 <= a <= i -> i < u64_max - 1 -> slot_wf (from_acked a) a i.

Definition cursors_wf (rc : ReplicaCursors) : Prop :=
  exists c0 c1 a0 a1 i0 i1,
    slots rc = [c0; c1] /\
    m_acked_sequence (metrics rc) = [a0; a1] /\
    m_in_memory_sequence (metrics rc) = [i0; i1] /\
    slot_wf c0 a0 i0 /\ slot_wf c1 a1 i1.

Lemma store_two c0 c1 slot v :
  (slot < SLOTS)%nat -> store [c0; c1] slot v = Some (<[slot := v]> [c0; c1]).
Proof. intros. unfold store. by rewrite bool_decide_true. Qed.

Lemma cursors_wf_set rc slot c a i m :
  cursors_wf rc -> (slot < SLOTS)%nat -> slot_wf c a i ->
  m_acked_sequence m = <[slot := a]> (m_acked_sequence (metrics rc)) ->
  m_in_memory_sequence m = <[slot := i]> (m_in_memory_sequence (metrics rc)) ->
  cursors_wf {| slots := <[slot := c]> (slots rc); metrics := m |}.
Proof.
  intros (c0&c1&a0&a1&i0&i1&Hc&Ha&Hi&H0&H1) Hs Hw Hma Hmi.
  rewrite Ha in Hma. rewrite Hi in Hmi. unfold cursors_wf. cbn. rewrite Hc, Hma, Hmi.
  unfold SLOTS in Hs. destruct slot as [|[|slot]]; [| |lia]; cbn; eauto 20.
Qed.

Lemma cursor_step_wf rc o :
  cursors_wf rc -> op_ok o -> exists rc', cursor_step rc o = Some rc' /\ cursors_wf rc'.
Proof.
  intros Hwf Hok. pose proof Hwf as (c0&c1&a0&a1&i0&i1&Hc&_).
  destruct o as [slot h|slot [a i] hs|slot]; cbn in Hok |- *.
  - destruct Hok. unfold seed_on_handshake. rewrite Hc, store_two by done. cbn.
    eexists; split; [done|]. rewrite <- Hc.
    eapply cursors_wf_set; eauto. constructor; lia.
  - destruct Hok as (?&?&?). unfold record_ack. cbn.
    destruct (_ || _) eqn:E; cbn; [eauto|]. zb.
    rewrite Hc, store_two by done. cbn. eexists; split; [done|]. rewrite <- Hc.
    eapply cursors_wf_set; eauto. constructor; lia.
  - unfold clear_on_disconnect. rewrite Hc, store_two by done. cbn.
    eexists; split; [done|]. rewrite <- Hc.
    eapply cursors_wf_set; eauto. constructor.
Qed.

Lemma cursor_run_wf rc os :
  cursors_wf rc -> Forall op_ok os -> exists rc', cursor_run rc os = Some rc' /\ cursors_wf rc'.
Proof.
  revert rc; induction os as [|o os IH]; intros rc Hwf Hos; [by eauto|].
  apply Forall_cons in Hos as [Ho Hos].
  destruct (cursor_step_wf rc o Hwf Ho) as (rc1&Hstep&Hwf1).
  unfold cursor_run. cbn. rewrite Hstep. by apply IH.
Qed.

Lemma rc_new_wf m :
  m_acked_sequence m = [0; 0] -> m_in_memory_sequence m = [0; 0] ->
  cursors_wf {| slots := Slots.new; metrics := m |}.
Proof. intros Ha Hi. repeat eexists; eauto; constructor. Qed.

(** The primary's derived replica views are right after any history of
    handshakes, acks and disconnects on its two slots: no operation panics,
    and the quorum view is the least acked gauge over the engaged slots and
    the fastest view the greatest, each [None] exactly when no replica is
    engaged; every engaged slot's persisted gauge is within its in-memory
    one. *)
Theorem derived_views_correct (os : list cursor_op) (rc : ReplicaCursors) :
  Forall op_ok os ->
  cursor_run {| slots := Slots.new; metrics := metrics_default |} os = Some rc ->
  exists o0 o1 a0 a1 i0 i1,
    m_acked_sequence (metrics rc) = [a0; a1] /\
    m_in_memory_sequence (metrics rc) = [i0; i1] /\
    a0 <= i0 /\ a1 <= i1 /\
    (o0 = None /\ i0 = 0 \/ o0 = Some a0) /\ (o1 = None /\ i1 = 0 \/ o1 = Some a1) /\
    quorum_acked (slots rc) = option_min o0 o1 /\
    fastest_acked (slots rc) = option_max o0 o1.
Proof.
  intros Hos Hrun.
  destruct (cursor_run_wf {| slots := Slots.new; metrics := metrics_default |} os) as (rc'&?&Hwf);
    [by apply rc_new_wf|done|]. simplify_eq.
  destruct Hwf as (c0&c1&a0&a1&i0&i1&Hc&Ha&Hi&H0&H1).
  assert (Hsp : forall c a i, slot_wf c a i -> exists o, representable o /\ c = encode_slot o /\
    a <= i /\ (o = None /\ i = 0 \/ o = Some a)).
  { intros c a i [|a' i' ??]; [exists None|exists (Some a')]; cbn; repeat split; auto; lia. }
  destruct (Hsp _ _ _ H0) as (o0&?&->&?&?), (Hsp _ _ _ H1) as (o1&?&->&?&?).
  exists o0, o1, a0, a1, i0, i1. rewrite Ha, Hi. repeat split; auto.
  - rewrite Hc. cbn. rewrite encode_slot_min by done.
    by apply acked_encode, representable_min.
  - rewrite Hc. cbn. by rewrite !acked_encode.
Qed.

Lemma derived_views_correct_witness :
  Forall op_ok [OpSeed 0 7; OpSeed 1 9; OpAck 0 {| acked_sequence := 11; in_memory_sequence := 12 |} 12;
                OpClear 1; OpAck 0 {| acked_sequence := 14; in_memory_sequence := 13 |} 20] /\
  exists rc, cursor_run {| slots := Slots.new; metrics := metrics_default |}
      [OpSeed 0 7; OpSeed 1 9; OpAck 0 {| acked_sequence := 11; in_memory_sequence := 12 |} 12;
       OpClear 1; OpAck 0 {| acked_sequence := 14; in_memory_sequence := 13 |} 20] = Some rc /\
    quorum_acked (slots rc) = Some 11 /\
    exists o0 o1 a0 a1 i0 i1,
    m_acked_sequence (metrics rc) = [a0; a1] /\
    m_in_memory_sequence (metrics rc) = [i0; i1] /\
    a0 <= i0 /\ a1 <= i1 /\
    (o0 = None /\ i0 = 0 \/ o0 = Some a0) /\ (o1 = None /\ i1 = 0 \/ o1 = Some a1) /\
    quorum_acked (slots rc) = option_min o0 o1 /\
    fastest_acked (slots rc) = option_max o0 o1.
Proof.
  assert (H : Forall op_ok
    [OpSeed 0 7; OpSeed 1 9; OpAck 0 {| acked_sequence := 11; in_memory_sequence := 12 |} 12;
     OpClear 1; OpAck 0 {| acked_sequence := 14; in_memory_sequence := 13 |} 20]).
  { repeat constructor; vm_compute; done. }
  split; [exact H|]. eexists. split; [reflexivity|]. split; [reflexivity|].
  eapply derived_views_correct; [exact H|reflexivity].
Defined.

(** A replica that reports only what it was sent: every ack is within the
    high water its connection had reached. *)
Fixpoint truthful (sent : Z) (es : list conn_event) : Prop :=
  match es with
  | [] => True
  | Stream n :: rest => truthful (Z.max sent n) rest
  | AckIn a :: rest =>
    acked_sequence a <= in_memory_sequence a <= sent /\ truthful sent rest
  end.

Lemma conn_run_truthful slot es c c0 c1 :
  (slot < SLOTS)%nat -> slots (c_cursors c) = [c0; c1] ->
  truthful (c_sent c) es -> exists c', conn_run slot c es = Running c' /\ c_sent c <= c_sent c'.
Proof.
  intros Hslot. revert c c0 c1; induction es as [|[n|a] es IH]; intros c c0 c1 Hc Ht; cbn.
  - exists c. split; [done|lia].
  - cbn in Ht.
    destruct (IH {| c_sent := sent_advance (c_sent c) n; c_cursors := c_cursors c |} c0 c1)
      as (c'&?&?); auto.
    exists c'. split; [done|]. cbn in *. unfold sent_advance in *. lia.
  - destruct Ht as [? Ht]. unfold record_ack. cbn.
    rewrite (proj2 (orb_false_iff _ _)) by (split; apply Z.ltb_ge; lia).
    rewrite Hc, store_two by done. cbn.
    unfold SLOTS in Hslot. destruct slot as [|[|slot]]; [| |lia]; cbn;
      eapply (IH {| c_sent := _; c_cursors := _ |}); eauto.
Qed.

(** The ack check never evicts a replica that reports what it was sent:
    whatever chunks are streamed, in whatever order and overlap, a connection
    whose acks stay within its sent high water (persisted within in-memory)
    keeps running, and the high water never regresses. An ack beyond either
    bound is refused with the violation and changes nothing the gate reads. *)
Theorem ack_sanity (slot : nat) (c : Conn) (es : list conn_event) (bad : Ack) :
  (slot < SLOTS)%nat -> length (slots (c_cursors c)) = SLOTS -> truthful (c_sent c) es ->
  exists c', conn_run slot c es = Running c' /\ c_sent c <= c_sent c' /\
    (c_sent c' < in_memory_sequence bad \/ in_memory_sequence bad < acked_sequence bad ->
     exists v, conn_run slot c (es ++ [AckIn bad]) = Evicted c' v).
Proof.
  intros Hslot Hlen Ht.
  destruct (slots (c_cursors c)) as [|c0 [|c1 [|]]] eqn:Hc; try done.
  destruct (conn_run_truthful slot es c c0 c1 Hslot Hc Ht) as (c'&Hrun&Hle).
  exists c'. repeat split; auto. intros Hbad.
  assert (Happ : forall es' c1, conn_run slot c1 (es' ++ [AckIn bad]) =
     match conn_run slot c1 es' with Running c2 => conn_run slot c2 [AckIn bad] | o => o end).
  { clear. intros es'. induction es' as [|e es' IH]; intros c1; cbn; [done|].
    destruct (conn_step slot c1 e); auto. }
  rewrite Happ, Hrun. cbn. unfold record_ack.
  rewrite (proj2 (orb_true_iff _ _)) by (destruct Hbad; [left|right]; apply Z.ltb_lt; lia).
  eexists. destruct c'. done.
Qed.

Lemma ack_sanity_witness :
  exists c', conn_run 1 {| c_sent := 5; c_cursors := {| slots := Slots.new; metrics := metrics_default |} |}
      [Stream 9; Stream 7; AckIn {| acked_sequence := 3; in_memory_sequence := 9 |}] = Running c' /\
    5 <= c_sent c' /\
    (c_sent c' < in_memory_sequence {| acked_sequence := 3; in_memory_sequence := 10 |} \/
     in_memory_sequence {| acked_sequence := 3; in_memory_sequence := 10 |} <
     acked_sequence {| acked_sequence := 3; in_memory_sequence := 10 |} ->
     exists v, conn_run 1 {| c_sent := 5; c_cursors := {| slots := Slots.new; metrics := metrics_default |} |}
      ([Stream 9; Stream 7; AckIn {| acked_sequence := 3; in_memory_sequence := 9 |}] ++
       [AckIn {| acked_sequence := 3; in_memory_sequence := 10 |}]) = Evicted c' v).
Proof.
  apply (ack_sanity 1 {| c_sent := 5;
                         c_cursors := {| slots := Slots.new; metrics := metrics_default |} |}).
  - unfold SLOTS. lia.
  - reflexivity.
  - vm_compute. repeat split; discriminate.
Defined.

End Writer.
