(* ===== verification/AckPolicy.v ===== *)
(** * The ack policy

    The clause language of [transport-core/src/ack_policy.rs] (module
    [Core]) and the operator's four named policies of
    [server-runtime/src/ack_policy.rs] (module [Named]), with the cursor
    view the response stage builds from the live cursors
    ([server-runtime/src/response.rs], module [View]).

    The main result is that the evaluator, which ranks cursors by repeated
    selection, computes the policy's meaning: a position is at or below the
    durable position exactly when every clause has its count of nodes at it. *)

From stdpp Require Import strings.
From S2P Require Import Prelude Cursors.

Module Core.

Inductive Level := InMemory | Persisted.
#[export] Instance Level_eq_dec : EqDecision Level.
Proof. solve_decision. Defined.

Record Clause := { count : Z; level : Level }.

Record Policy := { clauses : list Clause }.

Inductive PolicyError :=
| Empty
| ZeroCount (c : Clause)
| CountExceedsClusterCap (count max : Z).

Definition MAX_CLUSTER_SIZE : Z := 3.

(** [Policy::new]: the three refusals, in the source's order. *)
Definition Policy_new (cs : list Clause) : result Policy PolicyError :=
  match cs with
  | [] => Err Empty
  | _ =>
    match list_find (fun c => count c = 0) cs with
    | Some (_, c) => Err (ZeroCount c)
    | None =>
      match list_find (fun c => MAX_CLUSTER_SIZE < count c) cs with
      | Some (_, c) => Err (CountExceedsClusterCap (count c) MAX_CLUSTER_SIZE)
      | None => Ok {| clauses := cs |}
      end
    end
  end.

(** A node's pair [[in_memory, persisted]], indexed by [Level as usize]. *)
Record NodeCursors := { in_memory : Z; persisted : Z }.

Abbreviation CursorView := (list NodeCursors).

Definition node_from (n : NodeCursors) (l : Level) : list Z :=
  match l with
  | InMemory => [in_memory n; persisted n]
  | Persisted => [persisted n]
  end.

Definition effective_cursor (n : NodeCursors) (l : Level) : Z :=
  foldl (fun v c => if v <? c then c else v) 0 (node_from n l).

(** One pass of the selection loop: the best node not yet [taken]. *)
Fixpoint scan_best (l : Level) (taken : list nat) (i : nat) (nodes : CursorView)
    (best : option (Z * nat)) : option (Z * nat) :=
  match nodes with
  | [] => best
  | node :: rest =>
    if bool_decide (i ∈ taken) then scan_best l taken (S i) rest best
    else
      let value := effective_cursor node l in
      let best' :=
        match best with
        | None => Some (value, i)
        | Some (best_value, _) => if best_value <? value then Some (value, i) else best
        end in
      scan_best l taken (S i) rest best'
  end.

(** The ranks still to fill, [left] of them; [taken] holds the earlier ones. *)
Fixpoint rank_loop (view : CursorView) (l : Level) (left : nat) (taken : list nat)
    : option (Z * nat) :=
  match left with
  | O => None
  | S left' =>
    match scan_best l taken 0 view None with
    | None => None
    | Some (value, node) =>
      match left' with
      | O => Some (value, node)
      | S _ => rank_loop view l left' (taken ++ [node])
      end
    end
  end.

Definition nth_largest_with_node (view : CursorView) (l : Level) (cnt : Z)
    : option (Z * nat) :=
  let n := Z.to_nat cnt in
  if bool_decide (n = 0%nat) || bool_decide (length view < n)%nat
     || bool_decide (Z.to_nat MAX_CLUSTER_SIZE < n)%nat
  then None
  else rank_loop view l n [].

Definition nth_largest_cursor (view : CursorView) (l : Level) (cnt : Z) : Z :=
  match nth_largest_with_node view l cnt with
  | Some (value, _) => value
  | None => 0
  end.

Record EvalStatus := { durable_pos : Z; degraded : bool }.

Definition evaluate_with_status (p : Policy) (view : CursorView) : EvalStatus :=
  let '(res, deg) :=
    foldl (fun '(res, deg) c =>
             let deg := if bool_decide (length view < Z.to_nat (count c))%nat
                        then true else deg in
             let satisfied := nth_largest_cursor view (level c) (count c) in
             (if satisfied <? res then satisfied else res, deg))
          (u64_max, false) (clauses p) in
  {| durable_pos := if res =? u64_max then 0 else res; degraded := deg |}.

Definition evaluate (p : Policy) (view : CursorView) : Z :=
  durable_pos (evaluate_with_status p view).

Inductive Blocker := Journal | Replication.

(** The loop of [Policy::attribute_blocker]; the [?] leaves it on a clause
    the cluster shape cannot satisfy. *)
Fixpoint attribute_loop (view : CursorView) (cs : list Clause)
    (binding : option (Z * Blocker)) : option (Z * Blocker) :=
  match cs with
  | [] => binding
  | c :: rest =>
    match nth_largest_with_node view (level c) (count c) with
    | None => None
    | Some (value, node) =>
      let blocker := if bool_decide (node = 0%nat) then Journal else Replication in
      let binding' :=
        match binding with
        | None => Some (value, blocker)
        | Some (best, _) => if value <? best then Some (value, blocker) else binding
        end in
      attribute_loop view rest binding'
    end
  end.

Definition attribute_blocker (p : Policy) (view : CursorView) : option Blocker :=
  snd <$> attribute_loop view (clauses p) None.

Fixpoint gate_cursor_loop (view : CursorView) (cs : list Clause) (tightest : option Z)
    : option Z :=
  match cs with
  | [] => tightest
  | c :: rest =>
    match nth_largest_with_node view (level c) (count c) with
    | None => None
    | Some (value, node) =>
      if bool_decide (node = 0%nat) then gate_cursor_loop view rest tightest
      else
        let tightest' :=
          match tightest with
          | None => Some value
          | Some best => if value <? best then Some value else tightest
          end in
        gate_cursor_loop view rest tightest'
    end
  end.

Definition replica_gate_cursor (p : Policy) (view : CursorView) : option Z :=
  gate_cursor_loop view (clauses p) None.

(** ** What a policy means *)

(** The node holds sequence [s] at level [l], a stronger level counting. *)
Definition reached (l : Level) (s : Z) (n : NodeCursors) : Prop := s <= effective_cursor n l.
#[export] Instance reached_dec l s n : Decision (reached l s n).
Proof. unfold reached. apply _. Defined.

(** How many nodes hold sequence [s] at level [l]. *)
Definition copies (l : Level) (s : Z) (view : CursorView) : nat :=
  length (filter (reached l s) view).

(** Every clause has its count of nodes at [s]. *)
Definition satisfied_at (p : Policy) (s : Z) (view : CursorView) : Prop :=
  Forall (fun c => (Z.to_nat (count c) <= copies (level c) s view)%nat) (clauses p).

(** ** Ranking by repeated selection *)

(** [best] is the largest cursor among the first [k] nodes not [taken]. *)
Definition best_of (l : Level) (view : CursorView) (taken : list nat) (k : nat)
    (best : option (Z * nat)) : Prop :=
  match best with
  | None => forall i, (i < k)%nat -> i ∈ taken
  | Some (v, j) =>
    (j < k)%nat /\ (j ∉ taken) /\
    (exists n, view !! j = Some n /\ effective_cursor n l = v) /\
    (forall i n, (i < k)%nat -> i ∉ taken -> view !! i = Some n -> effective_cursor n l <= v)
  end.

Lemma best_of_taken l view taken k best :
  k ∈ taken -> best_of l view taken k best -> best_of l view taken (S k) best.
Proof.
  intros Hk. destruct best as [[v j]|]; cbn.
  - intros (?&?&?&Hall). repeat split; [lia|done|done|].
    intros i n ???. destruct (decide (i = k)) as [->|]; [done|]. apply (Hall i n); auto; lia.
  - intros Hall i ?. destruct (decide (i = k)) as [->|]; [done|]. apply Hall. lia.
Qed.

Lemma best_of_step l view taken k n best :
  k ∉ taken -> view !! k = Some n -> best_of l view taken k best ->
  best_of l view taken (S k)
    (match best with
     | None => Some (effective_cursor n l, k)
     | Some (bv, _) => if bv <? effective_cursor n l then Some (effective_cursor n l, k) else best
     end).
Proof.
  intros Hk Hn. destruct best as [[v j]|]; cbn; [|intros Hall].
  - intros (?&?&?&Hall). destruct (v <? effective_cursor n l) eqn:E; zb; cbn.
    + repeat split; [lia|done|eauto|]. intros i m ???.
      destruct (decide (i = k)) as [->|]; [by simplify_eq|].
      specialize (Hall i m ltac:(lia) ltac:(done) ltac:(done)). lia.
    + repeat split; [lia|done|done|]. intros i m ???.
      destruct (decide (i = k)) as [->|]; [by simplify_eq|]. apply (Hall i m); auto; lia.
  - repeat split; [lia|done|eauto|]. intros i m ???.
    destruct (decide (i = k)) as [->|]; [by simplify_eq|].
    exfalso. specialize (Hall i). apply H0, Hall. lia.
Qed.

Lemma scan_best_spec l taken pre nodes best :
  best_of l (pre ++ nodes) taken (length pre) best ->
  best_of l (pre ++ nodes) taken (length (pre ++ nodes))
    (scan_best l taken (length pre) nodes best).
Proof.
  revert pre best; induction nodes as [|n nodes IH]; intros pre best Hb; cbn.
  { by rewrite app_nil_r in *. }
  specialize (IH (pre ++ [n])). rewrite length_app, <- (assoc_L (++)) in IH. cbn in IH.
  rewrite Nat.add_1_r in IH.
  case_bool_decide.
  - by apply IH, best_of_taken.
  - apply IH. apply best_of_step; [done|by apply list_lookup_middle|done].
Qed.

(** The cursors of [taken] dominate the others: what selection has ranked. *)
Definition dominates (l : Level) (view : CursorView) (taken : list nat) : Prop :=
  NoDup taken /\
  (forall i, i ∈ taken -> (i < length view)%nat) /\
  (forall i j n m, i ∈ taken -> j ∉ taken -> view !! i = Some n -> view !! j = Some m ->
     effective_cursor m l <= effective_cursor n l).

Lemma scan_best_some l view taken :
  dominates l view taken -> (length taken < length view)%nat ->
  exists v j, scan_best l taken 0 view None = Some (v, j) /\
    best_of l view taken (length view) (Some (v, j)).
Proof.
  intros (Hnd&Hlt&_) Hlen.
  pose proof (scan_best_spec l taken [] view None) as H. cbn in H.
  specialize (H ltac:(lia)).
  destruct (scan_best l taken 0 view None) as [[v j]|]; [by eauto|]. exfalso.
  cut (length (seq 0 (length view)) <= length taken)%nat; [rewrite length_seq; lia|].
  apply submseteq_length, NoDup_submseteq; [apply NoDup_seq|].
  intros i [_ Hi]%elem_of_seq. by apply H.
Qed.

Lemma dominates_snoc l view taken v j :
  dominates l view taken -> best_of l view taken (length view) (Some (v, j)) ->
  dominates l view (taken ++ [j]).
Proof.
  intros (Hnd&Hlt&Hdom) (Hj&Hnt&(n&Hn&Hv)&Hmax). repeat split.
  - apply NoDup_app; repeat split; [done| |apply NoDup_singleton].
    intros i ? ->%list_elem_of_singleton. done.
  - intros i [?| ->%list_elem_of_singleton]%elem_of_app; auto.
  - intros i k ni nk Hi Hk Hni Hnk.
    assert (k ∉ taken) by (intros ?; apply Hk, elem_of_app; auto).
    apply elem_of_app in Hi as [Hi| ->%list_elem_of_singleton].
    + by apply (Hdom i k).
    + simplify_eq. apply (Hmax k); [by eapply lookup_lt_Some|done..].
Qed.

Lemma rank_loop_spec l view left taken :
  dominates l view taken -> (0 < left)%nat -> (length taken + left <= length view)%nat ->
  exists v j n, rank_loop view l left taken = Some (v, j) /\
    view !! j = Some n /\ effective_cursor n l = v /\
    forall s, s <= v <-> (length taken + left <= copies l s view)%nat.
Proof.
  revert taken; induction left as [|left IH]; intros taken Hd Hpos Hlen; [lia|].
  destruct (scan_best_some l view taken Hd ltac:(lia)) as (v&j&Hsc&Hb).
  cbn. rewrite Hsc. destruct left as [|left].
  - destruct Hb as (Hj&Hnt&(n&Hn&Hv)&Hmax). destruct Hd as (Hnd&Hlt&Hdom).
    exists v, j, n. repeat split; auto.
    + intros Hs. unfold copies.
      replace (length taken + 1)%nat with (length (taken ++ [j])) by by rewrite length_app.
      apply count_lower.
      * apply NoDup_app; repeat split; [done| |apply NoDup_singleton].
        intros i ? ->%list_elem_of_singleton. done.
      * intros i [Hi| ->%list_elem_of_singleton]%elem_of_app.
        -- destruct (lookup_lt_is_Some_2 view i (Hlt i Hi)) as [m Hm].
           exists m. split; [done|]. unfold reached.
           specialize (Hdom i j m n Hi Hnt Hm Hn). lia.
        -- exists n. unfold reached. split; [done|lia].
    + intros Hc. destruct (decide (s <= v)) as [|Hs]; [done|]. exfalso.
      cut (copies l s view <= length taken)%nat; [lia|].
      apply count_upper. intros i m Hm Hr. destruct (decide (i ∈ taken)) as [|Hi]; [done|].
      unfold reached in Hr.
      specialize (Hmax i m (lookup_lt_Some _ _ _ Hm) Hi Hm). lia.
  - destruct (IH (taken ++ [j])) as (v'&j'&n'&->&?&?&Hs).
    + eapply dominates_snoc; eauto.
    + lia.
    + rewrite length_app. cbn. lia.
    + rewrite length_app in Hs. cbn in Hs.
      exists v', j', n'. split; [done|]. split; [done|]. split; [done|].
      intros s. rewrite (Hs s). lia.
Qed.

(** The cursor selected for a clause is the exact threshold of the clause. *)
Lemma nth_largest_threshold view l cnt :
  0 < cnt <= MAX_CLUSTER_SIZE -> (Z.to_nat cnt <= length view)%nat ->
  exists v j n, nth_largest_with_node view l cnt = Some (v, j) /\
    view !! j = Some n /\ effective_cursor n l = v /\
    forall s, s <= v <-> (Z.to_nat cnt <= copies l s view)%nat.
Proof.
  intros Hcnt Hlen. unfold nth_largest_with_node, MAX_CLUSTER_SIZE in *.
  rewrite !bool_decide_false by lia. cbn.
  destruct (rank_loop_spec l view (Z.to_nat cnt) []) as (v&j&n&?&?&?&?); eauto 10; try (cbn; lia).
  split; [constructor|]. split; intros * ?%elem_of_nil; done.
Qed.

Lemma nth_largest_none view l cnt :
  (length view < Z.to_nat cnt)%nat -> nth_largest_with_node view l cnt = None.
Proof.
  intros. unfold nth_largest_with_node. rewrite (bool_decide_true (length view < _)%nat) by done.
  by rewrite orb_true_r.
Qed.

Lemma copies_le_length l s view : (copies l s view <= length view)%nat.
Proof. unfold copies. apply length_filter. Qed.

(** ** The fold over the clauses *)

Definition threshold (view : CursorView) (c : Clause) : Z :=
  nth_largest_cursor view (level c) (count c).

Definition eval_step (view : CursorView) : Z * bool -> Clause -> Z * bool :=
  fun '(res, deg) c =>
    let deg := if bool_decide (length view < Z.to_nat (count c))%nat then true else deg in
    let satisfied := nth_largest_cursor view (level c) (count c) in
    (if satisfied <? res then satisfied else res, deg).

Lemma eval_fold_le view cs res deg s :
  s <= (foldl (eval_step view) (res, deg) cs).1 <->
  s <= res /\ Forall (fun c => s <= threshold view c) cs.
Proof.
  revert res deg; induction cs as [|c cs IH]; intros res deg; cbn [foldl].
  { split; [|tauto]. split; [done|constructor]. }
  cbn. rewrite IH, Forall_cons. unfold threshold at 2.
  destruct (_ <? res) eqn:E; zb; split; intros (?&?); repeat split; try tauto; lia.
Qed.

Lemma eval_fold_degraded view cs res deg :
  (foldl (eval_step view) (res, deg) cs).2 = true <->
  deg = true \/ Exists (fun c => (length view < Z.to_nat (count c))%nat) cs.
Proof.
  revert res deg; induction cs as [|c cs IH]; intros res deg; cbn [foldl].
  { rewrite Exists_nil. tauto. }
  cbn. rewrite IH, Exists_cons. case_bool_decide; tauto.
Qed.

Lemma evaluate_unfold p view :
  evaluate_with_status p view =
  {| durable_pos := let res := (foldl (eval_step view) (u64_max, false) (clauses p)).1 in
                    if res =? u64_max then 0 else res;
     degraded := (foldl (eval_step view) (u64_max, false) (clauses p)).2 |}.
Proof.
  unfold evaluate_with_status. change (fun '(res, deg) c => _) with (eval_step view).
  by destruct (foldl _ _ _).
Qed.

(** A policy [Policy::new] accepted: some clause, every count within 1 and 3. *)
Definition valid_policy (p : Policy) : Prop :=
  clauses p <> [] /\ Forall (fun c => 0 < count c <= MAX_CLUSTER_SIZE) (clauses p).

Lemma Policy_new_ok cs p :
  Forall (fun c => 0 <= count c) cs -> Policy_new cs = Ok p ->
  p = {| clauses := cs |} /\ valid_policy p.
Proof.
  intros Hpos. unfold Policy_new. destruct cs as [|c0 cs']; [done|].
  remember (c0 :: cs') as cs eqn:Ecs.
  destruct (list_find (fun c => count c = 0) cs) as [[]|] eqn:E0; [done|].
  destruct (list_find (fun c => _ < count c) cs) as [[]|] eqn:E1; [done|].
  intros [= <-]. split; [done|]. split; cbn; [by subst|].
  apply list_find_None in E0, E1. rewrite Forall_forall in *. intros c Hc.
  specialize (Hpos c Hc). specialize (E0 c Hc). specialize (E1 c Hc). cbn in *. lia.
Qed.

Definition cursors_u64 (view : CursorView) : Prop :=
  Forall (fun n => in_u64 (in_memory n) /\ in_u64 (persisted n)) view.

Lemma effective_cursor_eq n l :
  effective_cursor n l =
  match l with
  | InMemory => Z.max 0 (Z.max (in_memory n) (persisted n))
  | Persisted => Z.max 0 (persisted n)
  end.
Proof. destruct l; cbn; repeat (destruct (_ <? _) eqn:?; zb); lia. Qed.

Lemma effective_cursor_u64 view n l :
  cursors_u64 view -> n ∈ view -> effective_cursor n l <= u64_max.
Proof.
  intros Hu Hn. unfold cursors_u64 in Hu. rewrite Forall_forall in Hu.
  specialize (Hu n Hn). rewrite effective_cursor_eq. widths. destruct l; lia.
Qed.

Lemma copies_u64 view l s :
  cursors_u64 view -> (0 < copies l s view)%nat -> s <= u64_max.
Proof.
  intros Hu Hc. destruct (filter (reached l s) view) as [|n ns] eqn:E.
  { unfold copies in Hc. rewrite E in Hc. cbn in Hc. lia. }
  assert (Hn : n ∈ filter (reached l s) view) by (rewrite E; left).
  apply list_elem_of_filter in Hn as [Hr Hn].
  pose proof (effective_cursor_u64 view n l Hu Hn). unfold reached in Hr. lia.
Qed.

(** A clause's threshold is the highest sequence its count of nodes hold. *)
Lemma threshold_spec view c s :
  0 < count c <= MAX_CLUSTER_SIZE -> 0 < s ->
  s <= threshold view c <-> (Z.to_nat (count c) <= copies (level c) s view)%nat.
Proof.
  intros Hc Hs. unfold threshold, nth_largest_cursor.
  destruct (decide (length view < Z.to_nat (count c))%nat) as [Hlt|Hge].
  - rewrite nth_largest_none by done. pose proof (copies_le_length (level c) s view). lia.
  - destruct (nth_largest_threshold view (level c) (count c) Hc) as (v&j&n&->&_&_&Hv); [lia|].
    apply Hv.
Qed.

Lemma thresholds_spec p view s :
  valid_policy p -> 0 < s ->
  Forall (fun c => s <= threshold view c) (clauses p) <-> satisfied_at p s view.
Proof.
  intros [_ Hv] Hs. unfold satisfied_at. rewrite !Forall_forall. rewrite Forall_forall in Hv.
  split; intros H c Hc; apply threshold_spec; auto.
Qed.

Lemma satisfied_at_u64 p view s :
  valid_policy p -> cursors_u64 view -> satisfied_at p s view -> s <= u64_max.
Proof.
  intros [Hne Hv] Hu Hs. unfold satisfied_at in Hs. destruct (clauses p) as [|c cs]; [done|].
  apply Forall_cons in Hs as [Hs _], Hv as [Hv _].
  eapply (copies_u64 view (level c)); [done|]. lia.
Qed.

(** The evaluator against its meaning, with the [u64::MAX] sentinel in the
    statement: a position is within the durable one exactly when every
    clause holds there, unless every clause holds at [u64::MAX]. *)
Lemma evaluate_iff p view s :
  valid_policy p -> cursors_u64 view -> 0 < s ->
  s <= evaluate p view <-> satisfied_at p s view /\ ~ satisfied_at p u64_max view.
Proof.
  intros Hv Hu Hs. unfold evaluate. rewrite evaluate_unfold. cbn.
  set (res := (foldl _ _ _).1).
  assert (Hres : forall t, 0 < t -> t <= res <-> t <= u64_max /\ satisfied_at p t view).
  { intros t Ht. unfold res. rewrite eval_fold_le, thresholds_spec by done. done. }
  pose proof (satisfied_at_u64 p view s Hv Hu) as Hmax.
  assert (H0 : 0 < u64_max) by done.
  assert (Hle : res <= u64_max)
    by (apply (eval_fold_le view (clauses p) u64_max false res); reflexivity).
  destruct (Z.eqb_spec res u64_max) as [E|E].
  - split; [lia|]. intros [_ Hn]. exfalso. apply Hn, Hres; [done|lia].
  - rewrite (Hres s Hs). split; [|tauto].
    intros [_ Hsat]. split; [done|]. intros Hm. apply E.
    enough (u64_max <= res) by lia. by apply Hres.
Qed.

Lemma degraded_iff p view :
  degraded (evaluate_with_status p view) = true <->
  Exists (fun c => (length view < Z.to_nat (count c))%nat) (clauses p).
Proof. rewrite evaluate_unfold. cbn. rewrite eval_fold_degraded. split; [intros [?|?]; done|by right]. Qed.

(** C26: The evaluator computes the policy's meaning: for a policy
    [Policy::new] accepts, over any nodes, a sequence is at or below the
    evaluated durable position exactly when every clause has at least its
    count of nodes at the sequence (a persisted copy counting as a held one)
    and the policy does not already hold at the sentinel [u64::MAX]; and the
    status is degraded exactly when some clause asks for more nodes than the
    view has. *)
Theorem evaluate_correct (cs : list Clause) (p : Policy) (view : CursorView) (s : Z) :
  Forall (fun c => 0 <= count c) cs -> Policy_new cs = Ok p -> cursors_u64 view -> 0 < s ->
  (s <= durable_pos (evaluate_with_status p view) <->
   Forall (fun c => (Z.to_nat (count c) <= copies (level c) s view)%nat) cs /\
   ~ Forall (fun c => (Z.to_nat (count c) <= copies (level c) u64_max view)%nat) cs) /\
  (degraded (evaluate_with_status p view) = true <->
   Exists (fun c => (length view < Z.to_nat (count c))%nat) cs).
Proof.
  intros Hpos Hnew Hu Hs. destruct (Policy_new_ok cs p Hpos Hnew) as [-> Hv].
  split; [by apply (evaluate_iff _ view s Hv Hu Hs)|]. apply degraded_iff.
Qed.

Lemma evaluate_correct_witness :
  exists p, Policy_new [{| count := 1; level := Persisted |}; {| count := 2; level := InMemory |}] = Ok p /\
  (5 <= durable_pos (evaluate_with_status p
     [{| in_memory := 9; persisted := 4 |}; {| in_memory := 6; persisted := 5 |}]) <->
   Forall (fun c => (Z.to_nat (count c) <= copies (level c) 5
     [{| in_memory := 9; persisted := 4 |}; {| in_memory := 6; persisted := 5 |}])%nat)
     [{| count := 1; level := Persisted |}; {| count := 2; level := InMemory |}] /\
   ~ Forall (fun c => (Z.to_nat (count c) <= copies (level c) u64_max
     [{| in_memory := 9; persisted := 4 |}; {| in_memory := 6; persisted := 5 |}])%nat)
     [{| count := 1; level := Persisted |}; {| count := 2; level := InMemory |}]) /\
  (degraded (evaluate_with_status p
     [{| in_memory := 9; persisted := 4 |}; {| in_memory := 6; persisted := 5 |}]) = true <->
   Exists (fun c => (length
     [{| in_memory := 9; persisted := 4 |}; {| in_memory := 6; persisted := 5 |}] <
      Z.to_nat (count c))%nat)
     [{| count := 1; level := Persisted |}; {| count := 2; level := InMemory |}]).
Proof.
  eexists. split; [reflexivity|].
  eapply (evaluate_correct [{| count := 1; level := Persisted |}; {| count := 2; level := InMemory |}]).
  - repeat constructor; cbn; lia.
  - reflexivity.
  - repeat constructor; vm_compute; discriminate.
  - lia.
Defined.

(** ** Attribution *)

Lemma attribute_loop_some view cs b0 r :
  attribute_loop view cs b0 = Some r ->
  Forall (fun c => nth_largest_with_node view (level c) (count c) <> None) cs.
Proof.
  revert b0; induction cs as [|c cs IH]; intros b0; cbn; [constructor|].
  destruct (nth_largest_with_node _ _ _) as [[v j]|] eqn:E; [|done].
  intros H. constructor; [by rewrite E|]. by eapply IH.
Qed.

(** The clause the loop names is one with the least threshold. *)
Lemma attribute_loop_least view cs b0 :
  Forall (fun c => nth_largest_with_node view (level c) (count c) <> None) cs ->
  match attribute_loop view cs b0 with
  | None => b0 = None /\ cs = []
  | Some (v, b) =>
    (forall c, c ∈ cs -> v <= threshold view c) /\
    (forall v0 x, b0 = Some (v0, x) -> v <= v0) /\
    (b0 = Some (v, b) \/
     exists c j, c ∈ cs /\ nth_largest_with_node view (level c) (count c) = Some (v, j) /\
       (b = Journal <-> j = 0%nat))
  end.
Proof.
  revert b0; induction cs as [|c cs IH]; intros b0 Hall; cbn.
  { destruct b0 as [[v b]|]; [|done]. repeat split; auto; [by intros c ?%elem_of_nil|].
    intros. simplify_eq. lia. }
  apply Forall_cons in Hall as [Hc Hall].
  destruct (nth_largest_with_node view (level c) (count c)) as [[value node]|] eqn:E; [|done].
  set (bl := if bool_decide (node = 0%nat) then Journal else Replication).
  assert (Hbl : bl = Journal <-> node = 0%nat) by (unfold bl; case_bool_decide; by split).
  assert (Hth : threshold view c = value) by (unfold threshold, nth_largest_cursor; by rewrite E).
  set (b1 := match b0 with
             | None => Some (value, bl)
             | Some (best, _) => if value <? best then Some (value, bl) else b0 end).
  specialize (IH b1 Hall).
  assert (Hb1 : exists v1 x1, b1 = Some (v1, x1) /\ v1 <= value /\
     (forall v0 x, b0 = Some (v0, x) -> v1 <= v0) /\
     (b0 = Some (v1, x1) \/ (v1 = value /\ x1 = bl))).
  { unfold b1. destruct b0 as [[v0 x0]|].
    - destruct (value <? v0) eqn:El; zb; eexists _, _; repeat split; eauto; try lia;
        intros; simplify_eq; lia.
    - eexists _, _; repeat split; eauto; try lia; done. }
  destruct Hb1 as (v1&x1&Hb1&Hv1&Hb0&Hor). rewrite Hb1 in IH |- *.
  destruct (attribute_loop view cs (Some (v1, x1))) as [[v b]|]; [|by destruct IH].
  destruct IH as (Hle&Hmin&Hsrc). specialize (Hmin v1 x1 eq_refl).
  repeat split.
  - intros c' [->|Hin]%elem_of_cons; [lia|auto].
  - intros v0 x Hx. specialize (Hb0 v0 x Hx). lia.
  - destruct Hsrc as [Heq|(c'&j&?&?&?)]; [|right; exists c', j; split; [by right|done]].
    simplify_eq. destruct Hor as [->|[-> ->]]; [by left|].
    right. exists c, node. split; [by left|done].
Qed.

End Core.

Module View.
Import Core Cursors.Writer.

(** The replicas' share of the view: an inactive slot is left out, the
    others enter in slot order. The index is within the two-slot arrays, so
    the default of [nth] is never read. *)
Fixpoint replica_nodes (m : ReplicationMetrics) (i : nat) (active : list bool) : CursorView :=
  match active with
  | [] => []
  | slot_active :: rest =>
    if slot_active : bool then
      {| in_memory := nth i (m_in_memory_sequence m) 0;
         persisted := nth i (m_acked_sequence m) 0 |} :: replica_nodes m (S i) rest
    else replica_nodes m (S i) rest
  end.

(** [with_cursor_view]: the primary first, its in-memory cursor [u64::MAX]. *)
Definition cursor_view (journal_pos : Z) (metrics : option ReplicationMetrics)
    (replica_active : option (bool * bool)) : CursorView :=
  {| in_memory := u64_max; persisted := journal_pos |} ::
  match metrics, replica_active with
  | Some m, Some (a0, a1) => replica_nodes m 0 [a0; a1]
  | _, _ => []
  end.

Definition evaluate_durability (p : Policy) (journal_pos : Z)
    (metrics : option ReplicationMetrics) (replica_active : option (bool * bool))
    : EvalStatus :=
  evaluate_with_status p (cursor_view journal_pos metrics replica_active).

Definition evaluate_gate (p : Policy) (needed journal_pos : Z)
    (metrics : option ReplicationMetrics) (replica_active : option (bool * bool))
    : EvalStatus * option Blocker :=
  let view := cursor_view journal_pos metrics replica_active in
  let status := evaluate_with_status p view in
  let blocker := if needed <=? durable_pos status then attribute_blocker p view else None in
  (status, blocker).

Definition policy_replica_cursor (p : Policy) (journal_pos : Z)
    (metrics : option ReplicationMetrics) (replica_active : option (bool * bool))
    : option Z :=
  replica_gate_cursor p (cursor_view journal_pos metrics replica_active).

Lemma attribute_open p view :
  valid_policy p -> 0 < durable_pos (evaluate_with_status p view) ->
  exists b c j, attribute_blocker p view = Some b /\ c ∈ clauses p /\
    nth_largest_with_node view (level c) (count c) =
      Some (durable_pos (evaluate_with_status p view), j) /\
    (b = Journal <-> j = 0%nat).
Proof.
  intros [Hne Hv] Hpos. rewrite evaluate_unfold in Hpos |- *. cbn in Hpos |- *.
  set (res := (foldl _ _ _).1) in *.
  destruct (Z.eqb_spec res u64_max) as [|Hres]; [lia|].
  assert (Hth : forall t, t <= res <-> t <= u64_max /\ Forall (fun c => t <= threshold view c) (clauses p))
    by (intros t; apply eval_fold_le).
  assert (Hall : Forall (fun c => nth_largest_with_node view (level c) (count c) <> None) (clauses p)).
  { destruct (proj1 (Hth res) ltac:(lia)) as [_ H]. rewrite Forall_forall in H |- *.
    intros c Hc Hn. specialize (H c Hc). unfold threshold, nth_largest_cursor in H.
    rewrite Hn in H. lia. }
  pose proof (attribute_loop_least view (clauses p) None Hall) as Ha.
  unfold attribute_blocker. destruct (attribute_loop view (clauses p) None) as [[v b]|];
    [|by destruct Ha].
  destruct Ha as (Hle&_&[|(c&j&Hc&Hn&Hb)]); [done|].
  assert (v = res) as ->.
  { destruct (proj1 (Hth res) ltac:(lia)) as [Hmax H]. rewrite Forall_forall in H.
    specialize (H c Hc). unfold threshold, nth_largest_cursor in H. rewrite Hn in H.
    assert (v <= res); [|lia]. apply Hth. split; [|by apply Forall_forall].
    destruct (decide (v <= u64_max)); [done|]. exfalso. apply Hres.
    enough (u64_max <= res) by lia. apply Hth. split; [done|]. apply Forall_forall.
    intros c' Hc'. specialize (Hle c' Hc'). lia. }
  exists b, c, j. done.
Qed.

(** One gate evaluation answers both questions from one snapshot: when
    it opens the gate ([needed >= 1] reached), it always names a blocker, and
    the blocker is a binding clause's: the node ranked at that clause's count
    supplied exactly the durable position, and the journal is blamed exactly
    when that node is the primary. While the gate stays closed it names
    nobody. *)
Theorem gate_open_attributed (p : Policy) (needed journal_pos : Z)
    (metrics : option ReplicationMetrics) (active : option (bool * bool)) :
  valid_policy p -> 1 <= needed ->
  let '(status, blocker) := evaluate_gate p needed journal_pos metrics active in
  (needed <= durable_pos status ->
   exists b c j, blocker = Some b /\ c ∈ clauses p /\
     nth_largest_with_node (cursor_view journal_pos metrics active) (level c) (count c) =
       Some (durable_pos status, j) /\
     (b = Journal <-> j = 0%nat)) /\
  (durable_pos status < needed -> blocker = None).
Proof.
  intros Hv Hn. unfold evaluate_gate. destruct (needed <=? _) eqn:E; zb.
  - split; [|lia]. intros _. apply attribute_open; [done|lia].
  - split; [lia|done].
Qed.

Lemma gate_open_attributed_witness :
  let p := {| clauses := [{| count := 1; level := Persisted |}; {| count := 2; level := InMemory |}] |} in
  let m := {| m_acked_sequence := [3; 0]; m_in_memory_sequence := [7; 0]; m_bytes_sent := [0; 0];
              m_ack_latency_us := [0; 0]; m_acks_received := [0; 0]; m_catching_up := [false; false];
              m_evictions_total := 0; m_divergence_total := 0 |} in
  let '(status, blocker) := evaluate_gate p 6 8 (Some m) (Some (true, false)) in
  (6 <= durable_pos status ->
   exists b c j, blocker = Some b /\ c ∈ clauses p /\
     nth_largest_with_node (cursor_view 8 (Some m) (Some (true, false))) (level c) (count c) =
       Some (durable_pos status, j) /\
     (b = Journal <-> j = 0%nat)) /\
  (durable_pos status < 6 -> blocker = None).
Proof.
  apply gate_open_attributed; [|lia]. split; [done|]. repeat constructor; vm_compute; done.
Defined.

(** The policy the module documents as "ack immediately" never opens
    the gate: with the single clause [in_memory>=1], satisfied by the primary
    alone, every evaluation over the gate's own view yields durable position
    0, because the primary's in-memory cursor is [u64::MAX], the evaluator's
    sentinel; the status is not degraded, so nothing reports the stall. *)
Theorem in_memory_one_never_opens (journal_pos : Z)
    (metrics : option ReplicationMetrics) (active : option (bool * bool)) :
  in_u64 journal_pos ->
  (forall m i, metrics = Some m ->
     in_u64 (nth i (m_in_memory_sequence m) 0) /\ in_u64 (nth i (m_acked_sequence m) 0)) ->
  evaluate_durability {| clauses := [{| count := 1; level := InMemory |}] |}
    journal_pos metrics active = {| durable_pos := 0; degraded := false |}.
Proof.
  intros Hj Hm. unfold evaluate_durability. set (view := cursor_view _ _ _).
  assert (Hu : cursors_u64 view).
  { unfold view, cursor_view. constructor; [cbn; widths; lia|].
    destruct metrics as [m|], active as [[a0 a1]|]; try constructor.
    assert (Hgen : forall bs i, cursors_u64 (replica_nodes m i bs)).
    { intros bs; induction bs as [|b bs IH]; intros i; cbn; [constructor|].
      destruct b; [|apply IH]. constructor; [|apply IH]. by apply Hm. }
    apply Hgen. }
  assert (Hlen : (1 <= length view)%nat) by (unfold view, cursor_view; cbn; lia).
  rewrite evaluate_unfold. cbn. rewrite (bool_decide_false (length view < _)%nat) by lia.
  set (t := nth_largest_cursor view InMemory 1).
  assert (Hc : (1 <= copies InMemory u64_max view)%nat).
  { unfold view, cursor_view, copies. rewrite filter_cons, decide_True; [cbn; lia|].
    unfold reached. rewrite effective_cursor_eq. cbn. lia. }
  pose proof (threshold_spec view {| count := 1; level := InMemory |} u64_max
                ltac:(unfold MAX_CLUSTER_SIZE; cbn; lia) ltac:(done)) as Ht.
  cbn in Ht. fold t in Ht. apply Ht in Hc. unfold threshold in Hc. cbn in Hc. fold t in Hc.
  destruct (t <? u64_max) eqn:E; zb; [lia|]. done.
Qed.

Lemma in_memory_one_never_opens_witness :
  evaluate_durability {| clauses := [{| count := 1; level := InMemory |}] |} 41 None None
  = {| durable_pos := 0; degraded := false |}.
Proof.
  apply in_memory_one_never_opens; [vm_compute; split; discriminate|]. intros m i H. discriminate H.
Defined.

End View.

Module Named.
Import Core View Cursors.Writer.

Inductive AckPolicy := Disk | Ram | DiskAndRam | TwoDisks.
#[export] Instance AckPolicy_eq_dec : EqDecision AckPolicy.
Proof. solve_decision. Defined.

Definition to_clauses (p : AckPolicy) : list Clause :=
  match p with
  | Disk => [{| count := 1; level := Persisted |}]
  | Ram => [{| count := 2; level := InMemory |}]
  | DiskAndRam => [{| count := 1; level := Persisted |}; {| count := 2; level := InMemory |}]
  | TwoDisks => [{| count := 2; level := Persisted |}]
  end.

(** [to_policy]: the [expect] on [Policy::new] is the [Err] case, which
    [to_policy_accepted] shows is never taken. *)
Definition to_policy (p : AckPolicy) : Policy :=
  match Policy_new (to_clauses p) with
  | Ok pol => pol
  | Err _ => {| clauses := [] |}
  end.

Definition needs_replica (p : AckPolicy) : bool :=
  existsb (fun c => 1 <? count c) (clauses (to_policy p)).

Definition as_u8 (p : AckPolicy) : Z :=
  match p with Disk => 0 | DiskAndRam => 1 | TwoDisks => 2 | Ram => 3 end.

Definition from_u8 (b : Z) : option AckPolicy :=
  match b with
  | 0 => Some Disk
  | 1 => Some DiskAndRam
  | 2 => Some TwoDisks
  | 3 => Some Ram
  | _ => None
  end.

Definition from_byte (b : Z) : option AckPolicy := from_u8 b.
Definition to_byte (p : AckPolicy) : Z := as_u8 p.

Definition as_str (p : AckPolicy) : string :=
  match p with
  | Disk => "disk" | Ram => "ram" | DiskAndRam => "disk+ram" | TwoDisks => "two-disks"
  end%string.

Definition parse (s : string) : option AckPolicy :=
  if String.eqb s "disk" then Some Disk
  else if String.eqb s "ram" then Some Ram
  else if String.eqb s "disk+ram" then Some DiskAndRam
  else if String.eqb s "two-disks" then Some TwoDisks
  else None.

Definition parse_legacy (s : string) : option AckPolicy :=
  if String.eqb s "local" then Some Disk
  else if String.eqb s "replicated" then Some Ram
  else if String.eqb s "hybrid" then Some DiskAndRam
  else if String.eqb s "durably-replicated" then Some TwoDisks
  else parse s.

(** ** The copies each policy promises

    Over the nodes a gate evaluation saw: the primary's journal position and
    the cursors of the streaming replicas. *)

Definition replicas_at (l : Level) (s : Z) (rs : CursorView) : nat := copies l s rs.

Definition promised (p : AckPolicy) (s journal_pos : Z) (rs : CursorView) : Prop :=
  match p with
  | Disk => s <= journal_pos \/ (1 <= replicas_at Persisted s rs)%nat
  | Ram => (1 <= replicas_at InMemory s rs)%nat
  | DiskAndRam =>
    (s <= journal_pos \/ (1 <= replicas_at Persisted s rs)%nat) /\
    (1 <= replicas_at InMemory s rs)%nat
  | TwoDisks =>
    (s <= journal_pos /\ (1 <= replicas_at Persisted s rs)%nat) \/
    (2 <= replicas_at Persisted s rs)%nat
  end.

Lemma to_policy_accepted p : Policy_new (to_clauses p) = Ok (to_policy p).
Proof. by destruct p. Qed.

Lemma to_policy_valid p : valid_policy (to_policy p).
Proof.
  destruct p; split; cbn; try done; repeat constructor; unfold MAX_CLUSTER_SIZE; cbn; lia.
Qed.

Lemma clauses_to_policy p : clauses (to_policy p) = to_clauses p.
Proof. by destruct p. Qed.

(** The primary's share of a count. *)
Lemma copies_primary l s j rs :
  0 < s <= u64_max ->
  copies l s ({| in_memory := u64_max; persisted := j |} :: rs) =
  ((match l with InMemory => 1 | Persisted => if decide (s <= j)%Z then 1 else 0 end)
   + copies l s rs)%nat.
Proof.
  intros Hs. unfold copies. rewrite filter_cons.
  assert (Hr : reached l s {| in_memory := u64_max; persisted := j |} <->
               match l with InMemory => True | Persisted => s <= j end).
  { unfold reached. rewrite effective_cursor_eq. destruct l; cbn; lia. }
  case_decide as Hd; rewrite Hr in Hd; destruct l; try done.
  - by rewrite decide_True.
  - by rewrite decide_False.
Qed.

(** The replicas' cursors are wire sequences, below [u64::MAX]. *)
Definition live_cursors (journal_pos : Z) (rs : CursorView) : Prop :=
  0 <= journal_pos < u64_max /\
  Forall (fun n => 0 <= in_memory n < u64_max /\ 0 <= persisted n < u64_max) rs.

Lemma live_cursors_u64 j rs :
  live_cursors j rs -> cursors_u64 ({| in_memory := u64_max; persisted := j |} :: rs).
Proof.
  intros [Hj Hrs]. constructor; [cbn; widths; lia|].
  eapply Forall_impl; [exact Hrs|]. cbn. widths. lia.
Qed.

Lemma copies_live l j rs : live_cursors j rs -> copies l u64_max rs = 0%nat.
Proof.
  intros [_ Hrs]. unfold copies. apply length_zero_iff_nil.
  destruct (filter _ rs) as [|n ns] eqn:E; [done|]. exfalso.
  assert (Hn : n ∈ filter (reached l u64_max) rs) by (rewrite E; left).
  apply list_elem_of_filter in Hn as [Hr Hn]. rewrite Forall_forall in Hrs.
  specialize (Hrs n Hn). unfold reached in Hr. rewrite effective_cursor_eq in Hr.
  widths. destruct l; lia.
Qed.

Lemma satisfied_named p s j rs :
  0 < s <= u64_max ->
  satisfied_at (to_policy p) s ({| in_memory := u64_max; persisted := j |} :: rs) <->
  promised p s j rs.
Proof.
  intros Hs. unfold satisfied_at, replicas_at. rewrite clauses_to_policy.
  destruct p; cbn [to_clauses promised];
    rewrite ?Forall_cons, ?Forall_nil; cbn [count level];
    rewrite ?copies_primary by done; unfold replicas_at; cbn;
    repeat case_decide; lia.
Qed.

(** The four policies mean what their names say, for any live cursors. *)
Lemma named_evaluate p s j rs :
  live_cursors j rs -> 0 < s ->
  s <= evaluate (to_policy p) ({| in_memory := u64_max; persisted := j |} :: rs) <->
  promised p s j rs.
Proof.
  intros Hl Hs. pose proof (live_cursors_u64 j rs Hl) as Hu.
  rewrite evaluate_iff by auto using to_policy_valid.
  assert (Hm : 0 < u64_max <= u64_max) by (widths; lia).
  rewrite (satisfied_named p u64_max) by done.
  assert (Hno : ~ promised p u64_max j rs).
  { pose proof (copies_live Persisted j rs Hl). pose proof (copies_live InMemory j rs Hl).
    destruct Hl as [Hj _]. unfold promised, replicas_at. destruct p; lia. }
  destruct (decide (s <= u64_max)) as [Hle|Hgt].
  - rewrite satisfied_named by lia. tauto.
  - split.
    + intros [Hsat _]. pose proof (satisfied_at_u64 _ _ _ (to_policy_valid p) Hu Hsat). lia.
    + intros Hp. exfalso.
      assert (Hz : forall l, copies l s rs = 0%nat).
      { intros l. destruct (copies l s rs) eqn:E; [done|]. exfalso.
        assert (Hrs : cursors_u64 rs) by (apply Forall_cons in Hu; tauto).
        pose proof (copies_u64 rs l s Hrs). lia. }
      destruct Hl as [Hj _]. unfold promised, replicas_at in Hp.
      pose proof (Hz Persisted). pose proof (Hz InMemory). destruct p; lia.
Qed.

(** The four named policies keep their promise at the response gate:
    over the primary's journal position and the cursors of the streaming
    replicas, a sequence is within the evaluated durable position exactly when
    the copies the policy names exist: one fsynced copy anywhere ([disk]), a
    second copy in another node's memory ([ram]), both ([disk+ram]), or two
    fsynced copies ([two-disks]). *)
Theorem named_policy_meaning (p : AckPolicy) (s journal_pos : Z)
    (metrics : option ReplicationMetrics) (active : option (bool * bool)) :
  live_cursors journal_pos (tail (cursor_view journal_pos metrics active)) -> 0 < s ->
  s <= durable_pos (evaluate_durability (to_policy p) journal_pos metrics active) <->
  promised p s journal_pos (tail (cursor_view journal_pos metrics active)).
Proof. intros Hl Hs. by apply named_evaluate. Qed.

Lemma named_policy_meaning_witness :
  live_cursors 10 [{| in_memory := 12; persisted := 9 |}] /\
  (10 <= durable_pos (evaluate_durability (to_policy DiskAndRam) 10
     (Some {| m_acked_sequence := [9; 0]; m_in_memory_sequence := [12; 0]; m_bytes_sent := [0; 0];
              m_ack_latency_us := [0; 0]; m_acks_received := [0; 0]; m_catching_up := [false; false];
              m_evictions_total := 0; m_divergence_total := 0 |}) (Some (true, false))) <->
   promised DiskAndRam 10 10 [{| in_memory := 12; persisted := 9 |}]).
Proof.
  assert (H : live_cursors 10 [{| in_memory := 12; persisted := 9 |}]).
  { split; [vm_compute; split; [discriminate|reflexivity]|].
    repeat constructor; vm_compute; try discriminate; reflexivity. }
  split; [exact H|].
  exact (named_policy_meaning DiskAndRam 10 10
     (Some {| m_acked_sequence := [9; 0]; m_in_memory_sequence := [12; 0]; m_bytes_sent := [0; 0];
              m_ack_latency_us := [0; 0]; m_acks_received := [0; 0]; m_catching_up := [false; false];
              m_evictions_total := 0; m_divergence_total := 0 |}) (Some (true, false)) H ltac:(lia)).
Defined.

(** The policy byte of the journal and the operator's spelling both name one
    policy, and the deprecated spellings extend the current ones. *)
Lemma from_to_byte p : from_byte (to_byte p) = Some p.
Proof. by destruct p. Qed.

Lemma from_byte_inv b p : from_byte b = Some p -> b = to_byte p.
Proof.
  unfold from_byte, from_u8. intros H.
  destruct b as [|b|b]; [by injection H as <-| |discriminate H].
  do 2 (try destruct b; try discriminate H; try (injection H as <-; reflexivity)).
Qed.

Lemma needs_replica_iff p : needs_replica p = false <-> p = Disk.
Proof. destruct p; vm_compute; by split. Qed.

#[export] Hint Rewrite from_to_byte : zb.

End Named.
