(* ===== verification/Lineage.v ===== *)
(** * Journal events and lineage metadata

    [Event] is the journal's event type ([journal/src/event.rs]); [Policy]
    the lineage's ack policy and its fold, the shared record a replica keeps,
    and the atomic cells that publish a policy byte or a forced change to
    other threads ([transport-core/src/lineage.rs]). *)

From S2P Require Import Prelude Cursors.

Module Event.

(** [AckPolicyByte] is the bare byte: a policy the runtime validates later. *)
Record AckPolicyChange := { policy : Z; unwitnessed : bool }.

#[export] Instance AckPolicyChange_eq_dec : EqDecision AckPolicyChange.
Proof. solve_decision. Defined.

Inductive JournalEvent (E : Type) :=
| App (e : E)
| Tick (now_ns : Z)
| EpochBump (epoch : Z)
| AckPolicyChanged (c : AckPolicyChange)
| Shutdown.
Arguments App {E} e.
Arguments Tick {E} now_ns.
Arguments EpochBump {E} epoch.
Arguments AckPolicyChanged {E} c.
Arguments Shutdown {E}.

Section predicates.
Context {E : Type} (app_is_query : E -> bool).

Definition is_query (ev : JournalEvent E) : bool :=
  match ev with
  | App e => app_is_query e
  | Tick _ | EpochBump _ | AckPolicyChanged _ | Shutdown => false
  end.

Definition ack_policy_change (ev : JournalEvent E) : option AckPolicyChange :=
  match ev with
  | AckPolicyChanged c => Some c
  | Tick _ | EpochBump _ | Shutdown | App _ => None
  end.

Definition is_shutdown (ev : JournalEvent E) : bool :=
  match ev with Shutdown => true | _ => false end.

Definition takes_wire_seq (ev : JournalEvent E) : bool :=
  negb (is_query ev) && negb (is_shutdown ev).
End predicates.

End Event.

Module Policy.
Import Event.

Record LineagePolicy := {
  change : AckPolicyChange;
  wire_seq : Z;
  previous : option Z
}.

#[export] Instance LineagePolicy_eq_dec : EqDecision LineagePolicy.
Proof. solve_decision. Defined.

Definition in_force (p : LineagePolicy) : Z := policy (change p).

(** [LineagePolicy::after]. *)
Definition after (current : option LineagePolicy) (ws : Z) (c : AckPolicyChange) : LineagePolicy :=
  match current with
  | Some cur =>
    if policy (change cur) =? policy c then
      {| change := {| policy := policy c;
                      unwitnessed := unwitnessed (change cur) || unwitnessed c |};
         wire_seq := wire_seq cur; previous := previous cur |}
    else {| change := c; wire_seq := ws; previous := Some (in_force cur) |}
  | None => {| change := c; wire_seq := ws; previous := None |}
  end.

Inductive LineageEvent := Epoch (e : Z) | AckPolicy (c : AckPolicyChange).

Record Lineage := { epoch : Z; ack_policy : option LineagePolicy }.

Definition GENESIS : Lineage := {| epoch := 0; ack_policy := None |}.

Definition observe (l : Lineage) (ws : Z) (ev : LineageEvent) : Lineage :=
  match ev with
  | Epoch e => {| epoch := Slots.observe_into (epoch l) e; ack_policy := ack_policy l |}
  | AckPolicy c => {| epoch := epoch l; ack_policy := Some (after (ack_policy l) ws c) |}
  end.

(** [SharedLineagePolicy]: the mutex makes each operation atomic, so the
    record is its value. *)
Definition shared_new (p : option LineagePolicy) : option LineagePolicy := p.
Definition shared_store (_ : option LineagePolicy) (p : option LineagePolicy)
  : option LineagePolicy := p.
Definition shared_observe (r : option LineagePolicy) (ws : Z) (c : AckPolicyChange)
  : option LineagePolicy := Some (after r ws c).

(** [LineagePolicyCell]'s [u16] encoding. *)
Definition NO_POLICY : Z := u16_max.
Definition cell_encode (p : option Z) : Z := match p with None => NO_POLICY | Some b => b end.
Definition cell_decode (raw : Z) : option Z := if raw <=? u8_max then Some raw else None.

(** The forced-policy cell: two words behind a seqlock. *)
Record ForcedPolicy := { f_wire_seq : Z; f_policy : Z }.

Definition FORCED_PRESENT : Z := Z.shiftl 1 8.

Definition forced_empty : Z * Z := (0, 0).

Definition forced_store (f : ForcedPolicy) : Z * Z :=
  (f_wire_seq f, Z.lor FORCED_PRESENT (f_policy f)).

Definition forced_load (w : Z * Z) : option ForcedPolicy :=
  if Z.land (snd w) FORCED_PRESENT =? 0 then None
  else Some {| f_wire_seq := fst w; f_policy := Z.land (snd w) u8_max |}.

(** ** The fold names the last transition *)

(** A history of journaled changes, oldest first. *)
Abbreviation history := (list (Z * AckPolicyChange)).

Definition fold_changes (r : option LineagePolicy) (h : history) : option LineagePolicy :=
  foldl (fun r x => shared_observe r x.1 x.2) r h.

(** The specification: [h] ends with a run of changes naming one policy,
    started by the transition at [w]. *)
Definition last_run (h : history) (pre : history) (w : Z) (c : AckPolicyChange) (rest : history)
    : Prop :=
  h = pre ++ (w, c) :: rest /\
  Forall (fun x => policy (snd x) = policy c) rest /\
  (forall x, last pre = Some x -> policy (snd x) <> policy c).

Definition run_policy (pre : history) (w : Z) (c : AckPolicyChange) (rest : history)
    : LineagePolicy :=
  {| change := {| policy := policy c;
                  unwitnessed := existsb (fun x => unwitnessed (snd x)) ((w, c) :: rest) |};
     wire_seq := w;
     previous := (fun x => policy (snd x)) <$> last pre |}.

Lemma fold_changes_snoc r h w c :
  fold_changes r (h ++ [(w, c)]) = Some (after (fold_changes r h) w c).
Proof. unfold fold_changes. by rewrite foldl_app. Qed.

Lemma fold_changes_run h :
  h <> [] -> exists pre w c rest, last_run h pre w c rest /\
    fold_changes None h = Some (run_policy pre w c rest).
Proof.
  induction h as [|[w c] h IH] using rev_ind; [done|]. intros _.
  rewrite fold_changes_snoc. destruct (decide (h = [])) as [->|Hne].
  { exists [], w, c, []. split; [by repeat split|]. unfold run_policy. cbn.
    rewrite orb_false_r. by destruct c. }
  destruct (IH Hne) as (pre&w0&c0&rest&(->&Hrest&Hpre)&Hf). rewrite Hf. cbn.
  destruct (policy c0 =? policy c) eqn:E; zb.
  - exists pre, w0, c0, (rest ++ [(w, c)]). split.
    + repeat split; [by rewrite <- app_assoc| |done]. apply Forall_app. split; [done|]. by constructor.
    + unfold run_policy. cbn. rewrite existsb_app, E. cbn. by rewrite orb_false_r, orb_assoc.
  - exists (pre ++ (w0, c0) :: rest), w, c, []. split.
    + repeat split; [constructor|]. intros x Hx. rewrite last_app_cons in Hx.
      destruct rest as [|r rest _] using rev_ind; cbn in Hx; [by simplify_eq|].
      rewrite app_comm_cons, last_snoc in Hx. simplify_eq. apply Forall_app in Hrest as [_ Hr].
      rewrite Forall_singleton in Hr. cbn in Hr. by rewrite Hr.
    + unfold run_policy. cbn. rewrite orb_false_r. f_equal. destruct c as [p u]. f_equal.
      rewrite last_app_cons. unfold in_force. cbn.
      destruct rest as [|r rest _] using rev_ind; cbn; [done|].
      rewrite app_comm_cons, last_snoc. apply Forall_app in Hrest as [_ Hr].
      rewrite Forall_singleton in Hr. cbn in Hr |- *. by rewrite Hr.
Qed.

(** The lineage record is a function of the journaled history: folding
    every change of a non-empty history, it names the policy of the last
    change, the sequence of the first change of the run that repeats that
    policy (the transition), the policy in force before that run (none for
    the lineage's first), and whether any change of the run was journaled
    unwitnessed. A repeat of the policy in force never moves the transition. *)
Theorem lineage_names_last_transition (h : history) (p : LineagePolicy) :
  fold_changes None h = Some p ->
  exists pre w c rest, last_run h pre w c rest /\
    in_force p = policy c /\ wire_seq p = w /\
    previous p = ((fun x => policy (snd x)) <$> last pre) /\
    (unwitnessed (change p) = true <->
     exists x, x ∈ (w, c) :: rest /\ unwitnessed (snd x) = true).
Proof.
  intros Hf. destruct (decide (h = [])) as [->|Hne]; [done|].
  destruct (fold_changes_run h Hne) as (pre&w&c&rest&Hrun&Hf').
  rewrite Hf' in Hf. injection Hf as <-. exists pre, w, c, rest.
  split; [done|]. do 3 (split; [done|]).
  change (unwitnessed (change (run_policy pre w c rest)))
    with (existsb (fun x => unwitnessed (snd x)) ((w, c) :: rest)).
  rewrite existsb_exists. by setoid_rewrite <- list_elem_of_In.
Qed.

Lemma lineage_names_last_transition_witness :
  exists pre w c rest,
    last_run [(3, {| policy := 1; unwitnessed := false |}); (7, {| policy := 0; unwitnessed := false |});
              (9, {| policy := 0; unwitnessed := true |})] pre w c rest /\
    in_force {| change := {| policy := 0; unwitnessed := true |}; wire_seq := 7; previous := Some 1 |}
      = policy c /\
    wire_seq {| change := {| policy := 0; unwitnessed := true |}; wire_seq := 7; previous := Some 1 |} = w /\
    previous {| change := {| policy := 0; unwitnessed := true |}; wire_seq := 7; previous := Some 1 |}
      = ((fun x => policy (snd x)) <$> last pre) /\
    (unwitnessed (change {| change := {| policy := 0; unwitnessed := true |}; wire_seq := 7;
                            previous := Some 1 |}) = true <->
     exists x, x ∈ (w, c) :: rest /\ unwitnessed (snd x) = true).
Proof. apply lineage_names_last_transition. reflexivity. Defined.

(** ** The cells are faithful *)

Lemma cell_roundtrip (p : option Z) :
  (forall b, p = Some b -> in_u8 b) -> cell_decode (cell_encode p) = p.
Proof.
  intros H. destruct p as [b|]; cbn; [|done]. specialize (H b eq_refl).
  unfold cell_decode. destruct (b <=? u8_max) eqn:E; zb; [done|]. widths. lia.
Qed.

Lemma forced_words b : in_u8 b ->
  Z.land (Z.lor FORCED_PRESENT b) FORCED_PRESENT = FORCED_PRESENT /\
  Z.land (Z.lor FORCED_PRESENT b) u8_max = b.
Proof.
  intros Hb. unfold u8_max. change (2 ^ 8 - 1) with (Z.ones 8).
  assert (Hhi : forall i, 8 <= i -> Z.testbit b i = false).
  { intros i Hi. apply Z.testbit_false; [lia|]. rewrite Z.div_small; [done|].
    split; [widths; lia|]. apply Z.lt_le_trans with (2 ^ 8); [widths; lia|].
    apply Z.pow_le_mono_r; lia. }
  split; apply Z.bits_inj'; intros i Hi; rewrite Z.land_spec, Z.lor_spec;
    unfold FORCED_PRESENT; rewrite Z.shiftl_spec by done.
  - destruct (Z.testbit 1 (i - 8)) eqn:E; [by rewrite orb_true_l|].
    by rewrite orb_false_l, andb_false_r.
  - rewrite Z.testbit_ones_nonneg by lia. destruct (i <? 8) eqn:Hc; zb.
    + rewrite andb_true_r, Z.testbit_neg_r by lia. done.
    + by rewrite andb_false_r, Hhi.
Qed.

(** What a thread publishes through the policy cells is what another
    reads: the [u16] cell returns every policy byte and "none" unchanged, and
    the forced-change words return the last forced change, policy byte zero
    included, and nothing before the first. *)
Lemma policy_cells_roundtrip (p : option Z) (f : ForcedPolicy) :
  (forall b, p = Some b -> in_u8 b) -> in_u8 (f_policy f) ->
  cell_decode (cell_encode p) = p /\
  forced_load (forced_store f) = Some f /\ forced_load forced_empty = None.
Proof.
  intros Hp Hf. split; [by apply cell_roundtrip|]. split; [|done].
  destruct (forced_words _ Hf) as [H1 H2]. destruct f as [ws b].
  unfold forced_load, forced_store in *. cbn [f_wire_seq f_policy fst snd] in *. by rewrite H1, H2.
Qed.

End Policy.
