(* ===== verification/Stages.v ===== *)
(** * The stages that rebuild application state

    [Dispatch] is the one path by which a journaled event reaches the
    application ([transport-core/src/dispatch.rs]). Three consumers call it:
    the live matching stage ([Live], [pipeline.rs]), journal replay on
    recovery ([Replay], [journaled_app.rs]) and the shadow stage that takes
    snapshots ([Shadow], [shadow.rs]). [Journaling] is the sequencing rule of
    the journal stage, which decides the entries replay will see. The
    application is any instance of the class [Application]; nothing is assumed
    of it beyond being a function of what it is handed. *)

From S2P Require Import Prelude Cursors Lineage.
Import Lineage.Event Lineage.Policy.

Module Dispatch.

Record ApplyCtx := { now_ns : Z; ctx_key_hash : Z }.

Record QueryCtx := {
  journal_sequence : Z;
  active_connections : Z;
  events_processed : Z;
  q_key_hash : Z
}.

(** The [Application] trait: what the stages call. *)
Class Application (A E R Q : Type) := {
  tick : A -> Z -> A * list R;
  apply : A -> E -> ApplyCtx -> A * list R;
  query : A -> E -> QueryCtx -> option Q;
  app_is_query : E -> bool
}.

(** [TickWatermark]: nanoseconds; [GENESIS] is zero. *)
Definition WATERMARK_GENESIS : Z := 0.

Record WarmApp (A : Type) := { app : A; tick_watermark : Z }.
Arguments app {A} w.
Arguments tick_watermark {A} w.
Arguments Build_WarmApp {A} app tick_watermark.

Definition warm_genesis {A} (a : A) : WarmApp A :=
  {| app := a; tick_watermark := WATERMARK_GENESIS |}.

Section dispatch.
Context {A E R Q : Type} `{Application A E R Q}.

(** The clock step, then the event; the lineage sink's argument and the
    reports are returned. *)
Definition dispatch (w : WarmApp A) (ev : JournalEvent E) (ctx : ApplyCtx)
    : WarmApp A * option LineageEvent * list R :=
  let '(w, reports) :=
    if tick_watermark w <? now_ns ctx then
      let '(a, rs) := tick (app w) (now_ns ctx) in
      ({| app := a; tick_watermark := now_ns ctx |}, rs)
    else (w, []) in
  match ev with
  | App e =>
    let '(a, rs) := apply (app w) e ctx in
    ({| app := a; tick_watermark := tick_watermark w |}, None, reports ++ rs)
  | Tick t =>
    let '(a, rs) := tick (app w) t in
    ({| app := a; tick_watermark := tick_watermark w |}, None, reports ++ rs)
  | EpochBump e => (w, Some (Epoch e), reports)
  | AckPolicyChanged c => (w, Some (AckPolicy c), reports)
  | Shutdown => (w, None, reports)
  end.

(** The watermark is the newest timestamp dispatched. *)
Lemma dispatch_watermark w ev ctx :
  tick_watermark (dispatch w ev ctx).1.1 = Z.max (tick_watermark w) (now_ns ctx).
Proof.
  unfold dispatch. destruct (tick_watermark w <? now_ns ctx) eqn:E0; zb.
  - destruct (tick (app w) (now_ns ctx)) as [a rs].
    destruct ev; cbn; repeat (case_match; cbn); lia.
  - destruct ev; cbn; repeat (case_match; cbn); lia.
Qed.
End dispatch.
End Dispatch.

Module Journaling.
Import Dispatch.

Record InputSlot (E : Type) := {
  connection_id : Z;
  request_id : Z;
  key_hash : Z;
  sequence : Z;
  timestamp_ns : Z;
  event : JournalEvent E
}.
Arguments connection_id {E} i.
Arguments request_id {E} i.
Arguments key_hash {E} i.
Arguments sequence {E} i.
Arguments timestamp_ns {E} i.
Arguments event {E} i.
Arguments Build_InputSlot {E}.

Definition node_event {E} (ev : JournalEvent E) (ts : Z) : InputSlot E :=
  {| connection_id := 0; request_id := 0; key_hash := 0; sequence := 0;
     timestamp_ns := ts; event := ev |}.

Definition client {E} (conn req key : Z) (e : E) (ts : Z) : InputSlot E :=
  {| connection_id := conn; request_id := req; key_hash := key; sequence := 0;
     timestamp_ns := ts; event := App e |}.

Definition shutdown_sentinel {E} : InputSlot E :=
  {| connection_id := 0; request_id := 0; key_hash := 0; sequence := 0;
     timestamp_ns := 0; event := Shutdown |}.

(** What reaches the journal of one slot ([codec.rs]'s [JournalEntry]). *)
Record Entry (E : Type) := {
  e_sequence : Z;
  e_timestamp_ns : Z;
  e_key_hash : Z;
  e_event : JournalEvent E
}.
Arguments e_sequence {E} e.
Arguments e_timestamp_ns {E} e.
Arguments e_key_hash {E} e.
Arguments e_event {E} e.
Arguments Build_Entry {E}.

Inductive SequenceError := ReplicaSequenceMismatch (expected actual : Z).

(** The encoder's counter: [allocate_sequence], [adopt_sequence]. *)
Definition allocate_sequence (next : Z) : Z * Z := (next, next + 1).

Definition adopt_sequence (next seq : Z) : result (Z * Z) SequenceError :=
  if negb (seq =? next) then Err (ReplicaSequenceMismatch next seq)
  else Ok (allocate_sequence next).

Section sequencing.
Context {A E R Q : Type} `{Application A E R Q}.

Definition slot_entry (s : InputSlot E) (seq : Z) : Entry E :=
  {| e_sequence := seq; e_timestamp_ns := timestamp_ns s;
     e_key_hash := key_hash s; e_event := event s |}.

(** The sequencing loop's body over a span of slots: the sentinel stops it,
    a query is skipped, every other slot takes the next sequence (adopting
    the one a replica's slot carries). Returns the counter, the entries and
    whether the sentinel was seen. *)
Fixpoint sequence_span (next : Z) (slots : list (InputSlot E))
    : result (Z * list (Entry E) * bool) SequenceError :=
  match slots with
  | [] => Ok (next, [], false)
  | slot :: rest =>
    if is_shutdown (event slot) then Ok (next, [], true)
    else if negb (takes_wire_seq app_is_query (event slot)) then sequence_span next rest
    else
      sn <-? (if negb (sequence slot =? 0) then adopt_sequence next (sequence slot)
              else Ok (allocate_sequence next)) ;;
      r <-? sequence_span (snd sn) rest ;;
      let '(next', entries, saw) := r in
      Ok (next', slot_entry slot (fst sn) :: entries, saw)
  end.

(** [drain_remaining]: the sentinel is skipped like a query. *)
Fixpoint sequence_drain (next : Z) (slots : list (InputSlot E))
    : result (Z * list (Entry E)) SequenceError :=
  match slots with
  | [] => Ok (next, [])
  | slot :: rest =>
    if negb (takes_wire_seq app_is_query (event slot)) then sequence_drain next rest
    else
      sn <-? (if negb (sequence slot =? 0) then adopt_sequence next (sequence slot)
              else Ok (allocate_sequence next)) ;;
      r <-? sequence_drain (snd sn) rest ;;
      let '(next', entries) := r in
      Ok (next', slot_entry slot (fst sn) :: entries)
  end.

(** Slots a primary's producers publish: no sequence of their own, no
    sentinel yet. *)
Definition primary_slots (slots : list (InputSlot E)) : Prop :=
  Forall (fun s => sequence s = 0 /\ is_shutdown (event s) = false) slots.

(** The reference: the journaled slots, numbered from [next]. *)
Fixpoint entries_of (next : Z) (slots : list (InputSlot E)) : list (Entry E) :=
  match slots with
  | [] => []
  | slot :: rest =>
    if is_query app_is_query (event slot) then entries_of next rest
    else slot_entry slot next :: entries_of (next + 1) rest
  end.

Definition journaled (slots : list (InputSlot E)) : Z := Z.of_nat (length (entries_of 0 slots)).

Lemma entries_of_length n m slots :
  length (entries_of n slots) = length (entries_of m slots).
Proof.
  revert n m; induction slots as [|s slots IH]; intros n m; cbn; [done|].
  case_match; [apply IH|]. cbn. f_equal. apply IH.
Qed.

Lemma journaled_cons s slots :
  journaled (s :: slots) =
  (if is_query app_is_query (event s) then 0 else 1) + journaled slots.
Proof.
  unfold journaled. cbn. case_match; [done|]. cbn [length].
  rewrite (entries_of_length (0 + 1) 0). lia.
Qed.

Lemma entries_of_app n l1 l2 :
  entries_of n (l1 ++ l2) = entries_of n l1 ++ entries_of (n + journaled l1) l2.
Proof.
  revert n; induction l1 as [|s l1 IH]; intros n; cbn.
  { unfold journaled. cbn. by rewrite Z.add_0_r. }
  rewrite journaled_cons. case_match; rewrite IH; cbn.
  - by rewrite Z.add_0_l.
  - by rewrite Z.add_assoc.
Qed.

Lemma entries_of_lookup n slots k e :
  entries_of n slots !! k = Some e -> e_sequence e = n + Z.of_nat k.
Proof.
  revert n k; induction slots as [|s slots IH]; intros n k; cbn; [done|].
  case_match; [apply IH|]. destruct k as [|k]; cbn.
  - intros. simplify_eq/=. lia.
  - intros ->%IH. lia.
Qed.

Lemma entries_of_bounds n slots e :
  e ∈ entries_of n slots -> n <= e_sequence e < n + journaled slots.
Proof.
  intros [k Hk]%list_elem_of_lookup. rewrite (entries_of_lookup _ _ _ _ Hk).
  apply lookup_lt_Some in Hk. unfold journaled. rewrite (entries_of_length 0 n). lia.
Qed.

Lemma sequence_span_primary n slots :
  primary_slots slots ->
  sequence_span n slots = Ok (n + journaled slots, entries_of n slots, false).
Proof.
  revert n; induction slots as [|s slots IH]; intros n Hs; cbn.
  { unfold journaled. cbn. by rewrite Z.add_0_r. }
  apply Forall_cons in Hs as [[H0 Hsd] Hs]. rewrite Hsd, journaled_cons.
  unfold takes_wire_seq. rewrite Hsd, andb_true_r, negb_involutive.
  destruct (is_query app_is_query (event s)) eqn:E0; [by rewrite IH, Z.add_0_l|].
  rewrite H0. cbn. rewrite IH by done. cbn. by rewrite Z.add_assoc.
Qed.

(** A replica's slots: each stamped with the next sequence. *)
Lemma adopt_sequence_ok next seq r :
  adopt_sequence next seq = Ok r -> seq = next /\ r = (next, next + 1).
Proof. unfold adopt_sequence. destruct (seq =? next) eqn:E0; cbn; intros; zb; by simplify_eq. Qed.
End sequencing.
End Journaling.

Module Live.
Import Dispatch Journaling.

Inductive OutputPayload (R Q : Type) :=
| Report (r : R)
| QueryResponse (q : Q)
| BatchEnd
| PolicyChange (c : AckPolicyChange).
Arguments Report {R Q} r.
Arguments QueryResponse {R Q} q.
Arguments BatchEnd {R Q}.
Arguments PolicyChange {R Q} c.

Record OutputSlot (R Q : Type) := {
  o_connection_id : Z;
  o_request_id : Z;
  input_seq : Z;
  o_wire_seq : Z;
  payload : OutputPayload R Q;
  is_last_in_request : bool
}.
Arguments o_connection_id {R Q} o.
Arguments o_request_id {R Q} o.
Arguments input_seq {R Q} o.
Arguments o_wire_seq {R Q} o.
Arguments payload {R Q} o.
Arguments is_last_in_request {R Q} o.
Arguments Build_OutputSlot {R Q}.

(** The matching stage's lineage sink: the fence's epoch, the "journaled"
    gauge, the forced cell. *)
Record LiveLineage := { fence : Slots.FenceState; journaled_policy : Z; forced_policy : Z * Z }.

Definition observe_live_lineage (l : LiveLineage) (ws : Z) (ev : LineageEvent) : LiveLineage :=
  match ev with
  | Epoch e =>
    {| fence := snd (Slots.observe_epoch (fence l) e);
       journaled_policy := journaled_policy l; forced_policy := forced_policy l |}
  | AckPolicy c =>
    {| fence := fence l;
       journaled_policy := cell_encode (Some (policy c));
       forced_policy :=
         if unwitnessed c then forced_store {| f_wire_seq := ws; f_policy := policy c |}
         else forced_policy l |}
  end.

Section live.
Context {A E R Q : Type} `{Application A E R Q}.

Definition reply_slot (input : InputSlot E) (seq ws : Z) (p : OutputPayload R Q) (last : bool)
    : OutputSlot R Q :=
  {| o_connection_id := connection_id input; o_request_id := request_id input;
     input_seq := seq; o_wire_seq := ws; payload := p; is_last_in_request := last |}.

Definition ack_policy_change_slot (input : InputSlot E) (seq ws : Z) (c : AckPolicyChange)
    : OutputSlot R Q :=
  {| o_connection_id := 0; o_request_id := request_id input;
     input_seq := seq; o_wire_seq := ws; payload := PolicyChange c; is_last_in_request := true |}.

Record MatchingStage := {
  warm : WarmApp A;
  next_wire_seq : Z;
  lineage_sink : LiveLineage;
  local_events : Z
}.

(** The wire-sequence stamp: a query carries the last one allocated. *)
Definition stamp (next : Z) (is_q : bool) : Z * Z :=
  if is_q then (sat_sub next 1, next) else (next, sat_add next 1).

Definition sink (l : LiveLineage) (ws : Z) (ev : option LineageEvent) : LiveLineage :=
  match ev with Some ev => observe_live_lineage l ws ev | None => l end.

(** The output slots of one event. *)
Definition emit (slot : InputSlot E) (seq ws : Z) (reports : list R) (query_report : option Q)
    (policy_change : option AckPolicyChange) : list (OutputSlot R Q) :=
  let last_is_query := bool_decide (is_Some query_report) in
  let last_is_change := bool_decide (is_Some policy_change) in
  if bool_decide (reports = []) && negb last_is_query && negb last_is_change then
    if negb (connection_id slot =? 0) then [reply_slot slot seq ws BatchEnd true] else []
  else
    imap (fun j r => reply_slot slot seq ws (Report r)
            (bool_decide (S j = length reports) && negb last_is_query && negb last_is_change))
         reports
    ++ match query_report with
       | Some q => [reply_slot slot seq ws (QueryResponse q) true] | None => [] end
    ++ match policy_change with
       | Some c => [ack_policy_change_slot slot seq ws c] | None => [] end.

(** One slot of the run loop, the sentinel apart. [journal_seq] and [conns]
    are the counters loaded once per batch for queries. *)
Definition match_slot (journal_seq conns : Z) (st : MatchingStage) (seq : Z) (slot : InputSlot E)
    : MatchingStage * list (OutputSlot R Q) :=
  let is_q := is_query app_is_query (event slot) in
  let '(ws, next) := stamp (next_wire_seq st) is_q in
  let '(st', reports, query_report) :=
    if is_q then
      let qctx := {| journal_sequence := journal_seq; active_connections := conns;
                     events_processed := local_events st; q_key_hash := key_hash slot |} in
      ({| warm := warm st; next_wire_seq := next; lineage_sink := lineage_sink st;
          local_events := local_events st + 1 |}, [],
       match event slot with App e => query (app (warm st)) e qctx | _ => None end)
    else
      let '(w, ev, rs) := dispatch (warm st) (event slot)
                            {| now_ns := timestamp_ns slot; ctx_key_hash := key_hash slot |} in
      ({| warm := w; next_wire_seq := next; lineage_sink := sink (lineage_sink st) ws ev;
          local_events := local_events st + 1 |}, rs, None) in
  (st', emit slot seq ws reports query_report (ack_policy_change (event slot))).

(** A batch of slots, from input sequence [seq]; [true] once the sentinel
    is seen, which ends the stage. *)
Fixpoint match_batch (journal_seq conns : Z) (st : MatchingStage) (seq : Z)
    (slots : list (InputSlot E)) : MatchingStage * list (OutputSlot R Q) * bool :=
  match slots with
  | [] => (st, [], false)
  | slot :: rest =>
    if is_shutdown (event slot) then (st, [], true)
    else
      let '(st1, outs1) := match_slot journal_seq conns st seq slot in
      let '(st2, outs2, saw) := match_batch journal_seq conns st1 (seq + 1) rest in
      (st2, outs1 ++ outs2, saw)
  end.

(** [run] over the batches the ring hands it, each with the counters it
    loaded; the warm application is what it returns. *)
Fixpoint matching_run (st : MatchingStage) (seq : Z)
    (batches : list (Z * Z * list (InputSlot E))) : MatchingStage * list (OutputSlot R Q) * bool :=
  match batches with
  | [] => (st, [], false)
  | (js, conns, slots) :: rest =>
    let '(st1, outs1, saw) := match_batch js conns st seq slots in
    if saw : bool then (st1, outs1, true)
    else
      let '(st2, outs2, saw2) := matching_run st1 (seq + Z.of_nat (length slots)) rest in
      (st2, outs1 ++ outs2, saw2)
  end.

(** [drain_remaining], one slot: queries are dropped, and every other slot
    is dispatched, the sentinel included. *)
Definition drain_slot (st : MatchingStage) (seq : Z) (slot : InputSlot E)
    : MatchingStage * list (OutputSlot R Q) :=
  let is_q := is_query app_is_query (event slot) in
  let '(ws, next) := stamp (next_wire_seq st) is_q in
  if is_q then
    ({| warm := warm st; next_wire_seq := next; lineage_sink := lineage_sink st;
        local_events := local_events st |}, [])
  else
    let '(w, ev, reports) := dispatch (warm st) (event slot)
                          {| now_ns := timestamp_ns slot; ctx_key_hash := key_hash slot |} in
    let change := ack_policy_change (event slot) in
    let last_is_change := bool_decide (is_Some change) in
    ({| warm := w; next_wire_seq := next; lineage_sink := sink (lineage_sink st) ws ev;
        local_events := local_events st |},
     if bool_decide (reports = []) && negb last_is_change then
       [reply_slot slot seq ws BatchEnd true]
     else
       imap (fun j r => reply_slot slot seq ws (Report r)
               (bool_decide (S j = length reports) && negb last_is_change)) reports
       ++ match change with Some c => [ack_policy_change_slot slot seq ws c] | None => [] end).

Fixpoint matching_drain (st : MatchingStage) (slots : list (Z * InputSlot E))
    : MatchingStage * list (OutputSlot R Q) :=
  match slots with
  | [] => (st, [])
  | (seq, slot) :: rest =>
    let '(st1, outs1) := drain_slot st seq slot in
    let '(st2, outs2) := matching_drain st1 rest in
    (st2, outs1 ++ outs2)
  end.
End live.
Arguments MatchingStage A : clear implicits.
Arguments Build_MatchingStage {A}.
End Live.

Module Shadow.
Import Dispatch Journaling.

Record ShadowState (A : Type) := { s_warm : WarmApp A; s_lineage : Lineage; s_next_wire_seq : Z }.
Arguments s_warm {A} s.
Arguments s_lineage {A} s.
Arguments s_next_wire_seq {A} s.
Arguments Build_ShadowState {A}.

Section shadow.
Context {A E R Q : Type} `{Application A E R Q}.

(** The shadow's handling of one slot: queries skipped, reports dropped. *)
Definition shadow_slot (st : ShadowState A) (slot : InputSlot E) : ShadowState A :=
  if is_query app_is_query (event slot) then st
  else
    let ws := s_next_wire_seq st in
    let next := if takes_wire_seq app_is_query (event slot) then sat_add ws 1 else ws in
    let '(w, ev, _) := dispatch (s_warm st) (event slot)
                         {| now_ns := timestamp_ns slot; ctx_key_hash := key_hash slot |} in
    {| s_warm := w;
       s_lineage := match ev with Some ev => observe (s_lineage st) ws ev | None => s_lineage st end;
       s_next_wire_seq := next |}.

Definition shadow_run (st : ShadowState A) (slots : list (InputSlot E)) : ShadowState A :=
  foldl shadow_slot st slots.
End shadow.

(** [SnapshotSchedule]. *)
Record SnapshotSchedule := { due : bool; attempts : Z }.
Definition schedule_new : SnapshotSchedule := {| due := false; attempts := 0 |}.
Definition on_tick (s : SnapshotSchedule) : option Z * SnapshotSchedule :=
  (if due s then Some (attempts s) else None, {| due := true; attempts := attempts s |}).
Definition should_attempt (s : SnapshotSchedule) : bool := due s.
Definition on_deferred (s : SnapshotSchedule) : SnapshotSchedule :=
  {| due := due s; attempts := sat_add (attempts s) 1 |}.
Definition schedule_finish (s : SnapshotSchedule) : Z * SnapshotSchedule :=
  (sat_add (attempts s) 1, {| due := false; attempts := 0 |}).
End Shadow.

Module Replay.
Import Dispatch Journaling.

(** The header fields replay reads. *)
Record SnapshotHeader := { snap_sequence : Z; recorded_watermark : option Z }.

(** [resume_tick_watermark]. *)
Definition resume_tick_watermark (h : SnapshotHeader) (anchor_ts : option Z) : Z :=
  match recorded_watermark h with
  | Some w => w
  | None =>
    if snap_sequence h =? 0 then WATERMARK_GENESIS
    else match anchor_ts with Some ts => ts | None => WATERMARK_GENESIS end
  end.

Inductive ReplayClock := Settled (w : Z) | AwaitingAnchor (h : SnapshotHeader).

Definition running_from (w : Z) : ReplayClock := Settled w.

Definition from_snapshot (h : SnapshotHeader) : ReplayClock :=
  if bool_decide (is_Some (recorded_watermark h)) || (snap_sequence h =? 0)
  then Settled (resume_tick_watermark h None) else AwaitingAnchor h.

Definition at_anchor (c : ReplayClock) (ts : Z) : ReplayClock :=
  match c with
  | AwaitingAnchor h => Settled (resume_tick_watermark h (Some ts))
  | Settled w => Settled w
  end.

Definition running (c : ReplayClock) : Z :=
  match c with Settled w => w | AwaitingAnchor h => resume_tick_watermark h None end.

Definition finish (c : ReplayClock) : Z := running c.

Record ReplayState (A : Type) := { r_app : A; r_clock : ReplayClock; r_lineage : Lineage }.
Arguments r_app {A} r.
Arguments r_clock {A} r.
Arguments r_lineage {A} r.
Arguments Build_ReplayState {A}.

(** What the snapshot header, the shadow's position and the journal's fsync
    boundary hold ([FsyncState], [try_save_snapshot]). *)
Record FsyncState (Hash : Type) := { f_journal_seq : Z; f_chain_hash : Hash; f_input_ring_seq : Z }.
Arguments f_journal_seq {Hash} f.
Arguments f_chain_hash {Hash} f.
Arguments f_input_ring_seq {Hash} f.

Record Snapshot (A Hash : Type) := {
  sn_app : A; sn_header : SnapshotHeader; sn_chain : Hash; sn_lineage : Lineage
}.
Arguments sn_app {A Hash} s.
Arguments sn_header {A Hash} s.
Arguments sn_chain {A Hash} s.
Arguments sn_lineage {A Hash} s.
Arguments Build_Snapshot {A Hash}.

Section replay.
Context {A E R Q : Type} `{Application A E R Q}.
Context {Hash : Type} `{!EqDecision Hash}.

Inductive ReplayError := SnapshotChainMismatch (seq : Z) (expected actual : Hash).

(** One entry the reader surfaced, with the chain value after it. *)
Definition replay_entry (snap_seq : Z) (snap_chain : option Hash) (st : ReplayState A)
    (entry : Entry E) (chain_hash : option Hash) : result (ReplayState A) ReplayError :=
  let mismatch :=
    match snap_chain, chain_hash with
    | Some expected, Some actual =>
      if (e_sequence entry =? snap_seq) && negb (bool_decide (actual = expected))
      then Some (expected, actual) else None
    | _, _ => None
    end in
  match mismatch with
  | Some (expected, actual) => Err (SnapshotChainMismatch snap_seq expected actual)
  | None =>
    let clock := if e_sequence entry =? snap_seq then at_anchor (r_clock st) (e_timestamp_ns entry)
                 else r_clock st in
    if snap_seq <? e_sequence entry then
      let '(w, ev, _) := dispatch {| app := r_app st; tick_watermark := running clock |}
        (e_event entry) {| now_ns := e_timestamp_ns entry; ctx_key_hash := e_key_hash entry |} in
      Ok {| r_app := app w; r_clock := Settled (tick_watermark w);
            r_lineage := match ev with
                         | Some ev => observe (r_lineage st) (e_sequence entry) ev
                         | None => r_lineage st end |}
    else Ok {| r_app := r_app st; r_clock := clock; r_lineage := r_lineage st |}
  end.

Fixpoint replay_segment (snap_seq : Z) (snap_chain : option Hash) (st : ReplayState A)
    (entries : list (Entry E * option Hash)) : result (ReplayState A) ReplayError :=
  match entries with
  | [] => Ok st
  | (e, ch) :: rest =>
    st' <-? replay_entry snap_seq snap_chain st e ch ;;
    replay_segment snap_seq snap_chain st' rest
  end.

(** The shadow's save: only at the journal's last fsync boundary. *)
Definition try_save_snapshot (st : Shadow.ShadowState A) (next_read : Z) (f : FsyncState Hash)
    : option (Snapshot A Hash) :=
  if negb (f_input_ring_seq f =? next_read) then None
  else Some {| sn_app := app (Shadow.s_warm st);
               sn_header := {| snap_sequence := f_journal_seq f;
                               recorded_watermark := Some (tick_watermark (Shadow.s_warm st)) |};
               sn_chain := f_chain_hash f;
               sn_lineage := Shadow.s_lineage st |}.

Definition restore (s : Snapshot A Hash) : ReplayState A :=
  {| r_app := sn_app s; r_clock := from_snapshot (sn_header s); r_lineage := sn_lineage s |}.

(** ** The reference: feed the journaled entries in order *)

Definition feed (st : WarmApp A * Lineage) (e : Entry E) : WarmApp A * Lineage :=
  let '(w, ev, _) := dispatch (fst st) (e_event e)
    {| now_ns := e_timestamp_ns e; ctx_key_hash := e_key_hash e |} in
  (w, match ev with Some ev => observe (snd st) (e_sequence e) ev | None => snd st end).

Definition replayed (st : ReplayState A) : WarmApp A * Lineage :=
  ({| app := r_app st; tick_watermark := finish (r_clock st) |}, r_lineage st).

Lemma replay_entry_feed snap_seq snap_chain st e ch :
  snap_seq < e_sequence e ->
  exists st', replay_entry snap_seq snap_chain st e ch = Ok st' /\
    replayed st' = feed (replayed st) e.
Proof.
  intros Hlt. unfold replay_entry, feed.
  assert ((e_sequence e =? snap_seq) = false) as -> by (apply Z.eqb_neq; lia).
  assert ((snap_seq <? e_sequence e) = true) as -> by (apply Z.ltb_lt; lia).
  destruct snap_chain, ch; cbn; unfold finish;
    (destruct (dispatch _ _ _) as [[w ev] rs]; eexists; split; [done|]; by destruct w).
Qed.

Lemma replay_after snap_seq snap_chain st entries :
  Forall (fun x => snap_seq < e_sequence (fst x)) entries ->
  exists st', replay_segment snap_seq snap_chain st entries = Ok st' /\
    replayed st' = foldl feed (replayed st) (entries.*1).
Proof.
  revert st; induction entries as [|[e ch] entries IH]; intros st Hall; cbn; [eauto|].
  apply Forall_cons in Hall as [Hlt Hall].
  destruct (replay_entry_feed snap_seq snap_chain st e ch Hlt) as (st1&Hst1&Hr1).
  rewrite Hst1. cbn. rewrite <- Hr1. by apply IH.
Qed.

(** Entries before the anchor change nothing; the anchor itself settles the
    clock, if its chain value agrees. *)
Lemma replay_before snap_seq snap_chain st entries tail :
  Forall (fun x => e_sequence (fst x) < snap_seq) entries ->
  replay_segment snap_seq snap_chain st (entries ++ tail) =
  replay_segment snap_seq snap_chain st tail.
Proof.
  induction entries as [|[e ch] entries IH]; intros Hall; cbn; [done|].
  apply Forall_cons in Hall as [Hlt Hall]. cbn in Hlt.
  unfold replay_entry.
  assert ((e_sequence e =? snap_seq) = false) as -> by (apply Z.eqb_neq; lia).
  assert ((snap_seq <? e_sequence e) = false) as -> by (apply Z.ltb_ge; lia).
  destruct snap_chain, ch; cbn; rewrite <- IH by done; by destruct st.
Qed.

Lemma replay_anchor snap_seq snap_chain st e ch :
  e_sequence e = snap_seq ->
  (forall a b, snap_chain = Some a -> ch = Some b -> a = b) ->
  replay_entry snap_seq snap_chain st e ch =
  Ok {| r_app := r_app st; r_clock := at_anchor (r_clock st) (e_timestamp_ns e);
        r_lineage := r_lineage st |}.
Proof.
  intros Heq Hch. unfold replay_entry. rewrite Heq, Z.eqb_refl, Z.ltb_irrefl.
  destruct snap_chain as [a|], ch as [b|]; cbn; try done.
  rewrite (Hch a b eq_refl eq_refl), bool_decide_true by done. done.
Qed.
End replay.
End Replay.

Module Agreement.
Import Dispatch Journaling Live Shadow Replay.

Section agreement.
Context {A E R Q : Type} `{Application A E R Q}.
Context {Hash : Type} `{!EqDecision Hash}.

(** The live sink tracks what replay folds: the same epoch, the same policy
    in force. *)
Definition sink_agrees (l : LiveLineage) (g : Lineage) : Prop :=
  Slots.epoch (fence l) = epoch g /\
  cell_decode (journaled_policy l) = in_force <$> ack_policy g.

Definition policy_bytes (slots : list (InputSlot E)) : Prop :=
  Forall (fun s => forall c, ack_policy_change (event s) = Some c -> in_u8 (policy c)) slots.

Lemma after_in_force p ws c : in_force (after p ws c) = policy c.
Proof. unfold after, in_force. destruct p as [p|]; [case_match|]; done. Qed.

Lemma sink_observe l g ws ev :
  (forall c, ev = AckPolicy c -> in_u8 (policy c)) ->
  sink_agrees l g -> sink_agrees (observe_live_lineage l ws ev) (observe g ws ev).
Proof.
  intros Hb [He Hp]. destruct ev as [e|c]; cbn; split; cbn; try done.
  - unfold Slots.observe_into. by rewrite He.
  - rewrite after_in_force. apply (cell_roundtrip (Some (policy c))).
    intros b ?. simplify_eq. by apply Hb.
Qed.

Lemma dispatch_lineage w ev ctx c :
  (dispatch w ev ctx).1.2 = Some (AckPolicy c) -> ack_policy_change ev = Some c.
Proof.
  unfold dispatch. destruct (tick_watermark w <? now_ns ctx); [destruct (tick _ _)|];
    destruct ev; cbn; try done; repeat (case_match; cbn); try done; congruence.
Qed.

(** One non-query slot, live, against one fed entry. *)
Lemma match_slot_feed js conns st seq s (g : Lineage) :
  is_query app_is_query (event s) = false ->
  (forall c, ack_policy_change (event s) = Some c -> in_u8 (policy c)) ->
  next_wire_seq st + 1 <= u64_max ->
  sink_agrees (lineage_sink st) g ->
  let st' := (match_slot js conns st seq s).1 in
  let r := feed (warm st, g) (slot_entry s (next_wire_seq st)) in
  warm st' = r.1 /\ next_wire_seq st' = next_wire_seq st + 1 /\ sink_agrees (lineage_sink st') r.2.
Proof.
  intros Hq Hb Hn Hg. unfold match_slot, feed. rewrite Hq. cbn.
  destruct (dispatch _ _ _) as [[w ev] rs] eqn:Ed. cbn.
  split; [done|]. split; [unfold sat_add; lia|].
  destruct ev as [ev|]; cbn; [|done]. apply sink_observe; [|done].
  intros c ->. apply Hb. eapply dispatch_lineage. by rewrite Ed.
Qed.

Lemma match_batch_feed js conns st seq slots g :
  primary_slots slots -> policy_bytes slots ->
  next_wire_seq st + journaled slots <= u64_max ->
  sink_agrees (lineage_sink st) g ->
  let '(st', outs, saw) := match_batch js conns st seq slots in
  let r := foldl feed (warm st, g) (entries_of (next_wire_seq st) slots) in
  saw = false /\ warm st' = r.1 /\ next_wire_seq st' = next_wire_seq st + journaled slots /\
  sink_agrees (lineage_sink st') r.2.
Proof.
  revert st seq g; induction slots as [|s slots IH]; intros st seq g Hp Hb Hn Hg; cbn.
  { unfold journaled. cbn. by rewrite Z.add_0_r. }
  apply Forall_cons in Hp as [[_ Hsd] Hp]. apply Forall_cons in Hb as [Hb1 Hb].
  rewrite journaled_cons in Hn |- *. rewrite Hsd.
  assert (0 <= journaled slots) by (unfold journaled; lia).
  destruct (match_slot js conns st seq s) as [st1 outs1] eqn:E1.
  destruct (is_query app_is_query (event s)) eqn:Eq.
  - assert (Hst1 : warm st1 = warm st /\ next_wire_seq st1 = next_wire_seq st /\
                   lineage_sink st1 = lineage_sink st).
    { unfold match_slot in E1. rewrite Eq in E1. cbn in E1. by simplify_eq/=. }
    destruct Hst1 as (Hw1&Hn1&Hl1).
    specialize (IH st1 (seq + 1) g Hp Hb ltac:(rewrite Hn1; lia) ltac:(by rewrite Hl1)).
    rewrite Hw1, Hn1 in IH. rewrite Z.add_0_l.
    by destruct (match_batch _ _ st1 _ slots) as [[st2 outs2] saw].
  - pose proof (match_slot_feed js conns st seq s g Eq Hb1 ltac:(lia) Hg) as Hs.
    cbn zeta in Hs. rewrite E1 in Hs. cbn [fst] in Hs. destruct Hs as (Hw1&Hn1&Hl1).
    cbn [foldl]. set (f := feed (warm st, g) _) in *.
    specialize (IH st1 (seq + 1) f.2 Hp Hb ltac:(rewrite Hn1; lia) Hl1).
    rewrite Hw1, Hn1, <- surjective_pairing in IH.
    destruct (match_batch _ _ st1 _ slots) as [[st2 outs2] saw]. cbn in IH |- *.
    destruct IH as (->&->&->&?). split_and!; [done|done|lia|done].
Qed.

(** The batches the ring hands over do not matter. *)
Lemma matching_run_feed st seq batches g :
  let slots := concat (batches.*2) in
  primary_slots slots -> policy_bytes slots ->
  next_wire_seq st + journaled slots <= u64_max ->
  sink_agrees (lineage_sink st) g ->
  let '(st', outs, saw) := matching_run st seq batches in
  let r := foldl feed (warm st, g) (entries_of (next_wire_seq st) slots) in
  saw = false /\ warm st' = r.1 /\ next_wire_seq st' = next_wire_seq st + journaled slots /\
  sink_agrees (lineage_sink st') r.2.
Proof.
  revert st seq g; induction batches as [|[[js conns] slots] batches IH]; intros st seq g; cbn.
  { intros. unfold journaled. cbn. by rewrite Z.add_0_r. }
  intros [Hp1 Hp2]%Forall_app [Hb1 Hb2]%Forall_app Hn Hg.
  assert (Hj : journaled (slots ++ concat batches.*2) = journaled slots + journaled (concat batches.*2)).
  { unfold journaled. rewrite entries_of_app, length_app.
    rewrite (entries_of_length _ 0 (concat _)). lia. }
  rewrite Hj in Hn |- *. assert (0 <= journaled (concat batches.*2)) by (unfold journaled; lia).
  pose proof (match_batch_feed js conns st seq slots g Hp1 Hb1 ltac:(lia) Hg) as H1.
  destruct (match_batch js conns st seq slots) as [[st1 outs1] saw1].
  cbn zeta in H1. destruct H1 as (->&Hw1&Hn1&Hg1).
  specialize (IH st1 (seq + Z.of_nat (length slots)) _ Hp2 Hb2 ltac:(rewrite Hn1; lia) Hg1).
  rewrite Hw1, Hn1, <- surjective_pairing, <- foldl_app, <- entries_of_app in IH.
  destruct (matching_run st1 _ batches) as [[st2 outs2] saw2].
  destruct IH as (->&->&->&?). split_and!; [done|done|lia|done].
Qed.

Definition genesis_stage (a : A) : MatchingStage A :=
  {| warm := warm_genesis a; next_wire_seq := 1;
     lineage_sink := {| fence := Slots.fence_new 0; journaled_policy := cell_encode None;
                        forced_policy := forced_empty |};
     local_events := 0 |}.

Definition genesis_replay (a : A) : ReplayState A :=
  {| r_app := a; r_clock := running_from WATERMARK_GENESIS; r_lineage := GENESIS |}.

Lemma genesis_agrees a : sink_agrees (lineage_sink (genesis_stage a)) GENESIS.
Proof. done. Qed.

(** The shadow feeds the same entries. *)
Lemma shadow_run_feed (st : ShadowState A) slots :
  primary_slots slots -> s_next_wire_seq st + journaled slots <= u64_max ->
  let st' := shadow_run st slots in
  (s_warm st', s_lineage st') =
    foldl feed (s_warm st, s_lineage st) (entries_of (s_next_wire_seq st) slots) /\
  s_next_wire_seq st' = s_next_wire_seq st + journaled slots.
Proof.
  revert st; induction slots as [|s slots IH]; intros st Hp Hn; cbn.
  { unfold journaled. cbn. by rewrite Z.add_0_r. }
  apply Forall_cons in Hp as [[_ Hsd] Hp].
  rewrite journaled_cons in Hn |- *. assert (0 <= journaled slots) by (unfold journaled; lia).
  destruct (is_query app_is_query (event s)) eqn:Eq.
  - assert (shadow_slot st s = st) as -> by (unfold shadow_slot; by rewrite Eq).
    rewrite Z.add_0_l. apply IH; [done|lia].
  - cbn [foldl]. set (st1 := shadow_slot st s).
    assert (H1 : (s_warm st1, s_lineage st1) =
                 feed (s_warm st, s_lineage st) (slot_entry s (s_next_wire_seq st)) /\
                 s_next_wire_seq st1 = s_next_wire_seq st + 1).
    { unfold st1, shadow_slot, feed, takes_wire_seq. rewrite Eq, Hsd. cbn.
      destruct (dispatch _ _ _) as [[w ev] rs]. cbn. split; [done|]. unfold sat_add. lia. }
    destruct H1 as [<- Hn1]. rewrite <- Hn1.
    destruct (IH st1 Hp ltac:(rewrite Hn1; lia)) as [Hf Hn2]. split; [exact Hf|].
    change (foldl shadow_slot st1 slots) with (shadow_run st1 slots). lia.
Qed.

(** The watermark a fed prefix leaves is the newest of its timestamps. *)
Lemma feed_watermark x entries :
  tick_watermark (foldl feed x entries).1 =
  foldl Z.max (tick_watermark x.1) (map e_timestamp_ns entries).
Proof.
  revert x; induction entries as [|e entries IH]; intros x; cbn; [done|].
  rewrite IH. f_equal. unfold feed.
  pose proof (dispatch_watermark x.1 (e_event e)
    {| now_ns := e_timestamp_ns e; ctx_key_hash := e_key_hash e |}) as Hw.
  destruct (dispatch _ _ _) as [[w ev] rs]. exact Hw.
Qed.

Lemma foldl_max_le x ts b : x <= b -> Forall (fun t => t <= b) ts -> foldl Z.max x ts <= b.
Proof.
  revert x; induction ts as [|t ts IH]; intros x Hx Hts; cbn; [done|].
  apply Forall_cons in Hts as [? ?]. apply IH; [lia|done].
Qed.

Lemma foldl_max_snoc x ts t :
  x <= t -> Forall (fun u => u <= t) ts -> foldl Z.max x (ts ++ [t]) = t.
Proof.
  intros Hx Hts. rewrite foldl_app. cbn. pose proof (foldl_max_le x ts t Hx Hts). lia.
Qed.

(** C11: Recovery reaches the live state: whatever batches the ring handed
    the matching stage, replaying from an empty application the entries the
    journal stage wrote for the same slots ends with the application and
    tick watermark the live stage holds, and with the lineage (epoch and
    policy in force) the live fencing state and policy gauge show. Queries,
    which are not journaled, leave no trace on either side. *)
Theorem replay_reaches_live (a : A) (batches : list (Z * Z * list (InputSlot E)))
    (next : Z) (entries : list (Entry E)) (chain : Entry E -> option Hash) :
  let slots := concat (batches.*2) in
  primary_slots slots -> policy_bytes slots -> 1 + journaled slots <= u64_max ->
  sequence_span 1 slots = Ok (next, entries, false) ->
  let '(live, outs, saw) := matching_run (genesis_stage a) 0 batches in
  exists r, replay_segment 0 None (genesis_replay a) ((fun e => (e, chain e)) <$> entries) = Ok r /\
    saw = false /\ next_wire_seq live = next /\
    {| app := r_app r; tick_watermark := finish (r_clock r) |} = warm live /\
    sink_agrees (lineage_sink live) (r_lineage r).
Proof.
  intros slots Hp Hb Hn Hseq. rewrite (sequence_span_primary 1 slots Hp) in Hseq.
  injection Hseq as <- <-.
  pose proof (matching_run_feed (genesis_stage a) 0 batches GENESIS Hp Hb Hn (genesis_agrees a)) as Hl.
  destruct (matching_run _ _ batches) as [[live outs] saw]. fold slots in Hl. cbn zeta in Hl.
  destruct Hl as (->&Hw&Hnx&Hg).
  destruct (replay_after 0 (@None Hash) (genesis_replay a)
    ((fun e => (e, chain e)) <$> entries_of 1 slots)) as (r&Hr&Hfeed).
  { apply Forall_fmap, Forall_forall. intros e He%entries_of_bounds. cbn. lia. }
  exists r. rewrite <- list_fmap_compose in Hfeed. unfold compose in Hfeed. cbn in Hfeed.
  rewrite list_fmap_id in Hfeed.
  change (replayed (genesis_replay a)) with (warm (genesis_stage a), GENESIS) in Hfeed.
  change (next_wire_seq (genesis_stage a)) with 1 in Hw, Hg, Hnx.
  rewrite <- Hfeed in Hw, Hg. by rewrite Hw.
Qed.

(** A snapshot the shadow saves is a point of the live history: the
    shadow saves only when its ring position equals the journal's last fsync
    boundary, and restoring that snapshot and replaying the whole journal
    over it (entries up to the anchor skipped, the anchor's chain value
    checked against the header) ends with the application, tick watermark
    and lineage that feeding every entry from the start gives. *)
Theorem snapshot_restore_exact (a : A) (s1 s2 : list (InputSlot E)) (next_read : Z)
    (f : FsyncState Hash) (snap : Snapshot A Hash) (chain : Entry E -> option Hash) :
  primary_slots (s1 ++ s2) -> 1 + journaled (s1 ++ s2) <= u64_max ->
  let shadow := shadow_run {| s_warm := warm_genesis a; s_lineage := GENESIS;
                              s_next_wire_seq := 1 |} s1 in
  (f_input_ring_seq f = next_read -> f_journal_seq f = journaled s1) ->
  (forall e h, e ∈ entries_of 1 s1 -> e_sequence e = journaled s1 ->
     chain e = Some h -> h = f_chain_hash f) ->
  try_save_snapshot shadow next_read f = Some snap ->
  exists r,
    replay_segment (snap_sequence (sn_header snap)) (Some (sn_chain snap)) (restore snap)
      ((fun e => (e, chain e)) <$> entries_of 1 (s1 ++ s2)) = Ok r /\
    replayed r = foldl feed (warm_genesis a, GENESIS) (entries_of 1 (s1 ++ s2)).
Proof.
  intros Hp Hn shadow Hf Hch. unfold try_save_snapshot.
  destruct (f_input_ring_seq f =? next_read) eqn:Ef; cbn; [|done]. zb. intros [= <-].
  cbn [sn_header snap_sequence sn_chain]. rewrite (Hf Ef).
  apply Forall_app in Hp as [Hp1 Hp2].
  assert (Hj : journaled (s1 ++ s2) = journaled s1 + journaled s2).
  { unfold journaled. rewrite entries_of_app, length_app, (entries_of_length _ 0 s2). lia. }
  assert (0 <= journaled s2) by (unfold journaled; lia).
  destruct (shadow_run_feed {| s_warm := warm_genesis a; s_lineage := GENESIS; s_next_wire_seq := 1 |}
    s1 Hp1 ltac:(cbn; lia)) as [Hsh _]. cbn [s_warm s_lineage s_next_wire_seq] in Hsh.
  fold shadow in Hsh.
  rewrite entries_of_app, foldl_app, <- Hsh, fmap_app.
  set (R0 := restore _).
  assert (HR0 : replayed R0 = (s_warm shadow, s_lineage shadow)).
  { unfold R0, replayed, restore, from_snapshot. cbn. by destruct (s_warm shadow). }
  (* the tail after the anchor *)
  destruct (replay_after (journaled s1) (Some (f_chain_hash f)) R0
    ((fun e => (e, chain e)) <$> entries_of (1 + journaled s1) s2)) as (r&Hr&Hfeed).
  { apply Forall_fmap, Forall_forall. intros e He%entries_of_bounds. cbn. lia. }
  rewrite <- list_fmap_compose in Hfeed. unfold compose in Hfeed. cbn in Hfeed.
  rewrite list_fmap_id, HR0 in Hfeed. exists r. split; [|done].
  rewrite <- Hr. clear Hr Hfeed r.
  (* the prefix up to the anchor leaves the restored state alone *)
  destruct (entries_of 1 s1) as [|e es _] eqn:Ees using rev_ind; [done|].
  assert (Hlen : journaled s1 = Z.of_nat (S (length es))).
  { unfold journaled. rewrite (entries_of_length 0 1), Ees, length_app. cbn. lia. }
  rewrite fmap_app, <- app_assoc, replay_before.
  2:{ apply Forall_fmap, Forall_forall. intros x [k Hk]%list_elem_of_lookup. cbn.
      assert (entries_of 1 s1 !! k = Some x) as Hk' by (rewrite Ees; by apply lookup_app_l_Some).
      rewrite (entries_of_lookup _ _ _ _ Hk'). apply lookup_lt_Some in Hk. lia. }
  cbn. assert (He : e_sequence e = journaled s1).
  { assert (entries_of 1 s1 !! length es = Some e) as Hk
      by (rewrite Ees; apply list_lookup_middle; done).
    rewrite (entries_of_lookup _ _ _ _ Hk). lia. }
  rewrite replay_anchor; [done|done |].
  intros h b [= <-] Hb. symmetry. apply (Hch e b); [|done|done].
  apply elem_of_app. right. by apply list_elem_of_singleton.
Qed.

(** The fallback for a snapshot that records no watermark: resuming
    from the timestamp of the entry at its sequence is exactly the watermark
    an uninterrupted copy holds there if and only if no earlier entry
    carried a later timestamp. *)
Theorem legacy_watermark_exact (a : A) (h : SnapshotHeader) (es : list (Entry E)) (anchor : Entry E) :
  recorded_watermark h = None -> snap_sequence h <> 0 -> 0 <= e_timestamp_ns anchor ->
  finish (at_anchor (from_snapshot h) (e_timestamp_ns anchor)) =
    tick_watermark (foldl feed (warm_genesis a, GENESIS) (es ++ [anchor])).1
  <-> Forall (fun x => e_timestamp_ns x <= e_timestamp_ns anchor) es.
Proof.
  intros Hr Hs Ht. unfold from_snapshot, finish. rewrite Hr, bool_decide_false by (by intros []).
  apply Z.eqb_neq in Hs. rewrite Hs. cbn. unfold resume_tick_watermark. rewrite Hr, Hs.
  rewrite feed_watermark, map_app. cbn [map]. split.
  - intros Heq. apply Forall_forall. intros x Hx. rewrite Heq, foldl_app. cbn [foldl].
    assert (Hge : forall ts y, y <= foldl Z.max y ts /\ Forall (fun t => t <= foldl Z.max y ts) ts).
    { clear. induction ts as [|t ts IH]; intros y; cbn; [split; [lia|constructor]|].
      destruct (IH (Z.max y t)). split; [lia|]. constructor; [lia|done]. }
    destruct (Hge (map e_timestamp_ns es) (tick_watermark (warm_genesis a, GENESIS).1)) as [_ Hall].
    rewrite Forall_forall in Hall.
    specialize (Hall (e_timestamp_ns x) (list_elem_of_fmap_2 _ _ _ Hx)). lia.
  - intros Hall. symmetry. apply foldl_max_snoc; [done|]. by apply Forall_fmap.
Qed.

Lemma emit_seq (slot : InputSlot E) seq ws reports q c o :
  o ∈ emit (R:=R) (Q:=Q) slot seq ws reports q c -> input_seq o = seq /\ o_wire_seq o = ws.
Proof.
  unfold emit. case_match; [case_match|].
  - intros ->%list_elem_of_singleton. done.
  - by intros ?%elem_of_nil.
  - rewrite !elem_of_app. intros [Hi|[Hi|Hi]].
    + apply elem_of_lookup_imap in Hi as (j&r&->&_). done.
    + destruct q; [|by apply elem_of_nil in Hi]. by apply list_elem_of_singleton in Hi as ->.
    + destruct c; [|by apply elem_of_nil in Hi]. by apply list_elem_of_singleton in Hi as ->.
Qed.

Lemma match_slot_stamp js conns st seq s :
  1 <= next_wire_seq st -> next_wire_seq st + 1 <= u64_max ->
  let n := if is_query app_is_query (event s) then 0 else 1 in
  next_wire_seq (match_slot js conns st seq s).1 = next_wire_seq st + n /\
  forall o, o ∈ (match_slot js conns st seq s).2 ->
    input_seq o = seq /\ o_wire_seq o = next_wire_seq st + n - 1.
Proof.
  intros H1 Hmax n. unfold match_slot, stamp. subst n.
  destruct (is_query app_is_query (event s)); [|destruct (dispatch _ _ _) as [[w ev] rs]];
    cbn; (split; [unfold sat_add; lia|]); intros o [-> ->]%emit_seq; unfold sat_sub; split; lia.
Qed.

Lemma match_batch_stamp js conns st seq slots :
  1 <= next_wire_seq st -> next_wire_seq st + journaled slots + 1 <= u64_max ->
  forall o, o ∈ (match_batch js conns st seq slots).1.2 ->
  exists k s, slots !! k = Some s /\ input_seq o = seq + Z.of_nat k /\
    o_wire_seq o = next_wire_seq st + journaled (take (S k) slots) - 1.
Proof.
  revert st seq; induction slots as [|s slots IH]; intros st seq H1 Hmax o; cbn.
  { by intros ?%elem_of_nil. }
  rewrite journaled_cons in Hmax. assert (0 <= journaled slots) by (unfold journaled; lia).
  destruct (is_shutdown (event s)); cbn; [by intros ?%elem_of_nil|].
  destruct (match_slot_stamp js conns st seq s H1) as [Hn Ho];
    [destruct (is_query _ _); lia|].
  destruct (match_slot js conns st seq s) as [st1 outs1]. cbn in Hn, Ho.
  specialize (IH st1 (seq + 1)). rewrite Hn in IH.
  destruct (match_batch js conns st1 (seq + 1) slots) as [[st2 outs2] saw] eqn:Eb. cbn in IH |- *.
  rewrite elem_of_app. intros [Hi|Hi].
  - exists 0%nat, s. destruct (Ho o Hi) as [-> ->].
    change (take 1 (s :: slots)) with (s :: take 0 slots). rewrite journaled_cons.
    change (journaled (take 0 slots)) with 0. split_and!; [done|lia|lia].
  - destruct (IH ltac:(case_match; lia) ltac:(case_match; lia) o Hi) as (k&s'&Hk&Hs&Hw).
    exists (S k), s'. cbn. rewrite journaled_cons, Hw. repeat split; [done|lia|].
    change (match slots with [] => [] | a0 :: l => a0 :: take k l end) with (take (S k) slots). lia.
Qed.

(** The reply's gate and the journal count the same events: every
    output slot of the [k]-th slot of a batch carries the wire sequence of
    the last entry the journal stage writes for the slots up to and
    including it, its own for a journaled event and the one before it for a
    query. So the entries at or below a reply's wire sequence are exactly
    those of the slots its content can depend on. *)
Theorem reply_wire_seq_covers_history (js conns : Z) (st : MatchingStage A) (seq : Z)
    (slots : list (InputSlot E)) (next : Z) (entries : list (Entry E)) (o : OutputSlot R Q) :
  primary_slots slots -> 1 <= next_wire_seq st ->
  next_wire_seq st + journaled slots + 1 <= u64_max ->
  sequence_span (next_wire_seq st) slots = Ok (next, entries, false) ->
  o ∈ (match_batch js conns st seq slots).1.2 ->
  exists k s, slots !! k = Some s /\ input_seq o = seq + Z.of_nat k /\
    (is_query app_is_query (event s) = false ->
       slot_entry s (o_wire_seq o) ∈ entries) /\
    (forall e, e ∈ entries ->
       e_sequence e <= o_wire_seq o <-> e ∈ entries_of (next_wire_seq st) (take (S k) slots)).
Proof.
  intros Hp H1 Hmax Hseq Ho. rewrite (sequence_span_primary _ slots Hp) in Hseq.
  injection Hseq as _ <-.
  destruct (match_batch_stamp js conns st seq slots H1 Hmax o Ho) as (k&s&Hk&Hs&Hw).
  exists k, s. do 2 (split; [done|]).
  pose proof (entries_of_app (next_wire_seq st) (take (S k) slots) (drop (S k) slots)) as Happ.
  rewrite take_drop in Happ. rewrite Happ.
  split.
  - intros Hq. apply elem_of_app. left. rewrite (take_S_r _ _ _ Hk), entries_of_app.
    apply elem_of_app. right. cbn. rewrite Hq. apply list_elem_of_singleton. f_equal.
    rewrite Hw, (take_S_r _ _ _ Hk). unfold journaled at 1.
    rewrite entries_of_app, length_app. cbn. rewrite Hq. cbn. unfold journaled. lia.
  - intros e. rewrite elem_of_app. intros [He|He].
    + split; [done|]. intros _. apply entries_of_bounds in He. lia.
    + split; [|intros He'; apply entries_of_bounds in He'; lia].
      intros Hle. apply entries_of_bounds in He. lia.
Qed.

Definition closed_batch (outs : list (OutputSlot R Q)) : Prop :=
  exists init l, outs = init ++ [l] /\ is_last_in_request l = true /\
    Forall (fun o => is_last_in_request o = false) init.

Lemma imap_terminated (slot : InputSlot E) seq ws (reports : list R) (b : nat -> bool) :
  reports <> [] -> (forall j, b j = bool_decide (S j = length reports)) ->
  closed_batch (imap (fun j r => reply_slot slot seq ws (Report r) (b j)) reports).
Proof.
  destruct reports as [|r rs _] using rev_ind; [done|]. intros _ Hb.
  rewrite imap_app. cbn. exists (imap (fun j r0 => reply_slot slot seq ws (Report r0) (b j)) rs),
    (reply_slot slot seq ws (Report r) true).
  split_and!; [|done|].
  - rewrite Hb, bool_decide_true; [done|]. rewrite length_app. cbn. lia.
  - apply Forall_forall. intros o (j&x&->&Hj)%elem_of_lookup_imap. cbn.
    apply lookup_lt_Some in Hj. rewrite Hb, bool_decide_false; [done|]. rewrite length_app. cbn. lia.
Qed.

Lemma imap_unterminated (slot : InputSlot E) seq ws (reports : list R) (b : nat -> bool) last :
  (forall j, b j = false) -> is_last_in_request last = true ->
  closed_batch (imap (fun j r => reply_slot slot seq ws (Report r) (b j)) reports ++ [last]).
Proof.
  intros Hb Hl. eexists _, last. split_and!; [done|done|].
  apply Forall_forall. intros o (j&x&->&Hj)%elem_of_lookup_imap. apply Hb.
Qed.

(** Every event's reply is one closed batch: the slots the matching
    stage emits for one input slot end with one marked
    [is_last_in_request], and no slot before it is marked, whatever reports
    the application produced; an event that emits none came from the node
    itself (connection 0), so every client request is answered. *)
Theorem one_terminator_per_event (js conns : Z) (st : MatchingStage A) (seq : Z)
    (slot : InputSlot E) :
  let outs := (match_slot js conns st seq slot).2 in
  (outs = [] /\ connection_id slot = 0) \/ closed_batch outs.
Proof.
  cbn zeta. unfold match_slot.
  destruct (stamp _ _) as [ws next].
  assert (Hemit : forall reports q c, (q = None \/ c = None /\ reports = []) ->
    (emit (R:=R) (Q:=Q) slot seq ws reports q c = [] /\ connection_id slot = 0) \/
    closed_batch (emit (R:=R) (Q:=Q) slot seq ws reports q c)).
  { intros reports q c Hqc. unfold emit.
    destruct (decide (reports = [])) as [->|Hne].
    - destruct q as [q|], c as [c|]; cbn; try (right; eexists [], _; done);
        [destruct Hqc as [?|[? _]]; done|].
      destruct (connection_id slot =? 0) eqn:E0; cbn; zb; [by left|].
      right. by eexists [], _.
    - right. destruct q; [by destruct Hqc as [?|[_ ?]]|].
      rewrite (bool_decide_false (reports = [])) by done. cbn.
      destruct c as [c|]; cbn.
      + apply imap_unterminated; [|done]. intros j. by rewrite andb_false_r.
      + rewrite app_nil_r. apply imap_terminated; [done|]. intros j. by rewrite !andb_true_r. }
  destruct (is_query app_is_query (event slot)) eqn:Eq.
  - cbn. apply Hemit. right. split; [|done]. by destruct (event slot).
  - destruct (dispatch _ _ _) as [[w ev] rs]. cbn. apply Hemit. by left.
Qed.

(** The shutdown drain counts the sentinel as an event: the matching stage
    advances its wire sequence past it and emits a slot for it, the journal
    stage's drain writes nothing for it. *)
Lemma drain_sentinel_outruns_journal (st : MatchingStage A) (seq : Z) :
  0 <= tick_watermark (warm st) ->
  next_wire_seq (drain_slot st seq shutdown_sentinel).1 = sat_add (next_wire_seq st) 1 /\
  map o_wire_seq (drain_slot st seq shutdown_sentinel).2 = [next_wire_seq st] /\
  sequence_drain (E:=E) (next_wire_seq st) [shutdown_sentinel] = Ok (next_wire_seq st, []).
Proof.
  intros Hw. unfold drain_slot, dispatch. cbn.
  destruct (tick_watermark (warm st) <? 0) eqn:E0; zb; [lia|]. done.
Qed.
End agreement.
End Agreement.

(** A small application, to run the stages on. *)
Module Sample.
Import Dispatch Journaling Live Shadow Replay Agreement.

#[export] Instance sample_app : Application Z Z Z Z := {
  tick a t := (a + t, [t]);
  apply a e c := (2 * a + e, [a]);
  query a e c := Some a;
  app_is_query e := e <? 0
}.

Definition sample_slots : list (InputSlot Z) :=
  [client 7 1 9 5 100; client 7 2 9 (-1) 0; node_event (Tick 120) 120;
   node_event (AckPolicyChanged {| policy := 0; unwitnessed := true |}) 130].

Lemma sample_primary : primary_slots sample_slots.
Proof. repeat constructor. Qed.

Lemma replay_reaches_live_witness :
  let '(live, outs, saw) := matching_run (genesis_stage 3) 0 [(0, 1, sample_slots)] in
  exists r, replay_segment 0 None (genesis_replay 3)
      ((fun e => (e, @None Z)) <$> entries_of 1 sample_slots) = Ok r /\
    saw = false /\ next_wire_seq live = 4 /\
    {| app := r_app r; tick_watermark := finish (r_clock r) |} = warm live /\
    sink_agrees (lineage_sink live) (r_lineage r).
Proof.
  apply (replay_reaches_live (Hash:=Z) 3 [(0, 1, sample_slots)] 4 (entries_of 1 sample_slots)
           (fun _ => None)).
  - exact sample_primary.
  - repeat apply Forall_cons_2; [..|apply Forall_nil_2]; intros c Hc; try discriminate Hc.
    injection Hc as <-. vm_compute. split; discriminate.
  - vm_compute. discriminate.
  - reflexivity.
Defined.

Lemma snapshot_restore_exact_witness :
  exists r,
    replay_segment 2 (Some 77)
      {| r_app := 453; r_clock := Settled 120; r_lineage := GENESIS |}
      ((fun e => (e, if e_sequence e =? 2 then Some 77 else None)) <$> entries_of 1 sample_slots)
      = Ok r /\
    replayed r = foldl feed (warm_genesis 4, GENESIS) (entries_of 1 sample_slots).
Proof.
  apply (snapshot_restore_exact 4 (take 3 sample_slots) (drop 3 sample_slots) 3
    {| f_journal_seq := 2; f_chain_hash := 77; f_input_ring_seq := 3 |}
    {| sn_app := 453; sn_header := {| snap_sequence := 2; recorded_watermark := Some 120 |};
       sn_chain := 77; sn_lineage := GENESIS |}
    (fun e => if e_sequence e =? 2 then Some 77 else None)).
  - exact sample_primary.
  - vm_compute. discriminate.
  - intros _. reflexivity.
  - intros e h _ _ He. destruct (e_sequence e =? 2); [|discriminate]. by injection He as <-.
  - vm_compute. reflexivity.
Defined.

Lemma legacy_watermark_exact_witness :
  finish (at_anchor (from_snapshot {| snap_sequence := 2; recorded_watermark := None |}) 120) =
    tick_watermark (foldl feed (warm_genesis 4, GENESIS)
      ([slot_entry (client 7 1 9 5 100) 1] ++ [slot_entry (node_event (Tick 120) 120) 2])).1
  <-> Forall (fun x => e_timestamp_ns x <= 120) [slot_entry (client 7 1 9 5 100) 1].
Proof.
  apply (legacy_watermark_exact 4 {| snap_sequence := 2; recorded_watermark := None |}
    [slot_entry (client 7 1 9 5 100) 1] (slot_entry (node_event (Tick 120) 120) 2)).
  - reflexivity.
  - discriminate.
  - vm_compute. discriminate.
Defined.

Lemma reply_wire_seq_covers_history_witness :
  exists k s, sample_slots !! k = Some s /\ 1 = 0 + Z.of_nat k /\
    (is_query app_is_query (event s) = false -> slot_entry s 1 ∈ entries_of 1 sample_slots) /\
    (forall e, e ∈ entries_of 1 sample_slots ->
       e_sequence e <= 1 <-> e ∈ entries_of 1 (take (S k) sample_slots)).
Proof.
  apply (reply_wire_seq_covers_history 0 1 (genesis_stage 3) 0 sample_slots 4
    (entries_of 1 sample_slots)
    (reply_slot (client 7 2 9 (-1) 0) 1 1 (QueryResponse 211) true)).
  - exact sample_primary.
  - vm_compute. discriminate.
  - vm_compute. discriminate.
  - reflexivity.
  - vm_compute. right. right. left.
Defined.
End Sample.
