(* ===== verification/Presence.v ===== *)
(** * Replica presence and the halt

    [Presence] is the replica count, the halt override and the loss stamp of
    a replicated primary ([transport-core/src/replica_presence.rs]). [Halt]
    is the reader's gate and the decision of every ack-policy change
    ([server-runtime/src/halt.rs], [policy_control.rs]'s rules). [Interleaved]
    runs the senders and the input ring's producer one atomic access at a
    time, as a step relation, and proves that an operator's override never
    outlives a replica's first ack. *)

From S2P Require Import Prelude Cursors AckPolicy Lineage.
Import Lineage.Event Lineage.Policy AckPolicy.Named.

Module Presence.

(** [origin] is the instant the nanoseconds of [last_lost] count from. *)
Record ReplicaPresence := {
  connected : Z;
  acked : Z;
  override_at : Z;
  last_lost : Z;
  origin : Z
}.

Inductive Observed := Connected | NoneConnected (generation : Z).
Inductive LastLoss := At (at_ : Z) | Unknown.
Inductive Lowered := OthersRemain | LastHalted | LastOverridden.

(** [FirstAck]: whether the connection has acked. *)
Record FirstAck := { has_acked : bool }.

(** The stamp of a loss [elapsed] nanoseconds after the origin. *)
Definition stamp_value (elapsed : Z) : Z :=
  (if elapsed <=? u64_max then elapsed else u64_max - 1) + 1.

Definition stamp_loss (p : ReplicaPresence) (elapsed : Z) : ReplicaPresence :=
  {| connected := connected p; acked := acked p; override_at := override_at p;
     last_lost := stamp_value elapsed; origin := origin p |}.

Definition presence_default (now elapsed : Z) : ReplicaPresence :=
  stamp_loss {| connected := 0; acked := 0; override_at := 0; last_lost := 0; origin := now |} elapsed.

Definition overridden (p : ReplicaPresence) : bool :=
  negb (override_at p =? 0) && (override_at p =? acked p + 1).

Definition halted (p : ReplicaPresence) : bool :=
  (connected p =? 0) && negb (overridden p).

(** [FirstAck::acked]. *)
Definition first_ack (f : FirstAck) (p : ReplicaPresence) : FirstAck * ReplicaPresence :=
  if negb (has_acked f) then
    ({| has_acked := true |},
     {| connected := connected p; acked := acked p + 1; override_at := override_at p;
        last_lost := last_lost p; origin := origin p |})
  else (f, p).

(** The two stores of [lift]. *)
Definition lift_count (p : ReplicaPresence) : ReplicaPresence :=
  {| connected := connected p + 1; acked := acked p; override_at := override_at p;
     last_lost := last_lost p; origin := origin p |}.
Definition lift_forget (p : ReplicaPresence) : ReplicaPresence :=
  {| connected := connected p; acked := acked p; override_at := override_at p;
     last_lost := 0; origin := origin p |}.
Definition lift (p : ReplicaPresence) : FirstAck * ReplicaPresence :=
  ({| has_acked := false |}, lift_forget (lift_count p)).

(** [lower]: the stamp, then the [fetch_sub], whose prior value says whether
    this was the last. *)
Definition lower_count (p : ReplicaPresence) : Lowered * ReplicaPresence :=
  let p' := {| connected := connected p - 1; acked := acked p; override_at := override_at p;
               last_lost := last_lost p; origin := origin p |} in
  (if negb (connected p =? 1) then OthersRemain
   else if overridden p' then LastOverridden else LastHalted, p').
Definition lower (p : ReplicaPresence) (elapsed : Z) : Lowered * ReplicaPresence :=
  lower_count (stamp_loss p elapsed).

Definition last_loss (p : ReplicaPresence) : option LastLoss :=
  if negb (connected p =? 0) then None
  else Some (if last_lost p =? 0 then Unknown else At (origin p + (last_lost p - 1))).

Definition observed_at (generation count : Z) : Observed :=
  if count =? 0 then NoneConnected generation else Connected.
Definition observe (p : ReplicaPresence) : Observed := observed_at (acked p) (connected p).

Definition set_override (p : ReplicaPresence) (v : Z) : ReplicaPresence :=
  {| connected := connected p; acked := acked p; override_at := v;
     last_lost := last_lost p; origin := origin p |}.
Definition latch_override (p : ReplicaPresence) (since : Z) : ReplicaPresence :=
  set_override p (since + 1).
Definition clear_override (p : ReplicaPresence) (_ : Observed) : ReplicaPresence :=
  set_override p 0.

End Presence.

Module Halt.
Import Presence.

Inductive Origin := Runtime | Staged.
#[export] Instance Origin_eq_dec : EqDecision Origin.
Proof. solve_decision. Defined.

Inductive Replication := Enabled | Disabled.

Definition can_meet (r : Replication) (p : AckPolicy) : bool :=
  match r with Enabled => true | Disabled => negb (needs_replica p) end.

Definition is_unwitnessed (p : AckPolicy) (o : Origin) (seen : option Observed) : bool :=
  match seen with
  | None => true
  | Some (NoneConnected _) => bool_decide (o = Runtime) && bool_decide (p = Disk)
  | Some Connected => false
  end.

Inductive BootEntry := Differs | TakesEffectUnwitnessed.

Definition boot_entry (lineage : option LineagePolicy) (requested : AckPolicy) (r : Replication)
    : option BootEntry :=
  match lineage with
  | Some l =>
    if in_force l =? to_byte requested then
      let may_await_witness :=
        bool_decide (is_Some (previous l)) && negb (unwitnessed (change l)) in
      match r with
      | Disabled => if may_await_witness then Some TakesEffectUnwitnessed else None
      | Enabled => None
      end
    else Some Differs
  | None => Some Differs
  end.

Inductive RejectReason := ReplicaDisconnected.
Inductive Verdict := Take | Refuse (r : RejectReason) | Close.

Record HaltGate := {
  replicas_connected : option ReplicaPresence;
  fence_state : Slots.FenceState;
  refused : Z
}.

Record Decision := { d_policy : AckPolicy; d_unwitnessed : bool; d_seen : option Observed }.

Definition decision_change (d : Decision) : AckPolicyChange :=
  {| policy := to_byte (d_policy d); unwitnessed := d_unwitnessed d |}.

Definition is_forced (d : Decision) : bool :=
  d_unwitnessed d && match d_seen d with Some (NoneConnected _) => true | _ => false end.

Record Journaled := { j_policy : AckPolicy; j_unwitnessed : bool; j_forced : bool; j_input_seq : Z }.

Definition replication (h : HaltGate) : Replication :=
  match replicas_connected h with Some _ => Enabled | None => Disabled end.

(** The decision, given what was seen. *)
Definition decide_on (p : AckPolicy) (o : Origin) (seen : option Observed) : Decision :=
  {| d_policy := p; d_unwitnessed := is_unwitnessed p o seen; d_seen := seen |}.

Definition decide_change (h : HaltGate) (p : AckPolicy) (o : Origin) : Decision :=
  decide_on p o (observe <$> replicas_connected h).

(** The presence's share of [record_journaled]. *)
Definition record_presence (d : Decision) (p : ReplicaPresence) : ReplicaPresence :=
  match d_seen d with
  | None => p
  | Some seen =>
    if needs_replica (d_policy d) then clear_override p seen
    else match seen with
         | NoneConnected since => if is_forced d then latch_override p since else p
         | Connected => p
         end
  end.

Definition record_journaled (h : HaltGate) (d : Decision) (seq : Z) : Journaled * HaltGate :=
  ({| j_policy := d_policy d; j_unwitnessed := d_unwitnessed d; j_forced := is_forced d;
      j_input_seq := seq |},
   {| replicas_connected := record_presence d <$> replicas_connected h;
      fence_state := fence_state h; refused := refused h |}).

(** [journal]: decide, publish, record; a refused publish records nothing. *)
Definition journal {PubErr} (h : HaltGate) (p : AckPolicy) (o : Origin)
    (publish : AckPolicyChange -> result Z PubErr) : result (Journaled * HaltGate) PubErr :=
  let d := decide_change h p o in
  seq <-? publish (decision_change d) ;;
  Ok (record_journaled h d seq).

Definition record_refused (h : HaltGate) (n : Z) : HaltGate :=
  {| replicas_connected := replicas_connected h; fence_state := fence_state h;
     refused := wrapping_add (refused h) n |}.

Definition verdict (h : HaltGate) : Verdict :=
  if Slots.fenced (fence_state h) then Close
  else if match replicas_connected h with Some p => halted p | None => false end
  then Refuse ReplicaDisconnected
  else Take.

Lemma is_forced_disk p o seen :
  is_forced (decide_on p o seen) = true ->
  p = Disk /\ o = Runtime /\ exists g, seen = Some (NoneConnected g).
Proof.
  unfold is_forced, decide_on, is_unwitnessed. cbn.
  destruct seen as [[|g]|]; cbn; try done. rewrite andb_true_r, andb_true_iff, !bool_decide_eq_true.
  intros [-> ->]. eauto.
Qed.

End Halt.

Module Interleaved.
Import Presence Halt.

(** One replica connection, as its sender thread takes it through the
    presence: each constructor is a point between two atomic accesses. *)
Inductive Conn :=
| Fresh
| CountedRaw                          (* [lift]: counted, the old stamp not yet forgotten *)
| Streaming (a : bool)                (* streamed to; whether it has acked *)
| Stamping (elapsed : Z) (a : bool)   (* [lower]: the clock is read *)
| Leaving (a : bool)                  (* [lower]: stamped, still counted *)
| Gone (a : bool).

(** The producer inside [HaltGate::journal]. *)
Inductive Producer :=
| Idle
| Looked (generation : Z)
| Decided (d : Decision).

Record System := {
  pres : ReplicaPresence;
  conns : list Conn;
  producer : Producer;
  recorded : option AckPolicy   (* the policy of the last change recorded *)
}.

Definition counted (c : Conn) : Prop :=
  match c with Fresh | Gone _ => False | _ => True end.
Definition ack_flag (c : Conn) : bool :=
  match c with Fresh | CountedRaw => false | Streaming a | Stamping _ a | Leaving a | Gone a => a end.
(** Counted, and not past its own stamp. *)
Definition unstamped (c : Conn) : Prop :=
  match c with CountedRaw | Streaming _ | Stamping _ _ => True | _ => False end.
Definition has_ack (c : Conn) : Prop := ack_flag c = true.

#[export] Instance counted_dec c : base.Decision (counted c).
Proof. destruct c; apply _. Defined.
#[export] Instance has_ack_dec c : base.Decision (has_ack c).
Proof. unfold has_ack. apply _. Defined.

Definition with_conn (s : System) (p : ReplicaPresence) (i : nat) (c : Conn) : System :=
  {| pres := p; conns := <[i:=c]> (conns s); producer := producer s; recorded := recorded s |}.
Definition with_producer (s : System) (p : ReplicaPresence) (q : Producer) (r : option AckPolicy)
  : System := {| pres := p; conns := conns s; producer := q; recorded := r |}.

Inductive step : System -> System -> Prop :=
| s_connect s :
    step s {| pres := pres s; conns := conns s ++ [Fresh]; producer := producer s;
              recorded := recorded s |}
| s_lift_count s i :
    conns s !! i = Some Fresh -> step s (with_conn s (lift_count (pres s)) i CountedRaw)
| s_lift_forget s i :
    conns s !! i = Some CountedRaw -> step s (with_conn s (lift_forget (pres s)) i (Streaming false))
| s_ack s i a :
    conns s !! i = Some (Streaming a) ->
    step s (let '(f, p) := first_ack {| has_acked := a |} (pres s) in
            with_conn s p i (Streaming (has_acked f)))
| s_clock s i a elapsed :
    conns s !! i = Some (Streaming a) ->
    step s (with_conn s (pres s) i (Stamping elapsed a))
| s_stamp s i a elapsed :
    0 <= elapsed -> conns s !! i = Some (Stamping elapsed a) ->
    step s (with_conn s (stamp_loss (pres s) elapsed) i (Leaving a))
| s_lower s i a :
    conns s !! i = Some (Leaving a) -> step s (with_conn s (snd (lower_count (pres s))) i (Gone a))
| p_load_generation s :
    producer s = Idle ->
    step s (with_producer s (pres s) (Looked (acked (pres s))) (recorded s))
| p_load_count s g p o :
    producer s = Looked g ->
    step s (with_producer s (pres s)
             (Decided (decide_on p o (Some (observed_at g (connected (pres s)))))) (recorded s))
| p_published s d :
    producer s = Decided d ->
    step s (with_producer s (record_presence d (pres s)) Idle (Some (d_policy d)))
| p_refused s d :
    producer s = Decided d -> step s (with_producer s (pres s) Idle (recorded s)).

Definition initial (now elapsed : Z) : System :=
  {| pres := presence_default now elapsed; conns := []; producer := Idle; recorded := None |}.

Definition reachable (s : System) : Prop :=
  exists now elapsed, 0 <= elapsed /\ rtc step (initial now elapsed) s.

(** No counted connection has acked. *)
Definition quiet (s : System) : Prop :=
  forall i c, conns s !! i = Some c -> counted c -> ack_flag c = false.

(** A generation the producer read earlier: no ack since means nobody
    streaming has acked. *)
Definition quiet_if (s : System) (g : Z) : Prop :=
  0 <= g <= acked (pres s) /\ (g = acked (pres s) -> quiet s).

Record inv (s : System) : Prop := {
  inv_connected : connected (pres s) = count_of counted (conns s);
  inv_acked : acked (pres s) = count_of has_ack (conns s);
  inv_looked : forall g, producer s = Looked g -> 0 <= g <= acked (pres s);
  inv_decided : forall d g, producer s = Decided d -> d_seen d = Some (NoneConnected g) -> quiet_if s g;
  inv_seen : forall d, producer s = Decided d -> d_seen d <> None;
  inv_forced : forall d, producer s = Decided d -> is_forced d = true -> d_policy d = Disk;
  inv_override : override_at (pres s) <> 0 ->
    quiet_if s (override_at (pres s) - 1) /\ recorded s = Some Disk;
  inv_stamp : last_lost (pres s) = 0 -> exists i c, conns s !! i = Some c /\ unstamped c
}.

(** What each sender step must preserve, given how it changes its own
    connection. *)
Lemma quiet_if_conn s p i c c' g :
  conns s !! i = Some c ->
  acked (pres s) <= acked p ->
  (acked p = acked (pres s) -> counted c' -> ack_flag c' = true -> counted c /\ ack_flag c = true) ->
  quiet_if s g -> quiet_if (with_conn s p i c') g.
Proof.
  intros Hi Hle Hc [Hg Hq]. split; cbn; [lia|]. intros Heq j d Hj Hd.
  assert (Hsame : acked p = acked (pres s)) by lia.
  destruct (decide (i = j)) as [<-|Hne].
  - cbn in Hj. rewrite list_lookup_insert_eq in Hj by (by eapply lookup_lt_Some). simplify_eq.
    destruct (ack_flag d) eqn:Ea; [|done]. destruct (Hc Hsame Hd eq_refl) as [Hcc Hca].
    assert (Hqq : quiet s) by (apply Hq; lia). by rewrite (Hqq i c Hi Hcc) in Hca.
  - cbn in Hj. rewrite list_lookup_insert_ne in Hj by done. assert (Hqq : quiet s) by (apply Hq; lia). exact (Hqq j d Hj Hd).
Qed.

Lemma stamp_conn s p i c c' :
  conns s !! i = Some c ->
  (last_lost p = 0 -> (last_lost (pres s) = 0 /\ (unstamped c -> unstamped c')) \/ unstamped c') ->
  (last_lost (pres s) = 0 -> exists i c, conns s !! i = Some c /\ unstamped c) ->
  last_lost p = 0 -> exists j d, conns (with_conn s p i c') !! j = Some d /\ unstamped d.
Proof.
  intros Hi Hc Hinv Hz. assert (Hlt : (i < length (conns s))%nat) by (by eapply lookup_lt_Some).
  destruct (Hc Hz) as [[Hz' Hu]|Hu]; cbn.
  2:{ exists i, c'. by rewrite list_lookup_insert_eq. }
  destruct (Hinv Hz') as (j&d&Hj&Hd). destruct (decide (i = j)) as [<-|Hne].
  - exists i, c'. rewrite list_lookup_insert_eq by done. simplify_eq. auto.
  - exists j, d. by rewrite list_lookup_insert_ne.
Qed.

Lemma weight_ack c : weight has_ack c = if ack_flag c then 1 else 0.
Proof. unfold weight, has_ack. case_decide as H; destruct (ack_flag c); congruence. Qed.

Lemma weight_counted c :
  weight counted c = match c with Fresh | Gone _ => 0 | _ => 1 end.
Proof. by destruct c. Qed.

Lemma stamp_value_pos elapsed : 0 <= elapsed -> stamp_value elapsed <> 0.
Proof. unfold stamp_value. destruct (elapsed <=? u64_max); widths; lia. Qed.

(** A sender step, in one piece: the counts move by its own connection's
    weights, an ack on its connection moves the generation, and the stamp
    rule holds. *)
Lemma inv_conn s p i c c' :
  inv s -> conns s !! i = Some c ->
  override_at p = override_at (pres s) ->
  connected p = connected (pres s) - weight counted c + weight counted c' ->
  acked p = acked (pres s) - weight has_ack c + weight has_ack c' ->
  (ack_flag c = true -> ack_flag c' = true) ->
  (counted c' -> ack_flag c' = true -> ack_flag c = true -> counted c) ->
  (last_lost p = 0 -> (last_lost (pres s) = 0 /\ (unstamped c -> unstamped c')) \/ unstamped c') ->
  inv (with_conn s p i c').
Proof.
  intros Hinv Hi Ho Hcn Hak Hmono Hlive Hst.
  assert (Hle : acked (pres s) <= acked p).
  { rewrite Hak, !weight_ack. destruct (ack_flag c); [rewrite Hmono by done; lia|].
    destruct (ack_flag c'); lia. }
  assert (Hq : forall g, quiet_if s g -> quiet_if (with_conn s p i c') g).
  { intros g. apply (quiet_if_conn s p i c c' g Hi Hle). intros Heq Hc Ha.
    assert (ack_flag c = true); [|auto].
    rewrite Hak, !weight_ack, Ha in Heq. destruct (ack_flag c); [done|lia]. }
  constructor; cbn.
  - rewrite (count_of_insert counted _ _ _ _ Hi), <- (inv_connected s Hinv). lia.
  - rewrite (count_of_insert has_ack _ _ _ _ Hi), <- (inv_acked s Hinv). lia.
  - intros g Hg. pose proof (inv_looked s Hinv g Hg). lia.
  - intros d g Hd Hg. apply Hq, (inv_decided s Hinv d g Hd Hg).
  - apply (inv_seen s Hinv).
  - apply (inv_forced s Hinv).
  - intros Hne. rewrite Ho in Hne |- *. destruct (inv_override s Hinv Hne) as [H1 H2]. auto.
  - eapply stamp_conn; [exact Hi|exact Hst|apply (inv_stamp s Hinv)].
Qed.

Ltac sender Hinv Hi :=
  eapply (inv_conn _ _ _ _ _ Hinv Hi); rewrite ?weight_ack, ?weight_counted; cbn;
  try done; try lia; auto.

Lemma inv_initial now elapsed : 0 <= elapsed -> inv (initial now elapsed).
Proof.
  intros He. constructor; cbn; try done. intros Hz. by destruct (stamp_value_pos elapsed).
Qed.

(** Recording a published change: the override is latched at the generation
    the decision observed, or cleared, or left as it is. *)
Lemma inv_record s d :
  inv s -> d_seen d <> None -> (is_forced d = true -> d_policy d = Disk) ->
  (forall g, d_seen d = Some (NoneConnected g) -> quiet_if s g) ->
  inv (with_producer s (record_presence d (pres s)) Idle (Some (d_policy d))).
Proof.
  intros Hinv Hseen Hf Hq.
  assert (Hcases : record_presence d (pres s) = set_override (pres s) 0 \/
    (exists g, d_seen d = Some (NoneConnected g) /\ d_policy d = Disk /\
       record_presence d (pres s) = set_override (pres s) (g + 1)) \/
    (record_presence d (pres s) = pres s /\ d_policy d = Disk)).
  { unfold record_presence. destruct (d_seen d) as [seen|]; [|done].
    destruct (needs_replica (d_policy d)) eqn:En; [by left|].
    apply needs_replica_iff in En. destruct seen as [|g]; [by auto 10|].
    destruct (is_forced d); [|by auto 10]. right. left. eauto. }
  destruct Hcases as [->|[(g&Hg&Hd&->)|[-> Hd]]].
  - constructor; cbn; try apply Hinv; done.
  - constructor; cbn; try apply Hinv; try done. intros _. rewrite Hd.
    replace (g + 1 - 1) with g by lia. split; [by apply Hq|done].
  - constructor; cbn; try apply Hinv; try done. intros Hne.
    destruct (inv_override s Hinv Hne). rewrite Hd. done.
Qed.

Lemma inv_step s s' : inv s -> step s s' -> inv s'.
Proof.
  intros Hinv Hstep. destruct Hstep as
    [s|s i Hi|s i Hi|s i a Hi|s i a el Hi|s i a el He Hi|s i a Hi|s Hp|s g p o Hp|s d Hp|s d Hp].
  - (* a new connection *)
    assert (Hq : forall g, quiet_if s g ->
      quiet_if {| pres := pres s; conns := conns s ++ [Fresh]; producer := producer s;
                  recorded := recorded s |} g).
    { intros g [Hg Hq]. split; [done|]. intros Heq i c Hi Hc. cbn in Hi.
      apply lookup_app_Some in Hi as [Hi|[_ Hi]]; [by apply (Hq Heq i)|].
      by apply list_lookup_singleton_Some in Hi as [_ <-]. }
    constructor; cbn.
    + rewrite count_of_app, <- (inv_connected s Hinv).
      change (count_of counted [Fresh]) with 0. lia.
    + rewrite count_of_app, <- (inv_acked s Hinv).
      change (count_of has_ack [Fresh]) with 0. lia.
    + apply (inv_looked s Hinv).
    + intros d g Hd Hg. apply Hq, (inv_decided s Hinv d g Hd Hg).
    + apply (inv_seen s Hinv).
    + apply (inv_forced s Hinv).
    + intros Hne. destruct (inv_override s Hinv Hne). auto.
    + intros Hz. destruct (inv_stamp s Hinv Hz) as (i&c&Hi&Hc). exists i, c.
      split; [|done]. by apply lookup_app_l_Some.
  - sender Hinv Hi.
  - sender Hinv Hi.
  - destruct a; sender Hinv Hi.
  - sender Hinv Hi.
  - sender Hinv Hi. intros Hz. by destruct (stamp_value_pos el).
  - sender Hinv Hi.
  - constructor; cbn; try apply Hinv; [|done..].
    intros g [= <-]. rewrite (inv_acked s Hinv). pose proof (count_of_nonneg has_ack (conns s)). lia.
  - (* the count is read after the generation *)
    constructor; cbn; try apply Hinv; [done| |by intros d [= <-]|].
    + intros d g' [= <-]. cbn. unfold observed_at.
      destruct (connected (pres s) =? 0) eqn:E0; [|done]. zb. intros [= ->].
      pose proof (inv_looked s Hinv g' Hp). split; [done|]. intros _ i c Hi Hc.
      rewrite (inv_connected s Hinv) in E0. by destruct (count_of_zero counted _ _ _ E0 Hi).
    + intros d [= <-] Hf. by apply is_forced_disk in Hf as [? _].
  - apply inv_record; [done|by apply (inv_seen s Hinv)|apply (inv_forced s Hinv d Hp)|].
    intros g Hg. by apply (inv_decided s Hinv d g Hp).
  - constructor; cbn; try apply Hinv; done.
Qed.

Lemma reachable_inv s : reachable s -> inv s.
Proof.
  intros (now&el&He&Hs). pose proof (inv_initial now el He) as Hi. revert Hi.
  induction Hs as [|x y z Hxy _ IH]; [done|]. intros Hx. apply IH. by eapply inv_step.
Qed.

(** An operator's override never outlives a replica's first ack, however
    the senders' and the producer's atomic accesses interleave: while it is in
    force, no replica being streamed to has acknowledged anything on its
    connection, and the last policy change recorded is [disk]. So the first
    ack after the producer looked voids it even if the producer latches it
    later. *)
Theorem override_ended_by_first_ack (s : System) :
  reachable s -> overridden (pres s) = true ->
  recorded s = Some Disk /\
  forall i c, conns s !! i = Some c -> counted c -> ack_flag c = false.
Proof.
  intros Hr%reachable_inv Ho. unfold overridden in Ho. zb. destruct Ho as [Hne Heq].
  destruct (inv_override s Hr Hne) as [[_ Hq] Hrec]. split; [done|]. apply Hq. lia.
Qed.

(** A primary that looked, saw nobody and published the operator's [disk]. *)
Definition forced_system : System :=
  {| pres := set_override (presence_default 0 0) 1; conns := []; producer := Idle;
     recorded := Some Disk |}.

Lemma forced_system_reachable : reachable forced_system.
Proof.
  exists 0, 0. split; [lia|].
  eapply rtc_l; [apply p_load_generation; reflexivity|].
  eapply rtc_l; [eapply (p_load_count _ 0 Disk Runtime); reflexivity|].
  eapply rtc_l; [eapply p_published; reflexivity|]. apply rtc_refl.
Qed.

Lemma override_ended_by_first_ack_witness :
  recorded forced_system = Some Disk /\
  forall i c, conns forced_system !! i = Some c -> counted c -> ack_flag c = false.
Proof.
  apply override_ended_by_first_ack; [exact forced_system_reachable|reflexivity].
Defined.

(** A replicated primary's verdict on a client write, in every reachable
    state: it is taken exactly when some replica is being streamed to or the
    operator's consent stands (recorded as [disk], and not yet overtaken by an
    ack); otherwise it is refused for want of a replica. A fenced node closes
    the connection whatever the count. *)
Theorem verdict_follows_presence (s : System) (f : Slots.FenceState) (n : Z) :
  reachable s ->
  let v := verdict {| replicas_connected := Some (pres s); fence_state := f; refused := n |} in
  (Slots.fenced f = true -> v = Close) /\
  (Slots.fenced f = false ->
     (v = Take <-> (exists i c, conns s !! i = Some c /\ counted c) \/ overridden (pres s) = true) /\
     (v = Refuse ReplicaDisconnected <->
        (forall i c, conns s !! i = Some c -> ~ counted c) /\ overridden (pres s) = false)).
Proof.
  intros Hr%reachable_inv v. unfold v, verdict. cbn.
  destruct (Slots.fenced f); [by split|]. split; [done|]. intros _.
  unfold halted. rewrite (inv_connected s Hr).
  destruct (count_of counted (conns s) =? 0) eqn:E0; zb; cbn.
  - assert (Hno : forall i c, conns s !! i = Some c -> ~ counted c)
      by (intros i c Hi; exact (count_of_zero counted _ _ _ E0 Hi)).
    destruct (overridden (pres s)); cbn; split; split; try done; auto.
    + intros [_ ?]. done.
    + intros [(i&c&Hi&Hc)|?]; [|done]. by destruct (Hno i c Hi).
  - assert (Hsome : exists i c, conns s !! i = Some c /\ counted c).
    { unfold count_of in E0. destruct (filter counted (conns s)) as [|c cs] eqn:Ef; [done|].
      assert (Hin : c ∈ filter counted (conns s)) by (rewrite Ef; left).
      apply list_elem_of_filter in Hin as [Hc [i Hi]%list_elem_of_lookup]. eauto. }
    split; split; try done; auto. intros [Hno _]. destruct Hsome as (i&c&Hi&Hc). by destruct (Hno i c Hi).
Qed.

Lemma verdict_follows_presence_witness :
  let v := verdict {| replicas_connected := Some (pres forced_system);
                      fence_state := Slots.fence_new 3; refused := 0 |} in
  (Slots.fenced (Slots.fence_new 3) = true -> v = Close) /\
  (Slots.fenced (Slots.fence_new 3) = false ->
     (v = Take <-> (exists i c, conns forced_system !! i = Some c /\ counted c) \/
                   overridden (pres forced_system) = true) /\
     (v = Refuse ReplicaDisconnected <->
        (forall i c, conns forced_system !! i = Some c -> ~ counted c) /\
        overridden (pres forced_system) = false)).
Proof. apply verdict_follows_presence. exact forced_system_reachable. Defined.

(** A loss is always stamped: in every reachable state in which no
    replica is counted, the loss stamp is present, so [last_loss] read in one
    piece dates the halt; a missing stamp can only come from a replica counted
    between a reader's two loads. While some replica is counted there is no
    halt to date. *)
Theorem loss_always_stamped (s : System) :
  reachable s ->
  (connected (pres s) = 0 -> exists t, last_loss (pres s) = Some (At t)) /\
  (connected (pres s) <> 0 -> last_loss (pres s) = None).
Proof.
  intros Hr%reachable_inv. unfold last_loss. split.
  - intros Hz. rewrite Hz. cbn. destruct (last_lost (pres s) =? 0) eqn:E0; zb; [|eauto].
    destruct (inv_stamp s Hr E0) as (i&c&Hi&Hc).
    rewrite (inv_connected s Hr) in Hz. destruct (count_of_zero counted _ _ _ Hz Hi). by destruct c.
  - intros Hne. apply Z.eqb_neq in Hne. by rewrite Hne.
Qed.

Lemma loss_always_stamped_witness :
  (connected (pres forced_system) = 0 -> exists t, last_loss (pres forced_system) = Some (At t)) /\
  (connected (pres forced_system) <> 0 -> last_loss (pres forced_system) = None).
Proof. apply loss_always_stamped. exact forced_system_reachable. Defined.

End Interleaved.

Module Swap.
Import Presence Halt.

(** Journaling an operator's policy change is all or nothing, and only
    an explicit runtime [disk] seen with no replica lifts the halt: a refused
    publish returns its error and changes nothing; a published one hands the
    ring the policy's byte, marked unwitnessed exactly when replication is off
    or it was that forced swap; a forced swap ends the halt, a policy that
    needs a replica leaves no override, and any other change leaves the
    override as it was. *)
Theorem journal_outcome {PubErr} (h : HaltGate) (p : ReplicaPresence) (pol : AckPolicy) (o : Origin)
    (publish : AckPolicyChange -> result Z PubErr) :
  replicas_connected h = Some p -> 0 <= acked p ->
  let forced := bool_decide (connected p = 0 /\ o = Runtime /\ pol = Disk) in
  let c := {| policy := to_byte pol; unwitnessed := forced |} in
  match journal h pol o publish with
  | Err e => publish c = Err e
  | Ok (j, h') =>
    publish c = Ok (j_input_seq j) /\ j_policy j = pol /\ j_unwitnessed j = forced /\
    j_forced j = forced /\ fence_state h' = fence_state h /\ refused h' = refused h /\
    exists p', replicas_connected h' = Some p' /\ connected p' = connected p /\ acked p' = acked p /\
      last_lost p' = last_lost p /\
      (forced = true -> halted p' = false) /\
      (needs_replica pol = true -> overridden p' = false) /\
      (forced = false -> needs_replica pol = false -> p' = p)
  end.
Proof.
  intros Hp Hak forced c.
  assert (Hun : is_unwitnessed pol o (Some (observe p)) = forced).
  { unfold is_unwitnessed, observe, observed_at, forced.
    destruct (connected p =? 0) eqn:E0; zb; rewrite <- ?bool_decide_and.
    - apply bool_decide_ext. tauto.
    - symmetry. apply bool_decide_false. tauto. }
  assert (Hfo : is_forced (decide_on pol o (Some (observe p))) = forced).
  { unfold is_forced, decide_on. cbn [d_unwitnessed d_seen]. rewrite Hun.
    unfold forced, observe, observed_at.
    destruct (connected p =? 0) eqn:E0; zb; [by rewrite andb_true_r|]. rewrite andb_false_r.
    symmetry. apply bool_decide_false. tauto. }
  unfold journal, decide_change. rewrite Hp. cbn -[decide_on is_forced decision_change record_presence].
  change (decision_change (decide_on pol o (Some (observe p))))
    with {| policy := to_byte pol; unwitnessed := is_unwitnessed pol o (Some (observe p)) |}.
  rewrite Hun. fold c.
  destruct (publish c) as [seq|e]; cbn -[is_forced record_presence]; [|done].
  rewrite Hfo, Hp. do 2 (split; [done|]). split; [exact Hun|]. do 3 (split; [done|]).
  eexists. split; [done|]. unfold record_presence. cbn -[is_forced]. rewrite Hfo.
  destruct (needs_replica pol) eqn:En.
  - do 3 (split; [done|]). split; [|by split]. intros Hf. apply bool_decide_eq_true in Hf.
    destruct Hf as (_&_&->). done.
  - unfold observe, observed_at. destruct (connected p =? 0) eqn:E0.
    + destruct forced; cbn; (split_and!; try done). intros _.
      unfold halted, overridden. cbn. rewrite E0, Z.eqb_refl.
      by assert ((acked p + 1 =? 0) = false) as -> by (apply Z.eqb_neq; lia).
    + split_and!; try done. intros Hf. apply bool_decide_eq_true in Hf. apply Z.eqb_neq in E0. lia.
Qed.

Lemma journal_outcome_witness :
  let h := {| replicas_connected := Some (presence_default 0 0);
              fence_state := Slots.fence_new 0; refused := 0 |} in
  let c := {| policy := to_byte Disk; unwitnessed := true |} in
  match journal h Disk Runtime (fun _ => Ok (E:=unit) 41) with
  | Err e => Ok (E:=unit) 41 = Err e
  | Ok (j, h') =>
    Ok (E:=unit) 41 = Ok (j_input_seq j) /\ j_policy j = Disk /\ j_unwitnessed j = true /\
    j_forced j = true /\ fence_state h' = fence_state h /\ refused h' = refused h /\
    exists p', replicas_connected h' = Some p' /\ connected p' = 0 /\ acked p' = 0 /\
      last_lost p' = last_lost (presence_default 0 0) /\
      (true = true -> halted p' = false) /\
      (needs_replica Disk = true -> overridden p' = false) /\
      (true = false -> needs_replica Disk = false -> p' = presence_default 0 0)
  end.
Proof.
  exact (journal_outcome
    {| replicas_connected := Some (presence_default 0 0); fence_state := Slots.fence_new 0;
       refused := 0 |} (presence_default 0 0) Disk Runtime (fun _ => Ok (E:=unit) 41)
    eq_refl ltac:(vm_compute; discriminate)).
Defined.

End Swap.
