(* ===== verification/Gate.v ===== *)
(** * The durability gate of the response stage

    [Timer] is the amortized timer ([app/src/amortized_timer.rs]), [Logger]
    the degradation logger ([server-runtime/src/response.rs]) and [Gate] the
    gate itself ([server-runtime/src/durability_gate.rs]): the policy in
    force, the changes still to apply, and the wait every reply goes through.

    What the gate reads from other threads arrives as a list of [Pass]es, one
    per turn of the wait loop: the shutdown flag, the journal position, the
    replicas' cursors and flags, the forced-change cell, the presence's last
    loss and the clock. The clock reads of one kind within one pass share one
    value. A wait that runs past the end of the list is [Waiting]. *)

From S2P Require Import Prelude Cursors AckPolicy Lineage Stages Presence.
Import Lineage.Event Lineage.Policy AckPolicy.Core AckPolicy.View AckPolicy.Named.
Import Cursors.Writer.

Module Timer.

Record AmortizedTimer := { t_last : Z; t_iter : Z }.

Definition CHECK_MASK : Z := Z.shiftl 1 16 - 1.

Definition timer_new (now : Z) : AmortizedTimer := {| t_last := now; t_iter := 0 |}.

(** [elapsed] and the new [t_last] are two reads of the clock. *)
Definition tick (t : AmortizedTimer) (period : Z) (spinning : bool) (now now' : Z)
    : option Z * AmortizedTimer :=
  let t := if spinning then {| t_last := t_last t; t_iter := wrapping_add (t_iter t) 1 |} else t in
  if spinning && negb (Z.land (t_iter t) CHECK_MASK =? 0) then (None, t)
  else
    let elapsed := sat_sub now (t_last t) in
    if elapsed <? period then (None, t)
    else (Some elapsed, {| t_last := now'; t_iter := t_iter t |}).

End Timer.

Module Logger.

(** The health gauges the gate writes ([StageUtilization]). *)
Record Utilization := {
  gate_journal : Z;
  gate_replication : Z;
  policy_degraded : bool;
  policy_degraded_nanos : Z;
  ack_policy_in_force : Z
}.

Definition set_degraded (u : Utilization) (d : bool) : Utilization :=
  {| gate_journal := gate_journal u; gate_replication := gate_replication u;
     policy_degraded := d; policy_degraded_nanos := policy_degraded_nanos u;
     ack_policy_in_force := ack_policy_in_force u |}.
Definition add_nanos (u : Utilization) (n : Z) : Utilization :=
  {| gate_journal := gate_journal u; gate_replication := gate_replication u;
     policy_degraded := policy_degraded u;
     policy_degraded_nanos := wrapping_add (policy_degraded_nanos u) n;
     ack_policy_in_force := ack_policy_in_force u |}.
Definition set_in_force (u : Utilization) (p : AckPolicy) : Utilization :=
  {| gate_journal := gate_journal u; gate_replication := gate_replication u;
     policy_degraded := policy_degraded u; policy_degraded_nanos := policy_degraded_nanos u;
     ack_policy_in_force := cell_encode (Some (to_byte p)) |}.
Definition count_open (u : Utilization) (b : option Blocker) : Utilization :=
  {| gate_journal := match b with Some Journal => wrapping_add (gate_journal u) 1
                               | _ => gate_journal u end;
     gate_replication := match b with Some Replication => wrapping_add (gate_replication u) 1
                                   | _ => gate_replication u end;
     policy_degraded := policy_degraded u; policy_degraded_nanos := policy_degraded_nanos u;
     ack_policy_in_force := ack_policy_in_force u |}.

(** Nanoseconds. *)
Definition DEGRADED_FLAP_HOLD : Z := 1000000000.

Record DegradationLogger := {
  pending_state : bool;
  pending_since : Z;
  pending_logged : bool;
  last_log : option Z;
  last_tick : Z
}.

Definition logger_new (now : Z) : DegradationLogger :=
  {| pending_state := false; pending_since := now; pending_logged := true;
     last_log := None; last_tick := now |}.

Definition new_starting_degraded (now : Z) : DegradationLogger :=
  {| pending_state := true; pending_since := now; pending_logged := true;
     last_log := Some now; last_tick := now |}.

Definition accrue (l : DegradationLogger) (u : Utilization) (prev_degraded : bool) (now : Z)
    : DegradationLogger * Utilization :=
  ({| pending_state := pending_state l; pending_since := pending_since l;
      pending_logged := pending_logged l; last_log := last_log l; last_tick := now |},
   if prev_degraded then add_nanos u (sat_sub now (last_tick l)) else u).

Definition reseed (l : DegradationLogger) (u : Utilization) (now : Z)
    : DegradationLogger * Utilization :=
  (logger_new now, snd (accrue l u (pending_state l) now)).

(** What a tick logs. *)
Inductive LogLine := WarnDegraded | InfoRecovered | WarnStillDegraded.

Definition logger_tick (l : DegradationLogger) (u : Utilization) (degraded_now : bool)
    (now heartbeat_interval : Z) : DegradationLogger * Utilization * option LogLine :=
  let '(l, u) := accrue l u (pending_state l) now in
  let u := set_degraded u degraded_now in
  if negb (Bool.eqb degraded_now (pending_state l)) then
    ({| pending_state := degraded_now; pending_since := now; pending_logged := false;
        last_log := last_log l; last_tick := last_tick l |}, u, None)
  else if negb (pending_logged l) && (DEGRADED_FLAP_HOLD <=? sat_sub now (pending_since l)) then
    ({| pending_state := pending_state l; pending_since := pending_since l;
        pending_logged := true; last_log := Some now; last_tick := last_tick l |}, u,
     Some (if degraded_now then WarnDegraded else InfoRecovered))
  else if degraded_now && pending_logged l &&
          match last_log l with None => true | Some t => heartbeat_interval <=? sat_sub now t end then
    ({| pending_state := pending_state l; pending_since := pending_since l;
        pending_logged := pending_logged l; last_log := Some now; last_tick := last_tick l |}, u,
     Some WarnStillDegraded)
  else (l, u, None).

(** A run of ticks: the state seen and the clock. *)
Definition logger_run (l : DegradationLogger) (u : Utilization) (hb : Z) (ticks : list (bool * Z))
    : DegradationLogger * Utilization :=
  foldl (fun lu x => fst (logger_tick (fst lu) (snd lu) (fst x) (snd x) hb)) (l, u) ticks.

(** The reference: time spent since the previous tick, where that tick saw
    the policy degraded. *)
Fixpoint degraded_time (state : bool) (since : Z) (ticks : list (bool * Z)) : Z :=
  match ticks with
  | [] => 0
  | (d, t) :: rest => (if state then t - since else 0) + degraded_time d t rest
  end.

Fixpoint clock_monotone (since : Z) (ticks : list (bool * Z)) : Prop :=
  match ticks with [] => True | (_, t) :: rest => since <= t /\ clock_monotone t rest end.

Lemma logger_tick_state l u d now hb :
  let '(l', u', _) := logger_tick l u d now hb in
  pending_state l' = d /\ last_tick l' = now /\ policy_degraded u' = d /\
  policy_degraded_nanos u' = policy_degraded_nanos (snd (accrue l u (pending_state l) now)).
Proof.
  unfold logger_tick. cbn. destruct (Bool.eqb_spec d (pending_state l)) as [->|Hne]; cbn; [|done].
  destruct (negb _ && _); [done|]. by destruct (_ && _ && _).
Qed.

(** The degraded-time counter is exact: over any run of ticks under a
    monotone clock it grows by exactly the time between consecutive ticks the
    earlier of which saw the policy degraded (as a [u64], wrapping), whatever
    the log suppression does; and the gauge always shows the last state. *)
Theorem degraded_time_exact (l : DegradationLogger) (u : Utilization) (hb : Z)
    (ticks : list (bool * Z)) (d : bool) (t : Z) :
  clock_monotone (last_tick l) (ticks ++ [(d, t)]) -> in_u64 (policy_degraded_nanos u) ->
  let '(l', u') := logger_run l u hb (ticks ++ [(d, t)]) in
  policy_degraded_nanos u' =
    (policy_degraded_nanos u + degraded_time (pending_state l) (last_tick l) (ticks ++ [(d, t)]))
      mod 2 ^ 64 /\
  policy_degraded u' = d /\ pending_state l' = d /\ last_tick l' = t.
Proof.
  intros Hm Hu. assert (Hgen : forall ts l u, clock_monotone (last_tick l) ts ->
    in_u64 (policy_degraded_nanos u) ->
    policy_degraded_nanos (snd (logger_run l u hb ts)) =
      (policy_degraded_nanos u + degraded_time (pending_state l) (last_tick l) ts) mod 2 ^ 64).
  { clear. induction ts as [|[d t] ts IH]; intros l u Hm Hu.
    { cbn. rewrite Z.add_0_r, Z.mod_small; [done|]. widths. lia. }
    destruct Hm as [Hle Hm]. pose proof (logger_tick_state l u d t hb) as Ht.
    unfold logger_run. cbn [foldl fst snd degraded_time].
    destruct (logger_tick l u d t hb) as [[l1 u1] ln]. cbn [fst]. destruct Ht as (Hs&Hl&_&Hn).
    fold (logger_run l1 u1 hb ts).
    rewrite <- Hl in Hm. unfold accrue in Hn. cbn in Hn.
    assert (Hn' : policy_degraded_nanos u1 = (policy_degraded_nanos u +
      (if pending_state l then t - last_tick l else 0)) mod 2 ^ 64).
    { rewrite Hn. destruct (pending_state l); cbn.
      - unfold wrapping_add, sat_sub. by rewrite Z.max_l by lia.
      - rewrite Z.add_0_r, Z.mod_small; [done|]. widths. lia. }
    rewrite IH; [|done|].
    - rewrite Hn', Hs, Hl, Zplus_mod_idemp_l. f_equal. lia.
    - rewrite Hn'. pose proof (Z.mod_pos_bound (policy_degraded_nanos u +
        (if pending_state l then t - last_tick l else 0)) (2 ^ 64) ltac:(lia)). widths. lia. }
  specialize (Hgen _ l u Hm Hu). destruct (logger_run l u hb (ticks ++ [(d, t)])) as [l' u'] eqn:E.
  split; [exact Hgen|]. unfold logger_run in E. rewrite foldl_app in E. cbn [foldl fst snd] in E.
  set (x := foldl _ _ ticks) in E. pose proof (logger_tick_state (fst x) (snd x) d t hb) as Ht.
  destruct (logger_tick _ _ _ _ _) as [[l1 u1] ln]. cbn [fst] in E. injection E as <- <-. destruct Ht as (H1&H2&H3&_). by split_and!.
Qed.

Lemma degraded_time_exact_witness :
  let u := {| gate_journal := 0; gate_replication := 0; policy_degraded := false;
              policy_degraded_nanos := 7; ack_policy_in_force := 0 |} in
  let '(l', u') := logger_run (logger_new 10) u 5 ([(true, 20); (true, 50)] ++ [(false, 60)]) in
  policy_degraded_nanos u' =
    (7 + degraded_time false 10 ([(true, 20); (true, 50)] ++ [(false, 60)])) mod 2 ^ 64 /\
  policy_degraded u' = false /\ pending_state l' = false /\ last_tick l' = 60.
Proof.
  apply (degraded_time_exact (logger_new 10)
    {| gate_journal := 0; gate_replication := 0; policy_degraded := false;
       policy_degraded_nanos := 7; ack_policy_in_force := 0 |} 5 [(true, 20); (true, 50)] false 60).
  - cbn. lia.
  - vm_compute. split; discriminate.
Defined.

End Logger.

Module Gate.
Import Timer Logger Presence.Presence Presence.Halt Stages.Live.

(** Nanoseconds. *)
Definition GATE_ACCRUAL_INTERVAL : Z := 10000000.
Definition POLICY_CHECK_INTERVAL : Z := 1000000000.
Definition DEGRADED_LOG_INTERVAL : Z := 5000000000.

Inductive Backing := Policy | PrimaryOnly.

Definition backing_min (a b : Backing) : Backing :=
  match a, b with Policy, Policy => Policy | _, _ => PrimaryOnly end.

Inductive GateOutcome := Open (b : Backing) | ShutDown.

Inductive Admission := Reply (connection : Z) (backing : Backing) | GateOnly | Shutdown.

Record PendingChange := { p_wire_seq : Z; p_policy : AckPolicy; p_unwitnessed : bool }.
#[export] Instance PendingChange_eq_dec : EqDecision PendingChange.
Proof. solve_decision. Defined.

Record GateStart := { start_in_force : AckPolicy; start_pending : option PendingChange }.

Definition settled (p : AckPolicy) : GateStart :=
  {| start_in_force := p; start_pending := None |}.

(** The refusal to serve under a byte this build does not know. *)
Inductive UnknownPolicy := UnknownPolicyByte (b : Z).

Definition known_lineage_policy (b : Z) : result AckPolicy UnknownPolicy :=
  match from_byte b with Some p => Ok p | None => Err (UnknownPolicyByte b) end.

Definition initial_gate_policy (lineage : option LineagePolicy) (requested : AckPolicy)
    (replication : Replication) : result GateStart UnknownPolicy :=
  match lineage with
  | None => Ok (settled requested)
  | Some l =>
    newest <-? known_lineage_policy (in_force l) ;;
    match replication with
    | Disabled => Ok (settled requested)
    | Enabled =>
      match previous l with
      | None => Ok (settled newest)
      | Some prev =>
        before <-? known_lineage_policy prev ;;
        Ok {| start_in_force := before;
              start_pending := Some {| p_wire_seq := wire_seq l; p_policy := newest;
                                       p_unwitnessed := unwitnessed (change l) |} |}
      end
    end
  end.

(** What one turn of the wait reads. *)
Record Pass := {
  shutdown : bool;
  journal_pos : Z;
  metrics : option ReplicationMetrics;
  active : option (bool * bool);
  forced : option ForcedPolicy;
  loss : option LastLoss;
  spinning : bool;
  now_switch : Z;
  now_timer : Z;
  now_timer' : Z;
  now_tick : Z;
  now_release : Z
}.

(** The gate; [grace] is the configured degraded release, [None] when off. *)
Record DurabilityGate := {
  grace : option Z;
  applied_through : option Z;
  last_refused : option Z;
  pending : list PendingChange;
  active_policy : AckPolicy;
  g_needs_replica : bool;
  g_policy : Core.Policy;
  cached_durable_pos : Z;
  degraded_logger : DegradationLogger;
  last_policy_check : Z;
  accrual_timer : AmortizedTimer;
  halt_started : option Z;
  releasing_degraded : bool;
  utilization : Utilization
}.

(** Field updates. *)
Definition with_applied g ws :=
  {| grace := grace g; applied_through := Some ws; last_refused := last_refused g;
     pending := pending g; active_policy := active_policy g; g_needs_replica := g_needs_replica g;
     g_policy := g_policy g; cached_durable_pos := cached_durable_pos g;
     degraded_logger := degraded_logger g; last_policy_check := last_policy_check g;
     accrual_timer := accrual_timer g; halt_started := halt_started g;
     releasing_degraded := releasing_degraded g; utilization := utilization g |}.
Definition with_refused g ws :=
  {| grace := grace g; applied_through := applied_through g; last_refused := Some ws;
     pending := pending g; active_policy := active_policy g; g_needs_replica := g_needs_replica g;
     g_policy := g_policy g; cached_durable_pos := cached_durable_pos g;
     degraded_logger := degraded_logger g; last_policy_check := last_policy_check g;
     accrual_timer := accrual_timer g; halt_started := halt_started g;
     releasing_degraded := releasing_degraded g; utilization := utilization g |}.
Definition with_pending g ps :=
  {| grace := grace g; applied_through := applied_through g; last_refused := last_refused g;
     pending := ps; active_policy := active_policy g; g_needs_replica := g_needs_replica g;
     g_policy := g_policy g; cached_durable_pos := cached_durable_pos g;
     degraded_logger := degraded_logger g; last_policy_check := last_policy_check g;
     accrual_timer := accrual_timer g; halt_started := halt_started g;
     releasing_degraded := releasing_degraded g; utilization := utilization g |}.
Definition with_cached g c u :=
  {| grace := grace g; applied_through := applied_through g; last_refused := last_refused g;
     pending := pending g; active_policy := active_policy g; g_needs_replica := g_needs_replica g;
     g_policy := g_policy g; cached_durable_pos := c;
     degraded_logger := degraded_logger g; last_policy_check := last_policy_check g;
     accrual_timer := accrual_timer g; halt_started := halt_started g;
     releasing_degraded := releasing_degraded g; utilization := u |}.
Definition with_logger g l u t check :=
  {| grace := grace g; applied_through := applied_through g; last_refused := last_refused g;
     pending := pending g; active_policy := active_policy g; g_needs_replica := g_needs_replica g;
     g_policy := g_policy g; cached_durable_pos := cached_durable_pos g;
     degraded_logger := l; last_policy_check := check;
     accrual_timer := t; halt_started := halt_started g;
     releasing_degraded := releasing_degraded g; utilization := u |}.
Definition with_halt g started releasing :=
  {| grace := grace g; applied_through := applied_through g; last_refused := last_refused g;
     pending := pending g; active_policy := active_policy g; g_needs_replica := g_needs_replica g;
     g_policy := g_policy g; cached_durable_pos := cached_durable_pos g;
     degraded_logger := degraded_logger g; last_policy_check := last_policy_check g;
     accrual_timer := accrual_timer g; halt_started := started;
     releasing_degraded := releasing; utilization := utilization g |}.
Definition with_policy g next l u :=
  {| grace := grace g; applied_through := applied_through g; last_refused := last_refused g;
     pending := pending g; active_policy := next; g_needs_replica := needs_replica next;
     g_policy := to_policy next; cached_durable_pos := 0;
     degraded_logger := l; last_policy_check := last_policy_check g;
     accrual_timer := accrual_timer g; halt_started := halt_started g;
     releasing_degraded := releasing_degraded g; utilization := u |}.

(** [switch_to]. *)
Definition switch_to (g : DurabilityGate) (next : AckPolicy) (now : Z) : DurabilityGate :=
  if bool_decide (next = active_policy g) then g
  else
    let '(l, u) := reseed (degraded_logger g) (utilization g) now in
    with_policy g next l (set_in_force u next).

Definition is_stale (g : DurabilityGate) (ws : Z) : bool :=
  match applied_through g with Some through => ws <=? through | None => false end.

Definition refuse_unknown (g : DurabilityGate) (ws : Z) : DurabilityGate :=
  if bool_decide (last_refused g = Some ws) then g else with_refused g ws.

Definition apply_change (g : DurabilityGate) (ws b now : Z) : DurabilityGate :=
  if is_stale g ws then g
  else match from_byte b with
       | None => refuse_unknown g ws
       | Some next => switch_to (with_applied g ws) next now
       end.

Definition apply_front_pending (g : DurabilityGate) (now : Z) : DurabilityGate :=
  match pending g with
  | [] => g
  | p :: rest => apply_change (with_pending g rest) (p_wire_seq p) (to_byte (p_policy p)) now
  end.

(** [settle_pending_if_durable]: each turn pops the front, so the loop runs
    over the changes pending at its start. *)
Fixpoint settle_loop (ps : list PendingChange) (g : DurabilityGate) (jp now : Z) : DurabilityGate :=
  match ps with
  | [] => g
  | p :: rest =>
    if (cached_durable_pos g <? p_wire_seq p) && negb (p_unwitnessed p && (p_wire_seq p <=? jp))
    then g
    else settle_loop rest (apply_front_pending g now) jp now
  end.
Definition settle_pending_if_durable (g : DurabilityGate) (jp now : Z) : DurabilityGate :=
  settle_loop (pending g) g jp now.

Definition observe_forced (g : DurabilityGate) (jp : Z) (f : option ForcedPolicy) (now : Z)
    : DurabilityGate :=
  let g := settle_pending_if_durable g jp now in
  match f with
  | Some f => if f_wire_seq f <=? jp then apply_change g (f_wire_seq f) (f_policy f) now else g
  | None => g
  end.

(** [halt_start], [degraded_release_open] with [log_degraded_release]. *)
Definition halt_start (l : LastLoss) (seen : option Z) (now : Z) : Z :=
  match l with
  | At t => t
  | Unknown => match seen with Some t => t | None => now end
  end.

Definition degraded_release_open (g : DurabilityGate) (l : option LastLoss) (now : Z)
    : bool * DurabilityGate :=
  match grace g with
  | None => (false, g)
  | Some gr =>
    match l with
    | None => (false, with_halt g None false)
    | Some l =>
      let started := halt_start l (halt_started g) now in
      let open := g_needs_replica g && (gr <=? sat_sub now started) in
      (open, with_halt g (Some started) open)
    end
  end.

(** [Hook]: the calls made so far. *)
Inductive HookCall := BeforeWait | WhileWaiting.
Record Hook := { started : bool; calls : list HookCall }.
Definition hook_new : Hook := {| started := false; calls := [] |}.
Definition starting (h : Hook) : Hook :=
  if started h then h else {| started := true; calls := calls h ++ [BeforeWait] |}.
Definition while_waiting (h : Hook) : Hook :=
  {| started := started h; calls := calls h ++ [WhileWaiting] |}.

(** A computation that may have to wait for more passes. *)
Inductive progress (A : Type) :=
| Done (a : A) (g : DurabilityGate) (h : Hook) (rest : list Pass)
| Waiting (g : DurabilityGate) (h : Hook)
| OutOfFuel.
Arguments Done {A} a g h rest.
Arguments Waiting {A} g h.
Arguments OutOfFuel {A}.

(** The paced accrual tick inside the wait. *)
Definition accrual_step (g : DurabilityGate) (p : Pass) (degraded : bool) : DurabilityGate :=
  let '(fired, t) := tick (accrual_timer g) GATE_ACCRUAL_INTERVAL (spinning p)
                       (now_timer p) (now_timer' p) in
  match fired with
  | Some _ =>
    let '(l, u, _) := logger_tick (degraded_logger g) (utilization g) degraded
                        (now_tick p) DEGRADED_LOG_INTERVAL in
    with_logger g l u t (last_policy_check g)
  | None => with_logger g (degraded_logger g) (utilization g) t (last_policy_check g)
  end.

(** One pass of [wait_durable] up to the decision: observe, evaluate, accrue. *)
Definition observe_pass (g : DurabilityGate) (needed : Z) (p : Pass)
    : DurabilityGate * option Blocker :=
  let g := observe_forced g (journal_pos p) (forced p) (now_switch p) in
  let '(status, blocker) := evaluate_gate (g_policy g) needed (journal_pos p) (metrics p) (active p) in
  let g := with_cached g (durable_pos status) (set_degraded (utilization g) (degraded status)) in
  (accrual_step g p (degraded status), blocker).

Fixpoint wait_durable (g : DurabilityGate) (needed : Z) (h : Hook) (passes : list Pass)
    : progress GateOutcome :=
  match passes with
  | [] => Waiting g h
  | p :: rest =>
    if shutdown p then Done ShutDown g h rest
    else
      let '(g, blocker) := observe_pass g needed p in
      if needed <=? cached_durable_pos g then
        Done (Open Policy)
          (with_cached g (cached_durable_pos g) (count_open (utilization g) blocker)) h rest
      else if needed <=? journal_pos p then
        let '(open, g) := degraded_release_open g (loss p) (now_release p) in
        if open : bool then Done (Open PrimaryOnly) g h rest
        else wait_durable g needed (while_waiting h) rest
      else wait_durable g needed (while_waiting h) rest
  end.

(** [admit_pending]: every turn that does not return shortens [pending], so
    its length plus one is fuel enough. [now] is the clock outside a wait. *)
Fixpoint admit_pending (fuel : nat) (g : DurabilityGate) (h : Hook) (now : Z) (passes : list Pass)
    : progress GateOutcome :=
  match fuel with
  | O => OutOfFuel
  | S fuel =>
    match pending g with
    | [] => Done (Open Policy) g h passes
    | p :: _ =>
      if cached_durable_pos g <? p_wire_seq p then
        match wait_durable g (p_wire_seq p) (starting h) passes with
        | Done ShutDown g h rest => Done ShutDown g h rest
        | Done (Open PrimaryOnly) g h rest => Done (Open PrimaryOnly) g h rest
        | Done (Open Policy) g h rest =>
          if bool_decide (head (pending g) = Some p)
          then admit_pending fuel (apply_front_pending g now) h now rest
          else admit_pending fuel g h now rest
        | Waiting g h => Waiting g h
        | OutOfFuel => OutOfFuel
        end
      else admit_pending fuel (apply_front_pending g now) h now passes
    end
  end.

Definition defer_change (g : DurabilityGate) (ws : Z) (c : AckPolicyChange) : DurabilityGate :=
  if is_stale g ws then g
  else match from_byte (policy c) with
       | None => refuse_unknown g ws
       | Some p =>
         with_pending g (pending g ++ [{| p_wire_seq := ws; p_policy := p;
                                          p_unwitnessed := unwitnessed c |}])
       end.

Definition slot_needs_gate {R Q} (slot : OutputSlot R Q) (cached : Z) : bool :=
  cached <? o_wire_seq slot.

(** The tail of [admit_slot], once the slot's own wait is over. *)
Definition finish_slot {R Q} (g : DurabilityGate) (h : Hook) (slot : OutputSlot R Q)
    (backing : Backing) (now : Z) (rest : list Pass) : progress Admission :=
  match payload slot with
  | PolicyChange c =>
    Done GateOnly
      (match backing with
       | Policy => apply_change g (o_wire_seq slot) (policy c) now
       | PrimaryOnly => defer_change g (o_wire_seq slot) c
       end) h rest
  | _ => Done (Reply (o_connection_id slot) backing) g h rest
  end.

Definition admit_slot {R Q} (g : DurabilityGate) (h : Hook) (slot : OutputSlot R Q)
    (backing : Backing) (now : Z) (passes : list Pass) : progress Admission :=
  if slot_needs_gate slot (cached_durable_pos g) then
    match wait_durable g (o_wire_seq slot) (starting h) passes with
    | Done ShutDown g h rest => Done Shutdown g h rest
    | Done (Open released) g h rest => finish_slot g h slot (backing_min backing released) now rest
    | Waiting g h => Waiting g h
    | OutOfFuel => OutOfFuel
    end
  else finish_slot g h slot backing now passes.

Definition admit_output {R Q} (g : DurabilityGate) (slot : OutputSlot R Q) (now : Z) (passes : list Pass)
    : progress Admission :=
  match admit_pending (S (length (pending g))) g hook_new now passes with
  | Done ShutDown g h rest => Done Shutdown g h rest
  | Done (Open backing) g h rest => admit_slot g h slot backing now rest
  | Waiting g h => Waiting g h
  | OutOfFuel => OutOfFuel
  end.

Definition idle_recheck (g : DurabilityGate) (now : Z) (p : Pass) : DurabilityGate :=
  if sat_sub now (last_policy_check g) <? POLICY_CHECK_INTERVAL then g
  else
    let status := evaluate_durability (g_policy g) (journal_pos p) (metrics p) (active p) in
    let '(l, u, _) := logger_tick (degraded_logger g) (utilization g) (degraded status) now
                        DEGRADED_LOG_INTERVAL in
    let g := with_logger g l u (accrual_timer g) now in
    let g := with_cached g (durable_pos status) (utilization g) in
    let g := settle_pending_if_durable g (journal_pos p) (now_switch p) in
    snd (degraded_release_open g (loss p) (now_release p)).

Definition after_batch (g : DurabilityGate) (now : Z) : DurabilityGate :=
  let '(l, u, _) := logger_tick (degraded_logger g) (utilization g)
                      (policy_degraded (utilization g)) now DEGRADED_LOG_INTERVAL in
  with_logger g l u (accrual_timer g) now.

Definition gate_new (gr : option Z) (start : GateStart) (u : Utilization) (now timer_now : Z) (p : Pass)
    : DurabilityGate :=
  let ap := start_in_force start in
  let status := evaluate_durability (to_policy ap) (journal_pos p) (metrics p) (active p) in
  settle_pending_if_durable
    {| grace := gr; applied_through := None; last_refused := None;
       pending := match start_pending start with Some c => [c] | None => [] end;
       active_policy := ap; g_needs_replica := needs_replica ap; g_policy := to_policy ap;
       cached_durable_pos := durable_pos status;
       degraded_logger := if degraded status then new_starting_degraded now else logger_new now;
       last_policy_check := now; accrual_timer := timer_new timer_now; halt_started := None;
       releasing_degraded := false;
       utilization := set_degraded (set_in_force u ap) (degraded status) |}
    (journal_pos p) (now_switch p).

End Gate.

Module Tenure.
Import Gate Presence.Halt.

(** A new tenure applies the lineage's last transition again. On a node
    with replication, whatever changes the journal holds: with none, the gate
    starts under the requested policy; if all name one policy, under it; and
    otherwise under the policy in force before the last run of changes naming
    the newest policy, with that transition pending at its own sequence, to be
    applied on disk alone exactly if some change of the run was journaled
    unwitnessed. A byte this build does not know is refused, never replaced. *)
Theorem tenure_start (h : history) (requested : AckPolicy) :
  match initial_gate_policy (fold_changes None h) requested Enabled with
  | Ok start =>
    (h = [] /\ start = settled requested) \/
    exists pre w c rest newest, last_run h pre w c rest /\ from_byte (policy c) = Some newest /\
      ((pre = [] /\ start = settled newest) \/
       exists x before, last pre = Some x /\ from_byte (policy (snd x)) = Some before /\
         start = {| start_in_force := before;
                    start_pending := Some {| p_wire_seq := w; p_policy := newest;
                      p_unwitnessed := existsb (fun y => unwitnessed (snd y)) ((w, c) :: rest) |} |})
  | Err (UnknownPolicyByte b) =>
    from_byte b = None /\ exists x, x ∈ h /\ policy (snd x) = b
  end.
Proof.
  destruct (base.decide (h = [])) as [->|Hne]; [by left|].
  destruct (fold_changes_run h Hne) as (pre&w&c&rest&Hrun&->).
  unfold initial_gate_policy. cbn [in_force run_policy change policy previous wire_seq].
  change (in_force (run_policy pre w c rest)) with (policy c).
  unfold known_lineage_policy. pose proof Hrun as (Hh&_&_). rewrite Hh in Hrun |- *. clear Hh.
  assert (Hinc : (w, c) ∈ pre ++ (w, c) :: rest) by (apply elem_of_app; right; left).
  destruct (from_byte (policy c)) as [newest|] eqn:Ec; cbn; [|by split; [|exists (w, c)]].
  destruct (last pre) as [x|] eqn:El; cbn.
  - assert (Hx : x ∈ pre ++ (w, c) :: rest).
    { apply elem_of_app. left. apply last_Some in El as [l ->]. apply elem_of_app. right. left. }
    destruct (from_byte (policy (snd x))) as [before|] eqn:Eb; cbn; [|by split; [|exists x]].
    right. exists pre, w, c, rest, newest. split; [done|]. split; [done|]. right.
    by exists x, before.
  - apply last_None in El as ->. right. exists [], w, c, rest, newest. split; [done|].
    split; [done|]. by left.
Qed.

End Tenure.
