(* ===== verification/GateProofs.v ===== *)
(** * What the durability gate promises

    The abstract contract of the gate, and the proof that [Gate] keeps it.
    Evidence is a set of passes, [seen]: what the gate has read so far.
    [confirmed] and [on_disk] say what a pass proves of a wire sequence, and
    [switch] is the abstract machine of the policy in force: the only way it
    may move. [lineage] is the set of journaled changes. *)

From S2P Require Import Prelude Cursors AckPolicy Lineage Stages Presence Gate.
Import Lineage.Event Lineage.Policy AckPolicy.Core AckPolicy.View AckPolicy.Named.
Import Gate.Timer Gate.Logger Presence.Presence Presence.Halt Stages.Live Gate.Gate.

Module Contract.

(** The durable position of a policy over what one pass read. *)
Definition eval_at (a : AckPolicy) (p : Pass) : Z :=
  durable_pos (evaluate_durability (to_policy a) (journal_pos p) (metrics p) (active p)).

(** The policy in force, and the newest change applied. *)
Definition policy_state (g : DurabilityGate) : AckPolicy * option Z :=
  (active_policy g, applied_through g).

Definition newer (through : option Z) (ws : Z) : Prop :=
  match through with Some t => t < ws | None => True end.

Section contract.
Context (seen : Pass -> Prop) (lineage : Z -> Z -> bool -> Prop).

Definition confirmed (a : AckPolicy) (ws : Z) : Prop :=
  ws <= 0 \/ exists p, seen p /\ ws <= eval_at a p.

Definition on_disk (ws : Z) : Prop := exists p, seen p /\ ws <= journal_pos p.

(** A journaled change takes effect: it is newer than every change applied,
    and either the policy it replaces confirmed it or it was journaled
    unwitnessed and this node's disk holds it. *)
Inductive switch : AckPolicy * option Z -> AckPolicy * option Z -> Prop :=
| sw_change a th ws b u next :
    lineage ws b u -> from_byte b = Some next -> newer th ws ->
    confirmed a ws \/ (u = true /\ on_disk ws) ->
    switch (a, th) (next, Some ws).

Record ginv (g : DurabilityGate) : Prop := {
  gi_policy : g_policy g = to_policy (active_policy g);
  gi_needs : g_needs_replica g = needs_replica (active_policy g);
  gi_gauge : ack_policy_in_force (utilization g) = cell_encode (Some (to_byte (active_policy g)));
  gi_cached : confirmed (active_policy g) (cached_durable_pos g);
  gi_pending : Forall (fun c => lineage (p_wire_seq c) (to_byte (p_policy c)) (p_unwitnessed c))
                 (pending g)
}.

Definition good_pass (p : Pass) : Prop :=
  seen p /\ forall f, forced p = Some f -> lineage (f_wire_seq f) (f_policy f) true.

(** A gate operation keeps the invariant and moves the policy as the abstract
    machine may. *)
Record evolves (g g' : DurabilityGate) : Prop := {
  ev_inv : ginv g';
  ev_switch : rtc switch (policy_state g) (policy_state g');
  ev_grace : grace g' = grace g;
  ev_pending : exists pre, pending g = pre ++ pending g'
}.

Lemma confirmed_le a ws ws' : ws' <= ws -> confirmed a ws -> confirmed a ws'.
Proof. intros Hle [?|(p&?&?)]; [left; lia|right; exists p; split; [done|lia]]. Qed.

Lemma evolves_refl g : ginv g -> evolves g g.
Proof. intros Hg. split; [done|apply rtc_refl|done|by exists []]. Qed.

Lemma evolves_trans g1 g2 g3 : evolves g1 g2 -> evolves g2 g3 -> evolves g1 g3.
Proof.
  intros [_ Hs1 Hg1 [p1 Hp1]] [Hi Hs2 Hg2 [p2 Hp2]]. split; [done| |congruence|].
  - by etrans.
  - exists (p1 ++ p2). by rewrite <- app_assoc, <- Hp2.
Qed.

(** An update that leaves the policy and the pending changes alone. *)
Lemma evolves_same g g' :
  ginv g -> g_policy g' = g_policy g -> g_needs_replica g' = g_needs_replica g ->
  active_policy g' = active_policy g -> applied_through g' = applied_through g ->
  grace g' = grace g -> pending g' = pending g ->
  ack_policy_in_force (utilization g') = ack_policy_in_force (utilization g) ->
  confirmed (active_policy g) (cached_durable_pos g') -> evolves g g'.
Proof.
  intros [H1 H2 H3 H4 H5] Ep En Ea Et Eg Epd Eu Hc. split.
  - split; rewrite ?Ep, ?En, ?Eu, ?Ea, ?Epd; done.
  - unfold policy_state. rewrite Ea, Et. apply rtc_refl.
  - done.
  - exists []. by rewrite Epd.
Qed.

Lemma gauge_logger l u d now hb :
  ack_policy_in_force (logger_tick l u d now hb).1.2 = ack_policy_in_force u.
Proof. unfold logger_tick, accrue. cbn. repeat (case_match; cbn); done. Qed.

Lemma is_stale_false g ws : is_stale g ws = false -> newer (applied_through g) ws.
Proof. unfold is_stale, newer. destruct (applied_through g); [|done]. intros. zb. done. Qed.

Lemma apply_change_evolves g ws b u now :
  ginv g -> lineage ws b u -> confirmed (active_policy g) ws \/ (u = true /\ on_disk ws) ->
  evolves g (apply_change g ws b now) /\ pending (apply_change g ws b now) = pending g.
Proof.
  intros Hg Hl Hj. unfold apply_change. destruct (is_stale g ws) eqn:Est; [by split; [apply evolves_refl|]|].
  apply is_stale_false in Est. destruct (from_byte b) as [next|] eqn:Eb.
  2:{ unfold refuse_unknown. case_bool_decide; [by split; [apply evolves_refl|]|].
      split; [|done]. apply evolves_same; try done. apply (gi_cached g Hg). }
  assert (Hsw : switch (policy_state g) (next, Some ws)) by (by eapply sw_change).
  unfold switch_to. case_bool_decide as Hn.
  - cbn in Hn. split; [|done]. destruct Hg. split; [constructor; cbn; try assumption| |done|by exists []].
    unfold policy_state in *. cbn. rewrite Hn in Hsw. by apply rtc_once.
  - split; [|done]. split; cbn; [|by apply rtc_once|done|by exists []].
    constructor; cbn; try done; [by left|apply Hg].
Qed.

Lemma with_pending_evolves g c rest :
  ginv g -> pending g = c :: rest -> evolves g (with_pending g rest).
Proof.
  intros [H1 H2 H3 H4 H5] Hp. rewrite Hp in H5. apply Forall_cons in H5 as [_ H5].
  split; [by constructor|apply rtc_refl|done|]. exists [c]. by rewrite Hp.
Qed.

Lemma apply_front_evolves g c rest now :
  ginv g -> pending g = c :: rest ->
  confirmed (active_policy g) (p_wire_seq c) \/ (p_unwitnessed c = true /\ on_disk (p_wire_seq c)) ->
  evolves g (apply_front_pending g now) /\ pending (apply_front_pending g now) = rest.
Proof.
  intros Hg Hp Hj. pose proof (with_pending_evolves g c rest Hg Hp) as Hw.
  assert (Hl : lineage (p_wire_seq c) (to_byte (p_policy c)) (p_unwitnessed c)).
  { destruct Hg as [_ _ _ _ H5]. rewrite Hp in H5. by apply Forall_cons in H5 as [? _]. }
  unfold apply_front_pending. rewrite Hp.
  destruct (apply_change_evolves (with_pending g rest) _ _ _ now (ev_inv _ _ Hw) Hl Hj) as [He Hpd].
  split; [by eapply evolves_trans|]. by rewrite Hpd.
Qed.

Lemma settle_evolves g jp now :
  ginv g -> (exists p, seen p /\ journal_pos p = jp) ->
  evolves g (settle_pending_if_durable g jp now).
Proof.
  intros Hg (p&Hs&<-). unfold settle_pending_if_durable.
  remember (pending g) as ps eqn:Eps. revert g Hg Eps.
  induction ps as [|c rest IH]; intros g Hg Eps; cbn; [by apply evolves_refl|].
  destruct (_ && _) eqn:Ec; [by apply evolves_refl|].
  destruct (apply_front_evolves g c rest now Hg (eq_sym Eps)) as [He Hp].
  { zb. destruct Ec as [Hle|[Hu Hj]].
    - left. eapply confirmed_le; [|apply (gi_cached g Hg)]. done.
    - right. split; [done|]. by exists p. }
  eapply evolves_trans; [exact He|]. apply IH; [by apply He|done].
Qed.

Lemma observe_forced_evolves g p now :
  ginv g -> good_pass p -> evolves g (observe_forced g (journal_pos p) (forced p) now).
Proof.
  intros Hg [Hs Hf]. unfold observe_forced.
  assert (He : evolves g (settle_pending_if_durable g (journal_pos p) now))
    by (apply settle_evolves; eauto).
  destruct (forced p) as [f|]; [|done]. destruct (f_wire_seq f <=? journal_pos p) eqn:Ej; [|done]. zb.
  eapply evolves_trans; [exact He|].
  eapply apply_change_evolves; [by apply He|by apply Hf|]. right. split; [done|]. by exists p.
Qed.

Lemma accrual_evolves g p d : ginv g -> evolves g (accrual_step g p d).
Proof.
  intros Hg. unfold accrual_step. destruct (tick _ _ _ _ _) as [fired t].
  destruct fired as [e|].
  - pose proof (gauge_logger (degraded_logger g) (utilization g) d (now_tick p) DEGRADED_LOG_INTERVAL) as Hu.
    destruct (logger_tick _ _ _ _ _) as [[l u] ln].
    apply evolves_same; try done. apply (gi_cached g Hg).
  - apply evolves_same; try done. apply (gi_cached g Hg).
Qed.

Lemma accrual_fields g p d :
  cached_durable_pos (accrual_step g p d) = cached_durable_pos g /\
  active_policy (accrual_step g p d) = active_policy g.
Proof.
  unfold accrual_step. destruct (tick _ _ _ _ _) as [fired t]. destruct fired; [|done].
  by destruct (logger_tick _ _ _ _ _) as [[l u] ln].
Qed.

Lemma observe_pass_evolves g needed p :
  ginv g -> good_pass p ->
  let g' := (observe_pass g needed p).1 in
  evolves g g' /\ cached_durable_pos g' = eval_at (active_policy g') p.
Proof.
  intros Hg Hp. unfold observe_pass.
  pose proof (observe_forced_evolves g p (now_switch p) Hg Hp) as He.
  set (g1 := observe_forced _ _ _ _) in *. destruct (evaluate_gate _ _ _ _ _) as [status bl] eqn:Ev.
  cbn [fst]. set (g2 := with_cached _ _ _).
  assert (Hst : durable_pos status = eval_at (active_policy g1) p).
  { unfold evaluate_gate in Ev. injection Ev as <- _. unfold eval_at, evaluate_durability.
    by rewrite (gi_policy g1 (ev_inv _ _ He)). }
  assert (He2 : evolves g1 g2).
  { apply evolves_same; try done; [apply He|]. cbn. right. exists p. split; [apply Hp|]. by rewrite Hst. }
  pose proof (accrual_evolves g2 p (degraded status) (ev_inv _ _ He2)) as He3.
  destruct (accrual_fields g2 p (degraded status)) as [-> ->]. split; [|done].
  by eapply evolves_trans, evolves_trans.
Qed.

Lemma release_evolves g l now : ginv g -> evolves g (degraded_release_open g l now).2.
Proof.
  intros Hg. unfold degraded_release_open. destruct (grace g); [|by apply evolves_refl].
  destruct l; (apply evolves_same; try done; apply (gi_cached g Hg)).
Qed.

(** The degraded release was open at pass [p]: configured, no replica, a
    policy that needs one, and the halt older than the grace period. *)
Definition released (g : DurabilityGate) (p : Pass) : Prop :=
  exists gr l start, grace g = Some gr /\ loss p = Some l /\
    needs_replica (active_policy g) = true /\
    (forall t, l = At t -> start = t) /\ gr <= sat_sub (now_release p) start.

Lemma release_open g p g' :
  ginv g -> degraded_release_open g (loss p) (now_release p) = (true, g') -> released g' p.
Proof.
  intros Hg. unfold degraded_release_open, released. destruct (grace g) as [gr|] eqn:Eg; [|done].
  destruct (loss p) as [l|]; [|done]. intros [= Ho <-]. zb. destruct Ho as [Hn Hgr]. cbn.
  exists gr, l, (halt_start l (halt_started g) (now_release p)).
  rewrite <- (gi_needs g Hg). split_and!; try done. by intros t ->.
Qed.
End contract.

(** A wait for [needed] that read the passes up to [rest] and ended in [o]. *)
Definition wait_ok (needed : Z) (passes rest : list Pass) (g : DurabilityGate) (o : GateOutcome)
    (g' : DurabilityGate) : Prop :=
  exists used, passes = used ++ rest /\
  forall seen lineage, Forall (good_pass seen lineage) used -> ginv seen lineage g ->
    evolves seen lineage g g' /\
    match o with
    | ShutDown => exists p, p ∈ used /\ shutdown p = true
    | Open Policy => needed <= cached_durable_pos g'
    | Open PrimaryOnly =>
      exists p, p ∈ used /\ needed <= journal_pos p /\ released g' p /\ cached_durable_pos g' < needed
    end.

(** One more pass in front of a wait. *)
Lemma wait_ok_cons needed p passes rest g g1 o g' :
  (forall seen lin, good_pass seen lin p -> ginv seen lin g -> evolves seen lin g g1) ->
  wait_ok needed passes rest g1 o g' -> wait_ok needed (p :: passes) rest g o g'.
Proof.
  intros H1 (used&->&Hspec). exists (p :: used). split; [done|]. intros seen lin [Hp Hu]%Forall_cons_1 Hg.
  pose proof (H1 seen lin Hp Hg) as He. destruct (Hspec seen lin Hu (ev_inv _ _ _ _ He)) as [H3 Ho].
  split; [by eapply evolves_trans|].
  destruct o as [[|]|]; [done| |]; destruct Ho as (q&?&?); exists q; (split; [by right|done]).
Qed.

Lemma wait_spec g needed h passes o g' h' rest :
  wait_durable g needed h passes = Done o g' h' rest -> wait_ok needed passes rest g o g'.
Proof.
  revert g h; induction passes as [|p passes IH]; intros g h; cbn [wait_durable]; [done|].
  destruct (shutdown p) eqn:Esd.
  { intros [= <- <- <- <-]. exists [p]. split; [done|]. intros seen lin _ Hg.
    split; [by apply evolves_refl|]. exists p. split; [by left|done]. }
  destruct (observe_pass g needed p) as [g1 bl] eqn:Eo.
  assert (Hobs : forall seen lin, good_pass seen lin p -> ginv seen lin g -> evolves seen lin g g1).
  { intros seen lin Hp Hg. destruct (observe_pass_evolves seen lin g needed p Hg Hp) as [He _].
    by rewrite Eo in He. }
  destruct (needed <=? cached_durable_pos g1) eqn:Ec.
  { intros [= <- <- <- <-]. exists [p]. split; [done|]. intros seen lin [Hp _]%Forall_cons_1 Hg.
    zb. split; [|done]. pose proof (Hobs seen lin Hp Hg) as H1. eapply evolves_trans; [exact H1|].
    apply evolves_same; try done; [apply H1|]. apply (gi_cached _ _ _ (ev_inv _ _ _ _ H1)). }
  destruct (needed <=? journal_pos p) eqn:Ej.
  2:{ intros Hw. by eapply wait_ok_cons, IH. }
  destruct (degraded_release_open g1 (loss p) (now_release p)) as [op g2] eqn:Er.
  assert (H12 : forall seen lin, good_pass seen lin p -> ginv seen lin g -> evolves seen lin g g2).
  { intros seen lin Hp Hg. pose proof (Hobs seen lin Hp Hg) as H1. eapply evolves_trans; [exact H1|].
    pose proof (release_evolves seen lin g1 (loss p) (now_release p) (ev_inv _ _ _ _ H1)) as H2. by rewrite Er in H2. }
  destruct op; [|intros Hw; by eapply wait_ok_cons, IH].
  intros [= <- <- <- <-]. exists [p]. split; [done|]. intros seen lin [Hp _]%Forall_cons_1 Hg.
  zb. split; [by apply H12|]. exists p. split_and!; [by left|done| |].
  { eapply release_open; [exact (ev_inv _ _ _ _ (Hobs seen lin Hp Hg))|done]. }
  unfold degraded_release_open in Er. repeat case_match; simplify_eq/=; done.
Qed.

Lemma admit_pending_spec fuel g h now passes o g' h' rest :
  admit_pending fuel g h now passes = Done o g' h' rest ->
  exists used, passes = used ++ rest /\
  forall seen lineage, Forall (good_pass seen lineage) used -> ginv seen lineage g ->
    evolves seen lineage g g' /\
    match o with
    | ShutDown => exists p, p ∈ used /\ shutdown p = true
    | Open Policy => pending g' = []
    | Open PrimaryOnly => exists p, p ∈ used /\ released g' p
    end.
Proof.
  revert g h passes; induction fuel as [|fuel IH]; intros g h passes; cbn [admit_pending]; [done|].
  destruct (pending g) as [|c cs] eqn:Ep.
  { intros [= <- <- <- <-]. exists []. split; [done|]. intros. split; [by apply evolves_refl|done]. }
  destruct (cached_durable_pos g <? p_wire_seq c) eqn:Ec.
  2:{ intros Ha. destruct (IH _ _ _ Ha) as (used&->&Hspec). exists used. split; [done|].
      intros seen lin Hu Hg. destruct (apply_front_evolves seen lin g c cs now Hg Ep) as [He _].
      { left. eapply confirmed_le; [|apply (gi_cached _ _ _ Hg)]. zb. lia. }
      destruct (Hspec seen lin Hu (ev_inv _ _ _ _ He)) as [He' Ho].
      split; [by eapply evolves_trans|done]. }
  destruct (wait_durable g (p_wire_seq c) (starting h) passes) as [o1 g1 h1 r1| |] eqn:Ew; [|done|done].
  destruct (wait_spec _ _ _ _ _ _ _ _ Ew) as (used1&->&Hs1).
  assert (Hstop : o1 <> Open Policy -> Done o1 g1 h1 r1 = Done o g' h' rest ->
    exists used, used1 ++ r1 = used ++ rest /\
    forall seen lin, Forall (good_pass seen lin) used -> ginv seen lin g ->
      evolves seen lin g g' /\
      match o with
      | ShutDown => exists p, p ∈ used /\ shutdown p = true
      | Open Policy => pending g' = []
      | Open PrimaryOnly => exists p, p ∈ used /\ released g' p
      end).
  { intros Hne [= <- <- <- <-]. exists used1. split; [done|]. intros seen lin Hu Hg.
    destruct (Hs1 seen lin Hu Hg) as [He Ho]. split; [done|].
    destruct o1 as [[|]|]; [done| |done]. destruct Ho as (q&?&_&?&_). eauto. }
  destruct o1 as [[|]|]; [|by apply Hstop|by apply Hstop].
  clear Hstop. case_bool_decide as Hh; intros Ha; destruct (IH _ _ _ Ha) as (used2&->&Hs2);
    exists (used1 ++ used2); (split; [by rewrite app_assoc|]);
    intros seen lin [Hu1 Hu2]%Forall_app Hg; destruct (Hs1 seen lin Hu1 Hg) as [He1 Hc1].
  - destruct (pending g1) as [|c' cs1] eqn:Ep1; [done|]. injection Hh as ->.
    destruct (apply_front_evolves seen lin g1 c cs1 now (ev_inv _ _ _ _ He1) Ep1) as [He2 _].
    { left. eapply confirmed_le; [exact Hc1|apply (gi_cached _ _ _ (ev_inv _ _ _ _ He1))]. }
    destruct (Hs2 seen lin Hu2 (ev_inv _ _ _ _ He2)) as [He3 Ho].
    split; [by eapply evolves_trans, evolves_trans|].
    destruct o as [[|]|]; [done| |]; destruct Ho as (q&?&?); exists q; (split; [apply elem_of_app; by right|done]).
  - destruct (Hs2 seen lin Hu2 (ev_inv _ _ _ _ He1)) as [He3 Ho].
    split; [by eapply evolves_trans|].
    destruct o as [[|]|]; [done| |]; destruct Ho as (q&?&?); exists q; (split; [apply elem_of_app; by right|done]).
Qed.

(** ** Admitting a slot *)

(** The change a slot carries is a journaled one. *)
Definition slot_in_lineage {R Q} (lineage : Z -> Z -> bool -> Prop) (slot : OutputSlot R Q) : Prop :=
  forall c, payload slot = PolicyChange c -> lineage (o_wire_seq slot) (policy c) (unwitnessed c).

(** What a release on the primary's own disk rests on. *)
Definition release_evidence (gr : Z) (p : Pass) : Prop :=
  exists a l start, loss p = Some l /\ needs_replica a = true /\
    (forall t, l = At t -> start = t) /\ gr <= sat_sub (now_release p) start.

Lemma released_evidence g p : released g p -> exists gr, grace g = Some gr /\ release_evidence gr p.
Proof.
  intros (gr&l&start&Hg&Hl&Hn&Hs&Hgr). exists gr. split; [done|].
  by exists (active_policy g), l, start.
Qed.

(** How the admission's result is backed. *)
Definition admission_ok {R Q} (seen : Pass -> Prop) (used : list Pass) (g g' : DurabilityGate)
    (slot : OutputSlot R Q) (a : Admission) : Prop :=
  match a with
  | Reply conn Policy =>
    conn = o_connection_id slot /\ confirmed seen (active_policy g') (o_wire_seq slot)
  | Reply conn PrimaryOnly =>
    conn = o_connection_id slot /\
    (confirmed seen (active_policy g') (o_wire_seq slot) \/ on_disk seen (o_wire_seq slot)) /\
    exists gr p, p ∈ used /\ grace g = Some gr /\ release_evidence gr p
  | GateOnly => exists c, payload slot = PolicyChange c
  | Shutdown => exists p, p ∈ used /\ shutdown p = true
  end.

Lemma defer_ginv seen lin g ws c :
  ginv seen lin g -> lin ws (policy c) (unwitnessed c) ->
  ginv seen lin (defer_change g ws c) /\ policy_state (defer_change g ws c) = policy_state g.
Proof.
  intros Hg Hl. unfold defer_change. destruct (is_stale g ws); [done|].
  destruct (from_byte (policy c)) as [p|] eqn:Eb.
  - split; [|done]. destruct Hg as [H1 H2 H3 H4 H5]. constructor; cbn; try assumption.
    apply Forall_app. split; [done|]. constructor; [|constructor]. cbn.
    by rewrite <- (from_byte_inv _ _ Eb).
  - unfold refuse_unknown. case_bool_decide; [done|]. by destruct Hg.
Qed.

Lemma finish_slot_spec {R Q} seen lin used g g1 h (slot : OutputSlot R Q) backing now rest a g' h' rest' :
  finish_slot g1 h slot backing now rest = Done a g' h' rest' ->
  ginv seen lin g1 -> rtc (switch seen lin) (policy_state g) (policy_state g1) ->
  slot_in_lineage lin slot ->
  match backing with
  | Policy => confirmed seen (active_policy g1) (o_wire_seq slot)
  | PrimaryOnly =>
    (confirmed seen (active_policy g1) (o_wire_seq slot) \/ on_disk seen (o_wire_seq slot)) /\
    exists gr p, p ∈ used /\ grace g = Some gr /\ release_evidence gr p
  end ->
  rest' = rest /\ ginv seen lin g' /\ rtc (switch seen lin) (policy_state g) (policy_state g') /\
  admission_ok seen used g g' slot a.
Proof.
  intros Hf Hg Hsw Hl Hb. unfold finish_slot in Hf.
  assert (Hreply : (forall c, payload slot <> PolicyChange c) ->
    Done (Reply (o_connection_id slot) backing) g1 h rest = Done a g' h' rest' ->
    rest' = rest /\ ginv seen lin g' /\ rtc (switch seen lin) (policy_state g) (policy_state g') /\
    admission_ok seen used g g' slot a).
  { intros _ [= <- <- <- <-]. destruct backing; by split_and!. }
  destruct (payload slot) as [r|q| |c] eqn:Ep; try (apply Hreply; [intros c; congruence|done]).
  clear Hreply. injection Hf as <- <- <- <-. split; [done|].
  assert (Hgo : forall g2, ginv seen lin g2 ->
    rtc (switch seen lin) (policy_state g) (policy_state g2) ->
    ginv seen lin g2 /\ rtc (switch seen lin) (policy_state g) (policy_state g2) /\
    admission_ok seen used g g2 slot GateOnly) by (intros g2 ? ?; split_and!; try done; by exists c).
  destruct backing.
  - destruct (apply_change_evolves seen lin g1 _ _ _ now Hg (Hl c Ep) (or_introl Hb)) as [He _].
    apply Hgo; [apply He|]. etrans; [exact Hsw|apply He].
  - destruct (defer_ginv seen lin g1 (o_wire_seq slot) c Hg (Hl c Ep)) as [H1 H2].
    apply Hgo; [done|]. by rewrite H2.
Qed.

(** What the first half of an admission leaves to the slot. *)
Lemma pending_left g g1 backing used1 (Hs1 : forall seen lin, Forall (good_pass seen lin) used1 -> ginv seen lin g ->
    evolves seen lin g g1 /\
    match Open backing with
    | ShutDown => exists p, p ∈ used1 /\ shutdown p = true
    | Open Policy => pending g1 = []
    | Open PrimaryOnly => exists p, p ∈ used1 /\ released g1 p
    end) (seen : Pass -> Prop) lin (used : list Pass) :
  Forall (good_pass seen lin) used1 -> ginv seen lin g -> (forall p, p ∈ used1 -> p ∈ used) ->
  ginv seen lin g1 /\ rtc (switch seen lin) (policy_state g) (policy_state g1) /\ grace g1 = grace g /\
  (backing = PrimaryOnly -> exists gr p, p ∈ used /\ grace g = Some gr /\ release_evidence gr p).
Proof.
  intros Hu Hg Hin. destruct (Hs1 seen lin Hu Hg) as [He Ho].
  split_and!; [apply He|apply He|apply He|]. intros ->. destruct Ho as (p&Hp&(gr&Hgr&Hev)%released_evidence).
  exists gr, p. rewrite <- (ev_grace _ _ _ _ He). auto.
Qed.

Lemma admit_spec {R Q} g (slot : OutputSlot R Q) now passes a g' h' rest :
  admit_output g slot now passes = Done a g' h' rest ->
  exists used, passes = used ++ rest /\
  forall (seen : Pass -> Prop) lin, Forall (good_pass seen lin) used -> ginv seen lin g ->
    slot_in_lineage lin slot ->
    ginv seen lin g' /\ rtc (switch seen lin) (policy_state g) (policy_state g') /\
    admission_ok seen used g g' slot a.
Proof.
  unfold admit_output. destruct (admit_pending _ g hook_new now passes) as [o1 g1 h1 r1| |] eqn:Ea; [|done|done].
  destruct (admit_pending_spec _ _ _ _ _ _ _ _ _ Ea) as (used1&->&Hs1).
  destruct o1 as [backing|].
  2:{ intros [= <- <- <- <-]. exists used1. split; [done|]. intros seen lin Hu Hg _.
      destruct (Hs1 seen lin Hu Hg) as [He Ho]. split; [apply He|]. split; [apply He|done]. }
  pose proof (pending_left _ _ _ _ Hs1) as Hback.
  unfold admit_slot, slot_needs_gate. destruct (cached_durable_pos g1 <? o_wire_seq slot) eqn:Ec.
  - destruct (wait_durable g1 (o_wire_seq slot) (starting h1) r1) as [o2 g2 h2 r2| |] eqn:Ew; [|done|done].
    destruct (wait_spec _ _ _ _ _ _ _ _ Ew) as (used2&->&Hs2). destruct o2 as [released2|].
    2:{ intros [= <- <- <- <-]. exists (used1 ++ used2). split; [by rewrite app_assoc|].
        intros seen lin [Hu1 Hu2]%Forall_app Hg _.
        destruct (Hback seen lin used1 Hu1 Hg ltac:(done)) as (Hg1&Hsw&_&_).
        destruct (Hs2 seen lin Hu2 Hg1) as [He (q&?&?)]. split; [apply He|].
        split; [etrans; [exact Hsw|apply He]|]. exists q. split; [apply elem_of_app; by right|done]. }
    intros Hf. exists (used1 ++ used2).
    assert (Hr : rest = r2) by (unfold finish_slot in Hf; repeat case_match; by simplify_eq).
    split; [subst; by rewrite app_assoc|].
    intros seen lin [Hu1 Hu2]%Forall_app Hg Hl.
    destruct (Hback seen lin (used1 ++ used2) Hu1 Hg) as (Hg1&Hsw&Hgr&Hpo).
    { intros p Hp. apply elem_of_app. by left. }
    destruct (Hs2 seen lin Hu2 Hg1) as [He Ho].
    eapply (finish_slot_spec seen lin (used1 ++ used2) g) in Hf as (_&H1&H2&H3); [done|apply He| |done|].
    { etrans; [exact Hsw|apply He]. }
    destruct released2.
    + assert (Hc : confirmed seen (active_policy g2) (o_wire_seq slot)).
      { eapply confirmed_le; [exact Ho|apply (gi_cached _ _ _ (ev_inv _ _ _ _ He))]. }
      destruct backing; cbn; auto.
    + destruct Ho as (p&Hp&Hj&(gr&Hg2&Hev)%released_evidence&_).
      assert (Hod : on_disk seen (o_wire_seq slot)).
      { exists p. split; [|done]. rewrite Forall_forall in Hu2. by apply Hu2. }
      assert (Hex : exists gr p, p ∈ used1 ++ used2 /\ grace g = Some gr /\ release_evidence gr p).
      { exists gr, p. rewrite <- Hgr, <- (ev_grace _ _ _ _ He). split_and!; try done.
        apply elem_of_app. by right. }
      destruct backing; cbn; auto.
  - intros Hf. exists used1.
    assert (Hr : rest = r1) by (unfold finish_slot in Hf; repeat case_match; by simplify_eq).
    split; [by subst|]. intros seen lin Hu1 Hg Hl.
    destruct (Hback seen lin used1 Hu1 Hg ltac:(done)) as (Hg1&Hsw&Hgr&Hpo).
    eapply (finish_slot_spec seen lin used1 g) in Hf as (_&H1&H2&H3); [done|done|done|done|].
    assert (Hc : confirmed seen (active_policy g1) (o_wire_seq slot)).
    { eapply confirmed_le; [|apply (gi_cached _ _ _ Hg1)]. zb. lia. }
    destruct backing; cbn; auto.
Qed.

(** Evidence only accumulates. *)
Lemma confirmed_mono (seen seen' : Pass -> Prop) a ws :
  (forall p, seen p -> seen' p) -> confirmed seen a ws -> confirmed seen' a ws.
Proof. intros H [?|(p&?&?)]; [by left|right; exists p; auto]. Qed.

Lemma ginv_mono (seen seen' : Pass -> Prop) lin g :
  (forall p, seen p -> seen' p) -> ginv seen lin g -> ginv seen' lin g.
Proof.
  intros H [H1 H2 H3 H4 H5]. constructor; try done. by eapply confirmed_mono.
Qed.

Lemma good_passes (seen : Pass -> Prop) lin used :
  (forall p, p ∈ used -> seen p) ->
  (forall p f, p ∈ used -> forced p = Some f -> lin (f_wire_seq f) (f_policy f) true) ->
  Forall (good_pass seen lin) used.
Proof. intros Hs Hf. apply Forall_forall. intros p Hp. split; [auto|]. intros f. by apply Hf. Qed.

(** [admit_spec] with the evidence written out: what was seen before, and the
    passes this admission consumed. *)
Lemma admit_seen {R Q} hist lin g (slot : OutputSlot R Q) now passes a g' h' rest :
  ginv (fun p => p ∈ hist) lin g -> slot_in_lineage lin slot ->
  (forall p f, p ∈ passes -> forced p = Some f -> lin (f_wire_seq f) (f_policy f) true) ->
  admit_output g slot now passes = Done a g' h' rest ->
  exists used, passes = used ++ rest /\
    ginv (fun p => p ∈ hist ++ used) lin g' /\
    rtc (switch (fun p => p ∈ hist ++ used) lin) (policy_state g) (policy_state g') /\
    admission_ok (fun p => p ∈ hist ++ used) used g g' slot a.
Proof.
  intros Hg Hl Hf Ha. destruct (admit_spec _ _ _ _ _ _ _ _ Ha) as (used&->&Hspec).
  exists used. split; [done|]. apply Hspec; [| |done].
  - apply good_passes; [intros; apply elem_of_app; by right|].
    intros p f Hp. apply Hf. apply elem_of_app. by left.
  - eapply ginv_mono; [|exact Hg]. intros p Hp. apply elem_of_app. by left.
Qed.

(** The startup evaluation, the idle recheck and the end of a batch keep the
    invariant too. *)
Lemma gate_new_ginv gr start u now tn p lin :
  (forall c, start_pending start = Some c ->
     lin (p_wire_seq c) (to_byte (p_policy c)) (p_unwitnessed c)) ->
  ginv (fun q => q ∈ [p]) lin (gate_new gr start u now tn p) /\
  rtc (switch (fun q => q ∈ [p]) lin) (start_in_force start, None)
    (policy_state (gate_new gr start u now tn p)).
Proof.
  intros Hl. unfold gate_new. set (g0 := {| grace := _ |}).
  assert (Hg0 : ginv (fun q => q ∈ [p]) lin g0).
  { constructor; cbn; try done.
    - right. exists p. split; [by left|]. unfold eval_at. lia.
    - destruct (start_pending start) as [c|]; [|constructor]. repeat constructor. by apply Hl. }
  pose proof (settle_evolves (fun q => q ∈ [p]) lin g0 (journal_pos p) (now_switch p) Hg0) as He.
  destruct He as [H1 H2 _ _]; [exists p; split; [by left|done]|]. by split.
Qed.

Lemma idle_recheck_ginv (seen : Pass -> Prop) lin g now p :
  seen p -> ginv seen lin g ->
  ginv seen lin (idle_recheck g now p) /\
  rtc (switch seen lin) (policy_state g) (policy_state (idle_recheck g now p)).
Proof.
  intros Hp Hg. unfold idle_recheck. case_match; [split; [done|apply rtc_refl]|].
  set (status := evaluate_durability _ _ _ _).
  pose proof (gauge_logger (degraded_logger g) (utilization g) (degraded status) now
                DEGRADED_LOG_INTERVAL) as Hu.
  destruct (logger_tick _ _ _ _ _) as [[l u] ln]. cbn in Hu. set (g1 := with_cached _ _ _).
  assert (H1 : evolves seen lin g g1).
  { apply evolves_same; try done. cbn. right. exists p. split; [done|].
    unfold eval_at, status. by rewrite (gi_policy _ _ _ Hg). }
  assert (H2 : evolves seen lin g1 (settle_pending_if_durable g1 (journal_pos p) (now_switch p)))
    by (apply settle_evolves; [apply H1|eauto]).
  pose proof (release_evolves seen lin _ (loss p) (now_release p) (ev_inv _ _ _ _ H2)) as H3.
  destruct (evolves_trans _ _ _ _ _ H1 (evolves_trans _ _ _ _ _ H2 H3)). by split.
Qed.

Lemma after_batch_ginv (seen : Pass -> Prop) lin g now :
  ginv seen lin g ->
  ginv seen lin (after_batch g now) /\ policy_state (after_batch g now) = policy_state g.
Proof.
  intros Hg. unfold after_batch.
  pose proof (gauge_logger (degraded_logger g) (utilization g) (policy_degraded (utilization g)) now
                DEGRADED_LOG_INTERVAL) as Hu.
  destruct (logger_tick _ _ _ _ _) as [[l u] ln]. cbn in Hu. split; [|done].
  apply (ev_inv _ _ g). apply evolves_same; try done. apply (gi_cached _ _ _ Hg).
Qed.

(** The grace period is the gate's for good. *)
Lemma apply_change_grace g ws b now : grace (apply_change g ws b now) = grace g.
Proof. unfold apply_change, refuse_unknown, switch_to. repeat (case_match; cbn; try done). Qed.
Lemma apply_front_grace g now : grace (apply_front_pending g now) = grace g.
Proof. unfold apply_front_pending. destruct (pending g); [done|]. by rewrite apply_change_grace. Qed.
Lemma settle_grace ps jp now : forall g, grace (settle_loop ps g jp now) = grace g.
Proof. induction ps as [|c ps IH]; intros g; cbn; [done|]. case_match; [done|]. by rewrite IH, apply_front_grace. Qed.
Lemma release_grace g l now : grace (degraded_release_open g l now).2 = grace g.
Proof. unfold degraded_release_open. repeat (case_match; cbn; try done). Qed.
Lemma observe_grace g needed p : grace (observe_pass g needed p).1 = grace g.
Proof.
  unfold observe_pass. destruct (evaluate_gate _ _ _ _ _) as [st bl]. cbn [fst].
  assert (Hacc : forall g d, grace (accrual_step g p d) = grace g).
  { intros g1 d. unfold accrual_step. destruct (tick _ _ _ _ _) as [[e|] t]; [|done].
    by destruct (logger_tick _ _ _ _ _) as [[l u] ln]. }
  rewrite Hacc. unfold observe_forced, settle_pending_if_durable. cbn.
  destruct (forced p); [case_match|]; by rewrite ?apply_change_grace, settle_grace.
Qed.
Lemma wait_grace needed passes : forall g h o g' h' rest,
  wait_durable g needed h passes = Done o g' h' rest -> grace g' = grace g.
Proof.
  induction passes as [|p passes IH]; intros g h o g' h' rest; cbn [wait_durable]; [done|].
  destruct (shutdown p); [by intros [= <- <- <- <-]|]. pose proof (observe_grace g needed p) as Ho.
  destruct (observe_pass g needed p) as [g1 bl]. cbn in Ho.
  destruct (needed <=? cached_durable_pos g1); [by intros [= <- <- <- <-]|].
  destruct (needed <=? journal_pos p); [|intros Hw; by rewrite (IH _ _ _ _ _ _ Hw)].
  pose proof (release_grace g1 (loss p) (now_release p)) as Hr. destruct (degraded_release_open g1 _ _) as [[|] g2]; cbn in Hr.
  - intros [= <- <- <- <-]. congruence.
  - intros Hw. rewrite (IH _ _ _ _ _ _ Hw). congruence.
Qed.
Lemma admit_pending_grace now fuel : forall g h passes o g' h' rest,
  admit_pending fuel g h now passes = Done o g' h' rest -> grace g' = grace g.
Proof.
  induction fuel as [|fuel IH]; intros g h passes o g' h' rest; cbn [admit_pending]; [done|].
  destruct (pending g) as [|c cs]; [by intros [= <- <- <- <-]|].
  destruct (cached_durable_pos g <? p_wire_seq c); [|intros Ha; by rewrite (IH _ _ _ _ _ _ _ Ha), apply_front_grace].
  destruct (wait_durable g _ _ passes) as [o1 g1 h1 r1| |] eqn:Hw; [|done|done]. apply wait_grace in Hw.
  destruct o1 as [[|]|]; [|intros [= <- <- <- <-]; done|intros [= <- <- <- <-]; done].
  case_bool_decide; intros Ha; by rewrite (IH _ _ _ _ _ _ _ Ha), ?apply_front_grace.
Qed.
Lemma admit_grace {R Q} g (slot : OutputSlot R Q) now passes a g' h' rest :
  admit_output g slot now passes = Done a g' h' rest -> grace g' = grace g.
Proof.
  unfold admit_output. destruct (admit_pending _ g hook_new now passes) as [o1 g1 h1 r1| |] eqn:Ha; [|done|done].
  apply admit_pending_grace in Ha. destruct o1 as [b|]; [|by intros [= <- <- <- <-]]. unfold admit_slot.
  assert (Hfin : forall g2 h2 b2 r2, finish_slot g2 h2 slot b2 now r2 = Done a g' h' rest -> grace g' = grace g2).
  { intros g2 h2 b2 r2. unfold finish_slot. destruct (payload slot); intros [= <- <- <- <-]; try done.
    destruct b2; [apply apply_change_grace|]. unfold defer_change, refuse_unknown. repeat (case_match; cbn; try done). }
  destruct (slot_needs_gate slot _); [|intros Hf; by rewrite (Hfin _ _ _ _ Hf)].
  destruct (wait_durable g1 _ _ r1) as [o2 g2 h2 r2| |] eqn:Hw; [|done|done]. apply wait_grace in Hw.
  destruct o2; [intros Hf; rewrite (Hfin _ _ _ _ Hf); congruence|intros [= <- <- <- <-]; congruence].
Qed.
Lemma idle_grace g now p : grace (idle_recheck g now p) = grace g.
Proof.
  unfold idle_recheck. case_match; [done|]. destruct (logger_tick _ _ _ _ _) as [[l u] ln].
  rewrite release_grace. unfold settle_pending_if_durable. by rewrite settle_grace.
Qed.
Lemma after_batch_grace g now : grace (after_batch g now) = grace g.
Proof. unfold after_batch. by destruct (logger_tick _ _ _ _ _) as [[l u] ln]. Qed.

(** ** Fuel *)

Lemma settle_loop_pending ps g jp now :
  pending g = ps -> exists pre, ps = pre ++ pending (settle_loop ps g jp now).
Proof.
  revert g; induction ps as [|c ps IH]; intros g Hp; cbn; [by exists []; rewrite Hp|].
  destruct (_ && _); [by exists []; rewrite Hp|].
  destruct (IH (apply_front_pending g now)) as [pre Hpre].
  { unfold apply_front_pending, apply_change, switch_to, refuse_unknown. rewrite Hp.
    repeat (case_match; cbn; try done). }
  exists (c :: pre). cbn. by rewrite <- Hpre.
Qed.

Lemma apply_change_pending g ws b now : pending (apply_change g ws b now) = pending g.
Proof.
  unfold apply_change, switch_to, refuse_unknown. repeat (case_match; cbn; try done).
Qed.

Lemma apply_front_pending_tail g now : pending (apply_front_pending g now) = tail (pending g).
Proof.
  unfold apply_front_pending. destruct (pending g) as [|c cs] eqn:Ep; [done|].
  by rewrite apply_change_pending.
Qed.

Lemma observe_pass_pending g needed p :
  exists pre, pending g = pre ++ pending (observe_pass g needed p).1.
Proof.
  unfold observe_pass. destruct (evaluate_gate _ _ _ _ _) as [st bl]. cbn.
  assert (Hacc : forall g d, pending (accrual_step g p d) = pending g).
  { intros g0 d. unfold accrual_step. destruct (tick _ _ _ _ _) as [[e|] t]; [|done].
    by destruct (logger_tick _ _ _ _ _) as [[l u] ln]. }
  rewrite Hacc. cbn. unfold observe_forced, settle_pending_if_durable.
  destruct (settle_loop_pending (pending g) g (journal_pos p) (now_switch p) eq_refl) as [pre Hpre].
  exists pre. rewrite Hpre at 1. f_equal.
  destruct (forced p); [|done]. case_match; [|done]. by rewrite apply_change_pending.
Qed.

Lemma wait_pending g needed h passes o g' h' rest :
  wait_durable g needed h passes = Done o g' h' rest -> exists pre, pending g = pre ++ pending g'.
Proof.
  revert g h; induction passes as [|p passes IH]; intros g h; cbn [wait_durable]; [done|].
  destruct (shutdown p); [intros [= <- <- <- <-]; by exists []|].
  destruct (observe_pass_pending g needed p) as [pre Hpre].
  destruct (observe_pass g needed p) as [g1 bl]. cbn in Hpre.
  assert (Hrel : pending (degraded_release_open g1 (loss p) (now_release p)).2 = pending g1).
  { unfold degraded_release_open. repeat (case_match; cbn; try done). }
  assert (Hgo : forall g2 h2, pending g2 = pending g1 -> wait_durable g2 needed h2 passes = Done o g' h' rest ->
    exists pre, pending g = pre ++ pending g').
  { intros g2 h2 H2 Hw. destruct (IH _ _ Hw) as [pre2 H3]. exists (pre ++ pre2).
    by rewrite <- app_assoc, <- H3, H2. }
  destruct (needed <=? cached_durable_pos g1); [intros [= <- <- <- <-]; by exists pre|].
  destruct (needed <=? journal_pos p); [|by apply Hgo].
  destruct (degraded_release_open g1 _ _) as [op g2]. cbn in Hrel. destruct op; [|by apply Hgo].
  intros [= <- <- <- <-]. exists pre. by rewrite Hrel.
Qed.

Lemma wait_fuel g needed h passes : wait_durable g needed h passes <> OutOfFuel.
Proof.
  revert g h; induction passes as [|p passes IH]; intros g h; cbn [wait_durable]; [done|].
  destruct (shutdown p); [done|]. destruct (observe_pass g needed p) as [g1 bl].
  destruct (needed <=? cached_durable_pos g1); [done|].
  destruct (needed <=? journal_pos p); [|apply IH].
  destruct (degraded_release_open g1 _ _) as [[|] g2]; [done|apply IH].
Qed.

Lemma admit_pending_fuel fuel g h now passes :
  (length (pending g) < fuel)%nat -> admit_pending fuel g h now passes <> OutOfFuel.
Proof.
  revert g h passes; induction fuel as [|fuel IH]; intros g h passes Hlt; [lia|].
  cbn [admit_pending]. destruct (pending g) as [|c cs] eqn:Ep; [done|]. cbn in Hlt.
  destruct (cached_durable_pos g <? p_wire_seq c).
  2:{ apply IH. rewrite apply_front_pending_tail, Ep. cbn. lia. }
  destruct (wait_durable g (p_wire_seq c) (starting h) passes) as [o1 g1 h1 r1| |] eqn:Ew;
    [|done|by apply wait_fuel in Ew].
  destruct (wait_pending _ _ _ _ _ _ _ _ Ew) as [pre Hpre]. rewrite Ep in Hpre.
  apply (f_equal length) in Hpre as Hlen. rewrite length_app in Hlen. cbn in Hlen.
  destruct o1 as [[|]|]; [|done|done]. case_bool_decide as Hh.
  - apply IH. rewrite apply_front_pending_tail. destruct (pending g1); [done|]. cbn in *. lia.
  - apply IH. destruct pre as [|x pre]; cbn in Hpre, Hlen; [|lia]. rewrite <- Hpre in Hh. done.
Qed.

Lemma admit_never_starves {R Q} g (slot : OutputSlot R Q) now passes : admit_output g slot now passes <> OutOfFuel.
Proof.
  unfold admit_output.
  pose proof (admit_pending_fuel (S (length (pending g))) g hook_new now passes ltac:(lia)) as Hf.
  destruct (admit_pending _ g hook_new now passes) as [[b|] g1 h1 r1| |]; [|done|done|done].
  unfold admit_slot. assert (Hfin : forall g h b r, finish_slot g h slot b now r <> OutOfFuel)
    by (intros; unfold finish_slot; by destruct (payload slot)).
  destruct (slot_needs_gate slot (cached_durable_pos g1)); [|apply Hfin].
  pose proof (wait_fuel g1 (o_wire_seq slot) (starting h1) r1).
  destruct (wait_durable _ _ _ r1) as [[b'|] g2 h2 r2| |]; [apply Hfin|done|done|done].
Qed.

End Contract.

Module Promises.
Import Contract.

(** The cursors a pass read are wire sequences. *)
Definition live_pass (p : Pass) : Prop :=
  live_cursors (journal_pos p) (tail (cursor_view (journal_pos p) (metrics p) (active p))).

Definition replicas (p : Pass) : CursorView :=
  tail (cursor_view (journal_pos p) (metrics p) (active p)).

Lemma eval_at_promised a p ws :
  live_pass p -> 0 < ws -> ws <= eval_at a p <-> promised a ws (journal_pos p) (replicas p).
Proof. intros Hl Hw. by apply named_evaluate. Qed.

(** No reply outruns its policy. Whenever the gate releases a slot's
    reply as policy-backed, in whatever order changes, waits, losses and
    forced swaps came, the copies that the policy in force names existed for
    the slot's wire sequence in one of the passes the gate has read by then:
    the cursors it saw earlier, or one this admission consumed. (A wire
    sequence of 0, a query before any event, needs no copy.) *)
Theorem reply_backed_by_policy {R Q} (hist : list Pass) (lineage : Z -> Z -> bool -> Prop)
    (g : DurabilityGate) (slot : OutputSlot R Q) (now : Z) (passes : list Pass)
    (conn : Z) (g' : DurabilityGate) (h' : Hook) (rest : list Pass) :
  ginv (fun p => p ∈ hist) lineage g -> slot_in_lineage lineage slot ->
  (forall p f, p ∈ passes -> forced p = Some f -> lineage (f_wire_seq f) (f_policy f) true) ->
  Forall live_pass (hist ++ passes) ->
  admit_output g slot now passes = Done (Reply conn Policy) g' h' rest ->
  conn = o_connection_id slot /\
  exists used, passes = used ++ rest /\ ginv (fun p => p ∈ hist ++ used) lineage g' /\
    (o_wire_seq slot <= 0 \/
     exists p, p ∈ hist ++ used /\
       promised (active_policy g') (o_wire_seq slot) (journal_pos p) (replicas p)).
Proof.
  intros Hg Hl Hf Hlive Ha.
  destruct (admit_seen _ _ _ _ _ _ _ _ _ _ Hg Hl Hf Ha) as (used&->&Hg'&_&[Hc Hconf]).
  split; [done|]. exists used. do 2 (split; [done|]).
  destruct (decide (o_wire_seq slot <= 0)) as [|Hpos]; [by left|].
  destruct Hconf as [?|(p&Hp&Hle)]; [by left|]. right. exists p. split; [done|].
  apply eval_at_promised; [|lia|done]. rewrite Forall_forall in Hlive. apply Hlive.
  apply elem_of_app. apply elem_of_app in Hp as [?|?]; [by left|right]. apply elem_of_app. by left.
Qed.

(** A degraded reply is marked and rests on something. A reply released
    on the primary's own disk goes out only if the release is configured, a
    pass of this admission saw no replica streaming for at least the grace
    period (measured from the loss when it was stamped) under a policy that
    needs a replica, and the slot's event was on this node's disk or already
    confirmed; and the cached position still claims only what the policy in
    force confirmed, so the next slot is judged by the policy again. *)
Theorem degraded_reply_justified {R Q} (hist : list Pass) (lineage : Z -> Z -> bool -> Prop)
    (g : DurabilityGate) (slot : OutputSlot R Q) (now : Z) (passes : list Pass)
    (conn : Z) (g' : DurabilityGate) (h' : Hook) (rest : list Pass) :
  ginv (fun p => p ∈ hist) lineage g -> slot_in_lineage lineage slot ->
  (forall p f, p ∈ passes -> forced p = Some f -> lineage (f_wire_seq f) (f_policy f) true) ->
  admit_output g slot now passes = Done (Reply conn PrimaryOnly) g' h' rest ->
  exists used, passes = used ++ rest /\
    (confirmed (fun p => p ∈ hist ++ used) (active_policy g') (o_wire_seq slot) \/
     on_disk (fun p => p ∈ hist ++ used) (o_wire_seq slot)) /\
    confirmed (fun p => p ∈ hist ++ used) (active_policy g') (cached_durable_pos g') /\
    exists gr p, p ∈ used /\ grace g = Some gr /\ release_evidence gr p.
Proof.
  intros Hg Hl Hf Ha.
  destruct (admit_seen _ _ _ _ _ _ _ _ _ _ Hg Hl Hf Ha) as (used&->&Hg'&_&(_&Hb&He)).
  exists used. split_and!; [done|done|apply (gi_cached _ _ _ Hg')|done].
Qed.

(** C4: The policy in force moves only as the contract's abstract machine
    does. Whatever one admission did (waits, pending changes, a forced change
    overtaking the queue, a change slot applied or deferred), the policy and
    the newest change applied are reached from those before it by steps each
    of which applies one journaled change, newer than all applied before,
    that the policy it replaced had confirmed, or that was journaled
    unwitnessed and is on this node's disk; and the changes left pending are
    journaled ones. *)
Theorem policy_refines_contract {R Q} (hist : list Pass) (lineage : Z -> Z -> bool -> Prop)
    (g : DurabilityGate) (slot : OutputSlot R Q) (now : Z) (passes : list Pass)
    (a : Admission) (g' : DurabilityGate) (h' : Hook) (rest : list Pass) :
  ginv (fun p => p ∈ hist) lineage g -> slot_in_lineage lineage slot ->
  (forall p f, p ∈ passes -> forced p = Some f -> lineage (f_wire_seq f) (f_policy f) true) ->
  admit_output g slot now passes = Done a g' h' rest ->
  exists used, passes = used ++ rest /\
    rtc (switch (fun p => p ∈ hist ++ used) lineage)
      (active_policy g, applied_through g) (active_policy g', applied_through g') /\
    Forall (fun c => lineage (p_wire_seq c) (to_byte (p_policy c)) (p_unwitnessed c)) (pending g').
Proof.
  intros Hg Hl Hf Ha.
  destruct (admit_seen _ _ _ _ _ _ _ _ _ _ Hg Hl Hf Ha) as (used&->&Hg'&Hs&_).
  exists used. split_and!; [done|done|apply Hg'].
Qed.

(** ** Liveness *)

Lemma accrual_release_fields g p d :
  pending (accrual_step g p d) = pending g /\ active_policy (accrual_step g p d) = active_policy g.
Proof.
  unfold accrual_step. destruct (tick _ _ _ _ _) as [[e|] t]; [|done].
  by destruct (logger_tick _ _ _ _ _) as [[l u] ln].
Qed.

Lemma observe_pass_stable g needed p :
  pending g = [] -> forced p = None ->
  pending (observe_pass g needed p).1 = [] /\
  active_policy (observe_pass g needed p).1 = active_policy g.
Proof.
  intros Hp Hf. unfold observe_pass, observe_forced, settle_pending_if_durable. rewrite Hp, Hf. cbn.
  destruct (accrual_release_fields (with_cached g
     (durable_pos (evaluate_with_status (g_policy g) (cursor_view (journal_pos p) (metrics p) (active p))))
     (set_degraded (utilization g)
        (degraded (evaluate_with_status (g_policy g)
           (cursor_view (journal_pos p) (metrics p) (active p)))))) p
     (degraded (evaluate_with_status (g_policy g)
        (cursor_view (journal_pos p) (metrics p) (active p))))) as [-> ->]. done.
Qed.

Lemma release_stable g l now :
  pending (degraded_release_open g l now).2 = pending g /\
  active_policy (degraded_release_open g l now).2 = active_policy g.
Proof. unfold degraded_release_open. repeat (case_match; cbn; try done). Qed.

(** A wait ends at the latest at a pass that shuts down or confirms. *)
Lemma wait_ends (seen : Pass -> Prop) lin g needed h passes :
  ginv seen lin g -> pending g = [] ->
  Forall (fun p => seen p /\ forced p = None) passes ->
  Exists (fun p => shutdown p = true \/ needed <= eval_at (active_policy g) p) passes ->
  exists o g' h' rest, wait_durable g needed h passes = Done o g' h' rest.
Proof.
  revert g h; induction passes as [|p passes IH]; intros g h Hg Hp Hall Hex;
    [by apply Exists_nil in Hex|].
  apply Forall_cons in Hall as [[Hs Hf] Hall]. cbn [wait_durable].
  destruct (shutdown p) eqn:Esd; [by eauto|].
  destruct (observe_pass_stable g needed p Hp Hf) as [Hp1 Ha1].
  destruct (observe_pass_evolves seen lin g needed p Hg) as [He Hc1]; [by split; [|rewrite Hf]|].
  destruct (observe_pass g needed p) as [g1 bl]. cbn [fst] in *.
  destruct (needed <=? cached_durable_pos g1) eqn:Ec; [by eauto|]. zb.
  assert (Hex' : Exists (fun p => shutdown p = true \/ needed <= eval_at (active_policy g) p) passes).
  { apply Exists_cons in Hex as [[?|Hle]|?]; [congruence| |done]. rewrite Hc1, Ha1 in Ec. lia. }
  destruct (release_stable g1 (loss p) (now_release p)) as [Hp2 Ha2].
  pose proof (release_evolves seen lin g1 (loss p) (now_release p) (ev_inv _ _ _ _ He)) as He2.
  destruct (needed <=? journal_pos p).
  - destruct (degraded_release_open g1 _ _) as [[|] g2]; cbn [snd] in *; [by eauto|].
    apply IH; [apply He2|by rewrite Hp2|done|]. by rewrite Ha2, Ha1.
  - apply IH; [apply He|done|done|]. by rewrite Ha1.
Qed.

(** The gate answers. With no change outstanding, admitting a slot ends
    at the latest at a pass that requests shutdown or in which the policy in
    force confirms the slot: it never waits past one, and it never runs out
    of fuel on any input. *)
Theorem gate_answers {R Q} (seen : Pass -> Prop) (lineage : Z -> Z -> bool -> Prop)
    (g : DurabilityGate) (slot : OutputSlot R Q) (now : Z) (passes : list Pass) :
  ginv seen lineage g -> pending g = [] ->
  Forall (fun p => seen p /\ forced p = None) passes ->
  Exists (fun p => shutdown p = true \/ o_wire_seq slot <= eval_at (active_policy g) p) passes ->
  exists a g' h' rest, admit_output g slot now passes = Done a g' h' rest.
Proof.
  intros Hg Hp Hall Hex. unfold admit_output. cbn [admit_pending]. rewrite Hp. unfold admit_slot.
  assert (Hfin : forall g1 h1 b r1, exists a g' h' rest,
    finish_slot g1 h1 slot b now r1 = Done a g' h' rest)
    by (intros; unfold finish_slot; destruct (payload slot); eauto).
  destruct (slot_needs_gate slot (cached_durable_pos g)); [|apply Hfin].
  destruct (wait_ends seen lineage g (o_wire_seq slot) (starting hook_new) passes Hg Hp Hall Hex)
    as (o&g1&h1&r1&->). destruct o; [apply Hfin|eauto].
Qed.

(** What an admission did to the hook; [None] only if fuel ran out. *)
Definition hook_of {A} (r : progress A) : option Hook :=
  match r with Done _ _ h _ => Some h | Waiting _ h => Some h | OutOfFuel => None end.

(** C40: No admission runs out of fuel: whatever is pending and whatever the
    passes bring, the loop over pending changes ends, each turn shortening
    the queue. *)
Theorem admit_terminates {R Q} (g : DurabilityGate) (slot : OutputSlot R Q) (now : Z)
    (passes : list Pass) : is_Some (hook_of (admit_output g slot now passes)).
Proof.
  pose proof (admit_never_starves g slot now passes) as Hne.
  destruct (admit_output g slot now passes); by eauto.
Qed.

(** A forced [disk] unwedges a stuck gate: whatever policy is in force
    and however unsatisfiable, the first pass that sees an unapplied forced
    [disk] whose entry, and the held event, are on this node's disk switches
    the policy to [disk] and releases the slot as policy-backed at once. *)
Theorem forced_disk_unwedges (seen : Pass -> Prop) (lineage : Z -> Z -> bool -> Prop)
    (g : DurabilityGate) (needed ws : Z) (h : Hook) (p : Pass) (rest : list Pass) :
  ginv seen lineage g -> pending g = [] -> good_pass seen lineage p -> live_pass p ->
  shutdown p = false -> forced p = Some {| f_wire_seq := ws; f_policy := to_byte Disk |} ->
  is_stale g ws = false -> ws <= journal_pos p -> 0 < needed <= journal_pos p ->
  exists g', wait_durable g needed h (p :: rest) = Done (Open Policy) g' h rest /\
    active_policy g' = Disk /\ applied_through g' = Some ws.
Proof.
  intros Hg Hp Hgood Hlive Hsd Hf Hst Hws Hn. cbn [wait_durable]. rewrite Hsd.
  destruct (observe_pass_evolves seen lineage g needed p Hg Hgood) as [He Hc].
  assert (Hdisk : policy_state (observe_pass g needed p).1 = (Disk, Some ws)).
  { unfold observe_pass, observe_forced, settle_pending_if_durable. rewrite Hp, Hf. cbn [settle_loop].
    cbn [f_wire_seq f_policy]. assert ((ws <=? journal_pos p) = true) as -> by (by apply Z.leb_le).
    unfold apply_change. rewrite Hst, from_to_byte.
    destruct (evaluate_gate _ _ _ _ _) as [st bl]. cbn [fst].
    assert (Hacc : forall g d, policy_state (accrual_step g p d) = policy_state g).
    { intros g0 d. unfold accrual_step. destruct (tick _ _ _ _ _) as [[e|] t]; [|done].
      by destruct (logger_tick _ _ _ _ _) as [[l u] ln]. }
    rewrite Hacc. unfold switch_to. case_bool_decide as Hd; [|done].
    unfold policy_state. cbn in *. by rewrite <- Hd. }
  destruct (observe_pass g needed p) as [g1 bl]. cbn [fst] in *. injection Hdisk as Hd Ha.
  rewrite Hd in Hc. assert (Hle : needed <= cached_durable_pos g1).
  { rewrite Hc. apply eval_at_promised; [done|lia|]. left. lia. }
  apply Z.leb_le in Hle. rewrite Hle. eexists. by split_and!.
Qed.

(** ** The wait hook *)

(** The hook before any wait, or after one that idled [n] times. *)
Definition hook_ok (h : Hook) : Prop :=
  (started h = false /\ calls h = []) \/
  (started h = true /\ exists n, calls h = BeforeWait :: repeat WhileWaiting n).

Definition started_ok (h : Hook) : Prop :=
  started h = true /\ exists n, calls h = BeforeWait :: repeat WhileWaiting n.

Lemma starting_ok h : hook_ok h -> started_ok (starting h).
Proof.
  unfold starting. intros [[-> Hc]|[Hs Hc]]; cbn.
  - split; [done|]. exists 0%nat. cbn. by rewrite Hc.
  - rewrite Hs. by split.
Qed.

Lemma while_waiting_ok h : started_ok h -> started_ok (while_waiting h).
Proof.
  intros [Hs [n Hc]]. split; [done|]. exists (S n). cbn [while_waiting calls]. rewrite Hc.
  cbn. f_equal. by rewrite (repeat_cons n).
Qed.

Lemma wait_hook g needed h passes h' :
  started_ok h -> hook_of (wait_durable g needed h passes) = Some h' -> started_ok h'.
Proof.
  revert g h; induction passes as [|p passes IH]; intros g h Hh; cbn [wait_durable].
  { by intros [= <-]. }
  destruct (shutdown p); [by intros [= <-]|]. destruct (observe_pass g needed p) as [g1 bl].
  destruct (needed <=? cached_durable_pos g1); [by intros [= <-]|].
  pose proof (while_waiting_ok h Hh) as Hw.
  destruct (needed <=? journal_pos p); [|by apply IH].
  destruct (degraded_release_open g1 _ _) as [[|] g2]; [by intros [= <-]|by apply IH].
Qed.

Lemma admit_pending_hook fuel g h now passes h' :
  hook_ok h -> hook_of (admit_pending fuel g h now passes) = Some h' -> hook_ok h'.
Proof.
  revert g h passes; induction fuel as [|fuel IH]; intros g h passes Hh; cbn [admit_pending]; [done|].
  destruct (pending g) as [|c cs]; [by intros [= <-]|].
  destruct (cached_durable_pos g <? p_wire_seq c); [|by apply IH].
  pose proof (wait_hook g (p_wire_seq c) (starting h) passes) as Hw.
  destruct (wait_durable g (p_wire_seq c) (starting h) passes) as [o1 g1 h1 r1|g1 h1|]; cbn in Hw;
    [|intros [= <-]; right; apply (Hw h1); [by apply starting_ok|done]|done].
  assert (Hok : hook_ok h1) by (right; apply (Hw h1); [by apply starting_ok|done]).
  destruct o1 as [[|]|]; [|by intros [= <-]|by intros [= <-]]. case_bool_decide; by apply IH.
Qed.

(** The stage's wait hook runs in order: in one admission, however many
    waits its pending changes and its own slot take, [before_wait] runs at
    most once and before every [while_waiting], and neither runs for a slot
    that did not wait. *)
Theorem hook_calls_ordered {R Q} (g : DurabilityGate) (slot : OutputSlot R Q) (now : Z)
    (passes : list Pass) (h : Hook) :
  hook_of (admit_output g slot now passes) = Some h ->
  (calls h = [] \/ exists n, calls h = BeforeWait :: repeat WhileWaiting n) /\
  (pending g = [] -> o_wire_seq slot <= cached_durable_pos g -> calls h = []).
Proof.
  intros Ha. split.
  - assert (Hok : hook_ok h); [|destruct Hok as [[_ ?]|[_ ?]]; auto].
    unfold admit_output in Ha.
    pose proof (admit_pending_hook (S (length (pending g))) g hook_new now passes) as Hp.
    destruct (admit_pending _ g hook_new now passes) as [o1 g1 h1 r1|g1 h1|]; cbn in Ha, Hp;
      [|simplify_eq; apply Hp; [by left|done]|done].
    assert (Hok : hook_ok h1) by (apply Hp; [by left|done]).
    destruct o1 as [b|]; [|by simplify_eq/=]. unfold admit_slot in Ha.
    assert (Hfin : forall g2 h2 b2 r2, hook_of (finish_slot g2 h2 slot b2 now r2) = Some h2)
      by (intros; unfold finish_slot; by destruct (payload slot)).
    destruct (slot_needs_gate slot (cached_durable_pos g1)); [|rewrite Hfin in Ha; by simplify_eq].
    pose proof (wait_hook g1 (o_wire_seq slot) (starting h1) r1) as Hw.
    destruct (wait_durable _ _ _ r1) as [o2 g2 h2 r2|g2 h2|]; cbn in Hw, Ha;
      [|simplify_eq; right; apply Hw; [by apply starting_ok|done]|done].
    assert (Hok2 : hook_ok h2) by (right; apply Hw; [by apply starting_ok|done]).
    destruct o2; [rewrite Hfin in Ha|cbn in Ha]; by simplify_eq.
  - intros Hp Hle. unfold admit_output in Ha. cbn [admit_pending] in Ha. rewrite Hp in Ha.
    unfold admit_slot, slot_needs_gate in Ha.
    assert ((cached_durable_pos g <? o_wire_seq slot) = false) as Hlt by (apply Z.ltb_ge; lia).
    rewrite Hlt in Ha. unfold finish_slot in Ha. destruct (payload slot); by simplify_eq/=.
Qed.

End Promises.

(** A primary under [disk+ram] with one replica, run on concrete passes. *)
Module Sample.
Import Contract Promises.

Definition sample_metrics (ack mem : Z) : Cursors.Writer.ReplicationMetrics :=
  {| Cursors.Writer.m_acked_sequence := [ack; 0]; Cursors.Writer.m_in_memory_sequence := [mem; 0];
     Cursors.Writer.m_bytes_sent := [0; 0]; Cursors.Writer.m_ack_latency_us := [0; 0];
     Cursors.Writer.m_acks_received := [0; 0]; Cursors.Writer.m_catching_up := [false; false];
     Cursors.Writer.m_evictions_total := 0; Cursors.Writer.m_divergence_total := 0 |}.

Definition sample_pass (jp ack mem : Z) (act : bool) (f : option ForcedPolicy) (l : option LastLoss)
    (now : Z) : Pass :=
  {| shutdown := false; journal_pos := jp; metrics := Some (sample_metrics ack mem);
     active := Some (act, false); forced := f; loss := l; spinning := false; now_switch := now;
     now_timer := now; now_timer' := now; now_tick := now; now_release := now |}.

Definition sample_utilization : Utilization :=
  {| gate_journal := 0; gate_replication := 0; policy_degraded := false;
     policy_degraded_nanos := 0; ack_policy_in_force := cell_encode None |}.

Definition pass0 : Pass := sample_pass 5 3 7 true None None 0.
Definition sample_gate : DurabilityGate :=
  gate_new (Some 100) (settled DiskAndRam) sample_utilization 0 0 pass0.

Definition sample_slot (ws : Z) (p : OutputPayload Z Z) : OutputSlot Z Z :=
  {| o_connection_id := 9; o_request_id := 1; input_seq := 4; o_wire_seq := ws;
     payload := p; is_last_in_request := true |}.

Definition no_changes : Z -> Z -> bool -> Prop := fun _ _ _ => False.
Definition one_change : Z -> Z -> bool -> Prop := fun ws b u => ws = 6 /\ b = 0 /\ u = false.

Lemma sample_ginv lin : ginv (fun p => p ∈ [pass0]) lin sample_gate.
Proof. apply gate_new_ginv. intros c H. discriminate H. Qed.

Lemma sample_live jp ack mem act f l now :
  0 <= jp < 100 -> 0 <= ack < 100 -> 0 <= mem < 100 -> live_pass (sample_pass jp ack mem act f l now).
Proof.
  intros Hj Ha Hm. unfold live_pass, live_cursors. cbn.
  split; [widths; lia|]. destruct act; cbn; repeat constructor; cbn; widths; lia.
Qed.

Definition gate_after {A} (r : progress A) : DurabilityGate :=
  match r with Done _ g _ _ => g | Waiting g _ => g | OutOfFuel => sample_gate end.
Definition hook_after {A} (r : progress A) : Hook :=
  match r with Done _ _ h _ => h | Waiting _ h => h | OutOfFuel => hook_new end.

(** The event at 6 is acked by the replica while the gate waits. *)
Definition healthy_passes : list Pass :=
  [sample_pass 5 3 7 true None None 1; sample_pass 6 3 8 true None None 2].

Lemma reply_backed_by_policy_witness :
  9 = o_connection_id (sample_slot 6 (Report 0)) /\
  exists used, healthy_passes = used ++ [] /\
    ginv (fun p => p ∈ [pass0] ++ used) no_changes
      (gate_after (admit_output sample_gate (sample_slot 6 (Report 0)) 0 healthy_passes)) /\
    (6 <= 0 \/ exists p, p ∈ [pass0] ++ used /\
       promised (active_policy (gate_after (admit_output sample_gate (sample_slot 6 (Report 0)) 0 healthy_passes)))
         6 (journal_pos p) (replicas p)).
Proof.
  apply (reply_backed_by_policy [pass0] no_changes sample_gate (sample_slot 6 (Report 0)) 0
    healthy_passes 9 _
    (hook_after (admit_output sample_gate (sample_slot 6 (Report 0)) 0 healthy_passes)) []).
  - apply sample_ginv.
  - intros c H. discriminate H.
  - intros p f [->|[->|H]%elem_of_cons]%elem_of_cons; [done|done|by apply elem_of_nil in H].
  - repeat apply Forall_cons_2; [..|apply Forall_nil_2]; apply sample_live; lia.
  - vm_compute. reflexivity.
Defined.

(** Under [ram] a change at 5 waits; with no replica past the grace period it
    is let through on this node's disk, and with it the reply behind it. Then a
    replica is back with 6 in memory: the reply's own wait ends under the
    policy, the mark of the earlier release stays, and 6 goes out as
    primary-only while this node's disk ends at 5. *)
Example primary_only_off_disk :
  let start := {| start_in_force := Ram; start_pending := Some {| p_wire_seq := 5; p_policy := Disk; p_unwitnessed := false |} |} in
  let passes := [sample_pass 5 3 4 false None (Some (At 0)) 150; sample_pass 5 3 6 true None None 160] in
  match admit_output (gate_new (Some 100) start sample_utilization 0 0 (sample_pass 5 3 4 false None (Some (At 0)) 0))
          (sample_slot 6 (Report 0)) 0 passes with
  | Done a _ _ rest => a = Reply 9 PrimaryOnly /\ rest = [] /\ Forall (fun p => journal_pos p < 6) passes
  | _ => False
  end.
Proof. vm_compute. repeat constructor. Qed.

(** The replica is lost at time 0 and the grace period is 100. *)
Definition lost_passes : list Pass :=
  [sample_pass 6 3 5 false None (Some (At 0)) 50; sample_pass 6 3 5 false None (Some (At 0)) 150].

Lemma degraded_reply_justified_witness :
  exists used, lost_passes = used ++ [] /\
    (confirmed (fun p => p ∈ [pass0] ++ used)
       (active_policy (gate_after (admit_output sample_gate (sample_slot 6 (Report 0)) 0 lost_passes))) 6 \/
     on_disk (fun p => p ∈ [pass0] ++ used) 6) /\
    confirmed (fun p => p ∈ [pass0] ++ used)
      (active_policy (gate_after (admit_output sample_gate (sample_slot 6 (Report 0)) 0 lost_passes)))
      (cached_durable_pos (gate_after (admit_output sample_gate (sample_slot 6 (Report 0)) 0 lost_passes))) /\
    exists gr p, p ∈ used /\ grace sample_gate = Some gr /\ release_evidence gr p.
Proof.
  apply (degraded_reply_justified [pass0] no_changes sample_gate (sample_slot 6 (Report 0)) 0
    lost_passes 9 _ (hook_after (admit_output sample_gate (sample_slot 6 (Report 0)) 0 lost_passes)) []).
  - apply sample_ginv.
  - intros c H. discriminate H.
  - intros p f [->|[->|H]%elem_of_cons]%elem_of_cons; [done|done|by apply elem_of_nil in H].
  - vm_compute. reflexivity.
Defined.

Definition change_slot : OutputSlot Z Z :=
  sample_slot 6 (PolicyChange {| policy := 0; unwitnessed := false |}).

Lemma policy_refines_contract_witness :
  active_policy (gate_after (admit_output sample_gate change_slot 0 healthy_passes)) = Disk /\
  exists used, healthy_passes = used ++ [] /\
    rtc (switch (fun p => p ∈ [pass0] ++ used) one_change)
      (active_policy sample_gate, applied_through sample_gate)
      (active_policy (gate_after (admit_output sample_gate change_slot 0 healthy_passes)),
       applied_through (gate_after (admit_output sample_gate change_slot 0 healthy_passes))) /\
    Forall (fun c => one_change (p_wire_seq c) (to_byte (p_policy c)) (p_unwitnessed c))
      (pending (gate_after (admit_output sample_gate change_slot 0 healthy_passes))).
Proof.
  split; [vm_compute; reflexivity|].
  apply (policy_refines_contract [pass0] one_change sample_gate change_slot 0 healthy_passes GateOnly _
    (hook_after (admit_output sample_gate change_slot 0 healthy_passes)) []).
  - apply sample_ginv.
  - intros c H. injection H as <-. by vm_compute.
  - intros p f [->|[->|H]%elem_of_cons]%elem_of_cons; [done|done|by apply elem_of_nil in H].
  - vm_compute. reflexivity.
Defined.

Lemma gate_answers_witness :
  exists a g' h' rest, admit_output sample_gate (sample_slot 6 (Report 0)) 0 healthy_passes = Done a g' h' rest.
Proof.
  apply (gate_answers (fun p => p = pass0 \/ p ∈ healthy_passes) no_changes).
  - eapply ginv_mono; [|apply sample_ginv]. intros p Hp%list_elem_of_singleton. by left.
  - reflexivity.
  - apply Forall_forall. intros p Hp. split; [by right|].
    apply elem_of_cons in Hp as [->|[->|H]%elem_of_cons]; [done|done|by apply elem_of_nil in H].
  - apply Exists_cons_tl, Exists_cons_hd. right. vm_compute. discriminate.
Defined.

Lemma forced_disk_unwedges_witness :
  let p := sample_pass 8 3 5 false (Some {| f_wire_seq := 8; f_policy := to_byte Disk |})
             (Some (At 0)) 60 in
  exists g', wait_durable sample_gate 6 hook_new [p] = Done (Open Policy) g' hook_new [] /\
    active_policy g' = Disk /\ applied_through g' = Some 8.
Proof.
  cbn zeta. apply (forced_disk_unwedges (fun _ => True) (fun _ _ _ => True)).
  - eapply ginv_mono; [|apply sample_ginv]. done.
  - reflexivity.
  - by split.
  - apply sample_live; lia.
  - reflexivity.
  - reflexivity.
  - reflexivity.
  - vm_compute. discriminate.
  - vm_compute. split; [reflexivity|discriminate].
Defined.

Lemma hook_calls_ordered_witness :
  let h := hook_after (admit_output sample_gate (sample_slot 6 (Report 0)) 0 healthy_passes) in
  (calls h = [] \/ exists n, calls h = BeforeWait :: repeat WhileWaiting n) /\
  (pending sample_gate = [] -> 6 <= cached_durable_pos sample_gate -> calls h = []).
Proof.
  apply (hook_calls_ordered sample_gate (sample_slot 6 (Report 0)) 0 healthy_passes).
  vm_compute. reflexivity.
Defined.

End Sample.

