(* ===== verification/Codec.v ===== *)
(** * The journal's byte formats

    [Le] is little-endian integers as byte lists ([journal/src/le.rs] and the
    zerocopy fields), [Codec] the file header and entry formats
    ([journal/src/codec.rs]). Bytes are integers in [0, 255]; a buffer the
    source writes into is the list of bytes it ends up holding. CRC-32C is the
    [crc32c] crate's: a parameter, of which only the range is used. The
    application's event codec is an instance of the class [AppEvent], whose
    laws are the ones the trait documents. *)

From S2P Require Import Prelude Lineage.
Import Lineage.Event.

Module Le.

(** [n] little-endian bytes of [v]. *)
Fixpoint le (n : nat) (v : Z) : list Z :=
  match n with O => [] | S n => v mod 256 :: le n (v / 256) end.

Fixpoint unle (bs : list Z) : Z :=
  match bs with [] => 0 | b :: bs => b + 256 * unle bs end.

Definition is_bytes (bs : list Z) : Prop := Forall in_u8 bs.

Lemma le_length n v : length (le n v) = n.
Proof. revert v; induction n as [|n IH]; intros v; cbn; [done|]. by rewrite IH. Qed.

Lemma le_bytes n v : is_bytes (le n v).
Proof.
  revert v; induction n as [|n IH]; intros v; cbn; [constructor|].
  constructor; [|apply IH]. pose proof (Z.mod_pos_bound v 256 ltac:(lia)). widths. lia.
Qed.

Lemma unle_le n v : 0 <= v < 256 ^ Z.of_nat n -> unle (le n v) = v.
Proof.
  revert v; induction n as [|n IH]; intros v Hv.
  { cbn in *. lia. }
  cbn [le unle]. rewrite IH.
  - pose proof (Z.div_mod v 256 ltac:(lia)). lia.
  - rewrite Nat2Z.inj_succ, Z.pow_succ_r in Hv by lia.
    split; [apply Z.div_pos; lia|]. apply Z.div_lt_upper_bound; lia.
Qed.

Lemma unle_bound bs : is_bytes bs -> 0 <= unle bs < 256 ^ Z.of_nat (length bs).
Proof.
  induction 1 as [|b bs Hb _ IH]; [cbn; lia|].
  cbn [unle length]. rewrite Nat2Z.inj_succ, Z.pow_succ_r by lia. widths. lia.
Qed.

Lemma le_unle bs : is_bytes bs -> le (length bs) (unle bs) = bs.
Proof.
  induction 1 as [|b bs Hb Hbs IH]; [done|]. cbn [length le unle].
  replace (b + 256 * unle bs) with (unle bs * 256 + b) by lia.
  rewrite Z.add_comm, Z_mod_plus_full, Z.div_add, Z.mod_small, Z.div_small by (widths; lia).
  by rewrite Z.add_0_l, IH.
Qed.

Lemma unle_u16 v : in_u16 v -> unle (le 2 v) = v.
Proof. intros Hv. apply unle_le. widths. change (256 ^ Z.of_nat 2) with 65536. lia. Qed.
Lemma unle_u32 v : in_u32 v -> unle (le 4 v) = v.
Proof. intros Hv. apply unle_le. widths. change (256 ^ Z.of_nat 4) with 4294967296. lia. Qed.
Lemma unle_u64 v : in_u64 v -> unle (le 8 v) = v.
Proof.
  intros Hv. apply unle_le. widths. change (256 ^ Z.of_nat 8) with 18446744073709551616. lia.
Qed.

(** The integer at [off], [n] bytes wide. *)
Definition field (off n : nat) (buf : list Z) : Z := unle (take n (drop off buf)).

Lemma slice_app (pre mid post : list Z) off n :
  length pre = off -> length mid = n -> take n (drop off (pre ++ mid ++ post)) = mid.
Proof. intros <- <-. by rewrite drop_app_length, take_app_length. Qed.

Lemma field_app (pre post : list Z) off n v :
  length pre = off -> 0 <= v < 256 ^ Z.of_nat n -> field off n (pre ++ le n v ++ post) = v.
Proof. intros Hp Hv. unfold field. rewrite (slice_app pre (le n v)) by (done || apply le_length). by apply unle_le. Qed.

Lemma slice_prefix off n (buf more : list Z) :
  (off + n <= length buf)%nat -> take n (drop off (buf ++ more)) = take n (drop off buf).
Proof. intros Hl. rewrite drop_app_le by lia. apply take_app_le. rewrite length_drop. lia. Qed.

Lemma field_prefix off n (buf more : list Z) :
  (off + n <= length buf)%nat -> field off n (buf ++ more) = field off n buf.
Proof. intros Hl. unfold field. by rewrite slice_prefix. Qed.

Lemma slice_byte off (buf : list Z) b : buf !! off = Some b -> take 1 (drop off buf) = [b].
Proof. intros Hb. by rewrite (drop_S buf b off Hb). Qed.

Lemma field_byte off (buf : list Z) b : buf !! off = Some b -> field off 1 buf = b.
Proof. intros Hb. unfold field. rewrite (slice_byte _ _ _ Hb). cbn. lia. Qed.

Lemma is_bytes_app xs ys : is_bytes (xs ++ ys) <-> is_bytes xs /\ is_bytes ys.
Proof. apply Forall_app. Qed.

Lemma is_bytes_take n bs : is_bytes bs -> is_bytes (take n bs).
Proof. apply Forall_take. Qed.
Lemma is_bytes_drop n bs : is_bytes bs -> is_bytes (drop n bs).
Proof. apply Forall_drop. Qed.

(** Reading a field and writing it back. *)
Lemma le_field off n buf :
  is_bytes buf -> (off + n <= length buf)%nat -> le n (field off n buf) = take n (drop off buf).
Proof.
  intros Hb Hl. unfold field.
  assert (Hlen : length (take n (drop off buf)) = n) by (rewrite length_take, length_drop; lia).
  rewrite <- Hlen at 1. apply le_unle. by apply is_bytes_take, is_bytes_drop.
Qed.

Lemma slices_join (buf : list Z) o n m :
  take n (drop o buf) ++ take m (drop (o + n) buf) = take (n + m) (drop o buf).
Proof. by rewrite <- drop_drop, take_take_drop. Qed.

End Le.

#[export] Hint Resolve Le.le_bytes : melin.

Module Codec.
Import Le.

Definition FILE_MAGIC : Z := 0x4A4F5552.
Definition FORMAT_VERSION : Z := 16.
Definition FORMAT_VERSION_V15 : Z := 15.
Definition ENTRY_MAGIC : Z := 0x4A45.
Definition ENTRY_MAGIC_SIZE : nat := 2.
Definition FILE_HEADER_SIZE : nat := 512.
Definition ENTRY_HEADER_SIZE : nat := 20.
Definition ENTRY_META_SIZE : nat := 9.
Definition CRC_SIZE : nat := 4.
Definition ENTRY_FRAMING_SIZE : nat := ENTRY_HEADER_SIZE + ENTRY_META_SIZE + CRC_SIZE.
Definition TRANSPORT_PAYLOAD_SIZE : nat := 8.
Definition ACK_POLICY_CHANGE_PAYLOAD_SIZE : nat := 2.
Definition FILE_HEADER_FIELDS_SIZE : nat := 60.
Definition FILE_HEADER_V15_FIELDS_SIZE : nat := 52.
Definition TAG_TICK : Z := 0x03.
Definition TAG_EPOCH_BUMP : Z := 0x04.
Definition TAG_ACK_POLICY_CHANGE : Z := 0x05.
Definition TAG_APP : Z := 0x80.
Definition ACK_POLICY_FLAG_UNWITNESSED : Z := 0x01.
Definition EVENT_TAG_OFFSET : nat := ENTRY_HEADER_SIZE + 8.
Definition MAX_ENTRY_SIZE : nat := 1088.

(** The application codec's own errors. *)
Inductive CodecError := AppUnknownTag (b : Z) | AppTruncated | AppInvalidField.

(** The fixed sites a [CorruptEntry] names. *)
Inductive Reason :=
| BufferTooSmall | WiderThanDeclared | TooLargeForBuffer | WroteDifferentLength
| ShutdownReachedCodec | ExceedsU16 | BadMagic | LengthExceedsType | TooShortForMeta
| UnknownEventTag | TickTooShort | EpochTooShort | PolicyTooShort | PolicyReservedFlag
| AppCodec (e : CodecError).

Inductive JournalError :=
| InvalidFile
| UnsupportedVersion (version : Z)
| CorruptEntry (sequence : Z) (reason : Reason)
| ChecksumMismatch (sequence expected actual : Z)
| SequenceGap (expected actual : Z)
| SequenceDuplicate (sequence previous : Z)
| TruncatedEntry
| SequenceRegression (sequence last_encoded : Z)
| ReplicaSequenceMismatch (expected actual : Z)
| SegmentChainBreak (index : nat) (expected actual : list Z)
| ReplicaChainDivergence (sequence : Z) (expected actual : list Z)
| UnrecoverableTail (offset : Z) (last_sequence : option Z) (nonzero_at : Z)
    (cause : option JournalError)
| Io.

#[export] Instance CodecError_eq_dec : EqDecision CodecError.
Proof. solve_decision. Defined.

#[export] Instance Reason_eq_dec : EqDecision Reason.
Proof. solve_decision. Defined.

#[export] Instance JournalError_eq_dec : EqDecision JournalError.
Proof.
  unfold EqDecision, Decision. fix go 1. intros x y.
  decide equality; first [apply Z_eq_dec | apply (decide (_ = _)) | by decide equality].
Defined.

(** [AppEvent]: the trait, with the laws it states of an implementation. *)
Class AppEvent (E : Type) := {
  MAX_ENCODED_SIZE : nat;
  encoded_size : E -> nat;
  app_encode : E -> list Z;
  app_decode : list Z -> result E CodecError
}.

Class AppEventLaws (E : Type) `{AppEvent E} := {
  encoded_size_exact : forall e, length (app_encode e) = encoded_size e;
  encoded_size_bound : forall e, (encoded_size e <= MAX_ENCODED_SIZE)%nat;
  encode_bytes : forall e, is_bytes (app_encode e);
  decode_encode : forall e, app_decode (app_encode e) = Ok e
}.

Record FileHeaderInfo := {
  sector_size : nat;
  starting_sequence : Z;
  anchor_hash : list Z;
  genesis_entries : option Z
}.

(** Why [decode_event] refuses. *)
Inductive EventDecodeError :=
| UnknownTag (tag : Z)
| Malformed (reason : Reason)
| AppError (e : CodecError).

Definition error_reason (e : EventDecodeError) : Reason :=
  match e with UnknownTag _ => UnknownEventTag | Malformed r => r | AppError e => AppCodec e end.

Section codec.
Context {E : Type} `{AppEvent E}.
Context (crc32c : list Z -> Z).

(** [encode_file_header]: the whole sector. *)
Definition header_fields (sector : nat) (start : Z) (anchor : list Z) (genesis : option Z)
    : list Z :=
  match genesis with
  | Some g =>
    le 4 FILE_MAGIC ++ le 2 FORMAT_VERSION ++ le 2 (Z.of_nat sector) ++ le 8 start ++ anchor ++ le 8 g
  | None =>
    le 4 FILE_MAGIC ++ le 2 FORMAT_VERSION_V15 ++ le 2 (Z.of_nat sector) ++ le 8 start ++ anchor
  end.

Definition encode_file_header (sector : nat) (start : Z) (anchor : list Z) (genesis : option Z)
    : list Z :=
  let fields := header_fields sector start anchor genesis in
  let body := fields ++ le 4 (crc32c fields) in
  body ++ replicate (sector - length body) 0.

Definition verify_header_crc (buf : list Z) (fields_size : nat) (stored : Z)
    : result unit JournalError :=
  let actual := crc32c (take (fields_size - CRC_SIZE) buf) in
  if negb (stored =? actual) then Err (ChecksumMismatch 0 stored actual) else Ok tt.

Definition decode_file_header (buf : list Z) : result FileHeaderInfo JournalError :=
  if (length buf <? 6)%nat then Err TruncatedEntry
  else if negb (field 0 4 buf =? FILE_MAGIC) then Err InvalidFile
  else
    let version := field 4 2 buf in
    r <-? (if version =? FORMAT_VERSION then
             guard? negb (length buf <? FILE_HEADER_FIELDS_SIZE)%nat else TruncatedEntry ;;
             _ <-? verify_header_crc buf FILE_HEADER_FIELDS_SIZE (field 56 4 buf) ;;
             Ok (Some (field 48 8 buf))
           else if version =? FORMAT_VERSION_V15 then
             guard? negb (length buf <? FILE_HEADER_V15_FIELDS_SIZE)%nat else TruncatedEntry ;;
             _ <-? verify_header_crc buf FILE_HEADER_V15_FIELDS_SIZE (field 48 4 buf) ;;
             Ok None
           else Err (UnsupportedVersion version)) ;;
    let raw := field 6 2 buf in
    size <-? (if raw =? 0 then Ok 512%nat
              else if (raw =? 512) || (raw =? 4096) then Ok (Z.to_nat raw)
              else Err InvalidFile) ;;
    Ok {| sector_size := size; starting_sequence := field 8 8 buf;
          anchor_hash := take 32 (drop 16 buf); genesis_entries := r |}.

(** The tag and payload bytes of an event. *)
Definition encode_event (buf_len : nat) (sequence : Z) (ev : JournalEvent E)
    : result (Z * list Z) JournalError :=
  match ev with
  | Tick now => Ok (TAG_TICK, le 8 now)
  | EpochBump e => Ok (TAG_EPOCH_BUMP, le 8 e)
  | AckPolicyChanged c =>
    Ok (TAG_ACK_POLICY_CHANGE,
        [policy c; if unwitnessed c then ACK_POLICY_FLAG_UNWITNESSED else 0])
  | App e =>
    let n := encoded_size e in
    guard? negb (MAX_ENCODED_SIZE <? n)%nat else CorruptEntry sequence WiderThanDeclared ;;
    guard? negb (buf_len <? ENTRY_HEADER_SIZE + ENTRY_META_SIZE + n + CRC_SIZE)%nat
      else CorruptEntry sequence TooLargeForBuffer ;;
    guard? (length (app_encode e) =? n)%nat else CorruptEntry sequence WroteDifferentLength ;;
    Ok (TAG_APP, app_encode e)
  | Shutdown => Err (CorruptEntry sequence ShutdownReachedCodec)
  end.

(** The entry's bytes before its CRC. *)
Definition entry_data (sequence ts key tag : Z) (payload : list Z) : list Z :=
  le 2 ENTRY_MAGIC ++ le 2 (Z.of_nat (ENTRY_META_SIZE + length payload)) ++ le 8 sequence
  ++ le 8 ts ++ le 8 key ++ [tag] ++ payload.

Definition entry_bytes (sequence ts key tag : Z) (payload : list Z) : list Z :=
  let data := entry_data sequence ts key tag payload in data ++ le 4 (crc32c data).

(** [encode] into a buffer of [buf_len] bytes: what it writes. *)
Definition encode (buf_len : nat) (sequence ts key : Z) (ev : JournalEvent E)
    : result (list Z) JournalError :=
  guard? negb (buf_len <? ENTRY_HEADER_SIZE + ENTRY_META_SIZE + TRANSPORT_PAYLOAD_SIZE + CRC_SIZE)%nat
    else CorruptEntry sequence BufferTooSmall ;;
  tp <-? encode_event buf_len sequence ev ;;
  let '(tag, payload) := tp in
  guard? Z.of_nat (ENTRY_META_SIZE + length payload) <=? u16_max
    else CorruptEntry sequence ExceedsU16 ;;
  Ok (entry_bytes sequence ts key tag payload).

Definition payload_u64 (payload : list Z) (too_short : Reason) : result Z EventDecodeError :=
  if (length payload <? 8)%nat then Err (Malformed too_short) else Ok (field 0 8 payload).

Definition decode_event (tag : Z) (payload : list Z) : result (JournalEvent E) EventDecodeError :=
  if tag =? TAG_TICK then t <-? payload_u64 payload TickTooShort ;; Ok (Tick t)
  else if tag =? TAG_EPOCH_BUMP then e <-? payload_u64 payload EpochTooShort ;; Ok (EpochBump e)
  else if tag =? TAG_ACK_POLICY_CHANGE then
    match payload with
    | p :: flags :: _ =>
      if negb (Z.land flags (Z.lxor ACK_POLICY_FLAG_UNWITNESSED u8_max) =? 0)
      then Err (Malformed PolicyReservedFlag)
      else Ok (AckPolicyChanged {| policy := p;
             unwitnessed := negb (Z.land flags ACK_POLICY_FLAG_UNWITNESSED =? 0) |})
    | _ => Err (Malformed PolicyTooShort)
    end
  else if tag =? TAG_APP then
    match app_decode payload with Ok e => Ok (App e) | Err e => Err (AppError e) end
  else Err (UnknownTag tag).

Definition max_entry_length (tag : option Z) : nat :=
  ENTRY_META_SIZE +
  match tag with
  | Some t =>
    if (t =? TAG_TICK) || (t =? TAG_EPOCH_BUMP) then TRANSPORT_PAYLOAD_SIZE
    else if t =? TAG_ACK_POLICY_CHANGE then ACK_POLICY_CHANGE_PAYLOAD_SIZE
    else if t =? TAG_APP then MAX_ENCODED_SIZE
    else MAX_ENCODED_SIZE `max` TRANSPORT_PAYLOAD_SIZE
  | None => MAX_ENCODED_SIZE `max` TRANSPORT_PAYLOAD_SIZE
  end.

(** [decode]: bytes consumed, sequence, timestamp, key hash, event. *)
Definition decode (buf : list Z) : result (nat * Z * Z * Z * JournalEvent E) JournalError :=
  guard? negb (length buf <? ENTRY_HEADER_SIZE + 1 + CRC_SIZE)%nat else TruncatedEntry ;;
  guard? field 0 2 buf =? ENTRY_MAGIC else CorruptEntry 0 BadMagic ;;
  let payload_len := Z.to_nat (field 2 2 buf) in
  let sequence := field 4 8 buf in
  guard? negb (max_entry_length (buf !! EVENT_TAG_OFFSET) <? payload_len)%nat
    else CorruptEntry sequence LengthExceedsType ;;
  let total_len := (ENTRY_HEADER_SIZE + payload_len + CRC_SIZE)%nat in
  guard? negb (length buf <? total_len)%nat else TruncatedEntry ;;
  let ts := field 12 8 buf in
  let data_end := (ENTRY_HEADER_SIZE + payload_len)%nat in
  let expected := field data_end 4 buf in
  let actual := crc32c (take data_end buf) in
  guard? expected =? actual else ChecksumMismatch sequence expected actual ;;
  guard? negb (payload_len <? ENTRY_META_SIZE)%nat else CorruptEntry sequence TooShortForMeta ;;
  let key := field ENTRY_HEADER_SIZE 8 buf in
  let tag := field EVENT_TAG_OFFSET 1 buf in
  let payload := take (data_end - (ENTRY_HEADER_SIZE + ENTRY_META_SIZE))
                   (drop (ENTRY_HEADER_SIZE + ENTRY_META_SIZE) buf) in
  match decode_event tag payload with
  | Ok ev => Ok (total_len, sequence, ts, key, ev)
  | Err e => Err (CorruptEntry sequence (error_reason e))
  end.

(** [entry_size]: the reservation per entry. *)
Definition entry_size : nat :=
  ENTRY_FRAMING_SIZE +
  (if (TRANSPORT_PAYLOAD_SIZE <? MAX_ENCODED_SIZE)%nat then MAX_ENCODED_SIZE
   else TRANSPORT_PAYLOAD_SIZE).
End codec.
End Codec.

(** ** What the formats promise *)
Module Facts.
Import Le Codec.

Section facts.
Context {E : Type} `{AppEvent E}.
Context (crc32c : list Z -> Z).
Hypothesis crc_range : forall bs, in_u32 (crc32c bs).

Lemma entry_data_length seq ts key tag payload :
  length (entry_data seq ts key tag payload) = (29 + length payload)%nat.
Proof. unfold entry_data. rewrite !length_app, !le_length. cbn [length]. lia. Qed.

Lemma entry_bytes_length seq ts key tag payload :
  length (entry_bytes crc32c seq ts key tag payload) = (33 + length payload)%nat.
Proof. unfold entry_bytes. rewrite length_app, le_length, entry_data_length. lia. Qed.

(** The fields of an entry's bytes, whatever follows them. *)
Lemma entry_reads seq ts key tag payload rest :
  in_u64 seq -> in_u64 ts -> in_u64 key -> Z.of_nat (9 + length payload) <= u16_max ->
  let buf := entry_bytes crc32c seq ts key tag payload ++ rest in
  field 0 2 buf = ENTRY_MAGIC /\ field 2 2 buf = Z.of_nat (9 + length payload) /\
  field 4 8 buf = seq /\ field 12 8 buf = ts /\ field 20 8 buf = key /\
  field 28 1 buf = tag /\ buf !! 28%nat = Some tag.
Proof.
  intros Hs Ht Hk Hl buf. split_and!; [reflexivity| | | | | |reflexivity].
  - change (field 2 2 buf) with (unle (le 2 (Z.of_nat (9 + length payload)))).
    apply unle_u16. widths. lia.
  - exact (unle_u64 seq Hs).
  - exact (unle_u64 ts Ht).
  - exact (unle_u64 key Hk).
  - change (field 28 1 buf) with (tag + 256 * 0). lia.
Qed.

(** Its payload, its checksummed part and its checksum. *)
Lemma entry_parts seq ts key tag payload rest :
  let data := entry_data seq ts key tag payload in
  let buf := entry_bytes crc32c seq ts key tag payload ++ rest in
  drop 29 buf = payload ++ le 4 (crc32c data) ++ rest /\
  take (29 + length payload) buf = data /\
  field (29 + length payload) 4 buf = crc32c data.
Proof.
  intros data buf. unfold buf, entry_bytes. fold data. rewrite <- app_assoc. split_and!.
  - reflexivity.
  - unfold data. rewrite <- (entry_data_length seq ts key tag payload). apply take_app_length.
  - unfold field. rewrite slice_app by (apply entry_data_length || apply le_length).
    by apply unle_u32.
Qed.

(** [decode] on an entry's own bytes, whatever follows them. *)
Lemma decode_entry seq ts key tag payload rest :
  in_u64 seq -> in_u64 ts -> in_u64 key ->
  Z.of_nat (9 + length payload) <= u16_max ->
  (9 + length payload <= max_entry_length (Some tag))%nat ->
  decode crc32c (entry_bytes crc32c seq ts key tag payload ++ rest) =
  match decode_event tag payload with
  | Ok ev => Ok ((33 + length payload)%nat, seq, ts, key, ev)
  | Err e => Err (CorruptEntry seq (error_reason e))
  end.
Proof.
  intros Hs Ht Hk Hlen Hcap.
  destruct (entry_reads seq ts key tag payload rest Hs Ht Hk Hlen)
    as (F0 & F2 & F4 & F12 & F20 & F28 & T28).
  destruct (entry_parts seq ts key tag payload rest) as (P29 & TD & FC).
  assert (Hbl : length (entry_bytes crc32c seq ts key tag payload ++ rest)
                = (33 + length payload + length rest)%nat)
    by (rewrite length_app, entry_bytes_length; lia).
  revert F0 F2 F4 F12 F20 F28 T28 P29 TD FC Hbl.
  generalize (entry_bytes crc32c seq ts key tag payload ++ rest) as buf. intros buf; intros.
  unfold decode. rewrite F0, F2, F4, F12, Nat2Z.id.
  unfold EVENT_TAG_OFFSET, ENTRY_HEADER_SIZE, ENTRY_META_SIZE, CRC_SIZE.
  change (20 + 8)%nat with 28%nat. change (20 + 9)%nat with 29%nat.
  rewrite F20, F28, T28, P29, Hbl.
  replace (20 + (9 + length payload))%nat with (29 + length payload)%nat by lia.
  rewrite FC, TD, !Z.eqb_refl.
  replace (29 + length payload - 29)%nat with (length payload) by lia.
  rewrite take_app_length, !(proj2 (Nat.ltb_ge _ _)) by lia. cbn [negb].
  by replace (29 + length payload + 4)%nat with (33 + length payload)%nat by lia.
Qed.

(** The bytes of a buffer whose magic and checksum hold, as an entry's. *)
Lemma entry_framed buf :
  let len := Z.to_nat (field 2 2 buf) in
  is_bytes buf -> (9 <= len)%nat /\ (20 + len + 4 <= length buf)%nat ->
  field 0 2 buf = ENTRY_MAGIC -> field (20 + len) 4 buf = crc32c (take (20 + len) buf) ->
  take (20 + len + 4) buf =
  entry_bytes crc32c (field 4 8 buf) (field 12 8 buf) (field 20 8 buf) (field 28 1 buf)
    (take (20 + len - 29) (drop 29 buf)).
Proof.
  intros len Hb [H9 Hl] Hmag Hcrc.
  assert (Hp : length (take (20 + len - 29) (drop 29 buf)) = (len - 9)%nat)
    by (rewrite length_take, length_drop; lia).
  assert (Hd : entry_data (field 4 8 buf) (field 12 8 buf) (field 20 8 buf) (field 28 1 buf)
                 (take (20 + len - 29) (drop 29 buf)) = take (20 + len) buf).
  { unfold entry_data. rewrite Hp.
    replace (Z.of_nat (ENTRY_META_SIZE + (len - 9))) with (field 2 2 buf)
      by (unfold ENTRY_META_SIZE, len in *; lia).
    destruct (lookup_lt_is_Some_2 buf 28 ltac:(lia)) as [t Ht].
    rewrite (field_byte _ _ _ Ht), <- Hmag, !le_field by (done || lia).
    rewrite <- (slice_byte _ _ _ Ht).
    change 29%nat with (28 + 1)%nat at 2. rewrite slices_join.
    change 28%nat with (20 + 8)%nat at 2. rewrite slices_join.
    change 20%nat with (12 + 8)%nat at 2. rewrite slices_join.
    change 12%nat with (4 + 8)%nat at 2. rewrite slices_join.
    change 4%nat with (2 + 2)%nat at 2. rewrite slices_join.
    change 2%nat with (0 + 2)%nat at 2. rewrite slices_join.
    rewrite drop_0. f_equal. lia. }
  unfold entry_bytes. rewrite Hd, <- Hcrc, le_field by (done || lia).
  by rewrite take_take_drop.
Qed.

(** What [decode] accepts is an entry's bytes: nothing else frames as one. *)
Lemma decode_sound buf n seq ts key ev :
  is_bytes buf -> decode crc32c buf = Ok (n, seq, ts, key, ev) ->
  exists tag payload,
    n = (33 + length payload)%nat /\ (n <= length buf)%nat /\
    take n buf = entry_bytes crc32c seq ts key tag payload /\
    decode_event tag payload = Ok ev /\
    (9 + length payload <= max_entry_length (Some tag))%nat /\
    Z.of_nat (9 + length payload) <= u16_max.
Proof.
  intros Hb Hd. unfold decode in Hd.
  unfold EVENT_TAG_OFFSET, ENTRY_HEADER_SIZE, ENTRY_META_SIZE, CRC_SIZE in Hd.
  change (20 + 8)%nat with 28%nat in Hd. change (20 + 9)%nat with 29%nat in Hd.
  apply guard_ok in Hd as [_ Hd]. apply guard_ok in Hd as [Hmag Hd].
  apply guard_ok in Hd as [Hcap Hd]. apply guard_ok in Hd as [Hlen Hd].
  apply guard_ok in Hd as [Hcrc Hd]. apply guard_ok in Hd as [Hmeta Hd].
  apply negb_true_iff, Nat.ltb_ge in Hcap, Hlen, Hmeta. apply Z.eqb_eq in Hmag, Hcrc.
  set (len := Z.to_nat (field 2 2 buf)) in *.
  assert (Hlb : Z.of_nat len <= u16_max).
  { pose proof (unle_bound (take 2 (drop 2 buf)) (is_bytes_take _ _ (is_bytes_drop _ _ Hb))) as Hu.
    fold (field 2 2 buf) in Hu. rewrite length_take, length_drop in Hu.
    replace (2 `min` (length buf - 2))%nat with 2%nat in Hu by lia.
    change (256 ^ Z.of_nat 2) with 65536 in Hu. unfold len. widths. lia. }
  destruct (decode_event _ _) as [ev'|] eqn:Hev; simplify_eq.
  exists (field 28 1 buf), (take (20 + len - 29) (drop 29 buf)).
  assert (Hp : length (take (20 + len - 29) (drop 29 buf)) = (len - 9)%nat)
    by (rewrite length_take, length_drop; lia).
  rewrite Hp. replace (9 + (len - 9))%nat with len by lia.
  split_and!; [lia|lia| |done| |done].
  - apply entry_framed; [done|unfold len in *; lia|done|done].
  - destruct (lookup_lt_is_Some_2 buf 28 ltac:(lia)) as [t Ht].
    rewrite (field_byte _ _ _ Ht). by rewrite Ht in Hcap.
Qed.

(** The values an event's fields can have; [Shutdown] is never journaled. *)
Definition event_ok (ev : JournalEvent E) : bool :=
  match ev with
  | Tick v | EpochBump v => bool_decide (in_u64 v)
  | AckPolicyChanged c => bool_decide (in_u8 (policy c))
  | App _ => true
  | Shutdown => false
  end.

Lemma encode_event_decodes `{!AppEventLaws E} buf_len seq ev tag payload :
  event_ok ev = true -> encode_event buf_len seq ev = Ok (tag, payload) ->
  decode_event tag payload = Ok ev /\
  (9 + length payload <= max_entry_length (Some tag))%nat.
Proof.
  intros Hok He. destruct ev as [e|v|v|[p u]|]; cbn [event_ok encode_event] in *; simplify_eq.
  - apply guard_ok in He as [_ He]. apply guard_ok in He as [_ He].
    apply guard_ok in He as [_ He]. simplify_eq. split.
    + cbn. by rewrite decode_encode.
    + cbn. rewrite encoded_size_exact. pose proof (encoded_size_bound e). lia.
  - apply bool_decide_eq_true in Hok. split; [|done].
    by apply (f_equal (fun x => Ok (Tick x))), unle_u64.
  - apply bool_decide_eq_true in Hok. split; [|done].
    by apply (f_equal (fun x => Ok (EpochBump x))), unle_u64.
  - by destruct u.
Qed.

Lemma encode_frames buf_len seq ts key ev bs :
  encode crc32c buf_len seq ts key ev = Ok bs ->
  exists tag payload, encode_event buf_len seq ev = Ok (tag, payload) /\
    Z.of_nat (9 + length payload) <= u16_max /\ bs = entry_bytes crc32c seq ts key tag payload.
Proof.
  unfold encode. intros He. apply guard_ok in He as [_ He].
  destruct (encode_event _ _ _) as [[tag payload]|] eqn:Hev; [|done]. cbn [rbind] in He.
  apply guard_ok in He as [Hl He]. apply Z.leb_le in Hl. simplify_eq. eauto.
Qed.

(** A buffer of [entry_size] bytes holds any event a lawful application has. *)
Lemma encode_fits `{!AppEventLaws E} buf_len seq ts key ev :
  event_ok ev = true -> (entry_size (E:=E) <= MAX_ENTRY_SIZE)%nat ->
  (entry_size (E:=E) <= buf_len)%nat ->
  exists bs, encode crc32c buf_len seq ts key ev = Ok bs /\ (length bs <= entry_size (E:=E))%nat.
Proof.
  intros Hok Hmax Hbuf.
  assert (Hsz : (41 <= entry_size (E:=E) /\ 33 + MAX_ENCODED_SIZE <= entry_size (E:=E))%nat).
  { unfold entry_size, TRANSPORT_PAYLOAD_SIZE, ENTRY_FRAMING_SIZE, ENTRY_HEADER_SIZE, ENTRY_META_SIZE, CRC_SIZE.
    destruct (8 <? MAX_ENCODED_SIZE)%nat eqn:Hc; [apply Nat.ltb_lt in Hc|apply Nat.ltb_ge in Hc]; lia. }
  unfold MAX_ENTRY_SIZE in Hmax.
  assert (Hev : exists tag payload, encode_event buf_len seq ev = Ok (tag, payload) /\
                  (33 + length payload <= entry_size (E:=E))%nat).
  { destruct ev as [e|v|v|[p u]|]; cbn [event_ok encode_event policy] in *; try done;
      [|eexists _, _; split; [done|rewrite ?le_length; cbn [length]; lia]..].
    pose proof (encoded_size_bound e). pose proof (encoded_size_exact e) as Hx.
    rewrite Hx, Nat.eqb_refl, (proj2 (Nat.ltb_ge MAX_ENCODED_SIZE _)), (proj2 (Nat.ltb_ge buf_len _))
      by (unfold ENTRY_HEADER_SIZE, ENTRY_META_SIZE, CRC_SIZE; lia).
    eexists _, _; split; [done|]. rewrite Hx. lia. }
  destruct Hev as (tag & payload & He & Hl).
  exists (entry_bytes crc32c seq ts key tag payload). rewrite entry_bytes_length. split; [|done].
  unfold encode. rewrite He, (proj2 (Nat.ltb_ge _ _))
    by (unfold ENTRY_HEADER_SIZE, ENTRY_META_SIZE, TRANSPORT_PAYLOAD_SIZE, CRC_SIZE; lia).
  cbn [negb rbind]. rewrite (proj2 (Z.leb_le _ _)) by (unfold ENTRY_META_SIZE; widths; lia). done.
Qed.

Lemma decode_encode_entry `{!AppEventLaws E} buf_len seq ts key ev bs rest :
  event_ok ev = true -> in_u64 seq -> in_u64 ts -> in_u64 key ->
  encode crc32c buf_len seq ts key ev = Ok bs ->
  decode crc32c (bs ++ rest) = Ok (length bs, seq, ts, key, ev).
Proof.
  intros Hok Hs Ht Hk (tag & payload & He & Hl & ->)%encode_frames.
  destruct (encode_event_decodes _ _ _ _ _ Hok He) as [Hd Hc].
  by rewrite decode_entry, Hd, entry_bytes_length.
Qed.

(** A journal entry survives the round trip. For an application whose codec obeys the
    trait's contract and whose events fit the entry ceiling, encoding any
    journaled event into a buffer of [entry_size] bytes succeeds, takes at most
    that many bytes, and decoding those bytes, whatever follows them in the
    file, returns the same sequence, timestamp, key and event and consumes
    exactly the entry. *)
Theorem entry_round_trip `{!AppEventLaws E} buf_len seq ts key ev :
  event_ok ev = true -> in_u64 seq -> in_u64 ts -> in_u64 key ->
  (entry_size (E:=E) <= MAX_ENTRY_SIZE)%nat -> (entry_size (E:=E) <= buf_len)%nat ->
  exists bs, encode crc32c buf_len seq ts key ev = Ok bs /\
    (length bs <= entry_size (E:=E))%nat /\
    forall rest, decode crc32c (bs ++ rest) = Ok (length bs, seq, ts, key, ev).
Proof.
  intros Hok Hs Ht Hk Hmax Hbuf.
  destruct (encode_fits buf_len seq ts key ev Hok Hmax Hbuf) as (bs & He & Hl).
  exists bs; split_and!; [done|done|]. intros rest. by eapply decode_encode_entry.
Qed.

Definition is_app (ev : JournalEvent E) : bool :=
  match ev with App _ => true | _ => false end.

Lemma flag_byte b : in_u8 b -> Z.land b (Z.lxor 1 255) = 0 -> b = 0 \/ b = 1.
Proof.
  intros Hb Hl. assert (Hf : b = Z.land b 255).
  { change 255 with (Z.ones 8). rewrite Z.land_ones, Z.mod_small by (widths; lia). done. }
  change 255 with (Z.lor (Z.ones 1) (Z.lxor 1 255)) in Hf.
  rewrite Z.land_lor_distr_r, Hl, Z.lor_0_r, Z.land_ones in Hf by lia.
  pose proof (Z.mod_pos_bound b (2 ^ 1) ltac:(lia)). lia.
Qed.

Lemma u64_payload_canonical payload r v :
  is_bytes payload -> payload_u64 payload r = Ok v -> (9 + length payload <= 9 + 8)%nat ->
  le 8 v = payload.
Proof.
  unfold payload_u64. intros Hb Hp Hl.
  destruct (length payload <? 8)%nat eqn:Hc; [done|]. apply Nat.ltb_ge in Hc. simplify_eq.
  rewrite le_field by (done || lia). rewrite drop_0. by apply take_ge; lia.
Qed.

(** A transport event has one payload. *)
Lemma transport_payload_canonical tag payload ev buf_len seq :
  is_bytes payload -> in_u8 tag -> decode_event tag payload = Ok ev -> is_app ev = false ->
  (9 + length payload <= max_entry_length (E:=E) (Some tag))%nat ->
  encode_event buf_len seq ev = Ok (tag, payload).
Proof.
  intros Hb Ht Hd Ha Hcap. unfold decode_event, max_entry_length in *.
  destruct (tag =? TAG_TICK) eqn:E1; [|destruct (tag =? TAG_EPOCH_BUMP) eqn:E2;
    [|destruct (tag =? TAG_ACK_POLICY_CHANGE) eqn:E3]]; cbn [orb] in Hcap.
  - apply Z.eqb_eq in E1 as ->. destruct (payload_u64 payload TickTooShort) as [v|] eqn:Hp; [|done].
    cbn in Hd. simplify_eq. cbn [encode_event]. by rewrite (u64_payload_canonical _ _ _ Hb Hp Hcap).
  - apply Z.eqb_eq in E2 as ->. destruct (payload_u64 payload EpochTooShort) as [v|] eqn:Hp; [|done].
    cbn in Hd. simplify_eq. cbn [encode_event]. by rewrite (u64_payload_canonical _ _ _ Hb Hp Hcap).
  - apply Z.eqb_eq in E3 as ->. destruct payload as [|p [|f rest]]; try done.
    destruct (negb _) eqn:Hfl; [done|]. simplify_eq. apply negb_false_iff, Z.eqb_eq in Hfl.
    apply Forall_cons_1 in Hb as [_ [Hf _]%Forall_cons_1].
    unfold ACK_POLICY_CHANGE_PAYLOAD_SIZE, ENTRY_META_SIZE in Hcap.
    destruct rest; [|cbn in Hcap; lia].
    by destruct (flag_byte f Hf Hfl) as [-> | ->].
  - destruct (tag =? TAG_APP); [|done]. by destruct (app_decode payload); simplify_eq.
Qed.

(** Decoding never invents an entry. Whatever bytes [decode] accepts are, byte
    for byte, the framing of the fields it returns: the declared length is the
    consumed length, within the buffer and within the widest entry of its type,
    and the event is the one the payload decodes to. A tick, an epoch bump or a
    policy change has exactly one encoding, which is the bytes read. *)
Theorem decode_canonical buf n seq ts key ev buf_len :
  is_bytes buf -> decode crc32c buf = Ok (n, seq, ts, key, ev) -> (41 <= buf_len)%nat ->
  (n <= length buf)%nat /\
  (exists tag payload,
    take n buf = entry_bytes crc32c seq ts key tag payload /\
    n = (ENTRY_FRAMING_SIZE + length payload)%nat /\
    (9 + length payload <= max_entry_length (E:=E) (Some tag))%nat /\
    decode_event tag payload = Ok ev) /\
  (is_app ev = false -> encode crc32c buf_len seq ts key ev = Ok (take n buf)).
Proof.
  intros Hb Hd Hbl.
  destruct (decode_sound _ _ _ _ _ _ Hb Hd) as (tag & payload & Hn & Hle & Ht & He & Hc & Hu).
  split_and!; [done|by exists tag, payload|]. intros Ha.
  assert (Hbs : is_bytes (entry_data seq ts key tag payload)).
  { apply (is_bytes_take n) in Hb. rewrite Ht in Hb. by apply is_bytes_app in Hb as [Hb _]. }
  unfold entry_data in Hbs. rewrite !is_bytes_app in Hbs.
  destruct Hbs as (_ & _ & _ & _ & _ & Htag & Hpay).
  unfold is_bytes in Htag. rewrite Forall_singleton in Htag.
  unfold encode. rewrite (transport_payload_canonical tag payload ev buf_len seq) by done.
  rewrite (proj2 (Nat.ltb_ge _ _))
    by (unfold ENTRY_HEADER_SIZE, ENTRY_META_SIZE, TRANSPORT_PAYLOAD_SIZE, CRC_SIZE; lia).
  cbn [negb rbind]. by rewrite (proj2 (Z.leb_le _ _)), Ht.
Qed.

Lemma max_entry_length_range tag :
  (9 <= max_entry_length (E:=E) tag <= max_entry_length (E:=E) None)%nat.
Proof.
  unfold max_entry_length, ENTRY_META_SIZE, TRANSPORT_PAYLOAD_SIZE, ACK_POLICY_CHANGE_PAYLOAD_SIZE.
  destruct tag as [t|]; [|lia].
  destruct ((t =? TAG_TICK) || (t =? TAG_EPOCH_BUMP)); [lia|].
  destruct (t =? TAG_ACK_POLICY_CHANGE); [lia|]. destruct (t =? TAG_APP); lia.
Qed.

(** The length cap agrees on a prefix that holds the entry it declares. *)
Lemma cap_prefix (buf more : list Z) len :
  (max_entry_length (E:=E) (buf !! 28%nat) < len \/ 24 + len <= length buf)%nat ->
  (max_entry_length (E:=E) ((buf ++ more) !! 28%nat) <? len)%nat
  = (max_entry_length (E:=E) (buf !! 28%nat) <? len)%nat.
Proof.
  intros Hl. destruct (decide (28 < length buf)%nat) as [Hb|Hb].
  { by rewrite lookup_app_l. }
  rewrite (lookup_ge_None_2 buf 28) in * by lia.
  pose proof (max_entry_length_range ((buf ++ more) !! 28%nat)).
  destruct Hl; [rewrite !(proj2 (Nat.ltb_lt _ _)) by lia|rewrite !(proj2 (Nat.ltb_ge _ _)) by lia]; done.
Qed.

(** A verdict other than "truncated" does not depend on what follows. *)
Lemma decode_extend buf more :
  decode crc32c buf <> Err TruncatedEntry -> decode crc32c (buf ++ more) = decode crc32c buf.
Proof.
  unfold decode, EVENT_TAG_OFFSET, ENTRY_HEADER_SIZE, ENTRY_META_SIZE, CRC_SIZE.
  change (20 + 8)%nat with 28%nat. change (20 + 9)%nat with 29%nat.
  rewrite length_app.
  destruct (length buf <? 20 + 1 + 4)%nat eqn:H25; [done|]. apply Nat.ltb_ge in H25.
  rewrite (proj2 (Nat.ltb_ge (length buf + _) (20 + 1 + 4))) by lia. cbn [negb].
  rewrite !(field_prefix 0), !(field_prefix 2), !(field_prefix 4), !(field_prefix 12) by lia.
  destruct (field 0 2 buf =? ENTRY_MAGIC); [|done].
  set (len := Z.to_nat (field 2 2 buf)). intros Hnt.
  rewrite cap_prefix.
  2: { destruct (max_entry_length _ <? len)%nat eqn:Hc; [left; by apply Nat.ltb_lt|right].
       destruct (length buf <? 20 + len + 4)%nat eqn:Hl; [done|]. apply Nat.ltb_ge in Hl. lia. }
  destruct (max_entry_length _ <? len)%nat; [done|]. cbn [negb] in *.
  destruct (length buf <? 20 + len + 4)%nat eqn:Hl; [done|]. apply Nat.ltb_ge in Hl.
  rewrite (proj2 (Nat.ltb_ge (length buf + _) _)) by lia. cbn [negb].
  rewrite (field_prefix (20 + len)), (take_app_le _ _ (20 + len)) by lia.
  destruct (_ =? _); [|done].
  destruct (len <? 9)%nat eqn:H9; [done|]. apply Nat.ltb_ge in H9. cbn [negb].
  by rewrite !field_prefix, slice_prefix by lia.
Qed.

Lemma decode_consumed buf n seq ts key ev :
  decode crc32c buf = Ok (n, seq, ts, key, ev) -> (33 <= n <= length buf)%nat.
Proof.
  unfold decode, ENTRY_HEADER_SIZE, ENTRY_META_SIZE, CRC_SIZE. intros Hd.
  do 3 apply guard_ok in Hd as [_ Hd]. apply guard_ok in Hd as [Hl Hd].
  apply guard_ok in Hd as [_ Hd]. apply guard_ok in Hd as [Hm Hd].
  apply negb_true_iff, Nat.ltb_ge in Hl, Hm. destruct (decode_event _ _); simplify_eq. lia.
Qed.

(** Only a buffer that holds a header can fail on its contents. *)
Lemma decode_short buf : (length buf < 25)%nat -> decode crc32c buf = Err TruncatedEntry.
Proof. intros Hl. unfold decode. by rewrite (proj2 (Nat.ltb_lt _ _)). Qed.

(** *** The file header *)
Definition header_ok (sector : nat) (start : Z) (anchor : list Z) (genesis : option Z) : Prop :=
  (sector = 512 \/ sector = 4096)%nat /\ in_u64 start /\ length anchor = 32%nat /\
  match genesis with Some g => in_u64 g | None => True end.

(** The fields both header layouts share, whatever follows them. *)
Lemma header_reads (version : Z) (sector : nat) start anchor tail :
  in_u16 version -> (sector = 512 \/ sector = 4096)%nat -> in_u64 start -> length anchor = 32%nat ->
  let buf := le 4 FILE_MAGIC ++ le 2 version ++ le 2 (Z.of_nat sector) ++ le 8 start ++ anchor ++ tail in
  field 0 4 buf = FILE_MAGIC /\ field 4 2 buf = version /\ field 6 2 buf = Z.of_nat sector /\
  field 8 8 buf = start /\ take 32 (drop 16 buf) = anchor /\ drop 48 buf = tail /\
  length buf = (48 + length tail)%nat.
Proof.
  intros Hv Hs Hst Ha buf.
  assert (H16 : drop 16 buf = anchor ++ tail) by reflexivity.
  split_and!; [reflexivity| | | | | |].
  - exact (unle_u16 version Hv).
  - apply (unle_u16 (Z.of_nat sector)). widths. destruct Hs; subst; lia.
  - exact (unle_u64 start Hst).
  - rewrite H16, <- Ha. apply take_app_length.
  - change 48%nat with (16 + 32)%nat. rewrite <- drop_drop, H16, <- Ha. apply drop_app_length.
  - unfold buf. rewrite !length_app, !le_length. lia.
Qed.

Lemma sector_accepted (sector : nat) :
  (sector = 512 \/ sector = 4096)%nat ->
  (if Z.of_nat sector =? 0 then Ok 512%nat
   else if (Z.of_nat sector =? 512) || (Z.of_nat sector =? 4096) then Ok (Z.to_nat (Z.of_nat sector))
   else Err InvalidFile) = Ok sector.
Proof. by intros [-> | ->]. Qed.

(** A header's fields and checksum, whatever follows them. *)
Lemma header_body_decodes sector start anchor genesis rest :
  header_ok sector start anchor genesis ->
  let fields := header_fields sector start anchor genesis in
  decode_file_header crc32c (fields ++ le 4 (crc32c fields) ++ rest) =
  Ok {| sector_size := sector; starting_sequence := start; anchor_hash := anchor;
        genesis_entries := genesis |}.
Proof.
  intros (Hs & Hst & Ha & Hg) fields.
  set (crc := le 4 (crc32c fields)). set (buf := fields ++ crc ++ rest).
  assert (Hcrc : unle crc = crc32c fields) by (by apply unle_u32).
  assert (Hcl : length crc = 4%nat) by apply le_length.
  assert (Htk : take (length fields) buf = fields) by apply take_app_length.
  unfold decode_file_header, verify_header_crc.
  destruct genesis as [g|].
  - assert (Hfl : length fields = 56%nat)
      by (unfold fields, header_fields; rewrite !length_app, !le_length, Ha; lia).
    destruct (header_reads FORMAT_VERSION sector start anchor (le 8 g ++ crc ++ rest)
                ltac:(done) Hs Hst Ha) as (R0 & R4 & R6 & R8 & R16 & R48 & Rl).
    replace (_ ++ _) with buf in R0, R4, R6, R8, R16, R48, Rl
      by (unfold buf, fields, header_fields; by rewrite <- !app_assoc).
    rewrite !length_app, le_length, Hcl in Rl. rewrite Hfl in Htk.
    assert (F48 : field 48 8 buf = g).
    { unfold field. rewrite R48, take_app_length' by (symmetry; apply le_length). by apply unle_u64. }
    assert (F56 : field 56 4 buf = crc32c fields).
    { unfold field. change 56%nat with (48 + 8)%nat.
      rewrite <- drop_drop, R48, (slice_app (le 8 g) crc) by (done || apply le_length). done. }
    rewrite R0, R4, R6, R8, R16, Rl, F48, F56. cbn [Z.eqb negb].
    change (FILE_HEADER_FIELDS_SIZE - CRC_SIZE)%nat with 56%nat.
    rewrite Htk, !Z.eqb_refl, (sector_accepted sector Hs). reflexivity.
  - assert (Hfl : length fields = 48%nat)
      by (unfold fields, header_fields; rewrite !length_app, !le_length, Ha; lia).
    destruct (header_reads FORMAT_VERSION_V15 sector start anchor (crc ++ rest)
                ltac:(done) Hs Hst Ha) as (R0 & R4 & R6 & R8 & R16 & R48 & Rl).
    replace (_ ++ _) with buf in R0, R4, R6, R8, R16, R48, Rl
      by (unfold buf, fields, header_fields; by rewrite <- !app_assoc).
    rewrite !length_app, Hcl in Rl. rewrite Hfl in Htk.
    assert (F48 : field 48 4 buf = crc32c fields).
    { unfold field. by rewrite R48, take_app_length'. }
    rewrite R0, R4, R6, R8, R16, Rl, F48. cbn [Z.eqb negb].
    change (FILE_HEADER_V15_FIELDS_SIZE - CRC_SIZE)%nat with 48%nat.
    rewrite Htk, !Z.eqb_refl, (sector_accepted sector Hs). reflexivity.
Qed.

(** A segment's header survives the round trip, in both layouts: a known
    genesis length writes the current version and an unknown one the previous,
    the header fills exactly one sector, and reading the sector, or just the
    first 512 bytes of it as the reader does, returns the sector size, starting
    sequence, chain anchor and genesis length that were written. *)
Lemma file_header_round_trip sector start anchor genesis :
  header_ok sector start anchor genesis ->
  let hdr := encode_file_header crc32c sector start anchor genesis in
  let info := {| sector_size := sector; starting_sequence := start; anchor_hash := anchor;
                 genesis_entries := genesis |} in
  length hdr = sector /\ decode_file_header crc32c hdr = Ok info /\
  decode_file_header crc32c (take FILE_HEADER_SIZE hdr) = Ok info.
Proof.
  intros Hok hdr info. pose proof Hok as (Hs & _ & Ha & _).
  set (fields := header_fields sector start anchor genesis).
  assert (Hl : (length (fields ++ le 4 (crc32c fields)) <= 60)%nat).
  { rewrite length_app, le_length. unfold fields, header_fields.
    destruct genesis; rewrite !length_app, !le_length, Ha; lia. }
  unfold hdr, encode_file_header. fold fields. split_and!.
  - rewrite length_app, length_replicate. destruct Hs; subst sector; lia.
  - rewrite <- app_assoc. by apply header_body_decodes.
  - rewrite take_app_ge by (unfold FILE_HEADER_SIZE; lia).
    rewrite <- app_assoc. by apply header_body_decodes.
Qed.

Lemma header_start_u64 buf i :
  is_bytes buf -> decode_file_header crc32c buf = Ok i -> in_u64 (starting_sequence i).
Proof.
  intros Hb Hd. unfold decode_file_header in Hd.
  destruct (length buf <? 6)%nat; [done|]. destruct (negb _); [done|].
  destruct (if _ =? FORMAT_VERSION then _ else _) as [g|]; [|done]. cbn [rbind] in Hd.
  destruct (if field 6 2 buf =? 0 then _ else _) as [sz|]; [|done]. cbn [rbind] in Hd. simplify_eq.
  cbn [starting_sequence]. unfold field.
  pose proof (unle_bound (take 8 (drop 8 buf)) (is_bytes_take _ _ (is_bytes_drop _ _ Hb))) as Hu.
  assert (256 ^ Z.of_nat (length (take 8 (drop 8 buf))) <= 256 ^ 8)
    by (apply Z.pow_le_mono_r; rewrite ?length_take; lia).
  widths. lia.
Qed.
End facts.
End Facts.

(** ** A concrete application and checksum *)
Module Sample.
Import Le Codec Facts.

(** A one-byte event. *)
#[export] Instance flag_event : AppEvent bool := {
  MAX_ENCODED_SIZE := 1;
  encoded_size := fun _ => 1%nat;
  app_encode := fun b => [if b then 1 else 0];
  app_decode := fun bs =>
    match bs with
    | [0] => Ok false | [1] => Ok true
    | [] => Err AppTruncated
    | b :: _ => Err (AppUnknownTag b)
    end
}.

#[export] Instance flag_event_laws : AppEventLaws bool.
Proof.
  split; intros []; (reflexivity || (cbn; lia) || (repeat constructor; widths; cbn; lia)).
Qed.

(** A checksum in the range of the real one. *)
Definition sum32 (bs : list Z) : Z := foldr Z.add 0 bs mod 4294967296.

Lemma sum32_range bs : in_u32 (sum32 bs).
Proof. unfold sum32. pose proof (Z.mod_pos_bound (foldr Z.add 0 bs) 4294967296 ltac:(lia)). widths. lia. Qed.

Definition sample_entry : list Z := entry_bytes sum32 7 1000 42 TAG_APP [1].

Lemma entry_round_trip_witness :
  exists bs, encode sum32 64 7 1000 42 (App true) = Ok bs /\
    (length bs <= entry_size (E:=bool))%nat /\
    forall rest, decode sum32 (bs ++ rest) = Ok (length bs, 7, 1000, 42, App true).
Proof.
  exact (entry_round_trip sum32 sum32_range 64 7 1000 42 (App true) eq_refl
    ltac:(widths; lia) ltac:(widths; lia) ltac:(widths; lia)
    ltac:(apply Nat.leb_le; reflexivity) ltac:(apply Nat.leb_le; reflexivity)).
Defined.

Lemma decode_canonical_witness :
  Nat.le 35 (length (entry_bytes sum32 8 1001 0 TAG_ACK_POLICY_CHANGE [2; 1] ++ [0; 0])) /\
  encode (E:=bool) sum32 64 8 1001 0 (AckPolicyChanged {| policy := 2; unwitnessed := true |})
  = Ok (entry_bytes sum32 8 1001 0 TAG_ACK_POLICY_CHANGE [2; 1]).
Proof.
  destruct (decode_canonical (E:=bool) sum32
    (entry_bytes sum32 8 1001 0 TAG_ACK_POLICY_CHANGE [2; 1] ++ [0; 0])
    35 8 1001 0 (AckPolicyChanged {| policy := 2; unwitnessed := true |}) 64
    ltac:(repeat constructor; vm_compute; intros; discriminate) ltac:(vm_compute; reflexivity) ltac:(lia))
    as (Hn & _ & He).
  split; [exact Hn|]. exact (He eq_refl).
Defined.
End Sample.
