(* ===== verification/Journal.v ===== *)
(** * Writing the journal

    [Io] is the file as the sources see it: a byte list, read and written at
    an offset, where one call may transfer fewer bytes than asked
    ([write_all_at], [write_all_vectored_at], [read_at]). [Chain] is the
    segment hash chain ([journal/src/chain.rs]), with the hash function a
    parameter; [Encoder] sequencing and framing ([journal/src/encoder.rs]);
    [Segment] the live file ([journal/src/segment_file.rs]); [Writer] their
    composition ([journal/src/buffered_writer.rs], [write.rs]). A failing
    system call is not modelled except where the source turns an outcome of a
    successful one (zero bytes transferred) into an error. *)

From S2P Require Import Prelude Lineage Codec.
Import Lineage.Event Codec.Le Codec.Codec.

Module Io.

(** A read of up to [want] bytes at [off]. [sizes] scripts how many bytes the
    successive calls give: at least one while any are left, as many as asked
    when the script has run out. *)
Definition read_at (file : list Z) (off want : nat) (sizes : list nat) : list Z * list nat :=
  match sizes with
  | [] => (take want (drop off file), [])
  | s :: rest => (take (Nat.min want (Nat.max 1 s)) (drop off file), rest)
  end.

(** [pwrite] of [bytes] at [off]: past the end of the file, the gap reads as zeros. *)
Definition write_at (file : list Z) (off : nat) (bytes : list Z) : list Z :=
  take off file ++ replicate (off - length file) 0 ++ bytes ++ drop (off + length bytes) file.

(** One scripted call: how many of [n] bytes it accepts. *)
Definition accepted (n : nat) (sizes : list nat) : nat * list nat :=
  match sizes with [] => (n, []) | s :: rest => (Nat.min n s, rest) end.

(** [write_all_at]: the loop over short writes. *)
Fixpoint write_all_at_loop (fuel : nat) (file buf : list Z) (written offset : nat) (sizes : list nat)
    : result (list Z * list nat) JournalError :=
  if (written <? length buf)%nat then
    match fuel with
    | O => Err Io
    | S fuel =>
      let '(n, sizes) := accepted (length buf - written) sizes in
      if (n =? 0)%nat then Err Io
      else write_all_at_loop fuel (write_at file (offset + written) (take n (drop written buf)))
             buf (written + n) offset sizes
    end
  else Ok (file, sizes).

Definition write_all_at (file buf : list Z) (offset : nat) (sizes : list nat) :=
  write_all_at_loop (length buf) file buf 0 offset sizes.

(** [IoSlice::advance_slices]: drop the whole slices [n] covers, trim the next. *)
Fixpoint advance_slices (bufs : list (list Z)) (n : nat) : list (list Z) :=
  match bufs with
  | [] => []
  | b :: rest =>
    if (length b <=? n)%nat then advance_slices rest (n - length b) else drop n b :: rest
  end.

Fixpoint write_all_vectored_loop (fuel : nat) (file : list Z) (remaining : list (list Z))
    (offset : nat) (sizes : list nat) : result (list Z * list nat) JournalError :=
  match remaining with
  | [] => Ok (file, sizes)
  | _ =>
    match fuel with
    | O => Err Io
    | S fuel =>
      let '(n, sizes) := accepted (length (concat remaining)) sizes in
      if (n =? 0)%nat then Err Io
      else write_all_vectored_loop fuel (write_at file offset (take n (concat remaining)))
             (advance_slices remaining n) (offset + n) sizes
    end
  end.

Definition write_all_vectored_at (file : list Z) (bufs : list (list Z)) (offset : nat)
    (sizes : list nat) :=
  write_all_vectored_loop (length (concat bufs)) file bufs offset sizes.

(** [fallocate] of [chunk] bytes from [from]: the file grows with zeros. *)
Definition fallocate (file : list Z) (from chunk : nat) : list Z :=
  file ++ replicate (from + chunk - length file) 0.

Lemma take_min_length {A} n (l : list A) : take n l = take (Nat.min n (length l)) l.
Proof.
  destruct (decide (n <= length l)%nat); [by rewrite Nat.min_l|].
  by rewrite Nat.min_r, !take_ge by lia.
Qed.

Lemma read_at_some file off want sizes :
  (0 < want)%nat -> (off < length file)%nat ->
  exists n, (0 < n <= want)%nat /\ (n <= length file - off)%nat /\
    fst (read_at file off want sizes) = take n (drop off file).
Proof.
  intros Hw Hl. destruct sizes as [|s rest]; cbn [read_at fst];
    rewrite take_min_length, length_drop; eexists; (split; [|split; [|reflexivity]]); lia.
Qed.

Lemma read_at_eof file off want sizes :
  (length file <= off)%nat -> fst (read_at file off want sizes) = [].
Proof. intros Hl. destruct sizes; cbn [read_at fst]; by rewrite drop_ge, take_nil by lia. Qed.

Lemma write_at_nil file off : (off <= length file)%nat -> write_at file off [] = file.
Proof.
  intros Hl. unfold write_at. replace (off - length file)%nat with 0%nat by lia.
  cbn. rewrite Nat.add_0_r. apply take_drop.
Qed.

Lemma length_write_at file off bytes :
  length (write_at file off bytes) = Nat.max (length file) (off + length bytes).
Proof.
  unfold write_at. rewrite !length_app, length_take, length_replicate, length_drop. lia.
Qed.

(** Two writes end to end are one. *)
Lemma write_at_app file off a b :
  write_at (write_at file off a) (off + length a) b = write_at file off (a ++ b).
Proof.
  assert (Hpre : length (take off file ++ replicate (off - length file) 0) = off)
    by (rewrite length_app, length_take, length_replicate; lia).
  unfold write_at at 1. rewrite length_write_at.
  replace (off + length a - _)%nat with 0%nat by lia. cbn [replicate app].
  unfold write_at. rewrite (app_assoc (take off file)).
  set (pre := take off file ++ replicate (off - length file) 0) in *.
  rewrite (app_assoc pre a), take_app_length' by (rewrite length_app; lia).
  rewrite (drop_app_add' _ _ (off + length a)) by (rewrite length_app; lia).
  unfold pre. by rewrite drop_drop, length_app, <- !app_assoc, Nat.add_assoc.
Qed.

Lemma accepted_some n sizes :
  (0 < n)%nat -> Forall (lt 0) sizes ->
  exists m rest, accepted n sizes = (m, rest) /\ (0 < m <= n)%nat /\ Forall (lt 0) rest.
Proof.
  intros Hn Hs. destruct sizes as [|s rest]; cbn.
  - exists n, []. auto.
  - apply Forall_cons_1 in Hs as [Hs Hr]. exists (Nat.min n s), rest. split_and!; [done|lia|lia|done].
Qed.

Lemma write_all_at_loop_lands fuel file buf written offset sizes :
  (length buf - written <= fuel)%nat -> (written <= length buf)%nat ->
  (offset + written <= length file)%nat -> Forall (lt 0) sizes ->
  exists rest, write_all_at_loop fuel file buf written offset sizes
    = Ok (write_at file (offset + written) (drop written buf), rest) /\ Forall (lt 0) rest.
Proof.
  revert file written sizes. induction fuel as [|fuel IH]; intros file written sizes Hf Hw Hl Hs.
  - cbn [write_all_at_loop]. rewrite (proj2 (Nat.ltb_ge _ _)), drop_ge, write_at_nil by lia. eauto.
  - cbn [write_all_at_loop]. destruct (written <? length buf)%nat eqn:Hlt.
    + apply Nat.ltb_lt in Hlt.
      destruct (accepted_some (length buf - written) sizes) as (n & rest & -> & Hn & Hr); [lia|done|].
      rewrite (proj2 (Nat.eqb_neq _ _)) by lia.
      assert (Htn : length (take n (drop written buf)) = n) by (rewrite length_take, length_drop; lia).
      destruct (IH (write_at file (offset + written) (take n (drop written buf))) (written + n)%nat rest)
        as (rest' & -> & Hr'); [lia|lia|rewrite length_write_at; lia|done|].
      exists rest'. split; [|done]. do 2 f_equal.
      replace (offset + (written + n))%nat with (offset + written + length (take n (drop written buf)))%nat by lia.
      by rewrite write_at_app, <- drop_drop, take_drop.
    + apply Nat.ltb_ge in Hlt. rewrite drop_ge, write_at_nil by lia. eauto.
Qed.

Lemma concat_advance bufs n : concat (advance_slices bufs n) = drop n (concat bufs).
Proof.
  revert n. induction bufs as [|b bufs IH]; intros n; cbn; [by rewrite drop_nil|].
  destruct (length b <=? n)%nat eqn:Hl.
  - apply Nat.leb_le in Hl. by rewrite IH, drop_app_ge.
  - apply Nat.leb_gt in Hl. by rewrite drop_app_le by lia.
Qed.

Lemma advance_progress bufs n : advance_slices bufs n <> [] -> concat (advance_slices bufs n) <> [].
Proof.
  revert n. induction bufs as [|b bufs IH]; intros n; cbn; [done|].
  destruct (length b <=? n)%nat eqn:Hl; [apply IH|]. intros _ Hc. apply Nat.leb_gt in Hl.
  apply (f_equal length) in Hc. cbn in Hc. rewrite length_app, length_drop in Hc. cbn in Hc. lia.
Qed.

Lemma write_all_vectored_loop_lands fuel file bufs offset sizes :
  (length (concat bufs) <= fuel)%nat -> (bufs <> [] -> concat bufs <> []) ->
  (offset <= length file)%nat -> Forall (lt 0) sizes ->
  exists rest, write_all_vectored_loop fuel file bufs offset sizes
    = Ok (write_at file offset (concat bufs), rest) /\ Forall (lt 0) rest.
Proof.
  revert file bufs offset sizes. induction fuel as [|fuel IH]; intros file bufs offset sizes Hf Hne Hl Hs.
  - destruct bufs as [|b bufs]; [cbn; rewrite write_at_nil by done; eauto|].
    destruct (concat (b :: bufs)) eqn:Hc; [by destruct (Hne ltac:(done))|]. cbn [length] in Hf. lia.
  - destruct bufs as [|b bufs]; [cbn; rewrite write_at_nil by done; eauto|].
    set (all := b :: bufs) in *. unfold write_all_vectored_loop. fold write_all_vectored_loop.
    unfold all at 1. specialize (Hne ltac:(done)).
    destruct (accepted_some (length (concat all)) sizes) as (n & rest & -> & Hn & Hr);
      [destruct (concat all); cbn; [done|lia]|done|].
    rewrite (proj2 (Nat.eqb_neq _ _)) by lia.
    assert (Htn : length (take n (concat all)) = n) by (rewrite length_take; lia).
    destruct (IH (write_at file offset (take n (concat all))) (advance_slices all n) (offset + n)%nat rest)
      as (rest' & -> & Hr').
    + rewrite concat_advance, length_drop. lia.
    + apply advance_progress.
    + rewrite length_write_at. lia.
    + done.
    + exists rest'. split; [|done]. do 2 f_equal.
      replace (offset + n)%nat with (offset + length (take n (concat all)))%nat by lia.
      by rewrite write_at_app, concat_advance, take_drop.
Qed.

(** Short writes never lose, repeat or reorder journal bytes. However the kernel
    splits the calls, as long as each accepts at least one byte, writing one
    buffer or a vector of them at an offset inside the file ends, and leaves
    exactly the bytes one whole write of their concatenation would; a call that
    accepts nothing is an error. *)
Theorem short_writes_land file offset sizes :
  (offset <= length file)%nat -> Forall (lt 0) sizes ->
  (forall buf, exists rest,
    write_all_at file buf offset sizes = Ok (write_at file offset buf, rest)) /\
  (forall bufs, concat bufs <> [] -> exists rest,
    write_all_vectored_at file bufs offset sizes = Ok (write_at file offset (concat bufs), rest)) /\
  (forall buf rest, buf <> [] -> write_all_at file buf offset (0%nat :: rest) = Err Io).
Proof.
  intros Hl Hs. split_and!.
  - intros buf. destruct (write_all_at_loop_lands (length buf) file buf 0 offset sizes)
      as (rest & Hw & _); [lia..|done|]. rewrite Nat.add_0_r, drop_0 in Hw. by exists rest.
  - intros bufs Hne. destruct (write_all_vectored_loop_lands (length (concat bufs)) file bufs offset sizes)
      as (rest & Hw & _); [lia|done..|]. by exists rest.
  - intros buf rest Hne. unfold write_all_at. destruct buf as [|b buf]; [done|].
    cbn [length write_all_at_loop accepted]. by rewrite Nat.min_0_r.
Qed.

Lemma short_writes_land_witness :
  (exists rest, write_all_at [1; 2; 3; 0; 0] [7; 8; 9] 2 [1%nat; 1%nat; 4%nat] =
    Ok (write_at [1; 2; 3; 0; 0] 2 [7; 8; 9], rest)) /\
  (exists rest, write_all_vectored_at [1; 2; 3; 0; 0] [[7]; []; [8; 9]] 2 [1%nat; 1%nat; 4%nat] =
    Ok (write_at [1; 2; 3; 0; 0] 2 [7; 8; 9], rest)).
Proof.
  destruct (short_writes_land [1; 2; 3; 0; 0] 2 [1%nat; 1%nat; 4%nat]
    ltac:(cbn; lia) ltac:(repeat constructor; lia)) as (Hb & Hv & _).
  split; [exact (Hb [7; 8; 9])|exact (Hv [[7]; []; [8; 9]] ltac:(discriminate))].
Defined.
End Io.

(** ** The segment hash chain *)
Module Chain.
Section chain.
(** BLAKE3, of the whole input. *)
Context (blake3 : list Z -> list Z).

(** The incremental hasher is what it has absorbed. *)
Record SegmentChain := { anchor : list Z; absorbed : list Z; dirty : bool }.

Definition new (anchor_hash : list Z) : SegmentChain :=
  {| anchor := anchor_hash; absorbed := []; dirty := false |}.

Definition absorb (c : SegmentChain) (entry : list Z) : SegmentChain :=
  {| anchor := anchor c; absorbed := absorbed c ++ entry; dirty := true |}.

Definition value (c : SegmentChain) : list Z :=
  if dirty c then blake3 (absorbed c ++ anchor c) else anchor c.

(** [rebuild_from_file]'s scan, in reads of at most 1 MiB. *)
Fixpoint rebuild_loop (fuel : nat) (file : list Z) (c : SegmentChain) (offset valid_end : nat)
    (sizes : list nat) : result SegmentChain JournalError :=
  if (offset <? valid_end)%nat then
    match fuel with
    | O => Err Io
    | S fuel =>
      let want := Z.to_nat (Z.min (Z.of_nat (valid_end - offset)) 1048576) in
      let '(bytes, sizes) := Io.read_at file offset want sizes in
      if (length bytes =? 0)%nat then Err Io
      else rebuild_loop fuel file (absorb c bytes) (offset + length bytes) valid_end sizes
    end
  else Ok c.

Definition rebuild_from_file (file anchor_hash : list Z) (entry_offset valid_end : nat)
    (sizes : list nat) : result SegmentChain JournalError :=
  let c := new anchor_hash in
  if (valid_end <=? entry_offset)%nat then Ok c
  else rebuild_loop (valid_end - entry_offset) file c entry_offset valid_end sizes.

Lemma rebuild_loop_absorbs fuel file c offset valid_end sizes :
  (valid_end - offset <= fuel)%nat -> (valid_end <= length file)%nat ->
  (offset <= valid_end)%nat -> dirty c = true \/ (offset < valid_end)%nat ->
  rebuild_loop fuel file c offset valid_end sizes =
  Ok {| anchor := anchor c; dirty := true;
        absorbed := absorbed c ++ take (valid_end - offset) (drop offset file) |}.
Proof.
  revert c offset sizes. induction fuel as [|fuel IH]; intros c offset sizes Hf Hv Ho Hd;
    cbn [rebuild_loop]; destruct (offset <? valid_end)%nat eqn:Hlt;
    [apply Nat.ltb_lt in Hlt; lia| |apply Nat.ltb_lt in Hlt|];
    [apply Nat.ltb_ge in Hlt; destruct Hd as [Hd|]; [|lia]; destruct c; cbn in *; subst;
     replace (valid_end - offset)%nat with 0%nat by lia; by rewrite take_0, app_nil_r| |
     apply Nat.ltb_ge in Hlt; destruct Hd as [Hd|]; [|lia]; destruct c; cbn in *; subst;
     replace (valid_end - offset)%nat with 0%nat by lia; by rewrite take_0, app_nil_r].
  set (want := Z.to_nat (Z.min (Z.of_nat (valid_end - offset)) 1048576)).
  destruct (Io.read_at_some file offset want sizes) as (n & Hn & Hl & Hr); [unfold want; lia|lia|].
  destruct (Io.read_at file offset want sizes) as [bytes sizes']. cbn [fst] in Hr. subst bytes.
  assert (Hlen : length (take n (drop offset file)) = n) by (rewrite length_take, length_drop; lia).
  rewrite Hlen, (proj2 (Nat.eqb_neq _ _)), IH by (cbn; unfold want in *; lia || auto).
  cbn. rewrite <- app_assoc, <- drop_drop, take_take_drop.
  do 5 f_equal. unfold want in *. lia.
Qed.

Lemma rebuild_absorbs file anchor_hash entry_offset valid_end sizes :
  (entry_offset <= valid_end <= length file)%nat ->
  rebuild_from_file file anchor_hash entry_offset valid_end sizes =
  Ok {| anchor := anchor_hash; absorbed := take (valid_end - entry_offset) (drop entry_offset file);
        dirty := bool_decide (entry_offset < valid_end)%nat |}.
Proof.
  intros [Ho Hv]. unfold rebuild_from_file. destruct (valid_end <=? entry_offset)%nat eqn:Hl.
  - apply Nat.leb_le in Hl. replace (valid_end - entry_offset)%nat with 0%nat by lia.
    by rewrite take_0, bool_decide_false by lia.
  - apply Nat.leb_gt in Hl. rewrite rebuild_loop_absorbs by lia || auto.
    by rewrite bool_decide_true.
Qed.
End chain.
End Chain.

(** ** Sequencing and framing *)
Module Encoder.
Section encoder.
Context {E : Type} `{AppEvent E}.
Context (crc32c : list Z -> Z).

Record JournalEncoder := {
  batch_len : nat;
  next_sequence : Z;
  starting_sequence : Z;
  hash_chain : Chain.SegmentChain;
  last_encoded_seq : Z;
  last_user_entry_offset : nat;
  last_user_entry_len : nat
}.

Definition new (start : Z) (anchor_hash : list Z) : JournalEncoder :=
  {| batch_len := 0; next_sequence := start; starting_sequence := start;
     hash_chain := Chain.new anchor_hash; last_encoded_seq := sat_sub start 1;
     last_user_entry_offset := 0; last_user_entry_len := 0 |}.

Definition ENTRY_OFFSET : nat := 4096.

Definition resume (file : list Z) (start : Z) (anchor_hash : list Z) (last_seq : Z)
    (valid_end : nat) (sizes : list nat) : result JournalEncoder JournalError :=
  c <-? Chain.rebuild_from_file file anchor_hash ENTRY_OFFSET valid_end sizes ;;
  Ok {| batch_len := 0; next_sequence := wrapping_add last_seq 1; starting_sequence := start;
        hash_chain := c; last_encoded_seq := last_seq;
        last_user_entry_offset := 0; last_user_entry_len := 0 |}.

Definition begin_segment (enc : JournalEncoder) (start : Z) (anchor_hash : list Z) : JournalEncoder :=
  {| batch_len := 0; next_sequence := next_sequence enc; starting_sequence := start;
     hash_chain := Chain.new anchor_hash; last_encoded_seq := last_encoded_seq enc;
     last_user_entry_offset := 0; last_user_entry_len := 0 |}.

Definition allocate_sequence (enc : JournalEncoder) : Z * JournalEncoder :=
  (next_sequence enc,
   {| batch_len := batch_len enc; next_sequence := wrapping_add (next_sequence enc) 1;
      starting_sequence := starting_sequence enc; hash_chain := hash_chain enc;
      last_encoded_seq := last_encoded_seq enc;
      last_user_entry_offset := last_user_entry_offset enc;
      last_user_entry_len := last_user_entry_len enc |}).

Definition adopt_sequence (enc : JournalEncoder) (seq : Z)
    : result (Z * JournalEncoder) JournalError :=
  if negb (seq =? next_sequence enc)
  then Err (ReplicaSequenceMismatch (next_sequence enc) seq)
  else Ok (allocate_sequence enc).

(** [encode_event] into [dst]; on an error the encoder and [dst] stay as they were. *)
Definition encode_event (enc : JournalEncoder) (dst : list Z) (seq ts : Z) (ev : JournalEvent E)
    (key : Z) : result (JournalEncoder * list Z) JournalError :=
  if seq <=? last_encoded_seq enc then Err (SequenceRegression seq (last_encoded_seq enc))
  else
    bytes <-? encode crc32c MAX_ENTRY_SIZE seq ts key ev ;;
    let offset := batch_len enc in
    let written := length bytes in
    if (length dst - offset <? written)%nat then Err Io
    else
      Ok ({| batch_len := offset + written; next_sequence := next_sequence enc;
             starting_sequence := starting_sequence enc;
             hash_chain := Chain.absorb (hash_chain enc) bytes;
             last_encoded_seq := seq; last_user_entry_offset := offset;
             last_user_entry_len := written |},
          take offset dst ++ bytes ++ drop (offset + written) dst).

Definition pending_batch_bytes (enc : JournalEncoder) (dst : list Z) : list Z :=
  take (batch_len enc) dst.

Definition clear_batch (enc : JournalEncoder) : JournalEncoder :=
  {| batch_len := 0; next_sequence := next_sequence enc;
     starting_sequence := starting_sequence enc; hash_chain := hash_chain enc;
     last_encoded_seq := last_encoded_seq enc;
     last_user_entry_offset := last_user_entry_offset enc; last_user_entry_len := 0 |}.

Definition last_user_entry_replication_slice (enc : JournalEncoder) (dst : list Z) : list Z :=
  if (last_user_entry_len enc =? 0)%nat then []
  else
    let start := last_user_entry_offset enc in
    let stop := (start + last_user_entry_len enc)%nat in
    take (stop - (start + ENTRY_MAGIC_SIZE)) (drop (start + ENTRY_MAGIC_SIZE) dst).
End encoder.
End Encoder.

(** ** The live segment on disk *)
Module Segment.
Import Io.
Section segment.
Context (crc32c : list Z -> Z).

Definition MAX_SECTOR_SIZE : nat := 4096.
Definition HEADER_OFFSET : nat := Encoder.ENTRY_OFFSET.

(** [contents] is the file behind the descriptor; [prealloc] the chunk size. *)
Record SegmentFile := {
  contents : list Z;
  write_pos : nat;
  allocated_end : nat;
  prealloc : nat;
  pre_written : bool;
  genesis : option Z
}.

(** [PreparedSegment]: a staged file of zeros. *)
Record PreparedSegment := { staged_end : nat; staged_written : bool }.

Definition write_header (file : list Z) (start : Z) (anchor_hash : list Z) (g : option Z)
    (sizes : list nat) : result (list Z * list nat) JournalError :=
  write_all_at file (encode_file_header crc32c MAX_SECTOR_SIZE start anchor_hash g) 0 sizes.

(** [fallocate_chunk]: the file and the new end of the allocation. *)
Definition fallocate_chunk (file : list Z) (from chunk : nat) : list Z * nat :=
  (fallocate file from chunk, from + chunk)%nat.

Definition create_continuing (start : Z) (anchor_hash : list Z) (g : option Z) (chunk : nat)
    (sizes : list nat) : result SegmentFile JournalError :=
  let '(file, alloc) := fallocate_chunk [] 0 chunk in
  w <-? write_header file start anchor_hash g sizes ;;
  Ok {| contents := fst w; write_pos := HEADER_OFFSET; allocated_end := alloc;
        prealloc := chunk; pre_written := false; genesis := g |}.

Definition open_append (file : list Z) (valid_end chunk : nat) (sizes : list nat)
    : result (SegmentFile * FileHeaderInfo) JournalError :=
  let '(header_buf, sizes) := read_at file 0 FILE_HEADER_SIZE sizes in
  if (length header_buf <? FILE_HEADER_SIZE)%nat then Err Io
  else
    info <-? decode_file_header crc32c header_buf ;;
    let file := if (valid_end <? length file)%nat then take valid_end file else file in
    let '(file, alloc) := fallocate_chunk file valid_end chunk in
    Ok ({| contents := file; write_pos := valid_end; allocated_end := alloc;
           prealloc := chunk; pre_written := false; genesis := genesis_entries info |}, info).

Definition ensure_allocated (sf : SegmentFile) (adding : nat) : SegmentFile :=
  if (write_pos sf + adding <=? allocated_end sf)%nat then sf
  else
    let '(file, alloc) := fallocate_chunk (contents sf) (allocated_end sf) (prealloc sf) in
    {| contents := file; write_pos := write_pos sf; allocated_end := alloc;
       prealloc := prealloc sf; pre_written := false; genesis := genesis sf |}.

Definition advance (sf : SegmentFile) (file : list Z) (n : nat) : SegmentFile :=
  {| contents := file; write_pos := write_pos sf + n; allocated_end := allocated_end sf;
     prealloc := prealloc sf; pre_written := pre_written sf; genesis := genesis sf |}.

Definition write_batch (sf : SegmentFile) (bytes : list Z) (sizes : list nat)
    : result SegmentFile JournalError :=
  if (length bytes =? 0)%nat then Ok sf
  else
    let sf := ensure_allocated sf (length bytes) in
    w <-? write_all_at (contents sf) bytes (write_pos sf) sizes ;;
    Ok (advance sf (fst w) (length bytes)).

Definition write_vectored (sf : SegmentFile) (bufs : list (list Z)) (sizes : list nat)
    : result SegmentFile JournalError :=
  let total := length (concat bufs) in
  if (total =? 0)%nat then Ok sf
  else
    let sf := ensure_allocated sf total in
    w <-? write_all_vectored_at (contents sf) bufs (write_pos sf) sizes ;;
    Ok (advance sf (fst w) total).

Definition install_fresh (sf : SegmentFile) (start : Z) (anchor_hash : list Z) (sizes : list nat)
    : result SegmentFile JournalError :=
  create_continuing start anchor_hash (genesis sf) (prealloc sf) sizes.

Definition install_prepared (sf : SegmentFile) (p : PreparedSegment) (start : Z)
    (anchor_hash : list Z) (sizes : list nat) : result SegmentFile JournalError :=
  w <-? write_header (replicate (staged_end p) 0) start anchor_hash (genesis sf) sizes ;;
  Ok {| contents := fst w; write_pos := HEADER_OFFSET; allocated_end := staged_end p;
        prealloc := prealloc sf; pre_written := staged_written p; genesis := genesis sf |}.

(** [set_len]. *)
Definition set_len (file : list Z) (n : nat) : list Z := take n file ++ replicate (n - length file) 0.

(** [rotate]: the archived file, compacted to its data, and the new live segment. *)
Definition rotate (sf : SegmentFile) (prepared : option PreparedSegment) (start : Z)
    (anchor_hash : list Z) (sizes : list nat) : result (list Z * SegmentFile) JournalError :=
  let sealed_end := write_pos sf in
  sf' <-? match prepared with
          | Some p => install_prepared sf p start anchor_hash sizes
          | None => install_fresh sf start anchor_hash sizes
          end ;;
  Ok (set_len (contents sf) sealed_end, sf').
End segment.
End Segment.

(** ** The composed writer *)
Module Writer.
Import Encoder Segment.
Section writer.
Context {E : Type} `{AppEvent E}.
Context (crc32c : list Z -> Z) (blake3 : list Z -> list Z).

Record BufferedWriter := { encoder : JournalEncoder; segment : SegmentFile; batch_buf : list Z }.

Definition BATCH_BUF_CAPACITY : Z := 512 * 1024.

Definition empty_batch : list Z := replicate (Z.to_nat BATCH_BUF_CAPACITY) 0.

Definition create_continuing (start : Z) (anchor_hash : list Z) (g : option Z) (chunk : nat)
    (sizes : list nat) : result BufferedWriter JournalError :=
  sf <-? Segment.create_continuing crc32c start anchor_hash g chunk sizes ;;
  Ok {| encoder := Encoder.new start anchor_hash; segment := sf; batch_buf := empty_batch |}.

Definition create (fresh_anchor : list Z) (chunk : nat) (sizes : list nat)
    : result BufferedWriter JournalError :=
  create_continuing 1 fresh_anchor (Some 0) chunk sizes.

(** [header_sizes] scripts the one read of the header, [sizes] the chain rebuild. *)
Definition open_append (file : list Z) (last_seq : Z) (valid_end chunk : nat)
    (header_sizes sizes : list nat) : result BufferedWriter JournalError :=
  si <-? Segment.open_append crc32c file valid_end chunk header_sizes ;;
  let '(sf, info) := si in
  enc <-? resume (contents sf) (Codec.starting_sequence info) (anchor_hash info) last_seq
            valid_end sizes ;;
  Ok {| encoder := enc; segment := sf; batch_buf := empty_batch |}.

(** On an error the entry is refused: at most the buffer has grown. *)
Definition encode_event (w : BufferedWriter) (seq ts : Z) (ev : JournalEvent E) (key : Z)
    : result unit JournalError * BufferedWriter :=
  let headroom := (length (batch_buf w) - batch_len (encoder w))%nat in
  let buf := if (headroom <? entry_size (E:=E))%nat then batch_buf w ++ empty_batch
             else batch_buf w in
  match Encoder.encode_event crc32c (encoder w) buf seq ts ev key with
  | Ok (enc, buf) => (Ok tt, {| encoder := enc; segment := segment w; batch_buf := buf |})
  | Err e => (Err e, {| encoder := encoder w; segment := segment w; batch_buf := buf |})
  end.

(** The sequence is consumed whether or not the event encodes. *)
Definition batch_append_with_ts (w : BufferedWriter) (ev : JournalEvent E) (ts key : Z)
    : result Z JournalError * BufferedWriter :=
  let '(seq, enc) := allocate_sequence (encoder w) in
  let '(r, w) := encode_event {| encoder := enc; segment := segment w; batch_buf := batch_buf w |}
                   seq ts ev key in
  (_ <-? r ;; Ok seq, w).

Definition flush_batch_sync (w : BufferedWriter) (sizes : list nat)
    : result BufferedWriter JournalError :=
  if (batch_len (encoder w) =? 0)%nat then Ok w
  else
    sf <-? write_batch (segment w) (pending_batch_bytes (encoder w) (batch_buf w)) sizes ;;
    Ok {| encoder := clear_batch (encoder w); segment := sf; batch_buf := batch_buf w |}.

(** [append], at time [now]. *)
Definition append (w : BufferedWriter) (ev : JournalEvent E) (now : Z) (sizes : list nat)
    : result (Z * BufferedWriter) JournalError :=
  let '(r, w) := batch_append_with_ts w ev now 0 in
  seq <-? r ;;
  w <-? flush_batch_sync w sizes ;;
  Ok (seq, w).

Definition discard_batch_buf (w : BufferedWriter) : BufferedWriter :=
  {| encoder := clear_batch (encoder w); segment := segment w; batch_buf := batch_buf w |}.

(** [rotate_segment_inner]: the archived file and the writer on the new segment. *)
Definition rotate_segment (w : BufferedWriter) (prepared : option PreparedSegment)
    (sizes header_sizes : list nat) : result (list Z * BufferedWriter) JournalError :=
  w <-? flush_batch_sync w sizes ;;
  let next_seq := next_sequence (encoder w) in
  let anchor := Chain.value blake3 (hash_chain (encoder w)) in
  r <-? rotate crc32c (segment w) prepared next_seq anchor header_sizes ;;
  Ok (fst r, {| encoder := begin_segment (encoder w) next_seq anchor; segment := snd r;
                batch_buf := batch_buf w |}).
End writer.
End Writer.

(** ** What the writer keeps true

    A segment is its header, the entries it holds with consecutive sequence
    numbers, and zeros. *)
Module Stream.
Import Io Encoder Segment Writer Codec.Facts.
Section stream.
Context {E : Type} `{AppEvent E}.
Context (crc32c : list Z -> Z) (blake3 : list Z -> list Z).
Hypothesis crc_range : forall bs, in_u32 (crc32c bs).
Hypothesis blake3_length : forall bs, length (blake3 bs) = 32%nat.
Context `{!AppEventLaws E}.
Hypothesis fits_one_entry : (entry_size (E:=E) <= MAX_ENTRY_SIZE)%nat.

(** A journaled event with its timestamp and key. *)
Definition item : Type := Z * Z * JournalEvent E.

Definition item_ok (it : item) : Prop :=
  let '(ts, key, ev) := it in in_u64 ts /\ in_u64 key /\ event_ok ev = true.

Definition frame (seq : Z) (it : item) : list Z :=
  let '(ts, key, ev) := it in
  match encode crc32c MAX_ENTRY_SIZE seq ts key ev with Ok bs => bs | Err _ => [] end.

Fixpoint stream (seq : Z) (items : list item) : list Z :=
  match items with [] => [] | it :: rest => frame seq it ++ stream (seq + 1) rest end.

Lemma stream_app seq xs ys :
  stream seq (xs ++ ys) = stream seq xs ++ stream (seq + Z.of_nat (length xs)) ys.
Proof using Type.
  clear.
  revert seq. induction xs as [|x xs IH]; intros seq; cbn [stream app length].
  - by rewrite Z.add_0_r.
  - rewrite IH, <- app_assoc. do 3 f_equal. lia.
Qed.

Lemma stream_one seq it : stream seq [it] = frame seq it.
Proof. cbn. by rewrite app_nil_r. Qed.

Lemma frame_encodes seq it ts key ev :
  it = (ts, key, ev) -> item_ok it ->
  encode crc32c MAX_ENTRY_SIZE seq ts key ev = Ok (frame seq it) /\
  (33 <= length (frame seq it) <= entry_size (E:=E))%nat.
Proof.
  intros -> (Hts & Hkey & Hok).
  destruct (encode_fits crc32c MAX_ENTRY_SIZE seq ts key ev Hok fits_one_entry fits_one_entry)
    as (bs & He & Hl).
  cbn [frame]. rewrite He. split_and!; [done| |done].
  destruct (encode_frames _ _ _ _ _ _ _ He) as (tag & payload & _ & _ & ->).
  rewrite entry_bytes_length. lia.
Qed.

Lemma frame_decodes seq ts key ev rest :
  item_ok (ts, key, ev) -> in_u64 seq ->
  decode crc32c (frame seq (ts, key, ev) ++ rest)
  = Ok (length (frame seq (ts, key, ev)), seq, ts, key, ev).
Proof.
  intros Hit Hseq. destruct (frame_encodes seq _ ts key ev eq_refl Hit) as [He _].
  destruct Hit as (Hts & Hkey & Hok). by eapply decode_encode_entry.
Qed.

Definition header (start : Z) (anchor : list Z) (g : option Z) : list Z :=
  encode_file_header crc32c MAX_SECTOR_SIZE start anchor g.

(** A writer whose segment holds [flushed] on disk and [pending] in its batch. *)
Record winv (w : BufferedWriter) (start : Z) (anchor : list Z) (flushed pending : list item) : Prop := {
  wi_items : Forall item_ok (flushed ++ pending);
  wi_range : 1 <= start /\ start + Z.of_nat (length (flushed ++ pending)) <= u64_max;
  wi_header : header_ok MAX_SECTOR_SIZE start anchor (genesis (segment w));
  wi_start : starting_sequence (encoder w) = start;
  wi_next : next_sequence (encoder w) = start + Z.of_nat (length (flushed ++ pending));
  wi_last : last_encoded_seq (encoder w) = start + Z.of_nat (length (flushed ++ pending)) - 1;
  wi_chain : hash_chain (encoder w) =
    {| Chain.anchor := anchor; Chain.absorbed := stream start (flushed ++ pending);
       Chain.dirty := negb (length (flushed ++ pending) =? 0)%nat |};
  wi_file : exists pad,
    contents (segment w) = header start anchor (genesis (segment w)) ++ stream start flushed ++ replicate pad 0;
  wi_pos : write_pos (segment w) = (ENTRY_OFFSET + length (stream start flushed))%nat;
  wi_room : (batch_len (encoder w) <= length (batch_buf w))%nat;
  wi_batch : pending_batch_bytes (encoder w) (batch_buf w)
             = stream (start + Z.of_nat (length flushed)) pending
}.

Lemma header_length start anchor g :
  header_ok MAX_SECTOR_SIZE start anchor g -> length (header start anchor g) = ENTRY_OFFSET.
Proof. intros Hok. by destruct (file_header_round_trip crc32c crc_range _ _ _ _ Hok) as [Hl _]. Qed.

Lemma batch_len_length w start anchor flushed pending :
  winv w start anchor flushed pending ->
  batch_len (encoder w) = length (stream (start + Z.of_nat (length flushed)) pending).
Proof.
  intros Hw. rewrite <- (wi_batch _ _ _ _ _ Hw). unfold pending_batch_bytes.
  rewrite length_take. pose proof (wi_room _ _ _ _ _ Hw). lia.
Qed.

Lemma capacity_covers_entry : (MAX_ENTRY_SIZE <= length empty_batch)%nat.
Proof.
  unfold empty_batch, BATCH_BUF_CAPACITY, MAX_ENTRY_SIZE. rewrite length_replicate. lia.
Qed.

(** The encoder on a destination with room: the entry lands after the batch. *)
Lemma encoder_appends enc dst seq it ts key ev :
  it = (ts, key, ev) -> item_ok it -> last_encoded_seq enc < seq ->
  (batch_len enc + entry_size (E:=E) <= length dst)%nat ->
  exists enc' dst', Encoder.encode_event crc32c enc dst seq ts ev key = Ok (enc', dst') /\
    next_sequence enc' = next_sequence enc /\ starting_sequence enc' = starting_sequence enc /\
    last_encoded_seq enc' = seq /\ hash_chain enc' = Chain.absorb (hash_chain enc) (frame seq it) /\
    batch_len enc' = (batch_len enc + length (frame seq it))%nat /\
    (batch_len enc' <= length dst')%nat /\
    pending_batch_bytes enc' dst' = pending_batch_bytes enc dst ++ frame seq it /\
    last_user_entry_replication_slice enc' dst' = drop ENTRY_MAGIC_SIZE (frame seq it).
Proof.
  intros -> Hit Hlast Hroom.
  destruct (frame_encodes seq _ ts key ev eq_refl Hit) as [He [Hlo Hhi]].
  set (bs := frame seq (ts, key, ev)) in *.
  unfold Encoder.encode_event. rewrite (proj2 (Z.leb_gt _ _)), He by done. cbn [rbind].
  rewrite (proj2 (Nat.ltb_ge _ _)) by lia.
  set (dst' := take (batch_len enc) dst ++ bs ++ drop (batch_len enc + length bs) dst).
  assert (Hpre : length (take (batch_len enc) dst) = batch_len enc) by (rewrite length_take; lia).
  eexists _, dst'. split; [done|]. unfold pending_batch_bytes, last_user_entry_replication_slice.
  cbn [batch_len next_sequence starting_sequence hash_chain last_encoded_seq
       last_user_entry_offset last_user_entry_len].
  split_and!; [done..| | |].
  - unfold dst'. rewrite !length_app, Hpre, length_drop. lia.
  - unfold dst'. rewrite app_assoc, take_app_length' by (rewrite length_app; lia). done.
  - rewrite (proj2 (Nat.eqb_neq _ _)) by lia. unfold dst', ENTRY_MAGIC_SIZE.
    rewrite drop_app_add' by lia. rewrite drop_app_le by lia.
    by rewrite take_app_length' by (rewrite length_drop; lia).
Qed.

Lemma batch_append_keeps w start anchor flushed pending ts key ev :
  winv w start anchor flushed pending -> item_ok (ts, key, ev) ->
  start + Z.of_nat (length (flushed ++ pending)) < u64_max ->
  exists w', batch_append_with_ts crc32c w ev ts key
      = (Ok (start + Z.of_nat (length (flushed ++ pending))), w') /\
    winv w' start anchor flushed (pending ++ [(ts, key, ev)]) /\ segment w' = segment w /\
    last_user_entry_replication_slice (encoder w') (batch_buf w') =
      drop ENTRY_MAGIC_SIZE (frame (start + Z.of_nat (length (flushed ++ pending))) (ts, key, ev)).
Proof.
  intros Hw Hit Hmax. set (seq := start + Z.of_nat (length (flushed ++ pending))) in *.
  unfold batch_append_with_ts, encode_event.
  set (enc := snd (allocate_sequence (encoder w))).
  change (allocate_sequence (encoder w)) with (next_sequence (encoder w), enc).
  cbn [encoder segment batch_buf]. rewrite (wi_next _ _ _ _ _ Hw). fold seq.
  set (buf := if (length (batch_buf w) - batch_len enc <? entry_size)%nat
              then batch_buf w ++ empty_batch else batch_buf w).
  pose proof capacity_covers_entry as Hcap. pose proof (wi_room _ _ _ _ _ Hw) as Hroom.
  assert (Hbuf : (batch_len enc + entry_size (E:=E) <= length buf)%nat /\
                 take (batch_len enc) buf = pending_batch_bytes (encoder w) (batch_buf w)).
  { change (batch_len enc) with (batch_len (encoder w)) in *. unfold buf, pending_batch_bytes.
    destruct (_ <? entry_size)%nat eqn:Hh; [apply Nat.ltb_lt in Hh|apply Nat.ltb_ge in Hh].
    - rewrite length_app, take_app_le by lia. split; [lia|done].
    - split; [lia|done]. }
  destruct Hbuf as [Hlen Hpre].
  destruct (encoder_appends enc buf seq (ts, key, ev) ts key ev eq_refl Hit) as
    (enc' & dst' & -> & Hn & Hst & Hl & Hc & _ & Hr & Hb & Hs).
  { unfold enc, allocate_sequence. cbn [snd last_encoded_seq]. rewrite (wi_last _ _ _ _ _ Hw). lia. }
  { done. }
  eexists. split; [done|]. cbn [encoder segment batch_buf].
  assert (Hlen' : Z.of_nat (length (flushed ++ pending ++ [(ts, key, ev)]))
                  = Z.of_nat (length (flushed ++ pending)) + 1)
    by (rewrite app_assoc, length_app; cbn; lia).
  split; [|done]. destruct (wi_range _ _ _ _ _ Hw) as [Hs1 Hs2].
  split; cbn [encoder segment batch_buf].
  - rewrite app_assoc. apply Forall_app; split; [apply (wi_items _ _ _ _ _ Hw)|by constructor].
  - rewrite Hlen'. lia.
  - apply (wi_header _ _ _ _ _ Hw).
  - rewrite Hst. apply (wi_start _ _ _ _ _ Hw).
  - rewrite Hn, Hlen'. unfold enc, allocate_sequence. cbn [snd next_sequence]. unfold wrapping_add. rewrite (wi_next _ _ _ _ _ Hw).
    rewrite Z.mod_small by (widths; lia). lia.
  - rewrite Hl, Hlen'. unfold seq. lia.
  - rewrite Hc. unfold enc, allocate_sequence. cbn [snd hash_chain]. rewrite (wi_chain _ _ _ _ _ Hw). unfold Chain.absorb.
    cbn [Chain.anchor Chain.absorbed].
    rewrite app_assoc, (stream_app start (flushed ++ pending)), stream_one. fold seq. f_equal.
    rewrite length_app. cbn. by rewrite (proj2 (Nat.eqb_neq _ _)) by lia.
  - apply (wi_file _ _ _ _ _ Hw).
  - apply (wi_pos _ _ _ _ _ Hw).
  - done.
  - rewrite Hb. unfold pending_batch_bytes at 1. rewrite Hpre, (wi_batch _ _ _ _ _ Hw), stream_app, stream_one.
    do 2 f_equal. unfold seq. rewrite length_app. lia.
Qed.

(** Appending into the zeros past the data. *)
Lemma write_at_zeros pre pad bytes :
  write_at (pre ++ replicate pad 0) (length pre) bytes
  = pre ++ bytes ++ replicate (pad - length bytes) 0.
Proof using Type.
  clear.
  unfold write_at. rewrite take_app_length, length_app, length_replicate.
  replace (length pre - _)%nat with 0%nat by lia. cbn [replicate app].
  by rewrite drop_app_add, drop_replicate.
Qed.

Lemma fallocate_zeros pre pad from chunk :
  exists pad', fallocate (pre ++ replicate pad 0) from chunk = pre ++ replicate pad' 0.
Proof using Type.
  clear.
  unfold fallocate. rewrite <- app_assoc, <- replicate_add. by eexists.
Qed.

Lemma ensure_allocated_zeros sf pre pad n :
  contents sf = pre ++ replicate pad 0 ->
  exists pad', contents (ensure_allocated sf n) = pre ++ replicate pad' 0 /\
    write_pos (ensure_allocated sf n) = write_pos sf /\
    genesis (ensure_allocated sf n) = genesis sf.
Proof using Type.
  clear.
  intros Hc. unfold ensure_allocated. destruct (_ <=? _)%nat; [by exists pad|].
  cbn [fallocate_chunk contents write_pos genesis]. rewrite Hc.
  destruct (fallocate_zeros pre pad (allocated_end sf) (prealloc sf)) as [pad' ->]. by exists pad'.
Qed.

Lemma write_batch_lands sf pre pad bytes sizes :
  contents sf = pre ++ replicate pad 0 -> write_pos sf = length pre -> Forall (lt 0) sizes ->
  exists sf' pad', write_batch sf bytes sizes = Ok sf' /\
    contents sf' = pre ++ bytes ++ replicate pad' 0 /\
    write_pos sf' = length (pre ++ bytes) /\ genesis sf' = genesis sf.
Proof.
  intros Hc Hp Hs. unfold write_batch. destruct (length bytes =? 0)%nat eqn:Hz.
  { apply Nat.eqb_eq, nil_length_inv in Hz as ->. exists sf, pad. by rewrite app_nil_r. }
  destruct (ensure_allocated_zeros sf pre pad (length bytes) Hc) as (pad1 & Hc1 & Hp1 & Hg1).
  set (sf1 := ensure_allocated sf (length bytes)) in *.
  destruct (write_all_at_loop_lands (length bytes) (contents sf1) bytes 0 (write_pos sf1) sizes)
    as (rest & Hw & _); [lia|lia|rewrite Hc1, Hp1, Hp, length_app; lia|done|].
  unfold write_all_at. rewrite Hw, Nat.add_0_r, drop_0. cbn [rbind].
  eexists _, _. split; [done|]. cbn [advance contents write_pos genesis fst].
  rewrite Hp1, Hp, Hc1, write_at_zeros, length_app. done.
Qed.

Lemma vectored_lands sf pre pad bufs sizes :
  contents sf = pre ++ replicate pad 0 -> write_pos sf = length pre -> Forall (lt 0) sizes -> concat bufs <> [] ->
  exists sf' pad', write_vectored sf bufs sizes = Ok sf' /\
    contents sf' = pre ++ concat bufs ++ replicate pad' 0 /\
    write_pos sf' = length (pre ++ concat bufs) /\ genesis sf' = genesis sf.
Proof using Type.
  clear. intros Hc Hp Hs Hne. unfold write_vectored.
  destruct (length (concat bufs) =? 0)%nat eqn:Hz; [by apply Nat.eqb_eq, nil_length_inv in Hz|].
  destruct (ensure_allocated_zeros sf pre pad (length (concat bufs)) Hc) as (pad1 & Hc1 & Hp1 & Hg1).
  destruct (write_all_vectored_loop_lands (length (concat bufs)) (contents (ensure_allocated sf (length (concat bufs))))
    bufs (length pre) sizes) as (rest & Hw & _); [lia|done|rewrite Hc1, length_app; lia|done|].
  unfold write_all_vectored_at. rewrite Hp1, Hp, Hw. cbn [rbind fst]. eexists _, _. split; [done|].
  cbn [advance contents write_pos genesis]. rewrite Hc1, write_at_zeros, Hp1, Hp, length_app. by split_and!.
Qed.

Lemma flush_keeps w start anchor flushed pending sizes :
  winv w start anchor flushed pending -> Forall (lt 0) sizes ->
  exists w', flush_batch_sync w sizes = Ok w' /\ winv w' start anchor (flushed ++ pending) [] /\
    next_sequence (encoder w') = next_sequence (encoder w) /\
    hash_chain (encoder w') = hash_chain (encoder w) /\
    genesis (segment w') = genesis (segment w).
Proof.
  intros Hw Hs. pose proof (batch_len_length _ _ _ _ _ Hw) as Hbl.
  destruct (wi_file _ _ _ _ _ Hw) as [pad Hfile].
  pose proof (wi_header _ _ _ _ _ Hw) as Hh. pose proof (wi_batch _ _ _ _ _ Hw) as Hb.
  pose proof (header_length _ _ _ Hh) as Hhl.
  assert (Hstream : stream start (flushed ++ pending) =
    stream start flushed ++ stream (start + Z.of_nat (length flushed)) pending) by apply stream_app.
  rewrite app_assoc in Hfile.
  set (pre := header start anchor (genesis (segment w)) ++ stream start flushed) in *.
  destruct (write_batch_lands (segment w) pre pad (pending_batch_bytes (encoder w) (batch_buf w)) sizes)
    as (sf' & pad' & Hwb & Hc' & Hp' & Hg'); [done| |done|].
  { rewrite (wi_pos _ _ _ _ _ Hw). unfold pre. rewrite length_app. lia. }
  unfold flush_batch_sync. destruct (batch_len (encoder w) =? 0)%nat eqn:Hz.
  - apply Nat.eqb_eq in Hz. rewrite Hz in Hbl. symmetry in Hbl. apply nil_length_inv in Hbl.
    exists w. split; [done|]. split; [|done]. rewrite Hbl, app_nil_r in Hstream.
    destruct Hw. split; rewrite ?app_nil_r; try done.
    + exists pad. unfold pre in Hfile. rewrite Hstream, Hfile. by rewrite <- app_assoc.
    + by rewrite Hstream.
    + unfold pending_batch_bytes. by rewrite Hz.
  - rewrite Hwb. cbn [rbind]. eexists. split; [done|]. split; [|done].
    destruct Hw. split; cbn [encoder segment batch_buf clear_batch next_sequence starting_sequence
      hash_chain last_encoded_seq batch_len]; rewrite ?app_nil_r, ?Hg'; try done.
    + exists pad'. rewrite Hc', Hb, Hstream. unfold pre. by rewrite <- !app_assoc.
    + rewrite Hp', Hb, Hstream. unfold pre. rewrite !length_app. lia.
    + lia.
Qed.

Lemma write_header_zeros n start anchor g sizes :
  header_ok MAX_SECTOR_SIZE start anchor g -> Forall (lt 0) sizes ->
  exists pad rest, write_header crc32c (replicate n 0) start anchor g sizes
    = Ok (header start anchor g ++ replicate pad 0, rest).
Proof using Type.
  clear fits_one_entry.
  intros Hh Hs. unfold write_header, write_all_at. fold (header start anchor g).
  destruct (write_all_at_loop_lands (length (header start anchor g)) (replicate n 0)
              (header start anchor g) 0 0 sizes) as (rest & Hw & _); [lia..|done|].
  rewrite Hw. cbn [Nat.add]. rewrite drop_0. exists (n - length (header start anchor g))%nat, rest.
  do 2 f_equal. apply (write_at_zeros [] n).
Qed.

(** A writer just placed on an empty segment. *)
Lemma fresh_segment_inv enc sf buf start anchor pad :
  header_ok MAX_SECTOR_SIZE start anchor (genesis sf) -> 1 <= start <= u64_max ->
  contents sf = header start anchor (genesis sf) ++ replicate pad 0 ->
  write_pos sf = HEADER_OFFSET ->
  starting_sequence enc = start -> next_sequence enc = start -> last_encoded_seq enc = start - 1 ->
  hash_chain enc = Chain.new anchor -> batch_len enc = 0%nat ->
  winv {| encoder := enc; segment := sf; batch_buf := buf |} start anchor [] [].
Proof.
  intros Hh Hs Hc Hp H1 H2 H3 H4 H5.
  split; cbn [encoder segment batch_buf app length Z.of_nat stream]; rewrite ?H5, ?H2, ?H3, ?Hp; try done; try lia.
  - by exists pad.
  - unfold pending_batch_bytes. by rewrite H5.
Qed.

Lemma create_keeps start anchor g chunk sizes :
  header_ok MAX_SECTOR_SIZE start anchor g -> 1 <= start <= u64_max -> Forall (lt 0) sizes ->
  exists w, create_continuing crc32c start anchor g chunk sizes = Ok w /\
    winv w start anchor [] [] /\ genesis (segment w) = g.
Proof.
  intros Hh Hr Hs. destruct (write_header_zeros chunk start anchor g sizes Hh Hs) as (pad & rest & Hw).
  unfold create_continuing, Segment.create_continuing. cbn [fallocate_chunk].
  change (fallocate [] 0 chunk) with (replicate (chunk - 0) 0). rewrite Nat.sub_0_r, Hw. cbn [rbind fst].
  eexists; split; [done|]. split; [|done].
  eapply fresh_segment_inv; try done. unfold Encoder.new. cbn. unfold sat_sub. lia.
Qed.

Lemma chain_value_length c :
  length (Chain.anchor c) = 32%nat -> length (Chain.value blake3 c) = 32%nat.
Proof. unfold Chain.value. by destruct (Chain.dirty c). Qed.

Lemma install_zeros sf prepared start anchor sizes :
  header_ok MAX_SECTOR_SIZE start anchor (genesis sf) -> Forall (lt 0) sizes ->
  exists sf' pad,
    match prepared with
    | Some p => install_prepared crc32c sf p start anchor sizes
    | None => install_fresh crc32c sf start anchor sizes
    end = Ok sf' /\
    contents sf' = header start anchor (genesis sf) ++ replicate pad 0 /\
    write_pos sf' = HEADER_OFFSET /\ genesis sf' = genesis sf.
Proof using Type.
  clear fits_one_entry.
  intros Hh Hs. destruct prepared as [p|].
  - destruct (write_header_zeros (staged_end p) _ _ _ _ Hh Hs) as (pad & rest & Hw).
    unfold install_prepared. rewrite Hw. cbn [rbind fst]. by eexists _, pad.
  - destruct (write_header_zeros (prealloc sf) _ _ _ _ Hh Hs) as (pad & rest & Hw).
    unfold install_fresh, Segment.create_continuing. cbn [fallocate_chunk].
    change (fallocate [] 0 (prealloc sf)) with (replicate (prealloc sf - 0) 0).
    rewrite Nat.sub_0_r, Hw. cbn [rbind fst]. by eexists _, pad.
Qed.

Lemma set_len_data (pre : list Z) pad : set_len (pre ++ replicate pad 0) (length pre) = pre.
Proof using Type.
  clear.
  unfold set_len. rewrite take_app_length, length_app.
  replace (length pre - _)%nat with 0%nat by lia. by rewrite app_nil_r.
Qed.

(** Rotation seals exactly the data and starts the next segment on its chain. *)
Lemma rotate_keeps w start anchor flushed pending prepared sizes header_sizes :
  winv w start anchor flushed pending -> Forall (lt 0) sizes -> Forall (lt 0) header_sizes ->
  let items := flushed ++ pending in
  let tail := Chain.value blake3 (hash_chain (encoder w)) in
  exists w', rotate_segment crc32c blake3 w prepared sizes header_sizes
      = Ok (header start anchor (genesis (segment w)) ++ stream start items, w') /\
    winv w' (start + Z.of_nat (length items)) tail [] [] /\
    genesis (segment w') = genesis (segment w).
Proof.
  intros Hw Hs Hhs items tail.
  destruct (flush_keeps _ _ _ _ _ _ Hw Hs) as (w1 & Hf & Hw1 & Hn & Hc & Hg).
  unfold rotate_segment. rewrite Hf. cbn [rbind]. rewrite Hc, Hn, (wi_next _ _ _ _ _ Hw). fold tail items.
  pose proof (wi_range _ _ _ _ _ Hw) as Hr. fold items in Hr.
  destruct (wi_header _ _ _ _ _ Hw) as (_ & _ & Ha & Hgen).
  assert (Hh : header_ok MAX_SECTOR_SIZE (start + Z.of_nat (length items)) tail (genesis (segment w1))).
  { rewrite Hg. split_and!; [by right|widths; lia..| |done].
    apply chain_value_length. by rewrite (wi_chain _ _ _ _ _ Hw). }
  destruct (install_zeros (segment w1) prepared _ _ header_sizes Hh Hhs) as (sf' & pad' & Hi & Hc' & Hp' & Hg').
  unfold rotate. rewrite Hi. cbn [rbind fst snd].
  destruct (wi_file _ _ _ _ _ Hw1) as [pad Hfile]. fold items in Hfile.
  assert (Hsl : set_len (contents (segment w1)) (write_pos (segment w1))
                = header start anchor (genesis (segment w)) ++ stream start items).
  { rewrite Hfile, (wi_pos _ _ _ _ _ Hw1), app_assoc. fold items.
    rewrite <- (header_length _ _ _ (wi_header _ _ _ _ _ Hw1)), <- length_app, set_len_data. by rewrite Hg. }
  rewrite Hsl. eexists. split; [done|]. cbn [segment]. rewrite Hg', Hg. split; [|done].
  eapply (fresh_segment_inv _ sf'); rewrite ?Hg'; try done; try lia.
  - unfold begin_segment. cbn. rewrite Hn. apply (wi_next _ _ _ _ _ Hw).
  - unfold begin_segment. cbn. rewrite (wi_last _ _ _ _ _ Hw1), app_nil_r. unfold items. lia.
Qed.

Lemma header_read start anchor g rest header_sizes :
  header_ok MAX_SECTOR_SIZE start anchor g ->
  match header_sizes with [] => True | s :: _ => (FILE_HEADER_SIZE <= s)%nat end ->
  exists sizes, read_at (header start anchor g ++ rest) 0 FILE_HEADER_SIZE header_sizes
    = (take FILE_HEADER_SIZE (header start anchor g), sizes) /\
  length (take FILE_HEADER_SIZE (header start anchor g)) = FILE_HEADER_SIZE /\
  decode_file_header crc32c (take FILE_HEADER_SIZE (header start anchor g)) =
    Ok {| sector_size := MAX_SECTOR_SIZE; Codec.starting_sequence := start; anchor_hash := anchor;
          genesis_entries := g |}.
Proof.
  clear fits_one_entry. intros Hh Hs. pose proof (header_length _ _ _ Hh) as Hl.
  assert (Ht : take FILE_HEADER_SIZE (header start anchor g ++ rest)
               = take FILE_HEADER_SIZE (header start anchor g)).
  { apply take_app_le. rewrite Hl. unfold FILE_HEADER_SIZE, ENTRY_OFFSET. lia. }
  destruct (file_header_round_trip crc32c crc_range _ _ _ _ Hh) as (_ & _ & Hd).
  destruct header_sizes as [|s sizes]; cbn [read_at]; rewrite drop_0.
  - exists []. rewrite Ht. split_and!; [done| |done]. rewrite length_take, Hl.
    unfold FILE_HEADER_SIZE, ENTRY_OFFSET. lia.
  - exists sizes. rewrite Nat.min_l, Ht by lia. split_and!; [done| |done]. rewrite length_take, Hl.
    unfold FILE_HEADER_SIZE, ENTRY_OFFSET. lia.
Qed.

Lemma truncated (pre junk : list Z) :
  (if (length pre <? length (pre ++ junk))%nat then take (length pre) (pre ++ junk)
   else pre ++ junk) = pre.
Proof.
  destruct (_ <? _)%nat eqn:Hl; [apply take_app_length|].
  apply Nat.ltb_ge in Hl. rewrite length_app in Hl.
  assert (length junk = 0)%nat as ->%nil_length_inv by lia. apply app_nil_r.
Qed.

(** Reopening after recovery: what follows [valid_end] is discarded. *)
Lemma open_append_keeps start anchor g items junk chunk header_sizes sizes :
  header_ok MAX_SECTOR_SIZE start anchor g -> Forall item_ok items ->
  1 <= start -> start + Z.of_nat (length items) <= u64_max ->
  match header_sizes with [] => True | s :: _ => (FILE_HEADER_SIZE <= s)%nat end ->
  exists w, open_append crc32c (header start anchor g ++ stream start items ++ junk)
      (start + Z.of_nat (length items) - 1) (ENTRY_OFFSET + length (stream start items))
      chunk header_sizes sizes = Ok w /\
    winv w start anchor items [] /\ genesis (segment w) = g.
Proof.
  intros Hh Hit Hs Hmax Hhs. pose proof (header_length _ _ _ Hh) as Hl.
  destruct (header_read start anchor g (stream start items ++ junk) header_sizes Hh Hhs)
    as (sizes' & Hr & Hrl & Hd).
  unfold open_append, Segment.open_append. rewrite Hr, Hrl, Nat.ltb_irrefl, Hd. cbn [rbind].
  set (pre := header start anchor g ++ stream start items).
  rewrite app_assoc. fold pre.
  replace (ENTRY_OFFSET + length (stream start items))%nat with (length pre)
    by (unfold pre; rewrite length_app; lia).
  rewrite truncated. cbn [fallocate_chunk rbind contents Codec.starting_sequence anchor_hash genesis_entries].
  destruct (fallocate_zeros pre 0 (length pre) chunk) as [pad Hf]. cbn [replicate] in Hf.
  rewrite app_nil_r in Hf. rewrite Hf. unfold resume.
  rewrite Chain.rebuild_absorbs by (rewrite length_app; unfold pre; rewrite length_app; lia).
  cbn [rbind]. eexists. split; [done|]. split; [|done].
  assert (Hsub : take (length pre - ENTRY_OFFSET) (drop ENTRY_OFFSET (pre ++ replicate pad 0))
                 = stream start items).
  { unfold pre. rewrite <- app_assoc, drop_app_length' by lia. apply take_app_length'.
    rewrite length_app. lia. }
  split; cbn [encoder segment batch_buf starting_sequence next_sequence last_encoded_seq hash_chain
              genesis contents write_pos batch_len]; rewrite ?app_nil_r; try done.
  - unfold wrapping_add. rewrite Z.mod_small by (widths; lia). lia.
  - rewrite Hsub. f_equal. destruct items as [|it items].
    + rewrite bool_decide_false; [done|]. unfold pre. rewrite length_app. cbn [stream length]. lia.
    + rewrite bool_decide_true; [done|]. unfold pre. rewrite length_app. cbn [stream].
      apply Forall_cons_1 in Hit as [Hit _]. destruct it as [[ts key] ev].
      destruct (frame_encodes start _ ts key ev eq_refl Hit) as [_ Hlen]. rewrite length_app. lia.
  - exists pad. unfold pre. by rewrite <- app_assoc.
  - unfold pre. rewrite length_app. lia.
  - lia.
Qed.
End stream.
End Stream.
