(* ===== verification/Wire.v ===== *)
(** * Shipping the journal to replicas

    [Wire] is the [InputBatch] frame ([transport-core/src/replication_wire.rs])
    and the accumulator the journal stage builds it in
    ([SequencerCore::record_slot_for_replication], [pipeline.rs]); [Mirror]
    puts a primary's writer, the frame and a replica's writer together.
    [crc32c_append(crc32c(a), b)] is the crate's CRC of [a] followed by [b]. *)

From S2P Require Import Prelude Lineage Stages Codec Journal.
Import Lineage.Event Codec.Le Codec.Codec Stages.Journaling.

Module Wire.

Definition MSG_INPUT_BATCH : Z := 0x21.
Definition FRAME_HEADER_LEN : nat := 7.
Definition SLOT_HEADER_LEN : nat := 27.

(** The fixed sites of a framing refusal. *)
Inductive FramingSite :=
| EmptyFrame | HeaderTruncated | SlotHeaderTruncated | LengthBelowMeta | SlotTruncated | TrailingBytes.

Inductive InputBatchError :=
| NotInputBatch (tag : Z)
| Framing (site : FramingSite)
| Malformed (sequence : Z)
| Corrupted (sequence shipped_crc received : Z)
| NotRoundTrip (sequence shipped_crc reencoded_crc : Z).

Definition is_transit_damage (e : InputBatchError) : bool :=
  match e with Corrupted _ _ _ | Framing _ => true | _ => false end.

(** The frame under construction: [input_batch_buf], [input_batch_count]. *)
Record Accum := { input_batch_buf : list Z; input_batch_count : Z }.

Definition init_input_batch : list Z := replicate FRAME_HEADER_LEN 0.

(** [None] is the panic on a 65,536th slot. *)
Definition record_slot_for_replication (any_producer : bool) (acc : Accum) (slice : list Z)
    : option Accum :=
  if negb any_producer then Some acc
  else
    let buf := if input_batch_count acc =? 0 then init_input_batch else input_batch_buf acc in
    if input_batch_count acc =? u16_max then None
    else Some {| input_batch_buf := buf ++ slice; input_batch_count := input_batch_count acc + 1 |}.

Definition finalize_input_batch (buf : list Z) (slot_count : Z) : list Z :=
  le 4 (Z.of_nat (length buf - 4)) ++ [MSG_INPUT_BATCH] ++ le 2 slot_count
  ++ drop FRAME_HEADER_LEN buf.

(** [publish_input_batch_to_rings]: the frame for the rings, and the reset. *)
Definition publish_input_batch (acc : Accum) : option (list Z) * Accum :=
  if input_batch_count acc =? 0 then (None, acc)
  else (Some (finalize_input_batch (input_batch_buf acc) (input_batch_count acc)),
        {| input_batch_buf := []; input_batch_count := 0 |}).

Section wire.
Context {E : Type} `{AppEvent E}.
Context (crc32c : list Z -> Z).

(** [encode_input_batch_from_journal]: the slots of whole journal entries. *)
Fixpoint journal_slots (fuel : nat) (journal_bytes : list Z) (count : Z)
    : result (list Z * Z) JournalError :=
  match journal_bytes, fuel with
  | [], _ => Ok ([], count)
  | _, O => Err Io
  | _, S fuel =>
    d <-? decode (E:=E) crc32c journal_bytes ;;
    let '(consumed, _, _, _, _) := d in
    if count =? u16_max then Err Io
    else
      r <-? journal_slots fuel (drop consumed journal_bytes) (count + 1) ;;
      Ok (drop ENTRY_MAGIC_SIZE (take consumed journal_bytes) ++ fst r, snd r)
  end.

Definition encode_input_batch_from_journal (journal_bytes : list Z) : result (list Z * Z) JournalError :=
  r <-? journal_slots (length journal_bytes) journal_bytes 0 ;;
  Ok (finalize_input_batch (init_input_batch ++ fst r) (snd r), snd r).

Definition received_crc (slot_body : list Z) : Z := crc32c (le 2 ENTRY_MAGIC ++ slot_body).

Definition refused (sequence : Z) (slot_body : list Z) (shipped_crc : Z) : InputBatchError :=
  if negb (received_crc slot_body =? shipped_crc)
  then Corrupted sequence shipped_crc (received_crc slot_body)
  else Malformed sequence.

(** One turn of the decode loop: the slot and the bytes after it. *)
Definition decode_slot (rest : list Z) : result (InputSlot E * list Z) InputBatchError :=
  guard? negb (length rest <? SLOT_HEADER_LEN)%nat else Framing SlotHeaderTruncated ;;
  let after_header := drop SLOT_HEADER_LEN rest in
  let len := Z.to_nat (field 0 2 rest) in
  guard? negb (len <? ENTRY_META_SIZE)%nat else Framing LengthBelowMeta ;;
  let payload_size := (len - ENTRY_META_SIZE)%nat in
  guard? negb (length after_header <? payload_size + CRC_SIZE)%nat else Framing SlotTruncated ;;
  let slot_body := take (SLOT_HEADER_LEN + payload_size) rest in
  let event_payload := take payload_size after_header in
  let shipped_crc := field payload_size 4 after_header in
  let rest' := drop (payload_size + CRC_SIZE) after_header in
  let seq := field 2 8 rest in
  let ts := field 10 8 rest in
  let key := field 18 8 rest in
  match decode_event (field 26 1 rest) event_payload with
  | Err _ => Err (refused seq slot_body shipped_crc)
  | Ok ev =>
    match encode crc32c MAX_ENTRY_SIZE seq ts key ev with
    | Err _ => Err (refused seq slot_body shipped_crc)
    | Ok bytes =>
      let reencoded_crc := field (length bytes - CRC_SIZE) 4 bytes in
      if negb (reencoded_crc =? shipped_crc) then
        Err (if negb (received_crc slot_body =? shipped_crc)
             then Corrupted seq shipped_crc (received_crc slot_body)
             else NotRoundTrip seq shipped_crc reencoded_crc)
      else
        Ok ({| connection_id := 0; request_id := 0; key_hash := key; sequence := seq;
               timestamp_ns := ts; event := ev |}, rest')
    end
  end.

Fixpoint decode_slots (count : nat) (rest : list Z) : result (list (InputSlot E)) InputBatchError :=
  match count with
  | O => guard? (length rest =? 0)%nat else Framing TrailingBytes ;; Ok []
  | S count =>
    sr <-? decode_slot rest ;;
    let '(slot, rest) := sr in
    slots <-? decode_slots count rest ;;
    Ok (slot :: slots)
  end.

(** [try_decode_input_batch_into], on the bytes after the length prefix. *)
Definition try_decode_input_batch (payload : list Z) : result (list (InputSlot E)) InputBatchError :=
  match payload with
  | [] => Err (Framing EmptyFrame)
  | tag :: _ =>
    if negb (tag =? MSG_INPUT_BATCH) then Err (NotInputBatch tag)
    else if (length payload <? 3)%nat then Err (Framing HeaderTruncated)
    else decode_slots (Z.to_nat (field 1 2 payload)) (drop 3 payload)
  end.

(** [peek_first_sequence] of a whole frame; [None] for any refusal. *)
Definition peek_first_sequence (frame : list Z) : option Z :=
  if (length frame <? FRAME_HEADER_LEN)%nat then None
  else if negb (field 4 1 frame =? MSG_INPUT_BATCH) then None
  else if field 5 2 frame =? 0 then None
  else if (length (drop FRAME_HEADER_LEN frame) <? SLOT_HEADER_LEN)%nat then None
  else Some (field 2 8 (drop FRAME_HEADER_LEN frame)).

Definition peek_frame_tag (frame : list Z) : option Z := frame !! 4%nat.
End wire.
End Wire.

(** ** What a decoded frame proves *)
Module Verified.
Import Wire Codec.Facts.
Section verified.
Context {E : Type} `{AppEvent E}.
Context (crc32c : list Z -> Z).

(** An entry minus its magic and checksum. *)
Definition slot_data (seq ts key tag : Z) (payload : list Z) : list Z :=
  drop ENTRY_MAGIC_SIZE (entry_data seq ts key tag payload).

(** [chunk] is a slot on the wire whose checksum is that of the very entry
    the replica's own journal encodes for [slot]. *)
Definition verified (slot : InputSlot E) (chunk : list Z) : Prop :=
  exists tag payload own_tag own_payload,
    let seq := sequence slot in let ts := timestamp_ns slot in let key := key_hash slot in
    let own := entry_data seq ts key own_tag own_payload in
    chunk = slot_data seq ts key tag payload ++ le 4 (crc32c own) /\
    decode_event tag payload = Ok (event slot) /\
    encode crc32c MAX_ENTRY_SIZE seq ts key (event slot) = Ok (own ++ le 4 (crc32c own)).

Lemma slot_framed rest :
  let len := Z.to_nat (field 0 2 rest) in
  is_bytes rest -> (9 <= len)%nat -> (27 + (len - 9) + 4 <= length rest)%nat ->
  take (27 + (len - 9)) rest =
  slot_data (field 2 8 rest) (field 10 8 rest) (field 18 8 rest) (field 26 1 rest)
    (take (len - 9) (drop 27 rest)).
Proof.
  intros len Hb H9 Hl.
  change (slot_data ?s ?t ?k ?g ?p) with
    (le 2 (Z.of_nat (ENTRY_META_SIZE + length p)) ++ le 8 s ++ le 8 t ++ le 8 k ++ [g] ++ p).
  rewrite length_take, length_drop, Nat.min_l by lia.
  replace (Z.of_nat (ENTRY_META_SIZE + (len - 9))) with (field 0 2 rest)
    by (unfold ENTRY_META_SIZE, len in *; lia).
  destruct (lookup_lt_is_Some_2 rest 26 ltac:(lia)) as [t Ht].
  rewrite (field_byte _ _ _ Ht), !le_field by (done || lia).
  rewrite <- (slice_byte _ _ _ Ht).
  change 27%nat with (26 + 1)%nat at 2. rewrite slices_join.
  change 26%nat with (18 + 8)%nat at 2. rewrite slices_join.
  change 18%nat with (10 + 8)%nat at 2. rewrite slices_join.
  change 10%nat with (2 + 8)%nat at 2. rewrite slices_join.
  change 2%nat with (0 + 2)%nat at 2. rewrite slices_join.
  by rewrite drop_0.
Qed.

(** The checksum of an encoded entry, read from its end. *)
Lemma entry_crc_field seq ts key tag payload :
  in_u32 (crc32c (entry_data seq ts key tag payload)) ->
  let bs := entry_bytes crc32c seq ts key tag payload in
  field (length bs - CRC_SIZE) 4 bs = crc32c (entry_data seq ts key tag payload).
Proof.
  intros Hc bs. unfold field, bs, entry_bytes. rewrite length_app, le_length.
  unfold CRC_SIZE. rewrite Nat.add_sub, drop_app_length, take_ge by (rewrite le_length; lia).
  by apply unle_u32.
Qed.

Hypothesis crc_range : forall bs, in_u32 (crc32c bs).

Lemma decode_slot_sound rest slot rest' :
  is_bytes rest -> decode_slot crc32c rest = Ok (slot, rest') ->
  exists chunk, rest = chunk ++ rest' /\ verified slot chunk.
Proof.
  intros Hb Hd. unfold decode_slot, SLOT_HEADER_LEN, ENTRY_META_SIZE in Hd.
  apply guard_ok in Hd as [Hl Hd]. apply guard_ok in Hd as [H9 Hd]. apply guard_ok in Hd as [Hp Hd].
  apply negb_true_iff, Nat.ltb_ge in Hl, H9, Hp. rewrite length_drop in Hp.
  set (len := Z.to_nat (field 0 2 rest)) in *. unfold CRC_SIZE in Hp.
  destruct (decode_event _ _) as [ev|] eqn:Hev; [|done].
  destruct (encode _ _ _ _ _ _) as [bs|] eqn:He; [|done].
  destruct (negb _) eqn:Hcrc; [done|]. simplify_eq. apply negb_false_iff, Z.eqb_eq in Hcrc.
  destruct (encode_frames _ _ _ _ _ _ _ He) as (tag' & payload' & _ & _ & ->).
  rewrite entry_crc_field in Hcrc by apply crc_range.
  set (own := entry_data _ _ _ tag' payload') in *.
  exists (take (27 + (len - 9) + 4) rest). split.
  - rewrite drop_drop. unfold CRC_SIZE. by rewrite <- (take_drop (27 + (len - 9) + 4) rest) at 1;
      rewrite Nat.add_assoc.
  - exists (field 26 1 rest), (take (len - 9) (drop 27 rest)), tag', payload'.
    cbn [sequence timestamp_ns key_hash event]. split_and!; [|done|done].
    pose proof (slot_framed rest Hb ltac:(fold len; lia) ltac:(fold len; lia)) as Hsf. cbn zeta in Hsf. fold len in Hsf.
    rewrite <- take_take_drop, Hsf. f_equal.
    fold own. rewrite Hcrc. unfold field at 1. rewrite <- drop_drop. fold (field (len - 9) 4 (drop 27 rest)).
    rewrite le_field; [done|by apply is_bytes_drop|rewrite length_drop; lia].
Qed.

(** Why a slot was refused, against the bytes [body] received with it. *)
Definition refusal_ok (bytes : list Z) (e : InputBatchError) : Prop :=
  match e with
  | Framing _ => True
  | NotInputBatch _ => False
  | Corrupted _ shipped received =>
      received <> shipped /\ exists skipped body, let n := length body in
        take n (drop skipped bytes) = body /\ received = received_crc crc32c body /\
        shipped = field n 4 (drop skipped bytes)
  | Malformed _ | NotRoundTrip _ _ _ =>
      exists skipped body, let n := length body in
        take n (drop skipped bytes) = body /\ received_crc crc32c body = field n 4 (drop skipped bytes)
  end.

Lemma refusal_cases rest n seq e' :
  (n <= length rest)%nat ->
  match e' with Malformed _ | NotRoundTrip _ _ _ => True | _ => False end ->
  let body := take n rest in
  refusal_ok rest
    (if negb (received_crc crc32c body =? field n 4 rest)
     then Corrupted seq (field n 4 rest) (received_crc crc32c body) else e').
Proof.
  intros Hn Hk body. assert (Hl : length body = n) by (unfold body; rewrite length_take; lia).
  destruct (received_crc crc32c body =? field n 4 rest) eqn:Hq; cbn [negb].
  - apply Z.eqb_eq in Hq. destruct e'; try done; exists 0%nat, body; by rewrite Hl, drop_0.
  - apply Z.eqb_neq in Hq. split; [done|]. exists 0%nat, body. by rewrite Hl, drop_0.
Qed.

Lemma decode_slot_refuses rest e :
  decode_slot (E:=E) crc32c rest = Err e -> refusal_ok rest e.
Proof.
  unfold decode_slot, SLOT_HEADER_LEN, ENTRY_META_SIZE, refused. intros Hd.
  destruct (length rest <? 27)%nat eqn:Hl; cbn [negb] in Hd; [by simplify_eq|].
  destruct (Z.to_nat (field 0 2 rest) <? 9)%nat eqn:H9; cbn [negb] in Hd; [by simplify_eq|].
  destruct (length (drop 27 rest) <? _)%nat eqn:Hp; cbn [negb] in Hd; [by simplify_eq|].
  apply Nat.ltb_ge in Hl, H9, Hp. rewrite length_drop in Hp. unfold CRC_SIZE in Hp.
  set (len := Z.to_nat (field 0 2 rest)) in *.
  assert (Hf : field (len - 9) 4 (drop 27 rest) = field (27 + (len - 9)) 4 rest)
    by (unfold field; by rewrite drop_drop).
  rewrite !Hf in Hd.
  destruct (decode_event _ _) as [ev|]; [|simplify_eq; by apply refusal_cases; [lia|]].
  destruct (encode _ _ _ _ _ _) as [bs|]; [|simplify_eq; by apply refusal_cases; [lia|]].
  destruct (negb (field (length bs - CRC_SIZE) 4 bs =? _)); [|done].
  simplify_eq; by apply refusal_cases; [lia|].
Qed.

Lemma refusal_shift chunk rest e : refusal_ok rest e -> refusal_ok (chunk ++ rest) e.
Proof.
  assert (Hd : forall k, drop (length chunk + k) (chunk ++ rest) = drop k rest)
    by (intros k; apply drop_app_add).
  destruct e; cbn; try done.
  - intros (k & body & Hx). exists (length chunk + k)%nat, body. by rewrite Hd.
  - intros (Hn & k & body & Hx). split; [done|]. exists (length chunk + k)%nat, body. by rewrite Hd.
  - intros (k & body & Hx). exists (length chunk + k)%nat, body. by rewrite Hd.
Qed.

Lemma decode_slots_sound count rest slots :
  is_bytes rest -> decode_slots crc32c count rest = Ok slots ->
  length slots = count /\ exists chunks, rest = concat chunks /\ Forall2 verified slots chunks.
Proof.
  revert rest slots. induction count as [|count IH]; intros rest slots Hb Hd; cbn [decode_slots] in Hd.
  - apply guard_ok in Hd as [Hl Hd]. apply Nat.eqb_eq, nil_length_inv in Hl as ->. simplify_eq.
    split; [done|]. by exists [].
  - destruct (decode_slot crc32c rest) as [[slot rest']|] eqn:Hs; [|done]. cbn [rbind] in Hd.
    destruct (decode_slots crc32c count rest') as [slots'|] eqn:Hr; [|done]. cbn [rbind] in Hd. simplify_eq.
    destruct (decode_slot_sound _ _ _ Hb Hs) as (chunk & -> & Hv).
    apply is_bytes_app in Hb as [_ Hb]. destruct (IH _ _ Hb Hr) as (Hlen & chunks & -> & HF).
    split; [cbn; by rewrite Hlen|]. exists (chunk :: chunks). split; [done|by constructor].
Qed.

Lemma decode_slots_refuses count rest e :
  is_bytes rest -> decode_slots (E:=E) crc32c count rest = Err e -> refusal_ok rest e.
Proof.
  revert rest. induction count as [|count IH]; intros rest Hb Hd; cbn [decode_slots] in Hd.
  { destruct (length _ =? 0)%nat; simplify_eq. done. }
  destruct (decode_slot crc32c rest) as [[slot rest']|e'] eqn:Hs; cbn [rbind] in Hd.
  - destruct (decode_slots crc32c count rest') as [|e''] eqn:Hr; cbn [rbind] in Hd; [done|]. simplify_eq.
    destruct (decode_slot_sound _ _ _ Hb Hs) as (chunk & -> & _).
    apply is_bytes_app in Hb as [_ Hb]. apply refusal_shift. by apply IH.
  - simplify_eq. by apply decode_slot_refuses.
Qed.

(** No damaged event reaches a replica's pipeline unnoticed. If a frame decodes,
    its bytes are exactly the slots its count announces, nothing left over; each
    slot's header fields and payload are the ones in the frame, the event is the
    one the payload decodes to, and the entry this replica will itself journal
    for it carries the very checksum the primary shipped. And a frame refused
    for a reason other than its framing is called damaged in transit only if
    bytes in it do not hash to the checksum behind them, and a codec's fault
    only if they do. *)
Theorem decoded_slots_verified payload :
  is_bytes payload ->
  match try_decode_input_batch (E:=E) crc32c payload with
  | Ok slots =>
      Z.of_nat (length slots) = field 1 2 payload /\
      exists chunks, drop 3 payload = concat chunks /\ Forall2 verified slots chunks
  | Err (NotInputBatch tag) => head payload = Some tag /\ tag <> MSG_INPUT_BATCH
  | Err e => refusal_ok (drop 3 payload) e
  end.
Proof.
  intros Hb. unfold try_decode_input_batch. destruct payload as [|tag p]; [done|].
  destruct (negb (tag =? MSG_INPUT_BATCH)) eqn:Ht.
  { apply negb_true_iff, Z.eqb_neq in Ht. done. }
  destruct (length (tag :: p) <? 3)%nat; [done|]. set (payload := tag :: p) in *.
  pose proof (unle_bound (take 2 (drop 1 payload)) (is_bytes_take _ _ (is_bytes_drop _ _ Hb))) as Hf.
  assert (Hrest : is_bytes (drop 3 payload)) by by apply is_bytes_drop.
  destruct (decode_slots crc32c (Z.to_nat (field 1 2 payload)) (drop 3 payload)) as [slots|e] eqn:Hd.
  - destruct (decode_slots_sound _ _ _ Hrest Hd) as (Hl & Hc). split; [|done].
    rewrite Hl. unfold field in *. lia.
  - pose proof (decode_slots_refuses _ _ _ Hrest Hd) as Hx. by destruct e.
Qed.
End verified.
End Verified.

(** ** Primary and replica *)
Module Mirror.
Import Wire Codec.Facts Journal.Encoder Journal.Segment Journal.Writer Journal.Stream.
Section mirror.
Context {E : Type} `{AppEvent E}.
Context (crc32c : list Z -> Z).
Hypothesis crc_range : forall bs, in_u32 (crc32c bs).
Context `{!AppEventLaws E}.
Hypothesis fits_one_entry : (entry_size (E:=E) <= MAX_ENTRY_SIZE)%nat.

Context (app_is_query : E -> bool).

(** The journal stage over a span of the input ring: the sentinel stops it, a
    query is skipped, a replica's slot must carry the next sequence, a primary's
    (sequence 0) is given it; the entry is encoded and its slice recorded for
    this node's own replicas. The encoder's destination is the writer's batch
    buffer, which stands for the hand-off slot the disk thread writes out. *)
Fixpoint journal_span (any_producer : bool) (w : BufferedWriter) (acc : Accum)
    (slots : list (InputSlot E)) : result (BufferedWriter * Accum * bool) JournalError :=
  match slots with
  | [] => Ok (w, acc, false)
  | slot :: rest =>
    if is_shutdown (event slot) then Ok (w, acc, true)
    else if negb (takes_wire_seq app_is_query (event slot)) then journal_span any_producer w acc rest
    else
      a <-? (if negb (sequence slot =? 0) then adopt_sequence (encoder w) (sequence slot)
             else Ok (allocate_sequence (encoder w))) ;;
      let '(seq, enc) := a in
      let '(r, w) := encode_event crc32c {| encoder := enc; segment := segment w; batch_buf := batch_buf w |}
                       seq (timestamp_ns slot) (event slot) (key_hash slot) in
      _ <-? r ;;
      match record_slot_for_replication any_producer acc
              (last_user_entry_replication_slice (encoder w) (batch_buf w)) with
      | None => Err Io
      | Some acc => journal_span any_producer w acc rest
      end
  end.

(** The events of a span that reach the journal. *)
Fixpoint items_of (slots : list (InputSlot E)) : list item :=
  match slots with
  | [] => []
  | slot :: rest =>
    if takes_wire_seq app_is_query (event slot)
    then (timestamp_ns slot, key_hash slot, event slot) :: items_of rest
    else items_of rest
  end.

(** No sentinel, and every journaled slot is unstamped or carries its turn. *)
Fixpoint stamped (seq : Z) (slots : list (InputSlot E)) : Prop :=
  match slots with
  | [] => True
  | slot :: rest =>
    is_shutdown (event slot) = false /\
    if takes_wire_seq app_is_query (event slot)
    then (sequence slot = 0 \/ sequence slot = seq) /\ stamped (seq + 1) rest
    else stamped seq rest
  end.

Definition slot_of (seq : Z) (it : item) : InputSlot E :=
  let '(ts, key, ev) := it in
  {| connection_id := 0; request_id := 0; key_hash := key; sequence := seq; timestamp_ns := ts; event := ev |}.

Fixpoint slots_of (seq : Z) (items : list item) : list (InputSlot E) :=
  match items with [] => [] | it :: rest => slot_of seq it :: slots_of (seq + 1) rest end.

(** The slots as they go on the wire. *)
Fixpoint slices (seq : Z) (items : list item) : list Z :=
  match items with
  | [] => []
  | it :: rest => drop ENTRY_MAGIC_SIZE (frame crc32c seq it) ++ slices (seq + 1) rest
  end.

Lemma decode_slot_frame seq ts key ev rest :
  item_ok (ts, key, ev) -> in_u64 seq ->
  decode_slot crc32c (drop ENTRY_MAGIC_SIZE (frame crc32c seq (ts, key, ev)) ++ rest)
  = Ok (slot_of seq (ts, key, ev), rest).
Proof.
  intros Hit Hseq. destruct (frame_encodes crc32c fits_one_entry seq _ ts key ev eq_refl Hit) as [He [Hlo _]].
  destruct Hit as (Hts & Hkey & Hok).
  destruct (encode_frames _ _ _ _ _ _ _ He) as (tag & payload & Hee & Hlen & Hfr).
  destruct (encode_event_decodes _ _ _ _ _ Hok Hee) as [Hdec _].
  rewrite Hfr in *. set (bs := entry_bytes crc32c seq ts key tag payload) in *.
  assert (Hbl : length bs = (33 + length payload)%nat) by apply entry_bytes_length.
  destruct (entry_reads crc32c seq ts key tag payload rest Hseq Hts Hkey Hlen)
    as (_ & F2 & F4 & F12 & F20 & F28 & _).
  destruct (entry_parts crc32c crc_range seq ts key tag payload rest) as (P29 & _ & FC).
  fold bs in F2, F4, F12, F20, F28, P29, FC.
  assert (Hd2 : drop ENTRY_MAGIC_SIZE bs ++ rest = drop 2 (bs ++ rest))
    by (symmetry; apply drop_app_le; unfold ENTRY_MAGIC_SIZE; lia).
  rewrite Hd2. set (buf := bs ++ rest) in *.
  assert (Hbuf : length buf = (33 + length payload + length rest)%nat) by (unfold buf; rewrite length_app; lia).
  assert (Hfield : forall k n, field k n (drop 2 buf) = field (2 + k) n buf)
    by (intros; unfold field; by rewrite drop_drop).
  unfold decode_slot, SLOT_HEADER_LEN, ENTRY_META_SIZE, CRC_SIZE.
  rewrite !Hfield, drop_drop, !length_drop, Hbuf. cbn [Nat.add].
  rewrite F2, F4, F12, F20, F28, Nat2Z.id, P29.
  replace (9 + length payload - 9)%nat with (length payload) by lia.
  rewrite take_app_length, Hdec, He, !(proj2 (Nat.ltb_ge _ _)) by lia. cbn [negb].
  assert (Hshipped : field (length payload) 4
    (payload ++ le 4 (crc32c (entry_data seq ts key tag payload)) ++ rest) = crc32c (entry_data seq ts key tag payload)).
  { unfold field. rewrite slice_app by (done || apply le_length). by apply unle_u32. }
  rewrite Hshipped. unfold bs at 1 2. rewrite Verified.entry_crc_field by apply crc_range.
  rewrite Z.eqb_refl. cbn [negb slot_of]. do 2 f_equal.
  rewrite drop_app_add, <- (le_length 4 (crc32c (entry_data seq ts key tag payload))) at 1.
  apply drop_app_length.
Qed.

Lemma decode_slots_slices seq items :
  Forall item_ok items -> 0 <= seq -> seq + Z.of_nat (length items) <= u64_max ->
  decode_slots crc32c (length items) (slices seq items) = Ok (slots_of seq items).
Proof.
  revert seq. induction items as [|[[ts key] ev] items IH]; intros seq Hit Hs Hm; [done|].
  apply Forall_cons_1 in Hit as [Hit Hits]. cbn [length decode_slots slices slots_of] in *.
  rewrite decode_slot_frame by (done || widths; lia). cbn [rbind].
  by rewrite IH by (done || lia).
Qed.

(** The frame's slots so far. *)
Definition acc_buf (acc : Accum) : list Z :=
  if input_batch_count acc =? 0 then init_input_batch else input_batch_buf acc.

Lemma record_slot_ok any acc slice :
  0 <= input_batch_count acc -> (any = true -> input_batch_count acc < u16_max) ->
  exists acc', record_slot_for_replication any acc slice = Some acc' /\ 0 <= input_batch_count acc' /\
    (any = true -> input_batch_count acc' = input_batch_count acc + 1 /\ acc_buf acc' = acc_buf acc ++ slice).
Proof.
  intros H0 Hc. unfold record_slot_for_replication. destruct any; cbn [negb]; [|by eexists].
  rewrite (proj2 (Z.eqb_neq (input_batch_count acc) u16_max)) by (specialize (Hc eq_refl); lia).
  eexists. split; [done|]. cbn [input_batch_count]. split; [lia|]. intros _. split; [done|].
  unfold acc_buf at 1. cbn [input_batch_count input_batch_buf].
  by rewrite (proj2 (Z.eqb_neq (input_batch_count acc + 1) 0)) by lia.
Qed.

Lemma journal_span_keeps any w acc start anchor fl pe slots :
  let items := items_of slots in
  let seq := start + Z.of_nat (length (fl ++ pe)) in
  winv crc32c w start anchor fl pe -> stamped seq slots -> Forall item_ok items ->
  start + Z.of_nat (length (fl ++ pe ++ items)) <= u64_max ->
  0 <= input_batch_count acc ->
  (any = true -> input_batch_count acc + Z.of_nat (length items) <= u16_max) ->
  exists w' acc', journal_span any w acc slots = Ok (w', acc', false) /\
    winv crc32c w' start anchor fl (pe ++ items) /\ segment w' = segment w /\
    (any = true ->
      input_batch_count acc' = input_batch_count acc + Z.of_nat (length items) /\
      acc_buf acc' = acc_buf acc ++ slices seq items).
Proof.
  cbn zeta. revert w acc pe. induction slots as [|slot slots IH]; intros w acc pe Hw Hst Hit Hmax H0 Hc.
  { exists w, acc. cbn [items_of slices length]. rewrite !app_nil_r. split_and!; [done..|]. intros _. split; [lia|done]. }
  cbn [stamped items_of journal_span] in *. destruct Hst as [-> Hst].
  destruct (takes_wire_seq _ _) eqn:Htw; cbn [negb]; [|by apply IH].
  destruct slot as [cid rid key sq ts ev]. cbn [sequence timestamp_ns event key_hash] in *.
  destruct Hst as [Hsq Hst]. apply Forall_cons_1 in Hit as [Hit Hits].
  set (seq := start + Z.of_nat (length (fl ++ pe))) in *.
  assert (Hmax' : seq < u64_max) by (unfold seq; rewrite !length_app in *; cbn [length] in *; lia).
  destruct (batch_append_keeps crc32c fits_one_entry _ _ _ _ _ _ _ _ Hw Hit Hmax')
    as (w1 & Ha & Hw1 & Hseg & Hsl).
  assert (Halloc : (if negb (sq =? 0) then adopt_sequence (encoder w) sq else Ok (allocate_sequence (encoder w)))
                   = Ok (allocate_sequence (encoder w))).
  { destruct (sq =? 0) eqn:Hz; [done|]. apply Z.eqb_neq in Hz. destruct Hsq as [|Hsq]; [done|].
    cbn [negb]. unfold adopt_sequence. by rewrite (wi_next _ _ _ _ _ _ Hw), Hsq, Z.eqb_refl. }
  rewrite Halloc. cbn [rbind]. unfold batch_append_with_ts in Ha.
  rewrite (surjective_pairing (allocate_sequence (encoder w))) in Ha |- *.
  destruct (encode_event _ _ _ _ _ _) as [r w1'].
  assert (r = Ok tt /\ w1' = w1) as [-> ->] by (destruct r as [[]|]; cbn in Ha; by simplify_eq).
  cbn [rbind]. rewrite Hsl. fold seq.
  set (slice := drop ENTRY_MAGIC_SIZE (frame crc32c seq (ts, key, ev))).
  assert (Hrec : exists acc1, record_slot_for_replication any acc slice = Some acc1 /\ 0 <= input_batch_count acc1 /\
    (any = true -> input_batch_count acc1 = input_batch_count acc + 1 /\ acc_buf acc1 = acc_buf acc ++ slice))
    by (apply record_slot_ok; [done|]; intros Hany; specialize (Hc Hany); cbn [length] in Hc; lia).
  destruct Hrec as (acc1 & -> & H1 & Hacc).
  assert (Hnext : start + Z.of_nat (length (fl ++ pe ++ [(ts, key, ev)])) = seq + 1)
    by (unfold seq; rewrite !length_app; cbn [length]; lia).
  destruct (IH w1 acc1 (pe ++ [(ts, key, ev)]) Hw1) as (w2 & acc2 & Hp & Hw2 & Hseg2 & Hacc2); [by rewrite Hnext|done| |done| |].
  { rewrite !length_app in *. cbn [length] in *. lia. }
  { intros Hany. destruct (Hacc Hany) as [-> _]. specialize (Hc Hany). cbn [length] in Hc. lia. }
  exists w2, acc2. rewrite <- app_assoc in Hw2. split_and!; [done|done|congruence|].
  intros Hany. destruct (Hacc Hany) as [Hn Hb], (Hacc2 Hany) as [Hn2 Hb2]. cbn [length slices].
  rewrite Hn2, Hn, Hb2, Hb, Hnext, <- app_assoc. split; [lia|done].
Qed.

(** Decoded slots carry their turns and journal as the items they came from. *)
Definition journaled (it : item) : Prop := takes_wire_seq app_is_query it.2 = true.

Lemma items_of_slots seq items :
  Forall journaled items -> items_of (slots_of seq items) = items.
Proof.
  revert seq. induction items as [|[[ts key] ev] items IH]; intros seq Hj; [done|].
  apply Forall_cons_1 in Hj as [Hj Hjs]. cbn [slots_of slot_of items_of event timestamp_ns key_hash].
  unfold journaled in Hj. cbn [snd] in Hj. by rewrite Hj, IH.
Qed.

Lemma slots_of_stamped seq items :
  Forall journaled items -> stamped seq (slots_of seq items).
Proof.
  revert seq. induction items as [|[[ts key] ev] items IH]; intros seq Hj; [done|].
  apply Forall_cons_1 in Hj as [Hj Hjs]. cbn [slots_of slot_of stamped event sequence].
  unfold journaled in Hj. cbn [snd] in Hj. rewrite Hj. split_and!; [|by right|by apply IH].
  apply andb_prop in Hj as [_ Hj]. by apply negb_true_iff in Hj.
Qed.

Lemma items_of_journaled slots : Forall journaled (items_of slots).
Proof.
  induction slots as [|slot slots IH]; [constructor|]. cbn [items_of].
  destruct (takes_wire_seq _ _) eqn:Ht; [by constructor|done].
Qed.

(** The frame of a run of items. *)
Definition frame_of (seq : Z) (items : list item) : list Z :=
  finalize_input_batch (init_input_batch ++ slices seq items) (Z.of_nat (length items)).

Lemma frame_of_payload seq items :
  drop 4 (frame_of seq items) = [MSG_INPUT_BATCH] ++ le 2 (Z.of_nat (length items)) ++ slices seq items.
Proof. reflexivity. Qed.

Lemma frame_decodes_back seq items :
  Forall item_ok items -> 0 <= seq -> seq + Z.of_nat (length items) <= u64_max ->
  Z.of_nat (length items) <= u16_max ->
  try_decode_input_batch crc32c (drop 4 (frame_of seq items)) = Ok (slots_of seq items).
Proof.
  intros Hit Hs Hm Hc. rewrite frame_of_payload. unfold try_decode_input_batch.
  cbn [app]. rewrite Z.eqb_refl. cbn [negb].
  set (payload := MSG_INPUT_BATCH :: le 2 (Z.of_nat (length items)) ++ slices seq items).
  assert (Hl : (length payload <? 3)%nat = false)
    by (apply Nat.ltb_ge; unfold payload; cbn [length]; rewrite length_app, le_length; lia).
  assert (Hf : field 1 2 payload = Z.of_nat (length items))
    by (apply (unle_u16 (Z.of_nat (length items))); widths; lia).
  rewrite Hl, Hf, Nat2Z.id. change (drop 3 payload) with (slices seq items).
  by apply decode_slots_slices.
Qed.

Lemma journal_slots_stream fuel seq items count :
  Forall item_ok items -> 0 <= seq -> seq + Z.of_nat (length items) <= u64_max ->
  0 <= count -> count + Z.of_nat (length items) <= u16_max ->
  (length (stream crc32c seq items) <= fuel)%nat ->
  journal_slots (E:=E) crc32c fuel (stream crc32c seq items) count
  = Ok (slices seq items, count + Z.of_nat (length items)).
Proof.
  revert fuel seq count. induction items as [|[[ts key] ev] items IH]; intros fuel seq count Hit Hs Hm H0 Hc Hf.
  { destruct fuel; cbn; by rewrite Z.add_0_r. }
  apply Forall_cons_1 in Hit as [Hit Hits]. cbn [length stream slices] in *.
  destruct (frame_encodes crc32c fits_one_entry seq _ ts key ev eq_refl Hit) as [_ [Hlo _]].
  set (f := frame crc32c seq (ts, key, ev)) in *. rewrite length_app in Hf.
  destruct fuel as [|fuel]; [lia|].
  assert (Hd : decode crc32c (f ++ stream crc32c (seq + 1) items) = Ok (length f, seq, ts, key, ev))
    by (apply frame_decodes; [done|done|done|done|widths; lia]).
  destruct (f ++ stream crc32c (seq + 1) items) as [|x xs] eqn:Hfs.
  { apply app_nil in Hfs as [Hf0 _]. rewrite Hf0 in Hlo. cbn [length] in Hlo. lia. }
  cbn [journal_slots]. rewrite Hd. cbn [rbind]. rewrite <- Hfs, drop_app_length, take_app_length.
  rewrite (proj2 (Z.eqb_neq count u16_max)) by (widths; lia).
  rewrite IH by (done || (widths; lia)). cbn [rbind fst snd].
  do 2 f_equal. lia.
Qed.

Lemma frame_from_journal seq items :
  Forall item_ok items -> 0 <= seq -> seq + Z.of_nat (length items) <= u64_max ->
  Z.of_nat (length items) <= u16_max ->
  encode_input_batch_from_journal (E:=E) crc32c (stream crc32c seq items)
  = Ok (frame_of seq items, Z.of_nat (length items)).
Proof.
  intros Hit Hs Hm Hc. unfold encode_input_batch_from_journal.
  by rewrite journal_slots_stream by (done || lia).
Qed.

(** After a flush the file up to the write position is the whole history. *)
Lemma flushed_bytes w start anchor fl pe sizes :
  winv crc32c w start anchor fl pe -> Forall (lt 0) sizes ->
  exists w', flush_batch_sync w sizes = Ok w' /\
    take (write_pos (segment w')) (contents (segment w'))
    = header crc32c start anchor (genesis (segment w)) ++ stream crc32c start (fl ++ pe).
Proof.
  intros Hw Hs.
  destruct (flush_keeps crc32c crc_range fits_one_entry _ _ _ _ _ _ Hw Hs) as (w' & Hf & Hw' & _ & _ & Hg).
  exists w'. split; [done|]. destruct (wi_file _ _ _ _ _ _ Hw') as [pad ->].
  rewrite (wi_pos _ _ _ _ _ _ Hw'), app_assoc, Hg. apply take_app_length'.
  pose proof (header_length crc32c crc_range _ _ _ (wi_header _ _ _ _ _ _ Hw)).
  rewrite length_app. lia.
Qed.

(** C14: A replica's journal is the primary's, byte for byte. Start a primary and a
    replica on the same history, however each has flushed it, and let the
    primary's stage take any span of client slots, queries among them. The frame
    it ships decodes on the replica to exactly the journaled events with the
    primary's sequence numbers; the replica's stage adopts them without refusal,
    whether or not it has replicas of its own, ends with the same hash chain, and
    once both flush, in whatever pieces, their segment files hold identical
    bytes. A catch-up frame cut from the journal file instead is the same frame. *)
Theorem replica_mirrors_primary any wp wr start anchor fl pe fl' pe' slots sizes sizes' :
  let items := items_of slots in
  let seq := start + Z.of_nat (length (fl ++ pe)) in
  let fresh := {| input_batch_buf := []; input_batch_count := 0 |} in
  winv crc32c wp start anchor fl pe -> winv crc32c wr start anchor fl' pe' ->
  fl ++ pe = fl' ++ pe' -> genesis (segment wp) = genesis (segment wr) ->
  stamped seq slots -> Forall item_ok items -> items <> [] -> Z.of_nat (length items) <= u16_max ->
  start + Z.of_nat (length (fl ++ pe ++ items)) <= u64_max ->
  Forall (lt 0) sizes -> Forall (lt 0) sizes' ->
  exists wp' acc frame wr' acc' fp fr,
    journal_span true wp fresh slots = Ok (wp', acc, false) /\
    fst (publish_input_batch acc) = Some frame /\
    try_decode_input_batch crc32c (drop 4 frame) = Ok (slots_of seq items) /\
    journal_span any wr fresh (slots_of seq items) = Ok (wr', acc', false) /\
    hash_chain (encoder wp') = hash_chain (encoder wr') /\
    flush_batch_sync wp' sizes = Ok fp /\ flush_batch_sync wr' sizes' = Ok fr /\
    take (write_pos (segment fp)) (contents (segment fp))
      = take (write_pos (segment fr)) (contents (segment fr)) /\
    encode_input_batch_from_journal (E:=E) crc32c (stream crc32c seq items)
      = Ok (frame, Z.of_nat (length items)).
Proof.
  intros items seq fresh Hp Hr Heq Hg Hst Hit Hne Hc Hmax Hs Hs'.
  destruct (wi_range _ _ _ _ _ _ Hp) as [H1 _]. pose proof (items_of_journaled slots) as Hj. fold items in Hj.
  assert (Hseq : seq + Z.of_nat (length items) <= u64_max) by (unfold seq; rewrite !length_app in *; lia).
  destruct (journal_span_keeps true wp fresh _ _ _ _ slots Hp Hst Hit Hmax ltac:(cbn; lia)
    ltac:(intros _; cbn [input_batch_count fresh]; fold items; lia)) as (wp' & acc & Hpb & Hwp & Hsegp & Hacc).
  destruct (Hacc eq_refl) as [Hcnt Hbuf]. fold items seq in Hcnt, Hbuf, Hwp. cbn [input_batch_count fresh] in Hcnt.
  assert (Hpos : 0 < Z.of_nat (length items)) by (destruct items; [done|cbn [length]; lia]).
  change (acc_buf fresh) with init_input_batch in Hbuf. unfold acc_buf in Hbuf.
  rewrite (proj2 (Z.eqb_neq (input_batch_count acc) 0)) in Hbuf by lia.
  assert (Hmirror : start + Z.of_nat (length (fl' ++ pe')) = seq) by (unfold seq; by rewrite Heq).
  destruct (journal_span_keeps any wr fresh start anchor fl' pe' (slots_of seq items) Hr)
    as (wr' & acc' & Hrb & Hwr & Hsegr & _); rewrite ?items_of_slots, ?Hmirror by done;
    [by apply slots_of_stamped|done|by rewrite app_assoc, <- Heq, <- app_assoc|cbn; lia|
     intros _; cbn [input_batch_count fresh]; lia|].
  rewrite items_of_slots in Hwr by done.
  destruct (flushed_bytes wp' _ _ _ _ sizes Hwp Hs) as (fp & Hfp & Hbp).
  destruct (flushed_bytes wr' _ _ _ _ sizes' Hwr Hs') as (fr & Hfr & Hbr).
  assert (Hall : fl ++ pe ++ items = fl' ++ pe' ++ items) by (by rewrite !app_assoc, Heq).
  exists wp', acc, (frame_of seq items), wr', acc', fp, fr.
  split_and!; try done.
  - unfold publish_input_batch. rewrite (proj2 (Z.eqb_neq _ _)) by lia. cbn [fst].
    by rewrite Hbuf, Hcnt.
  - apply frame_decodes_back; [done|unfold seq; lia|done|done].
  - by rewrite (wi_chain _ _ _ _ _ _ Hwp), (wi_chain _ _ _ _ _ _ Hwr), Hall.
  - by rewrite Hbp, Hbr, Hsegp, Hsegr, Hg, Hall.
  - apply frame_from_journal; [done|unfold seq; lia|done|done].
Qed.
End mirror.
End Mirror.

(** ** The theorems at concrete values *)
Module Sample.
Import Wire Verified Mirror Codec.Sample Codec.Facts Journal.Segment Journal.Stream Journal.Writer.

Definition shipped_items : list (item (E:=bool)) := [(1000, 42, App true); (1001, 0, Tick 5)].

Definition shipped : list Z := drop 4 (frame_of sum32 8 shipped_items).

Lemma decoded_slots_verified_witness :
  is_bytes shipped /\
  (exists slots, try_decode_input_batch (E:=bool) sum32 shipped = Ok slots /\ length slots = 2%nat /\
    exists chunks, drop 3 shipped = concat chunks /\ Forall2 (verified sum32) slots chunks).
Proof.
  assert (Hb : is_bytes shipped) by (apply (bool_decide_unpack _); vm_compute; exact I).
  split; [exact Hb|].
  pose proof (decoded_slots_verified (E:=bool) sum32 sum32_range shipped Hb) as Hv.
  destruct (try_decode_input_batch sum32 shipped) as [slots|] eqn:Hd; [|vm_compute in Hd; discriminate].
  destruct Hv as [Hl Hc]. exists slots. split; [done|]. split; [|done].
  assert (Hf : field 1 2 shipped = 2) by reflexivity. lia.
Defined.

Definition client_slots : list (InputSlot bool) :=
  [client 3 1 42 true 1000; client 4 1 7 false 1000; node_event (Tick 5) 1001].

(** A primary and a replica created on the same anchor, with different
    preallocation and write sizes; [false] events are queries. *)
Lemma replica_mirrors_primary_witness :
  exists wp wr wp' acc frame wr' acc',
    create_continuing sum32 8 (replicate 32 9) (Some 0) 4096 [7%nat] = Ok wp /\
    create_continuing sum32 8 (replicate 32 9) (Some 0) 100 [] = Ok wr /\
    journal_span sum32 negb true wp {| input_batch_buf := []; input_batch_count := 0 |} client_slots
      = Ok (wp', acc, false) /\
    fst (publish_input_batch acc) = Some frame /\
    journal_span sum32 negb false wr {| input_batch_buf := []; input_batch_count := 0 |}
      (slots_of 8 shipped_items) = Ok (wr', acc', false) /\
    try_decode_input_batch sum32 (drop 4 frame) = Ok (slots_of 8 shipped_items) /\
    exists fp fr, flush_batch_sync wp' [3%nat] = Ok fp /\ flush_batch_sync wr' [] = Ok fr /\
      take (write_pos (segment fp)) (contents (segment fp))
      = take (write_pos (segment fr)) (contents (segment fr)).
Proof.
  assert (Hfits : (entry_size (E:=bool) <= MAX_ENTRY_SIZE)%nat) by (apply Nat.leb_le; reflexivity).
  assert (Hh : header_ok MAX_SECTOR_SIZE 8 (replicate 32 9) (Some 0))
    by (split; [by right|]; split; [widths; lia|]; split; [done|]; widths; lia).
  assert (Hst : stamped negb 8 client_slots) by (cbn; intuition).
  assert (Hit : Forall item_ok (items_of negb client_slots))
    by (change (items_of negb client_slots) with shipped_items; repeat constructor; widths; lia).
  destruct (create_keeps (E:=bool) sum32 Hfits 8 (replicate 32 9) (Some 0) 4096 [7%nat] Hh
    ltac:(widths; lia) ltac:(repeat constructor; lia)) as (wp & Hcp & Hwp & Hgp).
  destruct (create_keeps (E:=bool) sum32 Hfits 8 (replicate 32 9) (Some 0) 100 [] Hh
    ltac:(widths; lia) ltac:(constructor)) as (wr & Hcr & Hwr & Hgr).
  destruct (replica_mirrors_primary (E:=bool) sum32 sum32_range Hfits negb false wp wr 8 (replicate 32 9) [] [] [] []
    client_slots [3%nat] [] Hwp Hwr eq_refl ltac:(congruence) Hst Hit ltac:(discriminate)
    ltac:(cbn; widths; lia) ltac:(cbn; widths; lia) ltac:(repeat constructor; lia) ltac:(constructor))
    as (wp' & acc & frame & wr' & acc' & fp & fr & Hpb & Hpub & Hdec & Hrb & _ & Hfp & Hfr & Hb & _).
  exists wp, wr, wp', acc, frame, wr', acc'. split_and!; try done. by exists fp, fr.
Defined.
End Sample.
