(* ===== verification/Protocol.v ===== *)
(** * Control messages between a primary and its replicas

    [Framing] is the length-prefixed splitter ([wire-protocol/src/framing.rs])
    and the replication receiver's use of it; [Control] the message types of
    [transport-core/src/replication/protocol.rs] with their encoders and
    decoders. A [zerocopy] struct is the concatenation of its little-endian
    fields, and [ref_from_prefix] fails exactly when the payload is shorter. *)

From stdpp Require Import gmap.
From S2P Require Import Prelude Cursors Codec.
Import Codec.Le.

Module Framing.

Definition PREFIX_LEN : nat := 4.

Record FrameTooLarge := { declared : Z; max : Z }.

(** The payload of the first frame; [None] until all of it has arrived. *)
Definition split_frame_limited (buf : list Z) (max_payload : Z)
    : result (option (list Z)) FrameTooLarge :=
  if (length buf <? PREFIX_LEN)%nat then Ok None
  else
    let declared := field 0 4 buf in
    if declared <=? max_payload then
      let rest := drop PREFIX_LEN buf in
      if declared <=? Z.of_nat (length rest) then Ok (Some (take (Z.to_nat declared) rest)) else Ok None
    else Err {| declared := declared; max := max_payload |}.

Definition consumed (payload : list Z) : nat := PREFIX_LEN + length payload.

Inductive FrameResult :=
| Complete (payload_start frame_end : nat)
| Incomplete
| Oversized.

Definition try_extract_frame (buf : list Z) (max_size : Z) : FrameResult :=
  match split_frame_limited buf max_size with
  | Ok (Some payload) =>
      if (length payload =? 0)%nat then Oversized else Complete PREFIX_LEN (consumed payload)
  | Ok None => Incomplete
  | Err _ => Oversized
  end.

Definition compact_recv_buf (buf : list Z) (consumed : nat) : list Z := drop consumed buf.
End Framing.

Module Control.

Definition MSG_HANDSHAKE : Z := 0x01.
Definition MSG_ACK : Z := 0x02.
Definition MSG_CHALLENGE : Z := 0x03.
Definition MSG_CHALLENGE_RESPONSE : Z := 0x04.
Definition MSG_AUTH_OK : Z := 0x05.
Definition MSG_AUTH_FAILED : Z := 0x06.
Definition MSG_VERSION_REFUSED : Z := 0x07.
Definition MSG_STREAM_START : Z := 0x10.
Definition MSG_NEED_SNAPSHOT : Z := 0x11.
Definition MSG_HASH_MISMATCH : Z := 0x12.
Definition MSG_SNAPSHOT_BEGIN : Z := 0x13.
Definition MSG_SNAPSHOT_CHUNK : Z := 0x14.
Definition MSG_SNAPSHOT_END : Z := 0x15.
Definition MSG_ROTATE : Z := 0x16.
Definition MSG_CHAIN_CHECK : Z := 0x17.
Definition MSG_SEGMENT_SEED_BEGIN : Z := 0x18.
Definition MSG_HEARTBEAT : Z := 0x30.
Definition REPL_PROTOCOL_VERSION : Z := 9.
Definition MAX_CONTROL_FRAME : Z := 256.
Definition MAX_DATA_FRAME : Z := 768 * 1024.

Record Handshake := { last_sequence : Z; chain_hash : list Z; epoch : Z }.
Export Cursors.Writer(Ack, Build_Ack, acked_sequence, in_memory_sequence).

Inductive PrimaryMessage :=
| StreamStart (start_sequence segment_start_sequence : Z) (anchor_hash : list Z)
    (genesis_entries : option Z) (epoch : Z)
| NeedSnapshot
| HashMismatch
| SnapshotBegin (snapshot_len snap_sequence : Z) (snap_chain_hash : list Z)
| SnapshotChunk (data : list Z)
| SnapshotEnd (crc : Z)
| Heartbeat (sequence : Z)
| Rotate (boundary_seq : Z) (tail_hash : list Z)
| ChainCheck (sequence : Z) (hash : list Z)
| SegmentSeedBegin (seed_len : Z).

Inductive ReplicaMessage :=
| MHandshake (h : Handshake)
| MAck (a : Ack).

Record ChallengeResponse := { signature : list Z; pubkey : list Z; protocol_version : option Z }.

Inductive AuthResult :=
| AuthOk (version : option Z)
| AuthFailed
| VersionRefused (version : Z).

(** Why a payload is refused (the source's error strings). *)
Inductive DecodeError :=
| EmptyPayload
| TooShort (tag : Z)
| OtherVersion (peer : Z)
| BadGenesisFlag (flag : Z)
| UnexpectedType (tag : Z)
| VersionTruncated.

Definition admits_replica_version (stated : option Z) : bool :=
  match stated with Some version => REPL_PROTOCOL_VERSION <=? version | None => false end.

(** A payload behind its length prefix. *)
Definition write_frame (payload : list Z) : list Z := le 4 (Z.of_nat (length payload)) ++ payload.

Definition encode_handshake (h : Handshake) : list Z :=
  write_frame ([MSG_HANDSHAKE] ++ le 8 (last_sequence h) ++ chain_hash h ++ le 8 (epoch h)
               ++ le 2 REPL_PROTOCOL_VERSION).

Definition encode_ack (a : Ack) : list Z :=
  write_frame ([MSG_ACK] ++ le 8 (acked_sequence a) ++ le 8 (in_memory_sequence a)).

Definition encode_challenge (nonce : list Z) : list Z := write_frame ([MSG_CHALLENGE] ++ nonce).

Definition challenge_response_frame (signature pubkey : list Z) : list Z :=
  [MSG_CHALLENGE_RESPONSE] ++ signature ++ pubkey.

Definition encode_challenge_response (signature pubkey : list Z) : list Z :=
  write_frame (challenge_response_frame signature pubkey ++ le 2 REPL_PROTOCOL_VERSION).

Definition encode_unversioned_challenge_response (signature pubkey : list Z) : list Z :=
  write_frame (challenge_response_frame signature pubkey).

Definition encode_version_frame (tag : Z) : list Z := write_frame ([tag] ++ le 2 REPL_PROTOCOL_VERSION).
Definition encode_auth_ok : list Z := encode_version_frame MSG_AUTH_OK.
Definition encode_unversioned_auth_ok : list Z := write_frame [MSG_AUTH_OK].
Definition encode_version_refused : list Z := encode_version_frame MSG_VERSION_REFUSED.
Definition encode_auth_failed : list Z := write_frame [MSG_AUTH_FAILED].

Definition encode_stream_start (start_sequence segment_start_sequence : Z) (anchor_hash : list Z)
    (genesis_entries : option Z) (epoch : Z) : list Z :=
  write_frame ([MSG_STREAM_START] ++ le 8 start_sequence ++ le 8 segment_start_sequence ++ anchor_hash
               ++ le 8 epoch ++ [if genesis_entries is Some _ then 1 else 0]
               ++ le 8 (default 0 genesis_entries)).

Definition encode_need_snapshot : list Z := write_frame [MSG_NEED_SNAPSHOT].
Definition encode_hash_mismatch : list Z := write_frame [MSG_HASH_MISMATCH].

Definition encode_snapshot_begin (snapshot_len snap_sequence : Z) (snap_chain_hash : list Z) : list Z :=
  write_frame ([MSG_SNAPSHOT_BEGIN] ++ le 8 snapshot_len ++ le 8 snap_sequence ++ snap_chain_hash).

Definition encode_snapshot_chunk (data : list Z) : list Z := write_frame (MSG_SNAPSHOT_CHUNK :: data).
Definition encode_snapshot_end (crc : Z) : list Z := write_frame ([MSG_SNAPSHOT_END] ++ le 4 crc).
Definition encode_heartbeat (sequence : Z) : list Z := write_frame ([MSG_HEARTBEAT] ++ le 8 sequence).

Definition encode_seq_hash (tag sequence : Z) (hash : list Z) : list Z :=
  write_frame ([tag] ++ le 8 sequence ++ hash).
Definition encode_rotate (boundary_seq : Z) (tail_hash : list Z) : list Z :=
  encode_seq_hash MSG_ROTATE boundary_seq tail_hash.
Definition encode_chain_check (sequence : Z) (hash : list Z) : list Z :=
  encode_seq_hash MSG_CHAIN_CHECK sequence hash.

Definition encode_segment_seed_begin (seed_len : Z) : list Z :=
  write_frame ([MSG_SEGMENT_SEED_BEGIN] ++ le 8 seed_len).

(** [ref_from_prefix] of an [n]-byte struct. *)
Definition prefix_of (n : nat) (payload : list Z) (e : DecodeError) : result unit DecodeError :=
  guard? negb (length payload <? n)%nat else e ;; Ok tt.

Definition bytes_at (off n : nat) (payload : list Z) : list Z := take n (drop off payload).

Definition decode_challenge (payload : list Z) : result (list Z) DecodeError :=
  _ <-? prefix_of 33 payload (TooShort MSG_CHALLENGE) ;;
  guard? field 0 1 payload =? MSG_CHALLENGE else UnexpectedType (field 0 1 payload) ;;
  Ok (bytes_at 1 32 payload).

Definition decode_challenge_response (payload : list Z) : result ChallengeResponse DecodeError :=
  _ <-? prefix_of 97 payload (TooShort MSG_CHALLENGE_RESPONSE) ;;
  guard? field 0 1 payload =? MSG_CHALLENGE_RESPONSE else UnexpectedType (field 0 1 payload) ;;
  let rest := drop 97 payload in
  version <-? (if (length rest =? 0)%nat then Ok None
               else _ <-? prefix_of 2 rest VersionTruncated ;; Ok (Some (field 0 2 rest))) ;;
  Ok {| signature := bytes_at 1 64 payload; pubkey := bytes_at 65 32 payload; protocol_version := version |}.

Definition decode_auth_result (payload : list Z) : result AuthResult DecodeError :=
  match payload with
  | [] => Err EmptyPayload
  | tag :: _ =>
    let stated_version := _ <-? prefix_of 3 payload VersionTruncated ;; Ok (field 1 2 payload) in
    if tag =? MSG_AUTH_OK then
      if (length payload =? 1)%nat then Ok (AuthOk None)
      else v <-? stated_version ;; Ok (AuthOk (Some v))
    else if tag =? MSG_AUTH_FAILED then Ok AuthFailed
    else if tag =? MSG_VERSION_REFUSED then v <-? stated_version ;; Ok (VersionRefused v)
    else Err (UnexpectedType tag)
  end.

Definition decode_replica_message (payload : list Z) : result ReplicaMessage DecodeError :=
  match payload with
  | [] => Err EmptyPayload
  | tag :: _ =>
    if tag =? MSG_HANDSHAKE then
      _ <-? prefix_of 51 payload (TooShort tag) ;;
      let peer_version := field 49 2 payload in
      if negb (peer_version =? REPL_PROTOCOL_VERSION) then Err (OtherVersion peer_version)
      else Ok (MHandshake {| last_sequence := field 1 8 payload; chain_hash := bytes_at 9 32 payload;
                             epoch := field 41 8 payload |})
    else if tag =? MSG_ACK then
      _ <-? prefix_of 17 payload (TooShort tag) ;;
      Ok (MAck {| acked_sequence := field 1 8 payload; in_memory_sequence := field 9 8 payload |})
    else Err (UnexpectedType tag)
  end.

Definition decode_stream_start (payload : list Z) : result PrimaryMessage DecodeError :=
  _ <-? prefix_of 66 payload (TooShort MSG_STREAM_START) ;;
  let flag := field 57 1 payload in
  genesis_entries <-? (if flag =? 0 then Ok None
                       else if flag =? 1 then Ok (Some (field 58 8 payload))
                       else Err (BadGenesisFlag flag)) ;;
  Ok (StreamStart (field 1 8 payload) (field 9 8 payload) (bytes_at 17 32 payload)
        genesis_entries (field 49 8 payload)).

Definition decode_primary_message (payload : list Z) : result PrimaryMessage DecodeError :=
  match payload with
  | [] => Err EmptyPayload
  | tag :: data =>
    if tag =? MSG_STREAM_START then decode_stream_start payload
    else if tag =? MSG_NEED_SNAPSHOT then Ok NeedSnapshot
    else if tag =? MSG_HASH_MISMATCH then Ok HashMismatch
    else if tag =? MSG_SNAPSHOT_BEGIN then
      _ <-? prefix_of 49 payload (TooShort tag) ;;
      Ok (SnapshotBegin (field 1 8 payload) (field 9 8 payload) (bytes_at 17 32 payload))
    else if tag =? MSG_SNAPSHOT_CHUNK then Ok (SnapshotChunk data)
    else if tag =? MSG_SNAPSHOT_END then
      _ <-? prefix_of 5 payload (TooShort tag) ;; Ok (SnapshotEnd (field 1 4 payload))
    else if tag =? MSG_HEARTBEAT then
      _ <-? prefix_of 9 payload (TooShort tag) ;; Ok (Heartbeat (field 1 8 payload))
    else if tag =? MSG_ROTATE then
      _ <-? prefix_of 41 payload (TooShort tag) ;;
      Ok (Rotate (field 1 8 payload) (bytes_at 9 32 payload))
    else if tag =? MSG_CHAIN_CHECK then
      _ <-? prefix_of 41 payload (TooShort tag) ;;
      Ok (ChainCheck (field 1 8 payload) (bytes_at 9 32 payload))
    else if tag =? MSG_SEGMENT_SEED_BEGIN then
      _ <-? prefix_of 9 payload (TooShort tag) ;; Ok (SegmentSeedBegin (field 1 8 payload))
    else Err (UnexpectedType tag)
  end.
End Control.

(** ** What arrives is what was sent *)
Module Delivery.
Import Framing Control.

Lemma frame_splits payload rest max_payload :
  Z.of_nat (length payload) <= max_payload <= u32_max ->
  split_frame_limited (write_frame payload ++ rest) max_payload = Ok (Some payload) /\
  drop (consumed payload) (write_frame payload ++ rest) = rest.
Proof.
  intros Hl. unfold write_frame, split_frame_limited, consumed, PREFIX_LEN. rewrite <- app_assoc.
  assert (Hd : drop 4 (le 4 (Z.of_nat (length payload)) ++ payload ++ rest) = payload ++ rest)
    by (apply drop_app_length'; by rewrite le_length).
  assert (Hf : field 0 4 (le 4 (Z.of_nat (length payload)) ++ payload ++ rest) = Z.of_nat (length payload)).
  { apply (field_app []); [done|].
    change (256 ^ Z.of_nat 4) with 4294967296. widths. lia. }
  rewrite Hf, Hd. cbn zeta. rewrite (proj2 (Nat.ltb_ge _ _)) by (rewrite length_app, le_length; lia).
  rewrite (proj2 (Z.leb_le (Z.of_nat (length payload)) max_payload)) by lia.
  rewrite (proj2 (Z.leb_le (Z.of_nat (length payload)) (Z.of_nat _))) by (rewrite length_app; lia).
  rewrite Nat2Z.id, take_app_length. split; [done|].
  rewrite <- drop_drop, Hd. apply drop_app_length.
Qed.

Lemma bytes_skip k off n (pre post : list Z) :
  length pre = k -> bytes_at (k + off) n (pre ++ post) = bytes_at off n post.
Proof. intros <-. unfold bytes_at. by rewrite drop_app_add. Qed.

Lemma bytes_here n (mid post : list Z) : length mid = n -> bytes_at 0 n (mid ++ post) = mid.
Proof. intros <-. unfold bytes_at. by rewrite drop_0, take_app_length. Qed.

Lemma bytes_all n (mid : list Z) : length mid = n -> bytes_at 0 n mid = mid.
Proof. intros <-. unfold bytes_at. by rewrite drop_0, firstn_all. Qed.

Lemma field_bytes off n buf : field off n buf = unle (bytes_at off n buf).
Proof. done. Qed.

(** Walks a struct's fields to the one being read. *)
Ltac read_fields :=
  rewrite ?field_bytes;
  repeat match goal with
  | |- context [bytes_at (S ?o) ?n (?x :: ?l)] =>
      change (bytes_at (S o) n (x :: l)) with (bytes_at o n l)
  | |- context [bytes_at 0 ?n (?mid ++ ?post)] =>
      rewrite (bytes_here n mid post) by (apply le_length || done)
  | |- context [bytes_at 0 ?n ?mid] =>
      rewrite (bytes_all n mid) by (apply le_length || done)
  | |- context [bytes_at ?o ?n (?pre ++ ?post)] =>
      let k := lazymatch pre with le ?j _ => j | _ =>
                 lazymatch goal with H : length pre = ?j |- _ => j end end in
      let o' := eval compute in (o - k)%nat in
      change (bytes_at o n (pre ++ post)) with (bytes_at (k + o') n (pre ++ post));
      rewrite (bytes_skip k o' n pre post) by (apply le_length || done)
  end.

Definition is_hash (bs : list Z) : Prop := length bs = 32%nat.

(** Every field in its width. *)
Definition primary_ok (m : PrimaryMessage) : Prop :=
  match m with
  | StreamStart s g h n e => in_u64 s /\ in_u64 g /\ is_hash h /\ in_u64 (default 0 n) /\ in_u64 e
  | NeedSnapshot | HashMismatch => True
  | SnapshotBegin l s h => in_u64 l /\ in_u64 s /\ is_hash h
  | SnapshotChunk data => Z.of_nat (length data) < MAX_DATA_FRAME
  | SnapshotEnd c => in_u32 c
  | Heartbeat s => in_u64 s
  | Rotate s h | ChainCheck s h => in_u64 s /\ is_hash h
  | SegmentSeedBegin l => in_u64 l
  end.

Definition replica_ok (m : ReplicaMessage) : Prop :=
  match m with
  | MHandshake h => in_u64 (last_sequence h) /\ is_hash (chain_hash h) /\ in_u64 (epoch h)
  | MAck a => in_u64 (acked_sequence a) /\ in_u64 (in_memory_sequence a)
  end.

Definition encode_primary (m : PrimaryMessage) : list Z :=
  match m with
  | StreamStart s g h n e => encode_stream_start s g h n e
  | NeedSnapshot => encode_need_snapshot
  | HashMismatch => encode_hash_mismatch
  | SnapshotBegin l s h => encode_snapshot_begin l s h
  | SnapshotChunk data => encode_snapshot_chunk data
  | SnapshotEnd c => encode_snapshot_end c
  | Heartbeat s => encode_heartbeat s
  | Rotate s h => encode_rotate s h
  | ChainCheck s h => encode_chain_check s h
  | SegmentSeedBegin l => encode_segment_seed_begin l
  end.

Definition encode_replica (m : ReplicaMessage) : list Z :=
  match m with MHandshake h => encode_handshake h | MAck a => encode_ack a end.

(** The receiver's splitter finds exactly this frame, whatever follows it, and
    its payload decodes to [m]. *)
Definition delivers {M} (decode : list Z -> result M DecodeError) (limit : Z) (bytes : list Z) (m : M) : Prop :=
  forall rest, exists payload,
    split_frame_limited (bytes ++ rest) limit = Ok (Some payload) /\
    drop (consumed payload) (bytes ++ rest) = rest /\ decode payload = Ok m.

Lemma delivers_frame {M} (decode : list Z -> result M DecodeError) limit payload m :
  Z.of_nat (length payload) <= limit <= u32_max -> decode payload = Ok m ->
  delivers decode limit (write_frame payload) m.
Proof.
  intros Hl Hd rest. exists payload. destruct (frame_splits payload rest limit Hl) as [-> ->]. done.
Qed.

(** Reduces [length payload] to a numeral. *)
Ltac payload_size :=
  unfold is_hash in *; repeat (rewrite ?length_app, ?le_length; cbn [length app]).

Ltac frame_round_trip :=
  apply delivers_frame; [payload_size; widths; unfold MAX_DATA_FRAME, MAX_CONTROL_FRAME in *; lia|].

Ltac struct_fits := unfold prefix_of; rewrite (proj2 (Nat.ltb_ge _ _)) by (payload_size; lia); cbn [negb rbind].

Ltac unfold_tags :=
  unfold MSG_HANDSHAKE, MSG_ACK, MSG_STREAM_START, MSG_NEED_SNAPSHOT, MSG_HASH_MISMATCH, MSG_SNAPSHOT_BEGIN,
    MSG_SNAPSHOT_CHUNK, MSG_SNAPSHOT_END, MSG_HEARTBEAT, MSG_ROTATE, MSG_CHAIN_CHECK, MSG_SEGMENT_SEED_BEGIN,
    MSG_CHALLENGE_RESPONSE, REPL_PROTOCOL_VERSION; cbn [Z.eqb Pos.eqb negb].

Lemma stream_start_delivers s g h n e :
  primary_ok (StreamStart s g h n e) ->
  delivers decode_primary_message MAX_DATA_FRAME (encode_stream_start s g h n e) (StreamStart s g h n e).
Proof.
  intros (Hs & Hg & Hh & Hn & He). unfold is_hash in Hh. frame_round_trip.
  cbn [app decode_primary_message Z.eqb MSG_STREAM_START]. unfold decode_stream_start. struct_fits.
  read_fields. rewrite !unle_u64 by done. by destruct n as [n|].
Qed.

Lemma primary_delivers m :
  primary_ok m -> delivers decode_primary_message MAX_DATA_FRAME (encode_primary m) m.
Proof.
  destruct m; [apply stream_start_delivers|..]; cbn [primary_ok encode_primary]; intros Hok;
    try destruct Hok as (? & ? & ?); try destruct Hok as (? & ?); unfold is_hash in *;
    frame_round_trip; cbn [app decode_primary_message Z.eqb]; unfold_tags;
    try done; struct_fits; read_fields; by rewrite ?unle_u64, ?unle_u32 by done.
Qed.

Lemma replica_delivers m :
  replica_ok m -> delivers decode_replica_message MAX_CONTROL_FRAME (encode_replica m) m.
Proof.
  destruct m as [[s h e]|[a i]]; cbn [replica_ok last_sequence chain_hash epoch acked_sequence in_memory_sequence];
    intros Hok; try destruct Hok as (? & ? & ?); try destruct Hok as (? & ?); unfold is_hash in *;
    unfold encode_replica, encode_handshake, encode_ack;
    cbn [last_sequence chain_hash epoch acked_sequence in_memory_sequence];
    frame_round_trip; cbn [app decode_replica_message]; unfold_tags; struct_fits; read_fields;
    rewrite ?unle_u64, ?unle_u16 by (done || (widths; lia)); done.
Qed.

(** Control messages arrive as sent. Every message either node can send, its
    fields in range, is one frame that the receiver's splitter finds at the
    front of its buffer whatever bytes follow, consuming exactly that frame, and
    that decodes to the same message; within the frame limit each side reads
    with. *)
Theorem control_round_trip :
  (forall m, primary_ok m -> delivers decode_primary_message MAX_DATA_FRAME (encode_primary m) m) /\
  (forall m, replica_ok m -> delivers decode_replica_message MAX_CONTROL_FRAME (encode_replica m) m).
Proof. split; [exact primary_delivers | exact replica_delivers]. Qed.
End Delivery.

(** ** Authentication: Ed25519 challenge and response

    [server-runtime/src/replication/auth.rs]. The signature scheme is the
    [ed25519_dalek] crate's: its key parser and verifier are parameters. *)
Module Auth.
Import Control Framing.

Inductive AuthError :=
| Disconnected
| FrameRefused
| BadFrame (e : DecodeError)
| UnknownKey
| WrongRole
| InvalidKey
| BadSignature
| ReplicaTooOld (stated : option Z)
| SessionAt (version : Z)
| PrimaryTooOld
| RefusedByPrimary (version : Z)
| KeyRejected.

(** [read_frame] of a blocking stream holding [input] and then closed. *)
Definition read_frame (input : list Z) (max_size : Z) : result (list Z) AuthError :=
  if (length input <? 4)%nat then Err Disconnected
  else
    let len := field 0 4 input in
    if max_size <? len then Err FrameRefused
    else if len =? 0 then Err FrameRefused
    else if Z.of_nat (length (drop 4 input)) <? len then Err Disconnected
    else Ok (take (Z.to_nat len) (drop 4 input)).

Definition decoded {A} (r : result A DecodeError) : result A AuthError :=
  match r with Ok a => Ok a | Err e => Err (BadFrame e) end.

Inductive ClientRole := Operator | AppRole (id : nat).
Inductive KeyRole := Replication | Client (r : ClientRole).
Definition is_replication (r : KeyRole) : bool := match r with Replication => true | Client _ => false end.

Section auth.
Context (valid_key : list Z -> bool) (verify : list Z -> list Z -> list Z -> bool).

Definition verify_challenge_response (nonce response_frame : list Z) (authorized_keys : gmap (list Z) KeyRole)
    : result (option Z) AuthError :=
  response <-? decoded (decode_challenge_response response_frame) ;;
  role <-? (match authorized_keys !! pubkey response with Some r => Ok r | None => Err UnknownKey end) ;;
  guard? is_replication role else WrongRole ;;
  guard? valid_key (pubkey response) else InvalidKey ;;
  guard? verify (pubkey response) nonce (signature response) else BadSignature ;;
  Ok (protocol_version response).

(** The answer sent, and the refusal for the log. *)
Definition judge_challenge_response (nonce response_frame : list Z) (authorized_keys : gmap (list Z) KeyRole)
    : list Z * result unit AuthError :=
  match verify_challenge_response nonce response_frame authorized_keys with
  | Err e => (encode_auth_failed, Err e)
  | Ok stated =>
    if negb (admits_replica_version stated) then (encode_version_refused, Err (ReplicaTooOld stated))
    else (encode_auth_ok, Ok tt)
  end.

(** The primary's turn: the bytes it sends and its verdict. *)
Definition authenticate_replica (nonce input : list Z) (authorized_keys : gmap (list Z) KeyRole)
    : list Z * result unit AuthError :=
  match read_frame input MAX_CONTROL_FRAME with
  | Err e => ([], Err e)
  | Ok frame => judge_challenge_response nonce frame authorized_keys
  end.

Definition session_version_check (answer : AuthResult) : result unit AuthError :=
  match answer with
  | AuthOk (Some session) => if session =? REPL_PROTOCOL_VERSION then Ok tt else Err (SessionAt session)
  | AuthOk None => Err PrimaryTooOld
  | VersionRefused primary => Err (RefusedByPrimary primary)
  | AuthFailed => Err KeyRejected
  end.

(** The replica's two turns: its response to the challenge, then its verdict. *)
Definition answer_challenge (sign : list Z -> list Z) (own_key input : list Z) : result (list Z) AuthError :=
  frame <-? read_frame input MAX_CONTROL_FRAME ;;
  nonce <-? decoded (decode_challenge frame) ;;
  Ok (encode_challenge_response (sign nonce) own_key).

Definition accept_answer (input : list Z) : result unit AuthError :=
  frame <-? read_frame input MAX_CONTROL_FRAME ;;
  answer <-? decoded (decode_auth_result frame) ;;
  session_version_check answer.

(** What it takes to be believed. *)
Definition proves_key (nonce frame : list Z) (keys : gmap (list Z) KeyRole) (stated : option Z) : Prop :=
  exists response, decode_challenge_response frame = Ok response /\
    keys !! pubkey response = Some Replication /\ valid_key (pubkey response) = true /\
    verify (pubkey response) nonce (signature response) = true /\ protocol_version response = stated.

Lemma verify_spec nonce frame keys stated :
  verify_challenge_response nonce frame keys = Ok stated <-> proves_key nonce frame keys stated.
Proof.
  unfold verify_challenge_response, proves_key. split.
  - intros Hv. destruct (decode_challenge_response frame) as [r|]; cbn [decoded rbind] in Hv; [|done].
    destruct (keys !! pubkey r) as [role|] eqn:Hk; cbn [rbind] in Hv; [|done].
    apply guard_ok in Hv as [Hr Hv]. apply guard_ok in Hv as [Hvk Hv]. apply guard_ok in Hv as [Hvf Hv].
    simplify_eq. destruct role; [|done]. by exists r.
  - intros (r & -> & Hk & Hvk & Hvf & <-). cbn [decoded rbind]. rewrite Hk. cbn [rbind is_replication].
    by rewrite Hvk, Hvf.
Qed.

Lemma verify_never_too_old nonce frame keys stated :
  verify_challenge_response nonce frame keys <> Err (ReplicaTooOld stated).
Proof.
  unfold verify_challenge_response. destruct (decode_challenge_response frame) as [r|]; cbn [decoded rbind]; [|done].
  destruct (keys !! pubkey r) as [[]|]; cbn [rbind is_replication]; [|done..].
  by destruct (valid_key _); [destruct (verify _ _ _)|].
Qed.

Lemma read_whole_frame payload :
  0 < Z.of_nat (length payload) <= MAX_CONTROL_FRAME ->
  read_frame (write_frame payload) MAX_CONTROL_FRAME = Ok payload.
Proof.
  unfold MAX_CONTROL_FRAME. intros Hl. unfold read_frame, write_frame.
  rewrite length_app, le_length, drop_app_length' by (by rewrite le_length).
  assert (Hf : field 0 4 (le 4 (Z.of_nat (length payload)) ++ payload) = Z.of_nat (length payload)).
  { apply (field_app []); [done|]. change (256 ^ Z.of_nat 4) with 4294967296. lia. }
  rewrite Hf, !(proj2 (Z.ltb_ge _ _)), (proj2 (Z.eqb_neq _ _)) by lia. cbn [Nat.ltb Nat.leb Nat.add].
  by rewrite Nat2Z.id, firstn_all.
Qed.

Lemma response_decodes sig key :
  length sig = 64%nat -> length key = 32%nat ->
  decode_challenge_response (challenge_response_frame sig key ++ le 2 REPL_PROTOCOL_VERSION)
  = Ok {| signature := sig; pubkey := key; protocol_version := Some REPL_PROTOCOL_VERSION |}.
Proof.
  intros Hs Hk. unfold decode_challenge_response, challenge_response_frame. rewrite <- !app_assoc. cbn [app].
  set (payload := MSG_CHALLENGE_RESPONSE :: sig ++ key ++ le 2 REPL_PROTOCOL_VERSION).
  assert (Hl : length payload = 99%nat) by (unfold payload; cbn [length]; rewrite !length_app, le_length; lia).
  assert (Hd : drop 97 payload = le 2 REPL_PROTOCOL_VERSION).
  { unfold payload. cbn [drop]. change 96%nat with (64 + 32)%nat. rewrite <- drop_drop.
    rewrite !drop_app_length' by done. done. }
  unfold prefix_of. rewrite Hl, Hd. cbn [Nat.ltb Nat.leb negb rbind length le Nat.eqb].
  change (field 0 1 payload =? MSG_CHALLENGE_RESPONSE) with true. cbn iota.
  change (field 0 2 _) with REPL_PROTOCOL_VERSION. do 2 f_equal; unfold payload; Delivery.read_fields; done.
Qed.

(** Only a holder of a listed replication key is admitted, and every such
    replica of a version the primary admits is. The primary answers [AuthOk]
    exactly when the response carries a key listed under the replication role
    whose signature over the issued nonce verifies, and states this primary's
    version or a later one; a peer that proves no such key gets [AuthFailed],
    whatever version it states; and [VersionRefused] goes only to a peer that
    proved its key. When an honest replica of this release answers, both sides
    end the exchange accepting it. *)
Theorem auth_admits_key_holders sign own_key nonce keys :
  (forall frame,
    match judge_challenge_response nonce frame keys with
    | (answer, Ok _) => answer = encode_auth_ok /\
        exists v, proves_key nonce frame keys (Some v) /\ REPL_PROTOCOL_VERSION <= v
    | (answer, Err (ReplicaTooOld stated)) => answer = encode_version_refused /\
        proves_key nonce frame keys stated /\ admits_replica_version stated = false
    | (answer, Err _) => answer = encode_auth_failed /\ forall stated, ~ proves_key nonce frame keys stated
    end) /\
  (keys !! own_key = Some Replication -> valid_key own_key = true ->
   verify own_key nonce (sign nonce) = true ->
   length nonce = 32%nat -> length own_key = 32%nat -> length (sign nonce) = 64%nat ->
   exists response answer,
     answer_challenge sign own_key (encode_challenge nonce) = Ok response /\
     authenticate_replica nonce response keys = (answer, Ok tt) /\
     accept_answer answer = Ok tt).
Proof.
  split.
  - intros frame. unfold judge_challenge_response.
    destruct (verify_challenge_response nonce frame keys) as [stated|e] eqn:Hv.
    + apply verify_spec in Hv. destruct (admits_replica_version stated) eqn:Ha; cbn [negb]; [|done].
      split; [done|]. destruct stated as [v|]; [|done]. exists v. split; [done|]. by apply Z.leb_le.
    + assert (Hno : forall stated, ~ proves_key nonce frame keys stated)
        by (intros stated Hp; apply verify_spec in Hp; congruence).
      destruct e; try done. exfalso. by apply (verify_never_too_old nonce frame keys stated).
  - intros Hk Hvk Hvf Hn Hl Hs. unfold answer_challenge, encode_challenge.
    rewrite read_whole_frame by (rewrite length_app, Hn; unfold MAX_CONTROL_FRAME; cbn [length]; lia).
    cbn [rbind]. unfold decode_challenge, prefix_of. rewrite length_app, Hn. cbn [Nat.ltb Nat.leb length Nat.add negb rbind].
    change (field 0 1 ([MSG_CHALLENGE] ++ nonce) =? MSG_CHALLENGE) with true. cbn [app]. Delivery.read_fields.
    cbn [decoded rbind]. eexists _, encode_auth_ok. split; [done|]. split; [|reflexivity].
    unfold authenticate_replica, encode_challenge_response, judge_challenge_response.
    rewrite read_whole_frame by (unfold challenge_response_frame, MAX_CONTROL_FRAME;
      rewrite !length_app, Hs, Hl, le_length; cbn [length]; lia).
    rewrite (proj2 (verify_spec nonce _ keys (Some REPL_PROTOCOL_VERSION))); [done|].
    eexists. split; [by apply response_decodes|done].
Qed.
End auth.
End Auth.

(** ** The theorems at concrete values *)
Module Sample.
Import Control Framing Delivery Auth.

Lemma control_round_trip_witness :
  exists payload,
    split_frame_limited (encode_rotate 7 (replicate 32 3) ++ [9; 9]) MAX_DATA_FRAME = Ok (Some payload) /\
    drop (consumed payload) (encode_rotate 7 (replicate 32 3) ++ [9; 9]) = [9; 9] /\
    decode_primary_message payload = Ok (Rotate 7 (replicate 32 3)).
Proof.
  apply (proj1 control_round_trip (Rotate 7 (replicate 32 3))).
  split; [widths; lia|reflexivity].
Defined.

(** A toy scheme: a signature is the key twice, xored with the nonce's first byte. *)
Definition toy_sign (key nonce : list Z) : list Z := map (Z.lxor (default 0 (head nonce))) (key ++ key).
Definition toy_verify (key nonce sig : list Z) : bool := bool_decide (sig = toy_sign key nonce).

Lemma auth_admits_key_holders_witness :
  let key := replicate 32 5 in
  exists response answer,
    answer_challenge (toy_sign key) key (encode_challenge (replicate 32 8)) = Ok response /\
    authenticate_replica (fun _ => true) toy_verify (replicate 32 8) response {[ key := Replication ]} = (answer, Ok tt) /\
    accept_answer answer = Ok tt.
Proof.
  apply (auth_admits_key_holders (fun _ => true) toy_verify (toy_sign (replicate 32 5)) (replicate 32 5)
    (replicate 32 8) {[ replicate 32 5 := Replication ]}); [apply lookup_singleton_eq|reflexivity..].
Defined.
End Sample.
