(* ===== verification/Acks.v ===== *)
(** * The replica's ack queue

    [Queue] is [PendingAckQueue] ([transport-core/src/replication/ack_queue.rs]),
    a power-of-two ring of pending acks that merges when full, with the
    blocking pops and [try_flush_dual_track]; [Abstract] shows it to be a list.
    What the journal stage and other threads publish (the journal cursor, the
    abort flag) arrives as the list of values read. [Promise] is what the entries
    mean to the primary. *)

From S2P Require Import Prelude Codec Protocol.
Import Protocol.Control.

Module Queue.

Record PendingAck := { journal_target : Z; ack_sequence : Z }.

Record PendingAckQueue := {
  buf : list PendingAck;
  cap : nat;
  head : nat;
  len : nat;
  merged : Z
}.

Definition is_power_of_two (n : nat) : bool := (0 <? n)%nat && (n =? 2 ^ Nat.log2 n)%nat.

(** [None] is the panic of the constructor's assertion. *)
Definition new (cap : nat) : option PendingAckQueue :=
  if is_power_of_two cap then
    Some {| buf := replicate cap {| journal_target := 0; ack_sequence := 0 |};
            cap := cap; head := 0; len := 0; merged := 0 |}
  else None.

Definition is_full (q : PendingAckQueue) : bool := (cap q <=? len q)%nat.
Definition is_empty (q : PendingAckQueue) : bool := (len q =? 0)%nat.

Definition nothing : PendingAck := {| journal_target := 0; ack_sequence := 0 |}.

(** An index the source bounds-checks; the invariant keeps it in range. *)
Definition at_index (q : PendingAckQueue) (i : nat) : PendingAck := default nothing (buf q !! i).

Definition push (q : PendingAckQueue) (target seq : Z) : PendingAckQueue :=
  if is_full q then
    let newest := Nat.land (head q + len q - 1) (cap q - 1) in
    let entry := at_index q newest in
    {| buf := <[newest := {| journal_target := Z.max (journal_target entry) target;
                             ack_sequence := Z.max (ack_sequence entry) seq |}]> (buf q);
       cap := cap q; head := head q; len := len q; merged := wrapping_add (merged q) 1 |}
  else
    let idx := Nat.land (head q + len q) (cap q - 1) in
    {| buf := <[idx := {| journal_target := target; ack_sequence := seq |}]> (buf q);
       cap := cap q; head := head q; len := len q + 1; merged := merged q |}.

(** The loop of [pop_ready], [fuel] being the queue's length. *)
Fixpoint pop_loop (fuel : nat) (q : PendingAckQueue) (cursor : Z) (last : option Z)
    : option Z * PendingAckQueue :=
  match fuel with
  | O => (last, q)
  | S fuel =>
    let entry := at_index q (head q) in
    if cursor <? journal_target entry then (last, q)
    else
      pop_loop fuel
        {| buf := buf q; cap := cap q; head := Nat.land (head q + 1) (cap q - 1);
           len := len q - 1; merged := merged q |}
        cursor (Some (ack_sequence entry))
  end.

Definition pop_ready (q : PendingAckQueue) (cursor : Z) : option Z * PendingAckQueue :=
  if is_empty q then (None, q) else pop_loop (len q) q cursor None.

(** The wait polls the cursor, then the abort flag; [None] while it waits. *)
Fixpoint wait_for_journal_cursor (polls : list (Z * bool)) (target : Z) : option (bool * list (Z * bool)) :=
  match polls with
  | [] => None
  | (cursor, abort) :: polls =>
    if target <=? cursor then Some (true, polls)
    else if abort then Some (false, polls)
    else wait_for_journal_cursor polls target
  end.

(** [reads] are the cursor values [pop_ready] loads after each wait. *)
Fixpoint pop_all_blocking (fuel : nat) (q : PendingAckQueue) (polls : list (Z * bool)) (reads : list Z)
    (last : option Z) : option (option Z * PendingAckQueue) :=
  match fuel with
  | O => None
  | S fuel =>
    if is_empty q then Some (last, q)
    else
      match wait_for_journal_cursor polls (journal_target (at_index q (head q))), reads with
      | Some (false, _), _ => Some (last, q)
      | Some (true, polls), cursor :: reads =>
          match pop_ready q cursor with
          | (Some seq, q) => pop_all_blocking fuel q polls reads (Some seq)
          | (None, q) => None
          end
      | _, _ => None
      end
  end.

Definition try_flush_dual_track (q : PendingAckQueue) (cursor accum_end_sequence last_sent_acked last_sent_in_memory : Z)
    : option Ack * PendingAckQueue :=
  let '(popped, q) := pop_ready q cursor in
  let acked_now := default last_sent_acked popped in
  let in_mem_now := accum_end_sequence in
  if (last_sent_acked <? acked_now) || (last_sent_in_memory <? in_mem_now)
  then (Some {| acked_sequence := acked_now; in_memory_sequence := in_mem_now |}, q)
  else (None, q).
End Queue.

(** ** The ring is a list *)
Module Abstract.
Import Queue.

Record wf (q : PendingAckQueue) : Prop := {
  wf_cap : exists k, cap q = (2 ^ k)%nat;
  wf_buf : length (buf q) = cap q;
  wf_head : (head q < cap q)%nat;
  wf_len : (len q <= cap q)%nat
}.

(** Pending acks, oldest first. *)
Definition pending (q : PendingAckQueue) : list PendingAck :=
  (fun i => at_index q ((head q + i) mod cap q)) <$> seq 0 (len q).

Lemma land_mod q a : wf q -> Nat.land a (cap q - 1) = (a mod cap q)%nat.
Proof.
  intros Hw. destruct (wf_cap q Hw) as [k ->].
  replace (2 ^ k - 1)%nat with (Nat.ones k) by (rewrite Nat.ones_equiv; lia). apply Nat.land_ones.
Qed.

Lemma cap_positive q : wf q -> (0 < cap q)%nat.
Proof. intros Hw. pose proof (wf_head q Hw). lia. Qed.

(** A reading of the new buffer at the slot written and elsewhere. *)
Lemma slots_apart (c h i j : nat) :
  (h < c)%nat -> (i < c)%nat -> (j < c)%nat -> i <> j -> ((h + i) mod c <> (h + j) mod c)%nat.
Proof.
  intros Hh Hi Hj Hne. intros Heq.
  assert (Hd : forall x, (x < c)%nat -> ((h + x) mod c = if decide (h + x < c) then h + x else h + x - c)%nat).
  { intros x Hx. case_decide; [by apply Nat.mod_small|].
    replace (h + x)%nat with (h + x - c + 1 * c)%nat at 1 by lia. rewrite Nat.Div0.mod_add. apply Nat.mod_small. lia. }
  rewrite !Hd in Heq by done. repeat case_decide; lia.
Qed.

Lemma write_view q v i n b' :
  wf q -> (i < n)%nat -> (n <= cap q)%nat ->
  b' = <[((head q + i) mod cap q)%nat := v]> (buf q) ->
  ((fun k => default nothing (b' !! ((head q + k) mod cap q)%nat)) <$> seq 0 n)
  = <[i := v]> ((fun k => at_index q ((head q + k) mod cap q)%nat) <$> seq 0 n).
Proof.
  intros Hw Hi Hn ->. pose proof (cap_positive q Hw) as Hc. apply list_eq. intros k.
  destruct (decide (k < n)%nat) as [Hk|Hk].
  2:{ by rewrite !(proj2 (lookup_ge_None _ k)) by (rewrite ?length_insert, ?length_fmap, ?length_seq; lia). }
  rewrite list_lookup_fmap, lookup_seq_lt by done. cbn [fmap option_fmap option_map].
  destruct (decide (k = i)) as [->|Hne].
  - rewrite list_lookup_insert_eq by (rewrite (wf_buf q Hw); apply Nat.mod_upper_bound; lia).
    by rewrite list_lookup_insert_eq by (rewrite length_fmap, length_seq; lia).
  - rewrite list_lookup_insert_ne
      by (apply slots_apart; [apply (wf_head q Hw)|lia|lia|by apply not_eq_sym]).
    rewrite list_lookup_insert_ne by (by apply not_eq_sym).
    by rewrite list_lookup_fmap, lookup_seq_lt by done.
Qed.

(** The newest entry takes over a push made when the queue is full. *)
Definition merge_last (l : list PendingAck) (target seq : Z) : list PendingAck :=
  match reverse l with
  | [] => []
  | e :: rest => reverse rest ++ [{| journal_target := Z.max (journal_target e) target;
                                     ack_sequence := Z.max (ack_sequence e) seq |}]
  end.

Lemma merge_snoc l e target seq :
  merge_last (l ++ [e]) target seq
  = l ++ [{| journal_target := Z.max (journal_target e) target; ack_sequence := Z.max (ack_sequence e) seq |}].
Proof. unfold merge_last. by rewrite reverse_snoc, reverse_involutive. Qed.

Lemma pending_length q : length (pending q) = len q.
Proof. unfold pending. by rewrite length_fmap, length_seq. Qed.

Lemma seq_snoc n : seq 0 (n + 1) = seq 0 n ++ [n].
Proof. by rewrite seq_app. Qed.

Lemma new_ok c q : new c = Some q -> wf q /\ pending q = [] /\ cap q = c.
Proof.
  unfold new, is_power_of_two. destruct (_ && _) eqn:Hp; [|done]. intros [= <-].
  apply andb_prop in Hp as [H0 Hp]. apply Nat.ltb_lt in H0. apply Nat.eqb_eq in Hp.
  split; [|done]. constructor; cbn; [by exists (Nat.log2 c)|apply length_replicate|lia|lia].
Qed.

Lemma push_ok q target seq :
  wf q ->
  let q' := push q target seq in
  wf q' /\ cap q' = cap q /\
  pending q' = (if is_full q then merge_last (pending q) target seq
                else pending q ++ [{| journal_target := target; ack_sequence := seq |}]).
Proof.
  intros Hw. pose proof (cap_positive q Hw) as Hc. cbn zeta. unfold push. destruct (is_full q) eqn:Hf.
  - unfold is_full in Hf. apply Nat.leb_le in Hf. pose proof (wf_len q Hw) as Hl.
    rewrite land_mod by done. set (m := (len q - 1)%nat).
    replace (head q + len q - 1)%nat with (head q + m)%nat by (unfold m; lia).
    split; [|split; [done|]].
    + destruct Hw. constructor; cbn [cap buf head len]; [done|by rewrite length_insert|done|done].
    + unfold pending at 1. cbn [head cap len]. unfold at_index at 1. cbn [buf].
      rewrite (write_view q _ m (len q) _ Hw) by (done || unfold m; lia). fold (pending q).
      assert (Hpm : pending q = take m (pending q) ++ [at_index q ((head q + m) mod cap q)]).
      { unfold pending. replace (len q) with (m + 1)%nat by (unfold m; lia).
        rewrite seq_snoc, fmap_app. rewrite take_app_length' by (by rewrite length_fmap, length_seq). done. }
      rewrite Hpm at 1 2. rewrite merge_snoc.
      assert (Hlm : length (take m (pending q)) = m) by (rewrite length_take, pending_length; unfold m; lia).
      rewrite insert_app_r_alt by lia. rewrite Hlm, Nat.sub_diag. done.
  - unfold is_full in Hf. apply Nat.leb_gt in Hf. rewrite land_mod by done.
    split; [|split; [done|]].
    + destruct Hw. constructor; cbn [cap buf head len]; [done|by rewrite length_insert|done|lia].
    + unfold pending at 1. cbn [head cap len]. unfold at_index at 1. cbn [buf].
      rewrite (write_view q _ (len q) (len q + 1) _ Hw) by (done || lia).
      rewrite seq_snoc, fmap_app. fold (pending q). rewrite insert_app_r_alt by (rewrite pending_length; lia).
      rewrite pending_length, Nat.sub_diag. done.
Qed.

(** What [pop_ready] takes: the ready prefix, and its last sequence. *)
Fixpoint ready (l : list PendingAck) (cursor : Z) (last : option Z) : option Z * list PendingAck :=
  match l with
  | [] => (last, [])
  | e :: rest => if cursor <? journal_target e then (last, l) else ready rest cursor (Some (ack_sequence e))
  end.

Lemma pop_loop_ok fuel q cursor last :
  wf q -> len q = fuel ->
  let '(r, q') := pop_loop fuel q cursor last in
  wf q' /\ cap q' = cap q /\ (r, pending q') = ready (pending q) cursor last.
Proof.
  revert q last. induction fuel as [|fuel IH]; intros q last Hw Hl.
  { cbn [pop_loop]. unfold pending. by rewrite Hl. }
  pose proof (cap_positive q Hw) as Hc. cbn [pop_loop].
  assert (Hp : pending q = at_index q (head q)
      :: ((fun i => at_index q ((head q + S i) mod cap q)) <$> seq 0 fuel)).
  { unfold pending. rewrite Hl. cbn [seq]. rewrite fmap_cons. f_equal.
    - by rewrite Nat.add_0_r, Nat.mod_small by apply (wf_head q Hw).
    - rewrite <- fmap_S_seq, <- list_fmap_compose. done. }
  rewrite Hp. cbn [ready]. destruct (cursor <? _); [by rewrite <- Hp|].
  set (q1 := {| buf := _ |}). assert (Hw1 : wf q1).
  { destruct Hw as [Hk Hb Hh Hle]. constructor; cbn [cap buf head len q1]; [done|done| |lia].
    rewrite (land_mod q) by (by constructor). apply Nat.mod_upper_bound. lia. }
  specialize (IH q1 (Some (ack_sequence (at_index q (head q)))) Hw1 ltac:(cbn; lia)).
  destruct (pop_loop fuel q1 cursor _) as [r q']. destruct IH as (H1 & H2 & H3). split_and!; [done|done|].
  rewrite H3. f_equal. unfold pending. cbn [len q1 head cap]. rewrite Hl. replace (S fuel - 1)%nat with fuel by lia.
  apply list_fmap_ext. intros i x _. change (at_index q1) with (at_index q). f_equal.
  rewrite (land_mod q) by done. rewrite Nat.Div0.add_mod_idemp_l. f_equal. lia.
Qed.

Lemma pop_ready_ok q cursor :
  wf q -> let '(r, q') := pop_ready q cursor in
  wf q' /\ cap q' = cap q /\ (r, pending q') = ready (pending q) cursor None.
Proof.
  intros Hw. unfold pop_ready, is_empty. destruct (len q =? 0)%nat eqn:He.
  - apply Nat.eqb_eq in He. assert (Hp : pending q = []) by (apply nil_length_inv; by rewrite pending_length).
    by rewrite Hp.
  - by apply pop_loop_ok.
Qed.
End Abstract.

(** ** What the queue promises

    A session starts at sequence [s0] with the input ring at index [b]; the entry
    with sequence [s] sits at ring index [b + (s - s0) - 1], so its journal target
    is [b + (s - s0)]. [lo] is the highest sequence popped so far. *)
Module Promise.
Import Queue Abstract.

Lemma ready_some l cursor last r l' : ready l cursor (Some last) = (r, l') -> is_Some r.
Proof.
  revert last. induction l as [|e l IH]; intros last Hr; cbn [ready] in Hr; [by simplify_eq|].
  destruct (_ <? _); [by simplify_eq|by eapply IH].
Qed.

Lemma pop_all_some fuel q polls reads v r q' :
  pop_all_blocking fuel q polls reads (Some v) = Some (r, q') -> is_Some r.
Proof.
  revert q polls reads v. induction fuel as [|fuel IH]; intros q polls reads v Hp; [done|].
  cbn [pop_all_blocking] in Hp. destruct (is_empty q); [by simplify_eq|].
  destruct (wait_for_journal_cursor _ _) as [[[] polls']|]; [|by simplify_eq|done].
  destruct reads as [|c reads]; [done|]. destruct (pop_ready q c) as [[x|] q1]; [by eapply IH|done].
Qed.

Section session.
Context (b s0 : Z).

Definition target_of (s : Z) : Z := b + (s - s0).

Definition entry_ok (accum : Z) (e : PendingAck) : Prop :=
  journal_target e = target_of (ack_sequence e) /\ s0 < ack_sequence e <= accum.

Fixpoint ascending (lo : Z) (l : list PendingAck) : Prop :=
  match l with [] => True | e :: rest => lo <= ack_sequence e /\ ascending (ack_sequence e) rest end.

Definition newest (lo : Z) (l : list PendingAck) : Z := default lo (ack_sequence <$> last l).

Record list_ok (lo accum : Z) (l : list PendingAck) : Prop := {
  lo_entries : Forall (entry_ok accum) l;
  lo_order : ascending lo l;
  lo_newest : newest lo l = accum
}.

Definition queue_ok (lo accum : Z) (q : PendingAckQueue) : Prop := wf q /\ list_ok lo accum (pending q).

Lemma ascending_snoc lo l e :
  ascending lo (l ++ [e]) <-> ascending lo l /\ newest lo l <= ack_sequence e.
Proof.
  revert lo. induction l as [|x l IH]; intros lo; cbn [app ascending].
  { cbn. tauto. }
  rewrite IH. unfold newest. destruct l as [|y l]; [cbn; tauto|].
  change (last (x :: y :: l)) with (last (y :: l)).
  assert (Hs : is_Some (last (y :: l))) by by apply last_is_Some.
  destruct Hs as [z ->]. cbn. tauto.
Qed.

Lemma newest_snoc lo l e : newest lo (l ++ [e]) = ack_sequence e.
Proof. unfold newest. by rewrite last_snoc. Qed.

Lemma entry_ok_grows accum accum' l :
  accum <= accum' -> Forall (entry_ok accum) l -> Forall (entry_ok accum') l.
Proof. intros Ha HF. eapply Forall_impl; [done|]. intros e [Ht Hs]. split; [done|lia]. Qed.

Lemma snoc_ok lo accum accum' l e :
  Forall (entry_ok accum) l -> ascending lo l -> newest lo l <= accum -> accum <= accum' -> s0 < accum' ->
  e = {| journal_target := target_of accum'; ack_sequence := accum' |} ->
  list_ok lo accum' (l ++ [e]).
Proof.
  intros HF Ho Hn Ha H0 ->. constructor.
  - apply Forall_app_2; [by apply (entry_ok_grows accum)|]. constructor; [|constructor]. split; cbn; [done|lia].
  - apply ascending_snoc. cbn. split; [done|lia].
  - by rewrite newest_snoc.
Qed.

Lemma push_promise lo accum accum' q :
  queue_ok lo accum q -> s0 <= accum < accum' -> queue_ok lo accum' (push q (target_of accum') accum').
Proof.
  intros [Hw [He Ho Hn]] Ha. destruct (push_ok q (target_of accum') accum' Hw) as (Hw' & _ & Hp).
  split; [done|]. rewrite Hp. destruct (is_full q) eqn:Hf; [|by eapply (snoc_ok lo accum); [..|lia|lia|]; try done; lia].
  apply Nat.leb_le in Hf. pose proof (pending_length q) as Hl. pose proof (cap_positive q Hw) as Hc.
  destruct (pending q) as [|e l _] using rev_ind; [cbn in Hl; lia|].
  rewrite merge_snoc. apply Forall_app in He as [He Hx]. apply Forall_singleton in Hx as [Ht Hs].
  apply ascending_snoc in Ho as [Ho Hle]. apply (snoc_ok lo accum); [done|done|lia|lia|lia|].
  rewrite Ht. unfold target_of. f_equal; lia.
Qed.

(** Popping at [cursor]: the new high mark is durable there, no lower than the
    old, and is everything accepted once the cursor has passed it all. *)
Lemma ready_promise lo accum l cursor :
  list_ok lo accum l ->
  forall last r l', ready l cursor last = (r, l') -> default lo last = lo ->
  let hi := default lo r in
  list_ok hi accum l' /\ lo <= hi /\ (hi = lo \/ target_of hi <= cursor) /\
  (target_of accum <= cursor -> hi = accum).
Proof.
  revert lo. induction l as [|e l IH]; intros lo [He Ho Hn] last0 r l' Hr Hlast; cbn [ready] in Hr.
  { injection Hr as <- <-. cbn zeta. rewrite Hlast. cbn in Hn. split_and!; [by constructor|lia|by left|done]. }
  apply Forall_cons_1 in He as [[Ht Hs] He]. cbn [ascending] in Ho. destruct Ho as [Hlo Ho].
  destruct (cursor <? journal_target e) eqn:Hc.
  - injection Hr as <- <-. cbn zeta. rewrite Hlast. apply Z.ltb_lt in Hc.
    split_and!; [|lia|by left|unfold target_of in *; lia].
    constructor; [by constructor|by cbn|done].
  - apply Z.ltb_ge in Hc.
    assert (Hn' : newest (ack_sequence e) l = accum).
    { rewrite <- Hn. unfold newest. destruct l as [|y l]; [done|].
      change (last (e :: y :: l)) with (last (y :: l)).
      destruct (proj2 (last_is_Some (y :: l)) ltac:(done)) as [z ->]. done. }
    destruct (IH (ack_sequence e) ltac:(by constructor) _ _ _ Hr eq_refl) as (H1 & H2 & H3 & H4). cbn zeta in *.
    assert (Hd : default lo r = default (ack_sequence e) r) by (apply ready_some in Hr; by destruct r).
    rewrite Hd. split_and!; [done|lia| |done]. right. destruct H3 as [->|]; [lia|done].
Qed.

Lemma ready_empties accum l cursor last :
  Forall (entry_ok accum) l -> target_of accum <= cursor -> snd (ready l cursor last) = [].
Proof.
  intros HF Hc. revert last. induction HF as [|e l [Ht Hs] HF IH]; intros last; [done|]. cbn [ready].
  rewrite (proj2 (Z.ltb_ge _ _)) by (unfold target_of in *; lia). apply IH.
Qed.

Lemma pop_empties lo accum q cursor :
  queue_ok lo accum q -> target_of accum <= cursor -> is_empty (snd (pop_ready q cursor)) = true.
Proof.
  intros [Hw [He _ _]] Hc. pose proof (pop_ready_ok q cursor Hw) as Hp. destruct (pop_ready q cursor) as [r q'].
  destruct Hp as (_ & _ & Hp). pose proof (ready_empties accum _ cursor None He Hc) as Hn. rewrite <- Hp in Hn.
  cbn in Hn. unfold is_empty. apply Nat.eqb_eq. cbn. by rewrite <- pending_length, Hn.
Qed.

Lemma pop_promise lo accum q cursor r q' :
  queue_ok lo accum q -> pop_ready q cursor = (r, q') ->
  let hi := default lo r in
  queue_ok hi accum q' /\ lo <= hi /\ (hi = lo \/ target_of hi <= cursor) /\
  (target_of accum <= cursor -> hi = accum).
Proof.
  intros [Hw Hl] Hr. pose proof (pop_ready_ok q cursor Hw) as Hp. rewrite Hr in Hp.
  destruct Hp as (Hw' & _ & Hp). symmetry in Hp.
  destruct (ready_promise lo accum _ cursor Hl None r _ Hp eq_refl) as (H1 & H2). cbn zeta. by split.
Qed.

Lemma pop_all_promise fuel lo accum q polls reads last r q' :
  queue_ok lo accum q -> default lo last = lo ->
  pop_all_blocking fuel q polls reads last = Some (r, q') ->
  let hi := default lo r in
  queue_ok hi accum q' /\ lo <= hi /\ (hi = lo \/ Exists (fun c => target_of hi <= c) reads).
Proof.
  revert lo q polls reads last. induction fuel as [|fuel IH]; intros lo q polls reads last Hq Hlast Hp; [done|].
  cbn [pop_all_blocking] in Hp.
  assert (Hstop : Some (last, q) = Some (r, q') ->
    queue_ok (default lo r) accum q' /\ lo <= default lo r /\ (default lo r = lo \/ Exists (fun c => target_of (default lo r) <= c) reads)).
  { intros [= <- <-]. rewrite Hlast. split_and!; [done|lia|by left]. }
  destruct (is_empty q); [by apply Hstop|].
  destruct (wait_for_journal_cursor _ _) as [[[] polls']|]; [|by apply Hstop|done].
  destruct reads as [|c reads]; [done|]. destruct (pop_ready q c) as [[v|] q1] eqn:Hr; [|done].
  destruct (pop_promise lo accum q c _ _ Hq Hr) as (Hq1 & Hle & Hd & _). cbn [from_option] in Hq1, Hle, Hd.
  change (id v) with v in *.
  destruct (IH v q1 polls' reads (Some v) Hq1 eq_refl Hp) as (H1 & H2 & H3). cbn zeta in *.
  assert (Hsome : default lo r = default v r) by (apply pop_all_some in Hp; by destruct Hp as [x ->]).
  rewrite Hsome. split_and!; [done|lia|].
  destruct H3 as [->|H3]; [|right; by apply Exists_cons_tl].
  destruct Hd as [->|Hd]; [by left|right; by apply Exists_cons_hd].
Qed.
End session.
End Promise.
