(* ===== verification/Receiver.v ===== *)
(** * The replica's receive loop

    [Stream] is frame processing ([server-runtime/src/replication/receiver_transport.rs]):
    the contiguity gate, the input ring's producer, stream marks, and the two
    loops over a receive buffer; [Session] is [streaming_loop] with its ack flush,
    receive buffer and exits, one turn per pass. What other threads and the
    transport do (flags, cursors, bytes, whether a send is accepted) is an input
    of the turn. *)

From S2P Require Import Prelude Cursors Lineage Stages Codec Wire Protocol Acks.
Import Lineage.Event Lineage.Policy Stages.Journaling Codec.Le Codec.Codec Wire.Wire Protocol.Framing
  Protocol.Control Acks.Queue.

Module Stream.

(** The input ring from the session's first index on: what consumers see, and
    the producer's open batch. *)
Record InputRing (E : Type) := { base : Z; committed : list (InputSlot E); batch : list (InputSlot E) }.
Arguments base {E} i.
Arguments committed {E} i.
Arguments batch {E} i.

(** How a push meets the ring: room at once, room after a wait (which commits
    the open batch), or given up when the journal stage failed. *)
Inductive PushFate := Immediate | Waited | Aborted (waited : bool).

Inductive StreamMark :=
| MarkRotate (boundary_seq : Z) (tail_hash : list Z)
| MarkChainCheck (sequence : Z) (hash : list Z).

Definition mark_sequence (m : StreamMark) : Z :=
  match m with MarkRotate s _ | MarkChainCheck s _ => s end.

Inductive FatalReason :=
| JournalFailed | RingFullMidPublish | SnapshotNeeded | ChainHashMismatch
| UndecodableMessage (e : DecodeError) | RefusedBatch (e : InputBatchError) | OversizedFrame.

Inductive FrameError :=
| SequenceGap (position got : Z)
| Corrupted (e : InputBatchError)
| Fatal (r : FatalReason).

Definition COMMIT_EVERY : nat := 16.
Definition MAX_SLOTS_PER_CYCLE : nat := 512.

(** A mark is queued at its position, dropped behind it, a gap ahead of it. *)
Definition queue_stream_mark (marks : list StreamMark) (pending_accum : Z) (mark : StreamMark)
    : result (list StreamMark) FrameError :=
  let position := mark_sequence mark in
  if position =? pending_accum then Ok (marks ++ [mark])
  else if position <? pending_accum then Ok marks
  else Err (SequenceGap pending_accum position).

Section stream.
Context {E : Type} `{AppEvent E}.
Context (crc32c : list Z -> Z).

Definition commit (r : InputRing E) : InputRing E :=
  {| base := base r; committed := committed r ++ batch r; batch := [] |}.

Definition next_index (r : InputRing E) : Z :=
  base r + Z.of_nat (length (committed r) + length (batch r)).

Definition push_with_or_abort (r : InputRing E) (slot : InputSlot E) (fate : PushFate) : option Z * InputRing E :=
  let after_wait := match fate with Immediate | Aborted false => r | Waited | Aborted true => commit r end in
  match fate with
  | Aborted _ => (None, after_wait)
  | _ => (Some (next_index r), {| base := base after_wait; committed := committed after_wait;
                                  batch := batch after_wait ++ [slot] |})
  end.

(** What the slot loop changes. *)
Record Accepting := {
  pending_accum : Z;
  ring : InputRing E;
  policy_record : option LineagePolicy;
  last_target : Z;
  published : nat;
  fates : list PushFate
}.

Definition accept_slot (a : Accepting) (slot : InputSlot E) : option Accepting * Accepting :=
  let fate := hd Immediate (fates a) in
  let '(index, r) := push_with_or_abort (ring a) slot fate in
  match index with
  | Some index =>
    let a' := {| pending_accum := sequence slot; ring := r;
                 policy_record := match ack_policy_change (event slot) with
                                  | Some c => shared_observe (policy_record a) (sequence slot) c
                                  | None => policy_record a
                                  end;
                 last_target := index + 1; published := published a + 1; fates := tail (fates a) |} in
    (Some a', a')
  | None => (None, {| pending_accum := pending_accum a; ring := r; policy_record := policy_record a;
                      last_target := last_target a; published := published a; fates := tail (fates a) |})
  end.

Definition commit_batch (a : Accepting) : Accepting :=
  {| pending_accum := pending_accum a; ring := commit (ring a); policy_record := policy_record a;
     last_target := last_target a; published := published a; fates := fates a |}.

(** The loop over a decoded frame's slots; [every] is the commit cadence, absent
    in the promotion drain. *)
Fixpoint publish_slots (every : option nat) (slots : list (InputSlot E)) (a : Accepting)
    : Accepting * option FrameError :=
  match slots with
  | [] => (a, None)
  | slot :: rest =>
    if sequence slot <=? pending_accum a then publish_slots every rest a
    else if negb (sequence slot =? pending_accum a + 1)
    then (a, Some (SequenceGap (pending_accum a) (sequence slot)))
    else
      match accept_slot a slot with
      | (None, a) => (a, Some (Fatal RingFullMidPublish))
      | (Some a, _) =>
        let full := match every with Some n => (n <=? length (batch (ring a)))%nat | None => false end in
        publish_slots every rest (if full then commit_batch a else a)
      end
  end.

Record Cycle := {
  acc : Accepting;
  pending_acks : PendingAckQueue;
  marks : list StreamMark;
  heard_from_primary : bool
}.

(** One complete frame's payload; an error stops the cycle before it. *)
Definition handle_frame (payload : list Z) (c : Cycle) : Cycle * option FrameError :=
  match try_decode_input_batch crc32c payload with
  | Ok [] => (c, None)
  | Ok slots =>
    let '(a, err) := publish_slots (Some COMMIT_EVERY) slots (acc c) in
    if negb (published a =? published (acc c))%nat then
      ({| acc := commit_batch a;
          pending_acks := push (pending_acks c) (last_target a) (pending_accum a);
          marks := marks c; heard_from_primary := true |}, err)
    else ({| acc := a; pending_acks := pending_acks c; marks := marks c; heard_from_primary := true |}, err)
  | Err (NotInputBatch _) =>
    let marked m :=
      match queue_stream_mark (marks c) (pending_accum (acc c)) m with
      | Ok ms => ({| acc := acc c; pending_acks := pending_acks c; marks := ms;
                     heard_from_primary := heard_from_primary c |}, None)
      | Err e => (c, Some e)
      end in
    match decode_primary_message payload with
    | Ok (Heartbeat _) => ({| acc := acc c; pending_acks := pending_acks c; marks := marks c;
                              heard_from_primary := true |}, None)
    | Ok (Rotate s h) => marked (MarkRotate s h)
    | Ok (ChainCheck s h) => marked (MarkChainCheck s h)
    | Ok NeedSnapshot => (c, Some (Fatal SnapshotNeeded))
    | Ok HashMismatch => (c, Some (Fatal ChainHashMismatch))
    | Ok _ => (c, None)
    | Err e => (c, Some (Fatal (UndecodableMessage e)))
    end
  | Err e => (c, Some (if is_transit_damage e then Corrupted e else Fatal (RefusedBatch e)))
  end.

(** The frame loop; [failed] are the latch's values at each pass. [None] when
    [fuel] ends, which {!frames_end} excludes. *)
Fixpoint process_loop (fuel : nat) (recv_buf : list Z) (consumed_bytes : nat) (failed : list bool) (c : Cycle)
    : option (nat * Cycle * option FrameError) :=
  match fuel with
  | O => None
  | S fuel =>
    if hd false failed then Some (consumed_bytes, c, Some (Fatal JournalFailed))
    else
      let remaining := drop consumed_bytes recv_buf in
      match try_extract_frame remaining MAX_DATA_FRAME with
      | Complete payload_start frame_end =>
        match handle_frame (drop payload_start (take frame_end remaining)) c with
        | (c, Some e) => Some (consumed_bytes, c, Some e)
        | (c, None) =>
          if (MAX_SLOTS_PER_CYCLE <=? published (acc c))%nat then Some (consumed_bytes + frame_end, c, None)%nat
          else process_loop fuel recv_buf (consumed_bytes + frame_end) (tail failed) c
        end
      | Oversized => Some (consumed_bytes, c, Some (Fatal OversizedFrame))
      | Incomplete => Some (consumed_bytes, c, None)
      end
  end.

Record StreamingFrameOutcome := {
  o_consumed : nat;
  o_any_published : bool;
  o_accum_end_sequence : Z;
  o_heard_from_primary : bool;
  o_frame_err : option FrameError;
  o_ring : InputRing E;
  o_policy : option LineagePolicy;
  o_acks : PendingAckQueue;
  o_marks : list StreamMark
}.

Definition process_streaming_frames (recv_buf : list Z) (r : InputRing E) (accum : Z)
    (stream_marks : list StreamMark) (lineage_policy : option LineagePolicy)
    (failed : list bool) (push_fates : list PushFate) (acks : PendingAckQueue) : option StreamingFrameOutcome :=
  let start := {| acc := {| pending_accum := accum; ring := r; policy_record := lineage_policy;
                            last_target := 0; published := 0; fates := push_fates |};
                  pending_acks := acks; marks := stream_marks; heard_from_primary := false |} in
  '(n, c, err) ← process_loop (S (length recv_buf)) recv_buf 0 failed start;
  Some {| o_consumed := n; o_any_published := negb (published (acc c) =? 0)%nat;
          o_accum_end_sequence := pending_accum (acc c); o_heard_from_primary := heard_from_primary c;
          o_frame_err := err; o_ring := commit (ring (acc c)); o_policy := policy_record (acc c);
          o_acks := pending_acks c; o_marks := marks c |}.

(** The promotion drain: only batches matter, and any refusal stops it. *)
Fixpoint drain_loop (fuel : nat) (recv_buf : list Z) (consumed_bytes : nat) (a : Accepting)
    : option (nat * Accepting) :=
  match fuel with
  | O => None
  | S fuel =>
    let remaining := drop consumed_bytes recv_buf in
    match try_extract_frame remaining MAX_DATA_FRAME with
    | Complete payload_start frame_end =>
      match try_decode_input_batch crc32c (drop payload_start (take frame_end remaining)) with
      | Ok slots =>
        match publish_slots None slots a with
        | (a, Some _) => Some (consumed_bytes, a)
        | (a, None) => drain_loop fuel recv_buf (consumed_bytes + frame_end) a
        end
      | Err (NotInputBatch _) => drain_loop fuel recv_buf (consumed_bytes + frame_end) a
      | Err _ => Some (consumed_bytes, a)
      end
    | _ => Some (consumed_bytes, a)
    end
  end.

Definition process_drain_frames (recv_buf : list Z) (r : InputRing E) (accum : Z)
    (lineage_policy : option LineagePolicy) (push_fates : list PushFate) : option (nat * Accepting) :=
  '(n, a) ← drain_loop (S (length recv_buf)) recv_buf 0
    {| pending_accum := accum; ring := r; policy_record := lineage_policy; last_target := 0;
       published := 0; fates := push_fates |};
  Some (n, commit_batch a).
End stream.
Arguments Accepting E : clear implicits.
Arguments Cycle E : clear implicits.
Arguments StreamingFrameOutcome E : clear implicits.
End Stream.

(** ** What a receive cycle accepts *)
Module Accepted.
Import Stream Acks.Abstract Acks.Promise.

Section accepted.
Context {E : Type} `{AppEvent E}.
Context (crc32c : list Z -> Z).

(** Every slot pushed, consumers' view and open batch. *)
Definition slots_in (r : InputRing E) : list (InputSlot E) := committed r ++ batch r.

(** The slots of a session that starts after sequence [s0], in order. *)
Definition numbered (s0 : Z) (slots : list (InputSlot E)) : Prop :=
  forall i slot, slots !! i = Some slot -> sequence slot = s0 + 1 + Z.of_nat i.

(** The lineage policy once [slots] are accepted. *)
Definition policy_after (p : option LineagePolicy) (slots : list (InputSlot E)) : option LineagePolicy :=
  foldl (fun p slot => match ack_policy_change (event slot) with
                       | Some c => shared_observe p (sequence slot) c
                       | None => p
                       end) p slots.

(** [slot] was decoded from a whole batch frame lying in [bytes]. *)
Definition shipped_in (bytes : list Z) (slot : InputSlot E) : Prop :=
  exists off payload slots, take (length payload) (drop off bytes) = payload /\
    try_decode_input_batch crc32c payload = Ok slots /\ slot ∈ slots.

Lemma numbered_snoc s0 slots slot :
  numbered s0 slots -> sequence slot = s0 + Z.of_nat (length slots) + 1 -> numbered s0 (slots ++ [slot]).
Proof.
  intros Hn Hs i x Hx. apply lookup_snoc_Some in Hx as [[_ Hx]|[-> <-]]; [by apply Hn|lia].
Qed.

Lemma slots_commit (r : InputRing E) : slots_in (commit r) = slots_in r.
Proof. unfold slots_in, commit. cbn. by rewrite app_nil_r. Qed.

Record coherent (b s0 : Z) (a : Accepting E) : Prop := {
  co_base : base (ring a) = b;
  co_accum : pending_accum a = s0 + Z.of_nat (length (slots_in (ring a)));
  co_numbered : numbered s0 (slots_in (ring a))
}.

(** [a'] is [a] with [new] accepted. *)
Record accepts (b s0 : Z) (new : list (InputSlot E)) (a a' : Accepting E) : Prop := {
  ac_coherent : coherent b s0 a';
  ac_slots : slots_in (ring a') = slots_in (ring a) ++ new;
  ac_policy : policy_record a' = policy_after (policy_record a) new;
  ac_published : published a' = (published a + length new)%nat
}.

Lemma accepts_nil b s0 a a' :
  coherent b s0 a -> slots_in (ring a') = slots_in (ring a) -> base (ring a') = base (ring a) ->
  pending_accum a' = pending_accum a -> policy_record a' = policy_record a -> published a' = published a ->
  accepts b s0 [] a a'.
Proof.
  intros [Hb Ha Hn] Hs Hb' Ha' Hp Hq. constructor; [|by rewrite app_nil_r|done|cbn; lia].
  constructor; [congruence|by rewrite Ha', Hs|by rewrite Hs].
Qed.

Lemma accepts_trans b s0 n1 n2 a1 a2 a3 :
  accepts b s0 n1 a1 a2 -> accepts b s0 n2 a2 a3 -> accepts b s0 (n1 ++ n2) a1 a3.
Proof.
  intros [C1 S1 P1 Q1] [C2 S2 P2 Q2]. constructor; [done|by rewrite S2, S1, app_assoc| |].
  - rewrite P2, P1. unfold policy_after. by rewrite foldl_app.
  - rewrite Q2, Q1, length_app. lia.
Qed.

Lemma accum_grows b s0 new a a' :
  coherent b s0 a -> accepts b s0 new a a' ->
  s0 <= pending_accum a /\ pending_accum a' = pending_accum a + Z.of_nat (length new).
Proof.
  intros Hc Hac. rewrite (co_accum _ _ _ Hc), (co_accum _ _ _ (ac_coherent _ _ _ _ _ Hac)), (ac_slots _ _ _ _ _ Hac).
  rewrite length_app. lia.
Qed.

(** One slot at its turn. *)
Lemma accept_one b s0 a slot :
  coherent b s0 a -> sequence slot = pending_accum a + 1 ->
  match accept_slot a slot with
  | (Some a', _) => accepts b s0 [slot] a a' /\ last_target a' = target_of b s0 (pending_accum a')
  | (None, a') => accepts b s0 [] a a' /\ last_target a' = last_target a
  end.
Proof.
  intros [Hb Ha Hn] Hs. unfold accept_slot, push_with_or_abort.
  assert (Hi : next_index (ring a) + 1 = target_of b s0 (sequence slot)).
  { unfold next_index, target_of. rewrite Hb, Hs, Ha. unfold slots_in. rewrite length_app. lia. }
  assert (Hok : forall r, slots_in r = slots_in (ring a) -> base r = b ->
    accepts b s0 [slot] a {| pending_accum := sequence slot;
      ring := {| base := base r; committed := committed r; batch := batch r ++ [slot] |};
      policy_record := match ack_policy_change (event slot) with
                       | Some c => shared_observe (policy_record a) (sequence slot) c | None => policy_record a end;
      last_target := next_index (ring a) + 1; published := published a + 1; fates := tail (fates a) |}).
  { intros r Hr Hbr. assert (Hall : slots_in {| base := base r; committed := committed r; batch := batch r ++ [slot] |}
      = slots_in (ring a) ++ [slot]) by (rewrite <- Hr; unfold slots_in; cbn; by rewrite app_assoc).
    constructor; cbn [pending_accum ring policy_record last_target published]; try done.
    constructor; cbn [ring pending_accum base]; [done|rewrite Hall, length_app; cbn [length]; lia|].
    rewrite Hall. apply numbered_snoc; [done|lia]. }
  destruct (hd Immediate (fates a)) as [| |w]; cbn [fst].
  - split; [by apply Hok|done].
  - split; [apply (Hok (commit (ring a))); [apply slots_commit|done]|done].
  - split; [|done]. apply accepts_nil; try done; destruct w; try done; apply slots_commit.
Qed.

Lemma accepts_commit b s0 new a a' : accepts b s0 new a a' -> accepts b s0 new a (commit_batch a').
Proof.
  intros [[Hb Ha Hn] S P Q]. constructor; cbn [commit_batch ring]; rewrite ?slots_commit; try done.
  constructor; cbn [commit_batch ring pending_accum]; rewrite ?slots_commit; done.
Qed.

Lemma publish_slots_ok b s0 every slots a :
  coherent b s0 a ->
  exists new, accepts b s0 new a (fst (publish_slots every slots a)) /\ Forall (fun s => s ∈ slots) new /\
    last_target (fst (publish_slots every slots a))
    = match new with [] => last_target a | _ => target_of b s0 (pending_accum (fst (publish_slots every slots a))) end.
Proof.
  revert a. induction slots as [|slot slots IH]; intros a Hc; cbn [publish_slots].
  { exists []. cbn [fst]. split; [by apply accepts_nil|done]. }
  assert (Hsub : forall new : list (InputSlot E), Forall (fun s => s ∈ slots) new -> Forall (fun s => s ∈ slot :: slots) new)
    by (intros new HF; eapply Forall_impl; [exact HF|]; intros x Hx; by right).
  destruct (sequence slot <=? pending_accum a).
  { destruct (IH a Hc) as (new & H1 & H2 & H3). exists new. split_and!; [done|by apply Hsub|done]. }
  destruct (sequence slot =? pending_accum a + 1) eqn:Hs; cbn [negb].
  2:{ exists []. cbn [fst]. split; [by apply accepts_nil|done]. }
  apply Z.eqb_eq in Hs. pose proof (accept_one b s0 a slot Hc Hs) as Ho.
  destruct (accept_slot a slot) as [[a1|] a1']; destruct Ho as [Ho Ht].
  2:{ exists []. cbn [fst]. split; [done|]. split; [constructor|done]. }
  set (full := match every with Some n => _ | None => _ end).
  assert (Ho2 : accepts b s0 [slot] a (if full then commit_batch a1 else a1)) by (destruct full; [by apply accepts_commit|done]).
  destruct (IH _ (ac_coherent _ _ _ _ _ Ho2)) as (new & H1 & H2 & H3).
  exists (slot :: new). split_and!; [|constructor; [left|by apply Hsub]|].
  { apply (accepts_trans b s0 [slot] new a _ _ Ho2 H1). }
  destruct new as [|x new]; [|done]. rewrite H3.
  destruct (accum_grows _ _ _ _ _ (ac_coherent _ _ _ _ _ Ho2) H1) as [_ ->]. cbn [length]. rewrite Z.add_0_r.
  by destruct full.
Qed.

(** The slots of the batch frame whose payload this is. *)
Definition decoded_from (payload : list Z) (slot : InputSlot E) : Prop :=
  exists slots, try_decode_input_batch crc32c payload = Ok slots /\ slot ∈ slots.

Lemma handle_frame_ok b s0 lo payload c :
  coherent b s0 (acc c) -> queue_ok b s0 lo (pending_accum (acc c)) (pending_acks c) ->
  let c' := fst (handle_frame crc32c payload c) in
  exists new, accepts b s0 new (acc c) (acc c') /\ Forall (decoded_from payload) new /\
    queue_ok b s0 lo (pending_accum (acc c')) (pending_acks c').
Proof.
  intros Hc Hq. cbn zeta. unfold handle_frame.
  assert (Hsame : forall c', acc c' = acc c -> pending_acks c' = pending_acks c ->
    exists new, accepts b s0 new (acc c) (acc c') /\ Forall (decoded_from payload) new /\
      queue_ok b s0 lo (pending_accum (acc c')) (pending_acks c')).
  { intros c' -> ->. exists []. split; [by apply accepts_nil|done]. }
  destruct (try_decode_input_batch crc32c payload) as [[|slot slots]|e] eqn:Hd; [by apply Hsame| |].
  - destruct (publish_slots_ok b s0 (Some COMMIT_EVERY) (slot :: slots) (acc c) Hc) as (new & Hac & Hin & Ht).
    destruct (publish_slots _ _ _) as [a err]. cbn [fst] in Hac, Ht.
    destruct (accum_grows _ _ _ _ _ Hc Hac) as [H0 Hg].
    assert (Hfrom : Forall (decoded_from payload) new)
      by (eapply Forall_impl; [exact Hin|]; intros x Hx; by exists (slot :: slots)).
    exists new. destruct (published a =? published (acc c))%nat eqn:Hp; cbn [negb fst acc pending_acks].
    + apply Nat.eqb_eq in Hp. rewrite (ac_published _ _ _ _ _ Hac) in Hp.
      assert (Hl : length new = 0%nat) by lia. rewrite Hg, Hl, Z.add_0_r. done.
    + apply Nat.eqb_neq in Hp. rewrite (ac_published _ _ _ _ _ Hac) in Hp.
      split_and!; [by apply accepts_commit|done|]. cbn [commit_batch pending_accum].
      destruct new as [|x new]; [cbn in Hp; lia|]. rewrite Ht. cbn [length] in Hg.
      apply push_promise with (accum := pending_accum (acc c)); [done|lia].
  - destruct e; try (by apply Hsame). destruct (decode_primary_message payload) as [[]|]; try (by apply Hsame);
      by destruct (queue_stream_mark _ _ _); apply Hsame.
Qed.

Lemma extract_complete bytes limit ps fe :
  try_extract_frame bytes limit = Complete ps fe -> ps = 4%nat /\ (4 < fe <= length bytes)%nat.
Proof.
  unfold try_extract_frame, split_frame_limited, consumed, PREFIX_LEN.
  destruct (length bytes <? 4)%nat eqn:Hl; [done|]. apply Nat.ltb_ge in Hl.
  destruct (_ <=? limit); [|done]. destruct (_ <=? Z.of_nat _) eqn:Hf; [|done].
  apply Z.leb_le in Hf. rewrite length_drop in Hf.
  destruct (length (take _ _) =? 0)%nat eqn:Hz; [done|]. apply Nat.eqb_neq in Hz.
  intros [= <- <-]. rewrite length_take, length_drop in *. lia.
Qed.

(** The payload of a complete frame is a stretch of the buffer. *)
Lemma decoded_shipped bytes n fe slot :
  (4 < fe <= length (drop n bytes))%nat ->
  decoded_from (drop 4 (take fe (drop n bytes))) slot -> shipped_in bytes slot.
Proof.
  intros Hfe (slots & Hd & Hin). exists (n + 4)%nat, (drop 4 (take fe (drop n bytes))), slots.
  split; [|done]. rewrite length_drop, length_take, Nat.min_l by lia.
  rewrite <- (drop_drop bytes 4 n), take_drop_commute. do 2 f_equal. lia.
Qed.

(** A cycle from [c] at byte [n] ends with [res]: some slots accepted, the ack
    queue still truthful, and without an error only because the cycle is full
    or the rest of the buffer is not yet a whole frame. *)
Definition cycle_ok (b s0 lo : Z) (bytes : list Z) (n : nat) (c : Cycle E)
    (res : option (nat * Cycle E * option FrameError)) : Prop :=
  exists n' c' err new, res = Some (n', c', err) /\
    accepts b s0 new (acc c) (acc c') /\ Forall (shipped_in bytes) new /\
    queue_ok b s0 lo (pending_accum (acc c')) (pending_acks c') /\ (n <= n' <= length bytes)%nat /\
    (err = None -> (MAX_SLOTS_PER_CYCLE <= published (acc c'))%nat \/
                   try_extract_frame (drop n' bytes) MAX_DATA_FRAME = Incomplete).

Lemma process_loop_ok b s0 lo fuel bytes n failed c :
  coherent b s0 (acc c) -> queue_ok b s0 lo (pending_accum (acc c)) (pending_acks c) ->
  (n <= length bytes)%nat -> (length bytes - n < fuel)%nat ->
  cycle_ok b s0 lo bytes n c (process_loop crc32c fuel bytes n failed c).
Proof.
  revert n failed c. induction fuel as [|fuel IH]; intros n failed c Hc Hq Hn Hf; [lia|]. cbn [process_loop].
  assert (Hstop : forall err : option FrameError,
    (err = None -> try_extract_frame (drop n bytes) MAX_DATA_FRAME = Incomplete) ->
    cycle_ok b s0 lo bytes n c (Some (n, c, err))).
  { intros err He. exists n, c, err, []. split_and!; try done; [by apply accepts_nil|]. intros Hn'. right. by apply He. }
  destruct (hd false failed); [by apply Hstop|].
  destruct (try_extract_frame (drop n bytes) MAX_DATA_FRAME) as [ps fe| |] eqn:Hx; [|by apply Hstop..].
  destruct (extract_complete _ _ _ _ Hx) as [-> Hfe]. pose proof Hfe as Hlen. rewrite length_drop in Hlen.
  destruct (handle_frame_ok b s0 lo (drop 4 (take fe (drop n bytes))) c Hc Hq) as (new & Hac & Hin & Hq').
  assert (Hship : Forall (shipped_in bytes) new)
    by (eapply Forall_impl; [exact Hin|]; intros x; by apply decoded_shipped).
  destruct (handle_frame _ _ _) as [c1 [e|]]; cbn [fst] in Hac, Hq'.
  { exists n, c1, (Some e), new. by split_and!. }
  destruct (MAX_SLOTS_PER_CYCLE <=? published (acc c1))%nat eqn:Hcap.
  { apply Nat.leb_le in Hcap. exists (n + fe)%nat, c1, None, new. split_and!; try done; [lia..|by left]. }
  destruct (IH (n + fe)%nat (tail failed) c1 (ac_coherent _ _ _ _ _ Hac) Hq' ltac:(lia) ltac:(lia))
    as (n' & c' & err & new' & Hp & Hac' & Hs' & Hq'' & Hr & He).
  exists n', c', err, (new ++ new'). split_and!; [done| |by apply Forall_app_2|done|lia|lia|done].
  apply (accepts_trans _ _ _ _ _ _ _ Hac Hac').
Qed.

(** What the gate takes of a run of slots from position [pos]: each slot that
    is next in the sequence when it comes, and no other. *)
Fixpoint taken (pos : Z) (slots : list (InputSlot E)) : list (InputSlot E) :=
  match slots with
  | [] => []
  | slot :: rest => if sequence slot =? pos + 1 then slot :: taken (pos + 1) rest else taken pos rest
  end.

Lemma taken_split pos l1 l2 :
  taken pos (l1 ++ l2) = taken pos l1 ++ taken (pos + Z.of_nat (length (taken pos l1))) l2.
Proof.
  revert pos. induction l1 as [|x l1 IH]; intros pos; cbn [taken Datatypes.app length]; [by rewrite Z.add_0_r|].
  destruct (sequence x =? pos + 1); rewrite IH; [|done]. cbn [length Datatypes.app]. do 3 f_equal. lia.
Qed.

(** The slots a frame's payload carries, and the frames at the front of a buffer. *)
Definition carried (payload : list Z) : list (InputSlot E) :=
  match try_decode_input_batch crc32c payload with Ok slots => slots | Err _ => [] end.

Inductive framed : list Z -> list (list Z) -> list Z -> Prop :=
| framed_none bytes : framed bytes [] bytes
| framed_next bytes s e payloads rest :
    try_extract_frame bytes MAX_DATA_FRAME = Complete s e -> framed (drop e bytes) payloads rest ->
    framed bytes (drop s (take e bytes) :: payloads) rest.

(** Why the payload of a whole frame is refused at position [pos], once [front]
    of its slots have been through the gate. *)
Definition refused (payload : list Z) (pos : Z) (front : list (InputSlot E)) (e : FrameError) : Prop :=
  match e with
  | SequenceGap p got => p = pos /\
      ((exists slot rest, try_decode_input_batch crc32c payload = Ok (front ++ slot :: rest) /\
          sequence slot = got /\ pos + 1 < got) \/
       (front = [] /\ pos < got /\ exists h, decode_primary_message payload = Ok (Rotate got h) \/
                                           decode_primary_message payload = Ok (ChainCheck got h)))
  | Corrupted e => front = [] /\ try_decode_input_batch crc32c payload = Err e /\ is_transit_damage e = true
  | Fatal RingFullMidPublish => exists slot rest,
      try_decode_input_batch crc32c payload = Ok (front ++ slot :: rest) /\ sequence slot = pos + 1
  | Fatal SnapshotNeeded => front = [] /\ decode_primary_message payload = Ok NeedSnapshot
  | Fatal ChainHashMismatch => front = [] /\ decode_primary_message payload = Ok HashMismatch
  | Fatal (UndecodableMessage e) => front = [] /\ decode_primary_message payload = Err e
  | Fatal (RefusedBatch e) => front = [] /\ try_decode_input_batch crc32c payload = Err e /\ is_transit_damage e = false
  | Fatal JournalFailed | Fatal OversizedFrame => False
  end.

(** How a cycle that took [count] slots ends, before [rest] of the buffer. *)
Definition stopped (failed : list bool) (pos : Z) (count : nat) (rest : list Z) (front : list (InputSlot E))
    (err : option FrameError) : Prop :=
  match err with
  | None => front = [] /\ ((MAX_SLOTS_PER_CYCLE <= count)%nat \/ try_extract_frame rest MAX_DATA_FRAME = Incomplete)
  | Some (Fatal JournalFailed) => front = [] /\ true ∈ failed
  | Some (Fatal OversizedFrame) => front = [] /\ try_extract_frame rest MAX_DATA_FRAME = Oversized
  | Some e => exists s f, try_extract_frame rest MAX_DATA_FRAME = Complete s f /\
                          refused (drop s (take f rest)) pos front e
  end.

(** [a'] is [a] once [slots] have all been through the gate. *)
Definition gated (slots : list (InputSlot E)) (a a' : Accepting E) : Prop :=
  slots_in (ring a') = slots_in (ring a) ++ taken (pending_accum a) slots /\
  Forall (fun slot => sequence slot <= pending_accum a') slots.

Lemma gated_app b s0 l1 l2 new a1 a2 a3 :
  coherent b s0 a1 -> coherent b s0 a2 -> accepts b s0 new a2 a3 ->
  gated l1 a1 a2 -> gated l2 a2 a3 -> gated (l1 ++ l2) a1 a3.
Proof.
  intros C1 C2 Hac [S1 F1] [S2 F2].
  assert (Hp : pending_accum a2 = pending_accum a1 + Z.of_nat (length (taken (pending_accum a1) l1)))
    by (pose proof (co_accum _ _ _ C1); pose proof (co_accum _ _ _ C2) as H2; rewrite S1, length_app in H2; lia).
  split; [by rewrite S2, S1, taken_split, <- Hp, app_assoc|]. apply Forall_app_2; [|done].
  destruct (accum_grows _ _ _ _ _ C2 Hac) as [_ Hg]. eapply Forall_impl; [exact F1|]. intros x Hx. cbn beta in *. lia.
Qed.

Lemma publish_exact b s0 every slots a :
  coherent b s0 a ->
  let '(a', err) := publish_slots every slots a in
  exists front, gated front a a' /\
    match err with
    | None => front = slots
    | Some e => exists slot rest, slots = front ++ slot :: rest /\
        (e = SequenceGap (pending_accum a') (sequence slot) /\ pending_accum a' + 1 < sequence slot \/
         e = Fatal RingFullMidPublish /\ sequence slot = pending_accum a' + 1)
    end.
Proof.
  revert a. induction slots as [|slot slots IH]; intros a Hc; cbn [publish_slots].
  { exists []. split; [|done]. split; [by rewrite app_nil_r|done]. }
  assert (Hskip : forall (a1 : Accepting E) new, coherent b s0 a1 -> accepts b s0 new a a1 -> gated [slot] a a1 ->
    let '(a', err) := publish_slots every slots a1 in
    exists front, gated front a a' /\
      match err with
      | None => front = slot :: slots
      | Some e => exists x rest, slot :: slots = front ++ x :: rest /\
          (e = SequenceGap (pending_accum a') (sequence x) /\ pending_accum a' + 1 < sequence x \/
           e = Fatal RingFullMidPublish /\ sequence x = pending_accum a' + 1)
      end).
  { intros a1 new C1 A1 G1. specialize (IH a1 C1).
    pose proof (publish_slots_ok b s0 every slots a1 C1) as (new' & Hac & _).
    destruct (publish_slots every slots a1) as [a' err]. cbn [fst] in Hac. destruct IH as (front & G & He).
    exists (slot :: front). split; [exact (gated_app b s0 [slot] front new' a a1 a' Hc C1 Hac G1 G)|].
    destruct err as [e|]; [|by rewrite He]. destruct He as (x & rest & -> & He). by exists x, rest. }
  destruct (sequence slot <=? pending_accum a) eqn:Hle.
  { apply Z.leb_le in Hle. apply (Hskip a []); [done|by apply accepts_nil|].
    split; [|by constructor]. cbn [taken]. rewrite (proj2 (Z.eqb_neq _ _)) by lia. by rewrite app_nil_r. }
  apply Z.leb_gt in Hle. destruct (sequence slot =? pending_accum a + 1) eqn:Hs; cbn [negb].
  2:{ apply Z.eqb_neq in Hs. exists []. split; [split; [by rewrite app_nil_r|done]|].
      exists slot, slots. split; [done|]. left. split; [done|lia]. }
  apply Z.eqb_eq in Hs. pose proof (accept_one b s0 a slot Hc Hs) as Ho.
  destruct (accept_slot a slot) as [[a1|] a1']; destruct Ho as [Ho _].
  - set (full := match every with Some n => _ | None => _ end).
    assert (Ho2 : accepts b s0 [slot] a (if full then commit_batch a1 else a1)) by (destruct full; [by apply accepts_commit|done]).
    pose proof (ac_coherent _ _ _ _ _ Ho2) as C2.
    apply (Hskip _ [slot] C2 Ho2). destruct (accum_grows _ _ _ _ _ Hc Ho2) as [_ Hg]. cbn [length] in Hg.
    split; [|constructor; [lia|done]]. rewrite (ac_slots _ _ _ _ _ Ho2). cbn [taken]. by rewrite Hs, Z.eqb_refl.
  - exists []. destruct (accum_grows _ _ _ _ _ Hc Ho) as [_ Hg]. cbn [length] in Hg.
    split; [split; [exact (ac_slots _ _ _ _ _ Ho)|done]|]. exists slot, slots. split; [done|]. right. split; [done|lia].
Qed.

Lemma mark_exact ms pos m : queue_stream_mark ms pos m = Ok ms \/ queue_stream_mark ms pos m = Ok (ms ++ [m]) \/
  queue_stream_mark ms pos m = Err (SequenceGap pos (mark_sequence m)) /\ pos < mark_sequence m.
Proof.
  unfold queue_stream_mark. destruct (_ =? _) eqn:H1; [by right; left|]. destruct (_ <? _) eqn:H2; [by left|].
  right; right. split; [done|lia].
Qed.

Lemma handle_frame_exact b s0 payload c :
  coherent b s0 (acc c) ->
  let '(c', err) := handle_frame crc32c payload c in
  exists front, gated front (acc c) (acc c') /\
    match err with None => front = carried payload | Some e => refused payload (pending_accum (acc c')) front e end.
Proof.
  intros Hc. unfold handle_frame, carried.
  assert (Hno : gated [] (acc c) (acc c)) by (split; [by rewrite app_nil_r|done]).
  destruct (try_decode_input_batch crc32c payload) as [[|slot slots]|e] eqn:Hd; [by exists []| |].
  - pose proof (publish_exact b s0 (Some COMMIT_EVERY) (slot :: slots) (acc c) Hc) as Hp.
    destruct (publish_slots _ _ _) as [a err]. destruct Hp as (front & [HS HF] & He).
    assert (Hres : match err with None => front = slot :: slots | Some e => refused payload (pending_accum a) front e end).
    { destruct err as [e|]; [|done]. destruct He as (x & rest & Heq & [[-> Hgt]|[-> Hx]]); cbn [refused]; rewrite Hd, Heq.
      - split; [done|]. left. by exists x, rest.
      - by exists x, rest. }
    destruct (negb _); cbn [acc pending_accum commit_batch]; exists front; (split; [|exact Hres]); [|by split].
    split; [cbn [commit_batch ring]; by rewrite slots_commit|done].
  - destruct e; try (exists []; split; [done|]; cbn [refused is_transit_damage]; done).
    assert (Hmark : forall m, (exists h, decode_primary_message payload = Ok (Rotate (mark_sequence m) h) \/
                                         decode_primary_message payload = Ok (ChainCheck (mark_sequence m) h)) ->
      let '(c', err) := match queue_stream_mark (marks c) (pending_accum (acc c)) m with
        | Ok ms => ({| acc := acc c; pending_acks := pending_acks c; marks := ms; heard_from_primary := heard_from_primary c |}, None)
        | Err e => (c, Some e)
        end in
      exists front, gated front (acc c) (acc c') /\
        match err with None => front = [] | Some e => refused payload (pending_accum (acc c')) front e end).
    { intros m Hm. destruct (mark_exact (marks c) (pending_accum (acc c)) m) as [->|[->|[-> Hlt]]]; exists []; [done..|].
      split; [done|]. cbn [refused]. split; [done|]. by right. }
    destruct (decode_primary_message payload) as [[]|] eqn:Hm; try (exists []; split; [done|]; cbn [refused]; done);
      (apply Hmark; eexists; cbn [mark_sequence]; eauto).
Qed.

Lemma process_loop_exact b s0 lo fuel bytes n failed c n' c' err :
  coherent b s0 (acc c) -> queue_ok b s0 lo (pending_accum (acc c)) (pending_acks c) -> (n <= length bytes)%nat ->
  (length bytes - n < fuel)%nat -> process_loop crc32c fuel bytes n failed c = Some (n', c', err) ->
  exists payloads front, framed (drop n bytes) payloads (drop n' bytes) /\
    gated (concat (map carried payloads) ++ front) (acc c) (acc c') /\
    stopped failed (pending_accum (acc c')) (published (acc c')) (drop n' bytes) front err.
Proof.
  revert n failed c. induction fuel as [|fuel IH]; intros n failed c Hc Hq Hn Hfu; [done|]. cbn [process_loop].
  assert (Hno : gated [] (acc c) (acc c)) by (split; [by rewrite app_nil_r|done]).
  destruct (hd false failed) eqn:Hl.
  { intros [= <- <- <-]. exists [], []. split; [constructor|]. split; [done|]. split; [done|].
    destruct failed as [|x failed]; [done|]. cbn in Hl. subst x. by left. }
  destruct (try_extract_frame (drop n bytes) MAX_DATA_FRAME) as [ps fe| |] eqn:Hx.
  - destruct (extract_complete _ _ _ _ Hx) as [_ Hfe]. rewrite length_drop in Hfe.
    pose proof (handle_frame_exact b s0 (drop ps (take fe (drop n bytes))) c Hc) as Hf.
    pose proof (handle_frame_ok b s0 lo (drop ps (take fe (drop n bytes))) c Hc Hq) as (new & Hac & _ & Hq1).
    destruct (handle_frame _ _ _) as [c1 [e|]]; cbn [fst] in Hac, Hq1; destruct Hf as (front & Hg & He).
    + intros [= <- <- <-]. exists [], front. split; [constructor|]. split; [done|].
      unfold stopped. destruct e as [| |[]]; try (by exists ps, fe); by cbn [refused] in He.
    + subst front. pose proof (ac_coherent _ _ _ _ _ Hac) as C1.
      destruct (MAX_SLOTS_PER_CYCLE <=? published (acc c1))%nat eqn:Hcap.
      { intros [= <- <- <-]. apply Nat.leb_le in Hcap. exists [drop ps (take fe (drop n bytes))], [].
        split; [rewrite <- drop_drop; apply framed_next; [done|constructor]|]. cbn [map concat]. rewrite !app_nil_r.
        split; [done|]. split; [done|by left]. }
      intros Hp. assert (Hn1 : (n + fe <= length bytes)%nat) by lia. assert (Hfu1 : (length bytes - (n + fe) < fuel)%nat) by lia.
      destruct (IH _ _ _ C1 Hq1 Hn1 Hfu1 Hp) as (payloads & front & HF & Hg' & Hst).
      exists (drop ps (take fe (drop n bytes)) :: payloads), front. split; [|split].
      * apply framed_next; [done|]. by rewrite drop_drop.
      * cbn [map concat]. rewrite <- app_assoc.
        destruct (process_loop_ok b s0 lo fuel bytes (n + fe) (tail failed) c1 C1 Hq1 Hn1 Hfu1)
          as (n2 & c2 & err2 & new2 & Hp2 & Hac2 & _). rewrite Hp in Hp2. injection Hp2 as <- <- <-.
        exact (gated_app _ _ _ _ _ _ _ _ Hc C1 Hac2 Hg Hg').
      * unfold stopped in *. destruct err as [[| |[]]|]; try done. destruct Hst as [-> Hin]. split; [done|].
        destruct failed; [by apply not_elem_of_nil in Hin|by right].
  - intros [= <- <- <-]. exists [], []. split; [constructor|]. split; [done|]. split; [done|by right].
  - intros [= <- <- <-]. exists [], []. split; [constructor|]. by split.
Qed.

(** The receiver between cycles: nothing in an open batch. *)
Definition settled (b s0 : Z) (r : InputRing E) (accum : Z) : Prop :=
  base r = b /\ batch r = [] /\ accum = s0 + Z.of_nat (length (committed r)) /\ numbered s0 (committed r).

Lemma settled_coherent b s0 r accum p target pub fs :
  settled b s0 r accum ->
  coherent b s0 {| pending_accum := accum; ring := r; policy_record := p; last_target := target;
                   published := pub; fates := fs |}.
Proof.
  intros (Hb & Hbatch & Ha & Hn). constructor; cbn [ring pending_accum]; unfold slots_in;
    rewrite ?Hbatch, ?app_nil_r; done.
Qed.

Lemma coherent_settled b s0 a : coherent b s0 a -> settled b s0 (commit (ring a)) (pending_accum a).
Proof. intros [Hb Ha Hn]. done. Qed.

Lemma streaming_ok b s0 lo bytes r accum ms p failed fs acks :
  settled b s0 r accum -> queue_ok b s0 lo accum acks ->
  exists o new, process_streaming_frames crc32c bytes r accum ms p failed fs acks = Some o /\
    committed (o_ring o) = committed r ++ new /\ settled b s0 (o_ring o) (o_accum_end_sequence o) /\
    Forall (shipped_in bytes) new /\ o_policy o = policy_after p new /\
    queue_ok b s0 lo (o_accum_end_sequence o) (o_acks o) /\ (o_consumed o <= length bytes)%nat /\
    o_any_published o = negb (length new =? 0)%nat /\
    (o_frame_err o = None -> (MAX_SLOTS_PER_CYCLE <= length new)%nat \/
       try_extract_frame (drop (o_consumed o) bytes) MAX_DATA_FRAME = Incomplete).
Proof.
  intros Hs Hq. unfold process_streaming_frames. set (start := {| acc := _ |}).
  pose proof (settled_coherent b s0 r accum p 0 0%nat fs Hs) as Hc.
  destruct (process_loop_ok b s0 lo (S (length bytes)) bytes 0 failed start Hc Hq ltac:(lia) ltac:(lia))
    as (n & c & err & new & -> & Hac & Hship & Hq' & Hn & He).
  cbn [mbind option_bind]. eexists _, new. split; [done|].
  cbn [o_ring o_accum_end_sequence o_policy o_acks o_consumed o_any_published o_frame_err].
  pose proof (ac_published _ _ _ _ _ Hac) as Hp. cbn [start acc published] in Hp.
  split_and!; [|by apply coherent_settled, (ac_coherent _ _ _ _ _ Hac)|done| |done|lia|by rewrite Hp|by rewrite Hp in He].
  - pose proof (ac_slots _ _ _ _ _ Hac) as Hslots. destruct Hs as (_ & Hb & _).
    unfold slots_in in Hslots. cbn [start acc ring] in Hslots. rewrite Hb, app_nil_r in Hslots. done.
  - apply (ac_policy _ _ _ _ _ Hac).
Qed.

Lemma drain_loop_ok b s0 fuel bytes n a :
  coherent b s0 a -> (n <= length bytes)%nat -> (length bytes - n < fuel)%nat ->
  exists n' a' new, drain_loop crc32c fuel bytes n a = Some (n', a') /\ accepts b s0 new a a' /\
    Forall (shipped_in bytes) new /\ (n <= n' <= length bytes)%nat /\
    last_target a' = match new with [] => last_target a | _ => target_of b s0 (pending_accum a') end.
Proof.
  revert n a. induction fuel as [|fuel IH]; intros n a Hc Hn Hf; [lia|]. cbn [drain_loop].
  assert (Hstop : exists n' a' new, Some (n, a) = Some (n', a') /\ accepts b s0 new a a' /\
    Forall (shipped_in bytes) new /\ (n <= n' <= length bytes)%nat /\
    last_target a' = match new with [] => last_target a | _ => target_of b s0 (pending_accum a') end)
    by (exists n, a, []; split_and!; try done; by apply accepts_nil).
  destruct (try_extract_frame (drop n bytes) MAX_DATA_FRAME) as [ps fe| |] eqn:Hx; [|done..].
  destruct (extract_complete _ _ _ _ Hx) as [-> Hfe]. pose proof Hfe as Hlen. rewrite length_drop in Hlen.
  set (payload := drop 4 (take fe (drop n bytes))).
  destruct (try_decode_input_batch crc32c payload) as [slots|e] eqn:Hd.
  2:{ destruct e; try done. destruct (IH (n + fe)%nat a Hc ltac:(lia) ltac:(lia)) as (n' & a' & new & -> & Hac & Hs & Hr & Ht).
      exists n', a', new. split_and!; try done; lia. }
  destruct (publish_slots_ok b s0 None slots a Hc) as (new & Hac & Hin & Ht).
  assert (Hship : Forall (shipped_in bytes) new).
  { eapply Forall_impl; [exact Hin|]. intros x Hxin. apply (decoded_shipped bytes n fe); [done|]. by exists slots. }
  destruct (publish_slots _ _ _) as [a1 [e|]]; cbn [fst] in Hac, Ht.
  { exists n, a1, new. by split_and!. }
  destruct (IH (n + fe)%nat a1 (ac_coherent _ _ _ _ _ Hac) ltac:(lia) ltac:(lia)) as (n' & a' & new' & -> & Hac' & Hs' & Hr' & Ht').
  exists n', a', (new ++ new'). split_and!; [done|by eapply accepts_trans|by apply Forall_app_2|lia|lia|].
  destruct new' as [|x new']; [|destruct new; done].
  rewrite app_nil_r, Ht', Ht. destruct new; [done|]. f_equal.
  destruct (accum_grows _ _ _ _ _ (ac_coherent _ _ _ _ _ Hac) Hac') as [_ ->]. cbn; lia.
Qed.

Hypothesis crc_range : forall bs, in_u32 (crc32c bs).

(** Bytes in [bytes] carry [slot] under the checksum of the entry this node
    will journal for it. *)
Definition verified_in (bytes : list Z) (slot : InputSlot E) : Prop :=
  exists off chunk, take (length chunk) (drop off bytes) = chunk /\ Verified.verified crc32c slot chunk.

Lemma stretch_of_stretch (bytes inner chunk : list Z) i j :
  take (length inner) (drop i bytes) = inner -> take (length chunk) (drop j inner) = chunk ->
  exists k, take (length chunk) (drop k bytes) = chunk.
Proof.
  intros Hi Hj. exists (i + j)%nat. rewrite <- Hj at 2. rewrite <- Hi at 1. rewrite <- (drop_drop bytes j i).
  rewrite skipn_firstn_comm, take_take. f_equal. apply (f_equal length) in Hj.
  rewrite length_take, length_drop in Hj. lia.
Qed.

Lemma chunk_of_slot slots chunks (slot : InputSlot E) :
  Forall2 (Verified.verified crc32c) slots chunks -> slot ∈ slots ->
  exists j chunk, take (length chunk) (drop j (concat chunks)) = chunk /\ Verified.verified crc32c slot chunk.
Proof.
  intros HF. induction HF as [|x c slots chunks Hv HF IH]; intros Hin; [by apply not_elem_of_nil in Hin|].
  apply elem_of_cons in Hin as [->|Hin].
  - exists 0%nat, c. cbn. rewrite drop_0. by rewrite take_app_length.
  - destruct (IH Hin) as (j & chunk & Ht & Hvc). exists (length c + j)%nat, chunk. cbn.
    by rewrite drop_app_add.
Qed.

Lemma shipped_verified bytes slot : is_bytes bytes -> shipped_in bytes slot -> verified_in bytes slot.
Proof.
  intros Hb (off & payload & slots & Hp & Hd & Hin).
  assert (Hpb : is_bytes payload) by (rewrite <- Hp; by apply is_bytes_take, is_bytes_drop).
  unfold try_decode_input_batch in Hd. destruct payload as [|tag rest]; [done|]. destruct (negb _); [done|].
  destruct (_ <? 3)%nat; [done|].
  destruct (Verified.decode_slots_sound crc32c crc_range _ _ _ (is_bytes_drop 3 _ Hpb) Hd) as (_ & chunks & Hc & HF).
  destruct (chunk_of_slot _ _ _ HF Hin) as (j & chunk & Ht & Hv). rewrite <- Hc, drop_drop in Ht.
  destruct (stretch_of_stretch _ _ _ _ _ Hp Ht) as [k Hk]. by exists k, chunk.
Qed.

(** A whole cycle: the outcome is the loop's, committed. *)
Lemma streaming_exact b s0 lo bytes r accum ms p failed fs acks o :
  settled b s0 r accum -> queue_ok b s0 lo accum acks ->
  process_streaming_frames crc32c bytes r accum ms p failed fs acks = Some o ->
  exists payloads front, framed bytes payloads (drop (o_consumed o) bytes) /\
    let read := concat (map carried payloads) ++ front in
    committed (o_ring o) = committed r ++ taken accum read /\
    Forall (fun slot => sequence slot <= o_accum_end_sequence o) read /\
    stopped failed (o_accum_end_sequence o) (length (taken accum read)) (drop (o_consumed o) bytes) front (o_frame_err o).
Proof.
  intros Hs Hq. unfold process_streaming_frames. set (start := {| acc := _ |}).
  pose proof (settled_coherent b s0 r accum p 0 0%nat fs Hs) as Hc.
  destruct (process_loop_ok b s0 lo (S (length bytes)) bytes 0 failed start Hc Hq ltac:(lia) ltac:(lia))
    as (n & c & err & new & Hp & Hac & _). rewrite Hp. cbn [mbind option_bind]. intros [= <-].
  destruct (process_loop_exact b s0 lo (S (length bytes)) bytes 0 failed start n c err Hc Hq ltac:(lia) ltac:(lia) Hp)
    as (payloads & front & HF & [HS HL] & Hst). exists payloads, front. rewrite drop_0 in HF. split; [done|].
  cbn [o_ring o_consumed o_accum_end_sequence o_frame_err]. destruct Hs as (_ & Hb & _).
  assert (Hin : slots_in (ring (acc start)) = committed r) by (unfold slots_in; cbn [start acc ring]; by rewrite Hb, app_nil_r).
  rewrite Hin in HS. split; [exact HS|]. split; [exact HL|].
  pose proof (ac_slots _ _ _ _ _ Hac) as Hnew. rewrite Hin, HS in Hnew. apply app_inv_head in Hnew.
  pose proof (ac_published _ _ _ _ _ Hac) as Hpub. cbn [start acc published] in Hpub. rewrite <- Hnew in Hpub.
  by rewrite Hpub in Hst.
Qed.

(** C17: The gate into a replica's pipeline. Whatever bytes a receive cycle is
    handed, it ends, having read whole frames from the front of the buffer and,
    on an error, the front of one more. Of all the slots in what it read it has
    put into the input ring, in order, exactly those that were next in the
    sequence when they came: a slot at or behind the position is passed over
    without ending its frame, and none ahead of it gets past the gate. What it
    put there is a run with no gap or repeat, each slot verified against the
    checksum of the entry this replica will itself journal, and the lineage
    policy has moved by exactly the changes among them. Without an error the
    cycle stopped at its slot cap or where the rest of the buffer is not yet a
    whole frame; with one, the frame at its stop is the one the error names: a
    gap at the first slot or mark past the position, a batch or message that
    does not decode, a verdict of the primary, an oversized prefix, a ring
    given up on or the journal's failure latch. *)
Theorem receive_gate b s0 lo bytes r accum ms p failed fs q :
  is_bytes bytes -> settled b s0 r accum -> queue_ok b s0 lo accum q ->
  exists o payloads front, process_streaming_frames crc32c bytes r accum ms p failed fs q = Some o /\
    framed bytes payloads (drop (o_consumed o) bytes) /\
    let read := concat (map carried payloads) ++ front in let accepted := taken accum read in
    Forall (fun slot => sequence slot <= o_accum_end_sequence o) read /\
    committed (o_ring o) = committed r ++ accepted /\ batch (o_ring o) = [] /\
    (forall i slot, accepted !! i = Some slot -> sequence slot = accum + 1 + Z.of_nat i) /\
    o_accum_end_sequence o = accum + Z.of_nat (length accepted) /\
    Forall (verified_in bytes) accepted /\ o_policy o = policy_after p accepted /\
    stopped failed (o_accum_end_sequence o) (length accepted) (drop (o_consumed o) bytes) front (o_frame_err o).
Proof.
  intros Hb Hs Hq.
  destruct (streaming_ok b s0 lo bytes r accum ms p failed fs q Hs Hq)
    as (o & accepted & Ho & Hring & Hs' & Hship & Hpol & _).
  destruct (streaming_exact b s0 lo bytes r accum ms p failed fs q o Hs Hq Ho) as (payloads & front & HF & HC & HL & Hst).
  exists o, payloads, front. cbv zeta. set (read := concat (map carried payloads) ++ front) in *.
  assert (Heq : accepted = taken accum read) by (rewrite Hring in HC; by apply app_inv_head in HC). subst accepted.
  destruct Hs as (_ & _ & Ha & _), Hs' as (_ & Hbatch & Ha' & Hn'). rewrite Hring in Ha', Hn'. split_and!; try done.
  - intros i slot Hi. rewrite (Hn' (length (committed r) + i)%nat slot); [lia|].
    rewrite lookup_app_r by lia. by rewrite Nat.add_comm, Nat.add_sub.
  - rewrite Ha', length_app. lia.
  - eapply Forall_impl; [exact Hship|]. intros slot. by apply shipped_verified.
Qed.
End accepted.
End Accepted.

(** ** The streaming loop *)
Module Session.
Import Stream.

Inductive SendOutcome := SendAccepted | SendRefused | SendFailed.

Inductive SessionExit :=
| ExitShutdown | ExitPromote | ExitDisconnected
| ExitStreamGap (position got : Z) | ExitCorrupted (e : InputBatchError) | ExitFatal (r : FatalReason).

(** Everything one pass of the loop reads from outside. *)
Record Turn := {
  shutdown : bool;
  journal_failed : bool;
  promote : bool;
  in_flight : bool;
  journal_cursor : Z;
  send : SendOutcome;
  received : option (list Z);
  connected : bool;
  frame_failed : list bool;
  push_fates : list PushFate;
  drained : list (list Z * bool);
  polls : list (Z * bool);
  reads : list Z
}.

Record Session (E : Type) := {
  recv_buf : list Z;
  recv_offset : nat;
  accum_end_sequence : Z;
  last_sent_acked_seq : Z;
  last_sent_in_memory_seq : Z;
  input : InputRing E;
  lineage_ack_policy : option LineagePolicy;
  acks : PendingAckQueue;
  stream_marks : list StreamMark;
  journal_tip : Z;
  heard : bool
}.
Arguments recv_buf {E} s.
Arguments recv_offset {E} s.
Arguments accum_end_sequence {E} s.
Arguments last_sent_acked_seq {E} s.
Arguments last_sent_in_memory_seq {E} s.
Arguments input {E} s.
Arguments lineage_ack_policy {E} s.
Arguments acks {E} s.
Arguments stream_marks {E} s.
Arguments journal_tip {E} s.
Arguments heard {E} s.

Definition RECV_COMPACT_THRESHOLD : nat := 64 * 1024.

Section session.
Context {E : Type} `{AppEvent E}.
Context (crc32c : list Z -> Z).

(** The loop's local state at its start; [None] is the queue's panic. *)
Definition start_session (initial_buf : list Z) (pipeline_depth : nat) (initial_sequence tip : Z)
    (r : InputRing E) (p : option LineagePolicy) (ms : list StreamMark) : option (Session E) :=
  q ← new pipeline_depth;
  Some {| recv_buf := initial_buf; recv_offset := 0; accum_end_sequence := initial_sequence;
          last_sent_acked_seq := initial_sequence; last_sent_in_memory_seq := initial_sequence;
          input := r; lineage_ack_policy := p; acks := q; stream_marks := ms;
          journal_tip := Cursors.Slots.tip_advance tip initial_sequence; heard := false |}.

Definition with_acks (s : Session E) (q : PendingAckQueue) (acked in_memory : Z) : Session E :=
  {| recv_buf := recv_buf s; recv_offset := recv_offset s; accum_end_sequence := accum_end_sequence s;
     last_sent_acked_seq := acked; last_sent_in_memory_seq := in_memory; input := input s;
     lineage_ack_policy := lineage_ack_policy s; acks := q; stream_marks := stream_marks s;
     journal_tip := journal_tip s; heard := heard s |}.

Definition with_buf (s : Session E) (buf : list Z) (offset : nat) : Session E :=
  {| recv_buf := buf; recv_offset := offset; accum_end_sequence := accum_end_sequence s;
     last_sent_acked_seq := last_sent_acked_seq s; last_sent_in_memory_seq := last_sent_in_memory_seq s;
     input := input s; lineage_ack_policy := lineage_ack_policy s; acks := acks s;
     stream_marks := stream_marks s; journal_tip := journal_tip s; heard := heard s |}.

(** The ack offered to the transport, if any, and whether the loop goes on. *)
Definition flush_acks (s : Session E) (t : Turn) : Session E * option Ack * bool :=
  if in_flight t then (s, None, true)
  else
    match try_flush_dual_track (acks s) (journal_cursor t) (accum_end_sequence s)
            (last_sent_acked_seq s) (last_sent_in_memory_seq s) with
    | (None, q) => (with_acks s q (last_sent_acked_seq s) (last_sent_in_memory_seq s), None, true)
    | (Some ack, q) =>
      match send t with
      | SendAccepted => (with_acks s q (acked_sequence ack) (in_memory_sequence ack), Some ack, true)
      | SendRefused => (with_acks s q (last_sent_acked_seq s) (last_sent_in_memory_seq s), Some ack, true)
      | SendFailed => (with_acks s q (last_sent_acked_seq s) (last_sent_in_memory_seq s), Some ack, false)
      end
    end.

(** [drain_pending_acks]: the final ack offered; [None] while it waits. *)
Definition drain_pending_acks (s : Session E) (t : Turn) : option (Session E * option Ack) :=
  match pop_all_blocking (S (len (acks s))) (acks s) (polls t) (reads t) None with
  | None => None
  | Some (popped, q) =>
    Some (with_acks s q (last_sent_acked_seq s) (last_sent_in_memory_seq s),
          option_map (fun seq => {| acked_sequence := seq; in_memory_sequence := accum_end_sequence s |}) popped)
  end.

(** One pass of the promotion's drain, after [bytes] arrived. *)
Definition drain_pass (s : Session E) (fs : list PushFate) (bytes : list Z) : option (Session E * list PushFate) :=
  let buf := recv_buf s ++ bytes in
  '(n, a) ← process_drain_frames crc32c buf (input s) (accum_end_sequence s) (lineage_ack_policy s) fs;
  Some ({| recv_buf := compact_recv_buf buf n; recv_offset := recv_offset s;
           accum_end_sequence := pending_accum a;
           last_sent_acked_seq := last_sent_acked_seq s; last_sent_in_memory_seq := last_sent_in_memory_seq s;
           input := ring a; lineage_ack_policy := policy_record a;
           acks := if negb (published a =? 0)%nat then push (acks s) (last_target a) (pending_accum a) else acks s;
           stream_marks := stream_marks s; journal_tip := Cursors.Slots.tip_advance (journal_tip s) (pending_accum a);
           heard := heard s |}, fates a).

(** Passes until the transport has nothing more; a pass beyond the list finds
    nothing. *)
Fixpoint promotion_drain (s : Session E) (fs : list PushFate) (passes : list (list Z * bool)) : option (Session E) :=
  match passes with
  | [] => fst <$> drain_pass s fs []
  | (bytes, got_more) :: rest =>
    '(s, fs) ← drain_pass s fs bytes;
    if got_more then promotion_drain s fs rest else Some s
  end.

Definition exit_of (e : FrameError) : SessionExit :=
  match e with
  | SequenceGap position got => ExitStreamGap position got
  | Corrupted e => ExitCorrupted e
  | Fatal r => ExitFatal r
  end.

(** Frames parsed, the buffer compacted. *)
Definition receive (s : Session E) (t : Turn) : option (Session E * option FrameError) :=
  o ← process_streaming_frames crc32c (drop (recv_offset s) (recv_buf s)) (input s) (accum_end_sequence s)
        (stream_marks s) (lineage_ack_policy s) (frame_failed t) (push_fates t) (acks s);
  let offset := (recv_offset s + o_consumed o)%nat in
  let '(buf, offset) :=
    if (offset =? length (recv_buf s))%nat then ([], 0%nat)
    else if (RECV_COMPACT_THRESHOLD <=? offset)%nat then (compact_recv_buf (recv_buf s) offset, 0%nat)
    else (recv_buf s, offset) in
  Some ({| recv_buf := buf; recv_offset := offset; accum_end_sequence := o_accum_end_sequence o;
           last_sent_acked_seq := last_sent_acked_seq s; last_sent_in_memory_seq := last_sent_in_memory_seq s;
           input := o_ring o; lineage_ack_policy := o_policy o; acks := o_acks o; stream_marks := o_marks o;
           journal_tip := Cursors.Slots.tip_advance (journal_tip s) (o_accum_end_sequence o);
           heard := heard s || o_heard_from_primary o |}, o_frame_err o).

(** An exit that drains the pending acks first. *)
Definition finish (s : Session E) (t : Turn) (sent : list Ack) (exit : SessionExit)
    : option (Session E * list Ack * option SessionExit) :=
  match drain_pending_acks s t with
  | None => None
  | Some (s, final) => Some (s, sent ++ option_list final, Some exit)
  end.

(** One pass of the loop: the session, the acks offered to the transport, and
    why the loop ended if it did. [None] while a final drain waits. *)
Definition turn (s : Session E) (t : Turn) : option (Session E * list Ack * option SessionExit) :=
  if shutdown t then finish s t [] ExitShutdown
  else if journal_failed t then Some (s, [], Some (ExitFatal JournalFailed))
  else if promote t then
    s ← promotion_drain (with_buf s (compact_recv_buf (recv_buf s) (recv_offset s)) 0) (push_fates t) (drained t);
    finish s t [] ExitPromote
  else
    let '(s, offered, goes_on) := flush_acks s t in
    if negb goes_on then Some (s, option_list offered, Some ExitDisconnected)
    else
      match received t with
      | None => Some (s, option_list offered, Some ExitDisconnected)
      | Some bytes =>
        let s := with_buf s (recv_buf s ++ bytes) (recv_offset s) in
        if negb (connected t) && (recv_offset s =? length (recv_buf s))%nat
        then finish s t (option_list offered) ExitDisconnected
        else
          '(s, err) ← receive s t;
          Some (s, option_list offered, option_map exit_of err)
      end.

(** [streaming_loop]: turns until an exit; [None] exit while more turns would follow. *)
Fixpoint streaming_loop (s : Session E) (turns : list Turn) : option (Session E * list Ack * option SessionExit) :=
  match turns with
  | [] => Some (s, [], None)
  | t :: rest =>
    '(s, sent, exit) ← turn s t;
    match exit with
    | Some e => Some (s, sent, Some e)
    | None => '(s, more, exit) ← streaming_loop s rest; Some (s, sent ++ more, exit)
    end
  end.
End session.
End Session.

(** ** What the acks of a session mean *)
Module Truth.
Import Stream Session Accepted Acks.Abstract Acks.Promise.

Section truth.
Context {E : Type} `{AppEvent E}.
Context (crc32c : list Z -> Z).
(** The ring index and the sequence the session starts from, and the highest
    journal cursor value read so far. *)
Context (b s0 D : Z).

Definition durable (s : Z) : Prop := s = s0 \/ target_of b s0 s <= D.

(** [lo] is the highest sequence popped from the queue. *)
Record session_ok (lo : Z) (s : Session E) : Prop := {
  so_settled : settled b s0 (input s) (accum_end_sequence s);
  so_queue : queue_ok b s0 lo (accum_end_sequence s) (acks s);
  so_durable : durable lo;
  so_sent : s0 <= last_sent_acked_seq s <= lo;
  so_lo : lo <= accum_end_sequence s;
  so_in_memory : last_sent_in_memory_seq s <= accum_end_sequence s
}.

Definition truthful (accum : Z) (a : Ack) : Prop :=
  s0 <= acked_sequence a <= in_memory_sequence a /\ durable (acked_sequence a) /\ in_memory_sequence a <= accum.

Lemma durable_le s s' : durable s' -> s0 <= s <= s' -> durable s.
Proof. intros [->|Hd] Hs; [left; lia|]. right. unfold target_of in *. lia. Qed.

Lemma durable_at c s lo : durable lo -> c <= D -> s = lo \/ target_of b s0 s <= c -> durable s.
Proof. intros Hd Hc [->|Hs]; [done|right; lia]. Qed.

(** Once everything is popped the queue's newest is the mark itself. *)
Lemma hi_le_accum hi accum q : queue_ok b s0 hi accum q -> hi <= accum.
Proof.
  intros [_ [He Ho Hn]]. rewrite <- Hn. clear He Hn. revert hi Ho.
  induction (pending q) as [|e l IH]; intros hi Ho; [cbn; lia|].
  cbn [ascending] in Ho. destruct Ho as [Hle Ho]. specialize (IH _ Ho).
  unfold newest in *. destruct l as [|y l]; [cbn in *; lia|].
  change (last (e :: y :: l)) with (last (y :: l)).
  destruct (proj2 (last_is_Some (y :: l)) ltac:(done)) as [z Hz]. rewrite Hz in *. cbn in *. lia.
Qed.

Lemma with_acks_ok lo lo' s q acked in_memory :
  session_ok lo s -> queue_ok b s0 lo' (accum_end_sequence s) q -> durable lo' -> lo <= lo' ->
  s0 <= acked <= lo' -> in_memory <= accum_end_sequence s ->
  session_ok lo' (with_acks s q acked in_memory).
Proof.
  intros [Hs Hq Hd Hsent Hlo Hm] Hq' Hd' Hle Ha Hi.
  constructor; cbn [with_acks input accum_end_sequence acks last_sent_acked_seq last_sent_in_memory_seq]; try done.
  by apply (hi_le_accum lo' _ q).
Qed.

(** What a flush offers, and where it leaves the marks. *)
Lemma flush_ok lo s t :
  session_ok lo s -> journal_cursor t <= D ->
  let '(s', offered, _) := flush_acks s t in
  exists lo', lo <= lo' /\ session_ok lo' s' /\ input s' = input s /\ accum_end_sequence s' = accum_end_sequence s /\
    recv_buf s' = recv_buf s /\
    Forall (truthful (accum_end_sequence s)) (option_list offered) /\
    (send t = SendAccepted -> last_sent_acked_seq s = lo -> last_sent_acked_seq s' = lo') /\
    (in_flight t = false -> target_of b s0 (accum_end_sequence s) <= journal_cursor t -> lo' = accum_end_sequence s).
Proof.
  intros Hs Hc. unfold flush_acks. destruct (in_flight t).
  { exists lo. by split_and!. }
  unfold try_flush_dual_track. destruct (pop_ready (acks s) (journal_cursor t)) as [popped q] eqn:Hp.
  destruct (pop_promise b s0 lo _ _ _ _ _ (so_queue _ _ Hs) Hp) as (Hq & Hle & Hd & Hall). cbn zeta in *.
  set (hi := default lo popped) in *. pose proof (hi_le_accum _ _ _ Hq) as Hhi.
  pose proof (so_sent _ _ Hs) as Hsent. pose proof (so_in_memory _ _ Hs) as Him.
  assert (Hdur : durable hi) by (eapply durable_at; [apply (so_durable _ _ Hs)|exact Hc|done]).
  set (acked := default (last_sent_acked_seq s) popped).
  assert (s0 <= acked <= hi /\ (last_sent_acked_seq s = lo -> acked = hi)) as [Hak Heqk].
  { unfold acked, hi in *. destruct popped; cbn in *; lia. }
  assert (Hstale : session_ok hi (with_acks s q (last_sent_acked_seq s) (last_sent_in_memory_seq s)))
    by (apply (with_acks_ok lo); done || lia).
  destruct (_ || _) eqn:Hfire.
  2:{ apply orb_false_iff in Hfire as [Hf _]. apply Z.ltb_ge in Hf. exists hi. split_and!; try done.
      intros _ Heq. cbn [with_acks last_sent_acked_seq]. lia. }
  assert (Htrue : Forall (truthful (accum_end_sequence s))
    (option_list (Some {| acked_sequence := acked; in_memory_sequence := accum_end_sequence s |}))).
  { constructor; [|constructor]. split; [cbn; lia|]. split; [|cbn; lia]. cbn. by apply (durable_le _ hi). }
  destruct (send t); exists hi; split_and!; try done.
  apply (with_acks_ok lo); done || (cbn; lia).
Qed.

Lemma drain_acks_ok lo s t s' final :
  session_ok lo s -> Forall (fun c => c <= D) (reads t) -> drain_pending_acks s t = Some (s', final) ->
  exists lo', lo <= lo' /\ session_ok lo' s' /\ input s' = input s /\ accum_end_sequence s' = accum_end_sequence s /\
    Forall (truthful (accum_end_sequence s)) (option_list final).
Proof.
  intros Hs Hr Hd. unfold drain_pending_acks in Hd.
  destruct (pop_all_blocking _ _ _ _ _) as [[popped q]|] eqn:Hp; [|done]. simplify_eq.
  destruct (pop_all_promise b s0 _ lo _ _ _ _ None _ _ (so_queue _ _ Hs) eq_refl Hp) as (Hq & Hle & Hx). cbn zeta in *.
  set (hi := default lo popped) in *. pose proof (hi_le_accum _ _ _ Hq) as Hhi. pose proof (so_sent _ _ Hs) as Hsent.
  assert (Hdur : durable hi).
  { destruct Hx as [->|Hx]; [apply (so_durable _ _ Hs)|]. apply Exists_exists in Hx as (c & Hin & Hc).
    rewrite Forall_forall in Hr. specialize (Hr c Hin). right. lia. }
  exists hi. split_and!; try done.
  - apply (with_acks_ok lo); try done; [lia|apply (so_in_memory _ _ Hs)].
  - destruct popped as [v|]; [|constructor]. constructor; [|constructor]. cbn in *.
    split; [cbn; lia|]. split; [done|cbn; lia].
Qed.

(** The ring only grows, and keeps its order. *)
Definition grown (s s' : Session E) : Prop :=
  committed (input s) `prefix_of` committed (input s') /\ accum_end_sequence s <= accum_end_sequence s'.

Lemma settled_grown (r r' : InputRing E) accum accum' new :
  settled b s0 r accum -> settled b s0 r' accum' -> committed r' = committed r ++ new ->
  committed r `prefix_of` committed r' /\ accum <= accum'.
Proof.
  intros (_ & _ & -> & _) (_ & _ & -> & _) ->. split; [by apply prefix_app_r|]. rewrite length_app. lia.
Qed.

Lemma grown_trans s1 s2 s3 : grown s1 s2 -> grown s2 s3 -> grown s1 s3.
Proof. intros [P1 A1] [P2 A2]. split; [by etrans|lia]. Qed.

Lemma drain_pass_ok lo s fs bytes s' fs' :
  session_ok lo s -> drain_pass crc32c s fs bytes = Some (s', fs') -> session_ok lo s' /\ grown s s'.
Proof.
  intros [Hset Hq Hd Hsent Hlo Hm] Hp. unfold drain_pass, process_drain_frames in Hp.
  set (start := {| pending_accum := _ |}) in Hp.
  assert (Hc : coherent b s0 start) by by apply settled_coherent.
  destruct (drain_loop_ok crc32c b s0 (S (length (recv_buf s ++ bytes))) (recv_buf s ++ bytes) 0 start Hc
    ltac:(lia) ltac:(lia)) as (n & a & new & Hl & Hac & _ & _ & Ht).
  rewrite Hl in Hp. cbn [mbind option_bind] in Hp. injection Hp as <- <-.
  destruct (accum_grows _ _ _ _ _ Hc Hac) as [H0 Hg]. cbn [start pending_accum] in H0, Hg.
  pose proof (coherent_settled _ _ _ (ac_coherent _ _ _ _ _ Hac)) as Hset'.
  pose proof (ac_slots _ _ _ _ _ Hac) as Hslots. cbn [start ring] in Hslots.
  pose proof Hset as (_ & Hbatch & _ & _). unfold slots_in at 2 in Hslots. rewrite Hbatch, app_nil_r in Hslots.
  split; [|by apply (settled_grown _ _ _ _ new Hset Hset')].
  constructor; cbn [input accum_end_sequence acks last_sent_acked_seq last_sent_in_memory_seq commit_batch ring
    pending_accum last_target published]; try done; try lia.
  pose proof (ac_published _ _ _ _ _ Hac) as Hpub. cbn [start published] in Hpub. rewrite Hpub, Nat.add_0_l.
  destruct new as [|x new]; cbn [length Nat.eqb negb] in *; [by rewrite Hg, Z.add_0_r|].
  rewrite Ht. apply push_promise with (accum := accum_end_sequence s); [done|lia].
Qed.

Lemma promotion_ok lo s fs passes s' :
  session_ok lo s -> promotion_drain crc32c s fs passes = Some s' ->
  session_ok lo s' /\ grown s s'.
Proof.
  revert s fs. induction passes as [|[bytes more] rest IH]; intros s fs Hs Hp; cbn [promotion_drain] in Hp.
  - destruct (drain_pass crc32c s fs []) as [[s1 fs1]|] eqn:Hd; [|done]. cbn in Hp. simplify_eq.
    by apply (drain_pass_ok lo s fs [] s' fs1).
  - destruct (drain_pass crc32c s fs bytes) as [[s1 fs1]|] eqn:Hd; [|done]. cbn in Hp.
    destruct (drain_pass_ok _ _ _ _ _ _ Hs Hd) as [Hs1 Hg1].
    destruct more; [|by simplify_eq]. destruct (IH _ _ Hs1 Hp) as [Hs2 Hg2]. split; [done|by eapply grown_trans].
Qed.

Lemma with_buf_ok lo s buf off : session_ok lo s -> session_ok lo (with_buf s buf off).
Proof. intros []. by constructor. Qed.

Lemma receive_ok lo s t :
  session_ok lo s ->
  exists s' err, receive crc32c s t = Some (s', err) /\ session_ok lo s' /\ grown s s' /\
    last_sent_acked_seq s' = last_sent_acked_seq s.
Proof.
  intros [Hset Hq Hd Hsent Hlo Hm]. unfold receive.
  destruct (streaming_ok crc32c b s0 lo (drop (recv_offset s) (recv_buf s)) (input s) (accum_end_sequence s)
    (stream_marks s) (lineage_ack_policy s) (frame_failed t) (push_fates t) (acks s) Hset Hq)
    as (o & new & -> & Hring & Hset' & _ & _ & Hq' & _). cbn [mbind option_bind].
  destruct (settled_grown _ _ _ _ new Hset Hset' Hring) as [Hp Ha].
  destruct (if (_ =? _)%nat then _ else _) as [buf off]. eexists _, _. split; [done|].
  split; [|done]. constructor; cbn [input accum_end_sequence acks last_sent_acked_seq last_sent_in_memory_seq]; done || lia.
Qed.

Definition reads_below (t : Turn) : Prop := journal_cursor t <= D /\ Forall (fun c => c <= D) (reads t).

(** Acks stay truthful as the session accepts more. *)
Lemma truthful_grows accum accum' l :
  accum <= accum' -> Forall (truthful accum) l -> Forall (truthful accum') l.
Proof. intros Ha HF. eapply Forall_impl; [exact HF|]. intros a (H1 & H2 & H3). split_and!; done || lia. Qed.

Lemma finish_ok lo s t sent exit s' sent' exit' :
  session_ok lo s -> reads_below t -> Forall (truthful (accum_end_sequence s)) sent ->
  finish s t sent exit = Some (s', sent', exit') ->
  (exists lo', session_ok lo' s') /\ grown s s' /\ Forall (truthful (accum_end_sequence s')) sent' /\ exit' = Some exit.
Proof.
  intros Hs [_ Hr] Hsent Hf. unfold finish in Hf.
  destruct (drain_pending_acks s t) as [[s1 final]|] eqn:Hd; [|done]. simplify_eq.
  destruct (drain_acks_ok _ _ _ _ _ Hs Hr Hd) as (lo' & _ & Hs' & Hi & Ha & Hfin).
  split_and!; [by exists lo'| |rewrite Ha; by apply Forall_app_2|done].
  split; [by rewrite Hi|lia].
Qed.

Lemma turn_ok lo s t s' sent exit :
  session_ok lo s -> reads_below t -> turn crc32c s t = Some (s', sent, exit) ->
  exists lo', session_ok lo' s' /\ grown s s' /\ Forall (truthful (accum_end_sequence s')) sent /\
    (exit = None -> send t = SendAccepted -> last_sent_acked_seq s = lo -> last_sent_acked_seq s' = lo').
Proof.
  intros Hs Hr Ht. unfold turn in Ht.
  destruct (shutdown t).
  { destruct (finish_ok _ _ _ _ _ _ _ _ Hs Hr ltac:(constructor) Ht) as ([lo' ?] & ? & ? & ->). by exists lo'. }
  destruct (journal_failed t).
  { simplify_eq. exists lo. split_and!; done. }
  destruct (promote t).
  { destruct (promotion_drain _ _ _ _) as [s1|] eqn:Hp; [|done]. cbn [mbind option_bind] in Ht.
    destruct (promotion_ok _ _ _ _ _ (with_buf_ok _ _ _ _ Hs) Hp) as [Hs1 Hg1].
    destruct (finish_ok _ _ _ _ _ _ _ _ Hs1 Hr ltac:(constructor) Ht) as ([lo' ?] & Hg2 & ? & ->).
    exists lo'. split_and!; try done. by apply (grown_trans s s1). }
  pose proof (flush_ok lo s t Hs (proj1 Hr)) as Hf.
  destruct (flush_acks s t) as [[s1 offered] goes_on].
  destruct Hf as (lo1 & Hle & Hs1 & Hi & Ha & _ & Htrue & Hsync & _).
  assert (Hg1 : grown s s1) by (split; [by rewrite Hi|lia]). rewrite <- Ha in Htrue.
  destruct goes_on; cbn [negb] in Ht; [|simplify_eq; by exists lo1; split_and!].
  destruct (received t) as [bytes|]; [|simplify_eq; by exists lo1; split_and!].
  set (s2 := with_buf s1 _ _) in Ht. assert (Hs2 : session_ok lo1 s2) by by apply with_buf_ok.
  destruct (negb (connected t) && _).
  { destruct (finish_ok _ _ _ _ _ _ _ _ Hs2 Hr Htrue Ht) as ([lo' ?] & Hg2 & ? & ->).
    exists lo'. split_and!; try done. by apply (grown_trans s s1). }
  destruct (receive_ok lo1 s2 t Hs2) as (s3 & err & Hrec & Hs3 & Hg3 & Hlast). rewrite Hrec in Ht.
  cbn [mbind option_bind] in Ht. simplify_eq. exists lo1. split_and!; [done|by apply (grown_trans s s1)| |].
  - eapply truthful_grows; [apply Hg3|]. done.
  - intros _ Hsend Heq. rewrite Hlast. by apply Hsync.
Qed.

Lemma loop_ok lo s turns s' sent exit :
  session_ok lo s -> Forall reads_below turns -> streaming_loop crc32c s turns = Some (s', sent, exit) ->
  exists lo', session_ok lo' s' /\ grown s s' /\ Forall (truthful (accum_end_sequence s')) sent /\
    (exit = None -> Forall (fun t => send t = SendAccepted) turns -> last_sent_acked_seq s = lo ->
     last_sent_acked_seq s' = lo').
Proof.
  revert lo s sent. induction turns as [|t turns IH]; intros lo s sent Hs Hr Hl; cbn [streaming_loop] in Hl.
  { simplify_eq. exists lo. split_and!; done. }
  apply Forall_cons_1 in Hr as [Hrt Hr].
  destruct (turn crc32c s t) as [[[s1 sent1] exit1]|] eqn:Ht; [|done]. cbn [mbind option_bind] in Hl.
  destruct (turn_ok _ _ _ _ _ _ Hs Hrt Ht) as (lo1 & Hs1 & Hg1 & Htr1 & Hsync1).
  destruct exit1 as [e|].
  { simplify_eq. exists lo1. by split_and!. }
  destruct (streaming_loop crc32c s1 turns) as [[[s2 sent2] exit2]|] eqn:Hl2; [|done].
  cbn [mbind option_bind] in Hl. simplify_eq.
  destruct (IH _ _ _ Hs1 Hr Hl2) as (lo2 & Hs2 & Hg2 & Htr2 & Hsync2). exists lo2.
  split_and!; [done|by eapply grown_trans|apply Forall_app_2; [|done]; eapply truthful_grows; [apply Hg2|done]|].
  intros He Hacc Heq. apply Forall_cons_1 in Hacc as [Ha Hacc]. apply Hsync2; [done..|]. by apply Hsync1.
Qed.

Lemma session_starts buf depth tip r p ms s :
  start_session buf depth s0 tip r p ms = Some s -> base r = b -> committed r = [] -> batch r = [] ->
  session_ok s0 s /\ last_sent_acked_seq s = s0.
Proof.
  intros Hs Hb Hc Hba. unfold start_session in Hs. destruct (new depth) as [q|] eqn:Hq; [|done].
  cbn [mbind option_bind] in Hs. injection Hs as <-. destruct (new_ok _ _ Hq) as (Hw & Hp & _).
  split; [|done]. constructor; cbn [input accum_end_sequence acks last_sent_acked_seq last_sent_in_memory_seq]; try lia.
  - split_and!; [done|done|rewrite Hc; cbn; lia|]. rewrite Hc. intros i slot Hi. by rewrite lookup_nil in Hi.
  - split; [done|]. rewrite Hp. by constructor.
  - by left.
Qed.

Lemma flush_goes_on (s : Session E) t :
  send t = SendAccepted ->
  let '(s', _, goes_on) := flush_acks s t in
  goes_on = true /\ (in_flight t = false ->
    last_sent_in_memory_seq s' = Z.max (last_sent_in_memory_seq s) (accum_end_sequence s) \/
    last_sent_in_memory_seq s' = accum_end_sequence s).
Proof.
  intros Hs. unfold flush_acks. rewrite Hs. destruct (in_flight t); [done|].
  unfold try_flush_dual_track. destruct (pop_ready _ _) as [popped q].
  destruct (_ || _) eqn:Hf; [split; [done|]; intros _; by right|].
  apply orb_false_iff in Hf as [_ Hf]. apply Z.ltb_ge in Hf. split; [done|]. intros _. left. cbn. lia.
Qed.

(** C15: A replica never claims more than it holds, and claims all of it once it
    can. Take any session of the receive loop: any bytes from the primary in any
    pieces, any pace of the local journal, sends accepted or not, ending in any
    exit or none. The slots it put in the input ring carry the sequences after
    the resume point with no gap; every ack it offered names as persisted only
    slots below a journal cursor value it had read, and as in memory only slots
    consumers can see. And if the transport took every ack it was offered, one
    more flush with the journal caught up leaves the primary told of everything
    accepted, on both tracks. *)
Theorem acks_tell_the_truth buf depth tip r p ms s turns s' sent exit :
  start_session buf depth s0 tip r p ms = Some s -> base r = b -> committed r = [] -> batch r = [] ->
  Forall reads_below turns -> streaming_loop crc32c s turns = Some (s', sent, exit) ->
  (forall i slot, committed (input s') !! i = Some slot -> sequence slot = s0 + 1 + Z.of_nat i) /\
  Forall (fun a =>
    s0 <= acked_sequence a <= in_memory_sequence a /\
    (forall i slot, committed (input s') !! i = Some slot -> sequence slot <= acked_sequence a ->
       b + Z.of_nat i < D) /\
    in_memory_sequence a <= s0 + Z.of_nat (length (committed (input s')))) sent /\
  (exit = None -> Forall (fun t => send t = SendAccepted) turns ->
   forall t, in_flight t = false -> send t = SendAccepted ->
     b + Z.of_nat (length (committed (input s'))) <= journal_cursor t <= D ->
     let '(s'', _, goes_on) := flush_acks s' t in
     goes_on = true /\ last_sent_acked_seq s'' = accum_end_sequence s' /\
     last_sent_in_memory_seq s'' = accum_end_sequence s').
Proof.
  intros Hs Hb Hcr Hbr Hrd Hl. destruct (session_starts _ _ _ _ _ _ _ Hs Hb Hcr Hbr) as [Hs0 Hlast].
  destruct (loop_ok _ _ _ _ _ _ Hs0 Hrd Hl) as (lo & Hs' & _ & Htrue & Hsync).
  destruct (so_settled _ _ Hs') as (_ & _ & Hacc & Hnum). split_and!; [done| |].
  - eapply Forall_impl; [exact Htrue|]. intros a (Ha & Hd & Hm). split_and!; [lia|lia| |lia].
    intros i slot Hi Hle. rewrite (Hnum i slot Hi) in Hle. destruct Hd as [Hd|Hd]; [lia|]. unfold target_of in Hd. lia.
  - intros He Hacc' t Hif Hsend Hc. pose proof (flush_ok lo s' t Hs' ltac:(lia)) as Hf.
    pose proof (flush_goes_on s' t Hsend) as Hg.
    destruct (flush_acks s' t) as [[s'' offered] goes_on]. destruct Hf as (lo' & _ & Hs'' & _ & Ha'' & _ & _ & Hsync' & Hall).
    destruct Hg as [-> Hm]. split; [done|]. specialize (Hsync He Hacc' Hlast).
    rewrite (Hsync' Hsend Hsync), (Hall Hif) by (unfold target_of; rewrite Hacc; lia). split; [done|].
    specialize (Hm Hif). pose proof (so_in_memory _ _ Hs'). lia.
Qed.

(** Flushes with nothing received in between. *)
Fixpoint flush_all (s : Session E) (turns : list Turn) : list Ack :=
  match turns with
  | [] => []
  | t :: rest => let '(s, offered, _) := flush_acks s t in option_list offered ++ flush_all s rest
  end.

Lemma empty_queue_flush (s : Session E) t :
  is_empty (acks s) = true ->
  let '(s', offered, _) := flush_acks s t in
  is_empty (acks s') = true /\ last_sent_acked_seq s' = last_sent_acked_seq s /\
  Forall (fun a => acked_sequence a = last_sent_acked_seq s) (option_list offered).
Proof.
  intros He. unfold flush_acks, try_flush_dual_track, pop_ready. destruct (in_flight t); [done|].
  rewrite He. cbn [from_option id]. destruct (_ || _); [|done].
  destruct (send t); cbn; (split_and!; [done..|]); by constructor.
Qed.

Lemma empty_queue_flushes (s : Session E) turns :
  is_empty (acks s) = true -> Forall (fun a => acked_sequence a = last_sent_acked_seq s) (flush_all s turns).
Proof.
  revert s. induction turns as [|t turns IH]; intros s He; cbn [flush_all]; [constructor|].
  pose proof (empty_queue_flush s t He) as Hf. destruct (flush_acks s t) as [[s' offered] g].
  destruct Hf as (He' & Hl & HF). apply Forall_app_2; [done|]. rewrite <- Hl. by apply IH.
Qed.

(** C37: A refused send forgets persisted progress. When the journal has caught
    up with everything accepted and the transport refuses the ack that says so,
    no later flush repeats the news: the entry has left the queue while the
    last-sent mark has stayed, so until another frame arrives every ack offered,
    whatever the journal does, still names the old persisted sequence. *)
Theorem refused_ack_is_forgotten lo s t turns :
  session_ok lo s -> in_flight t = false -> send t = SendRefused ->
  lo < accum_end_sequence s ->
  target_of b s0 (accum_end_sequence s) <= journal_cursor t ->
  exists s' ack, flush_acks s t = (s', Some ack, true) /\
    acked_sequence ack = accum_end_sequence s /\ in_memory_sequence ack = accum_end_sequence s /\
    Forall (fun a => acked_sequence a = last_sent_acked_seq s) (flush_all s' turns).
Proof.
  intros Hs Hif Hsend Hlo Hc. unfold flush_acks. rewrite Hif, Hsend. unfold try_flush_dual_track.
  pose proof (pop_empties b s0 lo _ _ (journal_cursor t) (so_queue _ _ Hs) Hc) as Hempty.
  destruct (pop_ready (acks s) (journal_cursor t)) as [popped q] eqn:Hp. cbn [snd] in Hempty.
  destruct (pop_promise b s0 lo _ _ _ _ _ (so_queue _ _ Hs) Hp) as (_ & _ & _ & Hall). cbn zeta in *.
  specialize (Hall Hc). destruct popped as [v|]; cbn [from_option id] in *; [|lia]. subst v.
  pose proof (so_sent _ _ Hs) as Hsent.
  rewrite (proj2 (Z.ltb_lt (last_sent_acked_seq s) (accum_end_sequence s))) by lia. cbn [orb].
  eexists _, _. split; [done|]. split; [done|]. split; [done|].
  by apply (empty_queue_flushes (with_acks s q _ _)).
Qed.
End truth.
End Truth.

(** ** The theorems at concrete values *)
Module Sample.
Import Stream Session Accepted Truth Acks.Promise Codec.Sample Wire.Sample.

(** A frame of the entries 8 and 9, with the start of another behind it. *)
Definition arriving : list Z := Mirror.frame_of sum32 8 shipped_items ++ [40; 0].

Definition empty_ring : InputRing bool := {| base := 100; committed := []; batch := [] |}.

Definition quiet : Turn := {|
  shutdown := false; journal_failed := false; promote := false; in_flight := false; journal_cursor := 101;
  send := SendAccepted; received := Some []; connected := true; frame_failed := []; push_fates := [];
  drained := []; polls := []; reads := [] |}.

Definition arrival : Turn := {|
  shutdown := false; journal_failed := false; promote := false; in_flight := false; journal_cursor := 100;
  send := SendAccepted; received := Some arriving; connected := true; frame_failed := []; push_fates := [];
  drained := []; polls := []; reads := [] |}.

Definition refusing : Turn := {|
  shutdown := false; journal_failed := false; promote := false; in_flight := false; journal_cursor := 102;
  send := SendRefused; received := Some []; connected := true; frame_failed := []; push_fates := [];
  drained := []; polls := []; reads := [] |}.

Lemma fresh_settled : settled 100 7 empty_ring 7.
Proof. by split_and!. Qed.

Lemma fresh_queue q : new 4 = Some q -> queue_ok 100 7 7 7 q.
Proof.
  intros Hq. destruct (Acks.Abstract.new_ok _ _ Hq) as (Hw & Hp & _). split; [done|]. rewrite Hp. by constructor.
Qed.

Lemma receive_gate_witness :
  exists q o accepted, new 4 = Some q /\
    process_streaming_frames sum32 arriving empty_ring 7 [] None [] [] q = Some o /\
    committed (o_ring o) = accepted /\ length accepted = 2%nat /\ o_accum_end_sequence o = 9 /\
    Forall (verified_in sum32 arriving) accepted.
Proof.
  destruct (new 4) as [q|] eqn:Hq; [|discriminate].
  assert (Hb : is_bytes arriving) by (apply (bool_decide_unpack _); vm_compute; exact I).
  destruct (receive_gate (E:=bool) sum32 sum32_range 100 7 7 arriving empty_ring 7 [] None [] [] q Hb fresh_settled
    (fresh_queue q Hq)) as (o & payloads & front & Ho & _ & _ & Hc & _ & _ & Ha & Hv & _).
  assert (Hn : option_map o_accum_end_sequence
      (process_streaming_frames sum32 arriving empty_ring 7 [] None [] [] q) = Some 9)
    by (injection Hq as <-; vm_compute; reflexivity).
  rewrite Ho in Hn. injection Hn as Hn. exists q, o, (taken 7 (concat (map (carried sum32) payloads) ++ front)).
  split_and!; try done. lia.
Defined.

Lemma acks_tell_the_truth_witness :
  exists s s' sent, start_session (E:=bool) [] 4 7 0 empty_ring None [] = Some s /\
    streaming_loop sum32 s [arrival; quiet] = Some (s', sent, None) /\
    Forall (fun a => 7 <= acked_sequence a <= in_memory_sequence a) sent /\
    accum_end_sequence s' = 9.
Proof.
  destruct (start_session (E:=bool) [] 4 7 0 empty_ring None []) as [s|] eqn:Hs; [|discriminate].
  destruct (streaming_loop sum32 s [arrival; quiet]) as [[[s' sent] exit]|] eqn:Hl;
    [|injection Hs as <-; vm_compute in Hl; discriminate].
  destruct (acks_tell_the_truth (E:=bool) sum32 100 7 102 [] 4 0 empty_ring None [] s [arrival; quiet] s' sent exit Hs
    eq_refl eq_refl eq_refl ltac:(repeat constructor; cbn; lia) Hl) as (_ & HF & _).
  injection Hs as <-. vm_compute in Hl. injection Hl as <- <- <-.
  eexists _, _, _. split; [reflexivity|]. split; [vm_compute; reflexivity|]. split; [|reflexivity].
  eapply Forall_impl; [exact HF|]. intros a (Ha & _). exact Ha.
Defined.

Lemma refused_ack_is_forgotten_witness :
  exists s1, accum_end_sequence s1 = 9 /\
    exists s' ack, flush_acks (E:=bool) s1 refusing = (s', Some ack, true) /\ acked_sequence ack = 9 /\
      Forall (fun a => acked_sequence a = 7) (flush_all s' [quiet; quiet]).
Proof.
  destruct (start_session (E:=bool) arriving 4 7 0 empty_ring None []) as [s|] eqn:Hs; [|discriminate].
  destruct (session_starts 100 7 102 arriving 4 0 empty_ring None [] s Hs eq_refl eq_refl eq_refl) as [Hok Hl].
  destruct (receive_ok sum32 100 7 102 7 s quiet Hok) as (s1 & err & Hr & Hok1 & _ & Hl1).
  assert (Ha : option_map (fun x => accum_end_sequence (fst x)) (receive sum32 s quiet) = Some 9)
    by (injection Hs as <-; vm_compute; reflexivity).
  rewrite Hr in Ha. injection Ha as Ha.
  destruct (refused_ack_is_forgotten 100 7 102 7 s1 refusing [quiet; quiet] Hok1 eq_refl eq_refl
    ltac:(lia) ltac:(rewrite Ha; unfold target_of; cbn; lia)) as (s' & ack & Hf & Hack & _ & HF).
  exists s1. split; [done|]. exists s', ack. rewrite Ha in Hack. split; [done|]. split; [done|].
  rewrite Hl1, Hl in HF. exact HF.
Defined.
End Sample.
