(* ===== verification/Reader.v ===== *)
(** * Reading a segment back

    [Scan] is the search for non-zero bytes behind the last entry
    ([first_nonzero], [last_nonzero], [scan_tail]); [Reader] the buffered
    [JournalReader] ([journal/src/reader.rs]), whose reads may be short;
    [Whole] the same reader over the whole file at once, which the buffered
    one is proved to equal; [Recovery] what a walk over a segment returns. *)

From S2P Require Import Prelude Lineage Codec Journal.
Import Lineage.Event Codec.Le Codec.Codec.

Module Scan.

Definition ZERO_RUN : nat := Z.to_nat (64 * 1024).

Definition all_zero (bs : list Z) : bool := forallb (Z.eqb 0) bs.

(** [position] and [rposition] of a non-zero byte. *)
Fixpoint position_nonzero (bs : list Z) : option nat :=
  match bs with
  | [] => None
  | b :: bs => if b =? 0 then S <$> position_nonzero bs else Some 0%nat
  end.

Fixpoint rposition_nonzero (bs : list Z) : option nat :=
  match bs with
  | [] => None
  | b :: bs =>
    match rposition_nonzero bs with
    | Some i => Some (S i)
    | None => if b =? 0 then None else Some 0%nat
    end
  end.

(** The loop over [chunks(ZERO_RUN)]. *)
Fixpoint first_nonzero_loop (fuel : nat) (base : nat) (bytes : list Z) : option nat :=
  match fuel, bytes with
  | O, _ | _, [] => None
  | S fuel, _ =>
    let run := take ZERO_RUN bytes in
    if all_zero run then first_nonzero_loop fuel (base + length run) (drop ZERO_RUN bytes)
    else Nat.add base <$> position_nonzero run
  end.

Definition first_nonzero (bytes : list Z) : option nat :=
  first_nonzero_loop (length bytes) 0 bytes.

(** The loop over [rchunks(ZERO_RUN)]. *)
Fixpoint last_nonzero_loop (fuel : nat) (bytes : list Z) : option nat :=
  match fuel, bytes with
  | O, _ | _, [] => None
  | S fuel, _ =>
    let base := (length bytes - ZERO_RUN)%nat in
    let run := drop base bytes in
    if all_zero run then last_nonzero_loop fuel (take base bytes)
    else Nat.add base <$> rposition_nonzero run
  end.

Definition last_nonzero (bytes : list Z) : option nat := last_nonzero_loop (length bytes) bytes.

(** [scan_tail] from [offset]: the last non-zero byte before [reach], the first at or after it. *)
Fixpoint scan_loop (fuel : nat) (file : list Z) (buf_len offset : nat) (reach : Z)
    (last_within : option nat) (sizes : list nat) : option nat * option nat * list nat :=
  if (offset <? length file)%nat then
    match fuel with
    | O => (last_within, None, sizes)
    | S fuel =>
      let want := Nat.min (length file - offset) buf_len in
      let '(bytes, sizes) := Io.read_at file offset want sizes in
      let n := length bytes in
      if (n =? 0)%nat then (last_within, None, sizes)
      else
        let split := Z.to_nat (Z.min (sat_sub reach (Z.of_nat offset)) (Z.of_nat n)) in
        let last_within :=
          match last_nonzero (take split bytes) with
          | Some i => Some (offset + i)%nat
          | None => last_within
          end in
        match first_nonzero (drop split bytes) with
        | Some i => (last_within, Some (offset + (split + i))%nat, sizes)
        | None => scan_loop fuel file buf_len (offset + n) reach last_within sizes
        end
    end
  else (last_within, None, sizes).

Definition scan_tail (file : list Z) (buf_len from : nat) (reach : Z) (sizes : list nat) :=
  scan_loop (length file - from) file buf_len from reach None sizes.

Lemma all_zero_position bs : all_zero bs = true -> position_nonzero bs = None.
Proof.
  induction bs as [|b bs IH]; [done|]. cbn [all_zero forallb position_nonzero].
  intros [Hb Hbs]%andb_true_iff. apply Z.eqb_eq in Hb as <-. cbn. by rewrite IH.
Qed.

Lemma all_zero_rposition bs : all_zero bs = true -> rposition_nonzero bs = None.
Proof.
  induction bs as [|b bs IH]; [done|]. cbn [all_zero forallb rposition_nonzero].
  intros [Hb Hbs]%andb_true_iff. apply Z.eqb_eq in Hb as <-. by rewrite IH.
Qed.

Lemma position_app xs ys :
  position_nonzero (xs ++ ys) =
  match position_nonzero xs with Some i => Some i | None => Nat.add (length xs) <$> position_nonzero ys end.
Proof.
  induction xs as [|x xs IH]; cbn; [by destruct (position_nonzero ys)|].
  destruct (x =? 0); [|done]. rewrite IH.
  destruct (position_nonzero xs); cbn; [done|]. by destruct (position_nonzero ys).
Qed.

Lemma rposition_app xs ys :
  rposition_nonzero (xs ++ ys) =
  match rposition_nonzero ys with Some i => Some (length xs + i)%nat | None => rposition_nonzero xs end.
Proof.
  induction xs as [|x xs IH]; cbn; [by destruct (rposition_nonzero ys)|].
  rewrite IH. by destruct (rposition_nonzero ys).
Qed.

Lemma position_not_zero bs : all_zero bs = false -> exists i, position_nonzero bs = Some i.
Proof.
  induction bs as [|b bs IH]; [done|]. cbn [all_zero forallb position_nonzero]. intros Hz.
  destruct (b =? 0) eqn:Hb; [|by exists 0%nat]. apply Z.eqb_eq in Hb as ->. cbn in Hz.
  destruct (IH Hz) as [i ->]. by exists (S i).
Qed.

Lemma rposition_not_zero bs : all_zero bs = false -> exists i, rposition_nonzero bs = Some i.
Proof.
  induction bs as [|b bs IH]; [done|]. cbn [all_zero forallb rposition_nonzero]. intros Hz.
  destruct (rposition_nonzero bs); [by eexists|].
  destruct (b =? 0) eqn:Hb; [|by exists 0%nat]. apply Z.eqb_eq in Hb as ->. cbn in Hz.
  by destruct (IH Hz).
Qed.

Lemma first_nonzero_loop_position fuel base bytes :
  (length bytes <= fuel)%nat ->
  first_nonzero_loop fuel base bytes = Nat.add base <$> position_nonzero bytes.
Proof.
  revert base bytes. induction fuel as [|fuel IH]; intros base bytes Hf; destruct bytes as [|b bytes];
    [done|cbn in Hf; lia|done|].
  set (bs := b :: bytes) in *. cbn [first_nonzero_loop].
  unfold bs at 1. pose proof (position_app (take ZERO_RUN bs) (drop ZERO_RUN bs)) as Happ.
  rewrite take_drop in Happ. rewrite Happ.
  assert (Hpos : (0 < ZERO_RUN)%nat) by (unfold ZERO_RUN; lia).
  destruct (all_zero (take ZERO_RUN bs)) eqn:Hz.
  - rewrite (all_zero_position _ Hz), IH by (rewrite length_drop; unfold bs in *; cbn [length] in *; lia).
    destruct (position_nonzero (drop ZERO_RUN bs)); cbn; [|done]. f_equal. lia.
  - by destruct (position_not_zero _ Hz) as [i ->].
Qed.

Lemma last_nonzero_loop_rposition fuel bytes :
  (length bytes <= fuel)%nat -> last_nonzero_loop fuel bytes = rposition_nonzero bytes.
Proof.
  revert bytes. induction fuel as [|fuel IH]; intros bytes Hf; destruct bytes as [|b bytes];
    [done|cbn in Hf; lia|done|].
  set (bs := b :: bytes) in *. cbn [last_nonzero_loop].
  unfold bs at 1. set (base := (length bs - ZERO_RUN)%nat).
  assert (Hpos : (0 < ZERO_RUN)%nat) by (unfold ZERO_RUN; lia).
  assert (Hbase : (base < length bs)%nat) by (unfold base, bs; cbn [length]; lia).
  pose proof (rposition_app (take base bs) (drop base bs)) as Happ.
  rewrite take_drop, length_take in Happ. rewrite Happ.
  destruct (all_zero (drop base bs)) eqn:Hz.
  - rewrite (all_zero_rposition _ Hz). apply IH. rewrite length_take. lia.
  - destruct (rposition_not_zero _ Hz) as [i ->]. cbn. f_equal. lia.
Qed.

Lemma first_nonzero_position bytes : first_nonzero bytes = position_nonzero bytes.
Proof.
  unfold first_nonzero. rewrite first_nonzero_loop_position by done.
  by destruct (position_nonzero bytes).
Qed.

Lemma last_nonzero_rposition bytes : last_nonzero bytes = rposition_nonzero bytes.
Proof. by apply last_nonzero_loop_rposition. Qed.

Lemma position_none bs i v : position_nonzero bs = None -> bs !! i = Some v -> v = 0.
Proof.
  revert i. induction bs as [|b bs IH]; intros i; [done|]. cbn.
  destruct (b =? 0) eqn:Hb; [|done]. apply Z.eqb_eq in Hb as ->.
  destruct (position_nonzero bs) eqn:Hp; [done|]. intros _.
  destruct i as [|i]; cbn; [by intros [= <-]|]. by apply IH.
Qed.

Lemma position_some bs i : position_nonzero bs = Some i -> exists v, bs !! i = Some v /\ v <> 0.
Proof.
  revert i. induction bs as [|b bs IH]; intros i; [done|]. cbn.
  destruct (b =? 0) eqn:Hb; [|intros [= <-]; apply Z.eqb_neq in Hb; by exists b].
  destruct (position_nonzero bs) as [j|]; [|done]. cbn. intros [= <-]. by apply IH.
Qed.

Lemma rposition_none_of_position bs : position_nonzero bs = None -> rposition_nonzero bs = None.
Proof.
  induction bs as [|b bs IH]; [done|]. cbn. destruct (b =? 0); [|done].
  destruct (position_nonzero bs); [done|]. intros _. by rewrite IH.
Qed.

Lemma zeros_position n : position_nonzero (replicate n 0) = None.
Proof. induction n as [|n IH]; [done|]. cbn. by rewrite IH. Qed.

Lemma zeros_rposition n : rposition_nonzero (replicate n 0) = None.
Proof. induction n as [|n IH]; [done|]. cbn. by rewrite IH. Qed.

(** How many of [rest], which starts at [off], lie before [reach]. *)
Definition within (reach : Z) (off : nat) (rest : list Z) : nat :=
  Z.to_nat (Z.min (sat_sub reach (Z.of_nat off)) (Z.of_nat (length rest))).

Lemma within_split reach off (rest : list Z) n :
  (n <= length rest)%nat ->
  within reach off rest =
  (within reach off (take n rest) + within reach (off + n) (drop n rest))%nat /\
  (within reach off (take n rest) < n -> within reach (off + n) (drop n rest) = 0)%nat.
Proof.
  intros Hn. unfold within, sat_sub. rewrite length_take, length_drop.
  rewrite (Nat.min_l n) by done. lia.
Qed.

(** The scan is one search, whatever the reads it is made of. *)
Lemma scan_loop_whole fuel file buf_len off reach last sizes :
  (length file - off <= fuel)%nat -> (0 < buf_len)%nat ->
  let rest := drop off file in
  let k := within reach off rest in
  exists sizes', scan_loop fuel file buf_len off reach last sizes =
    (match rposition_nonzero (take k rest) with Some i => Some (off + i)%nat | None => last end,
     Nat.add (off + k) <$> position_nonzero (drop k rest), sizes').
Proof.
  revert off last sizes. induction fuel as [|fuel IH]; intros off last sizes Hf Hb rest k;
    cbn [scan_loop]; destruct (off <? length file)%nat eqn:Hlt;
    [apply Nat.ltb_lt in Hlt; lia|apply Nat.ltb_ge in Hlt|apply Nat.ltb_lt in Hlt|apply Nat.ltb_ge in Hlt];
    [exists sizes; unfold k, rest; by rewrite drop_ge, take_nil, drop_nil by lia| |
     exists sizes; unfold k, rest; by rewrite drop_ge, take_nil, drop_nil by lia].
  set (want := Nat.min (length file - off) buf_len).
  destruct (Io.read_at_some file off want sizes) as (n & Hn & Hl & Hr); [unfold want; lia|lia|].
  destruct (Io.read_at file off want sizes) as [bytes sizes']. cbn [fst] in Hr. fold rest in Hr. subst bytes.
  assert (Hrl : length rest = (length file - off)%nat) by (unfold rest; by rewrite length_drop).
  assert (Hlen : length (take n rest) = n) by (rewrite length_take; lia).
  rewrite Hlen, (proj2 (Nat.eqb_neq _ _)) by lia.
  rewrite first_nonzero_position, last_nonzero_rposition.
  replace (Z.to_nat _) with (within reach off (take n rest)) by (unfold within; by rewrite Hlen).
  destruct (within_split reach off rest n ltac:(lia)) as [Hk Hz]. fold k in Hk.
  set (k1 := within reach off (take n rest)) in *. set (k2 := within reach (off + n) (drop n rest)) in *.
  assert (Hk1 : (k1 <= n)%nat) by (unfold k1, within; rewrite Hlen; lia).
  specialize (IH (off + n)%nat
    (match rposition_nonzero (take k1 (take n rest)) with Some i => Some (off + i)%nat | None => last end)
    sizes' ltac:(lia) Hb).
  cbn zeta in IH. rewrite <- !drop_drop in IH. fold rest k2 in IH. destruct IH as [sizes'' IH].
  destruct (decide (k1 < n)%nat) as [Hlt1|Hge1].
  - specialize (Hz Hlt1). rewrite Hz, Nat.add_0_r in Hk. rewrite Hz, take_0, drop_0 in IH.
    assert (Ht : take k rest = take k1 (take n rest)) by (rewrite take_take, Hk; f_equal; lia).
    assert (Hd : drop k rest = drop k1 (take n rest) ++ drop n rest)
      by (rewrite Hk, <- (drop_app_le (take n rest)), take_drop by lia; done).
    rewrite Ht, Hd, position_app, length_drop, Hlen, Hk.
    destruct (position_nonzero (drop k1 (take n rest))) as [i|].
    + exists sizes'. cbn. by rewrite Nat.add_assoc.
    + rewrite IH. exists sizes''. cbn [rposition_nonzero take].
      destruct (position_nonzero (drop n rest)); cbn; [|done]. do 3 f_equal. lia.
  - assert (k1 = n) as -> by lia. rewrite (take_ge (take n rest)) in IH |- * by lia.
    rewrite (drop_ge (take n rest)) by lia. cbn [position_nonzero].
    rewrite IH. exists sizes''.
    assert (Ht : take k rest = take n rest ++ take k2 (drop n rest)) by (by rewrite take_take_drop, Hk).
    rewrite Ht, rposition_app, Hlen, Hk, <- drop_drop.
    rewrite !Nat.add_assoc. destruct (rposition_nonzero (take k2 (drop n rest))); [|done].
    by rewrite Nat.add_assoc.
Qed.
End Scan.

(** ** The buffered reader *)
Module Reader.
Import Scan.

Inductive SegmentKind := Live | Archived.

Record TornTail := { torn_offset : nat; torn_len : nat }.

Definition MAX_UNSYNCED_BYTES : Z := 64 * (640 * 1024).

Section reader.
Context {E : Type} `{AppEvent E}.
Context (crc32c : list Z -> Z).

Record JournalEntry := {
  e_sequence : Z;
  e_timestamp_ns : Z;
  e_key_hash : Z;
  e_event : JournalEvent E
}.

(** Where the reader is in the entries: what a caller can see of it. *)
Record Progress := {
  last_sequence : option Z;
  valid_file_end : nat;
  ended : bool;
  torn_tail : option TornTail;
  chain : Chain.SegmentChain
}.

(** Its buffering: [window] is [buffer[pos..valid]], [cursor] the descriptor's
    offset, [sizes] the script of the reads to come. *)
Record Buffering := {
  cursor : nat;
  buf_len : nat;
  pos : nat;
  window : list Z;
  sizes : list nat
}.

Record JournalReader := {
  progress : Progress;
  buffering : Buffering;
  kind : SegmentKind;
  info : FileHeaderInfo
}.

Definition INITIAL_BUF_SIZE : Z := 2 ^ 20.

(** [open_segment], with a buffer of [buf] bytes; the header is read with
    [read_exact]. *)
Definition open_segment (file : list Z) (k : SegmentKind) (buf : nat) (script : list nat)
    : result JournalReader JournalError :=
  if (length file <? FILE_HEADER_SIZE)%nat then Err Io
  else
    i <-? decode_file_header crc32c (take FILE_HEADER_SIZE file) ;;
    Ok {| progress := {| last_sequence := None; valid_file_end := sector_size i; ended := false;
                         torn_tail := None; chain := Chain.new (anchor_hash i) |};
          buffering := {| cursor := sector_size i; buf_len := buf; pos := 0; window := [];
                          sizes := script |};
          kind := k; info := i |}.

Definition with_buffering (r : JournalReader) (b : Buffering) : JournalReader :=
  {| progress := progress r; buffering := b; kind := kind r; info := info r |}.
Definition with_progress (r : JournalReader) (p : Progress) : JournalReader :=
  {| progress := p; buffering := buffering r; kind := kind r; info := info r |}.

(** [fill_buffer]: a read only when nothing is buffered. *)
Definition fill_buffer (file : list Z) (b : Buffering) : Buffering :=
  if (0 <? length (window b))%nat then b
  else
    let '(bytes, script) := Io.read_at file (cursor b) (buf_len b) (sizes b) in
    {| cursor := cursor b + length bytes; buf_len := buf_len b; pos := 0; window := bytes;
       sizes := script |}.

(** [try_extend_buffer]: compact, grow when full, read behind the window. *)
Definition try_extend_buffer (file : list Z) (b : Buffering) : bool * Buffering :=
  let cap := if (length (window b) =? buf_len b)%nat then (buf_len b * 2)%nat else buf_len b in
  let '(bytes, script) := Io.read_at file (cursor b) (cap - length (window b)) (sizes b) in
  ((0 <? length bytes)%nat,
   {| cursor := cursor b + length bytes; buf_len := cap; pos := 0; window := window b ++ bytes;
      sizes := script |}).

Definition zero_magic (bytes : list Z) : bool :=
  match bytes with b0 :: b1 :: _ => (b0 =? 0) && (b1 =? 0) | _ => false end.

Definition is_torn_shape (bytes : list Z) (err : JournalError) : bool :=
  match err with
  | TruncatedEntry | ChecksumMismatch _ _ _ => true
  | CorruptEntry _ _ => (length bytes <? 2)%nat || negb (field 0 2 bytes =? ENTRY_MAGIC)
  | _ => false
  end.

(** How far from the stop a byte may be written and not synced. *)
Definition reach_of (k : SegmentKind) (offset : nat) : Z :=
  match k with
  | Live => sat_add (Z.of_nat offset) MAX_UNSYNCED_BYTES
  | Archived => Z.of_nat offset
  end.

(** The verdict on what the scan found behind the entries. *)
Definition end_verdict (p : Progress) (cause : option JournalError)
    (last_within beyond : option nat) : result (option JournalEntry) JournalError * Progress :=
  let offset := valid_file_end p in
  match beyond with
  | Some nonzero_at =>
    (Err (UnrecoverableTail (Z.of_nat offset) (last_sequence p) (Z.of_nat nonzero_at) cause), p)
  | None =>
    (Ok None,
     {| last_sequence := last_sequence p; valid_file_end := offset; ended := true;
        torn_tail := match last_within with
                     | Some last => Some {| torn_offset := offset; torn_len := last + 1 - offset |}
                     | None => torn_tail p
                     end;
        chain := chain p |})
  end.

(** [end_of_entries]: the scan reuses the buffer, and the cursor goes back to the stop. *)
Definition end_of_entries (file : list Z) (r : JournalReader) (cause : option JournalError)
    : result (option JournalEntry) JournalError * JournalReader :=
  let p := progress r in
  let b := buffering r in
  let offset := valid_file_end p in
  let '(last_within, beyond, script) :=
    scan_tail file (buf_len b) offset (reach_of (kind r) offset) (sizes b) in
  let '(v, p) := end_verdict p cause last_within beyond in
  (v, {| progress := p;
         buffering := {| cursor := offset; buf_len := buf_len b; pos := 0; window := [];
                         sizes := script |};
         kind := kind r; info := info r |}).

(** The sequence rule: the header's start first, then strict continuity. *)
Definition check_sequence (start : Z) (last : option Z) (sequence : Z) : result unit JournalError :=
  match last with
  | None => guard? sequence =? start else SequenceGap start sequence ;; Ok tt
  | Some last =>
    let expected := wrapping_add last 1 in
    if sequence <? expected then Err (SequenceDuplicate sequence last)
    else if expected <? sequence then Err (SequenceGap expected sequence)
    else Ok tt
  end.

(** [validate_and_advance], on the [consumed] bytes of the entry. *)
Definition validate_and_advance (start : Z) (p : Progress) (bytes : list Z)
    (sequence ts key : Z) (ev : JournalEvent E)
    : result (option JournalEntry) JournalError * Progress :=
  match check_sequence start (last_sequence p) sequence with
  | Err e => (Err e, p)
  | Ok _ =>
    (Ok (Some {| e_sequence := sequence; e_timestamp_ns := ts; e_key_hash := key; e_event := ev |}),
     {| last_sequence := Some sequence; valid_file_end := valid_file_end p + length bytes;
        ended := ended p; torn_tail := torn_tail p; chain := Chain.absorb (chain p) bytes |})
  end.

Definition consume (b : Buffering) (n : nat) : Buffering :=
  {| cursor := cursor b; buf_len := buf_len b; pos := pos b + n; window := drop n (window b);
     sizes := sizes b |}.

(** The loop that reads on while the buffered entry is partial; [None] when
    two zero bytes appear where the magic would be. *)
Fixpoint read_on (fuel : nat) (file : list Z) (b : Buffering)
    : option (result (nat * Z * Z * Z * JournalEvent E) JournalError) * Buffering :=
  match decode crc32c (window b) with
  | Err TruncatedEntry =>
    match fuel with
    | O => (Some (Err TruncatedEntry), b)
    | S fuel =>
      let '(more, b) := try_extend_buffer file b in
      if more then if zero_magic (window b) then (None, b) else read_on fuel file b
      else (Some (Err TruncatedEntry), b)
    end
  | d => (Some d, b)
  end.

Definition next_entry (file : list Z) (r : JournalReader)
    : result (option JournalEntry) JournalError * JournalReader :=
  if ended (progress r) then (Ok None, r)
  else
    let r := with_buffering r (fill_buffer file (buffering r)) in
    let b := buffering r in
    if (length (window b) =? 0)%nat then end_of_entries file r None
    else if zero_magic (window b) then end_of_entries file r None
    else
      let '(decoded, b) := read_on (S (length file - cursor b)) file b in
      let r := with_buffering r b in
      match decoded with
      | None => end_of_entries file r None
      | Some (Ok (consumed, sequence, ts, key, ev)) =>
        match validate_and_advance (starting_sequence (info r)) (progress r)
                (take consumed (window b)) sequence ts key ev with
        | (Err e, p) => (Err e, r)
        | (Ok entry, p) => (Ok entry, with_buffering (with_progress r p) (consume b consumed))
        end
      | Some (Err e) =>
        if is_torn_shape (window b) e then end_of_entries file r (Some e) else (Err e, r)
      end.

(** [while let Some(entry) = reader.next_entry()?]: the walk every consumer makes. *)
Fixpoint read_all (fuel : nat) (file : list Z) (r : JournalReader)
    : result (list JournalEntry) JournalError * JournalReader :=
  match fuel with
  | O => (Ok [], r)
  | S fuel =>
    match next_entry file r with
    | (Err e, r) => (Err e, r)
    | (Ok None, r) => (Ok [], r)
    | (Ok (Some e), r) =>
      let '(rest, r) := read_all fuel file r in (es <-? rest ;; Ok (e :: es), r)
    end
  end.
End reader.
End Reader.

(** ** The same reader without a buffer *)
Module Whole.
Import Scan Reader Codec.Facts.
Section whole.
Context {E : Type} `{AppEvent E}.
Context (crc32c : list Z -> Z).

Definition finish (file : list Z) (k : SegmentKind) (p : Progress) (cause : option JournalError)
    : result (option (JournalEntry (E:=E))) JournalError * Progress :=
  let off := valid_file_end p in
  let rest := drop off file in
  let w := within (reach_of k off) off rest in
  end_verdict p cause (Nat.add off <$> rposition_nonzero (take w rest))
    (Nat.add (off + w) <$> position_nonzero (drop w rest)).

Definition next (file : list Z) (k : SegmentKind) (start : Z) (p : Progress)
    : result (option (JournalEntry (E:=E))) JournalError * Progress :=
  if ended p then (Ok None, p)
  else
    let rest := drop (valid_file_end p) file in
    if (length rest =? 0)%nat || zero_magic rest then finish file k p None
    else
      match decode crc32c rest with
      | Ok (n, sequence, ts, key, ev) =>
        validate_and_advance start p (take n rest) sequence ts key ev
      | Err e => if is_torn_shape rest e then finish file k p (Some e) else (Err e, p)
      end.

(** The window is what the file holds from the end of the last entry. *)
Record binv (file : list Z) (vfe : nat) (b : Buffering) : Prop := {
  bi_cursor : cursor b = (vfe + length (window b))%nat;
  bi_window : window b = take (length (window b)) (drop vfe file);
  bi_room : (0 < buf_len b)%nat /\ (length (window b) <= buf_len b)%nat
}.

Definition rinv (file : list Z) (r : JournalReader) : Prop :=
  binv file (valid_file_end (progress r)) (buffering r).

Lemma read_extends file vfe b want :
  binv file vfe b -> (0 < want)%nat ->
  let bytes := fst (Io.read_at file (cursor b) want (sizes b)) in
  window b ++ bytes = take (length (window b ++ bytes)) (drop vfe file) /\
  (length bytes <= want)%nat /\
  (bytes = [] -> drop vfe file = window b) /\
  (length bytes <= length file - cursor b)%nat.
Proof.
  intros Hb Hw bytes. destruct (decide (cursor b < length file)%nat) as [Hc|Hc].
  - destruct (Io.read_at_some file (cursor b) want (sizes b) Hw Hc) as (n & Hn & Hl & Hr).
    unfold bytes. rewrite Hr.
    assert (Hlen : length (take n (drop (cursor b) file)) = n) by (rewrite length_take, length_drop; lia).
    rewrite length_app, Hlen. split_and!; [|lia| |lia].
    + rewrite (bi_window _ _ _ Hb) at 1. rewrite (bi_cursor _ _ _ Hb), <- drop_drop.
      apply take_take_drop.
    + intros Hnil. rewrite Hnil in Hlen. cbn in Hlen. lia.
  - unfold bytes. rewrite Io.read_at_eof by lia. rewrite app_nil_r.
    split_and!; [apply (bi_window _ _ _ Hb)|cbn; lia| |cbn; lia]. intros _.
    rewrite (bi_window _ _ _ Hb). symmetry. apply take_ge.
    rewrite length_drop. rewrite (bi_cursor _ _ _ Hb) in Hc. lia.
Qed.

Lemma fill_keeps file vfe b :
  binv file vfe b -> binv file vfe (fill_buffer file b) /\
  (window (fill_buffer file b) = [] -> drop vfe file = []).
Proof.
  intros Hb. unfold fill_buffer. destruct (0 <? length (window b))%nat eqn:Hl.
  { split; [done|]. apply Nat.ltb_lt in Hl. intros Hn. rewrite Hn in Hl. cbn in Hl. lia. }
  apply Nat.ltb_ge in Hl. destruct (bi_room _ _ _ Hb) as [Hbl _].
  destruct (read_extends file vfe b (buf_len b) Hb Hbl) as (Ht & Hle & He & _).
  assert (window b = []) as Hw by (apply nil_length_inv; lia).
  pose proof (bi_cursor _ _ _ Hb) as Hcur.
  destruct (Io.read_at file (cursor b) (buf_len b) (sizes b)) as [bytes script]. cbn [fst] in *.
  rewrite Hw in *. cbn [app length] in *. split; [|done]. split; cbn; [lia|done|lia].
Qed.

Lemma extend_keeps file vfe b :
  binv file vfe b ->
  let '(more, b') := try_extend_buffer file b in
  binv file vfe b' /\
  (more = false -> window b' = window b /\ drop vfe file = window b) /\
  (more = true -> (length (window b) < length (window b'))%nat /\ (cursor b < cursor b' <= length file)%nat).
Proof.
  intros Hb. unfold try_extend_buffer. destruct (bi_room _ _ _ Hb) as [Hbl Hwl].
  set (cap := if (length (window b) =? buf_len b)%nat then (buf_len b * 2)%nat else buf_len b).
  assert (Hcap : (length (window b) < cap)%nat /\ (0 < cap)%nat).
  { unfold cap. destruct (_ =? _)%nat eqn:Hq; [apply Nat.eqb_eq in Hq|apply Nat.eqb_neq in Hq]; lia. }
  destruct (read_extends file vfe b (cap - length (window b)) Hb ltac:(lia)) as (Ht & Hle & He & Hf).
  pose proof (bi_cursor _ _ _ Hb) as Hcur.
  destruct (Io.read_at file (cursor b) (cap - length (window b)) (sizes b)) as [bytes script].
  cbn [fst] in *. cbn [window cursor].
  split_and!.
  - split; cbn; [rewrite length_app; lia|done|rewrite length_app; lia].
  - intros Hm. apply Nat.ltb_ge in Hm. assert (bytes = []) as -> by (apply nil_length_inv; lia).
    by rewrite app_nil_r, He.
  - intros Hm. apply Nat.ltb_lt in Hm. rewrite length_app. lia.
Qed.

Lemma prefix_of_rest file vfe b :
  binv file vfe b -> drop vfe file = window b ++ drop (length (window b)) (drop vfe file).
Proof. intros Hb. rewrite (bi_window _ _ _ Hb) at 1. by rewrite take_drop. Qed.

Lemma zero_magic_prefix xs ys : (2 <= length xs)%nat -> zero_magic (xs ++ ys) = zero_magic xs.
Proof. destruct xs as [|? [|? ?]]; cbn; (lia || done). Qed.

Lemma torn_shape_prefix xs ys e :
  decode crc32c (E:=E) xs = Err e -> e <> TruncatedEntry ->
  is_torn_shape (xs ++ ys) e = is_torn_shape xs e.
Proof.
  intros Hd Hne. destruct e; try done. cbn [is_torn_shape].
  assert (25 <= length xs)%nat as Hl.
  { destruct (decide (25 <= length xs)%nat); [done|]. rewrite decode_short in Hd by lia. by simplify_eq. }
  rewrite field_prefix, length_app, !(proj2 (Nat.ltb_ge _ _)) by lia. done.
Qed.

(** A decode that is not "truncated", of a window, is the file's. *)
Lemma window_decides file vfe b :
  binv file vfe b -> decode crc32c (E:=E) (window b) <> Err TruncatedEntry ->
  decode crc32c (E:=E) (drop vfe file) = decode crc32c (window b) /\
  zero_magic (drop vfe file) = zero_magic (window b).
Proof.
  intros Hb Hne. rewrite (prefix_of_rest _ _ _ Hb). rewrite decode_extend by done. split; [done|].
  apply zero_magic_prefix. destruct (decide (2 <= length (window b))%nat); [done|].
  destruct Hne. apply decode_short. lia.
Qed.

Lemma truncated_or_not {A} (d : result A JournalError) :
  d = Err TruncatedEntry \/ d <> Err TruncatedEntry.
Proof. destruct d as [|[]]; (by left) || by right. Qed.

Lemma read_on_decides fuel file vfe b :
  (length file - cursor b < fuel)%nat -> binv file vfe b ->
  (zero_magic (window b) = false) ->
  let '(d, b') := read_on (E:=E) crc32c fuel file b in
  binv file vfe b' /\
  match d with
  | None => zero_magic (drop vfe file) = true
  | Some d =>
    zero_magic (drop vfe file) = false /\ decode crc32c (drop vfe file) = d /\
    decode crc32c (window b') = d /\
    (d = Err TruncatedEntry -> window b' = drop vfe file)
  end.
Proof.
  revert b. induction fuel as [|fuel IH]; intros b Hf Hb Hz; [lia|].
  cbn [read_on]. destruct (truncated_or_not (decode crc32c (E:=E) (window b))) as [Ht|Ht].
  - rewrite Ht. pose proof (extend_keeps file vfe b Hb) as Hx.
    destruct (try_extend_buffer file b) as [more b']. destruct Hx as (Hb' & Hno & Hyes).
    destruct more.
    + destruct (Hyes eq_refl) as [Hgrow Hcur]. destruct (zero_magic (window b')) eqn:Hz'.
      * split; [done|]. rewrite (prefix_of_rest _ _ _ Hb').
        destruct (window b') as [|? [|? ?]]; try done.
      * apply IH; [lia|done|done].
    + destruct (Hno eq_refl) as [Hw Hr]. split; [done|]. rewrite Hw, Hr. done.
  - destruct (window_decides _ _ _ Hb Ht) as [Hd Hzm].
    destruct (decode crc32c (window b)) as [x|e] eqn:Hdec.
    + split; [done|]. rewrite Hzm, Hdec. done.
    + assert (He : e <> TruncatedEntry) by congruence.
      replace (match e with TruncatedEntry => _ | _ => _ end)
        with (Some (Err (A:=nat * Z * Z * Z * JournalEvent E) e), b) by (by destruct e).
      split; [done|]. rewrite Hzm, Hdec. split_and!; try done; congruence.
Qed.

(** [end_of_entries] is [finish]. *)
Lemma end_of_entries_whole file r cause :
  rinv file r ->
  let '(v, r') := end_of_entries (E:=E) file r cause in
  (v, progress r') = finish file (kind r) (progress r) cause /\ rinv file r' /\
  kind r' = kind r /\ info r' = info r.
Proof.
  intros Hr. unfold end_of_entries, scan_tail, finish. destruct (bi_room _ _ _ Hr) as [Hbl _].
  destruct (scan_loop_whole (length file - valid_file_end (progress r)) file (buf_len (buffering r))
    (valid_file_end (progress r)) (reach_of (kind r) (valid_file_end (progress r))) None
    (sizes (buffering r)) ltac:(lia) Hbl) as [script ->]. cbn zeta.
  set (w := within _ _ _).
  replace (match rposition_nonzero _ with Some i => _ | None => None end) with
    (Nat.add (valid_file_end (progress r)) <$> rposition_nonzero (take w (drop (valid_file_end (progress r)) file)))
    by (by destruct (rposition_nonzero _)).
  unfold end_verdict. destruct (Nat.add (_ + w) <$> _); cbn [progress kind info].
  - split; [done|]. split; [|done]. split; cbn; [lia|done|lia].
  - split; [done|]. split; [|done]. split; cbn; [lia|done|lia].
Qed.

Lemma consume_keeps file vfe b n :
  binv file vfe b -> (n <= length (window b))%nat -> binv file (vfe + n) (consume b n).
Proof.
  intros Hb Hn. destruct (bi_room _ _ _ Hb) as [Hbl Hwl]. pose proof (bi_cursor _ _ _ Hb).
  split; cbn; rewrite length_drop; [lia| |lia].
  rewrite (bi_window _ _ _ Hb) at 1. rewrite skipn_firstn_comm, drop_drop. done.
Qed.

Lemma next_entry_whole file r :
  rinv file r ->
  let '(v, r') := next_entry (E:=E) crc32c file r in
  (v, progress r') = next file (kind r) (starting_sequence (info r)) (progress r) /\
  rinv file r' /\ kind r' = kind r /\ info r' = info r.
Proof.
  intros Hr. unfold next_entry, next. destruct (ended (progress r)) eqn:He; [done|].
  destruct (fill_keeps _ _ _ Hr) as [Hb1 Hnil].
  set (b1 := fill_buffer file (buffering r)) in *. set (r1 := with_buffering r b1).
  assert (Hr1 : rinv file r1) by done.
  change (buffering r1) with b1. set (vfe := valid_file_end (progress r)) in *.
  destruct (length (window b1) =? 0)%nat eqn:Hl0.
  { apply Nat.eqb_eq, nil_length_inv in Hl0. rewrite (Hnil Hl0). cbn [length Nat.eqb orb].
    exact (end_of_entries_whole file r1 None Hr1). }
  apply Nat.eqb_neq in Hl0.
  assert (Hne : (length (drop vfe file) =? 0)%nat = false).
  { apply Nat.eqb_neq. rewrite (prefix_of_rest _ _ _ Hb1), length_app. lia. }
  rewrite Hne. cbn [orb].
  destruct (zero_magic (window b1)) eqn:Hz.
  { assert (Hz' : zero_magic (drop vfe file) = true).
    { rewrite (prefix_of_rest _ _ _ Hb1). by destruct (window b1) as [|? [|? ?]]. }
    rewrite Hz'. exact (end_of_entries_whole file r1 None Hr1). }
  pose proof (read_on_decides (S (length file - cursor b1)) file vfe b1 ltac:(lia) Hb1 Hz) as Hon.
  destruct (read_on crc32c (S (length file - cursor b1)) file b1) as [d b2].
  destruct Hon as [Hb2 Hd]. set (r2 := with_buffering r1 b2). assert (Hr2 : rinv file r2) by done.
  destruct d as [d|]; [|rewrite Hd; exact (end_of_entries_whole file r2 None Hr2)].
  destruct Hd as (Hz' & Hdec & Hdw & Htr). rewrite Hz', Hdec.
  destruct d as [[[[[n seq] ts] key] ev]|e].
  - destruct (decode_consumed _ _ _ _ _ _ _ Hdw) as [_ Hn].
    replace (take n (drop vfe file)) with (take n (window b2))
      by (rewrite (prefix_of_rest _ _ _ Hb2); symmetry; by apply take_app_le).
    change (progress r2) with (progress r). change (info r2) with (info r).
    unfold validate_and_advance. destruct (check_sequence _ _ _); [|done].
    split; [done|]. split; [|done]. unfold rinv. cbn. rewrite length_take, Nat.min_l by done.
    by apply consume_keeps.
  - assert (Hts : is_torn_shape (drop vfe file) e = is_torn_shape (window b2) e).
    { destruct (truncated_or_not (Err (A:=unit) e)) as [Heq|Hneq].
      - by rewrite Htr by congruence.
      - rewrite (prefix_of_rest _ _ _ Hb2). apply torn_shape_prefix; congruence. }
    rewrite Hts. destruct (is_torn_shape (window b2) e); [|done].
    exact (end_of_entries_whole file r2 (Some e) Hr2).
Qed.

Lemma read_all_info fuel file r :
  rinv file r -> info (snd (read_all (E:=E) crc32c fuel file r)) = info r.
Proof.
  revert r. induction fuel as [|fuel IH]; intros r Hr; [done|].
  cbn [read_all]. pose proof (next_entry_whole file r Hr) as Hn.
  destruct (next_entry crc32c file r) as [[[e|]|e] r1];
    destruct Hn as (_ & Hr1 & _ & Hi); [|done..].
  specialize (IH r1 Hr1). destruct (read_all crc32c fuel file r1) as [v r2]. cbn [snd] in *. congruence.
Qed.

(** The walk without a buffer. *)
Fixpoint walk (fuel : nat) (file : list Z) (k : SegmentKind) (start : Z) (p : Progress)
    : result (list (JournalEntry (E:=E))) JournalError * Progress :=
  match fuel with
  | O => (Ok [], p)
  | S fuel =>
    match next file k start p with
    | (Err e, p) => (Err e, p)
    | (Ok None, p) => (Ok [], p)
    | (Ok (Some e), p) =>
      let '(rest, p) := walk fuel file k start p in (es <-? rest ;; Ok (e :: es), p)
    end
  end.

Lemma read_all_walk fuel file r :
  rinv file r ->
  let '(v, r') := read_all (E:=E) crc32c fuel file r in
  (v, progress r') = walk fuel file (kind r) (starting_sequence (info r)) (progress r).
Proof.
  revert r. induction fuel as [|fuel IH]; intros r Hr; [done|].
  cbn [read_all walk]. pose proof (next_entry_whole file r Hr) as Hn.
  destruct (next_entry crc32c file r) as [[[e|]|e] r1];
    destruct Hn as (Hn & Hr1 & Hk & Hi); rewrite <- Hn; [|done..].
  specialize (IH r1 Hr1). rewrite Hk, Hi in IH.
  destruct (read_all crc32c fuel file r1) as [v r2]. rewrite <- IH. done.
Qed.

Lemma next_advances file k start p :
  let '(v, p') := next file k start p in
  (valid_file_end p <= valid_file_end p')%nat /\
  match v with
  | Ok (Some _) => (valid_file_end p + 33 <= valid_file_end p' <= length file)%nat
  | Ok None => ended p' = true
  | Err _ => True
  end.
Proof.
  unfold next. destruct (ended p) eqn:He; [done|].
  assert (Hfin : forall cause, let '(v, p') := finish file k p cause in
    (valid_file_end p <= valid_file_end p')%nat /\
    match v with
    | Ok (Some _) => (valid_file_end p + 33 <= valid_file_end p' <= length file)%nat
    | Ok None => ended p' = true
    | Err _ => True
    end).
  { intros cause. unfold finish, end_verdict. by destruct (Nat.add _ <$> position_nonzero _). }
  destruct (_ || _); [apply Hfin|].
  destruct (decode crc32c (drop (valid_file_end p) file)) as [[[[[n seq] ts] key] ev]|e] eqn:Hd.
  - destruct (decode_consumed _ _ _ _ _ _ _ Hd) as [Hlo Hhi].
    unfold validate_and_advance. destruct (check_sequence _ _ _); [|done]. cbn [valid_file_end].
    rewrite length_take, Nat.min_l by done. rewrite length_drop in Hhi. lia.
  - destruct (is_torn_shape _ e); [apply Hfin|done].
Qed.

Lemma walk_advances fuel file k start p :
  let '(v, p') := walk fuel file k start p in (valid_file_end p <= valid_file_end p')%nat.
Proof.
  revert p. induction fuel as [|fuel IH]; intros p; cbn [walk]; [done|].
  pose proof (next_advances file k start p) as Hn.
  destruct (next file k start p) as [[[e|]|e] p1]; destruct Hn as [Hn _]; [|done..].
  specialize (IH p1). destruct (walk fuel file k start p1) as [v p2]. lia.
Qed.

(** The walk ends: more fuel than bytes left is enough. *)
Lemma walk_ends fuel file k start p :
  (length file - valid_file_end p < fuel)%nat ->
  let '(v, p') := walk fuel file k start p in
  match v with Ok _ => ended p' = true | Err _ => True end.
Proof.
  revert p. induction fuel as [|fuel IH]; intros p Hf; [lia|]. cbn [walk].
  pose proof (next_advances file k start p) as Hn.
  destruct (next file k start p) as [[[e|]|e] p1]; destruct Hn as [_ Hn]; [|done..].
  specialize (IH p1 ltac:(lia)). destruct (walk fuel file k start p1) as [[es|err] p2]; done.
Qed.
End whole.
End Whole.

(** ** What recovery returns *)
Module Recovery.
Import Scan Reader Whole Codec.Facts Journal.Stream.

(** *** Any file at all *)
Section any_file.
Context {E : Type} `{AppEvent E}.
Context (crc32c : list Z -> Z).

(** A segment read from its header to its end. *)
Definition read_segment (file : list Z) (k : SegmentKind) (buf : nat) (script : list nat)
    : result (list (JournalEntry (E:=E)) * JournalReader) JournalError :=
  r <-? open_segment crc32c file k buf script ;;
  let '(es, r) := read_all crc32c (S (length file)) file r in
  es <-? es ;; Ok (es, r).

(** What a caller sees of a walk. *)
Definition outcome (v : result (list (JournalEntry (E:=E)) * JournalReader) JournalError)
    : result (list JournalEntry * Progress) JournalError :=
  match v with Ok (es, r) => Ok (es, progress r) | Err e => Err e end.

Lemma read_segment_walk file k buf script :
  (0 < buf)%nat ->
  outcome (read_segment file k buf script) =
  (r <-? open_segment crc32c file k 1 [] ;;
   let '(v, p) := walk crc32c (S (length file)) file k (starting_sequence (info r)) (progress r) in
   es <-? v ;; Ok (es, p)).
Proof.
  intros Hbuf. unfold read_segment, open_segment. destruct (length file <? FILE_HEADER_SIZE)%nat; [done|].
  destruct (decode_file_header _ _) as [i|]; [|done]. cbn [rbind].
  set (r := Build_JournalReader _ _ k i).
  pose proof (read_all_walk crc32c (S (length file)) file r) as Hra.
  destruct (read_all crc32c (S (length file)) file r) as [v r'].
  cbn [progress info]. change (progress r) with (progress r) in Hra. cbn [r kind info progress] in Hra.
  rewrite <- Hra; [by destruct v|].
  split; cbn [r progress buffering valid_file_end cursor window buf_len length take]; [lia|done|lia].
Qed.

(** The buffering is invisible. For every file, reading a segment through any
    buffer of any size, with every read of the header's and entries' bytes as
    short as the kernel likes, returns the same entries, the same final
    position, torn tail and hash chain, or the same error: no entry is cut by a
    buffer boundary, and no short read is taken for the end of the file. *)
Theorem buffering_invisible file k buf script buf' script' :
  (0 < buf)%nat -> (0 < buf')%nat ->
  outcome (read_segment file k buf script) = outcome (read_segment file k buf' script').
Proof. intros Hb Hb'. by rewrite !read_segment_walk. Qed.

(** [bs] is an entry with [e]'s fields, and its payload is [e]'s event. *)
Definition framed (e : JournalEntry (E:=E)) (bs : list Z) : Prop :=
  exists tag payload,
    bs = entry_bytes crc32c (e_sequence e) (e_timestamp_ns e) (e_key_hash e) tag payload /\
    decode_event tag payload = Ok (e_event e).

(** The sequence the next entry must carry. *)
Definition expected (start : Z) (p : Progress) : Z :=
  match last_sequence p with None => start | Some last => wrapping_add last 1 end.

Lemma check_sequence_expected start p seq :
  check_sequence start (last_sequence p) seq = Ok tt -> seq = expected start p.
Proof.
  unfold check_sequence, expected. destruct (last_sequence p) as [last|].
  - destruct (_ <? _) eqn:H1; [done|]. destruct (wrapping_add last 1 <? seq) eqn:H2; [done|].
    zb. lia.
  - destruct (seq =? start) eqn:H1; [|done]. zb. lia.
Qed.

(** Behind [vfe], only bytes a crash can have left unsynced. *)
Definition tail_ok (file : list Z) (k : SegmentKind) (vfe : nat) : Prop :=
  forall j x, file !! j = Some x -> x <> 0 -> (vfe <= j)%nat -> Z.of_nat j < reach_of k vfe.

Lemma finish_sound file k p cause v p' :
  finish (E:=E) file k p cause = (Ok v, p') ->
  v = None /\ valid_file_end p' = valid_file_end p /\ tail_ok file k (valid_file_end p).
Proof.
  intros Hf. unfold finish, end_verdict in Hf. set (w := within _ _ _) in Hf.
  destruct (position_nonzero (drop w (drop (valid_file_end p) file))) as [i|] eqn:Hp; [done|].
  cbn [fmap option_fmap option_map] in Hf. simplify_eq. split_and!; [done..|]. intros j x Hj Hx Hle.
  destruct (decide (Z.of_nat j < reach_of k (valid_file_end p))) as [|Hge]; [done|]. exfalso. apply Hx.
  assert (Hw : (w <= j - valid_file_end p)%nat) by (unfold w, within, sat_sub in *; lia).
  apply (position_none _ (j - valid_file_end p - w) x Hp).
  rewrite !lookup_drop. by replace (_ + _)%nat with j by lia.
Qed.

Lemma next_sound file k start p v p' :
  is_bytes file -> ended p = false -> next crc32c file k start p = (Ok v, p') ->
  match v with
  | Some e => exists bs, framed e bs /\ e_sequence e = expected start p /\
      last_sequence p' = Some (e_sequence e) /\ ended p' = false /\
      drop (valid_file_end p) file = bs ++ drop (valid_file_end p') file
  | None => valid_file_end p' = valid_file_end p /\ tail_ok file k (valid_file_end p)
  end.
Proof.
  intros Hb He Hn. unfold next in Hn. rewrite He in Hn.
  destruct (_ || _); [by destruct (finish_sound _ _ _ _ _ _ Hn) as (-> & ? & ?)|].
  destruct (decode crc32c _) as [[[[[n seq] ts] key] ev]|e] eqn:Hd;
    [|destruct (is_torn_shape _ e); [by destruct (finish_sound _ _ _ _ _ _ Hn) as (-> & ? & ?)|done]].
  unfold validate_and_advance in Hn.
  destruct (check_sequence _ _ _) as [[]|] eqn:Hc; [|done]. simplify_eq.
  destruct (decode_sound crc32c _ _ _ _ _ _ (is_bytes_drop _ _ Hb) Hd)
    as (tag & payload & Hlen & Hle & Ht & Hev & _).
  exists (take n (drop (valid_file_end p) file)). split_and!.
  - exists tag, payload. by rewrite Ht.
  - by apply check_sequence_expected.
  - done.
  - done.
  - cbn [valid_file_end]. rewrite length_take, Nat.min_l by lia. by rewrite <- drop_drop, take_drop.
Qed.

Lemma walk_sound fuel file k start p es p' :
  is_bytes file -> ended p = false -> (length file - valid_file_end p < fuel)%nat ->
  walk crc32c fuel file k start p = (Ok es, p') ->
  exists frames,
    Forall2 framed es frames /\
    drop (valid_file_end p) file = concat frames ++ drop (valid_file_end p') file /\
    (forall j e, es !! j = Some e -> in_u64 (expected start p) ->
       e_sequence e = (expected start p + Z.of_nat j) mod 2 ^ 64) /\
    tail_ok file k (valid_file_end p').
Proof.
  intros Hb. revert p es. induction fuel as [|fuel IH]; intros p es He Hf Hw; [lia|].
  cbn [walk] in Hw. pose proof (next_advances crc32c file k start p) as Ha.
  destruct (next crc32c file k start p) as [[[e|]|e] p1] eqn:Hn; simplify_eq.
  - pose proof (next_sound file k start p _ _ Hb He Hn) as (bs & Hfr & Hse & Hls & He1 & Hdr).
    destruct (walk crc32c fuel file k start p1) as [[es1|] p2] eqn:Hw1; [|done].
    cbn [rbind] in Hw. simplify_eq.
    destruct (IH p1 es1 He1 ltac:(lia) Hw1) as (frames & HF & Hd & Hseq & Ht).
    exists (bs :: frames). split_and!; [by constructor| | |done].
    + cbn [concat]. by rewrite <- app_assoc, <- Hd.
    + intros j e' Hj Hr. assert (Hexp : expected start p1 = wrapping_add (expected start p) 1)
        by (unfold expected at 1; by rewrite Hls, Hse).
      destruct j as [|j]; cbn in Hj; simplify_eq.
      * rewrite Hse, Z.add_0_r. symmetry. apply Z.mod_small. widths. lia.
      * rewrite (Hseq j e' Hj); rewrite Hexp; unfold wrapping_add.
        -- rewrite Z.add_mod_idemp_l by lia. f_equal. lia.
        -- pose proof (Z.mod_pos_bound (expected start p + 1) (2 ^ 64) ltac:(lia)). widths. lia.
  - pose proof (next_sound file k start p _ _ Hb He Hn) as (Hv & Ht).
    exists []. split_and!; [constructor|cbn; by rewrite Hv|done|]. by rewrite Hv.
Qed.

(** Recovery invents nothing. For any file of bytes whatever, if reading it as a
    segment succeeds then its header decoded; from the header's sector on, the
    file is, byte for byte, the framing of the entries returned, each with a
    valid checksum and a payload that decodes to the event returned; their
    sequence numbers run without gap from the header's starting sequence; and
    behind the last entry every non-zero byte lies within the span a crash can
    leave unsynced (nowhere, in an archived segment). *)
Theorem recovered_history_genuine file k buf script es r :
  is_bytes file -> (0 < buf)%nat -> read_segment file k buf script = Ok (es, r) ->
  exists i frames,
    decode_file_header crc32c (take FILE_HEADER_SIZE file) = Ok i /\
    drop (sector_size i) file = concat frames ++ drop (valid_file_end (progress r)) file /\
    Forall2 framed es frames /\
    (forall j e, es !! j = Some e ->
       e_sequence e = (starting_sequence i + Z.of_nat j) mod 2 ^ 64) /\
    tail_ok file k (valid_file_end (progress r)).
Proof.
  intros Hb Hbuf Hr. pose proof (read_segment_walk file k buf script Hbuf) as Hw.
  rewrite Hr in Hw. cbn [outcome] in Hw. unfold open_segment in Hw.
  destruct (length file <? FILE_HEADER_SIZE)%nat; [done|].
  destruct (decode_file_header _ _) as [i|] eqn:Hi; [|done]. cbn [rbind info progress] in Hw.
  destruct (walk _ _ _ _ _ _) as [[es'|] p] eqn:Hwk; [|done]. cbn [rbind] in Hw. simplify_eq.
  apply walk_sound in Hwk as (frames & HF & Hd & Hs & Ht); [|done|done|cbn; lia].
  exists i, frames. split_and!; [done|exact Hd|done| |done].
  intros j e Hj. apply (Hs j e Hj).
  by apply (header_start_u64 crc32c _ i (is_bytes_take _ _ Hb) Hi).
Qed.
End any_file.

(** *** A file the writer wrote, and what a crash left behind it *)
Section written.
Context {E : Type} `{AppEvent E}.
Context (crc32c : list Z -> Z).
Hypothesis crc_range : forall bs, in_u32 (crc32c bs).
Context `{!AppEventLaws E}.
Hypothesis fits_one_entry : (entry_size (E:=E) <= MAX_ENTRY_SIZE)%nat.

(** The entries a stream of items is read back as. *)
Fixpoint entries_of (seq : Z) (items : list (item (E:=E))) : list (JournalEntry (E:=E)) :=
  match items with
  | [] => []
  | (ts, key, ev) :: rest =>
    {| e_sequence := seq; e_timestamp_ns := ts; e_key_hash := key; e_event := ev |}
    :: entries_of (seq + 1) rest
  end.

(** Where a reader stands after the [n] entries from [start]. *)
Definition after (start : Z) (anchor : list Z) (n : nat) (bytes : list Z) : Progress :=
  {| last_sequence := if (n =? 0)%nat then None else Some (start + Z.of_nat n - 1);
     valid_file_end := Encoder.ENTRY_OFFSET + length bytes; ended := false; torn_tail := None;
     chain := {| Chain.anchor := anchor; Chain.absorbed := bytes;
                 Chain.dirty := negb (n =? 0)%nat |} |}.

Lemma frame_magic seq it rest :
  item_ok it -> zero_magic (frame crc32c seq it ++ rest) = false.
Proof.
  destruct it as [[ts key] ev]. intros Hit.
  destruct (frame_encodes crc32c fits_one_entry seq _ ts key ev eq_refl Hit) as [He _].
  destruct (encode_frames _ _ _ _ _ _ _ He) as (tag & payload & _ & _ & ->). reflexivity.
Qed.

Lemma check_next start (n : nat) :
  1 <= start -> start + Z.of_nat n <= u64_max ->
  check_sequence start (if (n =? 0)%nat then None else Some (start + Z.of_nat n - 1))
    (start + Z.of_nat n) = Ok tt.
Proof.
  intros Hs Hm. unfold check_sequence. destruct (n =? 0)%nat eqn:Hn.
  - apply Nat.eqb_eq in Hn as ->. by rewrite Z.add_0_r, Z.eqb_refl.
  - unfold wrapping_add. rewrite Z.mod_small by (widths; lia).
    replace (start + Z.of_nat n - 1 + 1) with (start + Z.of_nat n) by lia. by rewrite Z.ltb_irrefl.
Qed.

Lemma next_on_frame file k start anchor n bytes ts key ev rest :
  1 <= start -> start + Z.of_nat n <= u64_max -> item_ok (ts, key, ev) ->
  let seq := start + Z.of_nat n in
  let f := frame crc32c seq (ts, key, ev) in
  drop (Encoder.ENTRY_OFFSET + length bytes) file = f ++ rest ->
  next crc32c file k start (after start anchor n bytes) =
  (Ok (Some {| e_sequence := seq; e_timestamp_ns := ts; e_key_hash := key; e_event := ev |}),
   after start anchor (S n) (bytes ++ f)).
Proof.
  intros Hs Hm Hit seq f Hfile. unfold next. cbn [after ended valid_file_end]. rewrite Hfile.
  destruct (frame_encodes crc32c fits_one_entry seq _ ts key ev eq_refl Hit) as [_ Hlen]. fold f in Hlen.
  rewrite (proj2 (Nat.eqb_neq _ _)) by (rewrite length_app; lia). unfold f at 1.
  rewrite frame_magic by done. cbn [orb]. unfold f at 1.
  rewrite frame_decodes by (done || (unfold seq; widths; lia)). fold f.
  rewrite take_app_length. unfold validate_and_advance. cbn [after last_sequence].
  unfold seq at 1. rewrite check_next by done.
  f_equal. unfold after, Chain.absorb. cbn [Nat.eqb negb Chain.anchor Chain.absorbed chain].
  f_equal; [f_equal; lia|rewrite length_app; cbn [valid_file_end]; lia].
Qed.

(** Reading through the entries of a stream. *)
Lemma walk_stream fuel file k start anchor n bytes items rest :
  1 <= start -> start + Z.of_nat (n + length items) <= u64_max -> Forall item_ok items ->
  let seq := start + Z.of_nat n in
  drop (Encoder.ENTRY_OFFSET + length bytes) file = stream crc32c seq items ++ rest ->
  walk crc32c (length items + fuel) file k start (after start anchor n bytes) =
  let '(r, p) := walk crc32c fuel file k start
                   (after start anchor (n + length items) (bytes ++ stream crc32c seq items)) in
  (es <-? r ;; Ok (entries_of seq items ++ es), p).
Proof.
  revert n bytes. induction items as [|[[ts key] ev] items IH]; intros n bytes Hs Hm Hit seq Hfile.
  - cbn [length Nat.add stream entries_of app]. rewrite Nat.add_0_r, app_nil_r.
    destruct (walk _ _ _ _ _ _) as [[es|e] p]; done.
  - apply Forall_cons_1 in Hit as [Hit Hits]. cbn [length stream entries_of] in *.
    rewrite <- app_assoc in Hfile.
    change (S (length items) + fuel)%nat with (S (length items + fuel)). cbn [walk].
    rewrite (next_on_frame _ _ _ _ _ _ ts key ev (stream crc32c (seq + 1) items ++ rest)) by (done || lia).
    fold seq. set (f := frame crc32c seq (ts, key, ev)) in *.
    rewrite (IH (S n) (bytes ++ f)); [|done|lia|done|].
    2: { rewrite length_app, Nat.add_assoc, <- drop_drop, Hfile, drop_app_length.
         do 2 f_equal. unfold seq. lia. }
    replace (start + Z.of_nat (S n)) with (seq + 1) by (unfold seq; lia).
    rewrite <- app_assoc. replace (S n + length items)%nat with (n + S (length items))%nat by lia.
    destruct (walk _ _ _ _ _ _) as [[es|e] p]; done.
Qed.

Lemma open_reads_header k start anchor g rest buf script :
  header_ok Segment.MAX_SECTOR_SIZE start anchor g -> (0 < buf)%nat ->
  exists r, open_segment crc32c (header crc32c start anchor g ++ rest) k buf script = Ok r /\
    rinv (header crc32c start anchor g ++ rest) r /\ kind r = k /\
    starting_sequence (info r) = start /\ anchor_hash (info r) = anchor /\
    genesis_entries (info r) = g /\ progress r = after start anchor 0 [].
Proof.
  intros Hh Hbuf. destruct (header_read crc32c crc_range start anchor g rest [] Hh I)
    as (script' & Hr & Hl & Hd).
  cbn [Io.read_at] in Hr. rewrite drop_0 in Hr. injection Hr as Hr _.
  pose proof (header_length crc32c crc_range _ _ _ Hh) as Hhl.
  unfold open_segment. rewrite Hr, Hd, (proj2 (Nat.ltb_ge _ _)).
  2: { rewrite length_app, Hhl. unfold FILE_HEADER_SIZE, Encoder.ENTRY_OFFSET. lia. }
  cbn [rbind]. eexists. split; [done|]. split; [|done].
  split; cbn [progress buffering valid_file_end cursor window buf_len length take]; [lia|done|lia].
Qed.

Lemma frames_no_shorter start items :
  Forall item_ok items -> (length items <= length (stream crc32c start items))%nat.
Proof.
  revert start. induction items as [|[[ts key] ev] items IH]; intros start Hit; cbn [length stream]; [lia|].
  apply Forall_cons_1 in Hit as [Hit Hits].
  destruct (frame_encodes crc32c fits_one_entry start _ ts key ev eq_refl Hit) as [_ Hl].
  rewrite length_app. specialize (IH (start + 1) Hits). lia.
Qed.

(** A written segment, whatever follows its entries, read in any way: the
    entries, then what the rest amounts to. *)
Lemma read_written k start anchor g items tail buf script :
  header_ok Segment.MAX_SECTOR_SIZE start anchor g -> 1 <= start ->
  start + Z.of_nat (length items) <= u64_max -> Forall item_ok items -> (0 < buf)%nat ->
  let file := header crc32c start anchor g ++ stream crc32c start items ++ tail in
  exists fuel, (length tail < fuel)%nat /\
  forall v p,
    walk crc32c fuel file k start (after start anchor (length items) (stream crc32c start items)) = (v, p) ->
    match v with
    | Err e => read_segment crc32c file k buf script = Err e
    | Ok es => exists r, read_segment crc32c file k buf script = Ok (entries_of start items ++ es, r) /\
        progress r = p
    end.
Proof.
  intros Hh Hs Hm Hit Hbuf file. pose proof (frames_no_shorter start items Hit) as Hno.
  pose proof (header_length crc32c crc_range _ _ _ Hh) as Hhl.
  assert (Hlen : length file = (Encoder.ENTRY_OFFSET + length (stream crc32c start items) + length tail)%nat)
    by (unfold file; rewrite !length_app; lia).
  exists (S (length file - length items)). split; [lia|]. intros v p Hw.
  destruct (open_reads_header k start anchor g (stream crc32c start items ++ tail) buf script Hh Hbuf)
    as (r & Ho & Hr & Hk & Hst & _ & _ & Hp). fold file in Ho, Hr.
  unfold read_segment. rewrite Ho. cbn [rbind].
  pose proof (read_all_walk crc32c (S (length file)) file r Hr) as Hra.
  rewrite Hk, Hst, Hp in Hra.
  replace (S (length file)) with (length items + S (length file - length items))%nat in Hra by lia.
  rewrite (walk_stream (S (length file - length items)) file k start anchor 0 [] items tail) in Hra; [|done|done|done|].
  2: { cbn [length]. rewrite Nat.add_0_r, Z.add_0_r. unfold file. by rewrite drop_app_length'. }
  cbn [Nat.add app] in Hra. rewrite Z.add_0_r, Hw in Hra.
  replace (length items + S (length file - length items))%nat with (S (length file)) in Hra by lia.
  destruct (read_all crc32c (S (length file)) file r) as [v' r'].
  destruct v as [es|e]; cbn [rbind] in *; simplify_eq; cbn [rbind]; [|done].
  by exists r'.
Qed.

(** Nothing synced is ever lost in silence. Whatever follows the entries a segment
    was synced with (a torn batch, preallocated zeros, garbage), whatever the
    reader's buffer size and however short its reads: if reading the segment
    succeeds, the result begins with exactly those entries, in order and field
    for field, and anything read after them lies behind them in the file; the
    only other outcome is an error. *)
Theorem synced_entries_survive k start anchor g synced tail buf script :
  header_ok Segment.MAX_SECTOR_SIZE start anchor g -> 1 <= start ->
  start + Z.of_nat (length synced) <= u64_max -> Forall item_ok synced -> (0 < buf)%nat ->
  let file := header crc32c start anchor g ++ stream crc32c start synced ++ tail in
  forall es r, read_segment crc32c file k buf script = Ok (es, r) ->
  exists more, es = entries_of start synced ++ more /\
    (Encoder.ENTRY_OFFSET + length (stream crc32c start synced) <= valid_file_end (progress r))%nat.
Proof.
  intros Hh Hs Hm Hit Hbuf file es r Hr.
  destruct (read_written k start anchor g synced tail buf script Hh Hs Hm Hit Hbuf) as (fuel & _ & Hw).
  destruct (walk crc32c fuel _ k start _) as [v p] eqn:Hwk. specialize (Hw v p eq_refl).
  fold file in Hw, Hwk. destruct v as [more|e]; [|congruence].
  destruct Hw as (r' & Hr' & Hp). rewrite Hr' in Hr. simplify_eq. exists more. split; [done|].
  pose proof (walk_advances crc32c fuel file k start
    (after start anchor (length synced) (stream crc32c start synced))) as Ha.
  rewrite Hwk in Ha. done.
Qed.

(** The entries of a segment stop where [tail] begins. *)
Definition stops (tail : list Z) : bool :=
  (length tail =? 0)%nat || zero_magic tail ||
  match decode crc32c (E:=E) tail with Err e => is_torn_shape tail e | Ok _ => false end.

(** Every non-zero byte of [tail] is one a crash can have left unsynced. *)
Definition harmless (k : SegmentKind) (tail : list Z) : Prop :=
  forall i v, tail !! i = Some v -> v <> 0 -> k = Live /\ Z.of_nat i < MAX_UNSYNCED_BYTES.

Lemma next_stops file k start p :
  stops (drop (valid_file_end p) file) = true -> ended p = false ->
  exists cause, next crc32c file k start p = finish file k p cause.
Proof.
  intros Hst He. unfold next. rewrite He. unfold stops in Hst.
  destruct ((length (drop (valid_file_end p) file) =? 0)%nat || zero_magic _); [by exists None|].
  cbn [orb] in Hst. destruct (decode _ _) as [|e]; [done|]. rewrite Hst. by exists (Some e).
Qed.

Lemma within_harmless k off tail :
  Z.of_nat (off + length tail) + MAX_UNSYNCED_BYTES <= u64_max ->
  let w := within (reach_of k off) off tail in
  (position_nonzero (drop w tail) = None <-> harmless k tail) /\
  (k = Archived -> w = 0%nat) /\ (w <= length tail)%nat.
Proof.
  intros Hmax w.
  assert (Hw : w = match k with Live => Z.to_nat (Z.min MAX_UNSYNCED_BYTES (Z.of_nat (length tail)))
                           | Archived => 0%nat end).
  { unfold w, within, reach_of, sat_sub, sat_add. destruct k; [|lia].
    unfold MAX_UNSYNCED_BYTES in *. lia. }
  split_and!; [|intros ->; lia|destruct k; lia]. split.
  - intros Hp i v Hi Hv. destruct (decide (i < w)%nat) as [Hlt|Hge].
    + destruct k; [|lia]. split; [done|]. lia.
    + exfalso. apply Hv. apply (position_none _ (i - w) v Hp). rewrite lookup_drop.
      replace (w + (i - w))%nat with i by lia. done.
  - intros Hh. destruct (position_nonzero (drop w tail)) as [i|] eqn:Hp; [|done]. exfalso.
    destruct (position_some _ _ Hp) as (v & Hi & Hv). rewrite lookup_drop in Hi.
    destruct (Hh _ _ Hi Hv) as [-> Hlt]. apply lookup_lt_Some in Hi. lia.
Qed.

(** The written segment stops at [tail]: what the end-of-entries rule says of it. *)
Lemma read_stopped k start anchor g items tail buf script :
  header_ok Segment.MAX_SECTOR_SIZE start anchor g -> 1 <= start ->
  start + Z.of_nat (length items) <= u64_max -> Forall item_ok items -> (0 < buf)%nat ->
  stops tail = true ->
  let data := stream crc32c start items in
  let off := (Encoder.ENTRY_OFFSET + length data)%nat in
  let file := header crc32c start anchor g ++ data ++ tail in
  let w := within (reach_of k off) off tail in
  exists cause,
    match end_verdict (E:=E) (after start anchor (length items) data) cause
            (Nat.add off <$> rposition_nonzero (take w tail))
            (Nat.add (off + w) <$> position_nonzero (drop w tail)) with
    | (Err e, _) => read_segment crc32c file k buf script = Err e
    | (Ok _, p) => exists r, read_segment crc32c file k buf script = Ok (entries_of start items, r) /\
        progress r = p
    end.
Proof.
  intros Hh Hs Hm Hit Hbuf Hst data off file w.
  destruct (read_written k start anchor g items tail buf script Hh Hs Hm Hit Hbuf) as (fuel & Hf & Hw).
  fold data file in Hw. set (p := after start anchor (length items) data) in *.
  pose proof (header_length crc32c crc_range _ _ _ Hh) as Hhl.
  assert (Hrest : drop (valid_file_end p) file = tail).
  { unfold p, file. cbn [after valid_file_end]. rewrite app_assoc, drop_app_length'; [done|].
    rewrite length_app. lia. }
  destruct (next_stops file k start p) as [cause Hn]; [by rewrite Hrest|done|].
  destruct fuel as [|fuel]; [lia|]. cbn [walk] in Hw. rewrite Hn in Hw. unfold finish in Hw. rewrite Hrest in Hw.
  change (valid_file_end p) with off in Hw. fold w in Hw. exists cause.
  unfold end_verdict in *. destruct (Nat.add (off + w) <$> _); specialize (Hw _ _ eq_refl); cbn in Hw; [done|].
  by rewrite app_nil_r in Hw.
Qed.

Lemma recovery_accepts k start anchor g items tail buf script :
  header_ok Segment.MAX_SECTOR_SIZE start anchor g -> 1 <= start ->
  start + Z.of_nat (length items) <= u64_max -> Forall item_ok items -> (0 < buf)%nat ->
  stops tail = true ->
  let data := stream crc32c start items in
  let off := (Encoder.ENTRY_OFFSET + length data)%nat in
  let file := header crc32c start anchor g ++ data ++ tail in
  Z.of_nat (length file) + MAX_UNSYNCED_BYTES <= u64_max -> harmless k tail ->
  exists r, read_segment crc32c file k buf script = Ok (entries_of start items, r) /\
    progress r =
    {| last_sequence := (if (length items =? 0)%nat then None else Some (start + Z.of_nat (length items) - 1));
       valid_file_end := off; ended := true;
       torn_tail := match rposition_nonzero tail with
                    | Some last => Some {| torn_offset := off; torn_len := last + 1 |}
                    | None => None
                    end;
       chain := {| Chain.anchor := anchor; Chain.absorbed := data;
                   Chain.dirty := negb (length items =? 0)%nat |} |}.
Proof.
  intros Hh Hs Hm Hit Hbuf Hst data off file Hmax Hharm.
  destruct (read_stopped k start anchor g items tail buf script Hh Hs Hm Hit Hbuf Hst) as [cause Hv].
  fold data off file in Hv. set (w := within (reach_of k off) off tail) in *.
  destruct (within_harmless k off tail) as (Hwh & _ & _).
  { unfold file in Hmax. rewrite !length_app in Hmax.
    pose proof (header_length crc32c crc_range _ _ _ Hh). unfold off. lia. }
  fold w in Hwh. apply Hwh in Hharm. rewrite Hharm in Hv. cbn [fmap option_fmap option_map end_verdict] in Hv.
  destruct Hv as (r & Hr & Hp). exists r. split; [done|]. rewrite Hp.
  pose proof (rposition_app (take w tail) (drop w tail)) as Happ. rewrite take_drop in Happ.
  rewrite (rposition_none_of_position _ Hharm) in Happ. rewrite Happ. cbn [after valid_file_end last_sequence torn_tail chain].
  f_equal. destruct (rposition_nonzero (take w tail)); cbn; [|done]. do 2 f_equal. lia.
Qed.

(** C16: The recovery rule, exactly. When a segment's synced entries are followed by
    bytes where no entry starts (the end of the file, zeros, a wrong magic, a
    bad checksum, an entry cut short), recovery returns precisely those entries
    if every non-zero byte of the tail is one a crash can have left unsynced:
    within 64 chunks of the last entry in the live segment, nowhere in an
    archived one. It then reports the torn bytes' exact extent, stops at the end
    of the last entry and has the writer's hash chain. Otherwise it refuses the
    segment, naming the stop and a byte that convicts it. *)
Theorem recovery_rule k start anchor g items tail buf script :
  header_ok Segment.MAX_SECTOR_SIZE start anchor g -> 1 <= start ->
  start + Z.of_nat (length items) <= u64_max -> Forall item_ok items -> (0 < buf)%nat ->
  stops tail = true ->
  let data := stream crc32c start items in
  let off := (Encoder.ENTRY_OFFSET + length data)%nat in
  let file := header crc32c start anchor g ++ data ++ tail in
  Z.of_nat (length file) + MAX_UNSYNCED_BYTES <= u64_max ->
  (harmless k tail ->
    exists r, read_segment crc32c file k buf script = Ok (entries_of start items, r) /\
      valid_file_end (progress r) = off /\ ended (progress r) = true /\
      torn_tail (progress r) =
        match rposition_nonzero tail with
        | Some last => Some {| torn_offset := off; torn_len := last + 1 |}
        | None => None
        end /\
      chain (progress r) = {| Chain.anchor := anchor; Chain.absorbed := data;
                              Chain.dirty := negb (length items =? 0)%nat |}) /\
  (~ harmless k tail ->
    exists i v cause, tail !! i = Some v /\ v <> 0 /\
      read_segment crc32c file k buf script =
        Err (UnrecoverableTail (Z.of_nat off)
               (if (length items =? 0)%nat then None else Some (start + Z.of_nat (length items) - 1))
               (Z.of_nat (off + i)) cause)).
Proof.
  intros Hh Hs Hm Hit Hbuf Hst data off file Hmax. split.
  - intros Hharm.
    destruct (recovery_accepts k start anchor g items tail buf script Hh Hs Hm Hit Hbuf Hst Hmax Hharm)
      as (r & Hr & Hp). exists r. by rewrite Hp.
  - intros Hharm.
    destruct (read_stopped k start anchor g items tail buf script Hh Hs Hm Hit Hbuf Hst) as [cause Hv].
    fold data off file in Hv. set (w := within (reach_of k off) off tail) in *.
    destruct (within_harmless k off tail) as (Hwh & _ & _).
    { unfold file in Hmax. rewrite !length_app in Hmax.
      pose proof (header_length crc32c crc_range _ _ _ Hh). unfold off. lia. }
    fold w in Hwh. destruct (position_nonzero (drop w tail)) as [i|] eqn:Hp; [|by destruct Hharm; apply Hwh].
    cbn [fmap option_fmap option_map end_verdict] in Hv.
    destruct (position_some _ _ Hp) as (v & Hi & Hne). rewrite lookup_drop in Hi.
    exists (w + i)%nat, v, cause. split_and!; [done..|]. by rewrite Nat.add_assoc.
Qed.

Lemma stops_zeros pad : stops (replicate pad 0) = true.
Proof.
  destruct pad as [|[|pad]]; [done| |done]. unfold stops. by rewrite decode_short by (cbn; lia).
Qed.

Lemma harmless_zeros k pad : harmless k (replicate pad 0).
Proof. intros i v [-> _]%lookup_replicate_1 Hv. done. Qed.

(** A segment closed in good order, read by a fresh reader. *)
Lemma read_clean k start anchor g items pad buf :
  header_ok Segment.MAX_SECTOR_SIZE start anchor g -> 1 <= start ->
  start + Z.of_nat (length items) <= u64_max -> Forall item_ok items -> (0 < buf)%nat ->
  let data := stream crc32c start items in
  let file := header crc32c start anchor g ++ data ++ replicate pad 0 in
  Z.of_nat (length file) + MAX_UNSYNCED_BYTES <= u64_max ->
  exists r r', open_segment crc32c file k buf [] = Ok r /\
    starting_sequence (info r) = start /\ Chain.anchor (chain (progress r)) = anchor /\
    read_all crc32c (S (length file)) file r = (Ok (entries_of start items), r') /\
    last_sequence (progress r') =
      (if (length items =? 0)%nat then None else Some (start + Z.of_nat (length items) - 1)) /\
    torn_tail (progress r') = None /\
    chain (progress r') = {| Chain.anchor := anchor; Chain.absorbed := data;
                             Chain.dirty := negb (length items =? 0)%nat |}.
Proof.
  intros Hh Hs Hm Hit Hbuf data file Hmax.
  destruct (open_reads_header k start anchor g (data ++ replicate pad 0) buf [] Hh Hbuf)
    as (r & Ho & Hr & Hk & Hst & _ & _ & Hp). fold file in Ho, Hr.
  destruct (recovery_accepts k start anchor g items (replicate pad 0) buf [] Hh Hs Hm Hit Hbuf
    (stops_zeros pad) Hmax (harmless_zeros k pad)) as (r' & Hrs & Hpr).
  fold data file in Hrs. unfold read_segment in Hrs. rewrite Ho in Hrs. cbn [rbind] in Hrs.
  destruct (read_all crc32c (S (length file)) file r) as [[es|e] r1] eqn:Hra; [|done].
  cbn [rbind] in Hrs. simplify_eq. exists r, r'. rewrite zeros_rposition in Hpr. rewrite Hpr, Hp. done.
Qed.
End written.
End Recovery.

(** ** A concrete segment *)
Module Sample.
Import Reader Recovery Codec.Sample Codec.Facts Journal.Stream.

Definition sample_items : list (item (E:=bool)) := [(1000, 42, App true); (1001, 0, Tick 5)].
Definition sample_header : list Z := header sum32 1 (replicate 32 9) (Some 0).
Definition sample_data : list Z := stream sum32 1 sample_items.
(** An entry whose last bytes were never written. *)
Definition torn : list Z := take 20 (frame sum32 3 (1002, 7, App false)) ++ replicate 30 0.

Lemma sample_header_ok : header_ok Segment.MAX_SECTOR_SIZE 1 (replicate 32 9) (Some 0).
Proof. split; [by right|]. split; [widths; lia|]. split; [done|]. widths; lia. Qed.

Lemma sample_items_ok : Forall item_ok sample_items.
Proof. repeat constructor; widths; lia. Qed.

Lemma sample_fits : (entry_size (E:=bool) <= MAX_ENTRY_SIZE)%nat.
Proof. apply Nat.leb_le. reflexivity. Qed.

Lemma buffering_invisible_witness :
  outcome (E:=bool) (read_segment sum32 (sample_header ++ sample_data ++ torn) Live 3 [1%nat; 2%nat; 1%nat])
  = outcome (read_segment sum32 (sample_header ++ sample_data ++ torn) Live 1000 []).
Proof. apply (buffering_invisible sum32); lia. Defined.

Lemma synced_entries_survive_witness :
  match read_segment sum32 (sample_header ++ sample_data ++ torn) Live 64 [] with
  | Ok (es, r) => exists more, es = entries_of 1 sample_items ++ more
  | Err _ => False
  end.
Proof.
  destruct (read_segment _ _ _ _ _) as [[es r]|e] eqn:Hr.
  - destruct (synced_entries_survive sum32 sum32_range sample_fits Live 1 (replicate 32 9) (Some 0)
      sample_items torn 64 [] sample_header_ok ltac:(lia) ltac:(vm_compute; discriminate) sample_items_ok
      ltac:(lia) es r Hr) as (more & Hes & _).
    by exists more.
  - exfalso. vm_compute in Hr. discriminate.
Defined.

Lemma torn_harmless : harmless Live torn.
Proof.
  intros i v Hi _. split; [done|]. apply lookup_lt_Some in Hi.
  assert (Hl : length torn = 50%nat) by reflexivity. unfold MAX_UNSYNCED_BYTES. lia.
Qed.

Lemma recovery_rule_witness :
  (exists r, read_segment sum32 (sample_header ++ sample_data ++ torn) Live 64 [] =
    Ok (entries_of 1 sample_items, r) /\
    torn_tail (progress r) = Some {| torn_offset := 4096 + length sample_data; torn_len := 14 |}) /\
  exists i v cause, torn !! i = Some v /\ v <> 0 /\
    read_segment (E:=bool) sum32 (sample_header ++ sample_data ++ torn) Archived 64 [] =
    Err (UnrecoverableTail (Z.of_nat (4096 + length sample_data)) (Some 2)
           (Z.of_nat (4096 + length sample_data + i)) cause).
Proof.
  assert (Hst : stops (E:=bool) sum32 torn = true) by reflexivity.
  assert (Hsm : Z.of_nat (length (sample_header ++ sample_data ++ torn)) + MAX_UNSYNCED_BYTES <= u64_max)
    by (vm_compute; discriminate).
  split.
  - destruct (proj1 (recovery_rule sum32 sum32_range sample_fits Live 1 (replicate 32 9) (Some 0)
      sample_items torn 64 [] sample_header_ok ltac:(lia) ltac:(vm_compute; discriminate) sample_items_ok
      ltac:(lia) Hst Hsm) torn_harmless) as (r & Hr & _ & _ & Ht & _).
    exists r. split; [exact Hr|exact Ht].
  - destruct (proj2 (recovery_rule sum32 sum32_range sample_fits Archived 1 (replicate 32 9) (Some 0)
      sample_items torn 64 [] sample_header_ok ltac:(lia) ltac:(vm_compute; discriminate) sample_items_ok
      ltac:(lia) Hst Hsm)) as (i & v & cause & Hi & Hv & Hr).
    { intros Hh. by destruct (Hh 0%nat 0x45 eq_refl ltac:(lia)). }
    exists i, v, cause. split; [exact Hi|]. split; [exact Hv|exact Hr].
Defined.

Definition sample_count : option nat :=
  match read_segment (E:=bool) sum32 (sample_header ++ sample_data ++ torn) Live 64 [] with
  | Ok (es, _) => Some (length es)
  | Err _ => None
  end.

Lemma recovered_history_genuine_witness :
  sample_count = Some 2%nat /\
  exists es r frames,
    read_segment (E:=bool) sum32 (sample_header ++ sample_data ++ torn) Live 64 [] = Ok (es, r) /\
    Forall2 (framed sum32) es frames /\
    tail_ok (sample_header ++ sample_data ++ torn) Live (valid_file_end (progress r)).
Proof.
  assert (Hc : sample_count = Some 2%nat) by (vm_compute; reflexivity).
  split; [exact Hc|]. unfold sample_count in Hc.
  destruct (read_segment _ _ _ _ _) as [[es r]|e] eqn:Hr; [|discriminate].
  assert (Hb : is_bytes (sample_header ++ sample_data ++ torn))
    by (apply (bool_decide_unpack _); vm_compute; exact I).
  destruct (recovered_history_genuine sum32 _ Live 64 [] es r Hb ltac:(lia) Hr)
    as (i & frames & _ & _ & HF & _ & Ht).
  exists es, r, frames. split; [reflexivity|]. split; [exact HF|exact Ht].
Defined.
End Sample.
