(* ===== verification/Segments.v ===== *)
(** * A journal of several segments

    [Audit] is the walk over archives and live segment that recovery and the
    offline audit make ([verify_lineage] in [journal/src/segment.rs]);
    [History] runs the writer through any sequence of appends, flushes and
    rotations and shows that the segments it leaves pass that walk. *)

From S2P Require Import Prelude Lineage Codec Journal Reader.
Import Lineage.Event Codec.Le Codec.Codec.

Module Audit.
Import Reader.Reader.
Section audit.
Context {E : Type} `{AppEvent E}.
Context (crc32c : list Z -> Z) (blake3 : list Z -> list Z).

Record LineageReport := {
  segments : nat;
  entries : Z;
  first_sequence : option Z;
  last_sequence : option Z;
  lineage_start : Z;
  tail_chain_hash : option (list Z);
  live_torn_tail : option TornTail
}.

(** The loop's variables. *)
Record State := {
  prev_tail : option (list Z);
  expected_start : option Z;
  s_lineage_start : Z;
  s_first : option Z;
  s_last : option Z;
  s_entries : Z;
  s_torn : option TornTail
}.

Definition initial : State :=
  {| prev_tail := None; expected_start := None; s_lineage_start := 0; s_first := None;
     s_last := None; s_entries := 0; s_torn := None |}.

(** The checks of a segment against its predecessor. *)
Definition check_link (index : nat) (st : State) (r : JournalReader)
    : result unit JournalError :=
  let start := starting_sequence (info r) in
  let anchor := Chain.anchor (chain (progress r)) in
  _ <-? match prev_tail st with
        | Some expected =>
          guard? bool_decide (expected = anchor) else SegmentChainBreak index expected anchor ;; Ok tt
        | None => Ok tt
        end ;;
  match expected_start st with
  | Some expected => guard? start =? expected else SequenceGap expected start ;; Ok tt
  | None => Ok tt
  end.

(** One turn of the loop, on a segment read with a buffer of [buf] bytes. *)
Definition verify_segment (index : nat) (st : State) (k : SegmentKind) (file : list Z) (buf : nat)
    : result State JournalError :=
  r <-? open_segment crc32c file k buf [] ;;
  let start := starting_sequence (info r) in
  let st_start := if (index =? 0)%nat then start else s_lineage_start st in
  _ <-? check_link index st r ;;
  let '(es, r) := read_all (E:=E) crc32c (S (length file)) file r in
  es <-? es ;;
  let p := progress r in
  Ok {| prev_tail := Some (Chain.value blake3 (chain p));
        expected_start := Some match Reader.Reader.last_sequence p with
                               | Some s => wrapping_add s 1
                               | None => start
                               end;
        s_lineage_start := st_start;
        s_first := match s_first st with Some s => Some s | None => e_sequence <$> head es end;
        s_last := match last es with Some e => Some (e_sequence e) | None => s_last st end;
        s_entries := wrapping_add (s_entries st) (Z.of_nat (length es));
        s_torn := match k with Live => torn_tail p | Archived => s_torn st end |}.

Fixpoint verify_loop (index : nat) (st : State) (files : list (SegmentKind * list Z)) (buf : nat)
    : result State JournalError :=
  match files with
  | [] => Ok st
  | (k, file) :: rest =>
    st <-? verify_segment index st k file buf ;; verify_loop (S index) st rest buf
  end.

(** [verify_lineage]: the archives in order, then the live segment if there is one. *)
Definition verify_lineage (archives : list (list Z)) (live : option (list Z)) (buf : nat)
    : result LineageReport JournalError :=
  let files := map (pair Archived) archives ++
               match live with Some f => [(Live, f)] | None => [] end in
  if (length files =? 0)%nat then Err Io
  else
    st <-? verify_loop 0 initial files buf ;;
    Ok {| segments := length files; entries := s_entries st; first_sequence := s_first st;
          last_sequence := s_last st; lineage_start := s_lineage_start st;
          tail_chain_hash := prev_tail st; live_torn_tail := s_torn st |}.
End audit.
End Audit.

(** ** The writer's whole life *)
Module History.
Import Journal.Encoder Journal.Segment Journal.Writer Journal.Stream.
Import Reader.Reader Reader.Recovery Audit Codec.Facts.
Section history.
Context {E : Type} `{AppEvent E}.
Context (crc32c : list Z -> Z) (blake3 : list Z -> list Z).
Hypothesis crc_range : forall bs, in_u32 (crc32c bs).
Hypothesis blake3_length : forall bs, length (blake3 bs) = 32%nat.
Context `{!AppEventLaws E}.
Hypothesis fits_one_entry : (entry_size (E:=E) <= MAX_ENTRY_SIZE)%nat.

(** The archived files in order, and the writer on the live one. *)
Record Journal := { archives : list (list Z); writer : BufferedWriter }.

Inductive Op :=
| Append (ts key : Z) (ev : JournalEvent E)
| Flush (sizes : list nat)
| Rotate (prepared : option PreparedSegment) (sizes header_sizes : list nat).

Definition apply (j : Journal) (op : Op) : result Journal JournalError :=
  match op with
  | Append ts key ev =>
    let '(r, w) := batch_append_with_ts crc32c (writer j) ev ts key in
    _ <-? r ;; Ok {| archives := archives j; writer := w |}
  | Flush sizes =>
    w <-? flush_batch_sync (writer j) sizes ;; Ok {| archives := archives j; writer := w |}
  | Rotate prepared sizes header_sizes =>
    aw <-? rotate_segment crc32c blake3 (writer j) prepared sizes header_sizes ;;
    Ok {| archives := archives j ++ [fst aw]; writer := snd aw |}
  end.

Fixpoint run (j : Journal) (ops : list Op) : result Journal JournalError :=
  match ops with [] => Ok j | op :: ops => j <-? apply j op ;; run j ops end.

(** What was appended, in order. *)
Definition appended (ops : list Op) : list (item (E:=E)) :=
  omap (fun op => match op with Append ts key ev => Some (ts, key, ev) | _ => None end) ops.

Definition rotations (ops : list Op) : nat :=
  length (List.filter (fun op => match op with Rotate _ _ _ => true | _ => false end) ops).

(** Journaled values in range; system calls that make progress. *)
Definition op_ok (op : Op) : Prop :=
  match op with
  | Append ts key ev => item_ok (ts, key, ev)
  | Flush sizes => Forall (lt 0) sizes
  | Rotate _ sizes header_sizes => Forall (lt 0) sizes /\ Forall (lt 0) header_sizes
  end.

(** A sealed segment. *)
Record Seg := { g_start : Z; g_anchor : list Z; g_items : list (item (E:=E)) }.

Definition seg_file (g : option Z) (s : Seg) : list Z :=
  header crc32c (g_start s) (g_anchor s) g ++ stream crc32c (g_start s) (g_items s).

Definition seg_next (s : Seg) : Z := g_start s + Z.of_nat (length (g_items s)).

Definition seg_tail (s : Seg) : list Z :=
  Chain.value blake3
    {| Chain.anchor := g_anchor s; Chain.absorbed := stream crc32c (g_start s) (g_items s);
       Chain.dirty := negb (length (g_items s) =? 0)%nat |}.

(** Each segment starts where the one before it ended, on its chain. *)
Fixpoint linked (start : Z) (anchor : list Z) (segs : list Seg) (start' : Z) (anchor' : list Z) : Prop :=
  match segs with
  | [] => start' = start /\ anchor' = anchor
  | s :: rest =>
    g_start s = start /\ g_anchor s = anchor /\ linked (seg_next s) (seg_tail s) rest start' anchor'
  end.

Definition seg_ok (g : option Z) (s : Seg) : Prop :=
  header_ok MAX_SECTOR_SIZE (g_start s) (g_anchor s) g /\ 1 <= g_start s /\
  seg_next s <= u64_max /\ Forall item_ok (g_items s).

(** A journal whose sealed segments are [segs]. *)
Record jinv (j : Journal) (start0 : Z) (anchor0 : list Z) (g : option Z) (segs : list Seg)
    (start : Z) (anchor : list Z) (flushed pending : list (item (E:=E))) : Prop := {
  ji_archives : archives j = map (seg_file g) segs;
  ji_linked : linked start0 anchor0 segs start anchor;
  ji_segs : Forall (seg_ok g) segs;
  ji_genesis : genesis (segment (writer j)) = g;
  ji_writer : winv crc32c (writer j) start anchor flushed pending
}.

Lemma linked_snoc start0 anchor0 segs s :
  linked start0 anchor0 segs (g_start s) (g_anchor s) ->
  linked start0 anchor0 (segs ++ [s]) (seg_next s) (seg_tail s).
Proof.
  revert start0 anchor0. induction segs as [|x segs IH]; intros start0 anchor0; cbn.
  - by intros [-> ->].
  - intros (Hs & Ha & Hl). auto.
Qed.

Lemma linked_count start0 anchor0 segs start anchor :
  linked start0 anchor0 segs start anchor ->
  start = start0 + Z.of_nat (length (concat (map g_items segs))).
Proof using Type.
  clear.
  revert start0 anchor0. induction segs as [|s segs IH]; intros start0 anchor0; cbn [linked map concat].
  - intros [-> _]. cbn. lia.
  - intros (Hs & _ & Hl%IH). rewrite length_app. unfold seg_next in Hl. lia.
Qed.

(** One step keeps the invariant, and the items are the appended ones. *)
Lemma apply_keeps j start0 anchor0 g segs start anchor flushed pending op :
  jinv j start0 anchor0 g segs start anchor flushed pending -> op_ok op ->
  start + Z.of_nat (length (flushed ++ pending)) + Z.of_nat (length (appended [op])) <= u64_max ->
  exists j' segs' start' anchor' flushed' pending',
    apply j op = Ok j' /\ jinv j' start0 anchor0 g segs' start' anchor' flushed' pending' /\
    concat (map g_items segs') ++ flushed' ++ pending' =
      concat (map g_items segs) ++ flushed ++ pending ++ appended [op] /\
    length segs' = (length segs + rotations [op])%nat.
Proof.
  intros Hj Hop Hmax. destruct Hj as [Har Hl Hsegs Hg Hw]. destruct op as [ts key ev|sizes|prep sizes hs].
  - destruct (batch_append_keeps crc32c fits_one_entry _ _ _ _ _ _ _ _ Hw Hop ltac:(cbn in Hmax; lia)) as (w' & Ha & Hw' & Hseg & _).
    eexists _, segs, start, anchor, flushed, _. cbn [apply]. rewrite Ha. cbn [rbind].
    split; [done|]. split; [split; cbn; try done; by rewrite Hseg|].
    split; [done|cbn; lia].
  - destruct (flush_keeps crc32c crc_range fits_one_entry _ _ _ _ _ _ Hw Hop) as (w' & Hf & Hw' & _ & _ & Hg').
    eexists _, segs, start, anchor, (flushed ++ pending), []. cbn [apply]. rewrite Hf. cbn [rbind].
    split; [done|]. split; [split; cbn; try done; congruence|].
    split; [by rewrite !app_nil_r|cbn; lia].
  - destruct Hop as [Hs1 Hs2].
    destruct (rotate_keeps crc32c blake3 crc_range blake3_length fits_one_entry _ _ _ _ _ prep _ _ Hw Hs1 Hs2)
      as (w' & Hr & Hw' & Hg').
    set (s := {| g_start := start; g_anchor := anchor; g_items := flushed ++ pending |}).
    eexists _, (segs ++ [s]), (seg_next s), (seg_tail s), [], []. cbn [apply]. rewrite Hr. cbn [rbind fst snd].
    split; [done|]. split; [|split].
    + split; cbn [archives writer].
      * rewrite Har, map_app, Hg. done.
      * by apply linked_snoc.
      * apply Forall_app; split; [done|]. constructor; [|done].
        destruct (wi_range _ _ _ _ _ _ Hw) as [H1 H2]. rewrite <- Hg.
        split_and!; [apply (wi_header _ _ _ _ _ _ Hw)|done|exact H2|apply (wi_items _ _ _ _ _ _ Hw)].
      * congruence.
      * rewrite (wi_chain _ _ _ _ _ _ Hw) in Hw'. exact Hw'.
    + rewrite map_app, concat_app. cbn. by rewrite !app_nil_r.
    + rewrite length_app. done.
Qed.

Lemma appended_cons op ops : appended (op :: ops) = appended [op] ++ appended ops.
Proof. by destruct op. Qed.

Lemma rotations_cons op ops : rotations (op :: ops) = (rotations [op] + rotations ops)%nat.
Proof. by destruct op. Qed.

Lemma run_app j ops ops' : run j (ops ++ ops') = (j <-? run j ops ;; run j ops').
Proof.
  revert j. induction ops as [|op ops IH]; intros j; cbn; [done|].
  destruct (apply j op); cbn; [apply IH|done].
Qed.

Lemma run_keeps j start0 anchor0 g segs start anchor flushed pending ops :
  jinv j start0 anchor0 g segs start anchor flushed pending -> Forall op_ok ops ->
  start0 + Z.of_nat (length (concat (map g_items segs) ++ flushed ++ pending ++ appended ops)) <= u64_max ->
  exists j' segs' start' anchor' flushed' pending',
    run j ops = Ok j' /\ jinv j' start0 anchor0 g segs' start' anchor' flushed' pending' /\
    concat (map g_items segs') ++ flushed' ++ pending' =
      concat (map g_items segs) ++ flushed ++ pending ++ appended ops /\
    length segs' = (length segs + rotations ops)%nat.
Proof.
  revert j segs start anchor flushed pending.
  induction ops as [|op ops IH]; intros j segs start anchor flushed pending Hj Hops Hmax.
  { exists j, segs, start, anchor, flushed, pending. cbn. rewrite app_nil_r. split_and!; (done || lia). }
  apply Forall_cons_1 in Hops as [Hop Hops]. rewrite appended_cons in Hmax |- *. rewrite rotations_cons.
  pose proof (linked_count _ _ _ _ _ (ji_linked _ _ _ _ _ _ _ _ _ Hj)) as Hc.
  destruct (apply_keeps _ _ _ _ _ _ _ _ _ _ Hj Hop) as
    (j1 & segs1 & start1 & anchor1 & fl1 & pe1 & Ha & Hj1 & Htot & Hlen).
  { rewrite !length_app in *. lia. }
  destruct (IH _ _ _ _ _ _ Hj1 Hops) as (j2 & segs2 & start2 & anchor2 & fl2 & pe2 & Hr & Hj2 & Htot2 & Hlen2).
  { apply (f_equal length) in Htot. rewrite !length_app in *. lia. }
  exists j2, segs2, start2, anchor2, fl2, pe2. cbn [run]. rewrite Ha. cbn [rbind].
  split_and!; [done|done| |lia]. rewrite Htot2, (app_assoc fl1 pe1), (app_assoc _ (fl1 ++ pe1)), Htot.
  by rewrite <- !app_assoc.
Qed.

(** *** Reading it all back *)

(** The entries of every segment, in order. *)
Fixpoint read_lineage (files : list (SegmentKind * list Z)) (buf : nat)
    : result (list (JournalEntry (E:=E))) JournalError :=
  match files with
  | [] => Ok []
  | (k, file) :: rest =>
    er <-? read_segment crc32c file k buf [] ;;
    es <-? read_lineage rest buf ;;
    Ok (fst er ++ es)
  end.

Lemma entries_app seq xs ys :
  entries_of seq (xs ++ ys) = entries_of (E:=E) seq xs ++ entries_of (seq + Z.of_nat (length xs)) ys.
Proof.
  revert seq. induction xs as [|[[ts key] ev] xs IH]; intros seq; cbn [entries_of app length].
  - by rewrite Z.add_0_r.
  - rewrite IH. do 3 f_equal. lia.
Qed.

Lemma entries_length seq items : length (entries_of (E:=E) seq items) = length items.
Proof. revert seq. induction items as [|[[ts key] ev] items IH]; intros seq; cbn; [done|]. by rewrite IH. Qed.

Lemma entries_head seq items :
  e_sequence <$> head (entries_of (E:=E) seq items) = if (length items =? 0)%nat then None else Some seq.
Proof. by destruct items as [|[[ts key] ev] items]. Qed.

Lemma entries_last seq items :
  match last (entries_of (E:=E) seq items) with Some e => Some (e_sequence e) | None => None end
  = if (length items =? 0)%nat then None else Some (seq + Z.of_nat (length items) - 1).
Proof.
  destruct items as [|it items _] using rev_ind; [done|].
  rewrite entries_app, length_app. destruct it as [[ts key] ev]. cbn [entries_of]. rewrite last_snoc.
  cbn [length e_sequence]. rewrite (proj2 (Nat.eqb_neq _ _)) by lia. f_equal. lia.
Qed.

(** The audit's state before segment [index], [n] entries from [start0] read. *)
Record st_at (index : nat) (st : State) (start0 : Z) (n : nat) (tail : list Z) : Prop := {
  sa_tail : prev_tail st = (if (index =? 0)%nat then None else Some tail);
  sa_start : expected_start st = (if (index =? 0)%nat then None else Some (start0 + Z.of_nat n));
  sa_first_index : index = 0%nat -> n = 0%nat;
  sa_lineage : index <> 0%nat -> s_lineage_start st = start0;
  sa_first : s_first st = (if (n =? 0)%nat then None else Some start0);
  sa_last : s_last st = (if (n =? 0)%nat then None else Some (start0 + Z.of_nat n - 1));
  sa_entries : s_entries st = Z.of_nat n;
  sa_torn : s_torn st = None
}.

Lemma initial_at start0 tail : st_at 0 initial start0 0 tail.
Proof. by split. Qed.

Definition file_small (file : list Z) : Prop := Z.of_nat (length file) + MAX_UNSYNCED_BYTES <= u64_max.

Lemma next_start start (len : nat) :
  1 <= start -> start + Z.of_nat len <= u64_max ->
  match (if (len =? 0)%nat then None else Some (start + Z.of_nat len - 1)) with
  | Some s => wrapping_add s 1
  | None => start
  end = start + Z.of_nat len.
Proof.
  intros Hs Hm. destruct (len =? 0)%nat eqn:Hz; [apply Nat.eqb_eq in Hz; lia|].
  unfold wrapping_add. rewrite Z.mod_small by (widths; lia). lia.
Qed.

Lemma wrap_entries n len start :
  start + Z.of_nat len <= u64_max -> Z.of_nat n <= start ->
  wrapping_add (Z.of_nat n) (Z.of_nat len) = Z.of_nat (n + len).
Proof. intros Hm Hn. unfold wrapping_add. rewrite Z.mod_small by (widths; lia). lia. Qed.

(** One segment in good order advances the audit. *)
Lemma verify_segment_clean index st start0 n k s g pad buf :
  st_at index st start0 n (g_anchor s) -> seg_ok g s -> g_start s = start0 + Z.of_nat n ->
  (0 < buf)%nat -> file_small (seg_file g s ++ replicate pad 0) -> 0 <= start0 ->
  (exists st', verify_segment crc32c blake3 index st k (seg_file g s ++ replicate pad 0) buf = Ok st' /\
    st_at (S index) st' start0 (n + length (g_items s)) (seg_tail s)) /\
  exists r, read_segment crc32c (seg_file g s ++ replicate pad 0) k buf []
    = Ok (entries_of (g_start s) (g_items s), r).
Proof.
  intros Hst (Hh & H1 & Hmax & Hit) Hstart Hbuf Hsmall H0.
  unfold seg_file in *. rewrite <- app_assoc in *. unfold file_small in Hsmall.
  destruct (read_clean crc32c crc_range fits_one_entry k _ _ g (g_items s) pad buf Hh H1 Hmax Hit Hbuf Hsmall)
    as (r & r' & Ho & Hs & Ha & Hra & Hls & Htt & Hch).
  split; [|exists r'; unfold read_segment; by rewrite Ho; cbn [rbind]; rewrite Hra].
  unfold verify_segment. rewrite Ho. cbn [rbind].
  assert (Hlink : check_link index st r = Ok tt).
  { unfold check_link. rewrite Hs, Ha, (sa_tail _ _ _ _ _ Hst), (sa_start _ _ _ _ _ Hst).
    destruct (index =? 0)%nat; [done|]. by rewrite bool_decide_true, Hstart, Z.eqb_refl. }
  rewrite Hlink. cbn [rbind]. rewrite Hra. cbn [rbind]. eexists. split; [done|].
  unfold seg_next in Hmax. pose proof (entries_last (g_start s) (g_items s)) as Hlast.
  split; cbn [prev_tail expected_start s_lineage_start s_first s_last s_entries s_torn Nat.eqb].
  - by rewrite Hch.
  - rewrite Hls, Hs, next_start by done. f_equal. lia.
  - done.
  - intros _. destruct (index =? 0)%nat eqn:Hi; [|apply (sa_lineage _ _ _ _ _ Hst); by apply Nat.eqb_neq].
    apply Nat.eqb_eq in Hi. rewrite Hs, Hstart, (sa_first_index _ _ _ _ _ Hst Hi). lia.
  - rewrite (sa_first _ _ _ _ _ Hst), entries_head.
    destruct n as [|n]; [|done]. cbn [Nat.eqb Nat.add]. by rewrite Hstart, Z.add_0_r.
  - rewrite (sa_last _ _ _ _ _ Hst).
    destruct (last _) as [e|]; destruct (length (g_items s) =? 0)%nat eqn:Hz; try done.
    + apply Nat.eqb_neq in Hz. rewrite (proj2 (Nat.eqb_neq (n + _) 0)) by lia.
      rewrite Hlast. f_equal. lia.
    + apply Nat.eqb_eq in Hz. by rewrite Hz, Nat.add_0_r.
  - rewrite (sa_entries _ _ _ _ _ Hst), entries_length. apply (wrap_entries _ _ (g_start s)); lia.
  - destruct k; [done|]. apply (sa_torn _ _ _ _ _ Hst).
Qed.

Definition seg_input (g : option Z) (x : SegmentKind * Seg * nat) : SegmentKind * list Z :=
  let '(k, s, pad) := x in (k, seg_file g s ++ replicate pad 0).

Lemma lineage_clean inputs index st start0 n anchor g start' anchor' buf :
  let segs := map (fun x => snd (fst x)) inputs in
  st_at index st start0 n anchor ->
  linked (start0 + Z.of_nat n) anchor segs start' anchor' -> Forall (seg_ok g) segs ->
  (0 < buf)%nat -> Forall (fun x => file_small (snd (seg_input g x))) inputs -> 0 <= start0 ->
  let items := concat (map g_items segs) in
  (exists st', verify_loop crc32c blake3 index st (map (seg_input g) inputs) buf = Ok st' /\
     st_at (index + length inputs) st' start0 (n + length items) anchor') /\
  read_lineage (map (seg_input g) inputs) buf = Ok (entries_of (start0 + Z.of_nat n) items).
Proof.
  revert index st n anchor. induction inputs as [|[[k s] pad] inputs IH];
    intros index st n anchor segs Hst Hl Hok Hbuf Hsmall H0 items.
  { cbn in *. destruct Hl as [_ ->]. split; [|done]. exists st. by rewrite !Nat.add_0_r. }
  cbn [map fst snd linked] in segs, Hl. unfold segs in Hok. cbn [map fst snd] in Hok.
  destruct Hl as (Hs & Ha & Hl). apply Forall_cons_1 in Hok as [Hok Hoks], Hsmall as [Hsm Hsmall].
  rewrite <- Ha in Hst.
  destruct (verify_segment_clean index st start0 n k s g pad buf Hst Hok Hs Hbuf Hsm H0)
    as ((st1 & Hv & Hst1) & (r & Hr)).
  assert (Hn : seg_next s = start0 + Z.of_nat (n + length (g_items s))) by (unfold seg_next; lia).
  rewrite Hn in Hl.
  destruct (IH (S index) st1 (n + length (g_items s))%nat (seg_tail s) Hst1 Hl Hoks Hbuf Hsmall H0)
    as ((st2 & Hv2 & Hst2) & Hr2).
  cbn [map seg_input verify_loop read_lineage]. rewrite Hv, Hr. cbn [rbind fst]. rewrite Hv2, Hr2. cbn [rbind].
  split.
  - exists st2. split; [done|]. unfold items, segs. cbn [map concat fst snd]. rewrite length_app. cbn [length].
    replace (index + S (length inputs))%nat with (S index + length inputs)%nat by lia.
    by rewrite Nat.add_assoc.
  - unfold items, segs. cbn [map concat fst snd]. rewrite entries_app, Hs, <- Hs, Hs.
    do 3 f_equal. lia.
Qed.

(** A journal with nothing pending passes the audit and reads back whole. *)
Lemma closed_journal j anchor0 g segs start anchor flushed buf :
  jinv j 1 anchor0 g segs start anchor flushed [] -> (0 < buf)%nat ->
  let live := contents (segment (writer j)) in
  Forall file_small (archives j ++ [live]) ->
  let items := concat (map g_items segs) ++ flushed in
  let n := length items in
  verify_lineage (E:=E) crc32c blake3 (archives j) (Some live) buf =
    Ok {| segments := S (length segs); entries := Z.of_nat n;
          first_sequence := if (n =? 0)%nat then None else Some 1;
          Audit.last_sequence := if (n =? 0)%nat then None else Some (Z.of_nat n);
          lineage_start := 1;
          tail_chain_hash := Some (Chain.value blake3 (hash_chain (encoder (writer j))));
          live_torn_tail := None |} /\
  read_lineage (map (pair Archived) (archives j) ++ [(Live, live)]) buf = Ok (entries_of 1 items).
Proof.
  intros Hj Hbuf live Hsmall items n. destruct Hj as [Har Hl Hsegs Hg Hw].
  set (s := {| g_start := start; g_anchor := anchor; g_items := flushed |}).
  destruct (wi_file _ _ _ _ _ _ Hw) as [pad Hfile]. rewrite Hg in Hfile. fold live in Hfile.
  set (inputs := map (fun s => (Archived, s, 0%nat)) segs ++ [(Live, s, pad)]).
  assert (Hin : map (seg_input g) inputs = map (pair Archived) (archives j) ++ [(Live, live)]).
  { unfold inputs. rewrite map_app, Har, !map_map. cbn [map seg_input]. f_equal.
    - apply map_ext. intros x. cbn. by rewrite app_nil_r.
    - unfold seg_file. rewrite <- app_assoc. by rewrite Hfile. }
  assert (Hsg : map (fun x : SegmentKind * Seg * nat => snd (fst x)) inputs = segs ++ [s]).
  { unfold inputs. rewrite map_app, map_map. cbn. by rewrite map_id. }
  assert (Hitems : concat (map g_items (segs ++ [s])) = items).
  { rewrite map_app, concat_app. cbn. by rewrite app_nil_r. }
  destruct (wi_range _ _ _ _ _ _ Hw) as [H1 H2].
  destruct (lineage_clean inputs 0 initial 1 0 anchor0 g (seg_next s) (seg_tail s) buf) as [(st & Hv & Hst) Hr].
  - apply initial_at.
  - rewrite Hsg. by apply linked_snoc.
  - rewrite Hsg. apply Forall_app. split; [done|]. constructor; [|done].
    rewrite app_nil_r in H2. rewrite <- Hg. pose proof (wi_items _ _ _ _ _ _ Hw) as Hi.
    rewrite app_nil_r in Hi. split_and!; [apply (wi_header _ _ _ _ _ _ Hw)|done|done|done].
  - done.
  - apply (Forall_map (seg_input g) (fun y => file_small (snd y))). rewrite Hin.
    apply Forall_app in Hsmall as [Hsa Hsl]. apply Forall_app. split.
    + by apply Forall_map.
    + constructor; [|done]. by rewrite Forall_singleton in Hsl.
  - lia.
  - rewrite Hsg, Hitems, Hin in *. split; [|exact Hr].
    unfold verify_lineage. rewrite length_app, Nat.add_comm. cbn [length Nat.add Nat.eqb]. rewrite Hv. cbn [rbind].
    assert (Hlen : length inputs = S (length segs))
      by (unfold inputs; rewrite length_app, length_map; cbn; lia).
    rewrite Hlen in Hst. rewrite length_map, Har, length_map.
    rewrite (sa_tail _ _ _ _ _ Hst), (sa_first _ _ _ _ _ Hst), (sa_last _ _ _ _ _ Hst),
      (sa_entries _ _ _ _ _ Hst), (sa_torn _ _ _ _ _ Hst), (sa_lineage _ _ _ _ _ Hst) by lia.
    cbn [Nat.eqb Nat.add]. fold n. rewrite (wi_chain _ _ _ _ _ _ Hw), app_nil_r.
    do 2 f_equal. by replace (1 + Z.of_nat n - 1) with (Z.of_nat n) by lia.
Qed.

(** C12: The journal is an append-only log that survives its own life. From a fresh
    journal, any run of appends, flushes and rotations, with every write split
    however the kernel likes and every rotation onto a fresh or a pre-staged
    segment, succeeds; after a flush, the segments on disk pass the lineage
    audit with the exact counts, no torn tail and the writer's own chain hash,
    and reading them back in order returns every event ever appended, with its
    timestamp, key and the sequence numbers 1, 2, 3, ... *)
Theorem journal_is_a_log anchor chunk sizes ops final_sizes buf :
  length anchor = 32%nat -> Forall (lt 0) sizes -> Forall op_ok ops -> Forall (lt 0) final_sizes ->
  1 + Z.of_nat (length (appended ops)) <= u64_max -> (0 < buf)%nat ->
  exists w j, create crc32c anchor chunk sizes = Ok w /\
    run {| archives := []; writer := w |} (ops ++ [Flush final_sizes]) = Ok j /\
    let live := contents (segment (writer j)) in
    let n := length (appended ops) in
    length (archives j) = rotations ops /\
    (Forall file_small (archives j ++ [live]) ->
      verify_lineage (E:=E) crc32c blake3 (archives j) (Some live) buf =
        Ok {| segments := S (rotations ops); entries := Z.of_nat n;
              first_sequence := if (n =? 0)%nat then None else Some 1;
              Audit.last_sequence := if (n =? 0)%nat then None else Some (Z.of_nat n);
              lineage_start := 1;
              tail_chain_hash := Some (Chain.value blake3 (hash_chain (encoder (writer j))));
              live_torn_tail := None |} /\
      read_lineage (map (pair Archived) (archives j) ++ [(Live, live)]) buf
        = Ok (entries_of 1 (appended ops))).
Proof.
  intros Ha Hs Hops Hfs Hmax Hbuf.
  assert (Hh : header_ok MAX_SECTOR_SIZE 1 anchor (Some 0))
    by (split; [by right|]; split; [widths; lia|]; split; [done|]; widths; lia).
  destruct (create_keeps crc32c fits_one_entry 1 anchor (Some 0) chunk sizes Hh ltac:(widths; lia) Hs)
    as (w & Hc & Hw & Hg).
  set (j0 := {| archives := []; writer := w |}).
  assert (Hj0 : jinv j0 1 anchor (Some 0) [] 1 anchor [] []) by by split.
  destruct (run_keeps j0 1 anchor (Some 0) [] 1 anchor [] [] ops Hj0 Hops Hmax)
    as (j1 & segs & start & anchor1 & fl & pe & Hr1 & Hj1 & Htot & Hlen).
  destruct (flush_keeps crc32c crc_range fits_one_entry _ _ _ _ _ final_sizes (ji_writer _ _ _ _ _ _ _ _ _ Hj1) Hfs)
    as (w2 & Hf & Hw2 & _ & _ & Hg2).
  set (j2 := {| archives := archives j1; writer := w2 |}).
  assert (Hj2 : jinv j2 1 anchor (Some 0) segs start anchor1 (fl ++ pe) []).
  { destruct Hj1. split; try done. cbn. congruence. }
  exists w, j2. split; [done|]. split; [fold j0; rewrite run_app, Hr1; cbn; by rewrite Hf|].
  cbn [map concat app length Nat.add] in Htot, Hlen. rewrite <- Htot, <- Hlen.
  split; [rewrite (ji_archives _ _ _ _ _ _ _ _ _ Hj2); apply length_map|].
  intros Hsmall. exact (closed_journal j2 anchor (Some 0) segs start anchor1 (fl ++ pe) buf Hj2 Hbuf Hsmall).
Qed.
End history.
End History.

(** ** A concrete journal *)
Module Sample.
Import History Codec.Sample Reader.Recovery Reader.Sample.

(** A digest of the right width. *)
Definition digest (bs : list Z) : list Z := replicate 32 (foldr Z.lxor 0 bs).

Definition sample_ops : list (Op (E:=bool)) :=
  [Append 1000 42 (App true); Flush [5%nat; 3%nat]; Append 1001 0 (Tick 5);
   Rotate None [] []; Append 1002 42 (App false)].

Definition live_file (j : Journal) : list Z := Journal.Segment.contents (Journal.Writer.segment (writer j)).

Definition sizes_small : bool :=
  match Journal.Writer.create sum32 (replicate 32 9) 4200 [] with
  | Ok w =>
    match run sum32 digest {| archives := []; writer := w |} (sample_ops ++ [Flush [1%nat]]) with
    | Ok j => forallb (fun f => Z.of_nat (length f) + Reader.Reader.MAX_UNSYNCED_BYTES <=? u64_max)
                (archives j ++ [live_file j])
    | Err _ => false
    end
  | Err _ => false
  end.

Lemma journal_is_a_log_witness :
  exists w j, Journal.Writer.create sum32 (replicate 32 9) 4200 [] = Ok w /\
    run sum32 digest {| archives := []; writer := w |} (sample_ops ++ [Flush [1%nat]]) = Ok j /\
    length (archives j) = 1%nat /\
    read_lineage sum32 (map (pair Reader.Reader.Archived) (archives j) ++
       [(Reader.Reader.Live, live_file j)]) 4096 = Ok (entries_of 1 (appended sample_ops)).
Proof.
  assert (Hsm : sizes_small = true) by (vm_compute; reflexivity).
  destruct (journal_is_a_log sum32 digest sum32_range (fun _ => eq_refl) sample_fits
    (replicate 32 9) 4200 [] sample_ops [1%nat] 4096 eq_refl ltac:(constructor)
    ltac:(repeat constructor; widths; lia) ltac:(repeat constructor) ltac:(vm_compute; discriminate) ltac:(lia))
    as (w & j & Hc & Hr & Hl & Hv).
  exists w, j. split; [exact Hc|]. split; [exact Hr|]. split; [exact Hl|].
  unfold sizes_small in Hsm. rewrite Hc, Hr in Hsm. apply Hv.
  apply Forall_forall. intros f Hf. rewrite forallb_forall in Hsm.
  apply Z.leb_le, Hsm. by apply list_elem_of_In.
Defined.
End Sample.
