(* ===== verification/Scanner.v ===== *)
(** * Reading the journal raw

    [Scanner] is [RawJournalScanner] ([journal/src/reader.rs]), which finds entry
    boundaries without decoding entries, with its buffer and short reads, and the
    helpers built on it ([journal/src/segment.rs]): a segment's chain value at a
    sequence, its byte prefix, and the check of a received prefix. [Raw] is the
    same walk over the bytes themselves, and shows that buffering does not matter;
    [Written] is what it finds in a segment the writer wrote. *)

From S2P Require Import Prelude Lineage Codec Journal Reader.
Import Lineage.Event Codec.Le Codec.Codec.

Module Scanner.
Import Reader.Reader.

Section scanner.
Context (crc32c : list Z -> Z) (blake3 : list Z -> list Z).

(** [window] is [buf[pos..valid]], [cursor] the descriptor's offset, [sizes] the
    script of the reads to come. *)
Record RawJournalScanner := { cursor : nat; buf_len : nat; window : list Z; sizes : list nat }.

(** [read_header_info]. *)
Definition read_header_info (file : list Z) : result FileHeaderInfo JournalError :=
  if (length file <? FILE_HEADER_SIZE)%nat then Err Io
  else decode_file_header crc32c (take FILE_HEADER_SIZE file).

Definition open (file : list Z) (script : list nat) : result RawJournalScanner JournalError :=
  i <-? read_header_info file ;;
  Ok {| cursor := sector_size i; buf_len := Z.to_nat (64 * 1024); window := []; sizes := script |}.

(** [ensure_available]: compact, grow, read, until there is enough or the file
    ends; every turn reads at least a byte, so the file's length is fuel enough. *)
Fixpoint ensure_loop (fuel : nat) (file : list Z) (needed : nat) (sc : RawJournalScanner)
    : RawJournalScanner :=
  if (length (window sc) <? needed)%nat then
    match fuel with
    | O => sc
    | S fuel =>
      let cap := Nat.max (buf_len sc) needed in
      let '(bytes, script) := Io.read_at file (cursor sc) (cap - length (window sc)) (sizes sc) in
      let sc' := {| cursor := cursor sc + length bytes; buf_len := cap;
                    window := window sc ++ bytes; sizes := script |} in
      if (length bytes =? 0)%nat then sc' else ensure_loop fuel file needed sc'
    end
  else sc.
Definition ensure_available (file : list Z) (needed : nat) (sc : RawJournalScanner) :=
  ensure_loop (S (length file)) file needed sc.

(** The fields of the entry header at the front of the buffer. *)
Definition header_sequence (bytes : list Z) : Z := field 4 8 bytes.
Definition header_total (bytes : list Z) : nat :=
  (ENTRY_HEADER_SIZE + Z.to_nat (field 2 2 bytes) + CRC_SIZE)%nat.

(** No entry can start here: too few bytes, or preallocated space. *)
Definition at_end (bytes : list Z) : bool :=
  (length bytes <? ENTRY_HEADER_SIZE)%nat || zero_magic bytes.

Definition first_sequence (file : list Z) (sc : RawJournalScanner) : option Z * RawJournalScanner :=
  let sc := ensure_available file ENTRY_HEADER_SIZE sc in
  (if at_end (window sc) then None else Some (header_sequence (window sc)), sc).

Definition advance (n : nat) (sc : RawJournalScanner) : RawJournalScanner :=
  {| cursor := cursor sc; buf_len := buf_len sc; window := drop n (window sc); sizes := sizes sc |}.

Fixpoint skip_loop (fuel : nat) (file : list Z) (target_seq : Z) (sc : RawJournalScanner)
    : RawJournalScanner :=
  match fuel with
  | O => sc
  | S fuel =>
    let sc := ensure_available file ENTRY_HEADER_SIZE sc in
    if at_end (window sc) then sc
    else if target_seq <? header_sequence (window sc) then sc
    else
      let total := header_total (window sc) in
      let sc := ensure_available file total sc in
      if (length (window sc) <? total)%nat then sc else skip_loop fuel file target_seq (advance total sc)
  end.
Definition skip_to_after (file : list Z) (target_seq : Z) (sc : RawJournalScanner) :=
  skip_loop (S (length file)) file target_seq sc.

(** [read_raw_batch_inner]: the bytes it appended, the last sequence among them if
    any, and the scanner after them. *)
Fixpoint batch_loop (fuel : nat) (file : list Z) (max_bytes : nat) (stop : option Z)
    (out : list Z) (last : option Z) (sc : RawJournalScanner)
    : list Z * option Z * RawJournalScanner :=
  match fuel with
  | O => (out, last, sc)
  | S fuel =>
    let sc := ensure_available file ENTRY_HEADER_SIZE sc in
    if at_end (window sc) then (out, last, sc)
    else
      let entry_seq := header_sequence (window sc) in
      let total := header_total (window sc) in
      if match stop with Some s => s <? entry_seq | None => false end then (out, last, sc)
      else if match last with Some _ => (max_bytes <? length out + total)%nat | None => false end
      then (out, last, sc)
      else
        let sc := ensure_available file total sc in
        if (length (window sc) <? total)%nat then (out, last, sc)
        else batch_loop fuel file max_bytes stop (out ++ take total (window sc)) (Some entry_seq)
               (advance total sc)
  end.
Definition read_raw_batch_inner (file : list Z) (max_bytes : nat) (stop : option Z)
    (sc : RawJournalScanner) := batch_loop (S (length file)) file max_bytes stop [] None sc.
Definition read_raw_batch (file : list Z) (max_bytes : nat) (sc : RawJournalScanner) :=
  read_raw_batch_inner file max_bytes None sc.
Definition read_raw_batch_until (file : list Z) (max_bytes : nat) (stop_after_seq : Z)
    (sc : RawJournalScanner) := read_raw_batch_inner file max_bytes (Some stop_after_seq) sc.

(** ** The helpers of [segment.rs] *)
Definition MIB : nat := Z.to_nat (2 ^ 20).

Inductive ChainValueAt := Value (hash : list Z) | BeyondTip.

(** The loops below read a batch each turn; a batch takes at least a byte of the
    file, so its length is fuel enough. *)
Fixpoint chain_loop (fuel : nat) (file : list Z) (seq : Z) (chain : Chain.SegmentChain)
    (sc : RawJournalScanner) : ChainValueAt :=
  match fuel with
  | O => BeyondTip
  | S fuel =>
    match read_raw_batch_until file MIB seq sc with
    | (buf, Some end_, sc) =>
      let chain := Chain.absorb chain buf in
      if end_ =? seq then Value (Chain.value blake3 chain) else chain_loop fuel file seq chain sc
    | (_, None, _) => BeyondTip
    end
  end.
Definition chain_value_at (file : list Z) (seq : Z) (script : list nat) : result ChainValueAt JournalError :=
  i <-? read_header_info file ;;
  sc <-? open file script ;;
  Ok (chain_loop (S (length file)) file seq (Chain.new (anchor_hash i)) sc).

Fixpoint prefix_loop (fuel : nat) (file : list Z) (through_seq : Z) (out : list Z)
    (sc : RawJournalScanner) : option (list Z) :=
  match fuel with
  | O => None
  | S fuel =>
    match read_raw_batch_until file MIB through_seq sc with
    | (buf, Some end_, sc) =>
      if end_ =? through_seq then Some (out ++ buf) else prefix_loop fuel file through_seq (out ++ buf) sc
    | (_, None, _) => None
    end
  end.
Definition read_segment_prefix (file : list Z) (through_seq : Z) (script : list nat)
    : result (option (list Z)) JournalError :=
  i <-? read_header_info file ;;
  guard? negb (length file <? Encoder.ENTRY_OFFSET)%nat else Io ;;
  let out := take Encoder.ENTRY_OFFSET file in
  if through_seq =? sat_sub (starting_sequence i) 1 then Ok (Some out)
  else
    sc <-? open file script ;;
    Ok (prefix_loop (S (length file)) file through_seq out sc).

(** How a received seed can be wrong. *)
Inductive SeedFault := WrongEnd | WrongLength | ExtraEntries.

Fixpoint verify_loop (fuel : nat) (file : list Z) (through_seq last : Z) (bytes : nat)
    (sc : RawJournalScanner) : Z * nat * RawJournalScanner :=
  match fuel with
  | O => (last, bytes, sc)
  | S fuel =>
    match read_raw_batch_until file MIB through_seq sc with
    | (buf, Some end_, sc) => verify_loop fuel file through_seq end_ (bytes + length buf) sc
    | (_, None, sc) => (last, bytes, sc)
    end
  end.
Definition verify_segment_prefix (file : list Z) (through_seq : Z) (expected_len : nat)
    (script : list nat) : result unit (JournalError + SeedFault) :=
  i <-? rmap_err inl (read_header_info file) ;;
  sc <-? rmap_err inl (open file script) ;;
  let '(last, bytes, sc) :=
    verify_loop (S (length file)) file through_seq (sat_sub (starting_sequence i) 1)
      Encoder.ENTRY_OFFSET sc in
  if negb (last =? through_seq) then Err (inr WrongEnd)
  else if negb (bytes =? expected_len)%nat then Err (inr WrongLength)
  else match read_raw_batch file 256 sc with
       | (_, Some _, _) => Err (inr ExtraEntries)
       | (_, None, _) => Ok tt
       end.
End scanner.
End Scanner.

(** ** The walk over the bytes themselves *)
Module Raw.
Import Scanner.

(** What a scanner has ahead of it. *)
Definition ahead (file : list Z) (sc : RawJournalScanner) : list Z :=
  window sc ++ drop (cursor sc) file.

Lemma ensure_loop_spec fuel file needed sc :
  (length file - cursor sc < fuel)%nat ->
  ahead file (ensure_loop fuel file needed sc) = ahead file sc /\
  (needed <= length (window (ensure_loop fuel file needed sc)) \/
   window (ensure_loop fuel file needed sc) = ahead file sc)%nat.
Proof.
  revert sc. induction fuel as [|fuel IH]; intros sc Hf; [lia|]. cbn [ensure_loop].
  destruct (length (window sc) <? needed)%nat eqn:Hn; [apply Nat.ltb_lt in Hn|apply Nat.ltb_ge in Hn].
  2: { split; [done|by left]. }
  set (want := (Nat.max (buf_len sc) needed - length (window sc))%nat).
  destruct (Io.read_at file (cursor sc) want (sizes sc)) as [bytes script] eqn:Hr.
  assert (Hb : bytes = fst (Io.read_at file (cursor sc) want (sizes sc))) by by rewrite Hr.
  destruct (decide (cursor sc < length file)%nat) as [Hlt|Hge].
  - destruct (Io.read_at_some file (cursor sc) want (sizes sc)) as (n & Hn1 & Hn2 & Ht); [unfold want; lia|done|].
    rewrite <- Hb in Ht. assert (Hlen : length bytes = n) by (rewrite Ht, length_take, length_drop; lia).
    rewrite (proj2 (Nat.eqb_neq _ _)) by lia.
    set (sc' := {| cursor := _; buf_len := _; window := _; sizes := _ |}).
    assert (Ha : ahead file sc' = ahead file sc).
    { unfold ahead, sc'. cbn [window cursor]. rewrite <- app_assoc. f_equal.
      rewrite Hlen, Ht, <- drop_drop. apply take_drop. }
    destruct (IH sc') as [H1 H2]; [unfold sc'; cbn [cursor]; lia|]. rewrite Ha in H1, H2. done.
  - rewrite Io.read_at_eof in Hb by lia. subst bytes. cbn [length Nat.eqb].
    unfold ahead. cbn [window cursor]. rewrite !app_nil_r, !Nat.add_0_r. split; [done|].
    right. by rewrite drop_ge, app_nil_r by lia.
Qed.

Lemma ensure_spec file needed sc :
  ahead file (ensure_available file needed sc) = ahead file sc /\
  (needed <= length (window (ensure_available file needed sc)) \/
   window (ensure_available file needed sc) = ahead file sc)%nat.
Proof. apply ensure_loop_spec. lia. Qed.

(** The first entry of some bytes: its sequence and its extent. *)
Definition entry_at (bytes : list Z) : option (Z * nat) :=
  if at_end bytes then None else Some (header_sequence bytes, header_total bytes).

Lemma entry_at_prefix (xs ys : list Z) :
  (ENTRY_HEADER_SIZE <= length xs \/ ys = [])%nat -> entry_at (xs ++ ys) = entry_at xs.
Proof.
  intros [Hl| ->]; [|by rewrite app_nil_r]. unfold entry_at, at_end, header_sequence, header_total, ENTRY_HEADER_SIZE in *.
  rewrite !(proj2 (Nat.ltb_ge _ _)) by (rewrite ?length_app; lia).
  rewrite Whole.zero_magic_prefix by lia. by rewrite !field_prefix by lia.
Qed.

(** Looking at the next entry through the buffer or directly is the same. *)
Lemma ensured_entry file sc :
  let sc' := ensure_available file ENTRY_HEADER_SIZE sc in
  ahead file sc' = ahead file sc /\ entry_at (window sc') = entry_at (ahead file sc).
Proof.
  cbn zeta. destruct (ensure_spec file ENTRY_HEADER_SIZE sc) as [Ha Hw]. split; [done|].
  rewrite <- Ha. unfold ahead at 1. destruct Hw as [Hw|Hw]; [symmetry; apply entry_at_prefix; by left|].
  rewrite <- Ha in Hw. unfold ahead in Hw. symmetry. apply entry_at_prefix. right.
  apply (app_inv_head (window (ensure_available file ENTRY_HEADER_SIZE sc))). by rewrite app_nil_r.
Qed.

(** Having a whole entry buffered or in the file is the same. *)
Lemma ensured_extent file total sc :
  let sc' := ensure_available file total sc in
  ahead file sc' = ahead file sc /\
  (length (window sc') <? total)%nat = (length (ahead file sc) <? total)%nat /\
  ((total <= length (ahead file sc))%nat -> take total (window sc') = take total (ahead file sc) /\
     ahead file (advance total sc') = drop total (ahead file sc)).
Proof.
  cbn zeta. destruct (ensure_spec file total sc) as [Ha Hw]. split; [done|].
  set (sc' := ensure_available file total sc) in *.
  assert (Hlen : (length (window sc') <= length (ahead file sc))%nat)
    by (rewrite <- Ha; unfold ahead; rewrite length_app; lia).
  split.
  - destruct Hw as [Hw|Hw]; [|by rewrite Hw].
    rewrite !(proj2 (Nat.ltb_ge _ _)) by lia. done.
  - intros Ht. assert (Hle : (total <= length (window sc'))%nat) by (destruct Hw as [?| ->]; lia).
    rewrite <- Ha. unfold ahead. cbn [advance window cursor].
    by rewrite take_app_le, drop_app_le by lia.
Qed.

Fixpoint skip (fuel : nat) (target : Z) (bytes : list Z) : list Z :=
  match fuel with
  | O => bytes
  | S fuel =>
    match entry_at bytes with
    | None => bytes
    | Some (seq, total) =>
      if target <? seq then bytes
      else if (length bytes <? total)%nat then bytes else skip fuel target (drop total bytes)
    end
  end.

Fixpoint batch (fuel max : nat) (stop : option Z) (out : list Z) (last : option Z) (bytes : list Z)
    : list Z * option Z * list Z :=
  match fuel with
  | O => (out, last, bytes)
  | S fuel =>
    match entry_at bytes with
    | None => (out, last, bytes)
    | Some (seq, total) =>
      if match stop with Some s => s <? seq | None => false end then (out, last, bytes)
      else if match last with Some _ => (max <? length out + total)%nat | None => false end
      then (out, last, bytes)
      else if (length bytes <? total)%nat then (out, last, bytes)
      else batch fuel max stop (out ++ take total bytes) (Some seq) (drop total bytes)
    end
  end.

Lemma skip_loop_raw fuel file target sc :
  ahead file (skip_loop fuel file target sc) = skip fuel target (ahead file sc).
Proof.
  revert sc. induction fuel as [|fuel IH]; intros sc; [done|]. cbn [skip_loop skip].
  destruct (ensured_entry file sc) as [Ha He].
  set (sc1 := ensure_available file ENTRY_HEADER_SIZE sc) in *. rewrite <- He. unfold entry_at.
  destruct (at_end (window sc1)); [done|]. destruct (target <? _); [done|].
  set (total := header_total (window sc1)). destruct (ensured_extent file total sc1) as (Ha2 & Hl & Hx).
  rewrite Ha in Ha2, Hl, Hx. rewrite Hl. destruct (length (ahead file sc) <? total)%nat eqn:E; [done|].
  apply Nat.ltb_ge in E. rewrite IH. destruct (Hx E) as [_ ->]. done.
Qed.

Lemma batch_loop_raw fuel file max stop out last sc :
  let '(o, l, sc') := batch_loop fuel file max stop out last sc in
  batch fuel max stop out last (ahead file sc) = (o, l, ahead file sc').
Proof.
  revert out last sc. induction fuel as [|fuel IH]; intros out last sc; [done|]. cbn [batch_loop batch].
  destruct (ensured_entry file sc) as [Ha He].
  set (sc1 := ensure_available file ENTRY_HEADER_SIZE sc) in *. rewrite <- He. unfold entry_at.
  destruct (at_end (window sc1)); [by rewrite Ha|].
  destruct (match stop with Some s => _ | None => false end); [by rewrite Ha|].
  destruct (match last with Some _ => _ | None => false end); [by rewrite Ha|].
  set (total := header_total (window sc1)). destruct (ensured_extent file total sc1) as (Ha2 & Hl & Hx).
  rewrite Ha in Ha2, Hl, Hx. rewrite Hl.
  destruct (length (ahead file sc) <? total)%nat eqn:E; [by rewrite Ha2|].
  apply Nat.ltb_ge in E. destruct (Hx E) as [Ht Hd]. rewrite Ht, <- Hd. apply IH.
Qed.
End Raw.

(** ** In a segment the writer wrote *)
Module Written.
Import Scanner Raw Codec.Facts Journal.Segment Journal.Stream.

Section written.
Context {E : Type} `{AppEvent E}.
Context (crc32c : list Z -> Z) (blake3 : list Z -> list Z).
Hypothesis crc_range : forall bs, in_u32 (crc32c bs).
Context `{!AppEventLaws E}.
Hypothesis fits_one_entry : (entry_size (E:=E) <= MAX_ENTRY_SIZE)%nat.

Local Notation stream := (stream (E:=E) crc32c).
Local Notation frame := (frame (E:=E) crc32c).
Local Notation header := (header crc32c).

(** Behind the entries, nothing that looks like a whole one. *)
Definition quiet (tail : list Z) : Prop :=
  match entry_at tail with None => True | Some (_, total) => (length tail < total)%nat end.

Lemma quiet_zeros pad : quiet (replicate pad 0).
Proof using Type.
  clear crc_range fits_one_entry. unfold quiet, entry_at, at_end.
  destruct (Nat.ltb (length (replicate pad 0)) ENTRY_HEADER_SIZE) eqn:Hl; [done|]. unfold ENTRY_HEADER_SIZE in Hl.
  apply Nat.ltb_ge in Hl. rewrite length_replicate in Hl.
  destruct pad as [|[|pad]]; [lia|lia|]. reflexivity.
Qed.

Lemma frame_entry seq it rest :
  item_ok it -> in_u64 seq -> entry_at (frame seq it ++ rest) = Some (seq, length (frame seq it)).
Proof using fits_one_entry AppEventLaws0.
  destruct it as [[ts key] ev]. intros Hit Hseq.
  destruct (frame_encodes crc32c fits_one_entry seq _ ts key ev eq_refl Hit) as [He [Hlo _]].
  pose proof Hit as (Hts & Hkey & _).
  destruct (encode_frames _ _ _ _ _ _ _ He) as (tag & payload & _ & Hlen & Hfr). rewrite Hfr in *.
  destruct (entry_reads crc32c seq ts key tag payload rest Hseq Hts Hkey Hlen) as (F0 & F2 & F4 & _).
  unfold entry_at, at_end, header_sequence, header_total, ENTRY_HEADER_SIZE, CRC_SIZE.
  rewrite F2, F4, (proj2 (Nat.ltb_ge _ _)) by (rewrite length_app; lia). cbn [orb].
  assert (Hz : Reader.zero_magic (entry_bytes crc32c seq ts key tag payload ++ rest) = false) by reflexivity.
  rewrite Hz, entry_bytes_length. do 2 f_equal. lia.
Qed.

(** The frame of the first item, in front of the rest of the stream. *)
Ltac first_frame seq it :=
  cbn [Journal.Stream.stream]; rewrite <- app_assoc;
  rewrite (frame_entry seq it) by (done || (widths; lia)).

Lemma skip_stream fuel target seq items tail :
  Forall item_ok items -> 0 <= seq -> seq + Z.of_nat (length items) <= u64_max ->
  quiet tail -> (length items < fuel)%nat ->
  let k := Nat.min (length items) (Z.to_nat (target - seq + 1)) in
  skip fuel target (stream seq items ++ tail) = stream (seq + Z.of_nat k) (drop k items) ++ tail.
Proof using fits_one_entry AppEventLaws0.
  cbn zeta. revert fuel seq. induction items as [|it items IH]; intros fuel seq Hit Hs Hm Hq Hf.
  { cbn [Journal.Stream.stream length drop]. destruct fuel as [|fuel]; [lia|]. cbn [skip app].
    rewrite Nat.min_0_l, drop_nil. cbn [Journal.Stream.stream app].
    unfold quiet in Hq. destruct (entry_at tail) as [[s total]|]; [|done].
    destruct (target <? s); [done|]. by rewrite (proj2 (Nat.ltb_lt _ _)). }
  apply Forall_cons_1 in Hit as [Hit Hits]. cbn [length] in *. destruct fuel as [|fuel]; [lia|].
  cbn [skip]. first_frame seq it. destruct (target <? seq) eqn:Ets; zb.
  - replace (Z.to_nat (target - seq + 1)) with 0%nat by lia. rewrite Nat.min_0_r, Z.add_0_r, drop_0.
    cbn [Journal.Stream.stream]. by rewrite <- app_assoc.
  - rewrite (proj2 (Nat.ltb_ge _ _)) by (rewrite length_app; lia).
    rewrite drop_app_length, IH by (done || lia).
    replace (Nat.min (S (length items)) (Z.to_nat (target - seq + 1)))
      with (S (Nat.min (length items) (Z.to_nat (target - (seq + 1) + 1)))) by lia.
    cbn [drop]. do 2 f_equal. lia.
Qed.

(** How many items a bounded read may take. *)
Definition allowed (stop : option Z) (seq : Z) (items : list (item (E:=E))) : nat :=
  match stop with Some s => Nat.min (length items) (Z.to_nat (s - seq + 1)) | None => length items end.

Lemma batch_stream fuel max stop out last seq items tail :
  Forall item_ok items -> 0 <= seq -> seq + Z.of_nat (length items) <= u64_max ->
  quiet tail -> (length items < fuel)%nat ->
  exists k, (k <= allowed stop seq items)%nat /\
    batch fuel max stop out last (stream seq items ++ tail) =
      (out ++ stream seq (take k items),
       if (k =? 0)%nat then last else Some (seq + Z.of_nat k - 1),
       stream (seq + Z.of_nat k) (drop k items) ++ tail) /\
    (last = None -> (0 < allowed stop seq items)%nat -> (0 < k)%nat) /\
    (k = 0%nat \/ (last = None /\ k = 1%nat) \/
     (length (out ++ stream seq (take k items)) <= max)%nat).
Proof using fits_one_entry AppEventLaws0.
  revert fuel seq out last. induction items as [|it items IH]; intros fuel seq out last Hit Hs Hm Hq Hf.
  { exists 0%nat. cbn [Journal.Stream.stream length drop take allowed]. destruct fuel as [|fuel]; [lia|].
    cbn [batch app]. rewrite app_nil_r, Z.add_0_r. cbn [Journal.Stream.stream app Nat.eqb].
    assert (Hal : allowed stop seq [] = 0%nat) by (by destruct stop). rewrite Hal.
    split_and!; [lia| |lia|by left].
    unfold quiet in Hq. destruct (entry_at tail) as [[s total]|]; [|done].
    destruct (match stop with Some _ => _ | None => false end); [done|].
    destruct (match last with Some _ => _ | None => false end); [done|].
    by rewrite (proj2 (Nat.ltb_lt _ _)). }
  pose proof Hit as Hall. apply Forall_cons_1 in Hit as [Hit Hits]. destruct fuel as [|fuel]; [lia|].
  assert (Hstop : forall r, (match stop with Some s => s <? seq | None => false end) = true ->
            r = 0%nat -> (r <= allowed stop seq (it :: items))%nat /\ allowed stop seq (it :: items) = 0%nat).
  { intros r Hst ->. destruct stop as [s|]; [|done]. cbn [allowed]. zb. lia. }
  cbn [batch]. first_frame seq it.
  destruct (match stop with Some s => s <? seq | None => false end) eqn:Est.
  { destruct (Hstop 0%nat eq_refl eq_refl) as [_ Hz]. exists 0%nat. rewrite Hz.
    cbn [take Journal.Stream.stream]. rewrite app_nil_r, Z.add_0_r, drop_0. cbn [Nat.eqb Journal.Stream.stream].
    split_and!; [lia|by rewrite <- app_assoc|lia|by left]. }
  destruct (match last with Some _ => _ | None => false end) eqn:Emx.
  { exists 0%nat. cbn [take Journal.Stream.stream]. rewrite app_nil_r, Z.add_0_r, drop_0.
    cbn [Nat.eqb Journal.Stream.stream].
    split_and!; [lia|by rewrite <- app_assoc| |by left]. intros ->. done. }
  rewrite (proj2 (Nat.ltb_ge _ _)) by (rewrite length_app; lia).
  rewrite take_app_length, drop_app_length.
  destruct (IH fuel (seq + 1) (out ++ frame seq it) (Some seq) Hits) as (k & Hk & Hb & _ & Hmax);
    [lia|cbn [length] in Hm; lia|done|cbn [length] in Hf; lia|].
  exists (S k). rewrite Hb. cbn [take drop Journal.Stream.stream Nat.eqb].
  split_and!.
  - destruct stop as [s|]; cbn [allowed length] in *; zb; lia.
  - f_equal; [f_equal|].
    + by rewrite <- app_assoc.
    + destruct (k =? 0)%nat eqn:Ek; [apply Nat.eqb_eq in Ek as ->|]; f_equal; lia.
    + do 2 f_equal. lia.
  - lia.
  - destruct Hmax as [->|[[? _]|Hmax]]; [|done|].
    + cbn [take Journal.Stream.stream]. rewrite app_nil_r. destruct last as [l|]; [|right; by left].
      right; right. apply Nat.ltb_ge in Emx. rewrite length_app. done.
    + right; right. by rewrite <- app_assoc in Hmax.
Qed.
(** A turn of any of the readers, on a scanner in front of [items]. *)
Lemma batch_reads file max stop sc seq items tail :
  Forall item_ok items -> 0 <= seq -> seq + Z.of_nat (length items) <= u64_max ->
  quiet tail -> (length items <= length file)%nat -> ahead file sc = stream seq items ++ tail ->
  exists k sc', (k <= allowed stop seq items)%nat /\
    ((0 < allowed stop seq items)%nat -> (0 < k)%nat) /\
    read_raw_batch_inner file max stop sc =
      (stream seq (take k items), if (k =? 0)%nat then None else Some (seq + Z.of_nat k - 1), sc') /\
    ahead file sc' = stream (seq + Z.of_nat k) (drop k items) ++ tail /\
    ((k <= 1)%nat \/ (length (stream seq (take k items)) <= max)%nat).
Proof using fits_one_entry AppEventLaws0.
  intros Hit Hs Hm Hq Hf Ha.
  pose proof (batch_loop_raw (S (length file)) file max stop [] None sc) as Hraw.
  destruct (batch_stream (S (length file)) max stop [] None seq items tail Hit Hs Hm Hq ltac:(lia))
    as (k & Hk & Hb & Hpos & Hmax).
  unfold read_raw_batch_inner. destruct (batch_loop _ _ _ _ _ _ _) as [[o l] sc'].
  rewrite Ha, Hb in Hraw. injection Hraw as <- <- Hsc. exists k, sc'.
  split_and!; [done|auto|done|by rewrite Hsc|]. destruct Hmax as [->|[[_ ->]|Hmax]]; [left; lia|left; lia|by right].
Qed.

Definition reach (seq target : Z) (items : list (item (E:=E))) : nat := allowed (Some target) seq items.

(** What is left of the reach after a batch, and the pieces it is cut into. *)
Lemma reach_drop seq target items k :
  (k <= reach seq target items)%nat ->
  reach (seq + Z.of_nat k) target (drop k items) = (reach seq target items - k)%nat.
Proof using Type. clear. unfold reach, allowed. intros Hk. rewrite length_drop. lia. Qed.

Lemma stream_cut seq (items : list (item (E:=E))) k n :
  (k <= n)%nat -> (n <= length items)%nat ->
  stream seq (take n items) = stream seq (take k items) ++ stream (seq + Z.of_nat k) (take (n - k) (drop k items)).
Proof using fits_one_entry.
  intros Hk Hn.
  assert (Hcut : take n items = take k items ++ take (n - k) (drop k items))
    by (rewrite take_take_drop; f_equal; lia).
  rewrite Hcut, (stream_app crc32c), length_take. do 2 f_equal. lia.
Qed.

Lemma reach_le seq target items : (reach seq target items <= length items)%nat.
Proof using Type. clear. unfold reach, allowed. lia. Qed.

Ltac batch_turn Hit Hs Hm Hq Hf Ha k sc' Hk Hpos Hb Ha' :=
  match goal with |- context [read_raw_batch_until ?file ?max ?target ?sc] =>
    destruct (batch_reads file max (Some target) sc _ _ _ Hit Hs Hm Hq Hf Ha)
      as (k & sc' & Hk & Hpos & Hb & Ha' & _)
  end;
  unfold read_raw_batch_until; rewrite Hb.

(** The premises of the next turn. *)
Ltac next_turn := first [by apply Forall_drop | lia | rewrite length_drop; lia].

Lemma chain_loop_written fuel file target c sc seq items tail :
  Forall item_ok items -> 0 <= seq -> seq + Z.of_nat (length items) <= u64_max ->
  quiet tail -> (length items <= length file)%nat -> ahead file sc = stream seq items ++ tail ->
  (length items < fuel)%nat ->
  chain_loop blake3 fuel file target c sc =
    if (seq <=? target) && (target <? seq + Z.of_nat (length items))
    then Value (Chain.value blake3 (Chain.absorb c (stream seq (take (reach seq target items) items))))
    else BeyondTip.
Proof using fits_one_entry AppEventLaws0.
  revert seq items c sc. induction fuel as [|fuel IH]; intros seq items c sc Hit Hs Hm Hq Hf Ha Hfuel; [lia|].
  cbn [chain_loop]. batch_turn Hit Hs Hm Hq Hf Ha k sc' Hk Hpos Hb Ha'. fold (reach seq target items) in *.
  pose proof (reach_le seq target items) as Hr.
  destruct (k =? 0)%nat eqn:Hk0; [apply Nat.eqb_eq in Hk0|apply Nat.eqb_neq in Hk0].
  { destruct (_ && _) eqn:Hin; [|done]. zb. unfold reach, allowed in *. lia. }
  assert (Hge : seq <= target) by (unfold reach, allowed in Hk; lia).
  rewrite (proj2 (Z.leb_le _ _) Hge). cbn [andb].
  destruct (seq + Z.of_nat k - 1 =? target) eqn:He; zb.
  - rewrite (proj2 (Z.ltb_lt _ _)) by lia.
    by replace (reach seq target items) with k by (unfold reach, allowed in *; lia).
  - rewrite (IH (seq + Z.of_nat k) (drop k items)) by (done || next_turn).
    rewrite length_drop, (reach_drop seq target items k Hk).
    rewrite (proj2 (Z.leb_le _ _)) by (unfold reach, allowed in *; lia). cbn [andb].
    replace (seq + Z.of_nat k + Z.of_nat (length items - k)) with (seq + Z.of_nat (length items)) by lia.
    rewrite (stream_cut seq items k (reach seq target items)) by done.
    unfold Chain.absorb. cbn [Chain.anchor Chain.absorbed]. by rewrite <- app_assoc.
Qed.

Lemma prefix_loop_written fuel file target out sc seq items tail :
  Forall item_ok items -> 0 <= seq -> seq + Z.of_nat (length items) <= u64_max ->
  quiet tail -> (length items <= length file)%nat -> ahead file sc = stream seq items ++ tail ->
  (length items < fuel)%nat ->
  prefix_loop fuel file target out sc =
    if (seq <=? target) && (target <? seq + Z.of_nat (length items))
    then Some (out ++ stream seq (take (reach seq target items) items)) else None.
Proof using fits_one_entry AppEventLaws0.
  revert seq items out sc. induction fuel as [|fuel IH]; intros seq items out sc Hit Hs Hm Hq Hf Ha Hfuel; [lia|].
  cbn [prefix_loop]. batch_turn Hit Hs Hm Hq Hf Ha k sc' Hk Hpos Hb Ha'. fold (reach seq target items) in *.
  pose proof (reach_le seq target items) as Hr.
  destruct (k =? 0)%nat eqn:Hk0; [apply Nat.eqb_eq in Hk0|apply Nat.eqb_neq in Hk0].
  { destruct (_ && _) eqn:Hin; [|done]. zb. unfold reach, allowed in *. lia. }
  assert (Hge : seq <= target) by (unfold reach, allowed in Hk; lia).
  rewrite (proj2 (Z.leb_le _ _) Hge). cbn [andb].
  destruct (seq + Z.of_nat k - 1 =? target) eqn:He; zb.
  - rewrite (proj2 (Z.ltb_lt _ _)) by lia.
    by replace (reach seq target items) with k by (unfold reach, allowed in *; lia).
  - rewrite (IH (seq + Z.of_nat k) (drop k items)) by (done || next_turn).
    rewrite length_drop, (reach_drop seq target items k Hk).
    rewrite (proj2 (Z.leb_le _ _)) by (unfold reach, allowed in *; lia). cbn [andb].
    replace (seq + Z.of_nat k + Z.of_nat (length items - k)) with (seq + Z.of_nat (length items)) by lia.
    rewrite (stream_cut seq items k (reach seq target items)) by done. by rewrite <- app_assoc.
Qed.

Lemma verify_loop_written fuel file target last bytes sc seq items tail :
  Forall item_ok items -> 0 <= seq -> seq + Z.of_nat (length items) <= u64_max ->
  quiet tail -> (length items <= length file)%nat -> ahead file sc = stream seq items ++ tail ->
  (length items < fuel)%nat ->
  let n := reach seq target items in
  exists sc', verify_loop fuel file target last bytes sc =
      (if (n =? 0)%nat then last else seq + Z.of_nat n - 1,
       (bytes + length (stream seq (take n items)))%nat, sc') /\
    ahead file sc' = stream (seq + Z.of_nat n) (drop n items) ++ tail.
Proof using fits_one_entry AppEventLaws0.
  cbn zeta.
  revert seq items last bytes sc. induction fuel as [|fuel IH];
    intros seq items last bytes sc Hit Hs Hm Hq Hf Ha Hfuel; [lia|].
  cbn [verify_loop]. batch_turn Hit Hs Hm Hq Hf Ha k sc' Hk Hpos Hb Ha'. fold (reach seq target items) in *.
  pose proof (reach_le seq target items) as Hr.
  destruct (k =? 0)%nat eqn:Hk0; [apply Nat.eqb_eq in Hk0|apply Nat.eqb_neq in Hk0].
  - assert (Hn : reach seq target items = 0%nat) by lia. rewrite Hn. cbn [Nat.eqb take Journal.Stream.stream].
    rewrite Nat.add_0_r. exists sc'. split; [done|]. by rewrite Hk0 in Ha'.
  - destruct (IH (seq + Z.of_nat k) (drop k items) (seq + Z.of_nat k - 1)
                (bytes + length (stream seq (take k items)))%nat sc') as (sc'' & Hv & Ha''); [done || next_turn..|].
    rewrite (reach_drop seq target items k Hk) in *.
    exists sc''. rewrite Hv. split.
    + rewrite (stream_cut seq items k (reach seq target items)), length_app by done.
      f_equal; [f_equal; [|lia]]. rewrite (proj2 (Nat.eqb_neq (reach _ _ _) 0)) by lia.
      destruct (_ =? 0)%nat eqn:Hz; [apply Nat.eqb_eq in Hz|apply Nat.eqb_neq in Hz]; lia.
    + rewrite Ha'', drop_drop.
      replace (k + (reach seq target items - k))%nat with (reach seq target items) by lia.
      by replace (seq + Z.of_nat k + Z.of_nat (reach seq target items - k))
        with (seq + Z.of_nat (reach seq target items)) by lia.
Qed.
(** *** A whole segment *)
Definition segment (start : Z) (anchor : list Z) (g : option Z) (items : list (item (E:=E)))
    (tail : list Z) : list Z := header start anchor g ++ stream start items ++ tail.

Definition segment_ok (start : Z) (anchor : list Z) (g : option Z) (items : list (item (E:=E))) : Prop :=
  header_ok MAX_SECTOR_SIZE start anchor g /\ 1 <= start /\
  start + Z.of_nat (length items) <= u64_max /\ Forall item_ok items.

Lemma stream_long seq items :
  Forall item_ok items -> (33 * length items <= length (stream seq items))%nat.
Proof using fits_one_entry AppEventLaws0.
  revert seq. induction items as [|[[ts key] ev] items IH]; intros seq Hit; cbn [Journal.Stream.stream length]; [lia|].
  apply Forall_cons_1 in Hit as [Hit Hits]. rewrite length_app.
  destruct (frame_encodes crc32c fits_one_entry seq _ ts key ev eq_refl Hit) as [_ [Hlo _]].
  specialize (IH (seq + 1) Hits). lia.
Qed.

Lemma segment_opens start anchor g items tail script :
  segment_ok start anchor g items ->
  let file := segment start anchor g items tail in
  read_header_info crc32c file = Ok {| sector_size := MAX_SECTOR_SIZE; starting_sequence := start;
                                      anchor_hash := anchor; genesis_entries := g |} /\
  (exists sc, open crc32c file script = Ok sc /\ ahead file sc = stream start items ++ tail) /\
  (length items <= length file)%nat /\ take Encoder.ENTRY_OFFSET file = header start anchor g /\
  (Encoder.ENTRY_OFFSET <= length file)%nat.
Proof using fits_one_entry crc_range AppEventLaws0.
  intros (Hh & Hs & Hm & Hit) file. pose proof (header_length crc32c crc_range start anchor g Hh) as Hl.
  destruct (header_read crc32c crc_range start anchor g (stream start items ++ tail) [] Hh I)
    as (_ & _ & Htl & Hd).
  assert (Ht : take FILE_HEADER_SIZE file = take FILE_HEADER_SIZE (header start anchor g))
    by (apply take_app_le; rewrite Hl; unfold FILE_HEADER_SIZE, Encoder.ENTRY_OFFSET; lia).
  assert (Hfl : (Encoder.ENTRY_OFFSET <= length file)%nat)
    by (unfold file, segment; rewrite length_app, Hl; lia).
  assert (Hi : read_header_info crc32c file = Ok {| sector_size := MAX_SECTOR_SIZE;
             starting_sequence := start; anchor_hash := anchor; genesis_entries := g |}).
  { unfold read_header_info. rewrite (proj2 (Nat.ltb_ge _ _)), Ht; [exact Hd|].
    unfold FILE_HEADER_SIZE, Encoder.ENTRY_OFFSET in *. lia. }
  split_and!; [done| | | |done].
  - eexists. unfold open. rewrite Hi. cbn [rbind sector_size]. split; [done|].
    unfold ahead. cbn [window cursor app]. change MAX_SECTOR_SIZE with Encoder.ENTRY_OFFSET.
    rewrite <- Hl. apply drop_app_length.
  - unfold file, segment. rewrite !length_app. pose proof (stream_long start items Hit). lia.
  - rewrite <- Hl. apply take_app_length.
Qed.

(** Whether [seq] is the sequence of one of the items. *)
Definition covers (start : Z) (items : list (item (E:=E))) (seq : Z) : bool :=
  (start <=? seq) && (seq <? start + Z.of_nat (length items)).

(** The chain value of a segment at a sequence it covers is the value the writer
    had right after that entry. *)
Lemma chain_value_written start anchor g items tail seq script :
  segment_ok start anchor g items -> quiet tail ->
  chain_value_at crc32c blake3 (segment start anchor g items tail) seq script =
    Ok (if covers start items seq
        then Value (blake3 (stream start (take (reach start seq items) items) ++ anchor))
        else BeyondTip).
Proof using fits_one_entry crc_range AppEventLaws0.
  intros Hok Hq. destruct (segment_opens start anchor g items tail script Hok) as (Hi & (sc & Ho & Ha) & Hlen & _ & _).
  destruct Hok as (_ & Hs & Hm & Hit).
  unfold chain_value_at. rewrite Hi, Ho. cbn [rbind anchor_hash].
  by rewrite (chain_loop_written _ _ seq _ _ start items tail) by (done || lia).
Qed.

Lemma read_prefix_written start anchor g items tail through script :
  segment_ok start anchor g items -> quiet tail ->
  read_segment_prefix crc32c (segment start anchor g items tail) through script =
    Ok (if through =? start - 1 then Some (header start anchor g)
        else if covers start items through
        then Some (segment start anchor g (take (reach start through items) items) []) else None).
Proof using fits_one_entry crc_range AppEventLaws0.
  intros Hok Hq.
  destruct (segment_opens start anchor g items tail script Hok) as (Hi & (sc & Ho & Ha) & Hlen & Ht & Hfl).
  destruct Hok as (_ & Hs & Hm & Hit).
  unfold read_segment_prefix. rewrite Hi. cbn [rbind starting_sequence].
  rewrite (proj2 (Nat.ltb_ge _ _)), Ht by done. cbn [negb].
  replace (sat_sub start 1) with (start - 1) by (unfold sat_sub; lia).
  destruct (through =? start - 1); [done|]. rewrite Ho. cbn [rbind].
  rewrite (prefix_loop_written _ _ through _ _ start items tail) by (done || lia).
  unfold segment. by rewrite app_nil_r.
Qed.

(** What the check of a seed says of a segment. *)
Lemma verify_written start anchor g items tail through len script :
  segment_ok start anchor g items -> quiet tail ->
  let n := reach start through items in
  verify_segment_prefix crc32c (segment start anchor g items tail) through len script =
    if negb (start + Z.of_nat n - 1 =? through) then Err (inr WrongEnd)
    else if negb (Encoder.ENTRY_OFFSET + length (stream start (take n items)) =? len)%nat
    then Err (inr WrongLength)
    else if (n <? length items)%nat then Err (inr ExtraEntries) else Ok tt.
Proof using fits_one_entry crc_range AppEventLaws0.
  intros Hok Hq n.
  destruct (segment_opens start anchor g items tail script Hok) as (Hi & (sc & Ho & Ha) & Hlen & _ & _).
  destruct Hok as (_ & Hs & Hm & Hit).
  set (file := segment start anchor g items tail) in *.
  destruct (verify_loop_written (S (length file)) file through (start - 1) Encoder.ENTRY_OFFSET sc start items tail)
    as (sc' & Hv & Ha'); [done || lia..|]. fold n in Hv, Ha'.
  unfold verify_segment_prefix. rewrite Hi. cbn [rmap_err rbind]. rewrite Ho.
  cbn [rmap_err rbind starting_sequence].
  replace (sat_sub start 1) with (start - 1) by (unfold sat_sub; lia). rewrite Hv.
  replace (if (n =? 0)%nat then start - 1 else start + Z.of_nat n - 1) with (start + Z.of_nat n - 1)
    by (destruct (n =? 0)%nat eqn:Hz; [apply Nat.eqb_eq in Hz|]; lia).
  destruct (negb _); [done|]. destruct (negb _); [done|].
  pose proof (reach_le start through items) as Hn. fold n in Hn.
  destruct (batch_reads file 256 None sc' (start + Z.of_nat n) (drop n items) tail)
    as (k & sc'' & Hk & Hpos & Hb & _ & _); [done || next_turn..|].
  unfold read_raw_batch. rewrite Hb. cbn [allowed] in Hk, Hpos. rewrite length_drop in Hk, Hpos.
  destruct (n <? length items)%nat eqn:Hx; [apply Nat.ltb_lt in Hx|apply Nat.ltb_ge in Hx].
  - by rewrite (proj2 (Nat.eqb_neq k 0)) by lia.
  - by rewrite (proj2 (Nat.eqb_eq k 0)) by lia.
Qed.

(** An entry cut short is not an entry. *)
Lemma quiet_partial seq it m :
  item_ok it -> in_u64 seq -> (m < length (frame seq it))%nat -> quiet (take m (frame seq it)).
Proof using fits_one_entry AppEventLaws0.
  intros Hit Hseq Hm. unfold quiet.
  destruct (decide (m < ENTRY_HEADER_SIZE)%nat) as [Hlt|Hge].
  { unfold entry_at, at_end. by rewrite (proj2 (Nat.ltb_lt _ _)) by (rewrite length_take; lia). }
  assert (He : entry_at (take m (frame seq it)) = Some (seq, length (frame seq it))).
  { rewrite <- (entry_at_prefix _ (drop m (frame seq it))) by (left; rewrite length_take; lia).
    rewrite take_drop, <- (app_nil_r (frame seq it)) at 1. by apply frame_entry. }
  rewrite He, length_take. lia.
Qed.

(** Bytes of a stream cut anywhere: whole entries, then one cut short. *)
Lemma stream_truncated seq items m :
  Forall item_ok items -> 0 <= seq -> seq + Z.of_nat (length items) <= u64_max ->
  (m < length (stream seq items))%nat ->
  exists k tail, (k < length items)%nat /\ quiet tail /\ take m (stream seq items) = stream seq (take k items) ++ tail.
Proof using fits_one_entry AppEventLaws0.
  revert seq m. induction items as [|it items IH]; intros seq m Hit Hs Hm Hlt; cbn [Journal.Stream.stream length] in *; [lia|].
  apply Forall_cons_1 in Hit as [Hit Hits].
  destruct (decide (m < length (frame seq it))%nat) as [Hin|Hout].
  - exists 0%nat, (take m (frame seq it)). split; [lia|]. split; [by apply quiet_partial; [|widths; lia|]|].
    by rewrite take_app_le by lia.
  - rewrite length_app in Hlt.
    destruct (IH (seq + 1) (m - length (frame seq it))%nat Hits) as (k & tail & Hk & Hq & Ht); [lia..|].
    exists (S k), tail. split; [lia|]. split; [done|]. cbn [take Journal.Stream.stream].
    by rewrite take_app_ge, Ht, app_assoc by lia.
Qed.

(** The segment a snapshot-seeded replica is born with. For a segment the
    writer wrote and a sequence in it, the prefix the primary ships is the header
    and the entries up to that sequence, byte for byte, however the reads are
    split; the replica's check accepts it, and finds in it the very chain value
    the primary's file has there. Cut anywhere behind the header it is refused,
    and so is any longer prefix of the same segment. *)
Theorem seed_transfer start anchor g items tail through script :
  segment_ok start anchor g items -> quiet tail -> covers start items through = true ->
  let file := segment start anchor g items tail in
  let n := Z.to_nat (through - start + 1) in
  let seed := segment start anchor g (take n items) [] in
  read_segment_prefix crc32c file through script = Ok (Some seed) /\
  verify_segment_prefix crc32c seed through (length seed) script = Ok tt /\
  chain_value_at crc32c blake3 seed through script = chain_value_at crc32c blake3 file through script /\
  (forall m, (Encoder.ENTRY_OFFSET <= m < length seed)%nat ->
     verify_segment_prefix crc32c (take m seed) through (length seed) script = Err (inr WrongEnd)) /\
  (forall m len, (n < m <= length items)%nat ->
     exists e, verify_segment_prefix crc32c (segment start anchor g (take m items) []) through len script = Err e).
Proof using fits_one_entry crc_range AppEventLaws0.
  intros Hok Hq Hc file n seed. pose proof Hok as (Hh & Hs & Hm & Hit).
  assert (Hin : start <= through < start + Z.of_nat (length items)) by (unfold covers in Hc; zb; lia).
  assert (Hr : forall m, (n <= m <= length items)%nat -> reach start through (take m items) = n)
    by (intros m ?; unfold reach, allowed; rewrite length_take; lia).
  assert (Hn : reach start through items = n) by (unfold reach, allowed; lia).
  assert (Hqn : quiet []) by exact I.
  assert (Hokm : forall m, segment_ok start anchor g (take m items)).
  { intros m. split_and!; [done|done| |by apply Forall_take]. rewrite length_take. lia. }
  pose proof (header_length crc32c crc_range start anchor g Hh) as Hhl.
  assert (Hsl : length seed = (Encoder.ENTRY_OFFSET + length (stream start (take n items)))%nat)
    by (unfold seed, segment; rewrite app_nil_r, length_app, Hhl; done).
  assert (Hcn : covers start (take n items) through = true)
    by (unfold covers; rewrite length_take; apply andb_true_intro; split; zb; lia).
  split_and!.
  - unfold file. rewrite read_prefix_written by done.
    rewrite (proj2 (Z.eqb_neq _ _)), Hc, Hn by lia. done.
  - unfold seed at 1. rewrite verify_written, Hr, take_take, Nat.min_id, length_take by (done || lia).
    rewrite (proj2 (Z.eqb_eq _ _)) by lia. rewrite Hsl, Nat.eqb_refl. cbn [negb].
    by rewrite (proj2 (Nat.ltb_ge _ _)) by lia.
  - unfold seed, file. rewrite !chain_value_written by done. rewrite Hc, Hcn, Hn, Hr, take_take, Nat.min_id by lia. done.
  - intros m Hmr. assert (Hm' : (m - Encoder.ENTRY_OFFSET < length (stream start (take n items)))%nat) by lia.
    destruct (stream_truncated start (take n items) _ ltac:(by apply Forall_take) ltac:(lia)
                ltac:(rewrite length_take; lia) Hm') as (k & t & Hk & Hqt & Ht).
    rewrite length_take in Hk. rewrite take_take in Ht.
    assert (Hcut : take m seed = segment start anchor g (take (k `min` n) items) t).
    { unfold seed, segment. rewrite app_nil_r, take_app_ge, Hhl, Ht by lia. done. }
    rewrite Hcut, verify_written by done.
    rewrite (proj2 (Z.eqb_neq _ through)); [done|].
    unfold reach, allowed. rewrite length_take. lia.
  - intros m len Hmr. rewrite verify_written, Hr by (done || lia). rewrite length_take.
    destruct (negb _); [by eexists|]. destruct (negb _); [by eexists|].
    rewrite (proj2 (Nat.ltb_lt _ _)) by lia. by eexists.
Qed.
End written.
End Written.

Module Sample.
Import Scanner Raw Written Codec.Sample.

Definition digest (bs : list Z) : list Z := replicate 32 (foldr Z.lxor 0 bs).

Definition items : list (Journal.Stream.item (E:=bool)) :=
  [(1000, 42, App true); (1001, 0, Tick 5); (1002, 42, App false)].

Lemma seed_transfer_witness :
  let file := segment sum32 7 (replicate 32 9) None items (replicate 50 0) in
  let seed := segment sum32 7 (replicate 32 9) None (take 2 items) [] in
  read_segment_prefix sum32 file 8 [3%nat; 100%nat] = Ok (Some seed) /\
  verify_segment_prefix sum32 seed 8 (length seed) [3%nat; 100%nat] = Ok tt.
Proof.
  destruct (seed_transfer sum32 digest sum32_range Reader.Sample.sample_fits
    7 (replicate 32 9) None items (replicate 50 0) 8 [3%nat; 100%nat]) as (H1 & H2 & _).
  - split; [split; [by right|]; split; [widths; lia|]; done|].
    split; [lia|]. split; [vm_compute; discriminate|]. repeat constructor; widths; lia.
  - apply quiet_zeros.
  - reflexivity.
  - split; [exact H1|exact H2].
Defined.
End Sample.
