(* ===== verification/Rings.v ===== *)
(** * What the pipeline's rings share

    The lock-free buffers between the stages: the disruptor ring with one
    producer and dependency-gated consumers ([pipeline/src/ring.rs], modelled in
    [Disruptor]) and the single-producer single-consumer queue ([spsc.rs],
    modelled in [Spsc]). This file is the memory they run on and the argument
    both rest on.

    [Memory] is what the threads share and how they reach it: a method is a
    [prog], the tree of its accesses to the cursors and slots in program order,
    and [step] interleaves the threads one access at a time. A thread sees its
    own counter exactly; another's it may see late, at any value since the one
    it saw last. Slots are plain memory, so what has to be shown is that no slot
    is ever written while it may be read. [psafe] and [csafe] are what a producer
    and a consumer must keep to at each access; [Builder] is who waits for whom
    ([DisruptorBuilder]); [Adequacy] proves that threads which keep to their side
    never race, never get stuck and hand on exactly what was published. *)

From S2P Require Import Prelude.

Module Memory.

(** A method as its accesses in program order. [Deliver] and [Skip] are no
    accesses: they mark the point where a consumer's caller takes the next entry,
    or passes over entries. *)
Inductive prog (T A : Type) : Type :=
| Ret (a : A)
| LoadCursor (k : Z -> prog T A)
| LoadProcessed (i : nat) (k : Z -> prog T A)
| StoreCursor (v : Z) (k : prog T A)
| StoreProcessed (i : nat) (v : Z) (k : prog T A)
| ReadSlot (idx : nat) (k : T -> prog T A)
| WriteSlot (idx : nat) (f : T -> T) (k : prog T A)
| Deliver (v : T) (k : prog T A)
| Skip (n : nat) (k : prog T A).
Arguments Ret {T A} a.
Arguments LoadCursor {T A} k.
Arguments LoadProcessed {T A} i k.
Arguments StoreCursor {T A} v k.
Arguments StoreProcessed {T A} i v k.
Arguments ReadSlot {T A} idx k.
Arguments WriteSlot {T A} idx f k.
Arguments Deliver {T A} v k.
Arguments Skip {T A} n k.

Fixpoint bind {T A B} (p : prog T A) (g : A -> prog T B) : prog T B :=
  match p with
  | Ret a => g a
  | LoadCursor k => LoadCursor (fun v => bind (k v) g)
  | LoadProcessed i k => LoadProcessed i (fun v => bind (k v) g)
  | StoreCursor v k => StoreCursor v (bind k g)
  | StoreProcessed i v k => StoreProcessed i v (bind k g)
  | ReadSlot idx k => ReadSlot idx (fun v => bind (k v) g)
  | WriteSlot idx f k => WriteSlot idx f (bind k g)
  | Deliver v k => Deliver v (bind k g)
  | Skip n k => Skip n (bind k g)
  end.

(** The slot a sequence number lives in: [(sequence & self.mask) as usize], the
    mask being the capacity less one. *)
Definition slot_index (capacity seq : Z) : nat := Z.to_nat (Z.land seq (capacity - 1)).

(** A consumer's thread: its remaining accesses, the newest value it has seen of
    its dependency, and what its caller took, by sequence number ([None] where it
    passed over an entry). *)
Record cthread (T : Type) := Cthread {
  code : prog T unit; dseen : Z; log : list (option T) }.
Arguments Cthread {T} code dseen log.
Arguments code {T} _.
Arguments dseen {T} _.
Arguments log {T} _.

(** The shared state and the threads. [published] records the entries the cursor
    has passed: the slot contents at the moment of the store that passed them. *)
Record config (T : Type) := Config {
  cursor : Z; processed : list Z; slots : list T; published : list T;
  producer : prog T unit; pseen : list Z; consumers : list (cthread T) }.
Arguments Config {T} cursor processed slots published producer pseen consumers.
Arguments cursor {T} _.
Arguments processed {T} _.
Arguments slots {T} _.
Arguments published {T} _.
Arguments producer {T} _.
Arguments pseen {T} _.
Arguments consumers {T} _.

Section memory.
Context {T : Type} `{!Inhabited T}.
Variable capacity : Z.

Definition set_producer (p : prog T unit) (c : config T) : config T :=
  Config (cursor c) (processed c) (slots c) (published c) p (pseen c) (consumers c).
Definition set_consumer (j : nat) (t : cthread T) (c : config T) : config T :=
  Config (cursor c) (processed c) (slots c) (published c) (producer c) (pseen c)
    (<[j:=t]> (consumers c)).

(** What the slots hold for the [n] sequences from [from] on. *)
Definition slot_run (sl : list T) (from : Z) (n : nat) : list T :=
  (fun i => sl !!! slot_index capacity (from + Z.of_nat i)) <$> seq 0 n.

(** One access of one thread. A load of another thread's counter returns any
    value between the newest this thread has seen there and the current one: the
    coherence of one atomic location, without assuming that stores are seen at
    once. *)
Inductive step : config T -> config T -> Prop :=
| p_load_cursor c k :
    producer c = LoadCursor k -> step c (set_producer (k (cursor c)) c)
| p_load_processed c i k l p v :
    producer c = LoadProcessed i k -> pseen c !! i = Some l -> processed c !! i = Some p ->
    l <= v <= p ->
    step c (Config (cursor c) (processed c) (slots c) (published c) (k v)
              (<[i:=v]> (pseen c)) (consumers c))
| p_store_cursor c v k :
    producer c = StoreCursor v k -> v <= u64_max ->
    step c (Config v (processed c) (slots c)
              (published c ++ slot_run (slots c) (cursor c) (Z.to_nat (v - cursor c)))
              k (pseen c) (consumers c))
| p_write_slot c idx f k old :
    producer c = WriteSlot idx f k -> slots c !! idx = Some old ->
    step c (Config (cursor c) (processed c) (<[idx:=f old]> (slots c)) (published c)
              k (pseen c) (consumers c))
| c_load_cursor c j t k v :
    consumers c !! j = Some t -> code t = LoadCursor k -> dseen t <= v <= cursor c ->
    step c (set_consumer j (Cthread (k v) v (log t)) c)
| c_load_own c j t k p :
    consumers c !! j = Some t -> code t = LoadProcessed j k -> processed c !! j = Some p ->
    step c (set_consumer j (Cthread (k p) (dseen t) (log t)) c)
| c_load_processed c j t i k p v :
    consumers c !! j = Some t -> code t = LoadProcessed i k -> i <> j ->
    processed c !! i = Some p -> dseen t <= v <= p ->
    step c (set_consumer j (Cthread (k v) v (log t)) c)
| c_store_processed c j t v k p :
    consumers c !! j = Some t -> code t = StoreProcessed j v k -> processed c !! j = Some p ->
    step c (Config (cursor c) (<[j:=v]> (processed c)) (slots c) (published c) (producer c)
              (pseen c) (<[j:=Cthread k (dseen t) (log t)]> (consumers c)))
| c_read_slot c j t idx k v :
    consumers c !! j = Some t -> code t = ReadSlot idx k -> slots c !! idx = Some v ->
    step c (set_consumer j (Cthread (k v) (dseen t) (log t)) c)
| c_deliver c j t v k :
    consumers c !! j = Some t -> code t = Deliver v k ->
    step c (set_consumer j (Cthread k (dseen t) (log t ++ [Some v])) c)
| c_skip c j t n k :
    consumers c !! j = Some t -> code t = Skip n k ->
    step c (set_consumer j (Cthread k (dseen t) (log t ++ replicate n None)) c).

Definition reachable (c c' : config T) : Prop := rtc step c c'.

(** Two threads about to touch one slot, one of them writing. *)
Definition race (c : config T) : Prop :=
  exists idx f k j t k', producer c = WriteSlot idx f k /\
    consumers c !! j = Some t /\ code t = ReadSlot idx k'.

(** A thread has finished or can move: its next access is one its side of the
    ring has, at an index in bounds. A cursor store past [u64::MAX] is where the
    counters end. *)
Definition is_ret {A} (p : prog T A) : bool := match p with Ret _ => true | _ => false end.
Definition stores_past_max {A} (p : prog T A) : bool :=
  match p with StoreCursor v _ => u64_max <? v | _ => false end.

Definition producer_moves (c : config T) : Prop :=
  is_ret (producer c) = true \/ stores_past_max (producer c) = true \/
  exists c', step c c' /\ consumers c' = consumers c.
Definition consumer_moves (c : config T) (j : nat) : Prop :=
  exists t, consumers c !! j = Some t /\
    (is_ret (code t) = true \/
     exists c' t', step c c' /\ producer c' = producer c /\ consumers c' = <[j:=t']> (consumers c)).

(** ** What each side keeps to

    The producer's side. [h] is what it has published, [pend] what it has written
    beyond the cursor, [lb] the newest value it has seen of each consumer's
    progress. It may write the slot of a sequence just past what it wrote (or
    rewrite a pending one) once every gate is known to be less than a lap
    behind, and may move the cursor over what it wrote. *)
Section producer_side.
Context (gates : list nat) {A : Type} (Q : list T -> list T -> list Z -> A -> Prop).

Definition clear_of (lb : list Z) (seq : Z) : Prop :=
  forall g, g ∈ gates -> exists l, lb !! g = Some l /\ seq < l + capacity.

Fixpoint psafe (h pend : list T) (lb : list Z) (p : prog T A) : Prop :=
  match p with
  | Ret a => Q h pend lb a
  | LoadCursor k => psafe h pend lb (k (Z.of_nat (length h)))
  | LoadProcessed i k =>
      exists l, lb !! i = Some l /\
        forall v, l <= v <= Z.of_nat (length h) -> psafe h pend (<[i:=v]> lb) (k v)
  | StoreCursor v k =>
      exists n, (n <= length pend)%nat /\ v = Z.of_nat (length h + n) /\
        (v <= u64_max -> psafe (h ++ take n pend) (drop n pend) lb k)
  | WriteSlot idx f k =>
      exists n, (n <= length pend)%nat /\
        let seq := Z.of_nat (length h + n) in
        idx = slot_index capacity seq /\ clear_of lb seq /\
        forall old, psafe h (take n pend ++ [f old]) lb k
  | _ => False
  end.
End producer_side.

(** A consumer's side. [p] is its published progress, [d] the newest value it has
    seen of its dependency, [nd] how many entries its caller has taken, [seen]
    the entries it has read. It may read the slot of any sequence from its
    progress up to what it has seen of its dependency, and may publish progress
    up to there; it delivers what it has read, in sequence. Its dependency is
    never more than a lap past its progress. *)
Section consumer_side.
Context (self : nat) (dep : option nat) {A : Type}.
Context (Q : Z -> Z -> nat -> list (Z * T) -> A -> Prop).

Fixpoint csafe (p d : Z) (nd : nat) (seen : list (Z * T)) (c : prog T A) : Prop :=
  match c with
  | Ret a => Q p d nd seen a
  | LoadCursor k => dep = None /\ forall v, d <= v <= p + capacity -> csafe p v nd seen (k v)
  | LoadProcessed i k =>
      if decide (i = self) then csafe p d nd seen (k p)
      else dep = Some i /\ forall v, d <= v <= p + capacity -> csafe p v nd seen (k v)
  | StoreProcessed i v k => i = self /\ p <= v <= d /\ csafe v d nd seen k
  | ReadSlot idx k =>
      exists s, p <= s < d /\ idx = slot_index capacity s /\
        forall v, csafe p d nd ((s, v) :: seen) (k v)
  | Deliver v k => (Z.of_nat nd, v) ∈ seen /\ csafe p d (S nd) seen k
  | Skip n k => csafe p d (nd + n) seen k
  | _ => False
  end.
End consumer_side.

Lemma psafe_bind {A B} gates (g : A -> prog T B) Q h pend lb p :
  psafe gates (fun h' pend' lb' a => psafe gates Q h' pend' lb' (g a)) h pend lb p ->
  psafe gates Q h pend lb (bind p g).
Proof.
  revert h pend lb; induction p; intros h pend lb; cbn [psafe bind]; naive_solver.
Qed.

Lemma psafe_mono {A} gates (Q R : _ -> _ -> _ -> A -> Prop) h pend lb p :
  (forall h' pend' lb' a, Q h' pend' lb' a -> R h' pend' lb' a) ->
  psafe gates Q h pend lb p -> psafe gates R h pend lb p.
Proof.
  intros HQ; revert h pend lb; induction p; intros h pend lb; cbn [psafe]; naive_solver.
Qed.

Lemma csafe_bind {A B} self dep (g : A -> prog T B) Q p d nd seen c :
  csafe self dep (fun p' d' nd' seen' a => csafe self dep Q p' d' nd' seen' (g a)) p d nd seen c ->
  csafe self dep Q p d nd seen (bind c g).
Proof.
  revert p d nd seen; induction c; intros p d nd seen; cbn [csafe bind];
    try case_decide; naive_solver.
Qed.

Lemma csafe_mono {A} self dep (Q R : _ -> _ -> _ -> _ -> A -> Prop) p d nd seen c :
  (forall p' d' nd' seen' a, Q p' d' nd' seen' a -> R p' d' nd' seen' a) ->
  csafe self dep Q p d nd seen c -> csafe self dep R p d nd seen c.
Proof.
  intros HQ; revert p d nd seen; induction c; intros p d nd seen; cbn [csafe];
    try case_decide; naive_solver.
Qed.
End memory.
End Memory.

(** ** The builder's topology *)
Module Builder.
(** [DisruptorBuilder::consumers], each consumer by its dependency: [None] is the
    producer, [Some i] an earlier consumer. *)
Notation topology := (list (option nat)).

Definition add_consumer (cs : topology) : topology := cs ++ [None].

(** [None] is the assertion that the dependency index is in bounds. *)
Definition add_consumer_after (cs : topology) (dependency_index : nat) : option topology :=
  if decide (dependency_index < length cs)%nat then Some (cs ++ [Some dependency_index]) else None.

Definition depended_on (cs : topology) : list nat := omap id cs.
Definition collect_gates (cs : topology) : list nat :=
  filter (fun i => i ∉ depended_on cs) (seq 0 (length cs)).

(** What the builder can have built: every dependency is on an earlier consumer. *)
Definition wf (cs : topology) : Prop := forall j i, cs !! j = Some (Some i) -> (i < j)%nat.

Lemma wf_nil : wf [].
Proof. intros j i Hj. by rewrite lookup_nil in Hj. Qed.

Lemma wf_snoc cs o : wf cs -> (forall i, o = Some i -> (i < length cs)%nat) -> wf (cs ++ [o]).
Proof.
  intros Hwf Ho j i [Hj|[Hle Hj]]%lookup_app_Some; [by apply Hwf|].
  destruct (j - length cs)%nat eqn:E; cbn in Hj; [|by destruct n].
  simplify_eq. specialize (Ho i eq_refl). lia.
Qed.

Lemma add_consumer_wf cs : wf cs -> wf (add_consumer cs).
Proof. intros. by apply wf_snoc. Qed.

Lemma add_consumer_after_wf cs i cs' : wf cs -> add_consumer_after cs i = Some cs' -> wf cs'.
Proof. unfold add_consumer_after. intros ? ?; case_decide; simplify_eq. apply wf_snoc; naive_solver. Qed.

(** The topologies a chain of builder calls can produce. *)
Inductive built : topology -> Prop :=
| built_new : built []
| built_add cs : built cs -> built (add_consumer cs)
| built_after cs i cs' : built cs -> add_consumer_after cs i = Some cs' -> built cs'.

Lemma built_wf cs : built cs -> wf cs.
Proof.
  induction 1; [apply wf_nil|by apply add_consumer_wf|by eapply add_consumer_after_wf].
Qed.

(** Progress respects the dependencies: no consumer is ahead of the one it
    follows. *)
Definition ordered (cs : topology) (processed : list Z) : Prop :=
  forall j i p q, cs !! j = Some (Some i) -> processed !! j = Some p -> processed !! i = Some q ->
    p <= q.

(** The gates are the slowest: some gate is no further than any given consumer. *)
Lemma gates_slowest cs processed j p :
  wf cs -> length processed = length cs -> ordered cs processed -> processed !! j = Some p ->
  exists g q, g ∈ collect_gates cs /\ processed !! g = Some q /\ q <= p.
Proof.
  intros Hwf Hlen Hord Hj.
  remember (length cs - j)%nat as m eqn:Hm. revert j p Hm Hj.
  induction m as [m IH] using lt_wf_ind. intros j p Hm Hj.
  pose proof (lookup_lt_Some _ _ _ Hj).
  destruct (decide (j ∈ depended_on cs)) as [Hin|Hnin].
  - apply list_elem_of_omap in Hin as (o&Hin&Ho). cbv [id] in Ho; subst o.
    apply list_elem_of_lookup in Hin as (k&Hk). pose proof (Hwf _ _ Hk).
    pose proof (lookup_lt_Some _ _ _ Hk).
    destruct (lookup_lt_is_Some_2 processed k) as [r Hr]; [lia|].
    destruct (IH (length cs - k)%nat ltac:(lia) k r eq_refl Hr) as (g&q&?&?&?).
    exists g, q. specialize (Hord _ _ _ _ Hk Hr Hj). split_and!; [done..|lia].
  - exists j, p. split_and!; [|done|lia]. apply list_elem_of_filter. split; [done|].
    apply elem_of_seq. lia.
Qed.

Lemma gates_some cs : wf cs -> cs <> [] -> collect_gates cs <> [].
Proof.
  intros Hwf Hcs Hg. destruct cs as [|d rest] eqn:E; [done|]. rewrite <- E in *.
  destruct (gates_slowest cs (replicate (length cs) 0) 0 0) as (g&q&Hin&_);
    [done|by rewrite length_replicate| |by rewrite E|].
  - intros j i p q _ [-> _]%lookup_replicate [-> _]%lookup_replicate. lia.
  - rewrite Hg in Hin. by apply elem_of_nil in Hin.
Qed.

Lemma gates_nodup cs : NoDup (collect_gates cs).
Proof. apply NoDup_filter, NoDup_seq. Qed.

Lemma gates_in_bounds cs g : g ∈ collect_gates cs -> (g < length cs)%nat.
Proof. intros [_ Hg]%list_elem_of_filter. apply elem_of_seq in Hg. lia. Qed.
End Builder.

(** ** Threads that keep to their side never race *)
Module Adequacy.
Import Memory Builder.

Section adequacy.
Context {T : Type} `{!Inhabited T}.
Variables (capacity : Z) (cs : topology).
Hypothesis capacity_pow2 : exists k, 1 <= k /\ capacity = 2 ^ k.
Hypothesis cs_wf : wf cs.
Hypothesis cs_some : cs <> [].
(** What the producer's program promises of the history when it ends. *)
Variable Qp : list T -> list T -> list Z -> unit -> Prop.

Local Notation gates := (collect_gates cs).
Local Notation idx_of := (slot_index capacity).

Lemma capacity_pos : 2 <= capacity.
Proof. destruct capacity_pow2 as (k&?&->). change 2 with (2 ^ 1) at 1. apply Z.pow_le_mono_r; lia. Qed.

Lemma slot_index_mod s : slot_index capacity s = Z.to_nat (s mod capacity).
Proof.
  destruct capacity_pow2 as (k&?&Hk). unfold slot_index. f_equal. rewrite Hk.
  replace (2 ^ k - 1) with (Z.ones k) by (rewrite Z.ones_equiv; lia).
  apply Z.land_ones. lia.
Qed.

Lemma slot_index_lt s : (slot_index capacity s < Z.to_nat capacity)%nat.
Proof. rewrite slot_index_mod. pose proof capacity_pos. pose proof (Z.mod_pos_bound s capacity). lia. Qed.

(** Less than a lap apart, two sequences have two slots. *)
Lemma slot_index_ne a b : a < b < a + capacity -> slot_index capacity a <> slot_index capacity b.
Proof.
  intros ? Heq. rewrite !slot_index_mod in Heq. pose proof capacity_pos.
  pose proof (Z.mod_pos_bound a capacity). pose proof (Z.mod_pos_bound b capacity).
  assert (a mod capacity = b mod capacity) as Hm by lia.
  pose proof (Z.div_mod a capacity ltac:(lia)). pose proof (Z.div_mod b capacity ltac:(lia)).
  assert (b - a = capacity * (b / capacity - a / capacity)) by lia.
  destruct (decide (b / capacity - a / capacity <= 0)); nia.
Qed.

(** What a dependency stands at. *)
Definition dep_now (c : config T) (dep : option nat) : option Z :=
  match dep with None => Some (cursor c) | Some i => processed c !! i end.

Definition right_entry (h : list T) (e : Z * T) : Prop :=
  0 <= e.1 /\ h !! Z.to_nat e.1 = Some e.2.

Definition log_right (h : list T) (l : list (option T)) : Prop :=
  forall s v, l !! s = Some (Some v) -> h !! s = Some v.

(** One consumer in a configuration: progress, what it has seen, and its
    dependency are in order, and what remains of its code keeps to its side. *)
Definition consumer_ok (c : config T) (j : nat) : Prop :=
  forall t p dep, consumers c !! j = Some t -> processed c !! j = Some p -> cs !! j = Some dep ->
    0 <= p <= dseen t /\ (exists now, dep_now c dep = Some now /\ dseen t <= now) /\
    log_right (published c) (log t) /\
    exists seen, Forall (right_entry (published c)) seen /\
      csafe capacity j dep (fun _ _ _ _ _ => True) p (dseen t) (length (log t)) seen (code t).

(** The slots: published entries no consumer is past and pending ones are where
    their sequence says, and together they span at most one lap. *)
Definition slots_ok (c : config T) (pend : list T) : Prop :=
  forall j p, processed c !! j = Some p ->
    Z.of_nat (length (published c) + length pend) <= p + capacity /\
    (forall s, p <= s < Z.of_nat (length (published c)) ->
       slots c !! idx_of s = published c !! Z.to_nat s).

Record inv (c : config T) (pend : list T) : Prop := Inv {
  inv_cursor : cursor c = Z.of_nat (length (published c));
  inv_max : cursor c <= u64_max;
  inv_processed : length (processed c) = length cs;
  inv_pseen : length (pseen c) = length cs;
  inv_consumers : length (consumers c) = length cs;
  inv_slots_len : length (slots c) = Z.to_nat capacity;
  inv_seen : forall i l p, pseen c !! i = Some l -> processed c !! i = Some p -> l <= p;
  inv_psafe : psafe capacity gates Qp (published c) pend (pseen c) (producer c);
  inv_consumer : forall j, consumer_ok c j;
  inv_slots : slots_ok c pend;
  inv_pend : forall i v, pend !! i = Some v ->
    slots c !! idx_of (Z.of_nat (length (published c) + i)) = Some v }.

Lemma all_present c pend j :
  inv c pend -> (j < length cs)%nat ->
  exists t p dep, consumers c !! j = Some t /\ processed c !! j = Some p /\ cs !! j = Some dep.
Proof.
  intros HI Hj.
  destruct (lookup_lt_is_Some_2 (consumers c) j) as [t ?]; [by rewrite (inv_consumers _ _ HI)|].
  destruct (lookup_lt_is_Some_2 (processed c) j) as [p ?]; [by rewrite (inv_processed _ _ HI)|].
  destruct (lookup_lt_is_Some_2 cs j) as [dep ?]; [done|]. eauto 10.
Qed.

Lemma inv_ordered c pend : inv c pend -> ordered cs (processed c).
Proof.
  intros HI j i p q Hdep Hp Hq.
  destruct (all_present _ _ j HI) as (t&p'&dep&Ht&Hp'&Hdep'); [by eapply lookup_lt_Some|].
  simplify_eq. destruct (inv_consumer _ _ HI j t p (Some i)) as (?&(now&Hnow&?)&_); [done..|].
  cbn in Hnow. simplify_eq. lia.
Qed.

(** No consumer is ahead of the producer. *)
Lemma progress_le_cursor c pend j p : inv c pend -> processed c !! j = Some p -> 0 <= p <= cursor c.
Proof.
  intros HI. revert p. induction j as [j IH] using lt_wf_ind. intros p Hp.
  destruct (all_present _ _ j HI) as (t&p'&dep&Ht&Hp'&Hdep).
  { rewrite <- (inv_processed _ _ HI). by eapply lookup_lt_Some. }
  simplify_eq. destruct (inv_consumer _ _ HI j t p dep) as (?&(now&Hnow&?)&_); [done..|].
  destruct dep as [i|]; cbn in Hnow; simplify_eq; [|lia].
  pose proof (IH i (cs_wf _ _ Hdep) now Hnow). lia.
Qed.

Lemma dep_le_cursor c pend j dep now :
  inv c pend -> cs !! j = Some dep -> dep_now c dep = Some now -> now <= cursor c.
Proof.
  intros HI Hd Hn. destruct dep as [i|]; cbn in Hn; [|by simplify_eq].
  by destruct (progress_le_cursor _ _ _ _ HI Hn).
Qed.

Lemma dep_in_lap c pend j dep now p :
  inv c pend -> cs !! j = Some dep -> dep_now c dep = Some now -> processed c !! j = Some p ->
  now <= p + capacity.
Proof.
  intros HI Hd Hn Hp. pose proof (dep_le_cursor _ _ _ _ _ HI Hd Hn).
  destruct (inv_slots _ _ HI j p Hp). pose proof (inv_cursor _ _ HI). lia.
Qed.

(** A sequence the producer may write is less than a lap past every consumer. *)
Lemma clear_of_all c pend seq j p :
  inv c pend -> clear_of capacity gates (pseen c) seq -> processed c !! j = Some p -> seq < p + capacity.
Proof.
  intros HI Hclear Hp.
  destruct (gates_slowest cs (processed c) j p) as (g&q&Hg&Hq&?);
    [done|apply (inv_processed _ _ HI)|by eapply inv_ordered|done|].
  destruct (Hclear g Hg) as (l&Hl&?). pose proof (inv_seen _ _ HI g l q Hl Hq). lia.
Qed.

Lemma right_entry_app h k e : right_entry h e -> right_entry (h ++ k) e.
Proof. intros [? He]. split; [done|]. by apply lookup_app_l_Some. Qed.

(** A consumer's own move that leaves the shared state alone. *)
Lemma inv_set_consumer c pend j t t' :
  inv c pend -> consumers c !! j = Some t ->
  (forall p dep, processed c !! j = Some p -> cs !! j = Some dep -> forall now,
     dep_now c dep = Some now -> 0 <= p <= dseen t -> dseen t <= now ->
     log_right (published c) (log t) -> forall seen, Forall (right_entry (published c)) seen ->
     csafe capacity j dep (fun _ _ _ _ _ => True) p (dseen t) (length (log t)) seen (code t) ->
     dseen t <= dseen t' <= now /\ log_right (published c) (log t') /\
     exists seen', Forall (right_entry (published c)) seen' /\
       csafe capacity j dep (fun _ _ _ _ _ => True) p (dseen t') (length (log t')) seen' (code t')) ->
  inv (set_consumer j t' c) pend.
Proof.
  intros [] Ht Hstep. constructor; cbn; try done.
  - by rewrite length_insert.
  - intros k t0 p dep Ht0 Hp Hdep. cbn in Ht0, Hp.
    destruct (decide (k = j)) as [->|Hne].
    + rewrite list_lookup_insert_eq in Ht0 by (by eapply lookup_lt_Some). injection Ht0 as <-.
      destruct (inv_consumer0 j t p dep Ht Hp Hdep) as (Hpd&(now&Hnow&Hle)&Hlog&seen&Hseen&Hsafe).
      destruct (Hstep p dep Hp Hdep now Hnow Hpd Hle Hlog seen Hseen Hsafe)
        as (?&?&?).
      split_and!; [lia|lia| |done|done]. exists now. split; [by destruct dep|lia].
    + rewrite list_lookup_insert_ne in Ht0 by done.
      by apply (inv_consumer0 k t0 p dep).
Qed.

(** The consumer keeping its progress publishes a later one. *)
Lemma inv_store_processed c pend j t v k p :
  inv c pend -> consumers c !! j = Some t -> code t = StoreProcessed j v k ->
  processed c !! j = Some p ->
  inv (Config (cursor c) (<[j:=v]> (processed c)) (slots c) (published c) (producer c)
         (pseen c) (<[j:=Cthread k (dseen t) (log t)]> (consumers c))) pend.
Proof.
  intros HI Ht Hcode Hp.
  destruct (all_present _ _ j HI) as (t'&p'&dep&Ht'&Hp'&Hdep).
  { rewrite <- (inv_consumers _ _ HI). by eapply lookup_lt_Some. }
  simplify_eq. destruct HI.
  destruct (inv_consumer0 j t p dep Ht Hp Hdep) as (Hpd&(now&Hnow&Hle)&Hlog&seen&Hseen&Hsafe).
  rewrite Hcode in Hsafe. cbn [csafe] in Hsafe. destruct Hsafe as (_&Hv&Hsafe).
  assert (Hup : forall i q', (<[j:=v]> (processed c)) !! i = Some q' ->
            exists q, processed c !! i = Some q /\ q <= q').
  { intros i q' Hi. destruct (decide (i = j)) as [->|].
    - rewrite list_lookup_insert_eq in Hi by (by eapply lookup_lt_Some).
      simplify_eq. exists p. split; [done|lia].
    - rewrite list_lookup_insert_ne in Hi by done. eauto with lia. }
  constructor; cbn; rewrite ?length_insert; try done.
  - intros i l q' Hl Hq'. destruct (Hup _ _ Hq') as (q&Hq&?). specialize (inv_seen0 _ _ _ Hl Hq). lia.
  - intros i t0 q' dep' Ht0 Hq' Hdep'. cbn in Ht0, Hq'. cbn [published].
    assert (Hnow' : forall d0 x, dep_now c d0 = Some x -> exists y,
              dep_now (Config (cursor c) (<[j:=v]> (processed c)) (slots c) (published c)
                (producer c) (pseen c) (<[j:=Cthread k (dseen t) (log t)]> (consumers c))) d0 = Some y
              /\ x <= y).
    { intros [i0|] x Hx; cbn in Hx |- *; [|naive_solver lia].
      destruct (decide (i0 = j)) as [->|].
      - rewrite list_lookup_insert_eq by (by eapply lookup_lt_Some). simplify_eq. exists v. split; [done|lia].
      - rewrite list_lookup_insert_ne by done. eauto with lia. }
    destruct (decide (i = j)) as [->|Hne].
    + rewrite list_lookup_insert_eq in Ht0 by (by eapply lookup_lt_Some).
      rewrite list_lookup_insert_eq in Hq' by (by eapply lookup_lt_Some). simplify_eq. cbn.
      destruct (Hnow' _ _ Hnow) as (y&Hy&?).
      split_and!; [lia|lia| |done|eauto]. exists y. split; [done|lia].
    + rewrite list_lookup_insert_ne in Ht0 by done. rewrite list_lookup_insert_ne in Hq' by done.
      destruct (inv_consumer0 i t0 q' dep' Ht0 Hq' Hdep') as (?&(x&Hx&?)&?&?).
      destruct (Hnow' _ _ Hx) as (y&Hy&?).
      split_and!; [lia|lia| |done|done]. exists y. split; [done|lia].
  - intros i q' Hq'. cbn in Hq' |- *. destruct (Hup _ _ Hq') as (q&Hq&?).
    destruct (inv_slots0 i q Hq) as [? Hs]. split; [lia|]. intros s ?. apply Hs. lia.
Qed.

(** Moving the cursor publishes the pending entries it passes. *)
Lemma slot_run_pend c pend n :
  inv c pend -> (n <= length pend)%nat ->
  slot_run capacity (slots c) (cursor c) n = take n pend.
Proof.
  intros HI Hn. unfold slot_run. apply list_eq_same_length with n;
    [rewrite length_take; lia|by rewrite length_fmap, length_seq|].
  intros i x y Hi Hx Hy.
  apply list_lookup_fmap_Some in Hx as (i'&->&[Hx _]%lookup_seq). cbn in Hx; subst i'.
  apply lookup_take_Some in Hy as [Hy _].
  pose proof (inv_pend _ _ HI i y Hy) as Hs.
  rewrite (inv_cursor _ _ HI), <- Nat2Z.inj_add. by apply list_lookup_total_correct.
Qed.

Lemma inv_store_cursor c pend v k :
  inv c pend -> producer c = StoreCursor v k -> v <= u64_max ->
  exists pend', inv (Config v (processed c) (slots c)
    (published c ++ slot_run capacity (slots c) (cursor c) (Z.to_nat (v - cursor c)))
    k (pseen c) (consumers c)) pend'.
Proof.
  intros HI Hp Hv. pose proof (inv_psafe _ _ HI) as Hsafe. rewrite Hp in Hsafe. cbn [psafe] in Hsafe.
  destruct Hsafe as (n&Hn&Hvn&Hsafe). pose proof (inv_cursor _ _ HI) as Hcur.
  replace (Z.to_nat (v - cursor c)) with n by lia. rewrite (slot_run_pend c pend) by done.
  exists (drop n pend).
  assert (Hl : length (published c ++ take n pend) = (length (published c) + n)%nat)
    by (rewrite length_app, length_take; lia).
  assert (Hpc : forall j p, processed c !! j = Some p -> 0 <= p <= cursor c)
    by (intros; by eapply progress_le_cursor).
  destruct HI. constructor; cbn [cursor processed slots published producer pseen consumers]; rewrite ?Hl; try done; [by apply Hsafe|..].
  - intros j t p dep Ht Hpr Hdep. cbn in Ht, Hpr.
    destruct (inv_consumer0 j t p dep Ht Hpr Hdep) as (?&(now&Hnow&?)&Hlog&seen&Hseen&?).
    cbn [published]. split_and!; [lia|lia| | |].
    + destruct dep as [i|]; cbn in Hnow |- *; [by eauto|]. eexists; split; [done|]. simplify_eq. lia.
    + intros s x Hs. apply lookup_app_l_Some. by apply Hlog.
    + exists seen. split; [|done]. eapply Forall_impl; [done|]. intros. by apply right_entry_app.
  - intros j p Hpr. cbn [processed published slots] in Hpr |- *. rewrite Hl, length_drop.
    destruct (inv_slots0 j p Hpr) as [? Hs]. specialize (Hpc j p Hpr). split; [lia|]. intros s Hs'.
    destruct (decide (s < Z.of_nat (length (published c)))) as [|Hge].
    + rewrite Hs by lia. symmetry. apply lookup_app_l. lia.
    + rewrite lookup_app_r by lia.
      rewrite lookup_take_lt by lia.
      destruct (lookup_lt_is_Some_2 pend (Z.to_nat s - length (published c))) as [x Hx]; [lia|].
      rewrite Hx, <- (inv_pend0 _ _ Hx). do 2 f_equal. lia.
  - intros i x Hx. rewrite lookup_drop in Hx. rewrite <- (inv_pend0 _ _ Hx). do 2 f_equal. lia.
Qed.

(** A write past the published entries leaves every readable slot alone. *)
Lemma inv_write_slot c pend idx f k old :
  inv c pend -> producer c = WriteSlot idx f k -> slots c !! idx = Some old ->
  exists pend', inv (Config (cursor c) (processed c) (<[idx:=f old]> (slots c)) (published c)
    k (pseen c) (consumers c)) pend'.
Proof.
  intros HI Hp Hold. pose proof (inv_psafe _ _ HI) as Hsafe. rewrite Hp in Hsafe. cbn [psafe] in Hsafe.
  destruct Hsafe as (n&Hn&Hidx&Hclear&Hsafe). pose proof (inv_cursor _ _ HI) as Hcur.
  exists (take n pend ++ [f old]).
  assert (Hl : length (take n pend ++ [f old]) = S n)
    by (rewrite length_app, length_take; cbn; lia).
  assert (Hclr : forall j p, processed c !! j = Some p ->
            Z.of_nat (length (published c) + n) < p + capacity)
    by (intros; by eapply clear_of_all).
  assert (Hsome : exists p0, processed c !! 0%nat = Some p0).
  { apply lookup_lt_is_Some_2. rewrite (inv_processed _ _ HI). destruct cs; [done|cbn; lia]. }
  destruct Hsome as [p0 Hp0]. pose proof (Hclr 0%nat p0 Hp0).
  pose proof (progress_le_cursor _ _ _ _ HI Hp0).
  destruct HI. subst idx.
  constructor; cbn [cursor processed slots published producer pseen consumers]; rewrite ?length_insert; try done.
  - intros j p Hpr. cbn [processed published slots] in Hpr |- *. destruct (inv_slots0 j p Hpr) as [? Hs].
    specialize (Hclr j p Hpr). rewrite Hl. split; [lia|]. intros s Hs'.
    rewrite list_lookup_insert_ne by (symmetry; apply slot_index_ne; lia). apply Hs. lia.
  - intros i x [Hx|[Hle Hx]]%lookup_app_Some.
    + apply lookup_take_Some in Hx as [Hx Hi].
      rewrite list_lookup_insert_ne by (symmetry; apply slot_index_ne; lia). by apply inv_pend0.
    + rewrite length_take in Hle, Hx. destruct (i - _)%nat as [|m] eqn:E; cbn in Hx; [|by destruct m].
      simplify_eq. replace i with n by lia.
      apply list_lookup_insert_eq. rewrite inv_slots_len0. apply slot_index_lt.
Qed.

Lemma ring_inv_step c pend c' : inv c pend -> step capacity c c' -> exists pend', inv c' pend'.
Proof.
  intros HI Hstep. destruct Hstep as
    [c k Hp|c i k l p v Hp Hl Hpr Hv|c v k Hp Hv|c idx f k old Hp Hold|c j t k v Ht Hk Hv
    |c j t k p Ht Hk Hpr|c j t i k p v Ht Hk Hne Hpr Hv|c j t v k p Ht Hk Hpr
    |c j t idx k v Ht Hk Hs|c j t v k Ht Hk|c j t n k Ht Hk].
  - exists pend. pose proof (inv_psafe _ _ HI) as Hs. rewrite Hp in Hs. cbn [psafe] in Hs.
    destruct HI. constructor; cbn; try done. by rewrite inv_cursor0.
  - exists pend. pose proof (inv_psafe _ _ HI) as Hs. rewrite Hp in Hs. cbn [psafe] in Hs.
    destruct Hs as (l'&Hl'&Hs). simplify_eq. pose proof (progress_le_cursor _ _ _ _ HI Hpr).
    destruct HI. constructor; cbn; rewrite ?length_insert; try done; [|apply Hs; lia].
    intros i' l' p' Hl' Hp'. destruct (decide (i' = i)) as [->|].
    + rewrite list_lookup_insert_eq in Hl' by (by eapply lookup_lt_Some). simplify_eq. lia.
    + rewrite list_lookup_insert_ne in Hl' by done. eauto.
  - by eapply inv_store_cursor.
  - by eapply inv_write_slot.
  - exists pend. pose proof HI as HI'. eapply inv_set_consumer; [done..|].
    intros p dep Hpr Hdep now Hnow Hpd Hle Hlog seen Hseen Hsafe. rewrite Hk in Hsafe.
    pose proof (dep_in_lap _ _ _ _ _ _ HI' Hdep Hnow Hpr).
    cbn [csafe] in Hsafe. destruct Hsafe as [-> Hsafe]. cbn in Hnow |- *. simplify_eq.
    split_and!; [lia|lia|done|]. exists seen. split; [done|]. apply Hsafe. lia.
  - exists pend. eapply inv_set_consumer; [done..|].
    intros p' dep Hpr' Hdep now Hnow Hpd Hle Hlog seen Hseen Hsafe. rewrite Hk in Hsafe.
    cbn [csafe] in Hsafe. case_decide; [|done]. simplify_eq. cbn. split_and!; [lia|lia|done|eauto].
  - exists pend. pose proof HI as HI'. eapply inv_set_consumer; [done..|].
    intros p' dep Hpr' Hdep now Hnow Hpd Hle Hlog seen Hseen Hsafe. rewrite Hk in Hsafe.
    pose proof (dep_in_lap _ _ _ _ _ _ HI' Hdep Hnow Hpr').
    cbn [csafe] in Hsafe. case_decide; [done|]. destruct Hsafe as [-> Hsafe]. cbn in Hnow |- *. simplify_eq.
    split_and!; [lia|lia|done|]. exists seen. split; [done|]. apply Hsafe. lia.
  - exists pend. by eapply inv_store_processed.
  - exists pend. pose proof HI as HI'. eapply inv_set_consumer; [done..|].
    intros p dep Hpr Hdep now Hnow Hpd Hle Hlog seen Hseen Hsafe. rewrite Hk in Hsafe.
    cbn [csafe] in Hsafe. destruct Hsafe as (s&Hs'&->&Hsafe). cbn.
    pose proof (dep_le_cursor _ _ _ _ _ HI' Hdep Hnow). pose proof (inv_cursor _ _ HI').
    split_and!; [lia|lia|done|]. exists ((s, v) :: seen). split; [|apply Hsafe].
    constructor; [|done]. split; [cbn; lia|]. cbn.
    destruct (inv_slots _ _ HI' j p Hpr) as [_ Hsl]. rewrite <- Hsl by lia. done.
  - exists pend. eapply inv_set_consumer; [done..|].
    intros p dep Hpr Hdep now Hnow Hpd Hle Hlog seen Hseen Hsafe. rewrite Hk in Hsafe.
    cbn [csafe] in Hsafe. destruct Hsafe as [Hin Hsafe]. cbn. split_and!; [lia|lia| |].
    + intros s x [Hs|[Hge Hs]]%lookup_app_Some; [by apply Hlog|].
      destruct (s - _)%nat as [|m] eqn:E; cbn in Hs; [|by destruct m]. simplify_eq.
      rewrite Forall_forall in Hseen. destruct (Hseen _ Hin) as [_ He]. cbn in He.
      rewrite Nat2Z.id in He. by replace s with (length (log t)) by lia.
    + exists seen. rewrite length_app. cbn. by rewrite Nat.add_1_r.
  - exists pend. eapply inv_set_consumer; [done..|].
    intros p dep Hpr Hdep now Hnow Hpd Hle Hlog seen Hseen Hsafe. rewrite Hk in Hsafe.
    cbn [csafe] in Hsafe. cbn. split_and!; [lia|lia| |].
    + intros s x [Hs|[Hge Hs]]%lookup_app_Some; [by apply Hlog|].
      by apply lookup_replicate in Hs as [? _].
    + exists seen. rewrite length_app, length_replicate. by split.
Qed.

(** The ring as the builder hands it out, with the threads' programs. *)
Definition initial (prod : prog T unit) (codes : list (prog T unit)) : config T :=
  Config 0 (replicate (length cs) 0) (replicate (Z.to_nat capacity) inhabitant) []
    prod (replicate (length cs) 0) ((fun k => Cthread k 0 []) <$> codes).

Lemma ring_inv_initial prod codes :
  psafe capacity gates Qp [] [] (replicate (length cs) 0) prod ->
  length codes = length cs ->
  (forall j dep k, cs !! j = Some dep -> codes !! j = Some k ->
     csafe capacity j dep (fun _ _ _ _ _ => True) 0 0 0 [] k) ->
  inv (initial prod codes) [].
Proof.
  intros Hp Hlen Hc. pose proof capacity_pos. constructor; cbn; rewrite ?length_replicate; try done.
  - by rewrite length_fmap.
  - intros i l p [-> _]%lookup_replicate [-> _]%lookup_replicate. lia.
  - intros j t p dep Ht Hp' Hdep. cbn in Ht, Hp'. apply lookup_replicate in Hp' as [-> _].
    apply list_lookup_fmap_Some in Ht as (k&->&Hk). cbn. split_and!; [lia|lia| | |].
    + destruct dep as [i|]; cbn; [|naive_solver lia]. exists 0. split; [|lia].
      apply lookup_replicate. split; [done|]. pose proof (cs_wf _ _ Hdep).
      pose proof (lookup_lt_Some _ _ _ Hdep). lia.
    + intros s v Hs. by rewrite lookup_nil in Hs.
    + exists []. split; [constructor|eauto].
  - intros j p [-> _]%lookup_replicate. cbn. split; [lia|]. intros s ?. lia.
Qed.

Lemma inv_no_race c pend : inv c pend -> ~ race c.
Proof.
  intros HI (idx&f&k&j&t&k'&Hp&Ht&Hk).
  destruct (all_present _ _ j HI) as (t'&p&dep&Ht'&Hpr&Hdep).
  { rewrite <- (inv_consumers _ _ HI). by eapply lookup_lt_Some. }
  simplify_eq. destruct (inv_consumer _ _ HI j t p dep Ht Hpr Hdep) as (?&(now&Hnow&?)&_&seen&_&Hs).
  rewrite Hk in Hs. cbn [csafe] in Hs. destruct Hs as (s&?&Hidx&_).
  pose proof (inv_psafe _ _ HI) as Hps. rewrite Hp in Hps. cbn [psafe] in Hps.
  destruct Hps as (n&Hn&Hidx'&Hclear&_).
  pose proof (clear_of_all _ _ _ _ _ HI Hclear Hpr). pose proof (dep_le_cursor _ _ _ _ _ HI Hdep Hnow).
  pose proof (inv_cursor _ _ HI).
  apply (slot_index_ne s (Z.of_nat (length (published c) + n))); [lia|congruence].
Qed.

Lemma slot_present c pend s : inv c pend -> exists v, slots c !! idx_of s = Some v.
Proof. intros HI. apply lookup_lt_is_Some_2. rewrite (inv_slots_len _ _ HI). apply slot_index_lt. Qed.

Lemma inv_producer_moves c pend : inv c pend -> producer_moves capacity c.
Proof.
  intros HI. unfold producer_moves. pose proof (inv_psafe _ _ HI) as Hps.
  destruct (producer c) as [a|k|i k|v k|i v k|idx k|idx f k|v k|n k] eqn:Hp; cbn [psafe] in Hps;
    try done; [by left| | | |]; right.
  - right. eexists; split; [by eapply p_load_cursor|done].
  - right. destruct Hps as (l&Hl&_).
    destruct (lookup_lt_is_Some_2 (processed c) i) as [q Hq].
    { rewrite (inv_processed _ _ HI), <- (inv_pseen _ _ HI). by eapply lookup_lt_Some. }
    pose proof (inv_seen _ _ HI _ _ _ Hl Hq).
    eexists; split; [eapply (p_load_processed _ c i k l q l); [done..|lia]|done].
  - cbn. destruct (u64_max <? v) eqn:E; [by left|right]. zb.
    eexists; split; [by eapply p_store_cursor|done].
  - right. destruct Hps as (n&_&->&_).
    destruct (slot_present _ _ (Z.of_nat (length (published c) + n)) HI) as [x Hx].
    eexists; split; [by eapply p_write_slot|done].
Qed.

Lemma inv_consumer_moves c pend j : inv c pend -> (j < length cs)%nat -> consumer_moves capacity c j.
Proof.
  intros HI Hj. destruct (all_present _ _ j HI Hj) as (t&p&dep&Ht&Hpr&Hdep).
  destruct (inv_consumer _ _ HI j t p dep Ht Hpr Hdep) as (?&(now&Hnow&?)&_&seen&_&Hs).
  exists t. split; [done|].
  destruct (code t) as [a|k|i k|v k|i v k|idx k|idx f k|v k|n k] eqn:Hk; cbn [csafe] in Hs;
    try done; [by left|..]; right.
  - destruct Hs as [-> _]. cbn in Hnow. simplify_eq.
    do 2 eexists; split; [eapply (c_load_cursor _ c j t k (dseen t)); [done..|lia]|done].
  - case_decide as Hij; [subst i|destruct Hs as [-> _]; cbn in Hnow].
    + do 2 eexists; split; [by eapply c_load_own|done].
    + do 2 eexists; split; [eapply (c_load_processed _ c j t i k now (dseen t)); [done..|lia]|done].
  - destruct Hs as (->&_). do 2 eexists; split; [by eapply c_store_processed|done].
  - destruct Hs as (s&_&->&_). destruct (slot_present _ _ s HI) as [x Hx].
    do 2 eexists; split; [by eapply c_read_slot|done].
  - do 2 eexists; split; [by eapply c_deliver|done].
  - do 2 eexists; split; [by eapply c_skip|done].
Qed.

(** What holds in every state the threads can reach. *)
Record sound (c : config T) : Prop := Sound {
  sound_race : ~ race c;
  sound_producer : producer_moves capacity c;
  sound_consumers : forall j, (j < length cs)%nat -> consumer_moves capacity c j;
  sound_logs : forall j t, consumers c !! j = Some t ->
    log_right (published c) (log t);
  sound_result : producer c = Ret tt -> exists pend lb, Qp (published c) pend lb tt;
  sound_lap : forall j p, processed c !! j = Some p ->
    0 <= p <= cursor c /\ cursor c <= p + capacity }.

Lemma inv_sound c pend : inv c pend -> sound c.
Proof.
  intros HI. constructor.
  - by eapply inv_no_race.
  - by eapply inv_producer_moves.
  - intros j Hj. by eapply inv_consumer_moves.
  - intros j t Ht. destruct (all_present _ _ j HI) as (t'&p&dep&Ht'&Hpr&Hdep).
    { rewrite <- (inv_consumers _ _ HI). by eapply lookup_lt_Some. }
    simplify_eq. by destruct (inv_consumer _ _ HI j t p dep Ht Hpr Hdep) as (_&_&?&_).
  - intros Hp. pose proof (inv_psafe _ _ HI) as Hs. rewrite Hp in Hs. eauto.
  - intros j p Hp. split; [by eapply progress_le_cursor|].
    destruct (inv_slots _ _ HI j p Hp). pose proof (inv_cursor _ _ HI). lia.
Qed.

Lemma adequate prod codes c :
  psafe capacity gates Qp [] [] (replicate (length cs) 0) prod ->
  length codes = length cs ->
  (forall j dep k, cs !! j = Some dep -> codes !! j = Some k ->
     csafe capacity j dep (fun _ _ _ _ _ => True) 0 0 0 [] k) ->
  reachable capacity (initial prod codes) c -> sound c.
Proof.
  intros Hp Hlen Hc Hr.
  assert (exists pend, inv c pend) as [pend ?]; [|by eapply inv_sound].
  assert (Hi : exists pend, inv (initial prod codes) pend) by (eexists; by apply ring_inv_initial).
  induction Hr as [|x y z Hxy Hyz IH]; [done|]. apply IH.
  destruct Hi as [pend Hi]. by eapply ring_inv_step.
Qed.
End adequacy.
End Adequacy.
