(* ===== verification/Disruptor.v ===== *)
(** * The disruptor ring

    [Ring] is the methods of the producer, its batches and the consumers
    ([pipeline/src/ring.rs]), each the tree of its shared-memory accesses.
    [Producing] and [Consuming] show what each method does and that it keeps to
    its side of the ring; [Clients] is the callers that respect the documented
    calling rules and the theorem that no interleaving of them goes wrong. *)

From S2P Require Import Prelude Rings.

(** ** The disruptor ring *)
Module Ring.
Import Memory Builder.

(** [u64] subtraction as the release build computes it. *)
Definition wsub (a b : Z) : Z := (a - b) mod 2 ^ 64.

Inductive full : Type := Full.

(** The assertions of [RingBuffer::new] on a [usize] capacity. *)
Definition is_power_of_two (c : Z) : bool := (0 <? c) && (c =? 2 ^ Z.log2 c).
Definition new_ok (capacity : Z) : bool :=
  is_power_of_two capacity && (2 <=? capacity) && (capacity <=? u64_max).

(** [Producer], less what every handle shares and the waiting strategy; a gate is
    the index of its consumer. *)
Record producer : Type := Producer { gates : list nat; cached_gate_min : Z }.
Definition with_min (P : producer) (m : Z) : producer := Producer (gates P) m.

(** [Batch]. *)
Record batch : Type := Batch { start_seq : Z; count : Z }.

Section producer_methods.
Context {T : Type}.
Variable capacity : Z.
Local Notation prog := (prog T).
Local Notation idx := (slot_index capacity).

(** The scan over the gates: [let mut min = u64::MAX; for gate in &self.gates]. *)
Fixpoint load_gates (gs : list nat) (min : Z) : prog Z :=
  match gs with
  | [] => Ret min
  | g :: rest => LoadProcessed g (fun v => load_gates rest (if v <? min then v else min))
  end.

(** The backpressure check that [try_publish], [try_claim] and [try_push_with]
    share: room for [seq], refreshing the cached gate only when it says no. *)
Definition reserve (P : producer) (seq : Z) : prog (producer * bool) :=
  if capacity <=? wsub seq (cached_gate_min P) then
    bind (load_gates (gates P) u64_max) (fun min =>
    Ret (with_min P min, negb (capacity <=? wsub seq min)))
  else Ret (P, true).

Definition try_publish (P : producer) (value : T) : prog (producer * result Z full) :=
  LoadCursor (fun seq =>
  bind (reserve P seq) (fun '(P', ok) =>
  if ok : bool then
    WriteSlot (idx seq) (fun _ => value) (StoreCursor (seq + 1) (Ret (P', Ok seq)))
  else Ret (P', Err Full))).

(** The blocking calls loop until they succeed; [fuel] counts the turns, and
    [None] is a call still waiting. *)
Fixpoint publish (fuel : nat) (P : producer) (value : T) : prog (producer * option Z) :=
  match fuel with
  | O => Ret (P, None)
  | S n => bind (try_publish P value) (fun '(P', r) =>
           match r with Ok seq => Ret (P', Some seq) | Err Full => publish n P' value end)
  end.

Fixpoint publish_with (fuel : nat) (P : producer) (f : T -> T) : prog (producer * option Z) :=
  match fuel with
  | O => Ret (P, None)
  | S n => LoadCursor (fun seq =>
      if wsub seq (cached_gate_min P) <? capacity then
        WriteSlot (idx seq) f (StoreCursor (seq + 1) (Ret (P, Some seq)))
      else bind (load_gates (gates P) u64_max) (fun min => publish_with n (with_min P min) f))
  end.

Definition try_claim (P : producer) : prog (producer * result Z full) :=
  LoadCursor (fun seq =>
  bind (reserve P seq) (fun '(P', ok) =>
  Ret (P', if ok : bool then Ok seq else Err Full))).

Definition publish_claimed (seq : Z) (value : T) : prog unit :=
  WriteSlot (idx seq) (fun _ => value) (StoreCursor (seq + 1) (Ret tt)).

Definition peek_cursor : prog Z := LoadCursor Ret.

(** [Producer::batch]. *)
Definition new_batch : prog batch := LoadCursor (fun start => Ret (Batch start 0)).

Definition next_sequence (b : batch) : Z := start_seq b + count b.

Definition push (b : batch) : batch := Batch (start_seq b) (count b + 1).

Definition try_push_with (P : producer) (b : batch) (f : T -> T)
    : prog (producer * batch * result Z full) :=
  let seq := start_seq b + count b in
  bind (reserve P seq) (fun '(P', ok) =>
  if ok : bool then WriteSlot (idx seq) f (Ret (P', push b, Ok seq))
  else Ret (P', b, Err Full)).

(** The mid-wait commit: publish what the batch holds and start over after it. *)
Definition commit_accumulated {A} (b : batch) (k : batch -> prog A) : prog A :=
  if 0 <? count b then
    StoreCursor (start_seq b + count b) (k (Batch (start_seq b + count b) 0))
  else k b.

Fixpoint push_with (fuel : nat) (P : producer) (b : batch) (f : T -> T)
    : prog (producer * batch * option Z) :=
  match fuel with
  | O => Ret (P, b, None)
  | S n =>
      let seq := start_seq b + count b in
      if wsub seq (cached_gate_min P) <? capacity then
        WriteSlot (idx seq) f (Ret (P, push b, Some seq))
      else
        bind (load_gates (gates P) u64_max) (fun min =>
        let P' := with_min P min in
        if wsub seq min <? capacity then push_with n P' b f
        else commit_accumulated b (fun b' => push_with n P' b' f))
  end.

(** [push_with_or_abort], with the answers [abort()] gives in turn; [None] is a
    call still waiting. *)
Fixpoint push_with_or_abort (fuel : nat) (P : producer) (b : batch) (f : T -> T)
    (aborts : list bool) : prog (producer * batch * option (result Z full)) :=
  match fuel with
  | O => Ret (P, b, None)
  | S n =>
      let seq := start_seq b + count b in
      if wsub seq (cached_gate_min P) <? capacity then
        WriteSlot (idx seq) f (Ret (P, push b, Some (Ok seq)))
      else
        bind (load_gates (gates P) u64_max) (fun min =>
        let P' := with_min P min in
        if wsub seq min <? capacity then push_with_or_abort n P' b f aborts
        else match aborts with
             | [] => Ret (P', b, None)
             | true :: _ => Ret (P', b, Some (Err Full))
             | false :: rest =>
                 commit_accumulated b (fun b' => push_with_or_abort n P' b' f rest)
             end)
  end.

(** [Batch::commit]; dropping a batch is no access at all. *)
Definition commit_batch (b : batch) : prog unit :=
  if 0 <? count b then StoreCursor (start_seq b + count b) (Ret tt) else Ret tt.
End producer_methods.

(** [Consumer]: the index of its own counter, its dependency ([None] the
    producer), and its two private counters. *)
Record consumer : Type := Consumer {
  self : nat; dependency : option nat; next_read : Z; cached_dep : Z }.

(** A borrowed run of slots: [first_len] from [start_idx], then [second_len] from
    slot 0. *)
Record view : Type := View { start_idx : nat; first_len : nat; second_len : nat }.
Definition view_len (w : view) : nat := (first_len w + second_len w)%nat.
Definition view_slot (w : view) (k : nat) : nat :=
  if (k <? first_len w)%nat then (start_idx w + k)%nat else (k - first_len w)%nat.

Section consumer_methods.
Context {T : Type}.
Variable capacity : Z.
Local Notation prog := (prog T).
Local Notation idx := (slot_index capacity).

(** [DependencyKind::load]. *)
Definition dep_load (C : consumer) : prog Z :=
  match dependency C with None => LoadCursor Ret | Some i => LoadProcessed i Ret end.

Definition set_reads (C : consumer) (next dep : Z) : consumer :=
  Consumer (self C) (dependency C) next dep.

Definition available (C : consumer) : prog (consumer * Z) :=
  if next_read C <? cached_dep C then Ret (C, cached_dep C - next_read C)
  else bind (dep_load C) (fun dep =>
       Ret (set_reads C (next_read C) dep, sat_sub dep (next_read C))).

Definition try_consume (C : consumer) : prog (consumer * option (Z * T)) :=
  bind (available C) (fun '(C, n) =>
  if n =? 0 then Ret (C, None)
  else let seq := next_read C in
       ReadSlot (idx seq) (fun value =>
       StoreProcessed (self C) (seq + 1)
         (Ret (set_reads C (seq + 1) (cached_dep C), Some (seq, value))))).

(** The copy loop of [read_batch]. *)
Fixpoint read_slots (seq : Z) (n : nat) : prog (list T) :=
  match n with
  | O => Ret []
  | S m => ReadSlot (idx seq) (fun v => bind (read_slots (seq + 1) m) (fun vs => Ret (v :: vs)))
  end.

Definition read_batch (C : consumer) (buf_len max : nat) : prog (consumer * list T) :=
  bind (dep_load C) (fun dep =>
  let C := set_reads C (next_read C) dep in
  let available := sat_sub dep (next_read C) in
  if available =? 0 then Ret (C, [])
  else
    let count := Z.to_nat (Z.min (Z.min available (Z.of_nat max)) (Z.of_nat buf_len)) in
    bind (read_slots (next_read C) count) (fun vs =>
    Ret (set_reads C (next_read C + Z.of_nat count) dep, vs))).

Definition commit (C : consumer) : prog unit :=
  StoreProcessed (self C) (next_read C) (Ret tt).

Definition consume_batch (C : consumer) (buf_len max : nat) : prog (consumer * list T) :=
  bind (read_batch C buf_len max) (fun '(C, vs) =>
  if (0 <? length vs)%nat then bind (commit C) (fun _ => Ret (C, vs)) else Ret (C, vs)).

Definition peek_batch (C : consumer) (max : nat) : prog (consumer * view) :=
  bind (dep_load C) (fun dep =>
  let C := set_reads C (next_read C) dep in
  let available := sat_sub dep (next_read C) in
  if available =? 0 then Ret (C, View 0 0 0)
  else
    let count := Z.to_nat (Z.min available (Z.of_nat max)) in
    let start := idx (next_read C) in
    let first := Nat.min (Z.to_nat capacity - start) count in
    Ret (C, View start first (count - first))).

Definition commit_consumed (C : consumer) (count : nat) : prog consumer :=
  let next := next_read C + Z.of_nat count in
  StoreProcessed (self C) next (Ret (set_reads C next (cached_dep C))).

Definition read_contiguous (C : consumer) (max : nat) : prog (consumer * view) :=
  bind (dep_load C) (fun dep =>
  let C := set_reads C (next_read C) dep in
  let available := sat_sub dep (next_read C) in
  if available =? 0 then Ret (C, View 0 0 0)
  else
    let start := idx (next_read C) in
    let count := Nat.min (Z.to_nat (Z.min available (Z.of_nat max))) (Z.to_nat capacity - start) in
    Ret (set_reads C (next_read C + Z.of_nat count) dep, View start count 0)).

Definition set_progress (C : consumer) (seq : Z) : prog unit :=
  StoreProcessed (self C) seq (Ret tt).

Definition skip_to_dependency (C : consumer) : prog consumer :=
  bind (dep_load C) (fun dep =>
  StoreProcessed (self C) dep (Ret (set_reads C dep dep))).

(** An element of a borrowed slice. *)
Definition view_get (w : view) (k : nat) : prog T := ReadSlot (view_slot w k) Ret.
End consumer_methods.

(** [build]: the producer and consumers of a topology. *)
Definition build_producer (cs : topology) : producer := Producer (collect_gates cs) 0.
Definition build_consumer (j : nat) (dep : option nat) : consumer := Consumer j dep 0 0.
End Ring.

(** ** What the producer's methods do *)
Module Producing.
Import Memory Builder Ring.

Lemma new_ok_pow2 c : new_ok c = true -> (exists k, 1 <= k /\ c = 2 ^ k) /\ 2 <= c <= u64_max.
Proof.
  unfold new_ok, is_power_of_two. intros H. zb. destruct H as [[[? Hc] ?] ?].
  split; [|lia]. exists (Z.log2 c). split; [|done]. apply Z.log2_le_pow2; lia.
Qed.

Lemma wsub_exact a b : 0 <= a - b <= u64_max -> wsub a b = a - b.
Proof. intros. unfold wsub. apply Z.mod_small. widths. lia. Qed.

Section producing.
Context {T : Type}.
Variables (capacity : Z) (gs : list nat).
Hypothesis capacity_ok : new_ok capacity = true.
Hypothesis gs_some : gs <> [].
Hypothesis gs_nodup : NoDup gs.

Local Notation safe := (psafe (T:=T) capacity gs).
Local Notation len h := (Z.of_nat (length h)).

(** What a thread has seen only grows. *)
Definition grows (lb lb' : list Z) : Prop :=
  forall i x, lb !! i = Some x -> exists y, lb' !! i = Some y /\ x <= y.

Lemma grows_refl lb : grows lb lb.
Proof. intros i x ?. exists x. split; [done|lia]. Qed.

Lemma grows_trans a b c : grows a b -> grows b c -> grows a c.
Proof. intros Hab Hbc i x Hx. destruct (Hab _ _ Hx) as (y&Hy&?), (Hbc _ _ Hy) as (z&Hz&?). exists z. split; [done|lia]. Qed.

(** The producer between calls: its cached gate is one it has seen, no newer than
    any gate's newest seen value. *)
Record pinv (P : producer) (h : list T) (lb : list Z) : Prop := Pinv {
  pinv_gates : gates P = gs;
  pinv_max : len h <= u64_max;
  pinv_seen : forall g, g ∈ gs -> exists x, lb !! g = Some x;
  pinv_range : forall i x, lb !! i = Some x -> 0 <= x <= len h;
  pinv_cached : 0 <= cached_gate_min P /\
    forall g x, g ∈ gs -> lb !! g = Some x -> cached_gate_min P <= x }.

(** Some gate was last seen a full lap behind [seq]. *)
Definition behind (lb : list Z) (seq : Z) : Prop :=
  exists g x, g ∈ gs /\ lb !! g = Some x /\ x + capacity <= seq.

Lemma pinv_cached_le P h lb : pinv P h lb -> 0 <= cached_gate_min P <= len h.
Proof.
  intros []. destruct gs as [|g ?]; [done|]. destruct (pinv_seen0 g) as [x Hx]; [left|].
  destruct pinv_cached0 as [? Hc]. pose proof (Hc g x ltac:(left) Hx). pose proof (pinv_range0 _ _ Hx). lia.
Qed.

Lemma load_gates_safe h pend lb l min (Q : _ -> _ -> _ -> _ -> Prop) :
  NoDup l -> (forall g, g ∈ l -> exists x, lb !! g = Some x) ->
  (forall i x, lb !! i = Some x -> 0 <= x <= len h) -> 0 <= min ->
  (forall lb' m, grows lb lb' -> (forall i x, lb' !! i = Some x -> 0 <= x <= len h) ->
     0 <= m <= min -> (forall g x, g ∈ l -> lb' !! g = Some x -> m <= x) ->
     (m = min \/ exists g, g ∈ l /\ lb' !! g = Some m) ->
     (forall i, i ∉ l -> lb' !! i = lb !! i) -> Q h pend lb' m) ->
  safe Q h pend lb (load_gates l min).
Proof.
  revert lb min Q. induction l as [|g l IH];
    intros lb min Q Hnd Hpres Hrange Hmin HQ; cbn [load_gates psafe].
  { apply HQ; [apply grows_refl|done|lia| |by left|done]. by intros ?? ?%elem_of_nil. }
  apply NoDup_cons in Hnd as [Hnin Hnd].
  destruct (Hpres g) as [x Hx]; [left|]. exists x. split; [done|]. intros v Hv.
  pose proof (Hrange _ _ Hx) as Hx0.
  assert (Hat : <[g:=v]> lb !! g = Some v) by (apply list_lookup_insert_eq; by eapply lookup_lt_Some).
  assert (Hg : grows lb (<[g:=v]> lb)).
  { intros i y Hy. destruct (decide (i = g)) as [->|]; [simplify_eq; exists v; split; [done|lia]|].
    rewrite list_lookup_insert_ne by done. eauto with lia. }
  apply IH; [done| | |destruct (v <? min); lia|].
  - intros g' Hg'. destruct (Hpres g') as [y Hy]; [by right|]. destruct (Hg _ _ Hy) as (z&?&_). eauto.
  - intros i y Hy. destruct (decide (i = g)) as [->|]; [simplify_eq; lia|].
    rewrite list_lookup_insert_ne in Hy by done. eauto.
  - intros lb' m Hg' Hr' Hm Hall Hsome Hrest. rewrite <- (Hrest g Hnin) in Hat.
    assert (Hmv : m <= v /\ m <= min) by (destruct (v <? min) eqn:E; zb; lia).
    apply HQ; [by eapply grows_trans|done|lia| | |].
    + intros g' y [->|Hg'']%elem_of_cons Hy; [simplify_eq; lia|eauto].
    + destruct Hsome as [->|(g'&?&?)]; [|right; exists g'; split; [by right|done]].
      destruct (v <? min) eqn:E; [|by left]. right. exists g. split; [left|done].
    + intros i [? ?]%not_elem_of_cons. rewrite Hrest by done. by rewrite list_lookup_insert_ne.
Qed.

(** Re-reading the gates: afterwards the cached value is the slowest gate's. *)
Lemma refresh_safe P h pend lb (Q : _ -> _ -> _ -> _ -> Prop) :
  pinv P h lb ->
  (forall lb' m, pinv (with_min P m) h lb' -> grows lb lb' -> cached_gate_min P <= m ->
     (exists g, g ∈ gs /\ lb' !! g = Some m) -> Q h pend lb' m) ->
  safe Q h pend lb (load_gates (gates P) u64_max).
Proof.
  intros HP HQ. destruct HP as [Hgs Hmax Hseen Hrange [Hc0 Hc]]. rewrite Hgs.
  apply load_gates_safe; [done..|widths; lia|].
  intros lb' m Hg Hr Hm Hall Hsome _. destruct gs as [|g0 gs'] eqn:Egs; [done|]. rewrite <- Egs in *.
  destruct (Hseen g0) as [x0 Hx0]; [rewrite Egs; left|]. destruct (Hg _ _ Hx0) as (y0&Hy0&_).
  assert (Hin0 : g0 ∈ gs) by (rewrite Egs; left).
  assert (Hex : exists g, g ∈ gs /\ lb' !! g = Some m).
  { destruct Hsome as [->|?]; [|done]. exists g0. split; [done|].
    pose proof (Hall _ _ Hin0 Hy0). pose proof (Hr _ _ Hy0). rewrite Hy0. f_equal. lia. }
  apply HQ; [|done| |done].
  - constructor; cbn; try done; [|split; [lia|done]].
    intros g Hin. destruct (Hseen g Hin) as [x Hx]. destruct (Hg _ _ Hx) as (y&?&_). eauto.
  - destruct Hex as (g&Hin&Hgm). destruct (Hseen g Hin) as [x Hx].
    destruct (Hg _ _ Hx) as (y&Hy&?). simplify_eq. specialize (Hc g x Hin Hx). lia.
Qed.

Lemma pinv_app P h k lb : pinv P h lb -> len (h ++ k) <= u64_max -> pinv P (h ++ k) lb.
Proof.
  intros [] Hle. constructor; try done. intros i x Hx. specialize (pinv_range0 _ _ Hx).
  rewrite length_app. lia.
Qed.

Lemma cached_clear P h lb seq :
  pinv P h lb -> seq - cached_gate_min P < capacity -> clear_of capacity gs lb seq.
Proof.
  intros [] Hlt g Hg. destruct (pinv_seen0 g Hg) as [x Hx]. exists x. split; [done|].
  destruct pinv_cached0 as [_ Hc]. specialize (Hc g x Hg Hx). lia.
Qed.

(** The room check: [true] clears the slot of [seq], [false] found a gate a lap
    behind it. *)
Lemma reserve_safe P h pend lb seq (Q : _ -> _ -> _ -> _ -> Prop) :
  pinv P h lb -> len h <= seq -> seq - cached_gate_min P <= u64_max ->
  (forall P' lb' ok, pinv P' h lb' -> grows lb lb' -> cached_gate_min P <= cached_gate_min P' ->
     (if ok : bool then seq - cached_gate_min P' < capacity else behind lb' seq) ->
     Q h pend lb' (P', ok)) ->
  safe Q h pend lb (reserve capacity P seq).
Proof.
  intros HP Hseq Hmax HQ. pose proof (pinv_cached_le _ _ _ HP). unfold reserve.
  rewrite wsub_exact by lia. destruct (capacity <=? _) eqn:E; zb.
  - apply psafe_bind, refresh_safe; [done|]. intros lb' m HP' Hg Hm (g&Hin&Hgm). cbn [psafe].
    pose proof (pinv_cached_le _ _ _ HP') as Hm'. cbn in Hm'.
    apply HQ; [done..|]. rewrite wsub_exact by lia. destruct (capacity <=? seq - m) eqn:E'; zb; cbn; [|lia].
    exists g, m. split_and!; [done..|lia].
  - cbn [psafe]. apply HQ; [done|apply grows_refl|lia|lia].
Qed.

(** Writing the next slot and moving the cursor over it publishes one entry. *)
Lemma write_store_safe {A} h pend lb seq f (k : prog T A) Q :
  len h = seq -> clear_of capacity gs lb seq ->
  (forall old, len h + 1 <= u64_max -> safe Q (h ++ [f old]) [] lb k) ->
  safe Q h pend lb (WriteSlot (slot_index capacity seq) f (StoreCursor (seq + 1) k)).
Proof.
  intros <- Hclear Hk. cbn [psafe]. exists 0%nat. rewrite Nat.add_0_r.
  split_and!; [lia|done|done|]. intros old. exists 1%nat. rewrite take_0. cbn [app length].
  split_and!; [lia|lia|]. intros ?. apply Hk. lia.
Qed.

(** ** Single entries *)
Definition published_next (h h' : list T) (lb' : list Z) (r : result Z full) (v : T) : Prop :=
  match r with
  | Ok seq => seq = len h /\ h' = h ++ [v]
  | Err Full => h' = h /\ behind lb' (len h)
  end.

Lemma try_publish_safe P v h pend lb :
  pinv P h lb ->
  safe (fun h' pend' lb' '(P', r) =>
    pinv P' h' lb' /\ grows lb lb' /\ cached_gate_min P <= cached_gate_min P' /\
    published_next h h' lb' r v) h pend lb (try_publish capacity P v).
Proof.
  intros HP. pose proof (pinv_cached_le _ _ _ HP). pose proof (pinv_max _ _ _ HP).
  cbn [psafe try_publish]. apply psafe_bind, reserve_safe; [done|lia|lia|].
  intros P' lb' ok HP' Hg Hm Hok. destruct ok; [|by cbn].
  apply write_store_safe; [done|by eapply cached_clear|]. intros _ ?. cbn [psafe].
  split_and!; [apply pinv_app; [done|rewrite length_app; cbn; lia]|done..].
Qed.

Definition published_some (h h' : list T) (r : option Z) (made : T -> Prop) : Prop :=
  match r with
  | Some seq => seq = len h /\ exists v, made v /\ h' = h ++ [v]
  | None => h' = h
  end.

Lemma publish_safe fuel P v h pend lb :
  pinv P h lb ->
  safe (fun h' _ lb' '(P', r) => pinv P' h' lb' /\ published_some h h' r (eq v))
    h pend lb (publish capacity fuel P v).
Proof.
  revert P lb pend. induction fuel as [|n IH]; intros P lb pend HP; [by cbn|].
  cbn [publish]. apply psafe_bind. eapply psafe_mono; [|by apply try_publish_safe].
  intros h' pend' lb' [P' r] (HP'&_&_&Hr). destruct r as [seq|[]]; cbn in Hr.
  - destruct Hr as [-> ->]. cbn [psafe]. split; [done|]. split; [done|]. eauto.
  - destruct Hr as [-> _]. by apply IH.
Qed.

Lemma publish_with_safe fuel P f h pend lb :
  pinv P h lb ->
  safe (fun h' _ lb' '(P', r) => pinv P' h' lb' /\ published_some h h' r (fun v => exists old, v = f old))
    h pend lb (publish_with capacity fuel P f).
Proof.
  revert P lb. induction fuel as [|n IH]; intros P lb HP; [by cbn|].
  cbn [publish_with psafe]. pose proof (pinv_cached_le _ _ _ HP). pose proof (pinv_max _ _ _ HP).
  rewrite wsub_exact by lia. destruct (_ <? capacity) eqn:E; zb.
  - apply write_store_safe; [done|by eapply cached_clear|]. intros old ?. cbn [psafe].
    split; [apply pinv_app; [done|rewrite length_app; cbn; lia]|]. split; [done|]. eauto.
  - apply psafe_bind, refresh_safe; [done|]. intros lb' m HP' _ _ _. by apply IH.
Qed.

Lemma try_claim_safe P h pend lb :
  pinv P h lb ->
  safe (fun h' _ lb' '(P', r) => pinv P' h' lb' /\ h' = h /\
    match r with
    | Ok seq => seq = len h /\ clear_of capacity gs lb' seq
    | Err Full => behind lb' (len h)
    end) h pend lb (try_claim capacity P).
Proof.
  intros HP. pose proof (pinv_cached_le _ _ _ HP). pose proof (pinv_max _ _ _ HP).
  cbn [psafe try_claim]. apply psafe_bind, reserve_safe; [done|lia|lia|].
  intros P' lb' ok HP' Hg Hm Hok. cbn [psafe]. split_and!; [done..|].
  destruct ok; [|done]. split; [done|by eapply cached_clear].
Qed.

Lemma publish_claimed_safe P seq v h pend lb :
  pinv P h lb -> seq = len h -> clear_of capacity gs lb seq ->
  safe (fun h' _ lb' _ => pinv P h' lb' /\ h' = h ++ [v]) h pend lb (publish_claimed capacity seq v).
Proof.
  intros HP -> Hclear. apply write_store_safe; [done..|]. intros _ ?. cbn [psafe].
  split; [apply pinv_app; [done|rewrite length_app; cbn; lia]|done].
Qed.

(** ** Batches

    [entries h b pend] is the history once the batch is committed: what is
    published, then what the batch holds. *)
Definition entries (h : list T) (b : batch) (pend : list T) : list T :=
  h ++ take (Z.to_nat (count b)) pend.

Record binv (P : producer) (b : batch) (h pend : list T) : Prop := Binv {
  binv_start : start_seq b = len h;
  binv_count : 0 <= count b <= len pend;
  binv_room : start_seq b + count b - cached_gate_min P <= u64_max }.

Lemma entries_len P b h pend : binv P b h pend -> len (entries h b pend) = start_seq b + count b.
Proof. intros []. unfold entries. rewrite length_app, length_take. lia. Qed.

Lemma new_batch_safe P h pend lb :
  pinv P h lb ->
  safe (fun h' pend' lb' b => h' = h /\ pinv P h' lb' /\ binv P b h' pend' /\
    entries h' b pend' = h) h pend lb new_batch.
Proof.
  intros HP. pose proof (pinv_cached_le _ _ _ HP). pose proof (pinv_max _ _ _ HP).
  cbn [psafe new_batch]. split_and!; [done|done| |].
  - constructor; cbn; lia.
  - unfold entries. cbn. by rewrite take_0, app_nil_r.
Qed.

(** Filling the batch's next slot. *)
Lemma push_slot_safe {A} P b f h pend lb (k : prog T A) Q :
  pinv P h lb -> binv P b h pend -> start_seq b + count b - cached_gate_min P < capacity ->
  (forall pend' old, binv P (push b) h pend' ->
     entries h (push b) pend' = entries h b pend ++ [f old] -> safe Q h pend' lb k) ->
  safe Q h pend lb (WriteSlot (slot_index capacity (start_seq b + count b)) f k).
Proof.
  intros HP [Hs Hc Hr] Hlt Hk. pose proof (new_ok_pow2 _ capacity_ok) as [_ ?].
  cbn [psafe]. exists (Z.to_nat (count b)).
  replace (Z.of_nat (length h + Z.to_nat (count b))) with (start_seq b + count b) by lia.
  split_and!; [lia|done|by eapply cached_clear|]. intros old. apply (Hk _ old).
  - constructor; cbn; [done| |lia]. rewrite length_app, length_take. cbn. lia.
  - unfold entries. cbn. replace (Z.to_nat (count b + 1)) with (S (Z.to_nat (count b))) by lia.
    rewrite <- app_assoc. f_equal. apply take_ge. rewrite length_app, length_take. cbn. lia.
Qed.

Lemma try_push_with_safe P b f h pend lb :
  pinv P h lb -> binv P b h pend ->
  safe (fun h' pend' lb' '(P', b', r) => pinv P' h' lb' /\ binv P' b' h' pend' /\ h' = h /\
    match r with
    | Ok seq => seq = len (entries h b pend) /\
        exists old, entries h' b' pend' = entries h b pend ++ [f old]
    | Err Full => b' = b /\ pend' = pend /\ behind lb' (len (entries h b pend))
    end) h pend lb (try_push_with capacity P b f).
Proof.
  intros HP HB. pose proof (entries_len _ _ _ _ HB) as Hlen. rewrite Hlen.
  destruct HB as [Hs Hc Hr]. unfold try_push_with. apply psafe_bind, reserve_safe; [done|lia|lia|].
  intros P' lb' ok HP' Hg Hm Hok. assert (HB' : binv P' b h pend) by (constructor; [done..|lia]).
  destruct ok; [|by cbn [psafe]]. apply push_slot_safe with (P := P'); [done..|].
  intros pend' old HB'' He. cbn [psafe]. split_and!; [done..|]. eauto.
Qed.

(** The mid-wait commit hands on what the batch holds and loses none of it. *)
Lemma commit_accumulated_safe {A} P b h pend lb (k : batch -> prog T A) Q :
  pinv P h lb -> binv P b h pend ->
  (forall b' h' pend', pinv P h' lb -> binv P b' h' pend' ->
     entries h' b' pend' = entries h b pend -> safe Q h' pend' lb (k b')) ->
  safe Q h pend lb (commit_accumulated b k).
Proof.
  intros HP HB Hk. pose proof (pinv_cached_le _ _ _ HP).
  unfold commit_accumulated. destruct (0 <? count b) eqn:E; zb; [|by apply Hk].
  destruct HB as [Hs Hc Hr].
  cbn [psafe]. exists (Z.to_nat (count b)). split_and!; [lia|lia|]. intros ?.
  assert (Hl : len (h ++ take (Z.to_nat (count b)) pend) = start_seq b + count b)
    by (rewrite length_app, length_take; lia).
  apply Hk.
  - apply pinv_app; [done|lia].
  - constructor; cbn; lia.
  - unfold entries. cbn. by rewrite take_0, app_nil_r.
Qed.

Definition pushed (es es' : list T) (r : option Z) (f : T -> T) : Prop :=
  match r with
  | Some seq => seq = len es /\ exists old, es' = es ++ [f old]
  | None => es' = es
  end.

Lemma push_with_safe fuel P b f h pend lb :
  pinv P h lb -> binv P b h pend ->
  safe (fun h' pend' lb' '(P', b', r) => pinv P' h' lb' /\ binv P' b' h' pend' /\
    pushed (entries h b pend) (entries h' b' pend') r f) h pend lb (push_with capacity fuel P b f).
Proof.
  revert P b h pend lb. induction fuel as [|n IH]; intros P b h pend lb HP HB; [by cbn|].
  pose proof (entries_len _ _ _ _ HB) as Hlen. pose proof (pinv_cached_le _ _ _ HP). pose proof HB as [Hs Hc Hr].
  cbn [push_with]. rewrite wsub_exact by lia. destruct (_ <? capacity) eqn:E; zb.
  - eapply push_slot_safe; [done..|]. intros pend' old HB' He. cbn [psafe pushed].
    split_and!; [done..|lia|eauto].
  - apply psafe_bind, refresh_safe; [done|]. intros lb' m HP' _ Hm _.
    pose proof (pinv_cached_le _ _ _ HP') as Hm'. cbn in Hm'.
    assert (HB' : binv (with_min P m) b h pend) by (constructor; cbn; [done..|lia]).
    destruct (wsub _ m <? capacity); [by apply IH|].
    apply commit_accumulated_safe with (P := with_min P m); [done..|].
    intros b' h' pend' HP'' HB'' He. rewrite <- He. by apply IH.
Qed.

Lemma push_with_or_abort_safe fuel P b f aborts h pend lb :
  pinv P h lb -> binv P b h pend ->
  safe (fun h' pend' lb' '(P', b', r) => pinv P' h' lb' /\ binv P' b' h' pend' /\
    match r with
    | Some (Err Full) => true ∈ aborts /\ entries h' b' pend' = entries h b pend
    | Some (Ok seq) => pushed (entries h b pend) (entries h' b' pend') (Some seq) f
    | None => entries h' b' pend' = entries h b pend
    end) h pend lb (push_with_or_abort capacity fuel P b f aborts).
Proof.
  revert P b h pend lb aborts.
  induction fuel as [|n IH]; intros P b h pend lb aborts HP HB; [by cbn|].
  pose proof (entries_len _ _ _ _ HB) as Hlen. pose proof (pinv_cached_le _ _ _ HP). pose proof HB as [Hs Hc Hr].
  cbn [push_with_or_abort]. rewrite wsub_exact by lia. destruct (_ <? capacity) eqn:E; zb.
  - eapply push_slot_safe; [done..|]. intros pend' old HB' He. cbn [psafe pushed].
    split_and!; [done..|lia|eauto].
  - apply psafe_bind, refresh_safe; [done|]. intros lb' m HP' _ Hm _.
    pose proof (pinv_cached_le _ _ _ HP') as Hm'. cbn in Hm'.
    assert (HB' : binv (with_min P m) b h pend) by (constructor; cbn; [done..|lia]).
    destruct (wsub _ m <? capacity); [by apply IH|].
    destruct aborts as [|[] rest]; cbn [psafe].
    + done.
    + split_and!; [done|done|left|done].
    + apply commit_accumulated_safe with (P := with_min P m); [done..|].
      intros b' h' pend' HP'' HB'' He. rewrite <- He.
      eapply psafe_mono; [|by apply IH]. intros h1 p1 lb1 [[P1 b1] [[seq|[]]|]]; [done| |done].
      intros (?&?&?&?). split_and!; try done. by right.
Qed.

Lemma commit_batch_safe P b h pend lb :
  pinv P h lb -> binv P b h pend ->
  safe (fun h' _ lb' _ => pinv P h' lb' /\ lb' = lb /\ h' = entries h b pend) h pend lb (commit_batch b).
Proof.
  intros HP [Hs Hc Hr]. unfold commit_batch. destruct (0 <? count b) eqn:E; zb.
  - cbn [psafe]. exists (Z.to_nat (count b)). split_and!; [lia|lia|]. intros ?.
    split_and!; [|done|done]. apply pinv_app; [done|]. rewrite length_app, length_take. lia.
  - cbn [psafe]. split; [done|]. split; [done|]. unfold entries. replace (Z.to_nat (count b)) with 0%nat by lia.
    by rewrite take_0, app_nil_r.
Qed.
End producing.
End Producing.

(** ** What the consumers' methods do *)
Module Consuming.
Import Memory Builder Ring Producing.

Section consuming.
Context {T : Type}.
Variables (capacity : Z) (j : nat) (dep : option nat).
Hypothesis capacity_ok : new_ok capacity = true.
Hypothesis dep_other : dep <> Some j.

Local Notation safe := (csafe (T:=T) capacity j dep).

Lemma capacity_pow2 : exists k, 1 <= k /\ capacity = 2 ^ k.
Proof. by destruct (new_ok_pow2 _ capacity_ok). Qed.

(** A consumer between calls. *)
Record cinv (C : consumer) (p d : Z) : Prop := Cinv {
  cinv_self : self C = j;
  cinv_dep : dependency C = dep;
  cinv_range : 0 <= p <= next_read C /\ next_read C <= d;
  cinv_lap : d <= p + capacity;
  cinv_cached : cached_dep C <= d }.

Lemma dep_load_safe C p d nd seen (Q : _ -> _ -> _ -> _ -> _ -> Prop) :
  cinv C p d ->
  (forall v, d <= v <= p + capacity -> cinv (set_reads C (next_read C) v) p v -> Q p v nd seen v) ->
  safe Q p d nd seen (dep_load C).
Proof.
  intros [Hs Hd Hr Hl Hc] HQ.
  assert (HC : forall v, d <= v <= p + capacity -> cinv (set_reads C (next_read C) v) p v)
    by (intros; constructor; cbn; [done..|lia|lia|lia]).
  unfold dep_load. rewrite Hd. destruct dep as [i|]; cbn [csafe].
  - rewrite decide_False by congruence. split; [done|]. intros v Hv. apply HQ; auto.
  - split; [done|]. intros v Hv. apply HQ; auto.
Qed.

(** What a copying read hands to its caller: the entries from [from] on, all of
    them read. *)
Definition copied (seen : list (Z * T)) (from : Z) (vs : list T) : Prop :=
  forall i v, vs !! i = Some v -> (from + Z.of_nat i, v) ∈ seen.

Lemma available_safe C p d nd seen :
  cinv C p d ->
  safe (fun p' d' nd' seen' '(C', n) => p' = p /\ nd' = nd /\ seen' = seen /\ cinv C' p d' /\
    next_read C' = next_read C /\ n = sat_sub (cached_dep C') (next_read C'))
    p d nd seen (available C).
Proof.
  intros HC. pose proof HC as [Hs Hd Hr Hl Hc]. unfold available. destruct (_ <? _) eqn:E; zb.
  - cbn [csafe]. split_and!; try done. unfold sat_sub. lia.
  - apply csafe_bind, dep_load_safe; [done|]. intros v Hv HC'. cbn [csafe]. split_and!; done.
Qed.

Lemma try_consume_safe C p d nd seen :
  cinv C p d ->
  safe (fun p' d' nd' seen' '(C', r) => cinv C' p' d' /\ nd' = nd /\
    match r with
    | Some (s, v) => s = next_read C /\ next_read C' = s + 1 /\ p' = s + 1 /\ seen' = (s, v) :: seen
    | None => next_read C' = next_read C /\ p' = p /\ seen' = seen
    end) p d nd seen (try_consume capacity C).
Proof.
  intros HC. unfold try_consume. apply csafe_bind.
  eapply csafe_mono; [|by apply available_safe].
  intros p' d' nd' seen' [C' n] (->&->&->&HC'&Hnext&->).
  pose proof HC' as [Hs Hd Hr Hl Hc].
  destruct (_ =? 0) eqn:E; zb; cbn [csafe]; [done|].
  assert (next_read C' < d') by (unfold sat_sub in E; lia).
  exists (next_read C'). split_and!; [lia|lia|done|]. intros v.
  split; [done|]. split; [lia|]. split_and!; try done.
  constructor; cbn; [done..|lia|lia|lia].
Qed.

Lemma read_slots_safe n seq p d nd seen :
  p <= seq -> seq + Z.of_nat n <= d ->
  safe (fun p' d' nd' seen' vs => p' = p /\ d' = d /\ nd' = nd /\ length vs = n /\
    seen ⊆ seen' /\ copied seen' seq vs) p d nd seen (read_slots capacity seq n).
Proof using Type.
  clear capacity_ok dep_other. revert seq seen. induction n as [|n IH]; intros seq seen Hp Hd; cbn [read_slots csafe].
  { by split_and!. }
  exists seq. split_and!; [lia|lia|done|]. intros v. apply csafe_bind.
  eapply csafe_mono; [|apply (IH (seq + 1)); lia].
  intros p' d' nd' seen' vs (->&->&->&Hlen&Hsub&Hcp). cbn [csafe].
  split_and!; try done; [cbn; lia|set_solver|].
  intros [|i] x Hx; cbn in Hx.
  - simplify_eq. rewrite Z.add_0_r. apply Hsub. left.
  - replace (seq + Z.of_nat (S i)) with (seq + 1 + Z.of_nat i) by lia. by apply Hcp.
Qed.

Definition read_post (C : consumer) (p : Z) (nd : nat) (seen : list (Z * T))
    (p' d' : Z) (nd' : nat) (seen' : list (Z * T)) '((C', vs) : consumer * list T) : Prop :=
  cinv C' p' d' /\ nd' = nd /\ seen ⊆ seen' /\ copied seen' (next_read C) vs /\
  next_read C' = next_read C + Z.of_nat (length vs).

Lemma read_batch_safe C buf_len max p d nd seen :
  cinv C p d ->
  safe (fun p' d' nd' seen' r => p' = p /\ read_post C p nd seen p' d' nd' seen' r)
    p d nd seen (read_batch capacity C buf_len max).
Proof.
  intros HC. pose proof HC as [Hs Hd Hr Hl Hc]. unfold read_batch.
  apply csafe_bind, dep_load_safe; [done|]. intros v Hv HC'. cbn [next_read set_reads].
  destruct (_ =? 0) eqn:E; zb.
  { cbn [csafe read_post]. split_and!; try done. cbn. lia. }
  unfold sat_sub in E |- *.
  set (cnt := Z.to_nat _). assert (Z.of_nat cnt <= v - next_read C) by lia. clearbody cnt.
  apply csafe_bind. eapply csafe_mono; [|apply read_slots_safe; lia].
  intros p' d' nd' seen' vs (->&->&->&Hlen&Hsub&Hcp). cbn [csafe read_post]. rewrite Hlen.
  split_and!; try done. constructor; cbn; [done..|lia|lia|lia].
Qed.

Lemma commit_safe C p d nd seen (Q : _ -> _ -> _ -> _ -> _ -> Prop) :
  cinv C p d -> (cinv C (next_read C) d -> Q (next_read C) d nd seen tt) ->
  safe Q p d nd seen (commit C).
Proof.
  intros [Hs Hd Hr Hl Hc] HQ. unfold commit. cbn [csafe]. split; [done|]. split; [lia|].
  apply HQ. constructor; [done..|lia|lia|lia].
Qed.

Lemma consume_batch_safe C buf_len max p d nd seen :
  cinv C p d ->
  safe (fun p' d' nd' seen' '(C', vs) => read_post C p nd seen p' d' nd' seen' (C', vs) /\
    p' = if (0 <? length vs)%nat then next_read C' else p)
    p d nd seen (consume_batch capacity C buf_len max).
Proof.
  intros HC. unfold consume_batch. apply csafe_bind.
  eapply csafe_mono; [|by apply read_batch_safe].
  intros p' d' nd' seen' [C' vs] [-> (HC'&->&Hsub&Hcp&Hn)].
  destruct (0 <? length vs)%nat eqn:E; [|cbn [csafe]; by rewrite E].
  apply csafe_bind, commit_safe; [done|]. intros HC''. cbn [csafe]. by rewrite E.
Qed.

(** A view of [n] entries from [from] on: element [k] is the slot of [from + k]. *)
Definition views (from : Z) (w : view) : Prop :=
  forall k, (k < view_len w)%nat -> view_slot w k = slot_index capacity (from + Z.of_nat k).

(** Counting on from a slot wraps once at the end of the array. *)
Lemma slot_index_add from k :
  Z.of_nat k <= capacity -> 0 <= from ->
  let s := slot_index capacity from in
  slot_index capacity (from + Z.of_nat k) =
    if (s + k <? Z.to_nat capacity)%nat then (s + k)%nat else (s + k - Z.to_nat capacity)%nat.
Proof.
  intros Hk Hf s. pose proof (Adequacy.slot_index_lt capacity capacity_pow2 from) as Hlt. fold s in Hlt.
  subst s. pose proof (new_ok_pow2 _ capacity_ok) as [_ ?].
  rewrite !(Adequacy.slot_index_mod capacity capacity_pow2) in *.
  pose proof (Z.mod_pos_bound from capacity ltac:(lia)). pose proof (Z.div_mod from capacity ltac:(lia)).
  destruct (_ <? _)%nat eqn:E; [apply Nat.ltb_lt in E|apply Nat.ltb_ge in E].
  - rewrite <- (Z.mod_unique_pos (from + Z.of_nat k) capacity (from / capacity) (from mod capacity + Z.of_nat k)); lia.
  - rewrite <- (Z.mod_unique_pos (from + Z.of_nat k) capacity (from / capacity + 1)
               (from mod capacity + Z.of_nat k - capacity)); nia.
Qed.

Lemma views_wrap from start first second :
  start = slot_index capacity from -> 0 <= from -> Z.of_nat (first + second) <= capacity ->
  (start + first <= Z.to_nat capacity)%nat ->
  (second = 0 \/ start + first = Z.to_nat capacity)%nat -> views from (View start first second).
Proof.
  intros -> Hf Hc Hfirst Hsec k Hk. unfold view_len in Hk. cbn in Hk.
  rewrite slot_index_add by lia. unfold view_slot. cbn [first_len start_idx].
  destruct (k <? first)%nat eqn:E1; [apply Nat.ltb_lt in E1|apply Nat.ltb_ge in E1];
  (destruct (_ + k <? _)%nat eqn:E2; [apply Nat.ltb_lt in E2|apply Nat.ltb_ge in E2]); lia.
Qed.

(** Lending without consuming: as many entries as are ready, at most [max]. *)
Lemma peek_batch_safe C max p d nd seen :
  cinv C p d ->
  safe (fun p' d' nd' seen' '(C', w) => p' = p /\ nd' = nd /\ seen' = seen /\ cinv C' p d' /\
    next_read C' = next_read C /\ views (next_read C) w /\
    Z.of_nat (view_len w) = Z.min (d' - next_read C) (Z.of_nat max))
    p d nd seen (peek_batch capacity C max).
Proof.
  intros HC. pose proof HC as [Hs Hd Hr Hl Hc]. unfold peek_batch.
  apply csafe_bind, dep_load_safe; [done|]. intros v Hv HC'. cbn [next_read set_reads].
  unfold sat_sub. destruct (_ =? 0) eqn:E; zb; cbn [csafe].
  { split_and!; try done; [|unfold view_len; cbn; lia]. intros k Hk. unfold view_len in Hk. cbn in Hk. lia. }
  pose proof (Adequacy.slot_index_lt capacity capacity_pow2 (next_read C)) as Hlt.
  pose proof (new_ok_pow2 _ capacity_ok) as [_ ?].
  split_and!; try done.
  - apply views_wrap; [done|lia|lia|lia|lia].
  - unfold view_len. cbn. lia.
Qed.

Lemma read_contiguous_safe C max p d nd seen :
  cinv C p d ->
  safe (fun p' d' nd' seen' '(C', w) => p' = p /\ nd' = nd /\ seen' = seen /\ cinv C' p d' /\
    next_read C' = next_read C + Z.of_nat (view_len w) /\ views (next_read C) w)
    p d nd seen (read_contiguous capacity C max).
Proof.
  intros HC. pose proof HC as [Hs Hd Hr Hl Hc]. unfold read_contiguous.
  apply csafe_bind, dep_load_safe; [done|]. intros v Hv HC'. cbn [next_read set_reads].
  unfold sat_sub. destruct (_ =? 0) eqn:E; zb; cbn [csafe].
  { split_and!; try done; [unfold view_len; cbn; lia|]. intros k Hk. unfold view_len in Hk. cbn in Hk. lia. }
  pose proof (Adequacy.slot_index_lt capacity capacity_pow2 (next_read C)) as Hlt.
  pose proof (new_ok_pow2 _ capacity_ok) as [_ ?].
  set (cnt := Nat.min _ _). assert (Hcnt : Z.of_nat cnt <= v - next_read C /\
    (slot_index capacity (next_read C) + cnt <= Z.to_nat capacity)%nat) by lia. clearbody cnt.
  split_and!; try done.
  - constructor; cbn; [done..|lia|lia|lia].
  - unfold view_len. cbn. lia.
  - apply views_wrap; [done|lia|lia|lia|by left].
Qed.

(** Reading an element of a view whose entry the progress has not passed. *)
Lemma view_get_safe from w k p d nd seen (Q : _ -> _ -> _ -> _ -> _ -> Prop) :
  views from w -> (k < view_len w)%nat -> p <= from + Z.of_nat k < d ->
  (forall v, Q p d nd ((from + Z.of_nat k, v) :: seen) v) ->
  safe Q p d nd seen (view_get w k).
Proof.
  intros Hw Hk Hr HQ. unfold view_get. cbn [csafe]. exists (from + Z.of_nat k).
  split_and!; [lia|lia|by apply Hw|done].
Qed.

Lemma commit_consumed_safe C count p d nd seen :
  cinv C p d -> next_read C + Z.of_nat count <= d ->
  safe (fun p' d' nd' seen' C' => nd' = nd /\ seen' = seen /\ d' = d /\ cinv C' p' d /\
    next_read C' = next_read C + Z.of_nat count /\ p' = next_read C') p d nd seen
    (commit_consumed C count).
Proof.
  intros [Hs Hd Hr Hl Hc] Hle. unfold commit_consumed. cbn [csafe].
  split; [done|]. split; [lia|]. split_and!; try done. constructor; cbn; [done..|lia|lia|lia].
Qed.

Lemma set_progress_safe C seq p d nd seen (Q : _ -> _ -> _ -> _ -> _ -> Prop) :
  cinv C p d -> p <= seq <= next_read C -> (cinv C seq d -> Q seq d nd seen tt) ->
  safe Q p d nd seen (set_progress C seq).
Proof.
  intros [Hs Hd Hr Hl Hc] Hle HQ. unfold set_progress. cbn [csafe].
  split; [done|]. split; [lia|]. apply HQ. constructor; cbn; [done..|lia|lia|lia].
Qed.

(** Fast-forwarding moves both counters to the dependency together. *)
Lemma skip_to_dependency_safe C p d nd seen :
  cinv C p d ->
  safe (fun p' d' nd' seen' C' => nd' = nd /\ seen' = seen /\ cinv C' p' d' /\
    next_read C <= next_read C' /\ p' = next_read C' /\ d' = next_read C') p d nd seen
    (skip_to_dependency C).
Proof.
  intros HC. pose proof HC as [Hs Hd Hr Hl Hc]. unfold skip_to_dependency.
  apply csafe_bind, dep_load_safe; [done|]. intros v Hv _. cbn [csafe].
  split; [done|]. split; [lia|]. split_and!; try done; [|cbn; lia].
  pose proof (new_ok_pow2 _ capacity_ok) as [_ ?].
  constructor; cbn; [done..|lia|lia|lia].
Qed.
End consuming.
End Consuming.

(** ** Callers that respect the calling rules *)
Module Clients.
Import Memory Builder Ring Producing Consuming.

(** Where a producer's caller is between calls: free, holding a claimed
    sequence, or filling a batch (which borrows the producer). *)
Inductive pmode : Type := Idle | Claimed (seq : Z) | Batching (b : batch).
Definition free (m : pmode) : bool := match m with Batching _ => false | _ => true end.

(** Where a consumer's caller is: nothing borrowed, or a slice of entries from
    [from] on of which it has taken [taken], lent by [peek_batch] or by
    [read_contiguous]. *)
Inductive cmode : Type := Whole | Lent (from : Z) (w : view) (taken : nat) (peeked : bool).

Section clients.
Context {T : Type} `{!Inhabited T}.
Variable capacity : Z.
Local Notation prog := (prog T).

(** A producer's program: any finite run of calls, each decided by the results so
    far. [publish_claimed] takes the sequence of the [try_claim] just before it;
    while a batch is open only its methods are called; leaving a batch without
    [commit] drops it. A blocking call that is still waiting ends the run. *)
Inductive producer_client : producer -> pmode -> prog unit -> Prop :=
| pc_done P m : producer_client P m (Ret tt)
| pc_try_publish P m v k :
    free m = true -> (forall P' r, producer_client P' Idle (k P' r)) ->
    producer_client P m (bind (try_publish capacity P v) (fun '(P', r) => k P' r))
| pc_publish P m fuel v k :
    free m = true -> (forall P' r, producer_client P' Idle (k P' r)) ->
    producer_client P m (bind (publish capacity fuel P v) (fun '(P', r) => k P' r))
| pc_publish_with P m fuel f k :
    free m = true -> (forall P' r, producer_client P' Idle (k P' r)) ->
    producer_client P m (bind (publish_with capacity fuel P f) (fun '(P', r) => k P' r))
| pc_try_claim P m k :
    free m = true ->
    (forall P' r, producer_client P' (match r with Ok seq => Claimed seq | Err _ => Idle end) (k P' r)) ->
    producer_client P m (bind (try_claim capacity P) (fun '(P', r) => k P' r))
| pc_publish_claimed P seq v k :
    producer_client P Idle k ->
    producer_client P (Claimed seq) (bind (publish_claimed capacity seq v) (fun _ => k))
| pc_peek_cursor P m k :
    (forall seq, producer_client P m (k seq)) -> producer_client P m (bind peek_cursor k)
| pc_batch P m k :
    free m = true -> (forall b, producer_client P (Batching b) (k b)) ->
    producer_client P m (bind new_batch k)
| pc_try_push_with P b f k :
    (forall P' b' r, producer_client P' (Batching b') (k P' b' r)) ->
    producer_client P (Batching b)
      (bind (try_push_with capacity P b f) (fun '(P', b', r) => k P' b' r))
| pc_push_with P b fuel f k :
    (forall P' b' r, producer_client P' (Batching b') (k P' b' r)) ->
    producer_client P (Batching b)
      (bind (push_with capacity fuel P b f) (fun '(P', b', r) => k P' b' r))
| pc_push_with_or_abort P b fuel f aborts k :
    (forall P' b' r, producer_client P' (Batching b') (k P' b' r)) ->
    producer_client P (Batching b)
      (bind (push_with_or_abort capacity fuel P b f aborts) (fun '(P', b', r) => k P' b' r))
| pc_commit P b k :
    producer_client P Idle k ->
    producer_client P (Batching b) (bind (commit_batch b) (fun _ => k))
| pc_drop P b k : producer_client P Idle k -> producer_client P (Batching b) k.

(** The caller taking a batch of copied entries. *)
Definition deliver_all (vs : list T) (k : prog unit) : prog unit := foldr Deliver k vs.

(** A consumer's program; [p] is the progress it last published. It takes what a
    call hands it, in order, before the next call. Progress is set to no more than
    has been read, and while a slice is alive to no more than has been taken from
    it; [commit_consumed] covers what was taken and no more than was lent. *)
Inductive consumer_client : consumer -> cmode -> Z -> prog unit -> Prop :=
| cc_done C m p : consumer_client C m p (Ret tt)
| cc_try_consume C p k :
    (forall C' r, consumer_client C' Whole (match r with Some (s, _) => s + 1 | None => p end) (k C' r)) ->
    consumer_client C Whole p (bind (try_consume capacity C) (fun '(C', r) =>
      match r with Some (s, v) => Deliver v (k C' r) | None => k C' r end))
| cc_read_batch C p buf_len max k :
    (forall C' vs, consumer_client C' Whole p (k C' vs)) ->
    consumer_client C Whole p (bind (read_batch capacity C buf_len max) (fun '(C', vs) =>
      deliver_all vs (k C' vs)))
| cc_consume_batch C p buf_len max k :
    (forall C' vs, consumer_client C' Whole (if (0 <? length vs)%nat then next_read C' else p) (k C' vs)) ->
    consumer_client C Whole p (bind (consume_batch capacity C buf_len max) (fun '(C', vs) =>
      deliver_all vs (k C' vs)))
| cc_commit C p k :
    consumer_client C Whole (next_read C) k ->
    consumer_client C Whole p (bind (commit C) (fun _ => k))
| cc_set_progress C p seq k :
    p <= seq <= next_read C -> consumer_client C Whole seq k ->
    consumer_client C Whole p (bind (set_progress C seq) (fun _ => k))
| cc_skip C p k :
    (forall C', consumer_client C' Whole (next_read C') (k C')) ->
    consumer_client C Whole p (bind (skip_to_dependency C) (fun C' =>
      Skip (Z.to_nat (next_read C' - next_read C)) (k C')))
| cc_peek C p max k :
    (forall C' w, consumer_client C' (Lent (next_read C') w 0 true) p (k C' w)) ->
    consumer_client C Whole p (bind (peek_batch capacity C max) (fun '(C', w) => k C' w))
| cc_read_contiguous C p max k :
    (forall C' w, consumer_client C' (Lent (next_read C' - Z.of_nat (view_len w)) w 0 false) p (k C' w)) ->
    consumer_client C Whole p (bind (read_contiguous capacity C max) (fun '(C', w) => k C' w))
| cc_take C from w i peeked p k :
    (i < view_len w)%nat -> (forall v, consumer_client C (Lent from w (S i) peeked) p (k v)) ->
    consumer_client C (Lent from w i peeked) p (bind (view_get w i) (fun v => Deliver v (k v)))
| cc_set_progress_lent C from w i p seq k :
    p <= seq <= from + Z.of_nat i -> consumer_client C (Lent from w i false) seq k ->
    consumer_client C (Lent from w i false) p (bind (set_progress C seq) (fun _ => k))
| cc_drop C from w i p k :
    consumer_client C Whole p k ->
    consumer_client C (Lent from w i false) p (Skip (view_len w - i) k)
| cc_drop_peeked C from w p k :
    consumer_client C Whole p k -> consumer_client C (Lent from w 0 true) p k
| cc_commit_consumed C from w i p count k :
    (i <= count <= view_len w)%nat -> (forall C', consumer_client C' Whole (next_read C') (k C')) ->
    consumer_client C (Lent from w i true) p
      (Skip (count - i) (bind (commit_consumed C count) k)).

Section producer_safe.
Variable gs : list nat.
Hypothesis capacity_ok : new_ok capacity = true.
Hypothesis gs_some : gs <> [].
Hypothesis gs_nodup : NoDup gs.

Definition pmode_ok (P : producer) (m : pmode) (h pend : list T) (lb : list Z) : Prop :=
  match m with
  | Idle => True
  | Claimed seq => seq = Z.of_nat (length h) /\ clear_of capacity gs lb seq
  | Batching b => binv P b h pend
  end.

(** Chaining a call's outcome into the rest of the caller's program. *)
Local Tactic Notation "pcall" uconstr(lem) := apply psafe_bind; eapply psafe_mono; [|by apply lem].

Lemma producer_client_safe P m k h pend lb :
  producer_client P m k -> pinv gs P h lb -> pmode_ok P m h pend lb ->
  psafe capacity gs (fun _ _ _ _ => True) h pend lb k.
Proof using All.
  intros Hk. revert h pend lb.
  induction Hk as [P m|P m v k Hm _ IH|P m fuel v k Hm _ IH|P m fuel f k Hm _ IH|P m k Hm _ IH
    |P seq v k _ IH|P m k _ IH|P m k Hm _ IH|P b f k _ IH|P b fuel f k _ IH|P b fuel f ab k _ IH
    |P b k _ IH|P b k _ IH]; intros h pend lb HP Hmode.
  - done.
  - pcall try_publish_safe. intros h' pend' lb' [P' r] (?&_). by apply IH.
  - pcall publish_safe. intros h' pend' lb' [P' r] (?&_). by apply IH.
  - pcall publish_with_safe. intros h' pend' lb' [P' r] (?&_). by apply IH.
  - pcall try_claim_safe. intros h' pend' lb' [P' r] (?&->&Hr). apply IH; [done|].
    by destruct r as [seq|[]].
  - destruct Hmode as [-> ?]. apply psafe_bind. eapply psafe_mono; [|by apply publish_claimed_safe].
    intros h' pend' lb' [] [? _]. by apply IH.
  - cbn. by apply IH.
  - pcall new_batch_safe. intros h' pend' lb' b (->&?&?&_). by apply IH.
  - pcall try_push_with_safe. intros h' pend' lb' [[P' b'] r] (?&?&_). by apply IH.
  - pcall push_with_safe. intros h' pend' lb' [[P' b'] r] (?&?&_). by apply IH.
  - pcall push_with_or_abort_safe. intros h' pend' lb' [[P' b'] r] (?&?&_). by apply IH.
  - pcall commit_batch_safe. intros h' pend' lb' [] [? _]. by apply IH.
  - by apply IH.
Qed.
End producer_safe.

Section consumer_safe.
Variables (j : nat) (dep : option nat).
Hypothesis capacity_ok : new_ok capacity = true.
Hypothesis dep_other : dep <> Some j.

Definition cmode_ok (C : consumer) (m : cmode) (p d : Z) (nd : nat) : Prop :=
  match m with
  | Whole => Z.of_nat nd = next_read C
  | Lent from w i peeked =>
      views capacity from w /\ (i <= view_len w)%nat /\ Z.of_nat nd = from + Z.of_nat i /\
      p <= from + Z.of_nat i /\
      (if peeked : bool then from = next_read C /\ from + Z.of_nat (view_len w) <= d
       else from + Z.of_nat (view_len w) = next_read C)
  end.

Lemma deliver_all_safe vs k Q p d nd seen :
  copied seen (Z.of_nat nd) vs ->
  csafe capacity j dep Q p d (nd + length vs) seen k ->
  csafe capacity j dep Q p d nd seen (deliver_all vs k).
Proof using Type.
  revert nd. induction vs as [|v vs IH]; intros nd Hcp Hk; cbn [deliver_all foldr csafe length] in *.
  { by rewrite Nat.add_0_r in Hk. }
  split.
  - specialize (Hcp 0%nat v eq_refl). by rewrite Z.add_0_r in Hcp.
  - apply IH; [|by rewrite Nat.add_succ_comm].
    intros i x Hx. specialize (Hcp (S i) x Hx). by replace (Z.of_nat (S nd) + Z.of_nat i)
      with (Z.of_nat nd + Z.of_nat (S i)) by lia.
Qed.

Local Tactic Notation "ccall" uconstr(lem) := apply csafe_bind; eapply csafe_mono; [|by apply lem].

Lemma consumer_client_safe C m p k d nd seen :
  consumer_client C m p k -> cinv capacity j dep C p d -> cmode_ok C m p d nd ->
  csafe capacity j dep (fun _ _ _ _ _ => True) p d nd seen k.
Proof using All.
  intros Hk. revert d nd seen.
  induction Hk as [C m p|C p k _ IH|C p bl max k _ IH|C p bl max k _ IH|C p k _ IH|C p seq k Hseq _ IH
    |C p k _ IH|C p max k _ IH|C p max k _ IH|C from w i pk p k Hi _ IH|C from w i p seq k Hseq _ IH
    |C from w i p k _ IH|C from w p k _ IH|C from w i p count k Hc _ IH]; intros d nd seen HC Hmode;
    cbn [cmode_ok] in Hmode.
  - done.
  - ccall try_consume_safe. intros p' d' nd' seen' [C' r] (HC'&->&Hr).
    destruct r as [[s v]|]; cbn [csafe].
    + destruct Hr as (->&Hn&->&->). split; [rewrite Hmode; left|].
      apply (IH C' (Some (next_read C, v))); [done|]. cbn [cmode_ok]. lia.
    + destruct Hr as (Hn&->&->). apply (IH C' None); [done|]. cbn. lia.
  - ccall read_batch_safe. intros p' d' nd' seen' [C' vs] [-> (HC'&->&_&Hcp&Hn)].
    apply deliver_all_safe; [by rewrite Hmode|]. apply IH; [done|]. cbn. lia.
  - ccall consume_batch_safe. intros p' d' nd' seen' [C' vs] [(HC'&->&_&Hcp&Hn) ->].
    apply deliver_all_safe; [by rewrite Hmode|]. apply IH; [done|]. cbn. lia.
  - apply csafe_bind, commit_safe; [done|]. intros HC'. by apply IH.
  - apply csafe_bind, set_progress_safe; [done..|]. intros HC'. by apply IH.
  - ccall skip_to_dependency_safe. intros p' d' nd' seen' C' (->&->&HC'&Hle&->&->). cbn [csafe].
    apply IH; [done|]. cbn. lia.
  - ccall peek_batch_safe. intros p' d' nd' seen' [C' w] (->&->&->&HC'&Hn&Hw&Hlen).
    pose proof HC' as [_ _ ? _ _]. apply IH; [done|]. cbn [cmode_ok]. rewrite Hn.
    split_and!; [done|lia|lia|lia|lia|lia].
  - ccall read_contiguous_safe. intros p' d' nd' seen' [C' w] (->&->&->&HC'&Hn&Hw).
    pose proof HC as [_ _ ? _ _]. apply IH; [done|]. cbn [cmode_ok].
    replace (next_read C' - Z.of_nat (view_len w)) with (next_read C) by lia.
    split_and!; [done|lia|lia|lia|lia].
  - destruct Hmode as (Hw&Hle&Hnd&Hp&Hpk). pose proof HC as [_ _ ? _ _].
    apply csafe_bind, (view_get_safe _ _ _ from); [done|done|destruct pk; lia|]. intros v. cbn [csafe].
    split; [rewrite Hnd; left|]. apply IH; [done|]. cbn [cmode_ok]. split_and!; [done|lia|lia|lia|done].
  - destruct Hmode as (Hw&Hle&Hnd&Hp&Hpk). pose proof HC as [_ _ ? _ _].
    apply csafe_bind, set_progress_safe; [done|lia|]. intros HC'. apply IH; [done|].
    cbn [cmode_ok]. split_and!; [done|lia|lia|lia|done].
  - destruct Hmode as (Hw&Hle&Hnd&Hp&Hpk). cbn [csafe]. apply IH; [done|]. cbn. lia.
  - destruct Hmode as (Hw&Hle&Hnd&Hp&[-> Hpk]). apply IH; [done|]. cbn. lia.
  - destruct Hmode as (Hw&Hle&Hnd&Hp&[-> Hpk]). cbn [csafe].
    apply csafe_bind. eapply csafe_mono; [|apply commit_consumed_safe; [done|lia]].
    intros p' d' nd' seen' C' (->&->&->&HC'&Hn&->). apply IH; [done|]. cbn [cmode_ok]. lia.
Qed.
End consumer_safe.

(** Both sides as the builder hands them out. *)
Lemma initial_pinv (cs : topology) :
  wf cs -> cs <> [] -> pinv (T:=T) (collect_gates cs) (build_producer cs) [] (replicate (length cs) 0).
Proof using Type.
  intros Hwf Hcs. constructor; cbn; [done|widths; lia| | |].
  - intros g Hg%gates_in_bounds. exists 0. by apply lookup_replicate.
  - intros i x [-> _]%lookup_replicate. lia.
  - split; [lia|]. intros g x _ [-> _]%lookup_replicate. lia.
Qed.

Lemma client_initial_safe (cs : topology) j dep k :
  new_ok capacity = true -> wf cs -> cs !! j = Some dep ->
  consumer_client (build_consumer j dep) Whole 0 k ->
  csafe capacity j dep (fun _ _ _ _ _ => True) 0 0 0 [] k.
Proof using Inhabited0.
  intros Hcap Hwf Hdep Hk. eapply consumer_client_safe; [done| |exact Hk| |done].
  - intros ->. pose proof (Hwf _ _ Hdep). lia.
  - pose proof (new_ok_pow2 _ Hcap) as [_ ?]. constructor; cbn; [done..|lia|lia|lia].
Qed.

(** C25: Any run of a disruptor ring is sound. Whatever finite programs of calls
    its producer and consumers run, under any interleaving of their single memory
    accesses and with each thread seeing the others' counters arbitrarily late:
    no slot is written while a consumer is about to read it, no access is out of
    bounds, every consumer's caller has received, at each sequence it took, exactly
    the entry published there, and the cursor never runs more than one lap past
    any consumer's progress. *)
Theorem ring_sound (cs : topology) (prod : prog unit) (codes : list (prog unit)) (c : config T) :
  new_ok capacity = true -> built cs -> cs <> [] ->
  producer_client (build_producer cs) Idle prod ->
  length codes = length cs ->
  (forall j dep k, cs !! j = Some dep -> codes !! j = Some k ->
     consumer_client (build_consumer j dep) Whole 0 k) ->
  reachable capacity (Adequacy.initial capacity cs prod codes) c ->
  Adequacy.sound capacity cs (fun _ _ _ _ => True) c.
Proof.
  intros Hcap Hb Hcs Hp Hlen Hc. pose proof (built_wf _ Hb) as Hwf.
  apply Adequacy.adequate; [by destruct (new_ok_pow2 _ Hcap)|done|done| |done|].
  - eapply producer_client_safe; [done|by apply gates_some|apply gates_nodup|exact Hp| |done].
    by apply initial_pinv.
  - intros j dep k Hdep Hk. eapply client_initial_safe; [done..|]. by eapply Hc.
Qed.
(** ** A dropped batch and a committed one *)

(** Pushing entries until they are all in or the ring is full. *)
Fixpoint fill (P : producer) (b : batch) (fs : list (T -> T)) : prog (producer * batch) :=
  match fs with
  | [] => Ret (P, b)
  | f :: rest => bind (try_push_with capacity P b f) (fun '(P', b', r) =>
                 match r with Ok _ => fill P' b' rest | Err Full => Ret (P', b') end)
  end.

Definition drop_then_commit (P : producer) (lost kept : list (T -> T)) : prog unit :=
  bind new_batch (fun b =>
  bind (fill P b lost) (fun '(P, _) =>
  bind new_batch (fun b =>
  bind (fill P b kept) (fun '(_, b) => commit_batch b)))).

(** Entries made by a list of fillers, in order. *)
Definition made_by (fs : list (T -> T)) (vs : list T) : Prop :=
  Forall2 (fun f v => exists old, v = f old) fs vs.

Lemma fill_safe gs P b fs h pend lb :
  new_ok capacity = true -> gs <> [] -> NoDup gs -> pinv gs P h lb -> binv P b h pend ->
  psafe capacity gs (fun h' pend' lb' '(P', b') => pinv gs P' h' lb' /\ binv P' b' h' pend' /\ h' = h /\
    exists vs, entries h' b' pend' = entries h b pend ++ vs /\ made_by (take (length vs) fs) vs /\
      (length vs = length fs \/ behind capacity gs lb' (Z.of_nat (length (entries h b pend ++ vs)))))
    h pend lb (fill P b fs).
Proof using Inhabited0.
  intros Hc Hg Hn. revert P b pend lb. induction fs as [|f fs IH]; intros P b pend lb HP HB; cbn [fill].
  { cbn [psafe]. split_and!; try done. exists []. rewrite app_nil_r. split_and!; [done|constructor|by left]. }
  apply psafe_bind. eapply psafe_mono; [|by apply try_push_with_safe].
  intros h' pend' lb' [[P' b'] r] (HP'&HB'&->&Hr). destruct r as [seq|[]].
  - destruct Hr as (_&old&He). eapply psafe_mono; [|by apply IH].
    intros h1 p1 lb1 [P1 b1] (?&?&->&vs&Hvs&Hmade&Hend). split_and!; try done.
    exists (f old :: vs). rewrite He, <- app_assoc in Hvs, Hend. split_and!; [done| |].
    + cbn. constructor; [eauto|done].
    + destruct Hend as [Hl|?]; [left; cbn; by rewrite Hl|by right].
  - destruct Hr as (->&->&Hb). cbn [psafe]. split_and!; try done. exists []. rewrite app_nil_r.
    split_and!; [done|constructor|by right].
Qed.

(** A batch is all or nothing. A producer that fills one batch and drops it,
    then fills a second and commits it, has published exactly the second batch's
    entries, in order, whatever the consumers did meanwhile: all of them, or those
    that fitted before some gate was a full lap behind; of the dropped batch no
    consumer ever sees anything. *)
Theorem batch_all_or_nothing (cs : topology) (lost kept : list (T -> T)) (codes : list (prog unit)) c :
  new_ok capacity = true -> built cs -> cs <> [] ->
  length codes = length cs ->
  (forall j dep k, cs !! j = Some dep -> codes !! j = Some k ->
     consumer_client (build_consumer j dep) Whole 0 k) ->
  reachable capacity (Adequacy.initial capacity cs (drop_then_commit (build_producer cs) lost kept) codes) c ->
  Memory.producer c = Ret tt ->
  (exists lb, made_by (take (length (published c)) kept) (published c) /\
     (length (published c) = length kept \/
      behind capacity (collect_gates cs) lb (Z.of_nat (length (published c))))) /\
  (forall j t s v, consumers c !! j = Some t -> log t !! s = Some (Some v) -> published c !! s = Some v).
Proof.
  intros Hcap Hb Hcs Hlen Hc Hr Hdone. pose proof (built_wf _ Hb) as Hwf.
  set (Q := fun (h _ : list T) (lb : list Z) (_ : unit) => made_by (take (length h) kept) h /\
     (length h = length kept \/ behind capacity (collect_gates cs) lb (Z.of_nat (length h)))).
  assert (Hs : Adequacy.sound capacity cs Q c).
  { eapply Adequacy.adequate; [by destruct (new_ok_pow2 _ Hcap)|done|done| |done| |exact Hr].
    - unfold drop_then_commit. pose proof (gates_some _ Hwf Hcs) as Hg. pose proof (gates_nodup cs) as Hn.
      pose proof (initial_pinv cs Hwf Hcs) as HP.
      apply psafe_bind. eapply psafe_mono; [|by apply new_batch_safe].
      intros h1 p1 lb1 b1 (->&HP1&HB1&_). apply psafe_bind. eapply psafe_mono; [|by eapply fill_safe].
      intros h2 p2 lb2 [P2 b2] (HP2&_&->&_). apply psafe_bind. eapply psafe_mono; [|by eapply new_batch_safe].
      intros h3 p3 lb3 b3 (->&HP3&HB3&He3). apply psafe_bind. eapply psafe_mono; [|by eapply fill_safe].
      intros h4 p4 lb4 [P4 b4] (HP4&HB4&->&vs&Hvs&Hmade&Hend).
      rewrite He3 in Hvs, Hend. cbn [app] in Hvs, Hend.
      eapply psafe_mono; [|by eapply (commit_batch_safe capacity _ P4)].
      intros h5 p5 lb5 [] (_&->&->). rewrite Hvs. split; [done|].
      destruct Hend as [?|?]; [by left|by right].
    - intros j dep k Hdep Hk. eapply client_initial_safe; [done..|]. by eapply Hc. }
  split.
  - destruct (Adequacy.sound_result _ _ _ _ Hs Hdone) as (pend&lb&?&?). exists lb. done.
  - intros j t s v Ht Hl. exact (Adequacy.sound_logs _ _ _ _ Hs j t Ht s v Hl).
Qed.
End clients.
End Clients.

Module Sample.
Import Memory Builder Ring Producing Clients.

(** One producer publishing 7 on a ring of two slots, one consumer taking it. *)
Definition sample_producer : prog Z unit :=
  bind (try_publish 2 (build_producer [None]) 7) (fun '(_, _) => Ret tt).
Definition sample_consumer : prog Z unit :=
  bind (try_consume 2 (build_consumer 0 None)) (fun '(_, r) =>
    match r with Some (_, v) => Deliver v (Ret tt) | None => Ret tt end).
Definition sample_final : config Z :=
  Config 1 [1] [7; 1] [7] (Ret tt) [0] [Cthread (Ret tt) 1 [Some 7]].

Lemma sample_run : reachable 2 (Adequacy.initial 2 [None] sample_producer [sample_consumer]) sample_final.
Proof.
  eapply rtc_l; [by eapply p_load_cursor|]. eapply rtc_l; [by eapply p_write_slot|].
  eapply rtc_l; [by eapply p_store_cursor|].
  eapply rtc_l; [eapply (c_load_cursor _ _ 0 _ _ 1); [reflexivity..|cbn; lia]|].
  eapply rtc_l; [by eapply (c_read_slot _ _ 0)|].
  eapply rtc_l; [by eapply (c_store_processed _ _ 0)|].
  eapply rtc_l; [by eapply (c_deliver _ _ 0)|]. apply rtc_refl.
Qed.

(** A dropped batch of one, then a committed batch of two. *)
Definition sample_batches : prog Z unit :=
  drop_then_commit 2 (build_producer [None]) [fun _ => 9] [fun _ => 7; Z.add 1].
Definition sample_batched : config Z :=
  Config 2 [0] [7; 2] [7; 2] (Ret tt) [0] [Cthread sample_consumer 0 []].

Lemma sample_batch_run :
  reachable 2 (Adequacy.initial 2 [None] sample_batches [sample_consumer]) sample_batched.
Proof.
  eapply rtc_l; [by eapply p_load_cursor|]. eapply rtc_l; [by eapply p_write_slot|].
  eapply rtc_l; [by eapply p_load_cursor|]. eapply rtc_l; [by eapply p_write_slot|].
  eapply rtc_l; [by eapply p_write_slot|]. eapply rtc_l; [by eapply p_store_cursor|]. apply rtc_refl.
Qed.

Lemma batch_all_or_nothing_witness :
  made_by (take 2 [fun _ => 7; Z.add 1]) (published sample_batched).
Proof.
  destruct (batch_all_or_nothing 2 [None] [fun _ => 9] [fun _ => 7; Z.add 1] [sample_consumer] sample_batched)
    as [(lb & Hmade & _) _].
  - reflexivity.
  - exact (built_add [] built_new).
  - discriminate.
  - reflexivity.
  - intros [|[]] dep k Hd Hk; [|discriminate..].
    change (Some (@None nat) = Some dep) in Hd. injection Hd as <-.
    change (Some sample_consumer = Some k) in Hk. injection Hk as <-.
    apply (cc_try_consume 2 _ _ (fun _ _ => Ret tt)). intros. constructor.
  - exact sample_batch_run.
  - reflexivity.
  - exact Hmade.
Defined.

Lemma ring_sound_witness :
  reachable 2 (Adequacy.initial 2 [None] sample_producer [sample_consumer]) sample_final /\
  Adequacy.sound 2 [None] (fun _ _ _ _ => True) sample_final.
Proof.
  split; [exact sample_run|].
  apply (ring_sound 2 [None] sample_producer [sample_consumer]).
  - reflexivity.
  - exact (built_add [] built_new).
  - discriminate.
  - apply (pc_try_publish 2 _ _ 7 (fun _ _ => Ret tt)); [reflexivity|]. intros. constructor.
  - reflexivity.
  - intros [|[]] dep k Hd Hk; [|discriminate..].
    change (Some (@None nat) = Some dep) in Hd. injection Hd as <-.
    change (Some sample_consumer = Some k) in Hk. injection Hk as <-.
    apply (cc_try_consume 2 _ _ (fun _ _ => Ret tt)). intros. constructor.
  - exact sample_run.
Defined.
End Sample.
