(* ===== verification/Spsc.v ===== *)
(** * The single-producer single-consumer queue

    [Queue] is the methods of [pipeline/src/spsc.rs] over the shared memory of
    [Rings]: [head] is the cursor and [tail] the one consumer's progress. [Sides]
    shows what each method does and that it keeps to its side; [Clients] is the
    callers and the theorem about their interleavings. [Wait] is how a blocked
    call waits ([wait.rs]). *)

From S2P Require Import Prelude Rings Disruptor.

Module Queue.
Import Memory.

Inductive stopped : Type := Stopped.

(** [Producer], less the shared state and the waiting strategy. *)
Record producer : Type := Producer { cached_tail : Z; local_head : Z; committed_head : Z }.
(** [Consumer]. *)
Record consumer : Type := Consumer { cached_head : Z }.

(** [channel]: both ends as handed out; [None] is a failed assertion. *)
Definition channel (capacity : Z) : option (producer * consumer) :=
  if Ring.new_ok capacity then Some (Producer 0 0 0, Consumer 0) else None.

Section methods.
Context {T : Type}.
Variable capacity : Z.
Local Notation prog := (prog T).
Local Notation idx := (slot_index capacity).

Definition set_tail (P : producer) (t : Z) : producer := Producer t (local_head P) (committed_head P).
Definition advance (P : producer) : producer :=
  Producer (cached_tail P) (local_head P + 1) (committed_head P).

Definition try_push_with (P : producer) (f : T -> T) : prog (producer * result Z Ring.full) :=
  let seq := local_head P in
  let write P := WriteSlot (idx seq) f (Ret (advance P, Ok seq)) in
  if capacity <=? Ring.wsub seq (cached_tail P) then
    LoadProcessed 0 (fun t =>
    let P := set_tail P t in
    if capacity <=? Ring.wsub seq t then Ret (P, Err Ring.Full) else write P)
  else write P.

Definition flush (P : producer) : prog producer :=
  if committed_head P <? local_head P then
    StoreCursor (local_head P) (Ret (Producer (cached_tail P) (local_head P) (local_head P)))
  else Ret P.

(** The blocking push. [stops] is what the stop source answers in turn, [fuel] the
    turns taken; [None] is a push still waiting. *)
Fixpoint push_with_until (fuel : nat) (P : producer) (f : T -> T) (stops : list bool)
    : prog (producer * option (result Z stopped)) :=
  match fuel with
  | O => Ret (P, None)
  | S n =>
      let seq := local_head P in
      if Ring.wsub seq (cached_tail P) <? capacity then
        WriteSlot (idx seq) f (Ret (advance P, Some (Ok seq)))
      else
        LoadProcessed 0 (fun t =>
        let P := set_tail P t in
        if Ring.wsub seq t <? capacity then push_with_until n P f stops
        else match stops with
             | [] => Ret (P, None)
             | true :: _ => Ret (P, Some (Err Stopped))
             | false :: rest => bind (flush P) (fun P => push_with_until n P f rest)
             end)
  end.

(** [push_with]: the source that never stops. *)
Definition push_with (fuel : nat) (P : producer) (f : T -> T) : prog (producer * option Z) :=
  bind (push_with_until fuel P f (replicate fuel false)) (fun '(P, r) =>
  Ret (P, match r with Some (Ok seq) => Some seq | _ => None end)).

Definition push_with_unless (fuel : nat) (P : producer) (f : T -> T) (stop : list bool)
    : prog (producer * option (result Z stopped)) := push_with_until fuel P f stop.

Definition try_publish (P : producer) (value : T) : prog (producer * result Z Ring.full) :=
  bind (try_push_with P (fun _ => value)) (fun '(P, r) =>
  match r with
  | Ok seq => bind (flush P) (fun P => Ret (P, Ok seq))
  | Err e => Ret (P, Err e)
  end).

Definition publish (fuel : nat) (P : producer) (value : T) : prog (producer * option Z) :=
  bind (push_with fuel P (fun _ => value)) (fun '(P, r) =>
  match r with
  | Some seq => bind (flush P) (fun P => Ret (P, Some seq))
  | None => Ret (P, None)
  end).

Definition refresh (C : consumer) : prog consumer := LoadCursor (fun h => Ret (Consumer h)).

Definition try_consume_visible (C : consumer) : prog (consumer * option (Z * T)) :=
  LoadProcessed 0 (fun tail =>
  if cached_head C <=? tail then Ret (C, None)
  else ReadSlot (idx tail) (fun value =>
       StoreProcessed 0 (tail + 1) (Ret (C, Some (tail, value))))).

Definition try_consume (C : consumer) : prog (consumer * option (Z * T)) :=
  bind (try_consume_visible C) (fun '(C, r) =>
  match r with
  | Some entry => Ret (C, Some entry)
  | None => bind (refresh C) (fun C => try_consume_visible C)
  end).

Definition consume_batch (C : consumer) (buf_len max : nat) : prog (consumer * list T) :=
  LoadProcessed 0 (fun tail =>
  LoadCursor (fun head =>
  let C := Consumer head in
  let available := Ring.wsub head tail in
  if available =? 0 then Ret (C, [])
  else
    let count := Z.to_nat (Z.min (Z.min available (Z.of_nat max)) (Z.of_nat buf_len)) in
    bind (Ring.read_slots capacity tail count) (fun vs =>
    StoreProcessed 0 (tail + Z.of_nat count) (Ret (C, vs))))).
End methods.
End Queue.

Module Sides.
Import Memory Queue.

Section sides.
Context {T : Type}.
Variable capacity : Z.
Hypothesis capacity_ok : Ring.new_ok capacity = true.

Local Notation psafe := (psafe (T:=T) capacity [0%nat]).
Local Notation csafe := (csafe (T:=T) capacity 0 None).
Local Notation len h := (Z.of_nat (length h)).

Lemma capacity_range : 2 <= capacity <= u64_max.
Proof. by destruct (Producing.new_ok_pow2 _ capacity_ok). Qed.

(** The producer between calls: [committed_head] mirrors [head], [local_head]
    counts the pending writes too, and the cached tail is one it has seen. *)
Record sinv (P : producer) (h pend : list T) (lb : list Z) : Prop := Sinv {
  sinv_committed : committed_head P = len h;
  sinv_local : local_head P = len h + len pend;
  sinv_seen : exists l, lb = [l] /\ 0 <= cached_tail P <= l /\ l <= len h;
  sinv_room : local_head P - cached_tail P <= capacity;
  sinv_max : len h <= u64_max }.

Lemma sinv_wsub P h pend lb :
  sinv P h pend lb -> Ring.wsub (local_head P) (cached_tail P) = local_head P - cached_tail P.
Proof.
  intros [? ? (?&_&?&?) ? ?]. pose proof capacity_range. apply Producing.wsub_exact. lia.
Qed.

(** Filling the next slot when the cached tail leaves room. *)
Lemma write_safe {A} P f h pend lb (k : prog T A) Q :
  sinv P h pend lb -> local_head P - cached_tail P < capacity ->
  (forall old, sinv (advance P) h (pend ++ [f old]) lb -> psafe Q h (pend ++ [f old]) lb k) ->
  psafe Q h pend lb (WriteSlot (slot_index capacity (local_head P)) f k).
Proof.
  intros [Hc Hl (l&->&Ht&?) Hr Hm] Hlt Hk. cbn [Memory.psafe]. exists (length pend).
  rewrite Nat2Z.inj_add, <- Hl. split_and!; [lia|done| |].
  - intros g ->%list_elem_of_singleton. exists l. split; [done|lia].
  - intros old. rewrite firstn_all. apply Hk. constructor; cbn; rewrite ?length_app; cbn; try lia.
    exists l. split; [done|lia].
Qed.

(** Re-reading the tail. *)
Lemma load_tail_safe {A} P h pend lb (k : Z -> prog T A) Q :
  sinv P h pend lb ->
  (forall t lb', sinv (set_tail P t) h pend lb' -> lb' = [t] -> psafe Q h pend lb' (k t)) ->
  psafe Q h pend lb (LoadProcessed 0 k).
Proof.
  intros [Hc Hl (l&->&Ht&?) Hr Hm] Hk. cbn [Memory.psafe]. exists l. split; [done|]. intros v Hv.
  apply (Hk v [v]); [|done]. constructor; cbn; try done; [|lia]. exists v. split; [done|lia].
Qed.

Definition pushed_next (h pend h' pend' : list T) (lb' : list Z) (r : result Z Ring.full) (f : T -> T) : Prop :=
  h' = h /\
  match r with
  | Ok seq => seq = len (h ++ pend) /\ exists old, pend' = pend ++ [f old]
  | Err Ring.Full => pend' = pend /\ exists t, lb' = [t] /\ len (h ++ pend) = t + capacity
  end.

Lemma spsc_try_push_with_safe P f h pend lb :
  sinv P h pend lb ->
  psafe (fun h' pend' lb' '(P', r) => sinv P' h' pend' lb' /\ pushed_next h pend h' pend' lb' r f)
    h pend lb (try_push_with capacity P f).
Proof.
  intros HP. pose proof (sinv_local _ _ _ _ HP). unfold try_push_with, pushed_next.
  rewrite (sinv_wsub _ _ _ _ HP), length_app.
  destruct (capacity <=? _) eqn:E; zb.
  - eapply load_tail_safe; [done|]. intros t lb' HP' ->.
    pose proof (sinv_wsub _ _ _ _ HP') as Hw. cbn in Hw. cbn zeta. rewrite Hw.
    destruct (capacity <=? local_head P - t) eqn:E'; zb; [cbn [Memory.psafe]|].
    + split_and!; [done..|]. exists t. split; [done|]. destruct HP'. cbn in *. lia.
    + change (local_head P) with (local_head (set_tail P t)).
      eapply write_safe; [done|done|]. intros old HP''. cbn [Memory.psafe].
      split_and!; [done|done|cbn; lia|eauto].
  - eapply write_safe; [done|done|]. intros old HP''. cbn [Memory.psafe].
    split_and!; [done|done|lia|eauto].
Qed.

(** A flush publishes every pending write. *)
Lemma flush_safe P h pend lb (Q : _ -> _ -> _ -> _ -> Prop) :
  sinv P h pend lb -> (forall P', sinv P' (h ++ pend) [] lb -> Q (h ++ pend) [] lb P') ->
  psafe Q h pend lb (flush P).
Proof.
  intros HP HQ. pose proof HP as [Hc Hl (l&->&Ht&?) Hr Hm]. unfold flush.
  destruct (committed_head P <? local_head P) eqn:E; zb; cbn [Memory.psafe].
  - exists (length pend). split_and!; [lia|lia|]. intros ?. rewrite firstn_all, drop_all. apply HQ.
    constructor; cbn; rewrite ?length_app; cbn; try lia. exists l. split; [done|lia].
  - assert (pend = []) as -> by (apply nil_length_inv; lia).
    rewrite app_nil_r in HQ. by apply HQ.
Qed.

Lemma push_with_until_safe fuel P f stops h pend lb :
  sinv P h pend lb ->
  psafe (fun h' pend' lb' '(P', r) => sinv P' h' pend' lb' /\
    match r with
    | Some (Ok seq) => seq = len (h ++ pend) /\ exists old, h' ++ pend' = h ++ pend ++ [f old]
    | Some (Err Stopped) => true ∈ stops /\ h' ++ pend' = h ++ pend
    | None => h' ++ pend' = h ++ pend
    end) h pend lb (push_with_until capacity fuel P f stops).
Proof.
  revert P h pend lb stops. induction fuel as [|n IH]; intros P h pend lb stops HP; [by cbn|].
  cbn [push_with_until]. rewrite (sinv_wsub _ _ _ _ HP). pose proof (sinv_local _ _ _ _ HP).
  rewrite length_app. destruct (_ <? capacity) eqn:E; zb.
  - eapply write_safe; [done|done|]. intros old HP'. cbn [Memory.psafe]. split_and!; [done|lia|eauto].
  - eapply load_tail_safe; [done|]. intros t lb' HP' ->. cbn zeta.
    destruct (Ring.wsub _ t <? capacity).
    { eapply psafe_mono; [|by apply IH]. intros ????. by rewrite length_app. }
    destruct stops as [|[] rest]; cbn [Memory.psafe].
    + done.
    + split_and!; [done|left|done].
    + apply psafe_bind. eapply flush_safe; [done|]. intros P' HP''.
      eapply psafe_mono; [|by apply IH].
      intros h1 p1 lb1 [P1 [[seq|[]]|]]; cbn; rewrite ?app_nil_r, ?length_app.
      * intros (?&?&old&He). split_and!; [done|done|]. exists old. by rewrite app_assoc.
      * intros (?&?&?). split_and!; [done|by right|done].
      * done.
Qed.

(** The consumer between calls. *)
Definition kinv (C : consumer) (p d : Z) : Prop :=
  0 <= p <= d /\ cached_head C <= d /\ d <= p + capacity.

Lemma spsc_refresh_safe C p d nd seen (Q : _ -> _ -> _ -> _ -> _ -> Prop) :
  kinv C p d -> (forall C' d', kinv C' p d' -> Q p d' nd seen C') -> csafe Q p d nd seen (refresh C).
Proof.
  intros (?&?&?) HQ. unfold refresh. cbn [Memory.csafe]. split; [done|]. intros v Hv. apply HQ.
  unfold kinv; cbn; lia.
Qed.

Definition took_next (p : Z) (seen : list (Z * T)) (p' : Z) (seen' : list (Z * T))
    (r : option (Z * T)) : Prop :=
  match r with
  | Some (s, v) => s = p /\ p' = p + 1 /\ seen' = (p, v) :: seen
  | None => p' = p /\ seen' = seen
  end.

Lemma try_consume_visible_safe C p d nd seen :
  kinv C p d ->
  csafe (fun p' d' nd' seen' '(C', r) => kinv C' p' d' /\ nd' = nd /\ took_next p seen p' seen' r)
    p d nd seen (try_consume_visible capacity C).
Proof.
  intros HC. pose proof HC as (?&?&?). unfold try_consume_visible. cbn [Memory.csafe].
  rewrite decide_True by done. destruct (_ <=? _) eqn:E; zb; cbn [Memory.csafe]; [done|].
  exists p. split_and!; [lia|lia|done|]. intros v. split; [done|]. split; [lia|].
  split_and!; try done; unfold kinv; cbn; lia.
Qed.

Lemma spsc_try_consume_safe C p d nd seen :
  kinv C p d ->
  csafe (fun p' d' nd' seen' '(C', r) => kinv C' p' d' /\ nd' = nd /\ took_next p seen p' seen' r)
    p d nd seen (try_consume capacity C).
Proof.
  intros HC. unfold try_consume. apply csafe_bind.
  eapply csafe_mono; [|by apply try_consume_visible_safe].
  intros p' d' nd' seen' [C' [[s v]|]] (HC'&->&Hr); [by cbn [Memory.csafe]|].
  destruct Hr as [-> ->]. apply csafe_bind. eapply spsc_refresh_safe; [done|]. intros C'' d'' HC''.
  by apply try_consume_visible_safe.
Qed.

Lemma spsc_consume_batch_safe C buf_len max p d nd seen :
  kinv C p d ->
  csafe (fun p' d' nd' seen' '(C', vs) => kinv C' p' d' /\ nd' = nd /\
    p' = p + len vs /\ Consuming.copied seen' p vs) p d nd seen (consume_batch capacity C buf_len max).
Proof.
  intros (?&?&?). unfold consume_batch. cbn [Memory.csafe]. rewrite decide_True by done.
  split; [done|]. intros v Hv. pose proof capacity_range.
  rewrite Producing.wsub_exact by lia. cbn zeta. destruct (_ =? 0) eqn:E; zb.
  { cbn [Memory.csafe]. split_and!; try done; unfold kinv; cbn; lia. }
  set (cnt := Z.to_nat _). assert (Z.of_nat cnt <= v - p) by lia. clearbody cnt.
  apply csafe_bind. eapply csafe_mono; [|apply Consuming.read_slots_safe; lia].
  intros p' d' nd' seen' vs (->&->&->&Hlen&_&Hcp). cbn [Memory.csafe].
  split; [done|]. split; [lia|]. rewrite Hlen. split_and!; try done; unfold kinv; cbn; lia.
Qed.
End sides.
End Sides.

(** ** Callers *)
Module Clients.
Import Memory Queue Sides.

Section clients.
Context {T : Type} `{!Inhabited T}.
Variable capacity : Z.
Local Notation prog := (prog T).

(** Any finite run of calls on the producer's end, each decided by the results
    so far; the queue has no calling rule beyond one thread per end. *)
Inductive producer_client : producer -> prog unit -> Prop :=
| pc_done P : producer_client P (Ret tt)
| pc_try_push_with P f k :
    (forall P' r, producer_client P' (k P' r)) ->
    producer_client P (bind (try_push_with capacity P f) (fun '(P', r) => k P' r))
| pc_push_with P fuel f k :
    (forall P' r, producer_client P' (k P' r)) ->
    producer_client P (bind (push_with capacity fuel P f) (fun '(P', r) => k P' r))
| pc_push_with_unless P fuel f stop k :
    (forall P' r, producer_client P' (k P' r)) ->
    producer_client P (bind (push_with_unless capacity fuel P f stop) (fun '(P', r) => k P' r))
| pc_flush P k :
    (forall P', producer_client P' (k P')) -> producer_client P (bind (flush P) k)
| pc_try_publish P v k :
    (forall P' r, producer_client P' (k P' r)) ->
    producer_client P (bind (try_publish capacity P v) (fun '(P', r) => k P' r))
| pc_publish P fuel v k :
    (forall P' r, producer_client P' (k P' r)) ->
    producer_client P (bind (publish capacity fuel P v) (fun '(P', r) => k P' r)).

(** The consumer's end; what a call returns is taken before the next one. *)
Inductive consumer_client : consumer -> prog unit -> Prop :=
| kc_done C : consumer_client C (Ret tt)
| kc_refresh C k : (forall C', consumer_client C' (k C')) -> consumer_client C (bind (refresh C) k)
| kc_try_consume_visible C k :
    (forall C' r, consumer_client C' (k C' r)) ->
    consumer_client C (bind (try_consume_visible capacity C) (fun '(C', r) =>
      match r with Some (s, v) => Deliver v (k C' r) | None => k C' r end))
| kc_try_consume C k :
    (forall C' r, consumer_client C' (k C' r)) ->
    consumer_client C (bind (try_consume capacity C) (fun '(C', r) =>
      match r with Some (s, v) => Deliver v (k C' r) | None => k C' r end))
| kc_consume_batch C buf_len max k :
    (forall C' vs, consumer_client C' (k C' vs)) ->
    consumer_client C (bind (consume_batch capacity C buf_len max) (fun '(C', vs) =>
      Disruptor.Clients.deliver_all vs (k C' vs))).

Section safe.
Hypothesis capacity_ok : Ring.new_ok capacity = true.

Local Tactic Notation "pcall" uconstr(lem) := apply psafe_bind; eapply psafe_mono; [|by eapply lem].
Local Tactic Notation "ccall" uconstr(lem) := apply csafe_bind; eapply csafe_mono; [|by eapply lem].

Lemma spsc_push_with_safe fuel P (f : T -> T) (h pend : list T) lb :
  sinv capacity P h pend lb ->
  psafe capacity [0%nat] (fun h' pend' lb' '(P', r) => sinv capacity P' h' pend' lb' /\
    match r with
    | Some seq => seq = Z.of_nat (length (h ++ pend)) /\ exists old, h' ++ pend' = h ++ pend ++ [f old]
    | None => h' ++ pend' = h ++ pend
    end) h pend lb (push_with capacity fuel P f).
Proof using All.
  intros HP. unfold push_with. pcall push_with_until_safe.
  intros h' pend' lb' [P' r] [? Hr]. cbn [psafe]. split; [done|].
  destruct r as [[seq|[]]|]; [done| |done]. by destruct Hr.
Qed.

Lemma spsc_producer_client_safe P k h pend lb :
  producer_client P k -> sinv capacity P h pend lb ->
  psafe capacity [0%nat] (fun _ _ _ _ => True) h pend lb k.
Proof using All.
  intros Hk. revert h pend lb.
  induction Hk as [P|P f k _ IH|P fuel f k _ IH|P fuel f stop k _ IH|P k _ IH|P v k _ IH|P fuel v k _ IH];
    intros h pend lb HP.
  - done.
  - pcall spsc_try_push_with_safe. intros h' pend' lb' [P' r] (?&_). by apply IH.
  - pcall spsc_push_with_safe. intros h' pend' lb' [P' r] (?&_). by apply IH.
  - pcall push_with_until_safe. intros h' pend' lb' [P' r] (?&_). by apply IH.
  - apply psafe_bind. eapply flush_safe; [done|]. intros P' HP'. by apply IH.
  - apply psafe_bind. unfold try_publish. pcall spsc_try_push_with_safe.
    intros h' pend' lb' [P' r] (HP'&_). destruct r; [|by apply IH].
    apply psafe_bind. eapply flush_safe; [done|]. intros P'' HP''. by apply IH.
  - apply psafe_bind. unfold publish. pcall spsc_push_with_safe.
    intros h' pend' lb' [P' r] (HP'&_). destruct r; [|by apply IH].
    apply psafe_bind. eapply flush_safe; [done|]. intros P'' HP''. by apply IH.
Qed.

Lemma took_safe p seen p' seen' (r : option (Z * T)) d nd (k : _ -> prog unit) Q :
  took_next p seen p' seen' r -> Z.of_nat nd = p ->
  (forall nd', Z.of_nat nd' = p' -> csafe capacity 0 None Q p' d nd' seen' (k r)) ->
  csafe capacity 0 None Q p' d nd seen'
    (match r with Some (s, v) => Deliver v (k r) | None => k r end).
Proof using Type.
  intros Hr Hnd Hk. destruct r as [[s v]|]; cbn [took_next csafe] in *.
  - destruct Hr as (->&->&->). split; [rewrite Hnd; left|]. apply Hk. lia.
  - destruct Hr as [-> ->]. by apply Hk.
Qed.

Lemma spsc_consumer_client_safe C k p d nd seen :
  consumer_client C k -> kinv capacity C p d -> Z.of_nat nd = p ->
  csafe capacity 0 None (fun _ _ _ _ _ => True) p d nd seen k.
Proof using All.
  intros Hk. revert p d nd seen.
  induction Hk as [C|C k _ IH|C k _ IH|C k _ IH|C bl max k _ IH]; intros p d nd seen HC Hnd.
  - done.
  - apply csafe_bind. eapply spsc_refresh_safe; [done|]. intros. by apply IH.
  - ccall try_consume_visible_safe. intros p' d' nd' seen' [C' r] (?&->&Hr).
    apply (took_safe p seen p' seen' r d' nd (k C')); [done..|]. intros. by apply IH.
  - ccall spsc_try_consume_safe. intros p' d' nd' seen' [C' r] (?&->&Hr).
    apply (took_safe p seen p' seen' r d' nd (k C')); [done..|]. intros. by apply IH.
  - ccall spsc_consume_batch_safe. intros p' d' nd' seen' [C' vs] (?&->&->&Hcp).
    apply Disruptor.Clients.deliver_all_safe; [by rewrite Hnd|]. apply IH; [done|lia].
Qed.
End safe.

(** C39: Any run of a single-producer single-consumer queue is sound and bounded:
    whatever calls its two ends make and however their memory accesses interleave,
    no slot is written while the consumer is about to read it, no index leaves the
    slot array, the unread entries never exceed the capacity, and the entries the
    consumer has taken, in order, are the ones published at those positions. *)
Theorem spsc_sound P C (prod cons : prog unit) (c : config T) :
  channel capacity = Some (P, C) -> producer_client P prod -> consumer_client C cons ->
  reachable capacity (Adequacy.initial capacity [None] prod [cons]) c ->
  Adequacy.sound capacity [None] (fun _ _ _ _ => True) c.
Proof.
  unfold channel. destruct (Ring.new_ok capacity) eqn:Hcap; intros Hch; [|done].
  injection Hch as <- <-. intros Hp Hc. pose proof (Producing.new_ok_pow2 _ Hcap) as [Hk ?].
  apply Adequacy.adequate; [done| |done| |done|].
  - apply Builder.built_wf. exact (Builder.built_add [] Builder.built_new).
  - eapply spsc_producer_client_safe; [done|exact Hp|]. constructor; cbn; try (widths; lia).
    exists 0. split; [done|lia].
  - intros [|[]] dep k Hd Hkk; [|done..]. cbn in Hd, Hkk. simplify_eq.
    eapply spsc_consumer_client_safe; [done|exact Hc| |done]. unfold kinv; cbn; lia.
Qed.
End clients.
End Clients.

(** ** Waiting *)
Module Wait.

(** Durations are in microseconds. *)
Definition SPIN_BUDGET : Z := 1000.
Definition YIELD_BUDGET : Z := 100.
Definition IDLE_CEILING : Z := SPIN_BUDGET + YIELD_BUDGET.
Definition PARK_MIN : Z := 50.
Definition PARK_MAX : Z := 200.

Inductive wait_strategy : Type := BusySpin | SpinThenYield | SpinYieldPark.
#[export] Instance wait_strategy_eq_dec : EqDecision wait_strategy.
Proof. solve_decision. Defined.

Inductive phase : Type := Spin | Yield | Park.

Record waiter : Type := Waiter { strategy : wait_strategy; idle : Z; park : Z }.

Definition new_waiter (s : wait_strategy) : waiter := Waiter s 0 PARK_MIN.

Definition phase_of (w : waiter) : phase :=
  if bool_decide (strategy w = BusySpin) || (idle w <? SPIN_BUDGET) then Spin
  else if bool_decide (strategy w = SpinThenYield) || (idle w <? IDLE_CEILING) then Yield
  else Park.

(** What one idle turn does to the thread. *)
Inductive pause : Type := SpinLoop | YieldNow | Sleep (micros : Z).

Definition do_park (w : waiter) : waiter * pause :=
  (Waiter (strategy w) (idle w) (Z.min (park w * 2) PARK_MAX), Sleep (park w)).

Definition do_idle (w : waiter) : waiter * pause :=
  let p := phase_of w in
  let w := if idle w <? IDLE_CEILING then Waiter (strategy w) (idle w + 1) (park w) else w in
  match p with Spin => (w, SpinLoop) | Yield => (w, YieldNow) | Park => do_park w end.

Definition reset (w : waiter) : waiter := Waiter (strategy w) 0 PARK_MIN.
Definition spinning (w : waiter) : bool := match phase_of w with Spin => true | _ => false end.
Definition past_spin_budget (w : waiter) : bool := SPIN_BUDGET <=? idle w.

(** [wait_until] over the answers [ready] gives in turn: how often it paused, and
    whether it returned. *)
Fixpoint wait_from (w : waiter) (ready : list bool) : list pause * bool :=
  match ready with
  | [] => ([], false)
  | true :: _ => ([], true)
  | false :: rest =>
      let '(w, p) := do_idle w in
      let '(ps, done) := wait_from w rest in (p :: ps, done)
  end.
Definition wait_until (s : wait_strategy) (ready : list bool) : list pause * bool :=
  wait_from (new_waiter s) ready.

(** The schedule the strategies document: the [i]-th consecutive idle turn. *)
Definition schedule (s : wait_strategy) (i : Z) : pause :=
  match s with
  | BusySpin => SpinLoop
  | SpinThenYield => if i <? 1000 then SpinLoop else YieldNow
  | SpinYieldPark =>
      if i <? 1000 then SpinLoop else if i <? 1100 then YieldNow
      else Sleep (Z.min (50 * 2 ^ (i - 1100)) 200)
  end.

(** A waiter after [i] idle turns. *)
Definition waited (s : wait_strategy) (i : Z) (w : waiter) : Prop :=
  strategy w = s /\ idle w = Z.min i 1100 /\
  (s = SpinYieldPark -> park w = if i <? 1100 then 50 else Z.min (50 * 2 ^ (i - 1100)) 200).

Lemma park_step i : 1100 <= i -> Z.min (Z.min (50 * 2 ^ (i - 1100)) 200 * 2) 200 =
  Z.min (50 * 2 ^ (i + 1 - 1100)) 200.
Proof.
  intros. replace (i + 1 - 1100) with (Z.succ (i - 1100)) by lia. rewrite Z.pow_succ_r by lia.
  pose proof (Z.pow_pos_nonneg 2 (i - 1100)). lia.
Qed.

Lemma do_idle_schedule s i w :
  0 <= i -> waited s i w -> (do_idle w).2 = schedule s i /\ waited s (i + 1) (do_idle w).1.
Proof.
  intros Hi (Hs&Hidle&Hp). destruct w as [s' n pk]. cbn in Hs, Hidle, Hp. subst s' n.
  unfold do_idle, phase_of, IDLE_CEILING, SPIN_BUDGET, YIELD_BUDGET. cbn [strategy idle park].
  change (1000 + 100) with 1100. destruct s; cbn [bool_decide schedule]; unfold waited.
  - rewrite bool_decide_true by done. cbn. destruct (Z.min i 1100 <? 1100) eqn:E; zb; cbn; split_and!; try done; lia.
  - rewrite bool_decide_false, bool_decide_true by done. cbn.
    destruct (Z.min i 1100 <? 1000) eqn:E1, (i <? 1000) eqn:E2, (Z.min i 1100 <? 1100) eqn:E3; zb;
      cbn; try lia; split_and!; try done; lia.
  - rewrite !bool_decide_false by done. cbn. specialize (Hp eq_refl). subst pk.
    destruct (Z.min i 1100 <? 1000) eqn:E1, (i <? 1000) eqn:E2, (Z.min i 1100 <? 1100) eqn:E3,
      (i <? 1100) eqn:E4, (i + 1 <? 1100) eqn:E5; zb; cbn; try lia; split_and!; try done; try lia; intros _.
    + replace i with 1099 by lia. reflexivity.
    + unfold PARK_MAX. rewrite <- park_step by lia. reflexivity.
Qed.

(** The pauses of a blocked wait are exactly the documented schedule, whatever
    the answers: a busy spinner never gives up its core; a yielding one spins a
    thousand turns, then yields; a parking one then yields a hundred turns and
    sleeps 50, 100 and from then on 200 microseconds, so no pause is longer. The
    wait returns at the first true answer and not before. *)
Theorem wait_schedule (s : wait_strategy) (n : nat) (rest : list bool) :
  wait_until s (replicate n false ++ true :: rest) =
    ((fun i => schedule s (Z.of_nat i)) <$> seq 0 n, true) /\
  wait_until s (replicate n false) = ((fun i => schedule s (Z.of_nat i)) <$> seq 0 n, false) /\
  (forall i m, schedule s i = Sleep m -> PARK_MIN <= m <= PARK_MAX).
Proof.
  assert (Hw : forall k w, waited s (Z.of_nat k) w ->
    wait_from w (replicate n false ++ true :: rest) =
      ((fun i => schedule s (Z.of_nat i)) <$> seq k n, true) /\
    wait_from w (replicate n false) = ((fun i => schedule s (Z.of_nat i)) <$> seq k n, false)).
  { induction n as [|n IH]; intros k w Hw; [done|]. cbn [replicate app wait_from seq fmap list_fmap].
    destruct (do_idle_schedule s (Z.of_nat k) w ltac:(lia) Hw) as [Hp Hw'].
    destruct (do_idle w) as [w' p]. cbn in Hp, Hw'. subst p.
    replace (Z.of_nat k + 1) with (Z.of_nat (S k)) in Hw' by lia.
    destruct (IH (S k) w' Hw') as [-> ->]. done. }
  destruct (Hw 0%nat (new_waiter s)) as [? ?]; [by split_and!|]. split; [done|]. split; [done|].
  intros i m Hm. unfold PARK_MIN, PARK_MAX.
  destruct s; cbn in Hm; [done|by destruct (_ <? _)|].
  destruct (i <? 1000); [done|]. destruct (i <? 1100) eqn:E; [done|]. injection Hm as <-. zb.
  pose proof (Z.pow_pos_nonneg 2 (i - 1100)). lia.
Qed.
End Wait.

Module Sample.
Import Memory Queue Clients.

Definition queue_producer : prog Z unit :=
  bind (try_publish 2 (Producer 0 0 0) 7) (fun '(_, _) => Ret tt).
Definition queue_consumer : prog Z unit :=
  bind (try_consume 2 (Consumer 0)) (fun '(_, r) =>
    match r with Some (_, v) => Deliver v (Ret tt) | None => Ret tt end).
Definition queue_final : config Z :=
  Config 1 [1] [7; 1] [7] (Ret tt) [0] [Cthread (Ret tt) 1 [Some 7]].

Lemma queue_run : reachable 2 (Adequacy.initial 2 [None] queue_producer [queue_consumer]) queue_final.
Proof.
  eapply rtc_l; [by eapply p_write_slot|]. eapply rtc_l; [by eapply p_store_cursor|].
  eapply rtc_l; [by eapply (c_load_own _ _ 0)|].
  eapply rtc_l; [eapply (c_load_cursor _ _ 0 _ _ 1); [reflexivity..|cbn; lia]|].
  eapply rtc_l; [by eapply (c_load_own _ _ 0)|]. eapply rtc_l; [by eapply (c_read_slot _ _ 0)|].
  eapply rtc_l; [by eapply (c_store_processed _ _ 0)|].
  eapply rtc_l; [by eapply (c_deliver _ _ 0)|]. apply rtc_refl.
Qed.

Lemma spsc_sound_witness :
  reachable 2 (Adequacy.initial 2 [None] queue_producer [queue_consumer]) queue_final /\
  Adequacy.sound 2 [None] (fun _ _ _ _ => True) queue_final.
Proof.
  split; [exact queue_run|].
  apply (spsc_sound 2 (Producer 0 0 0) (Consumer 0) queue_producer queue_consumer).
  - reflexivity.
  - apply (pc_try_publish 2 _ 7 (fun _ _ => Ret tt)). intros. constructor.
  - apply (kc_try_consume 2 _ (fun _ _ => Ret tt)). intros. constructor.
  - exact queue_run.
Defined.
End Sample.
