(* ===== verification/Seqlock.v ===== *)
(** * The sequence lock

    One writer publishes a small value to any number of readers without a lock
    ([pipeline/src/seqlock.rs]); the journal stage hands its chain hash to the
    shadow stage this way. [Machine] is a fragment of the C11 memory model: every
    location keeps its stores in order, a load may return any of them that is not
    older than what the thread already knows, a release fence attaches what the
    writer knows to its later stores and an acquire load or fence picks it up.
    [Lock] is the source's methods on it; [Coherent] proves that a reader only ever
    returns values that were stored whole, and never an older one after a newer. *)

From stdpp Require Import sorting.
From S2P Require Import Prelude.

Module Machine.

(** A method as its accesses in program order. [Got] marks a value returned to the
    caller. [fence_acquire] distinguishes the two fences, [acquire] the load's
    ordering. *)
Inductive prog (A : Type) : Type :=
| Ret (a : A)
| SeqLoad (acquire : bool) (k : Z -> prog A)
| SeqStore (v : Z) (k : prog A)
| WordLoad (i : nat) (k : list Z -> prog A)
| WordStore (i : nat) (chunk : list Z) (k : prog A)
| Fence (fence_acquire : bool) (k : prog A)
| Got (v : list Z) (k : prog A).
Arguments Ret {A} a.
Arguments SeqLoad {A} acquire k.
Arguments SeqStore {A} v k.
Arguments WordLoad {A} i k.
Arguments WordStore {A} i chunk k.
Arguments Fence {A} fence_acquire k.
Arguments Got {A} v k.

Fixpoint bind {A B} (p : prog A) (g : A -> prog B) : prog B :=
  match p with
  | Ret a => g a
  | SeqLoad acq k => SeqLoad acq (fun v => bind (k v) g)
  | SeqStore v k => SeqStore v (bind k g)
  | WordLoad i k => WordLoad i (fun c => bind (k c) g)
  | WordStore i c k => WordStore i c (bind k g)
  | Fence a k => Fence a (bind k g)
  | Got v k => Got v (bind k g)
  end.

(** How far a thread, or a message, has seen each location's store order: the
    counter's, and each word's. *)
Record view : Type := View { at_seq : nat; at_words : list nat }.

Fixpoint join_words (a b : list nat) : list nat :=
  match a, b with
  | x :: a, y :: b => Nat.max x y :: join_words a b
  | a, [] => a
  | [], b => b
  end.
Definition join (a b : view) : view :=
  View (Nat.max (at_seq a) (at_seq b)) (join_words (at_words a) (at_words b)).

(** A reader: its remaining accesses, what it knows, what its relaxed loads have
    picked up for the next acquire fence, and the values it has returned. *)
Record reader : Type := Reader {
  rcode : prog unit; rcur : view; racq : view; rlog : list (list Z) }.

(** The cell and its threads. Each location is the list of its stores, oldest
    first, each with the view its writer had released. *)
Record config : Type := Config {
  seq_stores : list (Z * view); word_stores : list (list (list Z * view));
  wcode : prog unit; wcur : view; wrel : view; readers : list reader }.

Definition set_reader (j : nat) (r : reader) (c : config) : config :=
  Config (seq_stores c) (word_stores c) (wcode c) (wcur c) (wrel c) (<[j:=r]> (readers c)).

Definition saw_seq (t : nat) (v : view) : view := View t (at_words v).
Definition saw_word (i t : nat) (v : view) : view := View (at_seq v) (<[i:=t]> (at_words v)).

(** One access of one thread. *)
Inductive step : config -> config -> Prop :=
| w_seq_load c acq k v rel :
    wcode c = SeqLoad acq k -> seq_stores c !! at_seq (wcur c) = Some (v, rel) ->
    step c (Config (seq_stores c) (word_stores c) (k v) (wcur c) (wrel c) (readers c))
| w_seq_store c v k :
    wcode c = SeqStore v k ->
    step c (Config (seq_stores c ++ [(v, wrel c)]) (word_stores c) k
              (saw_seq (length (seq_stores c)) (wcur c)) (wrel c) (readers c))
| w_word_store c i chunk k ms :
    wcode c = WordStore i chunk k -> word_stores c !! i = Some ms ->
    step c (Config (seq_stores c) (<[i:=ms ++ [(chunk, wrel c)]]> (word_stores c)) k
              (saw_word i (length ms) (wcur c)) (wrel c) (readers c))
| w_fence c k :
    wcode c = Fence false k ->
    step c (Config (seq_stores c) (word_stores c) k (wcur c) (wcur c) (readers c))
| r_seq_load c j r acq k t v rel :
    readers c !! j = Some r -> rcode r = SeqLoad acq k ->
    (at_seq (rcur r) <= t)%nat -> seq_stores c !! t = Some (v, rel) ->
    step c (set_reader j
      (let cur := saw_seq t (rcur r) in
       if acq : bool then Reader (k v) (join cur rel) (racq r) (rlog r)
       else Reader (k v) cur (join (racq r) rel) (rlog r)) c)
| r_word_load c j r i k ms known t chunk rel :
    readers c !! j = Some r -> rcode r = WordLoad i k -> word_stores c !! i = Some ms ->
    at_words (rcur r) !! i = Some known -> (known <= t)%nat -> ms !! t = Some (chunk, rel) ->
    step c (set_reader j
      (Reader (k chunk) (saw_word i t (rcur r)) (join (racq r) rel) (rlog r)) c)
| r_fence c j r k :
    readers c !! j = Some r -> rcode r = Fence true k ->
    step c (set_reader j (Reader k (join (rcur r) (racq r)) (racq r) (rlog r)) c)
| r_got c j r v k :
    readers c !! j = Some r -> rcode r = Got v k ->
    step c (set_reader j (Reader k (rcur r) (racq r) (rlog r ++ [v])) c).

Definition reachable (c c' : config) : Prop := rtc step c c'.
End Machine.

Module Lock.
Import Machine.

(** The payload's words: eight-byte chunks, then the odd bytes one by one
    ([while offset + 8 <= size], [while offset < size]). *)
Fixpoint words_from (fuel : nat) (bytes : list Z) : list (list Z) :=
  match fuel with
  | O => []
  | S n =>
      if (8 <=? length bytes)%nat then take 8 bytes :: words_from n (drop 8 bytes)
      else match bytes with [] => [] | b :: rest => [b] :: words_from n rest end
  end.
Definition words (bytes : list Z) : list (list Z) := words_from (length bytes) bytes.

(** How many words a payload of [size] bytes has. *)
Definition word_count (size : nat) : nat := (size / 8 + size mod 8)%nat.

Fixpoint store_words {A} (i : nat) (ws : list (list Z)) (k : prog A) : prog A :=
  match ws with [] => k | w :: rest => WordStore i w (store_words (S i) rest k) end.
Definition atomic_store_copy {A} (value : list Z) (k : prog A) : prog A :=
  store_words 0 (words value) k.

Fixpoint load_words (i n : nat) : prog (list Z) :=
  match n with
  | O => Ret []
  | S m => WordLoad i (fun c => bind (load_words (S i) m) (fun rest => Ret (c ++ rest)))
  end.
Definition atomic_load_copy (size : nat) : prog (list Z) := load_words 0 (word_count size).

(** [SeqLockWriter::store]. *)
Definition store (value : list Z) : prog unit :=
  SeqLoad false (fun seq =>
  SeqStore (wrapping_add seq 1)
  (Fence false
  (atomic_store_copy value
  (Fence false
  (SeqStore (wrapping_add seq 2) (Ret tt)))))).

(** [SeqLockReader::load]; [fuel] bounds the retries, [None] is one still
    retrying. *)
Fixpoint load (fuel size : nat) : prog (option (list Z)) :=
  match fuel with
  | O => Ret None
  | S n =>
      SeqLoad true (fun seq1 =>
      if negb (Z.land seq1 1 =? 0) then load n size
      else
        bind (atomic_load_copy size) (fun value =>
        Fence true
        (SeqLoad false (fun seq2 =>
        if seq1 =? seq2 then Ret (Some value) else load n size))))
  end.

(** The one writer storing [vs] in turn, and a reader calling [load] over and
    over. *)
Fixpoint store_all (vs : list (list Z)) : prog unit :=
  match vs with [] => Ret tt | v :: rest => bind (store v) (fun _ => store_all rest) end.
Fixpoint load_all (n fuel size : nat) : prog unit :=
  match n with
  | O => Ret tt
  | S m => bind (load fuel size) (fun r =>
           match r with Some v => Got v (load_all m fuel size) | None => load_all m fuel size end)
  end.

(** [split]: the cell holding [v0], and its threads. *)
Definition split (v0 : list Z) (writer : prog unit) (rs : list (prog unit)) : config :=
  let fresh := View 0 ((fun _ => 0%nat) <$> words v0) in
  Config [(0, fresh)] ((fun w => [(w, fresh)]) <$> words v0) writer fresh fresh
    ((fun k => Reader k fresh fresh []) <$> rs).
End Lock.

Module Coherent.
Import Machine Lock.

Lemma words_from_spec n bs :
  (length bs <= n)%nat ->
  concat (words_from n bs) = bs /\ length (words_from n bs) = word_count (length bs).
Proof.
  revert bs. induction n as [|n IH]; intros bs Hn.
  { destruct bs; [done|cbn in Hn; lia]. }
  cbn [words_from]. destruct (8 <=? length bs)%nat eqn:E.
  - apply Nat.leb_le in E. destruct (IH (drop 8 bs)) as [Hc Hl]; [rewrite length_drop; lia|].
    cbn [concat length]. rewrite Hc, Hl, take_drop, length_drop. split; [done|]. unfold word_count.
    replace (length bs) with (length bs - 8 + 1 * 8)%nat at 3 4 by lia.
    rewrite Nat.div_add, Nat.Div0.mod_add by lia. lia.
  - apply Nat.leb_gt in E. destruct bs as [|b rest]; [done|].
    destruct (IH rest) as [Hc Hl]; [cbn in Hn; lia|]. cbn [concat length app] in *. rewrite Hc, Hl.
    split; [done|]. unfold word_count.
    rewrite !Nat.div_small, !Nat.mod_small by lia. done.
Qed.

Lemma concat_words bs : concat (words bs) = bs.
Proof. by apply words_from_spec. Qed.
Lemma length_words bs : length (words bs) = word_count (length bs).
Proof. by apply words_from_spec. Qed.

Lemma fmap_zeros {A} (l : list A) : (fun _ => 0%nat) <$> l = replicate (length l) 0%nat.
Proof. induction l as [|x l IH]; [done|]. cbn. by rewrite <- IH. Qed.

Lemma join_words_l a b i x : a !! i = Some x -> exists y, join_words a b !! i = Some y /\ (x <= y)%nat.
Proof.
  revert b i. induction a as [|z a IH]; intros [|w b] [|i] Hi; cbn in *; try done;
    [eauto|eauto|simplify_eq; eexists; split; [done|lia]|by apply IH].
Qed.
Lemma join_words_r a b i x : b !! i = Some x -> exists y, join_words a b !! i = Some y /\ (x <= y)%nat.
Proof.
  revert b i. induction a as [|z a IH]; intros [|w b] [|i] Hi; cbn in *; try done;
    [eauto|eauto|simplify_eq; eexists; split; [done|lia]|by apply IH].
Qed.

Section coherent.
Variables (vals : list (list Z)) (size : nat).
Hypothesis vals_size : Forall (fun v => length v = size) vals.
Hypothesis few : 2 * Z.of_nat (length vals) < 2 ^ 64.

Local Notation n := (word_count size).

(** Word [i] of the [m]-th value. *)
Definition chunk_of (m i : nat) (c : list Z) : Prop :=
  exists v, vals !! m = Some v /\ words v !! i = Some c.

Lemma vals_words m v : vals !! m = Some v -> length (words v) = n.
Proof using vals_size.
  intros Hv. rewrite length_words. f_equal. rewrite Forall_lookup in vals_size. eauto.
Qed.

(** All words known to be at least at the [k]-th value. *)
Definition words_at_least (k : nat) (ws : list nat) : Prop :=
  forall i, (i < n)%nat -> exists r, ws !! i = Some r /\ (k <= r)%nat.

(** What the writer keeps to: [t] counter stores and [cs] word stores made, [rel]
    what its last release fence covered. The counter goes up by one each time,
    an even count is stored only once every word of its value is covered by the
    fence, and a word of the next value only once the odd count is. *)
Fixpoint wsafe (t : nat) (cs : list nat) (rel : view) (p : prog unit) : Prop :=
  match p with
  | Ret _ => True
  | SeqLoad _ k => wsafe t cs rel (k (Z.of_nat t mod 2 ^ 64))
  | SeqStore v k =>
      v = Z.of_nat (S t) mod 2 ^ 64 /\ (S t <= 2 * (length vals - 1))%nat /\
      (forall k', S t = (2 * k')%nat -> words_at_least k' (at_words rel)) /\ wsafe (S t) cs rel k
  | WordStore i c k =>
      exists m, cs !! i = Some m /\ chunk_of (S m) i c /\ (2 * S m - 1 <= at_seq rel)%nat /\
        wsafe t (<[i:=S m]> cs) rel k
  | Fence false k => wsafe t cs (View t cs) k
  | _ => False
  end.

(** What a reader is owed: it knows the counter at [s], every word at least at
    the [w]-th value, and will know the counter at [a] after an acquire fence;
    [last] is the value it returned last. *)
Fixpoint rsafe {A} (Q : nat -> nat -> nat -> nat -> A -> Prop) (s w a last : nat) (p : prog A) : Prop :=
  match p with
  | Ret x => Q s w a last x
  | SeqLoad acq k =>
      forall t, (s <= t <= 2 * (length vals - 1))%nat -> forall s' w', (t <= s')%nat ->
        (w <= w')%nat -> (acq = true -> forall k', t = (2 * k')%nat -> (k' <= w')%nat) ->
        rsafe Q s' w' a last (k (Z.of_nat t mod 2 ^ 64))
  | WordLoad i k =>
      (i < n)%nat /\ forall m c, (w <= m)%nat -> chunk_of m i c ->
        rsafe Q s w (Nat.max a (2 * m - 1)) last (k c)
  | Fence true k => forall s', (Nat.max s a <= s')%nat -> rsafe Q s' w a last k
  | Got v k => exists m, vals !! m = Some v /\ (last <= m)%nat /\ rsafe Q s w a m k
  | _ => False
  end.

Lemma rsafe_bind {A B} (g : A -> prog B) Q s w a last p :
  rsafe (fun s w a last x => rsafe Q s w a last (g x)) s w a last p -> rsafe Q s w a last (bind p g).
Proof using Type.
  revert s w a last. induction p as [x|acq k IH|v k IH|i k IH|i c k IH|acq k IH|v k IH];
    intros s w a last Hp; cbn [rsafe bind] in *; try done.
  - intros t Ht s' w' Hs Hw Hk. apply IH. by apply Hp.
  - destruct Hp as [? Hp]. split; [done|]. intros m c Hm Hc. apply IH. by apply Hp.
  - destruct acq; [|done]. intros s' Hs. apply IH. by apply Hp.
  - destruct Hp as (m&?&?&?). exists m. split_and!; [done..|]. by apply IH.
Qed.

Lemma rsafe_mono {A} (Q R : nat -> nat -> nat -> nat -> A -> Prop) s w a last p :
  (forall s w a last x, Q s w a last x -> R s w a last x) ->
  rsafe Q s w a last p -> rsafe R s w a last p.
Proof using Type.
  intros HQ. revert s w a last. induction p as [x|acq k IH|v k IH|i k IH|i c k IH|acq k IH|v k IH];
    intros s w a last Hp; cbn [rsafe] in *; try done; try (destruct acq; [|done]); naive_solver.
Qed.

(** The stores made so far: each counter value is its position, an even one
    carries every word of its value, and each word carries the odd count before
    it. *)
Definition seq_ok (ss : list (Z * view)) : Prop :=
  forall t v rel, ss !! t = Some (v, rel) ->
    v = Z.of_nat t mod 2 ^ 64 /\ forall k, t = (2 * k)%nat -> words_at_least k (at_words rel).
Definition words_ok (ws : list (list (list Z * view))) : Prop :=
  forall i ms m c rel, ws !! i = Some ms -> ms !! m = Some (c, rel) ->
    chunk_of m i c /\ (2 * m - 1 <= at_seq rel)%nat.

(** Values returned are stored ones, in storing order. *)
Definition in_order (log : list (list Z)) (last : nat) : Prop :=
  exists ks, Forall2 (fun k v => vals !! k = Some v) ks log /\
    StronglySorted le ks /\ Forall (fun k => (k <= last)%nat) ks.

Definition reader_ok (r : reader) : Prop :=
  exists w a last, words_at_least w (at_words (rcur r)) /\ (a <= at_seq (racq r))%nat /\
    in_order (rlog r) last /\ rsafe (fun _ _ _ _ _ => True) (at_seq (rcur r)) w a last (rcode r).

Record inv (c : config) : Prop := Inv {
  inv_t : length (seq_stores c) = S (at_seq (wcur c));
  inv_max : (at_seq (wcur c) <= 2 * (length vals - 1))%nat;
  inv_words : forall i, (length <$> (word_stores c !! i)) = (S <$> (at_words (wcur c) !! i));
  inv_nwords : length (word_stores c) = n;
  inv_wsafe : wsafe (at_seq (wcur c)) (at_words (wcur c)) (wrel c) (wcode c);
  inv_seq : seq_ok (seq_stores c);
  inv_word : words_ok (word_stores c);
  inv_readers : Forall reader_ok (readers c) }.

Lemma words_at_least_join k a b :
  words_at_least k a -> words_at_least k (join_words a b).
Proof using vals.
  intros Ha i Hi. destruct (Ha i Hi) as (r&Hr&?). destruct (join_words_l a b i r Hr) as (y&?&?).
  exists y. split; [done|lia].
Qed.

Lemma words_at_least_max k q a b :
  words_at_least k a -> words_at_least q b -> words_at_least (Nat.max k q) (join_words a b).
Proof using vals.
  intros Ha Hb i Hi. destruct (Ha i Hi) as (x&Hx&?), (Hb i Hi) as (z&Hz&?).
  destruct (join_words_l a b i x Hx) as (y&?&?), (join_words_r a b i z Hz) as (y'&?&?).
  simplify_eq. exists y. split; [done|lia].
Qed.

Lemma words_at_least_insert k ws i t r :
  words_at_least k ws -> ws !! i = Some r -> (r <= t)%nat -> words_at_least k (<[i:=t]> ws).
Proof using vals.
  intros Hw Hi Ht i' Hi'. destruct (Hw i' Hi') as (x&Hx&?). destruct (decide (i' = i)) as [->|].
  - simplify_eq. exists t. rewrite list_lookup_insert_eq by (by eapply lookup_lt_Some).
    split; [done|lia].
  - exists x. by rewrite list_lookup_insert_ne.
Qed.

(** A reader's move leaves the cell and the other threads alone. *)
Lemma inv_set_reader c j r r' :
  inv c -> readers c !! j = Some r -> (reader_ok r -> reader_ok r') -> inv (set_reader j r' c).
Proof using vals.
  intros [] Hr Hok. constructor; cbn; try done. apply Forall_insert; [done|].
  apply Hok. by eapply Forall_lookup_1.
Qed.

Lemma seqlock_inv_step c c' : inv c -> step c c' -> inv c'.
Proof using few.
  intros HI Hstep. pose proof (inv_seq _ HI) as Hseq. pose proof (inv_word _ HI) as Hword.
  pose proof (inv_t _ HI) as Ht. pose proof (inv_max _ HI) as Hmax.
  destruct Hstep as [c acq k v rel Hk Hv|c v k Hk|c i chunk k ms Hk Hms|c k Hk
    |c j r acq k t v rel Hr Hk Hle Hv|c j r i k ms known t chunk rel Hr Hk Hms Hkn Hle Hm
    |c j r k Hr Hk|c j r v k Hr Hk].
  - destruct HI. rewrite Hk in inv_wsafe0. cbn [wsafe] in inv_wsafe0.
    destruct (Hseq _ _ _ Hv) as [-> _]. by constructor.
  - destruct HI. rewrite Hk in inv_wsafe0. cbn [wsafe] in inv_wsafe0.
    destruct inv_wsafe0 as (->&Hle&Hrel&Hs). constructor; cbn; try done.
    + rewrite length_app. cbn. lia.
    + lia.
    + by rewrite Ht.
    + intros t v rel [Hv|[Hge Hv]]%lookup_app_Some; [by eapply Hseq|].
      destruct (t - _)%nat as [|q] eqn:E; cbn in Hv; [|by destruct q]. simplify_eq.
      replace t with (S (at_seq (wcur c))) by lia. done.
  - destruct HI. rewrite Hk in inv_wsafe0. cbn [wsafe] in inv_wsafe0.
    destruct inv_wsafe0 as (m&Hm&Hc&Hrel&Hs).
    assert (Hlen : length ms = S m).
    { specialize (inv_words0 i). rewrite Hms, Hm in inv_words0. by injection inv_words0. }
    constructor; cbn; try done.
    + intros i'. destruct (decide (i' = i)) as [->|].
      * rewrite !list_lookup_insert_eq by (by eapply lookup_lt_Some). cbn. f_equal.
        rewrite length_app. cbn. lia.
      * rewrite !list_lookup_insert_ne by done. done.
    + by rewrite length_insert.
    + by rewrite Hlen.
    + intros i' ms' m' c' rel' Hi' Hm'. destruct (decide (i' = i)) as [->|].
      * rewrite list_lookup_insert_eq in Hi' by (by eapply lookup_lt_Some). injection Hi' as <-.
        apply lookup_app_Some in Hm' as [Hm'|[Hge Hm']]; [by eapply Hword|].
        destruct (m' - _)%nat as [|q] eqn:E; cbn in Hm'; [|by destruct q]. simplify_eq.
        replace m' with (S m) by lia. done.
      * rewrite list_lookup_insert_ne in Hi' by done. by eapply Hword.
  - destruct HI. rewrite Hk in inv_wsafe0. cbn [wsafe] in inv_wsafe0. constructor; cbn; try done.
    by destruct (wcur c).
  - eapply inv_set_reader; [done..|]. intros (w&a&last&Hw&Ha&Hlog&Hs).
    rewrite Hk in Hs. cbn [rsafe] in Hs. destruct (Hseq _ _ _ Hv) as [-> Hrel].
    assert (Htmax : (t <= 2 * (length vals - 1))%nat) by (apply lookup_lt_Some in Hv; lia).
    destruct acq; cbn.
    + destruct (Nat.Even_Odd_dec t) as [[q ->]|[q ->]].
      * exists (Nat.max w q), a, last. cbn -[Nat.max Nat.mul]. split_and!; [|done|done|apply Hs; lia].
        by apply words_at_least_max, Hrel.
      * exists w, a, last. cbn -[Nat.max Nat.mul]. split_and!; [by apply words_at_least_join|done|done|].
        apply Hs; lia.
    + exists w, a, last. cbn. split_and!; [done|lia|done|]. by apply Hs.
  - eapply inv_set_reader; [done..|]. intros (w&a&last&Hw&Ha&Hlog&Hs).
    rewrite Hk in Hs. cbn [rsafe] in Hs. destruct Hs as [Hi Hs].
    destruct (Hword _ _ _ _ _ Hms Hm) as [Hc Hrel].
    destruct (Hw i Hi) as (x&Hx&?). simplify_eq.
    exists w, (Nat.max a (2 * t - 1)), last. cbn -[Nat.mul Nat.max]. split_and!.
    + by eapply words_at_least_insert.
    + lia.
    + done.
    + apply Hs; [lia|done].
  - eapply inv_set_reader; [done..|]. intros (w&a&last&Hw&Ha&Hlog&Hs).
    rewrite Hk in Hs. cbn [rsafe] in Hs. exists w, a, last. cbn -[Nat.max]. split_and!; [|done|done|].
    + by apply words_at_least_join.
    + apply Hs. lia.
  - eapply inv_set_reader; [done..|]. intros (w&a&last&Hw&Ha&Hlog&Hs).
    rewrite Hk in Hs. cbn [rsafe] in Hs. destruct Hs as (m&Hm&Hle&Hs).
    exists w, a, m. cbn. split_and!; [done|done| |done].
    destruct Hlog as (ks&Hks&Hsort&Hall). exists (ks ++ [m]). split_and!.
    + apply Forall2_app; [done|]. by constructor.
    + apply StronglySorted_app. split_and!; [|done|repeat constructor].
      intros x y Hx ->%list_elem_of_singleton. rewrite Forall_forall in Hall. specialize (Hall x Hx). lia.
    + apply Forall_app. split; [|by constructor]. eapply Forall_impl; [done|]. cbn. lia.
Qed.

Lemma seq_exact t : (t <= 2 * (length vals - 1))%nat -> Z.of_nat t mod 2 ^ 64 = Z.of_nat t.
Proof using few. intros. apply Z.mod_small. lia. Qed.

(** ** The writer *)
Lemma store_words_safe t k rel p ws i :
  (forall j c, ws !! j = Some c -> chunk_of (S k) (i + j) c) ->
  (2 * S k - 1 <= at_seq rel)%nat ->
  wsafe t (replicate (i + length ws) (S k)) rel p ->
  wsafe t (replicate i (S k) ++ replicate (length ws) k) rel (store_words i ws p).
Proof using vals.
  revert i. induction ws as [|w ws IH]; intros i Hc Hrel Hp; cbn [store_words length replicate] in *.
  { by rewrite app_nil_r, Nat.add_0_r in *. }
  cbn [wsafe]. exists k. split_and!; [|by specialize (Hc 0%nat w eq_refl); rewrite Nat.add_0_r in Hc|done|].
  { rewrite lookup_app_r, length_replicate by (rewrite length_replicate; done).
    by rewrite Nat.sub_diag. }
  rewrite insert_app_r_alt, length_replicate, Nat.sub_diag by (rewrite length_replicate; done). cbn.
  replace (replicate i (S k) ++ S k :: replicate (length ws) k)
    with (replicate (S i) (S k) ++ replicate (length ws) k).
  2: { by rewrite replicate_S_end, <- app_assoc. }
  apply IH; [|done|by rewrite Nat.add_succ_comm].
  intros j c Hj. rewrite Nat.add_succ_comm. by apply (Hc (S j)).
Qed.

Lemma store_all_safe k vs rel :
  drop (S k) vals = vs -> (k < length vals)%nat ->
  wsafe (2 * k) (replicate n k) rel (store_all vs).
Proof using vals_size few.
  revert k rel. induction vs as [|v vs IH]; intros k rel Hvs Hk; [done|].
  assert (Hv : vals !! S k = Some v).
  { rewrite <- (Nat.add_0_r (S k)), <- lookup_drop. by rewrite Hvs. }
  pose proof (lookup_lt_Some _ _ _ Hv) as Hlt.
  cbn [store_all store bind wsafe atomic_store_copy].
  rewrite seq_exact by lia. unfold wrapping_add. split_and!; [f_equal; lia|lia|lia|].
  assert (Hb : forall i ws (q : prog unit) (g : unit -> prog unit),
            bind (store_words i ws q) g = store_words i ws (bind q g)).
  { intros i ws. revert i. induction ws as [|w ws IHw]; intros i q g; [done|]. cbn. by rewrite IHw. }
  unfold atomic_store_copy. rewrite Hb. pose proof (vals_words _ _ Hv) as Hn. rewrite <- Hn.
  apply (store_words_safe _ k _ _ (words v) 0).
  - intros j c Hj. exists v. done.
  - cbn. lia.
  - cbn [bind wsafe]. rewrite Nat.add_0_l. split_and!; [f_equal; lia|lia| |].
    + intros k' Hk'. cbn. intros i Hi. exists (S k). split; [|lia]. apply lookup_replicate. by rewrite Hn.
    + rewrite Hn. replace (S (S (2 * k))) with (2 * S k)%nat by lia. apply IH; [|lia].
      rewrite <- (Nat.add_1_r (S k)), <- drop_drop, Hvs. done.
Qed.

(** ** The readers *)
Lemma load_words_safe s w a last k i :
  rsafe (fun s' w' a' last' bytes => s' = s /\ w' = w /\ last' = last /\ (a <= a')%nat /\
    exists cs, length cs = k /\ bytes = concat cs /\
      (forall j c, cs !! j = Some c -> exists m, chunk_of m (i + j) c /\
         (w <= m)%nat /\ (2 * m - 1 <= a')%nat))
    s w a last (load_words i k) \/ (n < i + k)%nat.
Proof using vals.
  revert a i. induction k as [|k IH]; intros a i; [left; cbn|].
  { split_and!; try done. exists []. by split_and!. }
  destruct (decide (n < i + S k)%nat) as [|Hlt]; [by right|left].
  cbn [load_words rsafe]. split; [lia|]. intros m c Hm Hc. apply rsafe_bind.
  destruct (IH (Nat.max a (2 * m - 1)) (S i)) as [Hsafe|]; [|lia].
  eapply rsafe_mono; [|exact Hsafe]. cbn [rsafe].
  intros s' w' a' last' bytes (->&->&->&Ha&cs&Hlen&->&Hcs). split_and!; try done; [lia|].
  exists (c :: cs). split_and!; [cbn; lia|done|].
  intros [|j] c' Hj; cbn in Hj.
  - simplify_eq. exists m. rewrite Nat.add_0_r. split_and!; [done|done|lia].
  - rewrite <- Nat.add_succ_comm. by apply Hcs.
Qed.

(** Words that all belong to one value are that value. *)
Lemma chunks_whole m v cs :
  vals !! m = Some v -> length cs = n -> (forall j c, cs !! j = Some c -> chunk_of m j c) ->
  concat cs = v.
Proof using vals_size.
  intros Hv Hlen Hcs. rewrite <- (concat_words v). f_equal.
  apply list_eq_same_length with n; [by eapply vals_words|done|].
  intros j c c' _ Hc Hc'. destruct (Hcs _ _ Hc) as (v'&?&?). simplify_eq. done.
Qed.

Hypothesis vals_some : (0 < length vals)%nat.

Lemma load_safe fuel s w a last :
  (2 * last <= s)%nat ->
  rsafe (fun s' w' a' last' r => last' = last /\
    match r with
    | Some v => exists m, vals !! m = Some v /\ (last <= m)%nat /\ (2 * m <= s')%nat
    | None => (2 * last <= s')%nat
    end) s w a last (load fuel size).
Proof using vals_size few vals_some.
  revert s w a. induction fuel as [|fuel IH]; intros s w a Hs; [by cbn|].
  cbn [load rsafe]. intros t Ht s1 w1 Hs1 Hw1 Hacq. rewrite seq_exact by lia.
  destruct (negb _) eqn:E; [apply IH; lia|]. zb.
  assert (Hev : exists k, t = (2 * k)%nat).
  { destruct (Nat.Even_Odd_dec t) as [[q ->]|[q ->]]; [by exists q|].
    change 1 with (Z.ones 1) in E. rewrite Z.land_ones in E by lia.
    replace (Z.of_nat (2 * q + 1)) with (1 + Z.of_nat q * 2 ^ 1) in E by lia.
    by rewrite Z.mod_add in E. }
  destruct Hev as [k ->]. specialize (Hacq eq_refl k eq_refl).
  apply rsafe_bind. destruct (load_words_safe s1 w1 a last n 0) as [Hl|]; [|lia].
  eapply rsafe_mono; [|exact Hl]. clear Hl.
  intros s' w' a' last' bytes (->&->&->&_&cs&Hlen&->&Hcs). cbn [rsafe].
  intros s2 Hs2 t2 Ht2 s3 w3 Hs3 _ _. rewrite seq_exact by lia.
  destruct (_ =? _) eqn:Eq; zb; [|apply IH; lia]. cbn [rsafe]. split; [done|].
  assert (t2 = 2 * k)%nat as -> by lia.
  destruct (lookup_lt_is_Some_2 vals k) as [v Hv]; [lia|].
  exists k. split_and!; [|lia|lia]. rewrite Hv. f_equal. symmetry. apply (chunks_whole k); [done..|].
  intros j c Hc. destruct (Hcs j c Hc) as (m&Hch&?&?). cbn [Nat.add] in Hch.
  by replace k with m by lia.
Qed.

Lemma load_all_safe m fuel s w a last :
  (2 * last <= s)%nat -> rsafe (fun _ _ _ _ _ => True) s w a last (load_all m fuel size).
Proof using vals_size few vals_some.
  revert s w a last. induction m as [|m IH]; intros s w a last Hs; [done|].
  cbn [load_all]. apply rsafe_bind. eapply rsafe_mono; [|by apply load_safe].
  intros s' w' a' last' r (->&Hr). destruct r as [v|]; [|by apply IH].
  destruct Hr as (k&?&?&?). cbn [rsafe]. exists k. split_and!; [done..|]. by apply IH.
Qed.
End coherent.
End Coherent.

Module Theorems.
Import Machine Lock Coherent.

Lemma inv_split v0 vs size (rs : list (nat * nat)) :
  Forall (fun v => length v = size) (v0 :: vs) -> 2 * Z.of_nat (length (v0 :: vs)) < 2 ^ 64 ->
  inv (v0 :: vs) size
    (split v0 (store_all vs) ((fun '(m, fuel) => load_all m fuel size) <$> rs)).
Proof.
  intros Hsize Hfew. assert (Hn : length (words v0) = word_count size).
  { rewrite length_words. f_equal. by apply Forall_cons in Hsize as [? _]. }
  assert (Hfr : forall k, k = 0%nat -> words_at_least size k ((fun _ => 0%nat) <$> words v0)).
  { intros k -> i Hi. exists 0%nat. split; [|lia]. rewrite list_lookup_fmap.
    destruct (lookup_lt_is_Some_2 (words v0) i) as [w ->]; [lia|done]. }
  constructor; cbn -[Z.of_nat Nat.mul word_count].
  - done.
  - lia.
  - intros i. rewrite !list_lookup_fmap. by destruct (words v0 !! i).
  - by rewrite length_fmap.
  - rewrite fmap_zeros, Hn. apply (store_all_safe (v0 :: vs) size Hsize Hfew 0); [done|cbn; lia].
  - intros [|t] v rel Hv; cbn in Hv; [|by destruct t]. simplify_eq. split; [done|]. intros k ?.
    apply Hfr. lia.
  - intros i ms m c rel Hi Hm. rewrite list_lookup_fmap in Hi.
    destruct (words v0 !! i) as [w|] eqn:Hw; [|done]. cbn in Hi. simplify_eq.
    destruct m as [|m]; cbn in Hm; [|by destruct m]. simplify_eq. split; [by exists v0|cbn; lia].
  - apply Forall_forall. intros r (k&->&Hk)%list_elem_of_fmap.
    apply list_elem_of_fmap in Hk as ([m fuel]&->&_). exists 0%nat, 0%nat, 0%nat. cbn.
    split_and!; [by apply Hfr|lia| |].
    + exists []. split_and!; constructor.
    + apply (load_all_safe (v0 :: vs) size Hsize Hfew); cbn; lia.
Qed.

(** C29: A sequence lock never hands out a torn value. With one writer storing
    values of one size in turn and any number of readers loading over and over, on
    a memory where a relaxed load may return any store not older than what its
    thread knows: every value a reader returns is one that was stored whole (or the
    initial one), and a reader never returns an older value after a newer one. *)
Theorem seqlock_coherent v0 vs size (rs : list (nat * nat)) c j r :
  Forall (fun v => length v = size) (v0 :: vs) -> 2 * Z.of_nat (length (v0 :: vs)) < 2 ^ 64 ->
  reachable (split v0 (store_all vs) ((fun '(m, fuel) => load_all m fuel size) <$> rs)) c ->
  readers c !! j = Some r ->
  exists ks, Forall2 (fun k v => (v0 :: vs) !! k = Some v) ks (rlog r) /\ StronglySorted le ks.
Proof.
  intros Hsize Hfew Hr Hj. pose proof (inv_split v0 vs size rs Hsize Hfew) as HI.
  assert (HI' : inv (v0 :: vs) size c).
  { clear Hj. revert HI. induction Hr as [|x y z Hxy _ IH]; [done|]. intros HI. apply IH.
    by eapply seqlock_inv_step. }
  destruct HI'. rewrite Forall_lookup in inv_readers0.
  destruct (inv_readers0 j r Hj) as (w&a&last&_&_&(ks&Hks&Hsort&_)&_). eauto.
Qed.
End Theorems.

Module Sample.
Import Machine Lock Theorems.

(** A two-byte cell, one store and one load after it. *)
Definition sample_start : config := split [1; 2] (store_all [[3; 4]]) [load_all 1 1 2].

Ltac run_step tac :=
  lazymatch goal with
  | |- rtc step ?X ?Y => let X' := eval cbv -[wrapping_add Z.land Z.eqb] in X in change (rtc step X' Y)
  end; eapply rtc_l; [tac; first [reflexivity|cbn; lia]|].

Lemma sample_done : exists c r, reachable sample_start c /\ readers c !! 0%nat = Some r /\ rlog r = [[3; 4]].
Proof.
  do 2 eexists. split; [|split].
  - unfold reachable. run_step ltac:(eapply w_seq_load). run_step ltac:(eapply w_seq_store).
    run_step ltac:(eapply w_fence). run_step ltac:(eapply w_word_store).
    run_step ltac:(eapply w_word_store). run_step ltac:(eapply w_fence).
    run_step ltac:(eapply w_seq_store). run_step ltac:(eapply (r_seq_load _ 0 _ _ _ 2)).
    run_step ltac:(eapply (r_word_load _ 0 _ _ _ _ _ 1)). run_step ltac:(eapply (r_word_load _ 0 _ _ _ _ _ 1)).
    run_step ltac:(eapply (r_fence _ 0)). run_step ltac:(eapply (r_seq_load _ 0 _ _ _ 2)).
    run_step ltac:(eapply (r_got _ 0)). apply rtc_refl.
  - reflexivity.
  - reflexivity.
Qed.

Lemma seqlock_coherent_witness : exists c r,
  reachable sample_start c /\ readers c !! 0%nat = Some r /\ rlog r = [[3; 4]] /\
  exists ks, Forall2 (fun k v => [[1; 2]; [3; 4]] !! k = Some v) ks (rlog r) /\ StronglySorted le ks.
Proof.
  destruct sample_done as (c & r & Hc & Hr & Hlog). exists c, r.
  split; [exact Hc|]. split; [exact Hr|]. split; [exact Hlog|].
  apply (seqlock_coherent [1; 2] [[3; 4]] 2 [(1%nat, 1%nat)] c 0 r); [|reflexivity|exact Hc|exact Hr].
  repeat constructor.
Defined.
End Sample.
