(* ===== verification/Snapshot.v ===== *)
(** * Snapshot files

    [Format] is the snapshot file ([transport-core/src/snapshot.rs]): its header,
    how a save builds the bytes and how a load judges them; [FormatFacts] that the
    two agree and that a header has one encoding. [Publish] is how a save puts the
    bytes in place: bounded writeback, the rotation to [.prev], the two renames and
    their directory syncs, on a directory that a crash can take back; [CrashSafe]
    what a crash leaves. *)

From S2P Require Import Prelude Lineage Codec.
Import Lineage.Event Lineage.Policy Codec.Le.

Module Format.

(** The application's own codec: [snapshot] writes the payload, [restore] reads it
    and leaves what it did not read. *)
Class SnapshotApp (A : Type) := {
  APP_VERSION : Z;
  snapshot : A -> option (list Z);
  restore : list Z -> option (A * list Z)
}.

Definition SNAP_MAGIC : Z := 0x534E4150.
Definition TRANSPORT_VERSION : Z := 5.
Definition HEADER_SIZE_V1 : nat := 4 + 2 + 2 + 8 + 32.
Definition HEADER_SIZE_V2 : nat := HEADER_SIZE_V1 + 8.
Definition HEADER_SIZE_V3 : nat := HEADER_SIZE_V2 + 8.
Definition HEADER_SIZE_V4 : nat := HEADER_SIZE_V3 + 1 + 1 + 1 + 8.
Definition HEADER_SIZE : nat := HEADER_SIZE_V4 + 8.
Definition CRC_SIZE : nat := 4.
Definition MAX_SNAPSHOT_SIZE : Z := 1024 * 1024 * 1024 * 1024.

Definition LINEAGE_GENESIS_KNOWN : Z := Z.shiftl 1 0.
Definition LINEAGE_ACK_POLICY_KNOWN : Z := Z.shiftl 1 1.
Definition LINEAGE_PREVIOUS_KNOWN : Z := Z.shiftl 1 2.
Definition LINEAGE_UNWITNESSED : Z := Z.shiftl 1 3.
Definition LINEAGE_FLAGS : Z :=
  Z.lor (Z.lor (Z.lor LINEAGE_GENESIS_KNOWN LINEAGE_ACK_POLICY_KNOWN) LINEAGE_PREVIOUS_KNOWN)
    LINEAGE_UNWITNESSED.

Inductive SnapshotError :=
| Io
| Truncated
| BadMagic
| UnsupportedTransportVersion (v : Z)
| UnsupportedAppVersion (v : Z)
| ChecksumMismatch (expected actual : Z)
| TooLarge (size : Z)
| UnreadPayload (n : nat)
| MalformedLineage (flags : Z).

Record SnapshotHeader := {
  app_version : Z;
  sequence : Z;
  chain_hash : list Z;
  lineage : Lineage;
  genesis_entries : option Z;
  tick_watermark : option Z;
  len : nat
}.

Definition has (flags bit : Z) : bool := negb (Z.land flags bit =? 0).

(** The version's header size. *)
Definition header_len (transport_version : Z) : result nat SnapshotError :=
  if transport_version =? 1 then Ok HEADER_SIZE_V1
  else if transport_version =? 2 then Ok HEADER_SIZE_V2
  else if transport_version =? 3 then Ok HEADER_SIZE_V3
  else if transport_version =? 4 then Ok HEADER_SIZE_V4
  else if transport_version =? 5 then Ok HEADER_SIZE
  else Err (UnsupportedTransportVersion transport_version).

(** The lineage fields of versions 4 and 5. *)
Definition lineage_fields (bytes : list Z) : result (option Z * option LineagePolicy) SnapshotError :=
  let genesis := field 56 8 bytes in
  let flags := field 64 1 bytes in
  let policy := field 65 1 bytes in
  let prev := field 66 1 bytes in
  let policy_wire_seq := field 67 8 bytes in
  let malformed :=
    negb (Z.land flags (Z.lxor u8_max LINEAGE_FLAGS) =? 0)
    || (negb (has flags LINEAGE_GENESIS_KNOWN) && negb (genesis =? 0))
    || (negb (has flags LINEAGE_ACK_POLICY_KNOWN)
        && (negb (policy =? 0) || negb (policy_wire_seq =? 0)
            || has flags (Z.lor LINEAGE_PREVIOUS_KNOWN LINEAGE_UNWITNESSED)))
    || (negb (has flags LINEAGE_PREVIOUS_KNOWN) && negb (prev =? 0)) in
  guard? negb malformed else MalformedLineage flags ;;
  Ok (if has flags LINEAGE_GENESIS_KNOWN then Some genesis else None,
      if has flags LINEAGE_ACK_POLICY_KNOWN then
        Some {| change := {| Event.policy := policy; unwitnessed := has flags LINEAGE_UNWITNESSED |};
                wire_seq := policy_wire_seq;
                previous := if has flags LINEAGE_PREVIOUS_KNOWN then Some prev else None |}
      else None).

Definition parse (bytes : list Z) : result SnapshotHeader SnapshotError :=
  guard? negb (length bytes <? HEADER_SIZE_V1)%nat else Truncated ;;
  guard? field 0 4 bytes =? SNAP_MAGIC else BadMagic ;;
  let transport_version := field 4 2 bytes in
  n <-? header_len transport_version ;;
  guard? negb (length bytes <? n)%nat else Truncated ;;
  let ep := if transport_version =? 1 then 0 else field 48 8 bytes in
  let genesis_field := if (HEADER_SIZE_V3 <=? n)%nat then Some (field 56 8 bytes) else None in
  gp <-? (if (transport_version =? 4) || (transport_version =? 5) then lineage_fields bytes
          else Ok (genesis_field, None)) ;;
  Ok {| app_version := field 6 2 bytes; sequence := field 8 8 bytes;
        chain_hash := take 32 (drop 16 bytes);
        lineage := {| epoch := ep; ack_policy := snd gp |};
        genesis_entries := fst gp;
        tick_watermark := if transport_version =? 5 then Some (field HEADER_SIZE_V4 8 bytes) else None;
        len := n |}.

(** The header a save writes. *)
Definition flags_of (genesis : option Z) (p : option LineagePolicy) : Z :=
  let flags := match genesis with Some _ => Z.lor 0 LINEAGE_GENESIS_KNOWN | None => 0 end in
  match p with
  | Some pol =>
    let flags := Z.lor flags LINEAGE_ACK_POLICY_KNOWN in
    let flags := match previous pol with Some _ => Z.lor flags LINEAGE_PREVIOUS_KNOWN | None => flags end in
    if unwitnessed (change pol) then Z.lor flags LINEAGE_UNWITNESSED else flags
  | None => flags
  end.

Definition encode_header (app_ver seq : Z) (chain : list Z) (l : Lineage) (genesis : option Z)
    (watermark : Z) : list Z :=
  let p := ack_policy l in
  le 4 SNAP_MAGIC ++ le 2 TRANSPORT_VERSION ++ le 2 app_ver ++ le 8 seq ++ chain ++ le 8 (epoch l) ++
  le 8 (default 0 genesis) ++ le 1 (flags_of genesis p) ++
  le 1 (match p with Some pol => in_force pol | None => 0 end) ++
  le 1 (match p with Some pol => default 0 (previous pol) | None => 0 end) ++
  le 8 (match p with Some pol => wire_seq pol | None => 0 end) ++ le 8 watermark.

Section files.
Context {A : Type} `{SnapshotApp A} (crc32c : list Z -> Z).

(** The bytes a save writes, or why it writes none. *)
Definition save_bytes (a : A) (seq : Z) (chain : list Z) (l : Lineage) (genesis : option Z)
    (watermark max_size : Z) : result (list Z) SnapshotError :=
  match snapshot a with
  | None => Err Io
  | Some payload =>
    let buf := encode_header APP_VERSION seq chain l genesis watermark ++ payload in
    let buf := buf ++ le 4 (crc32c buf) in
    let size := Z.of_nat (length buf) in
    guard? negb (max_size <? size) else TooLarge size ;;
    Ok buf
  end.

Definition load (bytes : list Z) : result (A * SnapshotHeader) SnapshotError :=
  let file_size := Z.of_nat (length bytes) in
  guard? negb (MAX_SNAPSHOT_SIZE <? file_size) else TooLarge file_size ;;
  guard? negb (length bytes <? HEADER_SIZE_V1 + CRC_SIZE)%nat else Truncated ;;
  let data_end := (length bytes - CRC_SIZE)%nat in
  let expected_crc := field data_end 4 bytes in
  let actual_crc := crc32c (take data_end bytes) in
  guard? expected_crc =? actual_crc else ChecksumMismatch expected_crc actual_crc ;;
  h <-? parse (take data_end bytes) ;;
  guard? app_version h =? APP_VERSION else UnsupportedAppVersion (app_version h) ;;
  match restore (drop (len h) (take data_end bytes)) with
  | None => Err Io
  | Some (a, unread) =>
    guard? (length unread =? 0)%nat else UnreadPayload (length unread) ;;
    Ok (a, h)
  end.

(** [as_v4]: the file an older release would have written. *)
Definition as_v4 (v5 : list Z) : list Z :=
  let v4 := take 4 v5 ++ le 2 4 ++ take (HEADER_SIZE_V4 - 6) (drop 6 v5) ++
            take (length v5 - CRC_SIZE - HEADER_SIZE) (drop HEADER_SIZE v5) in
  v4 ++ le 4 (crc32c v4).
End files.
End Format.

(** ** What the format promises *)
Module FormatFacts.
Import Format.

Definition policy_ok (p : LineagePolicy) : Prop :=
  in_u8 (in_force p) /\ in_u64 (wire_seq p) /\ match previous p with Some b => in_u8 b | None => True end.

Definition fields_ok (seq : Z) (chain : list Z) (l : Lineage) (genesis : option Z) (watermark : Z) : Prop :=
  in_u64 seq /\ length chain = 32%nat /\ in_u64 (epoch l) /\ in_u64 watermark /\
  match genesis with Some g => in_u64 g | None => True end /\
  match ack_policy l with Some p => policy_ok p | None => True end.

(** The first 48 bytes, and what follows them. *)
Lemma header_front version app_ver seq (chain tail : list Z) :
  in_u16 version -> in_u16 app_ver -> in_u64 seq -> length chain = 32%nat ->
  let buf := le 4 SNAP_MAGIC ++ le 2 version ++ le 2 app_ver ++ le 8 seq ++ chain ++ tail in
  field 0 4 buf = SNAP_MAGIC /\ field 4 2 buf = version /\ field 6 2 buf = app_ver /\
  field 8 8 buf = seq /\ take 32 (drop 16 buf) = chain /\ drop 48 buf = tail /\
  length buf = (48 + length tail)%nat.
Proof.
  intros Hv Ha Hs Hc buf. assert (H16 : drop 16 buf = chain ++ tail) by reflexivity.
  split_and!; [reflexivity| | | | | |].
  - exact (unle_u16 version Hv).
  - exact (unle_u16 app_ver Ha).
  - exact (unle_u64 seq Hs).
  - rewrite H16, <- Hc. apply take_app_length.
  - change 48%nat with (16 + 32)%nat. rewrite <- drop_drop, H16, <- Hc. apply drop_app_length.
  - unfold buf. rewrite !length_app, !le_length. lia.
Qed.

Lemma field_behind off n (buf tail : list Z) k :
  drop k buf = tail -> field (k + off) n buf = field off n tail.
Proof. intros <-. unfold field. by rewrite drop_drop. Qed.

Lemma unle_u8 v : in_u8 v -> unle (le 1 v) = v.
Proof. intros Hv. apply unle_le. widths. change (256 ^ Z.of_nat 1) with 256. lia. Qed.

(** The flags a save sets, and that a parse finds. *)
Lemma flags_found genesis p :
  let f := flags_of genesis p in
  in_u8 f /\ Z.land f (Z.lxor u8_max LINEAGE_FLAGS) = 0 /\
  has f LINEAGE_GENESIS_KNOWN = bool_decide (is_Some genesis) /\
  has f LINEAGE_ACK_POLICY_KNOWN = bool_decide (is_Some p) /\
  has f LINEAGE_PREVIOUS_KNOWN = bool_decide (is_Some (p ≫= previous)) /\
  has f LINEAGE_UNWITNESSED = match p with Some pol => unwitnessed (change pol) | None => false end /\
  has f (Z.lor LINEAGE_PREVIOUS_KNOWN LINEAGE_UNWITNESSED) =
    has f LINEAGE_PREVIOUS_KNOWN || has f LINEAGE_UNWITNESSED.
Proof.
  destruct genesis as [g|], p as [[[pol uw] ws [pr|]]|]; try destruct uw; cbn zeta; split_and!;
    vm_compute; try done; intros; discriminate.
Qed.

(** The lineage fields, as a save writes them, read back. *)
Lemma lineage_reads (buf : list Z) genesis p :
  match genesis with Some g => in_u64 g | None => True end ->
  match p with Some pol => policy_ok pol | None => True end ->
  field 56 8 buf = default 0 genesis -> field 64 1 buf = flags_of genesis p ->
  field 65 1 buf = match p with Some pol => in_force pol | None => 0 end ->
  field 66 1 buf = match p with Some pol => default 0 (previous pol) | None => 0 end ->
  field 67 8 buf = match p with Some pol => wire_seq pol | None => 0 end ->
  lineage_fields buf = Ok (genesis, p).
Proof.
  intros Hg Hp H1 H2 H3 H4 H5. unfold lineage_fields. rewrite H1, H2, H3, H4, H5.
  destruct (flags_found genesis p) as (_ & F0 & F1 & F2 & F3 & F4 & F5).
  rewrite F5, F0, F1, F2, F3, F4. destruct genesis as [g|], p as [[[pol uw] ws [pr|]]|]; try destruct uw; reflexivity.
Qed.

Definition tail_fields (l : Lineage) (genesis : option Z) : list Z :=
  let p := ack_policy l in
  le 8 (epoch l) ++ le 8 (default 0 genesis) ++ le 1 (flags_of genesis p) ++
  le 1 (match p with Some pol => in_force pol | None => 0 end) ++
  le 1 (match p with Some pol => default 0 (previous pol) | None => 0 end) ++
  le 8 (match p with Some pol => wire_seq pol | None => 0 end).

(** A header of version 4 or 5 parses to what was written, whatever follows it. *)
Lemma header_parses (v5 : bool) app_ver seq chain l genesis watermark rest :
  fields_ok seq chain l genesis watermark -> in_u16 app_ver ->
  let more := if v5 then le 8 watermark ++ rest else rest in
  let buf := le 4 SNAP_MAGIC ++ le 2 (if v5 then 5 else 4) ++ le 2 app_ver ++ le 8 seq ++ chain ++
             tail_fields l genesis ++ more in
  parse buf = Ok {| app_version := app_ver; sequence := seq; chain_hash := chain; lineage := l;
                    genesis_entries := genesis;
                    tick_watermark := if v5 then Some watermark else None;
                    len := if v5 then HEADER_SIZE else HEADER_SIZE_V4 |}.
Proof.
  intros (Hs & Hc & He & Hw & Hg & Hp) Ha more buf.
  destruct (header_front (if v5 then 5 else 4) app_ver seq chain (tail_fields l genesis ++ more))
    as (F0 & F4 & F6 & F8 & F16 & F48 & Hl); [by destruct v5|done..|]. fold buf in F0, F4, F6, F8, F16, F48, Hl.
  assert (Hlen : length (tail_fields l genesis) = 27%nat) by reflexivity.
  destruct (flags_found genesis (ack_policy l)) as (Hf & _).
  assert (Hlf : lineage_fields buf = Ok (genesis, ack_policy l)).
  { apply lineage_reads; [done|done| | | | |];
      match goal with |- field ?o ?n buf = _ =>
        let o' := eval compute in (o - 48)%nat in change o with (48 + o')%nat;
        rewrite (field_behind o' n buf _ 48 F48) end.
    - apply (unle_u64 (default 0 genesis)). destruct genesis; [done|]. cbn. widths. lia.
    - by apply (unle_u8 (flags_of genesis (ack_policy l))).
    - apply (unle_u8 (match ack_policy l with Some pol => in_force pol | None => 0 end)).
      destruct (ack_policy l); [apply Hp|widths; lia].
    - apply (unle_u8 (match ack_policy l with Some pol => default 0 (previous pol) | None => 0 end)).
      destruct (ack_policy l) as [pol|]; [|widths; lia]. destruct Hp as (_ & _ & Hpr).
      destruct (previous pol); [done|]. cbn. widths. lia.
    - apply (unle_u64 (match ack_policy l with Some pol => wire_seq pol | None => 0 end)).
      destruct (ack_policy l); [apply Hp|widths; lia]. }
  assert (Hep : field 48 8 buf = epoch l).
  { change 48%nat with (48 + 0)%nat. rewrite (field_behind 0 8 buf _ 48 F48). exact (unle_u64 (epoch l) He). }
  assert (Hwm : v5 = true -> field HEADER_SIZE_V4 8 buf = watermark).
  { intros ->. change HEADER_SIZE_V4 with (48 + 27)%nat. rewrite (field_behind 27 8 buf _ 48 F48).
    unfold field. rewrite drop_app_length' by done. exact (unle_u64 watermark Hw). }
  unfold parse. rewrite (proj2 (Nat.ltb_ge _ _)) by (rewrite Hl; unfold HEADER_SIZE_V1; lia).
  rewrite F0, Z.eqb_refl. cbn [negb]. rewrite F4, Hep, F6, F8, F16.
  rewrite length_app, Hlen in Hl. unfold more in Hl.
  destruct v5; cbn [Z.eqb Pos.eqb header_len rbind orb].
  - rewrite length_app, le_length in Hl.
    rewrite (proj2 (Nat.ltb_ge _ _)) by (rewrite Hl; unfold HEADER_SIZE, HEADER_SIZE_V4, HEADER_SIZE_V3, HEADER_SIZE_V2, HEADER_SIZE_V1; lia).
    cbn [negb]. rewrite Hlf. cbn [rbind fst snd]. rewrite Hwm by done. by destruct l.
  - rewrite (proj2 (Nat.ltb_ge _ _)) by (rewrite Hl; unfold HEADER_SIZE, HEADER_SIZE_V4, HEADER_SIZE_V3, HEADER_SIZE_V2, HEADER_SIZE_V1; lia).
    cbn [negb]. rewrite Hlf. cbn [rbind fst snd]. by destruct l.
Qed.
(** A byte with no reserved bit set is one of sixteen. *)
Lemma flags_small f :
  in_u8 f -> Z.land f (Z.lxor u8_max LINEAGE_FLAGS) = 0 -> 0 <= f < 16.
Proof.
  intros Hf Hl. assert (Hm : f / 16 = 0).
  { change (Z.lxor u8_max LINEAGE_FLAGS) with (Z.shiftl 15 4) in Hl.
    apply (f_equal (fun x => Z.shiftr x 4)) in Hl. rewrite Z.shiftr_land, Z.shiftr_shiftl_l in Hl by lia.
    change (Z.shiftl 15 (4 - 4)) with (Z.ones 4) in Hl. rewrite Z.land_ones, Z.shiftr_div_pow2 in Hl by lia.
    change (2 ^ 4) with 16 in Hl. rewrite Z.mod_small in Hl; [done|].
    widths. split; [apply Z.div_pos; lia|]. apply Z.div_lt_upper_bound; lia. }
  pose proof (Z.div_mod f 16 ltac:(lia)). pose proof (Z.mod_pos_bound f 16 ltac:(lia)). lia.
Qed.

(** What the lineage fields of an accepted header are. *)
Lemma lineage_accepted (buf : list Z) genesis p :
  in_u8 (field 64 1 buf) -> lineage_fields buf = Ok (genesis, p) ->
  field 56 8 buf = default 0 genesis /\ field 64 1 buf = flags_of genesis p /\
  field 65 1 buf = match p with Some pol => in_force pol | None => 0 end /\
  field 66 1 buf = match p with Some pol => default 0 (previous pol) | None => 0 end /\
  field 67 8 buf = match p with Some pol => wire_seq pol | None => 0 end.
Proof.
  unfold lineage_fields. generalize (field 56 8 buf) (field 64 1 buf) (field 65 1 buf) (field 66 1 buf) (field 67 8 buf).
  intros g f po pr ws Hf Hl. apply guard_ok in Hl as [Hm [= Hg Hp]]. apply negb_true_iff in Hm.
  repeat (apply orb_false_elim in Hm as [Hm ?]).
  match goal with H : negb (Z.land f _ =? 0) = false |- _ => apply negb_false_iff, Z.eqb_eq in H; rename H into Hr end.
  pose proof (flags_small f Hf Hr) as Hsm.
  assert (Hcase : f = 0 \/ f = 1 \/ f = 2 \/ f = 3 \/ f = 4 \/ f = 5 \/ f = 6 \/ f = 7 \/ f = 8 \/ f = 9 \/
                  f = 10 \/ f = 11 \/ f = 12 \/ f = 13 \/ f = 14 \/ f = 15) by lia.
  repeat match goal with H : _ || _ = false |- _ => apply orb_false_elim in H as [? ?] end.
  subst genesis p. repeat destruct Hcase as [-> | Hcase]; try subst f;
    repeat match goal with
    | _ : context [has ?a ?b] |- _ => let v := eval vm_compute in (has a b) in change (has a b) with v in *
    | |- context [has ?a ?b] => let v := eval vm_compute in (has a b) in change (has a b) with v in *
    end; cbn [negb andb orb default] in *; try done;
    repeat match goal with
    | H : (?x =? 0) = true |- _ => apply Z.eqb_eq in H
    | H : negb (?x =? 0) = false |- _ => apply negb_false_iff in H
    | H : _ || _ = false |- _ => apply orb_false_elim in H as [? ?]
    end; split_and!; done.
Qed.

Section facts.
Context {A : Type} `{SnapshotApp A} (crc32c : list Z -> Z).
Hypothesis crc_range : forall bs, in_u32 (crc32c bs).

(** A header has one encoding. Whatever bytes a file starts with, if they
    parse as the current version's header they are exactly the bytes a save writes
    for the values parsed: no reserved bit, no value behind a flag that says there
    is none, nothing a reader could take two ways. *)
Theorem snapshot_header_canonical (bytes : list Z) (h : SnapshotHeader) (watermark : Z) :
  is_bytes bytes -> parse bytes = Ok h -> tick_watermark h = Some watermark ->
  take HEADER_SIZE bytes =
    encode_header (app_version h) (sequence h) (chain_hash h) (lineage h) (genesis_entries h) watermark /\
  len h = HEADER_SIZE.
Proof using Type.
  clear. intros Hb Hp Hw. unfold parse in Hp.
  apply guard_ok in Hp as [Hl1 Hp]. apply guard_ok in Hp as [Hmagic Hp].
  destruct (header_len (field 4 2 bytes)) as [n|] eqn:Hn; [|done]. cbn [rbind] in Hp.
  apply guard_ok in Hp as [Hl Hp].
  destruct (field 4 2 bytes =? 5) eqn:Hv.
  2: { destruct (if (_ || _) then _ else _) in Hp; [|done]. injection Hp as <-. done. }
  zb. rewrite Hv in Hn, Hp. cbn in Hn. injection Hn as <-. cbn [Z.eqb Pos.eqb orb] in Hp.
  destruct (lineage_fields bytes) as [[g p]|] eqn:Hlin; [|done]. cbn [rbind fst snd] in Hp. injection Hp as <-.
  cbn [app_version sequence chain_hash lineage genesis_entries len tick_watermark] in *. injection Hw as <-.
  split; [|done].
  assert (Hlen : (83 <= length bytes)%nat) by (by apply Nat.ltb_ge).
  assert (Hf64 : in_u8 (field 64 1 bytes)).
  { unfold field. destruct (drop 64 bytes) as [|b rest] eqn:Hd.
    { apply (f_equal length) in Hd. rewrite length_drop in Hd. cbn in Hd. lia. }
    cbn. rewrite Z.add_0_r. assert (Hin : is_bytes (b :: rest)) by (rewrite <- Hd; by apply is_bytes_drop).
    by apply Forall_cons_1 in Hin as [? _]. }
  destruct (lineage_accepted bytes g p Hf64 Hlin) as (E1 & E2 & E3 & E4 & E5).
  unfold encode_header. cbn [epoch ack_policy]. rewrite <- E1, <- E2, <- E3, <- E4, <- E5, <- Hmagic.
  change TRANSPORT_VERSION with 5. rewrite <- Hv, !le_field by (done || (unfold HEADER_SIZE_V4, HEADER_SIZE_V3, HEADER_SIZE_V2, HEADER_SIZE_V1; lia)).
  change HEADER_SIZE_V4 with (67 + 8)%nat.
  rewrite (slices_join bytes 67 8 8). change 67%nat with (66 + 1)%nat.
  rewrite (slices_join bytes 66 1 (8 + 8)). change 66%nat with (65 + 1)%nat.
  rewrite (slices_join bytes 65 1). change 65%nat with (64 + 1)%nat.
  rewrite (slices_join bytes 64 1). change 64%nat with (56 + 8)%nat.
  rewrite (slices_join bytes 56 8). change 56%nat with (48 + 8)%nat.
  rewrite (slices_join bytes 48 8). change 48%nat with (16 + 32)%nat.
  rewrite (slices_join bytes 16 32). change 16%nat with (8 + 8)%nat.
  rewrite (slices_join bytes 8 8). change 8%nat with (6 + 2)%nat at 3.
  rewrite (slices_join bytes 6 2). change 6%nat with (4 + 2)%nat.
  rewrite (slices_join bytes 4 2). change 4%nat with (0 + 4)%nat at 2.
  rewrite (slices_join bytes 0 4), drop_0. reflexivity.
Qed.
Lemma encode_header_shape app_ver seq chain l genesis watermark (rest : list Z) :
  encode_header app_ver seq chain l genesis watermark ++ rest =
  le 4 SNAP_MAGIC ++ le 2 5 ++ le 2 app_ver ++ le 8 seq ++ chain ++ tail_fields l genesis ++ le 8 watermark ++ rest.
Proof using Type. clear. unfold encode_header, tail_fields. by rewrite <- !app_assoc. Qed.

(** A file whose checksum is right is judged by its header and payload. *)
Lemma load_checked (data : list Z) h a :
  (HEADER_SIZE_V1 <= length data)%nat -> Z.of_nat (length data) + 4 <= MAX_SNAPSHOT_SIZE ->
  parse data = Ok h -> app_version h = APP_VERSION -> restore (drop (len h) data) = Some (a, []) ->
  load (A:=A) crc32c (data ++ le 4 (crc32c data)) = Ok (a, h).
Proof using crc_range.
  intros Hl Hmax Hp Hv Hr. unfold load. rewrite length_app, le_length.
  rewrite (proj2 (Z.ltb_ge _ _)), (proj2 (Nat.ltb_ge _ _)) by (unfold CRC_SIZE; lia). cbn [negb].
  replace (length data + 4 - CRC_SIZE)%nat with (length data) by (unfold CRC_SIZE; lia).
  rewrite take_app_length.
  assert (Hf : field (length data) 4 (data ++ le 4 (crc32c data)) = crc32c data).
  { unfold field. rewrite drop_app_length, take_ge by (rewrite le_length; lia). by apply unle_u32. }
  by rewrite Hf, Z.eqb_refl, Hp; cbn [rbind]; rewrite Hv, Z.eqb_refl, Hr.
Qed.

(** The header of a saved file, as a parse finds it. *)
Definition saved_header (seq : Z) (chain : list Z) (l : Lineage) (genesis : option Z) (watermark : Z) : SnapshotHeader :=
  {| app_version := APP_VERSION (A:=A); sequence := seq; chain_hash := chain; lineage := l;
     genesis_entries := genesis; tick_watermark := Some watermark; len := HEADER_SIZE |}.

Lemma saved_loads (a : A) payload seq chain l genesis watermark bytes :
  snapshot a = Some payload -> restore payload = Some (a, []) -> in_u16 (APP_VERSION (A:=A)) ->
  fields_ok seq chain l genesis watermark ->
  save_bytes crc32c a seq chain l genesis watermark MAX_SNAPSHOT_SIZE = Ok bytes ->
  let h := saved_header seq chain l genesis watermark in
  parse bytes = Ok h /\ load crc32c bytes = Ok (a, h) /\ Z.of_nat (length bytes) <= MAX_SNAPSHOT_SIZE.
Proof using crc_range.
  intros Hs Hr Hav Hok Hsv h. unfold save_bytes in Hsv. rewrite Hs in Hsv. apply guard_ok in Hsv as [Hsz Hsv].
  apply negb_true_iff, Z.ltb_ge in Hsz. pose proof Hok as (_ & Hc & _).
  set (data := encode_header APP_VERSION seq chain l genesis watermark ++ payload) in *.
  apply (f_equal (fun r => match r with Ok b => b | Err _ => [] end)) in Hsv.
  change (data ++ le 4 (crc32c data) = bytes) in Hsv. subst bytes.
  assert (Hel : length (encode_header APP_VERSION seq chain l genesis watermark) = HEADER_SIZE)
    by (unfold encode_header; rewrite !length_app, !le_length, Hc; reflexivity).
  assert (Hp : forall rest, parse (encode_header APP_VERSION seq chain l genesis watermark ++ rest) = Ok h).
  { intros rest. rewrite encode_header_shape.
    exact (header_parses true APP_VERSION seq chain l genesis watermark rest Hok Hav). }
  split_and!; [unfold data; rewrite <- app_assoc; apply Hp| |done].
  rewrite length_app, le_length in Hsz. apply load_checked.
  - unfold data. rewrite length_app, Hel. unfold HEADER_SIZE, HEADER_SIZE_V4, HEADER_SIZE_V3, HEADER_SIZE_V2, HEADER_SIZE_V1. lia.
  - lia.
  - apply Hp.
  - done.
  - cbn [len h saved_header]. unfold data. by rewrite drop_app_length'.
Qed.

(** A snapshot restores what was saved. If the application reads back what it
    wrote, a save within the size cap produces a file that loads as the same
    application with every field of its header: sequence, chain hash, epoch,
    policy with its transition, genesis length and tick watermark. The same file as
    a release before the watermark would have written it loads the same, with the
    watermark unknown rather than guessed. *)
Theorem snapshot_round_trip (a : A) payload seq chain l genesis watermark :
  snapshot a = Some payload -> restore payload = Some (a, []) -> in_u16 (APP_VERSION (A:=A)) ->
  fields_ok seq chain l genesis watermark ->
  Z.of_nat (HEADER_SIZE + length payload + CRC_SIZE) <= MAX_SNAPSHOT_SIZE ->
  exists bytes, save_bytes crc32c a seq chain l genesis watermark MAX_SNAPSHOT_SIZE = Ok bytes /\
    let header mark n := {| app_version := APP_VERSION; sequence := seq; chain_hash := chain; lineage := l;
                            genesis_entries := genesis; tick_watermark := mark; len := n |} in
    load crc32c bytes = Ok (a, header (Some watermark) HEADER_SIZE) /\
    load crc32c (as_v4 crc32c bytes) = Ok (a, header None HEADER_SIZE_V4).
Proof using crc_range.
  intros Hs Hr Hav Hok Hmax. unfold save_bytes. rewrite Hs.
  set (data := encode_header APP_VERSION seq chain l genesis watermark ++ payload).
  pose proof Hok as (_ & Hc & _).
  assert (Hel : length (encode_header APP_VERSION seq chain l genesis watermark) = HEADER_SIZE)
    by (unfold encode_header; rewrite !length_app, !le_length, Hc; reflexivity).
  assert (Hdl : length data = (HEADER_SIZE + length payload)%nat) by (unfold data; by rewrite length_app, Hel).
  rewrite (proj2 (Z.ltb_ge _ _)) by (rewrite length_app, le_length, Hdl; unfold CRC_SIZE in *; lia).
  eexists. split; [done|]. cbn zeta. split.
  - eapply (saved_loads a payload); try done. unfold save_bytes. rewrite Hs. fold data.
    by rewrite (proj2 (Z.ltb_ge _ _)) by (rewrite length_app, le_length, Hdl; unfold CRC_SIZE in *; lia).
  - set (mid := le 2 APP_VERSION ++ le 8 seq ++ chain ++ tail_fields l genesis).
    assert (Hml : length mid = 69%nat) by (unfold mid; rewrite !length_app, !le_length, Hc; reflexivity).
    assert (Hshape : data = le 4 SNAP_MAGIC ++ le 2 5 ++ mid ++ le 8 watermark ++ payload).
    { unfold data. rewrite encode_header_shape. unfold mid. by rewrite <- !app_assoc. }
    set (v4 := le 4 SNAP_MAGIC ++ le 2 4 ++ mid ++ payload).
    assert (Hv4 : as_v4 crc32c (data ++ le 4 (crc32c data)) = v4 ++ le 4 (crc32c v4)).
    { unfold as_v4. rewrite length_app, le_length, Hdl.
      replace (HEADER_SIZE + length payload + 4 - CRC_SIZE - HEADER_SIZE)%nat with (length payload) by (unfold CRC_SIZE; lia).
      assert (H4 : take 4 (data ++ le 4 (crc32c data)) = le 4 SNAP_MAGIC) by (rewrite Hshape; reflexivity).
      assert (H6 : drop 6 (data ++ le 4 (crc32c data)) = mid ++ le 8 watermark ++ payload ++ le 4 (crc32c data))
        by (rewrite Hshape, <- !app_assoc; reflexivity).
      assert (Hpay : drop HEADER_SIZE (data ++ le 4 (crc32c data)) = payload ++ le 4 (crc32c data)).
      { change HEADER_SIZE with (6 + (69 + 8))%nat. rewrite <- drop_drop, H6, <- drop_drop.
        by rewrite drop_app_length', drop_app_length' by (done || apply le_length). }
      rewrite H4, H6, Hpay, take_app_length. change (HEADER_SIZE_V4 - 6)%nat with 69%nat.
      rewrite <- Hml, take_app_length. reflexivity. }
    rewrite Hv4. apply load_checked.
    + unfold v4. rewrite !length_app, !le_length, Hml. unfold HEADER_SIZE_V1. lia.
    + unfold v4. rewrite !length_app, !le_length, Hml.
      unfold CRC_SIZE, HEADER_SIZE, HEADER_SIZE_V4, HEADER_SIZE_V3, HEADER_SIZE_V2, HEADER_SIZE_V1 in Hmax. lia.
    + unfold v4, mid. rewrite <- !app_assoc.
      exact (header_parses false APP_VERSION seq chain l genesis watermark payload Hok Hav).
    + done.
    + cbn [len]. unfold v4. change HEADER_SIZE_V4 with (6 + 69)%nat. rewrite <- drop_drop.
      change (drop 6 (le 4 SNAP_MAGIC ++ le 2 4 ++ mid ++ payload)) with (mid ++ payload).
      by rewrite <- Hml, drop_app_length.
Qed.
End facts.
End FormatFacts.

(** ** Putting the file in place *)
Module Publish.

(** The names a save touches, and the files behind them: the snapshot before this
    save, the one before that, and the file being written. *)
Inductive Name := Tmp | Main | Prev.
Inductive Inode := OldMain | OldPrev | New.

Definition Dir : Type := Name -> option Inode.
Definition bind_name (d : Dir) (n : Name) (i : option Inode) : Dir :=
  fun m => match n, m with Tmp, Tmp | Main, Main | Prev, Prev => i | _, _ => d m end.

(** A change of the directory, not durable until the directory is synced. *)
Inductive DirOp := Link (n : Name) (i : Inode) | Move (from to : Name) (i : Inode).
Definition apply_op (d : Dir) (op : DirOp) : Dir :=
  match op with
  | Link n i => bind_name d n (Some i)
  | Move from to i => bind_name (bind_name d from None) to (Some i)
  end.

(** [view] is what system calls see, [disk] what is durable, [pending] the changes
    between them; [content] the new file's bytes and whether they are durable. *)
Record Fs := { view : Dir; disk : Dir; pending : list DirOp; content : list Z; synced : bool }.

Inductive Step :=
| OpenTmp
| WriteAll (piece : list Z)
| StartWriteback (offset len : Z)
| WritebackAndWait (offset len : Z)
| SyncAll
| Rename (from to : Name)
| FsyncDir.

Definition record_op (fs : Fs) (op : DirOp) : Fs :=
  {| view := apply_op (view fs) op; disk := disk fs; pending := pending fs ++ [op];
     content := content fs; synced := synced fs |}.

Definition exec (fs : Fs) (s : Step) : Fs :=
  match s with
  | OpenTmp =>
    let fs := match view fs Tmp with Some _ => fs | None => record_op fs (Link Tmp New) end in
    {| view := view fs; disk := disk fs; pending := pending fs; content := []; synced := false |}
  | WriteAll piece =>
    {| view := view fs; disk := disk fs; pending := pending fs; content := content fs ++ piece; synced := false |}
  | StartWriteback _ _ | WritebackAndWait _ _ => fs
  | SyncAll =>
    {| view := view fs; disk := disk fs; pending := pending fs; content := content fs; synced := true |}
  | Rename from to => match view fs from with Some i => record_op fs (Move from to i) | None => fs end
  | FsyncDir =>
    {| view := view fs; disk := view fs; pending := []; content := content fs; synced := synced fs |}
  end.

(** How a pending change can stand on the disk: whole, or, for a rename, with the
    new name in place and the old one not yet gone (a rename never loses the file
    it moves). *)
Inductive settles : DirOp -> DirOp -> Prop :=
| whole op : settles op op
| half from to i : settles (Move from to i) (Link to i).

(** What a crash can leave: any of the changes made since the directory was last
    synced may have reached the disk, in any order, a later one without an earlier
    one, a rename whole or half; and bytes that were not synced may be anything. *)
Definition crash (fs : Fs) (d : Dir) (bytes : list Z) : Prop :=
  (exists ops kept, ops ⊆+ pending fs /\ Forall2 settles ops kept /\ d = foldl apply_op (disk fs) kept) /\
  (synced fs = true -> bytes = content fs).

(** [slice::chunks]. *)
Fixpoint chunks (fuel n : nat) (buf : list Z) : list (list Z) :=
  match fuel, buf with
  | _, [] | O, _ => []
  | S fuel, _ => take n buf :: chunks fuel n (drop n buf)
  end.

(** [write_bounded]. *)
Fixpoint write_pieces (prev : option (Z * Z)) (offset : Z) (pieces : list (list Z)) : list Step :=
  match pieces with
  | [] => []
  | piece :: rest =>
    let len := Z.of_nat (length piece) in
    [WriteAll piece; StartWriteback offset len] ++
    match prev with Some (o, l) => [WritebackAndWait o l] | None => [] end ++
    write_pieces (Some (offset, len)) (offset + len) rest
  end.
Definition write_bounded (buf : list Z) (chunk : nat) : list Step :=
  write_pieces None 0 (chunks (length buf) chunk buf).

(** What became of the rename to [.prev]. *)
Inductive Rotation := Rotated | NotFound | Failed.

(** [save_with_limit], from the bytes on: the system calls in order. *)
Definition save_steps (buf : list Z) (chunk : nat) (r : Rotation) : list Step :=
  [OpenTmp] ++ write_bounded buf chunk ++ [SyncAll] ++
  match r with Rotated => [Rename Main Prev; FsyncDir] | NotFound | Failed => [] end ++
  [Rename Tmp Main; FsyncDir].

Definition run (fs : Fs) (steps : list Step) : Fs := foldl exec fs steps.
End Publish.

Module CrashSafe.
Import Publish.

(** The node before the save: [had] says whether there is a snapshot already. *)
Definition start (had had_prev stale : bool) (junk : list Z) : Fs :=
  let d := fun n => match n with
                    | Main => if had then Some OldMain else None
                    | Prev => if had_prev then Some OldPrev else None
                    | Tmp => if stale then Some New else None
                    end in
  {| view := d; disk := d; pending := []; content := junk; synced := false |}.

Lemma chunks_concat fuel n buf : (0 < n)%nat -> (length buf <= fuel)%nat -> concat (chunks fuel n buf) = buf.
Proof.
  revert buf. induction fuel as [|fuel IH]; intros [|b buf] Hn Hl; try done; [cbn in Hl; lia|].
  cbn [chunks concat]. rewrite IH; [apply take_drop|done|].
  rewrite length_drop. cbn [length] in *. lia.
Qed.

Lemma chunks_small fuel n buf : Forall (fun p => (length p <= n)%nat) (chunks fuel n buf).
Proof.
  revert buf. induction fuel as [|fuel IH]; intros [|b buf]; try constructor; [|apply IH].
  rewrite length_take. lia.
Qed.

(** Writing changes nothing but the new file's bytes. *)
Definition writes (s : Step) : bool :=
  match s with WriteAll _ | StartWriteback _ _ | WritebackAndWait _ _ => true | _ => false end.

Definition written (steps : list Step) : list Z :=
  concat (omap (fun s => match s with WriteAll p => Some p | _ => None end) steps).

Lemma write_pieces_writes prev off pieces : Forall (fun s => writes s = true) (write_pieces prev off pieces).
Proof.
  revert prev off. induction pieces as [|p pieces IH]; intros prev off; cbn [write_pieces]; [constructor|].
  apply Forall_app; split; [by repeat constructor|]. apply Forall_app; split; [|apply IH].
  destruct prev as [[o l]|]; by repeat constructor.
Qed.

Lemma write_pieces_written prev off pieces : written (write_pieces prev off pieces) = concat pieces.
Proof.
  unfold written. revert prev off. induction pieces as [|p pieces IH]; intros prev off; [done|].
  cbn [write_pieces]. rewrite !omap_app, !concat_app, IH. destruct prev as [[o l]|]; cbn; by rewrite app_nil_r.
Qed.

Lemma run_writes fs steps :
  Forall (fun s => writes s = true) steps -> synced fs = false ->
  run fs steps = {| view := view fs; disk := disk fs; pending := pending fs;
                    content := content fs ++ written steps; synced := false |}.
Proof.
  unfold run. revert fs. induction steps as [|s steps IH]; intros fs Hw Hs.
  { cbn. unfold written. cbn. rewrite app_nil_r. destruct fs; cbn in *. by subst. }
  apply Forall_cons_1 in Hw as [Hw Hws]. cbn [foldl]. destruct s; try done; rewrite IH by done; [|done..].
  unfold written. cbn. by rewrite <- app_assoc.
Qed.

Lemma run_steps_app fs xs ys : run fs (xs ++ ys) = run (run fs xs) ys.
Proof. apply foldl_app. Qed.

(** Every state a save passes through. *)
Inductive passes (had had_prev stale : bool) (buf : list Z) (r : Rotation) : Fs -> Prop :=
| at_start junk : passes had had_prev stale buf r (start had had_prev stale junk)
| at_writing fs c :
    fs = exec (start had had_prev stale []) OpenTmp ->
    passes had had_prev stale buf r
      {| view := view fs; disk := disk fs; pending := pending fs; content := c; synced := false |}
| at_tail fs steps tail :
    fs = exec (start had had_prev stale []) OpenTmp ->
    steps ++ tail = match r with Rotated => [Rename Main Prev; FsyncDir] | NotFound | Failed => [] end ++
                    [Rename Tmp Main; FsyncDir] ->
    passes had had_prev stale buf r
      (run {| view := view fs; disk := disk fs; pending := pending fs; content := buf; synced := true |} steps).

(** The tail of a save, once the new file is durable. *)
Definition renames (r : Rotation) : list Step :=
  match r with Rotated => [Rename Main Prev; FsyncDir] | NotFound | Failed => [] end ++ [Rename Tmp Main; FsyncDir].

Definition durable (had had_prev stale : bool) (buf : list Z) : Fs :=
  let fs := exec (start had had_prev stale []) OpenTmp in
  {| view := view fs; disk := disk fs; pending := pending fs; content := buf; synced := true |}.

Lemma opened_tmp had had_prev stale junk :
  exec (start had had_prev stale junk) OpenTmp = exec (start had had_prev stale []) OpenTmp.
Proof. by destruct stale. Qed.

Lemma save_tail had had_prev stale junk buf chunk r m :
  (0 < chunk)%nat ->
  run (start had had_prev stale junk) (take (S (length (write_bounded buf chunk) + S m)) (save_steps buf chunk r)) =
  run (durable had had_prev stale buf) (take m (renames r)).
Proof.
  intros Hc. set (ws := write_bounded buf chunk).
  change (take (S _) (save_steps buf chunk r)) with (OpenTmp :: take (length ws + S m) (ws ++ SyncAll :: renames r)).
  change (run _ (OpenTmp :: ?l)) with (run (exec (start had had_prev stale junk) OpenTmp) l).
  rewrite opened_tmp. set (fs := exec (start had had_prev stale []) OpenTmp).
  assert (Hws : Forall (fun s => writes s = true) ws) by apply write_pieces_writes.
  rewrite take_app_add', run_steps_app by done. rewrite (run_writes fs ws) by (done || by destruct stale).
  replace (written ws) with buf.
  - unfold fs at 4. replace (content _) with (@nil Z) by (by destruct stale). reflexivity.
  - symmetry. unfold ws, write_bounded. rewrite write_pieces_written. by apply chunks_concat.
Qed.

Lemma save_passes had had_prev stale junk buf chunk r n :
  (0 < chunk)%nat ->
  passes had had_prev stale buf r (run (start had had_prev stale junk) (take n (save_steps buf chunk r))).
Proof.
  intros Hc. destruct n as [|n]; [apply at_start|]. set (ws := write_bounded buf chunk).
  destruct (decide (n <= length ws)%nat) as [Hle|Hgt].
  - change (take (S n) (save_steps buf chunk r)) with (OpenTmp :: take n (ws ++ SyncAll :: renames r)).
    change (run _ (OpenTmp :: ?l)) with (run (exec (start had had_prev stale junk) OpenTmp) l).
    rewrite opened_tmp, take_app_le by lia. set (fs := exec (start had had_prev stale []) OpenTmp).
    rewrite run_writes; [by apply at_writing|apply Forall_take, write_pieces_writes|by destruct stale].
  - replace n with (length ws + S (n - length ws - 1))%nat by lia. unfold ws. rewrite save_tail by done.
    apply (at_tail _ _ _ _ _ _ _ (drop (n - length ws - 1) (renames r)) eq_refl), take_drop.
Qed.

(** What the node finds after a crash: a whole snapshot, the old one or the new one,
    under its name, or the old one under [.prev]. *)
Definition intact (had : bool) (buf : list Z) (d : Dir) (bytes : list Z) : Prop :=
  match d Main with
  | Some New => bytes = buf
  | Some OldMain => had = true
  | Some OldPrev => False
  | None => if had then d Prev = Some OldMain else True
  end.

Definition rotation_ok (had : bool) (r : Rotation) : Prop :=
  match r with Rotated => had = true | NotFound => had = false | Failed => True end.

Lemma at_most_two (a b : DirOp) ops :
  ops ⊆+ [a; b] -> ops = [] \/ ops = [a] \/ ops = [b] \/ ops = [a; b] \/ ops = [b; a].
Proof.
  intros [k Hk]%submseteq_Permutation. apply Permutation_length_2_inv in Hk as [Hk|Hk];
    destruct ops as [|x [|y [|z ops]]]; simplify_eq/=; auto.
Qed.

Lemma at_most_one (a : DirOp) ops : ops ⊆+ [a] -> ops = [] \/ ops = [a].
Proof.
  intros [k Hk]%submseteq_Permutation. apply Permutation_length_1_inv in Hk.
  destruct ops as [|x [|y ops]]; simplify_eq/=; auto.
Qed.

(** The pending changes are few: every choice of them that reached the disk. *)
Ltac each_crash :=
  intros [(ops & kept & Hops & Hkept & ->) Hbytes]; cbn in Hops, Hbytes;
  first [apply submseteq_nil_r in Hops as -> | apply at_most_one in Hops as [-> | ->]
        | apply at_most_two in Hops as [-> | [-> | [-> | [-> | ->]]]]];
  repeat match goal with
  | H : Forall2 settles [] _ |- _ => apply Forall2_nil_inv_l in H; subst
  | H : Forall2 settles (_ :: _) _ |- _ => apply Forall2_cons_inv_l in H as (? & ? & ? & H & ->)
  | H : settles _ _ |- _ => inversion H; subst; clear H
  end; cbn; auto.

Lemma tail_cases r (steps tail : list Step) :
  steps ++ tail = renames r ->
  steps = [] \/ (r = Rotated /\ steps = [Rename Main Prev]) \/ (r = Rotated /\ steps = [Rename Main Prev; FsyncDir]) \/
  (r = Rotated /\ steps = [Rename Main Prev; FsyncDir; Rename Tmp Main]) \/
  (r = Rotated /\ steps = [Rename Main Prev; FsyncDir; Rename Tmp Main; FsyncDir]) \/
  (r <> Rotated /\ steps = [Rename Tmp Main]) \/ (r <> Rotated /\ steps = [Rename Tmp Main; FsyncDir]).
Proof.
  intros Heq. destruct r; cbn in Heq;
    repeat (destruct steps as [|? steps]; [simplify_eq/=; naive_solver|cbn in Heq; injection Heq as -> Heq]);
    try (destruct steps; [simplify_eq/=; naive_solver|done]); simplify_eq/=; naive_solver.
Qed.

(** What a crash may leave of a save: a whole snapshot; nothing under the name only
    once a rotation began; and a new snapshot never without the rollback point the
    rotation made. *)
Definition safe (had : bool) (buf : list Z) (r : Rotation) (d : Dir) (bytes : list Z) : Prop :=
  intact had buf d bytes /\ (d Main = None -> had = true -> r = Rotated) /\
  (d Main = Some New -> r = Rotated -> d Prev = Some OldMain).

Lemma passes_safe had had_prev stale buf r fs d bytes :
  rotation_ok had r -> passes had had_prev stale buf r fs -> crash fs d bytes -> safe had buf r d bytes.
Proof.
  unfold safe, intact. intros Hr [j|? c ->|? st tl -> Ht].
  - destruct had, had_prev; each_crash; split_and!; done.
  - destruct stale, had; each_crash; split_and!; done.
  - apply tail_cases in Ht as [->|[[-> ->]|[[-> ->]|[[-> ->]|[[-> ->]|[[Hn ->]|[Hn ->]]]]]]];
      cbn in Hr; try subst had; destruct stale; try destruct had; each_crash; split_and!; by auto.
Qed.

Lemma save_all_steps had had_prev stale junk buf chunk r n :
  (0 < chunk)%nat -> (length (save_steps buf chunk r) <= n)%nat ->
  run (start had had_prev stale junk) (take n (save_steps buf chunk r)) =
  run (durable had had_prev stale buf) (renames r).
Proof.
  intros Hc Hn.
  assert (Hl : length (save_steps buf chunk r) = S (length (write_bounded buf chunk) + S (length (renames r))))
    by (unfold save_steps; cbn [app length]; by rewrite length_app).
  rewrite take_ge by done. rewrite <- (firstn_all (save_steps buf chunk r)), Hl, save_tail by done.
  by rewrite take_ge.
Qed.

(** C30: A snapshot survives a crash in the middle of a save. Whatever instant a
    save is cut off at, by a crash or an error, and whichever of the directory
    changes made since the last sync reached the disk, in whatever order and a
    rename whole or with both names left, the node finds a whole snapshot: the old
    one or the complete new one under the snapshot's name, or, once a rotation
    began, the old one under [.prev] and nothing under its name. That last case
    does happen. Where the old one was rotated, the new one is never under the name
    unless the old one is under [.prev]: the rotation is durable before the publish
    can be, which is what the sync of the directory between the two renames is for.
    A save that returned is never taken back. *)
Theorem snapshot_save_crash_safe had had_prev stale junk buf chunk r :
  (0 < chunk)%nat -> rotation_ok had r ->
  let steps := save_steps buf chunk r in
  let after n := run (start had had_prev stale junk) (take n steps) in
  (forall n d bytes, crash (after n) d bytes ->
     intact had buf d bytes /\ (d Main = None -> had = true -> r = Rotated) /\
     (d Main = Some New -> r = Rotated -> d Prev = Some OldMain) /\
     ((length steps <= n)%nat -> d Main = Some New /\ bytes = buf /\ (r = Rotated -> d Prev = Some OldMain))) /\
  (r = Rotated -> exists n d, crash (after n) d buf /\ d Main = None).
Proof.
  intros Hc Hr steps after. split.
  - intros n d bytes Hcr.
    destruct (passes_safe _ _ _ _ _ _ d bytes Hr (save_passes had had_prev stale junk buf chunk r n Hc) Hcr)
      as (Hi & Hm & Hp).
    split_and!; [done..|]. intros Hn. revert Hcr. unfold after, steps. rewrite save_all_steps by done.
    destruct r; cbn in Hr; try subst had; destruct stale; try destruct had; each_crash; split_and!; by auto.
  - intros ->. cbn in Hr. subst had. exists (S (length (write_bounded buf chunk) + 3)).
    unfold after, steps. rewrite save_tail by done. eexists.
    split; [split; [exists [], []; split_and!; [apply submseteq_nil_l|constructor|reflexivity]|]|]; by destruct stale.
Qed.

(** The sync between the renames is needed: without it the publish can be on the
    disk and the rotation not, and the snapshot that was rotated is nowhere.
    (Neither name present cannot come of renames that keep the moved file under
    one of its names; of renames that do not it could come before the sync too.) *)
Definition save_unsynced (buf : list Z) (chunk : nat) : list Step :=
  [OpenTmp] ++ write_bounded buf chunk ++ [SyncAll; Rename Main Prev; Rename Tmp Main].

Example rollback_point_lost :
  exists d, crash (run (start true false false []) (save_unsynced [1; 2; 3] 2)) d [1; 2; 3] /\
    d Main = Some New /\ d Prev = None.
Proof.
  eexists. split.
  - split; [|reflexivity]. exists [Move Tmp Main New], [Move Tmp Main New].
    split_and!; [|by repeat constructor|reflexivity].
    cbn. apply sublist_submseteq. repeat constructor.
  - done.
Qed.

(** *** The page cache stays bounded *)

(** Bytes written and not yet known to be on the device. *)
Definition outstanding (s : Step) : Z :=
  match s with WriteAll p => Z.of_nat (length p) | WritebackAndWait _ l => - l | _ => 0 end.
Definition dirty (steps : list Step) : Z := foldr (fun s n => outstanding s + n) 0 steps.

Lemma dirty_app xs ys : dirty (xs ++ ys) = dirty xs + dirty ys.
Proof. unfold dirty. induction xs as [|x xs IH]; cbn; [done|]. rewrite IH. lia. Qed.

Definition prev_len (prev : option (Z * Z)) : Z := match prev with Some (_, l) => l | None => 0 end.

Lemma write_pieces_dirty (chunk : nat) prev off pieces n :
  Forall (fun p => (length p <= chunk)%nat) pieces -> 0 <= prev_len prev <= Z.of_nat chunk ->
  0 <= prev_len prev + dirty (take n (write_pieces prev off pieces)) <= 2 * Z.of_nat chunk.
Proof.
  revert prev off n. induction pieces as [|p pieces IH]; intros prev off n Hp Hprev; cbn [write_pieces].
  { rewrite take_nil. cbn. lia. }
  apply Forall_cons_1 in Hp as [Hp Hps]. set (len := Z.of_nat (length p)).
  destruct n as [|[|n]]; [cbn; lia|cbn; unfold len in *; lia|]. cbn [app take].
  change (dirty (WriteAll p :: StartWriteback off len :: ?l)) with (len + (0 + dirty l)).
  specialize (IH (Some (off, len)) (off + len)).
  destruct prev as [[o l]|]; cbn [app prev_len] in *.
  - destruct n as [|n]; [cbn; unfold len in *; lia|]. cbn [take].
    change (dirty (WritebackAndWait o l :: ?r)) with (- l + dirty r).
    specialize (IH n Hps ltac:(unfold len; lia)). lia.
  - specialize (IH n Hps ltac:(unfold len; lia)). lia.
Qed.

(** A save never floods the page cache. Every byte of the buffer is written,
    in order; and at no instant are more than two chunks written and not yet known
    to be on the device, however large the snapshot. *)
Theorem writeback_bounded buf chunk n :
  (0 < chunk)%nat ->
  written (write_bounded buf chunk) = buf /\
  0 <= dirty (take n (write_bounded buf chunk)) <= 2 * Z.of_nat chunk.
Proof.
  intros Hc. unfold write_bounded. rewrite write_pieces_written. split; [by apply chunks_concat|].
  apply (write_pieces_dirty chunk None 0 _ n (chunks_small _ _ _)). cbn. lia.
Qed.
End CrashSafe.

Module Sample.
Import Format FormatFacts Publish CrashSafe Codec.Sample.

(** An application that is a byte. *)
#[export] Instance byte_app : SnapshotApp Z := {
  APP_VERSION := 3;
  snapshot a := Some [a];
  restore bs := match bs with b :: rest => Some (b, rest) | [] => None end
}.

Definition sample_lineage : Lineage :=
  {| epoch := 4; ack_policy := Some {| change := {| Event.policy := 2; unwitnessed := true |};
                                       wire_seq := 17; previous := Some 1 |} |}.

Lemma snapshot_round_trip_witness :
  exists bytes, save_bytes sum32 7 40 (replicate 32 9) sample_lineage (Some 6) 99 MAX_SNAPSHOT_SIZE = Ok bytes /\
    exists h, load sum32 bytes = Ok (7, h) /\ lineage h = sample_lineage.
Proof.
  destruct (snapshot_round_trip sum32 sum32_range 7 [7] 40 (replicate 32 9) sample_lineage (Some 6) 99)
    as (bytes & Hs & Hl & _); [done|done|by (cbn; widths; lia)| |by vm_compute|].
  - repeat split; widths; cbn; lia.
  - exists bytes. split; [exact Hs|]. eexists. split; [exact Hl|done].
Defined.

Definition sample_header : list Z := encode_header 3 40 (replicate 32 9) sample_lineage (Some 6) 99.

Lemma snapshot_header_canonical_witness :
  exists h, parse sample_header = Ok h /\ take HEADER_SIZE sample_header =
    encode_header (app_version h) (sequence h) (chain_hash h) (lineage h) (genesis_entries h) 99.
Proof.
  destruct (parse sample_header) as [h|] eqn:Hp; [|vm_compute in Hp; discriminate].
  exists h. split; [reflexivity|].
  refine (proj1 (snapshot_header_canonical sample_header h 99 _ Hp _)).
  - apply (bool_decide_unpack _). vm_compute. exact I.
  - vm_compute in Hp. injection Hp as <-. reflexivity.
Defined.

Lemma snapshot_save_crash_safe_witness :
  exists n d, crash (run (start true true false []) (take n (save_steps [1; 2; 3] 2 Rotated))) d [1; 2; 3] /\
    d Main = None /\ d Prev = Some OldMain.
Proof.
  destruct (snapshot_save_crash_safe true true false [] [1; 2; 3] 2 Rotated ltac:(lia) eq_refl) as [Hall Hex].
  destruct (Hex eq_refl) as (n & d & Hc & Hd). exists n, d. split; [exact Hc|]. split; [exact Hd|].
  destruct (Hall n d [1; 2; 3] Hc) as [Hi _]. unfold intact in Hi. rewrite Hd in Hi. exact Hi.
Defined.

Lemma writeback_bounded_witness :
  written (write_bounded [1; 2; 3; 4; 5] 2) = [1; 2; 3; 4; 5] /\
  dirty (take 5 (write_bounded [1; 2; 3; 4; 5] 2)) <= 4.
Proof.
  destruct (writeback_bounded [1; 2; 3; 4; 5] 2 5 ltac:(lia)) as [Hw [_ Hd]]. split; [exact Hw|exact Hd].
Defined.
End Sample.
