(* ===== verification/CatchUp.v ===== *)
(** * Serving a joining replica from the journal

    [CatchUp] is the primary's side of a join on disk ([catchup.rs] of
    [transport-core/src/replication]): which segment holds a sequence, whether the
    journal reaches back far enough, and the walk that streams it; [Shipping] what
    that walk puts on the wire. [Validate] judges the position a replica claims
    ([validate.rs]), and [Verdict] says when the judgement is right. *)

From S2P Require Import Prelude Lineage Codec Journal Wire Protocol Reader Segments Scanner.
Import Lineage.Event Codec.Le Codec.Codec.

Module CatchUp.
Import Scanner.Scanner.

(** The journal's files as one pass sees them: [archives] is [None] when listing
    the directory failed. *)
Record JournalDir := { archives : option (list (list Z)); live : option (list Z) }.

Inductive IoError :=
| Journal (e : JournalError)
| NoSegments
| Publish
| HistoryPruned
| Inconsistent.

(** The transport and the shutdown flag: [accepts] is what the next writes come to,
    [shutdowns] what the next loads of the flag read; past the end of either, a
    write succeeds and the flag is clear. [sent] is what the transport took. *)
Record World := { sent : list (list Z); accepts : list bool; shutdowns : list bool }.

Definition io (A : Type) : Type := World -> result A IoError * World.
Definition iret {A} (a : A) : io A := fun w => (Ok a, w).
Definition ifail {A} (e : IoError) : io A := fun w => (Err e, w).
Definition ibind {A B} (m : io A) (k : A -> io B) : io B := fun w =>
  match m w with (Ok a, w) => k a w | (Err e, w) => (Err e, w) end.
Definition lift {A} (r : result A JournalError) : io A := fun w => (rmap_err Journal r, w).

Definition publish (frame : list Z) : io unit := fun w =>
  if default true (head (accepts w))
  then (Ok tt, {| sent := sent w ++ [frame]; accepts := tail (accepts w); shutdowns := shutdowns w |})
  else (Err Publish, {| sent := sent w; accepts := tail (accepts w); shutdowns := shutdowns w |}).

Definition shutdown : io bool := fun w =>
  (Ok (default false (head (shutdowns w))),
   {| sent := sent w; accepts := accepts w; shutdowns := tail (shutdowns w) |}).

Notation "x <~ m ;; k" := (ibind m (fun x => k))
  (at level 100, m at next level, right associativity) : melin_scope.

Section catchup.
Context {E : Type} `{AppEvent E}.
Context (crc32c : list Z -> Z).

(** How the reads of the [i]th file are split. *)
Context (script : nat -> list nat).

Inductive CatchUpResult := CaughtUp (last : Z) | NeedSnapshot.

Definition discover_journal_files (d : JournalDir) : list (list Z) :=
  default [] (archives d) ++ option_list (live d).

Definition lineage_origin (d : JournalDir) : result FileHeaderInfo IoError :=
  match discover_journal_files d with
  | [] => Err NoSegments
  | oldest :: _ => rmap_err Journal (read_header_info crc32c oldest)
  end.

Definition can_catch_up_from_journal (d : JournalDir) (last_sequence : Z) : result bool IoError :=
  match discover_journal_files d with
  | [] => Ok true
  | oldest :: _ =>
    i <-? rmap_err Journal (read_header_info crc32c oldest) ;;
    Ok (starting_sequence i <=? sat_add last_sequence 1)
  end.

(** [containing_segment], over the files newest first. *)
Fixpoint newest_from (files : list (nat * list Z)) (seq : Z)
    : result (option (nat * FileHeaderInfo)) JournalError :=
  match files with
  | [] => Ok None
  | (idx, file) :: older =>
    i <-? read_header_info crc32c file ;;
    if starting_sequence i <=? seq then Ok (Some (idx, i)) else newest_from older seq
  end.
Definition containing_segment (files : list (list Z)) (seq : Z)
    : result (option (nat * FileHeaderInfo)) JournalError :=
  newest_from (rev (imap pair files)) seq.

(** Where a walk over the files is: interrupted by the shutdown flag, or not. *)
Inductive Walk := Stopped (last : Z) | Walked (last : Z).

Definition walk_on (m : io Walk) (k : Z -> io Walk) : io Walk :=
  r <~ m ;; match r with Stopped e => iret (Stopped e) | Walked e => k e end.

Definition BATCH_BYTES : nat := Z.to_nat (64 * 1024).

(** The batches of one file; each takes at least a byte of it, so its length is
    fuel enough. *)
Fixpoint send_batches (fuel : nat) (file : list Z) (sc : RawJournalScanner) (end_sequence : Z)
    : io Walk :=
  match fuel with
  | O => iret (Walked end_sequence)
  | S fuel =>
    stop <~ shutdown ;;
    if stop then iret (Stopped end_sequence)
    else match read_raw_batch file BATCH_BYTES sc with
         | (_, None, _) => iret (Walked end_sequence)
         | (batch_buf, Some batch_end_seq, sc) =>
           f <~ lift (Wire.Wire.encode_input_batch_from_journal (E:=E) crc32c batch_buf) ;;
           _ <~ publish (fst f) ;;
           send_batches fuel file sc batch_end_seq
         end
  end.

(** The announce of a boundary the stream stands on. *)
Definition announce (i : FileHeaderInfo) (end_sequence : Z) : io unit :=
  if (1 <? starting_sequence i) && (end_sequence =? starting_sequence i - 1)
  then publish (Control.encode_rotate (starting_sequence i - 1) (anchor_hash i))
  else iret tt.

Definition send_file (idx : nat) (file : list Z) (end_sequence : Z) : io Walk :=
  stop <~ shutdown ;;
  if stop then iret (Stopped end_sequence)
  else
    i <~ lift (read_header_info crc32c file) ;;
    _ <~ announce i end_sequence ;;
    sc <~ lift (open crc32c file (script idx)) ;;
    send_batches (S (length file)) file (skip_to_after file end_sequence sc) end_sequence.

Fixpoint send_files (idx : nat) (files : list (list Z)) (end_sequence : Z) : io Walk :=
  match files with
  | [] => iret (Walked end_sequence)
  | file :: rest => walk_on (send_file idx file end_sequence) (send_files (S idx) rest)
  end.

(** [stream_journal]; its [JournalPass] only picks the log lines. *)
Definition stream_journal (d : JournalDir) (last_sequence : Z) : io CatchUpResult :=
  let files := discover_journal_files d in
  if (length files =? 0)%nat then iret (CaughtUp last_sequence)
  else
    found <~ lift (containing_segment files (sat_add last_sequence 1)) ;;
    match found with
    | None => iret NeedSnapshot
    | Some (idx, _) =>
      r <~ send_files idx (drop idx files) last_sequence ;;
      match r with Stopped e | Walked e => iret (CaughtUp e) end
    end.

Definition catch_up_from_journal_with := stream_journal.

Definition handoff_pass_from_journal (d : JournalDir) (from : Z) : io Z :=
  r <~ stream_journal d from ;;
  match r with CaughtUp e => iret e | NeedSnapshot => ifail HistoryPruned end.
End catchup.
End CatchUp.

(** ** What the walk puts on the wire *)
Module Shipping.
Import CatchUp Scanner.Scanner Scanner.Raw Scanner.Written.
Import Codec.Facts Journal.Segment Journal.Stream Segments.History.

Section shipping.
Context {E : Type} `{AppEvent E}.
Context (crc32c : list Z -> Z) (blake3 : list Z -> list Z).
Hypothesis crc_range : forall bs, in_u32 (crc32c bs).
Context `{!AppEventLaws E}.
Hypothesis fits_one_entry : (entry_size (E:=E) <= MAX_ENTRY_SIZE)%nat.
Context (script : nat -> list nat).

Local Notation stream := (stream (E:=E) crc32c).
Local Notation item := (item (E:=E)).

(** The frames of a catch-up, and what the replica makes of them. *)
Inductive Frame := Rotated (boundary : Z) (anchor : list Z) | Batch (seq : Z) (items : list item).

Definition bytes_of (f : Frame) : list Z :=
  match f with
  | Rotated boundary anchor => Control.encode_rotate boundary anchor
  | Batch seq items => Wire.Mirror.frame_of crc32c seq items
  end.

Inductive Delivery := Boundary (boundary : Z) (anchor : list Z) | Entry (seq : Z) (it : item).

Fixpoint entries (seq : Z) (items : list item) : list Delivery :=
  match items with [] => [] | it :: rest => Entry seq it :: entries (seq + 1) rest end.

Definition contents (f : Frame) : list Delivery :=
  match f with
  | Rotated boundary anchor => [Boundary boundary anchor]
  | Batch seq items => entries seq items
  end.

(** A batch has an entry, and more than one only within the byte bound. *)
Definition bounded (f : Frame) : Prop :=
  match f with
  | Rotated _ _ => True
  | Batch seq items => items <> [] /\ (length items = 1 \/ length (stream seq items) <= BATCH_BYTES)%nat
  end.

Definition reached (pos : Z) (fs : list Frame) : Z :=
  foldl (fun p f => match f with Rotated _ _ => p | Batch seq items => seq + Z.of_nat (length items) - 1 end)
    pos fs.

(** What a segment means to a replica at [last]. *)
Definition due (last : Z) (s : Seg) : list Delivery :=
  (if (1 <? g_start s) && (last <=? g_start s - 1) then [Boundary (g_start s - 1) (g_anchor s)] else []) ++
  let k := Nat.min (length (g_items s)) (Z.to_nat (last - g_start s + 1)) in
  entries (g_start s + Z.of_nat k) (drop k (g_items s)).

(** A transport that takes everything, and no shutdown. *)
Definition calm (w : World) : Prop := Forall (eq true) (accepts w) /\ Forall (eq false) (shutdowns w).

(** [m], run from [w] at [pos], ships the deliveries [ds], or the first of them and
    says so. *)
Definition ships (r : result Walk IoError * World) (w : World) (pos : Z) (ds : list Delivery) : Prop :=
  exists fs rest,
    sent (snd r) = sent w ++ map bytes_of fs /\ Forall bounded fs /\
    concat (map contents fs) ++ rest = ds /\
    match fst r with
    | Ok (Stopped e) => e = reached pos fs
    | Ok (Walked e) => e = reached pos fs /\ rest = []
    | Err e => e = Publish
    end /\
    (calm w -> calm (snd r) /\ exists e, fst r = Ok (Walked e)).

Lemma entries_app_at seq xs ys :
  entries seq (xs ++ ys) = entries seq xs ++ entries (seq + Z.of_nat (length xs)) ys.
Proof using Type.
  clear. revert seq. induction xs as [|x xs IH]; intros seq; cbn [entries app length]; [by rewrite Z.add_0_r|].
  rewrite IH. do 3 f_equal. lia.
Qed.

Lemma reached_app pos fs gs : reached pos (fs ++ gs) = reached (reached pos fs) gs.
Proof using Type. clear. unfold reached. by rewrite foldl_app. Qed.

(** Nothing to do. *)
Lemma ships_nil w pos : ships (Ok (Walked pos), w) w pos [].
Proof using Type. clear. exists [], []. rewrite app_nil_r. by split_and!; eauto. Qed.

Lemma ships_stop w w' pos ds :
  sent w' = sent w -> ~ calm w -> ships (Ok (Stopped pos), w') w pos ds.
Proof using Type. clear. intros Hs Hc. exists [], ds. rewrite app_nil_r. by split_and!. Qed.

(** One frame, then the rest. *)
Lemma ships_publish w pos f ds (k : io Walk) :
  bounded f ->
  (forall w', sent w' = sent w ++ [bytes_of f] -> (calm w -> calm w') ->
     ships (k w') w' (reached pos [f]) ds) ->
  ships ((_ <~ publish (bytes_of f) ;; k) w) w pos (contents f ++ ds).
Proof using Type.
  clear. intros Hb Hk. unfold ibind, publish. destruct (default true (head (accepts w))) eqn:Ha.
  - set (w' := {| sent := _; accepts := _; shutdowns := _ |}).
    assert (Hc : calm w -> calm w').
    { intros [H1 H2]. split; [|done]. cbn. destruct (accepts w); [done|]. by apply Forall_cons_1 in H1 as [_ ?]. }
    destruct (Hk w' eq_refl Hc) as (fs & rest & Hs & Hbs & Hd & Hr & Hcalm).
    exists (f :: fs), rest. split_and!.
    + rewrite Hs. cbn [sent w']. by rewrite <- app_assoc.
    + by constructor.
    + cbn [map concat]. by rewrite <- app_assoc, Hd.
    + exact Hr.
    + auto.
  - exists [], (contents f ++ ds). rewrite app_nil_r. split_and!; try done.
    intros [H1 _]. destruct (accepts w) as [|b bs]; [done|]. apply Forall_cons_1 in H1 as [<- _]. done.
Qed.

(** One file after another. *)
Lemma ships_then w pos ds1 ds2 (m : io Walk) (k : Z -> io Walk) :
  ships (m w) w pos ds1 ->
  (forall w' e fs, Forall bounded fs -> concat (map contents fs) = ds1 -> e = reached pos fs ->
     ships (k e w') w' e ds2) ->
  ships (walk_on m k w) w pos (ds1 ++ ds2).
Proof using Type.
  clear. intros (fs & rest & Hs & Hb & Hd & Hr & Hc) Hk. unfold walk_on, ibind.
  destruct (m w) as [[[e|e]|e] w'] eqn:Hm; cbn [fst snd] in *.
  - exists fs, (rest ++ ds2). subst ds1. rewrite app_assoc. by split_and!.
  - destruct Hr as [He ->]. rewrite app_nil_r in Hd.
    destruct (Hk w' e fs Hb Hd He) as (gs & rest' & Hs' & Hb' & Hd' & Hr' & Hc').
    exists (fs ++ gs), rest'. rewrite reached_app, <- He. split_and!.
    + rewrite Hs', Hs, map_app. by rewrite app_assoc.
    + by apply Forall_app.
    + rewrite map_app, concat_app, <- app_assoc, Hd', Hd. done.
    + done.
    + intros Hcalm. apply Hc', Hc, Hcalm.
  - exists fs, (rest ++ ds2). subst ds1. rewrite app_assoc. by split_and!.
Qed.

(** The load of the flag. *)
Lemma ships_unless_stopped w pos ds (k : io Walk) :
  (forall w', sent w' = sent w -> (calm w -> calm w') -> ships (k w') w' pos ds) ->
  ships ((stop <~ shutdown ;; if stop then iret (Stopped pos) else k) w) w pos ds.
Proof using Type.
  clear. intros Hk. unfold ibind, shutdown. destruct (default false (head (shutdowns w))) eqn:Hsd.
  - apply ships_stop; [done|]. intros [_ H2]. destruct (shutdowns w) as [|b bs]; [done|].
    apply Forall_cons_1 in H2 as [<- _]. done.
  - set (w' := {| sent := _; accepts := _; shutdowns := _ |}).
    assert (Hc : calm w -> calm w').
    { intros [H1 H2]. split; [done|]. cbn. destruct (shutdowns w); [done|]. by apply Forall_cons_1 in H2 as [_ ?]. }
    destruct (Hk w' eq_refl Hc) as (fs & rest & Hs & Hb & Hd & Hr & Hcalm).
    exists fs, rest. by split_and!; eauto.
Qed.

(** *** One file *)
Lemma send_batches_ships fuel file sc seq items tail pos w :
  Forall item_ok items -> 0 <= seq -> seq + Z.of_nat (length items) <= u64_max ->
  quiet tail -> (length items <= length file)%nat -> ahead file sc = stream seq items ++ tail ->
  (length items < fuel)%nat ->
  ships (send_batches (E:=E) crc32c fuel file sc pos w) w pos (entries seq items).
Proof using fits_one_entry crc_range AppEventLaws0.
  revert sc seq items pos w. induction fuel as [|fuel IH];
    intros sc seq items pos w Hit Hs Hm Hq Hf Ha Hfuel; [lia|].
  cbn [send_batches]. apply ships_unless_stopped. intros w1 Hw1 Hc1.
  destruct (batch_reads crc32c fits_one_entry file BATCH_BYTES None sc seq items tail Hit Hs Hm Hq Hf Ha)
    as (k & sc' & Hk & Hpos & Hb & Ha' & Hmax).
  unfold read_raw_batch. rewrite Hb. cbn [allowed] in Hk, Hpos.
  destruct (k =? 0)%nat eqn:Hk0; [apply Nat.eqb_eq in Hk0|apply Nat.eqb_neq in Hk0].
  { destruct items as [|it items]; [|cbn [length] in Hpos; lia]. apply ships_nil. }
  assert (Hcount : Z.of_nat (length (take k items)) <= u16_max).
  { destruct Hmax as [Hmax|Hmax]; [rewrite length_take; widths; lia|].
    pose proof (stream_long crc32c fits_one_entry seq (take k items) ltac:(by apply Forall_take)) as Hl.
    unfold BATCH_BYTES in Hmax. widths. lia. }
  rewrite (Wire.Mirror.frame_from_journal crc32c crc_range fits_one_entry)
    by (try apply Forall_take; done || (rewrite length_take; lia)).
  unfold lift at 1. unfold ibind at 1. cbn [rmap_err fst].
  rewrite <- (take_drop k items) at 2. rewrite entries_app_at, length_take, Nat.min_l by lia.
  apply (ships_publish w1 pos (Batch seq (take k items)) (entries (seq + Z.of_nat k) (drop k items))).
  - split; [intros Hn; apply (f_equal length) in Hn; rewrite length_take in Hn; cbn in Hn; lia|].
    destruct Hmax; [left; rewrite length_take; lia|by right].
  - intros w2 Hw2 Hc2. cbn [reached foldl]. rewrite length_take, Nat.min_l by lia.
    apply IH; first [done | by apply Forall_drop | rewrite ?length_drop; lia].
Qed.
(** The last sequence among deliveries. *)
Definition end_of (pos : Z) (ds : list Delivery) : Z :=
  foldl (fun p d => match d with Boundary _ _ => p | Entry seq _ => seq end) pos ds.

Lemma end_of_app pos ds es : end_of pos (ds ++ es) = end_of (end_of pos ds) es.
Proof using Type. clear. unfold end_of. by rewrite foldl_app. Qed.

Lemma end_of_entries pos seq items :
  end_of pos (entries seq items) = if (length items =? 0)%nat then pos else seq + Z.of_nat (length items) - 1.
Proof using Type.
  clear. revert pos seq. induction items as [|it items IH]; intros pos seq; [done|].
  cbn [entries end_of foldl]. fold (end_of seq (entries (seq + 1) items)). rewrite IH. cbn [length Nat.eqb].
  destruct (length items =? 0)%nat eqn:Hz; [apply Nat.eqb_eq in Hz|]; lia.
Qed.

Lemma reached_contents pos fs :
  Forall bounded fs -> reached pos fs = end_of pos (concat (map contents fs)).
Proof using Type.
  clear. revert pos. induction fs as [|f fs IH]; intros pos Hb; [done|]. apply Forall_cons_1 in Hb as [Hf Hb].
  cbn [map concat]. rewrite end_of_app, <- IH by done. destruct f as [b a|seq items]; [done|].
  destruct Hf as [Hne _]. cbn [contents]. rewrite end_of_entries.
  destruct items; [done|]. reflexivity.
Qed.

(** The position on entering a segment, and on leaving it. *)
Definition entering (last : Z) (start : Z) : Z := Z.max last (start - 1).

Lemma end_of_due last s :
  1 <= g_start s -> end_of (entering last (g_start s)) (due last s) = entering last (seg_next s).
Proof using Type.
  clear. intros Hs. unfold due, entering, seg_next. rewrite end_of_app.
  match goal with |- context [end_of ?p (if ?b then _ else _)] =>
    replace (end_of p (if b then _ else _)) with p by (by destruct b) end.
  rewrite end_of_entries, length_drop. destruct (_ =? 0)%nat eqn:Hz; [apply Nat.eqb_eq in Hz|apply Nat.eqb_neq in Hz]; lia.
Qed.

Definition file_of (g : option Z) (x : Seg (E:=E) * list Z) : list Z :=
  segment crc32c (g_start (fst x)) (g_anchor (fst x)) g (g_items (fst x)) (snd x).

Lemma send_file_ships idx g s tail last w :
  seg_ok g s -> quiet tail -> in_u64 last ->
  let pos := entering last (g_start s) in
  ships (send_file (E:=E) crc32c script idx (file_of g (s, tail)) pos w) w pos (due last s).
Proof using fits_one_entry crc_range AppEventLaws0.
  intros Hok Hq Hlast pos. unfold seg_ok, seg_next in Hok.
  assert (Hok' : segment_ok (g_start s) (g_anchor s) g (g_items s)) by exact Hok.
  destruct (segment_opens crc32c crc_range fits_one_entry (g_start s) (g_anchor s) g (g_items s) tail (script idx) Hok')
    as (Hi & (sc & Ho & Ha) & Hlen & _ & _).
  destruct Hok as (_ & Hs1 & Hm & Hit).
  unfold send_file. apply ships_unless_stopped. intros w1 Hw1 Hc1. unfold file_of. cbn [fst snd].
  set (file := segment crc32c _ _ _ _ _) in *. unfold lift at 1. unfold ibind at 1. rewrite Hi. cbn [rmap_err].
  set (k := Nat.min (length (g_items s)) (Z.to_nat (last - g_start s + 1))).
  assert (Hrest : forall w2, ships ((sc <~ lift (open crc32c file (script idx)) ;;
      send_batches (E:=E) crc32c (S (length file)) file (skip_to_after file pos sc) pos) w2) w2 pos
      (entries (g_start s + Z.of_nat k) (drop k (g_items s)))).
  { intros w2. unfold lift at 1. unfold ibind at 1. rewrite Ho. cbn [rmap_err].
    apply (send_batches_ships _ _ _ _ _ tail); try by apply Forall_drop.
    - lia.
    - rewrite length_drop. lia.
    - done.
    - rewrite length_drop. lia.
    - unfold skip_to_after. rewrite skip_loop_raw, Ha.
      rewrite (skip_stream crc32c fits_one_entry) by (done || lia).
      by replace (Nat.min (length (g_items s)) (Z.to_nat (pos - g_start s + 1))) with k by (unfold k, pos, entering; lia).
    - rewrite length_drop. lia. }
  unfold due. fold k. unfold announce. cbn [starting_sequence anchor_hash].
  replace (pos =? g_start s - 1) with (last <=? g_start s - 1)
    by (unfold pos, entering; destruct (_ <=? _) eqn:?; destruct (_ =? _) eqn:?; zb; lia).
  destruct (_ && _); [|exact (Hrest w1)].
  apply (ships_publish w1 pos (Rotated (g_start s - 1) (g_anchor s))); [exact I|]. intros w2 _ _. exact (Hrest w2).
Qed.

Lemma send_files_ships idx g last (files : list (Seg (E:=E) * list Z)) start anchor start' anchor' w :
  linked crc32c blake3 start anchor (map fst files) start' anchor' -> Forall (seg_ok g) (map fst files) ->
  Forall quiet (map snd files) -> in_u64 last ->
  ships (send_files (E:=E) crc32c script idx (map (file_of g) files) (entering last start) w) w
    (entering last start) (concat (map (due last) (map fst files))) /\
  end_of (entering last start) (concat (map (due last) (map fst files))) = entering last start'.
Proof using fits_one_entry crc_range AppEventLaws0.
  revert idx start anchor w. induction files as [|[s tail] files IH]; intros idx start anchor w Hl Hok Hq Hlast.
  { destruct Hl as [-> ->]. split; [apply ships_nil|done]. }
  cbn [map fst snd linked concat send_files] in *. destruct Hl as (Hst & Han & Hl). subst start anchor.
  apply Forall_cons_1 in Hok as [Hok Hoks], Hq as [Hq Hqs].
  assert (Hend : end_of (entering last (g_start s)) (due last s) = entering last (seg_next s))
    by (apply end_of_due, Hok).
  split.
  - apply ships_then; [by apply send_file_ships|]. intros w' e fs Hb Hd ->.
    rewrite reached_contents, Hd, Hend by done. eapply (IH _ _ _ w'); eauto.
  - rewrite end_of_app, Hend. eapply (IH 0%nat _ _ w); eauto.
Qed.
(** *** Which segment *)
Local Notation linked := (linked crc32c blake3).

Lemma linked_app start anchor xs ys start' anchor' :
  linked start anchor (xs ++ ys) start' anchor' <->
  exists mid amid, linked start anchor xs mid amid /\ linked mid amid ys start' anchor'.
Proof using Type.
  clear. revert start anchor. induction xs as [|x xs IH]; intros start anchor; cbn [app History.linked].
  - split; [intros Hl; by exists start, anchor|]. by intros (m & a & [-> ->] & Hl).
  - rewrite IH. split.
    + intros (? & ? & m & a & ? & ?). exists m, a. auto.
    + intros (m & a & (? & ? & ?) & ?). split; [done|]. split; [done|]. by exists m, a.
Qed.

Lemma linked_starts start anchor xs start' anchor' :
  linked start anchor xs start' anchor' ->
  start <= start' /\ Forall (fun s => start <= g_start s <= start' /\ seg_next s <= start') xs.
Proof using Type.
  clear. revert start anchor. induction xs as [|x xs IH]; intros start anchor; cbn [History.linked].
  - intros [-> _]. split; [lia|constructor].
  - intros (Hs & _ & [Hle Hall]%IH). unfold seg_next in *. split; [lia|]. constructor; [lia|].
    eapply Forall_impl; [exact Hall|]. cbn. intros s' ?. lia.
Qed.

(** How many segments open at or before a sequence. *)
Definition opened (seq : Z) (segs : list (Seg (E:=E))) : nat :=
  length (List.filter (fun s => g_start s <=? seq) segs).

Definition info_of (g : option Z) (s : Seg (E:=E)) : FileHeaderInfo :=
  {| sector_size := MAX_SECTOR_SIZE; starting_sequence := g_start s; anchor_hash := g_anchor s;
     genesis_entries := g |}.

Lemma opened_all seq segs : Forall (fun s => g_start s <= seq) segs -> opened seq segs = length segs.
Proof using Type.
  clear. unfold opened. induction 1 as [|s segs Hs _ IH]; [done|]. cbn [List.filter].
  rewrite (proj2 (Z.leb_le _ _) Hs). cbn [length]. lia.
Qed.

Lemma opened_le seq segs : (opened seq segs <= length segs)%nat.
Proof using Type.
  clear. unfold opened. induction segs as [|s segs IH]; [done|]. cbn [List.filter length].
  destruct (_ <=? _); cbn [length]; lia.
Qed.

Lemma opened_snoc seq segs s :
  opened seq (segs ++ [s]) = (opened seq segs + if (g_start s <=? seq)%Z then 1 else 0)%nat.
Proof using Type.
  clear. unfold opened. rewrite List.filter_app, length_app. cbn [List.filter]. by destruct (_ <=? _).
Qed.

Lemma opened_split seq segs start anchor start' anchor' :
  linked start anchor segs start' anchor' ->
  Forall (fun s => g_start s <= seq) (take (opened seq segs) segs) /\
  Forall (fun s => seq < g_start s) (drop (opened seq segs) segs).
Proof using Type.
  clear. unfold opened. revert start anchor. induction segs as [|s segs IH]; intros start anchor; [done|].
  cbn [History.linked List.filter]. intros (Hs & _ & Hl). destruct (g_start s <=? seq) eqn:Hle; zb.
  - cbn [length take drop]. destruct (IH _ _ Hl). by split; [constructor|].
  - destruct (linked_starts _ _ _ _ _ Hl) as [_ Hall].
    assert (Hgt : Forall (fun s => seq < g_start s) segs)
      by (eapply Forall_impl; [exact Hall|]; unfold seg_next; cbn; intros; lia).
    replace (List.filter _ segs) with (@nil (Seg (E:=E))); [by split; constructor|].
    clear -Hgt. induction Hgt as [|x l Hx _ IH]; [done|]. cbn [List.filter].
    by rewrite (proj2 (Z.leb_gt _ _) Hx).
Qed.

(** The segment that holds a sequence opens at or before it. *)
Lemma opened_last seq segs start anchor start' anchor' i s :
  linked start anchor segs start' anchor' -> opened seq segs = S i -> segs !! i = Some s -> g_start s <= seq.
Proof using Type.
  clear. intros Hl Ho Hi. destruct (opened_split seq _ _ _ _ _ Hl) as [Hle _]. rewrite Ho in Hle.
  rewrite Forall_lookup in Hle. apply (Hle i). by rewrite lookup_take_lt by lia.
Qed.

Lemma header_of g s tail :
  seg_ok g s -> read_header_info crc32c (file_of g (s, tail)) = Ok (info_of g s).
Proof using fits_one_entry crc_range AppEventLaws0.
  intros Hok. by destruct (segment_opens crc32c crc_range fits_one_entry (g_start s) (g_anchor s) g (g_items s) tail [] Hok)
    as (Hi & _).
Qed.

Lemma containing_written g seq (files : list (Seg (E:=E) * list Z)) start anchor start' anchor' :
  linked start anchor (map fst files) start' anchor' -> Forall (seg_ok g) (map fst files) ->
  containing_segment crc32c (map (file_of g) files) seq =
    Ok match opened seq (map fst files) with
       | O => None
       | S i => (fun s => (i, info_of g s)) <$> map fst files !! i
       end.
Proof using fits_one_entry crc_range AppEventLaws0.
  revert start' anchor'. induction files as [|[s tail] files IH] using rev_ind; intros start' anchor' Hl Hok; [done|].
  rewrite !map_app in *. cbn [map fst] in *. apply linked_app in Hl as (mid & amid & Hl & Hs & Ha & _).
  apply Forall_app in Hok as [Hoks Hok]. rewrite Forall_singleton in Hok.
  unfold containing_segment. rewrite imap_app, rev_app_distr. cbn [imap rev app newest_from]. unfold compose.
  rewrite (header_of g s tail Hok). cbn [rbind starting_sequence info_of]. rewrite Nat.add_0_r, length_map.
  rewrite opened_snoc. destruct (g_start s <=? seq) eqn:Hle; zb.
  - destruct (linked_starts _ _ _ _ _ Hl) as [_ Hall].
    rewrite opened_all, Nat.add_1_r, length_map by (eapply Forall_impl; [exact Hall|]; cbn; intros; lia).
    rewrite lookup_app_r, length_map, Nat.sub_diag by (rewrite length_map; lia). done.
  - specialize (IH _ _ Hl Hoks). unfold containing_segment in IH. rewrite IH, Nat.add_0_r.
    destruct (opened seq (map fst files)) as [|i] eqn:Ho; [done|].
    pose proof (opened_le seq (map fst files)). by rewrite lookup_app_l by lia.
Qed.

(** What the whole lineage means to a replica at [last]: the segments from the one
    that holds its next sequence. *)
Definition owed (last : Z) (segs : list (Seg (E:=E))) : list Delivery :=
  concat (map (due last) (drop (pred (opened (last + 1) segs)) segs)).

Definition as_entry (d : Delivery) : option (Z * item) :=
  match d with Boundary _ _ => None | Entry seq it => Some (seq, it) end.

Fixpoint numbered (seq : Z) (items : list item) : list (Z * item) :=
  match items with [] => [] | it :: rest => (seq, it) :: numbered (seq + 1) rest end.

Lemma numbered_app seq xs ys :
  numbered seq (xs ++ ys) = numbered seq xs ++ numbered (seq + Z.of_nat (length xs)) ys.
Proof using Type.
  clear. revert seq. induction xs as [|x xs IH]; intros seq; cbn [numbered app length]; [by rewrite Z.add_0_r|].
  rewrite IH. do 3 f_equal. lia.
Qed.

Lemma numbered_length seq items : length (numbered seq items) = length items.
Proof using Type. clear. revert seq. induction items as [|it items IH]; intros seq; cbn; [done|]. by rewrite IH. Qed.

Lemma as_entry_entries seq items : omap as_entry (entries seq items) = numbered seq items.
Proof using Type. clear. revert seq. induction items as [|it items IH]; intros seq; cbn; [done|]. by rewrite <- IH. Qed.

Lemma numbered_drop seq items k : drop k (numbered seq items) = numbered (seq + Z.of_nat k) (drop k items).
Proof using Type.
  clear. revert seq k. induction items as [|it items IH]; intros seq [|k]; cbn [numbered drop]; try done.
  - by rewrite Z.add_0_r.
  - rewrite IH. f_equal. lia.
Qed.

Lemma due_entries last s :
  omap as_entry (due last s) = drop (Z.to_nat (last - g_start s + 1)) (numbered (g_start s) (g_items s)).
Proof using Type.
  clear. unfold due. rewrite omap_app.
  match goal with |- context [omap as_entry (if ?b then _ else _)] =>
    replace (omap as_entry (if b then _ else _)) with (@nil (Z * item)) by (by destruct b) end.
  rewrite as_entry_entries. cbn [app]. set (m := Z.to_nat (last - g_start s + 1)).
  rewrite <- numbered_drop. destruct (decide (m <= length (g_items s))%nat).
  - by rewrite Nat.min_r by lia.
  - rewrite Nat.min_l, !drop_ge by (rewrite ?numbered_length; lia). done.
Qed.

Lemma dues_entries last segs start anchor start' anchor' :
  linked start anchor segs start' anchor' ->
  omap as_entry (concat (map (due last) segs)) =
    drop (Z.to_nat (last - start + 1)) (numbered start (concat (map g_items segs))).
Proof using Type.
  clear. revert start anchor. induction segs as [|s segs IH]; intros start anchor; cbn [History.linked map concat].
  - intros _. cbn. by rewrite drop_nil.
  - intros (Hs & _ & Hl). rewrite omap_app, due_entries, (IH _ _ Hl), numbered_app, drop_app, numbered_length.
    subst start. unfold seg_next. do 2 f_equal. lia.
Qed.

Lemma owed_entries last segs start anchor start' anchor' :
  linked start anchor segs start' anchor' -> 0 <= last -> start <= last + 1 ->
  omap as_entry (owed last segs) =
    drop (Z.to_nat (last - start + 1)) (numbered start (concat (map g_items segs))).
Proof using fits_one_entry.
  intros Hl H0 Hs. unfold owed. set (n := opened (last + 1) segs).
  pose proof Hl as Hcut. rewrite <- (take_drop (pred n) segs) in Hcut.
  apply linked_app in Hcut as (mid & amid & Hl1 & Hl2).
  rewrite (dues_entries _ _ _ _ _ _ Hl2). rewrite <- (take_drop (pred n) segs) at 2.
  pose proof (linked_count crc32c blake3 _ _ _ _ _ Hl1) as Hc.
  rewrite map_app, concat_app, numbered_app, drop_app, numbered_length, <- Hc.
  assert (Hmid : mid <= last + 1).
  { destruct n as [|i] eqn:Hn; cbn [pred] in *.
    - rewrite take_0 in Hl1. destruct Hl1 as [-> _]. lia.
    - destruct (lookup_lt_is_Some_2 segs i) as [s Hsi]; [pose proof (opened_le (last + 1) segs); lia|].
      pose proof (opened_last _ _ _ _ _ _ _ _ Hl Hn Hsi) as Hle.
      rewrite (drop_S _ _ _ Hsi) in Hl2. cbn [History.linked] in Hl2. destruct Hl2 as (<- & _ & _). done. }
  rewrite (drop_ge (numbered start _)) by (rewrite numbered_length; lia). cbn [app].
  f_equal. lia.
Qed.
(** The files of a journal: archives and, last, the live segment, each with what
    follows its entries (zeros, or a torn entry). *)
Definition on_disk (g : option Z) (files : list (Seg (E:=E) * list Z)) (d : JournalDir) : Prop :=
  discover_journal_files d = map (file_of g) files.

(** Every walk ends where its deliveries do. *)
Lemma stream_journal_ships g files d start anchor start' anchor' last w :
  linked start anchor (map fst files) start' anchor' -> Forall (seg_ok g) (map fst files) ->
  Forall quiet (map snd files) -> on_disk g files d -> files <> [] -> 0 <= last < u64_max ->
  stream_journal (E:=E) crc32c script d last w =
  if start <=? last + 1 then
    match send_files (E:=E) crc32c script (pred (opened (last + 1) (map fst files)))
            (map (file_of g) (drop (pred (opened (last + 1) (map fst files))) files)) last w with
    | (Ok (Stopped e | Walked e), w') => (Ok (CaughtUp e), w')
    | (Err e, w') => (Err e, w')
    end
  else (Ok NeedSnapshot, w).
Proof using fits_one_entry crc_range AppEventLaws0.
  intros Hl Hok Hq Hd Hne Hlast. unfold stream_journal. rewrite Hd, length_map.
  rewrite (proj2 (Nat.eqb_neq _ _)) by (by destruct files).
  replace (sat_add last 1) with (last + 1) by (unfold sat_add; lia).
  unfold lift at 1. unfold ibind at 1. rewrite (containing_written g (last + 1) files _ _ _ _ Hl Hok). cbn [rmap_err].
  destruct files as [|[s t] rest]; [done|]. set (files := (s, t) :: rest) in *.
  assert (Hs : g_start s = start) by (cbn in Hl; tauto).
  destruct (start <=? last + 1) eqn:Hle; zb.
  - destruct (opened (last + 1) (map fst files)) as [|i] eqn:Ho.
    { unfold opened in Ho. cbn [files map fst List.filter] in Ho. rewrite Hs, (proj2 (Z.leb_le _ _) Hle) in Ho. done. }
    destruct (lookup_lt_is_Some_2 (map fst files) i) as [x Hx]; [pose proof (opened_le (last + 1) (map fst files)); lia|].
    rewrite Hx. cbn [fmap option_fmap option_map pred]. unfold ibind at 1. rewrite <- map_drop.
    destruct (send_files _ _ _ _ _ _) as [[[e|e]|e] w']; done.
  - destruct (linked_starts _ _ _ _ _ Hl) as [_ Hall].
    replace (opened (last + 1) (map fst files)) with 0%nat; [done|].
    destruct (opened (last + 1) (map fst files)) as [|i] eqn:Ho; [done|].
    destruct (lookup_lt_is_Some_2 (map fst files) i) as [x Hx]; [pose proof (opened_le (last + 1) (map fst files)); lia|].
    pose proof (opened_last _ _ _ _ _ _ _ _ Hl Ho Hx). rewrite Forall_lookup in Hall. specialize (Hall _ _ Hx). lia.
Qed.

(** A walk that has a segment to start from. *)
Lemma walk_outcome g files d start anchor start' anchor' last w :
  linked start anchor (map fst files) start' anchor' -> Forall (seg_ok g) (map fst files) ->
  Forall quiet (map snd files) -> on_disk g files d -> files <> [] -> 0 <= last < u64_max ->
  start <= last + 1 ->
  let segs := map fst files in
  let r := stream_journal (E:=E) crc32c script d last w in
  exists fs rest,
    sent (snd r) = sent w ++ map bytes_of fs /\ Forall bounded fs /\
    concat (map contents fs) ++ rest = owed last segs /\
    match fst r with
    | Ok (CaughtUp e) => e = reached last fs
    | Ok NeedSnapshot => False
    | Err e => e = Publish
    end /\
    (calm w -> rest = [] /\ fst r = Ok (CaughtUp (Z.max last (start' - 1))) /\ calm (snd r)).
Proof using fits_one_entry crc_range AppEventLaws0.
  intros Hl Hok Hq Hd Hne Hlast Hle segs r. unfold r.
  rewrite (stream_journal_ships g files d start anchor start' anchor' last w) by done. fold segs.
  rewrite (proj2 (Z.leb_le _ _) Hle). set (n := pred (opened (last + 1) segs)).
  pose proof Hl as Hcut. fold segs in Hcut. rewrite <- (take_drop n segs) in Hcut.
  apply linked_app in Hcut as (mid & amid & Hl1 & Hl2). unfold segs in Hl2. rewrite <- map_drop in Hl2.
  assert (Hmid : entering last mid = last).
  { unfold entering. destruct (opened (last + 1) segs) as [|i] eqn:Ho; cbn [pred] in n.
    - unfold n in Hl1. rewrite take_0 in Hl1. destruct Hl1 as [-> _]. lia.
    - destruct (lookup_lt_is_Some_2 segs i) as [x Hx]; [pose proof (opened_le (last + 1) segs); lia|].
      pose proof (opened_last _ _ _ _ _ _ _ _ Hl Ho Hx) as Hx'. unfold n in Hl2.
      rewrite map_drop in Hl2. fold segs in Hl2. rewrite (drop_S _ _ _ Hx) in Hl2.
      cbn [History.linked] in Hl2. destruct Hl2 as (<- & _ & _). lia. }
  destruct (send_files_ships n g last (drop n files) mid amid start' anchor' w Hl2) as [Hsh Hend].
  { rewrite map_drop. by apply Forall_drop. }
  { rewrite map_drop. by apply Forall_drop. }
  { widths. lia. }
  rewrite Hmid in Hsh, Hend. rewrite (map_drop fst) in Hsh. rewrite (map_drop fst) in Hend. fold segs in Hsh, Hend.
  destruct Hsh as (fs & rest & Hs & Hb & Hc & Hr & Hcalm).
  assert (Hwhole : rest = [] -> reached last fs = Z.max last (start' - 1)).
  { intros ->. rewrite app_nil_r in Hc. rewrite reached_contents, Hc by done. exact Hend. }
  exists fs, rest. unfold owed. fold segs n.
  destruct (send_files _ _ _ _ _ _) as [[[e|e]|e] w']; cbn [fst snd] in *; split_and!; try done.
  - intros Hw. by destruct (Hcalm Hw) as [_ [? ?]].
  - apply Hr.
  - intros Hw. destruct Hr as [-> Hrest]. destruct (Hcalm Hw) as [Hcw _].
    split; [done|]. split; [do 2 f_equal; auto|done].
  - intros Hw. by destruct (Hcalm Hw) as [_ [? ?]].
Qed.

(** C20: What catch-up ships. On a journal of linked segments, whatever pads or
    tears their ends and however reads are split: if the oldest segment opens past
    the replica's next sequence nothing is sent and a snapshot is called for.
    Otherwise the frames sent, cut short only by a failing transport or a
    shutdown, are batches of at most 64 KiB of entries (or of one), and Rotate
    announcements, that together say exactly what the replica lacks: each entry
    past its last, once and in order, with every segment boundary from its position
    on announced before the entries behind it; and the position returned is the
    last entry sent. Undisturbed, the whole of it is sent and the position is the
    journal's tip. *)
Theorem catch_up_exact g files d start anchor start' anchor' last w :
  linked start anchor (map fst files) start' anchor' -> Forall (seg_ok g) (map fst files) ->
  Forall quiet (map snd files) -> on_disk g files d -> files <> [] -> 0 <= last < u64_max ->
  let segs := map fst files in
  let r := stream_journal (E:=E) crc32c script d last w in
  if start <=? last + 1 then
    omap as_entry (owed last segs) =
      drop (Z.to_nat (last - start + 1)) (numbered start (concat (map g_items segs))) /\
    exists fs rest,
      sent (snd r) = sent w ++ map bytes_of fs /\ Forall bounded fs /\
      concat (map contents fs) ++ rest = owed last segs /\
      match fst r with
      | Ok (CaughtUp e) => e = reached last fs
      | Ok NeedSnapshot => False
      | Err e => e = Publish
      end /\
      (calm w -> rest = [] /\ fst r = Ok (CaughtUp (Z.max last (start' - 1))))
  else r = (Ok NeedSnapshot, w).
Proof using fits_one_entry crc_range AppEventLaws0.
  intros Hl Hok Hq Hd Hne Hlast segs r. destruct (start <=? last + 1) eqn:Hle; zb.
  - split; [eapply owed_entries; eauto; lia|].
    destruct (walk_outcome g files d start anchor start' anchor' last w Hl Hok Hq Hd Hne Hlast Hle)
      as (fs & rest & H1 & H2 & H3 & H4 & H5).
    exists fs, rest. split_and!; try done. intros Hw. destruct (H5 Hw) as (? & ? & _). done.
  - unfold r. rewrite (stream_journal_ships g files d start anchor start' anchor' last w) by done.
    by rewrite (proj2 (Z.leb_gt _ _)) by lia.
Qed.
End shipping.
End Shipping.

(** ** The position a replica claims *)
Module Validate.
Import CatchUp Scanner.Scanner.

Section validate.
Context (crc32c : list Z -> Z) (blake3 : list Z -> list Z).
Context (script : nat -> list nat).

Inductive DivergenceKind := ChainMismatch | AheadOfTip.
Inductive HandshakeValidation := Valid | Divergent (kind : DivergenceKind).
Inductive ChainAtSequence := At (hash : list Z) | PredatesHistory | Beyond.

(** The closure [opener]: the anchor of the [idx]th file, if it opens behind [seq].
    The sum wraps as the optimised build's does. *)
Definition opener (files : list (list Z)) (seq : Z) (idx : nat) : result (option (list Z)) JournalError :=
  match files !! idx with
  | Some file =>
    i <-? read_header_info crc32c file ;;
    Ok (if starting_sequence i =? wrapping_add seq 1 then Some (anchor_hash i) else None)
  | None => Ok None
  end.

Definition chain_at_sequence (d : JournalDir) (seq : Z) : result ChainAtSequence JournalError :=
  let files := discover_journal_files d in
  found <-? containing_segment crc32c files seq ;;
  match found with
  | None =>
    a <-? opener files seq 0 ;;
    Ok match a with Some anchor => At anchor | None => PredatesHistory end
  | Some (idx, _) =>
    a <-? opener files seq (S idx) ;;
    match a with
    | Some anchor => Ok (At anchor)
    | None =>
      v <-? chain_value_at crc32c blake3 (default [] (files !! idx)) seq (script idx) ;;
      Ok match v with Value h => At h | BeyondTip => Beyond end
    end
  end.

Definition validate_replica_handshake (d : JournalDir) (h : Control.Handshake)
    : result HandshakeValidation JournalError :=
  if Control.last_sequence h =? 0 then Ok Valid
  else
    let chainless_peer := bool_decide (Control.chain_hash h = replicate 32 0) in
    c <-? chain_at_sequence d (Control.last_sequence h) ;;
    Ok match c with
       | At local =>
         if chainless_peer then Valid
         else if bool_decide (local = Control.chain_hash h) then Valid
         else Divergent ChainMismatch
       | PredatesHistory => Valid
       | Beyond => Divergent AheadOfTip
       end.

(** [validate_replica_handshake_settled]: up to [attempts] looks, the journal as
    each of them finds it. *)
Fixpoint settle (attempts : nat) (ds : nat -> JournalDir) (k : nat) (h : Control.Handshake)
    (verdict : HandshakeValidation) : result HandshakeValidation JournalError :=
  match attempts with
  | O => Ok verdict
  | S attempts =>
    match verdict with
    | Valid => Ok Valid
    | Divergent _ => v <-? validate_replica_handshake (ds k) h ;; settle attempts ds (S k) h v
    end
  end.
Definition ATTEMPTS : nat := 8.
Definition validate_replica_handshake_settled (ds : nat -> JournalDir) (h : Control.Handshake)
    : result HandshakeValidation JournalError :=
  v <-? validate_replica_handshake (ds 0%nat) h ;; settle (ATTEMPTS - 1) ds 1 h v.
End validate.
End Validate.

Module Verdict.
Import CatchUp Validate Shipping Scanner.Scanner Scanner.Written.
Import Codec.Facts Journal.Segment Journal.Stream Segments.History.

Section verdict.
Context {E : Type} `{AppEvent E}.
Context (crc32c : list Z -> Z) (blake3 : list Z -> list Z).
Hypothesis crc_range : forall bs, in_u32 (crc32c bs).
Context `{!AppEventLaws E}.
Hypothesis fits_one_entry : (entry_size (E:=E) <= MAX_ENTRY_SIZE)%nat.
Context (script : nat -> list nat).

Local Notation linked := (linked crc32c blake3).

(** The writer's chain value after [seq], by the lineage: the anchor where the
    first segment opens, the hash of the entries and the anchor inside one. *)
Fixpoint chain_of (segs : list (Seg (E:=E))) (seq : Z) : option (list Z) :=
  match segs with
  | [] => None
  | s :: rest =>
    if seq =? g_start s - 1 then Some (g_anchor s)
    else if covers (g_start s) (g_items s) seq
    then Some (seg_tail crc32c blake3 {| g_start := g_start s; g_anchor := g_anchor s;
                 g_items := take (Z.to_nat (seq - g_start s + 1)) (g_items s) |})
    else chain_of rest seq
  end.

(** The chain a position inside a segment has, found by its scan. *)
Lemma scan_finds s seq k :
  covers (g_start s) (g_items s) seq = true -> k = reach (g_start s) seq (g_items s) ->
  blake3 (stream crc32c (g_start s) (take k (g_items s)) ++ g_anchor s) =
  seg_tail crc32c blake3 {| g_start := g_start s; g_anchor := g_anchor s;
    g_items := take (Z.to_nat (seq - g_start s + 1)) (g_items s) |}.
Proof using Type.
  clear. intros Hc ->. unfold covers in Hc. zb. unfold seg_tail, Chain.value, reach, allowed.
  cbn [g_start g_anchor g_items Chain.dirty Chain.absorbed Chain.anchor].
  rewrite length_take, Nat.min_r by lia.
  rewrite (proj2 (Nat.eqb_neq _ _)) by lia. done.
Qed.
(** Segments that end before [seq] do not count. *)
Lemma chain_of_skip pre rest seq :
  Forall (fun s => g_start s <= seq /\ seg_next s <= seq) pre -> chain_of (pre ++ rest) seq = chain_of rest seq.
Proof using Type.
  clear. induction 1 as [|s pre [Hs Hn] _ IH]; [done|]. cbn [app chain_of]. rewrite IH.
  rewrite (proj2 (Z.eqb_neq _ _)) by lia. unfold covers, seg_next in *.
  by rewrite (proj2 (Z.ltb_ge seq _)), andb_false_r by lia.
Qed.

Lemma opener_at g files seq i s t :
  Forall (seg_ok g) (map fst files) -> files !! i = Some (s, t) -> 0 <= seq < u64_max ->
  opener crc32c (map (file_of crc32c g) files) seq i =
    Ok (if g_start s =? seq + 1 then Some (g_anchor s) else None).
Proof using fits_one_entry crc_range AppEventLaws0.
  intros Hok Hi Hseq. unfold opener. rewrite list_lookup_fmap, Hi. cbn [fmap option_fmap option_map].
  rewrite (header_of crc32c crc_range fits_one_entry).
  - cbn [rbind starting_sequence anchor_hash info_of]. unfold wrapping_add.
    by rewrite Z.mod_small by (widths; lia).
  - rewrite Forall_map, Forall_lookup in Hok. exact (Hok _ _ Hi).
Qed.

Lemma opener_past g files seq i :
  (length files <= i)%nat -> opener crc32c (map (file_of (E:=E) crc32c g) files) seq i = Ok None.
Proof using Type. clear. intros Hi. unfold opener. by rewrite lookup_ge_None_2 by (rewrite length_map; lia). Qed.

(** The value found is the writer's, and nothing else is. *)
Lemma chain_at_written g files d start anchor start' anchor' seq :
  linked start anchor (map fst files) start' anchor' -> Forall (seg_ok g) (map fst files) ->
  Forall quiet (map snd files) -> on_disk crc32c g files d -> files <> [] -> 0 <= seq < u64_max ->
  exists c, chain_at_sequence crc32c blake3 script d seq = Ok c /\
    if seq <? start - 1 then c = PredatesHistory
    else if seq <? start' then At <$> chain_of (map fst files) seq = Some c
    else c = Beyond.
Proof using fits_one_entry crc_range AppEventLaws0.
  intros Hl Hok Hq Hd Hne Hseq. unfold chain_at_sequence. rewrite Hd.
  rewrite (containing_written crc32c blake3 crc_range fits_one_entry g seq files _ _ _ _ Hl Hok). cbn [rbind].
  destruct (linked_starts crc32c blake3 _ _ _ _ _ Hl) as [Hss _].
  destruct (opened_split crc32c blake3 seq _ _ _ _ _ Hl) as [_ Hafter].
  destruct (opened seq (map fst files)) as [|i] eqn:Ho.
  { destruct files as [|[s t] rest]; [done|]. rewrite (opener_at g _ seq 0 s t Hok eq_refl Hseq). cbn [rbind].
    cbn [map fst linked drop] in Hl, Hafter. destruct Hl as (<- & <- & _). apply Forall_cons_1 in Hafter as [Hgt _].
    eexists. split; [done|]. destruct (g_start s =? seq + 1) eqn:He; zb.
    - rewrite (proj2 (Z.ltb_ge _ _)), (proj2 (Z.ltb_lt _ _)) by lia. cbn [map fst chain_of].
      by rewrite (proj2 (Z.eqb_eq seq _)) by lia.
    - by rewrite (proj2 (Z.ltb_lt _ _)) by lia. }
  assert (Hilt : (i < length files)%nat) by (pose proof (opened_le seq (map fst files)); rewrite length_map in *; lia).
  destruct (lookup_lt_is_Some_2 files i Hilt) as [[s t] Hi].
  assert (His : map fst files !! i = Some s) by (by rewrite list_lookup_fmap, Hi).
  pose proof (opened_last crc32c blake3 _ _ _ _ _ _ _ _ Hl Ho His) as Hle.
  rewrite His. cbn [fmap option_fmap option_map].
  rewrite list_lookup_fmap, Hi. cbn [fmap option_fmap option_map from_option id].
  assert (Hoks : seg_ok g s) by (rewrite Forall_lookup in Hok; eauto).
  assert (Hqs : quiet t) by (rewrite Forall_map, Forall_lookup in Hq; exact (Hq _ _ Hi)).
  pose proof (chain_value_written crc32c blake3 crc_range fits_one_entry _ _ g (g_items s) t seq (script i) Hoks Hqs) as Hcv.
  change (segment crc32c _ _ g _ t) with (file_of crc32c g (s, t)) in Hcv. rewrite Hcv.
  pose proof Hl as Hcut. rewrite <- (take_drop_middle _ _ _ His) in Hcut.
  apply linked_app in Hcut as (mid & amid & Hl1 & Hs & Ha & Hl2). subst mid amid.
  destruct (linked_starts crc32c blake3 _ _ _ _ _ Hl1) as [Hsm Hpre].
  destruct (linked_starts crc32c blake3 _ _ _ _ _ Hl2) as [Hms _].
  rewrite (proj2 (Z.ltb_ge seq (start - 1))) by lia.
  assert (Hchain : chain_of (map fst files) seq = chain_of (s :: drop (S i) (map fst files)) seq).
  { rewrite <- (take_drop_middle _ _ _ His) at 1. apply chain_of_skip.
    eapply Forall_impl; [exact Hpre|]. cbn. intros x ?. lia. }
  rewrite Hchain. cbn [chain_of]. rewrite (proj2 (Z.eqb_neq seq _)) by lia.
  destruct (drop (S i) (map fst files)) as [|s' post] eqn:Hpost.
  - (* the live segment *)
    cbn [History.linked] in Hl2. destruct Hl2 as [-> _].
    rewrite opener_past by (apply (f_equal length) in Hpost; rewrite length_drop, length_map in Hpost; cbn in Hpost; lia).
    cbn [rbind]. unfold covers. rewrite (proj2 (Z.leb_le _ _) Hle). cbn [andb]. fold (seg_next s).
    eexists. split; [done|]. destruct (seq <? seg_next s) eqn:Hlt; [|done].
    cbn [fmap option_fmap option_map]. do 2 f_equal. symmetry. apply scan_finds; [|done].
    unfold covers. by rewrite (proj2 (Z.leb_le _ _) Hle).
  - (* an archive: its successor opens past [seq] *)
    apply Forall_cons_1 in Hafter as [Hgt _]. cbn [History.linked] in Hl2. destruct Hl2 as (Hs' & Ha' & Hl3).
    destruct (linked_starts crc32c blake3 _ _ _ _ _ Hl3) as [Hms3 _].
    assert (Hcov : covers (g_start s) (g_items s) seq = true)
      by (unfold covers; apply andb_true_intro; unfold seg_next in Hs'; split; zb; lia).
    rewrite Hcov, (proj2 (Z.ltb_lt seq start')) by (unfold seg_next in *; lia).
    assert (Hi' : exists t', files !! S i = Some (s', t')).
    { assert (Hm : map fst files !! S i = Some s') by (rewrite <- (Nat.add_0_r (S i)), <- lookup_drop, Hpost; done).
      rewrite list_lookup_fmap in Hm. destruct (files !! S i) as [[x t']|]; [|done]. cbn in Hm. injection Hm as ->. by exists t'. }
    destruct Hi' as [t' Hi']. rewrite (opener_at g _ seq (S i) s' t' Hok Hi' Hseq). cbn [rbind].
    destruct (g_start s' =? seq + 1) eqn:Hop; zb.
    + eexists. split; [done|]. cbn [fmap option_fmap option_map]. do 2 f_equal. rewrite Ha'. unfold seg_tail. cbn [g_start g_anchor g_items].
      rewrite take_ge by (unfold seg_next in Hs'; lia). done.
    + eexists. split; [done|]. cbn [fmap option_fmap option_map]. do 2 f_equal. symmetry. by apply scan_finds.
Qed.

(** The judgement of a joining replica. On a journal of linked segments, in
    every position: a fresh replica and one behind the oldest surviving segment
    pass; one past the tip is ahead of it; and one in between, at a segment's
    opening as inside it, passes exactly if it reports the chain value this node's
    writer had after that entry, or none at all. *)
Theorem handshake_verdict g files d start anchor start' anchor' (h : Control.Handshake) :
  linked start anchor (map fst files) start' anchor' -> Forall (seg_ok g) (map fst files) ->
  Forall quiet (map snd files) -> on_disk crc32c g files d -> files <> [] ->
  0 <= Control.last_sequence h < u64_max ->
  let seq := Control.last_sequence h in
  exists v, validate_replica_handshake crc32c blake3 script d h = Ok v /\
    if (seq =? 0) || (seq <? start - 1) then v = Valid
    else if start' <=? seq then v = Divergent AheadOfTip
    else exists chain, chain_of (map fst files) seq = Some chain /\
      v = if bool_decide (Control.chain_hash h = replicate 32 0) || bool_decide (chain = Control.chain_hash h)
          then Valid else Divergent ChainMismatch.
Proof using fits_one_entry crc_range AppEventLaws0.
  intros Hl Hok Hq Hd Hne Hseq seq. unfold validate_replica_handshake. fold seq.
  destruct (seq =? 0) eqn:Hz; [by exists Valid|]. cbn [orb].
  destruct (chain_at_written g files d start anchor start' anchor' seq Hl Hok Hq Hd Hne Hseq) as (c & Hc & Hspec).
  rewrite Hc. cbn [rbind]. eexists. split; [done|].
  destruct (seq <? start - 1); [by rewrite Hspec|].
  destruct (seq <? start') eqn:Hlt; zb.
  - rewrite (proj2 (Z.leb_gt _ _)) by lia. destruct (chain_of (map fst files) seq) as [chain|]; [|done].
    injection Hspec as <-. exists chain. split; [done|].
    destruct (bool_decide (_ = replicate 32 0)); [done|]. by destruct (bool_decide _).
  - rewrite (proj2 (Z.leb_le _ _)) by lia. by rewrite Hspec.
Qed.

(** Segments that hold nothing leave the chain where it was. *)
Lemma linked_same (segs : list (Seg (E:=E))) start anchor anchor' :
  linked start anchor segs start anchor' -> anchor' = anchor.
Proof using Type.
  clear.
  revert start anchor. induction segs as [|s segs IH]; intros start anchor; cbn [History.linked]; [by intros [_ ->]|].
  intros (Hs & Ha & Hl). destruct (linked_starts crc32c blake3 _ _ _ _ _ Hl) as [Hle _].
  assert (Hn : length (g_items s) = 0%nat) by (unfold seg_next in Hle; lia).
  assert (Hnext : seg_next s = start) by (unfold seg_next; lia).
  rewrite Hnext in Hl. apply IH in Hl. rewrite Hl. unfold seg_tail, Chain.value. by rewrite Hn.
Qed.

(** Where a segment opens, the chain is its anchor. *)
Lemma chain_of_opening pre rest start anchor mid amid :
  linked start anchor pre mid amid ->
  match rest with [] => False | s :: _ => g_start s = mid /\ g_anchor s = amid end ->
  chain_of (pre ++ rest) (mid - 1) = Some amid.
Proof using Type.
  clear.
  revert start anchor. induction pre as [|x pre IH]; intros start anchor; cbn [History.linked Datatypes.app].
  - intros [-> ->] Hr. destruct rest as [|s rest]; [done|]. destruct Hr as [Hs Ha]. cbn [chain_of].
    by rewrite (proj2 (Z.eqb_eq _ _)), Ha by lia.
  - intros (Hs & Ha & Hl) Hr. destruct (linked_starts crc32c blake3 _ _ _ _ _ Hl) as [Hle _]. cbn [chain_of].
    destruct (mid - 1 =? g_start x - 1) eqn:Heq; zb.
    + assert (Hm : mid = g_start x) by lia. subst mid. f_equal.
      assert (Hnext : seg_next x = g_start x) by (unfold seg_next in *; lia). rewrite Hnext in Hl.
      apply linked_same in Hl. rewrite Hl, Ha. unfold seg_tail, Chain.value.
      replace (length (g_items x)) with 0%nat by (unfold seg_next in Hnext; lia). done.
    + destruct (covers (g_start x) (g_items x) (mid - 1)) eqn:Hc; [|by eapply IH].
      unfold covers in Hc. zb. assert (Hm : mid = seg_next x) by (unfold seg_next in *; lia). subst mid.
      apply linked_same in Hl as ->. f_equal. unfold seg_tail. cbn [g_start g_anchor g_items].
      rewrite take_ge by (unfold seg_next; lia). done.
Qed.

(** The chain over two runs of segments. *)
Lemma chain_of_app xs ys seq :
  chain_of (xs ++ ys) seq = match chain_of xs seq with Some c => Some c | None => chain_of ys seq end.
Proof using Type.
  clear. induction xs as [|x xs IH]; [done|]. cbn [Datatypes.app chain_of].
  destruct (_ =? _); [done|]. by destruct (covers _ _ _).
Qed.

Lemma chain_of_range segs start anchor start' anchor' seq c :
  linked start anchor segs start' anchor' -> chain_of segs seq = Some c -> start - 1 <= seq < start'.
Proof using Type.
  clear. revert start anchor. induction segs as [|s segs IH]; intros start anchor; cbn [History.linked chain_of]; [done|].
  intros (Hs & Ha & Hl). destruct (linked_starts crc32c blake3 _ _ _ _ _ Hl) as [Hle _].
  destruct (_ =? _) eqn:Hk; [zb; unfold seg_next in *; lia|]. unfold covers.
  destruct (_ && _) eqn:Hc; [zb; unfold seg_next in *; lia|]. intros Hr.
  specialize (IH _ _ Hl Hr). unfold seg_next in *. lia.
Qed.

(** Two runs that follow one another agree where they meet. *)
Lemma chain_of_meets xs ys start anchor mid amid start' anchor' seq c c' :
  linked start anchor xs mid amid -> linked mid amid ys start' anchor' ->
  chain_of xs seq = Some c -> chain_of ys seq = Some c' -> c' = c.
Proof using Type.
  clear. intros Hx Hy Hc Hc'. pose proof (chain_of_range _ _ _ _ _ _ _ Hx Hc). pose proof (chain_of_range _ _ _ _ _ _ _ Hy Hc').
  assert (seq = mid - 1) as -> by lia.
  destruct ys as [|y ys]; [done|]. cbn [History.linked] in Hy. destruct Hy as (Hs & Ha & _).
  pose proof (chain_of_opening xs (y :: ys) start anchor mid amid Hx (conj Hs Ha)) as Ho.
  rewrite chain_of_app, Hc in Ho. cbn [chain_of] in Hc'. rewrite Hs, Z.eqb_refl in Hc'. congruence.
Qed.

(** A divergent verdict is final only after every look agreed; one look that
    passes is enough. *)
Lemma settle_spec attempts ds k h v r :
  settle crc32c blake3 script attempts ds k h v = Ok r ->
  (r = Valid <-> v = Valid \/ exists i, (k <= i < k + attempts)%nat /\
     validate_replica_handshake crc32c blake3 script (ds i) h = Ok Valid).
Proof using Type.
  clear. revert k v. induction attempts as [|n IH]; intros k v; cbn [settle].
  - intros [= ->]. split; [by left|]. intros [?|(i & ? & _)]; [done|lia].
  - destruct v as [|kd]; [intros [= <-]; split; [by left|done]|].
    destruct (validate_replica_handshake _ _ _ (ds k) h) as [v'|e] eqn:Hv; [|done]. cbn [rbind].
    intros Hr%IH. rewrite Hr. split.
    + intros [->|(i & Hi & Hvi)]; right; [exists k; split; [lia|done]|exists i; split; [lia|done]].
    + intros [?|(i & Hi & Hvi)]; [done|]. destruct (decide (i = k)) as [->|].
      * left. congruence.
      * right. exists i. split; [lia|done].
Qed.
End verdict.
End Verdict.

Module Sample.
Import CatchUp Shipping Validate Verdict Scanner.Written Scanner.Sample Codec.Sample Segments.History.

(** A journal rotated once, its live segment preallocated. *)
Definition seg1 : Seg (E:=bool) :=
  {| g_start := 1; g_anchor := replicate 32 9; g_items := [(1000, 42, App true); (1001, 0, Tick 5)] |}.
Definition seg2 : Seg (E:=bool) :=
  {| g_start := 3; g_anchor := seg_tail sum32 digest seg1; g_items := [(1002, 42, App false)] |}.
Definition files : list (Seg (E:=bool) * list Z) := [(seg1, []); (seg2, replicate 50 0)].
Definition dir : JournalDir :=
  {| CatchUp.archives := Some [file_of sum32 (Some 0) (seg1, [])];
     live := Some (file_of sum32 (Some 0) (seg2, replicate 50 0)) |}.
Definition open_link : World := {| sent := []; accepts := []; shutdowns := [] |}.

Lemma files_linked : linked sum32 digest 1 (replicate 32 9) (map fst files) 4 (seg_tail sum32 digest seg2).
Proof. repeat split. Qed.

Lemma files_ok : Forall (seg_ok (Some 0)) (map fst files).
Proof.
  repeat apply Forall_cons_2; [| |constructor].
  all: split; [split; [by right|]; split; [widths; cbn; lia|]; split; [reflexivity|widths; cbn; lia]|].
  all: split; [cbn; lia|]; split; [vm_compute; discriminate|]; repeat constructor; widths; cbn; lia.
Qed.

Lemma files_quiet : Forall quiet (map snd files).
Proof. repeat constructor. Qed.

Lemma catch_up_exact_witness :
  exists fs, sent (snd (stream_journal (E:=bool) sum32 (fun _ => []) dir 1 open_link)) = map (bytes_of sum32) fs /\
    fst (stream_journal (E:=bool) sum32 (fun _ => []) dir 1 open_link) = Ok (CaughtUp 3).
Proof.
  destruct (catch_up_exact sum32 digest sum32_range Reader.Sample.sample_fits (fun _ => []) (Some 0) files dir
    1 (replicate 32 9) 4 (seg_tail sum32 digest seg2) 1 open_link files_linked files_ok files_quiet eq_refl
    ltac:(discriminate) ltac:(widths; lia)) as (_ & fs & rest & Hs & _ & _ & _ & Hc).
  exists fs. split; [exact Hs|]. apply Hc. by split.
Defined.

Definition claim : Control.Handshake :=
  {| Control.last_sequence := 2; Control.chain_hash := seg_tail sum32 digest seg1; Control.epoch := 0 |}.

Lemma handshake_verdict_witness :
  validate_replica_handshake sum32 digest (fun _ => []) dir claim = Ok Valid.
Proof.
  destruct (handshake_verdict sum32 digest sum32_range Reader.Sample.sample_fits (fun _ => []) (Some 0) files dir
    1 (replicate 32 9) 4 (seg_tail sum32 digest seg2) claim files_linked files_ok files_quiet eq_refl
    ltac:(discriminate) ltac:(cbn; widths; lia)) as (v & Hv & chain & Hc & Hval).
  rewrite Hv, Hval. vm_compute in Hc. injection Hc as <-. by vm_compute.
Defined.
End Sample.
