(* ===== verification/Resync.v ===== *)
(** * Re-seeding a replica from a snapshot

    [Transfer] is the primary's side ([catchup.rs]: [snapshot_transfer_with] and
    its preflight): the snapshot file and the byte prefix of the segment it stands
    in, each cut into chunks, then the stream from there. [Replica] is the other
    side ([server-runtime/src/replication/mod.rs] and [receiver_transport.rs]): the
    chunks put together and checked, the local lineage moved aside, the snapshot
    and the segment installed and tied to each other. [Exact] runs one into the
    other. *)

From S2P Require Import Prelude Cursors Lineage Codec Journal Wire Protocol Stages Reader Segments Scanner.
From S2P Require Import Snapshot CatchUp.
Import Lineage.Event Lineage.Policy Codec.Le Codec.Codec.

Module Transfer.
Import CatchUp.CatchUp Scanner.Scanner.

Section transfer.
Context {E : Type} `{AppEvent E}.
Context (crc32c : list Z -> Z) (script : nat -> list nat).

(** What a node has on disk to serve. *)
Record NodeStore := { journal : JournalDir; snap : option (list Z) }.

Inductive TransferError := Link (e : IoError) | NoSnapshot | NotServable (e : Format.SnapshotError).

Definition tio (A : Type) : Type := World -> result A TransferError * World.
Definition tret {A} (a : A) : tio A := fun w => (Ok a, w).
Definition tfail {A} (e : TransferError) : tio A := fun w => (Err e, w).
Definition tbind {A B} (m : tio A) (k : A -> tio B) : tio B := fun w =>
  match m w with (Ok a, w) => k a w | (Err e, w) => (Err e, w) end.
Definition over_link {A} (m : io A) : tio A := fun w =>
  match m w with (Ok a, w) => (Ok a, w) | (Err e, w) => (Err (Link e), w) end.
Definition judged {A} (r : result A Format.SnapshotError) : tio A := fun w => (rmap_err NotServable r, w).

Notation "x <<- m ;; k" := (tbind m (fun x => k))
  (at level 100, m at next level, right associativity) : melin_scope.

Definition CHUNK_SIZE : nat := Z.to_nat (64 * 1024).

(** [publish_chunked_body]; the fuel is the number of bytes left. *)
Fixpoint publish_chunks (fuel : nat) (body : list Z) : io bool :=
  match body, fuel with
  | [], _ | _, O => iret true
  | _, S fuel =>
    fun w => match shutdown w with
             | (Ok true, w) => (Ok false, w)
             | (Ok false, w) =>
               ibind (publish (Control.encode_snapshot_chunk (take CHUNK_SIZE body)))
                 (fun _ => publish_chunks fuel (drop CHUNK_SIZE body)) w
             | (Err e, w) => (Err e, w)
             end
  end.
Definition publish_chunked_body (body : list Z) : io bool :=
  ibind (publish_chunks (length body) body) (fun whole : bool =>
  if whole then ibind (publish (Control.encode_snapshot_end (crc32c body))) (fun _ => iret true)
  else iret false).

(** [preflight_snapshot_transfer]. *)
Definition preflight_snapshot_transfer (store : NodeStore) : result unit TransferError :=
  match snap store with
  | None => Err NoSnapshot
  | Some file =>
    h <-? rmap_err NotServable (Format.parse (take Format.HEADER_SIZE file)) ;;
    found <-? rmap_err (fun e => Link (CatchUp.CatchUp.Journal e))
                (containing_segment crc32c (discover_journal_files (journal store))
                   (wrapping_add (Format.sequence h) 1)) ;;
    match found with None => Err (Link HistoryPruned) | Some _ => Ok tt end
  end.

Definition snapshot_transfer_with (store : NodeStore) : tio CatchUpResult :=
  match snap store with
  | None => tfail NoSnapshot
  | Some snap_data =>
    header <<- judged (Format.parse snap_data) ;;
    let snap_sequence := Format.sequence header in
    _ <<- over_link (publish (Control.encode_snapshot_begin (Z.of_nat (length snap_data)) snap_sequence
                               (Format.chain_hash header))) ;;
    whole <<- over_link (publish_chunked_body snap_data) ;;
    if negb whole then tret (CaughtUp snap_sequence)
    else
      let files := discover_journal_files (journal store) in
      found <<- over_link (lift (containing_segment crc32c files (wrapping_add snap_sequence 1))) ;;
      match found with
      | None => tfail (Link HistoryPruned)
      | Some (seed_idx, seed_info) =>
        prefix <<- over_link (lift (read_segment_prefix crc32c (default [] (files !! seed_idx))
                                     snap_sequence (script seed_idx))) ;;
        match prefix with
        | None => tfail (Link Inconsistent)
        | Some seed_bytes =>
          _ <<- over_link (publish (Control.encode_segment_seed_begin (Z.of_nat (length seed_bytes)))) ;;
          whole <<- over_link (publish_chunked_body seed_bytes) ;;
          if negb whole then tret (CaughtUp snap_sequence)
          else
            _ <<- over_link (publish (Control.encode_stream_start snap_sequence
                   (starting_sequence seed_info) (anchor_hash seed_info) (genesis_entries seed_info)
                   (epoch (Format.lineage header)))) ;;
            over_link (catch_up_from_journal_with (E:=E) crc32c script (journal store) snap_sequence)
        end
      end
  end.
End transfer.
End Transfer.

(** ** The replica's side *)
Module Replica.
Import Framing Control.

Section replica.
Context {E A : Type} `{AppEvent E} `{Format.SnapshotApp A}.
Context (crc32c : list Z -> Z) (crc32c_append : Z -> list Z -> Z) (blake3 : list Z -> list Z).

Inductive ArchiveReason := Divergent | Resynced.

(** The lineage on the replica's disk. *)
Record Disk := { archives : list (list Z); live : option (list Z); snap : option (list Z); prev : option (list Z) }.
Definition empty_disk : Disk := {| archives := []; live := None; snap := None; prev := None |}.

(** The engine a resync leaves idle, and the position the next handshake claims. *)
Record IdleEngine := { app : A; tick_watermark : Z; writer : Journal.Writer.BufferedWriter }.
Record ChainPosition := { last_sequence : Z; chain_hash : list Z }.
Definition GENESIS : ChainPosition := {| last_sequence := 0; chain_hash := replicate 32 0 |}.

Record State := {
  engine : option IdleEngine;
  position : ChainPosition;
  disk : Disk;
  archived : list (ArchiveReason * Disk);
  fence_epoch : Z;
  lineage_policy : option LineagePolicy;
  journal_tip : Z;
  primary_observed : bool
}.

Inductive ResyncError :=
| Disconnected
| FrameRefused
| BadMessage (e : DecodeError)
| Unexpected
| LengthMismatch
| CrcMismatch
| BadSnapshot (e : Format.SnapshotError)
| HashDisagrees
| BadSeed
| JournalFailed (e : JournalError).

Definition next_frame (input : list Z) (max_size : Z) : result (PrimaryMessage * list Z) ResyncError :=
  match split_frame_limited input max_size with
  | Ok (Some payload) =>
    m <-? rmap_err BadMessage (decode_primary_message payload) ;;
    Ok (m, drop (consumed payload) input)
  | Ok None => Err Disconnected
  | Err _ => Err FrameRefused
  end.

(** [receive_chunked_body]: the file it leaves, and the input behind it. Every
    frame takes at least its prefix from the input, whose length is fuel enough. *)
Fixpoint receive_chunks (fuel : nat) (input : list Z) (expected_len : Z) (file : list Z) (running_crc : Z)
    : result (list Z * list Z) ResyncError :=
  match fuel with
  | O => Err Disconnected
  | S fuel =>
    mi <-? next_frame input MAX_DATA_FRAME ;;
    match fst mi with
    | SnapshotChunk data =>
      receive_chunks fuel (snd mi) expected_len (file ++ data) (crc32c_append running_crc data)
    | SnapshotEnd expected_crc =>
      guard? Z.of_nat (length file) =? expected_len else LengthMismatch ;;
      guard? running_crc =? expected_crc else CrcMismatch ;;
      Ok (file, snd mi)
    | _ => Err Unexpected
    end
  end.
Definition receive_chunked_body (input : list Z) (expected_len : Z) : result (list Z * list Z) ResyncError :=
  receive_chunks (length input) input expected_len [] 0.

(** [entry_timestamp], over the entries as the reader gives them. *)
Fixpoint entry_timestamp (es : list (Reader.Reader.JournalEntry (E:=E))) (sequence : Z) : option Z :=
  match es with
  | [] => None
  | e :: rest =>
    if sequence <=? Reader.Reader.e_sequence e
    then if Reader.Reader.e_sequence e =? sequence then Some (Reader.Reader.e_timestamp_ns e) else None
    else entry_timestamp rest sequence
  end.

(** [resume_tick_watermark_over]. *)
Definition resume_tick_watermark_over (h : Format.SnapshotHeader) (journal : list Z) (buf : nat)
    : result Z JournalError :=
  let replay_header := {| Replay.snap_sequence := Format.sequence h;
                          Replay.recorded_watermark := Format.tick_watermark h |} in
  if bool_decide (is_Some (Format.tick_watermark h)) || (Format.sequence h =? 0)
  then Ok (Replay.resume_tick_watermark replay_header None)
  else
    er <-? Reader.Recovery.read_segment (E:=E) crc32c journal Reader.Reader.Live buf [] ;;
    Ok (Replay.resume_tick_watermark replay_header (entry_timestamp (fst er) (Format.sequence h))).

Record ResyncTransfer := {
  t_app : A;
  snap_sequence : Z;
  snap_chain_hash : list Z;
  seed_len : Z;
  t_lineage : Lineage;
  t_watermark : Z
}.
(** [receive_resync_transfer]: the result, the disk as the renames leave it even on
    a failure, and the input behind what was read. [script] splits the seed's
    reads, [buf] is the reader's buffer. *)
Definition with_snap (d : Disk) (file : list Z) : Disk :=
  {| archives := archives d; live := live d; snap := Some file; prev := prev d |}.
Definition with_live (d : Disk) (file : list Z) : Disk :=
  {| archives := archives d; live := Some file; snap := snap d; prev := prev d |}.

Definition receive_resync_transfer (input : list Z) (d : Disk) (script : list nat) (buf : nat)
    : result (ResyncTransfer * list Z) ResyncError * Disk :=
  match next_frame input MAX_CONTROL_FRAME with
  | Ok (SnapshotBegin len seq chain, input) =>
    match receive_chunked_body input len with
    | Err e => (Err e, d)
    | Ok (snap_file, input) =>
      let d := with_snap d snap_file in
      match Format.load (A:=A) crc32c snap_file with
      | Err e => (Err (BadSnapshot e), d)
      | Ok (a, h) =>
        if negb (bool_decide (Format.chain_hash h = chain)) then (Err HashDisagrees, d)
        else
          match next_frame input MAX_CONTROL_FRAME with
          | Ok (SegmentSeedBegin seed_len, input) =>
            match receive_chunked_body input seed_len with
            | Err e => (Err e, d)
            | Ok (seed, input) =>
              match Scanner.Scanner.verify_segment_prefix crc32c seed seq (Z.to_nat seed_len) script with
              | Err _ => (Err BadSeed, d)
              | Ok _ =>
                let d := with_live d seed in
                match resume_tick_watermark_over h seed buf with
                | Err e => (Err (JournalFailed e), d)
                | Ok mark =>
                  (Ok ({| t_app := a; snap_sequence := seq; snap_chain_hash := chain; seed_len := seed_len;
                          t_lineage := Format.lineage h; t_watermark := mark |}, input), d)
                end
              end
            end
          | Ok _ => (Err Unexpected, d)
          | Err e => (Err e, d)
          end
      end
    end
  | Ok _ => (Err Unexpected, d)
  | Err e => (Err e, d)
  end.

(** [archive_local_lineage]: everything is moved, unless there is nothing. *)
Definition archive_local_lineage (s : State) (reason : ArchiveReason) : State :=
  let d := disk s in
  let nothing := (length (archives d) =? 0)%nat && negb (bool_decide (is_Some (live d))) &&
                 negb (bool_decide (is_Some (snap d))) && negb (bool_decide (is_Some (prev d))) in
  if nothing then s
  else {| engine := engine s; position := position s; disk := empty_disk;
          archived := archived s ++ [(reason, d)]; fence_epoch := fence_epoch s;
          lineage_policy := lineage_policy s; journal_tip := journal_tip s;
          primary_observed := primary_observed s |}.

Definition adopt_recovered_lineage (s : State) (l : Lineage) : State :=
  {| engine := engine s; position := position s; disk := disk s; archived := archived s;
     fence_epoch := Slots.observe_into (fence_epoch s) (Policy.epoch l); lineage_policy := ack_policy l;
     journal_tip := journal_tip s; primary_observed := primary_observed s |}.

Definition with_disk (s : State) (d : Disk) : State :=
  {| engine := engine s; position := position s; disk := d; archived := archived s;
     fence_epoch := fence_epoch s; lineage_policy := lineage_policy s; journal_tip := journal_tip s;
     primary_observed := primary_observed s |}.

(** A replica that holds nothing, after its lineage is archived. *)
Definition emptied (s : State) (reason : ArchiveReason) : State :=
  let s := archive_local_lineage {| engine := None; position := GENESIS; disk := disk s;
             archived := archived s; fence_epoch := fence_epoch s; lineage_policy := lineage_policy s;
             journal_tip := journal_tip s; primary_observed := primary_observed s |} reason in
  {| engine := None; position := GENESIS; disk := disk s; archived := archived s;
     fence_epoch := fence_epoch s; lineage_policy := None; journal_tip := 0;
     primary_observed := primary_observed s |}.

Inductive ResyncDecision :=
| Ready (segment_start_sequence : Z) (anchor_hash : list Z) (genesis_entries : option Z)
| Retry.

(** [handle_resync_verdict]: the decision or a fatal error, the state after it, and
    the input left to stream from. [chunk] is the journal's reservation. *)
Definition handle_resync_verdict (divergent : bool) (input : list Z) (s : State)
    (script : list nat) (buf chunk : nat) : result ResyncDecision ResyncError * State * list Z :=
  let s := emptied s (if divergent then Divergent else Resynced) in
  let '(r, d) := receive_resync_transfer input (disk s) script buf in
  let s := with_disk s d in
  match r with
  | Err _ =>
    (Ok Retry, with_disk s {| archives := archives d; live := live d; snap := None; prev := prev d |}, input)
  | Ok (t, input) =>
    let s := adopt_recovered_lineage s (t_lineage t) in
    let journal := default [] (live d) in
    match Journal.Writer.open_append crc32c journal (snap_sequence t) (Z.to_nat (seed_len t)) chunk [] [] with
    | Err e => (Err (JournalFailed e), s, input)
    | Ok w =>
      let seeded_chain := Chain.value blake3 (Journal.Encoder.hash_chain (Journal.Writer.encoder w)) in
      if negb (bool_decide (snap_chain_hash t = replicate 32 0)) &&
         negb (bool_decide (seeded_chain = snap_chain_hash t))
      then (Err HashDisagrees, s, input)
      else
        match Scanner.Scanner.read_header_info crc32c journal with
        | Err e => (Err (JournalFailed e), s, input)
        | Ok info =>
          let s := {| engine := Some {| app := t_app t; tick_watermark := t_watermark t; writer := w |};
                      position := {| last_sequence := snap_sequence t; chain_hash := snap_chain_hash t |};
                      disk := disk s; archived := archived s; fence_epoch := fence_epoch s;
                      lineage_policy := lineage_policy s; journal_tip := journal_tip s;
                      primary_observed := primary_observed s |} in
          match next_frame input MAX_CONTROL_FRAME with
          | Ok (StreamStart _ start anchor genesis ep, input) =>
            if negb ((start =? starting_sequence info) && bool_decide (anchor = anchor_hash info) &&
                     bool_decide (genesis = genesis_entries info))
            then (Err Unexpected, s, input)
            else
              (Ok (Ready start anchor genesis),
               {| engine := engine s; position := position s; disk := disk s; archived := archived s;
                  fence_epoch := Slots.observe_into (fence_epoch s) ep;
                  lineage_policy := lineage_policy s; journal_tip := snap_sequence t;
                  primary_observed := true |}, input)
          | Ok _ => (Err Unexpected, s, input)
          | Err e => (Err e, s, input)
          end
        end
    end
  end.
End replica.
End Replica.

(** ** One into the other *)
Module Exact.
Import CatchUp.CatchUp Shipping Transfer Replica Framing Control Delivery.

Section frames.
Context (crc32c : list Z -> Z) (crc32c_append : Z -> list Z -> Z).
Hypothesis crc_range : forall bs, in_u32 (crc32c bs).
Hypothesis crc_empty : crc32c [] = 0.
Hypothesis crc_appends : forall a b, crc32c_append (crc32c a) b = crc32c (a ++ b).

(** A computation that, undisturbed, puts [frames] on the wire. *)
Definition emits {A X} (m : World -> result A X * World) (frames : list (list Z)) (a : A) : Prop :=
  forall w, calm w -> exists w', m w = (Ok a, w') /\ sent w' = sent w ++ frames /\ calm w'.

Lemma emits_ret {A X} (a : A) : emits (X:=X) (fun w => (Ok a, w)) [] a.
Proof using Type. clear. intros w Hc. exists w. by rewrite app_nil_r. Qed.

Lemma emits_bind {A B X} (m : World -> result A X * World) (k : A -> World -> result B X * World) fs gs a b :
  emits m fs a -> emits (k a) gs b ->
  emits (fun w => match m w with (Ok a, w) => k a w | (Err e, w) => (Err e, w) end) (fs ++ gs) b.
Proof using Type.
  clear. intros Hm Hk w Hc. destruct (Hm w Hc) as (w1 & -> & Hs1 & Hc1). destruct (Hk w1 Hc1) as (w2 & -> & Hs2 & Hc2).
  exists w2. split; [done|]. split; [|done]. by rewrite Hs2, Hs1, app_assoc.
Qed.

Lemma emits_publish f : emits (publish f) [f] tt.
Proof using Type.
  clear. intros w [Ha Hs]. unfold publish. destruct (accepts w) as [|b bs] eqn:E; cbn.
  - eexists. split; [done|]. split; [done|]. by split.
  - apply Forall_cons_1 in Ha as [<- Ha]. eexists. split; [done|]. split; [done|]. by split.
Qed.

Lemma emits_shutdown : emits shutdown [] false.
Proof using Type.
  clear. intros w [Ha Hs]. unfold shutdown. destruct (shutdowns w) as [|b bs] eqn:E; cbn.
  - eexists. split; [done|]. rewrite app_nil_r. split; [done|]. by split.
  - apply Forall_cons_1 in Hs as [<- Hs]. eexists. split; [done|]. rewrite app_nil_r. split; [done|]. by split.
Qed.

Lemma emits_over_link {A} (m : io A) fs a : emits m fs a -> emits (over_link m) fs a.
Proof using Type.
  clear. intros Hm w Hc. destruct (Hm w Hc) as (w' & Hr & ?). exists w'. unfold over_link. by rewrite Hr.
Qed.

Lemma emits_lift {A} (r : result A JournalError) a : r = Ok a -> emits (lift r) [] a.
Proof using Type. clear. intros ->. apply emits_ret. Qed.

(** The frames of a body. *)
Definition body_frames (body : list Z) : list (list Z) :=
  map encode_snapshot_chunk (Publish.chunks (length body) CHUNK_SIZE body) ++ [encode_snapshot_end (crc32c body)].

Lemma publish_chunks_emits fuel body :
  (length body <= fuel)%nat ->
  emits (publish_chunks fuel body) (map encode_snapshot_chunk (Publish.chunks fuel CHUNK_SIZE body)) true.
Proof using Type.
  clear. revert body. induction fuel as [|fuel IH]; intros [|b body] Hl; [apply emits_ret|cbn in Hl; lia|apply emits_ret|].
  cbn [publish_chunks Publish.chunks map]. set (bs := b :: body) in *.
  assert (HIH := IH (drop CHUNK_SIZE bs) ltac:(rewrite length_drop; cbn [bs length] in *; unfold CHUNK_SIZE; lia)).
  change (encode_snapshot_chunk (take CHUNK_SIZE bs) :: map encode_snapshot_chunk (Publish.chunks fuel CHUNK_SIZE (drop CHUNK_SIZE bs)))
    with ([] ++ ([encode_snapshot_chunk (take CHUNK_SIZE bs)] ++ map encode_snapshot_chunk (Publish.chunks fuel CHUNK_SIZE (drop CHUNK_SIZE bs)))).
  intros w Hc. destruct (emits_shutdown w Hc) as (w1 & -> & Hs1 & Hc1).
  destruct (emits_bind _ (fun _ => publish_chunks fuel (drop CHUNK_SIZE bs)) _ _ _ _
      (emits_publish (encode_snapshot_chunk (take CHUNK_SIZE bs))) HIH w1 Hc1)
    as (w2 & Hw2 & Hs2 & Hc2).
  exists w2. split; [exact Hw2|]. split; [|done]. by rewrite Hs2, Hs1, app_nil_r.
Qed.

Lemma publish_body_emits body : emits (publish_chunked_body crc32c body) (body_frames body) true.
Proof using Type.
  clear. unfold publish_chunked_body, body_frames, ibind.
  apply (emits_bind _ (fun whole : bool => if whole then _ else _) _ _ true); [by apply publish_chunks_emits|].
  rewrite <- (app_nil_r [_]).
  exact (emits_bind _ (fun _ => iret true) _ _ tt true (emits_publish _) (emits_ret _)).
Qed.

Lemma next_delivered limit bytes m rest :
  delivers decode_primary_message limit bytes m -> next_frame (bytes ++ rest) limit = Ok (m, rest).
Proof using Type.
  clear. intros Hd. destruct (Hd rest) as (payload & Hs & Hr & Hm). unfold next_frame. by rewrite Hs, Hm, Hr.
Qed.

(** A frame within a tighter limit. *)
Lemma delivers_within payload m limit limit' :
  Z.of_nat (length payload) <= limit <= u32_max -> Z.of_nat (length payload) <= limit' <= u32_max ->
  delivers decode_primary_message limit (write_frame payload) m ->
  delivers decode_primary_message limit' (write_frame payload) m.
Proof using Type.
  clear. intros Hl Hl' Hd. apply delivers_frame; [done|]. destruct (Hd []) as (p & Hs & _ & Hm).
  destruct (frame_splits payload [] limit Hl) as [Hsp _]. rewrite Hsp in Hs. by injection Hs as ->.
Qed.

Lemma chunks_received fuel pieces expected rest (file : list Z) :
  Forall (fun p => (length p <= CHUNK_SIZE)%nat) pieces -> (length pieces < fuel)%nat ->
  Z.of_nat (length (file ++ concat pieces)) = expected ->
  receive_chunks crc32c_append fuel
    (concat (map encode_snapshot_chunk pieces) ++ encode_snapshot_end (crc32c (file ++ concat pieces)) ++ rest)
    expected file (crc32c file) = Ok (file ++ concat pieces, rest).
Proof using crc_range crc_appends.
  revert fuel file. induction pieces as [|p pieces IH]; intros fuel file Hp Hf He; destruct fuel as [|fuel]; [lia| |lia|].
  - cbn [map concat]. rewrite app_nil_r in *. rewrite app_nil_l. cbn [receive_chunks].
    rewrite (next_delivered _ (encode_snapshot_end (crc32c file)) (SnapshotEnd (crc32c file))) by exact (primary_delivers (SnapshotEnd _) (crc_range _)).
    cbn [rbind fst snd]. by rewrite He, !Z.eqb_refl.
  - apply Forall_cons_1 in Hp as [Hp Hps]. cbn [map concat]. rewrite <- app_assoc. cbn [receive_chunks].
    rewrite (next_delivered _ (encode_snapshot_chunk p) (SnapshotChunk p)).
    + cbn [rbind fst snd]. rewrite crc_appends, (app_assoc file p). apply IH; [done|cbn [length] in Hf; lia|].
      by rewrite <- app_assoc.
    + apply (primary_delivers (SnapshotChunk p)). cbn. unfold CHUNK_SIZE in Hp. unfold MAX_DATA_FRAME. lia.
Qed.
Lemma body_received body rest :
  receive_chunked_body crc32c_append (concat (body_frames body) ++ rest) (Z.of_nat (length body)) = Ok (body, rest).
Proof using crc_range crc_empty crc_appends.
  set (pieces := Publish.chunks (length body) CHUNK_SIZE body).
  assert (Hc : concat pieces = body) by (apply CrashSafe.chunks_concat; unfold CHUNK_SIZE; lia).
  assert (Hlen : (length pieces < length (concat (body_frames body) ++ rest))%nat).
  { unfold body_frames. fold pieces. rewrite concat_app, !length_app.
    assert (Hle : (length pieces <= length (concat (map encode_snapshot_chunk pieces)))%nat).
    { generalize pieces as ps. induction ps as [|p ps IH]; cbn [map concat length]; [lia|]. rewrite length_app.
      unfold encode_snapshot_chunk at 1, write_frame. rewrite length_app, le_length. lia. }
    assert (Hend : (0 < length (concat [encode_snapshot_end (crc32c body)]))%nat)
      by (cbn [concat]; rewrite app_nil_r; unfold encode_snapshot_end, write_frame; rewrite length_app, le_length; lia).
    lia. }
  unfold receive_chunked_body. rewrite <- crc_empty.
  unfold body_frames at 2. fold pieces. rewrite concat_app, <- app_assoc. cbn [concat]. rewrite app_nil_r.
  pose proof (chunks_received (length (concat (body_frames body) ++ rest)) pieces (Z.of_nat (length body)) rest []) as Hr.
  rewrite app_nil_l, Hc in Hr. apply Hr; [apply CrashSafe.chunks_small|done|done].
Qed.
End frames.
(** *** The chain at the seed's end *)
Import Verdict Scanner.Scanner Scanner.Written Codec.Facts Journal.Segment Journal.Stream Segments.History.

Section lineage.
Context {E : Type} `{AppEvent E}.
Context (crc32c : list Z -> Z) (blake3 : list Z -> list Z).
Local Notation linked := (History.linked crc32c blake3).
Local Notation chain_of := (Verdict.chain_of crc32c blake3).

(** The chain after [seq], from the segment that holds the next entry. *)
Lemma chain_at_seed segs start anchor start' anchor' seq i s :
  linked start anchor segs start' anchor' -> opened (seq + 1) segs = S i -> segs !! i = Some s -> seq < start' ->
  let n := Z.to_nat (seq - g_start s + 1) in
  (n <= length (g_items s))%nat /\
  chain_of segs seq = Some (seg_tail crc32c blake3
    {| g_start := g_start s; g_anchor := g_anchor s; g_items := take n (g_items s) |}).
Proof.
  intros Hl Ho Hi Hlt n. pose proof (opened_last crc32c blake3 _ _ _ _ _ _ _ _ Hl Ho Hi) as Hle.
  destruct (opened_split crc32c blake3 (seq + 1) _ _ _ _ _ Hl) as [_ Hafter]. rewrite Ho in Hafter.
  pose proof Hl as Hcut. rewrite <- (take_drop_middle _ _ _ Hi) in Hcut.
  apply linked_app in Hcut as (mid & amid & Hl1 & Hs & Ha & Hl2).
  assert (Hn : (n <= length (g_items s))%nat).
  { destruct (drop (S i) segs) as [|s' post]; cbn [History.linked] in Hl2.
    - destruct Hl2 as [-> _]. unfold seg_next in Hlt. unfold n. lia.
    - apply Forall_cons_1 in Hafter as [Hgt _]. destruct Hl2 as (Hs' & _ & _). unfold seg_next in Hs'. unfold n. lia. }
  split; [done|]. rewrite <- (take_drop_middle _ _ _ Hi) at 1.
  destruct (decide (seq = g_start s - 1)) as [->|Hne].
  - rewrite <- Hs in Hl1. unfold n. replace (Z.to_nat (g_start s - 1 - g_start s + 1)) with 0%nat by lia.
    rewrite (chain_of_opening crc32c blake3 _ _ _ _ _ _ Hl1) by done. by subst amid.
  - rewrite chain_of_skip.
    + cbn [Verdict.chain_of]. rewrite (proj2 (Z.eqb_neq _ _)) by lia.
      assert (Hc : covers (g_start s) (g_items s) seq = true)
        by (unfold covers; apply andb_true_intro; unfold n in Hn; split; zb; lia).
      by rewrite Hc.
    + destruct (linked_starts crc32c blake3 _ _ _ _ _ Hl1) as [_ Hall]. eapply Forall_impl; [exact Hall|].
      cbn. intros x ?. lia.
Qed.
End lineage.
Section exact.
Context {E A : Type} `{AppEvent E} `{Format.SnapshotApp A}.
Context (crc32c : list Z -> Z) (crc32c_append : Z -> list Z -> Z) (blake3 : list Z -> list Z).
Hypothesis crc_range : forall bs, in_u32 (crc32c bs).
Hypothesis crc_empty : crc32c [] = 0.
Hypothesis crc_appends : forall a b, crc32c_append (crc32c a) b = crc32c (a ++ b).
Context `{!AppEventLaws E}.
Hypothesis fits_one_entry : (entry_size (E:=E) <= MAX_ENTRY_SIZE)%nat.
Context (script : nat -> list nat).

Local Notation linked := (History.linked crc32c blake3).
Local Notation segment := (Written.segment (E:=E) crc32c).

(** The segment a seed is cut from, cut. *)
Definition seed_of (g : option Z) (s : Seg (E:=E)) (seq : Z) : list Z :=
  segment (g_start s) (g_anchor s) g (take (Z.to_nat (seq - g_start s + 1)) (g_items s)) [].

Lemma seed_read g s tail seq sc :
  seg_ok g s -> quiet tail -> g_start s <= seq + 1 -> (Z.to_nat (seq - g_start s + 1) <= length (g_items s))%nat ->
  read_segment_prefix crc32c (file_of crc32c g (s, tail)) seq sc = Ok (Some (seed_of g s seq)).
Proof using fits_one_entry crc_range AppEventLaws0.
  intros Hok Hq Hs Hn. unfold file_of. cbn [fst snd].
  rewrite (read_prefix_written crc32c crc_range fits_one_entry) by done. unfold seed_of.
  destruct (seq =? g_start s - 1) eqn:He; zb.
  - replace (Z.to_nat (seq - g_start s + 1)) with 0%nat by lia. unfold Written.segment.
    cbn [take Journal.Stream.stream]. by rewrite !app_nil_r.
  - assert (Hc : covers (g_start s) (g_items s) seq = true)
      by (unfold covers; apply andb_true_intro; split; zb; lia).
    rewrite Hc. unfold reach, allowed. by rewrite Nat.min_r by lia.
Qed.

(** The replica's checks of a seed, all passed. *)
Lemma seed_installs g s seq sc chunk :
  seg_ok g s -> g_start s <= seq + 1 -> (Z.to_nat (seq - g_start s + 1) <= length (g_items s))%nat ->
  let seed := seed_of g s seq in
  let items := take (Z.to_nat (seq - g_start s + 1)) (g_items s) in
  verify_segment_prefix crc32c seed seq (length seed) sc = Ok tt /\
  read_header_info crc32c seed = Ok (info_of g s) /\
  exists wr, Journal.Writer.open_append crc32c seed seq (length seed) chunk [] [] = Ok wr /\
    winv crc32c wr (g_start s) (g_anchor s) items [] /\
    Chain.value blake3 (Journal.Encoder.hash_chain (Journal.Writer.encoder wr)) =
      seg_tail crc32c blake3 {| g_start := g_start s; g_anchor := g_anchor s; g_items := items |}.
Proof using fits_one_entry crc_range AppEventLaws0.
  intros (Hh & Hs1 & Hm & Hit) Hle Hn seed items. unfold seg_next in Hm.
  assert (Hlen : length items = Z.to_nat (seq - g_start s + 1)) by (unfold items; rewrite length_take; lia).
  assert (Hseq : g_start s + Z.of_nat (length items) - 1 = seq) by lia.
  assert (Hok : segment_ok (g_start s) (g_anchor s) g items)
    by (split_and!; [done|done|lia|by apply Forall_take]).
  pose proof (header_length crc32c crc_range _ _ _ Hh) as Hhl.
  assert (Hsl : length seed = (Journal.Encoder.ENTRY_OFFSET + length (stream crc32c (g_start s) items))%nat).
  { unfold seed, seed_of, Written.segment. fold items. by rewrite app_nil_r, length_app, Hhl. }
  split_and!.
  - unfold seed, seed_of. fold items. rewrite (verify_written crc32c crc_range fits_one_entry) by (done || exact I).
    assert (Hr : reach (g_start s) seq items = length items) by (unfold reach, allowed; lia).
    rewrite Hr, Hseq, Z.eqb_refl, firstn_all. cbn [negb]. change (segment _ _ g items []) with seed.
    by rewrite Hsl, Nat.eqb_refl, Nat.ltb_irrefl.
  - destruct (segment_opens crc32c crc_range fits_one_entry (g_start s) (g_anchor s) g items [] [] Hok) as (Hi & _). exact Hi.
  - destruct (open_append_keeps crc32c crc_range fits_one_entry (g_start s) (g_anchor s) g items [] chunk [] [] Hh)
      as (wr & Ho & Hw & _); [by apply Forall_take|done|lia|done|].
    exists wr. split_and!.
    + rewrite <- Ho, Hsl, Hseq. done.
    + done.
    + rewrite (wi_chain _ _ _ _ _ _ Hw), app_nil_r. done.
Qed.

(** *** The control frames, read back *)
Lemma begin_delivered len seq chain rest :
  in_u64 len -> in_u64 seq -> length chain = 32%nat ->
  next_frame (encode_snapshot_begin len seq chain ++ rest) MAX_CONTROL_FRAME = Ok (SnapshotBegin len seq chain, rest).
Proof using Type.
  clear. intros Hl Hs Hc. apply next_delivered, (delivers_within _ _ MAX_DATA_FRAME);
    [payload_size; unfold MAX_DATA_FRAME; widths; lia|payload_size; unfold MAX_CONTROL_FRAME; widths; lia|].
  by apply (primary_delivers (SnapshotBegin len seq chain)).
Qed.

Lemma seed_begin_delivered len rest :
  in_u64 len -> next_frame (encode_segment_seed_begin len ++ rest) MAX_CONTROL_FRAME = Ok (SegmentSeedBegin len, rest).
Proof using Type.
  clear. intros Hl. apply next_delivered, (delivers_within _ _ MAX_DATA_FRAME);
    [payload_size; unfold MAX_DATA_FRAME; widths; lia|payload_size; unfold MAX_CONTROL_FRAME; widths; lia|].
  by apply (primary_delivers (SegmentSeedBegin len)).
Qed.

Lemma start_delivered seq start anchor g ep rest :
  primary_ok (StreamStart seq start anchor g ep) ->
  next_frame (encode_stream_start seq start anchor g ep ++ rest) MAX_CONTROL_FRAME = Ok (StreamStart seq start anchor g ep, rest).
Proof using Type.
  clear. intros Hok. pose proof Hok as (_ & _ & Hh & _). unfold is_hash in Hh.
  apply next_delivered, (delivers_within _ _ MAX_DATA_FRAME);
    [destruct g; payload_size; unfold MAX_DATA_FRAME; widths; lia|destruct g; payload_size; unfold MAX_CONTROL_FRAME; widths; lia|].
  by apply (primary_delivers (StreamStart seq start anchor g ep)).
Qed.
(** The frames of a transfer, up to the stream. *)
Definition transfer_frames (bytes : list Z) (seq : Z) (chain seed : list Z) (s : Seg (E:=E)) (g : option Z) (ep : Z)
    : list (list Z) :=
  [encode_snapshot_begin (Z.of_nat (length bytes)) seq chain] ++ body_frames crc32c bytes ++
  [encode_segment_seed_begin (Z.of_nat (length seed))] ++ body_frames crc32c seed ++
  [encode_stream_start seq (g_start s) (g_anchor s) g ep].

(** Emptying a replica moves its whole lineage aside, whatever of it there is. *)
Lemma emptied_moves (st : State (A:=A)) reason :
  disk (emptied st reason) = empty_disk /\
  ((disk st = empty_disk /\ archived (emptied st reason) = archived st) \/
   (disk st <> empty_disk /\ archived (emptied st reason) = archived st ++ [(reason, disk st)])).
Proof.
  unfold emptied, archive_local_lineage. cbn [disk archived].
  destruct (disk st) as [[|f fs] [lv|] [sn|] [pv|]]; cbn; split; (done || (right; done) || (left; done)).
Qed.

(** What the replica makes of them. *)
Lemma resync_received divergent st sc buf chunk rest (a : A) bytes seq chain l g watermark s :
  Format.load crc32c bytes = Ok (a, FormatFacts.saved_header (A:=A) seq chain l g watermark) ->
  in_u64 (Z.of_nat (length bytes)) -> 0 <= seq < u64_max -> length chain = 32%nat -> in_u64 (Policy.epoch l) ->
  seg_ok g s -> g_start s <= seq + 1 -> (Z.to_nat (seq - g_start s + 1) <= length (g_items s))%nat ->
  in_u64 (Z.of_nat (length (seed_of g s seq))) ->
  seg_tail crc32c blake3 {| g_start := g_start s; g_anchor := g_anchor s;
    g_items := take (Z.to_nat (seq - g_start s + 1)) (g_items s) |} = chain ->
  let seed := seed_of g s seq in
  exists wr,
    handle_resync_verdict (E:=E) crc32c crc32c_append blake3 divergent
      (concat (transfer_frames bytes seq chain seed s g (Policy.epoch l)) ++ rest) st sc buf chunk =
    (Ok (Ready (g_start s) (g_anchor s) g),
     {| engine := Some {| Replica.app := a; Replica.tick_watermark := watermark; Replica.writer := wr |};
        position := {| Replica.last_sequence := seq; Replica.chain_hash := chain |};
        disk := {| Replica.archives := []; Replica.live := Some seed; Replica.snap := Some bytes; prev := None |};
        archived := archived (emptied st (if divergent then Divergent else Resynced));
        fence_epoch := Z.max (fence_epoch st) (Policy.epoch l); lineage_policy := ack_policy l;
        journal_tip := seq; primary_observed := true |}, rest) /\
    winv crc32c wr (g_start s) (g_anchor s) (take (Z.to_nat (seq - g_start s + 1)) (g_items s)) [].
Proof using crc_range crc_empty crc_appends fits_one_entry AppEventLaws0.
  intros Hload Hbl Hseq Hcl Hep Hok Hle Hn Hsl Hchain seed.
  destruct (seed_installs g s seq sc chunk Hok Hle Hn) as (Hver & Hinfo & wr & Ho & Hw & Hval).
  fold seed in Hver, Hinfo, Ho. exists wr. split; [|done].
  unfold transfer_frames. rewrite !concat_app. cbn [concat]. rewrite !app_nil_r, <- !app_assoc.
  destruct (emptied_moves st (if divergent then Divergent else Resynced)) as [Hd _].
  unfold handle_resync_verdict. rewrite Hd.
  unfold receive_resync_transfer.
  rewrite begin_delivered by (done || (widths; lia)).
  rewrite (body_received crc32c crc32c_append crc_range crc_empty crc_appends), Hload.
  cbn [Format.chain_hash FormatFacts.saved_header]. rewrite bool_decide_true by done. cbn [negb].
  rewrite seed_begin_delivered by done.
  rewrite (body_received crc32c crc32c_append crc_range crc_empty crc_appends), Nat2Z.id, Hver.
  unfold resume_tick_watermark_over. cbn [Format.tick_watermark Format.sequence FormatFacts.saved_header].
  rewrite bool_decide_true by (by eexists). cbn [orb].
  cbn [t_app snap_sequence snap_chain_hash seed_len t_lineage t_watermark with_live with_snap Replica.live
       from_option id Format.lineage Replay.resume_tick_watermark Replay.recorded_watermark].
  rewrite Nat2Z.id, Ho, Hval, Hchain, (bool_decide_true (chain = chain)) by done. cbn [negb]. rewrite andb_false_r, Hinfo.
  destruct Hok as (Hh & Hs1 & Hm & Hit). pose proof Hh as (_ & Hst & Ha & Hg).
  rewrite start_delivered.
  - cbn [starting_sequence anchor_hash genesis_entries info_of].
    rewrite Z.eqb_refl, !bool_decide_true by done. cbn [negb andb]. do 2 f_equal.
    assert (Hpol : forall r, fence_epoch (emptied st r) = fence_epoch st /\ primary_observed (emptied st r) = primary_observed st)
      by (intros r; unfold emptied, archive_local_lineage; cbn; by destruct (_ && _)).
    unfold adopt_recovered_lineage, with_disk.
    cbn [fence_epoch lineage_policy engine position disk archived with_live with_snap Format.lineage FormatFacts.saved_header].
    destruct (Hpol (if divergent then Divergent else Resynced)) as [-> _].
    unfold Slots.observe_into. f_equal. lia.
  - cbn [primary_ok]. split_and!; [widths; lia|done|done| |done]. destruct g; [done|]. cbn. widths. lia.
Qed.
(** One undisturbed step of the transfer. *)
Ltac emit Hm w' Hs' Hc' :=
  match goal with |- context [tbind (over_link ?m) ?k ?w] =>
    match goal with Hc : calm w |- _ =>
      let Hw := fresh "Hw" in
      destruct (emits_over_link m _ _ Hm w Hc) as (w' & Hw & Hs' & Hc');
      change (tbind (over_link m) k w) with
        (match over_link m w with (Ok x, w0) => k x w0 | (Err e, w0) => (Err e, w0) end);
      rewrite Hw; clear Hw; cbv beta
    end
  end.

(** The primary's side, up to the stream. *)
Lemma transfer_emits store g files h bytes s t i w start anchor start' anchor' :
  linked start anchor (map fst files) start' anchor' -> Forall (seg_ok g) (map fst files) ->
  on_disk crc32c g files (journal store) ->
  Transfer.snap store = Some bytes -> Format.parse bytes = Ok h ->
  let seq := Format.sequence h in
  opened (seq + 1) (map fst files) = S i -> files !! i = Some (s, t) -> quiet t -> 0 <= seq < u64_max ->
  g_start s <= seq + 1 -> (Z.to_nat (seq - g_start s + 1) <= length (g_items s))%nat -> calm w ->
  exists w', sent w' = sent w ++ transfer_frames bytes seq (Format.chain_hash h) (seed_of g s seq) s g
                                   (Policy.epoch (Format.lineage h)) /\ calm w' /\
    snapshot_transfer_with (E:=E) crc32c script store w =
      over_link (catch_up_from_journal_with (E:=E) crc32c script (journal store) seq) w'.
Proof using crc_range fits_one_entry AppEventLaws0.
  intros Hl Hok Hd Hstore Hparse seq Ho Hi Hq Hseq Hss Hn Hcalm.
  assert (His : map fst files !! i = Some s) by (by rewrite list_lookup_fmap, Hi).
  assert (Hoks : seg_ok g s) by (rewrite Forall_lookup in Hok; eauto).
  unfold snapshot_transfer_with. rewrite Hstore. unfold judged at 1. unfold tbind at 1. rewrite Hparse. cbn [rmap_err].
  fold seq.
  emit (emits_publish (encode_snapshot_begin (Z.of_nat (length bytes)) seq (Format.chain_hash h))) w1 Hs1 Hc1.
  emit (publish_body_emits crc32c bytes) w2 Hs2 Hc2. cbn [negb].
  assert (Hfound : containing_segment crc32c (discover_journal_files (journal store)) (wrapping_add seq 1)
                   = Ok (Some (i, info_of g s))).
  { rewrite Hd. unfold wrapping_add. rewrite Z.mod_small by (widths; lia).
    rewrite (containing_written crc32c blake3 crc_range fits_one_entry g (seq + 1) files _ _ _ _ Hl Hok), Ho, His. done. }
  emit (emits_lift _ _ Hfound) w3 Hs3 Hc3.
  assert (Hread : read_segment_prefix crc32c (default [] (discover_journal_files (journal store) !! i)) seq (script i)
                  = Ok (Some (seed_of g s seq))).
  { rewrite Hd, list_lookup_fmap, Hi. cbn [fmap option_fmap option_map from_option id]. by apply seed_read. }
  emit (emits_lift _ _ Hread) w4 Hs4 Hc4.
  emit (emits_publish (encode_segment_seed_begin (Z.of_nat (length (seed_of g s seq))))) w5 Hs5 Hc5.
  emit (publish_body_emits crc32c (seed_of g s seq)) w6 Hs6 Hc6. cbn [negb].
  emit (emits_publish (encode_stream_start seq (starting_sequence (info_of g s)) (anchor_hash (info_of g s))
    (genesis_entries (info_of g s)) (Policy.epoch (Format.lineage h)))) w7 Hs7 Hc7.
  exists w7. split; [|split; [done|reflexivity]].
  rewrite Hs7, Hs6, Hs5, Hs4, Hs3, Hs2, Hs1, !app_nil_r. unfold transfer_frames. by rewrite <- !app_assoc.
Qed.

(** C19: Re-seeding a replica makes it a copy. A primary serves a snapshot it saved,
    taken at a sequence its journal still covers, with the chain value its writer
    had there. On an undisturbed link the transfer and the catch-up behind it
    succeed; and a replica that reads those frames, however its own reads are
    split and whatever it held before, ends with the primary's application,
    watermark and policy, and the higher of the two epochs, at exactly that sequence and chain
    value. Its disk holds the served snapshot file and a live segment that is
    byte for byte the front of the primary's, and nothing else; everything it held
    (segments, live file, both snapshots) is kept as one more archive, under the
    reason of the verdict, behind the earlier ones. Its writer stands where the
    primary's stood, the stream behind it is precisely what the replica still
    lacks, and nothing of it was consumed. *)
Theorem resync_exact g files store start anchor start' anchor' (a : A) payload seq chain l watermark bytes w :
  linked start anchor (map fst files) start' anchor' -> Forall (seg_ok g) (map fst files) ->
  Forall quiet (map snd files) -> on_disk crc32c g files (journal store) -> files <> [] ->
  Forall (fun f => Z.of_nat (length (file_of crc32c g f)) <= u64_max) files ->
  0 <= seq < u64_max -> start <= seq + 1 -> seq < start' ->
  Verdict.chain_of crc32c blake3 (map fst files) seq = Some chain ->
  Format.snapshot a = Some payload -> Format.restore payload = Some (a, []) -> in_u16 (Format.APP_VERSION (A:=A)) ->
  FormatFacts.fields_ok seq chain l g watermark ->
  Format.save_bytes crc32c a seq chain l g watermark Format.MAX_SNAPSHOT_SIZE = Ok bytes ->
  Transfer.snap store = Some bytes -> calm w ->
  exists ctl fs s, let items := take (Z.to_nat (seq - g_start s + 1)) (g_items s) in
    s ∈ map fst files /\
    (exists w', snapshot_transfer_with (E:=E) crc32c script store w = (Ok (CaughtUp (Z.max seq (start' - 1))), w') /\
       sent w' = sent w ++ ctl ++ map (bytes_of crc32c) fs) /\
    concat (map Shipping.contents fs) = owed seq (map fst files) /\
    forall divergent st sc buf chunk rest, exists wr st',
      handle_resync_verdict (E:=E) crc32c crc32c_append blake3 divergent (concat ctl ++ rest) st sc buf chunk =
        (Ok (Ready (g_start s) (g_anchor s) g), st', rest) /\
      engine st' = Some {| Replica.app := a; Replica.tick_watermark := watermark; Replica.writer := wr |} /\
      winv crc32c wr (g_start s) (g_anchor s) items [] /\
      position st' = {| Replica.last_sequence := seq; Replica.chain_hash := chain |} /\
      disk st' = {| Replica.archives := []; Replica.live := Some (segment (g_start s) (g_anchor s) g items []);
                    Replica.snap := Some bytes; prev := None |} /\
      lineage_policy st' = ack_policy l /\ fence_epoch st' = Z.max (fence_epoch st) (Policy.epoch l) /\
      ((disk st = empty_disk /\ archived st' = archived st) \/
       (disk st <> empty_disk /\
        archived st' = archived st ++ [(if divergent then Divergent else Resynced, disk st)])).
Proof using crc_range crc_empty crc_appends fits_one_entry AppEventLaws0.
  intros Hl Hok Hq Hd Hne Hsz Hseq Hle Hlt Hchain Hsnap Hrest Hav Hf Hsave Hstore Hcalm.
  destruct (FormatFacts.saved_loads crc32c crc_range a payload seq chain l g watermark bytes Hsnap Hrest Hav Hf Hsave)
    as (Hparse & Hload & Hbl).
  set (segs := map fst files) in *.
  destruct (opened (seq + 1) segs) as [|i] eqn:Ho.
  { destruct files as [|[s0 t0] rest]; [done|]. cbn in Hl. unfold opened in Ho. cbn [segs map fst List.filter] in Ho.
    rewrite (proj2 (Z.leb_le _ _)) in Ho by lia. done. }
  assert (Hilt : (i < length files)%nat) by (pose proof (opened_le (seq + 1) segs); unfold segs in *; rewrite length_map in *; lia).
  destruct (lookup_lt_is_Some_2 files i Hilt) as [[s t] Hi].
  assert (His : segs !! i = Some s) by (unfold segs; by rewrite list_lookup_fmap, Hi).
  destruct (chain_at_seed crc32c blake3 _ _ _ _ _ _ _ _ Hl Ho His Hlt) as [Hn Hch]. rewrite Hchain in Hch.
  pose proof (opened_last crc32c blake3 _ _ _ _ _ _ _ _ Hl Ho His) as Hss.
  assert (Hoks : seg_ok g s) by (rewrite Forall_lookup in Hok; eauto).
  assert (Hqs : quiet t) by (rewrite Forall_map, Forall_lookup in Hq; exact (Hq _ _ Hi)).
  set (seed := seed_of g s seq).
  assert (Hseed : in_u64 (Z.of_nat (length seed))).
  { rewrite Forall_lookup in Hsz. specialize (Hsz _ _ Hi). cbn beta in Hsz. split; [lia|].
    etransitivity; [|exact Hsz]. apply Nat2Z.inj_le. unfold seed, seed_of, file_of, Written.segment. cbn [fst snd].
    rewrite app_nil_r, !length_app. rewrite <- (take_drop (Z.to_nat (seq - g_start s + 1)) (g_items s)) at 2.
    rewrite (stream_app crc32c), length_app. lia. }
  assert (Hbu : in_u64 (Z.of_nat (length bytes))) by (unfold Format.MAX_SNAPSHOT_SIZE in Hbl; widths; lia).
  pose proof Hf as (_ & Hcl & Hep & _).
  set (ctl := transfer_frames bytes seq chain seed s g (Policy.epoch l)).
  destruct (transfer_emits store g files (FormatFacts.saved_header (A:=A) seq chain l g watermark) bytes s t i w
    _ _ _ _ Hl Hok Hd Hstore Hparse Ho Hi Hqs Hseq Hss Hn Hcalm) as (w1 & Hs1 & Hc1 & Ht).
  destruct (walk_outcome crc32c blake3 crc_range fits_one_entry script g files (journal store) _ _ _ _ seq w1 Hl Hok Hq Hd Hne Hseq Hle)
    as (fs & rest & Hsent & _ & Hcont & _ & Hdone).
  destruct (Hdone Hc1) as (-> & Hr & _). rewrite app_nil_r in Hcont.
  exists ctl, fs, s. split_and!.
  - by eapply list_elem_of_lookup_2.
  - rewrite Ht. unfold over_link, catch_up_from_journal_with.
    destruct (stream_journal _ _ _ _ w1) as [r w2]. cbn [fst snd] in Hr, Hsent. subst r.
    exists w2. split; [done|]. by rewrite Hsent, Hs1, <- app_assoc.
  - exact Hcont.
  - intros divergent st sc buf chunk rest.
    destruct (resync_received divergent st sc buf chunk rest a bytes seq chain l g watermark s) as (wr & Hh & Hw);
      try done. { by injection Hch as <-. }
    eexists wr, _. split; [exact Hh|]. split_and!; try done. exact (proj2 (emptied_moves st _)).
Qed.
End exact.
End Exact.

Module Sample.
Import CatchUp.CatchUp Shipping Transfer Replica CatchUp.Sample Scanner.Sample Codec.Sample Snapshot.Sample.
Import Segments.History.

(** The checksum continued: the sample's is a sum. *)
Definition sum32_append (c : Z) (bs : list Z) : Z := (c + foldr Z.add 0 bs) mod 4294967296.

Lemma sum32_appends a b : sum32_append (sum32 a) b = sum32 (a ++ b).
Proof.
  unfold sum32_append, sum32. rewrite Z.add_mod_idemp_l by lia. f_equal.
  induction a as [|x a IH]; cbn [foldr Datatypes.app]; lia.
Qed.

Definition sample_chain : list Z := seg_tail sum32 digest seg1.

Definition held : State (A:=Z) := {|
  engine := None; position := GENESIS;
  disk := {| Replica.archives := []; Replica.live := Some [1; 2; 3]; Replica.snap := None; prev := None |};
  archived := []; fence_epoch := 2; lineage_policy := None; journal_tip := 0; primary_observed := false |}.

Lemma resync_exact_witness :
  exists bytes ctl fs (s : Seg (E:=bool)) w' wr st',
    Format.save_bytes sum32 7 2 sample_chain sample_lineage (Some 0) 99 Format.MAX_SNAPSHOT_SIZE = Ok bytes /\
    snapshot_transfer_with (E:=bool) sum32 (fun _ => []) {| journal := dir; Transfer.snap := Some bytes |} open_link
      = (Ok (CaughtUp 3), w') /\ sent w' = ctl ++ map (bytes_of (E:=bool) sum32) fs /\
    handle_resync_verdict (E:=bool) sum32 sum32_append digest true (concat ctl ++ []) held [] 4096 4200 =
      (Ok (Ready (g_start s) (g_anchor s) (Some 0)), st', []) /\
    engine st' = Some {| Replica.app := 7; Replica.tick_watermark := 99; Replica.writer := wr |} /\
    archived st' = [(Divergent, disk held)].
Proof.
  destruct (Format.save_bytes sum32 7 2 sample_chain sample_lineage (Some 0) 99 Format.MAX_SNAPSHOT_SIZE)
    as [bytes|] eqn:Hsave; [|vm_compute in Hsave; discriminate].
  destruct (Exact.resync_exact (E:=bool) sum32 sum32_append digest sum32_range eq_refl sum32_appends
    Reader.Sample.sample_fits (fun _ => []) (Some 0) files {| journal := dir; Transfer.snap := Some bytes |}
    1 (replicate 32 9) 4 (seg_tail sum32 digest seg2) 7 [7] 2 sample_chain sample_lineage 99 bytes open_link
    files_linked files_ok files_quiet eq_refl ltac:(discriminate)) as (ctl & fs & s & _ & (w' & Ht & Hs) & _ & Hr);
    [repeat constructor; vm_compute; discriminate|widths; lia|lia|lia|by vm_compute|done|done|by (cbn; widths; lia)
    | |exact Hsave|done|by split|].
  - repeat split; widths; cbn; lia.
  - destruct (Hr true held [] 4096%nat 4200%nat []) as (wr & st' & Hh & He & _ & _ & _ & _ & _ & Ha).
    exists bytes, ctl, fs, s, w', wr, st'. split; [reflexivity|]. split; [exact Ht|]. split; [exact Hs|].
    split; [exact Hh|]. split; [exact He|]. by destruct Ha as [[Hn _]|[_ ->]].
Defined.
End Sample.
