(* ===== verification/Handoff.v ===== *)
(** * From catch-up to the live ring

    [Handoff] is the end of a join ([catchup.rs], [handoff.rs] and [sent.rs] of
    [transport-core/src/replication]): a ring chunk is judged against what has been
    streamed, and the ring is drained into the stream, the journal read again while
    a chunk is ahead of it. It is written twice in the source, inline for the
    kernel-TCP sender and a bounded step at a time for the DPDK one; [Stepped]
    shows that the two put the same bytes on the wire, [Contiguous] that those
    bytes leave no gap. [PersistWatch] notices a replica that takes entries and
    persists none ([persist_watch.rs]). *)

From S2P Require Import Prelude Cursors Lineage Codec Journal Wire Protocol Segments CatchUp.
Import Codec.Le Codec.Codec.
Import Cursors.Writer(sent_seed, sent_advance).

Module Handoff.

Inductive ChunkFate := Covered | Next | Ahead.

#[export] Instance ChunkFate_eq_dec : EqDecision ChunkFate.
Proof. solve_decision. Defined.

Record RingChunk := { fate : ChunkFate; batch : bool; first : Z }.

(** [RingChunk::classify]; [None] is a frame too short to judge. *)
Definition classify (end_sequence : Z) (data : list Z) (sent : Z) : option RingChunk :=
  match Wire.peek_frame_tag data with
  | None => None
  | Some tag =>
    if negb (tag =? Wire.MSG_INPUT_BATCH) then
      Some {| fate := if end_sequence <? sent then Covered
                      else if sent <? end_sequence then Ahead else Next;
              batch := false; first := 0 |}
    else if end_sequence <=? sent then Some {| fate := Covered; batch := true; first := 0 |}
    else match Wire.peek_first_sequence data with
         | None => None
         | Some lead =>
           Some {| fate := if wrapping_add sent 1 <? lead then Ahead else Next; batch := true; first := lead |}
         end
  end.

(** A chunk on the ring, and a journal pass: the frames it streams and the last
    sequence it reached, or that it failed. *)
Record Chunk := { end_sequence : Z; data : list Z }.
Record Pass := { frames : list (list Z); reached : option Z }.

(** What a handoff comes to: live, at a high-water mark and with the ring's rest; or
    torn down; or still waiting when the passes given to it run out. *)
Inductive Outcome :=
| WentLive (sent : Z) (wire : list (list Z)) (ring : list Chunk)
| TornDown (wire : list (list Z))
| Waiting.

Definition ahead (c : Chunk) (sent : Z) : option bool :=
  (fun r => bool_decide (fate r = Ahead)) <$> classify (end_sequence c) (data c) sent.

(** The loop that reads the disk again while the held chunk is ahead. [passes] are
    the journal passes to come, each a function of where it starts; [expired] what
    the deadline's next readings are, clear past their end. *)
Fixpoint backfill (passes : list (Z -> Pass)) (expired : list bool) (c : Chunk) (sent : Z)
    (wire : list (list Z)) (k : list (Z -> Pass) -> list bool -> Z -> list (list Z) -> Outcome) : Outcome :=
  match ahead c sent with
  | None => TornDown wire
  | Some false => k passes expired sent wire
  | Some true =>
    match passes with
    | [] => Waiting
    | pass :: passes =>
      let p := pass sent in
      let wire := wire ++ frames p in
      match reached p with
      | None => TornDown wire
      | Some e =>
        let sent := sent_advance sent e in
        match ahead c sent with
        | None => TornDown wire
        | Some false => k passes expired sent wire
        | Some true =>
          if default false (head expired) then TornDown wire
          else backfill passes (tail expired) c sent wire k
        end
      end
    end
  end.

(** [drain_into_contiguity], on the chunks found before the ring is first seen
    empty. A [forward] of a ring chunk is taken to succeed: where it fails the
    function returns its error there, and the session ends with what is on the
    wire so far. *)
Fixpoint drain (ring : list Chunk) (passes : list (Z -> Pass)) (expired : list bool) (sent : Z)
    (wire : list (list Z)) : Outcome :=
  match ring with
  | [] => WentLive sent wire []
  | c :: rest =>
    match classify (end_sequence c) (data c) sent with
    | None => TornDown wire
    | Some chunk =>
      if bool_decide (fate chunk = Covered) then drain rest passes expired sent wire
      else
        backfill passes expired c sent wire (fun passes expired sent wire =>
          if negb (batch chunk) then drain rest passes expired sent (wire ++ [data c])
          else if sent <? end_sequence c
          then WentLive (sent_advance sent (end_sequence c)) (wire ++ [data c]) rest
          else WentLive sent wire rest)
    end
  end.

(** [bridge_catchup_to_live], after the ring is activated: the residual pass, then
    the drain. *)
Definition bridge_catchup_to_live (handshake_last_sequence bulk_catchup_end : Z) (ring : list Chunk)
    (passes : list (Z -> Pass)) (expired : list bool) : Outcome :=
  match passes with
  | [] => Waiting
  | pass :: passes =>
    let p := pass bulk_catchup_end in
    match reached p with
    | None => TornDown (frames p)
    | Some e => drain ring passes expired (sent_seed handshake_last_sequence e) (frames p)
    end
  end.

(** In milliseconds. *)
Definition HANDOFF_BRIDGE_TIMEOUT : Z := 30.

(** *** The same, a step at a time *)
Inductive Phase :=
| Start (bulk_catchup_end : Z)
| Residual
| Drain
| Backfill (chunk : RingChunk)
| Forward (chunk : RingChunk)
| Live.

Record LiveHandoff := { handshake_last : Z; phase : Phase; sent : Z; deadline : option Z }.

Definition new (handshake_last_sequence bulk_catchup_end : Z) : LiveHandoff :=
  {| handshake_last := handshake_last_sequence; phase := Start bulk_catchup_end;
     sent := sent_seed handshake_last_sequence bulk_catchup_end; deadline := None |}.

(** The sender behind [HandoffIo]: [running] is the pass in progress, [pumps] which
    of the next pumps leave it unfinished, [offers] which of the next frames the
    socket takes, [active] the slot's flag. *)
Record Sender := {
  wire : list (list Z);
  running : option Pass;
  passes : list (Z -> Pass);
  pumps : list bool;
  offers : list bool;
  active : bool
}.

Definition activate (io : Sender) : Sender :=
  {| wire := wire io; running := running io; passes := passes io; pumps := pumps io; offers := offers io;
     active := true |}.

Definition start_pass (io : Sender) (from : Z) : Sender :=
  match passes io with
  | [] => {| wire := wire io; running := None; passes := []; pumps := pumps io; offers := offers io; active := active io |}
  | pass :: rest =>
    {| wire := wire io; running := Some (pass from); passes := rest; pumps := pumps io; offers := offers io;
       active := active io |}
  end.

(** [None] is [Pending]. *)
Definition pump_pass (io : Sender) : option (option Z) * Sender :=
  let io' := {| wire := wire io; running := running io; passes := passes io; pumps := tail (pumps io);
                offers := offers io; active := active io |} in
  if default false (head (pumps io)) then (None, io')
  else match running io with
       | None => (None, io')
       | Some p =>
         (Some (reached p),
          {| wire := wire io ++ frames p; running := None; passes := passes io; pumps := tail (pumps io);
             offers := offers io; active := active io |})
       end.

Definition try_send (io : Sender) (frame : list Z) : bool * Sender :=
  let ok := default true (head (offers io)) in
  (ok, {| wire := if ok then wire io ++ [frame] else wire io; running := running io; passes := passes io;
          pumps := pumps io; offers := tail (offers io); active := active io |}).

Inductive HandoffStep := Pending | WentLiveAt (sent : Z) | Failed.

Definition with_phase (h : LiveHandoff) (p : Phase) : LiveHandoff :=
  {| handshake_last := handshake_last h; phase := p; sent := sent h; deadline := deadline h |}.
Definition with_sent (h : LiveHandoff) (s : Z) : LiveHandoff :=
  {| handshake_last := handshake_last h; phase := phase h; sent := s; deadline := deadline h |}.

Definition go_live (h : LiveHandoff) : HandoffStep * LiveHandoff :=
  (WentLiveAt (sent h), {| handshake_last := handshake_last h; phase := Live; sent := 0; deadline := deadline h |}).

(** [forward], on the ring's first chunk; [None] goes on draining. *)
Definition forward (h : LiveHandoff) (chunk : RingChunk) (c : Chunk) (rest : list Chunk) (io : Sender)
    : option HandoffStep * LiveHandoff * list Chunk * Sender :=
  let send := negb (batch chunk) || (sent h <? end_sequence c) in
  let '(ok, io') := if send then try_send io (data c) else (true, io) in
  if send && negb ok then (Some Pending, with_phase h (Forward chunk), c :: rest, io')
  else
    let h := if send && batch chunk then with_sent h (sent_advance (sent h) (end_sequence c)) else h in
    if batch chunk then let '(s, h) := go_live h in (Some s, h, rest, io')
    else (None, with_phase h Drain, rest, io').

(** One turn of [step]'s loop: the step to end on, if any. *)
Definition turn (h : LiveHandoff) (ring : list Chunk) (io : Sender) (now : Z)
    : option HandoffStep * LiveHandoff * list Chunk * Sender :=
  match phase h with
  | Start bulk => (None, with_phase h Residual, ring, start_pass (activate io) bulk)
  | Residual =>
    match pump_pass io with
    | (None, io) => (Some Pending, h, ring, io)
    | (Some None, io) => (Some Failed, h, ring, io)
    | (Some (Some e), io) =>
      (None, {| handshake_last := handshake_last h; phase := Drain; sent := sent_seed (handshake_last h) e;
                deadline := Some (now + HANDOFF_BRIDGE_TIMEOUT) |}, ring, io)
    end
  | Drain =>
    match ring with
    | [] => let '(s, h) := go_live h in (Some s, h, [], io)
    | c :: rest =>
      match classify (end_sequence c) (data c) (sent h) with
      | None => (Some Failed, h, ring, io)
      | Some chunk =>
        match fate chunk with
        | Covered => (None, h, rest, io)
        | Ahead => (None, with_phase h (Backfill chunk), ring, start_pass io (sent h))
        | Next => forward h chunk c rest io
        end
      end
    end
  | Backfill chunk =>
    match pump_pass io with
    | (None, io) => (Some Pending, h, ring, io)
    | (Some None, io) => (Some Failed, h, ring, io)
    | (Some (Some e), io) =>
      let h := with_sent h (sent_advance (sent h) e) in
      match ring with
      | [] => (Some Failed, h, ring, io)
      | c :: rest =>
        match classify (end_sequence c) (data c) (sent h) with
        | None => (Some Failed, h, ring, io)
        | Some r =>
          if bool_decide (fate r = Ahead) then
            if match deadline h with Some d => d <=? now | None => false end then (Some Failed, h, ring, io)
            else (Some Pending, h, ring, start_pass io (sent h))
          else forward h chunk c rest io
        end
      end
    end
  | Forward chunk =>
    match ring with
    | [] => (Some Failed, h, ring, io)
    | c :: rest => forward h chunk c rest io
    end
  | Live => (Some Failed, h, ring, io)
  end.

(** [step]: turns until one ends it. Two turns finish a chunk, so the fuel covers
    the ring; out of it the step would be [Pending]. *)
Fixpoint turns (fuel : nat) (h : LiveHandoff) (ring : list Chunk) (io : Sender) (now : Z)
    : HandoffStep * LiveHandoff * list Chunk * Sender :=
  match fuel with
  | O => (Pending, h, ring, io)
  | S fuel =>
    match turn h ring io now with
    | (Some s, h, ring, io) => (s, h, ring, io)
    | (None, h, ring, io) => turns fuel h ring io now
    end
  end.
Definition step (h : LiveHandoff) (ring : list Chunk) (io : Sender) (now : Z) :=
  turns (2 * length ring + 4) h ring io now.

(** Steps on later ticks, until one of them ends the handoff. *)
Fixpoint steps (ticks : list Z) (h : LiveHandoff) (ring : list Chunk) (io : Sender)
    : HandoffStep * list Chunk * Sender :=
  match ticks with
  | [] => (Pending, ring, io)
  | now :: ticks =>
    match step h ring io now with
    | (Pending, h, ring, io) => steps ticks h ring io
    | (s, _, ring, io) => (s, ring, io)
    end
  end.
End Handoff.

(** ** A step at a time is the same handoff *)
Module Stepped.
Import Handoff.

(** What the inline drain does with a chunk it has reached. *)
Definition settled (chunk : RingChunk) (c : Chunk) (rest : list Chunk) (passes : list (Z -> Pass))
    (expired : list bool) (sent : Z) (wire : list (list Z)) : Outcome :=
  if negb (batch chunk) then drain rest passes expired sent (wire ++ [data c])
  else if sent <? end_sequence c
  then WentLive (sent_advance sent (end_sequence c)) (wire ++ [data c]) rest
  else WentLive sent wire rest.

(** And with the end of a back-fill pass. *)
Definition after_pass (p : Pass) (chunk : RingChunk) (c : Chunk) (rest : list Chunk)
    (passes : list (Z -> Pass)) (expired : list bool) (sent : Z) (wire : list (list Z)) : Outcome :=
  let wire := wire ++ frames p in
  match reached p with
  | None => TornDown wire
  | Some e =>
    let sent := sent_advance sent e in
    match ahead c sent with
    | None => TornDown wire
    | Some false => settled chunk c rest passes expired sent wire
    | Some true =>
      if default false (head expired) then TornDown wire
      else backfill passes (tail expired) c sent wire (settled chunk c rest)
    end
  end.

(** The inline handoff, from where a stepped one stands. *)
Definition residual (p : Pass) (hl : Z) (ring : list Chunk) (passes : list (Z -> Pass)) (expired : list bool)
    (wire : list (list Z)) : Outcome :=
  match reached p with
  | None => TornDown (wire ++ frames p)
  | Some e => drain ring passes expired (sent_seed hl e) (wire ++ frames p)
  end.

Definition inline (h : LiveHandoff) (ring : list Chunk) (io : Sender) (expired : list bool) : Outcome :=
  match phase h with
  | Start bulk =>
    match passes io with
    | [] => Waiting
    | pass :: ps => residual (pass bulk) (handshake_last h) ring ps expired (wire io)
    end
  | Residual =>
    match running io with
    | None => Waiting
    | Some p => residual p (handshake_last h) ring (passes io) expired (wire io)
    end
  | Drain => drain ring (passes io) expired (sent h) (wire io)
  | Backfill chunk =>
    match ring, running io with
    | c :: rest, Some p => after_pass p chunk c rest (passes io) expired (sent h) (wire io)
    | _, _ => Waiting
    end
  | Forward chunk =>
    match ring with
    | c :: rest => settled chunk c rest (passes io) expired (sent h) (wire io)
    | [] => Waiting
    end
  | Live => Waiting
  end.

Definition held (h : LiveHandoff) (ring : list Chunk) : Prop :=
  match phase h with Backfill _ | Forward _ => ring <> [] | Live => False | _ => True end.

(** The deadline has not passed, if it is set. *)
Definition in_time (h : LiveHandoff) (now : Z) : Prop :=
  match deadline h with Some d => now < d | None => True end.

(** What one turn, or one step, owes the inline handoff. *)
Definition follows (now : Z) (h : LiveHandoff) (ring : list Chunk) (io : Sender)
    (o : option HandoffStep) (h' : LiveHandoff) (ring' : list Chunk) (io' : Sender) : Prop :=
  match o with
  | None | Some Pending =>
    held h' ring' /\
    (forall ex', exists ex, inline h ring io ex = inline h' ring' io' ex') /\
    (in_time h now -> inline h ring io [] = inline h' ring' io' [] /\ in_time h' now)
  | Some (WentLiveAt s) => (exists ex, inline h ring io ex = WentLive s (wire io') ring') /\
                           (in_time h now -> inline h ring io [] = WentLive s (wire io') ring')
  | Some Failed => (exists ex, inline h ring io ex = TornDown (wire io')) /\
                   (in_time h now -> inline h ring io [] = TornDown (wire io'))
  end.

Lemma ahead_classify c s r :
  classify (end_sequence c) (data c) s = Some r -> ahead c s = Some (bool_decide (fate r = Ahead)).
Proof. unfold ahead. by intros ->. Qed.

(** Forwarding the held chunk. *)
Lemma forward_follows now h chunk c rest io o h' ring' io' h0 ring0 io0 :
  forward h chunk c rest io = (o, h', ring', io') ->
  (forall ex, inline h0 ring0 io0 ex = settled chunk c rest (passes io) ex (sent h) (wire io)) ->
  (in_time h0 now -> in_time h now) ->
  follows now h0 ring0 io0 o h' ring' io'.
Proof.
  unfold forward, try_send. intros Hf Hin Ht.
  destruct (negb (batch chunk) || (sent h <? end_sequence c)) eqn:Hsend.
  - destruct (default true (head (offers io))) eqn:Hok; cbn [andb negb] in Hf.
    + destruct (batch chunk) eqn:Hb.
      * injection Hf as <- <- <- <-. cbn [follows wire sent with_sent].
        cut (forall ex, inline h0 ring0 io0 ex = WentLive (sent_advance (sent h) (end_sequence c)) (wire io ++ [data c]) rest);
          [intros Hall; split; [by exists []|done]|].
        intros ex. rewrite Hin. unfold settled. rewrite Hb. cbn [negb orb] in *. by rewrite Hsend.
      * injection Hf as <- <- <- <-. split; [done|]. unfold settled in Hin. rewrite Hb in Hin. cbn [negb] in Hin.
        split; [intros ex'; exists ex'; apply Hin|]. intros Hi. split; [apply Hin|]. by apply Ht.
    + injection Hf as <- <- <- <-. split; [done|]. split; [intros ex'; exists ex'; apply Hin|].
      intros Hi. split; [apply Hin|by apply Ht].
  - apply orb_false_elim in Hsend as [Hb Hlt]. apply negb_false_iff in Hb. cbn [andb] in Hf. rewrite Hb in Hf.
    injection Hf as <- <- <- <-. cbn [follows].
    cut (forall ex, inline h0 ring0 io0 ex = WentLive (sent h) (wire io) rest);
      [intros Hall; split; [by exists []|done]|].
    intros ex. rewrite Hin. unfold settled. by rewrite Hb, Hlt.
Qed.

Lemma residual_follows now h ring io o h' ring' io' :
  phase h = Residual -> turn h ring io now = (o, h', ring', io') -> follows now h ring io o h' ring' io'.
Proof.
  intros Hp Ht. unfold turn in Ht. rewrite Hp in Ht.
  unfold pump_pass in Ht. destruct (default false (head (pumps io))).
  { injection Ht as <- <- <- <-. unfold follows, held, inline. rewrite Hp. cbn [running passes wire].
    split; [done|]. split; [intros ex'; by exists ex'|]. by split. }
  destruct (running io) as [p|] eqn:Hr.
  2: { injection Ht as <- <- <- <-. unfold follows, held, inline. rewrite Hp, Hr. cbn [running].
       split; [done|]. split; [intros ex'; by exists ex'|]. by split. }
  destruct (reached p) as [e|] eqn:He; injection Ht as <- <- <- <-; unfold follows, held, inline; rewrite Hp, Hr;
    unfold residual; rewrite He; cbn [phase passes wire sent].
  + split; [done|]. split; [intros ex'; by exists ex'|]. intros _. split; [done|].
    unfold in_time. cbn [deadline]. unfold HANDOFF_BRIDGE_TIMEOUT. lia.
  + split; [by exists []|done].
Qed.

Lemma drain_follows now h ring io o h' ring' io' :
  phase h = Drain -> turn h ring io now = (o, h', ring', io') -> follows now h ring io o h' ring' io'.
Proof.
  intros Hp Ht. unfold turn in Ht. rewrite Hp in Ht.
  destruct ring as [|c rest].
  { injection Ht as <- <- <- <-. cbn [follows]. unfold inline. rewrite Hp. split; [by exists []|done]. }
  assert (Hdr : forall ex, inline h (c :: rest) io ex = drain (c :: rest) (passes io) ex (sent h) (wire io))
    by (intros ex; unfold inline; by rewrite Hp).
  cbn [drain] in Hdr. destruct (classify _ _ _) as [chunk|] eqn:Hc.
  2: { injection Ht as <- <- <- <-. split; [exists []; apply Hdr|intros _; apply Hdr]. }
  pose proof (ahead_classify _ _ _ Hc) as Ha.
  destruct (fate chunk) eqn:Hf.
  + injection Ht as <- <- <- <-. split; [unfold held; by rewrite Hp|]. rewrite bool_decide_true in Hdr by done.
    assert (Hin : forall ex, inline h rest io ex = drain rest (passes io) ex (sent h) (wire io))
      by (intros ex; unfold inline; by rewrite Hp).
    split; [intros ex'; exists ex'; by rewrite Hdr, Hin|]. intros Hi. by rewrite Hdr, Hin.
  + eapply forward_follows; [exact Ht| |auto]. intros ex. rewrite Hdr, bool_decide_false by done.
    destruct (passes io); cbn [backfill]; rewrite Ha, bool_decide_false by done; done.
  + injection Ht as <- <- <- <-. split; [unfold held; cbn; done|]. rewrite bool_decide_false in Hdr by done.
    assert (Hin : forall ex, inline h (c :: rest) io ex =
              inline (with_phase h (Backfill chunk)) (c :: rest) (start_pass io (sent h)) ex).
    { intros ex. rewrite Hdr. unfold inline, start_pass. cbn [with_phase phase].
      destruct (passes io) as [|pass ps]; cbn [backfill running passes wire sent]; rewrite Ha, bool_decide_true by done; done. }
    split; [intros ex'; by exists ex'|]. intros Hi. split; [apply Hin|exact Hi].
Qed.

Lemma backfill_follows chunk now h ring io o h' ring' io' :
  held h ring -> phase h = Backfill chunk -> turn h ring io now = (o, h', ring', io') -> follows now h ring io o h' ring' io'.
Proof.
  intros Hh Hp Ht. unfold turn in Ht. rewrite Hp in Ht.
  unfold held in Hh. rewrite Hp in Hh. destruct ring as [|c rest]; [done|].
  unfold pump_pass in Ht. destruct (default false (head (pumps io))).
  { injection Ht as <- <- <- <-. unfold follows, held, inline. rewrite Hp. cbn [running passes wire].
    split; [done|]. split; [intros ex'; by exists ex'|]. by split. }
  destruct (running io) as [p|] eqn:Hr.
  2: { injection Ht as <- <- <- <-. unfold follows, held, inline. rewrite Hp, Hr. cbn [running].
       split; [done|]. split; [intros ex'; by exists ex'|]. by split. }
  assert (Hin : forall ex, inline h (c :: rest) io ex = after_pass p chunk c rest (passes io) ex (sent h) (wire io))
    by (intros ex; unfold inline; by rewrite Hp, Hr).
  unfold after_pass in Hin. destruct (reached p) as [e|] eqn:He.
  2: { injection Ht as <- <- <- <-. split; [exists []; apply Hin|intros _; apply Hin]. }
  cbn [sent with_sent] in Ht. destruct (classify _ _ _) as [r|] eqn:Hc.
  2: { injection Ht as <- <- <- <-. assert (Ha : ahead c (sent_advance (sent h) e) = None) by (unfold ahead; by rewrite Hc).
       rewrite Ha in Hin. split; [exists []; apply Hin|intros _; apply Hin]. }
  pose proof (ahead_classify _ _ _ Hc) as Ha. rewrite Ha in Hin.
  destruct (bool_decide (fate r = Ahead)) eqn:Hfa.
  + cbn [deadline with_sent] in Ht. destruct (match deadline h with Some d => _ | None => false end) eqn:Hd.
    * injection Ht as <- <- <- <-. split; [exists [true]; apply Hin|].
      unfold in_time. destruct (deadline h) as [d|]; [|done]. zb. lia.
    * injection Ht as <- <- <- <-. split; [unfold held; cbn [phase with_sent]; by rewrite Hp|].
      assert (Hnext : forall ex, backfill (passes io) ex c (sent_advance (sent h) e) (wire io ++ frames p) (settled chunk c rest) =
        inline (with_sent h (sent_advance (sent h) e)) (c :: rest)
          (start_pass {| wire := wire io ++ frames p; running := None; passes := passes io; pumps := tail (pumps io);
                         offers := offers io; active := active io |} (sent_advance (sent h) e)) ex).
      { intros ex. unfold inline, start_pass. cbn [phase with_sent passes]. rewrite Hp.
        destruct (passes io) as [|pass ps]; cbn [backfill running passes wire sent with_sent]; rewrite Ha; done. }
      split; [intros ex'; exists (false :: ex'); by rewrite Hin, <- Hnext|].
      intros Hi. split; [by rewrite Hin, <- Hnext|exact Hi].
  + eapply forward_follows; [exact Ht| |auto]. exact Hin.
Qed.

Lemma turn_follows now h ring io o h' ring' io' :
  held h ring -> turn h ring io now = (o, h', ring', io') -> follows now h ring io o h' ring' io'.
Proof.
  intros Hh Ht. destruct (phase h) as [bulk| | |chunk|chunk|] eqn:Hp.
  - unfold turn in Ht. rewrite Hp in Ht.
    injection Ht as <- <- <- <-. split; [done|]. unfold inline. rewrite Hp. unfold start_pass. cbn [with_phase phase activate passes].
    destruct (passes io) as [|pass ps]; cbn [running passes wire handshake_last];
      (split; [intros ex'; by exists ex'|]; intros Hi; split; [done|exact Hi]).
  - by eapply residual_follows.
  - by eapply drain_follows.
  - by eapply backfill_follows.
  - unfold turn in Ht. rewrite Hp in Ht.
    unfold held in Hh. rewrite Hp in Hh. destruct ring as [|c rest]; [done|].
    eapply forward_follows; [exact Ht| |auto]. intros ex. unfold inline. by rewrite Hp.
  -unfold held in Hh. by rewrite Hp in Hh.
Qed.
Lemma follows_trans now h ring io h1 ring1 io1 s h' ring' io' :
  follows now h ring io None h1 ring1 io1 -> follows now h1 ring1 io1 (Some s) h' ring' io' ->
  follows now h ring io (Some s) h' ring' io'.
Proof.
  intros (_ & Hex & Ht) Hs. destruct s; cbn [follows] in *.
  - destruct Hs as (Hh & Hex2 & Ht2). split; [done|]. split.
    + intros ex'. destruct (Hex2 ex') as [ex1 H1]. destruct (Hex ex1) as [ex H2]. exists ex. congruence.
    + intros Hi. destruct (Ht Hi) as [-> Hi1]. auto.
  - destruct Hs as [[ex1 H1] Ht2]. split.
    + destruct (Hex ex1) as [ex H2]. exists ex. congruence.
    + intros Hi. destruct (Ht Hi) as [-> Hi1]. auto.
  - destruct Hs as [[ex1 H1] Ht2]. split.
    + destruct (Hex ex1) as [ex H2]. exists ex. congruence.
    + intros Hi. destruct (Ht Hi) as [-> Hi1]. auto.
Qed.

(** How many turns a step can take. *)
Definition weight (h : LiveHandoff) (ring : list Chunk) : nat :=
  match phase h with
  | Start _ => 3 + 2 * length ring
  | Residual => 2 + 2 * length ring
  | Drain => 1 + 2 * length ring
  | Backfill _ | Forward _ => 2 * length ring
  | Live => 0
  end.

Lemma forward_lighter h chunk c rest io h' ring' io' :
  forward h chunk c rest io = (None, h', ring', io') -> (weight h' ring' < 2 * length (c :: rest))%nat.
Proof.
  unfold forward. destruct (if _ || _ then _ else _) as [ok io1]. destruct (_ && negb ok); [done|].
  destruct (batch chunk); [done|]. rewrite andb_false_r. intros [= <- <- <-]. cbn. lia.
Qed.

Lemma turn_lighter h ring io now h' ring' io' :
  turn h ring io now = (None, h', ring', io') -> (weight h' ring' < weight h ring)%nat.
Proof.
  intros Ht. unfold turn in Ht. unfold weight at 2. destruct (phase h) eqn:Hp.
  - injection Ht as <- <- <-. cbn. lia.
  - destruct (pump_pass io) as [[[e|]|] io1]; [|done|done]. injection Ht as <- <- <-. cbn [weight phase]. lia.
  - destruct ring as [|c rest]; [done|]. destruct (classify _ _ _) as [r|]; [|done].
    destruct (fate r); [injection Ht as <- <- <-; unfold weight; rewrite Hp; cbn; lia| |injection Ht as <- <- <-; cbn; lia].
    apply forward_lighter in Ht. lia.
  - destruct (pump_pass io) as [[[e|]|] io1]; [|done|done]. destruct ring as [|c rest]; [done|].
    destruct (classify _ _ _) as [r|]; [|done]. destruct (bool_decide _).
    + by destruct (match deadline _ with Some d => _ | None => false end).
    + by apply forward_lighter in Ht.
  - destruct ring as [|c rest]; [done|]. by apply forward_lighter in Ht.
  - done.
Qed.

(** A step ends because a turn of it ends it, never for want of fuel. *)
Lemma turns_follow fuel now h ring io s h' ring' io' :
  held h ring -> (weight h ring < fuel)%nat -> turns fuel h ring io now = (s, h', ring', io') ->
  follows now h ring io (Some s) h' ring' io' /\
  exists h1 ring1 io1, turn h1 ring1 io1 now = (Some s, h', ring', io').
Proof.
  revert h ring io. induction fuel as [|fuel IH]; intros h ring io Hh Hw Ht; [lia|]. cbn [turns] in Ht.
  destruct (turn h ring io now) as [[[[o|] h1] ring1] io1] eqn:Hturn.
  - injection Ht as <- <- <- <-. split; [by apply turn_follows|]. by exists h, ring, io.
  - pose proof (turn_follows _ _ _ _ _ _ _ _ Hh Hturn) as Hf. pose proof Hf as (Hh1 & _).
    apply turn_lighter in Hturn. destruct (IH h1 ring1 io1 Hh1 ltac:(lia) Ht) as [Hf1 He].
    split; [by eapply follows_trans|done].
Qed.

Lemma step_follows now h ring io s h' ring' io' :
  held h ring -> step h ring io now = (s, h', ring', io') -> follows now h ring io (Some s) h' ring' io'.
Proof.
  intros Hh Hs. eapply (turns_follow _ now h ring io s h' ring' io' Hh); [|exact Hs].
  unfold weight. destruct (phase h); lia.
Qed.

Lemma steps_follow ticks h ring io s ring' io' :
  held h ring -> steps ticks h ring io = (s, ring', io') ->
  match s with
  | Pending => True
  | WentLiveAt m => exists ex, inline h ring io ex = WentLive m (wire io') ring'
  | Failed => exists ex, inline h ring io ex = TornDown (wire io')
  end.
Proof.
  revert h ring io. induction ticks as [|now ticks IH]; intros h ring io Hh Hs; cbn [steps] in Hs.
  { injection Hs as <- <- <-. done. }
  destruct (step h ring io now) as [[[r h1] ring1] io1] eqn:Hst. apply step_follows in Hst; [|done].
  destruct r; [|injection Hs as <- <- <-; apply Hst..].
  destruct Hst as (Hh1 & Hex & _). specialize (IH _ _ _ Hh1 Hs). destruct s; [done| |];
    destruct IH as [ex1 H1]; destruct (Hex ex1) as [ex H2]; exists ex; congruence.
Qed.
(** A sender whose socket always has room and whose passes finish at once. *)
Definition prompt (io : Sender) : Prop := pumps io = [] /\ offers io = [].

(** Such a sender ends a step early only to read the disk again. *)
Definition paced (o : option HandoffStep) (io : Sender) (h' : LiveHandoff) (ring' : list Chunk) (io' : Sender) : Prop :=
  prompt io' /\ (length (passes io') <= length (passes io))%nat /\
  (o = Some Pending -> (length (passes io') < length (passes io))%nat \/ forall ex, inline h' ring' io' ex = Waiting).

Lemma forward_paced h chunk c rest io o h' ring' io' :
  prompt io -> forward h chunk c rest io = (o, h', ring', io') -> paced o io h' ring' io'.
Proof.
  intros [Hp Ho] Hf. unfold forward, try_send in Hf. rewrite Ho in Hf. cbn [head default from_option id tail] in Hf.
  destruct (negb (batch chunk) || (sent h <? end_sequence c)); cbn [andb negb] in Hf;
    destruct (batch chunk); injection Hf as <- <- <- <-; by split_and!.
Qed.

Lemma start_pass_paced io from : prompt io ->
  prompt (start_pass io from) /\ (length (passes (start_pass io from)) <= length (passes io))%nat /\
  ((length (passes (start_pass io from)) < length (passes io))%nat \/ running (start_pass io from) = None).
Proof.
  intros [Hp Ho]. unfold start_pass. destruct (passes io) as [|pass ps]; cbn [passes length running];
    (split; [by split|]); split; [lia|by right|lia|left; lia].
Qed.

Lemma turn_paced h ring io now o h' ring' io' :
  held h ring -> prompt io -> turn h ring io now = (o, h', ring', io') -> paced o io h' ring' io'.
Proof.
  intros Hh Hpr Ht. pose proof Hpr as [Hp Ho]. unfold turn, pump_pass in Ht. rewrite Hp in Ht.
  cbn [head default from_option id tail] in Ht. destruct (phase h) as [bulk| | |chunk|chunk|] eqn:Hph.
  - injection Ht as <- <- <- <-. destruct (start_pass_paced (activate io) bulk) as (H1 & H2 & _); [by split|]. by split_and!.
  - destruct (running io) as [p|] eqn:Hr; [destruct (reached p)|]; injection Ht as <- <- <- <-; split_and!; try done.
    intros _. right. intros ex. unfold inline. by rewrite Hph.
  - destruct ring as [|c rest]; [injection Ht as <- <- <- <-; by split_and!|].
    destruct (classify _ _ _) as [r|]; [|injection Ht as <- <- <- <-; by split_and!].
    destruct (fate r); [injection Ht as <- <- <- <-; by split_and!|by eapply forward_paced|].
    injection Ht as <- <- <- <-. destruct (start_pass_paced io (sent h)) as (H1 & H2 & _); [done|]. by split_and!.
  - unfold held in Hh. rewrite Hph in Hh. destruct ring as [|c rest]; [done|].
    destruct (running io) as [p|] eqn:Hr.
    2: { injection Ht as <- <- <- <-. split_and!; try done. intros _. right. intros ex. unfold inline. by rewrite Hph. }
    destruct (reached p) as [e|]; [|injection Ht as <- <- <- <-; by split_and!].
    destruct (classify _ _ _) as [r|]; [|injection Ht as <- <- <- <-; by split_and!].
    destruct (bool_decide _); [destruct (match deadline _ with Some d => _ | None => false end)|].
    + injection Ht as <- <- <- <-. by split_and!.
    + injection Ht as <- <- <- <-. match goal with |- paced _ _ _ _ (start_pass ?i ?f) =>
        destruct (start_pass_paced i f) as (H1 & H2 & H3); [by split|] end.
      split; [exact H1|]. split; [exact H2|]. intros _. destruct H3 as [H3|H3]; [by left|].
      right. intros ex. unfold inline. cbn [phase with_sent]. by rewrite Hph, H3.
    + by eapply forward_paced in Ht.
  - destruct ring as [|c rest]; [injection Ht as <- <- <- <-; by split_and!|]. by eapply forward_paced.
  - injection Ht as <- <- <- <-. by split_and!.
Qed.

Lemma turns_paced fuel h ring io now s h' ring' io' :
  held h ring -> prompt io -> (weight h ring < fuel)%nat -> turns fuel h ring io now = (s, h', ring', io') ->
  paced (Some s) io h' ring' io'.
Proof.
  revert h ring io. induction fuel as [|fuel IH]; intros h ring io Hh Hp Hw Ht; [lia|]. cbn [turns] in Ht.
  destruct (turn h ring io now) as [[[[o|] h1] ring1] io1] eqn:Hturn.
  - injection Ht as <- <- <- <-. by eapply turn_paced.
  - pose proof (turn_follows _ _ _ _ _ _ _ _ Hh Hturn) as (Hh1 & _).
    destruct (turn_paced _ _ _ _ _ _ _ _ Hh Hp Hturn) as (Hp1 & Hl1 & _). apply turn_lighter in Hturn.
    destruct (IH h1 ring1 io1 Hh1 Hp1 ltac:(lia) Ht) as (Hp2 & Hl2 & Hs).
    split; [done|]. split; [lia|]. intros He. destruct (Hs He) as [?|?]; [left; lia|by right].
Qed.

Lemma steps_complete n now h ring io m w rest :
  held h ring -> prompt io -> in_time h now -> (length (passes io) < n)%nat ->
  inline h ring io [] = WentLive m w rest ->
  exists io', steps (replicate n now) h ring io = (WentLiveAt m, rest, io') /\ wire io' = w.
Proof.
  revert h ring io. induction n as [|n IH]; intros h ring io Hh Hp Hi Hn Hl; [lia|]. cbn [replicate steps].
  destruct (step h ring io now) as [[[s h1] ring1] io1] eqn:Hst.
  assert (Hw : (weight h ring < 2 * length ring + 4)%nat) by (unfold weight; destruct (phase h); lia).
  destruct (turns_paced _ _ _ _ _ _ _ _ _ Hh Hp Hw Hst) as (Hp1 & Hl1 & Hpend).
  apply step_follows in Hst; [|done]. destruct s; cbn [follows] in Hst.
  - destruct Hst as (Hh1 & _ & Ht). destruct (Ht Hi) as [Heq Hi1]. rewrite Hl in Heq.
    destruct (Hpend eq_refl) as [Hlt|Hwait]; [|by rewrite Hwait in Heq].
    apply IH; [done|done|done|lia|done].
  - destruct Hst as [_ Ht]. rewrite Hl in Ht. injection (Ht Hi) as -> -> ->. by exists io1.
  - destruct Hst as [_ Ht]. rewrite Hl in Ht. by specialize (Ht Hi).
Qed.

(** The stepped handoff is the inline one. However its journal passes are
    spread over the ticks and however often the socket refuses a frame, a stepped
    handoff that goes live does so at the mark, with the bytes on the wire and the
    chunks left on the ring that the inline one ends with on the same ring and the
    same journal passes, and one that fails has sent what a failing inline one
    has, for some readings of the deadline. It does not merely not go wrong:
    wherever the inline handoff goes live before its deadline, a stepped one whose
    socket has room goes live too, in at most one step more than there are passes. *)
Theorem stepped_as_inline hl bulk ring io ticks :
  wire io = [] -> running io = None ->
  (let '(s, ring', io') := steps ticks (new hl bulk) ring io in
   match s with
   | Pending => True
   | WentLiveAt m => exists ex, bridge_catchup_to_live hl bulk ring (passes io) ex = WentLive m (wire io') ring'
   | Failed => exists ex, bridge_catchup_to_live hl bulk ring (passes io) ex = TornDown (wire io')
   end) /\
  (forall now m w rest, prompt io ->
     bridge_catchup_to_live hl bulk ring (passes io) [] = WentLive m w rest ->
     exists io', steps (replicate (S (length (passes io))) now) (new hl bulk) ring io = (WentLiveAt m, rest, io') /\
       wire io' = w).
Proof.
  intros Hw Hr.
  assert (Hin : forall ex, inline (new hl bulk) ring io ex = bridge_catchup_to_live hl bulk ring (passes io) ex).
  { intros ex. unfold inline, bridge_catchup_to_live, residual. cbn [new phase handshake_last].
    destruct (passes io) as [|pass ps]; [done|]. by rewrite Hw. }
  split.
  - destruct (steps ticks (new hl bulk) ring io) as [[s ring'] io'] eqn:Hs.
    apply steps_follow in Hs; [|done]. destruct s; [done| |]; destruct Hs as [ex He]; exists ex; by rewrite <- Hin.
  - intros now m w rest Hp Hb. apply steps_complete; [done|done|exact I|lia|]. by rewrite Hin.
Qed.
End Stepped.

(** ** The stream has no gap *)
Module Contiguous.
Import Handoff Journal.Stream Codec.Facts.

Section contiguous.
Context {E : Type} `{AppEvent E}.
Context (crc32c : list Z -> Z).
Hypothesis crc_range : forall bs, in_u32 (crc32c bs).
Context `{!AppEventLaws E}.
Hypothesis fits_one_entry : (entry_size (E:=E) <= MAX_ENTRY_SIZE)%nat.

Local Notation item := (item (E:=E)).

(** What goes on the wire, and what a replica at [pos] makes of it: a batch that
    starts at or before its next sequence takes it to the batch's end, one that
    starts past it is a gap; control frames carry no entries. *)
Inductive Sent := Entries (seq : Z) (items : list item) | Control (bytes : list Z).

Definition bytes_of (f : Sent) : list Z :=
  match f with Entries seq items => Wire.Mirror.frame_of crc32c seq items | Control bytes => bytes end.

Definition accept (pos : option Z) (f : Sent) : option Z :=
  match pos, f with
  | Some p, Entries seq items =>
    if seq <=? p + 1 then Some (Z.max p (seq + Z.of_nat (length items) - 1)) else None
  | pos, Control _ => pos
  | None, _ => None
  end.
Definition replica (pos : Z) (fs : list Sent) : option Z := foldl accept (Some pos) fs.

Definition sent_ok (f : Sent) : Prop :=
  match f with
  | Entries seq items =>
    items <> [] /\ Z.of_nat (length items) <= u16_max /\ Forall item_ok items /\
    0 <= seq /\ seq + Z.of_nat (length items) - 1 < u64_max
  | Control bytes => exists tag, Wire.peek_frame_tag bytes = Some tag /\ tag <> Wire.MSG_INPUT_BATCH
  end.

(** A chunk as the journal stage publishes it. *)
Definition chunk_ok (c : Chunk) : Prop :=
  exists f, data c = bytes_of f /\ sent_ok f /\ 0 <= end_sequence c /\
    match f with
    | Entries seq items => end_sequence c = seq + Z.of_nat (length items) - 1
    | Control _ => True
    end.

(** A pass as [handoff_pass_from_journal] makes it: contiguous from where it starts,
    and truthful about where it ends. *)
Definition honest (pass : Z -> Pass) : Prop := forall from, 0 <= from < u64_max ->
  exists fs e, frames (pass from) = map bytes_of fs /\ replica from fs = Some e /\ from <= e < u64_max /\
    match reached (pass from) with Some r => r = e | None => True end.

(** A batch's first slot carries its first sequence. *)
Lemma slices_lead seq items :
  items <> [] -> Forall item_ok items -> in_u64 seq ->
  field 2 8 (Wire.Mirror.slices crc32c seq items) = seq /\
  (Wire.SLOT_HEADER_LEN <= length (Wire.Mirror.slices crc32c seq items))%nat.
Proof using fits_one_entry AppEventLaws0.
  intros Hne Hit Hs. destruct items as [|it items]; [done|]. apply Forall_cons_1 in Hit as [Hit _].
  assert (Hi : exists ts key ev, it = (ts, key, ev)) by (destruct it as [[ts key] ev]; by exists ts, key, ev).
  destruct Hi as (ts & key & ev & Hi). destruct (frame_encodes crc32c fits_one_entry seq it ts key ev Hi Hit) as [He [Hlo _]].
  rewrite Hi in Hit. pose proof Hit as (Hts & Hkey & _). clear Hi.
  destruct (encode_frames _ _ _ _ _ _ _ He) as (tag & payload & _ & Hpl & Hfr).
  set (tl := Wire.Mirror.slices crc32c (seq + 1) items).
  assert (Hsl : Wire.Mirror.slices crc32c seq (it :: items) = drop 2 (frame crc32c seq it ++ tl)).
  { rewrite drop_app_le by lia. reflexivity. }
  rewrite Hsl. split; [|rewrite length_drop, length_app; unfold Wire.SLOT_HEADER_LEN; lia].
  unfold field. rewrite drop_drop. change (2 + 2)%nat with 4%nat.
  change (unle _) with (field 4 8 (frame crc32c seq it ++ tl)). rewrite Hfr.
  by destruct (entry_reads crc32c seq ts key tag payload tl) as (_ & _ & F4 & _).
Qed.

Lemma batch_peeks seq items :
  sent_ok (Entries seq items) ->
  Wire.peek_frame_tag (bytes_of (Entries seq items)) = Some Wire.MSG_INPUT_BATCH /\
  Wire.peek_first_sequence (bytes_of (Entries seq items)) = Some seq.
Proof using fits_one_entry AppEventLaws0.
  intros (Hne & Hc & Hit & Hs & Hm). split; [reflexivity|].
  assert (Hlen : Z.of_nat (length items) <> 0) by (destruct items; [done|cbn [length]; lia]).
  set (fr := bytes_of (Entries seq items)).
  assert (Hcnt : field 5 2 fr = Z.of_nat (length items)) by (apply (unle_u16 (Z.of_nat (length items))); widths; lia).
  assert (Hfst : drop Wire.FRAME_HEADER_LEN fr = Wire.Mirror.slices crc32c seq items) by reflexivity.
  destruct (slices_lead seq items Hne Hit ltac:(widths; lia)) as [Hseq Hsl].
  unfold Wire.peek_first_sequence. change (length fr <? Wire.FRAME_HEADER_LEN)%nat with false.
  change (field 4 1 fr) with Wire.MSG_INPUT_BATCH. rewrite Hcnt, Hfst, Hseq, Z.eqb_refl. cbn [negb].
  rewrite (proj2 (Z.eqb_neq _ _)) by done. by rewrite (proj2 (Nat.ltb_ge _ _)) by done.
Qed.

(** How a well-formed chunk is judged. *)
Lemma classify_ok c f sent :
  data c = bytes_of f -> sent_ok f -> 0 <= sent < u64_max ->
  match f with Entries seq items => end_sequence c = seq + Z.of_nat (length items) - 1 | Control _ => True end ->
  exists lead, classify (end_sequence c) (data c) sent = Some
    match f with
    | Entries seq items =>
      {| fate := if end_sequence c <=? sent then Covered else if sent + 1 <? seq then Ahead else Next;
         batch := true; first := lead |}
    | Control _ =>
      {| fate := if end_sequence c <? sent then Covered else if sent <? end_sequence c then Ahead else Next;
         batch := false; first := lead |}
    end.
Proof using fits_one_entry AppEventLaws0.
  intros Hd Hok Hs He. unfold classify. rewrite Hd. destruct f as [seq items|bytes].
  - destruct (batch_peeks seq items Hok) as [Ht Hf]. rewrite Ht, Z.eqb_refl, Hf. cbn [negb].
    destruct (end_sequence c <=? sent); [by exists 0|]. exists seq. unfold wrapping_add.
    by rewrite Z.mod_small by (widths; lia).
  - destruct Hok as (tag & Ht & Hne). cbn [bytes_of]. rewrite Ht, (proj2 (Z.eqb_neq _ _)) by done. by exists 0.
Qed.

(** What is on the wire is contiguous from [base] to [pos]. *)
Definition gapless (base pos : Z) (wire : list (list Z)) : Prop :=
  0 <= pos < u64_max /\ exists fs, wire = map bytes_of fs /\ replica base fs = Some pos.

Lemma replica_app base fs gs :
  replica base (fs ++ gs) = match replica base fs with Some p => replica p gs | None => None end.
Proof using Type.
  clear. unfold replica. rewrite foldl_app. destruct (foldl accept (Some base) fs) as [p|]; [done|].
  induction gs as [|[] gs IH]; done.
Qed.

Lemma gapless_app base pos pos' wire more :
  gapless base pos wire -> gapless pos pos' more -> gapless base pos' (wire ++ more).
Proof using Type.
  clear. intros (_ & fs & -> & Hf) (Hp & gs & -> & Hg). split; [done|]. exists (fs ++ gs).
  by rewrite map_app, replica_app, Hf.
Qed.

Lemma gapless_pass base pos wire pass :
  gapless base pos wire -> honest pass ->
  exists e, pos <= e /\ gapless base e (wire ++ frames (pass pos)) /\
    match reached (pass pos) with Some r => r = e | None => True end.
Proof using Type.
  clear. intros Hg Hh. destruct (Hh pos (proj1 Hg)) as (fs & e & Hf & Hr & Hle & He).
  exists e. split; [lia|]. split; [|done]. eapply gapless_app; [exact Hg|].
  destruct Hg as [Hp _]. split; [lia|]. by exists fs.
Qed.

(** What a handoff comes to, from [pos] on [ring]. *)
Definition no_gap (base pos : Z) (ring : list Chunk) (o : Outcome) : Prop :=
  match o with
  | WentLive s wire rest =>
    gapless base s wire /\ pos <= s /\
    exists used, ring = used ++ rest /\ Forall (fun c => end_sequence c <= s) used
  | TornDown wire => exists s, gapless base s wire
  | Waiting => True
  end.

(** A chunk that is not ahead may go out. *)
Lemma gapless_chunk base pos wire c r :
  gapless base pos wire -> chunk_ok c -> classify (end_sequence c) (data c) pos = Some r -> fate r <> Ahead ->
  (batch r = false -> end_sequence c <= pos /\ gapless base pos (wire ++ [data c])) /\
  (batch r = true -> end_sequence c < u64_max /\
     (pos < end_sequence c -> gapless base (end_sequence c) (wire ++ [data c]))).
Proof using fits_one_entry AppEventLaws0.
  intros Hg (f & Hd & Hok & H0 & He) Hc Hf. pose proof Hg as [Hp _].
  destruct (classify_ok c f pos Hd Hok Hp He) as [lead Hr]. rewrite Hc in Hr. injection Hr as ->.
  destruct f as [seq items|bytes]; cbn [fate batch] in *; (split; [intros Hb; try done|intros Hb; try done]).
  - split; [destruct Hok as (_ & _ & _ & _ & ?); lia|]. intros Hlt. rewrite (proj2 (Z.leb_gt _ _)) in Hf by lia.
    destruct (pos + 1 <? seq) eqn:Hs; [done|]. zb. eapply gapless_app; [exact Hg|].
    destruct Hok as (_ & _ & _ & _ & ?). split; [lia|]. exists [Entries seq items]. rewrite Hd. split; [done|].
    cbn. rewrite (proj2 (Z.leb_le _ _)) by lia. f_equal. lia.
  - destruct (end_sequence c <? pos) eqn:H1; [|destruct (pos <? end_sequence c) eqn:H2; [done|]]; zb;
      (split; [lia|]); (eapply gapless_app; [exact Hg|]); split; try done;
      exists [Control bytes]; rewrite Hd; done.
Qed.

(** A back-fill hands on a position its chunk is not ahead of. *)
Lemma backfill_no_gap base c ring passes expired pos wire k :
  Forall honest passes -> gapless base pos wire ->
  (forall passes expired pos' wire r, Forall honest passes -> pos <= pos' -> gapless base pos' wire ->
     classify (end_sequence c) (data c) pos' = Some r -> fate r <> Ahead ->
     no_gap base pos ring (k passes expired pos' wire)) ->
  no_gap base pos ring (backfill passes expired c pos wire k).
Proof using Type.
  clear. intros Hh Hg Hk.
  assert (Hle : pos <= pos) by lia. revert Hle Hg.
  generalize pos at 2 3 5 as p. revert expired wire. induction passes as [|pass passes IH]; intros expired wire p Hp Hg.
  all: cbn [backfill]; unfold ahead; destruct (classify (end_sequence c) (data c) p) as [r|] eqn:Hc;
    cbn [fmap option_fmap option_map]; [|by exists p].
  all: destruct (bool_decide (fate r = Ahead)) eqn:Hb;
    [apply bool_decide_eq_true in Hb|apply bool_decide_eq_false in Hb; by eapply Hk].
  - done.
  - apply Forall_cons_1 in Hh as [Hpass Hh].
    destruct (gapless_pass _ _ _ _ Hg Hpass) as (e & Hpe & Hge & He).
    destruct (reached (pass p)) as [x|]; [subst x|by exists e].
    unfold sent_advance. rewrite Z.max_r by lia.
    destruct (classify (end_sequence c) (data c) e) as [r'|] eqn:Hc';
      cbn [fmap option_fmap option_map]; [|by exists e].
    destruct (bool_decide (fate r' = Ahead)) eqn:Hb';
      [|apply bool_decide_eq_false in Hb'; eapply (Hk passes); try done; lia].
    destruct (default false (head expired)); [by exists e|]. apply IH; [done|lia|done].
Qed.

Lemma no_gap_later base pos pos' c ring o :
  pos <= pos' -> end_sequence c <= pos' -> no_gap base pos' ring o -> no_gap base pos (c :: ring) o.
Proof using Type.
  clear. intros Hp Hc. destruct o as [s w rest| |]; [|done|done]. intros (Hg & Hs & used & -> & Hu).
  split; [done|]. split; [lia|]. exists (c :: used). split; [done|]. constructor; [lia|done].
Qed.

Lemma drain_no_gap base ring passes expired pos wire :
  Forall chunk_ok ring -> Forall honest passes -> gapless base pos wire ->
  no_gap base pos ring (drain ring passes expired pos wire).
Proof using fits_one_entry AppEventLaws0.
  intros Hr. revert passes expired pos wire. induction ring as [|c rest IH]; intros passes expired pos wire Hh Hg; cbn [drain].
  { split; [done|]. split; [lia|]. by exists []. }
  apply Forall_cons_1 in Hr as [Hc Hr]. specialize (IH Hr).
  destruct Hc as (f & Hf) eqn:Hcok. pose proof Hf as (Hd & Hok & H0 & He). clear Hcok.
  destruct (classify_ok c f pos Hd Hok (proj1 Hg) He) as [lead Hcl]. rewrite Hcl.
  set (chunk := match f with Entries _ _ => _ | Control _ => _ end).
  assert (Hbatch : forall p r, 0 <= p < u64_max -> classify (end_sequence c) (data c) p = Some r -> batch r = batch chunk).
  { intros p r Hp Hr'. destruct (classify_ok c f p Hd Hok Hp He) as [l Hl]. rewrite Hl in Hr'. injection Hr' as <-.
    unfold chunk. by destruct f. }
  destruct (bool_decide (fate chunk = Covered)) eqn:Hcov.
  { apply bool_decide_eq_true in Hcov. eapply no_gap_later; [reflexivity| |by apply IH].
    unfold chunk in Hcov. destruct f; cbn [fate] in Hcov; repeat (case_match; zb; try done); lia. }
  apply backfill_no_gap; [done|done|]. intros ps ex p w r Hps Hp Hgp Hcp Hfate.
  destruct (gapless_chunk base p w c r Hgp ltac:(by exists f) Hcp Hfate) as [Hctl Hbat].
  rewrite (Hbatch p r (proj1 Hgp) Hcp) in Hctl, Hbat. destruct (batch chunk); cbn [negb].
  - destruct Hbat as [Hlt Hsend]; [done|]. destruct (p <? end_sequence c) eqn:Hpc; zb.
    + unfold sent_advance. rewrite Z.max_r by lia. split; [by apply Hsend|]. split; [lia|]. exists [c].
      split; [done|]. by constructor.
    + split; [done|]. split; [done|]. exists [c]. split; [done|]. by constructor.
  - destruct Hctl as [Hle Hgc]; [done|]. eapply no_gap_later; [exact Hp|exact Hle|]. by apply IH.
Qed.

(** *** The passes the journal gives *)
Context (blake3 : list Z -> list Z).

(** A look at the journal: its files at that moment, how their reads are split, and
    the link and shutdown flag the pass runs under. *)
Record Look := { dir : CatchUp.JournalDir; splits : nat -> list nat; link : CatchUp.World }.

Definition pass_of (l : Look) : Z -> Pass := fun from =>
  let r := CatchUp.handoff_pass_from_journal (E:=E) crc32c (splits l) (dir l) from (link l) in
  {| frames := drop (length (CatchUp.sent (link l))) (CatchUp.sent (snd r));
     reached := match fst r with Ok e => Some e | Err _ => None end |}.

(** The files are a journal of linked segments. *)
Definition journal_seen (l : Look) : Prop :=
  exists g files start anchor start' anchor',
    Segments.History.linked crc32c blake3 start anchor (map fst files) start' anchor' /\
    Forall (Segments.History.seg_ok g) (map fst files) /\ Forall Scanner.Written.quiet (map snd files) /\
    Shipping.on_disk crc32c g files (dir l) /\ files <> [] /\ start' <= u64_max.

Definition as_sent (f : Shipping.Frame (E:=E)) : Sent :=
  match f with
  | Shipping.Rotated boundary anchor => Control (Control.encode_rotate boundary anchor)
  | Shipping.Batch seq items => Entries seq items
  end.

(** Frames that hold consecutive entries from the next one on. *)
Lemma frames_contiguous fs pos xs rest :
  Forall (Shipping.bounded crc32c) fs ->
  omap Shipping.as_entry (concat (map Shipping.contents fs)) ++ rest = Shipping.numbered (pos + 1) xs ->
  replica pos (map as_sent fs) = Some (Shipping.reached pos fs) /\
  pos <= Shipping.reached pos fs <= pos + Z.of_nat (length xs).
Proof using Type.
  clear. revert pos xs. induction fs as [|f fs IH]; intros pos xs Hb Hn; [split; [done|cbn; lia]|].
  apply Forall_cons_1 in Hb as [Hf Hb]. cbn [map concat] in Hn. rewrite omap_app, <- app_assoc in Hn.
  destruct f as [boundary anchor|seq items]; cbn [Shipping.contents] in Hn.
  { destruct (IH pos xs Hb Hn) as [Hr Hle]. by split. }
  destruct Hf as [Hne _]. rewrite Shipping.as_entry_entries in Hn.
  assert (Hsplit : exists ys, xs = items ++ ys /\ seq = pos + 1).
  { clear -Hn Hne. destruct items as [|it items]; [done|]. clear Hne. revert pos xs seq it Hn.
    induction items as [|it' items IH]; intros pos xs seq it Hn; destruct xs as [|x xs]; try done;
      cbn [Shipping.numbered Datatypes.app] in Hn; injection Hn as -> Hx Hn; subst x.
    - by exists xs.
    - destruct (IH (pos + 1) xs (pos + 1 + 1) it' Hn) as (ys & -> & _). by exists ys. }
  destruct Hsplit as (ys & -> & ->). rewrite Shipping.numbered_app in Hn. apply app_inv_head in Hn.
  assert (Hl : 0 < Z.of_nat (length items)) by (destruct items; [done|cbn [length]; lia]).
  destruct (IH (pos + Z.of_nat (length items)) ys Hb) as [Hr Hle]; [by rewrite <- Z.add_assoc, (Z.add_comm 1), Z.add_assoc in Hn|].
  unfold replica, Shipping.reached in *. cbn [map as_sent foldl accept]. rewrite (proj2 (Z.leb_le _ _)) by lia.
  replace (Z.max pos (pos + 1 + Z.of_nat (length items) - 1)) with (pos + Z.of_nat (length items)) by lia.
  replace (pos + 1 + Z.of_nat (length items) - 1) with (pos + Z.of_nat (length items)) by lia.
  rewrite length_app. split; [done|lia].
Qed.

(** Every pass over such a journal is honest. *)
Lemma pass_honest l : journal_seen l -> honest (pass_of l).
Proof using fits_one_entry crc_range AppEventLaws0 blake3.
  intros (g & files & start & anchor & start' & anchor' & Hl & Hok & Hq & Hd & Hne & Hmax) from Hfrom.
  unfold pass_of. cbn [frames reached]. unfold CatchUp.handoff_pass_from_journal, CatchUp.ibind.
  destruct (start <=? from + 1) eqn:Hle; zb.
  - destruct (Shipping.walk_outcome crc32c blake3 crc_range fits_one_entry (splits l) g files (dir l) start anchor
      start' anchor' from (link l) Hl Hok Hq Hd Hne Hfrom Hle) as (fs & rest & Hs & Hb & Hc & Hr & _).
    pose proof (Shipping.owed_entries crc32c blake3 fits_one_entry from _ _ _ _ _ Hl ltac:(lia) Hle) as Ho.
    rewrite <- Hc, omap_app, Shipping.numbered_drop in Ho.
    replace (start + Z.of_nat (Z.to_nat (from - start + 1))) with (from + 1) in Ho by lia.
    destruct (frames_contiguous fs from _ _ Hb Ho) as [Hrep Hbound].
    pose proof (Segments.History.linked_count crc32c blake3 _ _ _ _ _ Hl) as Hcount.
    rewrite length_drop in Hbound.
    exists (map as_sent fs), (Shipping.reached from fs).
    assert (Hfr : map bytes_of (map as_sent fs) = map (Shipping.bytes_of crc32c) fs).
    { rewrite map_map. apply map_ext. by intros []. }
    destruct (CatchUp.stream_journal _ _ _ _ _) as [[[e|]|e] w']; cbn [fst snd CatchUp.iret] in *; try done;
      rewrite Hs, drop_app_length, Hfr; (split; [done|]); (split; [done|]); split; try done; lia.
  - rewrite (Shipping.stream_journal_ships crc32c blake3 crc_range fits_one_entry (splits l) g files (dir l) start anchor
      start' anchor' from (link l) Hl Hok Hq Hd Hne Hfrom), (proj2 (Z.leb_gt _ _)) by lia.
    cbn [CatchUp.ifail fst snd]. rewrite drop_all. exists [], from. by split_and!; try lia.
Qed.

(** C21: The handoff leaves no gap. A replica stands at the end of the bulk
    catch-up; each further look at the disk finds a journal of linked segments,
    longer or not than the last one's, under a link that may fail and a flag that
    may stop the pass; the ring holds whole batches and control frames, with holes
    where entries were skipped while the slot was inactive. If the handoff goes
    live, every batch on the wire starts at or before the entry the replica needs
    next, the mark it goes live at is where the replica then stands, and what was
    taken off the ring ends at or before the mark: the rest of the ring is still
    there to be streamed. If it is torn down, what was sent has no gap either. *)
Theorem handoff_no_gap hl bulk ring looks expired :
  0 <= hl <= bulk -> bulk < u64_max -> Forall chunk_ok ring -> Forall journal_seen looks ->
  match bridge_catchup_to_live hl bulk ring (map pass_of looks) expired with
  | WentLive mark wire rest =>
    gapless bulk mark wire /\ bulk <= mark /\
    exists used, ring = used ++ rest /\ Forall (fun c => end_sequence c <= mark) used
  | TornDown wire => exists mark, gapless bulk mark wire
  | Waiting => True
  end.
Proof using fits_one_entry crc_range AppEventLaws0 blake3.
  intros Hhl Hb Hring Hlooks.
  assert (Hh : Forall honest (map pass_of looks)).
  { apply Forall_map. eapply Forall_impl; [exact Hlooks|]. apply pass_honest. }
  destruct (map pass_of looks) as [|pass passes]; [done|]. apply Forall_cons_1 in Hh as [Hp Hh].
  unfold bridge_catchup_to_live.
  destruct (gapless_pass bulk bulk [] pass) as (e & Hle & Hg & He); [split; [lia|by exists []]|done|].
  rewrite app_nil_l in Hg. destruct (reached (pass bulk)) as [x|]; [subst x|by exists e].
  unfold sent_seed. rewrite Z.max_r by lia.
  pose proof (drain_no_gap bulk ring passes expired e (frames (pass bulk)) Hring Hh Hg) as Hd.
  unfold no_gap in Hd. destruct (drain _ _ _ _ _) as [mark w rest| |]; [|done|done].
  destruct Hd as (? & ? & ?). split; [done|]. split; [lia|done].
Qed.
End contiguous.
End Contiguous.

(** ** A replica that takes entries and persists none *)
Module PersistWatch.

(** [PERSIST_STALL_BOUND], in milliseconds. *)
Definition PERSIST_STALL_BOUND : Z := 5000.

Record Watch := { persisted : Z; pending_since : option Z; reported : bool }.
Definition fresh : Watch := {| persisted := 0; pending_since := None; reported := false |}.

Inductive PersistEvent :=
| Stalled (persisted in_memory pending_for : Z)
| Resumed (persisted stalled_for : Z).

Definition elapsed (since now : Z) : Z := Z.max 0 (now - since).

Definition observe (w : Watch) (ack : Cursors.Writer.Ack) (now : Z) : option PersistEvent * Watch :=
  let acked := Cursors.Writer.acked_sequence ack in
  let in_memory := Cursors.Writer.in_memory_sequence ack in
  if persisted w <? acked then
    (if reported w
     then Some (Resumed acked match pending_since w with Some since => elapsed since now | None => 0 end)
     else None,
     {| persisted := acked; pending_since := if acked <? in_memory then Some now else None; reported := false |})
  else if in_memory <=? persisted w then
    (None, {| persisted := persisted w; pending_since := None; reported := reported w |})
  else
    let since := default now (pending_since w) in
    let pending_for := elapsed since now in
    if reported w || (pending_for <? PERSIST_STALL_BOUND) then
      (None, {| persisted := persisted w; pending_since := Some since; reported := reported w |})
    else
      (Some (Stalled (persisted w) in_memory pending_for),
       {| persisted := persisted w; pending_since := Some since; reported := true |}).

(** The events of a run of acks, each with when it came. *)
Fixpoint watch (w : Watch) (acks : list (Cursors.Writer.Ack * Z)) : list PersistEvent * Watch :=
  match acks with
  | [] => ([], w)
  | (ack, now) :: acks =>
    let '(e, w) := observe w ack now in
    let '(es, w) := watch w acks in (option_list e ++ es, w)
  end.

(** Reports come in pairs: a stall, then its end. *)
Fixpoint alternates (stalled : bool) (es : list PersistEvent) : bool :=
  match es with
  | [] => true
  | Stalled _ _ _ :: es => negb stalled && alternates true es
  | Resumed _ _ :: es => stalled && alternates false es
  end.

Lemma reports_alternate w acks : alternates (reported w) (fst (watch w acks)) = true.
Proof.
  revert w. induction acks as [|[ack now] acks IH]; intros w; [done|]. cbn [watch].
  destruct (observe w ack now) as [e w1] eqn:Ho. specialize (IH w1).
  destruct (watch w1 acks) as [es w2]. cbn [fst] in *. unfold observe in Ho.
  destruct (_ <? Cursors.Writer.acked_sequence ack).
  { injection Ho as <- <-. destruct (reported w); cbn in *; done. }
  destruct (_ <=? persisted w); [by injection Ho as <- <-|].
  destruct (reported w) eqn:Hr; cbn [orb] in Ho; [injection Ho as <- <-; cbn in *; congruence|].
  destruct (_ <? PERSIST_STALL_BOUND); injection Ho as <- <-; cbn in *; congruence.
Qed.

(** While the replica takes entries and persists none, it is reported at the first
    ack that comes the bound or more after the entries appeared, and not again. *)
Lemma stall_reported_once w since acks :
  pending_since w = Some since -> reported w = false ->
  Forall (fun '(ack, _) => Cursors.Writer.acked_sequence ack <= persisted w < Cursors.Writer.in_memory_sequence ack) acks ->
  fst (watch w acks) =
    match List.find (fun '(_, now) => PERSIST_STALL_BOUND <=? elapsed since now) acks with
    | Some (ack, now) => [Stalled (persisted w) (Cursors.Writer.in_memory_sequence ack) (elapsed since now)]
    | None => []
    end.
Proof.
  intros Hs Hr Ha.
  assert (Hquiet : forall acks w, reported w = true ->
    Forall (fun '(ack, _) => Cursors.Writer.acked_sequence ack <= persisted w < Cursors.Writer.in_memory_sequence ack) acks ->
    fst (watch w acks) = []).
  { clear. induction acks as [|[ack now] acks IH]; intros w Hr Ha; [done|].
    apply Forall_cons_1 in Ha as [Ha Has]. cbn [watch]. unfold observe.
    rewrite (proj2 (Z.ltb_ge _ _)), (proj2 (Z.leb_gt _ _)), Hr by lia. cbn [orb].
    match goal with |- context [watch ?w acks] => specialize (IH w); destruct (watch w acks) end. by apply IH. }
  revert w Hs Hr Ha. induction acks as [|[ack now] acks IH]; intros w Hs Hr Ha; [done|].
  apply Forall_cons_1 in Ha as [Ha Has]. cbn [watch List.find]. unfold observe.
  rewrite (proj2 (Z.ltb_ge _ _)), (proj2 (Z.leb_gt _ _)), Hr, Hs by lia. cbn [orb default from_option id].
  destruct (PERSIST_STALL_BOUND <=? elapsed since now) eqn:Hb; zb.
  - rewrite (proj2 (Z.ltb_ge _ _)) by lia.
    match goal with |- context [watch ?w acks] => specialize (Hquiet acks w); destruct (watch w acks) end.
    cbn [fst option_list Datatypes.app] in *. by rewrite Hquiet.
  - rewrite (proj2 (Z.ltb_lt _ _)) by lia.
    match goal with |- context [watch ?w acks] => specialize (IH w); destruct (watch w acks) end.
    cbn [fst option_list Datatypes.app] in *. by apply IH.
Qed.
End PersistWatch.

Module Sample.
Import Handoff Stepped Contiguous CatchUp.Sample Scanner.Sample Codec.Sample.

Definition on_link : Look := {| Contiguous.dir := CatchUp.Sample.dir; splits := fun _ => []; link := open_link |}.

(** The ring was empty while entry 3 went to disk; entry 4 is its first chunk. *)
Definition fourth : Chunk :=
  {| end_sequence := 4; data := bytes_of sum32 (Entries (E:=bool) 4 [(1003, 42, Lineage.Event.App true)]) |}.

Lemma fourth_ok : chunk_ok sum32 fourth.
Proof.
  exists (Entries (E:=bool) 4 [(1003, 42, Lineage.Event.App true)]). split; [done|]. split; [|done].
  split; [done|]. split; [cbn; widths; lia|]. split; [|cbn; widths; lia].
  repeat constructor; widths; cbn; lia.
Qed.

Lemma looks_seen : Forall (journal_seen (E:=bool) sum32 digest) [on_link].
Proof.
  constructor; [|constructor].
  exists (Some 0), files, 1, (replicate 32 9), 4, (Segments.History.seg_tail sum32 digest seg2).
  split; [apply files_linked|]. split; [apply files_ok|]. split; [apply files_quiet|].
  split; [reflexivity|]. split; [discriminate|]. widths. lia.
Qed.

(** From entry 1: entries 2 and 3 come from disk, entry 4 off the ring. *)
Lemma handoff_no_gap_witness :
  exists wire, bridge_catchup_to_live 1 1 [fourth] (map (pass_of (E:=bool) sum32) [on_link]) [] = WentLive 4 wire [] /\
    gapless (E:=bool) sum32 1 4 wire.
Proof.
  pose proof (handoff_no_gap sum32 sum32_range Reader.Sample.sample_fits digest 1 1 [fourth] [on_link] []
    ltac:(lia) ltac:(widths; lia) ltac:(constructor; [apply fourth_ok|constructor]) looks_seen) as Hg.
  destruct (bridge_catchup_to_live 1 1 [fourth] (map (pass_of (E:=bool) sum32) [on_link]) []) as [m w r|w|] eqn:Hb;
    vm_compute in Hb; [|discriminate Hb|discriminate Hb].
  assert (Hm : m = 4 /\ r = []) by (split; congruence). destruct Hm as [-> ->].
  exists w. split; [done|apply Hg].
Defined.

Definition idle : Sender :=
  {| wire := []; running := None; passes := map (pass_of (E:=bool) sum32) [on_link]; pumps := [true; true];
     offers := [false]; active := false |}.

Lemma stepped_as_inline_witness :
  exists wire, bridge_catchup_to_live 1 1 [fourth] (passes idle) [] = WentLive 4 wire [].
Proof.
  destruct (stepped_as_inline 1 1 [fourth] idle [0; 1; 2; 3] eq_refl eq_refl) as [Hs _].
  destruct (steps [0; 1; 2; 3] (new 1 1) [fourth] idle) as [[s ring'] io'] eqn:Hb. vm_compute in Hb.
  destruct s as [|m|]; [discriminate Hb| |discriminate Hb]. assert (Hm : m = 4 /\ ring' = []) by (split; congruence).
  destruct Hm as [-> ->]. destruct Hs as [ex He]. exists (wire io').
  vm_compute in He. vm_compute. exact He.
Defined.
End Sample.
