(* ===== verification/Recovery.v ===== *)
(** * Recovery

    [Recover] is what a restarting node does ([transport-core/src/journaled_app.rs]):
    it walks the archives in order and then the live segment, each one's header
    checked against the one before it and its entries replayed into the
    application as they are read, and reopens the live segment for appending, or
    makes one up when a crash mid-rotation left none. [Genesis] is the first boot,
    which installs a journal with its opening entries whole or not at all.
    [Verdict] settles what a walk over any well-linked journal, with any snapshot,
    comes to; [Backed] what a walk that succeeds on arbitrary bytes has applied. *)

From S2P Require Import Prelude Cursors Lineage Stages Codec Journal Reader Segments Scanner Snapshot CatchUp.
Import Lineage.Event Lineage.Policy Codec.Le Codec.Codec.

Module Recover.
Import Stages.Dispatch Stages.Replay Reader.Reader.

Inductive JournaledAppError :=
| JournalFault (e : JournalError)
| SnapshotFault (e : Snapshot.Format.SnapshotError)
| NothingToRecover
| SnapshotAnchorMissing (snap_sequence journal_last_seq : Z)
| SnapshotChainMismatch (snap_sequence : Z) (expected_chain_hash actual_chain_hash : list Z)
| MissingHistoryPrefix (first_segment_start required_floor : Z)
| GenesisLengthMismatch (index : nat) (expected actual : option Z).

Section recover.
Context {A E R Q : Type} `{Application A E R Q} `{AppEvent E}.
Context (crc32c : list Z -> Z) (blake3 : list Z -> list Z).

Record JournaledApp := {
  app : A;
  writer : Journal.Writer.BufferedWriter;
  recovered_lineage : Lineage;
  tick_watermark : Z
}.

(** The machine recovery runs on: the reader's buffer and how its reads of each
    segment are split, the writer's reservation and how its own reads and writes
    are. *)
Record Machine := {
  buf : nat;
  splits : nat -> list nat;
  prealloc : nat;
  header_sizes : list nat;
  sizes : list nat
}.

Definition verify_segment_link (index : nat) (r : JournalReader) (prev_tail : option (list Z))
    (expected_start : option Z) (history_floor : Z) (prev_genesis : option (option Z))
    : result unit JournaledAppError :=
  let start := starting_sequence (info r) in
  let anchor := Journal.Chain.anchor (chain (progress r)) in
  _ <-? match prev_genesis with
        | Some expected =>
          guard? bool_decide (expected = genesis_entries (info r))
          else GenesisLengthMismatch index expected (genesis_entries (info r)) ;; Ok tt
        | None => Ok tt
        end ;;
  _ <-? match prev_tail with
        | Some expected =>
          guard? bool_decide (expected = anchor) else JournalFault (SegmentChainBreak index expected anchor) ;; Ok tt
        | None => Ok tt
        end ;;
  match expected_start with
  | Some expected => guard? start =? expected else JournalFault (SequenceGap expected start) ;; Ok tt
  | None => guard? start <=? history_floor else MissingHistoryPrefix start history_floor ;; Ok tt
  end.

Definition verify_boundary_snapshot_anchor (r : JournalReader) (snap_sequence : Z)
    (snap_chain : option (list Z)) : result unit JournaledAppError :=
  match snap_chain with
  | Some expected =>
    let anchor := Journal.Chain.anchor (chain (progress r)) in
    if (wrapping_add snap_sequence 1 =? starting_sequence (info r)) && negb (bool_decide (anchor = expected))
    then Err (SnapshotChainMismatch snap_sequence expected anchor) else Ok tt
  | None => Ok tt
  end.

Definition as_entry (e : JournalEntry (E:=E)) : Stages.Journaling.Entry E :=
  {| Stages.Journaling.e_sequence := e_sequence e; Stages.Journaling.e_timestamp_ns := e_timestamp_ns e;
     Stages.Journaling.e_key_hash := e_key_hash e; Stages.Journaling.e_event := e_event e |}.

(** [replay_segment]: each entry is replayed, with the chain value behind it, as it
    is read. An entry takes at least one byte, so the fuel is the file's length. *)
Fixpoint replay_segment (fuel : nat) (file : list Z) (r : JournalReader) (snap_sequence : Z)
    (snap_chain : option (list Z)) (st : ReplayState A) : result (ReplayState A * JournalReader) JournaledAppError :=
  match fuel with
  | O => Ok (st, r)
  | S fuel =>
    match next_entry (E:=E) crc32c file r with
    | (Ok (Some entry), r) =>
      match replay_entry snap_sequence snap_chain st (as_entry entry)
              (Some (Journal.Chain.value blake3 (chain (progress r)))) with
      | Ok st => replay_segment fuel file r snap_sequence snap_chain st
      | Err (Stages.Replay.SnapshotChainMismatch seq expected actual) =>
        Err (SnapshotChainMismatch seq expected actual)
      end
    | (Ok None, r) => Ok (st, r)
    | (Err e, _) => Err (JournalFault e)
    end
  end.

(** The loop's variables. *)
Record Walk := {
  replay : ReplayState A;
  prev_tail_hash : option (list Z);
  expected_start : option Z;
  last_seq_seen : Z;
  journal_max_seq : Z;
  archived_genesis_entries : option (option Z)
}.

Section walk.
Context (m : Machine) (snap_sequence : Z) (snap_chain : option (list Z)).

(** A segment's checks and its replay, the same for an archive and for the live
    segment. *)
Definition walk_segment (index nth : nat) (k : SegmentKind) (file : list Z) (w : Walk)
    : result (ReplayState A * JournalReader) JournaledAppError :=
  r <-? rmap_err JournalFault (open_segment crc32c file k (buf m) (splits m nth)) ;;
  _ <-? verify_segment_link index r (prev_tail_hash w) (expected_start w) (wrapping_add snap_sequence 1)
          (archived_genesis_entries w) ;;
  _ <-? verify_boundary_snapshot_anchor r snap_sequence snap_chain ;;
  replay_segment (S (length file)) file r snap_sequence snap_chain (replay w).

Definition reaches (reached : Z) (r : JournalReader) : Z :=
  let reached := Z.max reached (sat_sub (starting_sequence (info r)) 1) in
  match last_sequence (progress r) with Some seq => Z.max reached seq | None => reached end.

Definition walk_archive (index nth : nat) (file : list Z) (w : Walk) : result Walk JournaledAppError :=
  sr <-? walk_segment index nth Archived file w ;;
  let '(st, r) := sr in
  let p := progress r in
  Ok {| replay := st;
        prev_tail_hash := Some (Journal.Chain.value blake3 (chain p));
        expected_start := Some match last_sequence p with
                               | Some s => wrapping_add s 1
                               | None => starting_sequence (info r)
                               end;
        last_seq_seen := match last_sequence p with
                         | Some seq => Z.max (last_seq_seen w) seq
                         | None => last_seq_seen w
                         end;
        journal_max_seq := reaches (journal_max_seq w) r;
        archived_genesis_entries := Some (genesis_entries (info r)) |}.

Fixpoint walk_archives (nth : nat) (archives : list (nat * list Z)) (w : Walk) : result Walk JournaledAppError :=
  match archives with
  | [] => Ok w
  | (index, file) :: rest => w <-? walk_archive index nth file w ;; walk_archives (S nth) rest w
  end.
End walk.

Definition clock_header (h : Snapshot.Format.SnapshotHeader) : SnapshotHeader :=
  {| snap_sequence := Snapshot.Format.sequence h; recorded_watermark := Snapshot.Format.tick_watermark h |}.

Definition snap_seq (snapshot : option Snapshot.Format.SnapshotHeader) : Z :=
  match snapshot with Some h => Snapshot.Format.sequence h | None => 0 end.
Definition snap_hash (snapshot : option Snapshot.Format.SnapshotHeader) : option (list Z) :=
  Snapshot.Format.chain_hash <$> snapshot.

Definition start_walk (a : A) (snapshot : option Snapshot.Format.SnapshotHeader) : Walk :=
  {| replay :=
       {| r_app := a;
          r_clock := match snapshot with
                     | None => running_from WATERMARK_GENESIS
                     | Some h => from_snapshot (clock_header h)
                     end;
          r_lineage := match snapshot with Some h => Snapshot.Format.lineage h | None => GENESIS end |};
     prev_tail_hash := None; expected_start := None; last_seq_seen := snap_seq snapshot; journal_max_seq := 0;
     archived_genesis_entries := None |}.

(** The journal's history must reach the snapshot. *)
Definition anchor_reached (snapshot : option Snapshot.Format.SnapshotHeader) (reached : Z)
    : result unit JournaledAppError :=
  match snapshot with
  | Some h =>
    let seq := Snapshot.Format.sequence h in
    guard? negb ((0 <? seq) && (reached <? seq)) else SnapshotAnchorMissing seq reached ;; Ok tt
  | None => Ok tt
  end.

Definition finished (st : ReplayState A) (w : Journal.Writer.BufferedWriter) : JournaledApp :=
  {| app := r_app st; writer := w; recovered_lineage := r_lineage st; tick_watermark := finish (r_clock st) |}.

(** [recover_inner]: the archives by index, the live segment if there is one. *)
Definition recover_inner (m : Machine) (a : A) (snapshot : option Snapshot.Format.SnapshotHeader)
    (archives : list (nat * list Z)) (live : option (list Z)) : result JournaledApp JournaledAppError :=
  w <-? walk_archives m (snap_seq snapshot) (snap_hash snapshot) 0 archives (start_walk a snapshot) ;;
  match live with
  | None =>
    if (length archives =? 0)%nat then Err NothingToRecover
    else
      _ <-? anchor_reached snapshot (journal_max_seq w) ;;
      wr <-? rmap_err JournalFault
               (Journal.Writer.create_continuing crc32c (wrapping_add (last_seq_seen w) 1)
                  (default (replicate 32 0) (prev_tail_hash w)) (mjoin (archived_genesis_entries w))
                  (prealloc m) (sizes m)) ;;
      Ok (finished (replay w) wr)
  | Some file =>
    sr <-? walk_segment m (snap_seq snapshot) (snap_hash snapshot) 0 (length archives) Live file w ;;
    let '(st, r) := sr in
    let last_seq := default (sat_sub (starting_sequence (info r)) 1) (last_sequence (progress r)) in
    _ <-? anchor_reached snapshot (reaches (journal_max_seq w) r) ;;
    wr <-? rmap_err JournalFault
             (Journal.Writer.open_append crc32c file last_seq (valid_file_end (progress r))
                (prealloc m) (header_sizes m) (sizes m)) ;;
    Ok (finished st wr)
  end.

Definition recover (m : Machine) (a : A) (archives : list (nat * list Z)) (live : option (list Z)) :=
  recover_inner m a None archives live.

Definition recover_from_snapshot `{Snapshot.Format.SnapshotApp A} (m : Machine) (snapshot : list Z)
    (archives : list (nat * list Z)) (live : option (list Z)) : result JournaledApp JournaledAppError :=
  ah <-? rmap_err SnapshotFault (Snapshot.Format.load crc32c snapshot) ;;
  let '(a, h) := ah in recover_inner m a (Some h) archives live.
End recover.
End Recover.

(** ** The first boot *)
Module Genesis.
Import Recover Stages.Dispatch Journal.Writer.

Definition REPLICATION_CHUNK_SIZE : Z := 512 * 1024.
Definition WRITE_CHUNK_SIZE : Z := 640 * 1024.
Definition MAX_JOURNAL_BATCH : Z := 4096.

(** The journal's directory, as the first boot touches it. *)
Record Dir := { staging : option (list Z); live_path : option (list Z) }.

Section genesis.
Context {A E R Q : Type} `{Application A E R Q} `{AppEvent E}.
Context (crc32c : list Z -> Z).

Definition max_journal_batch : Z :=
  let chunk := if REPLICATION_CHUNK_SIZE <? WRITE_CHUNK_SIZE then REPLICATION_CHUNK_SIZE else WRITE_CHUNK_SIZE in
  let by_chunk := chunk / Z.of_nat (entry_size (E:=E)) in
  if by_chunk <? MAX_JOURNAL_BATCH then by_chunk else MAX_JOURNAL_BATCH.

(** The loop over the events; [writes] scripts the write calls of each flush. A
    flush that fails is taken to have written nothing. *)
Fixpoint append_genesis (w : BufferedWriter) (genesis : list E) (ts : Z) (count : nat) (writes : nat -> list nat)
    : result nat JournalError * BufferedWriter :=
  match genesis with
  | [] => (Ok count, w)
  | event :: genesis =>
    if app_is_query event then append_genesis w genesis ts count writes
    else
      match batch_append_with_ts crc32c w (App event) ts 0 with
      | (Err e, w) => (Err e, w)
      | (Ok _, w) =>
        let count := S count in
        if Z.of_nat count mod max_journal_batch =? 0 then
          match flush_batch_sync w (writes count) with
          | Err e => (Err e, w)
          | Ok w => append_genesis w genesis ts count writes
          end
        else append_genesis w genesis ts count writes
      end
  end.

(** [discard_genesis_staging]. *)
Definition discard_genesis_staging (d : Dir) : Dir := {| staging := None; live_path := live_path d |}.

(** [write_genesis_journal]: [fresh] is the salt drawn when no anchor is given, [ts]
    the clock's one reading. On an error the staging file may stay behind. *)
Definition write_genesis_journal (d : Dir) (anchor : option (list Z)) (fresh : list Z) (genesis : list E) (ts : Z)
    (prealloc : nat) (header_writes : list nat) (writes : nat -> list nat) : result unit JournaledAppError * Dir :=
  let d := discard_genesis_staging d in
  let genesis_entries := Z.of_nat (length (List.filter (fun e => negb (app_is_query e)) genesis)) in
  match create_continuing crc32c 1 (default fresh anchor) (Some genesis_entries) prealloc header_writes with
  | Err e => (Err (JournalFault e), d)
  | Ok w =>
    let staged w := {| staging := Some (Journal.Segment.contents (segment w)); live_path := live_path d |} in
    match append_genesis w genesis ts 0 writes with
    | (Err e, w) => (Err (JournalFault e), staged w)
    | (Ok count, w) =>
      match flush_batch_sync w (writes (S count)) with
      | Err e => (Err (JournalFault e), staged w)
      | Ok w => (Ok tt, {| staging := None; live_path := Some (Journal.Segment.contents (segment w)) |})
      end
    end
  end.
End genesis.
End Genesis.

(** ** What a walk comes to *)
Module Verdict.
Import Recover Stages.Dispatch Stages.Replay Reader.Reader Reader.Whole Reader.Recovery.
Import Codec.Facts Journal.Segment Journal.Stream Segments.History CatchUp.Verdict Scanner.Written.

Section verdict.
Context {A E R Q : Type} `{Application A E R Q} `{AppEvent E}.
Context (crc32c : list Z -> Z) (blake3 : list Z -> list Z).
Hypothesis crc_range : forall bs, in_u32 (crc32c bs).
Hypothesis blake3_length : forall bs, length (blake3 bs) = 32%nat.
Context `{!AppEventLaws E}.
Hypothesis fits_one_entry : (entry_size (E:=E) <= MAX_ENTRY_SIZE)%nat.

Local Notation item := (item (E:=E)).
Local Notation Seg := (Seg (E:=E)).
Local Notation chain_of := (chain_of crc32c blake3).
Local Notation linked := (linked crc32c blake3).
Local Notation seg_file := (seg_file crc32c).
Local Notation stream := (stream crc32c).
Local Notation replay_all := (Recover.replay_segment crc32c blake3).

(** An entry's effect, the chain value aside. *)
Definition step_entry (k : Z) (st : ReplayState A) (e : JournalEntry (E:=E)) : ReplayState A :=
  let clock := if e_sequence e =? k then at_anchor (r_clock st) (e_timestamp_ns e) else r_clock st in
  if k <? e_sequence e then
    let '(w, ev, _) := dispatch {| Stages.Dispatch.app := r_app st; Stages.Dispatch.tick_watermark := running clock |}
      (e_event e) {| now_ns := e_timestamp_ns e; ctx_key_hash := e_key_hash e |} in
    {| r_app := Stages.Dispatch.app w; r_clock := Settled (Stages.Dispatch.tick_watermark w);
       r_lineage := match ev with Some ev => observe (r_lineage st) (e_sequence e) ev | None => r_lineage st end |}
  else {| r_app := r_app st; r_clock := clock; r_lineage := r_lineage st |}.

Lemma replay_entry_step k (snap : option (list Z)) st e (ch : list Z) :
  replay_entry k snap st (as_entry e) (Some ch) =
  match snap with
  | Some x =>
    if (e_sequence e =? k) && negb (bool_decide (ch = x))
    then Err (Stages.Replay.SnapshotChainMismatch k x ch) else Ok (step_entry k st e)
  | None => Ok (step_entry k st e)
  end.
Proof using Type.
  clear. unfold replay_entry, step_entry, as_entry. cbn [Stages.Journaling.e_sequence Stages.Journaling.e_timestamp_ns
    Stages.Journaling.e_key_hash Stages.Journaling.e_event].
  destruct snap as [x|]; [destruct (_ && _); [done|]|]; (destruct (k <? e_sequence e); [|done]);
    by destruct (dispatch _ _ _) as [[w ev] rs].
Qed.

(** Whether the chain check at the snapshot passes. *)
Definition agrees (snap : option (list Z)) (c : option (list Z)) : option (list Z * list Z) :=
  match snap, c with
  | Some x, Some c => if bool_decide (c = x) then None else Some (x, c)
  | _, _ => None
  end.

Definition chain_upto (start : Z) (anchor : list Z) (items : list item) (k : Z) : list Z :=
  Journal.Chain.value blake3
    {| Journal.Chain.anchor := anchor;
       Journal.Chain.absorbed := stream start (take (Z.to_nat (k - start + 1)) items); Journal.Chain.dirty := true |}.

(** The entries of a segment, replayed as they are read. *)
Lemma replay_entries file kd start anchor k snap before items rest r (st : ReplayState A) fuel :
  1 <= start -> start + Z.of_nat (length (before ++ items)) <= u64_max -> Forall item_ok items ->
  drop (Journal.Encoder.ENTRY_OFFSET + length (stream start before)) file =
    stream (start + Z.of_nat (length before)) items ++ rest ->
  rinv file r -> kind r = kd -> starting_sequence (info r) = start ->
  progress r = after start anchor (length before) (stream start before) ->
  match agrees snap (if covers (start + Z.of_nat (length before)) items k
                     then Some (chain_upto start anchor (before ++ items) k) else None) with
  | Some (x, c) => replay_all (length items + fuel) file r k snap st = Err (Recover.SnapshotChainMismatch k x c)
  | None => exists r', rinv file r' /\ kind r' = kd /\ info r' = info r /\
      progress r' = after start anchor (length (before ++ items)) (stream start (before ++ items)) /\
      replay_all (length items + fuel) file r k snap st =
      replay_all fuel file r' k snap
        (foldl (step_entry k) st (entries_of (start + Z.of_nat (length before)) items))
  end.
Proof using fits_one_entry AppEventLaws0 crc_range.
  intros Hs Hmax Hit Hfile Hr Hkd Hst Hp.
  revert before r st Hmax Hfile Hr Hkd Hst Hp. induction items as [|it items IH];
    intros before r st Hmax Hfile Hr Hkd Hst Hp.
  { rewrite app_nil_r. replace (covers _ [] k) with false; [|unfold covers; cbn [length];
      destruct (_ <=? _) eqn:?; destruct (_ <? _) eqn:?; try done; zb; lia].
    destruct snap; by exists r. }
  apply Forall_cons_1 in Hit as [Hok Hits].
  set (seq := start + Z.of_nat (length before)) in *.
  assert (Hi : exists ts key ev, it = (ts, key, ev)) by (destruct it as [[ts key] ev]; by exists ts, key, ev).
  destruct Hi as (ts & key & ev & Hi). set (f := frame crc32c seq it).
  cbn [Journal.Stream.stream] in Hfile. fold f in Hfile. rewrite <- app_assoc in Hfile.
  cbn [length Nat.add Recover.replay_segment].
  pose proof (next_entry_whole (E:=E) crc32c file r Hr) as Hn.
  destruct (next_entry crc32c file r) as [v r1]. destruct Hn as (Hn & Hr1 & Hk1 & Hi1).
  rewrite Hkd, Hst, Hp in Hn. rewrite length_app in Hmax. cbn [length] in Hmax.
  pose proof (next_on_frame crc32c crc_range fits_one_entry file kd start anchor (length before) (stream start before) ts key ev
    (stream (seq + 1) items ++ rest) Hs ltac:(lia)) as Hnext. cbn zeta in Hnext. rewrite <- Hi in Hnext.
  rewrite (Hnext Hok Hfile) in Hn. injection Hn as -> Hp1. fold seq f in Hp1.
  assert (Hstr : stream start before ++ f = stream start (before ++ [it])).
  { rewrite (stream_app crc32c). f_equal. symmetry. apply app_nil_r. }
  assert (Hlb : length (before ++ [it]) = S (length before)) by (rewrite length_app; cbn; lia).
  assert (Hp2 : progress r1 = after start anchor (length (before ++ [it])) (stream start (before ++ [it])))
    by (rewrite Hlb, <- Hstr; exact Hp1). clear Hp1.
  assert (Hch : Journal.Chain.value blake3 (chain (progress r1)) = chain_upto start anchor (before ++ it :: items) seq).
  { rewrite Hp2. unfold chain_upto. cbn [after chain]. rewrite Hlb. cbn [Nat.eqb negb].
    replace (Z.to_nat (seq - start + 1)) with (S (length before)) by (unfold seq; lia).
    rewrite <- Hlb. replace (before ++ it :: items) with ((before ++ [it]) ++ items) by (by rewrite <- app_assoc).
    by rewrite take_app_length. }
  rewrite replay_entry_step. cbn [e_sequence].
  set (e := {| e_sequence := seq; e_timestamp_ns := ts; e_key_hash := key; e_event := ev |}).
  assert (Hcov : covers seq (it :: items) k = (seq =? k) || covers (seq + 1) items k).
  { unfold covers. cbn [length]. destruct (seq <=? k) eqn:?, (k <? _) eqn:?, (seq =? k) eqn:?, (seq + 1 <=? k) eqn:?, (k <? seq + 1 + _) eqn:?; zb; try done; lia. }
  assert (Hrest : match agrees snap (if covers (seq + 1) items k then Some (chain_upto start anchor (before ++ it :: items) k) else None) with
    | Some (x, c) => replay_all (length items + fuel) file r1 k snap (step_entry k st e) = Err (Recover.SnapshotChainMismatch k x c)
    | None => exists r', rinv file r' /\ kind r' = kd /\ info r' = info r /\
        progress r' = after start anchor (length (before ++ it :: items)) (stream start (before ++ it :: items)) /\
        replay_all (length items + fuel) file r1 k snap (step_entry k st e) =
        replay_all fuel file r' k snap (foldl (step_entry k) (step_entry k st e) (entries_of (seq + 1) items))
    end).
  { specialize (IH Hits (before ++ [it]) r1 (step_entry k st e)). rewrite Hlb in IH.
    replace (start + Z.of_nat (S (length before))) with (seq + 1) in IH by (unfold seq; lia).
    replace ((before ++ [it]) ++ items) with (before ++ it :: items) in IH by (by rewrite <- app_assoc).
    rewrite <- Hi1. apply IH; try done; try congruence.
    - rewrite length_app. cbn [length]. lia.
    - rewrite <- Hstr, length_app, Nat.add_assoc, <- drop_drop, Hfile. by rewrite drop_app_length. }
  assert (Hes : entries_of seq (it :: items) = e :: entries_of (seq + 1) items) by (by rewrite Hi).
  rewrite Hcov, Hes. cbn [foldl]. fold seq. fold e.
  destruct snap as [x|]; [|exact Hrest]. cbn [agrees] in *.
  destruct (seq =? k) eqn:Hk; cbn [orb andb]; [|exact Hrest].
  apply Z.eqb_eq in Hk. rewrite Hch, <- Hk in *. destruct (bool_decide _) eqn:Hb; cbn [negb]; [|done].
  replace (covers (seq + 1) items seq) with false in Hrest; [exact Hrest|].
  unfold covers. by rewrite (proj2 (Z.leb_gt _ _)) by lia.
Qed.

(** Behind the entries, a tail a crash can have left. *)
Lemma replay_stops file kd start anchor items r k snap st fuel :
  let p := after start anchor (length items) (stream start items) in
  rinv file r -> kind r = kd -> starting_sequence (info r) = start -> progress r = p ->
  stops (E:=E) crc32c (drop (valid_file_end p) file) = true -> harmless kd (drop (valid_file_end p) file) ->
  Z.of_nat (length file) + MAX_UNSYNCED_BYTES <= u64_max -> (valid_file_end p <= length file)%nat ->
  exists r', replay_all (S fuel) file r k snap st = Ok (st, r') /\ info r' = info r /\
    last_sequence (progress r') = last_sequence p /\ valid_file_end (progress r') = valid_file_end p /\
    chain (progress r') = chain p.
Proof using fits_one_entry.
  intros p Hr Hkd Hst Hp Hstop Hharm Hsmall Hlen. cbn [Recover.replay_segment].
  pose proof (next_entry_whole (E:=E) crc32c file r Hr) as Hn.
  destruct (next_entry crc32c file r) as [v r1]. destruct Hn as (Hn & _ & _ & Hi1).
  rewrite Hkd, Hst, Hp in Hn.
  destruct (next_stops crc32c file kd start p Hstop eq_refl) as [cause Hfin]. rewrite Hfin in Hn.
  unfold finish in Hn. set (off := valid_file_end p) in *. set (tl := drop off file) in *.
  destruct (within_harmless fits_one_entry kd off tl) as (Hwh & _ & _).
  { unfold tl. rewrite length_drop. lia. }
  apply Hwh in Hharm. rewrite Hharm in Hn. cbn [fmap option_fmap option_map end_verdict] in Hn.
  injection Hn as -> Hp1. exists r1. rewrite Hp1. cbn. done.
Qed.

(** A whole segment. *)
Definition on_tape (g : option Z) (kd : SegmentKind) (s : Seg) (tail : list Z) : Prop :=
  seg_ok g s /\ stops (E:=E) crc32c tail = true /\ harmless kd tail /\ file_small (seg_file g s ++ tail).

Definition seg_entries (s : Seg) : list (JournalEntry (E:=E)) := entries_of (g_start s) (g_items s).

(** What is left of a segment's reader. *)
Definition read_through (g : option Z) (s : Seg) (r : JournalReader) : Prop :=
  starting_sequence (info r) = g_start s /\ genesis_entries (info r) = g /\
  last_sequence (progress r) = (if (length (g_items s) =? 0)%nat then None else Some (seg_next s - 1)) /\
  valid_file_end (progress r) = (Journal.Encoder.ENTRY_OFFSET + length (stream (g_start s) (g_items s)))%nat /\
  Journal.Chain.value blake3 (chain (progress r)) = seg_tail crc32c blake3 s.

Lemma replay_written g kd s tail buf script k snap st :
  on_tape g kd s tail -> (0 < buf)%nat ->
  let file := seg_file g s ++ tail in
  exists r, open_segment crc32c file kd buf script = Ok r /\
    starting_sequence (info r) = g_start s /\ genesis_entries (info r) = g /\
    Journal.Chain.anchor (chain (progress r)) = g_anchor s /\
    match agrees snap (if covers (g_start s) (g_items s) k
                       then Some (chain_upto (g_start s) (g_anchor s) (g_items s) k) else None) with
    | Some (x, c) =>
      replay_all (S (length file)) file r k snap st = Err (Recover.SnapshotChainMismatch k x c)
    | None => exists r', replay_all (S (length file)) file r k snap st =
        Ok (foldl (step_entry k) st (seg_entries s), r') /\ read_through g s r'
    end.
Proof using fits_one_entry AppEventLaws0 crc_range.
  intros ((Hh & H1 & Hmax & Hit) & Hstop & Hharm & Hsmall) Hbuf file.
  unfold seg_next in Hmax. unfold file_small in Hsmall. fold file in Hsmall.
  set (data := stream (g_start s) (g_items s)) in *.
  assert (Hfile : file = header crc32c (g_start s) (g_anchor s) g ++ data ++ tail)
    by (unfold file, Segments.History.seg_file; by rewrite <- app_assoc).
  pose proof (header_length crc32c crc_range _ _ _ Hh) as Hhl.
  destruct (open_reads_header crc32c crc_range fits_one_entry kd (g_start s) (g_anchor s) g (data ++ tail) buf script Hh Hbuf)
    as (r & Ho & Hr & Hkd & Hst & Han & Hg & Hp).
  rewrite <- Hfile in Ho, Hr. exists r. split; [done|]. split; [done|]. split; [done|]. split; [by rewrite Hp|].
  pose proof (frames_no_shorter crc32c fits_one_entry (g_start s) (g_items s) Hit) as Hshort. fold data in Hshort.
  assert (Hlen : length file = (Journal.Encoder.ENTRY_OFFSET + length data + length tail)%nat)
    by (rewrite Hfile, !length_app, Hhl; lia).
  assert (Hfuel : exists fuel, S (length file) = (length (g_items s) + S fuel)%nat)
    by (exists (length file - length (g_items s))%nat; lia).
  destruct Hfuel as [fuel Hfuel]. rewrite Hfuel.
  pose proof (replay_entries file kd (g_start s) (g_anchor s) k snap [] (g_items s) tail r st (S fuel)) as Hre.
  cbn [app length Z.of_nat Journal.Stream.stream] in Hre. rewrite Z.add_0_r, Nat.add_0_r in Hre.
  specialize (Hre H1 Hmax Hit). fold data in Hre.
  specialize (Hre ltac:(rewrite Hfile, drop_app_length'; [done|done])  Hr Hkd Hst Hp).
  destruct (agrees _ _) as [[x c]|]; [exact Hre|]. destruct Hre as (r' & Hr' & Hkd' & Hi' & Hp' & ->).
  assert (Hrest : drop (Journal.Encoder.ENTRY_OFFSET + length data) file = tail).
  { rewrite Hfile, app_assoc. apply drop_app_length'. rewrite length_app. lia. }
  destruct (replay_stops file kd (g_start s) (g_anchor s) (g_items s) r' k snap
    (foldl (step_entry k) st (entries_of (g_start s) (g_items s))) fuel Hr' Hkd' ltac:(by rewrite Hi') Hp')
    as (r2 & Hs2 & Hi2 & Hl2 & Hv2 & Hc2); [by cbn [after valid_file_end]; fold data; rewrite Hrest..|done| |].
  { cbn [after valid_file_end]. fold data. lia. }
  exists r2. split; [exact Hs2|]. unfold read_through. rewrite Hi2, Hi', Hl2, Hv2, Hc2. by split_and!.
Qed.

Section walking.
Context (m : Machine) (k : Z) (snap : option (list Z)).
Hypothesis buf_pos : (0 < buf m)%nat.
Hypothesis k_range : 0 <= k < u64_max.

Lemma chain_of_one s :
  chain_of [s] k =
  if k =? g_start s - 1 then Some (g_anchor s)
  else if covers (g_start s) (g_items s) k
  then Some (chain_upto (g_start s) (g_anchor s) (g_items s) k) else None.
Proof using Type.
  clear. cbn [CatchUp.Verdict.chain_of]. destruct (_ =? _); [done|]. destruct (covers _ _ _) eqn:Hc; [|done].
  unfold covers in Hc. zb. do 2 f_equal. unfold seg_tail, chain_upto. cbn [g_items g_anchor g_start]. do 2 f_equal.
  rewrite length_take, (proj2 (Nat.eqb_neq _ _)) by lia. done.
Qed.

(** The walk stands before the next segment, [index] of them walked up to [pos]. *)
Record standing (w : Walk (A:=A)) (index : nat) (start pos : Z) (tail : list Z) (g : option Z) : Prop := {
  sd_tail : prev_tail_hash w = if (index =? 0)%nat then None else Some tail;
  sd_start : expected_start w = if (index =? 0)%nat then None else Some pos;
  sd_genesis : archived_genesis_entries w = if (index =? 0)%nat then None else Some g;
  sd_seen : last_seq_seen w = if pos =? start then k else Z.max k (pos - 1);
  sd_reached : journal_max_seq w = if (index =? 0)%nat then 0 else pos - 1;
  sd_first : index = 0%nat -> pos = start
}.

Lemma segment_walked label index nth w start g kd s tail :
  standing w index start (g_start s) (g_anchor s) g -> on_tape g kd s tail -> start <= k + 1 ->
  match agrees snap (chain_of [s] k) with
  | Some (x, c) =>
    walk_segment crc32c blake3 m k snap label nth kd (seg_file g s ++ tail) w = Err (Recover.SnapshotChainMismatch k x c)
  | None => exists r,
    walk_segment crc32c blake3 m k snap label nth kd (seg_file g s ++ tail) w =
      Ok (foldl (step_entry k) (replay w) (seg_entries s), r) /\ read_through g s r
  end.
Proof using fits_one_entry AppEventLaws0 crc_range buf_pos k_range.
  intros Hw Ht Hstart. unfold walk_segment.
  destruct (replay_written g kd s tail (buf m) (splits m nth) k snap (replay w) Ht buf_pos)
    as (r & -> & Hs & Hg & Ha & Hre). cbn [rmap_err rbind].
  assert (Hk1 : wrapping_add k 1 = k + 1) by (unfold wrapping_add; apply Z.mod_small; widths; lia).
  assert (Hlink : verify_segment_link label r (prev_tail_hash w) (expected_start w) (wrapping_add k 1)
            (archived_genesis_entries w) = Ok tt).
  { unfold verify_segment_link. rewrite (sd_tail _ _ _ _ _ _ Hw), (sd_start _ _ _ _ _ _ Hw), (sd_genesis _ _ _ _ _ _ Hw), Hs, Ha, Hg, Hk1.
    destruct (index =? 0)%nat eqn:Hi.
    - apply Nat.eqb_eq in Hi. pose proof (sd_first _ _ _ _ _ _ Hw Hi). cbn [rbind].
      by rewrite (proj2 (Z.leb_le _ _)) by lia.
    - by rewrite !bool_decide_true, Z.eqb_refl by done. }
  rewrite Hlink. cbn [rbind]. rewrite chain_of_one. unfold verify_boundary_snapshot_anchor. rewrite Hs, Ha, Hk1.
  destruct (k =? g_start s - 1) eqn:Hk; [apply Z.eqb_eq in Hk|apply Z.eqb_neq in Hk].
  - replace (covers (g_start s) (g_items s) k) with false in Hre
      by (unfold covers; by rewrite (proj2 (Z.leb_gt _ _)) by lia).
    rewrite (proj2 (Z.eqb_eq (k + 1) _)) by lia. destruct snap as [x|]; cbn [agrees rbind] in *; [|exact Hre].
    destruct (bool_decide (g_anchor s = x)); cbn [andb negb rbind]; [exact Hre|done].
  - rewrite (proj2 (Z.eqb_neq (k + 1) _)) by lia. destruct snap as [x|]; cbn [andb rbind]; exact Hre.
Qed.

Lemma archive_walked label index nth w start g s pad :
  standing w index start (g_start s) (g_anchor s) g -> on_tape g Archived s (replicate pad 0) -> start <= k + 1 ->
  start <= g_start s ->
  match agrees snap (chain_of [s] k) with
  | Some (x, c) =>
    walk_archive crc32c blake3 m k snap label nth (seg_file g s ++ replicate pad 0) w = Err (Recover.SnapshotChainMismatch k x c)
  | None => exists w',
    walk_archive crc32c blake3 m k snap label nth (seg_file g s ++ replicate pad 0) w = Ok w' /\
    replay w' = foldl (step_entry k) (replay w) (seg_entries s) /\
    standing w' (S index) start (seg_next s) (seg_tail crc32c blake3 s) g
  end.
Proof using fits_one_entry AppEventLaws0 crc_range buf_pos k_range.
  intros Hw Ht Hstart Hle. pose proof (segment_walked label index nth w start g _ s _ Hw Ht Hstart) as Hseg.
  unfold walk_archive. destruct (agrees _ _) as [[x c]|]; [by rewrite Hseg|].
  destruct Hseg as (r & -> & Hs & Hg & Hl & _ & Hc). cbn [rbind]. eexists. split; [done|].
  destruct Ht as ((_ & H1 & Hmax & _) & _). unfold seg_next in *.
  cbn [replay]. split; [done|]. split; cbn [prev_tail_hash expected_start last_seq_seen journal_max_seq archived_genesis_entries Nat.eqb]; try done.
  - by rewrite Hc.
  - rewrite Hl, Hs. pose proof (next_start fits_one_entry (g_start s) (length (g_items s)) H1 Hmax) as Hn. by rewrite Hn.
  - by rewrite Hg.
  - rewrite Hl, (sd_seen _ _ _ _ _ _ Hw). destruct (length (g_items s) =? 0)%nat eqn:Hz.
    + apply Nat.eqb_eq in Hz. rewrite Hz, Z.add_0_r. done.
    + apply Nat.eqb_neq in Hz. rewrite (proj2 (Z.eqb_neq (g_start s + Z.of_nat (length (g_items s))) start)) by lia.
      destruct (_ =? _); lia.
  - unfold reaches. rewrite Hl, Hs, (sd_reached _ _ _ _ _ _ Hw). unfold sat_sub.
    pose proof (sd_first _ _ _ _ _ _ Hw).
    destruct (index =? 0)%nat, (length (g_items s) =? 0)%nat eqn:Hz; try (apply Nat.eqb_eq in Hz); lia.
Qed.

Definition archive_file (g : option Z) (x : nat * (Seg * nat)) : nat * list Z :=
  (fst x, seg_file g (fst (snd x)) ++ replicate (snd (snd x)) 0).
Definition segs_of (xs : list (nat * (Seg * nat))) : list Seg := map (fun x => fst (snd x)) xs.

Lemma archives_walked xs index nth w start g pos tail pos' tail' :
  standing w index start pos tail g -> linked pos tail (segs_of xs) pos' tail' ->
  Forall (fun x => on_tape g Archived (fst (snd x)) (replicate (snd (snd x)) 0)) xs ->
  start <= k + 1 -> start <= pos ->
  match agrees snap (chain_of (segs_of xs) k) with
  | Some (x, c) =>
    walk_archives crc32c blake3 m k snap nth (map (archive_file g) xs) w = Err (Recover.SnapshotChainMismatch k x c)
  | None => exists w',
    walk_archives crc32c blake3 m k snap nth (map (archive_file g) xs) w = Ok w' /\
    replay w' = foldl (step_entry k) (replay w) (concat (map seg_entries (segs_of xs))) /\
    standing w' (index + length xs) start pos' tail' g
  end.
Proof using fits_one_entry AppEventLaws0 crc_range buf_pos k_range.
  revert index nth w pos tail. induction xs as [|[label [s pad]] xs IH]; intros index nth w pos tail Hw Hl Ht Hstart Hpos.
  { destruct Hl as [-> ->]. cbn [segs_of map CatchUp.Verdict.chain_of].
    replace (agrees snap None) with (@None (list Z * list Z)) by (by destruct snap).
    exists w. rewrite Nat.add_0_r. by split_and!. }
  cbn [segs_of map fst snd History.linked] in Hl. destruct Hl as (Hs & Ha & Hl). subst pos tail.
  apply Forall_cons_1 in Ht as [Ht Hts]. cbn [fst snd] in Ht.
  pose proof (archive_walked label index nth w start g s pad Hw Ht Hstart Hpos) as Hone.
  change (segs_of ((label, (s, pad)) :: xs)) with ([s] ++ segs_of xs).
  rewrite chain_of_app. cbn [map archive_file fst snd walk_archives].
  destruct (chain_of [s] k) as [c|] eqn:Hc; [destruct (agrees snap (Some c)) as [[x c0]|] eqn:Hag; [by rewrite Hone|]|].
  all: try (replace (agrees snap None) with (@None (list Z * list Z)) in Hone by (by destruct snap)).
  all: destruct Hone as (w1 & -> & Hr1 & Hw1); cbn [rbind].
  all: specialize (IH (S index) (S nth) w1 _ _ Hw1 Hl Hts Hstart ltac:(unfold seg_next; lia)).
  - replace (agrees snap (chain_of (segs_of xs) k)) with (@None (list Z * list Z)) in IH.
    + destruct IH as (w2 & -> & Hr2 & Hw2). exists w2. split; [done|]. cbn [Datatypes.app map concat].
      rewrite Hr2, Hr1, foldl_app. split; [done|]. cbn [length]. by rewrite Nat.add_succ_r.
    + destruct (chain_of (segs_of xs) k) as [c'|] eqn:Hc'; [|by destruct snap].
      rewrite (chain_of_meets crc32c blake3 [s] (segs_of xs) (g_start s) (g_anchor s) (seg_next s) (seg_tail crc32c blake3 s)
        pos' tail' k c c') by (done || cbn; auto). done.
  - destruct (agrees snap (chain_of (segs_of xs) k)) as [[x c]|]; [exact IH|].
    destruct IH as (w2 & -> & Hr2 & Hw2). exists w2. split; [done|]. cbn [Datatypes.app map concat].
    rewrite Hr2, Hr1, foldl_app. split; [done|]. cbn [length]. by rewrite Nat.add_succ_r.
Qed.
End walking.

(** *** The state a walk leaves *)
Local Notation journaled start items := (map as_entry (entries_of (E:=E) start items)).

Lemma step_feeds k st e :
  k < e_sequence e -> replayed (step_entry k st e) = feed (replayed st) (as_entry e).
Proof using Type.
  clear. intros Hk. unfold step_entry, feed, replayed, finish. cbn [fst snd].
  rewrite (proj2 (Z.eqb_neq _ _)), (proj2 (Z.ltb_lt _ _)) by lia.
  unfold as_entry. cbn [Stages.Journaling.e_sequence Stages.Journaling.e_timestamp_ns Stages.Journaling.e_key_hash Stages.Journaling.e_event].
  destruct (dispatch _ _ _) as [[[a wm] ev] rs]. done.
Qed.

Lemma steps_after k st start items :
  k < start -> replayed (foldl (step_entry k) st (entries_of start items)) = foldl feed (replayed st) (journaled start items).
Proof using Type.
  clear. revert st start. induction items as [|[[ts key] ev] items IH]; intros st start Hk; [done|].
  cbn [entries_of map foldl]. rewrite IH by lia. f_equal. by apply step_feeds.
Qed.

(** The clock once the walk has passed the snapshot. *)
Definition anchored (c : ReplayClock) (k start : Z) (items : list item) : ReplayClock :=
  if start <=? k then
    match items !! Z.to_nat (k - start) with Some (ts, _, _) => at_anchor c ts | None => c end
  else c.

Lemma steps_through k st start items :
  start <= k + 1 ->
  replayed (foldl (step_entry k) st (entries_of start items)) =
  foldl feed ({| Stages.Dispatch.app := r_app st; Stages.Dispatch.tick_watermark := running (anchored (r_clock st) k start items) |},
              r_lineage st) (journaled (k + 1) (drop (Z.to_nat (k + 1 - start)) items)).
Proof using Type.
  clear. revert st start. induction items as [|[[ts key] ev] items IH]; intros st start Hk.
  { unfold anchored. rewrite lookup_nil, drop_nil. by destruct (_ <=? _). }
  destruct (decide (start = k + 1)) as [->|Hne].
  { unfold anchored. rewrite (proj2 (Z.leb_gt _ _)), Z.sub_diag by lia. cbn [Z.to_nat drop]. by apply steps_after; lia. }
  cbn [entries_of foldl]. replace (Z.to_nat (k + 1 - start)) with (S (Z.to_nat (k + 1 - (start + 1)))) by lia.
  cbn [drop]. rewrite IH by lia.
  unfold step_entry. cbn [e_sequence e_timestamp_ns]. rewrite (proj2 (Z.ltb_ge k start)) by lia. cbn [r_app r_lineage r_clock].
  do 3 f_equal. unfold anchored. rewrite (proj2 (Z.leb_le start k)) by lia. destruct (start =? k) eqn:Hs; zb.
  - subst start. rewrite (proj2 (Z.leb_gt (k + 1) k)), Z.sub_diag by lia. done.
  - rewrite (proj2 (Z.leb_le (start + 1) k)) by lia.
    by replace (Z.to_nat (k - start)) with (S (Z.to_nat (k - (start + 1)))) by lia.
Qed.

Lemma entries_joined start anchor segs start' anchor' :
  linked start anchor segs start' anchor' ->
  concat (map seg_entries segs) = entries_of start (concat (map g_items segs)).
Proof using fits_one_entry.
  revert start anchor. induction segs as [|s segs IH]; intros start anchor; [done|]. cbn [History.linked map concat].
  intros (Hs & _ & Hl). rewrite (IH _ _ Hl), (entries_app fits_one_entry). unfold seg_entries. by rewrite Hs; unfold seg_next; rewrite Hs.
Qed.

(** *** A journal directory *)
Record Disk := { sealed : list (nat * (Seg * nat)); current : option (Seg * list Z) }.

Definition disk_segs (d : Disk) : list Seg := segs_of (sealed d) ++ map fst (option_list (current d)).

(** Linked segments; archives end in zeros at most, the live one in what a crash can
    leave; a crash mid-rotation leaves archives alone. *)
Definition well_kept (g : option Z) (d : Disk) (start : Z) (anchor : list Z) (start' : Z) (anchor' : list Z) : Prop :=
  linked start anchor (disk_segs d) start' anchor' /\
  Forall (fun x => on_tape g Archived (fst (snd x)) (replicate (snd (snd x)) 0)) (sealed d) /\
  match current d with Some (s, tail) => on_tape g Live s tail | None => sealed d <> [] end.

(** Reads and writes make progress; the header comes in one read. *)
Definition machine_ok (m : Machine) : Prop :=
  (0 < buf m)%nat /\ Forall (lt 0) (Recover.sizes m) /\
  match header_sizes m with [] => True | s :: _ => (FILE_HEADER_SIZE <= s)%nat end.

Definition recover_disk (m : Machine) (a : A) (snapshot : option Snapshot.Format.SnapshotHeader) (g : option Z) (d : Disk)
    : result (JournaledApp (A:=A)) JournaledAppError :=
  recover_inner crc32c blake3 m a snapshot (map (archive_file g) (sealed d))
    ((fun x => seg_file g (fst x) ++ snd x) <$> current d).

(** When recovery refuses, and why. *)
Definition refusal (snapshot : option Snapshot.Format.SnapshotHeader) (start start' : Z) (chain : option (list Z))
    : option JournaledAppError :=
  let k := snap_seq snapshot in
  if k + 1 <? start then Some (MissingHistoryPrefix start (k + 1))
  else match agrees (snap_hash snapshot) chain with
       | Some (x, c) => Some (Recover.SnapshotChainMismatch k x c)
       | None =>
         if bool_decide (is_Some snapshot) && (0 <? k) && (start' - 1 <? k)
         then Some (SnapshotAnchorMissing k (start' - 1)) else None
       end.

Section recovering.
Context (m : Machine) (snapshot : option Snapshot.Format.SnapshotHeader) (a : A).
Hypothesis m_ok : machine_ok m.
Local Notation k := (snap_seq snapshot).
Local Notation snap := (snap_hash snapshot).
Hypothesis k_range : 0 <= k < u64_max.

Lemma walk_starts start tail g : standing k (start_walk a snapshot) 0 start start tail g.
Proof using Type. clear. split; cbn; try done. by rewrite Z.eqb_refl. Qed.

Lemma prefix_missing label nth kd g s tail :
  on_tape g kd s tail -> k + 1 < g_start s ->
  walk_segment crc32c blake3 m k snap label nth kd (seg_file g s ++ tail) (start_walk a snapshot) =
    Err (MissingHistoryPrefix (g_start s) (k + 1)).
Proof using fits_one_entry AppEventLaws0 crc_range m_ok k_range.
  intros Ht Hlt. destruct m_ok as (Hbuf & _). unfold walk_segment.
  destruct (replay_written g kd s tail (buf m) (splits m nth) k snap (replay (start_walk a snapshot)) Ht Hbuf)
    as (r & -> & Hs & _). cbn [rmap_err rbind].
  assert (Hk1 : wrapping_add k 1 = k + 1) by (unfold wrapping_add; apply Z.mod_small; widths; lia).
  unfold verify_segment_link. cbn [start_walk prev_tail_hash expected_start archived_genesis_entries rbind].
  by rewrite Hs, Hk1, (proj2 (Z.leb_gt _ _)).
Qed.

Lemma anchor_checked reached :
  anchor_reached snapshot reached =
  if bool_decide (is_Some snapshot) && (0 <? k) && (reached <? k)
  then Err (SnapshotAnchorMissing k reached) else Ok tt.
Proof using Type.
  clear. unfold anchor_reached. destruct snapshot as [h|]; [|done]. cbn [snap_seq].
  rewrite bool_decide_true by done. cbn [andb]. by destruct (_ && _).
Qed.

Lemma reaches_through reached g s r :
  read_through g s r -> 1 <= g_start s -> reached <= g_start s - 1 -> reaches reached r = seg_next s - 1.
Proof using Type.
  clear. intros (Hs & _ & Hl & _) H1 Hle. unfold reaches. rewrite Hl, Hs. unfold sat_sub, seg_next.
  destruct (length (g_items s) =? 0)%nat eqn:Hz; [apply Nat.eqb_eq in Hz|]; lia.
Qed.

(** The live segment, and the writer reopened on it. *)
Lemma live_recovered g d s tail start anchor start' anchor' :
  current d = Some (s, tail) -> well_kept g d start anchor start' anchor' -> 1 <= start <= k + 1 ->
  match refusal snapshot start start' (chain_of (disk_segs d) k) with
  | Some e => recover_disk m a snapshot g d = Err e
  | None => exists w, recover_disk m a snapshot g d =
      Ok (finished (foldl (step_entry k) (replay (start_walk a snapshot)) (concat (map seg_entries (disk_segs d)))) w) /\
      winv crc32c w (g_start s) (g_anchor s) (g_items s) [] /\ genesis (Journal.Writer.segment w) = g
  end.
Proof using fits_one_entry AppEventLaws0 crc_range m_ok k_range.
  intros Hcur (Hl & Hsealed & Ht) Hstart. unfold recover_disk, recover_inner, disk_segs in *. rewrite Hcur in *.
  change (map fst (option_list (Some (s, tail)))) with [s] in *.
  cbn [fst fmap option_fmap option_map snd] in *. destruct m_ok as (Hbuf & _ & Hhs).
  apply (Shipping.linked_app crc32c blake3) in Hl as (mid & amid & Hl1 & Hl2).
  cbn [History.linked] in Hl2. destruct Hl2 as (Hs & Ha & -> & _). subst mid amid.
  pose proof (archives_walked m k snap Hbuf k_range (sealed d) 0 0 _ start g start anchor _ _
    (walk_starts start anchor g) Hl1 Hsealed (proj2 Hstart) ltac:(lia)) as Harch.
  unfold refusal. rewrite (proj2 (Z.ltb_ge _ _)), chain_of_app by lia.
  destruct (chain_of (segs_of (sealed d)) k) as [c|] eqn:Hc;
    [destruct (agrees snap (Some c)) as [[x c0]|] eqn:Hag; [by rewrite Harch|]|].
  all: try (replace (agrees snap None) with (@None (list Z * list Z)) in Harch by (by destruct snapshot)).
  all: destruct Harch as (w & -> & Hrep & Hw); cbn [rbind Nat.add] in *; rewrite length_map.
  all: pose proof (segment_walked m k snap Hbuf k_range 0 _ (length (sealed d)) w start g Live s tail Hw Ht (proj2 Hstart)) as Hseg.
  1: assert (Hag2 : agrees snap (chain_of [s] k) = None).
  1: { destruct (chain_of [s] k) as [c'|] eqn:Hc'; [|by destruct snapshot].
       assert (Hsame : c' = c); [|by rewrite Hsame].
       eapply (chain_of_meets crc32c blake3 _ [s] start anchor (g_start s) (g_anchor s)); [exact Hl1| |exact Hc|exact Hc'].
       cbn. auto. }
  1: rewrite Hag2 in Hseg.
  2: destruct (agrees snap (chain_of [s] k)) as [[x c]|]; [by rewrite Hseg|].
  all: destruct Hseg as (r & -> & Hread); cbn [rbind]; pose proof Ht as ((Hh & H1 & Hmax & Hit) & _).
  all: rewrite anchor_checked, (reaches_through _ g s r Hread H1)
         by (rewrite (sd_reached _ _ _ _ _ _ _ Hw); destruct (_ =? 0)%nat; lia).
  all: destruct (_ && _ && _); [done|]; cbn [rbind].
  all: destruct Hread as (Hrs & Hrg & Hrl & Hrv & _); rewrite Hrl, Hrv, Hrs.
  all: replace (default (sat_sub (g_start s) 1) (if (length (g_items s) =? 0)%nat then None else Some (seg_next s - 1)))
         with (g_start s + Z.of_nat (length (g_items s)) - 1)
         by (unfold sat_sub, seg_next; destruct (length (g_items s) =? 0)%nat eqn:Hz; cbn;
             [apply Nat.eqb_eq in Hz; rewrite Hz|]; lia).
  all: unfold Segments.History.seg_file; rewrite <- app_assoc.
  all: destruct (open_append_keeps crc32c crc_range fits_one_entry (g_start s) (g_anchor s) g (g_items s) tail (Recover.prealloc m)
         (header_sizes m) (Recover.sizes m) Hh Hit H1 Hmax Hhs) as (wr & -> & Hwi & Hg).
  all: cbn [rmap_err rbind]; exists wr; split; [|done].
  all: rewrite map_app, concat_app, foldl_app, <- Hrep; cbn [map concat]; by rewrite app_nil_r.
Qed.

(** The next segment's header, as the last one's end gives it. *)
Lemma linked_header segs start anchor start' anchor' g :
  linked start anchor segs start' anchor' -> Forall (seg_ok g) segs -> segs <> [] ->
  header_ok MAX_SECTOR_SIZE start' anchor' g /\ 1 <= start' <= u64_max.
Proof using blake3_length fits_one_entry.
  revert start anchor. induction segs as [|s segs IH]; intros start anchor Hl Hok Hne; [done|].
  cbn [History.linked] in Hl. destruct Hl as (Hs & Ha & Hl). apply Forall_cons_1 in Hok as [Hok Hoks].
  destruct segs as [|s2 segs]; [|by eapply IH].
  destruct Hl as [-> ->]. destruct Hok as ((Hsec & _ & Hal & Hg) & H1 & Hmax & _).
  split; [|unfold seg_next in *; lia]. split; [done|]. split; [unfold seg_next in *; widths; lia|]. split; [|done].
  by apply (chain_value_length blake3 blake3_length).
Qed.

(** No live segment: one is made up to follow the archives. *)
Lemma orphaned_recovered g d start anchor start' anchor' :
  current d = None -> well_kept g d start anchor start' anchor' -> 1 <= start <= k + 1 ->
  match refusal snapshot start start' (chain_of (disk_segs d) k) with
  | Some e => recover_disk m a snapshot g d = Err e
  | None => exists w, recover_disk m a snapshot g d =
      Ok (finished (foldl (step_entry k) (replay (start_walk a snapshot)) (concat (map seg_entries (disk_segs d)))) w) /\
      winv crc32c w start' anchor' [] [] /\ genesis (Journal.Writer.segment w) = g
  end.
Proof using fits_one_entry AppEventLaws0 crc_range m_ok k_range blake3_length.
  intros Hcur (Hl & Hsealed & Hne) Hstart. unfold recover_disk, recover_inner, disk_segs in *. rewrite Hcur in *.
  change (map fst (option_list (@None (Seg * list Z)))) with (@nil Seg) in *. rewrite app_nil_r in *.
  cbn [fmap option_fmap option_map] in *. destruct m_ok as (Hbuf & Hsz & _).
  pose proof (archives_walked m k snap Hbuf k_range (sealed d) 0 0 _ start g start anchor _ _
    (walk_starts start anchor g) Hl Hsealed (proj2 Hstart) ltac:(lia)) as Harch.
  unfold refusal. rewrite (proj2 (Z.ltb_ge _ _)) by lia.
  destruct (agrees snap (chain_of (segs_of (sealed d)) k)) as [[x c]|]; [by rewrite Harch|].
  destruct Harch as (w & -> & Hrep & Hw). cbn [rbind Nat.add] in *. rewrite length_map.
  assert (Hlen : (length (sealed d) =? 0)%nat = false) by (apply Nat.eqb_neq; by destruct (sealed d)).
  rewrite Hlen, anchor_checked, (sd_reached _ _ _ _ _ _ _ Hw), Hlen.
  destruct (bool_decide (is_Some snapshot) && (0 <? k) && (start' - 1 <? k)) eqn:Hanchor; [done|]. cbn [rbind].
  destruct (linked_header (segs_of (sealed d)) start anchor start' anchor' g Hl) as [Hh Hr'].
  { apply Forall_map. eapply Forall_impl; [exact Hsealed|]. by intros x [? _]. }
  { by destruct (sealed d). }
  assert (Hle : k <= start' - 1).
  { destruct (Shipping.linked_starts crc32c blake3 _ _ _ _ _ Hl) as [Hle _]. destruct snapshot as [h|] eqn:Hsn; [|cbn [snap_seq]; lia].
    rewrite bool_decide_true in Hanchor by done. cbn [andb] in Hanchor. destruct (0 <? _) eqn:Hpos; cbn [andb] in Hanchor; zb; lia. }
  assert (Hseen : wrapping_add (last_seq_seen w) 1 = start').
  { rewrite (sd_seen _ _ _ _ _ _ _ Hw). replace (if start' =? start then k else Z.max k (start' - 1)) with (start' - 1).
    - unfold wrapping_add. rewrite Z.mod_small by (widths; lia). lia.
    - destruct (start' =? start) eqn:He; zb; lia. }
  rewrite Hseen, (sd_tail _ _ _ _ _ _ _ Hw), (sd_genesis _ _ _ _ _ _ _ Hw), Hlen. cbn [default from_option mjoin option_join].
  destruct (create_keeps crc32c fits_one_entry start' anchor' g (Recover.prealloc m) (Recover.sizes m) Hh Hr' Hsz) as (wr & Hc & Hwi & Hg).
  unfold id. rewrite Hc. cbn [rmap_err rbind]. exists wr. by rewrite Hrep.
Qed.

(** What recovery starts from, and the entries it applies. *)
Definition resumed (start : Z) (items : list item) : WarmApp A * Lineage :=
  let st := replay (start_walk a snapshot) in
  foldl feed ({| Stages.Dispatch.app := r_app st;
                 Stages.Dispatch.tick_watermark := running (anchored (r_clock st) k start items) |}, r_lineage st)
    (journaled (k + 1) (drop (Z.to_nat (k + 1 - start)) items)).

Definition recovered_as (st : WarmApp A * Lineage) (r : JournaledApp (A:=A)) : Prop :=
  Recover.app r = Stages.Dispatch.app (fst st) /\ Recover.tick_watermark r = Stages.Dispatch.tick_watermark (fst st) /\
  recovered_lineage r = snd st.

Lemma finished_as st w x : replayed st = x -> recovered_as x (finished st w).
Proof using Type. clear. by intros <-. Qed.

(** Every journal of linked segments, with any snapshot. *)
Lemma recovered_or_refused g d start anchor start' anchor' :
  well_kept g d start anchor start' anchor' -> 1 <= start ->
  match refusal snapshot start start' (chain_of (disk_segs d) k) with
  | Some e => recover_disk m a snapshot g d = Err e
  | None => exists r, recover_disk m a snapshot g d = Ok r /\
      recovered_as (resumed start (concat (map g_items (disk_segs d)))) r /\
      match current d with
      | Some (s, _) => winv crc32c (Recover.writer r) (g_start s) (g_anchor s) (g_items s) []
      | None => winv crc32c (Recover.writer r) start' anchor' [] []
      end /\
      genesis (Journal.Writer.segment (Recover.writer r)) = g
  end.
Proof using fits_one_entry AppEventLaws0 crc_range m_ok k_range blake3_length.
  intros Hwk H1. destruct (decide (start <= k + 1)) as [Hle|Hgt].
  - assert (Hfin : replayed (foldl (step_entry k) (replay (start_walk a snapshot)) (concat (map seg_entries (disk_segs d))))
              = resumed start (concat (map g_items (disk_segs d)))).
    { rewrite (entries_joined _ _ _ _ _ (proj1 Hwk)). by apply steps_through. }
    destruct (current d) as [[s tail]|] eqn:Hcur.
    + pose proof (live_recovered g d s tail start anchor start' anchor' Hcur Hwk (conj H1 Hle)) as Hr.
      destruct (refusal _ _ _ _); [done|]. destruct Hr as (w & Hr & Hw & Hg).
      eexists. split; [exact Hr|]. split; [by apply finished_as|]. by split.
    + pose proof (orphaned_recovered g d start anchor start' anchor' Hcur Hwk (conj H1 Hle)) as Hr.
      destruct (refusal _ _ _ _); [done|]. destruct Hr as (w & Hr & Hw & Hg).
      eexists. split; [exact Hr|]. split; [by apply finished_as|]. by split.
  - unfold refusal. rewrite (proj2 (Z.ltb_lt _ _)) by lia. destruct Hwk as (Hl & Hsealed & Hcur).
    unfold recover_disk, recover_inner. unfold disk_segs in Hl. destruct (sealed d) as [|[label [s pad]] xs].
    + destruct (current d) as [[s tail]|]; [|done].
      destruct Hl as (Hs & _). cbn [fst] in Hs. cbn [map walk_archives rbind fmap option_fmap option_map fst snd length].
      rewrite (prefix_missing _ _ _ _ _ _ Hcur), Hs by lia. done.
    + destruct Hl as (Hs & _). cbn [segs_of map fst snd] in Hs. apply Forall_cons_1 in Hsealed as [Ht _]. cbn [fst snd] in Ht.
      cbn [map archive_file walk_archives fst snd]. unfold walk_archive.
      rewrite (prefix_missing _ _ _ _ _ _ Ht), Hs by lia. done.
Qed.
End recovering.

(** The state an uninterrupted node reaches over a history, from genesis. *)
Definition lived (a0 : A) (history : list item) : WarmApp A * Lineage :=
  foldl feed (warm_genesis a0, GENESIS) (journaled 1 history).

(** A snapshot of that node, after some entry the disk still continues from. *)
Definition snapshot_of (a0 a : A) (snapshot : option Snapshot.Format.SnapshotHeader) (history : list item)
    (segs : list Seg) (start : Z) : Prop :=
  match snapshot with
  | None => a = a0 /\ start = 1
  | Some h =>
    let k := Snapshot.Format.sequence h in
    0 <= k <= Z.of_nat (length history) /\ start <= k + 1 /\
    chain_of segs k = Some (Snapshot.Format.chain_hash h) /\
    exists wm, Snapshot.Format.tick_watermark h = Some wm /\
      ({| Stages.Dispatch.app := a; Stages.Dispatch.tick_watermark := wm |}, Snapshot.Format.lineage h) =
        lived a0 (take (Z.to_nat k) history)
  end.

Lemma well_kept_ok g d start anchor start' anchor' :
  well_kept g d start anchor start' anchor' -> Forall (seg_ok g) (disk_segs d) /\ disk_segs d <> [].
Proof using Type.
  clear. intros (_ & Hsealed & Hcur). unfold disk_segs. split.
  - apply Forall_app. split; [apply Forall_map; eapply Forall_impl; [exact Hsealed|]; by intros x [? _]|].
    destruct (current d) as [[s tail]|]; [|by constructor]. constructor; [apply Hcur|constructor].
  - destruct (sealed d); [|done]. by destruct (current d).
Qed.

(** The lived state is the snapshot's, taken on. *)
Lemma lived_resumes a0 a snapshot history segs start :
  snapshot_of a0 a snapshot history segs start -> 1 <= start ->
  resumed snapshot a start (drop (Z.to_nat (start - 1)) history) = lived a0 history.
Proof using fits_one_entry.
  intros Hsn Hs. unfold resumed, lived. rewrite drop_drop. destruct snapshot as [h|]; cbn [snap_seq start_walk replay r_app r_lineage r_clock] in *.
  - destruct Hsn as (Hk & Hle & _ & wm & Hwm & Hst). set (k := Snapshot.Format.sequence h) in *.
    replace (Z.to_nat (start - 1) + Z.to_nat (k + 1 - start))%nat with (Z.to_nat k) by lia.
    assert (Hclock : running (anchored (from_snapshot (clock_header h)) k start (drop (Z.to_nat (start - 1)) history)) = wm).
    { unfold from_snapshot. cbn [clock_header recorded_watermark]. rewrite Hwm, bool_decide_true by done. cbn [orb].
      unfold resume_tick_watermark. cbn [clock_header recorded_watermark]. rewrite Hwm. unfold anchored.
      destruct (_ <=? _); [|done]. by destruct (_ !! _) as [[[ts key] ev]|]. }
    rewrite Hclock, Hst. unfold lived. rewrite <- foldl_app, <- map_app.
    rewrite <- (take_drop (Z.to_nat k) history) at 3. rewrite (entries_app fits_one_entry), length_take.
    do 4 f_equal. lia.
  - destruct Hsn as [-> ->]. cbn [Z.sub Z.add Z.to_nat]. change (Z.to_nat (1 - 1) + Z.to_nat (1 - 1))%nat with 0%nat.
    rewrite drop_0. unfold anchored. by rewrite (proj2 (Z.leb_gt _ _)) by lia.
Qed.

(** From the genesis state or a snapshot, onto the journal. *)
Lemma restart_from m a0 a snapshot history g d start anchor start' anchor' :
  machine_ok m -> well_kept g d start anchor start' anchor' -> 1 <= start ->
  start - 1 <= Z.of_nat (length history) ->
  concat (map g_items (disk_segs d)) = drop (Z.to_nat (start - 1)) history ->
  snapshot_of a0 a snapshot history (disk_segs d) start ->
  exists r, recover_disk m a snapshot g d = Ok r /\ recovered_as (lived a0 history) r /\
    Journal.Encoder.next_sequence (Journal.Writer.encoder (Recover.writer r)) = Z.of_nat (length history) + 1 /\
    Journal.Chain.value blake3 (Journal.Encoder.hash_chain (Journal.Writer.encoder (Recover.writer r))) = anchor'.
Proof using fits_one_entry AppEventLaws0 crc_range blake3_length.
  intros Hm Hwk Hs Hlen Hitems Hsn. destruct (well_kept_ok _ _ _ _ _ _ Hwk) as [Hok Hne].
  destruct (linked_header _ _ _ _ _ _ (proj1 Hwk) Hok Hne) as [_ Hr].
  pose proof (linked_count crc32c blake3 _ _ _ _ _ (proj1 Hwk)) as Hcount.
  rewrite Hitems, length_drop in Hcount. assert (Hend : start' = Z.of_nat (length history) + 1) by lia.
  assert (Hk : 0 <= snap_seq snapshot < u64_max).
  { destruct snapshot as [h|]; cbn [snap_seq snapshot_of] in *; [destruct Hsn; lia|widths; lia]. }
  pose proof (recovered_or_refused m snapshot a Hm Hk g d start anchor start' anchor' Hwk Hs) as Hv.
  assert (Href : refusal snapshot start start' (chain_of (disk_segs d) (snap_seq snapshot)) = None).
  { unfold refusal. destruct snapshot as [h|]; cbn [snap_seq snapshot_of snap_hash] in *.
    - destruct Hsn as (Hkr & Hle & Hch & _). rewrite Hch, (proj2 (Z.ltb_ge _ _)) by lia.
      rewrite (proj2 (Z.ltb_ge (start' - 1) _)), andb_false_r by lia. cbn. by rewrite bool_decide_true.
    - destruct Hsn as [_ ->]. done. }
  rewrite Href in Hv. destruct Hv as (r & Hrec & Has & Hw & _). exists r. split; [done|].
  rewrite Hitems, (lived_resumes _ _ _ _ _ _ Hsn Hs) in Has. split; [done|].
  destruct (current d) as [[s tail]|] eqn:Hcur.
  - assert (Hlast : seg_next s = start' /\ seg_tail crc32c blake3 s = anchor').
    { destruct Hwk as (Hl & _). unfold disk_segs in Hl. rewrite Hcur in Hl.
      apply (Shipping.linked_app crc32c blake3) in Hl as (mid & amid & _ & Hl2).
      cbn in Hl2. destruct Hl2 as (_ & _ & -> & ->). done. }
    destruct Hlast as [Hn Ht]. rewrite (wi_next _ _ _ _ _ _ Hw), (wi_chain _ _ _ _ _ _ Hw), app_nil_r.
    unfold seg_next in Hn. split; [lia|]. rewrite <- Ht. done.
  - rewrite (wi_next _ _ _ _ _ _ Hw), (wi_chain _ _ _ _ _ _ Hw). cbn. split; [lia|done].
Qed.

(** C13: A restart loses nothing and repeats nothing. The disk holds a node's
    history from some sequence on, in linked segments, the live one torn by a crash
    or gone with it mid-rotation; recovery starts from the genesis state, or from any
    snapshot of the same node the disk continues from. It succeeds, and ends in the
    state of the node that never stopped: the same application, the same clock, the
    same lineage; the next entry gets the next sequence, chained to the last. *)
Theorem restart_exact m a0 a snapshot history g d start anchor start' anchor' :
  machine_ok m -> well_kept g d start anchor start' anchor' -> 1 <= start ->
  start - 1 <= Z.of_nat (length history) ->
  concat (map g_items (disk_segs d)) = drop (Z.to_nat (start - 1)) history ->
  snapshot_of a0 a snapshot history (disk_segs d) start ->
  exists r, recover_disk m a snapshot g d = Ok r /\ recovered_as (lived a0 history) r /\
    Journal.Encoder.next_sequence (Journal.Writer.encoder (Recover.writer r)) = Z.of_nat (length history) + 1 /\
    Journal.Chain.value blake3 (Journal.Encoder.hash_chain (Journal.Writer.encoder (Recover.writer r))) = anchor'.
Proof using fits_one_entry AppEventLaws0 crc_range blake3_length. apply restart_from. Qed.

(** C18: What a restart comes to, on any journal of linked segments and with any
    snapshot, or none. History missing before the first segment that the snapshot
    does not cover is refused as such; a snapshot whose chain hash is not the one
    the journal has at its sequence is refused, wherever that sequence falls, a
    segment boundary and a pruned one included; a snapshot past the journal's end is
    refused. Otherwise recovery succeeds: the application, its clock and the lineage
    are the snapshot's with exactly the entries past it applied, in order, each
    once, whatever a crash tore off the live segment's end; and the writer stands
    behind the last entry, on the same chain, on the live segment or, when the crash
    came mid-rotation, on a new one that follows the archives. *)
Theorem recovery_verdict m snapshot a g d start anchor start' anchor' :
  let k := snap_seq snapshot in
  machine_ok m -> 0 <= k < u64_max -> well_kept g d start anchor start' anchor' -> 1 <= start ->
  match refusal snapshot start start' (chain_of (disk_segs d) k) with
  | Some e => recover_disk m a snapshot g d = Err e
  | None => exists r, recover_disk m a snapshot g d = Ok r /\
      recovered_as (resumed snapshot a start (concat (map g_items (disk_segs d)))) r /\
      match current d with
      | Some (s, _) => winv crc32c (Recover.writer r) (g_start s) (g_anchor s) (g_items s) []
      | None => winv crc32c (Recover.writer r) start' anchor' [] []
      end /\
      genesis (Journal.Writer.segment (Recover.writer r)) = g
  end.
Proof using fits_one_entry AppEventLaws0 crc_range blake3_length. intros k Hm Hk. by apply recovered_or_refused. Qed.
End verdict.
End Verdict.

(** ** What a recovered state rests on *)
Module Backed.
Import Recover Verdict Stages.Dispatch Stages.Replay Reader.Reader Reader.Whole Reader.Recovery.

Section backed.
Context {A E R Q : Type} `{Application A E R Q} `{AppEvent E}.
Context (crc32c : list Z -> Z) (blake3 : list Z -> list Z).
Context (m : Machine).
Hypothesis buf_pos : (0 < buf m)%nat.

(** A segment as its walk read it. *)
Record Part := { p_info : FileHeaderInfo; p_entries : list (JournalEntry (E:=E)); p_chain : list Z }.

Definition next_of (p : Part) : Z :=
  match last (p_entries p) with Some e => wrapping_add (e_sequence e) 1 | None => starting_sequence (p_info p) end.

Definition read_as (i : nat) (kd : SegmentKind) (file : list Z) (p : Part) : Prop :=
  exists r, read_segment crc32c file kd (buf m) (splits m i) = Ok (p_entries p, r) /\
    info r = p_info p /\ Journal.Chain.value blake3 (chain (progress r)) = p_chain p.

Fixpoint all_read (i : nat) (files : list (SegmentKind * list Z)) (ps : list Part) : Prop :=
  match files, ps with
  | [], [] => True
  | (kd, file) :: files, p :: ps => read_as i kd file p /\ all_read (S i) files ps
  | _, _ => False
  end.

(** Each segment's header follows the segment before it. *)
Definition follows (prev p : Part) : Prop :=
  anchor_hash (p_info p) = p_chain prev /\ starting_sequence (p_info p) = next_of prev /\
  genesis_entries (p_info p) = genesis_entries (p_info prev).
Fixpoint joined (prev : option Part) (ps : list Part) : Prop :=
  match ps with
  | [] => True
  | p :: ps => match prev with Some q => follows q p | None => True end /\ joined (Some p) ps
  end.

(** A replay is a read, with every entry's effect. *)
Lemma replay_is_read fuel file r k snap st st' r' :
  Recover.replay_segment (A:=A) crc32c blake3 fuel file r k snap st = Ok (st', r') ->
  exists es, read_all (E:=E) crc32c fuel file r = (Ok es, r') /\ st' = foldl (step_entry k) st es.
Proof using Type.
  clear. revert r st. induction fuel as [|fuel IH]; intros r st; cbn [Recover.replay_segment read_all].
  { intros [= <- <-]. by exists []. }
  destruct (next_entry crc32c file r) as [[[e|]|e] r1]; [|intros [= <- <-]; by exists []|done].
  rewrite replay_entry_step.
  assert (Hgo : Recover.replay_segment crc32c blake3 fuel file r1 k snap (step_entry k st e) = Ok (st', r') ->
    exists es, (let '(rest, r) := read_all crc32c fuel file r1 in (es <-? rest ;; Ok (e :: es), r)) = (Ok es, r') /\
      st' = foldl (step_entry k) st es).
  { intros (es & -> & ->)%IH. by exists (e :: es). }
  destruct snap as [x|]; [|exact Hgo]. by destruct (_ && _).
Qed.

Lemma next_last file kd start p :
  let '(v, p') := next (E:=E) crc32c file kd start p in
  match v with
  | Ok (Some e) => last_sequence p' = Some (e_sequence e)
  | Ok None => last_sequence p' = last_sequence p
  | Err _ => True
  end.
Proof using Type.
  clear. unfold next. destruct (ended p); [done|].
  assert (Hfin : forall cause, let '(v, p') := finish (E:=E) file kd p cause in
    match v with
    | Ok (Some e) => last_sequence p' = Some (e_sequence e)
    | Ok None => last_sequence p' = last_sequence p
    | Err _ => True
    end).
  { intros cause. unfold finish, end_verdict. by destruct (Nat.add _ <$> Scan.position_nonzero _). }
  destruct (_ || _); [apply Hfin|]. destruct (decode crc32c _) as [[[[[n seq] ts] key] ev]|e].
  - unfold validate_and_advance. by destruct (check_sequence _ _ _).
  - destruct (is_torn_shape _ e); [apply Hfin|done].
Qed.

Lemma open_rinv file kd script r :
  open_segment crc32c file kd (buf m) script = Ok r ->
  rinv file r /\ last_sequence (progress r) = None /\
  Journal.Chain.anchor (chain (progress r)) = anchor_hash (info r).
Proof using buf_pos.
  unfold open_segment. destruct (_ <? _)%nat; [done|]. destruct (decode_file_header _ _) as [i|]; [|done].
  intros [= <-]. split; [|done]. split; cbn; try done. lia.
Qed.

(** The last entry read is where the reader stands. *)
Lemma read_all_last fuel file r es r' :
  rinv file r -> read_all (E:=E) crc32c fuel file r = (Ok es, r') ->
  last_sequence (progress r') =
    match last es with Some e => Some (e_sequence e) | None => last_sequence (progress r) end.
Proof using Type.
  clear. revert r es. induction fuel as [|fuel IH]; intros r es Hr; cbn [read_all]; [by intros [= <- <-]|].
  pose proof (next_entry_whole (E:=E) crc32c file r Hr) as Hn.
  destruct (next_entry crc32c file r) as [v r1]. destruct Hn as (Hn & Hr1 & _ & _).
  pose proof (next_last file (kind r) (starting_sequence (info r)) (progress r)) as Hl.
  rewrite <- Hn in Hl. destruct v as [[e|]|e]; [|intros [= <- <-]; exact Hl|done].
  destruct (read_all crc32c fuel file r1) as [[rest|err] r2] eqn:Hra; cbn [rbind]; [|done].
  intros [= <- <-]. rewrite (IH r1 rest Hr1 Hra), Hl. destruct rest as [|e2 rest]; [done|].
  rewrite last_cons_cons. destruct (last (e2 :: rest)) eqn:Hlast; [done|]. by apply last_None in Hlast.
Qed.

(** One segment's walk. *)
Lemma walk_reads k snap label i kd file w st r :
  walk_segment (A:=A) (E:=E) crc32c blake3 m k snap label i kd file w = Ok (st, r) ->
  exists p, read_as i kd file p /\ info r = p_info p /\ Journal.Chain.value blake3 (chain (progress r)) = p_chain p /\
    last_sequence (progress r) = (e_sequence <$> last (p_entries p)) /\
    st = foldl (step_entry k) (replay w) (p_entries p) /\
    match archived_genesis_entries w with Some g => genesis_entries (p_info p) = g | None => True end /\
    match prev_tail_hash w with Some c => anchor_hash (p_info p) = c | None => True end /\
    match expected_start w with
    | Some s => starting_sequence (p_info p) = s
    | None => starting_sequence (p_info p) <= wrapping_add k 1
    end.
Proof using buf_pos.
  unfold walk_segment. destruct (open_segment crc32c file kd (buf m) (splits m i)) as [r0|] eqn:Ho; [|done]. cbn [rmap_err rbind].
  destruct (open_rinv _ _ _ _ Ho) as (Hr0 & Hl0 & Ha0).
  destruct (verify_segment_link _ _ _ _ _ _) as [[]|] eqn:Hlink; [|done]. cbn [rbind].
  destruct (verify_boundary_snapshot_anchor _ _ _) as [[]|]; [|done]. cbn [rbind]. intros Hrep.
  destruct (replay_is_read _ _ _ _ _ _ _ _ Hrep) as (es & Hra & ->).
  pose proof (read_all_info (E:=E) crc32c (S (length file)) file r0 Hr0) as Hi. rewrite Hra in Hi. cbn [snd] in Hi.
  pose proof (read_all_last _ _ _ _ _ Hr0 Hra) as Hl. rewrite Hl0 in Hl.
  exists {| p_info := info r; p_entries := es; p_chain := Journal.Chain.value blake3 (chain (progress r)) |}.
  unfold verify_segment_link in Hlink. rewrite Ha0, <- Hi in Hlink. cbn [p_info p_entries p_chain].
  split. { exists r. unfold read_segment. rewrite Ho. cbn [rbind]. by rewrite Hra. }
  split; [done|]. split; [done|]. split; [rewrite Hl; by destruct (last es)|]. split; [done|].
  destruct (archived_genesis_entries w) as [g|]; [destruct (bool_decide (g = _)) eqn:Hg; [apply bool_decide_eq_true in Hg|done]|];
    cbn [rbind] in Hlink; (split; [done|]);
    (destruct (prev_tail_hash w) as [c|]; [destruct (bool_decide (c = _)) eqn:Hc; [apply bool_decide_eq_true in Hc|done]|]);
    cbn [rbind] in Hlink; (split; [done|]);
    (destruct (expected_start w) as [x|]; [destruct (_ =? _) eqn:Hx|destruct (_ <=? _) eqn:Hx]); zb; done.
Qed.

(** Where the walk stands after [prev]. *)
Definition stands (w : Walk (A:=A)) (prev : option Part) : Prop :=
  match prev with
  | Some q => archived_genesis_entries w = Some (genesis_entries (p_info q)) /\
      prev_tail_hash w = Some (p_chain q) /\ expected_start w = Some (next_of q)
  | None => archived_genesis_entries w = None /\ prev_tail_hash w = None /\ expected_start w = None
  end.

Lemma archives_read k snap archives i w w' prev :
  stands w prev -> walk_archives (A:=A) (E:=E) crc32c blake3 m k snap i archives w = Ok w' ->
  exists ps, all_read i (map (fun x => (Archived, snd x)) archives) ps /\ joined prev ps /\
    (prev = None -> match ps with [] => True | p :: _ => starting_sequence (p_info p) <= wrapping_add k 1 end) /\
    replay w' = foldl (step_entry k) (replay w) (concat (map p_entries ps)) /\
    stands w' (match last ps with Some p => Some p | None => prev end).
Proof using buf_pos.
  revert i w prev. induction archives as [|[label file] archives IH]; intros i w prev Hst; cbn [walk_archives].
  { intros [= <-]. by exists []. }
  unfold walk_archive. destruct (walk_segment _ _ _ _ _ _ _ _ _ _) as [[st r]|] eqn:Hw; [|done]. cbn [rbind].
  destruct (walk_reads _ _ _ _ _ _ _ _ _ Hw) as (p & Hread & Hi & Hc & Hl & -> & Hg & Ht & Hx).
  match goal with |- walk_archives _ _ _ _ _ _ _ ?w1 = _ -> _ => set (w1' := w1) end. intros Hrest.
  assert (Hst1 : stands w1' (Some p)).
  { unfold stands, w1'. cbn. rewrite Hi, Hc, Hl. unfold next_of. split; [done|]. split; [done|].
    by destruct (last (p_entries p)). }
  destruct (IH _ _ _ Hst1 Hrest) as (ps & Hall & Hj & _ & Hrep & Hlast).
  exists (p :: ps). split; [by split|]. split.
  { split; [|done]. destruct prev as [q|]; [|done]. destruct Hst as (H1 & H2 & H3).
    rewrite H1 in Hg. rewrite H2 in Ht. rewrite H3 in Hx. by split_and!. }
  split; [intros ->; destruct Hst as (_ & _ & H3); by rewrite H3 in Hx|].
  split; [cbn [map concat]; by rewrite foldl_app, Hrep|].
  destruct ps as [|p2 ps]; [exact Hlast|]. rewrite last_cons_cons. by destruct (last (p2 :: ps)) eqn:Hn; [|apply last_None in Hn].
Qed.

(** The journal's files, as the walk takes them. *)
Definition tape (archives : list (nat * list Z)) (live : option (list Z)) : list (SegmentKind * list Z) :=
  map (fun x => (Archived, snd x)) archives ++ map (pair Live) (option_list live).

Lemma all_read_app i fs gs ps qs :
  all_read i fs ps -> all_read (i + length fs) gs qs -> all_read i (fs ++ gs) (ps ++ qs).
Proof using Type.
  clear. revert i ps. induction fs as [|[kd f] fs IH]; intros i [|p ps] Hf Hg; try done.
  - by rewrite Nat.add_0_r in Hg.
  - destruct Hf as [H1 H2]. split; [done|]. apply IH; [done|]. cbn [length] in Hg. by rewrite Nat.add_succ_r in Hg.
Qed.

Lemma joined_snoc prev ps p :
  joined prev ps -> match (match last ps with Some q => Some q | None => prev end) with Some q => follows q p | None => True end ->
  joined prev (ps ++ [p]).
Proof using Type.
  clear. revert prev. induction ps as [|q ps IH]; intros prev Hj Hp; [by split|]. destruct Hj as [H1 Hj].
  split; [done|]. apply IH; [done|]. destruct ps as [|q2 ps]; [done|]. rewrite last_cons_cons in Hp.
  by destruct (last (q2 :: ps)) eqn:Hn; [|apply last_None in Hn].
Qed.

(** Whatever bytes are on disk, a recovery that succeeds has invented nothing.
    Every file was read to an end its reader accepts; each one's header continues
    the file before it, on its chain, at its next sequence and with its genesis
    length; the first one's begins no later than right behind the snapshot. The
    recovered state is the starting one with the effects of exactly those entries,
    in that order, those the snapshot covers left out. *)
Theorem recovered_state_backed a snapshot archives live r :
  recover_inner (A:=A) (E:=E) crc32c blake3 m a snapshot archives live = Ok r ->
  exists ps, all_read 0 (tape archives live) ps /\ joined None ps /\
    match ps with p :: _ => starting_sequence (p_info p) <= wrapping_add (snap_seq snapshot) 1 | [] => False end /\
    recovered_as (replayed (foldl (step_entry (snap_seq snapshot)) (replay (start_walk a snapshot))
                              (concat (map p_entries ps)))) r.
Proof using buf_pos.
  unfold recover_inner, tape. destruct (walk_archives _ _ _ _ _ _ _ _) as [w|] eqn:Hw; [|done]. cbn [rbind].
  destruct (archives_read _ _ _ _ (start_walk a snapshot) w None ltac:(done) Hw) as (ps & Hall & Hj & Hfirst & Hrep & Hst).
  specialize (Hfirst eq_refl). destruct live as [file|].
  - destruct (walk_segment _ _ _ _ _ _ _ _ _ _) as [[st r1]|] eqn:Hseg; [|done]. cbn [rbind].
    destruct (anchor_reached _ _) as [[]|]; [|done]. cbn [rbind].
    destruct (Journal.Writer.open_append _ _ _ _ _ _ _) as [wr|]; [|done]. cbn [rmap_err rbind]. intros [= <-].
    destruct (walk_reads _ _ _ _ _ _ _ _ _ Hseg) as (p & Hread & _ & _ & _ & -> & Hg & Ht & Hx).
    exists (ps ++ [p]). split; [apply all_read_app; [done|]; rewrite length_map; by split|].
    split; [|split].
    + apply joined_snoc; [done|]. unfold stands in Hst. destruct (last ps) as [q|]; [|done].
      destruct Hst as (H1 & H2 & H3). rewrite H1 in Hg. rewrite H2 in Ht. rewrite H3 in Hx. by split_and!.
    + destruct ps as [|q ps]; [|done]. cbn [last] in Hst. destruct Hst as (_ & _ & H3). by rewrite H3 in Hx.
    + apply finished_as. rewrite map_app, concat_app, foldl_app, <- Hrep. cbn [map concat]. by rewrite app_nil_r.
  - destruct (length archives =? 0)%nat eqn:Hne; [done|]. destruct (anchor_reached _ _) as [[]|]; [|done]. cbn [rbind].
    destruct (Journal.Writer.create_continuing _ _ _ _ _ _) as [wr|]; [|done]. cbn [rmap_err rbind]. intros [= <-].
    exists ps. change (map (pair Live) (option_list None)) with (@nil (SegmentKind * list Z)). rewrite app_nil_r.
    split; [done|]. split; [done|]. split; [|apply finished_as; by rewrite Hrep].
    destruct archives as [|[label file] archives]; [done|]. by destruct ps.
Qed.
End backed.
End Backed.

(** ** A first boot, recovered *)
Module FirstBoot.
Import Recover Verdict Genesis Stages.Dispatch Stages.Replay Reader.Reader Reader.Recovery.
Import Codec.Facts Journal.Segment Journal.Stream Journal.Writer Segments.History.

Section first_boot.
Context {A E R Q : Type} `{Application A E R Q} `{AppEvent E}.
Context (crc32c : list Z -> Z) (blake3 : list Z -> list Z).
Hypothesis crc_range : forall bs, in_u32 (crc32c bs).
Hypothesis blake3_length : forall bs, length (blake3 bs) = 32%nat.
Context `{!AppEventLaws E}.
Hypothesis fits_one_entry : (entry_size (E:=E) <= MAX_ENTRY_SIZE)%nat.

(** What a genesis journals. *)
Definition genesis_items (genesis : list E) (ts : Z) : list (item (E:=E)) :=
  map (fun e => (ts, 0, App e)) (List.filter (fun e => negb (app_is_query e)) genesis).

Lemma append_genesis_keeps w start anchor flushed pending genesis ts count writes :
  winv crc32c w start anchor flushed pending -> Forall item_ok (genesis_items genesis ts) ->
  start + Z.of_nat (length (flushed ++ pending)) + Z.of_nat (length (genesis_items genesis ts)) <= u64_max ->
  (forall i, Forall (lt 0) (writes i)) ->
  exists w' count' flushed' pending', append_genesis crc32c w genesis ts count writes = (Ok count', w') /\
    winv crc32c w' start anchor flushed' pending' /\
    flushed' ++ pending' = flushed ++ pending ++ genesis_items genesis ts /\
    Journal.Segment.genesis (segment w') = Journal.Segment.genesis (segment w).
Proof using fits_one_entry AppEventLaws0 crc_range.
  revert w flushed pending count. induction genesis as [|e genesis IH]; intros w flushed pending count Hw Hit Hmax Hwr.
  { exists w, count, flushed, pending. cbn. by rewrite app_nil_r. }
  unfold genesis_items in *. cbn [append_genesis List.filter] in *. destruct (app_is_query e); cbn [negb] in *; [by apply IH|].
  cbn [map length] in *. apply Forall_cons_1 in Hit as [Hok Hit].
  destruct (batch_append_keeps crc32c fits_one_entry w start anchor flushed pending ts 0 (App e) Hw Hok ltac:(lia))
    as (w1 & -> & Hw1 & Hseg & _).
  destruct (_ =? 0).
  - destruct (flush_keeps crc32c crc_range fits_one_entry _ _ _ _ _ (writes (S count)) Hw1 (Hwr _)) as (w2 & -> & Hw2 & _ & _ & Hg2).
    destruct (IH w2 _ _ (S count) Hw2 Hit) as (w' & c' & fl & pe & Ha & Hw' & Heq & Hg); [|done|].
    { rewrite app_nil_r, !length_app in *. cbn [length]. lia. }
    exists w', c', fl, pe. split; [exact Ha|]. split; [done|]. split; [|congruence].
    rewrite Heq. cbn [Datatypes.app]. by rewrite <- !app_assoc.
  - destruct (IH w1 _ _ (S count) Hw1 Hit) as (w' & c' & fl & pe & Ha & Hw' & Heq & Hg); [|done|].
    { rewrite !length_app in *. cbn [length]. lia. }
    exists w', c', fl, pe. split; [exact Ha|]. split; [done|]. split; [|congruence].
    rewrite Heq. by rewrite <- !app_assoc.
Qed.

(** A first boot installs its genesis whole. Whatever an earlier attempt left
    staged, the journal that appears at the live path holds exactly the genesis
    events that are not queries, as entries 1, 2, ..., under one timestamp and the
    node's own key, and its header records their number; and recovering it, the
    path every later boot takes, applies each of them once to the empty application
    and leaves the writer at the entry behind them. *)
Theorem first_boot d anchor fresh genesis ts prealloc header_writes writes m a0 :
  length (default fresh anchor) = 32%nat -> Forall item_ok (genesis_items genesis ts) ->
  1 + Z.of_nat (length (genesis_items genesis ts)) <= u64_max ->
  Forall (lt 0) header_writes -> (forall i, Forall (lt 0) (writes i)) -> machine_ok m ->
  let items := genesis_items genesis ts in
  let count := Z.of_nat (length items) in
  exists file, write_genesis_journal crc32c d anchor fresh genesis ts prealloc header_writes writes =
      (Ok tt, {| staging := None; live_path := Some file |}) /\
    (exists pad, file = header crc32c 1 (default fresh anchor) (Some count) ++ stream crc32c 1 items ++ replicate pad 0) /\
    (file_small file -> exists r, recover crc32c blake3 m a0 [] (Some file) = Ok r /\
       recovered_as (lived a0 items) r /\
       Journal.Encoder.next_sequence (encoder (Recover.writer r)) = count + 1 /\
       Journal.Segment.genesis (segment (Recover.writer r)) = Some count).
Proof using fits_one_entry AppEventLaws0 crc_range blake3_length.
  intros Ha Hit Hmax Hhw Hwr Hm items count. set (anc := default fresh anchor) in *.
  assert (Hcount : Z.of_nat (length (List.filter (fun e => negb (app_is_query e)) genesis)) = count)
    by (unfold count, items, genesis_items; by rewrite length_map).
  assert (Hh : header_ok MAX_SECTOR_SIZE 1 anc (Some count))
    by (split; [by right|]; split; [widths; lia|]; split; [done|]; unfold count, items; widths; lia).
  destruct (create_keeps crc32c fits_one_entry 1 anc (Some count) prealloc header_writes Hh ltac:(widths; lia) Hhw)
    as (w & Hc & Hw & Hg).
  destruct (append_genesis_keeps w 1 anc [] [] genesis ts 0 writes Hw Hit ltac:(cbn [Datatypes.app length]; lia) Hwr)
    as (w1 & c1 & fl & pe & Hap & Hw1 & Heq & Hg1).
  destruct (flush_keeps crc32c crc_range fits_one_entry _ _ _ _ _ (writes (S c1)) Hw1 (Hwr _)) as (w2 & Hf & Hw2 & _ & _ & Hg2).
  rewrite Heq in Hw2. cbn [Datatypes.app] in Hw2. fold items in Hw2.
  destruct (wi_file _ _ _ _ _ _ Hw2) as [pad Hfile]. rewrite Hg2, Hg1, Hg in Hfile.
  exists (contents (segment w2)). split; [unfold write_genesis_journal; cbn zeta; fold anc; by rewrite Hcount, Hc, Hap, Hf|].
  split; [by exists pad|]. intros Hsmall.
  set (s := {| g_start := 1; g_anchor := anc; g_items := items |}).
  set (dk := {| sealed := []; current := Some (s, replicate pad 0) |}).
  assert (Hsf : seg_file crc32c (Some count) s ++ replicate pad 0 = contents (segment w2))
    by (unfold seg_file; by rewrite <- app_assoc, Hfile).
  assert (Hwk : well_kept crc32c blake3 (Some count) dk 1 anc (seg_next s) (seg_tail crc32c blake3 s)).
  { split; [by repeat split|]. split; [constructor|]. split.
    { split; [exact Hh|]. split; [cbn; lia|]. split; [exact Hmax|exact Hit]. }
    split; [by apply stops_zeros|]. split; [by apply harmless_zeros|]. by rewrite Hsf. }
  pose proof (recovered_or_refused crc32c blake3 crc_range blake3_length fits_one_entry m None a0 Hm ltac:(cbn; widths; lia)
    (Some count) dk 1 anc _ _ Hwk ltac:(lia)) as (r & Hr & Has & Hwr' & Hgr).
  exists r. unfold recover, recover_disk in *. cbn [dk sealed current map fmap option_fmap option_map fst snd] in Hr.
  rewrite Hsf in Hr. split; [exact Hr|]. split; [|split; [|exact Hgr]].
  - unfold resumed in Has. cbn in Has. unfold anchored in Has. cbn in Has. rewrite app_nil_r in Has. exact Has.
  - rewrite (wi_next _ _ _ _ _ _ Hwr'), app_nil_r. cbn [s g_start g_items]. unfold count. lia.
Qed.
End first_boot.
End FirstBoot.

(** ** A concrete restart *)
Module Sample.
Import Recover Verdict Backed Genesis FirstBoot Stages.Dispatch Segments.History CatchUp.Sample Scanner.Sample Codec.Sample.
Import Reader.Recovery.

(** An application that keeps what it was told. *)
#[export] Instance keeper : Application (list (bool + Z)) bool unit unit :=
  {| tick := fun a t => (inr t :: a, []); Stages.Dispatch.apply := fun a e _ => (inl e :: a, []);
     query := fun _ _ _ => None; app_is_query := fun _ => false |}.

Definition machine : Machine :=
  {| buf := 64; splits := fun _ => [10%nat; 3%nat]; prealloc := 100; header_sizes := []; sizes := [] |}.

(** Two entries archived, one live, and three bytes of a torn write. *)
Definition disk : Disk (E:=bool) :=
  {| sealed := [(1%nat, (seg1, 4%nat))]; current := Some (seg2, [7; 7; 7]) |}.
Definition told : list (Journal.Stream.item (E:=bool)) := concat (map g_items (disk_segs disk)).

Definition after_one : WarmApp (list (bool + Z)) * Lineage.Policy.Lineage := lived (E:=bool) [] (take 1 told).
Definition snap1 : Snapshot.Format.SnapshotHeader :=
  {| Snapshot.Format.app_version := 1; Snapshot.Format.sequence := 1;
     Snapshot.Format.chain_hash := default [] (CatchUp.Verdict.chain_of sum32 digest (disk_segs disk) 1);
     Snapshot.Format.lineage := snd after_one; Snapshot.Format.genesis_entries := Some 0;
     Snapshot.Format.tick_watermark := Some (Stages.Dispatch.tick_watermark (fst after_one)); Snapshot.Format.len := 0 |}.

Lemma disk_kept :
  well_kept (E:=bool) sum32 digest (Some 0) disk 1 (replicate 32 9) 4 (seg_tail sum32 digest seg2).
Proof.
  pose proof files_ok as Hok. apply Forall_cons_1 in Hok as [H1 Hok]. apply Forall_cons_1 in Hok as [H2 _].
  split; [apply files_linked|]. split.
  - constructor; [|constructor]. split; [exact H1|]. split; [reflexivity|]. split; [apply harmless_zeros|].
    vm_compute. discriminate.
  - split; [exact H2|]. split; [reflexivity|]. split; [|vm_compute; discriminate].
    intros i v Hi _. split; [done|]. apply lookup_lt_Some in Hi. cbn in Hi. unfold Reader.Reader.MAX_UNSYNCED_BYTES. lia.
Qed.

Lemma machine_fine : machine_ok machine.
Proof. split; [cbn; lia|]. split; [constructor|exact I]. Qed.

(** A snapshot that claims another chain is refused. *)
Definition forged : Snapshot.Format.SnapshotHeader :=
  {| Snapshot.Format.app_version := 1; Snapshot.Format.sequence := 2; Snapshot.Format.chain_hash := replicate 32 1;
     Snapshot.Format.lineage := Lineage.Policy.GENESIS; Snapshot.Format.genesis_entries := Some 0;
     Snapshot.Format.tick_watermark := Some 0; Snapshot.Format.len := 0 |}.

Lemma recovery_verdict_witness :
  recover_disk (A:=list (bool + Z)) sum32 digest machine [] (Some forged) (Some 0) disk =
    Err (Recover.SnapshotChainMismatch 2 (replicate 32 1) (seg_tail sum32 digest seg1)).
Proof.
  pose proof (recovery_verdict sum32 digest sum32_range (fun _ => eq_refl) Reader.Sample.sample_fits machine (Some forged) []
    (Some 0) disk 1 (replicate 32 9) 4 (seg_tail sum32 digest seg2) machine_fine ltac:(cbn; widths; lia) disk_kept ltac:(lia)) as Hv.
  set (rf := refusal _ _ _ _) in Hv. vm_compute in rf. exact Hv.
Defined.

Lemma restart_exact_witness :
  exists r, recover_disk sum32 digest machine (Stages.Dispatch.app (fst after_one)) (Some snap1) (Some 0) disk = Ok r /\
    Recover.app r = Stages.Dispatch.app (fst (lived (E:=bool) [] told)).
Proof.
  destruct (restart_exact sum32 digest sum32_range (fun _ => eq_refl) Reader.Sample.sample_fits machine []
    (Stages.Dispatch.app (fst after_one)) (Some snap1) told (Some 0) disk 1 (replicate 32 9) 4 (seg_tail sum32 digest seg2)
    machine_fine disk_kept ltac:(lia) ltac:(cbn; lia) eq_refl) as (r & Hr & Has & _).
  { split; [cbn; lia|]. split; [cbn; lia|]. split; [reflexivity|].
    exists (Stages.Dispatch.tick_watermark (fst after_one)). split; reflexivity. }
  exists r. split; [exact Hr|apply Has].
Defined.

Definition first_file : list Z :=
  default [] (live_path (snd (write_genesis_journal (A:=list (bool + Z)) sum32 {| staging := Some [1]; live_path := None |} None (replicate 32 9)
    [true; false] 500 10 [] (fun _ => [5%nat])))).

Lemma first_items_ok : Forall Journal.Stream.item_ok (genesis_items (A:=list (bool + Z)) [true; false] 500).
Proof.
  repeat apply Forall_cons_2; [..|apply Forall_nil_2]; (split; [|split; [|reflexivity]]); widths; lia.
Qed.

Lemma first_boot_witness :
  exists r, recover (A:=list (bool + Z)) sum32 digest machine [] [] (Some first_file) = Ok r /\
    Recover.app r = [inl false; inl true; inr 500].
Proof.
  destruct (first_boot (A:=list (bool + Z)) sum32 digest sum32_range (fun _ => eq_refl) Reader.Sample.sample_fits
    {| staging := Some [1]; live_path := None |} None (replicate 32 9) [true; false] 500 10 [] (fun _ => [5%nat]) machine []
    eq_refl first_items_ok ltac:(vm_compute; discriminate) ltac:(constructor)
    ltac:(intros i; repeat constructor) machine_fine) as (file & Hw & _ & Hrec).
  assert (Hff : first_file = file) by (unfold first_file; by rewrite Hw).
  destruct Hrec as (r & Hr & Has & _); [rewrite <- Hff; vm_compute; discriminate|].
  exists r. rewrite Hff. split; [exact Hr|]. destruct Has as [-> _]. reflexivity.
Defined.

Lemma recovered_state_backed_witness :
  exists r ps, recover_disk (A:=list (bool + Z)) sum32 digest machine [] None (Some 0) disk = Ok r /\
    joined (E:=bool) None ps /\ length ps = 2%nat.
Proof.
  assert (Hok : match recover_disk (A:=list (bool + Z)) sum32 digest machine [] None (Some 0) disk with
    Ok _ => true | Err _ => false end = true) by (vm_compute; reflexivity).
  destruct (recover_disk (A:=list (bool + Z)) sum32 digest machine [] None (Some 0) disk) as [r|e] eqn:Hr; [|discriminate].
  pose proof Hr as Hin. unfold recover_disk in Hin.
  destruct (recovered_state_backed sum32 digest machine ltac:(cbn; lia) [] None _ _ r Hin) as (ps & Hall & Hj & _). clear Hin.
  exists r, ps. split; [done|]. split; [exact Hj|].
  destruct ps as [|p1 [|p2 [|p3 ps]]]; cbn in Hall; tauto.
Defined.
End Sample.
