(* ===== verification/Disk.v ===== *)
(** * The journal's disk thread

    The journal stage runs on two threads. The sequencing thread encodes entries
    into the slots of a write ring ([journal/src/write_ring.rs]); the disk thread
    ([transport-core/src/journal_disk.rs]) writes them, syncs, publishes the
    cursors that mean "durable" and only then frees the slots. This file is both
    sides of that hand-off and what rests on it.

    [WriteRing] is the ring: descriptors and byte chunks indexed by [seq & mask],
    the producer's cursor, the consumer's progress. [Control] is the block both
    threads share: stop flag, poison, rotation rendezvous. [Thread] is the disk
    thread, one shared access or device operation per step, and [act] is whatever
    the sequencing thread may do between two of them. A counter of the other
    thread may be seen late; a flag read with acquire brings with it what was
    stored before its release. [Kept] is the invariant; [Durable] says what it
    comes to: nothing is announced before it is on disk. *)

From S2P Require Import Prelude Cursors Codec Journal Stages Rings Disruptor Reader.

Module WriteRing.
Import Rings.Memory.

Definition CHUNK_SIZE : Z := 640 * 1024.
Definition DEFAULT_CAPACITY : Z := 64.

Record JournalWriteMeta := Meta {
  len : Z; journal_seq : Z; chain_hash : list Z; ring_progress : Z
}.

Definition default_meta : JournalWriteMeta := Meta 0 0 (replicate 32 0) 0.

(** What the two ends share: the producer's cursor, the consumer's progress, the
    descriptors and [SharedChunks]. *)
Record Shared := {
  cursor : Z; progress : Z; slots : list JournalWriteMeta; chunks : list (list Z)
}.

Record JournalWriteProducer := { cached_gate_min : Z; claimed : option Z }.

(** [dep_seen]: the newest cursor value this end has seen. *)
Record JournalWriteConsumer := {
  next_read : Z; dep_seen : Z; staged : list Z; staged_len : list Z
}.

Section ring.
Variable capacity : Z.
Definition idx (seq : Z) : nat := slot_index capacity seq.

Definition build_journal_write_ring : Shared * JournalWriteProducer * JournalWriteConsumer :=
  ({| cursor := 0; progress := 0; slots := replicate (Z.to_nat capacity) default_meta;
      chunks := replicate (Z.to_nat capacity) (replicate (Z.to_nat CHUNK_SIZE) 0) |},
   {| cached_gate_min := 0; claimed := None |},
   {| next_read := 0; dep_seen := 0; staged := []; staged_len := [] |}).

(** [try_claim], the consumer's progress being loaded as [seen] when the cached
    value leaves no room. *)
Definition try_claim (seen : Z) (sh : Shared) (p : JournalWriteProducer)
    : JournalWriteProducer * result Z Ring.full :=
  let seq := cursor sh in
  if capacity <=? seq - cached_gate_min p then
    if capacity <=? seq - seen then ({| cached_gate_min := seen; claimed := claimed p |}, Err Ring.Full)
    else ({| cached_gate_min := seen; claimed := Some seq |}, Ok seq)
  else ({| cached_gate_min := cached_gate_min p; claimed := Some seq |}, Ok seq).

(** [ClaimedChunk::bytes_mut]: the chunk after the encoder wrote to it. *)
Definition fill (bytes : list Z) (seq : Z) (sh : Shared) : Shared :=
  {| cursor := cursor sh; progress := progress sh; slots := slots sh;
     chunks := <[idx seq := bytes]> (chunks sh) |}.

(** [ClaimedChunk::bytes]. *)
Definition chunk_bytes (seq : Z) (sh : Shared) : list Z := chunks sh !!! idx seq.

(** [publish]: the descriptor, then the cursor past it. *)
Definition publish (m : JournalWriteMeta) (seq : Z) (sh : Shared) (p : JournalWriteProducer)
    : Shared * JournalWriteProducer :=
  ({| cursor := seq + 1; progress := progress sh; slots := <[idx seq := m]> (slots sh);
      chunks := chunks sh |},
   {| cached_gate_min := cached_gate_min p; claimed := None |}).

(** [drained] and [in_flight], on a progress load of [seen]. *)
Definition drained (seen : Z) (sh : Shared) : bool := cursor sh <=? seen.
Definition in_flight (seen : Z) (sh : Shared) : Z := sat_sub (cursor sh) seen.

(** One turn of [stage_ready]: [read_batch] of one entry, on a cursor load of
    [seen]. *)
Definition stage_one (seen : Z) (sh : Shared) (c : JournalWriteConsumer)
    : JournalWriteConsumer * option JournalWriteMeta :=
  if sat_sub seen (next_read c) =? 0
  then ({| next_read := next_read c; dep_seen := seen; staged := staged c; staged_len := staged_len c |}, None)
  else
    let m := default default_meta (slots sh !! idx (next_read c)) in
    ({| next_read := next_read c + 1; dep_seen := seen;
        staged := staged c ++ [next_read c]; staged_len := staged_len c ++ [len m] |}, Some m).

(** The [i]th staged batch's bytes. *)
Definition staged_bytes (i : nat) (sh : Shared) (c : JournalWriteConsumer) : list Z :=
  take (Z.to_nat (staged_len c !!! i)) (chunk_bytes (staged c !!! i) sh).

Definition staged_total_bytes (c : JournalWriteConsumer) : Z := foldr Z.add 0 (staged_len c).

Definition commit (sh : Shared) (c : JournalWriteConsumer) : Shared * JournalWriteConsumer :=
  match staged c with
  | [] => (sh, c)
  | _ => ({| cursor := cursor sh; progress := next_read c; slots := slots sh; chunks := chunks sh |},
          {| next_read := next_read c; dep_seen := dep_seen c; staged := []; staged_len := [] |})
  end.
End ring.
End WriteRing.

(** ** The control block *)
Module Control.
Import Codec.Codec Journal.Segment.

Record RotateRequest := {
  prepared : option PreparedSegment; starting_sequence : Z; anchor_hash : list Z
}.

(** The archive's path is not carried: a rotation's outcome is success or its error. *)
Inductive RotateSlot :=
| Idle
| Requested (r : RotateRequest)
| Done (res : result unit JournalError).

(** [stop_view]: how far the write ring's cursor was when [stop] was stored, which a
    load that sees the store brings with it. *)
Record DiskControl := {
  stop : bool; stop_view : Z; poisoned : bool; error : option JournalError; rotate : RotateSlot
}.

Definition new : DiskControl :=
  {| stop := false; stop_view := 0; poisoned := false; error := None; rotate := Idle |}.

Definition set_stop (view : Z) (c : DiskControl) : DiskControl :=
  {| stop := true; stop_view := view; poisoned := poisoned c; error := error c; rotate := rotate c |}.
Definition set_error (e : option JournalError) (c : DiskControl) : DiskControl :=
  {| stop := stop c; stop_view := stop_view c; poisoned := poisoned c; error := e; rotate := rotate c |}.
Definition set_poisoned (c : DiskControl) : DiskControl :=
  {| stop := stop c; stop_view := stop_view c; poisoned := true; error := error c; rotate := rotate c |}.
Definition set_rotate (r : RotateSlot) (c : DiskControl) : DiskControl :=
  {| stop := stop c; stop_view := stop_view c; poisoned := poisoned c; error := error c; rotate := r |}.

Definition take_error (c : DiskControl) : option JournalError * DiskControl :=
  (error c, set_error None c).

(** [None]: the assertion that no rotation is outstanding fails. *)
Definition request_rotation (r : RotateRequest) (c : DiskControl) : option DiskControl :=
  match rotate c with Idle => Some (set_rotate (Requested r) c) | _ => None end.

Definition take_rotation_result (c : DiskControl) : option (result unit JournalError) * DiskControl :=
  match rotate c with Done res => (Some res, set_rotate Idle c) | _ => (None, c) end.

Definition take_rotation_request (c : DiskControl) : option RotateRequest * DiskControl :=
  match rotate c with Requested r => (Some r, set_rotate Idle c) | _ => (None, c) end.

Definition finish_rotation (res : result unit JournalError) (c : DiskControl) : DiskControl :=
  set_rotate (Done res) c.
End Control.

(** ** The disk thread, and what happens beside it *)
Module Thread.
Import Codec.Codec WriteRing Control Journal.Io Journal.Segment Stages.

Definition MAX_IOV : nat := 64.

(** [DurabilityCursors]; a handle that is not wired is [None]. *)
Record DurabilityCursors := {
  input_progress : Z;
  fsync_state : option (Replay.FsyncState (list Z));
  durable_wire_seq : option Z;
  advertised_tip : option Z
}.

Definition fsync_of (m : JournalWriteMeta) : Replay.FsyncState (list Z) :=
  {| Replay.f_journal_seq := journal_seq m; Replay.f_chain_hash := chain_hash m;
     Replay.f_input_ring_seq := ring_progress m |}.

(** The stores of [DurabilityCursors::publish], in order. *)
Definition publish_store (k : nat) (m : JournalWriteMeta) (c : DurabilityCursors) : DurabilityCursors :=
  match k with
  | 0%nat => {| input_progress := ring_progress m; fsync_state := fsync_state c;
                durable_wire_seq := durable_wire_seq c; advertised_tip := advertised_tip c |}
  | 1%nat => {| input_progress := input_progress c;
                fsync_state := (fun _ => fsync_of m) <$> fsync_state c;
                durable_wire_seq := durable_wire_seq c; advertised_tip := advertised_tip c |}
  | 2%nat => {| input_progress := input_progress c; fsync_state := fsync_state c;
                durable_wire_seq := (fun _ => journal_seq m) <$> durable_wire_seq c;
                advertised_tip := advertised_tip c |}
  | _ => {| input_progress := input_progress c; fsync_state := fsync_state c;
            durable_wire_seq := durable_wire_seq c;
            advertised_tip := (fun t => Slots.tip_advance t (journal_seq m)) <$> advertised_tip c |}
  end.

(** Where the thread stands in [run_loop]. [stopping] is the stop flag as sampled at
    the top of this turn. *)
Inductive Pc :=
| Top
| Staging (stopping : bool) (last : option JournalWriteMeta)
| Writing (stopping : bool) (meta : JournalWriteMeta) (i : nat) (iov : list (list Z))
| Syncing (meta : JournalWriteMeta)
| Publishing (meta : JournalWriteMeta) (k : nat)
| Committing
| Asking (stopping : bool)
| Rotating (r : RotateRequest)
| Answering (res : result unit JournalError)
| Failing (e : JournalError)
| Poisoning
| Exited.

(** Both threads and the device. [synced] is the live file's length as of the last
    sync; [archives] the sealed segments. [batches] and [boundaries] only record
    what happened: each batch published, and at each rotation the new segment's
    header and how many batches had been written. *)
Record Sys := {
  ring : Shared; producer : JournalWriteProducer; consumer : JournalWriteConsumer;
  control : DiskControl; cursors : DurabilityCursors; pc : Pc;
  segment : SegmentFile; archives : list (list Z); synced : nat;
  batches : list (JournalWriteMeta * list Z);
  boundaries : list (Z * list Z * nat)
}.

Definition set_pc (p : Pc) (s : Sys) : Sys :=
  {| ring := ring s; producer := producer s; consumer := consumer s; control := control s;
     cursors := cursors s; pc := p; segment := segment s; archives := archives s;
     synced := synced s; batches := batches s; boundaries := boundaries s |}.
Definition set_control (c : DiskControl) (s : Sys) : Sys :=
  {| ring := ring s; producer := producer s; consumer := consumer s; control := c;
     cursors := cursors s; pc := pc s; segment := segment s; archives := archives s;
     synced := synced s; batches := batches s; boundaries := boundaries s |}.
Definition set_consumer (c : JournalWriteConsumer) (s : Sys) : Sys :=
  {| ring := ring s; producer := producer s; consumer := c; control := control s;
     cursors := cursors s; pc := pc s; segment := segment s; archives := archives s;
     synced := synced s; batches := batches s; boundaries := boundaries s |}.
Definition set_ring (r : Shared) (s : Sys) : Sys :=
  {| ring := r; producer := producer s; consumer := consumer s; control := control s;
     cursors := cursors s; pc := pc s; segment := segment s; archives := archives s;
     synced := synced s; batches := batches s; boundaries := boundaries s |}.
Definition set_producer (p : JournalWriteProducer) (s : Sys) : Sys :=
  {| ring := ring s; producer := p; consumer := consumer s; control := control s;
     cursors := cursors s; pc := pc s; segment := segment s; archives := archives s;
     synced := synced s; batches := batches s; boundaries := boundaries s |}.
Definition set_cursors (c : DurabilityCursors) (s : Sys) : Sys :=
  {| ring := ring s; producer := producer s; consumer := consumer s; control := control s;
     cursors := c; pc := pc s; segment := segment s; archives := archives s;
     synced := synced s; batches := batches s; boundaries := boundaries s |}.
Definition set_segment (f : SegmentFile) (s : Sys) : Sys :=
  {| ring := ring s; producer := producer s; consumer := consumer s; control := control s;
     cursors := cursors s; pc := pc s; segment := f; archives := archives s;
     synced := synced s; batches := batches s; boundaries := boundaries s |}.
Definition set_synced (n : nat) (s : Sys) : Sys :=
  {| ring := ring s; producer := producer s; consumer := consumer s; control := control s;
     cursors := cursors s; pc := pc s; segment := segment s; archives := archives s;
     synced := n; batches := batches s; boundaries := boundaries s |}.
Definition set_files (f : SegmentFile) (sealed : list Z) (b : Z * list Z * nat) (s : Sys) : Sys :=
  {| ring := ring s; producer := producer s; consumer := consumer s; control := control s;
     cursors := cursors s; pc := pc s; segment := f; archives := archives s ++ [sealed];
     synced := write_pos f; batches := batches s; boundaries := boundaries s ++ [b] |}.
Definition record_batch (b : JournalWriteMeta * list Z) (s : Sys) : Sys :=
  {| ring := ring s; producer := producer s; consumer := consumer s; control := control s;
     cursors := cursors s; pc := pc s; segment := segment s; archives := archives s;
     synced := synced s; batches := batches s ++ [b]; boundaries := boundaries s |}.

(** What a step of the disk thread meets: the value a load returns, and how the
    device answers. A write that fails leaves a prefix of its bytes behind. *)
Inductive Answer :=
| SeesStop (b : bool)
| SeesCursor (v : Z)
| Wrote (sizes : list nat)
| WriteFailed (n : nat)
| SyncOk
| SyncFailed
| RotateFailed
| Proceeds.

Section thread.
Context (crc32c : list Z -> Z) (capacity : Z).

Definition write_vectored_at (bufs : list (list Z)) (o : Answer) (s : Sys)
    : option (Sys * result unit JournalError) :=
  match o with
  | Wrote sizes =>
      match write_vectored (segment s) bufs sizes with
      | Ok f => Some (set_segment f s, Ok tt)
      | Err e => Some (s, Err e)
      end
  | WriteFailed n =>
      let f := segment s in
      let torn := write_at (contents f) (write_pos f) (take n (concat bufs)) in
      Some (set_segment {| contents := torn; write_pos := write_pos f; allocated_end := allocated_end f;
                           prealloc := prealloc f; pre_written := pre_written f; genesis := genesis f |} s, Err Io)
  | _ => None
  end.

(** The loop of [drain_and_sync] over the staged batches: this one's bytes join the
    vector, which is written when it is full or the batches are at their end. *)
Definition write_next (b : bool) (m : JournalWriteMeta) (i : nat) (iov : list (list Z)) (o : Answer) (s : Sys)
    : option Sys :=
  if (i <? length (staged (consumer s)))%nat then
    let bytes := staged_bytes capacity i (ring s) (consumer s) in
    match bytes with
    | [] => Some (set_pc (Writing b m (S i) iov) s)
    | _ =>
        let iov := iov ++ [bytes] in
        if (length iov =? MAX_IOV)%nat then
          '(s, r) ← write_vectored_at iov o s;
          Some (set_pc match r with Ok _ => Writing b m (S i) [] | Err e => Failing e end s)
        else Some (set_pc (Writing b m (S i) iov) s)
    end
  else
    match iov with
    | [] => Some (set_pc (Syncing m) s)
    | _ => '(s, r) ← write_vectored_at iov o s;
           Some (set_pc match r with Ok _ => Syncing m | Err e => Failing e end s)
    end.

(** [stage_ready], one entry at a time, then [drain_and_sync]'s first tests. *)
Definition stage_next (b : bool) (last : option JournalWriteMeta) (seen : Z) (s : Sys) : option Sys :=
  if negb ((dep_seen (consumer s) <=? seen) && (seen <=? cursor (ring s))) then None
  else
    let '(c, got) := stage_one capacity seen (ring s) (consumer s) in
    let s := set_consumer c s in
    match got, last with
    | Some m, _ => Some (set_pc (Staging b (Some m)) s)
    | None, None => Some (set_pc (Asking b) s)
    | None, Some m => Some (set_pc (if 0 <? staged_total_bytes c then Writing b m 0 [] else Publishing m 0) s)
    end.

(** [rotate]: the segment swap, its outcome to be handed back. A failed install
    leaves the live segment as it was. *)
Definition rotate_at (r : RotateRequest) (o : Answer) (s : Sys) : option Sys :=
  match o with
  | Wrote sizes =>
      match Journal.Segment.rotate crc32c (segment s) (prepared r) (starting_sequence r) (anchor_hash r) sizes with
      | Ok (sealed, f) =>
          Some (set_pc (Answering (Ok tt))
                  (set_files f sealed (starting_sequence r, anchor_hash r, Z.to_nat (next_read (consumer s))) s))
      | Err e => Some (set_pc (Answering (Err e)) s)
      end
  | RotateFailed => Some (set_pc (Answering (Err Io)) s)
  | _ => None
  end.

(** [run_loop], one step: [drain_and_sync], the rotation request, the stop flag. *)
Definition disk_step (o : Answer) (s : Sys) : option Sys :=
  match pc s, o with
  | Top, SeesStop b =>
      if b && negb (stop (control s)) then None
      else
        let c := consumer s in
        let seen := if b then Z.max (dep_seen c) (stop_view (control s)) else dep_seen c in
        Some (set_pc (Staging b None)
                (set_consumer {| next_read := next_read c; dep_seen := seen; staged := staged c;
                                 staged_len := staged_len c |} s))
  | Staging b last, SeesCursor v => stage_next b last v s
  | Writing b m i iov, o => write_next b m i iov o s
  | Syncing m, SyncOk => Some (set_pc (Publishing m 0) (set_synced (write_pos (segment s)) s))
  | Syncing m, SyncFailed => Some (set_pc (Failing Io) s)
  | Publishing m k, Proceeds =>
      Some (set_pc (if (k <? 3)%nat then Publishing m (S k) else Committing)
              (set_cursors (publish_store k m (cursors s)) s))
  | Committing, Proceeds =>
      let '(r, c) := commit (ring s) (consumer s) in
      Some (set_pc Top (set_consumer c (set_ring r s)))
  | Asking b, Proceeds =>
      match take_rotation_request (control s) with
      | (Some r, c) => Some (set_pc (Rotating r) (set_control c s))
      | (None, _) => Some (set_pc (if b then Exited else Top) s)
      end
  | Rotating r, o => rotate_at r o s
  | Answering res, Proceeds => Some (set_pc Top (set_control (finish_rotation res (control s)) s))
  | Failing e, Proceeds => Some (set_pc Poisoning (set_control (set_error (Some e) (control s)) s))
  | Poisoning, Proceeds => Some (set_pc Exited (set_control (set_poisoned (control s)) s))
  | _, _ => None
  end.

(** [PoisonOnUnwind]: the thread panics wherever it stands, and the guard latches
    the poison unless a cause is latched already. *)
Definition unwind (s : Sys) : option Sys :=
  match pc s with
  | Exited => None
  | _ => Some (set_pc (if poisoned (control s) then Exited else Failing Io) s)
  end.

(** The sequencing thread's side of the hand-off. *)
Inductive SeqAct :=
| TryClaim (seen : Z)
| Fill (bytes : list Z)
| Publish (m : JournalWriteMeta)
| AskDrained (seen : Z) (b : bool)
| AskPoisoned (b : bool)
| TakeError (e : option JournalError)
| RequestRotation (r : RotateRequest)
| TakeRotationResult (res : option (result unit JournalError))
| Stop.

(** [None] where an assertion of the code fails, or where the load could not have
    returned what the action says. The thread is joined once, so [stop] is stored
    once. *)
Definition seq_step (a : SeqAct) (s : Sys) : option Sys :=
  match a with
  | TryClaim seen =>
      match claimed (producer s) with
      | Some _ => None
      | None => if (0 <=? seen) && (seen <=? progress (ring s))
                then Some (set_producer (try_claim capacity seen (ring s) (producer s)).1 s) else None
      end
  | Fill bytes =>
      match claimed (producer s) with
      | None => None
      | Some seq => if Z.of_nat (length bytes) =? CHUNK_SIZE
                    then Some (set_ring (fill capacity bytes seq (ring s)) s) else None
      end
  | Publish m =>
      match claimed (producer s) with
      | None => None
      | Some seq =>
          if negb ((0 <=? len m) && (len m <=? CHUNK_SIZE) && (seq <? u64_max)) then None
          else
            let bytes := take (Z.to_nat (len m)) (chunk_bytes capacity seq (ring s)) in
            let '(r, p) := publish capacity m seq (ring s) (producer s) in
            Some (record_batch (m, bytes) (set_producer p (set_ring r s)))
      end
  | AskDrained seen b =>
      if (seen <=? progress (ring s)) && Bool.eqb b (drained seen (ring s)) then Some s else None
  | AskPoisoned b => if b && negb (poisoned (control s)) then None else Some s
  | TakeError e =>
      let '(e', c) := take_error (control s) in
      if decide (e = e') then Some (set_control c s) else None
  | RequestRotation r => (fun c => set_control c s) <$> request_rotation r (control s)
  | TakeRotationResult res =>
      let '(res', c) := take_rotation_result (control s) in
      if decide (res = res') then Some (set_control c s) else None
  | Stop => if stop (control s) then None else Some (set_control (set_stop (cursor (ring s)) (control s)) s)
  end.

Inductive Act := Disk (o : Answer) | Unwind | Seq (a : SeqAct).

Definition exec (a : Act) (s : Sys) : option Sys :=
  match a with
  | Disk o => disk_step o s
  | Unwind => unwind s
  | Seq a => seq_step a s
  end.

Fixpoint run (acts : list Act) (s : Sys) : option Sys :=
  match acts with
  | [] => Some s
  | a :: acts => exec a s ≫= run acts
  end.

(** The thread as [JournalDisk::new] starts it, on the file half of a writer. *)
Definition start (f : SegmentFile) (sealed : list (list Z)) (c : DurabilityCursors) : Sys :=
  let '(r, p, k) := build_journal_write_ring capacity in
  {| ring := r; producer := p; consumer := k; control := new; cursors := c; pc := Top;
     segment := f; archives := sealed; synced := write_pos f; batches := []; boundaries := [] |}.
End thread.
End Thread.

(** ** What both threads keep true *)
Module Kept.
Import Codec.Codec Codec.Facts WriteRing Control Thread Journal.Io Journal.Segment Journal.Stream.

(** The bytes of batches [a] to [b]. *)
Definition span (a b : nat) (bts : list (JournalWriteMeta * list Z)) : list Z :=
  concat (map snd (take (b - a) (drop a bts))).

Lemma span_self a bts : span a a bts = [].
Proof. unfold span. by rewrite Nat.sub_diag. Qed.

Lemma span_split a b c bts : (a <= b <= c)%nat -> span a c bts = span a b bts ++ span b c bts.
Proof.
  intros [Hab Hbc]. unfold span. rewrite <- concat_app, <- map_app.
  replace (drop b bts) with (drop (b - a) (drop a bts)) by (rewrite drop_drop; f_equal; lia).
  rewrite take_take_drop. do 3 f_equal. lia.
Qed.

Lemma span_app a b bts more : (b <= length bts)%nat -> span a b (bts ++ more) = span a b bts.
Proof.
  intros Hb. unfold span. destruct (decide (a <= b)%nat) as [Hab|]; [|by replace (b - a)%nat with 0%nat by lia].
  rewrite drop_app_le, take_app_le by (rewrite ?length_drop; lia). done.
Qed.

Lemma span_one i bts m bs : bts !! i = Some (m, bs) -> span i (S i) bts = bs.
Proof.
  intros Hi. unfold span. rewrite (drop_S _ _ _ Hi). replace (S i - i)%nat with 1%nat by lia.
  cbn. by rewrite app_nil_r.
Qed.

(** *** The segments on disk, from what was handed over *)

Definition Seg : Type := Z * list Z * list Z.

(** The sealed segments and the live one, when [n] batches are written: each
    boundary closes the segment before it. *)
Fixpoint layout (start : Z) (anchor data : list Z) (from : nat) (bs : list (Z * list Z * nat)) (n : nat)
    (bts : list (JournalWriteMeta * list Z)) : list Seg * Seg :=
  match bs with
  | [] => ([], (start, anchor, data ++ span from n bts))
  | (start', anchor', c) :: bs =>
      let '(closed, live) := layout start' anchor' [] c bs n bts in
      ((start, anchor, data ++ span from c bts) :: closed, live)
  end.

(** The boundaries come in order, the last at most at [n]. *)
Fixpoint ordered (from : nat) (bs : list (Z * list Z * nat)) (n : nat) : Prop :=
  match bs with
  | [] => (from <= n)%nat
  | (_, _, c) :: bs => (from <= c)%nat /\ ordered c bs n
  end.

Lemma ordered_le from bs n : ordered from bs n -> (from <= n)%nat.
Proof. revert from. induction bs as [|[[? ?] c] bs IH]; intros from; cbn; [done|]. intros [? ?%IH]. lia. Qed.

Lemma ordered_mono from bs n n' : (n <= n')%nat -> ordered from bs n -> ordered from bs n'.
Proof.
  intros Hn. revert from. induction bs as [|[[? ?] c] bs IH]; intros from; cbn; [lia|].
  intros [? ?]. auto.
Qed.

Lemma ordered_snoc from bs n st an : ordered from bs n -> ordered from (bs ++ [(st, an, n)]) n.
Proof. revert from. induction bs as [|[[? ?] c] bs IH]; intros from; cbn; [lia|]. intros [? ?]. auto. Qed.

Definition grown (live : Seg) (more : list Z) : Seg := (live.1, live.2 ++ more).

Lemma layout_grow st an data from bs n n' bts :
  ordered from bs n -> (n <= n')%nat ->
  layout st an data from bs n' bts =
  ((layout st an data from bs n bts).1, grown (layout st an data from bs n bts).2 (span n n' bts)).
Proof.
  revert st an data from. induction bs as [|[[st' an'] c] bs IH]; intros st an data from Ho Hn; cbn in *.
  - unfold grown. cbn. by rewrite <- app_assoc, <- span_split by lia.
  - destruct Ho as [? Ho]. rewrite (IH _ _ _ _ Ho Hn). by destruct (layout st' an' [] c bs n bts).
Qed.

Lemma layout_boundary st an data from bs n bts st' an' :
  ordered from bs n ->
  layout st an data from (bs ++ [(st', an', n)]) n bts =
  ((layout st an data from bs n bts).1 ++ [(layout st an data from bs n bts).2], (st', an', [])).
Proof.
  revert st an data from. induction bs as [|[[s1 a1] c] bs IH]; intros st an data from Ho; cbn in *.
  - by rewrite span_self.
  - destruct Ho as [? Ho]. rewrite (IH _ _ _ _ Ho). by destruct (layout s1 a1 [] c bs n bts).
Qed.

Lemma layout_app st an data from bs n bts more :
  ordered from bs n -> (n <= length bts)%nat ->
  layout st an data from bs n (bts ++ more) = layout st an data from bs n bts.
Proof.
  revert st an data from. induction bs as [|[[st' an'] c] bs IH]; intros st an data from Ho Hn; cbn in *.
  - by rewrite span_app.
  - destruct Ho as [? Ho]. rewrite (IH _ _ _ _ Ho Hn), span_app; [done|]. apply ordered_le in Ho. lia.
Qed.

(** *** The cursors, from what was handed over *)

(** A field of the last of the first [n] batches, [init] when there is none. *)
Definition last_of {X} (field : JournalWriteMeta -> X) (init : X) (n : nat)
    (bts : list (JournalWriteMeta * list Z)) : X :=
  match n with
  | O => init
  | S i => match bts !! i with Some (m, _) => field m | None => init end
  end.

Lemma last_of_app {X} (field : JournalWriteMeta -> X) init n bts more :
  (n <= length bts)%nat -> last_of field init n (bts ++ more) = last_of field init n bts.
Proof. destruct n; cbn; [done|]. intros. by rewrite lookup_app_l. Qed.

(** The advertised tip never moves back, so it is the highest of what it was set to. *)
Definition tip_within (tip0 tip : Z) (n : nat) (bts : list (JournalWriteMeta * list Z)) : Prop :=
  last_of journal_seq tip0 n bts <= tip /\ tip0 <= tip /\
  (tip = tip0 \/ exists i m bs, (i < n)%nat /\ bts !! i = Some (m, bs) /\ tip = journal_seq m).

(** Each cursor as of its own count of batches. *)
Record published (c0 c : DurabilityCursors) (bts : list (JournalWriteMeta * list Z)) (ni nf nw nt : nat) : Prop := {
  pu_input : input_progress c = last_of ring_progress (input_progress c0) ni bts;
  pu_fsync : fsync_state c = (fun f => last_of fsync_of f nf bts) <$> fsync_state c0;
  pu_wire : durable_wire_seq c = (fun v => last_of journal_seq v nw bts) <$> durable_wire_seq c0;
  pu_tip : match advertised_tip c0, advertised_tip c with
           | Some t0, Some t => tip_within t0 t nt bts
           | None, None => True
           | _, _ => False
           end
}.

Lemma published_app c0 c bts more ni nf nw nt :
  (ni <= length bts)%nat -> (nf <= length bts)%nat -> (nw <= length bts)%nat -> (nt <= length bts)%nat ->
  published c0 c bts ni nf nw nt -> published c0 c (bts ++ more) ni nf nw nt.
Proof.
  intros Hi Hf Hw Ht [H1 H2 H3 H4]. split.
  - by rewrite last_of_app.
  - rewrite H2. destruct (fsync_state c0); [|done]. cbn. by rewrite last_of_app.
  - rewrite H3. destruct (durable_wire_seq c0); [|done]. cbn. by rewrite last_of_app.
  - destruct (advertised_tip c0), (advertised_tip c); try done. destruct H4 as (Hl & Hge & Hor).
    split; [by rewrite last_of_app|]. split; [done|]. destruct Hor as [->|(i & m & bs & Hlt & Hm & ->)]; [by left|].
    right. exists i, m, bs. split; [done|]. by rewrite lookup_app_l by lia.
Qed.

Definition at_store (k j n n' : nat) : nat := if (k =? j)%nat then n' else n.

Lemma published_store c0 c bts ni nf nw nt n m bs k :
  bts !! n = Some (m, bs) -> (nt <= S n)%nat -> (k < 4)%nat -> published c0 c bts ni nf nw nt ->
  published c0 (publish_store k m c) bts (at_store k 0 ni (S n)) (at_store k 1 nf (S n))
    (at_store k 2 nw (S n)) (at_store k 3 nt (S n)).
Proof.
  intros Hn Ht Hk [H1 H2 H3 H4].
  destruct k as [|[|[|[|k]]]]; [..|lia]; split; cbn; rewrite ?Hn; try done.
  - rewrite H2. by destruct (fsync_state c0).
  - rewrite H3. by destruct (durable_wire_seq c0).
  - destruct (advertised_tip c0) as [t0|], (advertised_tip c) as [t|]; try done. cbn.
    destruct H4 as (Hl & Hge & Hor). unfold tip_within, Slots.tip_advance. cbn. rewrite Hn.
    split; [lia|]. split; [lia|]. destruct (Z.max_spec t (journal_seq m)) as [[_ ->]|[_ ->]].
    + right. exists n, m, bs. by split; [lia|].
    + destruct Hor as [->|(i & m' & bs' & Hlt & Hm & ->)]; [by left|]. right. exists i, m', bs'. by split; [lia|].
Qed.

Section kept.
Context (crc32c : list Z -> Z) (capacity : Z).
Hypothesis capacity_pow2 : exists k, 1 <= k /\ capacity = 2 ^ k.
Hypothesis crc_range : forall bs, in_u32 (crc32c bs).
(** What the thread starts from: the live segment's header and data, the archives,
    the cursors. *)
Variables (start0 : Z) (anchor0 data0 : list Z) (g : option Z) (sealed0 : list (list Z)) (c0 : DurabilityCursors).

Local Abbreviation ix := (idx capacity).

Record ring_inv (s : Sys) : Prop := {
  ri_len : cursor (ring s) = Z.of_nat (length (batches s));
  ri_order : 0 <= progress (ring s) <= next_read (consumer s) /\
             next_read (consumer s) <= dep_seen (consumer s) <= cursor (ring s);
  ri_room : cursor (ring s) - progress (ring s) <= capacity;
  ri_gate : cached_gate_min (producer s) <= progress (ring s);
  ri_claim : forall q, claimed (producer s) = Some q ->
             q = cursor (ring s) /\ cursor (ring s) - progress (ring s) < capacity;
  ri_slots : length (slots (ring s)) = Z.to_nat capacity;
  ri_chunks : length (chunks (ring s)) = Z.to_nat capacity /\
              Forall (fun c => Z.of_nat (length c) = CHUNK_SIZE) (chunks (ring s));
  ri_held : forall q m bs, progress (ring s) <= Z.of_nat q -> batches s !! q = Some (m, bs) ->
            slots (ring s) !! ix (Z.of_nat q) = Some m /\
            take (Z.to_nat (len m)) (chunks (ring s) !!! ix (Z.of_nat q)) = bs;
  ri_bytes : Forall (fun b => 0 <= len b.1 <= CHUNK_SIZE /\ Z.of_nat (length b.2) = len b.1) (batches s);
  ri_staged : staged (consumer s) = seqZ (progress (ring s)) (next_read (consumer s) - progress (ring s));
  ri_lens : staged_len (consumer s) =
            (fun b => len b.1) <$> take (Z.to_nat (next_read (consumer s) - progress (ring s)))
                                     (drop (Z.to_nat (progress (ring s))) (batches s));
  ri_stop : if stop (control s) then 0 <= stop_view (control s) <= cursor (ring s) else True
}.

Definition seg_bytes (x : Seg) : list Z := header crc32c x.1.1 x.1.2 g ++ x.2.
Lemma seg_grown x more : seg_bytes (grown x more) = seg_bytes x ++ more.
Proof using Type. clear. unfold seg_bytes, grown. cbn. by rewrite app_assoc. Qed.

Definition seg_fits (x : Seg) : Prop := header_ok MAX_SECTOR_SIZE x.1.1 x.1.2 g.

(** The files when [w] batches are written and [d] synced: behind the data only
    zeros, or where a write failed some of the bytes it was to write. *)
Record file_inv (s : Sys) (w d : nat) (clean : bool) : Prop := {
  fi_order : ordered 0 (boundaries s) d /\ (d <= w)%nat;
  fi_sealed : archives s = sealed0 ++ map seg_bytes (layout start0 anchor0 data0 0 (boundaries s) w (batches s)).1;
  fi_genesis : genesis (segment s) = g;
  fi_header : seg_fits (layout start0 anchor0 data0 0 (boundaries s) w (batches s)).2;
  fi_live : exists junk pad, contents (segment s) =
      seg_bytes (layout start0 anchor0 data0 0 (boundaries s) w (batches s)).2 ++ junk ++ replicate pad 0 /\
      (clean = true -> junk = []) /\
      (length junk <= length (span w (Z.to_nat (next_read (consumer s))) (batches s)))%nat;
  fi_pos : write_pos (segment s) = length (seg_bytes (layout start0 anchor0 data0 0 (boundaries s) w (batches s)).2);
  fi_synced : synced s = length (seg_bytes (layout start0 anchor0 data0 0 (boundaries s) d (batches s)).2)
}.

(** Where the thread stands, what it has written, synced and published. [p] batches
    are released, [r] read. *)
Record Marks := { w : nat; d : nat; ni : nat; nf : nat; nw : nat; nt : nat }.

Definition level (k : Marks) (n : nat) : Prop := w k = n /\ d k = n /\ ni k = n /\ nf k = n /\ nw k = n /\ nt k = n.
Definition unpublished (k : Marks) (n : nat) : Prop := d k = n /\ ni k = n /\ nf k = n /\ nw k = n /\ nt k = n.

Definition meta_at (s : Sys) (n : nat) (m : JournalWriteMeta) : Prop :=
  exists i bs, n = S i /\ batches s !! i = Some (m, bs).

Definition pc_ok (s : Sys) (k : Marks) : Prop :=
  let p := Z.to_nat (progress (ring s)) in
  let r := Z.to_nat (next_read (consumer s)) in
  let seen_stop (b : bool) v := b = true -> stop (control s) = true /\ stop_view (control s) <= v in
  match pc s with
  | Top | Rotating _ | Answering _ => p = r /\ level k p
  | Asking b => p = r /\ level k p /\ seen_stop b (next_read (consumer s))
  | Staging b last => level k p /\ seen_stop b (dep_seen (consumer s)) /\
      match last with None => p = r | Some m => (p < r)%nat /\ meta_at s r m end
  | Writing b m i iov => unpublished k p /\ (p < r)%nat /\ meta_at s r m /\
      (p <= w k <= p + i)%nat /\ (p + i <= r)%nat /\ concat iov = span (w k) (p + i) (batches s) /\
      Forall (fun b => b <> []) iov
  | Syncing m => unpublished k p /\ w k = r /\ (p < r)%nat /\ meta_at s r m
  | Publishing m j => (p < r)%nat /\ meta_at s r m /\ (j < 4)%nat /\ w k = r /\ d k = r /\
      ni k = (if (0 <? j)%nat then r else p) /\ nf k = (if (1 <? j)%nat then r else p) /\
      nw k = (if (2 <? j)%nat then r else p) /\ nt k = p
  | Committing => (p < r)%nat /\ level k r
  | Failing _ | Poisoning => True
  | Exited => poisoned (control s) = true \/
      (p = r /\ level k p /\ stop (control s) = true /\ stop_view (control s) <= next_read (consumer s))
  end.

Definition failed (p : Pc) : bool := match p with Failing _ | Poisoning | Exited => true | _ => false end.

(** The header a rotation would write can be written. *)
Definition request_ok (r : RotateRequest) : Prop :=
  header_ok MAX_SECTOR_SIZE (Control.starting_sequence r) (Control.anchor_hash r) g.
Definition asked_ok (s : Sys) : Prop :=
  match Control.rotate (control s) with Requested r => request_ok r | _ => True end /\
  match pc s with Rotating r => request_ok r | _ => True end.

(** In every state: released, announced, synced, written, in that order. *)
Record inv (s : Sys) (k : Marks) : Prop := {
  in_ring : ring_inv s;
  in_file : exists clean, file_inv s (w k) (d k) clean /\ (failed (pc s) = false -> clean = true);
  in_cur : published c0 (cursors s) (batches s) (ni k) (nf k) (nw k) (nt k);
  in_marks : (Z.to_nat (progress (ring s)) <= nt k <= nw k)%nat /\ (nw k <= nf k <= ni k)%nat /\
             (ni k <= d k <= Z.to_nat (next_read (consumer s)))%nat /\
             (w k <= Z.to_nat (next_read (consumer s)))%nat;
  in_pc : pc_ok s k;
  in_poison : poisoned (control s) = true -> pc s = Exited;
  in_asked : asked_ok s
}.

(** *** What the sequencing thread does beside it *)

Lemma inv_bounds s k : inv s k ->
  (w k <= length (batches s) /\ d k <= length (batches s) /\ ni k <= length (batches s))%nat.
Proof using Type.
  clear. intros [Hr _ _ (H1 & H2 & H3 & H4) _ _]. pose proof (ri_len _ Hr). pose proof (ri_order _ Hr). lia.
Qed.

Lemma file_inv_app s s' w d clean more :
  file_inv s w d clean -> (w <= length (batches s))%nat ->
  batches s' = batches s ++ more -> boundaries s' = boundaries s -> archives s' = archives s ->
  segment s' = segment s -> synced s' = synced s -> consumer s' = consumer s ->
  (Z.to_nat (next_read (consumer s)) <= length (batches s))%nat -> file_inv s' w d clean.
Proof using Type.
  clear. intros [[Ho Hdw] H2 H3 H4 H5 H6 H7] Hw Hb Hbs Ha Hs Hy Hc Hn.
  assert (Hl : layout start0 anchor0 data0 0 (boundaries s') w (batches s') =
               layout start0 anchor0 data0 0 (boundaries s) w (batches s))
    by (rewrite Hb, Hbs; apply layout_app; [by eapply ordered_mono|done]).
  assert (Hl' : layout start0 anchor0 data0 0 (boundaries s') d (batches s') =
                layout start0 anchor0 data0 0 (boundaries s) d (batches s))
    by (rewrite Hb, Hbs; apply layout_app; [done|lia]).
  split; rewrite ?Hl, ?Hl', ?Ha, ?Hs, ?Hy, ?Hbs, ?Hc; try done. by rewrite Hb, span_app.
Qed.

Lemma meta_at_app s s' n m more : batches s' = batches s ++ more -> meta_at s n m -> meta_at s' n m.
Proof using Type.
  intros Hb (i & bs & -> & Hi). exists i, bs. split; [done|]. rewrite Hb. by apply lookup_app_l_Some.
Qed.

(** Whatever it publishes and asks for, the disk thread's state is untouched. *)
Lemma inv_beside s s' k more :
  inv s k -> ring_inv s' ->
  consumer s' = consumer s -> cursors s' = cursors s -> pc s' = pc s -> segment s' = segment s ->
  archives s' = archives s -> synced s' = synced s -> boundaries s' = boundaries s ->
  progress (ring s') = progress (ring s) -> batches s' = batches s ++ more ->
  poisoned (control s') = poisoned (control s) ->
  (stop (control s) = true -> stop (control s') = true /\ stop_view (control s') = stop_view (control s)) ->
  asked_ok s' -> inv s' k.
Proof using Type.
  clear. intros Hinv Hr' Hc Hcu Hpc Hs Ha Hy Hb Hp Hbt Hpo Hst Hask.
  pose proof (inv_bounds _ _ Hinv) as (Hw & Hd & Hn).
  destruct Hinv as [Hr (clean & Hf & Hcl) Hcur Hm Hpcs Hpois _]. split.
  - done.
  - exists clean. rewrite Hpc. split; [|done].
    eapply file_inv_app; try done. pose proof (ri_order _ Hr). pose proof (ri_len _ Hr). lia.
  - rewrite Hbt, Hcu. apply published_app; [lia..|done].
  - by rewrite Hp, Hc.
  - unfold pc_ok in *. rewrite Hpc, Hp, Hc. pose proof (fun n m => meta_at_app s s' n m more Hbt) as Hmeta.
    destruct (pc s) as [|b [m|]|b m i iov|m|m j| |b|?|?|?| |]; try done.
    + destruct Hpcs as (? & Hstop & ? & ?). split_and!; auto; intros Hbt'; destruct (Hstop Hbt') as [Hs1 Hs2];
      destruct (Hst Hs1) as [-> ->]; by split.
    + destruct Hpcs as (? & Hstop & ?). split_and!; auto; intros Hbt'; destruct (Hstop Hbt') as [Hs1 Hs2];
      destruct (Hst Hs1) as [-> ->]; by split.
    + destruct Hpcs as (? & ? & ? & ? & ? & Hio & ?). split_and!; auto; try lia.
      rewrite Hbt, span_app; [done|]. pose proof (ri_order _ Hr). pose proof (ri_len _ Hr). lia.
    + destruct Hpcs as (? & ? & ? & ?). split_and!; auto.
    + destruct Hpcs as (? & ? & ?). split_and!; auto; tauto.
    + destruct Hpcs as (? & ? & Hstop). split_and!; auto. intros Hbt'; destruct (Hstop Hbt') as [Hs1 Hs2];
      destruct (Hst Hs1) as [-> ->]; by split.
    + rewrite Hpo. destruct Hpcs as [|(? & ? & Hs1 & Hs2)]; [by left|right].
      destruct (Hst Hs1) as [-> ->]. by split_and!.
  - by rewrite Hpo, Hpc.
  - done.
Qed.

Lemma ring_inv_same s s' :
  ring_inv s -> ring s' = ring s -> producer s' = producer s -> consumer s' = consumer s ->
  batches s' = batches s ->
  (if stop (control s') then 0 <= stop_view (control s') <= cursor (ring s) else True) -> ring_inv s'.
Proof using Type. clear. intros [] Hr Hp Hc Hb Hs. split; rewrite ?Hr, ?Hp, ?Hc, ?Hb; done. Qed.

Lemma ix_lt q : (ix q < Z.to_nat capacity)%nat.
Proof using capacity_pow2. by apply Rings.Adequacy.slot_index_lt. Qed.

Lemma ix_ne s q : ring_inv s -> claimed (producer s) = Some (cursor (ring s)) ->
  progress (ring s) <= q < cursor (ring s) -> ix q <> ix (cursor (ring s)).
Proof using capacity_pow2.
  intros Hr Hc Hq. destruct (ri_claim _ Hr _ Hc) as [_ Hroom].
  apply Rings.Adequacy.slot_index_ne; [done|lia].
Qed.

Lemma ring_claims s seen :
  ring_inv s -> seen <= progress (ring s) ->
  ring_inv (set_producer (try_claim capacity seen (ring s) (producer s)).1 s).
Proof using Type.
  clear. intros Hr Hs. pose proof (ri_gate _ Hr). pose proof (ri_claim _ Hr). destruct Hr. unfold try_claim.
  destruct (capacity <=? _) eqn:H1; [destruct (capacity <=? cursor _ - seen) eqn:H2|]; zb;
    split; try done; cbn; try lia; intros q [= <-]; lia.
Qed.

Lemma ring_fills s bytes q :
  ring_inv s -> claimed (producer s) = Some q -> Z.of_nat (length bytes) = CHUNK_SIZE ->
  ring_inv (set_ring (fill capacity bytes q (ring s)) s).
Proof using capacity_pow2.
  intros Hr Hq Hb. destruct (ri_claim _ Hr _ Hq) as [-> Hroom]. pose proof (fun i => ix_ne s i Hr Hq) as Hne.
  destruct Hr. destruct ri_chunks0 as [Hcl Hcf]. split; try done; cbn.
  - split; [by rewrite length_insert|]. by apply Forall_insert.
  - intros i m bs Hp Hi. destruct (ri_held0 i m bs Hp Hi) as [Hs Ht]. split; [done|].
    rewrite list_lookup_total_insert_ne; [done|]. intros Heq.
    apply (Hne (Z.of_nat i)); [apply lookup_lt_Some in Hi; lia|done].
Qed.

Lemma ring_publishes s m q :
  ring_inv s -> claimed (producer s) = Some q -> 0 <= len m <= CHUNK_SIZE ->
  let bytes := take (Z.to_nat (len m)) (chunk_bytes capacity q (ring s)) in
  let rp := publish capacity m q (ring s) (producer s) in
  ring_inv (record_batch (m, bytes) (set_producer rp.2 (set_ring rp.1 s))).
Proof using capacity_pow2.
  intros Hr Hq Hl bytes rp. destruct (ri_claim _ Hr _ Hq) as [-> Hroom].
  pose proof (ix_lt (cursor (ring s))) as Hlt.
  pose proof (fun i => ix_ne s i Hr Hq) as Hne. destruct Hr. destruct ri_chunks0 as [Hcl Hcf].
  assert (Hbl : Z.of_nat (length bytes) = len m).
  { unfold bytes, chunk_bytes. rewrite length_take.
    assert (Hin : chunks (ring s) !!! ix (cursor (ring s)) ∈ chunks (ring s))
      by (apply list_elem_of_lookup_total_2; lia).
    rewrite Forall_forall in Hcf. apply Hcf in Hin. lia. }
  split; cbn; try done; try lia.
  - rewrite length_app, ri_len0. cbn. lia.
  - by rewrite length_insert.
  - intros i m' bs Hp Hi. apply lookup_app_Some in Hi as [Hi|[Hi Hi2]].
    + destruct (ri_held0 i m' bs Hp Hi) as [Hs Ht]. apply lookup_lt_Some in Hi.
      rewrite list_lookup_insert_ne; [by split|]. intros Heq. apply (Hne (Z.of_nat i)); [lia|done].
    + apply list_lookup_singleton_Some in Hi2 as [Hi2 [= <- <-]]. replace (Z.of_nat i) with (cursor (ring s)) by lia.
      rewrite list_lookup_insert_eq by lia. by split.
  - apply Forall_app. split; [done|]. apply Forall_singleton. by split.
  - rewrite ri_lens0, drop_app_le, take_app_le; [done|..]; rewrite ?length_drop; lia.
  - destruct (stop _); [lia|done].
Qed.

(** What the sequencing thread must see to: a rotation request whose header can be
    written. *)
Definition seq_ok (a : SeqAct) : Prop := match a with RequestRotation r => request_ok r | _ => True end.

Lemma seq_step_keeps a s s' k : inv s k -> seq_ok a -> seq_step capacity a s = Some s' -> inv s' k.
Proof using capacity_pow2.
  intros Hinv Hok. pose proof (in_ring _ _ Hinv) as Hr. pose proof (in_asked _ _ Hinv) as Hask.
  assert (Hsame : forall c, Control.poisoned c = poisoned (control s) ->
    (stop (control s) = true -> stop c = true /\ stop_view c = stop_view (control s)) ->
    (if stop c then 0 <= stop_view c <= cursor (ring s) else True) ->
    asked_ok (set_control c s) -> inv (set_control c s) k).
  { intros c Hp Hst Hv Ha. apply (inv_beside s _ k []); try done; [|by rewrite app_nil_r].
    by apply (ring_inv_same s). }
  pose proof (ri_stop _ Hr) as Hstop. destruct a; cbn [seq_step].
  - destruct (claimed _); [done|]. destruct (_ && _) eqn:Hg; [|done]. intros [= <-].
    apply andb_true_iff in Hg as [? ?]. zb. apply (inv_beside s _ k []); try done; [|by rewrite app_nil_r].
    by apply ring_claims.
  - destruct (claimed _) as [q|] eqn:Hq; [|done]. destruct (_ =? _) eqn:Hl; [|done]. intros [= <-]. zb.
    apply (inv_beside s _ k []); try done; [|by rewrite app_nil_r]. by apply ring_fills.
  - destruct (claimed _) as [q|] eqn:Hq; [|done]. destruct (negb _) eqn:Hg; [done|].
    apply negb_false_iff, andb_true_iff in Hg as [[? ?]%andb_true_iff ?]. zb. intros [= <-].
    eapply (inv_beside s _ k); try done. by apply ring_publishes.
  - destruct (_ && _); [|done]. by intros [= <-].
  - destruct (_ && _); [done|]. by intros [= <-].
  - cbn. destruct (decide _); [|done]. intros [= <-]. by apply Hsame.
  - unfold request_rotation. destruct (Control.rotate _); [|done..]. intros [= <-].
    apply Hsame; try done. by destruct Hask.
  - unfold take_rotation_result. destruct (Control.rotate _) eqn:Hrot; (destruct (decide _); [|done]); intros [= <-];
      apply Hsame; try done; destruct Hask; split; by rewrite ?Hrot in *.
  - destruct (stop _) eqn:Hst; [done|]. intros [= <-]. apply Hsame; try done; cbn.
    pose proof (ri_order _ Hr). lia.
Qed.

(** *** The device *)

Local Abbreviation lay s n := (layout start0 anchor0 data0 0 (boundaries s) n (batches s)).

(** A vector of the next batches' bytes extends the live segment by exactly them. *)
Lemma file_writes s w w' d bufs sizes :
  file_inv s w d true -> (w <= w')%nat -> concat bufs = span w w' (batches s) -> concat bufs <> [] ->
  Forall (lt 0) sizes ->
  exists f, write_vectored (segment s) bufs sizes = Ok f /\ file_inv (set_segment f s) w' d true.
Proof using Type.
  clear. intros [[Ho Hdw] Hse Hge Hh (junk & pad0 & Hc & Hz & _) Hp Hy] Hw Hb Hne Hs. rewrite (Hz eq_refl) in Hc.
  cbn [Datatypes.app] in Hc.
  destruct (vectored_lands _ _ _ _ _ Hc Hp Hs Hne) as (f & pad & Hwr & Hcf & Hpf & Hgf).
  exists f. split; [done|].
  assert (Hl : lay s w' = ((lay s w).1, grown (lay s w).2 (span w w' (batches s))))
    by (apply layout_grow; [by eapply ordered_mono|done]).
  split; cbn [set_segment archives boundaries batches segment synced]; rewrite ?Hl; cbn [fst snd].
  - split; [done|lia].
  - done.
  - by rewrite Hgf.
  - done.
  - exists [], pad. rewrite Hcf, Hb. split; [|split; [done|cbn; lia]].
    by rewrite seg_grown, <- app_assoc.
  - by rewrite Hpf, Hb, seg_grown.
  - done.
Qed.

(** A write that fails only spoils what lies behind the written bytes, as far as it
    was to write. *)
Lemma file_torn s w d bytes :
  file_inv s w d true -> (length bytes <= length (span w (Z.to_nat (next_read (consumer s))) (batches s)))%nat ->
  let f := segment s in
  file_inv (set_segment {| contents := write_at (contents f) (write_pos f) bytes; write_pos := write_pos f;
    allocated_end := allocated_end f; prealloc := prealloc f; pre_written := pre_written f; genesis := genesis f |} s)
    w d false.
Proof using Type.
  clear. intros [Ho Hse Hge Hh (junk & pad & Hc & Hz & _) Hp Hy] Hb. split; try done.
  cbn. rewrite Hc, Hp, (Hz eq_refl). cbn [Datatypes.app]. rewrite write_at_zeros. eexists _, _. split; [done|]. by split.
Qed.

(** Nothing to write: the same files are those of more batches. *)
Lemma lay_idle s w w' : ordered 0 (boundaries s) w -> (w <= w')%nat -> span w w' (batches s) = [] -> lay s w' = lay s w.
Proof using Type.
  clear. intros Ho Hw Hb. rewrite (layout_grow _ _ _ _ _ w w') by done. rewrite Hb. unfold grown. rewrite app_nil_r.
  by destruct (lay s w) as [? [? ?]].
Qed.

Lemma file_idle s w w' d clean :
  file_inv s w d clean -> (w <= w')%nat -> span w w' (batches s) = [] -> file_inv s w' d clean.
Proof using Type.
  clear. intros [[Ho Hdw] Hse Hge Hh Hc Hp Hy] Hw Hb.
  pose proof (lay_idle s w w' (ordered_mono _ _ _ _ Hdw Ho) Hw Hb) as Hl.
  split; rewrite ?Hl; try done; [split; [done|lia]|].
  destruct Hc as (junk & pad & Hcc & Hcl & Hj). exists junk, pad. split_and!; try done.
  destruct (decide (w' <= Z.to_nat (next_read (consumer s)))%nat) as [Hle|Hgt].
  - by rewrite (span_split w w'), Hb in Hj by lia.
  - assert (Hnil : span w (Z.to_nat (next_read (consumer s))) (batches s) = []).
    { destruct (decide (w <= Z.to_nat (next_read (consumer s)))%nat) as [?|].
      - rewrite (span_split w (Z.to_nat (next_read (consumer s))) w') in Hb by lia. by apply app_nil in Hb as [-> _].
      - unfold span. by replace (_ - w)%nat with 0%nat by lia. }
    rewrite Hnil in Hj. cbn in Hj. lia.
Qed.

Lemma file_idle_synced s w w' clean :
  file_inv s w w clean -> (w <= w')%nat -> span w w' (batches s) = [] -> file_inv s w' w' clean.
Proof using Type.
  clear. intros Hf Hw Hb. destruct (file_idle _ _ _ _ _ Hf Hw Hb). destruct Hf as [[Ho _] _ _ _ _ _ Hy].
  split; try done; [split; [by eapply ordered_mono|done]|]. by rewrite (lay_idle s w w').
Qed.

Lemma file_syncs s w d clean : file_inv s w d clean -> file_inv (set_synced (write_pos (segment s)) s) w w clean.
Proof using Type.
  clear. intros [[Ho Hdw] Hse Hge Hh Hc Hp Hy]. split; try done. split; [by eapply ordered_mono|done].
Qed.

(** A rotation seals exactly the data and puts an empty segment in its place. *)
Lemma file_rotates s w prepared start anchor sizes :
  file_inv s w w true -> header_ok MAX_SECTOR_SIZE start anchor g -> Forall (lt 0) sizes ->
  exists sealed f, Journal.Segment.rotate crc32c (segment s) prepared start anchor sizes = Ok (sealed, f) /\
    file_inv (set_files f sealed (start, anchor, w) s) w w true.
Proof using crc_range.
  clear capacity capacity_pow2. intros [[Ho Hdw] Hse Hge Hh (junk & pad0 & Hc & Hz & _) Hp Hy] Hok Hs. rewrite (Hz eq_refl) in Hc.
  cbn [Datatypes.app] in Hc. rewrite <- Hge in Hok.
  destruct (install_zeros crc32c (segment s) prepared start anchor sizes Hok Hs) as (f & pad & Hi & Hcf & Hpf & Hgf).
  unfold Journal.Segment.rotate. rewrite Hi. cbn [rbind]. eexists _, f. split; [done|].
  assert (Hl : layout start0 anchor0 data0 0 (boundaries s ++ [(start, anchor, w)]) w (batches s) =
               ((lay s w).1 ++ [(lay s w).2], (start, anchor, []))) by (by apply layout_boundary).
  assert (Hlen : length (seg_bytes (start, anchor, [])) = HEADER_OFFSET).
  { unfold seg_bytes. cbn. rewrite app_nil_r, <- Hge. apply (header_length crc32c crc_range _ _ _ Hok). }
  split; cbn [set_files archives boundaries batches segment synced]; rewrite ?Hl; cbn [fst snd].
  - split; [by apply ordered_snoc|done].
  - rewrite Hse, Hp, Hc, set_len_data, map_app, <- app_assoc. done.
  - by rewrite Hgf.
  - unfold seg_fits. cbn. by rewrite <- Hge.
  - exists [], pad. rewrite Hcf. split; [|split; [done|cbn; lia]].
    unfold seg_bytes. cbn. by rewrite app_nil_r, Hge.
  - by rewrite Hpf, Hlen.
  - by rewrite Hpf, Hlen.
Qed.

(** *** The disk thread *)

Lemma staged_length s : ring_inv s ->
  length (staged (consumer s)) = (Z.to_nat (next_read (consumer s)) - Z.to_nat (progress (ring s)))%nat.
Proof using Type. clear. intros Hr. rewrite (ri_staged _ Hr), length_seqZ. pose proof (ri_order _ Hr). lia. Qed.

Lemma staged_is s i : ring_inv s -> (i < length (staged (consumer s)))%nat ->
  exists m, batches s !! (Z.to_nat (progress (ring s)) + i)%nat = Some (m, staged_bytes capacity i (ring s) (consumer s)).
Proof using Type.
  clear. intros Hr Hi. pose proof (staged_length _ Hr) as Hl. pose proof (ri_order _ Hr) as Ho. pose proof (ri_len _ Hr) as Hlen.
  destruct (lookup_lt_is_Some_2 (batches s) (Z.to_nat (progress (ring s)) + i)) as [[m bs] Hb]; [lia|].
  exists m. rewrite Hb. do 2 f_equal.
  destruct (ri_held _ Hr (Z.to_nat (progress (ring s)) + i) m bs) as [_ <-]; [lia|done|]. unfold staged_bytes, chunk_bytes. f_equal.
  - rewrite (ri_lens _ Hr). f_equal. symmetry. apply list_lookup_total_correct. rewrite list_lookup_fmap, lookup_take, lookup_drop, Hb.
    by rewrite decide_True by lia.
  - f_equal. unfold idx. f_equal. symmetry. apply list_lookup_total_correct.
    rewrite (ri_staged _ Hr). apply lookup_seqZ. rewrite (ri_staged _ Hr), length_seqZ in Hi. lia.
Qed.

Lemma lens_sum (bts : list (JournalWriteMeta * list Z)) :
  Forall (fun b => 0 <= len b.1 <= CHUNK_SIZE /\ Z.of_nat (length b.2) = len b.1) bts ->
  foldr Z.add 0 ((fun b => len b.1) <$> bts) = Z.of_nat (length (concat (map snd bts))).
Proof using Type.
  clear. induction 1 as [|b bts [_ Hb] _ IH]; [done|]. cbn. rewrite IH, length_app. lia.
Qed.

Lemma staged_total s : ring_inv s ->
  staged_total_bytes (consumer s) =
  Z.of_nat (length (span (Z.to_nat (progress (ring s))) (Z.to_nat (next_read (consumer s))) (batches s))).
Proof using Type.
  clear. intros Hr. pose proof (ri_order _ Hr). unfold staged_total_bytes, span. rewrite (ri_lens _ Hr).
  rewrite lens_sum by (apply Forall_take, Forall_drop, (ri_bytes _ Hr)). do 5 f_equal. lia.
Qed.

Lemma meta_at_lookup s r m : meta_at s r m -> (0 < r)%nat /\ exists bs, batches s !! (r - 1)%nat = Some (m, bs).
Proof using Type. clear. intros (i & bs & -> & Hi). split; [lia|]. exists bs. by replace (S i - 1)%nat with i by lia. Qed.

(** A step that leaves ring, files and cursors alone. *)
Lemma inv_pc s k p :
  inv s k -> pc_ok (set_pc p s) k -> (failed (pc s) = false \/ failed p = true) ->
  poisoned (control s) = false -> (forall r, p <> Rotating r) -> inv (set_pc p s) k.
Proof using Type.
  clear. intros [Hr (clean & Hf & Hcl) Hcur Hm _ Hpo [Ha _]] Hpc Hfail Hnp Hrot. split; try done.
  - by apply (ring_inv_same s); [..|apply (ri_stop _ Hr)].
  - exists clean. split; [by destruct Hf; split|]. cbn. intros Hp. apply Hcl. destruct Hfail; congruence.
  - cbn. congruence.
  - split; [done|]. cbn. by destruct p; try done; destruct (Hrot r).
Qed.

Lemma not_poisoned s k : inv s k -> failed (pc s) = false -> poisoned (control s) = false.
Proof using Type.
  intros Hinv Hf. destruct (poisoned _) eqn:Hp; [|done]. by rewrite (in_poison _ _ Hinv Hp) in Hf.
Qed.

Lemma top_keeps s k b :
  inv s k -> pc s = Top -> (b = true -> stop (control s) = true) ->
  let c := consumer s in
  inv (set_pc (Staging b None) (set_consumer {| next_read := next_read c;
    dep_seen := (if b then Z.max (dep_seen c) (stop_view (control s)) else dep_seen c);
    staged := staged c; staged_len := staged_len c |} s)) k.
Proof using Type.
  clear capacity_pow2 crc_range. intros Hinv Ht Hb c. pose proof (not_poisoned _ _ Hinv) as Hnp.
  destruct Hinv as [Hr (clean & Hf & Hcl) Hcur Hm Hpc Hpo [Ha _]]. unfold pc_ok in Hpc. rewrite Ht in *.
  specialize (Hnp eq_refl).
  pose proof (ri_order _ Hr). pose proof (ri_stop _ Hr) as Hst.
  assert (Hv : b = true -> stop_view (control s) <= cursor (ring s)) by (intros E; rewrite (Hb E) in Hst; lia).
  split; try done.
  - destruct Hr. split; try done. cbn. unfold c. destruct b; [specialize (Hv eq_refl)|]; lia.
  - exists clean. split; [by destruct Hf; split|done].
  - cbn in *. destruct Hpc as [? ?]. split_and!; try done. intros ->. split; [auto|lia].
  - cbn. congruence.
Qed.

(** The clauses a step does not touch. *)
Ltac keeps := split; try done; try (cbn; congruence).

Lemma staging_keeps s k b last v s' :
  inv s k -> pc s = Staging b last -> stage_next capacity b last v s = Some s' -> exists k', inv s' k'.
Proof using Type.
  clear capacity_pow2. intros Hinv Hp. pose proof (not_poisoned _ _ Hinv) as Hnp.
  pose proof Hinv as [Hr (clean & Hf & Hcl) Hcur Hm Hpc Hpo [Ha _]].
  unfold pc_ok in Hpc. rewrite Hp in *. specialize (Hcl eq_refl) as ->. specialize (Hnp eq_refl).
  destruct Hpc as (Hlev & Hstop & Hlast). pose proof (ri_order _ Hr) as Ho. pose proof (ri_len _ Hr) as Hlen.
  unfold stage_next. destruct (negb _) eqn:Hg; [done|].
  apply negb_false_iff, andb_true_iff in Hg as [Hg1 Hg2]. zb. unfold stage_one, sat_sub.
  destruct (Z.max _ _ =? 0) eqn:Hz; zb.
  - set (c := {| next_read := next_read (consumer s); dep_seen := v; staged := staged (consumer s);
                 staged_len := staged_len (consumer s) |}).
    assert (Hr' : ring_inv (set_consumer c s)) by (destruct Hr; split; try done; cbn; lia).
    assert (Htot : staged_total_bytes c = Z.of_nat (length (span (Z.to_nat (progress (ring s)))
      (Z.to_nat (next_read (consumer s))) (batches s)))) by exact (staged_total _ Hr').
    assert (Hf' : file_inv (set_consumer c s) (w k) (d k) true) by (destruct Hf; by split).
    destruct last as [m|]; cbn [snd]; intros [= <-].
    + destruct Hlast as [Hlt Hmeta]. fold c. destruct Hlev as (Hw & Hd & Hi & Hff & Hnw & Ht).
      destruct (0 <? staged_total_bytes c) eqn:Hb; zb.
      * exists k. keeps.
        -- by apply (ring_inv_same (set_consumer c s)); [..|apply (ri_stop _ Hr)].
        -- exists true. split; [by destruct Hf'; split|done].
        -- cbn in *. unfold unpublished. rewrite Nat.add_0_r, Hw, span_self. split_and!; try done; lia.
      * exists {| w := Z.to_nat (next_read (consumer s)); d := Z.to_nat (next_read (consumer s));
                  ni := ni k; nf := nf k; nw := nw k; nt := nt k |}.
        keeps; cbn.
        -- by apply (ring_inv_same (set_consumer c s)); [..|apply (ri_stop _ Hr)].
        -- exists true. split; [|done].
           assert (Hs : span (w k) (Z.to_nat (next_read (consumer s))) (batches s) = []).
           { apply nil_length_inv. rewrite Hw. lia. }
           rewrite Hd, <- Hw in Hf'. destruct (file_idle_synced _ _ (Z.to_nat (next_read (consumer s))) _ Hf') as []; [cbn; lia|done|by split].
        -- lia.
        -- split_and!; try done; lia.
    + exists k. fold c. keeps.
      -- by apply (ring_inv_same (set_consumer c s)); [..|apply (ri_stop _ Hr)].
      -- exists true. split; [by destruct Hf'; split|done].
      -- cbn in *. split_and!; try done. intros E. destruct (Hstop E). split; [done|lia].
  - destruct (lookup_lt_is_Some_2 (batches s) (Z.to_nat (next_read (consumer s)))) as [[m bs] Hb]; [lia|].
    destruct (ri_held _ Hr (Z.to_nat (next_read (consumer s))) m bs) as [Hsl _]; [lia|done|]. rewrite Z2Nat.id in Hsl by lia. rewrite Hsl. cbn [default].
    intros [= <-]. exists k. keeps; cbn.
    + destruct Hr. split; try done; cbn; try lia.
      * rewrite ri_staged0. replace (next_read (consumer s) + 1 - progress (ring s))
          with (next_read (consumer s) - progress (ring s) + 1) by lia.
        rewrite (seqZ_app _ (next_read (consumer s) - progress (ring s)) 1) by lia.
        f_equal. replace (progress (ring s) + (next_read (consumer s) - progress (ring s))) with (next_read (consumer s)) by lia.
        done.
      * rewrite ri_lens0. replace (Z.to_nat (next_read (consumer s) + 1 - progress (ring s)))
          with (S (Z.to_nat (next_read (consumer s) - progress (ring s)))) by lia.
        rewrite (take_S_r _ _ (m, bs)), fmap_app; [done|]. rewrite lookup_drop, <- Hb. f_equal. lia.
    + exists true. split; [|done]. destruct Hf as [? ? ? ? (junk & pad & Hc & Hj & _) ? ?]. split; try done.
      exists junk, pad. rewrite (Hj eq_refl) in *. split_and!; try done. cbn. lia.
    + lia.
    + split_and!; try done; [intros E; destruct (Hstop E); split; [done|lia]|destruct last; lia|].
      exists (Z.to_nat (next_read (consumer s))), bs. split; [lia|done].
Qed.

(** A device that takes bytes takes at least one. *)
Definition answer_ok (o : Answer) : Prop := match o with Wrote sizes => Forall (lt 0) sizes | _ => True end.

Lemma concat_nonempty {A} (xs : list (list A)) : Forall (fun b => b <> []) xs -> xs <> [] -> concat xs <> [].
Proof using Type. clear. by destruct 1 as [|[|? ?] ? ?]. Qed.

(** The vectored write, on a vector of the next batches: they are on file, or the
    thread fails. *)
Lemma vector_written s k b m i bufs o s' r n p :
  inv s k -> pc s = Writing b m i p -> (w k <= n <= Z.to_nat (next_read (consumer s)))%nat ->
  concat bufs = span (w k) n (batches s) -> concat bufs <> [] -> answer_ok o ->
  write_vectored_at bufs o s = Some (s', r) ->
  match r with
  | Ok _ => exists f, s' = set_segment f s /\ file_inv s' n (d k) true
  | Err e => inv (set_pc (Failing e) s') k
  end.
Proof using Type.
  clear capacity_pow2 crc_range. intros Hinv Hp Hn Hb Hne Ho. pose proof (not_poisoned _ _ Hinv) as Hnp.
  pose proof Hinv as [Hr (clean & Hf & Hcl) Hcur Hm Hpc Hpo [Ha _]]. rewrite Hp in *.
  specialize (Hcl eq_refl) as ->. specialize (Hnp eq_refl). destruct o; try done; cbn [write_vectored_at].
  - destruct (file_writes s (w k) n (d k) bufs sizes Hf ltac:(lia) Hb Hne Ho) as (f & Hw & Hf').
    rewrite Hw. intros [= <- <-]. by exists f.
  - intros [= <- <-]. keeps.
    + by apply (ring_inv_same s); [..|apply (ri_stop _ Hr)].
    + exists false. split; [|done]. destruct (file_torn s (w k) (d k) (take n0 (concat bufs)) Hf); [|by split].
      rewrite (span_split (w k) n (Z.to_nat (next_read (consumer s)))) by lia.
      rewrite length_take, length_app, Hb. lia.
Qed.

Lemma writing_keeps s k b m i iov o s' :
  inv s k -> pc s = Writing b m i iov -> answer_ok o -> write_next capacity b m i iov o s = Some s' ->
  exists k', inv s' k'.
Proof using Type.
  clear capacity_pow2 crc_range. intros Hinv Hp Ho. pose proof (not_poisoned _ _ Hinv) as Hnp.
  pose proof (staged_length _ (in_ring _ _ Hinv)) as Hsl.
  pose proof (fun bufs s' r n => vector_written s k b m i bufs o s' r n iov Hinv Hp) as Hvec.
  pose proof Hinv as [Hr (clean & Hf & Hcl) Hcur Hm Hpc Hpo [Ha _]]. unfold pc_ok in Hpc. rewrite Hp in *.
  specialize (Hcl eq_refl) as ->. specialize (Hnp eq_refl). pose proof (ri_order _ Hr) as Hord.
  destruct Hpc as (Hun & Hlt & Hmeta & Hwi & Hir & Hiov & Hne).
  set (p := Z.to_nat (progress (ring s))) in *. set (q := Z.to_nat (next_read (consumer s))) in *.
  assert (Hthen : forall f n p', file_inv (set_segment f s) n (d k) true -> (d k <= n <= q)%nat -> failed p' = false ->
      (forall r, p' <> Rotating r) ->
      let k' := {| w := n; d := d k; ni := ni k; nf := nf k; nw := nw k; nt := nt k |} in
      pc_ok (set_pc p' (set_segment f s)) k' -> inv (set_pc p' (set_segment f s)) k').
  { intros f n p' Hf' Hn Hfl Hrot k' Hpc'. keeps.
    - by apply (ring_inv_same s); [..|apply (ri_stop _ Hr)].
    - exists true. split; [by destruct Hf'; split|done].
    - cbn. fold p q. lia.
    - split; [done|]. cbn. by destruct p'; try done; destruct (Hrot r). }
  assert (Hun' : forall n, unpublished {| w := n; d := d k; ni := ni k; nf := nf k; nw := nw k; nt := nt k |} p) by done.
  unfold write_next. destruct (i <? length (staged (consumer s)))%nat eqn:Hi.
  - apply Nat.ltb_lt in Hi. destruct (staged_is s i Hr Hi) as [m' Hb]. fold p in Hb.
    pose proof (span_one _ _ _ _ Hb) as Hone.
    assert (Hgrow : concat (iov ++ [staged_bytes capacity i (ring s) (consumer s)]) = span (w k) (p + S i) (batches s)).
    { rewrite concat_app, Hiov. cbn. rewrite app_nil_r, (span_split (w k) (p + i) (p + S i)) by lia.
      by rewrite <- Hone, Nat.add_succ_r. }
    destruct (staged_bytes capacity i (ring s) (consumer s)) as [|x bytes] eqn:Hbs.
    + intros [= <-]. exists k. apply inv_pc; try done; [|by left; rewrite Hp]. cbn. fold p q.
      split_and!; try done; try lia. by rewrite <- Hgrow, concat_app; cbn; rewrite app_nil_r.
    + assert (Hne' : Forall (fun b => b <> []) (iov ++ [x :: bytes])) by (apply Forall_app; split; [done|by repeat constructor]).
      destruct (length _ =? MAX_IOV)%nat.
      * destruct (write_vectored_at _ o s) as [[s1 r]|] eqn:Hw; [|done]. cbn [mbind option_bind]. intros [= <-].
        specialize (Hvec _ _ _ (p + S i)%nat ltac:(lia) Hgrow ltac:(by apply concat_nonempty; [|destruct iov]) Ho Hw).
        destruct r as [u|e]; [|by exists k]. destruct Hvec as (f & -> & Hf'). eexists. apply (Hthen f (p + S i)%nat); try done.
        { destruct Hun. lia. } { cbn. fold p q. rewrite span_self. split_and!; try done; lia. }
      * intros [= <-]. exists k. apply inv_pc; try done; [|by left; rewrite Hp]. cbn. fold p q.
        split_and!; try done; lia.
  - apply Nat.ltb_ge in Hi. assert (Hiq : (p + i)%nat = q) by lia. rewrite Hiq in Hiov.
    destruct iov as [|x iov].
    + intros [= <-]. eexists. replace s with (set_segment (segment s) s) by (by destruct s).
      apply (Hthen (segment s) q); try done; [|destruct Hun; lia].
      replace (set_segment (segment s) s) with s by (by destruct s). by apply (file_idle s (w k)); [|lia|].
    + destruct (write_vectored_at _ o s) as [[s1 r]|] eqn:Hw; [|done]. cbn [mbind option_bind]. intros [= <-].
      specialize (Hvec _ _ _ q ltac:(lia) Hiov ltac:(by apply concat_nonempty) Ho Hw).
      destruct r as [u|e]; [|by exists k]. destruct Hvec as (f & -> & Hf'). eexists. apply (Hthen f q); try done.
      destruct Hun. lia.
Qed.

Lemma publishing_keeps s k m j :
  inv s k -> pc s = Publishing m j -> exists k',
  inv (set_pc (if (j <? 3)%nat then Publishing m (S j) else Committing) (set_cursors (publish_store j m (cursors s)) s)) k'.
Proof using Type.
  clear capacity_pow2 crc_range. intros Hinv Hp. pose proof (not_poisoned _ _ Hinv) as Hnp.
  pose proof Hinv as [Hr (clean & Hf & Hcl) Hcur Hm Hpc Hpo [Ha _]]. unfold pc_ok in Hpc. rewrite Hp in *.
  specialize (Hcl eq_refl) as ->. specialize (Hnp eq_refl).
  destruct Hpc as (Hlt & Hmeta & Hj & Hw & Hd & Hi & Hff & Hnw & Ht). destruct (meta_at_lookup _ _ _ Hmeta) as [Hr0 [bs Hb]].
  set (p := Z.to_nat (progress (ring s))) in *. set (q := Z.to_nat (next_read (consumer s))) in *.
  assert (Hnt : (nt k <= S (q - 1))%nat) by lia.
  pose proof (published_store _ _ _ _ _ _ _ _ _ _ j Hb Hnt Hj Hcur) as Hcur'.
  replace (S (q - 1)) with q in Hcur' by lia.
  exists {| w := w k; d := d k; ni := at_store j 0 (ni k) q; nf := at_store j 1 (nf k) q;
            nw := at_store j 2 (nw k) q; nt := at_store j 3 (nt k) q |}.
  destruct j as [|[|[|[|j]]]]; [..|lia]; cbn in Hi, Hff, Hnw; unfold at_store in *; cbn in *;
    keeps; first [by apply (ring_inv_same s); [..|apply (ri_stop _ Hr)]
                 |exists true; split; [by destruct Hf; split|done]
                 |cbn; fold p q; unfold level; split_and!; cbn; first [lia|done]].
Qed.

Lemma committing_keeps s k :
  inv s k -> pc s = Committing ->
  let rc := commit (ring s) (consumer s) in inv (set_pc Top (set_consumer rc.2 (set_ring rc.1 s))) k.
Proof using Type.
  clear capacity_pow2 crc_range. intros Hinv Hp rc. pose proof (not_poisoned _ _ Hinv) as Hnp.
  pose proof (staged_length _ (in_ring _ _ Hinv)) as Hsl.
  pose proof Hinv as [Hr (clean & Hf & Hcl) Hcur Hm Hpc Hpo [Ha _]]. unfold pc_ok in Hpc. rewrite Hp in *.
  specialize (Hcl eq_refl) as ->. specialize (Hnp eq_refl). destruct Hpc as [Hlt Hlev]. pose proof (ri_order _ Hr) as Ho.
  assert (Hrc : rc = ({| cursor := cursor (ring s); progress := next_read (consumer s); slots := slots (ring s); chunks := chunks (ring s) |},
    {| next_read := next_read (consumer s); dep_seen := dep_seen (consumer s); staged := []; staged_len := [] |})).
  { unfold rc, commit. destruct (staged (consumer s)) eqn:Hs; [cbn in Hsl; lia|done]. }
  rewrite Hrc. destruct Hlev as (H1 & H2 & H3 & H4 & H5 & H6). keeps.
  - pose proof (ri_claim _ Hr) as Hcl. destruct Hr. split; try done; cbn; try lia.
    + intros qq Hq. destruct (Hcl qq Hq). lia.
    + intros qq m bs Hq Hb. apply ri_held0; [lia|done].
    + by rewrite Z.sub_diag.
    + by rewrite Z.sub_diag.
  - exists true. split; [by destruct Hf; split|done].
  - cbn. lia.
Qed.

Lemma asking_keeps s k b s' :
  inv s k -> pc s = Asking b -> disk_step crc32c capacity Proceeds s = Some s' -> inv s' k.
Proof using Type.
  clear capacity_pow2 crc_range. intros Hinv Hp. pose proof (not_poisoned _ _ Hinv) as Hnp.
  pose proof Hinv as [Hr (clean & Hf & Hcl) Hcur Hm Hpc Hpo [Ha _]]. unfold pc_ok in Hpc.
  unfold disk_step. rewrite Hp in *. specialize (Hcl eq_refl) as ->. specialize (Hnp eq_refl).
  destruct Hpc as (Heq & Hlev & Hst). unfold take_rotation_request.
  destruct (Control.rotate (control s)) eqn:Hrot; intros [= <-].
  2: { keeps.
    - by apply (ring_inv_same s); [..|apply (ri_stop _ Hr)].
    - exists true. split; [by destruct Hf; split|done]. }
  all: apply inv_pc; [done|..|done|by destruct b]; [destruct b; cbn; [destruct (Hst eq_refl); by right|done]|by left; rewrite Hp].
Qed.

Lemma rotating_keeps s k r o s' :
  inv s k -> pc s = Rotating r -> answer_ok o -> rotate_at crc32c r o s = Some s' -> inv s' k.
Proof using crc_range.
  clear capacity_pow2. intros Hinv Hp Ho. pose proof (not_poisoned _ _ Hinv) as Hnp.
  pose proof Hinv as [Hr (clean & Hf & Hcl) Hcur Hm Hpc Hpo [Ha Hreq]]. unfold pc_ok in Hpc. rewrite Hp in *.
  specialize (Hcl eq_refl) as ->. specialize (Hnp eq_refl). destruct Hpc as [Heq Hlev].
  assert (Hfail : forall e, inv (set_pc (Answering (Err e)) s) k) by (intros e; apply inv_pc; try done; by left; rewrite Hp).
  destruct o; try done; cbn [rotate_at]; [|by intros [= <-]].
  destruct Hlev as (H1 & H2 & H3 & H4 & H5 & H6). rewrite H2, <- H1 in Hf.
  destruct (file_rotates s (w k) (Control.prepared r) _ _ sizes Hf Hreq Ho) as (sealed & f & Hrot & Hf').
  rewrite Hrot. intros [= <-]. replace (Z.to_nat (next_read (consumer s))) with (w k) by lia. keeps.
  - by apply (ring_inv_same s); [..|apply (ri_stop _ Hr)].
  - exists true. split; [|done]. rewrite H2, <- H1. by destruct Hf'; split.
Qed.

Lemma syncing_keeps s k m :
  inv s k -> pc s = Syncing m -> exists k', inv (set_pc (Publishing m 0) (set_synced (write_pos (segment s)) s)) k'.
Proof using Type.
  clear capacity_pow2 crc_range. intros Hinv Hp. pose proof (not_poisoned _ _ Hinv) as Hnp.
  pose proof Hinv as [Hr (clean & Hf & Hcl) Hcur Hm Hpc Hpo [Ha _]]. unfold pc_ok in Hpc. rewrite Hp in *.
  specialize (Hcl eq_refl) as ->. specialize (Hnp eq_refl). destruct Hpc as (Hun & Hw & Hlt & Hmeta).
  exists {| w := w k; d := w k; ni := ni k; nf := nf k; nw := nw k; nt := nt k |}.
  destruct Hun as (H2 & H3 & H4 & H5 & H6). keeps.
  - by apply (ring_inv_same s); [..|apply (ri_stop _ Hr)].
  - exists true. split; [|done]. cbn. by destruct (file_syncs _ _ _ _ Hf); split.
  - cbn. lia.
  - cbn. split_and!; try done; lia.
Qed.

Lemma disk_step_keeps o s s' k :
  inv s k -> answer_ok o -> disk_step crc32c capacity o s = Some s' -> exists k', inv s' k'.
Proof using crc_range.
  clear capacity_pow2. intros Hinv Ho. pose proof (in_ring _ _ Hinv) as Hr. pose proof (not_poisoned _ _ Hinv) as Hnp.
  assert (Hctl : forall c p, poisoned c = poisoned (control s) -> stop c = stop (control s) ->
    stop_view c = stop_view (control s) -> (poisoned c = true -> p = Exited) -> pc_ok (set_pc p (set_control c s)) k ->
    asked_ok (set_pc p (set_control c s)) -> (failed (pc s) = true -> failed p = true) -> inv (set_pc p (set_control c s)) k).
  { intros c p H1 H2 H3 H4 H5 H6 H7. destruct Hinv as [_ (clean & Hf & Hcl) Hcur Hm _ _ _]. split; try done.
    - apply (ring_inv_same s); try done. cbn. rewrite H2, H3. apply (ri_stop _ Hr).
    - exists clean. split; [by destruct Hf; split|]. cbn. intros Hp. apply Hcl. destruct (failed (pc s)); [|done].
      by rewrite H7 in Hp. }
  unfold disk_step. destruct (pc s) as [|b last|b m i iov|m|m j| |b|r|res|e| |] eqn:Hp; try (by destruct o); cbn [failed] in *.
  - destruct o; try done. destruct (_ && _) eqn:Hb; [done|]. intros [= <-]. exists k. apply top_keeps; [done..|].
    intros ->. by destruct (stop _).
  - destruct o; try done. by apply (staging_keeps s k).
  - by apply (writing_keeps s k).
  - destruct o; try done; intros [= <-]; [by eapply syncing_keeps|]. exists k.
    apply inv_pc; try done; [by left; rewrite Hp|by apply Hnp].
  - destruct o; try done. intros [= <-]. by apply (publishing_keeps s k).
  - destruct o; try done. destruct (commit _ _) as [r c] eqn:Hc. intros [= <-]. exists k.
    pose proof (committing_keeps s k Hinv Hp) as Hk. by rewrite Hc in Hk.
  - destruct o; try done. intros Hs. exists k. eapply asking_keeps; [done..|]. unfold disk_step. by rewrite Hp.
  - intros Hs. exists k. by eapply rotating_keeps.
  - destruct o; try done. intros [= <-]. exists k. specialize (Hnp eq_refl). apply Hctl; try done; cbn; [congruence|].
    pose proof (in_pc _ _ Hinv) as Hpc. unfold pc_ok in Hpc. by rewrite Hp in Hpc.
  - destruct o; try done. intros [= <-]. exists k. apply Hctl; try done; cbn.
    + intros Hpo. by rewrite (in_poison _ _ Hinv Hpo) in Hp.
    + by destruct (in_asked _ _ Hinv).
  - destruct o; try done. intros [= <-]. exists k. destruct Hinv as [_ (clean & Hf & Hcl) Hcur Hm _ _ [Ha _]]. split; try done.
    + by apply (ring_inv_same s); [..|apply (ri_stop _ Hr)].
    + exists clean. split; [by destruct Hf; split|done].
    + by left.
Qed.

Lemma unwind_keeps s s' k : inv s k -> unwind s = Some s' -> inv s' k.
Proof using Type.
  clear capacity_pow2 crc_range. intros Hinv. unfold unwind.
  assert (Hp : poisoned (control s) = true -> pc s = Exited) by apply (in_poison _ _ Hinv).
  destruct (pc s) eqn:Hpc; try done; destruct (poisoned _) eqn:Hpo; try (by specialize (Hp eq_refl)); intros [= <-];
    apply inv_pc; try done; by right.
Qed.

(** What is asked of the other thread and the device. *)
Definition act_ok (a : Act) : Prop :=
  match a with Disk o => answer_ok o | Unwind => True | Seq a => seq_ok a end.

Lemma acts_keep acts s s' k :
  inv s k -> Forall act_ok acts -> run crc32c capacity acts s = Some s' -> exists k', inv s' k'.
Proof using capacity_pow2 crc_range.
  intros Hinv Hok. revert s k Hinv. induction Hok as [|a acts Ha _ IH]; intros s k Hinv; cbn [run].
  - intros [= <-]. by exists k.
  - destruct (exec crc32c capacity a s) as [s1|] eqn:He; [|done]. cbn [mbind option_bind]. intros Hrun.
    assert (exists k1, inv s1 k1) as [k1 Hinv1]; [|by eapply IH].
    destruct a; cbn in He, Ha.
    + by eapply disk_step_keeps.
    + exists k. by eapply unwind_keeps.
    + exists k. by eapply seq_step_keeps.
Qed.

(** The file half of a writer with nothing unsynced. *)
Definition opened (f : SegmentFile) : Prop :=
  header_ok MAX_SECTOR_SIZE start0 anchor0 g /\ genesis f = g /\
  (exists pad, contents f = header crc32c start0 anchor0 g ++ data0 ++ replicate pad 0) /\
  write_pos f = length (header crc32c start0 anchor0 g ++ data0).

Lemma start_inv f : opened f -> exists k, inv (start capacity f sealed0 c0) k.
Proof using capacity_pow2.
  intros (Hh & Hg & [pad Hc] & Hp). exists {| w := 0; d := 0; ni := 0; nf := 0; nw := 0; nt := 0 |}.
  assert (Hlay : layout start0 anchor0 data0 0 [] 0 [] = ([], (start0, anchor0, data0))) by (cbn; by rewrite app_nil_r).
  assert (Hcap : 0 <= capacity) by (destruct capacity_pow2 as (e & He & ->); lia).
  split; try done.
  - split; try done; cbn; try lia.
    + by rewrite length_replicate.
    + rewrite length_replicate. split; [done|]. apply Forall_replicate. rewrite length_replicate. unfold CHUNK_SIZE. lia.
  - exists true. split; [|done].
    split; cbn [start build_journal_write_ring archives batches boundaries segment synced consumer next_read w d];
      rewrite ?Hlay; cbn [fst snd map]; unfold seg_bytes, seg_fits; cbn [fst snd]; rewrite ?app_nil_r; try done.
    + split; [cbn; lia|lia].
    + exists [], pad. rewrite Hc, <- app_assoc. by split_and!.
  - split; cbn; [done|by destruct (fsync_state c0)|by destruct (durable_wire_seq c0)|].
    destruct (advertised_tip c0); [|done]. split_and!; [cbn; lia..|by left].
Qed.
End kept.
End Kept.

(** ** What the hand-off guarantees *)
Module Durable.
Import Codec.Codec Codec.Facts WriteRing Control Thread Kept Journal.Segment Journal.Stream.

Section durable.
Context (crc32c : list Z -> Z) (capacity : Z).
Hypothesis capacity_pow2 : exists k, 1 <= k /\ capacity = 2 ^ k.
Hypothesis crc_range : forall bs, in_u32 (crc32c bs).
Variables (start0 : Z) (anchor0 data0 : list Z) (g : option Z) (sealed0 : list (list Z)) (c0 : DurabilityCursors).

Local Abbreviation lay s n := (layout start0 anchor0 data0 0 (boundaries s) n (batches s)).

(** Synced to disk are exactly the first [d] batches: the sealed segments, and the
    live one as far as it is synced. *)
Definition on_disk (s : Sys) (d : nat) : Prop :=
  ordered 0 (boundaries s) d /\
  archives s = sealed0 ++ map (seg_bytes crc32c g) (lay s d).1 /\
  take (synced s) (contents (segment s)) = seg_bytes crc32c g (lay s d).2.

Lemma file_on_disk s w d clean : file_inv crc32c start0 anchor0 data0 g sealed0 s w d clean -> on_disk s d.
Proof using Type.
  clear. intros [[Ho Hdw] Hse Hge Hh (junk & pad & Hc & _) Hp Hy].
  rewrite (layout_grow _ _ _ _ _ d w) in Hse, Hc by done. cbn [fst snd] in *. split_and!; [done..|].
  rewrite Hc, Hy, seg_grown, <- app_assoc. apply take_app_length.
Qed.

(** C5: Nothing is announced before it is on disk. However the sequencing thread's
    hand-offs, requests and loads interleave with the disk thread, whatever the
    device answers and wherever the disk thread panics: there is a number of batches
    [d] such that exactly the first [d] handed over are synced, in order and in the
    segments the rotations put them in; each durable cursor (ring progress, fsync
    state, wire sequence, advertised tip) describes one of those, the ring progress
    first and the tip last; a slot is handed back only behind all four. A ring seen
    drained means everything handed over is synced and announced, and a thread that
    left on the stop flag has synced and announced everything handed over before the
    flag was set. *)
Theorem announced_is_durable f acts s :
  opened crc32c start0 anchor0 data0 g f -> Forall (act_ok g) acts ->
  run crc32c capacity acts (start capacity f sealed0 c0) = Some s ->
  exists d ni nf nw nt,
    on_disk s d /\ published c0 (cursors s) (batches s) ni nf nw nt /\
    progress (ring s) <= Z.of_nat nt /\ (nt <= nw <= nf)%nat /\ (nf <= ni <= d)%nat /\
    (d <= length (batches s))%nat /\ cursor (ring s) = Z.of_nat (length (batches s)) /\
    (pc s = Exited -> poisoned (control s) = false ->
     stop (control s) = true /\ stop_view (control s) <= Z.of_nat nt).
Proof using capacity_pow2 crc_range.
  intros Hopen Hok Hrun.
  destruct (start_inv crc32c capacity capacity_pow2 start0 anchor0 data0 g sealed0 c0 f Hopen) as [k0 Hinv0].
  destruct (acts_keep crc32c capacity capacity_pow2 crc_range start0 anchor0 data0 g sealed0 c0 acts _ _ k0 Hinv0 Hok Hrun)
    as [k [Hr (clean & Hf & _) Hcur Hm Hpc _ _]].
  exists (d k), (ni k), (nf k), (nw k), (nt k). pose proof (ri_len _ _ Hr). pose proof (ri_order _ _ Hr).
  split; [by eapply file_on_disk|]. split_and!; try done; try lia. intros He Hp.
  unfold pc_ok in Hpc. rewrite He, Hp in Hpc. destruct Hpc as [|(Heq & Hlev & Hs & Hv)]; [done|]. split; [done|].
  destruct Hlev as (_ & _ & _ & _ & _ & Ht). lia.
Qed.

(** What a crash can leave of the live segment: the synced bytes, and behind them
    anything as far as the batches the thread has taken up reach. *)
Definition crash_image (s : Sys) (file : list Z) : Prop :=
  take (synced s) file = take (synced s) (contents (segment s)) /\
  forall i v, file !! i = Some v -> v <> 0 -> (synced s <= i)%nat ->
    Z.of_nat i < Z.of_nat (synced s) + staged_total_bytes (consumer s).

Lemma span_bound a b bts :
  Forall (fun b => 0 <= len b.1 <= CHUNK_SIZE /\ Z.of_nat (length b.2) = len b.1) bts ->
  Z.of_nat (length (span a b bts)) <= Z.of_nat (b - a) * CHUNK_SIZE.
Proof using Type.
  clear. intros Hb. unfold span.
  assert (Hf : Forall (fun b => 0 <= len b.1 <= CHUNK_SIZE /\ Z.of_nat (length b.2) = len b.1) (take (b - a) (drop a bts)))
    by by apply Forall_take, Forall_drop.
  assert (Hl : (length (take (b - a) (drop a bts)) <= b - a)%nat) by (rewrite length_take; lia).
  revert Hf Hl. generalize (take (b - a) (drop a bts)). generalize (b - a)%nat. clear. intros n xs. revert n.
  induction xs as [|x xs IH]; intros n Hf Hl; [cbn; unfold CHUNK_SIZE; lia|]. inversion Hf; subst. cbn in *.
  rewrite length_app. destruct n as [|n]; [lia|]. match goal with H : Forall _ xs |- _ => specialize (IH n H ltac:(lia)) end. lia.
Qed.

(** What the thread has taken up fits recovery's bound. *)
Lemma staged_bound s k : Kept.inv crc32c capacity start0 anchor0 data0 g sealed0 c0 s k ->
  capacity * CHUNK_SIZE <= Reader.Reader.MAX_UNSYNCED_BYTES ->
  staged_total_bytes (consumer s) <= Reader.Reader.MAX_UNSYNCED_BYTES.
Proof using Type.
  clear. intros Hinv Hcap. pose proof (in_ring _ _ _ _ _ _ _ _ _ _ Hinv) as Hr.
  pose proof (ri_order _ _ Hr) as Hord. pose proof (ri_room _ _ Hr) as Hroom.
  rewrite (staged_total _ _ Hr). pose proof (span_bound (Z.to_nat (progress (ring s))) (Z.to_nat (next_read (consumer s))) _ (ri_bytes _ _ Hr)).
  etransitivity; [done|]. etransitivity; [|exact Hcap]. apply Z.mul_le_mono_nonneg_r; [unfold CHUNK_SIZE|]; lia.
Qed.

(** A crash image: the synced segment, and a tail recovery forgives. *)
Lemma image_splits s k file : Kept.inv crc32c capacity start0 anchor0 data0 g sealed0 c0 s k ->
  capacity * CHUNK_SIZE <= Reader.Reader.MAX_UNSYNCED_BYTES -> crash_image s file ->
  on_disk s (d k) /\ file = seg_bytes crc32c g (lay s (d k)).2 ++ drop (synced s) file /\
  Reader.Recovery.harmless Reader.Reader.Live (drop (synced s) file).
Proof using Type.
  clear. intros Hinv Hcap [Ht Hnz]. pose proof (staged_bound s k Hinv Hcap) as Hb.
  destruct (in_file _ _ _ _ _ _ _ _ _ _ Hinv) as (clean & Hf & _). pose proof (file_on_disk _ _ _ _ Hf) as Hod.
  split; [done|]. destruct Hod as (_ & _ & Hlive). rewrite <- Hlive, <- Ht, take_drop. split; [done|].
  intros i v Hi Hv. rewrite lookup_drop in Hi. split; [done|]. specialize (Hnz _ _ Hi Hv ltac:(lia)). lia.
Qed.

(** C27: A crash tears less than recovery forgives. At any moment the live file is
    itself such an image: behind the synced bytes nothing but the batches taken up
    this turn has been written. And whatever image a crash leaves, it is the synced
    segment, header and whole batches, followed by a tail whose non-zero bytes all
    lie within [MAX_UNSYNCED_BYTES], the bound under which recovery truncates a tail
    and beyond which it refuses the file. *)
Theorem torn_tail_bounded f acts s :
  opened crc32c start0 anchor0 data0 g f -> Forall (act_ok g) acts ->
  capacity * CHUNK_SIZE <= Reader.Reader.MAX_UNSYNCED_BYTES ->
  run crc32c capacity acts (start capacity f sealed0 c0) = Some s ->
  crash_image s (contents (segment s)) /\
  forall file, crash_image s file -> exists d tail, on_disk s d /\
    file = seg_bytes crc32c g (lay s d).2 ++ tail /\ Reader.Recovery.harmless Reader.Reader.Live tail.
Proof using capacity_pow2 crc_range.
  intros Hopen Hok Hcap Hrun.
  destruct (start_inv crc32c capacity capacity_pow2 start0 anchor0 data0 g sealed0 c0 f Hopen) as [k0 Hinv0].
  destruct (acts_keep crc32c capacity capacity_pow2 crc_range start0 anchor0 data0 g sealed0 c0 acts _ _ k0 Hinv0 Hok Hrun)
    as [k Hinv].
  split; [|intros file Hi; exists (d k), (drop (synced s) file); by apply image_splits].
  destruct Hinv as [Hr (clean & Hf & _) Hcur Hm Hpc _ _]. pose proof (staged_total _ _ Hr) as Htot. pose proof (ri_order _ _ Hr) as Hord.
  destruct Hf as [[Ho Hdw] Hse Hge Hh (junk & pad & Hc & _ & Hj) Hp Hy].
  rewrite (layout_grow _ _ _ _ _ (d k) (w k)) in Hc by done. cbn [snd] in Hc. rewrite seg_grown in Hc.
  assert (Hsl : (synced s + length (span (d k) (w k) (batches s)) + length junk <=
                 synced s + Z.to_nat (staged_total_bytes (consumer s)))%nat).
  { rewrite Htot, Nat2Z.id.
    rewrite (span_split (Z.to_nat (progress (ring s))) (d k) (Z.to_nat (next_read (consumer s)))) by lia.
    rewrite (span_split (d k) (w k) (Z.to_nat (next_read (consumer s)))), !length_app by lia. lia. }
  split; [done|]. intros i v Hi Hv Hge'. destruct (decide (Z.of_nat i < Z.of_nat (synced s) + staged_total_bytes (consumer s))) as [|Hn]; [done|].
  exfalso. apply Hv. rewrite Hc, app_assoc, lookup_app_r in Hi; [by apply lookup_replicate in Hi as [-> _]|].
  rewrite !length_app, <- Hy. lia.
Qed.
End durable.
End Durable.

(** ** Two batches, a rotation and a stop *)
Module Sample.
Import Codec.Codec Codec.Facts WriteRing Control Thread Kept Durable Journal.Segment Journal.Stream.

Definition no_crc (_ : list Z) : Z := 0.
Definition live : SegmentFile :=
  {| contents := header no_crc 1 (replicate 32 0) (Some 0) ++ replicate 4 0; write_pos := 4096;
     allocated_end := 4100; prealloc := 8; pre_written := false; genesis := Some 0 |}.
Definition no_cursors : DurabilityCursors :=
  {| input_progress := 0; fsync_state := None; durable_wire_seq := Some 0; advertised_tip := Some 0 |}.
Definition chunk (bytes : list Z) : list Z := bytes ++ replicate (Z.to_nat CHUNK_SIZE - length bytes) 0.

(** One turn that drains [n] batches. *)
Definition turn (n : nat) (upto : Z) : list Act :=
  Disk (SeesStop false) :: replicate (S n) (Disk (SeesCursor upto)) ++
  replicate (S n) (Disk (Wrote [1%nat; 2%nat])) ++ Disk SyncOk :: replicate 5 (Disk Proceeds).

Definition hand_over (bytes : list Z) (seq : Z) : list Act :=
  [Seq (TryClaim 0); Seq (Fill (chunk bytes)); Seq (Publish (Meta (Z.of_nat (length bytes)) seq [] seq))].

Definition acts : list Act :=
  hand_over [7; 8; 9] 1 ++ hand_over [5] 2 ++ turn 2 2 ++
  [Seq (AskDrained 2 true);
   Seq (RequestRotation {| prepared := None; starting_sequence := 3; anchor_hash := replicate 32 1 |});
   Disk (SeesStop false); Disk (SeesCursor 2); Disk Proceeds; Disk (Wrote []); Disk Proceeds;
   Seq (TakeRotationResult (Some (Ok tt))); Seq (TryClaim 2); Seq (Fill (chunk [4])); Seq (Publish (Meta 1 3 [] 3));
   Seq Stop; Disk (SeesStop true); Disk (SeesCursor 3); Disk (SeesCursor 3); Disk (Wrote []); Disk (WriteFailed 0)].

Lemma pow2_2 : exists k, 1 <= k /\ 2 = 2 ^ k.
Proof. by exists 1. Qed.

Lemma sample_opened : opened no_crc 1 (replicate 32 0) [] (Some 0) live.
Proof.
  split; [|split; [done|split; [by exists 4%nat|by vm_compute]]].
  split; [by right|]. split; [widths; lia|]. split; [done|]. widths; lia.
Qed.

Lemma sample_request : request_ok (Some 0) {| prepared := None; starting_sequence := 3; anchor_hash := replicate 32 1 |}.
Proof. unfold request_ok. cbn [starting_sequence anchor_hash]. split; [by right|split; [widths; lia|split; [done|widths; lia]]]. Qed.

Lemma sample_ok : Forall (act_ok (Some 0)) acts.
Proof.
  unfold acts, hand_over, turn. cbn [replicate Datatypes.app].
  repeat first [apply Forall_nil_2 | apply Forall_cons_2 | exact sample_request | exact I
               | cbn [act_ok answer_ok]; lia].
Qed.

Local Abbreviation ends := (run no_crc 2 acts (start 2 live [] no_cursors)).

Definition ran (o : option Sys) : bool :=
  match o with
  | Some s => bool_decide (durable_wire_seq (cursors s) = Some 2) && bool_decide (length (archives s) = 1%nat) &&
              match pc s with Failing _ => true | _ => false end
  | None => false
  end.

Lemma ran_some o : ran o = true -> exists s, o = Some s.
Proof. destruct o as [s|]; [by exists s|done]. Qed.

Lemma sample_ends : exists s, ends = Some s.
Proof. apply ran_some. vm_compute. reflexivity. Qed.

Lemma announced_is_durable_witness : exists s d ni nf nw nt,
  ends = Some s /\ on_disk no_crc 1 (replicate 32 0) [] (Some 0) [] s d /\
  published no_cursors (cursors s) (batches s) ni nf nw nt.
Proof.
  destruct sample_ends as [s Hs].
  destruct (announced_is_durable no_crc 2 pow2_2 (fun _ => ltac:(split; [reflexivity|discriminate])) 1 (replicate 32 0) []
              (Some 0) [] no_cursors live acts s sample_opened sample_ok Hs) as (d & ni & nf & nw & nt & Hd & Hp & _).
  exists s, d, ni, nf, nw, nt. split; [exact Hs|]. split; [exact Hd|exact Hp].
Defined.

Lemma torn_tail_bounded_witness : exists s, ends = Some s /\ crash_image s (contents (segment s)) /\
  exists d tail, contents (segment s) = seg_bytes no_crc (Some 0) (layout 1 (replicate 32 0) [] 0 (boundaries s) d (batches s)).2 ++ tail /\
    Reader.Recovery.harmless Reader.Reader.Live tail.
Proof.
  destruct sample_ends as [s Hs]. exists s.
  destruct (torn_tail_bounded no_crc 2 pow2_2 (fun _ => ltac:(split; [reflexivity|discriminate])) 1 (replicate 32 0) []
              (Some 0) [] no_cursors live acts s sample_opened sample_ok ltac:(discriminate) Hs) as (Hc & Hall).
  split; [exact Hs|]. split; [exact Hc|]. destruct (Hall _ Hc) as (d & tail & _ & He & Hh). exists d, tail. split; [exact He|exact Hh].
Defined.
End Sample.
