(* ===== verification/Sequencer.v ===== *)
(** * The sequencing thread

    The half of the journal stage that never touches the device
    ([transport-core/src/pipeline.rs], [Sequencer] and [SequencerCore]): it reads
    the input ring, gives each event its sequence, encodes it into a slot of the
    write ring, feeds the replication rings, hands batches to the disk thread, and
    rotates: on a primary when the segment is full or an operator asks, on a
    replica where the primary announced it.

    [Shell] is what it runs on: the state of both threads ([Disk.Thread.Sys]) and a
    script of what its loads return, in which the disk thread's steps may appear
    anywhere. A computation ends with a value, with an error, waiting where the
    script ends, or in a panic. [Loop] is the thread itself. What it keeps true of
    what it has handed over is in [Handover]; [Restart] puts the two threads, a crash
    and recovery together. *)

From S2P Require Import Prelude Cursors Lineage Stages Codec Journal Wire Protocol Acks Receiver Reader Segments Disk Recovery.
Import Lineage.Event Codec.Codec Stages.Dispatch Stages.Journaling.

(** ** Running beside the disk thread *)
Module Shell.
Import Wire.Wire Journal.Encoder Journal.Segment Disk.WriteRing Disk.Control Disk.Thread.
Local Abbreviation StreamMark := Receiver.Stream.StreamMark.

Section shell.
Context {E : Type} `{AppEvent E}.

(** What the next load or call returns; [Beside] is a step of the disk thread. *)
Inductive Reply :=
| Beside (a : Act)
| Seen (v : Z)
| Flag (b : bool)
| Slots (slots : list (InputSlot E))
| Mark (m : option StreamMark)
| Now (t : Z)
| Staged (p : option PreparedSegment).

(** [JournalStage]'s configuration, as [SequencerCore] and [Sequencer] carry it. *)
Record Config := {
  capacity : Z;
  chain_hash_observed : bool;
  max_journal_bytes : Z;
  producers : list bool;
  marks_wired : bool;
  max_batch : nat;
  no_delay : bool
}.

(** [SequencerCore] with the consumer's read cursor; the claimed chunk is the ring's. *)
Record Core := {
  encoder : JournalEncoder;
  segment_bytes : Z;
  accum : Accum;
  batches_since_chain_check : Z;
  rotation_backoff_until : option Z;
  pending_mark : option StreamMark;
  next_read : Z
}.

(** The whole: [trace] is what both threads have done, [input] the slots read,
    [sent] the frames each replication ring took and [evicted] the rings that had no
    room. *)
Record St := {
  core : Core; sys : Sys; trace : list Act; input : list (InputSlot E);
  sent : list (nat * list Z * Z); evicted : list nat; script : list Reply
}.

Inductive Val (A : Type) := Got (a : A) | Fails (e : JournalError) | Waits | Panics.
Arguments Got {A} a.
Arguments Fails {A} e.
Arguments Waits {A}.
Arguments Panics {A}.

Definition M (A : Type) : Type := St -> Val A * St.

Definition ret {A} (a : A) : M A := fun st => (Got a, st).
Definition bind {A B} (m : M A) (f : A -> M B) : M B := fun st =>
  match m st with
  | (Got a, st) => f a st
  | (Fails e, st) => (Fails e, st)
  | (Waits, st) => (Waits, st)
  | (Panics, st) => (Panics, st)
  end.
Definition fail {A} (e : JournalError) : M A := fun st => (Fails e, st).
Definition waits {A} : M A := fun st => (Waits, st).
Definition panic {A} : M A := fun st => (Panics, st).
Definition lift {A} (r : result A JournalError) : M A := match r with Ok a => ret a | Err e => fail e end.
Definition get {A} (f : St -> A) : M A := fun st => (Got (f st), st).
Definition lift_panic {A} (o : option A) : M A := match o with Some a => ret a | None => panic end.

Definition set_core (c : Core) (st : St) : St :=
  {| core := c; sys := sys st; trace := trace st; input := input st; sent := sent st; evicted := evicted st;
     script := script st |}.
Definition set_sys (s : Sys) (a : Act) (st : St) : St :=
  {| core := core st; sys := s; trace := trace st ++ [a]; input := input st; sent := sent st;
     evicted := evicted st; script := script st |}.
Definition set_script (l : list Reply) (st : St) : St :=
  {| core := core st; sys := sys st; trace := trace st; input := input st; sent := sent st;
     evicted := evicted st; script := l |}.
Definition put_core (f : Core -> Core) : M unit := fun st => (Got tt, set_core (f (core st)) st).

Context (crc32c : list Z -> Z) (cfg : Config).

(** The disk thread runs as long as the script says so. *)
Fixpoint settle (l : list Reply) (st : St) : St :=
  match l with
  | Beside (Seq _) :: _ => set_script l st
  | Beside a :: rest =>
      match exec crc32c (capacity cfg) a (sys st) with
      | Some s => settle rest (set_sys s a st)
      | None => set_script l st
      end
  | _ => set_script l st
  end.

(** The next reply, if it is of the kind asked for. *)
Definition pop {A} (f : Reply -> option A) : M A := fun st =>
  let st := settle (script st) st in
  match script st with
  | r :: rest => match f r with Some a => (Got a, set_script rest st) | None => (Waits, st) end
  | [] => (Waits, st)
  end.

Definition pop_seen : M Z := pop (fun r => match r with Seen v => Some v | _ => None end).
Definition pop_flag : M bool := pop (fun r => match r with Flag b => Some b | _ => None end).
Definition pop_slots (max : nat) : M (list (InputSlot E)) :=
  pop (fun r => match r with Slots l => if (length l <=? max)%nat then Some l else None | _ => None end).
Definition pop_mark : M (option StreamMark) := pop (fun r => match r with Mark m => Some m | _ => None end).
Definition pop_now : M Z := pop (fun r => match r with Now t => Some t | _ => None end).
Definition pop_staged : M (option PreparedSegment) := pop (fun r => match r with Staged p => Some p | _ => None end).

(** An access of this thread to what the two share; an assertion that fails panics. *)
Definition act (a : SeqAct) : M unit := fun st =>
  match seq_step (capacity cfg) a (sys st) with
  | Some s => (Got tt, set_sys s (Seq a) st)
  | None => (Panics, st)
  end.

(** A load of the consumer's progress: at most what it stands at. *)
Definition load_progress : M Z :=
  bind pop_seen (fun v => bind (get sys) (fun s =>
  if (0 <=? v) && (v <=? progress (ring s)) then ret v else waits)).

Definition try_claim : M bool :=
  bind load_progress (fun v => bind (act (TryClaim v)) (fun _ =>
  get (fun st => bool_decide (is_Some (claimed (producer (sys st))))))).

Definition poisoned : M bool :=
  bind pop_flag (fun b => bind (get sys) (fun s =>
  if b && negb (Control.poisoned (control s)) then waits else bind (act (AskPoisoned b)) (fun _ => ret b))).

Definition drained : M bool :=
  bind load_progress (fun v => bind (get sys) (fun s =>
  let b := WriteRing.drained v (ring s) in bind (act (AskDrained v b)) (fun _ => ret b))).

Definition take_poison : M JournalError :=
  bind (get (fun st => error (control (sys st)))) (fun e => bind (act (TakeError e)) (fun _ => ret (default Io e))).

Definition take_rotation_result : M (option (result unit JournalError)) :=
  bind (get (fun st => fst (Control.take_rotation_result (control (sys st))))) (fun r =>
  bind (act (TakeRotationResult r)) (fun _ => ret r)).

(** [read_contiguous]: at most [max] slots, and the read cursor past them. *)
Definition read_contiguous (max : nat) : M (list (InputSlot E)) :=
  bind (pop_slots max) (fun slots => fun st =>
  let c := core st in
  (Got slots,
   {| core := {| encoder := encoder c; segment_bytes := segment_bytes c; accum := accum c;
                 batches_since_chain_check := batches_since_chain_check c;
                 rotation_backoff_until := rotation_backoff_until c; pending_mark := pending_mark c;
                 next_read := next_read c + Z.of_nat (length slots) |};
      sys := sys st; trace := trace st; input := input st ++ slots; sent := sent st; evicted := evicted st;
      script := script st |})).
End shell.

Arguments Reply E : clear implicits.
Arguments St E : clear implicits.
Arguments M E A : clear implicits.
Arguments Got {A} a.
Arguments Fails {A} e.
Arguments Waits {A}.
Arguments Panics {A}.

#[export] Instance M_ret {E} : MRet (M E) := @ret E.
#[export] Instance M_bind {E} : MBind (M E) := fun A B f m => bind m f.
End Shell.


(** ** The thread *)
Module Loop.
Import Wire.Wire Protocol.Control Journal.Encoder Journal.Segment Disk.WriteRing Disk.Control Disk.Thread Shell.
Import Receiver.Stream(StreamMark(..)).

Section loop.
Context {A E R Q : Type} `{Application A E R Q} `{AppEvent E}.
Context (crc32c : list Z -> Z) (blake3 : list Z -> list Z) (cfg : Config).

Local Abbreviation pop_flag := (Shell.pop_flag crc32c cfg).
Local Abbreviation act := (Shell.act cfg).

(** This application's batch cap, [Sequencer::MAX_BATCH]. *)
Definition MAX_BATCH : nat := Z.to_nat (Recovery.Genesis.max_journal_batch (E:=E)).

Definition chain_hash (enc : JournalEncoder) : list Z := Journal.Chain.value blake3 (hash_chain enc).

Definition set_encoder (enc : JournalEncoder) (c : Core) : Core :=
  {| encoder := enc; segment_bytes := segment_bytes c; accum := accum c;
     batches_since_chain_check := batches_since_chain_check c;
     rotation_backoff_until := rotation_backoff_until c; pending_mark := pending_mark c; next_read := next_read c |}.
Definition set_segment_bytes (n : Z) (c : Core) : Core :=
  {| encoder := encoder c; segment_bytes := n; accum := accum c;
     batches_since_chain_check := batches_since_chain_check c;
     rotation_backoff_until := rotation_backoff_until c; pending_mark := pending_mark c; next_read := next_read c |}.
Definition set_accum (a : Accum) (c : Core) : Core :=
  {| encoder := encoder c; segment_bytes := segment_bytes c; accum := a;
     batches_since_chain_check := batches_since_chain_check c;
     rotation_backoff_until := rotation_backoff_until c; pending_mark := pending_mark c; next_read := next_read c |}.
Definition set_since_check (n : Z) (c : Core) : Core :=
  {| encoder := encoder c; segment_bytes := segment_bytes c; accum := accum c; batches_since_chain_check := n;
     rotation_backoff_until := rotation_backoff_until c; pending_mark := pending_mark c; next_read := next_read c |}.
Definition set_backoff (t : option Z) (c : Core) : Core :=
  {| encoder := encoder c; segment_bytes := segment_bytes c; accum := accum c;
     batches_since_chain_check := batches_since_chain_check c;
     rotation_backoff_until := t; pending_mark := pending_mark c; next_read := next_read c |}.
Definition set_pending_mark (m : option StreamMark) (c : Core) : Core :=
  {| encoder := encoder c; segment_bytes := segment_bytes c; accum := accum c;
     batches_since_chain_check := batches_since_chain_check c;
     rotation_backoff_until := rotation_backoff_until c; pending_mark := m; next_read := next_read c |}.

Definition any_producer : bool := existsb id (producers cfg).

(** *** The replication rings *)

(** [ReplicationProducer::try_publish], on a ring with room or without; then the
    eviction of a ring without. *)
Definition try_publish (i : nat) (bytes : list Z) (end_seq : Z) (room : bool) : M E unit := fun st =>
  (Got tt, {| core := core st; sys := sys st; trace := trace st; input := input st;
              sent := if room then sent st ++ [(i, bytes, end_seq)] else sent st;
              evicted := if room then evicted st else evicted st ++ [i]; script := script st |}).

(** The frame to one ring: skipped when it is not streamed to or already given up
    on; a ring with no room is given up on. [None]: the frame is larger than a slot. *)
Definition publish_to_ring (i : nat) (bytes : list Z) (end_seq : Z) : M E unit :=
  active ← pop_flag;
  if negb active then mret tt else
  evict ← pop_flag;
  if (evict : bool) then mret tt else
  if Recovery.Genesis.REPLICATION_CHUNK_SIZE <? Z.of_nat (length bytes) then panic else
  room ← pop_flag;
  try_publish i bytes end_seq room.

Fixpoint publish_to_rings_from (i : nat) (ps : list bool) (bytes : list Z) (end_seq : Z) : M E unit :=
  match ps with
  | [] => mret tt
  | p :: ps => (if (p : bool) then publish_to_ring i bytes end_seq else mret tt);;
               publish_to_rings_from (S i) ps bytes end_seq
  end.

Definition publish_to_replication_rings (bytes : list Z) (end_seq : Z) : M E unit :=
  publish_to_rings_from 0 (producers cfg) bytes end_seq.

Definition publish_input_batch_to_rings (end_seq : Z) : M E unit :=
  a ← get (fun st => accum (core st));
  let '(frame, a) := publish_input_batch a in
  match frame with
  | None => mret tt
  | Some frame => publish_to_replication_rings frame end_seq;; put_core (set_accum a)
  end.

Definition CHAIN_CHECK_INTERVAL_BATCHES : Z := 64.

Definition maybe_publish_chain_check : M E unit :=
  if negb any_producer then mret tt else
  c ← get core;
  let n := batches_since_chain_check c + 1 in
  if n <? CHAIN_CHECK_INTERVAL_BATCHES then put_core (set_since_check n) else
  put_core (set_since_check 0);;
  let sequence := next_sequence (encoder c) - 1 in
  publish_to_replication_rings (encode_chain_check sequence (chain_hash (encoder c))) sequence.

Definition publish_rotate_to_rings : M E unit :=
  if negb any_producer then mret tt else
  enc ← get (fun st => encoder (core st));
  let boundary_seq := next_sequence enc - 1 in
  publish_to_replication_rings (encode_rotate boundary_seq (chain_hash enc)) boundary_seq.

(** *** The hand-off *)

(** The spin on a full ring, a claim a turn. *)
Fixpoint claim_loop (fuel : nat) : M E unit :=
  match fuel with
  | O => waits
  | S fuel =>
      ok ← Shell.try_claim crc32c cfg;
      if (ok : bool) then mret tt else
      bad ← Shell.poisoned crc32c cfg;
      if (bad : bool) then (e ← Shell.take_poison cfg; fail e) else claim_loop fuel
  end.

Definition fuelled {X} (f : nat -> M E X) : M E X := fun st => f (S (length (script st))) st.

Definition claim_slot : M E unit :=
  held ← get (fun st => bool_decide (is_Some (claimed (producer (sys st)))));
  if (held : bool) then mret tt else fuelled claim_loop.

(** The claimed chunk's bytes. *)
Definition claimed_bytes (s : Sys) : option (list Z) :=
  (fun q => chunk_bytes (capacity cfg) q (ring s)) <$> claimed (producer s).

Definition submit_batch (progress : Z) : M E unit :=
  (if any_producer then
     enc ← get (fun st => encoder (core st)); publish_input_batch_to_rings (next_sequence enc - 1)
   else mret tt);;
  enc ← get (fun st => encoder (core st));
  let meta := Meta (Z.of_nat (batch_len enc)) (sat_sub (next_sequence enc) 1)
                (if chain_hash_observed cfg then chain_hash enc else replicate 32 0) progress in
  claim_slot;;
  act (Publish meta);;
  put_core (fun c => set_segment_bytes (segment_bytes c + Z.of_nat (batch_len enc)) (set_encoder (clear_batch enc) c)).

Fixpoint drain_loop (fuel : nat) : M E unit :=
  match fuel with
  | O => waits
  | S fuel =>
      ok ← Shell.drained crc32c cfg;
      if (ok : bool) then mret tt else
      bad ← Shell.poisoned crc32c cfg;
      if (bad : bool) then (e ← Shell.take_poison cfg; fail e) else drain_loop fuel
  end.

Definition drain_disk : M E unit := fuelled drain_loop.

(** *** Rotation *)

Definition ROTATION_FAILURE_BACKOFF : Z := 30 * 1000000000.

Fixpoint await_loop (fuel : nat) : M E (result unit JournalError) :=
  match fuel with
  | O => waits
  | S fuel =>
      r ← Shell.take_rotation_result cfg;
      match r with
      | Some res => mret res
      | None =>
          bad ← Shell.poisoned crc32c cfg;
          if (bad : bool) then (e ← Shell.take_poison cfg; mret (Err e)) else await_loop fuel
      end
  end.

Definition await_rotation : M E (result unit JournalError) := fuelled await_loop.

(** A computation whose error is a value. *)
Definition catch {X} (m : M E X) : M E (result X JournalError) := fun st =>
  match m st with
  | (Got x, st) => (Got (Ok x), st)
  | (Fails e, st) => (Got (Err e), st)
  | (Waits, st) => (Waits, st)
  | (Panics, st) => (Panics, st)
  end.

(** The outcome; which staging path it took only feeds a counter. *)
Definition rotate_taking_prepared : M E (result unit JournalError) :=
  d ← catch drain_disk;
  match d with
  | Err e => mret (Err e)
  | Ok _ =>
      p ← Shell.pop_staged crc32c cfg;
      enc ← get (fun st => encoder (core st));
      let start := next_sequence enc in
      let anchor := chain_hash enc in
      act (RequestRotation {| prepared := p; starting_sequence := start; anchor_hash := anchor |});;
      res ← await_rotation;
      match res with
      | Ok _ => put_core (fun c => set_segment_bytes (Z.of_nat ENTRY_OFFSET) (set_encoder (begin_segment enc start anchor) c));;
                mret (Ok tt)
      | Err e => mret (Err e)
      end
  end.

Definition backed_off_at (t : Z) (c : Core) : bool :=
  match rotation_backoff_until c with Some until => t <? until | None => false end.

(** Whether a local trigger has fired; the manual flag's [compare_exchange] is a reply. *)
Definition local_rotation_armed : M E bool :=
  manual ← pop_flag;
  c ← get core;
  let size_triggered := (0 <? max_journal_bytes cfg) && (max_journal_bytes cfg <=? segment_bytes c) in
  if negb (manual || size_triggered) then mret false else
  off ← match manual, rotation_backoff_until c with
        | false, Some _ => t ← Shell.pop_now crc32c cfg; mret (backed_off_at t c)
        | _, _ => mret false
        end;
  if (off : bool) then mret false else
  if next_sequence (encoder c) =? Encoder.starting_sequence (encoder c) then mret false else
  (if any_producer then publish_input_batch_to_rings (next_sequence (encoder c) - 1) else mret tt);;
  mret true.

Definition finish_local_rotation (res : result unit JournalError) : M E bool :=
  match res with
  | Ok _ => put_core (set_backoff None);; publish_rotate_to_rings;; mret true
  | Err e => t ← Shell.pop_now crc32c cfg; put_core (set_backoff (Some (t + ROTATION_FAILURE_BACKOFF)));; mret false
  end.

Definition maybe_rotate : M E bool :=
  armed ← local_rotation_armed;
  if (armed : bool) then (res ← rotate_taking_prepared; finish_local_rotation res) else mret false.

(** *** Stream marks *)

Definition refresh_pending_mark : M E unit :=
  c ← get core;
  match pending_mark c with
  | Some _ => mret tt
  | None =>
      if negb (marks_wired cfg) then mret tt else
      queued ← pop_flag;
      if (queued : bool) then (m ← Shell.pop_mark crc32c cfg; put_core (set_pending_mark m)) else mret tt
  end.

Definition marks_outstanding : M E bool :=
  c ← get core;
  match pending_mark c with
  | Some _ => mret true
  | None => if marks_wired cfg then pop_flag else mret false
  end.

(** How many of the slots may be encoded before the pending mark. *)
Fixpoint slots_upto (position : Z) (slots : list (InputSlot E)) : nat :=
  match slots with
  | [] => 0
  | slot :: rest => if position <? sequence slot then 0 else S (slots_upto position rest)
  end.

Definition mark_split (m : option StreamMark) (slots : list (InputSlot E)) : nat :=
  match m with
  | None => length slots
  | Some m => slots_upto (Receiver.Stream.mark_sequence m) slots
  end.

(** The rotation that is due, if any; what a turn of the loop finds. *)
Fixpoint resolve_loop (fuel : nat) (quiesced : bool) : M E (option (Z * list Z)) :=
  match fuel with
  | O => waits
  | S fuel =>
      refresh_pending_mark;;
      c ← get core;
      match pending_mark c with
      | None => mret None
      | Some mark =>
          let at_ := next_sequence (encoder c) - 1 in
          if at_ <? Receiver.Stream.mark_sequence mark then mret None else
          match mark with
          | MarkChainCheck sequence hash =>
              if sequence <? at_ then fail Io else
              let local := chain_hash (encoder c) in
              if bool_decide (local = hash)
              then put_core (set_pending_mark None);; resolve_loop fuel quiesced
              else fail (ReplicaChainDivergence sequence hash local)
          | MarkRotate boundary_seq tail_hash =>
              if Encoder.starting_sequence (encoder c) =? boundary_seq + 1
              then put_core (set_pending_mark None);; resolve_loop fuel quiesced
              else if boundary_seq <? at_ then fail Io
              else if negb quiesced then mret None
              else
                let local := chain_hash (encoder c) in
                if negb (bool_decide (tail_hash = replicate 32 0)) && negb (bool_decide (local = tail_hash))
                then fail (ReplicaChainDivergence boundary_seq tail_hash local)
                else mret (Some (boundary_seq, tail_hash))
          end
      end
  end.

Definition resolve_stream_marks (quiesced : bool) : M E (option (Z * list Z)) :=
  fuelled (fun fuel => resolve_loop fuel quiesced).

Definition finish_adoption : M E unit := put_core (set_pending_mark None);; refresh_pending_mark.

Definition rotation_backed_off : M E bool :=
  c ← get core;
  match rotation_backoff_until c with
  | None => mret false
  | Some until =>
      t ← Shell.pop_now crc32c cfg;
      if t <? until then mret true else (put_core (set_backoff None);; mret false)
  end.

Definition fail_adoption : M E unit :=
  t ← Shell.pop_now crc32c cfg; put_core (set_backoff (Some (t + ROTATION_FAILURE_BACKOFF))).

Definition apply_stream_marks (quiesced : bool) : M E bool :=
  r ← resolve_stream_marks quiesced;
  match r with
  | None => mret false
  | Some _ =>
      off ← rotation_backed_off;
      if (off : bool) then mret false else
      res ← rotate_taking_prepared;
      match res with
      | Ok _ => finish_adoption;; mret true
      | Err e => fail_adoption;; mret false
      end
  end.

(** *** Encoding *)

(** The error of a failed encode: typed only for a regression. *)
Definition encode_error (e : JournalError) : JournalError :=
  match e with SequenceRegression _ _ => e | _ => Io end.

(** One journaled slot: its sequence, its place in the claimed chunk, its slice for
    the replicas. *)
Definition encode_slot (slot : InputSlot E) : M E unit :=
  enc ← get (fun st => encoder (core st));
  a ← lift (if negb (sequence slot =? 0) then adopt_sequence enc (sequence slot) else Ok (allocate_sequence enc));
  let '(seq, enc) := a in
  put_core (set_encoder enc);;
  claim_slot;;
  chunk ← get (fun st => claimed_bytes (sys st));
  dst ← lift_panic chunk;
  r ← lift (rmap_err encode_error (encode_event crc32c enc dst seq (timestamp_ns slot) (event slot) (key_hash slot)));
  let '(enc, dst) := r in
  act (Fill dst);;
  put_core (set_encoder enc);;
  c ← get core;
  acc ← lift_panic (record_slot_for_replication any_producer (accum c) (last_user_entry_replication_slice enc dst));
  put_core (set_accum acc).

(** A span of slots: how many were consumed, and whether the sentinel stopped it. *)
Fixpoint encode_span (slots : list (InputSlot E)) : M E (nat * bool) :=
  match slots with
  | [] => mret (0%nat, false)
  | slot :: rest =>
      if is_shutdown (event slot) then mret (0%nat, true) else
      (if takes_wire_seq app_is_query (event slot) then encode_slot slot else mret tt);;
      r ← encode_span rest;
      mret (S (fst r), snd r)
  end.

Definition is_rotate (m : option StreamMark) : bool :=
  match m with Some (MarkRotate _ _) => true | _ => false end.

(** The spans of one read, split at the marks. [pos] is the ring position of the
    first slot left. *)
Fixpoint encode_spans (fuel : nat) (slots : list (InputSlot E)) (pos : Z) (pending : nat) : M E (nat * bool) :=
  match fuel with
  | O => waits
  | S fuel =>
      mark ← get (fun st => pending_mark (core st));
      let stop := mark_split mark slots in
      r ← encode_span (take stop slots);
      let pending := (pending + fst r)%nat in
      if (stop =? length slots)%nat || snd r then mret (pending, snd r) else
      apply_stream_marks false;;
      mark ← get (fun st => pending_mark (core st));
      pending ← (if is_rotate mark then
        (if (0 <? pending)%nat then submit_batch (pos + Z.of_nat stop) else mret tt);;
        apply_stream_marks true;;
        mret 0%nat
      else mret pending);
      encode_spans fuel (drop stop slots) (pos + Z.of_nat stop) pending
  end.

(** *** The loop *)

Fixpoint drain_remaining_loop (fuel : nat) : M E unit :=
  match fuel with
  | O => waits
  | S fuel =>
      slots ← Shell.read_contiguous crc32c cfg MAX_BATCH;
      match slots with
      | [] => mret tt
      | _ =>
          foldr (fun slot k => (if takes_wire_seq app_is_query (event slot) then encode_slot slot else mret tt);; k)
            (mret tt) slots;;
          c ← get core;
          submit_batch (next_read c);;
          drain_remaining_loop fuel
      end
  end.

Definition drain_remaining : M E unit := fuelled drain_remaining_loop.

(** What becomes of the pending slots: submitted when the batch is full or its delay
    is over, with the rotations that are due; marks looked for when there are none. *)
Definition group_commit (pending : nat) (read_end : Z) : M E nat :=
  if (0 <? pending)%nat then
    elapsed ← (if (max_batch cfg <=? pending)%nat || no_delay cfg then mret true else pop_flag);
    if (elapsed : bool) then
      submit_batch read_end;; maybe_publish_chain_check;; maybe_rotate;; apply_stream_marks true;; mret 0%nat
    else mret pending
  else
    c ← get core;
    out ← (match rotation_backoff_until c with None => marks_outstanding | Some _ => mret false end);
    (if (out : bool) then apply_stream_marks true;; mret tt else mret tt);;
    tick ← pop_flag;
    (if (tick : bool) then
       out ← marks_outstanding; if (out : bool) then apply_stream_marks true;; mret tt else mret tt
     else mret tt);;
    mret 0%nat.

(** One turn; the pending count carried over, or [None] when the stage is to stop.
    The clock of the group commit and the idle counter are replies. *)
Definition turn (pending : nat) : M E (option nat) :=
  bad ← Shell.poisoned crc32c cfg;
  if (bad : bool) then (e ← Shell.take_poison cfg; fail e) else
  shutdown ← pop_flag;
  if (shutdown : bool) then
    c ← get core;
    (if (0 <? pending)%nat then submit_batch (next_read c) else mret tt);;
    drain_remaining;;
    mret None
  else
  c ← get core;
  let read_start := next_read c in
  let remaining := (MAX_BATCH - pending)%nat in
  slots ← (if (0 <? remaining)%nat then Shell.read_contiguous crc32c cfg remaining else mret []);
  let read_end := read_start + Z.of_nat (length slots) in
  r ← (if (0 <? length slots)%nat
       then refresh_pending_mark;; fuelled (fun fuel => encode_spans fuel slots read_start pending)
       else mret (pending, false));
  let '(pending, saw_shutdown) := r in
  pending ← group_commit pending read_end;
  if (saw_shutdown : bool) then
    (if (0 <? pending)%nat then submit_batch read_end else mret tt);; mret None
  else mret (Some pending).

Fixpoint sequence_loop (fuel : nat) (pending : nat) : M E unit :=
  match fuel with
  | O => waits
  | S fuel =>
      r ← turn pending;
      match r with None => mret tt | Some pending => sequence_loop fuel pending end
  end.

Definition sequence : M E unit := fuelled (fun fuel => sequence_loop fuel 0).

(** The disk thread told to stop, and its segment once it has left. *)
Definition settled (st : St E) : St E := settle crc32c cfg (script st) st.
Definition joined : M E SegmentFile := fun st =>
  let st := settled st in
  match pc (sys st) with Exited => (Got (segment (sys st)), st) | _ => (Waits, st) end.
Definition join : M E SegmentFile := act Stop;; joined.

Definition from_halves (enc : JournalEncoder) (f : SegmentFile) : Journal.Writer.BufferedWriter :=
  {| Journal.Writer.encoder := enc; Journal.Writer.segment := f; Journal.Writer.batch_buf := Journal.Writer.empty_batch |}.

Definition finish : M E Journal.Writer.BufferedWriter :=
  d ← catch drain_disk;
  match d with
  | Err e => join;; fail e
  | Ok _ =>
      segment ← join;
      bad ← get (fun st => Control.poisoned (control (sys st)));
      act (AskPoisoned bad);;
      if (bad : bool) then (e ← Shell.take_poison cfg; fail e) else
      enc ← get (fun st => encoder (core st));
      mret (from_halves enc segment)
  end.

Definition run : M E Journal.Writer.BufferedWriter :=
  r ← catch sequence;
  match r with
  | Ok _ => finish
  | Err e => join;; fail e
  end.

(** *** The start *)

Definition into_halves (w : Journal.Writer.BufferedWriter) (sizes : list nat)
    : result (JournalEncoder * SegmentFile) JournalError :=
  w <-? Journal.Writer.flush_batch_sync w sizes ;;
  Ok (Journal.Writer.encoder w, Journal.Writer.segment w).

(** [JournalStage::into_sequencer], on an input ring read up to [pos]: the writer
    split, the disk thread started on its file half. [None]: the assertion that the
    ring is no deeper than recovery's bound fails. *)
Definition into_sequencer (w : Journal.Writer.BufferedWriter) (sizes : list nat) (spawned : bool)
    (sealed : list (list Z)) (cursors : DurabilityCursors) (pos : Z) (replies : list (Reply E))
    : option (result (St E) JournalError) :=
  match into_halves w sizes with
  | Err e => Some (Err e)
  | Ok (enc, f) =>
      if Reader.Reader.MAX_UNSYNCED_BYTES <? capacity cfg * CHUNK_SIZE then None
      else if negb spawned then Some (Err Io)
      else Some (Ok
        {| core := {| encoder := enc; segment_bytes := Z.of_nat (write_pos f);
                      accum := {| input_batch_buf := []; input_batch_count := 0 |};
                      batches_since_chain_check := 0; rotation_backoff_until := None;
                      pending_mark := None; next_read := pos |};
           sys := start (capacity cfg) f sealed cursors; trace := []; input := []; sent := []; evicted := [];
           script := replies |})
  end.
End loop.
End Loop.
