(* ===== verification/Handover.v ===== *)
(** * What the sequencing thread has handed over

    The invariant of the two journal threads run together ([Sequencer.Loop] beside
    [Disk.Thread]), kept however the loads and the disk thread's steps interleave
    and however the run ends. [Told]: every batch handed to the disk thread covers a
    prefix of the input ring, its bytes are that prefix's entries under consecutive
    sequences, its cursors name the prefix's end; the segments the rotations make are
    linked, start to next sequence and anchor to tail; the open batch holds what is
    encoded and not handed over; and a rotation is asked for, done, refused or dead,
    with both threads' view of it known. Each operation of the loop is a triple over
    this state. *)

From S2P Require Import Prelude Cursors Lineage Stages Codec Journal Wire Protocol Acks Receiver Reader Segments Disk Recovery Sequencer.
Import Lineage.Event Codec.Codec Stages.Dispatch Stages.Journaling.

(** ** What it has handed over *)
Module Told.
Import Wire.Wire Wire.Mirror Codec.Facts Journal.Encoder Journal.Segment Journal.Stream Segments.History
  Disk.WriteRing Disk.Control Disk.Thread Disk.Kept Sequencer.Shell Sequencer.Loop.
Import Receiver.Stream(StreamMark(..)).

Section told.
Context {A E R Q : Type} `{Application A E R Q} `{AppEvent E} `{!AppEventLaws E}.
Context (crc32c : list Z -> Z) (blake3 : list Z -> list Z) (cfg : Config).
Hypothesis capacity_pow2 : exists k, 1 <= k /\ capacity cfg = 2 ^ k.
Hypothesis crc_range : forall bs, in_u32 (crc32c bs).
Hypothesis blake3_length : forall bs, length (blake3 bs) = 32%nat.
(** What the stage starts from: the live segment and its entries, the archives, the
    cursors, the input ring's position. *)
Variables (start0 : Z) (anchor0 : list Z) (items0 : list (item (E:=E))) (g : option Z) (sealed0 : list (list Z)).
Variables (c0 : DurabilityCursors) (f0 : SegmentFile) (r0 : Z).

Local Abbreviation items_of := (Mirror.items_of app_is_query).
Local Abbreviation stream := (Journal.Stream.stream crc32c).
Local Abbreviation data0 := (stream start0 items0).
Local Abbreviation sys0 := (start (capacity cfg) f0 sealed0 c0).
Local Abbreviation dinv := (Kept.inv crc32c (capacity cfg) start0 anchor0 data0 g sealed0 c0).

(** The first sequence this run gives out. *)
Definition first_seq : Z := start0 + Z.of_nat (length items0).

(** The encoder on a segment that holds [fl], with [pe] in the open batch; [al]: the
    next sequence is given out and not yet used. *)
Record einv (enc : JournalEncoder) (s : Z) (a : list Z) (fl pe : list item) (al : bool) : Prop := {
  ei_start : Encoder.starting_sequence enc = s;
  ei_next : next_sequence enc = s + Z.of_nat (length (fl ++ pe)) + (if al then 1 else 0);
  ei_last : last_encoded_seq enc = s + Z.of_nat (length (fl ++ pe)) - 1;
  ei_chain : hash_chain enc = {| Chain.anchor := a; Chain.absorbed := stream s (fl ++ pe);
                                 Chain.dirty := negb (length (fl ++ pe) =? 0)%nat |};
  ei_len : batch_len enc = length (stream (s + Z.of_nat (length fl)) pe)
}.

(** A segment as the disk's layout has it. *)
Definition as_laid (x : Segments.History.Seg) : Kept.Seg := (g_start x, g_anchor x, stream (g_start x) (g_items x)).

(** The batches up to [n], in the segments the boundaries [bs] make: sealed ones,
    linked, and a live one holding [fl]. *)
Record good (bs : list (Z * list Z * nat)) (n : nat) (bts : list (JournalWriteMeta * list Z))
    (segs : list Segments.History.Seg) (s : Z) (a : list Z) (fl : list item) : Prop := {
  gd_order : ordered 0 bs n;
  gd_lay : layout start0 anchor0 data0 0 bs n bts = (map as_laid segs, (s, a, stream s fl));
  gd_linked : linked crc32c blake3 start0 anchor0 segs s a;
  gd_sealed : Forall (seg_ok g) segs;
  gd_live : seg_ok g {| g_start := s; g_anchor := a; g_items := fl |}
}.

(** Each batch covers a prefix of the input: its bytes and those before it are that
    prefix's entries, its cursors name the prefix's end; prefixes only grow. *)
Definition covers (input : list (InputSlot E)) (bts : list (JournalWriteMeta * list Z)) (i : nat) (m : JournalWriteMeta)
    (c : nat) : Prop :=
  (c <= length input)%nat /\ ring_progress m = r0 + Z.of_nat c /\
  span 0 (S i) bts = stream first_seq (items_of (take c input)) /\
  journal_seq m = first_seq + Z.of_nat (length (items_of (take c input))) - 1 /\
  Forall (fun b => ring_progress b.1 <= ring_progress m) (take i bts).

Definition all_cover (input : list (InputSlot E)) (bts : list (JournalWriteMeta * list Z)) : Prop :=
  forall i m bs, bts !! i = Some (m, bs) -> exists c, covers input bts i m c.

(** Where a rotation stands. [waiting]: the sequencing thread has asked and has not
    had its answer; [bs] are the boundaries it knows of, [next] and [tail] the header
    of a segment that would begin here. A disk thread that died may have rotated and
    never said so. *)
Definition settled_pc (s : Sys) : Prop := (forall r, pc s <> Rotating r) /\ (forall x, pc s <> Answering x).

(** Left, it has left its failure behind. *)
Definition died (s : Sys) : Prop := pc s = Exited -> Control.poisoned (control s) = true.

Inductive phase (waiting : bool) (s : Sys) (bs : list (Z * list Z * nat)) (next : Z) (tail : list Z) : Prop :=
| ph_idle :
    waiting = false -> Control.rotate (control s) = Idle -> settled_pc s -> boundaries s = bs ->
    phase waiting s bs next tail
| ph_asked r :
    waiting = true ->
    (Control.rotate (control s) = Requested r /\ settled_pc s \/ Control.rotate (control s) = Idle /\ pc s = Rotating r) ->
    Control.starting_sequence r = next -> Control.anchor_hash r = tail ->
    progress (ring s) = cursor (ring s) -> boundaries s = bs -> phase waiting s bs next tail
| ph_done :
    waiting = true ->
    (Control.rotate (control s) = Done (Ok tt) /\ settled_pc s \/ Control.rotate (control s) = Idle /\ pc s = Answering (Ok tt)) ->
    progress (ring s) = cursor (ring s) ->
    boundaries s = bs ++ [(next, tail, length (batches s))] -> phase waiting s bs next tail
| ph_refused e :
    waiting = true ->
    (Control.rotate (control s) = Done (Err e) /\ settled_pc s \/ Control.rotate (control s) = Idle /\ pc s = Answering (Err e)) ->
    boundaries s = bs -> phase waiting s bs next tail
| ph_dead :
    failed (pc s) = true -> (waiting = true -> forall x, Control.rotate (control s) <> Done x) ->
    (boundaries s = bs \/ exists c segs s' a' fl, died s /\ (c <= length (batches s))%nat /\
       good bs c (batches s) segs s' a' fl /\ Z.to_nat (WriteRing.next_read (consumer s)) = c /\
       boundaries s = bs ++ [(s' + Z.of_nat (length fl),
                              seg_tail crc32c blake3 {| g_start := s'; g_anchor := a'; g_items := fl |}, c)]) ->
    phase waiting s bs next tail.

(** What a step of the disk thread leaves alone. *)
Lemma disk_frame o s s' :
  disk_step crc32c (capacity cfg) o s = Some s' ->
  batches s' = batches s /\ producer s' = producer s /\ cursor (ring s') = cursor (ring s) /\
  chunks (ring s') = chunks (ring s).
Proof using Type.
  clear. unfold disk_step, stage_next, write_next, rotate_at, write_vectored_at.
  destruct (pc s), o; try done; repeat (case_match; simplify_eq/=); intros; simplify_eq/=; try done.
  all: repeat (case_match; simplify_eq/=); try done.
  all: unfold WriteRing.commit in *; repeat (case_match; simplify_eq/=); done.
Qed.

Lemma phase_same wt s s' bs n t :
  phase wt s bs n t -> settled_pc s -> settled_pc s' -> Control.rotate (control s') = Control.rotate (control s) ->
  boundaries s' = boundaries s -> batches s' = batches s ->
  (progress (ring s) = cursor (ring s) -> progress (ring s') = cursor (ring s')) ->
  (failed (pc s) = true -> failed (pc s') = true /\ WriteRing.next_read (consumer s') = WriteRing.next_read (consumer s) /\ (died s -> died s')) ->
  phase wt s' bs n t.
Proof using Type.
  clear. intros Hph [Hp1 Hp2] Hset Hr Hb Hbt Hq Hf.
  destruct Hph as [-> Hi Hs Hbs|r -> Ho Hst Han Hpr Hbs| -> Ho Hpr Hbs|e -> Ho Hbs|Hd Hw Hbs].
  - apply ph_idle; congruence.
  - eapply ph_asked; try done; [|by auto|congruence]. destruct Ho as [[Hi Hs]|[_ Hs]]; [left; split; congruence|by destruct (Hp1 r)].
  - apply ph_done; [done| |by auto|by rewrite Hb, Hbt]. destruct Ho as [[Hi Hs]|[_ Hs]]; [left; split; congruence|by destruct (Hp2 (Ok tt))].
  - eapply ph_refused; [done| |congruence]. destruct Ho as [[Hi Hs]|[_ Hs]]; [left; split; [by rewrite Hr|done]|by destruct (Hp2 (Err e))].
  - destruct (Hf Hd) as (Hf1 & Hf2 & Hf3). apply ph_dead; [done|intros Hwt; rewrite Hr; auto|]. rewrite Hb, Hbt, Hf2.
    destruct Hbs as [|(c & segs & s1 & a1 & fl & Hdi & Hrest)]; [by left|]. right. exists c, segs, s1, a1, fl. by split; [auto|].
Qed.

(** An access that neither publishes nor asks for a rotation. *)
Lemma phase_beside wt s s' bs n t :
  phase wt s bs n t -> pc s' = pc s -> Control.rotate (control s') = Control.rotate (control s) ->
  boundaries s' = boundaries s -> batches s' = batches s -> consumer s' = consumer s ->
  progress (ring s') = progress (ring s) -> cursor (ring s') = cursor (ring s) ->
  Control.poisoned (control s') = Control.poisoned (control s) -> phase wt s' bs n t.
Proof using Type.
  clear. intros Hph Hpc Hro Hbd Hb Hc Hp Hcu Hpo.
  assert (Hset : settled_pc s -> settled_pc s') by (unfold settled_pc; by rewrite Hpc).
  destruct Hph as [? Hi Hs Hbs|r ? Ho Hst Han Hpr Hbs|? Ho Hpr Hbs|er ? Ho Hbs|Hd Hw Hbs].
  - apply ph_idle; [done|congruence|auto|congruence].
  - eapply ph_asked; try done; [|congruence|congruence]. rewrite Hro, Hpc. destruct Ho as [[Hi Hs]|Ho]; [left; split; [done|by apply Hset]|by right].
  - apply ph_done; [done| |congruence|by rewrite Hbd, Hb]. rewrite Hro, Hpc. destruct Ho as [[Hi Hs]|Ho]; [left; split; [done|by apply Hset]|by right].
  - eapply ph_refused; [done| |congruence]. rewrite Hro, Hpc. destruct Ho as [[Hi Hs]|Ho]; [left; split; [done|by apply Hset]|by right].
  - apply ph_dead; [by rewrite Hpc|by rewrite Hro|]. unfold died. by rewrite Hbd, Hb, Hc, Hpc, Hpo.
Qed.

Lemma good_dead bs bts segs s a fl n :
  good bs n bts segs s a fl -> forall wt sy next tail, failed (pc sy) = true -> batches sy = bts -> n = length bts ->
  Z.to_nat (WriteRing.next_read (consumer sy)) = n -> (wt = true -> forall x, Control.rotate (control sy) <> Done x) ->
  died sy ->
  boundaries sy = bs ++ [(s + Z.of_nat (length fl),
                          seg_tail crc32c blake3 {| g_start := s; g_anchor := a; g_items := fl |}, n)] ->
  phase wt sy bs next tail.
Proof using Type.
  clear. intros Hg wt sy next tail Hf Hbt -> Hn Hr Hdi Hb. apply ph_dead; [done..|]. right.
  exists (length bts), segs, s, a, fl. rewrite Hbt. by split_and!.
Qed.

(** A step that has nothing to do with a rotation. *)
Ltac plain Hplain Hp :=
  apply Hplain; cbn; try done; try lia; try (split; intros; cbn; repeat case_match; congruence).

(** Whatever the disk thread does, the rotation stands somewhere. *)
Lemma disk_phase o s s' wt bs sx ax (fl : list item) k :
  dinv s k -> answer_ok o -> disk_step crc32c (capacity cfg) o s = Some s' ->
  let tail := seg_tail crc32c blake3 {| g_start := sx; g_anchor := ax; g_items := fl |} in
  phase wt s bs (sx + Z.of_nat (length fl)) tail -> phase wt s' bs (sx + Z.of_nat (length fl)) tail.
Proof using crc_range.
  clear capacity_pow2. intros Hinv Ho Hstep tail Hph. pose proof (in_ring _ _ _ _ _ _ _ _ _ _ Hinv) as Hr.
  pose proof (ri_order _ _ Hr) as Hord. pose proof (ri_len _ _ Hr) as Hlen. pose proof (ri_room _ _ Hr) as Hroom.
  assert (Hplain : settled_pc s -> settled_pc s' -> Control.rotate (control s') = Control.rotate (control s) ->
     boundaries s' = boundaries s -> batches s' = batches s -> cursor (ring s') = cursor (ring s) ->
     progress (ring s) <= progress (ring s') <= cursor (ring s) ->
     (failed (pc s) = true -> failed (pc s') = true /\ WriteRing.next_read (consumer s') = WriteRing.next_read (consumer s) /\ (died s -> died s')) ->
     phase wt s' bs (sx + Z.of_nat (length fl)) tail).
  { intros. apply (phase_same wt s); try done. lia. }
  pose proof (in_pc _ _ _ _ _ _ _ _ _ _ Hinv) as Hpc. unfold pc_ok in Hpc.
  unfold disk_step in Hstep. destruct (pc s) as [|b last|b m i iov|m|m j| |b|r|res|e| |] eqn:Hp; cbn [failed] in Hplain.
  - destruct o; try done. destruct (_ && _); [done|]. injection Hstep as <-. plain Hplain Hp.
  - destruct o; try done. unfold stage_next in Hstep. destruct (negb _); [done|].
    unfold stage_one in Hstep. destruct (_ =? 0); [destruct last|]; injection Hstep as <-; cbn.
    all: plain Hplain Hp.
  - unfold write_next in Hstep. unfold write_vectored_at in Hstep.
    assert (Hgen : (exists f p, s' = set_pc p (set_segment f s) /\ settled_pc s') \/ (exists p, s' = set_pc p s /\ settled_pc s')).
    { destruct (_ <? _)%nat; [destruct (staged_bytes _ _ _ _); [|destruct (_ =? _)%nat]|destruct iov];
        [|destruct o; try done; try (destruct (write_vectored _ _ _))| | |destruct o; try done; try (destruct (write_vectored _ _ _))];
        cbn in Hstep; injection Hstep as <-; first [left; eexists _, _; by split|right; eexists; by split]. }
    destruct Hgen as [(f & p & -> & Hset)|(p & -> & Hset)]; plain Hplain Hp.
  - destruct o; try done; injection Hstep as <-; plain Hplain Hp.
  - destruct o; try done; injection Hstep as <-; plain Hplain Hp.
  - destruct o; try done. destruct (WriteRing.commit (ring s) (consumer s)) as [r c] eqn:Hc. injection Hstep as <-.
    unfold WriteRing.commit in Hc. destruct (staged (consumer s)); simplify_eq; plain Hplain Hp.
  - destruct o; try done. unfold take_rotation_request in Hstep. destruct Hpc as (Heq & _).
    destruct (Control.rotate (control s)) as [|r|res] eqn:Hrot; injection Hstep as <-.
    2: { destruct Hph as [_ Hi|r' -> Ho' Hst Han Hpr Hbs|_ Ho'|e _ Ho'|Hd]; try congruence; try (by destruct Ho' as [[? _]|[? _]]; congruence).
      - destruct Ho' as [[Hi _]|[Hi _]]; [|congruence]. assert (r' = r) as -> by congruence.
        eapply ph_asked; try done. by right.
      - by rewrite Hp in Hd. }
    all: plain Hplain Hp.
  - destruct Hpc as (Heq & Hlev). unfold rotate_at in Hstep.
    destruct Hph as [_ _ [Hset _]|r' -> Ho' Hst Han Hpr Hbs| -> Ho'|e -> Ho'|Hd]; [by destruct (Hset r)| | | |by rewrite Hp in Hd].
    2,3: destruct Ho' as [[_ [Hset _]]|[_ Hx]]; [by destruct (Hset r)|congruence].
    destruct Ho' as [[_ [Hset _]]|[Hi Hpr']]; [by destruct (Hset r)|]. assert (r' = r) as -> by congruence.
    assert (Hn : Z.to_nat (WriteRing.next_read (consumer s)) = length (batches s)) by lia.
    destruct o; try done; [|injection Hstep as <-; eapply ph_refused; [done|by right|done]].
    destruct (Journal.Segment.rotate _ _ _ _ _ _) as [[sealed f]|e]; injection Hstep as <-.
    + apply ph_done; [done|by right|done|]. cbn. by rewrite Hbs, Hst, Han, Hn.
    + eapply ph_refused; [done|by right|done].
  - destruct o; try done. injection Hstep as <-.
    destruct Hph as [_ _ [_ Hset]|r' -> Ho'| -> Ho' Hpr Hbs|e -> Ho' Hbs|Hd]; [by destruct (Hset res)| | | |by rewrite Hp in Hd].
    + destruct Ho' as [[_ [_ Hset]]|[_ Hx]]; [by destruct (Hset res)|congruence].
    + destruct Ho' as [[_ [_ Hset]]|[_ Hx]]; [by destruct (Hset res)|]. assert (res = Ok tt) as -> by congruence.
      apply ph_done; [done|by left|done|done].
    + destruct Ho' as [[_ [_ Hset]]|[_ Hx]]; [by destruct (Hset res)|]. assert (res = Err e) as -> by congruence.
      eapply ph_refused; [done|by left|done].
  - destruct o; try done. injection Hstep as <-. plain Hplain Hp.
  - destruct o; try done. injection Hstep as <-. plain Hplain Hp.
  - by destruct o.
Qed.

Lemma unwind_phase s s' wt bs segs sx ax fl k :
  dinv s k -> unwind s = Some s' -> good bs (length (batches s)) (batches s) segs sx ax fl ->
  let tail := seg_tail crc32c blake3 {| g_start := sx; g_anchor := ax; g_items := fl |} in
  phase wt s bs (sx + Z.of_nat (length fl)) tail -> phase wt s' bs (sx + Z.of_nat (length fl)) tail.
Proof using Type.
  clear capacity_pow2 crc_range. intros Hinv Hun Hg tail Hph.
  pose proof (in_pc _ _ _ _ _ _ _ _ _ _ Hinv) as Hpc. unfold pc_ok in Hpc.
  assert (Hs' : exists p, s' = set_pc p s /\ failed p = true /\ settled_pc s' /\ died s').
  { unfold unwind in Hun. destruct (pc s); try done; injection Hun as <-; eexists; (split; [done|]);
      destruct (Control.poisoned (control s)) eqn:?; (split; [done|]); (split; [by split|]); unfold died; cbn; congruence. }
  destruct Hs' as (p & -> & Hf & Hset & Hdi).
  destruct Hph as [-> Hi Hs Hbs|r -> [[Hi Hs]|[Hi Hs]] Hst Han Hpr Hbs| -> [[Hi Hs]|[Hi Hs]] Hpr Hbs|e -> [[Hi Hs]|[Hi Hs]] Hbs|Hd Hw Hbs].
  - by apply ph_idle.
  - eapply ph_asked; try done. by left.
  - apply ph_dead; [done|cbn; congruence|by left].
  - apply ph_done; [done|by left|done|done].
  - rewrite Hs in Hpc. destruct Hpc as [Heq Hlev].
    pose proof (in_ring _ _ _ _ _ _ _ _ _ _ Hinv) as Hr. pose proof (ri_order _ _ Hr). pose proof (ri_len _ _ Hr).
    eapply good_dead; [exact Hg|done..|cbn; lia|cbn; congruence|done|done].
  - eapply ph_refused; [done|by left|done].
  - apply ph_dead; [done|cbn; congruence|by left].
  - apply ph_dead; [done..|]. destruct Hbs as [|(c & segs' & s1 & a1 & fl1 & _ & Hrest)]; [by left|]. right. by exists c, segs', s1, a1, fl1.
Qed.

(** *** The two threads together *)

(** What the script still has for the input ring. *)
Definition reply_slots (r : Reply E) : list (InputSlot E) := match r with Slots l => l | _ => [] end.
Definition coming (l : list (Reply E)) : list (InputSlot E) := concat (map reply_slots l).
Definition reply_ok (r : Reply E) : Prop := match r with Beside a => act_ok g a | _ => True end.

(** Slots that can be journaled: each event encodes, the sequences do not run out,
    and nothing is published behind the sentinel. *)
Record slots_ok (l : list (InputSlot E)) : Prop := {
  so_items : Forall item_ok (items_of l);
  so_range : first_seq + Z.of_nat (length (items_of l)) <= u64_max;
  so_sentinel : forall pre x post, l = pre ++ x :: post -> is_shutdown (event x) = true -> post = []
}.

(** The state between two operations: [c] slots of the input are handed over, [e]
    are encoded. *)
Record rel (waiting : bool) (c e : nat) (bs : list (Z * list Z * nat)) (segs : list Segments.History.Seg)
    (s : Z) (a : list Z) (fl : list item) (inp : list (InputSlot E)) (al : bool) (st : St E) : Prop := {
  r_input : input st = inp;
  r_run : Thread.run crc32c (capacity cfg) (trace st) sys0 = Some (sys st);
  r_acts : Forall (act_ok g) (trace st);
  r_pos : (c <= e <= length inp)%nat /\ next_read (core st) = r0 + Z.of_nat (length inp);
  r_cover : all_cover (take c inp) (batches (sys st));
  r_total : span 0 (length (batches (sys st))) (batches (sys st)) = stream first_seq (items_of (take c inp));
  r_good : good bs (length (batches (sys st))) (batches (sys st)) segs s a fl;
  r_items : concat (map g_items segs) ++ fl = items0 ++ items_of (take c inp);
  r_enc : einv (encoder (core st)) s a fl (items_of (take (e - c) (drop c inp))) al;
  r_open : (0 < batch_len (encoder (core st)))%nat -> exists q, claimed (producer (sys st)) = Some q /\
    take (batch_len (encoder (core st))) (chunk_bytes (capacity cfg) q (ring (sys st))) =
    stream (s + Z.of_nat (length fl)) (items_of (take (e - c) (drop c inp)));
  r_phase : phase waiting (sys st) bs (s + Z.of_nat (length fl))
              (seg_tail crc32c blake3 {| g_start := s; g_anchor := a; g_items := fl |});
  r_script : Forall reply_ok (script st);
  r_coming : slots_ok (inp ++ coming (script st))
}.

Hypothesis opened0 : Kept.opened crc32c start0 anchor0 data0 g f0.

Lemma rel_dinv wt c e bs segs s a fl inp al st : rel wt c e bs segs s a fl inp al st -> exists k, dinv (sys st) k.
Proof using capacity_pow2 crc_range opened0.
  intros Hr. destruct (start_inv crc32c (capacity cfg) capacity_pow2 start0 anchor0 data0 g sealed0 c0 f0 opened0) as [k0 Hk0].
  eapply (acts_keep crc32c (capacity cfg) capacity_pow2 crc_range); [exact Hk0|apply (r_acts _ _ _ _ _ _ _ _ _ _ _ Hr)|].
  apply (r_run _ _ _ _ _ _ _ _ _ _ _ Hr).
Qed.

Lemma run_snoc acts x s s' s'' :
  Thread.run crc32c (capacity cfg) acts s = Some s' -> exec crc32c (capacity cfg) x s' = Some s'' ->
  Thread.run crc32c (capacity cfg) (acts ++ [x]) s = Some s''.
Proof using Type.
  clear. revert s. induction acts as [|y acts IH]; intros s; cbn [Datatypes.app Thread.run].
  - intros [= ->] ->. done.
  - destruct (exec _ _ y s) as [s1|]; [|done]. cbn. intros Hr Hx. by apply IH.
Qed.

(** A step of the disk thread, wherever it falls. *)
Lemma beside_rel wt c e bs segs s a fl inp al st x s' :
  rel wt c e bs segs s a fl inp al st -> (forall y, x <> Seq y) -> act_ok g x ->
  exec crc32c (capacity cfg) x (sys st) = Some s' -> rel wt c e bs segs s a fl inp al (set_sys s' x st).
Proof using capacity_pow2 crc_range opened0.
  intros Hrel Hns Hok Hex. destruct (rel_dinv _ _ _ _ _ _ _ _ _ _ _ Hrel) as [k Hinv].
  assert (Hframe : batches s' = batches (sys st) /\ producer s' = producer (sys st) /\
                   cursor (ring s') = cursor (ring (sys st)) /\ chunks (ring s') = chunks (ring (sys st))).
  { destruct x as [o| |y]; cbn in Hex; [by eapply disk_frame| |by destruct (Hns y)].
    unfold unwind in Hex. destruct (pc (sys st)); try done; by injection Hex as <-. }
  destruct Hframe as (Hb & Hp & Hc & Hch).
  assert (Hph : phase wt s' bs (s + Z.of_nat (length fl)) (seg_tail crc32c blake3 {| g_start := s; g_anchor := a; g_items := fl |})).
  { pose proof (r_phase _ _ _ _ _ _ _ _ _ _ _ Hrel) as Hph. destruct x as [o| |y]; cbn in Hex, Hok; [|..|by destruct (Hns y)].
    - by eapply disk_phase.
    - eapply unwind_phase; [done..|apply (r_good _ _ _ _ _ _ _ _ _ _ _ Hrel)|done]. }
  destruct Hrel. split; cbn; try done; rewrite ?Hb, ?Hp; try done.
  - by eapply run_snoc.
  - apply Forall_app. by split; [|apply Forall_singleton].
  - unfold chunk_bytes. by rewrite Hch.
Qed.

Lemma coming_cons r l : coming (r :: l) = reply_slots r ++ coming l.
Proof using Type. done. Qed.

Lemma settle_rel wt c e bs segs s a fl inp al l st :
  rel wt c e bs segs s a fl inp al (set_script l st) -> rel wt c e bs segs s a fl inp al (settle crc32c cfg l st).
Proof using capacity_pow2 crc_range opened0.
  revert st. induction l as [|r l IH]; intros st Hrel; [done|]. destruct r as [x|v|b|sl|m|t|p]; try done.
  cbn [settle]. destruct x as [o| |y]; [..|done].
  all: destruct (exec _ _ _ _) as [s'|] eqn:Hex; [|done]; apply IH;
    pose proof (r_script _ _ _ _ _ _ _ _ _ _ _ Hrel) as Hsc; cbn in Hsc; apply Forall_cons in Hsc as [Hok Hsc];
    pose proof (fun Hx => beside_rel _ _ _ _ _ _ _ _ _ _ _ _ s' Hrel Hx Hok Hex) as Hrel'; destruct (Hrel' ltac:(done)); by split.
Qed.

(** *** Operations and what they keep *)

(** The history beside the state. *)
Record Ghost := Gh {
  waiting : bool; handed : nat; encoded : nat; known : list (Z * list Z * nat);
  sealed : list (Segments.History.Seg (E:=E)); seg_start : Z; seg_anchor : list Z; flushed : list (item (E:=E)); slots_in : list (InputSlot E); given : bool
}.
Definition Rel (k : Ghost) : St E -> Prop :=
  rel (waiting k) (handed k) (encoded k) (known k) (sealed k) (seg_start k) (seg_anchor k) (flushed k) (slots_in k) (given k).
Definition safe (st : St E) : Prop := exists k, Rel k st.

(** However the computation ends, the state is one between operations; when it ends
    with a value, [Po] holds. *)
Definition triple {X} (P : St E -> Prop) (m : M E X) (Po : X -> St E -> Prop) : Prop :=
  forall st, P st -> safe (m st).2 /\ match (m st).1 with Got x => Po x (m st).2 | _ => True end.
Definition keeps {X} (m : M E X) : Prop := forall k, triple (Rel k) m (fun _ => Rel k).

Lemma rel_safe k st : Rel k st -> safe st.
Proof using Type. by exists k. Qed.

Lemma t_ret {X} (x : X) P (Po : X -> St E -> Prop) : (forall st, P st -> safe st /\ Po x st) -> triple P (mret x) Po.
Proof using Type. by intros HPQ st HP%HPQ. Qed.

Lemma t_end {X} (m : M E X) P Po : (forall st, P st -> safe st) -> (m = waits \/ m = panic \/ exists e, m = fail e) -> triple P m Po.
Proof using Type. intros Hs Hm st HP. destruct Hm as [->|[->|[e ->]]]; (split; [by apply Hs|done]). Qed.

Lemma t_bind {X Y} (m : M E X) (f : X -> M E Y) P Po T :
  triple P m Po -> (forall x, triple (Po x) (f x) T) -> triple P (m ≫= f) T.
Proof using Type.
  intros Hm Hf st HP. destruct (Hm st HP) as [Hs HQ]. unfold mbind, M_bind, bind.
  destruct (m st) as [v st']. destruct v as [x|e| |]; cbn in *; try by split. by apply Hf.
Qed.

Lemma t_mono {X} (m : M E X) (P P' : St E -> Prop) (Po Po' : X -> St E -> Prop) :
  triple P m Po -> (forall st, P' st -> P st) -> (forall x st, Po x st -> Po' x st) -> triple P' m Po'.
Proof using Type.
  intros Hm HP HQ st HP'. destruct (Hm st (HP _ HP')) as [Hs Hx]. split; [done|]. destruct (m st) as [[x|e| |] ?]; cbn in *; auto.
Qed.

Lemma t_get {X} (f : St E -> X) k : triple (Rel k) (get f) (fun x st => Rel k st /\ x = f st).
Proof using Type. intros st Hst. split; [by exists k|by split]. Qed.

(** Facts that hold whatever the state are carried along. *)
Lemma t_pure {X} (P : Prop) (P' : St E -> Prop) (m : M E X) Po : (P -> triple P' m Po) -> triple (fun st => P' st /\ P) m Po.
Proof using Type. intros Hm st [HP' HP]. by apply Hm. Qed.

Lemma k_ret {X} (x : X) : keeps (mret x).
Proof using Type. intros k. apply t_ret. intros st Hst. split; [by exists k|done]. Qed.

Lemma k_bind {X Y} (m : M E X) (f : X -> M E Y) : keeps m -> (forall x, keeps (f x)) -> keeps (m ≫= f).
Proof using Type. intros Hm Hf k. by eapply t_bind; [apply Hm|intros x; apply Hf]. Qed.

Lemma k_end {X} (m : M E X) : (m = waits \/ m = panic \/ exists e, m = fail e) -> keeps m.
Proof using Type. intros Hm k. apply t_end; [by exists k|done]. Qed.

Lemma k_get {X} (f : St E -> X) : keeps (get f).
Proof using Type. intros k st Hst. split; [by exists k|done]. Qed.

Lemma k_fuelled {X} (f : nat -> M E X) : (forall n, keeps (f n)) -> keeps (fuelled f).
Proof using Type. intros Hf k st Hst. by apply Hf. Qed.

Lemma k_catch {X} (m : M E X) : keeps m -> forall k, triple (Rel k) (catch m) (fun r st => match r with Ok _ => Rel k st | Err _ => safe st end).
Proof using Type.
  intros Hm k st Hst. destruct (Hm k st Hst) as [Hs Hq]. unfold catch. destruct (m st) as [[x|e| |] st']; cbn in *; by split.
Qed.

Lemma put_core_keeps f : (forall c, encoder (f c) = encoder c /\ next_read (f c) = next_read c) -> keeps (put_core f).
Proof using Type.
  intros Hf k st Hst. destruct (Hf (core st)) as [He Hn].
  assert (Hst' : Rel k (set_core (f (core st)) st)) by (destruct Hst; split; cbn; rewrite ?He, ?Hn; done).
  split; [by exists k|done].
Qed.

Lemma pop_keeps {X} (f : Reply E -> option X) : (forall l, f (Slots l) = None) -> keeps (pop crc32c cfg f).
Proof using capacity_pow2 crc_range opened0.
  intros Hf k st Hst. unfold pop.
  assert (Hset : Rel k (settle crc32c cfg (script st) st)) by (apply settle_rel; by destruct st).
  destruct (script (settle crc32c cfg (script st) st)) as [|r l] eqn:Hsc; [split; [by exists k|done]|].
  destruct (f r) as [x|] eqn:Hfr; [|split; [by exists k|done]].
  assert (Hst' : Rel k (set_script l (settle crc32c cfg (script st) st))).
  { destruct Hset. rewrite Hsc in *. split; try done.
    - by apply Forall_cons in r_script0 as [_ ?].
    - rewrite coming_cons in r_coming0. destruct r as [x'|v|b|sl|m|t|p]; try done. by rewrite Hf in Hfr. }
  split; [by exists k|done].
Qed.

(** An access that hands nothing over. *)
Lemma act_same k st x s' :
  Rel k st -> seq_ok g x -> seq_step (capacity cfg) x (sys st) = Some s' ->
  batches s' = batches (sys st) -> boundaries s' = boundaries (sys st) -> pc s' = pc (sys st) ->
  Control.rotate (control s') = Control.rotate (control (sys st)) ->
  Control.poisoned (control s') = Control.poisoned (control (sys st)) -> consumer s' = consumer (sys st) ->
  progress (ring s') = progress (ring (sys st)) -> cursor (ring s') = cursor (ring (sys st)) ->
  chunks (ring s') = chunks (ring (sys st)) ->
  (claimed (producer (sys st)) = None \/ claimed (producer s') = claimed (producer (sys st))) ->
  Rel k (set_sys s' (Seq x) st).
Proof using Type.
  clear. intros Hst Hok Hex Hb Hbd Hpc Hro Hpo Hc Hp Hcu Hch Hcl. destruct Hst. split; cbn; rewrite ?Hb; try done.
  - by eapply run_snoc.
  - apply Forall_app. by split; [|apply Forall_singleton].
  - intros Hl. destruct (r_open0 Hl) as (q & Hq & Ht). exists q. unfold chunk_bytes in *. rewrite Hch.
    split; [|done]. destruct Hcl; congruence.
  - by apply (phase_beside _ (sys st)).
Qed.

Lemma progress_bound k st : Rel k st -> 0 <= progress (ring (sys st)) <= cursor (ring (sys st)).
Proof using capacity_pow2 crc_range opened0.
  intros Hst. destruct (rel_dinv _ _ _ _ _ _ _ _ _ _ _ Hst) as [x Hx]. pose proof (ri_order _ _ (in_ring _ _ _ _ _ _ _ _ _ _ Hx)). lia.
Qed.

Lemma t_load_progress k :
  triple (Rel k) (load_progress crc32c cfg) (fun v st => Rel k st /\ 0 <= v <= progress (ring (sys st))).
Proof using capacity_pow2 crc_range opened0.
  unfold load_progress. eapply t_bind; [by apply pop_keeps|]. intros v. eapply t_bind; [apply t_get|].
  intros s st [Hst ->]. destruct (_ && _) eqn:Hb; [|split; [by exists k|done]].
  apply andb_true_iff in Hb as [? ?]. zb. by split; [exists k|].
Qed.

(** An access whose outcome is read off the state. *)
Lemma t_act_same x (P : St E -> Prop) k :
  (forall st, P st -> Rel k st) -> seq_ok g x ->
  (forall st s', P st -> seq_step (capacity cfg) x (sys st) = Some s' -> Rel k (set_sys s' (Seq x) st)) ->
  triple P (act cfg x) (fun _ st' => exists st s', P st /\ seq_step (capacity cfg) x (sys st) = Some s' /\ st' = set_sys s' (Seq x) st /\ Rel k st').
Proof using Type.
  clear. intros HP Hok Hstep st Hst. unfold act. destruct (seq_step _ _ _) as [s'|] eqn:Hs; cbn.
  - pose proof (Hstep _ _ Hst Hs). split; [by exists k|]. by exists st, s'.
  - split; [|done]. exists k. by apply HP.
Qed.

Lemma t_try_claim k :
  triple (Rel k) (try_claim crc32c cfg) (fun b st => Rel k st /\ (b = true -> is_Some (claimed (producer (sys st))))).
Proof using capacity_pow2 crc_range opened0.
  unfold try_claim. eapply t_bind; [apply t_load_progress|]. intros v. eapply t_bind.
  - apply (t_act_same (TryClaim v) _ k); [by intros ? [? _]|done|].
    intros st s' [Hst Hv] Hs. apply act_same; try done; cbn [seq_step] in Hs;
      (destruct (claimed _) eqn:Hc; [done|]); destruct (_ && _); try done; injection Hs as <-; try done. by left.
  - intros _ st (st0 & s' & _ & _ & -> & Hst). split; [by exists k|]. split; [done|]. cbn. by intros Hb%bool_decide_eq_true.
Qed.

Lemma t_poisoned k :
  triple (Rel k) (poisoned crc32c cfg) (fun b st => Rel k st /\ (b = true -> Control.poisoned (control (sys st)) = true)).
Proof using capacity_pow2 crc_range opened0.
  unfold poisoned. eapply t_bind; [by apply pop_keeps|]. intros b. eapply t_bind; [apply t_get|].
  intros s. destruct (_ && _) eqn:Hb.
  { apply t_end; [by intros st [Hst _]; exists k|by left]. }
  eapply t_bind.
  - apply (t_act_same (AskPoisoned b) _ k); [by intros ? [? _]|done|].
    intros st s' [Hst ->] Hs. pose proof Hs as Hs0. cbn [seq_step] in Hs. destruct (_ && _); [done|]. injection Hs as <-.
    apply act_same; try done. by right.
  - intros u. apply t_ret. intros st (st0 & s' & [Hst0 ->] & Hs & -> & Hst). split; [by exists k|]. split; [done|]. intros ->. cbn in Hb |- *.
    cbn [seq_step] in Hs. destruct (Control.poisoned (control (sys st0))) eqn:Hp; [|done]. injection Hs as <-. done.
Qed.

Lemma t_drained k :
  triple (Rel k) (drained crc32c cfg)
    (fun b st => Rel k st /\ (b = true -> progress (ring (sys st)) = cursor (ring (sys st)))).
Proof using capacity_pow2 crc_range opened0.
  unfold drained. eapply t_bind; [apply t_load_progress|]. intros v.
  assert (Hget : triple (fun st => Rel k st /\ 0 <= v <= progress (ring (sys st))) (get sys)
                   (fun s st => (Rel k st /\ 0 <= v <= progress (ring (sys st))) /\ s = sys st))
    by (intros st [Hst Hv]; by split; [exists k|]).
  eapply t_bind; [apply Hget|]. intros s. eapply t_bind.
  - apply (t_act_same (AskDrained v (WriteRing.drained v (ring s))) _ k); [by intros ? [[? _] _]|done|].
    intros st s' [[Hst Hv] ->] Hs. pose proof Hs as Hs0. cbn [seq_step] in Hs. destruct (_ && _); [|done]. injection Hs as <-.
    apply act_same; try done. by right.
  - intros u. apply t_ret. intros st (st0 & s' & [[Hst0 Hv] ->] & Hs & -> & Hst). split; [by exists k|]. split; [done|].
    intros Hd. cbn [seq_step] in Hs. destruct (_ && _); [|done]. injection Hs as <-. cbn.
    unfold WriteRing.drained in Hd. zb. pose proof (progress_bound _ _ Hst0). lia.
Qed.

Lemma k_take_poison : keeps (take_poison cfg).
Proof using Type.
  clear. intros k. unfold take_poison. eapply t_bind; [apply t_get|]. intros e. eapply t_bind.
  - apply (t_act_same (TakeError e) _ k); [by intros ? [? _]|done|].
    intros st s' [Hst ->] Hs. pose proof Hs as Hs0. cbn [seq_step take_error] in Hs. destruct (decide _); [|done].
    injection Hs as <-. apply act_same; try done. by right.
  - intros u. apply t_ret. intros st (st0 & s' & _ & _ & _ & Hst). split; [by exists k|done].
Qed.

(** Fails with the poison's cause, or goes on. *)
Lemma k_poison_fails {X} : keeps (e ← take_poison cfg; @fail E X e).
Proof using Type. apply k_bind; [apply k_take_poison|]. intros e. apply k_end. right. right. by exists e. Qed.

(** *** What hands nothing over *)

Lemma try_publish_keeps i bytes n room : keeps (@try_publish E i bytes n room).
Proof using Type.
  intros k st Hst. assert (Hst' : Rel k (try_publish i bytes n room st).2) by (destruct Hst; by split).
  split; [by exists k|done].
Qed.

Ltac kt :=
  repeat first
    [ apply k_ret | apply k_get | apply try_publish_keeps | apply k_poison_fails | apply k_take_poison
    | apply pop_keeps; by intros | apply put_core_keeps; by intros
    | apply k_end; solve [by left | by right; left | right; right; by eexists]
    | apply k_fuelled; intros ? | assumption
    | match goal with
      | |- keeps (_ ≫= _) => apply k_bind; [|intros ?]
      | |- keeps (if ?b then _ else _) => destruct b
      | |- keeps (match ?x with _ => _ end) => destruct x
      end ].

Lemma k_rings_from i ps bytes n : keeps (publish_to_rings_from crc32c cfg i ps bytes n).
Proof using capacity_pow2 crc_range opened0.
  revert i. induction ps as [|p ps IH]; intros i; cbn [publish_to_rings_from]; [kt|].
  apply k_bind; [|intros ?; apply IH]. unfold publish_to_ring. kt.
Qed.

Lemma k_rings bytes n : keeps (publish_to_replication_rings crc32c cfg bytes n).
Proof using capacity_pow2 crc_range opened0. apply k_rings_from. Qed.

Lemma k_input_batch n : keeps (publish_input_batch_to_rings crc32c cfg n).
Proof using capacity_pow2 crc_range opened0.
  unfold publish_input_batch_to_rings. apply k_bind; [kt|]. intros a. destruct (publish_input_batch a) as [[frame|] a']; [|kt].
  apply k_bind; [apply k_rings|]. intros _. kt.
Qed.

Lemma k_chain_check : keeps (maybe_publish_chain_check crc32c blake3 cfg).
Proof using capacity_pow2 crc_range opened0. unfold maybe_publish_chain_check. kt. apply k_rings. Qed.

Lemma k_publish_rotate : keeps (publish_rotate_to_rings crc32c blake3 cfg).
Proof using capacity_pow2 crc_range opened0. unfold publish_rotate_to_rings. kt. apply k_rings. Qed.

Lemma k_poisoned : keeps (poisoned crc32c cfg).
Proof using capacity_pow2 crc_range opened0. intros k. eapply t_mono; [apply t_poisoned|done|]. by intros ? ? [? _]. Qed.

Lemma k_armed : keeps (local_rotation_armed crc32c cfg).
Proof using capacity_pow2 crc_range opened0. unfold local_rotation_armed. kt; apply k_input_batch. Qed.

Lemma k_finish_local res : keeps (finish_local_rotation crc32c blake3 cfg res).
Proof using capacity_pow2 crc_range opened0. unfold finish_local_rotation. kt. apply k_publish_rotate. Qed.

Lemma k_refresh : keeps (refresh_pending_mark crc32c cfg).
Proof using capacity_pow2 crc_range opened0. unfold refresh_pending_mark. kt. Qed.

Lemma k_outstanding : keeps (marks_outstanding crc32c cfg).
Proof using capacity_pow2 crc_range opened0. unfold marks_outstanding. kt. Qed.

Lemma k_backed_off : keeps (rotation_backed_off crc32c cfg).
Proof using capacity_pow2 crc_range opened0. unfold rotation_backed_off. kt. Qed.

Lemma k_fail_adoption : keeps (fail_adoption crc32c cfg).
Proof using capacity_pow2 crc_range opened0. unfold fail_adoption. kt. Qed.

(** A rotation is due only where the writer is quiet. *)
Lemma t_resolve n q k : triple (Rel k) (resolve_loop crc32c blake3 cfg n q) (fun r st => Rel k st /\ (r <> None -> q = true)).
Proof using capacity_pow2 crc_range opened0.
  assert (Hend : forall r : option (Z * list Z), (r <> None -> q = true) ->
    triple (Rel k) (mret r) (fun r st => Rel k st /\ (r <> None -> q = true)))
    by (intros r Hr; apply t_ret; intros st Hst; by split; [exists k|]).
  assert (Hfail : forall e, triple (Rel k) (fail e) (fun (r : option (Z * list Z)) st => Rel k st /\ (r <> None -> q = true)))
    by (intros e; apply t_end; [by exists k|right; right; by exists e]).
  induction n as [|n IH]; cbn [resolve_loop]; [apply t_end; [by exists k|by left]|].
  assert (Hagain : triple (Rel k) (put_core (set_pending_mark None);; resolve_loop crc32c blake3 cfg n q)
      (fun r st => Rel k st /\ (r <> None -> q = true)))
    by (eapply t_bind; [by apply put_core_keeps|intros ?; apply IH]).
  eapply t_bind; [apply k_refresh|]. intros ?. eapply t_bind; [apply k_get|]. intros c.
  destruct (pending_mark c) as [[b h|sq h]|]; [..|by apply Hend]; cbn [Receiver.Stream.mark_sequence];
    (destruct (_ <? _); [by apply Hend|]).
  - destruct (_ =? _); [apply Hagain|]. destruct (_ <? _); [apply Hfail|].
    destruct q; cbn [negb]; [|by apply Hend]. destruct (_ && _); [apply Hfail|by apply Hend].
  - destruct (_ <? _); [apply Hfail|]. destruct (bool_decide _); [apply Hagain|apply Hfail].
Qed.

(** A slot claimed, or the disk thread's failure. *)
Lemma t_claim_slot k :
  triple (Rel k) (claim_slot crc32c cfg) (fun _ st => Rel k st /\ is_Some (claimed (producer (sys st)))).
Proof using capacity_pow2 crc_range opened0.
  unfold claim_slot. eapply t_bind; [apply t_get|]. intros held.
  destruct held.
  { apply t_ret. intros st [Hst Hh]. split; [by exists k|]. split; [done|]. symmetry in Hh. by apply bool_decide_eq_true in Hh. }
  assert (Hloop : forall n, triple (Rel k) (claim_loop crc32c cfg n) (fun _ st => Rel k st /\ is_Some (claimed (producer (sys st))))).
  { induction n as [|n IH]; cbn [claim_loop]; [apply t_end; [by exists k|by left]|].
    eapply t_bind; [apply t_try_claim|]. intros [].
    { apply t_ret. intros st [Hst Hc]. split; [by exists k|]. split; [done|]. by apply Hc. }
    eapply t_bind; [eapply t_mono; [apply k_poisoned|by intros ? [? _]|done]|]. intros [|]; [|apply IH].
    eapply t_bind; [apply k_take_poison|]. intros e. apply t_end; [by exists k|right; right; by exists e]. }
  intros st [Hst _]. by apply Hloop.
Qed.

Lemma k_claim_slot : keeps (claim_slot crc32c cfg).
Proof using capacity_pow2 crc_range opened0. intros k. eapply t_mono; [apply t_claim_slot|done|]. by intros ? ? [? _]. Qed.

Lemma t_drain_disk k :
  triple (Rel k) (drain_disk crc32c cfg) (fun _ st => Rel k st /\ progress (ring (sys st)) = cursor (ring (sys st))).
Proof using capacity_pow2 crc_range opened0.
  assert (Hloop : forall n, triple (Rel k) (drain_loop crc32c cfg n)
      (fun _ st => Rel k st /\ progress (ring (sys st)) = cursor (ring (sys st)))).
  { induction n as [|n IH]; cbn [drain_loop]; [apply t_end; [by exists k|by left]|].
    eapply t_bind; [apply t_drained|]. intros [].
    { apply t_ret. intros st [Hst Hc]. split; [by exists k|]. split; [done|]. by apply Hc. }
    eapply t_bind; [eapply t_mono; [apply k_poisoned|by intros ? [? _]|done]|]. intros [|]; [|apply IH].
    eapply t_bind; [apply k_take_poison|]. intros e. apply t_end; [by exists k|right; right; by exists e]. }
  intros st Hst. by apply Hloop.
Qed.

(** *** Handing a batch over *)

Lemma items_of_app xs ys : items_of (xs ++ ys) = items_of xs ++ items_of ys.
Proof using Type.
  clear. induction xs as [|x xs IH]; [done|]. cbn [Datatypes.app Mirror.items_of]. destruct (takes_wire_seq _ _); [|done].
  cbn. by rewrite IH.
Qed.

(** The slots between two positions. *)
Definition between (c e : nat) (inp : list (InputSlot E)) : list item := items_of (take (e - c) (drop c inp)).

Lemma between_upto c e inp : (c <= e)%nat -> items_of (take e inp) = items_of (take c inp) ++ between c e inp.
Proof using Type.
  clear. intros Hce. unfold between. rewrite <- items_of_app. f_equal.
  rewrite take_take_drop. f_equal. lia.
Qed.

Lemma between_split c e n inp : (c <= e <= n)%nat -> between c n inp = between c e inp ++ between e n inp.
Proof using Type.
  clear. intros [Hce Hen]. unfold between. rewrite <- items_of_app. f_equal.
  replace (drop e inp) with (drop (e - c) (drop c inp)) by (rewrite drop_drop; f_equal; lia).
  rewrite take_take_drop. f_equal. lia.
Qed.

Lemma good_app bs n bts segs s a fl more :
  (n <= length bts)%nat -> good bs n bts segs s a fl -> good bs n (bts ++ more) segs s a fl.
Proof using Type. clear. intros Hn []. split; try done. by rewrite layout_app. Qed.

Lemma cover_app inp h n bts x :
  (h <= n <= length inp)%nat -> all_cover (take h inp) bts -> ring_progress x.1 = r0 + Z.of_nat n ->
  span 0 (S (length bts)) (bts ++ [x]) = stream first_seq (items_of (take n inp)) ->
  journal_seq x.1 = first_seq + Z.of_nat (length (items_of (take n inp))) - 1 -> all_cover (take n inp) (bts ++ [x]).
Proof using Type.
  clear. intros Hn Hall Hp Hs Hj i m bs Hi. apply lookup_app_Some in Hi as [Hi|[Hge Hi]].
  - destruct (Hall i m bs Hi) as (c & H1 & H2 & H3 & H4 & H5). exists c. rewrite length_take in H1.
    pose proof (lookup_lt_Some _ _ _ Hi). rewrite take_take, Nat.min_l in H3, H4 by lia.
    split_and!; rewrite ?length_take, ?take_take, ?(Nat.min_l c n) by lia; try done; [lia| |].
    + by rewrite span_app by lia.
    + by rewrite take_app_le by lia.
  - apply list_lookup_singleton_Some in Hi as [Hi ->]. replace i with (length bts) in * by lia. exists n.
    unfold covers. rewrite take_take, Nat.min_id. split_and!; try done; [rewrite length_take; lia|]. rewrite take_app_length.
    apply Forall_lookup. intros q [m' b'] Hq. destruct (Hall _ _ _ Hq) as (c & H1 & H2 & _). rewrite length_take in H1. cbn. cbn in Hp. lia.
Qed.

(** The next sequence, counted from the start of the run. *)
Lemma next_place k st : Rel k st ->
  seg_start k + Z.of_nat (length (flushed k)) = first_seq + Z.of_nat (length (items_of (take (handed k) (slots_in k)))) /\
  first_seq + Z.of_nat (length (items_of (slots_in k))) <= u64_max /\ 1 <= seg_start k /\
  Forall item_ok (items_of (slots_in k)) /\ (handed k <= encoded k <= length (slots_in k))%nat.
Proof using Type.
  clear. intros Hst. destruct Hst. pose proof (linked_count crc32c blake3 _ _ _ _ _ (gd_linked _ _ _ _ _ _ _ r_good0)) as Hs.
  pose proof (f_equal length r_items0) as Hl. rewrite !length_app in Hl. destruct r_coming0 as [Hit Hra _].
  rewrite items_of_app, ?length_app in Hra. rewrite items_of_app, Forall_app in Hit. unfold first_seq in *.
  destruct (gd_live _ _ _ _ _ _ _ r_good0) as (_ & H1 & _). cbn in H1. split_and!; try done; try lia; apply Hit || apply r_pos0.
Qed.

Definition after_submit (k : Ghost) (n : nat) : Ghost :=
  Gh (waiting k) n n (known k) (sealed k) (seg_start k) (seg_anchor k)
    (flushed k ++ between (handed k) (encoded k) (slots_in k)) (slots_in k) (given k).

(** The encoder, as the history has it; nothing else of the state matters to it. *)
Definition enc_ok (k : Ghost) (enc : JournalEncoder) : Prop :=
  einv enc (seg_start k) (seg_anchor k) (flushed k) (between (handed k) (encoded k) (slots_in k)) (given k).

Lemma t_encoder k : triple (Rel k) (get (fun st => encoder (core st))) (fun enc st => Rel k st /\ enc_ok k enc).
Proof using Type. intros st Hst. split; [by exists k|]. split; [done|]. apply (r_enc _ _ _ _ _ _ _ _ _ _ _ Hst). Qed.

Lemma published_rel k st enc n m s' :
  Rel k st -> enc_ok k enc -> waiting k = false -> given k = false -> (encoded k <= n <= length (slots_in k))%nat ->
  between (encoded k) n (slots_in k) = [] ->
  len m = Z.of_nat (batch_len enc) -> journal_seq m = sat_sub (next_sequence enc) 1 -> ring_progress m = r0 + Z.of_nat n ->
  seq_step (capacity cfg) (Publish m) (sys st) = Some s' ->
  forall sb, Rel (after_submit k n)
    (set_core (set_segment_bytes sb (set_encoder (clear_batch enc) (core st))) (set_sys s' (Seq (Publish m)) st)).
Proof using Type.
  clear. unfold enc_ok. intros Hst Henc Hwt Hgv Hn Hbt Hlen Hseq Hprog Hstep sb.
  pose proof (next_place _ _ Hst) as (Hplace & Hmax & Hs1 & Hits & Hce). pose proof Hst as Hst0. destruct Hst.
  rewrite Hwt, Hgv in *.
  set (pe := between (handed k) (encoded k) (slots_in k)) in *. change (items_of (take (encoded k - handed k) (drop (handed k) (slots_in k)))) with pe in *.
  assert (Hupto : items_of (take n (slots_in k)) = items_of (take (handed k) (slots_in k)) ++ pe)
    by (rewrite (between_upto (encoded k) n), Hbt, app_nil_r, (between_upto (handed k)) by lia; done).
  assert (Hpe : (length (items_of (take n (slots_in k))) = length (items_of (take (handed k) (slots_in k))) + length pe /\
                length (items_of (take n (slots_in k))) <= length (items_of (slots_in k)))%nat).
  { rewrite Hupto at 1. rewrite length_app. split; [lia|]. rewrite <- (take_drop n (slots_in k)) at 2. rewrite items_of_app, length_app. lia. }
  destruct Henc as [E1 E2 E3 E4 E5]. pose proof (ei_len _ _ _ _ _ _ r_enc0) as Elen.
  rewrite <- E5 in Elen.
  pose proof Hstep as Hstep0. cbn [seq_step] in Hstep. destruct (claimed (producer (sys st))) as [q|] eqn:Hq; [|done].
  destruct (negb (_ && _ && _)); [done|]. cbn [publish] in Hstep. injection Hstep as <-.
  set (bytes := take (Z.to_nat (len m)) (chunk_bytes (capacity cfg) q (ring (sys st)))) in *.
  assert (Hbytes : bytes = stream (seg_start k + Z.of_nat (length (flushed k))) pe).
  { unfold bytes. rewrite Hlen, Nat2Z.id. destruct (Nat.eq_dec (batch_len enc) 0%nat) as [Hz|Hz].
    - rewrite Hz. cbn [take]. rewrite Hz in E5. symmetry. by apply nil_length_inv.
    - rewrite Elen in r_open0. destruct (r_open0 ltac:(lia)) as (q1 & Hq1 & Ht). assert (q1 = q) as -> by congruence. exact Ht. }
  assert (Hspan : span 0 (S (length (batches (sys st)))) (batches (sys st) ++ [(m, bytes)]) = stream first_seq (items_of (take n (slots_in k)))).
  { rewrite (span_split 0 (length (batches (sys st)))), span_app by lia.
    rewrite (span_one _ _ m bytes) by (by rewrite lookup_app_r, Nat.sub_diag by lia).
    rewrite r_total0, Hupto, stream_app, Hbytes. by rewrite Hplace. }
  assert (Hgood : good (known k) (S (length (batches (sys st)))) (batches (sys st) ++ [(m, bytes)]) (sealed k) (seg_start k) (seg_anchor k) (flushed k ++ pe)).
  { destruct (good_app _ _ _ _ _ _ _ [(m, bytes)] (Nat.le_refl _) r_good0) as [G1 G2 G3 G4 (G5 & G6 & G7 & G8)]. split.
    - by eapply ordered_mono; [|done]; lia.
    - rewrite (layout_grow _ _ _ _ _ (length (batches (sys st)))), G2 by (done || lia). unfold grown. cbn [fst snd].
      rewrite (span_one _ _ m bytes) by (by rewrite lookup_app_r, Nat.sub_diag by lia). by rewrite Hbytes, <- stream_app.
    - done.
    - done.
    - split_and!; [done|done| |]; unfold seg_next in *; cbn in *.
      + rewrite length_app. lia.
      + apply Forall_app. split; [done|]. unfold pe, between. eapply Forall_forall. intros it Hit. rewrite Forall_forall in Hits.
        apply Hits. rewrite <- (take_drop (handed k) (slots_in k)), items_of_app, <- (take_drop (encoded k - handed k) (drop (handed k) (slots_in k))), items_of_app.
        apply elem_of_app. right. apply elem_of_app. by left. }
  split; cbn; try done.
  - by eapply run_snoc.
  - apply Forall_app. by split; [|apply Forall_singleton].
  - split; [lia|]. by destruct r_pos0.
  - apply (cover_app _ (handed k)); [lia|done|done|done|]. cbn.
    rewrite Hseq, E2. unfold sat_sub. rewrite length_app. lia.
  - by rewrite length_app, Nat.add_1_r.
  - by rewrite length_app, Nat.add_1_r.
  - rewrite app_assoc, r_items0, Hupto. by rewrite <- app_assoc.
  - rewrite Nat.sub_diag. split; cbn; rewrite ?app_nil_r; try done. by rewrite Hgv.
  - lia.
  - assert (Hnb : (length (batches (sys st)) <= length (batches (sys st) ++ [(m, bytes)]))%nat) by (rewrite length_app; lia).
    destruct r_phase0 as [? Hi Hs Hbs|r ? Ho Hst' Han Hpr Hbs|? Ho Hpr Hbs|er ? Ho Hbs|Hd Hw Hbs]; try done.
    + by apply ph_idle.
    + apply ph_dead; [done|by rewrite Hwt|]. destruct Hbs as [Hbs|(c & segs & s1 & a1 & fl1 & Hdi & Hc & Hg & Hnr & Hb)]; [by left|right].
      exists c, segs, s1, a1, fl1. split_and!; cbn; try done; [lia|]. by apply good_app.
Qed.

Lemma t_submit k n :
  waiting k = false -> given k = false -> (encoded k <= n <= length (slots_in k))%nat ->
  between (encoded k) n (slots_in k) = [] ->
  triple (Rel k) (submit_batch crc32c blake3 cfg (r0 + Z.of_nat n)) (fun _ => Rel (after_submit k n)).
Proof using capacity_pow2 crc_range opened0.
  intros Hwt Hgv Hn Hbt. unfold submit_batch. eapply t_bind; [|intros ?].
  { instantiate (1 := fun _ => Rel k). destruct (any_producer cfg); [|apply k_ret].
    eapply t_bind; [apply k_get|]. intros enc. apply k_input_batch. }
  eapply t_bind; [apply t_encoder|]. intros enc. apply t_pure. intros Henc.
  eapply t_bind; [apply k_claim_slot|]. intros ? st Hst.
  unfold mbind, M_bind, bind, act.
  destruct (seq_step _ _ _) as [s'|] eqn:Hs; cbn; [|by split; [exists k|]].
  eapply published_rel in Hs; try done. split; [eexists|]; apply Hs.
Qed.

(** *** Encoding a slot *)

Definition with_given (b : bool) (k : Ghost) : Ghost :=
  Gh (waiting k) (handed k) (encoded k) (known k) (sealed k) (seg_start k) (seg_anchor k) (flushed k) (slots_in k) b.
Definition after_slot (k : Ghost) : Ghost :=
  Gh (waiting k) (handed k) (S (encoded k)) (known k) (sealed k) (seg_start k) (seg_anchor k) (flushed k) (slots_in k) false.

Lemma between_S c e inp slot : (c <= e)%nat -> inp !! e = Some slot ->
  between c (S e) inp = between c e inp ++ items_of [slot].
Proof using Type.
  clear. intros Hce Hs. rewrite (between_split c e (S e)) by lia. f_equal. unfold between.
  rewrite (drop_S _ _ _ Hs). by replace (S e - e)%nat with 1%nat by lia.
Qed.

(** A slot that is not journaled is passed over. *)
Lemma skipped_rel k st slot :
  given k = false -> slots_in k !! encoded k = Some slot -> takes_wire_seq app_is_query (event slot) = false ->
  Rel k st -> Rel (after_slot k) st.
Proof using Type.
  clear. intros Hgv Hs Ht Hst. pose proof (lookup_lt_Some _ _ _ Hs) as Hlt. destruct Hst.
  assert (Hbt : between (handed k) (S (encoded k)) (slots_in k) = between (handed k) (encoded k) (slots_in k)).
  { rewrite (between_S _ _ _ slot) by (done || lia). cbn. by rewrite Ht, app_nil_r. }
  unfold between in Hbt. rewrite Hgv in r_enc0. split; cbn [after_slot waiting handed encoded known sealed seg_start seg_anchor flushed slots_in given];
    rewrite ?Hbt; try done. split; [lia|apply r_pos0].
Qed.

(** The room in the sequence space for what is still to be encoded. *)
Lemma next_fits k st slot : Rel k st -> slots_in k !! encoded k = Some slot -> takes_wire_seq app_is_query (event slot) = true ->
  seg_start k + Z.of_nat (length (flushed k ++ between (handed k) (encoded k) (slots_in k))) < u64_max /\
  1 <= seg_start k /\ item_ok (timestamp_ns slot, key_hash slot, event slot).
Proof using Type.
  clear. intros Hst Hs Ht. destruct (next_place _ _ Hst) as (Hplace & Hmax & Hs1 & Hits & Hce).
  assert (Hall : items_of (slots_in k) = items_of (take (handed k) (slots_in k)) ++ between (handed k) (encoded k) (slots_in k) ++
                   (timestamp_ns slot, key_hash slot, event slot) :: items_of (drop (S (encoded k)) (slots_in k))).
  { rewrite <- (take_drop (encoded k) (slots_in k)) at 1. rewrite items_of_app, (between_upto (handed k)), <- app_assoc by lia.
    do 2 f_equal. rewrite (drop_S _ _ _ Hs). cbn [Mirror.items_of]. by rewrite Ht. }
  rewrite Hall in Hmax, Hits. rewrite !length_app in Hmax. cbn in Hmax. rewrite length_app.
  apply Forall_app in Hits as [_ [_ [Hit _]%Forall_cons]%Forall_app]. split_and!; [lia|done..].
Qed.

Lemma given_rel k st enc : Rel k st -> enc_ok (with_given true k) enc -> Rel (with_given true k) (set_core (set_encoder enc (core st)) st).
Proof using Type.
  clear. intros Hst Henc. destruct Hst. unfold enc_ok in Henc. split; cbn; try done.
  rewrite (ei_len _ _ _ _ _ _ Henc). cbn. by rewrite <- (ei_len _ _ _ _ _ _ r_enc0).
Qed.

(** The event in the claimed chunk. *)
Lemma encoded_rel k st enc slot q enc' dst' s' :
  Rel (with_given true k) st -> enc_ok (with_given true k) enc -> slots_in k !! encoded k = Some slot ->
  takes_wire_seq app_is_query (event slot) = true -> claimed (producer (sys st)) = Some q ->
  Encoder.encode_event crc32c enc (chunk_bytes (capacity cfg) q (ring (sys st))) (next_sequence enc - 1)
    (timestamp_ns slot) (event slot) (key_hash slot) = Ok (enc', dst') ->
  seq_step (capacity cfg) (Fill dst') (sys st) = Some s' ->
  Rel (after_slot k) (set_core (set_encoder enc' (core st)) (set_sys s' (Seq (Fill dst')) st)).
Proof using capacity_pow2 crc_range opened0.
  intros Hst Henc Hs Ht Hq Hev Hstep. pose proof (lookup_lt_Some _ _ _ Hs) as Hlt.
  destruct (rel_dinv _ _ _ _ _ _ _ _ _ _ _ Hst) as [x Hx].
  destruct (ri_chunks _ _ (in_ring _ _ _ _ _ _ _ _ _ _ Hx)) as [Hnch _].
  pose proof (ix_lt (capacity cfg) capacity_pow2 q) as Hix. clear Hx.
  destruct Hst. cbn [with_given waiting handed encoded known sealed seg_start seg_anchor flushed slots_in given] in *.
  unfold enc_ok in Henc. cbn in Henc. destruct Henc as [E1 E2 E3 E4 E5]. pose proof (ei_len _ _ _ _ _ _ r_enc0) as Elen.
  change (items_of (take (encoded k - handed k) (drop (handed k) (slots_in k)))) with (between (handed k) (encoded k) (slots_in k)) in *.
  rewrite <- E5 in Elen. rewrite Elen in r_open0.
  set (pe := between (handed k) (encoded k) (slots_in k)) in *. set (dst := chunk_bytes (capacity cfg) q (ring (sys st))) in *.
  pose (it := (timestamp_ns slot, key_hash slot, event slot) : item (E:=E)).
  assert (Hpre : take (batch_len enc) dst = stream (seg_start k + Z.of_nat (length (flushed k))) pe).
  { destruct (Nat.eq_dec (batch_len enc) 0%nat) as [Hz|Hz].
    - rewrite Hz in *. symmetry. by apply nil_length_inv.
    - destruct (r_open0 ltac:(lia)) as (q1 & Hq1 & Hd). by assert (q1 = q) as -> by congruence. }
  assert (Hseq : next_sequence enc - 1 = seg_start k + Z.of_nat (length (flushed k ++ pe))) by lia.
  rewrite Hseq in Hev. unfold Encoder.encode_event in Hev. rewrite (proj2 (Z.leb_gt _ _)) in Hev by lia.
  assert (Hfr : exists bs, encode crc32c MAX_ENTRY_SIZE (seg_start k + Z.of_nat (length (flushed k ++ pe))) (timestamp_ns slot) (key_hash slot) (event slot) = Ok bs
                 /\ frame crc32c (seg_start k + Z.of_nat (length (flushed k ++ pe))) it = bs).
  { unfold frame, it. destruct (encode _ _ _ _ _ _) as [bs|]; [by exists bs|done]. }
  destruct Hfr as (bs & He & Hfr). rewrite He in Hev. cbn [rbind] in Hev.
  destruct (_ <? _)%nat eqn:Hroom; [done|]. apply Nat.ltb_ge in Hroom. injection Hev as <- <-.
  set (dst' := take (batch_len enc) dst ++ bs ++ drop (batch_len enc + length bs) dst) in *.
  assert (Hpe' : between (handed k) (S (encoded k)) (slots_in k) = pe ++ [it]).
  { rewrite (between_S _ _ _ slot) by (done || lia). cbn [Mirror.items_of]. by rewrite Ht. }
  assert (Hstr : stream (seg_start k + Z.of_nat (length (flushed k))) (pe ++ [it]) = take (batch_len enc) dst ++ bs).
  { rewrite stream_app; cbn [Journal.Stream.stream]; rewrite app_nil_r, Hpre, <- Hfr. do 2 f_equal. rewrite length_app. lia. }
  assert (Hl : length (take (batch_len enc) dst) = batch_len enc) by (rewrite Hpre; lia).
  pose proof Hstep as Hstep0. cbn [seq_step] in Hstep. rewrite Hq in Hstep. destruct (_ =? _); [|done]. injection Hstep as <-.
  split; cbn [after_slot waiting handed encoded known sealed seg_start seg_anchor flushed slots_in given]; cbn; try done.
  - by eapply run_snoc.
  - apply Forall_app. by split; [|apply Forall_singleton].
  - split; [lia|apply r_pos0].
  - change (items_of (take (S (encoded k) - handed k) (drop (handed k) (slots_in k)))) with (between (handed k) (S (encoded k)) (slots_in k)).
    rewrite Hpe'. split; cbn; rewrite ?(app_assoc _ pe).
    + done.
    + rewrite E2, (length_app _ [it]). change (length [it]) with 1%nat. lia.
    + rewrite (length_app _ [it]). change (length [it]) with 1%nat. lia.
    + unfold Chain.absorb. rewrite E4. cbn [Chain.anchor Chain.absorbed]. f_equal.
      * rewrite (stream_app _ _ _ [it]). cbn [Journal.Stream.stream]. by rewrite app_nil_r, Hfr.
      * by rewrite (length_app _ [it]), Nat.add_1_r.
    + by rewrite Hstr, length_app, Hl.
  - intros _. exists q. split; [done|]. unfold chunk_bytes, fill. cbn. rewrite list_lookup_total_insert, decide_True by (split; [done|rewrite Hnch; apply Hix]).
    change (items_of (take (S (encoded k) - handed k) (drop (handed k) (slots_in k)))) with (between (handed k) (S (encoded k)) (slots_in k)).
    rewrite Hpe', Hstr. unfold dst'. rewrite app_assoc. by rewrite take_app_length' by (rewrite length_app; lia).
  - by apply (phase_beside _ (sys st)).
Qed.

Lemma t_encode_slot k slot :
  given k = false -> slots_in k !! encoded k = Some slot -> takes_wire_seq app_is_query (event slot) = true ->
  triple (Rel k) (encode_slot crc32c cfg slot) (fun _ => Rel (after_slot k)).
Proof using capacity_pow2 crc_range opened0.
  intros Hgv Hs Ht. unfold encode_slot. eapply t_bind; [apply t_encoder|]. intros enc. apply t_pure. intros Henc.
  set (alloc := if negb (_ slot =? 0) then _ else _).
  assert (Hal : alloc = Ok (allocate_sequence enc) \/ exists e, alloc = Err e).
  { unfold alloc, adopt_sequence. destruct (negb _); [|by left]. destruct (negb _); [right; by eexists|by left]. }
  destruct Hal as [->|[e ->]]; cbn [lift].
  2: { eapply t_bind; [apply t_end; [by exists k|right; right; by exists e]|]. intros x. by instantiate (1 := fun _ _ => False). }
  unfold allocate_sequence. eapply (t_bind _ _ _ (fun x st => (Rel k st /\ x = allocate_sequence enc))).
  { apply t_ret. intros st Hst. by split; [exists k|]. }
  intros x. apply t_pure. intros ->. unfold allocate_sequence.
  set (enc1 := {| batch_len := _ |}).
  assert (Hfit : forall st, Rel k st -> enc_ok (with_given true k) enc1 /\ next_sequence enc1 - 1 = next_sequence enc).
  { intros st Hst. destruct (next_fits _ _ _ Hst Hs Ht) as (Hfit & H1 & _). unfold enc_ok in *. rewrite Hgv in Henc. destruct Henc as [E1 E2 E3 E4 E5].
    assert (Hw : wrapping_add (next_sequence enc) 1 = next_sequence enc + 1).
    { rewrite E2. unfold wrapping_add. apply Z.mod_small. unfold u64_max in *. lia. }
    unfold enc1. cbn [next_sequence]. rewrite Hw. split; [|lia]. split; cbn [with_given seg_start seg_anchor flushed handed encoded slots_in given Encoder.starting_sequence next_sequence last_encoded_seq hash_chain batch_len]; try done; lia. }
  eapply (t_bind _ _ _ (fun _ st => Rel (with_given true k) st /\ enc_ok (with_given true k) enc1 /\ next_sequence enc1 - 1 = next_sequence enc)).
  { intros st Hst. destruct (Hfit st Hst) as [Hok Hn]. pose proof (given_rel k st enc1 Hst Hok). by split; [eexists|]. }
  intros u. apply t_pure. intros [Hok Hn].
  eapply t_bind; [apply t_claim_slot|]. intros u' st [Hst [q Hq]].
  unfold mbind, M_bind, bind, get. unfold claimed_bytes. rewrite Hq. cbn [fmap option_fmap option_map lift_panic].
  unfold ret. rewrite <- Hn.
  destruct (Encoder.encode_event _ _ _ _ _ _ _) as [[enc' dst']|e] eqn:Hev; cbn [rmap_err lift]; [|by split; [eexists|]].
  unfold ret, act. destruct (seq_step _ _ _) as [s'|] eqn:Hstep; [|by split; [eexists|]]. cbn.
  pose proof (encoded_rel k st enc1 slot q enc' dst' s' Hst Hok Hs Ht Hq Hev Hstep) as Hst'.
  destruct (record_slot_for_replication _ _ _) as [acc|]; cbn; [|by split; [eexists|]].
  assert (Hacc : Rel (after_slot k) (put_core (set_accum acc) (set_core (set_encoder enc' (core st)) (set_sys s' (Seq (Fill dst')) st))).2)
    by (destruct (put_core_keeps (set_accum acc) ltac:(done) (after_slot k) _ Hst'); done).
  by split; [eexists|].
Qed.

(** *** Rotation *)

Definition quiet (st : St E) : Prop := progress (ring (sys st)) = cursor (ring (sys st)).

Lemma disk_progress o s s' :
  disk_step crc32c (capacity cfg) o s = Some s' ->
  progress (ring s') = progress (ring s) \/ progress (ring s') = WriteRing.next_read (consumer s).
Proof using Type.
  clear. unfold disk_step, stage_next, write_next, rotate_at, write_vectored_at.
  destruct (pc s), o; try done; repeat (case_match; simplify_eq/=); intros; simplify_eq/=; try (by left).
  all: repeat (case_match; simplify_eq/=); try (by left).
  all: unfold WriteRing.commit in *; repeat (case_match; simplify_eq/=); by auto.
Qed.

(** Drained stays drained, whatever the disk thread does. *)
Lemma settle_quiet k l st : Rel k (set_script l st) -> quiet st -> quiet (settle crc32c cfg l st).
Proof using capacity_pow2 crc_range opened0.
  revert st. induction l as [|r l IH]; intros st Hrel Hq; [done|]. destruct r as [x|v|b|sl|m|t|p]; try done.
  cbn [settle]. destruct x as [o| |y]; [..|done].
  all: destruct (exec _ _ _ _) as [s'|] eqn:Hex; [|done];
    pose proof (r_script _ _ _ _ _ _ _ _ _ _ _ Hrel) as Hsc; cbn in Hsc; apply Forall_cons in Hsc as [Hok Hsc];
    pose proof (fun Hx => beside_rel _ _ _ _ _ _ _ _ _ _ _ _ s' Hrel Hx Hok Hex) as Hrel'; specialize (Hrel' ltac:(done)).
  all: apply IH; [destruct Hrel'; by split|].
  - destruct (rel_dinv _ _ _ _ _ _ _ _ _ _ _ Hrel) as [x Hx]. pose proof (ri_order _ _ (in_ring _ _ _ _ _ _ _ _ _ _ Hx)) as Ho.
    cbn in Hex, Ho. unfold quiet in *. cbn. destruct (disk_frame _ _ _ Hex) as (_ & _ & -> & _).
    destruct (disk_progress _ _ _ Hex) as [->| ->]; lia.
  - cbn in Hex. unfold unwind in Hex. destruct (pc (sys st)); try done; injection Hex as <-; done.
Qed.

Lemma t_pop_quiet {X} (f : Reply E -> option X) k : (forall l, f (Slots l) = None) ->
  triple (fun st => Rel k st /\ quiet st) (pop crc32c cfg f) (fun _ st => Rel k st /\ quiet st).
Proof using capacity_pow2 crc_range opened0.
  intros Hf st [Hst Hq]. destruct (pop_keeps f Hf k st Hst) as [Hs Hp]. split; [done|].
  assert (Hq' : quiet (pop crc32c cfg f st).2).
  { pose proof (settle_quiet k (script st) st ltac:(by destruct st) Hq) as Hq'. unfold pop.
    destruct (script (settle _ _ _ _)) as [|r rest]; [done|]. by destruct (f r). }
  by destruct (pop crc32c cfg f st) as [[x|e| |] st'].
Qed.

(** What an operation that keeps the state in every outcome leaves. *)
Definition stays {X} (m : M E X) : Prop := forall k st, Rel k st -> Rel k (m st).2.

Lemma s_bind {X Y} (m : M E X) (f : X -> M E Y) : stays m -> (forall x, stays (f x)) -> stays (m ≫= f).
Proof using Type.
  intros Hm Hf k st Hst. specialize (Hm k st Hst). unfold mbind, M_bind, bind.
  destruct (m st) as [[x|e| |] st']; [by apply Hf|done..].
Qed.

Lemma s_pop {X} (f : Reply E -> option X) : (forall l, f (Slots l) = None) -> stays (pop crc32c cfg f).
Proof using capacity_pow2 crc_range opened0.
  intros Hf k st Hst. pose proof (pop_keeps f Hf k st Hst) as [_ Hp].
  pose proof (settle_rel _ _ _ _ _ _ _ _ _ _ (script st) st ltac:(destruct st; apply Hst)) as Hset.
  revert Hp. unfold pop. destruct (script (settle _ _ _ _)) as [|r rest]; [done|]. by destruct (f r).
Qed.

Lemma s_act x :
  (forall k st s', Rel k st -> seq_step (capacity cfg) x (sys st) = Some s' -> Rel k (set_sys s' (Seq x) st)) -> stays (act cfg x).
Proof using Type. intros Hx k st Hst. unfold act. destruct (seq_step _ _ _) as [s'|] eqn:Hs; [by eapply Hx|done]. Qed.

Lemma s_load_progress : stays (load_progress crc32c cfg).
Proof using capacity_pow2 crc_range opened0.
  apply s_bind; [by apply s_pop|]. intros v k st Hst. cbn. by destruct (_ && _).
Qed.

Lemma s_drain_disk : stays (drain_disk crc32c cfg).
Proof using capacity_pow2 crc_range opened0.
  intros k st. unfold drain_disk, fuelled. generalize (S (length (script st))) as n. intros n.
  assert (Hs : stays (drain_loop crc32c cfg n)); [|apply Hs].
  induction n as [|n IH]; cbn [drain_loop]; [by intros ? ?|]. apply s_bind.
  { apply s_bind; [apply s_load_progress|]. intros v. apply s_bind; [by intros ? ?|]. intros s1. apply s_bind; [|by intros ? ? ?].
    apply s_act. intros k1 st1 s' Hst1 Hs. pose proof Hs as Hs0. cbn [seq_step] in Hs. destruct (_ && _); [|done]. injection Hs as <-.
    apply act_same; try done. by right. }
  intros [|]; [by intros ? ?|]. apply s_bind.
  { apply s_bind; [by apply s_pop|]. intros v. apply s_bind; [by intros ? ?|]. intros s1. destruct (_ && _); [by intros ? ?|]. apply s_bind; [|by intros ? ? ?].
    apply s_act. intros k1 st1 s' Hst1 Hs. pose proof Hs as Hs0. cbn [seq_step] in Hs. destruct (_ && _); [done|]. injection Hs as <-.
    apply act_same; try done. by right. }
  intros [|]; [|apply IH]. apply s_bind; [|by intros ? ? ?].
  apply s_bind; [by intros ? ?|]. intros e. apply s_bind; [|by intros ? ? ?].
  apply s_act. intros k1 st1 s' Hst1 Hs. pose proof Hs as Hs0. cbn [seq_step take_error] in Hs. destruct (decide _); [|done].
  injection Hs as <-. apply act_same; try done. by right.
Qed.

(** Drained, or the failure that stopped it. *)
Lemma t_catch_drain k :
  triple (Rel k) (catch (drain_disk crc32c cfg)) (fun r st => Rel k st /\ (r = Ok tt -> quiet st)).
Proof using capacity_pow2 crc_range opened0.
  intros st Hst. pose proof (s_drain_disk k st Hst) as Hs. destruct (t_drain_disk k st Hst) as [Hsafe Hp]. unfold catch.
  destruct (drain_disk crc32c cfg st) as [[[]|e| |] st']; cbn in *; (split; [done|]); try done. by split; [|intros _; apply Hp].
Qed.

Definition with_waiting (b : bool) (k : Ghost) : Ghost :=
  Gh b (handed k) (encoded k) (known k) (sealed k) (seg_start k) (seg_anchor k) (flushed k) (slots_in k) (given k).
Definition live_seg (k : Ghost) : Segments.History.Seg := {| g_start := seg_start k; g_anchor := seg_anchor k; g_items := flushed k |}.
Definition after_rotate (k : Ghost) (n : nat) : Ghost :=
  Gh false (handed k) (encoded k) (known k ++ [(seg_next (live_seg k), seg_tail crc32c blake3 (live_seg k), n)])
    (sealed k ++ [live_seg k]) (seg_next (live_seg k)) (seg_tail crc32c blake3 (live_seg k)) [] (slots_in k) (given k).

(** Nothing is in the open batch. *)
Definition clear_of (k : Ghost) : Prop := given k = false /\ between (handed k) (encoded k) (slots_in k) = [].

Lemma clear_encoder k enc : clear_of k -> enc_ok k enc ->
  next_sequence enc = seg_next (live_seg k) /\ chain_hash blake3 enc = seg_tail crc32c blake3 (live_seg k).
Proof using Type.
  clear. intros [Hg Hb] [_ E2 _ E4 _]. rewrite Hg, Hb, app_nil_r in *. unfold seg_next, live_seg, chain_hash, seg_tail. cbn.
  split; [lia|]. by rewrite E4.
Qed.

Lemma seg_tail_length x : length (g_anchor x) = 32%nat -> length (seg_tail crc32c blake3 x) = 32%nat.
Proof using blake3_length. intros Ha. unfold seg_tail, Chain.value. cbn. destruct (negb _); [apply blake3_length|done]. Qed.

(** The header of a segment that begins where another ends can be written. *)
Lemma header_after x : seg_ok g x -> header_ok MAX_SECTOR_SIZE (seg_next x) (seg_tail crc32c blake3 x) g.
Proof using blake3_length.
  clear -blake3_length. intros ((H1 & H2 & H3 & H4) & H5 & H6 & _). unfold header_ok.
  split_and!; [done| |by apply seg_tail_length|done]. unfold in_u64, u64_max, seg_next in *. lia.
Qed.

Lemma next_header k st : Rel k st -> header_ok MAX_SECTOR_SIZE (seg_next (live_seg k)) (seg_tail crc32c blake3 (live_seg k)) g.
Proof using blake3_length. intros Hst. apply header_after. apply (gd_live _ _ _ _ _ _ _ (r_good _ _ _ _ _ _ _ _ _ _ _ Hst)). Qed.

(** A boundary behind the batches: the live segment is sealed, an empty one begins. *)
Lemma good_boundary bs n bts segs s a fl :
  good bs n bts segs s a fl ->
  let x := {| g_start := s; g_anchor := a; g_items := fl |} in
  good (bs ++ [(seg_next x, seg_tail crc32c blake3 x, n)]) n bts (segs ++ [x]) (seg_next x) (seg_tail crc32c blake3 x) [].
Proof using blake3_length.
  clear -blake3_length. intros [G1 G2 G3 G4 G5] x. pose proof (header_after x G5) as Hh. split.
  - by apply ordered_snoc.
  - rewrite layout_boundary, G2 by done. cbn. by rewrite map_app.
  - by apply linked_snoc.
  - apply Forall_app. by split; [|apply Forall_singleton].
  - destruct G5 as (_ & H1 & H2 & _). split_and!; cbn; try done; unfold seg_next in *; cbn in *; lia.
Qed.

(** The request is made. *)
Lemma requested_rel k st r s' :
  Rel k st -> waiting k = false -> quiet st -> Control.starting_sequence r = seg_next (live_seg k) ->
  Control.anchor_hash r = seg_tail crc32c blake3 (live_seg k) ->
  seq_step (capacity cfg) (RequestRotation r) (sys st) = Some s' ->
  Rel (with_waiting true k) (set_sys s' (Seq (RequestRotation r)) st).
Proof using blake3_length.
  clear -blake3_length. intros Hst Hw Hq Hs Ha Hstep. pose proof (next_header _ _ Hst) as Hok. destruct Hst.
  pose proof Hstep as Hstep0. cbn [seq_step request_rotation] in Hstep. unfold request_rotation in Hstep.
  destruct (Control.rotate (control (sys st))) eqn:Hrot; try done. injection Hstep as <-.
  split; cbn; try done.
  - by eapply run_snoc.
  - apply Forall_app. split; [done|]. apply Forall_singleton. unfold act_ok, seq_ok, request_ok. by rewrite Hs, Ha.
  - rewrite Hw in *. destruct r_phase0 as [_ Hi Hset Hbs|r' ?|?|er ?|Hd Hwt Hbs]; try done.
    + eapply ph_asked; try done. left. done.
    + apply ph_dead; [done|by intros _ x|done].
Qed.

(** A disk thread that died while the answer was awaited. *)
Lemma phase_gave_up k st : Rel k st -> waiting k = true -> Control.poisoned (control (sys st)) = true -> Rel (with_waiting false k) st.
Proof using capacity_pow2 crc_range opened0.
  intros Hst Hw Hp. destruct (rel_dinv _ _ _ _ _ _ _ _ _ _ _ Hst) as [x Hx].
  pose proof (in_poison _ _ _ _ _ _ _ _ _ _ Hx Hp) as Hpc. pose proof (in_ring _ _ _ _ _ _ _ _ _ _ Hx) as Hr.
  pose proof (ri_order _ _ Hr). pose proof (ri_len _ _ Hr). clear Hx Hr. destruct Hst. split; cbn; try done. rewrite Hw in *.
  assert (Hdead : failed (pc (sys st)) = true) by by rewrite Hpc.
  destruct r_phase0 as [?|r _ Ho Hs Ha Hpr Hbs|_ Ho Hpr Hbs|er _ Ho Hbs|Hd Hwt Hbs]; [done|..].
  - apply ph_dead; [done|done|by left].
  - eapply good_dead; [exact r_good0|done|done|done|lia|done|by intros _|exact Hbs].
  - apply ph_dead; [done|done|by left].
  - by apply ph_dead.
Qed.

(** The answer, taken. *)
Lemma answered_rel k st res s' :
  Rel k st -> waiting k = true -> clear_of k ->
  seq_step (capacity cfg) (TakeRotationResult res) (sys st) = Some s' ->
  let st' := set_sys s' (Seq (TakeRotationResult res)) st in
  match res with
  | None => Rel k st'
  | Some (Err _) => Rel (with_waiting false k) st'
  | Some (Ok _) => forall n enc, n = length (batches (sys st)) -> enc_ok (after_rotate k n) enc ->
      forall sb, Rel (after_rotate k n) (set_core (set_segment_bytes sb (set_encoder enc (core st'))) st')
  end.
Proof using blake3_length.
  clear -blake3_length. intros Hst Hw [Hgv Hcl] Hstep. cbv zeta. pose proof (next_header _ _ Hst) as Hok. pose proof Hst as Hst0.
  pose proof Hstep as Hstep0. cbn [seq_step] in Hstep. unfold Control.take_rotation_result in Hstep.
  destruct (Control.rotate (control (sys st))) as [|r|x] eqn:Hrot.
  1,2: case_decide as Hd; [|done]; subst res; injection Hstep as <-; apply act_same; try done; by right.
  case_decide as Hd; [|done]. subst res. injection Hstep as <-.
  destruct Hst. pose proof r_phase0 as Hph. rewrite Hw in Hph.
  assert (Hacts : Forall (act_ok g) (trace st ++ [Seq (TakeRotationResult (Some x))]))
    by (apply Forall_app; by split; [|apply Forall_singleton]).
  pose proof (run_snoc _ (Seq _) _ _ _ r_run0 Hstep0) as Hrun.
  destruct Hph as [?|r _ Ho Hs Ha Hpr Hbs|_ Ho Hpr Hbs|er _ Ho Hbs|Hd Hwt Hbs]; [done|..].
  - destruct Ho as [[Ho _]|[Ho _]]; congruence.
  - destruct Ho as [[Ho Hset]|[Ho _]]; [|congruence]. assert (x = Ok tt) as -> by congruence.
    intros n enc Hn Henc sb. pose proof (good_boundary _ _ _ _ _ _ _ r_good0) as Hgood. rewrite <- Hn in Hgood.
    unfold enc_ok in Henc. cbn [after_rotate seg_start seg_anchor flushed handed encoded slots_in given] in Henc. rewrite Hcl in Henc.
    split; cbn [after_rotate waiting handed encoded known sealed seg_start seg_anchor flushed slots_in given]; try done; cbn.
    + by subst n.
    + rewrite map_app, concat_app, app_nil_r. cbn. by rewrite app_nil_r.
    + change (items_of (take (encoded k - handed k) (drop (handed k) (slots_in k)))) with (between (handed k) (encoded k) (slots_in k)).
      by rewrite Hcl.
    + rewrite (ei_len _ _ _ _ _ _ Henc). cbn. lia.
    + apply ph_idle; try done. by subst n.
  - destruct Ho as [[Ho Hset]|[Ho _]]; [|congruence]. assert (x = Err er) as -> by congruence.
    split; cbn; try done. by apply ph_idle.
  - by destruct (Hwt eq_refl x).
Qed.

(** The end of the wait: a new segment has begun where the history says, or the old
    one goes on. *)
Definition rotated (k : Ghost) (res : result unit JournalError) (st : St E) : Prop :=
  match res with
  | Ok _ => exists n, forall enc, enc_ok (after_rotate k n) enc -> forall sb,
      Rel (after_rotate k n) (set_core (set_segment_bytes sb (set_encoder enc (core st))) st)
  | Err _ => Rel (with_waiting false k) st
  end.

(** A computation whose value leaves the state in the middle of an operation. *)
Definition wtriple {X} (P : St E -> Prop) (m : M E X) (Po : X -> St E -> Prop) : Prop :=
  forall st, P st -> match (m st).1 with Got x => Po x (m st).2 | _ => safe (m st).2 end.

Lemma w_of {X} P (m : M E X) Po : triple P m Po -> wtriple P m Po.
Proof using Type. intros Hm st HP. destruct (Hm st HP) as [Hs Hp]. by destruct (m st).1. Qed.

Lemma w_bind {X Y} (m : M E X) (f : X -> M E Y) P Po T :
  wtriple P m Po -> (forall x, wtriple (Po x) (f x) T) -> wtriple P (m ≫= f) T.
Proof using Type.
  intros Hm Hf st HP. specialize (Hm st HP). unfold mbind, M_bind, bind.
  destruct (m st) as [v st']. destruct v as [x|e| |]; cbn in *; try done. by apply Hf.
Qed.

Lemma w_then {X Y} (m : M E X) (f : X -> M E Y) P Po T :
  wtriple P m Po -> (forall x, triple (Po x) (f x) T) -> triple P (m ≫= f) T.
Proof using Type.
  intros Hm Hf st HP. specialize (Hm st HP). unfold mbind, M_bind, bind.
  destruct (m st) as [v st']. destruct v as [x|e| |]; cbn in *; try by split. by apply Hf.
Qed.

Lemma t_await_loop k n : waiting k = true -> clear_of k ->
  wtriple (Rel k) (await_loop crc32c cfg n) (rotated k).
Proof using capacity_pow2 crc_range opened0 blake3_length.
  intros Hw Hcl. induction n as [|n IH]; cbn [await_loop]; [by intros st Hst; exists k|].
  eapply (w_bind _ _ _ (fun r st => match r with Some res => rotated k res st | None => Rel k st end)).
  - unfold take_rotation_result. eapply w_bind; [apply w_of, t_get|]. intros r st [Hst ->].
    unfold mbind, M_bind, bind, act. destruct (seq_step _ _ _) as [s'|] eqn:Hs; cbn; [|by exists k].
    pose proof (answered_rel k st _ s' Hst Hw Hcl Hs) as Hans.
    destruct (Control.take_rotation_result (control (sys st))).1 as [[[]|e]|]; cbn in Hans |- *; [|done..].
    exists (length (batches (sys st))). intros enc Henc sb. by apply Hans.
  - intros [res|]; [by intros st Hst|]. eapply w_bind; [apply w_of, t_poisoned|]. intros [|].
    + eapply (w_bind _ _ _ (fun _ => Rel (with_waiting false k))); [|by intros e st Hst].
      intros st [Hst Hp]. apply (w_of _ _ _ (k_take_poison (with_waiting false k))). by apply phase_gave_up; auto.
    + intros st [Hst _]. by apply IH.
Qed.

(** *** The loop *)

(** Between operations, [h] slots of [inp] handed over and [e] encoded. *)
Definition At (h e : nat) (inp : list (InputSlot E)) (st : St E) : Prop :=
  exists k, Rel k st /\ waiting k = false /\ given k = false /\ handed k = h /\ encoded k = e /\ slots_in k = inp.

Lemma at_safe h e inp st : At h e inp st -> safe st.
Proof using Type. intros (k & Hk & _). by exists k. Qed.

Lemma t_at {X} (m : M E X) h e inp Po :
  (forall k, waiting k = false -> given k = false -> handed k = h -> encoded k = e -> slots_in k = inp -> triple (Rel k) m Po) ->
  triple (At h e inp) m Po.
Proof using Type. intros Hm st (k & Hk & Hw & Hg & Hh & He & Hi). by apply (Hm k). Qed.

Lemma at_keeps {X} (m : M E X) h e inp : keeps m -> triple (At h e inp) m (fun _ => At h e inp).
Proof using Type.
  intros Hm. apply t_at. intros k Hw Hg Hh He Hi. eapply t_mono; [apply Hm|done|]. intros x st Hst. by exists k.
Qed.

Lemma at_ret {X} (x : X) h e inp : triple (At h e inp) (mret x) (fun y st => At h e inp st /\ y = x).
Proof using Type. apply t_ret. intros st Hst. split; [by eapply at_safe|done]. Qed.

Lemma at_end {X} (m : M E X) h e inp Po : (m = waits \/ m = panic \/ exists x, m = fail x) -> triple (At h e inp) m Po.
Proof using Type. apply t_end. apply at_safe. Qed.

Lemma at_bind {X Y} (m : M E X) (f : X -> M E Y) h e inp T :
  keeps m -> (forall x, triple (At h e inp) (f x) T) -> triple (At h e inp) (m ≫= f) T.
Proof using Type. intros Hm Hf. eapply t_bind; [by apply at_keeps|done]. Qed.

Lemma t_then {X Y} (m : M E X) (k : M E Y) h e inp h' e' T :
  triple (At h e inp) m (fun _ => At h' e' inp) -> triple (At h' e' inp) k T -> triple (At h e inp) (m;; k) T.
Proof using Type. intros Hm Hk. by eapply t_bind; [apply Hm|intros ?]. Qed.

Lemma at_submit h e n inp : (e <= n <= length inp)%nat -> between e n inp = [] ->
  triple (At h e inp) (submit_batch crc32c blake3 cfg (r0 + Z.of_nat n)) (fun _ => At n n inp).
Proof using capacity_pow2 crc_range opened0.
  intros Hn Hb. apply t_at. intros k Hw Hg Hh He Hi. subst. eapply t_mono; [by apply t_submit|done|].
  intros ? st Hst. by exists (after_submit k n).
Qed.

Lemma between_nil c inp : between c c inp = [].
Proof using Type. unfold between. by rewrite Nat.sub_diag. Qed.

Lemma at_rotate e inp :
  triple (At e e inp) (rotate_taking_prepared crc32c blake3 cfg) (fun _ => At e e inp).
Proof using capacity_pow2 crc_range opened0 blake3_length.
  apply t_at. intros k Hw Hg Hh He Hi. unfold rotate_taking_prepared.
  assert (Hcl : clear_of k) by (split; [done|]; rewrite Hh, He; apply between_nil).
  assert (Hback : forall st, Rel (with_waiting false k) st -> At e e inp st) by (intros st Hst; by exists (with_waiting false k)).
  eapply t_bind; [apply t_catch_drain|]. intros [[]|er].
  2: { apply t_ret. intros st [Hst _]. split; [by exists k|by exists k]. }
  eapply (t_mono _ (fun st => Rel k st /\ quiet st)); [|intros st [Hst Hq]; split; [done|by apply Hq]|intros x st Hx; exact Hx].
  eapply t_bind; [by apply t_pop_quiet|]. intros p.
  eapply (t_bind _ _ _ (fun enc st => (Rel k st /\ quiet st) /\ enc_ok k enc)).
  { intros st [Hst Hq]. split; [by exists k|]. split; [done|]. apply (r_enc _ _ _ _ _ _ _ _ _ _ _ Hst). }
  intros enc. apply t_pure. intros Henc. destruct (clear_encoder k enc Hcl Henc) as [Hn Hc].
  eapply (t_bind _ _ _ (fun _ => Rel (with_waiting true k))).
  { intros st [Hst Hq]. unfold act. destruct (seq_step _ _ _) as [s'|] eqn:Hs; cbn; [|by split; [exists k|]].
    pose proof (fun r Hr Ha => requested_rel k st r s' Hst Hw Hq Hr Ha) as Hreq. eapply Hreq in Hs; [|done..].
    by split; [eexists|]. }
  intros ?. eapply w_then; [intros st; apply (t_await_loop (with_waiting true k)); done|].
  intros [[]|er].
  - intros st [n Hst]. cbn.
    assert (Hst' : Rel (after_rotate (with_waiting true k) n)
       (set_core (set_segment_bytes (Z.of_nat ENTRY_OFFSET) (set_encoder (begin_segment enc (next_sequence enc) (chain_hash blake3 enc)) (core st))) st)).
    { apply Hst. unfold enc_ok. cbn. fold (between (handed k) (encoded k) (slots_in k)). destruct Hcl as [_ Hb]. rewrite Hg, Hb.
      unfold enc_ok in Henc. rewrite Hg, Hb in Henc. destruct Henc as [_ E2 E3 _ _]. rewrite app_nil_r in E2, E3.
      rewrite Hn, Hc. split; cbn; try done; unfold seg_next, live_seg in *; cbn in *; lia. }
    split; [by eexists|]. by eexists.
  - intros st Hst. split; [by eexists|]. by apply Hback.
Qed.

Lemma t_fuelled {X} (f : nat -> M E X) P Po : (forall n, triple P (f n) Po) -> triple P (fuelled f) Po.
Proof using Type. intros Hf st HP. by apply Hf. Qed.

Lemma at_apply_marks q h e inp : (q = true -> h = e) ->
  triple (At h e inp) (apply_stream_marks crc32c blake3 cfg q) (fun _ => At h e inp).
Proof using capacity_pow2 crc_range opened0 blake3_length.
  intros Hq. unfold apply_stream_marks.
  eapply (t_bind _ _ _ (fun r st => At h e inp st /\ (r <> None -> q = true))).
  { apply t_at. intros k Hw Hg Hh He Hi. eapply t_mono; [apply t_fuelled; intros n; apply t_resolve|done|].
    intros r st [Hst Hr]. split; [by exists k|done]. }
  intros [r|]; [|apply t_ret; intros st [Hst _]; by split; [eapply at_safe|]].
  apply t_pure. intros Hr. specialize (Hq (Hr ltac:(done))) as ->.
  apply at_bind; [apply k_backed_off|]. intros [|]; [apply at_keeps, k_ret|].
  eapply t_bind; [apply at_rotate|]. intros [[]|er]; apply at_bind; try (intros ?; apply at_keeps, k_ret).
  - unfold finish_adoption. apply k_bind; [by apply put_core_keeps|]. intros ?. apply k_refresh.
  - apply k_fail_adoption.
Qed.

Lemma at_maybe_rotate e inp : triple (At e e inp) (maybe_rotate crc32c blake3 cfg) (fun _ => At e e inp).
Proof using capacity_pow2 crc_range opened0 blake3_length.
  unfold maybe_rotate. apply at_bind; [apply k_armed|]. intros [|]; [|apply at_keeps, k_ret].
  eapply t_bind; [apply at_rotate|]. intros res. apply at_keeps, k_finish_local.
Qed.

Lemma at_encode_slot h e inp slot : inp !! e = Some slot ->
  triple (At h e inp) (if takes_wire_seq app_is_query (event slot) then encode_slot crc32c cfg slot else mret tt)
    (fun _ => At h (S e) inp).
Proof using capacity_pow2 crc_range opened0.
  intros Hs. apply t_at. intros k Hw Hg Hh He Hi. subst.
  assert (Hback : forall st, Rel (after_slot k) st -> At (handed k) (S (encoded k)) (slots_in k) st)
    by (intros st Hst; by exists (after_slot k)).
  destruct (takes_wire_seq _ _) eqn:Ht.
  - eapply t_mono; [by apply t_encode_slot|done|]. intros ? st Hst. by apply Hback.
  - apply t_ret. intros st Hst. split; [by exists k|]. apply Hback. by apply (skipped_rel k st slot).
Qed.

Lemma at_fact {X} (m : M E X) h e inp (F : Prop) Po :
  (forall st, At h e inp st -> F) -> (F -> triple (At h e inp) m Po) -> triple (At h e inp) m Po.
Proof using Type. intros HF Hm st Hst. by apply Hm; [eapply HF|]. Qed.

(** The sentinel is the last slot. *)
Lemma at_sentinel h e inp x rest st :
  At h e inp st -> drop e inp = x :: rest -> is_shutdown (event x) = true -> between e (length inp) inp = [].
Proof using Type.
  intros (k & Hk & _ & _ & _ & _ & Hi) Hd Hx. destruct Hk. rewrite Hi in *.
  assert (Hinp : inp ++ coming (script st) = take e inp ++ x :: rest ++ coming (script st))
    by (rewrite <- (take_drop e inp) at 1; rewrite Hd, <- app_assoc; done).
  pose proof (so_sentinel _ r_coming0 _ _ _ Hinp Hx) as Hrest. apply app_nil in Hrest as [-> _].
  unfold between. rewrite Hd. rewrite take_ge by (rewrite <- length_drop, Hd; done). cbn [Mirror.items_of].
  unfold takes_wire_seq. by rewrite Hx, andb_false_r.
Qed.

Lemma at_encode_span h inp slots : forall e rest, drop e inp = slots ++ rest ->
  triple (At h e inp) (encode_span crc32c cfg slots)
    (fun r st => At h (e + fst r) inp st /\ (fst r <= length slots)%nat /\ (snd r = false -> fst r = length slots) /\
                 (snd r = true -> between (e + fst r) (length inp) inp = [])).
Proof using capacity_pow2 crc_range opened0.
  induction slots as [|slot slots IH]; intros e rest Hd; cbn [encode_span].
  { apply t_ret. intros st Hst. split; [by eapply at_safe|]. cbn. rewrite Nat.add_0_r. by split_and!. }
  destruct (is_shutdown (event slot)) eqn:Hsh.
  { apply t_ret. intros st Hst. split; [by eapply at_safe|]. cbn [fst snd]. rewrite Nat.add_0_r. split_and!; try done; [lia|].
    intros _. by eapply at_sentinel. }
  assert (Hs : inp !! e = Some slot) by (rewrite <- (Nat.add_0_r e), <- lookup_drop, Hd; done).
  eapply t_bind; [by apply at_encode_slot|]. intros ?.
  eapply t_bind.
  - apply (IH (S e) rest). by rewrite <- (drop_drop inp e 1) || (replace (S e) with (e + 1)%nat by lia; rewrite <- drop_drop, Hd).
  - intros [n b]. apply t_ret. cbn [fst snd]. replace (e + S n)%nat with (S e + n)%nat by lia.
    intros st (Hst & Hn & H1 & H2). split; [by eapply at_safe|]. split_and!; try done; cbn; [lia|]. intros Hb. by rewrite H1.
Qed.

Definition with_slots (more : list (InputSlot E)) (k : Ghost) : Ghost :=
  Gh (waiting k) (handed k) (encoded k) (known k) (sealed k) (seg_start k) (seg_anchor k) (flushed k) (slots_in k ++ more) (given k).

Lemma read_rel k st more rest c :
  Rel k st -> script st = Slots more :: rest -> encoder c = encoder (core st) ->
  next_read c = next_read (core st) + Z.of_nat (length more) ->
  Rel (with_slots more k)
    {| core := c; sys := sys st; trace := trace st; input := input st ++ more; sent := sent st; evicted := evicted st; script := rest |}.
Proof using Type.
  clear. intros Hst Hsc He Hn. destruct Hst. destruct r_pos0 as [Hpos Hnr].
  assert (Htake : take (handed k) (slots_in k ++ more) = take (handed k) (slots_in k)) by (rewrite take_app_le by lia; done).
  assert (Hbt : take (encoded k - handed k) (drop (handed k) (slots_in k ++ more)) = take (encoded k - handed k) (drop (handed k) (slots_in k))).
  { rewrite drop_app_le by lia. rewrite take_app_le by (rewrite length_drop; lia). done. }
  rewrite Hsc in *. split; cbn [with_slots waiting handed encoded known sealed seg_start seg_anchor flushed slots_in given]; cbn;
    rewrite ?Htake, ?Hbt, ?He, ?Hn; try done.
  - by rewrite r_input0.
  - rewrite length_app. lia.
  - by apply Forall_cons in r_script0 as [_ ?].
  - rewrite coming_cons in r_coming0. by rewrite <- app_assoc.
Qed.

Lemma at_read n h e inp :
  triple (At h e inp) (read_contiguous crc32c cfg n) (fun slots => At h e (inp ++ slots)).
Proof using capacity_pow2 crc_range opened0.
  intros st (k & Hst & Hw & Hg & Hh & He & Hi). unfold read_contiguous, pop_slots, pop, bind.
  assert (Hset : Rel k (settle crc32c cfg (script st) st)) by (apply settle_rel; by destruct st).
  set (st' := settle crc32c cfg (script st) st) in *. destruct (script st') as [|r rest] eqn:Hsc; [split; [by exists k|done]|].
  destruct r as [x|v|b|more|m|t|p]; try (by split; [exists k|]).
  destruct (_ <=? _)%nat; cbn; [|by split; [exists k|]].
  set (c := {| encoder := _ |}). pose proof (read_rel k st' more rest c Hset Hsc eq_refl eq_refl) as Hr.
  split; [by eexists|]. exists (with_slots more k). split; [done|]. split_and!; try done. cbn. by rewrite Hi.
Qed.

(** *** The loop, whole *)

Lemma t_next_read h e inp :
  triple (At h e inp) (get core) (fun c st => At h e inp st /\ next_read c = r0 + Z.of_nat (length inp)).
Proof using Type.
  intros st Hst. split; [by eapply at_safe|]. split; [done|]. destruct Hst as (k & Hk & _ & _ & _ & _ & <-).
  apply (r_pos _ _ _ _ _ _ _ _ _ _ _ Hk).
Qed.

Lemma at_bounds h e inp st : At h e inp st -> (h <= e <= length inp)%nat.
Proof using Type. intros (k & Hk & _ & _ & <- & <- & <-). apply (r_pos _ _ _ _ _ _ _ _ _ _ _ Hk). Qed.

Lemma slots_upto_le q (slots : list (InputSlot E)) : (slots_upto q slots <= length slots)%nat.
Proof using Type. clear. induction slots as [|x slots IH]; cbn; [done|]. destruct (_ <? _); cbn; lia. Qed.

Lemma mark_split_le m (slots : list (InputSlot E)) : (mark_split m slots <= length slots)%nat.
Proof using Type. clear. destruct m; cbn; [apply slots_upto_le|done]. Qed.

(** Where the spans of one read leave the input. *)
Definition read_through (inp : list (InputSlot E)) (r : nat * bool) (st : St E) : Prop :=
  exists h e, At h e inp st /\ fst r = (e - h)%nat /\ (snd r = false -> e = length inp) /\ between e (length inp) inp = [].

Lemma at_encode_spans n inp : forall h e slots pos pending,
  drop e inp = slots -> pos = r0 + Z.of_nat e -> pending = (e - h)%nat ->
  triple (At h e inp) (encode_spans crc32c blake3 cfg n slots pos pending) (read_through inp).
Proof using capacity_pow2 crc_range opened0 blake3_length.
  induction n as [|n IH]; intros h e slots pos pending Hd Hp Hpe; cbn [encode_spans]; [apply at_end; by left|].
  apply at_bind; [apply k_get|]. intros mark. set (stop := mark_split mark slots). pose proof (mark_split_le mark slots) as Hle. fold stop in Hle.
  assert (Hlen : length (take stop slots) = stop) by (rewrite length_take; lia).
  apply (at_fact _ _ _ _ (h <= e <= length inp)%nat); [apply at_bounds|]. intros Hhe.
  assert (Hls : length slots = (length inp - e)%nat) by (rewrite <- Hd, length_drop; done).
  eapply t_bind; [apply (at_encode_span h inp (take stop slots) e (drop stop slots)); by rewrite take_drop|].
  intros [m b]. cbn [fst snd]. rewrite Hlen. apply t_pure. intros (Hm & Hb1 & Hb2).
  destruct b; rewrite ?orb_true_r, ?orb_false_r.
  { apply t_ret. intros st Hst. split; [by eapply at_safe|]. exists h, (e + m)%nat. cbn. split_and!; try done; [lia|]. by apply Hb2. }
  rewrite (Hb1 eq_refl) in *. destruct (Nat.eqb_spec stop (length slots)) as [Heq|Hne].
  { apply t_ret. intros st Hst. split; [by eapply at_safe|]. exists h, (e + stop)%nat. cbn. split_and!; try done; [lia|lia|].
    replace (e + stop)%nat with (length inp) by lia. apply between_nil. }
  eapply t_then; [by apply at_apply_marks|]. apply at_bind; [apply k_get|]. intros mark'.
  destruct (is_rotate mark').
  - eapply (t_bind _ _ _ (fun x st => At (e + stop) (e + stop) inp st /\ x = 0%nat)).
    + eapply (t_then _ _ _ _ _ (e + stop)%nat (e + stop)%nat).
      { destruct (Nat.ltb_spec 0 (pending + stop)) as [Hlt|Hge].
        - subst pos. replace (r0 + Z.of_nat e + Z.of_nat stop) with (r0 + Z.of_nat (e + stop)) by lia. apply at_submit; [lia|apply between_nil].
        - assert (Hz : (e + stop)%nat = h) by lia. rewrite Hz. apply at_keeps, k_ret. }
      eapply t_then; [by apply at_apply_marks|]. apply at_ret.
    + intros x. apply t_pure. intros ->. apply IH; [by rewrite <- drop_drop, Hd|lia|lia].
  - eapply t_bind; [apply at_ret|]. intros x. apply t_pure. intros ->. apply IH; [by rewrite <- drop_drop, Hd|lia|lia].
Qed.

(** Everything read and journaled is handed over. *)
Definition all_handed (st : St E) : Prop := exists e inp, At e e inp st /\ between e (length inp) inp = [].

Lemma level_handed inp st : At (length inp) (length inp) inp st -> all_handed st.
Proof using Type. intros Hst. exists (length inp), inp. split; [done|apply between_nil]. Qed.

Lemma handed_safe st : all_handed st -> safe st.
Proof using Type. intros (e & inp & Hst & _). by eapply at_safe. Qed.

Lemma at_encode_all h inp slots : forall e rest, drop e inp = slots ++ rest ->
  triple (At h e inp)
    (foldr (fun slot k => (if takes_wire_seq app_is_query (event slot) then encode_slot crc32c cfg slot else mret tt);; k) (mret tt) slots)
    (fun _ => At h (e + length slots) inp).
Proof using capacity_pow2 crc_range opened0.
  induction slots as [|slot slots IH]; intros e rest Hd; cbn [foldr length].
  { rewrite Nat.add_0_r. apply at_keeps, k_ret. }
  assert (Hs : inp !! e = Some slot) by (rewrite <- (Nat.add_0_r e), <- lookup_drop, Hd; done).
  eapply t_then; [by apply at_encode_slot|]. replace (e + S (length slots))%nat with (S e + length slots)%nat by lia.
  apply (IH (S e) rest). replace (S e) with (e + 1)%nat by lia. by rewrite <- drop_drop, Hd.
Qed.

Lemma at_drain_remaining n : forall inp,
  triple (At (length inp) (length inp) inp) (drain_remaining_loop crc32c blake3 cfg n) (fun _ => all_handed).
Proof using capacity_pow2 crc_range opened0 blake3_length.
  induction n as [|n IH]; intros inp; cbn [drain_remaining_loop]; [apply at_end; by left|].
  eapply t_bind; [apply at_read|]. intros slots. destruct slots as [|slot slots].
  { apply t_ret. intros st Hst. rewrite app_nil_r in Hst. split; [by eapply at_safe|by apply (level_handed inp)]. }
  set (sl := slot :: slots). eapply t_then.
  { apply (at_encode_all (length inp) (inp ++ sl) sl (length inp) []). by rewrite drop_app_length, app_nil_r. }
  rewrite <- length_app. eapply t_bind; [apply t_next_read|]. intros c. apply t_pure. intros ->.
  eapply t_then; [apply at_submit; [lia|apply between_nil]|]. apply IH.
Qed.

Lemma read_through_level inp b st : At (length inp) (length inp) inp st -> read_through inp (0%nat, b) st.
Proof using Type. intros Hst. exists (length inp), (length inp). cbn. split_and!; try done; [lia|apply between_nil]. Qed.

Lemma read_safe inp r st : read_through inp r st -> safe st.
Proof using Type. intros (h & e & Hst & _). by eapply at_safe. Qed.

Lemma t_through {X} (m : M E X) inp r Po :
  (forall h e, fst r = (e - h)%nat -> (snd r = false -> e = length inp) -> (h <= e <= length inp)%nat -> between e (length inp) inp = [] ->
    triple (At h e inp) m Po) -> triple (read_through inp r) m Po.
Proof using Type. intros Hm st (h & e & Hst & H1 & H2 & H3). pose proof (at_bounds _ _ _ _ Hst). by apply (Hm h e). Qed.

(** Marks looked for while nothing is open. *)
Lemma at_idle_marks e inp (b : bool) :
  triple (At e e inp) (if b then apply_stream_marks crc32c blake3 cfg true;; mret tt else mret tt) (fun _ => At e e inp).
Proof using capacity_pow2 crc_range opened0 blake3_length.
  destruct b; [|apply at_keeps, k_ret]. eapply t_then; [by apply at_apply_marks|]. apply at_keeps, k_ret.
Qed.

Definition carried (inp : list (InputSlot E)) (r : option nat) (st : St E) : Prop :=
  match r with None => all_handed st | Some pending => exists h, At h (length inp) inp st /\ pending = (length inp - h)%nat end.

Lemma at_turn inp h pending : pending = (length inp - h)%nat ->
  triple (At h (length inp) inp) (turn crc32c blake3 cfg pending) (fun r st => exists more, carried (inp ++ more) r st).
Proof using capacity_pow2 crc_range opened0 blake3_length.
  intros Hpe. unfold turn, group_commit. apply (at_fact _ _ _ _ (h <= length inp)%nat); [intros st Hst%at_bounds; lia|]. intros Hh.
  apply at_bind; [apply k_poisoned|]. intros [|].
  { apply at_bind; [apply k_take_poison|]. intros x. apply at_end. right. right. by exists x. }
  apply at_bind; [by apply pop_keeps|]. intros [|].
  { eapply t_bind; [apply t_next_read|]. intros c. apply t_pure. intros ->. eapply (t_then _ _ _ _ _ (length inp) (length inp)).
    { destruct (Nat.ltb_spec 0 pending); [apply at_submit; [lia|apply between_nil]|]. replace h with (length inp) by lia. apply at_keeps, k_ret. }
    eapply t_bind; [apply t_fuelled; intros n; apply at_drain_remaining|]. intros ?. apply t_ret. intros st Hst.
    split; [by apply handed_safe|]. by exists []. }
  eapply t_bind; [apply t_next_read|]. intros c. apply t_pure. intros ->.
  eapply (t_bind _ _ _ (fun slots => At h (length inp) (inp ++ slots))).
  { destruct (_ <? _)%nat; [apply at_read|]. apply t_ret. intros st Hst. rewrite app_nil_r. split; [by eapply at_safe|done]. }
  intros slots. set (inp' := inp ++ slots).
  assert (Hend : r0 + Z.of_nat (length inp) + Z.of_nat (length slots) = r0 + Z.of_nat (length inp')) by (unfold inp'; rewrite length_app; lia).
  rewrite Hend. eapply (t_bind _ _ _ (read_through inp')).
  { destruct (Nat.ltb_spec 0 (length slots)) as [_|Hz].
    - apply at_bind; [apply k_refresh|]. intros ?. apply t_fuelled. intros n. apply at_encode_spans; [by apply drop_app_length|done|done].
    - apply t_ret. intros st Hst. split; [by eapply at_safe|]. exists h, (length inp). unfold inp' in *. destruct slots; [|cbn in Hz; lia].
      rewrite app_nil_r in *. cbn. split_and!; try done. apply between_nil. }
  intros [p saw]. eapply (t_bind _ _ _ (fun p => read_through inp' (p, saw))).
  - apply t_through. cbn [fst snd]. intros h1 e1 Hp Hsaw Hhe Hbt. destruct (Nat.ltb_spec 0 p) as [Hlt|Hz].
    + apply at_bind; [destruct (_ || _); [apply k_ret|by apply pop_keeps]|]. intros [|].
      * eapply t_then; [apply at_submit; [lia|done]|]. apply at_bind; [apply k_chain_check|]. intros ?.
        eapply t_then; [apply at_maybe_rotate|]. eapply t_then; [by apply at_apply_marks|]. apply t_ret. intros st Hst.
        split; [by eapply at_safe|by apply read_through_level].
      * apply t_ret. intros st Hst. split; [by eapply at_safe|]. by exists h1, e1.
    + replace h1 with e1 by lia. apply at_bind; [apply k_get|]. intros c1.
      apply at_bind; [destruct (rotation_backoff_until c1); [apply k_ret|apply k_outstanding]|]. intros out.
      eapply t_then; [apply at_idle_marks|]. apply at_bind; [by apply pop_keeps|]. intros tick.
      eapply (t_then _ _ _ _ _ e1 e1).
      { destruct tick; [|apply at_keeps, k_ret]. apply at_bind; [apply k_outstanding|]. intros out'. apply at_idle_marks. }
      apply t_ret. intros st Hst. split; [by eapply at_safe|]. exists e1, e1. cbn. by split_and!; [|lia|..].
  - intros p'. apply t_through. cbn [fst snd]. intros h1 e1 Hp Hsaw Hhe Hbt. destruct saw.
    + eapply (t_bind _ _ _ (fun _ => all_handed)).
      * destruct (Nat.ltb_spec 0 p').
        -- eapply t_mono; [apply at_submit; [|done]; lia|done|]. intros ? st Hst. apply (level_handed inp'). exact Hst.
        -- apply t_ret. intros st Hst. split; [by eapply at_safe|]. exists e1, inp'. split; [|done]. by replace h1 with e1 in Hst by lia.
      * intros ?. apply t_ret. intros st Hst. split; [by apply handed_safe|]. by exists slots.
    + apply t_ret. intros st Hst. split; [by eapply at_safe|]. exists slots. fold inp'. exists h1. by rewrite <- (Hsaw eq_refl).
Qed.

Lemma at_sequence_loop n : forall inp h pending, pending = (length inp - h)%nat ->
  triple (At h (length inp) inp) (sequence_loop crc32c blake3 cfg n pending) (fun _ => all_handed).
Proof using capacity_pow2 crc_range opened0 blake3_length.
  induction n as [|n IH]; intros inp h pending Hp; cbn [sequence_loop]; [apply at_end; by left|].
  eapply t_bind; [by apply at_turn|]. intros [p|].
  - intros st (more & h' & Hst & Hp'). by apply (IH (inp ++ more) h' p Hp').
  - apply t_ret. intros st (more & Hst). split; [by apply handed_safe|done].
Qed.

(** *** The end *)

Lemma t_catch {X} (m : M E X) P Po : triple P m Po ->
  triple P (catch m) (fun r st => match r with Ok x => Po x st | Err _ => safe st end).
Proof using Type.
  intros Hm st Hst. destruct (Hm st Hst) as [Hs Hq]. unfold catch. destruct (m st) as [[x|e| |] st']; cbn in *; by split.
Qed.

(** The segment the disk thread hands back when it leaves; what was drained stays so. *)
Lemma t_join k (q : Prop) : triple (fun st => Rel k st /\ (q -> quiet st)) (join crc32c cfg)
  (fun f st => (Rel k st /\ (q -> quiet st)) /\ pc (sys st) = Exited /\ f = segment (sys st)).
Proof using capacity_pow2 crc_range opened0.
  unfold join. eapply (t_bind _ _ _ (fun _ st => Rel k st /\ (q -> quiet st))).
  - intros st [Hst Hq]. unfold act. destruct (seq_step _ _ _) as [s'|] eqn:Hs; cbn; [|by split; [exists k|]].
    pose proof Hs as Hs0. cbn [seq_step] in Hs. destruct (stop _); [done|]. injection Hs as <-.
    split; [exists k|split; [|done]]; apply act_same; try done; by right.
  - intros ? st [Hst Hq]. unfold joined, Loop.settled.
    assert (Hset : Rel k (settle crc32c cfg (script st) st)) by (apply settle_rel; by destruct st).
    assert (Hq' : q -> quiet (settle crc32c cfg (script st) st)) by (intros Hx; apply (settle_quiet k); [by destruct st|auto]).
    destruct (pc (sys (settle _ _ _ _))) eqn:Hpc; cbn; (split; [by exists k|]); done.
Qed.

Lemma t_join_fails {X} (e : JournalError) (Po : X -> St E -> Prop) : triple safe (join crc32c cfg;; fail e) Po.
Proof using capacity_pow2 crc_range opened0.
  intros st [k Hst]. refine (t_bind _ _ _ _ _ (t_join k False) _ st (conj Hst (False_ind _))). intros f.
  apply t_end; [by intros st' [[? _] _]; exists k|right; right; by exists e].
Qed.

(** A clean stop: everything journaled is handed over and drained, the disk thread
    left on the stop flag, and the writer comes back whole. *)
Definition stopped (w : Journal.Writer.BufferedWriter) (st : St E) : Prop :=
  exists k, Rel k st /\ waiting k = false /\ clear_of k /\ quiet st /\
    items_of (slots_in k) = items_of (take (handed k) (slots_in k)) /\
    pc (sys st) = Exited /\ Control.poisoned (control (sys st)) = false /\
    enc_ok k (Journal.Writer.encoder w) /\ Journal.Writer.segment w = segment (sys st) /\
    Journal.Writer.batch_buf w = Journal.Writer.empty_batch.

Lemma t_poison_fails {X} k (Po : X -> St E -> Prop) : triple (Rel k) (e ← take_poison cfg; fail e) Po.
Proof using Type.
  eapply t_bind; [apply k_take_poison|]. intros e. apply t_end; [by exists k|right; right; by exists e].
Qed.

Lemma t_finish : triple all_handed (finish crc32c cfg) stopped.
Proof using capacity_pow2 crc_range opened0.
  intros st0 (e & inp & (k & Hst0 & Hw & Hg & Hh & He & Hi) & Hb). revert st0 Hst0.
  change (triple (Rel k) (finish crc32c cfg) stopped). unfold finish.
  assert (Hcl : clear_of k) by (split; [done|]; rewrite Hh, He; apply between_nil).
  eapply t_bind; [apply t_catch_drain|]. intros [[]|er].
  2: { eapply t_mono; [apply t_join_fails| |done]. intros st [Hst _]. by exists k. }
  eapply (t_bind _ _ _ (fun f st => (Rel k st /\ (True -> quiet st)) /\ pc (sys st) = Exited /\ f = segment (sys st))).
  { eapply t_mono; [apply (t_join k True)| |done]. intros st [Hst Hq]. split; [done|]. intros _. by apply Hq. }
  intros f st [[Hst Hq] [Hpc Hf]]. unfold mbind, M_bind, bind, get, act. cbn [seq_step].
  destruct (Control.poisoned (control (sys st))) eqn:Hp; cbn.
  - assert (Hst' : Rel k (set_sys (sys st) (Seq (AskPoisoned true)) st)).
    { apply act_same; try done; [|by right]. cbn. by rewrite Hp. }
    exact (t_poison_fails k _ _ Hst').
  - assert (Hst' : Rel k (set_sys (sys st) (Seq (AskPoisoned false)) st)) by (apply act_same; try done; by right).
    split; [by exists k|]. exists k. split_and!; try done.
    + by apply Hq.
    + rewrite Hi, Hh. rewrite <- (take_drop e inp) at 1. rewrite items_of_app.
      unfold between in Hb. rewrite take_ge in Hb by (rewrite length_drop; done). by rewrite Hb, app_nil_r.
    + apply (r_enc _ _ _ _ _ _ _ _ _ _ _ Hst).
Qed.

(** Every run, however it ends: the state is as above, and a run that returns the
    writer has stopped cleanly. *)
Lemma t_run : triple (At 0 0 []) (Loop.run crc32c blake3 cfg) stopped.
Proof using capacity_pow2 crc_range opened0 blake3_length.
  unfold Loop.run. eapply t_bind; [apply t_catch, t_fuelled; intros n; by apply (at_sequence_loop n [] 0)|].
  intros [[]|e]; [apply t_finish|apply t_join_fails].
Qed.
End told.
End Told.
