(* ===== verification/Restart.v ===== *)
(** * A crash, and what a restart makes of it

    The two journal threads ([Sequencer.Loop] beside [Disk.Thread]) started on a
    writer as recovery leaves it, run under any schedule, stopped cleanly or cut off
    anywhere, and recovered ([Recovery.Recover]). [Cut]: the segments on disk at any
    instant hold a prefix of the input, at an entry's end. [Restart]: the theorems;
    [Sample]: a run with a rotation, cut off and restarted. *)

From S2P Require Import Prelude Cursors Lineage Stages Codec Journal Wire Protocol Acks Receiver Reader Segments Scanner CatchUp Disk Recovery Sequencer Handover.
Import Lineage.Event Codec.Codec Stages.Dispatch Stages.Journaling.

Module Cut.
Import Wire.Wire Wire.Mirror Codec.Facts Journal.Encoder Journal.Segment Journal.Stream Segments.History
  Disk.WriteRing Disk.Control Disk.Thread Disk.Kept Sequencer.Shell Sequencer.Loop Handover.Told.

Section cut.
Context {A E R Q : Type} `{Application A E R Q} `{AppEvent E} `{!AppEventLaws E}.
Context (crc32c : list Z -> Z) (blake3 : list Z -> list Z) (cfg : Config).
Hypothesis capacity_pow2 : exists k, 1 <= k /\ capacity cfg = 2 ^ k.
Hypothesis crc_range : forall bs, in_u32 (crc32c bs).
Hypothesis blake3_length : forall bs, length (blake3 bs) = 32%nat.
Hypothesis fits_one_entry : (entry_size (E:=E) <= MAX_ENTRY_SIZE)%nat.
Variables (start0 : Z) (anchor0 : list Z) (items0 : list (item (E:=E))) (g : option Z) (sealed0 : list (list Z)).
Variables (c0 : DurabilityCursors) (f0 : SegmentFile) (r0 : Z).

Local Abbreviation items_of := (Mirror.items_of app_is_query).
Local Abbreviation stream := (Journal.Stream.stream crc32c).
Local Abbreviation data0 := (stream start0 items0).
Local Abbreviation Rel := (Told.Rel crc32c blake3 cfg start0 anchor0 items0 g sealed0 c0 f0 r0).
Local Abbreviation good := (Told.good crc32c blake3 start0 anchor0 items0 g).
Local Abbreviation dinv := (Kept.inv crc32c (capacity cfg) start0 anchor0 data0 g sealed0 c0).
Local Abbreviation first := (first_seq start0 items0).
Local Abbreviation lay s n := (layout start0 anchor0 data0 0 (boundaries s) n (batches s)).

(** The items are in the bytes. *)
Lemma stream_inj seq xs ys :
  Forall item_ok xs -> Forall item_ok ys -> 0 <= seq -> seq + Z.of_nat (length xs) <= u64_max + 1 ->
  seq + Z.of_nat (length ys) <= u64_max + 1 -> stream seq xs = stream seq ys -> xs = ys.
Proof using AppEventLaws0 crc_range fits_one_entry.
  revert seq ys. induction xs as [|[[ts key] ev] xs IH]; intros seq [|[[ts' key'] ev'] ys] Hx Hy Hge H1 H2 Heq; try done.
  - exfalso. apply Forall_cons in Hy as [Hy _]. destruct (frame_encodes crc32c fits_one_entry seq _ ts' key' ev' eq_refl Hy) as [_ Hl].
    cbn [Journal.Stream.stream] in Heq. apply (f_equal length) in Heq. rewrite length_app in Heq. cbn [length] in Heq. lia.
  - exfalso. apply Forall_cons in Hx as [Hx _]. destruct (frame_encodes crc32c fits_one_entry seq _ ts key ev eq_refl Hx) as [_ Hl].
    cbn [Journal.Stream.stream] in Heq. apply (f_equal length) in Heq. rewrite length_app in Heq. cbn [length] in Heq. lia.
  - apply Forall_cons in Hx as [Hx Hxs], Hy as [Hy Hys]. cbn [length] in H1, H2. cbn [Journal.Stream.stream] in Heq.
    assert (Hs : in_u64 seq) by (unfold in_u64, u64_max in *; lia).
    pose proof (frame_decodes crc32c crc_range fits_one_entry seq ts key ev (stream (seq + 1) xs) Hx Hs) as D1.
    pose proof (frame_decodes crc32c crc_range fits_one_entry seq ts' key' ev' (stream (seq + 1) ys) Hy Hs) as D2.
    rewrite Heq, D2 in D1. injection D1 as Hl <- <- <-. apply app_inj_1 in Heq as [_ Heq]; [|done].
    f_equal. apply (IH (seq + 1) ys); try done; lia.
Qed.

(** How far into the input the first [d] batches reach, and what their cursors say. *)
Definition reaches (k : Ghost) (bts : list (JournalWriteMeta * list Z)) (d c : nat) : Prop :=
  (c <= handed k)%nat /\ span 0 d bts = stream first (items_of (take c (slots_in k))) /\
  match d with
  | O => True
  | S i => exists m bs, bts !! i = Some (m, bs) /\ ring_progress m = r0 + Z.of_nat c /\
      journal_seq m = first + Z.of_nat (length (items_of (take c (slots_in k)))) - 1
  end /\
  forall i m bs, (i < d)%nat -> bts !! i = Some (m, bs) -> exists c', (c' <= c)%nat /\
    ring_progress m = r0 + Z.of_nat c' /\ journal_seq m = first + Z.of_nat (length (items_of (take c' (slots_in k)))) - 1.

Lemma reached k st d : Rel k st -> (d <= length (batches (sys st)))%nat -> exists c, reaches k (batches (sys st)) d c.
Proof using Type.
  clear. intros Hst Hd. destruct Hst. destruct d as [|d].
  { exists 0%nat. split_and!; [lia|done|done|]. intros; lia. }
  destruct (lookup_lt_is_Some_2 (batches (sys st)) d ltac:(lia)) as [[m bs] Hm].
  destruct (r_cover0 _ _ _ Hm) as (c & H1 & H2 & H3 & H4 & H5). rewrite length_take in H1.
  rewrite take_take, Nat.min_l in H3, H4 by lia. exists c. split_and!; [lia|done|by exists m, bs|].
  intros i m' bs' Hi Hm'. destruct (decide (i = d)) as [->|Hne].
  { exists c. rewrite Hm in Hm'. injection Hm' as <- <-. by split_and!. }
  destruct (r_cover0 _ _ _ Hm') as (c' & G1 & G2 & G3 & G4 & _). rewrite length_take in G1. rewrite take_take, Nat.min_l in G4 by lia.
  exists c'. split_and!; try done. rewrite Forall_lookup in H5.
  pose proof (H5 i (m', bs') ltac:(rewrite lookup_take_lt by lia; done)) as Hle. cbn in Hle. lia.
Qed.

(** The segments as of the first [d] batches: the live one is cut at an item's end. *)
Lemma good_cut bs n bts segs s a fl d its more :
  good bs n bts segs s a fl -> ordered 0 bs d -> (d <= n)%nat ->
  span 0 d bts = stream first its -> span 0 n bts = stream first (its ++ more) ->
  concat (map g_items segs) ++ fl = items0 ++ its ++ more -> Forall item_ok more ->
  exists fl', good bs d bts segs s a fl' /\ fl = fl' ++ more /\ concat (map g_items segs) ++ fl' = items0 ++ its.
Proof using AppEventLaws0 fits_one_entry.
  clear -AppEventLaws0 fits_one_entry. intros [G1 G2 G3 G4 G5] Ho Hd Hsd Hsn Hit Hok.
  rewrite (span_split 0 d n), Hsd, stream_app in Hsn by lia. apply app_inv_head in Hsn.
  rewrite (layout_grow _ _ _ _ _ d n) in G2 by done. rewrite Hsn in G2. destruct (layout _ _ _ _ _ d _) as [closed live] eqn:Hlay.
  cbn [fst snd] in G2. unfold grown in G2. injection G2 as -> Hl1 Hl2. destruct live as [[s1 a1] x]. cbn [fst snd] in *. injection Hl1 as -> ->.
  pose proof (linked_count crc32c blake3 _ _ _ _ _ G3) as Hs. rewrite (app_assoc items0) in Hit.
  assert (Hcut : exists fl', fl = fl' ++ more /\ concat (map g_items segs) ++ fl' = items0 ++ its /\ x = stream s fl').
  { apply app_eq_inv in Hit as [(u & Hu1 & Hu2)|(fl' & Hu1 & Hu2)].
    - subst more. rewrite stream_app in Hl2. apply Forall_app in Hok as [Hu _].
      pose proof (f_equal length Hu1) as Hul. rewrite !length_app in Hul. unfold first_seq in *.
      replace (start0 + Z.of_nat (length items0) + Z.of_nat (length its) + Z.of_nat (length u)) with s in Hl2 by lia.
      assert (Hz : length (stream s fl) = (length x + (length (stream (start0 + Z.of_nat (length items0) + Z.of_nat (length its)) u) + length (stream s fl)))%nat).
      { rewrite <- Hl2 at 1. by rewrite !length_app. }
      pose proof (Reader.Recovery.frames_no_shorter crc32c fits_one_entry (start0 + Z.of_nat (length items0) + Z.of_nat (length its)) u Hu) as Hns.
      destruct u; [|cbn [length] in Hns; lia]. destruct x; [|cbn [length] in Hz; lia].
      exists []. by rewrite Hu1, !app_nil_r.
    - subst fl. exists fl'. split_and!; try done. rewrite stream_app in Hl2.
      apply (f_equal length) in Hu1. rewrite !length_app in Hu1. unfold first_seq in *.
      replace (start0 + Z.of_nat (length items0) + Z.of_nat (length its)) with (s + Z.of_nat (length fl')) in Hl2 by lia.
      by apply app_inv_tail in Hl2. }
  destruct Hcut as (fl' & -> & Hits & ->). exists fl'. split; [|done]. split; try done.
  destruct G5 as (H1 & H2 & H3 & H4). split_and!; try done; unfold seg_next in *; cbn in *.
  - rewrite length_app in H3. lia.
  - by apply Forall_app in H4 as [? _].
Qed.

(** What the history beside a state comes to. *)
Lemma rel_facts k st : Rel k st ->
  Forall item_ok (items_of (slots_in k)) /\ first + Z.of_nat (length (items_of (slots_in k))) <= u64_max /\ 1 <= start0.
Proof using Type.
  clear. intros Hst. destruct (next_place _ _ _ _ _ _ _ _ _ _ _ _ _ Hst) as (_ & Hmax & Hs1 & Hits & _). split_and!; [done..|].
  destruct Hst. pose proof (gd_linked _ _ _ _ _ _ _ _ _ _ _ _ _ r_good0) as Hl.
  destruct (sealed k) as [|x segs] eqn:Hk; cbn in Hl; [destruct Hl as [<- _]; done|].
  destruct Hl as (<- & _). pose proof (gd_sealed _ _ _ _ _ _ _ _ _ _ _ _ _ r_good0) as Hok.   apply Forall_cons in Hok as [(_ & ? & _) _]. done.
Qed.

Lemma item_ok_take n inp : Forall item_ok (items_of inp) -> Forall item_ok (items_of (take n inp)).
Proof using Type. clear. intros Hok. rewrite <- (take_drop n inp), items_of_app in Hok. by apply Forall_app in Hok as [? _]. Qed.

Lemma item_ok_between c e inp : Forall item_ok (items_of inp) -> Forall item_ok (between c e inp).
Proof using Type.
  clear. intros Hok. unfold between. apply item_ok_take. rewrite <- (take_drop c inp), items_of_app in Hok. by apply Forall_app in Hok as [_ ?].
Qed.

Lemma handed_cut k st d c bs :
  Rel k st -> reaches k (batches (sys st)) d c -> ordered 0 bs d -> (d <= length (batches (sys st)))%nat ->
  known k = bs -> exists fl, good bs d (batches (sys st)) (sealed k) (seg_start k) (seg_anchor k) fl /\
    concat (map g_items (sealed k)) ++ fl = items0 ++ items_of (take c (slots_in k)).
Proof using AppEventLaws0 fits_one_entry.
  intros Hst (Hc & Hs & _) Ho Hd Hbs. destruct (rel_facts _ _ Hst) as (Hok & _). destruct Hst. rewrite Hbs in *.
  pose proof (between_upto c (handed k) (slots_in k) Hc) as Hup. rewrite Hup in *.
  destruct (good_cut _ _ _ _ _ _ _ d _ _ r_good0 Ho Hd Hs r_total0 r_items0 (item_ok_between _ _ _ Hok)) as (fl & Hg & _ & Hi).
  by exists fl.
Qed.

(** A segment is in its bytes. *)
Lemma as_laid_inj x y : seg_ok g x -> seg_ok g y -> as_laid crc32c x = as_laid crc32c y -> x = y.
Proof using AppEventLaws0 crc_range fits_one_entry.
  intros (_ & Hx1 & Hx2 & Hx3) (_ & Hy1 & Hy2 & Hy3) Heq. destruct x as [sx ax ix], y as [sy ay iy]. unfold seg_next in *. cbn in *.
  injection Heq as -> -> Hs. f_equal. apply (stream_inj sy); try done; lia.
Qed.

Lemma all_laid_inj xs ys : Forall (seg_ok g) xs -> Forall (seg_ok g) ys -> map (as_laid crc32c) xs = map (as_laid crc32c) ys -> xs = ys.
Proof using AppEventLaws0 crc_range fits_one_entry.
  revert ys. induction xs as [|x xs IH]; intros [|y ys] Hx Hy Heq; try done. cbn [map] in Heq.
  apply Forall_cons in Hx as [Hx Hxs], Hy as [Hy Hys]. injection Heq as Hs Ha Hb Hl. f_equal; [|by apply IH].
  apply as_laid_inj; [done..|]. unfold as_laid. congruence.
Qed.

Lemma good_unique bs n bts segs s a fl segs' s' a' fl' :
  good bs n bts segs s a fl -> good bs n bts segs' s' a' fl' -> segs = segs' /\ s = s' /\ a = a' /\ fl = fl'.
Proof using AppEventLaws0 crc_range fits_one_entry.
  intros [_ G2 _ G4 G5] [_ G2' _ G4' G5']. rewrite G2 in G2'. injection G2' as Hsegs Hs Ha Hl.
  split; [by apply all_laid_inj|]. pose proof (as_laid_inj _ _ G5 G5') as Hx. unfold as_laid in Hx. cbn in Hx.
  specialize (Hx ltac:(congruence)). injection Hx as ?. done.
Qed.

(** What is synced at any instant: linked segments, holding a prefix of the input. *)
Lemma cut k st x : Rel k st -> dinv (sys st) x -> exists segs s a fl c,
  reaches k (batches (sys st)) (d x) c /\ good (boundaries (sys st)) (d x) (batches (sys st)) segs s a fl /\
  concat (map g_items segs) ++ fl = items0 ++ items_of (take c (slots_in k)).
Proof using AppEventLaws0 blake3_length crc_range fits_one_entry.
  clear capacity_pow2. intros Hst Hinv. destruct (inv_bounds _ _ _ _ _ _ _ _ _ _ Hinv) as (_ & Hd & _).
  destruct (in_file _ _ _ _ _ _ _ _ _ _ Hinv) as (clean & Hf & _). destruct (fi_order _ _ _ _ _ _ _ _ _ _ Hf) as [Ho _].
  pose proof (in_marks _ _ _ _ _ _ _ _ _ _ Hinv) as (_ & _ & Hmd & _).
  destruct (reached k st (d x) Hst Hd) as (c & Hc). pose proof Hc as (Hch & Hcs & _).
  destruct (rel_facts _ _ Hst) as (Hok & Hmax & H1). pose proof Hst as Hst0. destruct Hst.
  assert (Hsame : boundaries (sys st) = known k -> exists segs s a fl c0, reaches k (batches (sys st)) (d x) c0 /\
      good (boundaries (sys st)) (d x) (batches (sys st)) segs s a fl /\ concat (map g_items segs) ++ fl = items0 ++ items_of (take c0 (slots_in k))).
  { intros Hb. rewrite Hb in *. destruct (handed_cut k st (d x) c _ Hst0 Hc Ho Hd eq_refl) as (fl & Hg & Hi).
    by exists (sealed k), (seg_start k), (seg_anchor k), fl, c. }
  assert (Hlast : forall b n, ordered 0 (known k ++ [(b, n)]) (d x) -> ordered 0 (known k) n /\ (n <= d x)%nat).
  { intros b n. clear. generalize 0%nat as f. induction (known k) as [|[[? ?] q] l IH]; intros f; destruct b; cbn; [done|].
    intros [? [? ?]%IH]. by split_and!. }
  destruct r_phase0 as [? Hi Hs Hbs|r ? Hro Hs Ha Hpr Hbs|? Hro Hpr Hbs|er ? Hro Hbs|Hdd Hw [Hbs|(c1 & segs & s1 & a1 & fl1 & Hdi & Hc1 & Hg & Hn & Hbs)]];
    try (by apply Hsame).
  - rewrite Hbs in Ho. apply Hlast in Ho as [_ Hge]. assert (Hdn : d x = length (batches (sys st))) by lia.
    pose proof (good_boundary crc32c blake3 blake3_length _ _ _ _ _ _ _ _ _ _ _ r_good0) as Hg. cbv zeta in Hg.
    eexists _, _, _, [], c. split; [done|]. rewrite Hbs, Hdn. split; [exact Hg|].
    rewrite map_app, concat_app, app_nil_r. cbn. rewrite app_nil_r, r_items0. f_equal.
    rewrite Hdn, r_total0 in Hcs. pose proof (between_upto c (handed k) (slots_in k) Hch) as Hup.
    apply (f_equal length) in Hup as Hul. rewrite length_app in Hul.
    apply (stream_inj first); try done; try (by apply item_ok_take); unfold first_seq in *; [lia|..].
    all: pose proof (items_of_app (take (handed k) (slots_in k)) (drop (handed k) (slots_in k))) as Hall; rewrite take_drop in Hall;
      apply (f_equal length) in Hall; rewrite length_app in Hall; lia.
  - rewrite Hbs in Ho. apply Hlast in Ho as [Ho Hge]. assert (Hdn : d x = c1) by lia. rewrite Hdn in *.
    destruct (handed_cut k st c1 c _ Hst0 Hc Ho Hd eq_refl) as (fl & Hg' & Hi').
    destruct (good_unique _ _ _ _ _ _ _ _ _ _ _ Hg Hg') as (-> & -> & -> & ->).
    pose proof (good_boundary crc32c blake3 blake3_length _ _ _ _ _ _ _ _ _ _ _ Hg) as Hgb. cbv zeta in Hgb.
    eexists _, _, _, [], c. split; [done|]. rewrite Hbs. split; [exact Hgb|].
    rewrite map_app, concat_app, app_nil_r. cbn. by rewrite app_nil_r.
Qed.
End cut.
End Cut.

Module Restart.
Import Wire.Wire Wire.Mirror Codec.Facts Journal.Encoder Journal.Segment Journal.Stream Segments.History
  Disk.WriteRing Disk.Control Disk.Thread Disk.Kept Disk.Durable Sequencer.Shell Sequencer.Loop Handover.Told Cut.
Import Recovery.Recover Recovery.Verdict Reader.Reader Reader.Recovery CatchUp.Verdict.

(** Every cursor within a place of the input ring and a sequence. *)
Definition cursors_within (c : DurabilityCursors) (pos last : Z) : Prop :=
  input_progress c <= pos /\
  (forall v, durable_wire_seq c = Some v -> v <= last) /\
  (forall f, fsync_state c = Some f -> Stages.Replay.f_journal_seq f <= last /\ Stages.Replay.f_input_ring_seq f <= pos) /\
  (forall v, advertised_tip c = Some v -> v <= last).

Section restart.
Context {A E R Q : Type} `{Application A E R Q} `{AppEvent E} `{!AppEventLaws E}.
Context (crc32c : list Z -> Z) (blake3 : list Z -> list Z) (cfg : Config).
Hypothesis capacity_pow2 : exists k, 1 <= k /\ capacity cfg = 2 ^ k.
Hypothesis crc_range : forall bs, in_u32 (crc32c bs).
Hypothesis blake3_length : forall bs, length (blake3 bs) = 32%nat.
Hypothesis fits_one_entry : (entry_size (E:=E) <= MAX_ENTRY_SIZE)%nat.

Local Abbreviation items_of := (Mirror.items_of app_is_query).
Local Abbreviation stream := (Journal.Stream.stream crc32c).
Local Abbreviation seg_file := (Segments.History.seg_file crc32c).

(** The journal the stage starts on: sealed segments from sequence 1, and the writer
    as recovery leaves it, on a live segment that continues them. *)
Record node (w : Journal.Writer.BufferedWriter) (anchor : list Z) (segs0 : list (Segments.History.Seg (E:=E)))
    (start0 : Z) (anchor0 : list Z) (items0 : list (item (E:=E))) (g : option Z) : Prop := {
  nd_writer : winv crc32c w start0 anchor0 items0 [];
  nd_genesis : genesis (Journal.Writer.segment w) = g;
  nd_linked : linked crc32c blake3 1 anchor segs0 start0 anchor0;
  nd_sealed : Forall (seg_ok g) segs0
}.

Section running.
Variables (w : Journal.Writer.BufferedWriter) (sizes : list nat) (anchor : list Z) (segs0 : list (Segments.History.Seg (E:=E))).
Variables (start0 : Z) (anchor0 : list Z) (items0 : list (item (E:=E))) (g : option Z).
Variables (c0 : DurabilityCursors) (r0 : Z) (replies : list (Reply E)) (st0 : St E).
Hypothesis node0 : node w anchor segs0 start0 anchor0 items0 g.
Hypothesis started : into_sequencer cfg w sizes true (map (seg_file g) segs0) c0 r0 replies = Some (Ok st0).
Hypothesis replies_ok : Forall (reply_ok g) replies.
Hypothesis input_ok : slots_ok start0 items0 (coming replies).

Local Abbreviation f0 := (Journal.Writer.segment w).
Local Abbreviation sealed0 := (map (seg_file g) segs0).

Lemma writer_opened : Kept.opened crc32c start0 anchor0 (stream start0 items0) g f0.
Proof using node0 crc_range.
  clear -node0 crc_range. destruct node0 as [Hw Hg _ _]. pose proof (wi_header _ _ _ _ _ _ Hw) as Hh. rewrite Hg in Hh.
  split_and!; [done|done| |].
  - destruct (wi_file _ _ _ _ _ _ Hw) as [pad Hf]. exists pad. by rewrite Hf, Hg.
  - rewrite (wi_pos _ _ _ _ _ _ Hw), length_app. by rewrite (header_length crc32c crc_range).
Qed.

Lemma started_at : At crc32c blake3 cfg start0 anchor0 items0 g sealed0 c0 f0 r0 0 0 [] st0 /\
  capacity cfg * CHUNK_SIZE <= MAX_UNSYNCED_BYTES.
Proof using node0 started replies_ok input_ok fits_one_entry.
  clear -node0 started replies_ok input_ok fits_one_entry. destruct node0 as [Hw Hg Hl Hs]. pose proof (wi_header _ _ _ _ _ _ Hw) as Hh. rewrite Hg in Hh.
  pose proof (batch_len_length crc32c fits_one_entry _ _ _ _ _ Hw) as Hb. cbn [Journal.Stream.stream length] in Hb.
  destruct Hw as [W1 W2 _ W4 W5 W6 W7 _ _ _ _]. rewrite app_nil_r in *.
  revert started. unfold into_sequencer, into_halves, Journal.Writer.flush_batch_sync. rewrite Hb. cbn [Nat.eqb rbind].
  destruct (_ <? _) eqn:Hcap; [done|]. cbn [negb]. apply Z.ltb_ge in Hcap. intros [= <-]. split; [|done].
  exists (Gh false 0 0 [] [] start0 anchor0 items0 [] false). split; [|done].
  split; cbn; try done.
  - split; [done|lia].
  - split; cbn; try done; [by rewrite app_nil_r|]. split_and!; try done; unfold seg_next; cbn; lia.
  - by rewrite app_nil_r.
  - split; cbn; rewrite ?app_nil_r; try done; lia.
  - lia.
  - by apply ph_idle.
Qed.

Local Abbreviation first := (first_seq start0 items0).
Local Abbreviation Rel := (Told.Rel crc32c blake3 cfg start0 anchor0 items0 g sealed0 c0 f0 r0).
Local Abbreviation dinv := (Kept.inv crc32c (capacity cfg) start0 anchor0 (stream start0 items0) g sealed0 c0).

Lemma items_grow c' c (inp : list (InputSlot E)) : (c' <= c)%nat -> (length (items_of (take c' inp)) <= length (items_of (take c inp)))%nat.
Proof using Type. clear. intros Hc. rewrite (between_upto c' c inp Hc), length_app. lia. Qed.

(** Nothing is announced that is not synced. *)
Lemma cursors_bounded k st x c :
  Rel k st -> dinv (sys st) x -> Cut.reaches crc32c start0 items0 r0 k (batches (sys st)) (d x) c ->
  cursors_within c0 r0 (first - 1) ->
  cursors_within (cursors (sys st)) (r0 + Z.of_nat c) (first + Z.of_nat (length (items_of (take c (slots_in k)))) - 1).
Proof using Type.
  clear. intros Hst Hinv (_ & _ & _ & Hall) (I1 & I2 & I3 & I4).
  pose proof (inv_bounds _ _ _ _ _ _ _ _ _ _ Hinv) as (_ & Hd & _).
  destruct (in_marks _ _ _ _ _ _ _ _ _ _ Hinv) as ((_ & M1) & (M2 & M3) & (M4 & _) & _).
  destruct (in_cur _ _ _ _ _ _ _ _ _ _ Hinv) as [P1 P2 P3 P4].
  assert (Hlast : forall X (f : JournalWriteMeta -> X) (P : X -> Prop) init n, (n <= d x)%nat -> P init ->
     (forall m c', (c' <= c)%nat -> ring_progress m = r0 + Z.of_nat c' ->
        journal_seq m = first + Z.of_nat (length (items_of (take c' (slots_in k)))) - 1 -> P (f m)) ->
     P (last_of f init n (batches (sys st)))).
  { intros X f P init [|i] Hn Hi Hm; [done|]. cbn. destruct (batches (sys st) !! i) as [[m bs]|] eqn:Hl; [|done].
    destruct (Hall i m bs ltac:(lia) Hl) as (c' & H1 & H2 & H3). by apply (Hm m c'). }
  pose proof (fun c' Hc => items_grow c' c (slots_in k) Hc) as Hg.
  split_and!.
  - rewrite P1. apply (Hlast _ _ (fun v => v <= _)); [lia..|]. intros m c' Hc -> _. lia.
  - intros v. rewrite P3. destruct (durable_wire_seq c0) as [v0|]; [|done]. intros [= <-].
    apply (Hlast _ _ (fun v => v <= _)); [lia| |]; [specialize (I2 _ eq_refl); lia|]. intros m c' Hc _ ->. specialize (Hg c' Hc). lia.
  - intros f. rewrite P2. destruct (fsync_state c0) as [f1|]; [|done]. intros [= <-].
    apply (Hlast _ _ (fun v => _ v <= _ /\ _ v <= _)); [lia| |]; [specialize (I3 _ eq_refl); lia|].
    intros m c' Hc H1 H2. cbn. specialize (Hg c' Hc). lia.
  - intros v Hv. rewrite Hv in P4. destruct (advertised_tip c0) as [v0|]; [|done]. destruct P4 as (_ & _ & [->|(i & m & bs & Hi & Hm & ->)]).
    + specialize (I4 _ eq_refl). lia.
    + destruct (Hall i m bs ltac:(lia) Hm) as (c' & Hc & _ & ->). specialize (Hg c' Hc). lia.
Qed.

(** The segment files by name, as a directory listing gives them. *)
Definition listed (labels : list nat) (files : list (list Z)) : list (nat * list Z) := zip labels files.

(** The disk's segments, as recovery's model has them. *)
Definition as_disk (labels : list nat) (sealed : list (Segments.History.Seg (E:=E))) (live : Segments.History.Seg) (rest : list Z)
    : Recovery.Verdict.Disk (E:=E) :=
  {| Recovery.Verdict.sealed := zip labels (map (fun x => (x, 0%nat)) sealed); current := Some (live, rest) |}.

Lemma as_disk_files labels sealed live rest :
  map (archive_file crc32c g) (Recovery.Verdict.sealed (as_disk labels sealed live rest)) = listed labels (map (seg_file g) sealed).
Proof using Type.
  clear. unfold as_disk, listed. cbn. revert labels. induction sealed as [|x sealed IH]; intros [|l labels]; try done. cbn.
  rewrite IH. unfold archive_file. cbn. by rewrite app_nil_r.
Qed.

Lemma as_disk_segs labels sealed live rest : length labels = length sealed ->
  disk_segs (as_disk labels sealed live rest) = sealed ++ [live].
Proof using Type.
  clear. intros Hl. unfold disk_segs, segs_of, as_disk. cbn. f_equal. revert labels Hl.
  induction sealed as [|x sealed IH]; intros [|l labels] Hl; try done. cbn. f_equal. apply IH. by injection Hl.
Qed.

Lemma zeroed_tape x : seg_ok g x -> file_small (seg_file g x) -> on_tape crc32c g Archived x (replicate 0 0).
Proof using Type.
  clear. intros Hok Hs. split; [done|]. split; [done|]. split; [apply (harmless_zeros Archived 0)|]. cbn. by rewrite app_nil_r.
Qed.

(** Linked segments and a torn tail, put together, are a journal recovery takes. *)
Lemma as_disk_kept labels sealed live rest start' anchor' :
  length labels = length sealed -> linked crc32c blake3 1 anchor (sealed ++ [live]) start' anchor' ->
  Forall (seg_ok g) sealed -> Forall (fun x => file_small (seg_file g x)) sealed ->
  on_tape crc32c g Live live rest -> well_kept crc32c blake3 g (as_disk labels sealed live rest) 1 anchor start' anchor'.
Proof using Type.
  clear. intros Hl Hlk Hok Hsm Ht. split; [by rewrite as_disk_segs|]. split; [|done]. cbn. clear Hlk Ht. revert labels Hl.
  induction sealed as [|x sealed IH]; intros [|l labels] Hl; try done. cbn.
  apply Forall_cons in Hok as [Hx Hok], Hsm as [Hf Hsm]. constructor; [by apply zeroed_tape|]. apply IH; [done..|]. by injection Hl.
Qed.

(** C2: A crash loses nothing that was announced. The journal stage is started on
    the writer recovery left; its two threads run under any schedule, with any
    answers of the device, rotations, poisonings and panics; and the machine stops at
    any moment. Then there is a count [c] of input slots such that everything any
    durable cursor announces, to the response stage, the replicas, the health report,
    lies within those [c] slots and the sequences they took. The crash leaves the
    live file with its synced bytes and behind them whatever had been written of the
    batches in flight: some whole entries, then a torn rest. Recovery of that
    directory succeeds, and its state is that of a node that processed exactly the
    old history, the [c] slots and those whole entries, in order, each once; the next
    entry gets the next sequence. *)
Theorem crash_restart_exact :
  cursors_within c0 r0 (first - 1) ->
  let st := (Loop.run crc32c blake3 cfg st0).2 in
  exists c h, (c <= h <= length (input st))%nat /\
    cursors_within (cursors (sys st)) (r0 + Z.of_nat c) (first + Z.of_nat (length (items_of (take c (input st)))) - 1) /\
    forall m a0 labels file j rest,
      let whole := take j (between c h (input st)) in
      let history := concat (map g_items segs0) ++ items0 ++ items_of (take c (input st)) ++ whole in
      machine_ok m -> length labels = length (archives (sys st)) -> Forall file_small (archives (sys st)) -> file_small file ->
      crash_image (sys st) file ->
      drop (synced (sys st)) file = stream (first + Z.of_nat (length (items_of (take c (input st))))) whole ++ rest ->
      stops (E:=E) crc32c rest = true ->
      exists r, recover crc32c blake3 m a0 (listed labels (archives (sys st))) (Some file) = Ok r /\
        recovered_as (lived a0 history) r /\
        next_sequence (Journal.Writer.encoder (Recover.writer r)) = Z.of_nat (length history) + 1.
Proof using AppEventLaws0 blake3_length capacity_pow2 crc_range fits_one_entry node0 started replies_ok input_ok.
  intros Hcur st. destruct started_at as [Hat Hcap].
  destruct (t_run crc32c blake3 cfg capacity_pow2 crc_range blake3_length start0 anchor0 items0 g sealed0 c0 f0 r0 writer_opened st0 Hat)
    as [[k Hst] _]. fold st in Hst.
  destruct (rel_dinv crc32c blake3 cfg capacity_pow2 crc_range start0 anchor0 items0 g sealed0 c0 f0 r0 writer_opened _ _ _ _ _ _ _ _ _ _ _ Hst) as [x Hinv].
  destruct (Cut.cut crc32c blake3 cfg crc_range blake3_length fits_one_entry start0 anchor0 items0 g sealed0 c0 f0 r0 k st x Hst Hinv)
    as (segs & s & a & fl & c & Hreach & Hgood & Hitems).
  pose proof (cursors_bounded k st x c Hst Hinv Hreach Hcur) as Hwithin.
  destruct (rel_facts crc32c blake3 cfg start0 anchor0 items0 g sealed0 c0 f0 r0 k st Hst) as (Hok & Hmax & _).
  assert (Hin : input st = slots_in k) by by destruct Hst.
  assert (Hpos : (handed k <= encoded k <= length (slots_in k))%nat) by (destruct Hst as [_ _ _ [? _]]; done).
  pose proof Hreach as (Hch & _). rewrite Hin. exists c, (handed k). split; [lia|]. split; [done|].
  intros m a0 labels file j rest whole history Hm Hlab Hsm Hfile Himg Hdrop Hstops.
  destruct (image_splits _ _ _ _ _ _ _ _ _ _ _ Hinv Hcap Himg) as ((Ho & Harch & _) & Hfl & Hharm).
  destruct Hgood as [_ Hlay Hlk Hsok Hlok]. rewrite Hlay in Harch, Hfl. cbn [fst snd] in Harch, Hfl. rewrite Hdrop in Hfl, Hharm.
  assert (Hfiles : archives (sys st) = map (seg_file g) (segs0 ++ segs)).
  { rewrite Harch, map_app. f_equal. by rewrite map_map. }
  pose proof (linked_count crc32c blake3 _ _ _ _ _ Hlk) as Hs. pose proof (f_equal length Hitems) as Hil. rewrite !length_app in Hil.
  assert (Hplace : first + Z.of_nat (length (items_of (take c (slots_in k)))) = s + Z.of_nat (length fl)) by (unfold first_seq; lia).
  rewrite Hplace in Hfl, Hharm. set (live := {| g_start := s; g_anchor := a; g_items := fl ++ whole |}).
  assert (Hlive : file = seg_file g live ++ rest).
  { rewrite Hfl. unfold seg_bytes, Segments.History.seg_file, live. cbn. rewrite stream_app. by rewrite <- !app_assoc. }
  assert (Hbtw : Forall item_ok (between c (handed k) (slots_in k))) by by apply item_ok_between.
  assert (Hlen : first + Z.of_nat (length (items_of (take c (slots_in k)) ++ whole)) <= u64_max).
  { etransitivity; [|exact Hmax]. rewrite <- (take_drop (handed k) (slots_in k)) at 2. rewrite items_of_app, (between_upto c (handed k)) by lia.
    rewrite !length_app. unfold whole. rewrite length_take. lia. }
  destruct node0 as [_ _ Hlk0 Hsok0]. destruct Hlok as (L1 & L2 & L3 & L4). rewrite length_app in Hlen.
  assert (Hlok : seg_ok g live).
  { split_and!; try done; unfold live, seg_next in *; cbn in *.
    - rewrite length_app. lia.
    - apply Forall_app. split; [done|]. by apply Forall_take. }
  assert (Hlinked : linked crc32c blake3 1 anchor ((segs0 ++ segs) ++ [live]) (seg_next live) (seg_tail crc32c blake3 live)).
  { apply linked_snoc. apply (CatchUp.Shipping.linked_app crc32c blake3). by exists start0, anchor0. }
  assert (Htape : on_tape crc32c g Live live rest).
  { split_and!; [done|done| |by rewrite <- Hlive]. intros i v Hi Hv. destruct (Hharm (length (stream (s + Z.of_nat (length fl)) whole) + i)%nat v) as [_ Hb]; [|done|].
    - rewrite lookup_app_r by lia. by replace (_ + i - _)%nat with i by lia.
    - split; [done|lia]. }
  assert (Hkept := as_disk_kept labels (segs0 ++ segs) live rest _ _
    ltac:(by rewrite Hlab, Hfiles, length_map) Hlinked ltac:(by apply Forall_app) ltac:(rewrite Hfiles in Hsm; by rewrite Forall_map in Hsm) Htape).
  assert (Hhist : concat (map g_items (disk_segs (as_disk labels (segs0 ++ segs) live rest))) = history).
  { rewrite as_disk_segs by (by rewrite Hlab, Hfiles, length_map). rewrite !map_app, !concat_app. cbn. rewrite app_nil_r.
    unfold history. rewrite <- app_assoc. f_equal. rewrite (app_assoc items0), <- Hitems. by rewrite <- !app_assoc. }
  destruct (restart_from crc32c blake3 crc_range blake3_length fits_one_entry m a0 a0 None history g _ 1 anchor _ _ Hm Hkept
    ltac:(lia) ltac:(lia) Hhist ltac:(done)) as (r & Hr & Has & Hn & _).
  exists r. split; [|done]. unfold recover_disk in Hr. rewrite as_disk_files, <- Hfiles in Hr. unfold recover. rewrite Hlive. exact Hr.
Qed.

(** The files when everything handed over is written and the thread left in order. *)
Lemma stopped_files k st x :
  Rel k st -> dinv (sys st) x -> waiting k = false -> quiet st -> pc (sys st) = Exited -> Control.poisoned (control (sys st)) = false ->
  boundaries (sys st) = known k /\ level x (length (batches (sys st))) /\ genesis (segment (sys st)) = g /\
  archives (sys st) = sealed0 ++ map (seg_bytes crc32c g) (map (as_laid crc32c) (Told.sealed k)) /\
  (exists pad, contents (segment (sys st)) = header crc32c (seg_start k) (seg_anchor k) g ++ stream (seg_start k) (flushed k) ++ replicate pad 0) /\
  write_pos (segment (sys st)) = length (header crc32c (seg_start k) (seg_anchor k) g ++ stream (seg_start k) (flushed k)).
Proof using Type.
  clear. intros Hst Hinv Hw Hq Hpc Hpo. unfold quiet in Hq.
  pose proof (in_ring _ _ _ _ _ _ _ _ _ _ Hinv) as Hr. pose proof (ri_order _ _ Hr) as Hord. pose proof (ri_len _ _ Hr) as Hlen.
  pose proof (in_pc _ _ _ _ _ _ _ _ _ _ Hinv) as Hpk. unfold pc_ok in Hpk. rewrite Hpc, Hpo in Hpk.
  destruct Hpk as [|(Heq & Hlev & _)]; [done|].
  assert (Hn : Z.to_nat (WriteRing.progress (ring (sys st))) = length (batches (sys st))) by lia. rewrite Hn in *.
  destruct (in_file _ _ _ _ _ _ _ _ _ _ Hinv) as (clean & [_ Fs Fg _ (junk & pad & Fl & _ & Fj) Fp _] & _).
  destruct Hst. rewrite Hw in *.
  assert (Hb : boundaries (sys st) = known k).
  { destruct r_phase0 as [_ _ _ Hb|? ?|?|? ?|_ _ [Hb|(c1 & sg & s1 & a1 & fl1 & Hdi & _)]]; try done. rewrite (Hdi Hpc) in Hpo. done. }
  destruct r_good0 as [_ Hlay _ _ _]. pose proof Hlev as (Hwk & _). rewrite Hb, Hwk, Hlay in Fs, Fl, Fp. cbn [fst snd] in Fs, Fl, Fp.
  rewrite Hwk, <- Heq, span_self in Fj. destruct junk; [|cbn in Fj; lia].
  split_and!; try done. exists pad. rewrite Fl. unfold seg_bytes. cbn. by rewrite <- app_assoc.
Qed.

(** A clean stop hands back a whole journal. When the stage returns its writer,
    whatever the schedule was: every journaled slot the stage read, up to the
    sentinel or the drained ring, is in the journal, in order, each once, behind what
    was there; sealed and live segments are linked; everything is synced and, where
    the wire cursor is wired, announced; and the writer stands behind the last entry,
    on its chain, with nothing pending: a node the stage can be started on again, as
    promotion does. *)
Theorem clean_stop_whole w' st :
  Loop.run crc32c blake3 cfg st0 = (Got w', st) ->
  exists segs s a fl,
    node w' anchor (segs0 ++ segs) s a fl g /\ archives (sys st) = map (seg_file g) (segs0 ++ segs) /\
    Journal.Writer.segment w' = segment (sys st) /\
    concat (map g_items segs) ++ fl = items0 ++ items_of (input st) /\
    (durable_wire_seq c0 = Some (first - 1) ->
     durable_wire_seq (cursors (sys st)) = Some (first + Z.of_nat (length (items_of (input st))) - 1)).
Proof using AppEventLaws0 blake3_length capacity_pow2 crc_range fits_one_entry node0 started replies_ok input_ok.
  intros Hrun. destruct started_at as [Hat Hcap].
  destruct (t_run crc32c blake3 cfg capacity_pow2 crc_range blake3_length start0 anchor0 items0 g sealed0 c0 f0 r0 writer_opened st0 Hat)
    as [_ Hstop]. rewrite Hrun in Hstop. cbn [fst snd] in Hstop.
  destruct Hstop as (k & Hst & Hw & [Hgv Hbt] & Hq & Hall & Hpc & Hpo & Henc & Hseg & Hbuf).
  destruct (rel_dinv crc32c blake3 cfg capacity_pow2 crc_range start0 anchor0 items0 g sealed0 c0 f0 r0 writer_opened _ _ _ _ _ _ _ _ _ _ _ Hst) as [x Hinv].
  destruct (stopped_files k st x Hst Hinv Hw Hq Hpc Hpo) as (Hb & Hlev & Hg & Harch & Hfile & Hpos).
  destruct (reached crc32c blake3 cfg start0 anchor0 items0 g sealed0 c0 f0 r0 k st _ Hst (Nat.le_refl _)) as (c & Hch & Hcs & Hlast & _).
  destruct (rel_facts crc32c blake3 cfg start0 anchor0 items0 g sealed0 c0 f0 r0 k st Hst) as (Hok & Hmax & H1).
  assert (Hin : input st = slots_in k) by by destruct Hst.
  assert (Hfiles : archives (sys st) = map (seg_file g) (segs0 ++ Told.sealed k)) by (rewrite Harch, map_app; f_equal; by rewrite map_map).
  assert (Hitems : items_of (take c (slots_in k)) = items_of (slots_in k)).
  { rewrite Hall. assert (Htot := Hcs). destruct Hst. rewrite r_total0 in Htot. symmetry.
    pose proof (items_grow c (handed k) (slots_in k) Hch). rewrite Hall in Hmax.
    apply (stream_inj crc32c crc_range fits_one_entry first); try done; try (by apply item_ok_take); unfold first_seq in *; lia. }
  destruct (in_cur _ _ _ _ _ _ _ _ _ _ Hinv) as [_ _ Hwire _]. destruct Hlev as (_ & _ & _ & _ & Hnw & _).
  destruct node0 as [_ _ Hlk0 Hsok0]. destruct Hst. destruct r_good0 as [_ _ Hlk Hsok (L1 & L2 & L3 & L4)]. cbn in L1, L2, L4. unfold seg_next in L3. cbn in L3.
  unfold enc_ok in Henc. rewrite Hgv, Hbt in Henc. destruct Henc as [E1 E2 E3 E4 E5]. rewrite app_nil_r in *. cbn in E5.
  exists (Told.sealed k), (seg_start k), (seg_anchor k), (flushed k). split_and!; try done.
  - split; [|by rewrite Hseg|apply (CatchUp.Shipping.linked_app crc32c blake3); by exists start0, anchor0|by apply Forall_app].
    split; rewrite ?app_nil_r, ?Hseg, ?Hg; try done; try lia.
    + by rewrite Hpos, length_app, (header_length crc32c crc_range).
    + unfold pending_batch_bytes. by rewrite E5.
  - by rewrite Hin, Hall.
  - intros Hc0. rewrite Hwire, Hc0, Hnw, Hin, <- Hitems. cbn. f_equal.
    destruct (length (batches (sys st))) as [|i]; cbn; [|destruct Hlast as (m & bs & -> & _ & ->); done].
    assert (Hz : items_of (take c (slots_in k)) = []); [|rewrite Hz; cbn; lia].
    rewrite span_self in Hcs. symmetry in Hcs. apply (f_equal length) in Hcs.
    pose proof (Reader.Recovery.frames_no_shorter crc32c fits_one_entry first _ (item_ok_take c _ Hok)) as Hns.
    rewrite Hcs in Hns. apply nil_length_inv. cbn in Hns. lia.
Qed.
End running.
End restart.
End Restart.

(** ** A run with a rotation, cut off and restarted *)
Module Sample.
Import Codec.Sample Recovery.Sample CatchUp.Sample Scanner.Sample.
Import Codec.Facts Journal.Stream Disk.WriteRing Disk.Control Disk.Thread Disk.Kept Disk.Durable Sequencer.Shell Sequencer.Loop Handover.Told Restart.
Import Recovery.Recover Recovery.Verdict Reader.Reader Reader.Recovery Segments.History.

Definition cfg : Config :=
  {| capacity := 2; chain_hash_observed := true; max_journal_bytes := 1; producers := []; marks_wired := false;
     max_batch := 4; no_delay := true |}.
Definition anchor : list Z := replicate 32 9.
Definition nil_writer : Journal.Writer.BufferedWriter :=
  from_halves (Journal.Encoder.new 1 anchor)
    {| Journal.Segment.contents := []; Journal.Segment.write_pos := 0; Journal.Segment.allocated_end := 0;
       Journal.Segment.prealloc := 0; Journal.Segment.pre_written := false; Journal.Segment.genesis := None |}.
Definition writer : Journal.Writer.BufferedWriter :=
  match Journal.Writer.create_continuing sum32 1 anchor (Some 0) 16 [] with Ok w => w | Err _ => nil_writer end.
Definition cursors0 : DurabilityCursors :=
  {| input_progress := 0; fsync_state := None; durable_wire_seq := Some 0; advertised_tip := Some 0 |}.

Definition slot (ts : Z) (ev : JournalEvent bool) : InputSlot bool :=
  {| connection_id := 1; request_id := 1; key_hash := 7; Stages.Journaling.sequence := 0; timestamp_ns := ts; event := ev |}.

Local Abbreviation does := Disk.Thread.Disk.

(** The disk thread drains one batch; it swaps the segment. *)
Definition drains (n : Z) : list (Reply bool) :=
  map Beside ([does (SeesStop false); does (SeesCursor n); does (SeesCursor n); does Proceeds; does (Wrote [5%nat]); does SyncOk]
              ++ replicate 5 (does Proceeds)).
Definition swaps (n : Z) : list (Reply bool) :=
  map Beside [does (SeesStop false); does (SeesCursor n); does Proceeds; does (Wrote []); does Proceeds].

(** Two entries, a rotation, a third entry in flight when the power goes. *)
Definition cut_short : list (Reply bool) :=
  [Flag false; Flag false; Slots [slot 100 (App true); slot 101 (App false)]; Seen 0; Flag false]
  ++ drains 1 ++ [Seen 1; Staged None] ++ swaps 1 ++ [Flag false]
  ++ [Flag false; Flag false; Slots [slot 102 (App true)]; Seen 1; Flag false].

(** Two entries, a rotation, the sentinel and a clean stop. *)
Definition to_the_end : list (Reply bool) :=
  [Flag false; Flag false; Slots [slot 100 (App true); slot 101 (App false); slot 102 Shutdown]; Seen 0; Flag false]
  ++ drains 1 ++ [Seen 1; Staged None] ++ swaps 1 ++ [Flag false; Seen 1]
  ++ map Beside [does (SeesStop true); does (SeesCursor 1); does Proceeds].

Definition booted (replies : list (Reply bool)) := into_sequencer cfg writer [] true [] cursors0 0 replies.
Definition ended (replies : list (Reply bool)) :=
  match booted replies with Some (Ok s) => Some (Loop.run (A:=list (bool + Z)) sum32 digest cfg s) | _ => None end.

Lemma node_fresh : node (E:=bool) sum32 digest writer anchor [] 1 anchor [] (Some 0).
Proof.
  assert (Hh : header_ok Journal.Segment.MAX_SECTOR_SIZE 1 anchor (Some 0))
    by (split; [by right|]; split; [widths; lia|]; split; [done|]; widths; lia).
  destruct (create_keeps (E:=bool) sum32 Reader.Sample.sample_fits 1 anchor (Some 0) 16 [] Hh ltac:(widths; lia) ltac:(constructor)) as (w & Hw & Hinv & Hg).
  assert (writer = w) as -> by (unfold writer; by rewrite Hw). by split.
Qed.

Lemma slots_fine l : Forall item_ok (Wire.Mirror.items_of (app_is_query (A:=list (bool + Z))) l) -> (length l <= 4)%nat ->
  forallb (fun s => negb (is_shutdown (event s))) (removelast l) = true -> slots_ok (A:=list (bool + Z)) (E:=bool) 1 [] l.
Proof.
  intros Hok Hl Hs. split; [done| |].
  - assert (length (Wire.Mirror.items_of (app_is_query (A:=list (bool + Z))) l) <= length l)%nat.
    { clear. induction l as [|x l IH]; cbn [Wire.Mirror.items_of length]; [lia|]. destruct (takes_wire_seq _ _); cbn [length]; lia. }
    unfold first_seq. cbn [length]. widths. lia.
  - intros pre x post -> Hx. destruct post as [|y post]; [done|]. exfalso.
    rewrite removelast_app, forallb_app in Hs by done. apply andb_true_iff in Hs as [_ Hs]. cbn in Hs. by rewrite Hx in Hs.
Qed.

Ltac fine := repeat first [apply Forall_nil_2 | apply Forall_cons_2 | exact I | cbn [reply_ok act_ok answer_ok]; lia].

Lemma cut_short_ok : Forall (reply_ok (E:=bool) (Some 0)) cut_short /\ slots_ok (A:=list (bool + Z)) (E:=bool) 1 [] (coming cut_short).
Proof.
  split; [unfold cut_short, drains, swaps; cbn [map Datatypes.app replicate]; fine|]. apply slots_fine; [|apply Nat.leb_le; reflexivity|reflexivity].
  repeat apply Forall_cons_2; [..|apply Forall_nil_2]; (split; [|split; [|reflexivity]]); cbn [timestamp_ns key_hash slot]; widths; lia.
Qed.

Lemma to_the_end_ok : Forall (reply_ok (E:=bool) (Some 0)) to_the_end /\ slots_ok (A:=list (bool + Z)) (E:=bool) 1 [] (coming to_the_end).
Proof.
  split; [unfold to_the_end, drains, swaps; cbn [map Datatypes.app replicate]; fine|]. apply slots_fine; [|apply Nat.leb_le; reflexivity|reflexivity].
  repeat apply Forall_cons_2; [..|apply Forall_nil_2]; (split; [|split; [|reflexivity]]); cbn [timestamp_ns key_hash slot]; widths; lia.
Qed.

Definition small (f : list Z) : bool := Z.of_nat (length f) + MAX_UNSYNCED_BYTES <=? u64_max.

(** What the run that is cut off has announced and left. *)
Definition told_two (o : option (Val Journal.Writer.BufferedWriter * St bool)) : bool :=
  match o with
  | Some (_, st) => bool_decide (durable_wire_seq (cursors (sys st)) = Some 2) && forallb small (Thread.archives (sys st)) &&
      small (take (synced (sys st)) (Journal.Segment.contents (segment (sys st))))
  | None => false
  end.
Definition came_back (o : option (Val Journal.Writer.BufferedWriter * St bool)) : bool :=
  match o with Some (Got _, _) => true | _ => false end.

Lemma told_two_inv l : told_two (ended l) = true -> exists st0, booted l = Some (Ok st0) /\
  let st := (Loop.run (A:=list (bool + Z)) sum32 digest cfg st0).2 in
  durable_wire_seq (cursors (sys st)) = Some 2 /\ Forall file_small (Thread.archives (sys st)) /\
  file_small (take (synced (sys st)) (Journal.Segment.contents (segment (sys st)))).
Proof.
  unfold ended. destruct (booted l) as [[st0|]|]; try done. cbn [told_two]. destruct (Loop.run _ _ _ st0) as [v st] eqn:Hr.
  intros Ht. exists st0. split; [done|]. rewrite Hr. cbn [snd]. apply andb_true_iff in Ht as [[Hd Ha]%andb_true_iff Hf].
  apply bool_decide_eq_true in Hd. split; [done|]. unfold small in Ha, Hf. split; [|unfold file_small; zb; lia].
  apply Forall_forall. intros f Hin. rewrite forallb_forall in Ha. specialize (Ha f ltac:(by apply list_elem_of_In)). unfold file_small. zb. lia.
Qed.

Lemma came_back_inv l : came_back (ended l) = true -> exists st0 w st, booted l = Some (Ok st0) /\
  Loop.run (A:=list (bool + Z)) sum32 digest cfg st0 = (Got w, st).
Proof.
  unfold ended. destruct (booted l) as [[st0|]|]; try done. cbn [came_back]. destruct (Loop.run _ _ _ st0) as [[w|e| |] st] eqn:Hr; try done.
  intros _. by exists st0, w, st.
Qed.

Lemma sample_capacity : exists k, 1 <= k /\ capacity cfg = 2 ^ k.
Proof. by exists 1. Qed.

(** Two entries were announced; whatever was on disk at the cut, the restart is past
    them. *)
Lemma crash_restart_exact_witness :
  exists st0 r, booted cut_short = Some (Ok st0) /\
    let st := (Loop.run (A:=list (bool + Z)) sum32 digest cfg st0).2 in
    recover (A:=list (bool + Z)) sum32 digest machine [] (listed (seq 1 (length (Thread.archives (sys st)))) (Thread.archives (sys st)))
      (Some (take (synced (sys st)) (Journal.Segment.contents (segment (sys st))))) = Ok r /\
    3 <= Journal.Encoder.next_sequence (Journal.Writer.encoder (Recover.writer r)).
Proof.
  destruct (told_two_inv cut_short ltac:(vm_compute; reflexivity)) as (st0 & Hb & Hd & Ha & Hf).
  destruct (crash_restart_exact sum32 digest cfg sample_capacity sum32_range (fun _ => eq_refl) Reader.Sample.sample_fits writer [] anchor [] 1 anchor []
    (Some 0) cursors0 0 cut_short st0 node_fresh Hb (proj1 cut_short_ok) (proj2 cut_short_ok)) as (c & h & _ & Hw & Hrec).
  { split; [unfold first_seq; cbn; lia|]. split; [intros v [= <-]; unfold first_seq; cbn; lia|]. split; [done|intros v [= <-]; unfold first_seq; cbn; lia]. }
  set (st := (Loop.run sum32 digest cfg st0).2) in *. set (file := take (synced (sys st)) (Journal.Segment.contents (segment (sys st)))) in *.
  destruct Hw as (_ & Hw & _). specialize (Hw 2 Hd).
  assert (Hlf : (length file <= synced (sys st))%nat) by (unfold file; rewrite length_take; lia).
  destruct (Hrec machine [] (seq 1 (length (Thread.archives (sys st)))) file 0%nat [] machine_fine) as (r & Hr & _ & Hn).
  - by rewrite length_seq.
  - exact Ha.
  - exact Hf.
  - split; [unfold file; by rewrite take_take, Nat.min_id|]. intros i v Hi _ Hge. apply lookup_lt_Some in Hi. lia.
  - rewrite drop_ge by done. done.
  - reflexivity.
  - exists st0, r. split; [exact Hb|]. split; [exact Hr|]. rewrite Hn, !length_app. unfold first_seq in Hw. cbn [length map concat take] in *. lia.
Defined.

Lemma clean_stop_whole_witness :
  exists st0 w st segs fl, booted to_the_end = Some (Ok st0) /\
    Loop.run (A:=list (bool + Z)) sum32 digest cfg st0 = (Got w, st) /\
    concat (map g_items segs) ++ fl = Wire.Mirror.items_of (app_is_query (A:=list (bool + Z))) (input st) /\
    Thread.archives (sys st) = map (seg_file sum32 (Some 0)) segs.
Proof.
  destruct (came_back_inv to_the_end ltac:(vm_compute; reflexivity)) as (st0 & w & st & Hb & Hr).
  destruct (clean_stop_whole sum32 digest cfg sample_capacity sum32_range (fun _ => eq_refl) Reader.Sample.sample_fits writer [] anchor [] 1 anchor []
    (Some 0) cursors0 0 to_the_end st0 node_fresh Hb (proj1 to_the_end_ok) (proj2 to_the_end_ok) w st Hr) as (segs & s & a & fl & _ & Ha & _ & Hi & _).
  exists st0, w, st, segs, fl. split; [exact Hb|]. split; [exact Hr|]. split; [exact Hi|exact Ha].
Defined.
End Sample.
