(* ===== verification/ClientWire.v ===== *)
(** * The client wire protocol

    [Split] is the stream of frames a run of bytes holds, the reference the
    rest is measured against; [Decoder] the owning [FrameDecoder] of
    [wire-protocol/src/framing.rs]; [Request] the request frames of the same
    file, sealed in place and parsed back; [Reply] the control frames of
    [wire-protocol/src/control.rs] and [wire-protocol/src/control_codec.rs],
    with the rules of the tag space. A [str] is the list of its UTF-8 bytes. *)

From stdpp Require Import gmap.
From S2P Require Import Prelude Cursors Codec Protocol.
Import Codec.Le Protocol.Framing.

(** ** Frames in a run of bytes *)

Module Split.

Definition MAX_FRAME_SIZE : Z := 1024.
Definition split_frame (buf : list Z) : result (option (list Z)) FrameTooLarge :=
  split_frame_limited buf MAX_FRAME_SIZE.

(** What follows the last complete frame. *)
Inductive tail := Partial (rest : list Z) | Oversize (e : FrameTooLarge).

Fixpoint frames_fuel (fuel : nat) (max : Z) (buf : list Z) : list (list Z) * tail :=
  match fuel with
  | O => ([], Partial buf)
  | S fuel =>
    match split_frame_limited buf max with
    | Ok (Some p) => let '(fs, t) := frames_fuel fuel max (drop (consumed p) buf) in (p :: fs, t)
    | Ok None => ([], Partial buf)
    | Err e => ([], Oversize e)
    end
  end.

(** Every frame is at least its prefix, so a buffer's length is fuel enough. *)
Definition frames_of (max : Z) (buf : list Z) : list (list Z) * tail := frames_fuel (S (length buf)) max buf.

(** The bytes a run of frames takes. *)
Definition frames_len (fs : list (list Z)) : nat := sum_list (map consumed fs).

Lemma split_fits buf max p :
  split_frame_limited buf max = Ok (Some p) ->
  (consumed p <= length buf)%nat /\ Z.of_nat (length p) <= Z.max max 0 /\ p = take (length p) (drop PREFIX_LEN buf).
Proof.
  unfold split_frame_limited, consumed, PREFIX_LEN. repeat brk; intros; simplify_eq; zb.
  apply Nat.ltb_ge in Heqb. rewrite length_drop in Heqb1. rewrite length_take, length_drop.
  assert (Hn : (Z.to_nat (field 0 4 buf) `min` (length buf - 4) = Z.to_nat (field 0 4 buf))%nat) by lia.
  rewrite Hn. split; [lia|]. split; [lia|done].
Qed.

(** A verdict on a buffer stands whatever follows it. *)
Lemma split_extend buf more max :
  match split_frame_limited buf max with
  | Ok None => True
  | r => split_frame_limited (buf ++ more) max = r
  end.
Proof.
  destruct (split_frame_limited buf max) as [[p|]|e] eqn:H; [|done|]; revert H;
    unfold split_frame_limited, PREFIX_LEN; destruct (length buf <? 4)%nat eqn:Hl; try done;
    apply Nat.ltb_ge in Hl; rewrite (proj2 (Nat.ltb_ge (length (buf ++ more)) 4)) by (rewrite length_app; lia);
    rewrite (field_prefix 0 4 buf more) by lia; cbn zeta;
    destruct (field 0 4 buf <=? max); try done;
    destruct (field 0 4 buf <=? Z.of_nat (length (drop 4 buf))) eqn:Hd; try done.
  intros [= <-]. zb. rewrite drop_app_le by lia. rewrite (proj2 (Z.leb_le _ _)) by (rewrite length_app; lia).
  rewrite take_app_le; [done|lia].
Qed.

Lemma frames_fuel_enough n m max buf :
  (length buf < n)%nat -> (n <= m)%nat -> frames_fuel m max buf = frames_fuel n max buf.
Proof.
  revert m buf. induction n as [|n IH]; intros m buf Hl Hm; [lia|].
  destruct m as [|m]; [lia|]. cbn [frames_fuel].
  destruct (split_frame_limited buf max) as [[p|]|e] eqn:Hs; [|done|done].
  apply split_fits in Hs as (Hc & _). unfold consumed, PREFIX_LEN in *.
  rewrite (IH m); [done| |lia]. rewrite length_drop. lia.
Qed.

Lemma frames_of_split max buf :
  frames_of max buf =
  match split_frame_limited buf max with
  | Ok (Some p) => (p :: fst (frames_of max (drop (consumed p) buf)), snd (frames_of max (drop (consumed p) buf)))
  | Ok None => ([], Partial buf)
  | Err e => ([], Oversize e)
  end.
Proof.
  unfold frames_of at 1. cbn [frames_fuel].
  destruct (split_frame_limited buf max) as [[p|]|e] eqn:Hs; [|done|done].
  apply split_fits in Hs as (Hc & _). unfold consumed, PREFIX_LEN in Hc.
  unfold frames_of. rewrite (frames_fuel_enough (S (length (drop (consumed p) buf)))).
  - by destruct (frames_fuel _ _ _).
  - lia.
  - rewrite length_drop. unfold consumed, PREFIX_LEN. lia.
Qed.

(** Induction on the frames of a buffer. *)
Lemma frames_ind max (P : list Z -> Prop) :
  (forall buf, (forall p, split_frame_limited buf max = Ok (Some p) -> P (drop (consumed p) buf)) -> P buf) ->
  forall buf, P buf.
Proof.
  intros Hstep buf. remember (length buf) as n eqn:Hn. revert buf Hn.
  induction (lt_wf n) as [n _ IH]. intros buf ->. apply Hstep. intros p Hs.
  apply (IH (length (drop (consumed p) buf))); [|done].
  apply split_fits in Hs as (Hc & _). rewrite length_drop. unfold consumed, PREFIX_LEN in *. lia.
Qed.

Lemma frames_of_app max buf more :
  frames_of max (buf ++ more) =
  match snd (frames_of max buf) with
  | Partial rest => (fst (frames_of max buf) ++ fst (frames_of max (rest ++ more)), snd (frames_of max (rest ++ more)))
  | Oversize e => frames_of max buf
  end.
Proof.
  induction buf as [buf IH] using (frames_ind max). pose proof (split_extend buf more max) as Hx.
  rewrite (frames_of_split max buf). destruct (split_frame_limited buf max) as [[p|]|e] eqn:Hs.
  - rewrite frames_of_split, Hx. pose proof (split_fits _ _ _ Hs) as (Hc & _).
    rewrite drop_app_le by done. rewrite (IH p eq_refl).
    cbn [fst snd]. destruct (frames_of max (drop (consumed p) buf)) as [fs t] eqn:Hf.
    cbn [fst snd]. by destruct t.
  - cbn [fst snd app]. by destruct (frames_of max (buf ++ more)).
  - by rewrite frames_of_split, Hx.
Qed.

Lemma frames_len_cons p fs : frames_len (p :: fs) = (consumed p + frames_len fs)%nat.
Proof. done. Qed.

Lemma frames_len_app fs gs : frames_len (fs ++ gs) = (frames_len fs + frames_len gs)%nat.
Proof. induction fs as [|f fs IH]; [done|]. cbn [app]. rewrite !frames_len_cons, IH. lia. Qed.

(** Dropping the first frames leaves the others. *)
Lemma frames_of_drop max buf fs gs :
  fst (frames_of max buf) = fs ++ gs ->
  fst (frames_of max (drop (frames_len fs) buf)) = gs /\
  snd (frames_of max (drop (frames_len fs) buf)) = snd (frames_of max buf) /\
  (frames_len fs <= length buf)%nat.
Proof.
  revert buf. induction fs as [|f fs IH]; intros buf Hf; [by repeat split; [..|cbn; lia]|].
  rewrite frames_of_split in Hf.
  destruct (split_frame_limited buf max) as [[p|]|e] eqn:Hs; cbn in Hf; [|done|done].
  injection Hf as -> Hf. pose proof (split_fits _ _ _ Hs) as (Hc & _).
  destruct (IH (drop (consumed f) buf)) as (H1 & H2 & H3); [done|].
  rewrite frames_len_cons, <- drop_drop. rewrite length_drop in H3.
  split; [done|]. split; [|lia]. rewrite H2. by rewrite (frames_of_split max buf), Hs.
Qed.

Lemma partial_rest max buf rest :
  snd (frames_of max buf) = Partial rest -> rest = drop (frames_len (fst (frames_of max buf))) buf.
Proof.
  induction buf as [buf IH] using (frames_ind max). rewrite frames_of_split.
  destruct (split_frame_limited buf max) as [[p|]|e] eqn:Hs; cbn [fst snd]; [|by intros [= <-]|done].
  intros H. rewrite (IH p eq_refl H) at 1. by rewrite drop_drop.
Qed.
End Split.

(** ** The owning frame buffer *)

Module Decoder.
Import Split.

Record FrameDecoder := {
  buf : list Z;
  start : nat;
  max_payload : Z;
  poisoned : option FrameTooLarge
}.

Definition with_max_payload (m : Z) : FrameDecoder :=
  {| buf := []; start := 0; max_payload := m; poisoned := None |}.
Definition new : FrameDecoder := with_max_payload MAX_FRAME_SIZE.
Definition is_poisoned (d : FrameDecoder) : bool := bool_decide (is_Some (poisoned d)).
Definition pending (d : FrameDecoder) : list Z := drop (start d) (buf d).

(** [push]: the unconsumed tail moves to the front once the consumed prefix
    is at least as long. *)
Definition push (d : FrameDecoder) (bytes : list Z) : FrameDecoder :=
  match poisoned d with
  | Some _ => d
  | None =>
    let remaining := (length (buf d) - start d)%nat in
    let '(b, s) :=
      if (0 <? start d)%nat && (remaining <=? start d)%nat
      then (take remaining (drop (start d) (buf d) ++ drop remaining (buf d)), 0%nat)
      else (buf d, start d) in
    {| buf := b ++ bytes; start := s; max_payload := max_payload d; poisoned := None |}
  end.

Definition next (d : FrameDecoder) : result (option (list Z)) FrameTooLarge * FrameDecoder :=
  match poisoned d with
  | Some e => (Err e, d)
  | None =>
    match split_frame_limited (drop (start d) (buf d)) (max_payload d) with
    | Ok (Some frame) =>
      let payload_start := (start d + PREFIX_LEN)%nat in
      let s := (start d + consumed frame)%nat in
      (Ok (Some (take (s - payload_start) (drop payload_start (buf d)))),
       {| buf := buf d; start := s; max_payload := max_payload d; poisoned := None |})
    | Ok None => (Ok None, d)
    | Err e => (Err e, {| buf := []; start := 0; max_payload := max_payload d; poisoned := Some e |})
    end
  end.

(** Calls on one decoder, in the order the receive loop makes them. *)
Inductive call := Push (bytes : list Z) | Next.

Fixpoint run (calls : list call) (d : FrameDecoder) : list (result (option (list Z)) FrameTooLarge) * FrameDecoder :=
  match calls with
  | [] => ([], d)
  | Push bs :: calls => run calls (push d bs)
  | Next :: calls => let '(r, d) := next d in let '(rs, d) := run calls d in (r :: rs, d)
  end.

Definition wf (d : FrameDecoder) : Prop := (start d <= length (buf d))%nat.

Lemma push_pending d bytes :
  wf d -> poisoned d = None -> wf (push d bytes) /\ pending (push d bytes) = pending d ++ bytes /\
  poisoned (push d bytes) = None /\ max_payload (push d bytes) = max_payload d.
Proof.
  unfold wf, push, pending. intros Hwf ->.
  destruct ((0 <? start d)%nat && (length (buf d) - start d <=? start d)%nat); cbn.
  - rewrite take_app_length' by (rewrite length_drop; lia). repeat split; lia.
  - rewrite drop_app_le, length_app by lia. repeat split; lia.
Qed.

Lemma push_poisoned d bytes e : poisoned d = Some e -> push d bytes = d.
Proof. unfold push. by intros ->. Qed.

(** The frames still to come, and how the stream then stands. *)
Definition left (d : FrameDecoder) : list (list Z) * tail :=
  match poisoned d with
  | Some e => ([], Oversize e)
  | None => frames_of (max_payload d) (pending d)
  end.

(** What more bytes make of a run of frames. *)
Definition extend (max : Z) (l : list (list Z) * tail) (more : list Z) : list (list Z) * tail :=
  match l.2 with
  | Partial rest => (l.1 ++ (frames_of max (rest ++ more)).1, (frames_of max (rest ++ more)).2)
  | Oversize _ => l
  end.

Lemma extend_frames max buf more : extend max (frames_of max buf) more = frames_of max (buf ++ more).
Proof. unfold extend. by rewrite frames_of_app. Qed.

Lemma extend_app max l a b : extend max l (a ++ b) = extend max (extend max l a) b.
Proof.
  destruct l as [fs [rest|e]]; [|done]. unfold extend at 1 3. cbn [fst snd].
  rewrite app_assoc, <- extend_frames. unfold extend. cbn [fst snd].
  destruct (frames_of max (rest ++ a)) as [gs [r|e]]; cbn [fst snd]; [by rewrite app_assoc|done].
Qed.

Lemma push_left d bytes : wf d -> wf (push d bytes) /\ max_payload (push d bytes) = max_payload d /\
  left (push d bytes) = extend (max_payload d) (left d) bytes.
Proof.
  intros Hwf. destruct (poisoned d) as [e|] eqn:Hp.
  - rewrite (push_poisoned d bytes e Hp). unfold left. by rewrite Hp.
  - destruct (push_pending d bytes Hwf Hp) as (Hwf' & Hpend & Hp' & Hm).
    split; [done|]. split; [done|]. unfold left. by rewrite Hp, Hp', Hpend, Hm, extend_frames.
Qed.

Lemma next_left d :
  wf d -> let '(r, d') := next d in
  wf d' /\ max_payload d' = max_payload d /\
  match r with
  | Ok (Some p) => left d = (p :: (left d').1, (left d').2)
  | Ok None => left d = ([], Partial (pending d)) /\ d' = d
  | Err e => left d = ([], Oversize e) /\ left d' = left d
  end.
Proof.
  unfold next, left, wf. intros Hwf. destruct (poisoned d) as [e|] eqn:Hp; [by rewrite Hp|].
  rewrite frames_of_split. fold (pending d).
  destruct (split_frame_limited (pending d) (max_payload d)) as [[p|]|e] eqn:Hs; [|done|by cbn].
  destruct (split_fits _ _ _ Hs) as (Hc & _ & Hpay). cbn -[consumed].
  assert (Heq : take (start d + consumed p - (start d + PREFIX_LEN)) (drop (start d + PREFIX_LEN) (buf d)) = p).
  { rewrite Hpay at 2. unfold pending. rewrite drop_drop. f_equal. unfold consumed. lia. }
  rewrite Heq. unfold pending in *. rewrite length_drop in Hc. split; [lia|]. split; [done|].
  cbn -[consumed]. by rewrite drop_drop.
Qed.

(** What every call must answer: with [out] frames handed out of all the bytes
    pushed so far, a [next] gives the frame after them if those bytes hold it
    whole, and otherwise says how the stream stands: nothing yet on a partial
    frame, the same error for good past an oversized prefix. *)
Definition standing (t : tail) : result (option (list Z)) FrameTooLarge :=
  match t with Partial _ => Ok None | Oversize e => Err e end.

Fixpoint expected (max : Z) (sofar : list Z) (out : nat) (calls : list call) : list (result (option (list Z)) FrameTooLarge) :=
  match calls with
  | [] => []
  | Push bs :: calls => expected max (sofar ++ bs) out calls
  | Next :: calls =>
    match (frames_of max sofar).1 !! out with
    | Some frame => Ok (Some frame) :: expected max sofar (S out) calls
    | None => standing (frames_of max sofar).2 :: expected max sofar out calls
    end
  end.

Lemma run_expected max calls : forall d sofar handed,
  wf d -> max_payload d = max -> frames_of max sofar = (handed ++ (left d).1, (left d).2) ->
  (run calls d).1 = expected max sofar (length handed) calls.
Proof.
  induction calls as [|[bs|] calls IH]; intros d sofar handed Hwf Hm Hf; cbn [run expected]; [done| |].
  - destruct (push_left d bs Hwf) as (Hw & Hm' & Hl). apply IH; [done|congruence|].
    rewrite Hl, Hm, <- extend_frames, Hf. unfold extend. destruct (left d) as [fs [rest|e]]; cbn [fst snd]; [by rewrite app_assoc|done].
  - pose proof (next_left d Hwf) as Hn. destruct (next d) as [r d1]. destruct Hn as (Hw1 & Hm1 & Hr). rewrite Hf. cbn [fst snd].
    destruct (run calls d1) as [rs d'] eqn:Er. cbn [fst].
    assert (Hrs : forall h, frames_of max sofar = (h ++ (left d1).1, (left d1).2) -> rs = expected max sofar (length h) calls).
    { intros h Hh. rewrite <- (IH d1 sofar h Hw1) by (done || congruence). by rewrite Er. }
    destruct r as [[p|]|e].
    + rewrite Hr in *. cbn [fst snd] in *. rewrite list_lookup_middle by done. f_equal.
      rewrite (Hrs (handed ++ [p])); [by rewrite length_app, Nat.add_comm|]. rewrite <- app_assoc. done.
    + destruct Hr as [Hr ->]. rewrite (Hrs handed Hf), Hr. cbn [fst snd]. rewrite app_nil_r, lookup_ge_None_2 by done. done.
    + destruct Hr as [Hr Hl]. rewrite (Hrs handed) by (by rewrite Hl). rewrite Hr. cbn [fst snd]. rewrite app_nil_r, lookup_ge_None_2 by done. done.
Qed.

(** A push never leaves the buffer past twice the bytes still to be read
    plus what it appends. *)
Lemma push_bounded d bytes :
  wf d -> poisoned d = None ->
  (length (buf (push d bytes)) <= 2 * length (pending d) + length bytes)%nat.
Proof.
  unfold wf, push, pending. intros Hwf ->.
  destruct ((0 <? start d)%nat && (length (buf d) - start d <=? start d)%nat) eqn:Hc; cbn.
  - rewrite length_app, length_take, length_app, !length_drop. lia.
  - rewrite length_app, length_drop. apply andb_false_iff in Hc as [Hc|Hc].
    + apply Nat.ltb_ge in Hc. lia.
    + apply Nat.leb_gt in Hc. lia.
Qed.

(** C31: [FrameDecoder], however the received bytes are split into pushes
    and however its callers interleave [push] and [next], answers every call
    as a decoder that keeps all the bytes would: each [next] hands out the next
    frame of everything pushed so far as soon as its last byte is in, in order
    and none twice, and otherwise reports how the stream stands, [None] on a
    partial frame, the declared length past an oversized prefix. *)
Theorem decoder_exact (max : Z) (calls : list call) :
  (run calls (with_max_payload max)).1 = expected max [] 0 calls.
Proof. apply (run_expected max calls (with_max_payload max) [] []); [unfold wf; cbn; lia|done|done]. Qed.
End Decoder.

(** ** Request frames *)

Module Request.
Import Split.

Definition TAG_LEN : nat := 1.
Definition REQUEST_ID_LEN : nat := 8.
Definition TAG_REQUEST : Z := 0x0B.
Definition REQUEST_TAG_AND_ID_LEN : nat := TAG_LEN + REQUEST_ID_LEN.
Definition REQUEST_HEADER_LEN : nat := PREFIX_LEN + REQUEST_TAG_AND_ID_LEN.
Definition MAX_REQUEST_BODY : Z := MAX_FRAME_SIZE - Z.of_nat REQUEST_TAG_AND_ID_LEN.
Definition ID_OFFSET : nat := TAG_LEN.

Definition request_tag_and_id (id : Z) : list Z := TAG_REQUEST :: le 8 id.

(** The ID after a payload's tag, if it is long enough. *)
Definition read_id (payload : list Z) : option Z :=
  if (ID_OFFSET + REQUEST_ID_LEN <=? length payload)%nat
  then Some (field ID_OFFSET REQUEST_ID_LEN payload) else None.

Inductive NotARequest := Empty | Tag (tag : Z) | TooShort (len : nat).

Definition split_request (payload : list Z) : result (Z * list Z) NotARequest :=
  match payload with
  | [] => Err Empty
  | tag :: _ =>
    if tag =? TAG_REQUEST then
      match read_id payload with
      | Some id => Ok (id, drop REQUEST_TAG_AND_ID_LEN payload)
      | None => Err (TooShort (length payload))
      end
    else Err (Tag tag)
  end.

Inductive RequestFrameError :=
| RequestTooLarge (len : Z)
| BufferTooSmall (needed available : Z).

(** The payload's length, as the [u32] of its prefix. *)
Definition request_payload_len (body_len : Z) : result Z RequestFrameError :=
  let len := sat_add (Z.of_nat REQUEST_TAG_AND_ID_LEN) body_len in
  if MAX_FRAME_SIZE <? len then Err (RequestTooLarge len) else Ok (len mod 2 ^ 32).

(** The region a body is encoded into: its offset is [REQUEST_HEADER_LEN],
    this its length. *)
Definition request_body (buf : list Z) : result nat RequestFrameError :=
  if (REQUEST_HEADER_LEN <=? length buf)%nat
  then Ok (Nat.min (length buf - REQUEST_HEADER_LEN) (Z.to_nat MAX_REQUEST_BODY))
  else Err (BufferTooSmall (Z.of_nat REQUEST_HEADER_LEN) (Z.of_nat (length buf))).

Definition seal_request (buf : list Z) (id body_len : Z) : result (nat * list Z) RequestFrameError :=
  payload_len <-? request_payload_len body_len ;;
  let frame_len := Z.of_nat REQUEST_HEADER_LEN + body_len in
  if frame_len <=? Z.of_nat (length buf) then
    Ok (Z.to_nat frame_len, le 4 payload_len ++ request_tag_and_id id ++ drop REQUEST_HEADER_LEN buf)
  else Err (BufferTooSmall frame_len (Z.of_nat (length buf))).

Section framing.
Context {X : Type} (from : RequestFrameError -> X).
(** An encoder rewrites the region it is lent and reports a length. *)
Context (encode : list Z -> list Z * result Z X).

(** [frame_request]: the buffer after the call, and the frame's length. *)
Definition frame_request (buf : list Z) (id : Z) : list Z * result nat X :=
  match request_body buf with
  | Err e => (buf, Err (from e))
  | Ok region =>
    let '(body, r) := encode (take region (drop REQUEST_HEADER_LEN buf)) in
    let buf := take REQUEST_HEADER_LEN buf ++ body ++ drop (REQUEST_HEADER_LEN + region) buf in
    match r with
    | Err e => (buf, Err e)
    | Ok body_len =>
      match seal_request buf id body_len with
      | Ok (n, buf) => (buf, Ok n)
      | Err e => (buf, Err (from e))
      end
    end
  end.

End framing.

Lemma split_request_tagged id body : in_u64 id -> split_request (request_tag_and_id id ++ body) = Ok (id, body).
Proof.
  intros Hid. unfold split_request, request_tag_and_id, read_id. cbn [app].
  rewrite Z.eqb_refl. cbn [length]. rewrite length_app, le_length.
  change (ID_OFFSET + REQUEST_ID_LEN)%nat with 9%nat. rewrite (proj2 (Nat.leb_le _ _)) by lia.
  do 2 f_equal.
  apply (field_app [TAG_REQUEST] body 1 8 id); [done|]. widths. lia.
Qed.

(** A parsed request is the tag, the ID and the body, and nothing else. *)
Lemma split_request_canonical payload id body :
  is_bytes payload -> split_request payload = Ok (id, body) ->
  in_u64 id /\ payload = request_tag_and_id id ++ body.
Proof.
  unfold split_request, read_id. intros Hb H. destruct payload as [|t p]; [done|].
  destruct (t =? TAG_REQUEST) eqn:Ht; [|done]. zb. subst t.
  destruct (ID_OFFSET + REQUEST_ID_LEN <=? length (TAG_REQUEST :: p))%nat eqn:Hl; [|done].
  apply Nat.leb_le in Hl. simplify_eq. cbn [length] in Hl.
  change (ID_OFFSET + REQUEST_ID_LEN)%nat with 9%nat in Hl.
  change (field ID_OFFSET REQUEST_ID_LEN (TAG_REQUEST :: p)) with (unle (take 8 p)).
  apply Forall_cons in Hb as [_ Hb]. assert (Ht : is_bytes (take 8 p)) by by apply is_bytes_take.
  assert (H8 : length (take 8 p) = 8%nat) by (rewrite length_take; lia). split.
  - apply unle_bound in Ht. rewrite H8 in Ht. change (256 ^ Z.of_nat 8) with 18446744073709551616 in Ht.
    widths. lia.
  - unfold request_tag_and_id. pose proof (le_unle _ Ht) as Hle. rewrite H8 in Hle. rewrite Hle.
    cbn [app]. f_equal. change (drop REQUEST_TAG_AND_ID_LEN (TAG_REQUEST :: p)) with (drop 8 p).
    by rewrite take_drop.
Qed.

Lemma payload_len_ok body_len len :
  0 <= body_len <= u64_max ->
  request_payload_len body_len = Ok len <-> body_len <= MAX_REQUEST_BODY /\ len = 9 + body_len.
Proof.
  unfold request_payload_len, sat_add, MAX_REQUEST_BODY, MAX_FRAME_SIZE.
  change (Z.of_nat REQUEST_TAG_AND_ID_LEN) with 9. widths. intros Hb.
  destruct (1024 <? Z.min (9 + body_len) (2 ^ 64 - 1)) eqn:Hm; zb.
  - split; [intros [=]|lia].
  - rewrite Z.mod_small by lia. split; [intros [= <-]; lia|]. intros [? ->]. f_equal. lia.
Qed.

(** Injectivity that leaves the pair's terms as they are. *)
Lemma ok_pair {A B E} (a a' : A) (b b' : B) : Ok (a, b) = Ok (a', b') :> result (A * B) E -> a = a' /\ b = b'.
Proof. by intros [=]. Qed.

(** A sealed buffer starts with one request frame. *)
Lemma seal_frames buf id body_len n buf' rest :
  0 <= body_len <= u64_max -> in_u64 id -> seal_request buf id body_len = Ok (n, buf') ->
  let body := take (Z.to_nat body_len) (drop REQUEST_HEADER_LEN buf) in
  n = (REQUEST_HEADER_LEN + length body)%nat /\ Z.of_nat (length body) = body_len /\ body_len <= MAX_REQUEST_BODY /\
  take n buf' = le 4 (9 + body_len) ++ request_tag_and_id id ++ body /\
  drop n buf' = drop n buf /\
  split_frame (take n buf' ++ rest) = Ok (Some (request_tag_and_id id ++ body)) /\
  drop (consumed (request_tag_and_id id ++ body)) (take n buf' ++ rest) = rest /\
  split_request (request_tag_and_id id ++ body) = Ok (id, body).
Proof.
  intros Hb Hid H. unfold seal_request in H.
  destruct (request_payload_len body_len) as [len|] eqn:Hp; [|done]. cbn [rbind] in H.
  apply payload_len_ok in Hp as [Hle ->]; [|done].
  destruct (Z.of_nat REQUEST_HEADER_LEN + body_len <=? Z.of_nat (length buf)) eqn:Hfit; [|done].
  zb. apply ok_pair in H as [<- <-]. cbn zeta. change (Z.of_nat REQUEST_HEADER_LEN) with 13 in *.
  set (body := take (Z.to_nat body_len) (drop REQUEST_HEADER_LEN buf)).
  assert (Hlen : Z.of_nat (length body) = body_len).
  { subst body. rewrite length_take, length_drop. unfold REQUEST_HEADER_LEN, REQUEST_TAG_AND_ID_LEN, PREFIX_LEN, TAG_LEN, REQUEST_ID_LEN. lia. }
  assert (Hh : length (le 4 (9 + body_len) ++ request_tag_and_id id) = 13%nat)
    by (rewrite length_app, le_length; cbn [length request_tag_and_id]; by rewrite le_length).
  assert (Htake : take (Z.to_nat (13 + body_len)) (le 4 (9 + body_len) ++ request_tag_and_id id ++ drop REQUEST_HEADER_LEN buf)
                  = le 4 (9 + body_len) ++ request_tag_and_id id ++ body).
  { rewrite !(app_assoc (le 4 _)), take_app_ge, Hh by (rewrite Hh; lia). f_equal.
    subst body. f_equal. lia. }
  assert (Hpl : Z.of_nat (length (request_tag_and_id id ++ body)) = 9 + body_len).
  { rewrite length_app. cbn [length request_tag_and_id]. rewrite le_length. lia. }
  unfold MAX_REQUEST_BODY, MAX_FRAME_SIZE in Hle. change (Z.of_nat REQUEST_TAG_AND_ID_LEN) with 9 in Hle.
  destruct (Delivery.frame_splits (request_tag_and_id id ++ body) rest MAX_FRAME_SIZE) as [Hs Hd].
  { rewrite Hpl. unfold MAX_FRAME_SIZE. widths. lia. }
  unfold Control.write_frame in Hs, Hd. rewrite Hpl in Hs, Hd.
  split; [unfold REQUEST_HEADER_LEN, REQUEST_TAG_AND_ID_LEN, PREFIX_LEN, TAG_LEN, REQUEST_ID_LEN; lia|].
  split; [done|]. split; [unfold MAX_REQUEST_BODY, MAX_FRAME_SIZE; change (Z.of_nat REQUEST_TAG_AND_ID_LEN) with 9; lia|].
  rewrite Htake. split; [done|]. split; [|split; [done|split; [done|by apply split_request_tagged]]].
  rewrite !(app_assoc (le 4 _)), drop_app_ge, Hh by (rewrite Hh; lia).
  rewrite drop_drop. f_equal. unfold REQUEST_HEADER_LEN, REQUEST_TAG_AND_ID_LEN, PREFIX_LEN, TAG_LEN, REQUEST_ID_LEN. lia.
Qed.

Section frame_request.
Context {X : Type} (from : RequestFrameError -> X) (encode : list Z -> list Z * result Z X).
Hypothesis encode_in_place : forall region, length (encode region).1 = length region.
Hypothesis encode_usize : forall region n, (encode region).2 = Ok n -> 0 <= n <= u64_max.

(** [frame_request] around any encoder, one that reports a wrong length
    included. On success the reported bytes are one frame, whatever the
    stream holds behind them, whose payload parses back to the request's ID
    and exactly the bytes the encoder left in its region; a length the frame
    limit or the region does not hold is an error. On any error the header
    is left as it was, so nothing half-framed can be sent. *)
Theorem frame_request_exact (buf : list Z) (id : Z) (rest : list Z) :
  in_u64 id ->
  match frame_request from encode buf id with
  | (buf', Ok n) => exists region body_len,
      request_body buf = Ok region /\
      let body := (encode (take region (drop REQUEST_HEADER_LEN buf))).1 in
      (encode (take region (drop REQUEST_HEADER_LEN buf))).2 = Ok body_len /\
      body_len <= Z.of_nat region /\ n = (REQUEST_HEADER_LEN + Z.to_nat body_len)%nat /\
      exists payload,
        split_frame (take n buf' ++ rest) = Ok (Some payload) /\
        drop (consumed payload) (take n buf' ++ rest) = rest /\
        split_request payload = Ok (id, take (Z.to_nat body_len) body) /\
        length buf' = length buf
  | (buf', Err _) => length buf' = length buf /\ take REQUEST_HEADER_LEN buf' = take REQUEST_HEADER_LEN buf
  end.
Proof using encode_in_place encode_usize.
  intros Hid. unfold frame_request.
  destruct (request_body buf) as [region|] eqn:Hr; [|done].
  unfold request_body in Hr. destruct (REQUEST_HEADER_LEN <=? length buf)%nat eqn:Hh; [|done].
  apply Nat.leb_le in Hh. injection Hr as Hr.
  set (lent := take region (drop REQUEST_HEADER_LEN buf)).
  pose proof (encode_in_place lent) as Hip. pose proof (encode_usize lent) as Hus.
  destruct (encode lent) as [body r] eqn:He. cbn [fst snd] in *.
  assert (Hl : length lent = region) by (subst lent; rewrite length_take, length_drop; lia).
  set (buf1 := take REQUEST_HEADER_LEN buf ++ body ++ drop (REQUEST_HEADER_LEN + region) buf).
  assert (Hlen1 : length buf1 = length buf).
  { subst buf1. rewrite !length_app, length_take, length_drop. lia. }
  assert (Hh1 : take REQUEST_HEADER_LEN buf1 = take REQUEST_HEADER_LEN buf).
  { subst buf1. rewrite take_app_length'; [done|]. rewrite length_take. lia. }
  assert (Hd1 : drop REQUEST_HEADER_LEN buf1 = body ++ drop (REQUEST_HEADER_LEN + region) buf).
  { subst buf1. apply drop_app_length'. rewrite length_take. lia. }
  destruct r as [body_len|]; [|done]. specialize (Hus _ eq_refl).
  destruct (seal_request buf1 id body_len) as [[n buf']|] eqn:Hs; [|done].
  destruct (seal_frames buf1 id body_len n buf' rest Hus Hid Hs) as (Hn & Hbl & Hmax & _ & Hdrop & Hsp & Hdr & Hreq).
  unfold seal_request in Hs. destruct (request_payload_len body_len) as [len|]; [|done]. cbn [rbind] in Hs.
  destruct (Z.of_nat REQUEST_HEADER_LEN + body_len <=? Z.of_nat (length buf1)) eqn:Hfit; [|done].
  apply ok_pair in Hs as [_ Hbuf']. zb.
  assert (Hreg : body_len <= Z.of_nat region) by (rewrite <- Hr; lia).
  assert (Hbody : take (Z.to_nat body_len) (drop REQUEST_HEADER_LEN buf1) = take (Z.to_nat body_len) body)
    by (rewrite Hd1, take_app_le; [done|lia]).
  exists region, body_len. fold lent. rewrite He. cbn [fst snd].
  split; [done|]. split; [done|]. split; [done|]. split; [lia|].
  exists (request_tag_and_id id ++ take (Z.to_nat body_len) (drop REQUEST_HEADER_LEN buf1)).
  split; [done|]. split; [done|]. split; [by rewrite Hreq, Hbody|].
  rewrite <- Hbuf', !length_app, le_length, length_drop. cbn [length request_tag_and_id]. rewrite le_length.
  unfold REQUEST_HEADER_LEN, REQUEST_TAG_AND_ID_LEN, PREFIX_LEN, TAG_LEN, REQUEST_ID_LEN in *. lia.
Qed.
End frame_request.
End Request.

(** ** Control frames *)

Module Reply.
Import Split Request.

Inductive ProtocolError := Truncated | UnknownTag (tag : Z) | InvalidField | MessageTooLarge (len : Z) | Io.

Definition CLIENT_PROTOCOL_VERSION : Z := 1.
Definition TAG_APP : Z := 0x09.
Definition TAG_RESPONSE_HEARTBEAT : Z := 0x01.
Definition TAG_BATCH_END : Z := 0x02.
Definition TAG_SERVER_BUSY : Z := 0x04.
Definition TAG_CHALLENGE : Z := 0x05.
Definition TAG_CHALLENGE_RESPONSE : Z := 0x06.
Definition TAG_AUTH_FAILED : Z := 0x07.
Definition TAG_SERVER_READY : Z := 0x08.
Definition TAG_BATCH_END_DEGRADED : Z := 0x0A.
Definition TAG_REFUSED : Z := 0x0C.

Definition CONTROL_TAGS : list Z :=
  [TAG_RESPONSE_HEARTBEAT; TAG_BATCH_END; TAG_SERVER_BUSY; TAG_CHALLENGE; TAG_CHALLENGE_RESPONSE;
   TAG_AUTH_FAILED; TAG_SERVER_READY; TAG_BATCH_END_DEGRADED; TAG_REQUEST; TAG_REFUSED].
Definition RETIRED_TAGS : list Z := [0x03].

(** *** The tag space *)

Inductive TagRule := AppTagOutOfRange | OutOfRange (tag : Z) | Duplicate (tag : Z) | IsAppTag (tag : Z).

Definition tag_at (control retired : list Z) (i : nat) : Z :=
  if (i <? length control)%nat then control !!! i else retired !!! (i - length control)%nat.

Definition bad_range (tag : Z) : bool := (tag =? 0) || (0x10 <=? tag).

(** The rule entry [i] breaks, if any. *)
Definition violation_at (control retired : list Z) (app : Z) (i : nat) : option TagRule :=
  let total := (length control + length retired)%nat in
  let tag := tag_at control retired i in
  if bad_range tag then Some (OutOfRange tag)
  else if tag =? app then Some (IsAppTag tag)
  else if existsb (fun j => tag_at control retired j =? tag) (seq (S i) (total - S i))
  then Some (Duplicate tag) else None.

Definition tag_rule_violation (control retired : list Z) (app : Z) : option TagRule :=
  if bad_range app then Some AppTagOutOfRange
  else head (omap (violation_at control retired app) (seq 0 (length control + length retired))).

(** *** Replies *)

Definition MAX_REFUSAL_REASON : nat := 255.

Inductive RefusalKind := PermissionDenied | Malformed.
#[export] Instance RefusalKind_eq_dec : EqDecision RefusalKind.
Proof. solve_decision. Defined.

Definition to_byte (k : RefusalKind) : Z := match k with PermissionDenied => 1 | Malformed => 2 end.
Definition from_byte (b : Z) : option RefusalKind :=
  if b =? 1 then Some PermissionDenied else if b =? 2 then Some Malformed else None.

Inductive TransportResponse :=
| Heartbeat
| BatchEnd (id : Z)
| BatchEndDegraded (id : Z)
| ServerBusy (id : Z)
| Refused (id : Z) (kind : RefusalKind) (reason : list Z)
| Challenge (nonce : list Z)
| AuthFailed
| ServerReady.

Record ChallengeResponse := { signature : list Z; public_key : list Z }.

(** *** UTF-8, as [core::str] checks it *)

Definition between (lo hi b : Z) : bool := (lo <=? b) && (b <=? hi).
Definition cont (b : Z) : bool := between 0x80 0xBF b.

(** The length of the well-formed character at the front, if there is one. *)
Definition char_len (bs : list Z) : option nat :=
  match bs with
  | a :: bs =>
    if between 0 0x7F a then Some 1%nat
    else match bs with
    | b :: bs =>
      if between 0xC2 0xDF a && cont b then Some 2%nat
      else match bs with
      | c :: bs =>
        if ((a =? 0xE0) && between 0xA0 0xBF b || between 0xE1 0xEC a && cont b
            || (a =? 0xED) && between 0x80 0x9F b || between 0xEE 0xEF a && cont b) && cont c
        then Some 3%nat
        else match bs with
        | d :: _ =>
          if ((a =? 0xF0) && between 0x90 0xBF b || between 0xF1 0xF3 a && cont b
              || (a =? 0xF4) && between 0x80 0x8F b) && cont c && cont d
          then Some 4%nat else None
        | [] => None
        end
      | [] => None
      end
    | [] => None
    end
  | [] => None
  end.

Fixpoint utf8_fuel (fuel : nat) (bs : list Z) : bool :=
  match bs with
  | [] => true
  | _ =>
    match fuel, char_len bs with
    | S fuel, Some n => utf8_fuel fuel (drop n bs)
    | _, _ => false
    end
  end.
Definition from_utf8 (bs : list Z) : bool := utf8_fuel (length bs) bs.

(** [str::is_char_boundary]: an end, or a byte that continues no character. *)
Definition is_char_boundary (bs : list Z) (i : nat) : bool :=
  (i =? 0)%nat || match bs !! i with Some b => negb (cont b) | None => (i =? length bs)%nat end.

Fixpoint walk_back (bs : list Z) (fin : nat) : nat :=
  if is_char_boundary bs fin then fin else match fin with O => O | S n => walk_back bs n end.

Definition truncate_reason (reason : list Z) : list Z :=
  if (length reason <=? MAX_REFUSAL_REASON)%nat then reason
  else take (walk_back reason MAX_REFUSAL_REASON) reason.

(** *** Encoding *)

Definition CHALLENGE_VERSION_LEN : nat := 2.
Definition CHALLENGE_NONCE_LEN : nat := 32.
Definition CHALLENGE_LEN : nat := TAG_LEN + CHALLENGE_VERSION_LEN + CHALLENGE_NONCE_LEN.
Definition CHALLENGE_V0_LEN : nat := TAG_LEN + CHALLENGE_NONCE_LEN.
Definition CHALLENGE_RESPONSE_LEN : nat := TAG_LEN + 64 + 32.
Definition BATCH_END_FRAME_LEN : nat := PREFIX_LEN + TAG_LEN + REQUEST_ID_LEN.
Definition MAX_CONTROL_FRAME_LEN : nat := PREFIX_LEN + TAG_LEN + REQUEST_ID_LEN + 2 + MAX_REFUSAL_REASON.

Definition body_len (r : TransportResponse) : nat :=
  match r with
  | Heartbeat | AuthFailed | ServerReady => 0
  | BatchEnd _ | BatchEndDegraded _ | ServerBusy _ => REQUEST_ID_LEN
  | Refused _ _ reason => REQUEST_ID_LEN + 2 + length (truncate_reason reason)
  | Challenge _ => CHALLENGE_VERSION_LEN + CHALLENGE_NONCE_LEN
  end.

Definition tag_and_id (r : TransportResponse) : Z * option Z :=
  match r with
  | Heartbeat => (TAG_RESPONSE_HEARTBEAT, None)
  | BatchEnd id => (TAG_BATCH_END, Some id)
  | BatchEndDegraded id => (TAG_BATCH_END_DEGRADED, Some id)
  | ServerBusy id => (TAG_SERVER_BUSY, Some id)
  | Refused id _ _ => (TAG_REFUSED, Some id)
  | Challenge _ => (TAG_CHALLENGE, None)
  | AuthFailed => (TAG_AUTH_FAILED, None)
  | ServerReady => (TAG_SERVER_READY, None)
  end.

(** The payload: tag, ID, and what the variant adds. *)
Definition response_payload (r : TransportResponse) : list Z :=
  let '(tag, id) := tag_and_id r in
  tag :: match id with Some id => le 8 id | None => [] end ++
  match r with
  | Refused _ kind reason =>
      to_byte kind :: Z.of_nat (length (truncate_reason reason)) mod 256 :: truncate_reason reason
  | Challenge nonce => le 2 CLIENT_PROTOCOL_VERSION ++ nonce
  | _ => []
  end.

(** The frame written at the front of a buffer of [buf_len] bytes. *)
Definition encode_transport_response (r : TransportResponse) (buf_len : nat) : result (list Z) ProtocolError :=
  if (PREFIX_LEN + TAG_LEN + body_len r <=? buf_len)%nat
  then Ok (le 4 (Z.of_nat (TAG_LEN + body_len r)) ++ response_payload r)
  else Err Truncated.

Definition write_terminal_id (frame : list Z) (id : Z) : list Z := take (PREFIX_LEN + ID_OFFSET) frame ++ le 8 id.

Definition terminal_request_id (payload : list Z) : option Z :=
  match payload with
  | [] => None
  | tag :: _ =>
    if (tag =? TAG_BATCH_END) || (tag =? TAG_BATCH_END_DEGRADED) || (tag =? TAG_SERVER_BUSY) || (tag =? TAG_REFUSED)
    then read_id payload else None
  end.

(** *** Decoding *)

Record RefusedFields := { r_id : Z; r_kind : RefusalKind; r_reason : list Z }.

Inductive BadRefusal :=
| RefusalTruncated
| UnknownKind (kind : Z)
| ReasonLength (declared available : Z)
| ReasonNotUtf8.

Definition decode_refused (payload : list Z) : result RefusedFields BadRefusal :=
  match read_id payload with
  | None => Err RefusalTruncated
  | Some id =>
    match drop (ID_OFFSET + REQUEST_ID_LEN) payload with
    | kind :: len :: reason =>
      match from_byte kind with
      | None => Err (UnknownKind kind)
      | Some k =>
        if Z.of_nat (length reason) =? len then
          if from_utf8 reason then Ok {| r_id := id; r_kind := k; r_reason := reason |} else Err ReasonNotUtf8
        else Err (ReasonLength len (Z.of_nat (length reason)))
      end
    | _ => Err RefusalTruncated
    end
  end.

Inductive BadChallenge := NotAChallenge (len : nat) (tag : option Z) | Version (node : Z).

Definition decode_challenge (payload : list Z) : result (list Z) BadChallenge :=
  let not_a_challenge := NotAChallenge (length payload) (head payload) in
  match payload with
  | tag :: rest =>
    if tag =? TAG_CHALLENGE then
      if (length payload =? CHALLENGE_V0_LEN)%nat then Err (Version 0)
      else if (length payload =? CHALLENGE_LEN)%nat then
        let version := unle (take CHALLENGE_VERSION_LEN rest) in
        if version =? CLIENT_PROTOCOL_VERSION then Ok (drop CHALLENGE_VERSION_LEN rest) else Err (Version version)
      else Err not_a_challenge
    else Err not_a_challenge
  | [] => Err not_a_challenge
  end.

Definition encode_challenge_response (r : ChallengeResponse) (buf_len : nat) : result (list Z) ProtocolError :=
  if (buf_len <? CHALLENGE_RESPONSE_LEN)%nat then Err Truncated
  else Ok (TAG_CHALLENGE_RESPONSE :: signature r ++ public_key r).

Definition decode_challenge_response (buf : list Z) : result ChallengeResponse ProtocolError :=
  if (length buf <? CHALLENGE_RESPONSE_LEN)%nat then Err Truncated
  else
    let tag := buf !!! 0%nat in
    if tag =? TAG_CHALLENGE_RESPONSE
    then Ok {| signature := take 64 (drop 1 buf); public_key := take 32 (drop 65 buf) |}
    else Err (UnknownTag tag).

(** *** The tag space, as a proposition *)

Definition tag_ok (tag : Z) : Prop := 0 < tag < 0x10.

Lemma bad_range_false tag : 0 <= tag -> bad_range tag = false <-> tag_ok tag.
Proof. unfold bad_range, tag_ok. zb. lia. Qed.

Lemma tag_at_lookup control retired i :
  (i < length control + length retired)%nat ->
  (control ++ retired) !! i = Some (tag_at control retired i).
Proof.
  intros Hi. unfold tag_at. destruct (i <? length control)%nat eqn:Hc.
  - apply Nat.ltb_lt in Hc. rewrite lookup_app_l by done. by apply list_lookup_lookup_total_lt.
  - apply Nat.ltb_ge in Hc. rewrite lookup_app_r by done. apply list_lookup_lookup_total_lt. lia.
Qed.

Lemma head_omap_none {A B} (f : A -> option B) xs : head (omap f xs) = None <-> forall x, x ∈ xs -> f x = None.
Proof.
  induction xs as [|x xs IH]; [split; [intros _ x H; by apply elem_of_nil in H|done]|].
  cbn. destruct (f x) eqn:Hf.
  - split; [done|]. intros H. specialize (H x). rewrite Hf in H. discriminate H. apply list_elem_of_here.
  - rewrite IH. split; intros H y Hy; [|apply H; by apply list_elem_of_further].
    apply elem_of_cons in Hy as [->|Hy]; eauto.
Qed.

(** What keeps an entry from breaking a rule. *)
Lemma violation_at_none control retired app i :
  Forall in_u8 (control ++ retired) -> (i < length control + length retired)%nat ->
  violation_at control retired app i = None <->
  tag_ok (tag_at control retired i) /\ tag_at control retired i <> app /\
  forall j, (i < j < length control + length retired)%nat -> tag_at control retired j <> tag_at control retired i.
Proof.
  intros Hb Hi. unfold violation_at.
  pose proof (Forall_lookup_1 _ _ _ _ Hb (tag_at_lookup control retired i Hi)) as [Hz _].
  destruct (bad_range _) eqn:Hr.
  { split; [done|]. intros (Hok & _). apply bad_range_false in Hok; [congruence|done]. }
  apply bad_range_false in Hr; [|done].
  destruct (tag_at control retired i =? app) eqn:He; zb; [split; [done|by intros (_ & ? & _)]|].
  destruct (existsb _ _) eqn:Hx.
  - split; [done|]. intros (_ & _ & Hd). apply existsb_exists in Hx as (j & Hj & Heq).
    apply in_seq in Hj. zb. apply (Hd j) in Heq; [done|lia].
  - split; [|done]. intros _. split; [done|]. split; [done|]. intros j Hj Heq.
    apply not_true_iff_false in Hx. apply Hx, existsb_exists. exists j. split; [apply in_seq; lia|by apply Z.eqb_eq].
Qed.

(** C36: [tag_rule_violation] is silent exactly when the tags obey every rule
    of the tag space: the application's tag and every control and retired
    tag lie in [1..0x0F], none of them is the application's, and no two are
    equal; and the protocol's own tags are such a set, so no frame of one
    kind, retired ones included, can be read as another. *)
Theorem tag_space_rules (control retired : list Z) (app : Z) :
  Forall in_u8 (app :: control ++ retired) ->
  (tag_rule_violation control retired app = None <->
   Forall tag_ok (app :: control ++ retired) /\ NoDup (app :: control ++ retired)) /\
  tag_rule_violation CONTROL_TAGS RETIRED_TAGS TAG_APP = None.
Proof.
  intros Hb. split; [|by vm_compute]. apply Forall_cons in Hb as [Ha Hb].
  rewrite Forall_cons, NoDup_cons. unfold tag_rule_violation.
  destruct (bad_range app) eqn:Happ.
  { split; [done|]. intros [[Hok _] _]. apply bad_range_false in Hok; [congruence|by destruct Ha]. }
  apply bad_range_false in Happ; [|by destruct Ha]. rewrite head_omap_none.
  setoid_rewrite elem_of_seq.
  assert (Hat := fun i Hi => violation_at_none control retired app i Hb Hi).
  split.
  - intros H. split; [split; [done|]|split].
    + apply Forall_lookup_2. intros i x Hx. pose proof (lookup_lt_Some _ _ _ Hx) as Hi. rewrite length_app in Hi.
      rewrite (tag_at_lookup _ _ _ Hi) in Hx. injection Hx as <-. by apply Hat, H; lia.
    + intros Hin. apply list_elem_of_lookup in Hin as (i & Hx). pose proof (lookup_lt_Some _ _ _ Hx) as Hi. rewrite length_app in Hi.
      rewrite (tag_at_lookup _ _ _ Hi) in Hx. injection Hx as Hx. apply (Hat i Hi) in Hx; [done|apply H; lia].
    + apply NoDup_alt. intros i j x Hx Hy. pose proof (lookup_lt_Some _ _ _ Hx) as Hi. pose proof (lookup_lt_Some _ _ _ Hy) as Hj.
      rewrite length_app in Hi, Hj. rewrite tag_at_lookup in Hx, Hy by done. simplify_eq.
      destruct (Nat.lt_trichotomy i j) as [Hlt|[->|Hlt]]; [|done|]; exfalso.
      * destruct (proj1 (Hat i Hi) (H i ltac:(lia))) as (_ & _ & Hd). apply (Hd j); [lia|congruence].
      * destruct (proj1 (Hat j Hj) (H j ltac:(lia))) as (_ & _ & Hd). apply (Hd i); [lia|congruence].
  - intros [[_ Hok] [Hfree Hnd]] i Hi. assert (Hi' : (i < length control + length retired)%nat) by lia.
    pose proof (tag_at_lookup _ _ _ Hi') as Hx. apply Hat; [done|]. split; [by eapply Forall_lookup_1|]. split.
    + intros Heq. apply Hfree. rewrite <- Heq. by eapply list_elem_of_lookup_2.
    + intros j Hj Heq. pose proof (tag_at_lookup control retired j ltac:(lia)) as Hy. rewrite Heq in Hy.
      pose proof (NoDup_lookup _ _ _ _ Hnd Hx Hy). lia.
Qed.

(** *** Cutting a string on a character boundary *)

Lemma char_len_spec bs n :
  char_len bs = Some n ->
  (1 <= n <= 4)%nat /\ (n <= length bs)%nat /\
  (forall k, (1 <= k < n)%nat -> exists b, bs !! k = Some b /\ cont b = true) /\
  (forall m, (n <= m)%nat -> char_len (take m bs) = Some n).
Proof.
  assert (Hcont : forall lo hi b, 0x80 <= lo -> hi <= 0xBF -> between lo hi b = true -> cont b = true).
  { unfold cont, between. intros. zb. lia. }
  destruct bs as [|a [|b [|c [|d bs]]]]; cbn [char_len]; intros H; repeat brk; simplify_eq; cbn [length];
    (split; [lia|]); (split; [lia|]); split.
  all: try (intros m Hm; do 4 (destruct m as [|m]; [lia|]; try lia); cbn [take char_len];
    repeat match goal with Hx : ?b = _ |- context [if ?b then _ else _] => rewrite Hx end; done).
  all: try (intros m Hm; destruct m as [|[|[|[|m]]]]; try lia; cbn [take char_len];
    repeat match goal with Hx : ?b = _ |- context [if ?b then _ else _] => rewrite Hx end; done).
  all: intros k Hk; destruct k as [|[|[|[|k]]]]; try lia; cbn [lookup list_lookup]; eexists; (split; [reflexivity|]);
    zb; destruct_and?; try done; repeat match goal with H : _ \/ _ |- _ => destruct H end; destruct_and?;
    try done; eapply Hcont; try eassumption; lia.
Qed.

Inductive chars : list Z -> Prop :=
| chars_nil : chars []
| chars_step bs n : char_len bs = Some n -> chars (drop n bs) -> chars bs.

Lemma from_utf8_chars bs : from_utf8 bs = true <-> chars bs.
Proof.
  unfold from_utf8. enough (Hf : forall fuel bs, (length bs <= fuel)%nat -> utf8_fuel fuel bs = true <-> chars bs) by by apply Hf.
  clear bs. induction fuel as [|fuel IH]; intros [|a bs] Hl; cbn [length] in Hl; try lia; cbn [utf8_fuel].
  1, 2: by split; [constructor|].
  destruct (char_len (a :: bs)) as [n|] eqn:Hc.
  - destruct (char_len_spec _ _ Hc) as (Hn & Hle & _). rewrite IH by (rewrite length_drop; cbn [length] in *; lia).
    split; [by econstructor|]. inversion 1; simplify_eq. congruence.
  - split; [done|]. inversion 1. congruence.
Qed.

Lemma chars_take bs i : chars bs -> (i <= length bs)%nat -> is_char_boundary bs i = true -> chars (take i bs).
Proof.
  intros H. revert i. induction H as [|bs n Hc _ IH]; intros i Hi Hb; [by destruct i; constructor|].
  destruct (char_len_spec _ _ Hc) as (Hn & Hle & Hin & Htake).
  destruct i as [|i]; [constructor|]. destruct (decide (S i < n)%nat) as [Hlt|Hge].
  - exfalso. destruct (Hin (S i)) as (b & Hl & Hcb); [lia|]. unfold is_char_boundary in Hb. rewrite Hl, Hcb in Hb. done.
  - apply (chars_step _ n); [apply Htake; lia|]. rewrite skipn_firstn_comm. apply IH; [rewrite length_drop; lia|].
    unfold is_char_boundary in *. rewrite lookup_drop. replace (n + (S i - n))%nat with (S i) by lia.
    rewrite (proj2 (Nat.eqb_neq (S i) 0)), orb_false_l in Hb by lia. destruct (bs !! S i); [rewrite Hb; apply orb_true_r|].
    apply Nat.eqb_eq in Hb. rewrite length_drop. apply orb_true_iff. right. apply Nat.eqb_eq. lia.
Qed.

Lemma walk_back_spec bs fin :
  (walk_back bs fin <= fin)%nat /\ is_char_boundary bs (walk_back bs fin) = true.
Proof.
  induction fin as [|n IH]; cbn [walk_back].
  - done.
  - destruct (is_char_boundary bs (S n)) eqn:Hb; [done|]. destruct IH. split; [lia|done].
Qed.

(** A reason as it is sent: a prefix of what was given, at most 255 bytes,
    still UTF-8; the whole of it when it fits. *)
Lemma truncate_reason_spec reason :
  from_utf8 reason = true ->
  from_utf8 (truncate_reason reason) = true /\ (length (truncate_reason reason) <= MAX_REFUSAL_REASON)%nat /\
  truncate_reason reason `prefix_of` reason /\
  ((length reason <= MAX_REFUSAL_REASON)%nat -> truncate_reason reason = reason).
Proof.
  unfold truncate_reason. intros Hu. destruct (length reason <=? MAX_REFUSAL_REASON)%nat eqn:Hl.
  - apply Nat.leb_le in Hl. done.
  - apply Nat.leb_gt in Hl. destruct (walk_back_spec reason MAX_REFUSAL_REASON) as [Hw Hb].
    rewrite from_utf8_chars in *. split; [apply chars_take; [done|lia|done]|].
    rewrite length_take. split; [lia|]. split; [apply prefix_take|lia].
Qed.

(** *** Every control frame reads back *)

Definition response_ok (r : TransportResponse) : Prop :=
  match r with
  | BatchEnd id | BatchEndDegraded id | ServerBusy id => in_u64 id
  | Refused id _ reason => in_u64 id /\ from_utf8 reason = true
  | Challenge nonce => length nonce = CHALLENGE_NONCE_LEN
  | _ => True
  end.

Lemma read_id_after tag id rest : in_u64 id -> read_id (tag :: le 8 id ++ rest) = Some id.
Proof.
  intros Hid. unfold read_id. cbn [length]. rewrite length_app, le_length.
  change (ID_OFFSET + REQUEST_ID_LEN)%nat with 9%nat. rewrite (proj2 (Nat.leb_le _ _)) by lia.
  f_equal. apply (field_app [tag] rest 1 8 id); [done|]. widths. lia.
Qed.

Lemma response_payload_len r :
  response_ok r -> length (response_payload r) = (TAG_LEN + body_len r)%nat /\ (body_len r <= 265)%nat.
Proof.
  destruct r; cbn [response_ok response_payload tag_and_id body_len app length];
    unfold REQUEST_ID_LEN, TAG_LEN, CHALLENGE_VERSION_LEN, CHALLENGE_NONCE_LEN;
    rewrite ?app_nil_r, ?length_app, ?le_length; try (intros; lia).
  intros [_ Hu]. destruct (truncate_reason_spec _ Hu) as (_ & Hl & _). unfold MAX_REFUSAL_REASON in Hl. cbn [length]. lia.
Qed.

Lemma decode_refused_payload id kind reason :
  in_u64 id -> from_utf8 reason = true ->
  decode_refused (response_payload (Refused id kind reason)) =
  Ok {| r_id := id; r_kind := kind; r_reason := truncate_reason reason |}.
Proof.
  intros Hid Hu. destruct (truncate_reason_spec _ Hu) as (Hu' & Hl & _). unfold MAX_REFUSAL_REASON in Hl.
  unfold decode_refused, response_payload. cbn [tag_and_id]. rewrite read_id_after by done.
  cbn [ID_OFFSET REQUEST_ID_LEN TAG_LEN Nat.add drop]. rewrite drop_app_length' by by rewrite le_length. rewrite Z.mod_small by lia. rewrite Z.eqb_refl, Hu'.
  by destruct kind.
Qed.

(** Every frame the node encodes is one frame of exactly the bytes it
    reported, within [MAX_CONTROL_FRAME_LEN], and reads back as what was
    sent whatever follows it: the request a final frame names, and only a
    final frame names one; a refusal's ID, kind and reason, the reason cut
    to 255 bytes on a character boundary; a challenge's nonce. A buffer too
    short for the frame is an error. *)
Theorem control_frames_read_back (r : TransportResponse) (buf_len : nat) (rest : list Z) :
  response_ok r ->
  match encode_transport_response r buf_len with
  | Err e => e = Truncated /\ (buf_len < PREFIX_LEN + TAG_LEN + body_len r)%nat
  | Ok frame => exists payload,
      (length frame <= MAX_CONTROL_FRAME_LEN)%nat /\ (length frame <= buf_len)%nat /\
      split_frame (frame ++ rest) = Ok (Some payload) /\ drop (consumed payload) (frame ++ rest) = rest /\
      terminal_request_id payload = snd (tag_and_id r) /\
      match r with
      | Refused id kind reason => exists cut, cut `prefix_of` reason /\
          ((length reason <= MAX_REFUSAL_REASON)%nat -> cut = reason) /\
          decode_refused payload = Ok {| r_id := id; r_kind := kind; r_reason := cut |}
      | Challenge nonce => decode_challenge payload = Ok nonce
      | _ => head payload = Some (fst (tag_and_id r))
      end
  end.
Proof.
  intros Hok. destruct (response_payload_len r Hok) as [Hlen Hb]. unfold encode_transport_response.
  destruct (PREFIX_LEN + TAG_LEN + body_len r <=? buf_len)%nat eqn:Hfit.
  2: { apply Nat.leb_gt in Hfit. done. }
  apply Nat.leb_le in Hfit. exists (response_payload r).
  destruct (Delivery.frame_splits (response_payload r) rest MAX_FRAME_SIZE) as [Hs Hd].
  { rewrite Hlen. unfold MAX_FRAME_SIZE, TAG_LEN. widths. lia. }
  unfold Control.write_frame in Hs, Hd. rewrite Hlen in Hs, Hd.
  rewrite length_app, le_length, Hlen. unfold MAX_CONTROL_FRAME_LEN, MAX_REFUSAL_REASON, REQUEST_ID_LEN, PREFIX_LEN, TAG_LEN in *.
  split; [lia|]. split; [lia|]. split; [exact Hs|]. split; [exact Hd|].
  destruct r; cbn [tag_and_id snd fst] in *; try (split; [|done]; unfold terminal_request_id, response_payload;
    cbn [tag_and_id]; try apply read_id_after; done).
  - destruct Hok as [Hid Hu]. split; [by apply read_id_after|]. exists (truncate_reason reason).
    destruct (truncate_reason_spec _ Hu) as (_ & _ & Hpre & Hw). split; [done|]. split; [done|].
    by apply decode_refused_payload.
  - split; [done|]. unfold decode_challenge, response_payload. cbn [tag_and_id app].
    change (TAG_CHALLENGE =? TAG_CHALLENGE) with true. cbn [length]. rewrite length_app, le_length.
    cbn [response_ok] in Hok. rewrite Hok. cbn [Nat.eqb Nat.add CHALLENGE_V0_LEN CHALLENGE_LEN TAG_LEN CHALLENGE_NONCE_LEN CHALLENGE_VERSION_LEN].
    done.
Qed.

(** The handshake's answer reads back, and only a buffer too short is refused. *)
Lemma challenge_response_reads_back r buf_len frame :
  length (signature r) = 64%nat -> length (public_key r) = 32%nat ->
  encode_challenge_response r buf_len = Ok frame -> decode_challenge_response frame = Ok r.
Proof.
  unfold encode_challenge_response, decode_challenge_response. intros Hs Hp H.
  destruct (buf_len <? CHALLENGE_RESPONSE_LEN)%nat; [done|]. injection H as <-.
  rewrite (proj2 (Nat.ltb_ge _ _)).
  2: { cbn [length]. rewrite length_app, Hs, Hp. done. }
  cbn [lookup_total list_lookup_total]. rewrite Z.eqb_refl. destruct r as [sig pk]. cbn [signature public_key] in *.
  do 2 f_equal; cbn [drop].
  - by apply take_app_length'.
  - rewrite drop_app_length' by done. by apply take_ge; lia.
Qed.
End Reply.

(** ** A refusal and a clash of tags *)

Module Sample.
Import Reply Split.

(** The application's tag and a control tag are equal. *)
Lemma tag_space_rules_witness :
  tag_rule_violation [3; 4] [5] 3 <> None /\ ~ (Forall tag_ok [3; 3; 4; 5] /\ NoDup [3; 3; 4; 5]) /\
  tag_rule_violation CONTROL_TAGS RETIRED_TAGS TAG_APP = None.
Proof.
  assert (Hb : Forall in_u8 (3 :: [3; 4] ++ [5])) by (cbn [app]; repeat constructor; by vm_compute).
  destruct (tag_space_rules [3; 4] [5] 3 Hb) as [Hiff Hown]. split; [by vm_compute|]. split; [|exact Hown].
  intros Hok. apply Hiff in Hok. vm_compute in Hok. discriminate Hok.
Defined.

Definition no_room : TransportResponse := Refused 12 PermissionDenied [110; 111].

Lemma control_frames_read_back_witness :
  match encode_transport_response no_room 64 with
  | Err _ => False
  | Ok frame => exists payload, split_frame (frame ++ [7]) = Ok (Some payload) /\ terminal_request_id payload = Some 12
  end.
Proof.
  pose proof (control_frames_read_back no_room 64 [7]) as H. destruct (encode_transport_response no_room 64) as [frame|e] eqn:He.
  - destruct H as (payload & _ & _ & Hs & _ & Ht & _); [split; [by vm_compute|reflexivity]|]. exists payload. by split.
  - discriminate He.
Defined.
End Sample.
