(* ===== verification/Ingress.v ===== *)
(** * Client requests on their way in

    [Early] is the answers a reader decides on its own
    ([server-runtime/src/early_reply.rs]); [Frames] the processing of one
    connection's bytes ([server-runtime/src/client_frames.rs]): every complete
    frame is published to the input ring or answered early, a request that
    finds the ring full is shed with everything buffered behind it, and an
    answer with nowhere to go parks the connection. The ring and the
    early-reply queue are taken by their interface, a push that has room or
    not: what each attempt meets is a script the theorems quantify over, and
    what each one stores is kept in the order it was done. *)

From stdpp Require Import gmap.
From S2P Require Import Prelude Cursors Lineage Codec Protocol Presence Stages ClientWire.
Import Protocol.Framing ClientWire.Split ClientWire.Request.
Import Stages.Journaling(InputSlot, client).
Import Presence.Halt(RejectReason, Verdict, Take, Refuse, Close).

Module Early.
Import ClientWire.Reply(RefusalKind, PermissionDenied, Malformed).

Definition EARLY_REPLY_QUEUE_CAPACITY : Z := 4096.

Inductive EarlyKind (R : Type) :=
| Rejected (report : R)
| Filtered
| Refused (kind : RefusalKind) (reason : list Z)
| Busy.
Arguments Rejected {R} report.
Arguments Filtered {R}.
Arguments Refused {R} kind reason.
Arguments Busy {R}.

Record EarlyReply (R : Type) := { er_connection_id : Z; er_request_id : Z; er_kind : EarlyKind R }.
Arguments Build_EarlyReply {R} er_connection_id er_request_id er_kind.
Arguments er_connection_id {R} e.
Arguments er_request_id {R} e.
Arguments er_kind {R} e.

Definition is_busy {R} (k : EarlyKind R) : bool := match k with Busy => true | _ => false end.

(** What one receive answered early, and the counters it is added to. *)
Record IngressTally := { shed : Z; filtered : Z; denied : Z; malformed : Z }.
Definition no_tally : IngressTally := {| shed := 0; filtered := 0; denied := 0; malformed := 0 |}.

Definition count_shed (t : IngressTally) : IngressTally :=
  {| shed := shed t + 1; filtered := filtered t; denied := denied t; malformed := malformed t |}.
Definition count_filtered (t : IngressTally) : IngressTally :=
  {| shed := shed t; filtered := filtered t + 1; denied := denied t; malformed := malformed t |}.
Definition count_refused (t : IngressTally) (k : RefusalKind) : IngressTally :=
  match k with
  | PermissionDenied => {| shed := shed t; filtered := filtered t; denied := denied t + 1; malformed := malformed t |}
  | Malformed => {| shed := shed t; filtered := filtered t; denied := denied t; malformed := malformed t + 1 |}
  end.

Definition refused_as (t : IngressTally) (k : RefusalKind) : Z :=
  match k with PermissionDenied => denied t | Malformed => malformed t end.

(** [IngressMetrics::record]: atomic adds, which wrap. *)
Definition record_tally (m t : IngressTally) : IngressTally :=
  {| shed := wrapping_add (shed m) (shed t); filtered := wrapping_add (filtered m) (filtered t);
     denied := wrapping_add (denied m) (denied t); malformed := wrapping_add (malformed m) (malformed t) |}.
End Early.

Module Frames.
Import Early ClientWire.Reply(RefusalKind, PermissionDenied, Malformed).

(** ** The application's decoder, with its role type erased *)

Inductive Decoded (E : Type) :=
| Filter
| Permitted (event : E)
| PermissionDeniedFor (reason : list Z)
| DecodeError (reason : list Z).
Arguments Filter {E}.
Arguments Permitted {E} event.
Arguments PermissionDeniedFor {E} reason.
Arguments DecodeError {E} reason.

Inductive ClientRole (R : Type) := Operator | AppRole (r : R).
Arguments Operator {R}.
Arguments AppRole {R} r.

(** The reason text is the decoder's own; only its bytes travel. *)
Definition decode_erased {E Role} (decode : list Z -> ClientRole Role -> Decoded E) (ROLES : list Role)
    (out_of_table body : list Z) (role : ClientRole nat) : Decoded E :=
  match role with
  | Operator => decode body Operator
  | AppRole id =>
    match ROLES !! id with
    | Some r => decode body (AppRole r)
    | None => PermissionDeniedFor out_of_table
    end
  end.

Inductive FrameAction := Continue | Disconnect | Park.
#[export] Instance FrameAction_eq_dec : EqDecision FrameAction.
Proof. solve_decision. Defined.

Record ClientIngress := { parse_buf : list Z; shed_remaining : nat }.
Definition new_ingress : ClientIngress := {| parse_buf := []; shed_remaining := 0 |}.
Definition extend_from_slice (i : ClientIngress) (bytes : list Z) : ClientIngress :=
  {| parse_buf := parse_buf i ++ bytes; shed_remaining := shed_remaining i |}.

Fixpoint complete_frames_fuel (fuel : nat) (bytes : list Z) (len : nat) : nat :=
  match fuel with
  | O => len
  | S fuel =>
    match split_frame_limited (drop len bytes) MAX_FRAME_SIZE with
    | Ok (Some frame) => complete_frames_fuel fuel bytes (len + consumed frame)
    | _ => len
    end
  end.
Definition complete_frames_len (bytes : list Z) : nat := complete_frames_fuel (S (length bytes)) bytes 0.

Definition COMMIT_EVERY : nat := 16.

Section frames.
Context {E R : Type}.
Context (is_query : E -> bool) (build_reject : E -> RejectReason -> R).
(** The decoder at this connection's role: a pure function of the body. *)
Context (decode : list Z -> Decoded E).
Context (connection_id key_hash : Z).

(** What the reader did, in order: slots pushed into the ring's batch,
    batches committed, early replies staged, the queue flushed. *)
Inductive Effect :=
| Pushed (s : InputSlot E)
| Committed
| Queued (r : EarlyReply R)
| Flushed.

Record Reading := {
  cursor : nat;
  shed_end : nat;
  tally : IngressTally;
  refused : Z;
  batch_len : nat;
  ring : list bool;
  queue : list bool;
  log : list Effect
}.

Definition set_cursor (st : Reading) (c : nat) : Reading :=
  {| cursor := c; shed_end := shed_end st; tally := tally st; refused := refused st;
     batch_len := batch_len st; ring := ring st; queue := queue st; log := log st |}.
Definition set_shed_end (st : Reading) (s : nat) : Reading :=
  {| cursor := cursor st; shed_end := s; tally := tally st; refused := refused st;
     batch_len := batch_len st; ring := ring st; queue := queue st; log := log st |}.
Definition set_tally (st : Reading) (t : IngressTally) : Reading :=
  {| cursor := cursor st; shed_end := shed_end st; tally := t; refused := refused st;
     batch_len := batch_len st; ring := ring st; queue := queue st; log := log st |}.
Definition count_rejected (st : Reading) : Reading :=
  {| cursor := cursor st; shed_end := shed_end st; tally := tally st; refused := refused st + 1;
     batch_len := batch_len st; ring := ring st; queue := queue st; log := log st |}.

(** A scripted attempt: whether there is room; none once the script ends. *)
Definition attempt (script : list bool) : bool * list bool :=
  match script with b :: rest => (b, rest) | [] => (false, []) end.

Definition queue_early (st : Reading) (request_id : Z) (kind : EarlyKind R) : bool * Reading :=
  let '(room, q) := attempt (queue st) in
  (room,
   {| cursor := cursor st; shed_end := shed_end st; tally := tally st; refused := refused st;
      batch_len := batch_len st; ring := ring st; queue := q;
      log := if room then log st ++ [Queued (Build_EarlyReply connection_id request_id kind)] else log st |}).

Definition publish (st : Reading) (request_id : Z) (event : E) (batch_wall_ns : Z) : bool * Reading :=
  let ts := if is_query event then 0 else batch_wall_ns in
  let '(room, r) := attempt (ring st) in
  (room,
   {| cursor := cursor st; shed_end := shed_end st; tally := tally st; refused := refused st;
      batch_len := if room then S (batch_len st) else batch_len st; ring := r; queue := queue st;
      log := if room then log st ++ [Pushed (client connection_id request_id key_hash event ts)] else log st |}).

Definition commit (st : Reading) : Reading :=
  {| cursor := cursor st; shed_end := shed_end st; tally := tally st; refused := refused st;
     batch_len := 0; ring := ring st; queue := queue st; log := log st ++ [Committed] |}.

(** The answer to a request outside a shed tail: one decided here, or the
    event to publish. *)
Definition decision (refusal_reason : option RejectReason) (body : list Z) : EarlyKind R + E :=
  match decode body with
  | Filter => inl Filtered
  | PermissionDeniedFor reason => inl (Refused PermissionDenied reason)
  | DecodeError reason => inl (Refused Malformed reason)
  | Permitted event =>
    match refusal_reason with
    | Some reason => if negb (is_query event) then inl (Rejected (build_reject event reason)) else inr event
    | None => inr event
    end
  end.

(** Counted once its answer is queued. *)
Definition count (st : Reading) (early : EarlyKind R) : Reading :=
  match early with
  | Rejected _ => count_rejected st
  | Refused kind _ => set_tally st (count_refused (tally st) kind)
  | Filtered => set_tally st (count_filtered (tally st))
  | Busy => st
  end.

Fixpoint frames_loop (fuel : nat) (buf : list Z) (refusal_reason : option RejectReason) (batch_wall_ns : Z)
    (st : Reading) : FrameAction * Reading :=
  match fuel with
  | O => (Continue, st)
  | S fuel =>
    let frame_start := cursor st in
    match split_frame_limited (drop (cursor st) buf) MAX_FRAME_SIZE with
    | Ok None => (Continue, st)
    | Err _ => (Disconnect, st)
    | Ok (Some payload) =>
      let st := set_cursor st (cursor st + consumed payload) in
      match split_request payload with
      | Err _ => (Disconnect, st)
      | Ok (request_id, body) =>
        if (frame_start <? shed_end st)%nat then
          let '(sent, st) := queue_early st request_id Busy in
          if sent then frames_loop fuel buf refusal_reason batch_wall_ns (set_tally st (count_shed (tally st)))
          else (Park, set_cursor st frame_start)
        else
          match decision refusal_reason body with
          | inr event =>
            let '(pushed, st) := publish st request_id event batch_wall_ns in
            if pushed then
              frames_loop fuel buf refusal_reason batch_wall_ns
                (if (COMMIT_EVERY <=? batch_len st)%nat then commit st else st)
            else
              let st := set_shed_end st (frame_start + complete_frames_len (drop frame_start buf)) in
              let '(sent, st) := queue_early st request_id Busy in
              if sent then frames_loop fuel buf refusal_reason batch_wall_ns (set_tally st (count_shed (tally st)))
              else (Park, set_cursor st frame_start)
          | inl early =>
            let '(sent, st) := queue_early st request_id early in
            if sent then frames_loop fuel buf refusal_reason batch_wall_ns (count st early)
            else (Park, set_cursor st frame_start)
          end
      end
    end
  end.

(** What a call meets: the bytes received for it, the halt's verdict, the
    room each push and each early reply finds, and the batch's clock. *)
Record Call := {
  received : list Z;
  verdict : Verdict;
  ring_room : list bool;
  queue_room : list bool;
  wall_ns : Z
}.

(** What a call leaves: the action, the connection's input, its effects, and
    what it counted. *)
Record Outcome := {
  action : FrameAction;
  ingress : ClientIngress;
  effects : list Effect;
  counted : IngressTally;
  writes_refused : Z
}.

Definition started (i : ClientIngress) (c : Call) : Reading :=
  {| cursor := 0; shed_end := shed_remaining i; tally := no_tally; refused := 0; batch_len := 0;
     ring := ring_room c; queue := queue_room c; log := [] |}.

(** The loop, the batch's last commit, what is left of the tail, and the
    buffer compacted. *)
Definition read_frames (i : ClientIngress) (c : Call) (refusal_reason : option RejectReason) : Outcome :=
  let '(result, st) := frames_loop (S (length (parse_buf i))) (parse_buf i) refusal_reason (wall_ns c) (started i c) in
  let st := commit st in
  let remaining := (length (parse_buf i) - cursor st)%nat in
  {| action := result;
     ingress := {| parse_buf := if (0 <? cursor st)%nat
                                then take remaining (drop (cursor st) (parse_buf i) ++ drop remaining (parse_buf i))
                                else parse_buf i;
                   shed_remaining := (shed_end st - cursor st)%nat |};
     effects := log st; counted := tally st; writes_refused := refused st |}.

Definition process_frames_unflushed (i : ClientIngress) (c : Call) : Outcome :=
  match verdict c with
  | Take => read_frames i c None
  | Refuse reason => read_frames i c (Some reason)
  | Close => {| action := Disconnect; ingress := i; effects := []; counted := no_tally; writes_refused := 0 |}
  end.

(** The receive's bytes are appended, the buffer processed, and the queue
    flushed on the way out, whatever the outcome. *)
Definition process_client_frames (i : ClientIngress) (c : Call) : Outcome :=
  let o := process_frames_unflushed (extend_from_slice i (received c)) c in
  {| action := action o; ingress := ingress o; effects := effects o ++ [Flushed];
     counted := counted o; writes_refused := writes_refused o |}.

(** One connection's receives, until it is closed. *)
Fixpoint connection (i : ClientIngress) (calls : list Call) : list Outcome :=
  match calls with
  | [] => []
  | c :: calls =>
    let o := process_client_frames i c in
    o :: match action o with Disconnect => [] | _ => connection (ingress o) calls end
  end.
End frames.
End Frames.

(** ** What a connection's requests are promised

    Frames, not bytes: how a receive judges the complete frames it holds. *)

Module Promise.
Import Early Frames ClientWire.Reply(RefusalKind, PermissionDenied, Malformed).

Section promise.
Context {E R : Type}.
Context (is_query : E -> bool) (build_reject : E -> RejectReason -> R).
Context (decode : list Z -> Decoded E).
Context (connection_id key_hash : Z).

Inductive Answer := Published (s : InputSlot E) | Answered (r : EarlyReply R).

Definition answer_of (e : Effect) : option Answer :=
  match e with Pushed s => Some (Published s) | Queued r => Some (Answered r) | _ => None end.
Definition answers (l : list (@Effect E R)) : list Answer := omap answer_of l.

Definition busy (a : Answer) : bool := match a with Answered r => is_busy (er_kind r) | Published _ => false end.

Notation early id kind := (Answered (Build_EarlyReply connection_id id kind)).

(** The first [k] frames are the rest of a shed tail. Returned: the action,
    the answers, the frames left and how many of them are still to be shed. *)
Fixpoint judge (fs : list (list Z)) (t : tail) (reason : option RejectReason) (wall : Z) (k : nat)
    (ring queue : list bool) : FrameAction * list Answer * list (list Z) * nat :=
  match fs with
  | [] => (match t with Partial _ => Continue | Oversize _ => Disconnect end, [], [], 0%nat)
  | f :: rest =>
    match split_request f with
    | Err _ => (Disconnect, [], rest, k)
    | Ok (id, body) =>
      let shed_from k ring :=
        let '(room, queue) := attempt queue in
        if room then
          let '(a, ans, unread, k') := judge rest t reason wall (k - 1) ring queue in
          (a, early id Busy :: ans, unread, k')
        else (Park, [], fs, k) in
      match k with
      | S _ => shed_from k ring
      | O =>
        match decision is_query build_reject decode reason body with
        | inr e =>
          let '(room, ring) := attempt ring in
          if room then
            let '(a, ans, unread, k') := judge rest t reason wall 0 ring queue in
            (a, Published (client connection_id id key_hash e (if is_query e then 0 else wall)) :: ans, unread, k')
          else shed_from (length fs) ring
        | inl kind =>
          let '(room, queue) := attempt queue in
          if room then
            let '(a, ans, unread, k') := judge rest t reason wall 0 ring queue in
            (a, early id kind :: ans, unread, k')
          else (Park, [], fs, 0%nat)
        end
      end
    end
  end.

(** *** The counters and the ring's batches *)

Definition tally_of (ans : list Answer) : IngressTally :=
  {| shed := count_of (fun a => busy a = true) ans;
     filtered := count_of (fun a => match a with Answered r => match er_kind r with Filtered => true | _ => false end | _ => false end = true) ans;
     denied := count_of (fun a => match a with Answered r => match er_kind r with Refused PermissionDenied _ => true | _ => false end | _ => false end = true) ans;
     malformed := count_of (fun a => match a with Answered r => match er_kind r with Refused Malformed _ => true | _ => false end | _ => false end = true) ans |}.

Definition rejected_of (ans : list Answer) : Z :=
  count_of (fun a => match a with Answered r => match er_kind r with Rejected _ => true | _ => false end | _ => false end = true) ans.

(** Slots pushed since the last commit. *)
Definition uncommitted (l : list (@Effect E R)) : nat :=
  fold_left (fun n e => match e with Pushed _ => S n | Committed => 0%nat | _ => n end) l 0%nat.

(** What the loop keeps of its log: the counters are the answers', and no
    more than [COMMIT_EVERY] slots ever wait for a commit. *)
Record log_ok (st : @Reading E R) : Prop := LogOk {
  ok_tally : tally st = tally_of (answers (log st));
  ok_refused : refused st = rejected_of (answers (log st));
  ok_batch : batch_len st = uncommitted (log st);
  ok_room : (batch_len st < COMMIT_EVERY)%nat;
  ok_bound : forall pre, pre `prefix_of` log st -> (uncommitted pre <= COMMIT_EVERY)%nat
}.

(** *** The loop refines the judgement *)

Lemma answers_app (l m : list (@Effect E R)) : answers (l ++ m) = answers l ++ answers m.
Proof. apply omap_app. Qed.

Lemma uncommitted_snoc l (e : @Effect E R) :
  uncommitted (l ++ [e]) = match e with Pushed _ => S (uncommitted l) | Committed => 0%nat | _ => uncommitted l end.
Proof. unfold uncommitted. by rewrite fold_left_app. Qed.

Lemma prefix_snoc (pre l : list (@Effect E R)) e :
  pre `prefix_of` l ++ [e] -> pre `prefix_of` l \/ pre = l ++ [e].
Proof.
  intros [k Hk]. destruct k as [|x k _] using rev_ind; [right; by rewrite app_nil_r in Hk|left].
  rewrite app_assoc in Hk. apply app_inj_tail in Hk as [-> _]. by exists k.
Qed.

(** Evaluates the count of a list of one. *)
Ltac count_one :=
  repeat match goal with
  | |- context [@count_of ?A ?P ?D [?x]] =>
      let v := eval cbv in (@count_of A P D [x]) in change (@count_of A P D [x]) with v
  end.

(** The counters, once an early reply is queued. *)
Definition settle (st : @Reading E R) (kind : EarlyKind R) : Reading :=
  match kind with Busy => set_tally st (count_shed (tally st)) | k => count st k end.

Lemma log_ok_cursor (st : @Reading E R) c s : log_ok st -> log_ok (set_shed_end (set_cursor st c) s).
Proof. intros []. by constructor. Qed.

Lemma queue_early_room (st : @Reading E R) id kind :
  (queue_early connection_id st id kind).1 = (attempt (queue st)).1 /\
  queue (queue_early connection_id st id kind).2 = (attempt (queue st)).2.
Proof. unfold queue_early. by destruct (attempt (queue st)). Qed.

Lemma log_ok_queued (st : @Reading E R) id kind :
  log_ok st -> (queue_early connection_id st id kind).1 = true ->
  log_ok (settle (queue_early connection_id st id kind).2 kind) /\
  answers (log (settle (queue_early connection_id st id kind).2 kind)) = answers (log st) ++ [early id kind].
Proof.
  unfold queue_early. destruct (attempt (queue st)) as [room q]. cbn [fst snd]. intros [Ht Hr Hb Hl Hp] ->.
  assert (Hlog : forall k, log (settle {| cursor := cursor st; shed_end := shed_end st; tally := tally st; refused := refused st;
    batch_len := batch_len st; ring := ring st; queue := q; log := log st ++ [Queued (Build_EarlyReply connection_id id kind)] |} k)
    = log st ++ [Queued (Build_EarlyReply connection_id id kind)]) by by intros [].
  assert (Ha : answers (log st ++ [Queued (Build_EarlyReply connection_id id kind)]) = answers (log st) ++ [early id kind])
    by by rewrite answers_app.
  split; [|by rewrite Hlog]. constructor; rewrite ?Hlog, ?Ha.
  - unfold tally_of in *. rewrite !count_of_app. destruct kind as [r| |[] reason|]; cbn [settle count tally set_tally count_rejected count_refused count_filtered count_shed];
      rewrite Ht; unfold tally_of; count_one; rewrite ?Z.add_0_r; reflexivity.
  - unfold rejected_of in *. rewrite count_of_app. destruct kind as [r| |[] reason|]; cbn [settle count refused set_tally count_rejected]; rewrite Hr; unfold rejected_of; count_one; lia.
  - rewrite uncommitted_snoc. by destruct kind as [r| |[] reason|].
  - by destruct kind as [r| |[] reason|].
  - intros pre [Hpre| ->]%prefix_snoc; [by apply Hp|]. rewrite uncommitted_snoc, <- Hb. lia.
Qed.

Lemma log_ok_unqueued (st : @Reading E R) id kind : log_ok st -> (queue_early connection_id st id kind).1 = false ->
  log_ok (queue_early connection_id st id kind).2 /\ log (queue_early connection_id st id kind).2 = log st.
Proof. unfold queue_early. destruct (attempt (queue st)) as [room q]. cbn [fst snd]. by intros [] ->. Qed.

Lemma log_ok_commit (st : @Reading E R) : log_ok st -> log_ok (commit st) /\ answers (log (commit st)) = answers (log st).
Proof.
  intros [Ht Hr Hb Hl Hp]. unfold commit.
  assert (Ha : answers (log st ++ [Committed]) = answers (log st)) by by rewrite answers_app, app_nil_r.
  split; [|exact Ha]. constructor; cbn [tally refused batch_len log]; rewrite ?Ha; try done.
  - by rewrite uncommitted_snoc.
  - unfold COMMIT_EVERY. lia.
  - intros pre [Hpre| ->]%prefix_snoc; [by apply Hp|]. rewrite uncommitted_snoc. lia.
Qed.

Lemma log_ok_pushed (st : @Reading E R) id e wall :
  log_ok st -> (publish is_query connection_id key_hash st id e wall).1 = true ->
  let st' := (publish is_query connection_id key_hash st id e wall).2 in
  let st' := if (COMMIT_EVERY <=? batch_len st')%nat then commit st' else st' in
  log_ok st' /\
  answers (log st') = answers (log st) ++ [Published (client connection_id id key_hash e (if is_query e then 0 else wall))].
Proof.
  unfold publish. destruct (attempt (ring st)) as [room r]. cbn [fst snd]. intros [Ht Hr Hb Hl Hp] ->. cbn [batch_len].
  set (slot := client connection_id id key_hash e (if is_query e then 0 else wall)).
  assert (Ha : answers (log st ++ [Pushed slot]) = answers (log st) ++ [Published slot]) by by rewrite answers_app.
  assert (Hu : uncommitted (log st ++ [Pushed slot]) = S (batch_len st)) by by rewrite uncommitted_snoc, Hb.
  assert (Hbound : forall pre, pre `prefix_of` log st ++ [Pushed slot] -> (uncommitted pre <= COMMIT_EVERY)%nat).
  { intros pre [Hpre| ->]%prefix_snoc; [by apply Hp|]. rewrite Hu. lia. }
  assert (Hta : tally_of (answers (log st ++ [Pushed slot])) = tally st).
  { rewrite Ha, Ht. unfold tally_of. rewrite !count_of_app. count_one. by rewrite !Z.add_0_r. }
  assert (Hre : rejected_of (answers (log st ++ [Pushed slot])) = refused st).
  { rewrite Ha, Hr. unfold rejected_of. rewrite !count_of_app. count_one. by rewrite Z.add_0_r. }
  destruct (COMMIT_EVERY <=? S (batch_len st))%nat eqn:Hc.
  - assert (Ha' : answers ((log st ++ [Pushed slot]) ++ [Committed]) = answers (log st ++ [Pushed slot]))
      by by rewrite answers_app, app_nil_r.
    unfold commit. cbn [log cursor shed_end tally refused ring queue].
    split; [|by rewrite Ha'].
    constructor; cbn [tally refused batch_len log]; rewrite ?Ha', ?uncommitted_snoc; try done; [unfold COMMIT_EVERY; lia|].
    intros pre [Hpre| ->]%prefix_snoc; [by apply Hbound|]. rewrite uncommitted_snoc. lia.
  - apply Nat.leb_gt in Hc. split; [|done]. constructor; cbn [tally refused batch_len log]; done.
Qed.

Lemma complete_frames_exact bytes :
  complete_frames_len bytes = frames_len (frames_of MAX_FRAME_SIZE bytes).1.
Proof.
  unfold complete_frames_len.
  enough (H : forall fuel len, (length (drop len bytes) < fuel)%nat ->
    complete_frames_fuel fuel bytes len = (len + frames_len (frames_of MAX_FRAME_SIZE (drop len bytes)).1)%nat)
    by by apply (H (S (length bytes)) 0%nat); rewrite drop_0; lia.
  induction fuel as [|fuel IH]; intros len Hl; [lia|]. cbn [complete_frames_fuel]. rewrite frames_of_split.
  destruct (split_frame_limited (drop len bytes) MAX_FRAME_SIZE) as [[p|]|e] eqn:Hs; [|cbn; lia..].
  pose proof (split_fits _ _ _ Hs) as (Hc & _). rewrite length_drop in Hl, Hc. unfold consumed, PREFIX_LEN in Hc.
  rewrite IH by (rewrite length_drop; unfold consumed, PREFIX_LEN; lia).
  cbn [fst]. rewrite frames_len_cons, drop_drop. lia.
Qed.

(** Where the loop stands in its buffer: the frames ahead of the cursor, and
    how many of them the shed tail still covers. *)
Record at_frames (buf : list Z) (st : @Reading E R) (fs : list (list Z)) (t : tail) (k : nat) : Prop := AtFrames {
  at_split : frames_of MAX_FRAME_SIZE (drop (cursor st) buf) = (fs, t);
  at_shed : (shed_end st - cursor st)%nat = frames_len (take k fs);
  at_tail : (k <= length fs)%nat;
  at_cursor : (cursor st <= length buf)%nat
}.

Lemma at_frames_cons buf st p rest t k :
  at_frames buf st (p :: rest) t k ->
  split_frame_limited (drop (cursor st) buf) MAX_FRAME_SIZE = Ok (Some p) /\
  (cursor st <? shed_end st)%nat = (0 <? k)%nat /\
  forall st', cursor st' = (cursor st + consumed p)%nat -> shed_end st' = shed_end st -> at_frames buf st' rest t (k - 1).
Proof.
  intros [Hs Hk Ht Hc]. rewrite frames_of_split in Hs.
  destruct (split_frame_limited (drop (cursor st) buf) MAX_FRAME_SIZE) as [[q|]|e] eqn:Hsp; [|done|done].
  injection Hs as -> Hr Htl. split; [done|].
  pose proof (split_fits _ _ _ Hsp) as (Hfit & _). rewrite length_drop in Hfit. rewrite drop_drop in Hr, Htl.
  split.
  - destruct k as [|k]; [apply Nat.ltb_ge; cbn in Hk; lia|]. apply Nat.ltb_lt. cbn [take] in Hk.
    rewrite frames_len_cons in Hk. unfold consumed, PREFIX_LEN in Hk. lia.
  - intros st' Hc' He'. constructor; rewrite ?Hc', ?He'.
    + rewrite <- Hr, <- Htl. by destruct (frames_of _ _).
    + destruct k as [|k]; [change (frames_len _) with 0%nat in Hk |- *; lia|].
      cbn [take] in Hk. rewrite frames_len_cons in Hk. cbn [Nat.sub]. rewrite Nat.sub_0_r. lia.
    + cbn [length] in Ht. lia.
    + unfold consumed, PREFIX_LEN in *. lia.
Qed.

(** The whole of what is buffered, once the ring is found full. *)
Lemma at_frames_shed buf st fs t k st' :
  at_frames buf st fs t k -> cursor st' = cursor st ->
  shed_end st' = (cursor st + complete_frames_len (drop (cursor st) buf))%nat ->
  at_frames buf st' fs t (length fs).
Proof.
  intros [Hs Hk Ht Hc] Hc' He'. constructor; rewrite ?Hc', ?He'; try done.
  rewrite complete_frames_exact, Hs, firstn_all. cbn [fst]. lia.
Qed.

Lemma settle_at (st : @Reading E R) kind : cursor (settle st kind) = cursor st /\ shed_end (settle st kind) = shed_end st /\
  ring (settle st kind) = ring st /\ queue (settle st kind) = queue st.
Proof. by destruct kind as [r| |[] reason|]. Qed.

Lemma queue_early_at (st : @Reading E R) id kind : let st' := (queue_early connection_id st id kind).2 in
  cursor st' = cursor st /\ shed_end st' = shed_end st /\ ring st' = ring st.
Proof. unfold queue_early. by destruct (attempt (queue st)). Qed.

Lemma at_frames_same buf st st' fs t k :
  at_frames buf st fs t k -> cursor st' = cursor st -> shed_end st' = shed_end st -> at_frames buf st' fs t k.
Proof. intros [] Hc He. by constructor; rewrite ?Hc, ?He. Qed.

(** What a run of the loop shares with the judgement of the frames it holds. *)
Definition agrees (buf : list Z) (st : @Reading E R) (t : tail) (r : FrameAction * Reading)
    (j : FrameAction * list Answer * list (list Z) * nat) : Prop :=
  let '(a, st') := r in
  let '(a', ans, unread, k') := j in
  a = a' /\ log_ok st' /\ answers (log st') = answers (log st) ++ ans /\
  (a <> Disconnect -> at_frames buf st' unread t k').

Lemma agrees_after buf st st1 t r x a ans unread k' :
  answers (log st1) = answers (log st) ++ [x] ->
  agrees buf st1 t r (a, ans, unread, k') -> agrees buf st t r (a, x :: ans, unread, k').
Proof.
  destruct r as [a' st']. unfold agrees. intros Hx (-> & Hok & Ha & Hat). split; [done|]. split; [done|].
  split; [|done]. by rewrite Ha, Hx, <- app_assoc.
Qed.

(** The frame at the cursor is answered early: the loop goes on, or parks
    on it. *)
Lemma loop_early buf st p rest t id kind k
    (go : @Reading E R -> FrameAction * Reading) (j : list bool -> FrameAction * list Answer * list (list Z) * nat) :
  at_frames buf st (p :: rest) t k -> log_ok st ->
  (forall st1, at_frames buf st1 rest t (k - 1) -> log_ok st1 -> ring st1 = ring st ->
     cursor st1 = (cursor st + consumed p)%nat -> agrees buf st1 t (go st1) (j (queue st1))) ->
  agrees buf st t
    (let '(sent, st1) := queue_early connection_id (set_cursor st (cursor st + consumed p)) id kind in
     if sent then go (settle st1 kind) else (Park, set_cursor st1 (cursor st)))
    (let '(room, queue) := attempt (queue st) in
     if room then let '(a, ans, unread, k') := j queue in (a, early id kind :: ans, unread, k')
     else (Park, [], p :: rest, k)).
Proof.
  intros Hat Hok Hgo. set (st0 := set_cursor st (cursor st + consumed p)).
  assert (Hok0 : log_ok st0) by apply (log_ok_cursor st _ (shed_end st) Hok).
  destruct (at_frames_cons _ _ _ _ _ _ Hat) as (_ & _ & Hnext).
  destruct (queue_early_room st0 id kind) as [Hroom Hq]. destruct (queue_early_at st0 id kind) as (Hcur & Hend & Hring).
  pose proof (log_ok_queued st0 id kind Hok0) as Hquq. pose proof (log_ok_unqueued st0 id kind Hok0) as Hunq.
  change (queue st0) with (queue st) in *. change (shed_end st0) with (shed_end st) in Hend.
  change (ring st0) with (ring st) in Hring. change (log st0) with (log st) in *.
  destruct (queue_early connection_id st0 id kind) as [sent st1]. cbn [fst snd] in *.
  destruct (attempt (queue st)) as [room q]. cbn [fst snd] in *. subst sent. destruct room.
  - destruct (Hquq eq_refl) as [Hok1 Ha]. destruct (settle_at st1 kind) as (Hsc & Hse & Hsr & Hsq).
    specialize (Hgo (settle st1 kind)). rewrite Hsq, Hq in Hgo.
    destruct (j q) as [[[a ans] unread] k']. eapply agrees_after; [exact Ha|].
    apply Hgo; [|done|congruence|by rewrite Hsc, Hcur]. apply Hnext; [by rewrite Hsc, Hcur|by rewrite Hse, Hend].
  - destruct (Hunq eq_refl) as [Hok1 Hl]. unfold agrees. split; [done|].
    split; [apply (log_ok_cursor st1 (cursor st) (shed_end st1) Hok1)|].
    split; [cbn [log set_cursor]; by rewrite Hl, app_nil_r|]. intros _.
    by apply (at_frames_same buf st).
Qed.

Lemma publish_at (st : @Reading E R) id e wall :
  let st' := (publish is_query connection_id key_hash st id e wall).2 in
  (publish is_query connection_id key_hash st id e wall).1 = (attempt (ring st)).1 /\
  ring st' = (attempt (ring st)).2 /\ queue st' = queue st /\ cursor st' = cursor st /\ shed_end st' = shed_end st.
Proof. unfold publish. by destruct (attempt (ring st)). Qed.

Lemma publish_full (st : @Reading E R) id e wall :
  (publish is_query connection_id key_hash st id e wall).1 = false -> log_ok st ->
  log_ok (publish is_query connection_id key_hash st id e wall).2 /\
  log (publish is_query connection_id key_hash st id e wall).2 = log st.
Proof. unfold publish. destruct (attempt (ring st)) as [room r]. cbn [fst snd]. by intros -> []. Qed.

Lemma decision_not_busy reason body kind :
  decision is_query build_reject decode reason body = inl kind -> is_busy kind = false.
Proof. unfold decision. intros H. repeat brk; simplify_eq; done. Qed.

Lemma loop_judge fuel : forall buf reason wall (st : @Reading E R) fs t k,
  (length buf - cursor st < fuel)%nat -> at_frames buf st fs t k -> log_ok st ->
  agrees buf st t (frames_loop is_query build_reject decode connection_id key_hash fuel buf reason wall st)
    (judge fs t reason wall k (ring st) (queue st)).
Proof.
  induction fuel as [|fuel IH]; intros buf reason wall st fs t k Hf Hat Hok; [lia|]. cbn [frames_loop].
  destruct fs as [|p rest].
  - destruct Hat as [Hs Hk Ht Hc]. pose proof Hs as Hs'. rewrite frames_of_split in Hs'.
    destruct (split_frame_limited (drop (cursor st) buf) MAX_FRAME_SIZE) as [[q|]|e] eqn:Hsp; [done| |];
      injection Hs' as <-; cbn [judge]; unfold agrees.
    + split; [done|]. split; [done|]. split; [by rewrite app_nil_r|]. intros _.
      constructor; [done| |done|done]. by rewrite take_nil in *.
    + split; [done|]. split; [done|]. split; [by rewrite app_nil_r|]. done.
  - destruct (at_frames_cons _ _ _ _ _ _ Hat) as (Hsp & Hshed & Hnext). rewrite Hsp. cbn [judge].
    pose proof (split_fits _ _ _ Hsp) as (Hfit & _). rewrite length_drop in Hfit. unfold consumed, PREFIX_LEN in Hfit.
    destruct (split_request p) as [[id body]|e]; [|by unfold agrees; rewrite app_nil_r; repeat split; try done; apply Hok].
    set (st0 := set_cursor st (cursor st + consumed p)).
    change (shed_end st0) with (shed_end st). rewrite Hshed.
    assert (Hfuel : forall st1 : @Reading E R, cursor st1 = (cursor st + consumed p)%nat -> (length buf - cursor st1 < fuel)%nat).
    { intros st1 ->. unfold consumed, PREFIX_LEN. lia. }
    destruct k as [|k].
    2: { apply (loop_early buf st p rest t id Busy (S k) _ (judge rest t reason wall (S k - 1) (ring st)) Hat Hok).
      intros st1 Hat1 Hok1 <- Hc1. by apply IH; [apply Hfuel|..]. }
    change (0 <? 0)%nat with false. cbn iota.
    destruct (decision is_query build_reject decode reason body) as [kind|e] eqn:Hd.
    { apply decision_not_busy in Hd. destruct kind as [r| |kind why|]; try done;
        lazymatch goal with |- context [queue_early _ _ _ ?kd] => apply (loop_early buf st p rest t id kd 0
          (frames_loop is_query build_reject decode connection_id key_hash fuel buf reason wall)
          (judge rest t reason wall 0 (ring st)) Hat Hok) end;
        intros st1 Hat1 Hok1 <- Hc1; by apply IH; [apply Hfuel|..]. }
    destruct (publish_at st0 id e wall) as (Hr & Hring & Hq & Hc & He).
    assert (Hok0 : log_ok st0) by apply (log_ok_cursor st _ (shed_end st) Hok).
    pose proof (log_ok_pushed st0 id e wall Hok0) as Hpush.
    change (ring st0) with (ring st) in *. change (queue st0) with (queue st) in *.
    pose proof (publish_full st0 id e wall) as Hfull. change (log st0) with (log st) in *.
    change (cursor st0) with (cursor st + consumed p)%nat in Hc. change (shed_end st0) with (shed_end st) in He.
    destruct (publish is_query connection_id key_hash st0 id e wall) as [pushed st1]. cbn [fst snd] in *.
    destruct (attempt (ring st)) as [[] ring']; cbn [fst snd] in *; subst pushed.
    + destruct (Hpush eq_refl) as [Hok2 Ha2]. set (st2 := if (COMMIT_EVERY <=? batch_len st1)%nat then commit st1 else st1) in *.
      assert (Hsame : cursor st2 = cursor st1 /\ shed_end st2 = shed_end st1 /\ ring st2 = ring st1 /\ queue st2 = queue st1)
        by (subst st2; by destruct (COMMIT_EVERY <=? batch_len st1)%nat).
      destruct Hsame as (Hc2 & He2 & Hr2 & Hq2).
      specialize (IH buf reason wall st2 rest t 0%nat). rewrite Hr2, Hring, Hq2, Hq in IH.
      destruct (judge rest t reason wall 0 ring' (queue st)) as [[[a ans] unread] k'].
      eapply agrees_after; [exact Ha2|]. apply IH; [apply Hfuel; congruence| |done].
      apply Hnext; congruence.
    + destruct (Hfull eq_refl Hok0) as [Hok1 Hl1].
      set (s := (cursor st + complete_frames_len (drop (cursor st) buf))%nat).
      set (st2 := set_cursor (set_shed_end st1 s) (cursor st)).
      assert (Hst : set_shed_end st1 s = set_cursor st2 (cursor st2 + consumed p)).
      { subst st2. destruct st1. cbn in Hc. by rewrite Hc. }
      rewrite Hst. rewrite <- Hq, <- Hring.
      change (ring st1) with (ring st2). change (queue st1) with (queue st2).
      assert (Hag : forall r j, agrees buf st2 t r j -> agrees buf st t r j).
      { intros [a st'] [[[a' ans] unread] k']. unfold agrees. cbn [st2 log set_cursor set_shed_end]. by rewrite Hl1. }
      apply Hag. apply (loop_early buf st2 p rest t id Busy (length (p :: rest))
          (frames_loop is_query build_reject decode connection_id key_hash fuel buf reason wall)
          (judge rest t reason wall (length (p :: rest) - 1) (ring st2))).
      * by apply (at_frames_shed buf st (p :: rest) t 0).
      * apply (log_ok_cursor (set_shed_end st1 s) (cursor st) s). apply (log_ok_cursor st1 (cursor st1) s) in Hok1. by destruct st1.
      * intros st3 Hat3 Hok3 <- Hc3. by apply IH; [apply Hfuel|..].
Qed.

(** *** One receive *)

(** The halt's verdict, as the reason a write is refused for. *)
Definition refusal (v : Verdict) : option RejectReason := match v with Refuse r => Some r | _ => None end.

(** A superseded node takes nothing more from anyone. *)
Definition closes (v : Verdict) : bool := match v with Close => true | _ => false end.

Lemma closes_true v : closes v = true <-> v = Close.
Proof. by destruct v. Qed.
Lemma closes_false v : closes v = false <-> v <> Close.
Proof. by destruct v. Qed.

(** The connection's complete frames, the first [k] of them a shed tail. *)
Record holds (i : ClientIngress) (fs : list (list Z)) (t : tail) (k : nat) : Prop := Holds {
  holds_split : frames_of MAX_FRAME_SIZE (parse_buf i) = (fs, t);
  holds_shed : shed_remaining i = frames_len (take k fs);
  holds_tail : (k <= length fs)%nat
}.

Lemma holds_new : holds new_ingress [] (Partial []) 0.
Proof. by constructor. Qed.

Lemma holds_extend i fs t k bytes :
  holds i fs t k ->
  let l := Decoder.extend MAX_FRAME_SIZE (fs, t) bytes in
  holds (extend_from_slice i bytes) l.1 l.2 k /\ fs `prefix_of` l.1.
Proof.
  intros [Hs Hk Hl]. cbn zeta.
  assert (Hx : frames_of MAX_FRAME_SIZE (parse_buf i ++ bytes) = Decoder.extend MAX_FRAME_SIZE (fs, t) bytes)
    by by rewrite <- Decoder.extend_frames, Hs.
  assert (Hpre : fs `prefix_of` (Decoder.extend MAX_FRAME_SIZE (fs, t) bytes).1)
    by (unfold Decoder.extend; destruct t; cbn; [by eexists|done]).
  split; [|done]. constructor; cbn [parse_buf shed_remaining extend_from_slice].
  - rewrite Hx. by destruct (Decoder.extend _ _ _).
  - rewrite Hk. destruct Hpre as [more ->]. rewrite take_app_le by done. done.
  - apply prefix_length in Hpre. lia.
Qed.

(** Everything a receive counts, and how it leaves the ring and the queue. *)
Record accounted (o : @Outcome E R) : Prop := Accounted {
  acc_counted : counted o = tally_of (answers (effects o));
  acc_refused : writes_refused o = rejected_of (answers (effects o));
  acc_committed : uncommitted (effects o) = 0%nat;
  acc_bound : forall pre, pre `prefix_of` effects o -> (uncommitted pre <= COMMIT_EVERY)%nat
}.

Lemma read_judged i c reason fs t k :
  holds i fs t k ->
  let o := read_frames is_query build_reject decode connection_id key_hash i c reason in
  let '(a, ans, unread, k') := judge fs t reason (wall_ns c) k (ring_room c) (queue_room c) in
  action o = a /\ answers (effects o) = ans /\ accounted o /\ (a <> Disconnect -> holds (ingress o) unread t k').
Proof.
  intros [Hs Hk Hl]. cbn zeta. unfold read_frames.
  assert (Hat : at_frames (parse_buf i) (started i c : @Reading E R) fs t k)
    by (constructor; cbn [started cursor shed_end]; [by rewrite drop_0|lia|done|lia]).
  assert (Hok : log_ok (started i c : @Reading E R)).
  { constructor; cbn [started tally refused batch_len log]; try done; [unfold COMMIT_EVERY; lia|].
    intros pre Hpre%prefix_nil_inv. subst pre. cbn. lia. }
  pose proof (loop_judge (S (length (parse_buf i))) (parse_buf i) reason (wall_ns c) (started i c) fs t k
    ltac:(cbn; lia) Hat Hok) as H.
  change (ring (started i c)) with (ring_room c) in H. change (queue (started i c)) with (queue_room c) in H.
  destruct (frames_loop _ _ _ _ _ _ _ _ _ _) as [result st]. destruct (judge _ _ _ _ _ _ _) as [[[a ans] unread] k'].
  destruct H as (-> & Hok' & Ha & Hat'). destruct (log_ok_commit st Hok') as [[Ht Hr Hb Hroom Hp] Hca].
  cbn [action effects ingress counted writes_refused].
  split; [done|]. split; [by rewrite Hca, Ha|]. split; [by constructor|].
  intros Hnd. destruct (Hat' Hnd) as [Hs' Hk' Hl' Hc']. cbn [commit cursor shed_end].
  constructor; cbn [parse_buf shed_remaining]; [|done|done]. rewrite <- Hs'. f_equal.
  destruct (0 <? cursor st)%nat eqn:H0.
  - by rewrite take_app_length' by by rewrite length_drop.
  - apply Nat.ltb_ge in H0. replace (cursor st) with 0%nat by lia. by rewrite drop_0.
Qed.

(** What a call does with the frames it holds. *)
Lemma process_judged i c fs t k :
  holds (extend_from_slice i (received c)) fs t k ->
  let o := process_client_frames is_query build_reject decode connection_id key_hash i c in
  accounted o /\ last (effects o) = Some Flushed /\
  if closes (verdict c) then action o = Disconnect /\ answers (effects o) = []
  else let '(a, ans, unread, k') := judge fs t (refusal (verdict c)) (wall_ns c) k (ring_room c) (queue_room c) in
       action o = a /\ answers (effects o) = ans /\ (a <> Disconnect -> holds (ingress o) unread t k').
Proof.
  intros Hh. cbn zeta. unfold process_client_frames, process_frames_unflushed.
  assert (Hflush : forall o : @Outcome E R, accounted o ->
    accounted {| action := action o; ingress := ingress o; effects := effects o ++ [Flushed];
                 counted := counted o; writes_refused := writes_refused o |}).
  { intros o [H1 H2 H3 H4]. assert (Ha : answers (effects o ++ [Flushed]) = answers (effects o)) by by rewrite answers_app, app_nil_r.
    constructor; cbn [counted effects writes_refused]; rewrite ?Ha; try done; [by rewrite uncommitted_snoc|].
    intros pre [Hpre| ->]%prefix_snoc; [by apply H4|]. rewrite uncommitted_snoc, H3. lia. }
  assert (Hans : forall l : list (@Effect E R), answers (l ++ [Flushed]) = answers l) by (intros l; by rewrite answers_app, app_nil_r).
  destruct (verdict c) as [|why|] eqn:Hv; cbn [refusal];
    [pose proof (read_judged _ c None _ _ _ Hh) as H|pose proof (read_judged _ c (Some why) _ _ _ Hh) as H|].
  3: { split; [apply Hflush; constructor; try done; intros pre Hpre%prefix_nil_inv; subst pre; cbn; lia|]. split; [done|].
    done. }
  all: cbn zeta in H; cbn [closes];
    destruct (judge _ _ _ _ _ _ _) as [[[a ans] unread] k']; destruct H as (H1 & H2 & H3 & H4);
    (split; [by apply Hflush|]); cbn [effects action ingress]; rewrite Hans; (split; [apply last_snoc|done]).
Qed.

(** *** The judgement, as rules *)

Section rules.
Context (t : tail) (reason : option RejectReason) (wall : Z).

Inductive judged : nat -> list (list Z) -> FrameAction -> list Answer -> list (list Z) -> nat -> Prop :=
| J_end k rest : t = Partial rest -> judged k [] Continue [] [] 0
| J_oversize k e : t = Oversize e -> judged k [] Disconnect [] [] 0
| J_bad k f rest e : split_request f = Err e -> judged k (f :: rest) Disconnect [] rest k
| J_shed k f rest id body a ans unread k' :
    split_request f = Ok (id, body) -> judged k rest a ans unread k' ->
    judged (S k) (f :: rest) a (early id Busy :: ans) unread k'
| J_shed_park k f rest id body :
    split_request f = Ok (id, body) -> judged (S k) (f :: rest) Park [] (f :: rest) (S k)
| J_publish f rest id body e a ans unread k' :
    split_request f = Ok (id, body) -> decision is_query build_reject decode reason body = inr e ->
    judged 0 rest a ans unread k' ->
    judged 0 (f :: rest) a
      (Published (client connection_id id key_hash e (if is_query e then 0 else wall)) :: ans) unread k'
| J_full f rest id body e a ans unread k' :
    split_request f = Ok (id, body) -> decision is_query build_reject decode reason body = inr e ->
    judged (length rest) rest a ans unread k' ->
    judged 0 (f :: rest) a (early id Busy :: ans) unread k'
| J_full_park f rest id body e :
    split_request f = Ok (id, body) -> decision is_query build_reject decode reason body = inr e ->
    judged 0 (f :: rest) Park [] (f :: rest) (S (length rest))
| J_early f rest id body kind a ans unread k' :
    split_request f = Ok (id, body) -> decision is_query build_reject decode reason body = inl kind ->
    judged 0 rest a ans unread k' ->
    judged 0 (f :: rest) a (early id kind :: ans) unread k'
| J_early_park f rest id body kind :
    split_request f = Ok (id, body) -> decision is_query build_reject decode reason body = inl kind ->
    judged 0 (f :: rest) Park [] (f :: rest) 0.
Create HintDb judged.
#[local] Hint Constructors judged : judged.

Lemma judge_judged fs : forall k ring queue,
  let '(a, ans, unread, k') := judge fs t reason wall k ring queue in judged k fs a ans unread k'.
Proof.
  assert (Ht : (exists r, t = Partial r) \/ (exists e, t = Oversize e)) by (destruct t; eauto).
  induction fs as [|f rest IH]; intros k ring queue; cbn [judge].
  { destruct Ht as [[r Ht]|[e Ht]]; rewrite Ht; eauto with judged. }
  destruct (split_request f) as [[id body]|e] eqn:Hs; [|eauto with judged].
  destruct k as [|k].
  - destruct (decision is_query build_reject decode reason body) as [kind|e] eqn:Hd.
    + destruct (attempt queue) as [[] q]; [|eauto with judged].
      specialize (IH 0%nat ring q). destruct (judge rest t reason wall 0 ring q) as [[[a ans] unread] k']. eauto with judged.
    + destruct (attempt ring) as [[] r].
      * specialize (IH 0%nat r queue). destruct (judge rest t reason wall 0 r queue) as [[[a ans] unread] k']. eauto with judged.
      * destruct (attempt queue) as [[] q]; [|eauto with judged].
        specialize (IH (length rest) r q). cbn [length Nat.sub]. rewrite Nat.sub_0_r.
        destruct (judge rest t reason wall (length rest) r q) as [[[a ans] unread] k']. eauto with judged.
  - destruct (attempt queue) as [[] q]; [|eauto with judged].
    specialize (IH k ring q). cbn [Nat.sub]. rewrite Nat.sub_0_r.
    destruct (judge rest t reason wall k ring q) as [[[a ans] unread] k']. eauto with judged.
Qed.

(** How an answer fits the frame it answers: a published slot is the
    decoded event, under the client's ID; an early reply names the request
    and is what the decoder and the halt make of it, or busy. *)
Definition answers_frame (f : list Z) (ans : Answer) : Prop :=
  exists id body, split_request f = Ok (id, body) /\
  match ans with
  | Published s => exists e, decode body = Permitted e /\ (reason <> None -> is_query e = true) /\
      s = client connection_id id key_hash e (if is_query e then 0 else wall)
  | Answered r => er_connection_id r = connection_id /\ er_request_id r = id /\
      (er_kind r = Busy \/ decision is_query build_reject decode reason body = inl (er_kind r))
  end.

Lemma decision_publishes body e :
  decision is_query build_reject decode reason body = inr e ->
  decode body = Permitted e /\ (reason <> None -> is_query e = true).
Proof.
  unfold decision. destruct (decode body) as [|e'|w|w]; try done. destruct reason as [r|]; [|by intros [= ->]].
  destruct (is_query e') eqn:Hq; [|done]. by intros [= ->].
Qed.

Lemma judged_answers k fs a ans unread k' :
  judged k fs a ans unread k' -> Forall2 answers_frame (take (length ans) fs) ans.
Proof.
  induction 1; cbn [length take]; constructor; try assumption.
  - exists id, body. by eauto.
  - exists id, body. split; [done|]. exists e. destruct (decision_publishes _ _ H0). done.
  - exists id, body. by eauto.
  - exists id, body. split; [done|]. cbn. eauto.
Qed.

(** Where a call stops: with every frame answered, before the one whose
    answer has nowhere to go, or at one that is no request. *)
Definition stops (fs : list (list Z)) (a : FrameAction) (n : nat) : Prop :=
  (n <= length fs)%nat /\
  match a with
  | Continue => n = length fs
  | Park => (n < length fs)%nat
  | Disconnect => (n = length fs /\ exists e, t = Oversize e) \/
      exists f e, fs !! n = Some f /\ split_request f = Err e
  end.

Lemma stops_cons f fs a n : stops fs a n -> stops (f :: fs) a (S n).
Proof.
  unfold stops. cbn [length lookup list_lookup]. intros [Hn Ha]. split; [lia|]. destruct a; [lia| |lia].
  destruct Ha as [[-> ?]|?]; eauto.
Qed.

Lemma judged_stops k fs a ans unread k' :
  judged k fs a ans unread k' ->
  stops fs a (length ans) /\ (a <> Disconnect -> unread = drop (length ans) fs).
Proof.
  induction 1; cbn [length drop];
    try (destruct IHjudged as [IH1 IH2]; split; [by apply stops_cons|done]);
    (split; [split; cbn [length]; try lia; eauto|done]).
Qed.

(** The frames of a shed tail are answered busy and nothing else, and once
    the ring was found full everything the receive holds behind is shed, in
    this call and in the tail it leaves. *)
Lemma judged_sheds k fs a ans unread k' :
  judged k fs a ans unread k' ->
  (forall j x, (j < k)%nat -> ans !! j = Some x -> busy x = true) /\
  (forall j x, (k <= j)%nat -> ans !! j = Some x -> busy x = true ->
     (forall j' y, (j <= j')%nat -> ans !! j' = Some y -> busy y = true) /\
     (a <> Disconnect -> k' = length unread)) /\
  ((k <= length fs)%nat -> a <> Disconnect -> (k - length ans <= k' <= length unread)%nat).
Proof.
  induction 1; cbn [length] in *; try (destruct IHjudged as (IH1 & IH2 & IH3)).
  - split; [done|]. split; [done|]. lia.
  - done.
  - split; [done|]. split; [done|]. done.
  - split; [intros [|j] x Hj Hx; [by injection Hx as <-|by apply (IH1 j); [lia|]]|].
    split.
    + intros [|j] x Hj Hx Hb; [lia|]. destruct (IH2 j x ltac:(lia) Hx Hb) as [H1 H2]. split; [|done].
      intros [|j'] y Hj' Hy; [lia|]. by apply (H1 j'); [lia|].
    + intros Hl Ha. specialize (IH3 ltac:(lia) Ha). lia.
  - split; [done|]. split; [done|]. lia.
  - split; [lia|]. split.
    + intros [|j] x _ Hx Hb; [injection Hx as <-; done|]. destruct (IH2 j x ltac:(lia) Hx Hb) as [H1' H2']. split; [|done].
      intros [|j'] y Hj' Hy; [lia|]. by apply (H1' j'); [lia|].
    + intros Hl Ha. specialize (IH3 ltac:(lia) Ha). lia.
  - assert (Hlen : (length ans <= length rest)%nat) by by apply judged_stops in H1 as [[? _] _].
    split; [lia|]. split.
    + intros j x _ Hx Hb. split.
      * intros [|j'] y Hj' Hy; [by injection Hy as <-|]. apply (IH1 j'); [|done].
        apply lookup_lt_Some in Hy. cbn in Hy. lia.
      * intros Ha. specialize (IH3 ltac:(lia) Ha). apply judged_stops in H1 as [_ Hu]. rewrite (Hu Ha), length_drop in *. lia.
    + intros Hl Ha. specialize (IH3 ltac:(lia) Ha). lia.
  - split; [done|]. split; [done|]. lia.
  - split; [lia|]. split.
    + intros [|j] x _ Hx Hb.
      * injection Hx as <-. apply decision_not_busy in H0. cbn in Hb. congruence.
      * destruct (IH2 j x ltac:(lia) Hx Hb) as [H1' H2']. split; [|done].
        intros [|j'] y Hj' Hy; [lia|]. by apply (H1' j'); [lia|].
    + intros Hl Ha. specialize (IH3 ltac:(lia) Ha). lia.
  - split; [done|]. split; [done|]. lia.
Qed.
End rules.

(** Room for [n] early replies is used before a call parks. *)
Lemma judge_room fs t reason wall : forall k ring n room,
  let '(a, ans, unread, k') := judge fs t reason wall k ring (replicate n true ++ room) in
  a = Park -> (n <= length ans)%nat.
Proof.
  induction fs as [|f rest IH]; intros k ring n room; [by destruct t|].
  destruct n as [|n]; [destruct (judge _ _ _ _ _ _ _) as [[[a ans] unread] k']; lia|].
  cbn [judge]. destruct (split_request f) as [[id body]|e]; [|done].
  change (attempt (replicate (S n) true ++ room)) with (true, replicate n true ++ room). cbn iota.
  assert (Hstep : forall x r rg m, (n <= m)%nat ->
    let '(a, ans, unread, k') := (let '(a, ans, unread, k') := judge rest t reason wall r rg (replicate m true ++ room) in
      (a, x :: ans, unread, k') : FrameAction * list Answer * list (list Z) * nat) in a = Park -> (S n <= length ans)%nat).
  { intros x r rg m Hm. specialize (IH r rg m room). destruct (judge rest t reason wall r rg _) as [[[a ans] unread] k'].
    intros Ha. specialize (IH Ha). cbn [length]. lia. }
  destruct k as [|k]; [|by apply Hstep].
  destruct (decision is_query build_reject decode reason body) as [kind|e]; [by apply Hstep|].
  destruct (attempt ring) as [[] rg]; [|by apply Hstep].
  change (true :: replicate n true ++ room) with (replicate (S n) true ++ room). apply Hstep. lia.
Qed.

(** *** A connection's receives *)

Notation connection := (connection is_query build_reject decode connection_id key_hash).

Definition all_answers (os : list (@Outcome E R)) : list Answer := flat_map (fun o => answers (effects o)) os.
Definition all_received (calls : list Call) : list Z := flat_map received calls.

Definition answered_in (calls : list Call) (f : list Z) (ans : Answer) : Prop :=
  exists c, c ∈ calls /\ verdict c <> Close /\ answers_frame (refusal (verdict c)) (wall_ns c) f ans.

(** Where a connection's last call left it. *)
Definition stands (calls : list Call) (l : list (list Z) * tail) (last_action : option FrameAction) (n : nat) : Prop :=
  match last_action with
  | None => n = 0%nat
  | Some Disconnect => stops l.2 l.1 Disconnect n \/ exists c, c ∈ calls /\ verdict c = Close
  | Some a => stops l.2 l.1 a n
  end.

Lemma extend_drop m fs t more :
  (m <= length fs)%nat ->
  Decoder.extend MAX_FRAME_SIZE (fs, t) more =
  (take m fs ++ (Decoder.extend MAX_FRAME_SIZE (drop m fs, t) more).1, (Decoder.extend MAX_FRAME_SIZE (drop m fs, t) more).2).
Proof.
  intros Hm. unfold Decoder.extend. destruct t; cbn [fst snd]; by rewrite ?app_assoc, take_drop.
Qed.

Lemma stops_app t pre fs a n : stops t fs a n -> stops t (pre ++ fs) a (length pre + n).
Proof. intros H. induction pre as [|f pre IH]; [done|]. by apply stops_cons. Qed.

Lemma stands_app calls pre l a n :
  a <> None -> stands calls l a n -> stands calls (pre ++ l.1, l.2) a (length pre + n).
Proof.
  destruct l as [fs t]. intros Ha. destruct a as [[]|]; [|intros [H|H]; [left|by right]|..]; try done; cbn [fst snd stands] in *;
    try intros H; by apply stops_app.
Qed.

Lemma stands_mono calls c l a n : stands calls l a n -> stands (c :: calls) l a n.
Proof. destruct a as [[]|]; try done. intros [H|(c' & Hc & Hv)]; [by left|right]. exists c'. split; [by constructor|done]. Qed.

(** One call, on what the connection holds. *)
Lemma call_exact i c fs0 t0 k :
  holds i fs0 t0 k ->
  let o := process_client_frames is_query build_reject decode connection_id key_hash i c in
  let l := Decoder.extend MAX_FRAME_SIZE (fs0, t0) (received c) in
  let ans := answers (effects o) in
  accounted o /\
  Forall2 (answers_frame (refusal (verdict c)) (wall_ns c)) (take (length ans) l.1) ans /\
  (verdict c = Close -> ans = [] /\ action o = Disconnect) /\
  (verdict c <> Close -> stops l.2 l.1 (action o) (length ans)) /\
  (length ans <= length l.1)%nat /\
  (forall j x, (j < k)%nat -> ans !! j = Some x -> busy x = true) /\
  exists k', (action o <> Disconnect -> holds (ingress o) (drop (length ans) l.1) l.2 k' /\ (k - length ans <= k')%nat) /\
    forall j x, (k <= j)%nat -> ans !! j = Some x -> busy x = true ->
      (forall j' y, (j <= j')%nat -> ans !! j' = Some y -> busy y = true) /\
      (action o <> Disconnect -> (k' = length l.1 - length ans)%nat).
Proof.
  intros Hh. destruct (holds_extend _ _ _ _ (received c) Hh) as [Hx Hpre]. cbn zeta.
  set (l := Decoder.extend _ _ _) in *. destruct (process_judged _ _ _ _ _ Hx) as (Hacc & _ & Hj). cbn zeta in Hj.
  set (o := process_client_frames _ _ _ _ _ _ _) in *. split; [done|].
  destruct (closes (verdict c)) eqn:Hc.
  { destruct Hj as [Ha ->]. apply closes_true in Hc.
    cbn [length]. rewrite take_0. repeat (split; [done||lia|]). exists 0%nat. split; [congruence|done]. }
  assert (Hnc : verdict c <> Close) by by apply closes_false.
  pose proof (judge_judged l.2 (refusal (verdict c)) (wall_ns c) l.1 k (ring_room c) (queue_room c)) as Hjd.
  destruct (judge _ _ _ _ _ _ _) as [[[a ans] unread] k']. destruct Hj as (-> & -> & Hhold).
  pose proof (judged_answers _ _ _ _ _ _ _ _ _ Hjd) as HF. pose proof (judged_stops _ _ _ _ _ _ _ _ _ Hjd) as [Hst Hun].
  pose proof (judged_sheds _ _ _ _ _ _ _ _ _ Hjd) as (Hs1 & Hs2 & Hs3).
  split; [done|]. split; [done|]. split; [done|]. split; [apply Hst|]. split; [done|].
  exists k'. split.
  - intros Ha. rewrite <- (Hun Ha). split; [by apply Hhold|]. apply Hs3; [|done]. by destruct Hx.
  - intros j x Hj Hx' Hb. destruct (Hs2 j x Hj Hx' Hb) as [H1 H2]. split; [done|].
    intros Ha. rewrite (H2 Ha), (Hun Ha), length_drop. done.
Qed.

Lemma connection_exact calls : forall i fs0 t0 k,
  holds i fs0 t0 k ->
  let os := connection i calls in
  let l := Decoder.extend MAX_FRAME_SIZE (fs0, t0) (all_received (take (length os) calls)) in
  Forall2 (answered_in calls) (take (length (all_answers os)) l.1) (all_answers os) /\
  (length (all_answers os) <= length l.1)%nat /\
  Forall accounted os /\
  stands calls l (action <$> last os) (length (all_answers os)).
Proof.
  induction calls as [|c calls IH]; intros i fs0 t0 k Hh; cbn [Frames.connection].
  { cbn. repeat split; [constructor|lia|constructor]. }
  destruct (call_exact _ c _ _ _ Hh) as (Hacc & HF & Hclose & Hstop & Hlen & _ & k' & Hhold & _). cbn zeta in *.
  set (o := process_client_frames _ _ _ _ _ _ _) in *. set (l := Decoder.extend _ _ (received c)) in *.
  set (ans := answers (effects o)) in *.
  assert (HF' : Forall2 (answered_in (c :: calls)) (take (length ans) l.1) ans).
  { destruct (closes (verdict c)) eqn:Hc.
    - destruct Hclose as [-> _]; [by apply closes_true|]. cbn [length]. rewrite take_0. constructor.
    - eapply Forall2_impl; [exact HF|]. intros f x Hx. exists c. split; [constructor|]. split; [by apply closes_false|done]. }
  destruct (decide (action o = Disconnect)) as [Hd|Hd].
  - rewrite Hd. cbn [length take all_received flat_map all_answers]. rewrite !app_nil_r.
    split; [done|]. split; [done|]. split; [constructor; [done|constructor]|]. cbn [fmap option_fmap option_map last stands]. rewrite Hd.
    destruct (closes (verdict c)) eqn:Hc.
    + right. exists c. split; [constructor|]. by apply closes_true.
    + left. rewrite <- Hd. apply Hstop. by apply closes_false.
  - destruct (Hhold Hd) as [Hh' _]. specialize (IH _ _ _ _ Hh'). cbn zeta in IH.
    replace (match action o with Disconnect => [] | _ => connection (ingress o) calls end) with (connection (ingress o) calls)
      by (destruct (action o); [done|congruence|done]).
    set (os := connection (ingress o) calls) in *.
    assert (Hl : Decoder.extend MAX_FRAME_SIZE (fs0, t0) (all_received (take (length (o :: os)) (c :: calls))) =
      (take (length ans) l.1 ++ (Decoder.extend MAX_FRAME_SIZE (drop (length ans) l.1, l.2) (all_received (take (length os) calls))).1,
       (Decoder.extend MAX_FRAME_SIZE (drop (length ans) l.1, l.2) (all_received (take (length os) calls))).2)).
    { cbn [length take all_received flat_map]. fold (all_received (take (length os) calls)).
      rewrite Decoder.extend_app. fold l. rewrite <- extend_drop by done. by destruct l. }
    rewrite Hl. cbn [fst snd]. set (l' := Decoder.extend _ _ (all_received (take (length os) calls))) in *.
    destruct IH as (IH1 & IH2 & IH3 & IH4).
    assert (Htl : length (take (length ans) l.1) = length ans) by (rewrite length_take; lia).
    change (all_answers (o :: os)) with (ans ++ all_answers os). rewrite !length_app, Htl.
    split; [|split; [lia|split; [by constructor|]]].
    + rewrite take_app_ge by lia. rewrite Htl. replace (length ans + length (all_answers os) - length ans)%nat with (length (all_answers os)) by lia.
      apply Forall2_app; [done|]. eapply Forall2_impl; [exact IH1|]. intros f x (c' & Hc' & Hx). exists c'. split; [by constructor|done].
    + destruct os as [|o' os'] eqn:Hos.
      * cbn [all_answers flat_map length] in *. cbn [last fmap option_fmap option_map stands]. rewrite Nat.add_0_r.
        assert (Hv : verdict c <> Close) by (intros Hv; destruct (Hclose Hv); congruence).
        specialize (Hstop Hv).
        assert (Hl' : l' = (drop (length ans) l.1, l.2)).
        { subst l'. cbn [length take all_received flat_map]. rewrite <- (holds_split _ _ _ _ Hh').
          by rewrite Decoder.extend_frames, app_nil_r. }
        rewrite Hl'. cbn [fst snd]. rewrite take_drop. by destruct (action o).
      * rewrite last_cons_cons. apply (stands_mono calls c) in IH4.
        apply (stands_app _ (take (length ans) l.1)) in IH4; [by rewrite Htl in IH4|].
        destruct (proj2 (last_is_Some (o' :: os'))) as [x ->]; done.
Qed.

(** C9: Every request gets exactly one answer, decided in order, over any
    way its bytes are split into receives, any room the input ring and the
    early-reply queue have from one attempt to the next, and any halt: the
    answers of a connection are, one for one, those of the first complete
    frames it received, each published slot the decoded event under the
    client's ID and each early reply naming the request, with the decoder's
    or the halt's verdict or busy. A call that continues has answered every
    complete frame; one that parks stopped before a frame, which the next
    call starts at; a connection is closed only for a frame that is no
    request, an oversized prefix, or a superseded node. Each call's counters
    count its early answers, kind by kind and once each, no more than
    sixteen slots ever wait for a commit, and none waits past the call. *)
Theorem ingress_exactly_once (calls : list Call) :
  let os := connection new_ingress calls in
  let l := frames_of MAX_FRAME_SIZE (all_received (take (length os) calls)) in
  let ans := all_answers os in
  Forall2 (answered_in calls) (take (length ans) l.1) ans /\
  (length ans <= length l.1)%nat /\
  stands calls l (action <$> last os) (length ans) /\
  Forall accounted os.
Proof.
  cbn zeta. pose proof (connection_exact calls _ _ _ _ holds_new) as (H1 & H2 & H4 & H3).
  change ([], Partial []) with (frames_of MAX_FRAME_SIZE []) in *. rewrite Decoder.extend_frames in *. done.
Qed.

(** What a park left of a shed tail is answered busy, whatever the calls
    after it meet. *)
Lemma tail_stays_busy calls : forall i fs t k j x,
  holds i fs t k -> (j < k)%nat -> all_answers (connection i calls) !! j = Some x -> busy x = true.
Proof.
  induction calls as [|c calls IH]; intros i fs t k j x Hh Hj Hx; [done|]. cbn [Frames.connection] in Hx.
  destruct (call_exact _ c _ _ _ Hh) as (_ & _ & _ & _ & _ & Htail & k' & Hhold & _). cbn zeta in *.
  set (o := process_client_frames _ _ _ _ _ _ _) in *. set (ans := answers (effects o)) in *.
  assert (Hd : action o = Disconnect /\ ans !! j = Some x \/
               action o <> Disconnect /\ (ans ++ all_answers (connection (ingress o) calls)) !! j = Some x).
  { destruct (decide (action o = Disconnect)) as [Ha|Ha]; [left|right].
    - rewrite Ha in Hx. cbn in Hx. by rewrite app_nil_r in Hx.
    - split; [done|]. by destruct (action o). }
  destruct Hd as [[_ Hx']|[Ha Hx']]; [by eapply Htail|].
  apply lookup_app_Some in Hx' as [Hx'|[Hge Hx']]; [by eapply Htail|].
  destruct (Hhold Ha) as [Hh' Hk']. eapply IH; [exact Hh'| |exact Hx']. lia.
Qed.


(** A parked connection is not left behind: a call that finds room for
    [n] early replies answers at least [n] frames or all it holds before it
    parks again, so room for every complete frame ends the park. *)
Theorem park_makes_progress (i : ClientIngress) (fs : list (list Z)) (t : tail) (k n : nat) (c : Call) (room : list bool) :
  holds i fs t k -> queue_room c = replicate n true ++ room ->
  let o := process_client_frames is_query build_reject decode connection_id key_hash i c in
  action o = Park ->
  (n <= length (answers (effects o)) < length (Decoder.extend MAX_FRAME_SIZE (fs, t) (received c)).1)%nat.
Proof.
  intros Hh Hq. destruct (call_exact _ c _ _ _ Hh) as (_ & _ & Hclose & Hstop & _). cbn zeta in *.
  destruct (holds_extend _ _ _ _ (received c) Hh) as [Hx _]. destruct (process_judged _ _ _ _ _ Hx) as (_ & _ & Hj). cbn zeta in Hj.
  set (o := process_client_frames _ _ _ _ _ _ _) in *. intros Ha.
  assert (Hv : verdict c <> Close) by (intros Hv; destruct (Hclose Hv); congruence).
  specialize (Hstop Hv). rewrite Ha in Hstop. destruct Hstop as [_ Hlt]. split; [|done].
  rewrite (proj2 (closes_false _) Hv), Hq in Hj.
  pose proof (judge_room (Decoder.extend MAX_FRAME_SIZE (fs, t) (received c)).1 (Decoder.extend MAX_FRAME_SIZE (fs, t) (received c)).2
    (refusal (verdict c)) (wall_ns c) k (ring_room c) n room) as Hroom.
  destruct (judge _ _ _ _ _ _ _) as [[[a ans] unread] k']. destruct Hj as (Ha' & -> & _). apply Hroom. congruence.
Qed.

End promise.
End Promise.

(** ** A burst that meets a full ring *)

Module Sample.
Import Early Frames Promise.

(** Events are single bytes; none is a query. *)
Definition sample_query (_ : Z) : bool := false.
Definition sample_reject (e : Z) (_ : RejectReason) : Z := e.
Definition sample_decode (body : list Z) : Decoded Z :=
  match body with [b] => Permitted b | _ => DecodeError [] end.

Definition request (id b : Z) : list Z := Codec.Le.le 4 10 ++ TAG_REQUEST :: Codec.Le.le 8 id ++ [b].
Definition burst : list Z := request 1 65 ++ request 2 66 ++ request 3 67.
Definition call_of (bytes : list Z) (ring queue : list bool) : Call :=
  {| received := bytes; verdict := Take; ring_room := ring; queue_room := queue; wall_ns := 5 |}.
Definition first_call : Call := call_of burst [false] [true].
Definition second_call : Call := call_of [] (replicate 8 true) (replicate 8 true).
Definition busy_for (id : Z) : @Answer Z Z := Answered (Build_EarlyReply 9 id Busy).

Example burst_answers :
  all_answers (connection sample_query sample_reject sample_decode 9 7 new_ingress [first_call; second_call]) =
  [busy_for 1; busy_for 2; busy_for 3].
Proof. vm_compute. reflexivity. Qed.


Lemma park_makes_progress_witness :
  let o := process_client_frames sample_query sample_reject sample_decode 9 7 new_ingress first_call in
  (1 <= length (answers (effects o)) < 3)%nat.
Proof.
  intros o. change 3%nat with (length (Decoder.extend MAX_FRAME_SIZE ([], Partial []) (received first_call)).1).
  apply (park_makes_progress sample_query sample_reject sample_decode 9 7 new_ingress [] (Partial []) 0 1 first_call []).
  - apply holds_new.
  - reflexivity.
  - vm_compute. reflexivity.
Defined.
End Sample.
