(* ===== verification/Egress.v ===== *)
(** * Replies on their way out

    [Encoding] is what a reply's bytes are
    ([server-runtime/src/response_frame.rs], and the pre-encoded terminators
    and the slot's frames of [durability_gate.rs] and [response_loop.rs]);
    [Uring] the kernel TCP egress of [server-runtime/src/response.rs]: the
    connection table, the send buffers with their cap, the dirty and drop
    lists, the flush and its cadence; [Streams] and [UringFacts] what its
    operations make of each connection's stream. The application's encoder is
    a parameter; the kernel is one too: the ring's depth, whether each flush's
    submission is taken, and what its sends return. *)

From stdpp Require Import gmap.
From S2P Require Import Prelude Cursors Lineage Codec Protocol Presence Stages Gate ClientWire Ingress.
Import Codec.Le Protocol.Framing ClientWire.Split ClientWire.Request ClientWire.Reply.

Module Encoding.
Import Ingress.Early Stages.Live Gate.Gate.

Definition MAX_RESPONSE_BODY : nat := 512.
Definition HEADER_LEN : nat := 4 + TAG_LEN.
Definition MAX_APP_FRAME : nat := HEADER_LEN + MAX_RESPONSE_BODY.
Definition MAX_EARLY_REPLY : nat :=
  let rejected := (MAX_APP_FRAME + BATCH_END_FRAME_LEN)%nat in
  if (MAX_CONTROL_FRAME_LEN <? rejected)%nat then rejected else MAX_CONTROL_FRAME_LEN.

(** [ResponseEncoder]: each method rewrites the region it is lent and
    reports a length, or why it cannot. *)
Class ResponseEncoder (R Q : Type) := {
  encode_report : R -> list Z -> list Z * result Z (list Z);
  encode_query : Q -> list Z -> list Z * result Z (list Z)
}.

(** A region is a slice, written in place; a length is a [usize]. *)
Definition in_place (f : list Z -> list Z * result Z (list Z)) : Prop :=
  forall region, length (f region).1 = length region /\
  forall n, (f region).2 = Ok n -> 0 <= n.
Class ResponseEncoderLaws (R Q : Type) `{ResponseEncoder R Q} := {
  report_in_place : forall r, in_place (encode_report r);
  query_in_place : forall q, in_place (encode_query q)
}.

(** Why an encode is refused: the encoder's own reason, or its length. *)
Inductive EncodeError := EncoderFailed (reason : list Z) | BodyTooLong.

(** [frame_zeroed]: the buffer after the call, and the frame's length. *)
Definition frame_zeroed (buf : list Z) (encode : list Z -> list Z * result Z (list Z))
    : list Z * result nat EncodeError :=
  let '(body, r) := encode (replicate (length buf - HEADER_LEN) 0) in
  match r with
  | Err reason => (take HEADER_LEN buf ++ body, Err (EncoderFailed reason))
  | Ok len =>
    if Z.of_nat MAX_RESPONSE_BODY <? len then (take HEADER_LEN buf ++ body, Err BodyTooLong)
    else (le 4 (Z.of_nat TAG_LEN + len) ++ TAG_APP :: body, Ok (HEADER_LEN + Z.to_nat len)%nat)
  end.

(** [BatchEnds]: the two terminators, encoded once; each use writes the
    request's ID into one. *)
Record BatchEnds := { be_policy : list Z; be_primary_only : list Z }.

Definition encoded (r : TransportResponse) : list Z :=
  match encode_transport_response r BATCH_END_FRAME_LEN with Ok frame => frame | Err _ => [] end.

Definition batch_ends_new : BatchEnds :=
  {| be_policy := encoded (ClientWire.Reply.BatchEnd 0); be_primary_only := encoded (BatchEndDegraded 0) |}.

Definition terminator (b : BatchEnds) (backing : Backing) (id : Z) : list Z * BatchEnds :=
  match backing with
  | Policy =>
    let frame := write_terminal_id (be_policy b) id in
    (frame, {| be_policy := frame; be_primary_only := be_primary_only b |})
  | PrimaryOnly =>
    let frame := write_terminal_id (be_primary_only b) id in
    (frame, {| be_policy := be_policy b; be_primary_only := frame |})
  end.

(** What the loop lends a send: the encode buffer and the terminators. *)
Record Buffers := { encode_buf : list Z; batch_ends : BatchEnds }.

(** What a send found; only an egress whose send can wait for room returns
    the last, when shutdown ends its wait. *)
Inductive SlotOutcome := Known | Unknown | Stopped.

Section encoding.
Context {R Q : Type} `{ResponseEncoder R Q}.

Definition encode_slot_payload (p : OutputPayload R Q) (buf : list Z) : list Z * option (result nat EncodeError) :=
  match p with
  | Report r => let '(buf, n) := frame_zeroed buf (encode_report r) in (buf, Some n)
  | QueryResponse q => let '(buf, n) := frame_zeroed buf (encode_query q) in (buf, Some n)
  | Stages.Live.BatchEnd | PolicyChange _ => (buf, None)
  end.

(** [SlotReply::into_frames]: the payload's frame in the buffer, and the
    trailer of a request's last slot. *)
Record SlotFrames := { sf_payload : option (result nat EncodeError); sf_buf : list Z; sf_trailer : list Z }.

Definition into_frames (slot : OutputSlot R Q) (backing : Backing) (buf : list Z) (b : BatchEnds)
    : SlotFrames * BatchEnds :=
  let '(buf, payload) := encode_slot_payload (payload slot) buf in
  let '(trailer, b) := if is_last_in_request slot then terminator b backing (o_request_id slot) else ([], b) in
  ({| sf_payload := payload; sf_buf := buf; sf_trailer := trailer |}, b).

(** The one encoding of an early reply, frames back to back; [None] where an
    [expect] would fail. *)
Definition encode_early_reply (reply : EarlyReply R) (buf : list Z) : option (list Z * nat) :=
  let id := er_request_id reply in
  let '(buf, written, last) :=
    match er_kind reply with
    | Rejected report =>
      let '(app, r) := frame_zeroed (take MAX_APP_FRAME buf) (encode_report report) in
      (app ++ drop MAX_APP_FRAME buf, match r with Ok n => n | Err _ => 0%nat end, ClientWire.Reply.BatchEnd id)
    | Filtered => (buf, 0%nat, ClientWire.Reply.BatchEnd id)
    | Ingress.Early.Refused kind reason => (buf, 0%nat, ClientWire.Reply.Refused id kind reason)
    | Busy => (buf, 0%nat, ServerBusy id)
    end in
  match encode_transport_response last (length buf - written) with
  | Ok frame => Some (take written buf ++ frame ++ drop (written + length frame) buf, (written + length frame)%nat)
  | Err _ => None
  end.

(** *** What those bytes are *)

(** A body's frame: a function of what the encoder makes of a zeroed region. *)
Definition app_frame (encode : list Z -> list Z * result Z (list Z)) : list Z :=
  match encode (replicate MAX_RESPONSE_BODY 0) with
  | (body, Ok len) =>
    if Z.of_nat MAX_RESPONSE_BODY <? len then []
    else le 4 (Z.of_nat TAG_LEN + len) ++ TAG_APP :: take (Z.to_nat len) body
  | (_, Err _) => []
  end.

Definition payload_bytes (p : OutputPayload R Q) : list Z :=
  match p with
  | Report r => app_frame (encode_report r)
  | QueryResponse q => app_frame (encode_query q)
  | _ => []
  end.

Definition ends_with (backing : Backing) (id : Z) : TransportResponse :=
  match backing with Policy => ClientWire.Reply.BatchEnd id | PrimaryOnly => BatchEndDegraded id end.

Definition frame_of (r : TransportResponse) : list Z :=
  le 4 (Z.of_nat (TAG_LEN + body_len r)) ++ response_payload r.

Definition slot_bytes (slot : OutputSlot R Q) (backing : Backing) : list Z :=
  payload_bytes (payload slot) ++
  (if is_last_in_request slot then frame_of (ends_with backing (o_request_id slot)) else []).

(** The frames an early reply is sent as: what precedes the final one, and
    the final one. *)
Definition early_body (reply : EarlyReply R) : list Z :=
  match er_kind reply with Rejected report => app_frame (encode_report report) | _ => [] end.
Definition early_final (reply : EarlyReply R) : TransportResponse :=
  match er_kind reply with
  | Rejected _ | Filtered => ClientWire.Reply.BatchEnd (er_request_id reply)
  | Ingress.Early.Refused kind reason => ClientWire.Reply.Refused (er_request_id reply) kind reason
  | Busy => ServerBusy (er_request_id reply)
  end.
Definition early_bytes (reply : EarlyReply R) : list Z := early_body reply ++ frame_of (early_final reply).

Lemma app_frame_len encode : (length (app_frame encode) <= MAX_APP_FRAME)%nat.
Proof.
  unfold app_frame, MAX_APP_FRAME, HEADER_LEN, TAG_LEN, MAX_RESPONSE_BODY. destruct (encode _) as [body [len|]]; [|cbn; lia].
  destruct (Z.of_nat 512 <? len) eqn:Hl; [cbn; lia|]. zb. rewrite length_app, le_length. cbn [length]. rewrite length_take. lia.
Qed.

(** Whatever the buffer held, the bytes framed are the encoder's over a
    zeroed region. *)
Lemma frame_zeroed_bytes buf encode :
  length buf = MAX_APP_FRAME -> in_place encode ->
  let '(buf', r) := frame_zeroed buf encode in
  let n := match r with Ok n => n | Err _ => 0%nat end in
  length buf' = length buf /\ take n buf' = app_frame encode /\ length (app_frame encode) = n.
Proof.
  unfold frame_zeroed, app_frame. intros Hl Hp. rewrite Hl.
  change (MAX_APP_FRAME - HEADER_LEN)%nat with MAX_RESPONSE_BODY.
  pose proof (Hp (replicate MAX_RESPONSE_BODY 0)) as [Hlen Hn].
  destruct (encode (replicate MAX_RESPONSE_BODY 0)) as [body r]. cbn [fst snd] in *. rewrite length_replicate in Hlen.
  assert (Herr : length (take HEADER_LEN buf ++ body) = length buf).
  { rewrite length_app, length_take, Hl, Hlen. done. }
  destruct r as [len|reason]; [|by rewrite Herr, Hl].
  destruct (Z.of_nat MAX_RESPONSE_BODY <? len) eqn:Hm; zb; [by rewrite Herr, Hl|]. specialize (Hn len eq_refl).
  rewrite !length_app, le_length. cbn [length]. rewrite length_take, Hlen.
  unfold MAX_APP_FRAME, HEADER_LEN, TAG_LEN, MAX_RESPONSE_BODY in *.
  split; [lia|]. split; [|lia]. rewrite take_app_ge by (rewrite le_length; lia). rewrite le_length. f_equal.
Qed.

Definition ends_ok (b : BatchEnds) : Prop :=
  (exists i, be_policy b = frame_of (ClientWire.Reply.BatchEnd i)) /\ exists i, be_primary_only b = frame_of (BatchEndDegraded i).

Definition buffers_ok (b : Buffers) : Prop := length (encode_buf b) = MAX_APP_FRAME /\ ends_ok (batch_ends b).

Lemma ends_new_ok : ends_ok batch_ends_new.
Proof. split; by exists 0. Qed.

Lemma write_id_frame mk i id : mk = ClientWire.Reply.BatchEnd \/ mk = BatchEndDegraded ->
  write_terminal_id (frame_of (mk i)) id = frame_of (mk id).
Proof. by intros [-> | ->]. Qed.

Lemma terminator_bytes b backing id :
  ends_ok b -> (terminator b backing id).1 = frame_of (ends_with backing id) /\ ends_ok (terminator b backing id).2.
Proof.
  intros [[i Hi] [j Hj]]. destruct backing; cbn [terminator fst snd ends_with]; rewrite ?Hi, ?Hj.
  - rewrite (write_id_frame ClientWire.Reply.BatchEnd) by auto. split; [done|]. split; [by exists id|by exists j].
  - rewrite (write_id_frame BatchEndDegraded) by auto. split; [done|]. split; [by exists i|by exists id].
Qed.

Context `{!ResponseEncoderLaws R Q}.

Lemma payload_encoded p buf :
  length buf = MAX_APP_FRAME ->
  let '(buf', r) := encode_slot_payload p buf in
  length buf' = length buf /\
  take (match r with Some (Ok n) => n | _ => 0%nat end) buf' = payload_bytes p.
Proof.
  intros Hl. destruct p as [r|q| |c]; cbn [encode_slot_payload payload_bytes]; [| |done|done].
  - pose proof (frame_zeroed_bytes buf _ Hl (report_in_place r)) as H1.
    destruct (frame_zeroed _ _) as [buf' [n|e]]; destruct H1 as (? & ? & _); done.
  - pose proof (frame_zeroed_bytes buf _ Hl (query_in_place q)) as H1.
    destruct (frame_zeroed _ _) as [buf' [n|e]]; destruct H1 as (? & ? & _); done.
Qed.

(** A slot's frames are its bytes, and the buffers stay ready for the next. *)
Lemma into_frames_bytes slot backing buf b :
  length buf = MAX_APP_FRAME -> ends_ok b ->
  let '(f, b') := into_frames slot backing buf b in
  take (match sf_payload f with Some (Ok n) => n | _ => 0%nat end) (sf_buf f) ++ sf_trailer f = slot_bytes slot backing /\
  length (sf_buf f) = length buf /\ ends_ok b'.
Proof.
  intros Hl Hb. unfold into_frames, slot_bytes. pose proof (payload_encoded (payload slot) buf Hl) as Hp.
  destruct (encode_slot_payload (payload slot) buf) as [buf' r]. destruct Hp as [Hl' Hp].
  destruct (is_last_in_request slot).
  - destruct (terminator_bytes b backing (o_request_id slot) Hb) as [Ht Hb'].
    destruct (terminator b backing (o_request_id slot)) as [trailer b']. cbn [fst snd sf_payload sf_buf sf_trailer] in *.
    split; [by rewrite Hp, Ht|]. done.
  - cbn [sf_payload sf_buf sf_trailer]. split; [by rewrite Hp|]. done.
Qed.

Lemma truncate_reason_len reason : (length (truncate_reason reason) <= MAX_REFUSAL_REASON)%nat.
Proof.
  unfold truncate_reason. destruct (length reason <=? MAX_REFUSAL_REASON)%nat eqn:Hl; [by apply Nat.leb_le in Hl|].
  rewrite length_take. pose proof (walk_back_spec reason MAX_REFUSAL_REASON) as [? _]. lia.
Qed.

Lemma final_len reply :
  (length (frame_of (early_final reply)) <= MAX_CONTROL_FRAME_LEN)%nat /\
  (early_body reply <> [] -> length (frame_of (early_final reply)) = BATCH_END_FRAME_LEN).
Proof.
  unfold frame_of, early_final, early_body, MAX_CONTROL_FRAME_LEN, BATCH_END_FRAME_LEN, PREFIX_LEN, TAG_LEN, REQUEST_ID_LEN, MAX_REFUSAL_REASON.
  destruct (er_kind reply) as [r| |k reason|]; rewrite length_app, le_length; cbn [response_payload tag_and_id length];
    rewrite ?length_app, ?le_length; cbn [length]; try (split; [lia|done]).
  pose proof (truncate_reason_len reason) as Ht. unfold MAX_REFUSAL_REASON in Ht. split; [lia|done].
Qed.

Lemma early_len reply : (length (early_bytes reply) <= MAX_EARLY_REPLY)%nat.
Proof.
  unfold early_bytes. rewrite length_app. destruct (final_len reply) as [H1 H2].
  change MAX_EARLY_REPLY with 530%nat. change MAX_CONTROL_FRAME_LEN with 270%nat in H1.
  destruct (early_body reply) as [|x l] eqn:Hb; [cbn [length]; lia|]. rewrite H2 by done.
  assert (length (x :: l) <= MAX_APP_FRAME)%nat.
  { rewrite <- Hb. unfold early_body. destruct (er_kind reply); try (cbn; lia). apply app_frame_len. }
  change MAX_APP_FRAME with 517%nat in *. change BATCH_END_FRAME_LEN with 13%nat. lia.
Qed.

Lemma final_frame_len reply : length (frame_of (early_final reply)) = (PREFIX_LEN + TAG_LEN + body_len (early_final reply))%nat.
Proof.
  unfold frame_of, early_final, PREFIX_LEN, TAG_LEN.
  destruct (er_kind reply); rewrite length_app, le_length; cbn [response_payload tag_and_id length body_len];
    unfold REQUEST_ID_LEN; rewrite ?length_app, ?le_length; cbn [length]; lia.
Qed.

(** An early reply always fits its buffer, whatever the buffer held. *)
Lemma early_encoded reply buf :
  length buf = MAX_EARLY_REPLY ->
  exists buf', encode_early_reply reply buf = Some (buf', length (early_bytes reply)) /\
    take (length (early_bytes reply)) buf' = early_bytes reply /\ length buf' = length buf.
Proof.
  intros Hl. pose proof (early_len reply) as Hfit. pose proof (final_frame_len reply) as Hfl.
  unfold early_bytes in *. rewrite length_app in *.
  assert (Hwrite : exists buf1, length buf1 = length buf /\ take (length (early_body reply)) buf1 = early_body reply /\
    encode_early_reply reply buf =
    match encode_transport_response (early_final reply) (length buf1 - length (early_body reply)) with
    | Ok frame => Some (take (length (early_body reply)) buf1 ++ frame ++ drop (length (early_body reply) + length frame) buf1,
                        (length (early_body reply) + length frame)%nat)
    | Err _ => None
    end).
  { unfold encode_early_reply, early_body, early_final.
    destruct (er_kind reply) as [r| |k why|]; [|by exists buf..].
    assert (Hl' : length (take MAX_APP_FRAME buf) = MAX_APP_FRAME) by (rewrite length_take, Hl; done).
    pose proof (frame_zeroed_bytes (take MAX_APP_FRAME buf) _ Hl' (report_in_place r)) as Hz.
    destruct (frame_zeroed _ _) as [app r']. destruct Hz as (Hal & Hat & Han). rewrite Hl' in Hal.
    exists (app ++ drop MAX_APP_FRAME buf). rewrite length_app, length_drop, Hal. rewrite Han.
    split; [rewrite Hl; done|]. split; [|done].
    rewrite take_app_le; [done|]. rewrite Hal, <- Han. apply app_frame_len. }
  destruct Hwrite as (buf1 & Hl1 & Ht & ->). unfold encode_transport_response.
  rewrite (proj2 (Nat.leb_le _ _)) by lia. fold (frame_of (early_final reply)).
  eexists. split; [done|]. rewrite Ht, app_assoc. split.
  - rewrite <- length_app. apply take_app_length.
  - rewrite !length_app, length_drop. lia.
Qed.
End encoding.
End Encoding.

(** ** What an egress promises

    Two observations of any egress: a connection's stream, every byte handed
    to it since it registered ([None] once it is gone), and what its socket
    has accepted. *)

Module Streams.

Record View := { stream : Z -> option (list Z); sock : Z -> list Z }.

(** The bytes an operation adds, per connection. *)
Definition additions := Z -> list Z.
Definition nothing : additions := fun _ => [].
Definition only (id : Z) (bytes : list Z) : additions := fun x => if decide (x = id) then bytes else [].
Definition then_add (a b : additions) : additions := fun id => a id ++ b id.

(** A connection keeps its stream, with the additions at its end and its
    socket never ahead of it, or is gone for good; none appears. *)
Definition evolves_by (add : additions) (v v' : View) : Prop :=
  forall id, sock v id `prefix_of` sock v' id /\
  match stream v id, stream v' id with
  | None, None => sock v' id = sock v id
  | Some s, Some s' => s' = s ++ add id
  | Some s, None => sock v' id `prefix_of` s ++ add id
  | None, Some _ => False
  end.

Lemma stream_trans a b v1 v2 v3 :
  evolves_by a v1 v2 -> evolves_by b v2 v3 -> evolves_by (then_add a b) v1 v3.
Proof.
  intros H12 H23 id. destruct (H12 id) as [Hp1 H1]. destruct (H23 id) as [Hp2 H2].
  split; [by transitivity (sock v2 id)|]. unfold then_add.
  destruct (stream v1 id) as [s1|], (stream v2 id) as [s2|], (stream v3 id) as [s3|]; try done.
  - by rewrite H2, H1, app_assoc.
  - by rewrite H1, <- app_assoc in H2.
  - rewrite H2. rewrite H1. rewrite app_assoc. by apply prefix_app_r.
  - congruence.
Qed.

Lemma evolves_ext a b v v' : (forall id, a id = b id) -> evolves_by a v v' -> evolves_by b v v'.
Proof. intros Hab H id. rewrite <- Hab. apply H. Qed.

Lemma evolves_quiet a v1 v2 v3 : evolves_by a v1 v2 -> evolves_by nothing v2 v3 -> evolves_by a v1 v3.
Proof. intros H1 H2. eapply evolves_ext; [|by eapply stream_trans]. intros id. unfold then_add, nothing. apply app_nil_r. Qed.

Lemma evolves_quiet_l a v1 v2 v3 : evolves_by nothing v1 v2 -> evolves_by a v2 v3 -> evolves_by a v1 v3.
Proof. intros H1 H2. by eapply evolves_ext; [|by eapply stream_trans]. Qed.

(** *** Registration *)

Inductive ControlEvent := Connected (connection_id : Z) | Disconnected (connection_id : Z).

Definition control_view (v : View) (ev : ControlEvent) : View :=
  match ev with
  | Connected id => {| stream := fun x => if decide (x = id) then Some (sock v id) else stream v x; sock := sock v |}
  | Disconnected id => {| stream := fun x => if decide (x = id) then None else stream v x; sock := sock v |}
  end.

(** A connection's ID is never reused, so what registers is new. *)
Fixpoint fresh (v : View) (events : list ControlEvent) : Prop :=
  match events with
  | [] => True
  | ev :: rest => match ev with Connected id => stream v id = None | Disconnected _ => True end /\ fresh (control_view v ev) rest
  end.

Definition same_view (v v' : View) : Prop := (forall id, stream v id = stream v' id) /\ forall id, sock v id = sock v' id.

Lemma control_view_ext v v' ev : same_view v v' -> same_view (control_view v ev) (control_view v' ev).
Proof. intros [H1 H2]. destruct ev; split; cbn; try done; intros x; case_decide; by rewrite ?H1, ?H2. Qed.

Lemma fresh_ext l : forall v v', same_view v v' -> fresh v l -> fresh v' l.
Proof.
  induction l as [|ev l IH]; intros v v' Hv Hf; [done|]. destruct Hf as [Hev Hf]. split.
  - destruct ev; [|done]. by rewrite <- (proj1 Hv).
  - by eapply IH; [apply control_view_ext|].
Qed.

Lemma control_views_ext l : forall v v', same_view v v' -> same_view (fold_left control_view l v) (fold_left control_view l v').
Proof. induction l as [|y l IHl]; intros v v' Hv; [done|]. cbn. by apply IHl, control_view_ext. Qed.
End Streams.

(** ** The kernel TCP egress *)

Module Uring.
Import Encoding Streams Ingress.Early Stages.Live Gate.Gate.

(** Bytes, slots and nanoseconds. *)
Definition MAX_SEND_BUF : nat := Z.to_nat 65536.
Definition BLOCKED_RETRY_INTERVAL : Z := 100000.
Definition FLUSH_BYTES_THRESHOLD : nat := Z.to_nat 1400.
Definition FLUSH_SLOT_INTERVAL : nat := 256.
Definition BLOCKED_SEND_TIMEOUT : Z := 5000000000.
Definition EAGAIN : Z := 11.

Record FlushCadence := { slots_since_flush : nat; due : bool }.
Definition cadence_default : FlushCadence := {| slots_since_flush := 0; due := false |}.
Definition on_append (c : FlushCadence) (buffered_bytes : nat) : FlushCadence :=
  {| slots_since_flush := S (slots_since_flush c); due := due c || (FLUSH_BYTES_THRESHOLD <=? buffered_bytes)%nat |}.
Definition is_due (c : FlushCadence) : bool := due c || (FLUSH_SLOT_INTERVAL <=? slots_since_flush c)%nat.

Record ConnectionEntry := {
  send_buf : list Z;
  last_send : Z;
  blocked_since : option Z;
  last_send_attempt : Z;
  is_dirty : bool
}.

(** [sockets] is the bytes each connection's socket has accepted, [shut] the
    sockets shut down: what the stage has done to the kernel. [panicked] is set
    once a flush has taken the stage down. *)
Record UringEgress := {
  connections : gmap Z ConnectionEntry;
  dirty : list Z;
  to_remove : list Z;
  cadence : FlushCadence;
  active_connections : Z;
  fenced : bool;
  flushes : nat;
  sockets : gmap Z (list Z);
  shut : list Z;
  panicked : bool
}.

Definition with_table (s : UringEgress) (conns : gmap Z ConnectionEntry) (d r : list Z) : UringEgress :=
  {| connections := conns; dirty := d; to_remove := r; cadence := cadence s;
     active_connections := active_connections s; fenced := fenced s; flushes := flushes s;
     sockets := sockets s; shut := shut s; panicked := panicked s |}.
Definition with_cadence (s : UringEgress) (c : FlushCadence) : UringEgress :=
  {| connections := connections s; dirty := dirty s; to_remove := to_remove s; cadence := c;
     active_connections := active_connections s; fenced := fenced s; flushes := flushes s;
     sockets := sockets s; shut := shut s; panicked := panicked s |}.

Definition set_dirty (e : ConnectionEntry) (b : bool) : ConnectionEntry :=
  {| send_buf := send_buf e; last_send := last_send e; blocked_since := blocked_since e;
     last_send_attempt := last_send_attempt e; is_dirty := b |}.
Definition set_sent (e : ConnectionEntry) (rest : list Z) (blocked : option Z) : ConnectionEntry :=
  {| send_buf := rest; last_send := last_send e; blocked_since := blocked;
     last_send_attempt := last_send_attempt e; is_dirty := is_dirty e |}.
Definition set_attempt (e : ConnectionEntry) (now : Z) : ConnectionEntry :=
  {| send_buf := send_buf e; last_send := last_send e; blocked_since := blocked_since e;
     last_send_attempt := now; is_dirty := is_dirty e |}.
Definition appended (e : ConnectionEntry) (bytes : list Z) (now : Z) : ConnectionEntry :=
  {| send_buf := send_buf e ++ bytes; last_send := now; blocked_since := blocked_since e;
     last_send_attempt := last_send_attempt e; is_dirty := is_dirty e |}.

(** [mark_dirty], [unmark_dirty]. *)
Definition mark_dirty (e : ConnectionEntry) (id : Z) (d : list Z) : ConnectionEntry * list Z :=
  if is_dirty e then (e, d) else (set_dirty e true, d ++ [id]).
Definition unmark_dirty (id : Z) (d : list Z) : list Z := filter (fun x => x <> id) d.

(** *** The flush *)

(** Which connections a flush submits, and the ones it gives up on. *)
Definition submit_one (now : Z) (acc : gmap Z ConnectionEntry * list Z * list Z) (id : Z)
    : gmap Z ConnectionEntry * list Z * list Z :=
  let '(conns, rem, sub) := acc in
  match conns !! id with
  | None => acc
  | Some e =>
    match send_buf e with
    | [] => acc
    | _ =>
      let submit := (<[id := set_attempt e now]> conns, rem, sub ++ [id]) in
      match blocked_since e with
      | Some blocked_at =>
        if BLOCKED_SEND_TIMEOUT <=? sat_sub now blocked_at then (conns, rem ++ [id], sub)
        else if sat_sub now (last_send_attempt e) <? BLOCKED_RETRY_INTERVAL then acc
        else submit
      | None => submit
      end
    end
  end.

(** One completion: the bytes accepted leave the buffer. *)
Definition complete_one (now : Z) (acc : gmap Z ConnectionEntry * list Z * gmap Z (list Z)) (cqe : Z * Z)
    : gmap Z ConnectionEntry * list Z * gmap Z (list Z) :=
  let '(conns, rem, socks) := acc in
  let '(id, result) := cqe in
  match conns !! id with
  | None => acc
  | Some e =>
    let keep_blocked := Some (default now (blocked_since e)) in
    if result =? - EAGAIN then (<[id := set_sent e (send_buf e) keep_blocked]> conns, rem, socks)
    else if result <? 0 then (conns, rem ++ [id], socks)
    else
      let sent := Z.to_nat result in
      let socks := <[id := default [] (socks !! id) ++ take sent (send_buf e)]> socks in
      if (sent =? 0)%nat then (<[id := set_sent e (send_buf e) keep_blocked]> conns, rem, socks)
      else if (length (send_buf e) <=? sent)%nat then (<[id := set_sent e [] None]> conns, rem, socks)
      else (<[id := set_sent e (drop sent (send_buf e)) (Some now)]> conns, rem, socks)
  end.

(** A connection stays dirty while it holds bytes and was not given up on. *)
Definition stays_dirty (conns : gmap Z ConnectionEntry) (rem : list Z) (id : Z) : bool :=
  negb (bool_decide (id ∈ rem)) && match conns !! id with Some e => negb (bool_decide (send_buf e = [])) | None => false end.
Definition clear_dirty (rem : list Z) (conns0 : gmap Z ConnectionEntry) (conns : gmap Z ConnectionEntry) (id : Z)
    : gmap Z ConnectionEntry :=
  if stays_dirty conns0 rem id then conns
  else match conns !! id with Some e => <[id := set_dirty e false]> conns | None => conns end.

(** The submission ring's depth; and of the [n]th flush the clock and, if its
    submission is taken (a signal only makes it try again), what each send
    returns. *)
Record Kernel := { ring_entries : nat; nth_flush : nat -> Z * option (Z -> Z) }.

(** A panic: nothing is sent, and nothing is done any more. *)
Definition panic (s : UringEgress) : UringEgress :=
  {| connections := connections s; dirty := dirty s; to_remove := to_remove s; cadence := cadence s;
     active_connections := active_connections s; fenced := fenced s; flushes := flushes s;
     sockets := sockets s; shut := shut s; panicked := true |}.

Section egress.
Context (kernel : Kernel).

(** The panics: a ring too shallow for the sends, and a submission the kernel
    does not take. *)
Definition flush_sends (s : UringEgress) : UringEgress :=
  if panicked s then s
  else
    let '(now, submission) := nth_flush kernel (flushes s) in
    let '(conns, rem, sub) := fold_left (submit_one now) (dirty s) (connections s, to_remove s, []) in
    if (ring_entries kernel <? length sub)%nat then panic s
    else
      match (if (0 <? length sub)%nat then submission else Some (fun _ => 0)) with
      | None => panic s
      | Some result =>
        let '(conns, rem, socks) :=
          fold_left (complete_one now) (map (fun id => (id, result id)) sub) (conns, rem, sockets s) in
        {| connections := fold_left (clear_dirty rem conns) (dirty s) conns;
           dirty := filter (fun id => stays_dirty conns rem id = true) (dirty s);
           to_remove := rem; cadence := cadence s; active_connections := active_connections s;
           fenced := fenced s; flushes := S (flushes s); sockets := socks; shut := shut s; panicked := false |}
      end.

Definition send_dirty (s : UringEgress) : UringEgress := with_cadence (flush_sends s) cadence_default.

(** [teardown_dropped]: both halves of the socket are shut down, and the
    connection's permit is released. *)
Definition tear_down (s : UringEgress) (id : Z) : UringEgress :=
  match connections s !! id with
  | Some _ =>
    {| connections := delete id (connections s); dirty := dirty s; to_remove := to_remove s; cadence := cadence s;
       active_connections := wrapping_add (active_connections s) (-1); fenced := fenced s; flushes := flushes s;
       sockets := sockets s; shut := shut s ++ [id]; panicked := panicked s |}
  | None => s
  end.

Definition teardown_flush_failures (s : UringEgress) : UringEgress :=
  let s' := fold_left tear_down (to_remove s) s in
  with_table s' (connections s') (dirty s') [].

Definition drop_overflowed (s : UringEgress) : UringEgress :=
  let s' := fold_left (fun s id => let s := tear_down s id in with_table s (connections s) (unmark_dirty id (dirty s)) (to_remove s))
              (to_remove s) s in
  with_table s' (connections s') (dirty s') [].

Definition flush (s : UringEgress) : UringEgress :=
  match dirty s with
  | [] => with_cadence s cadence_default
  | _ => teardown_flush_failures (send_dirty s)
  end.

Definition flush_if_due (s : UringEgress) : UringEgress :=
  if is_due (cadence s) then flush (drop_overflowed s) else s.

(** *** Appends *)

Inductive AppendOutcome := Continue | ConnectionDropped.

(** [append_frames] for the bytes of one slot or early reply. *)
Definition append_bytes (s : UringEgress) (id : Z) (e : ConnectionEntry) (bytes : list Z) (now : Z)
    : AppendOutcome * ConnectionEntry * UringEgress :=
  match bytes with
  | [] => (Continue, e, s)
  | _ =>
    if (MAX_SEND_BUF <? length (send_buf e) + length bytes)%nat
    then (ConnectionDropped, e, with_table s (connections s) (dirty s) (to_remove s ++ [id]))
    else
      let '(e, d) := mark_dirty (appended e bytes now) id (dirty s) in
      (Continue, e, with_table s (<[id := e]> (connections s)) d (to_remove s))
  end.

Definition append_frames (s : UringEgress) (payload : option (result nat EncodeError)) (trailer : list Z) (id : Z)
    (e : ConnectionEntry) (encode_buf : list Z) (now : Z) : AppendOutcome * ConnectionEntry * UringEgress :=
  let written := match payload with Some (Ok n) => n | _ => 0%nat end in
  append_bytes s id e (take written encode_buf ++ trailer) now.

(** *** The egress's operations *)

Definition drain_one (now : Z) (s : UringEgress) (ev : ControlEvent) : UringEgress :=
  match ev with
  | Connected id =>
    with_table s
      (<[id := {| send_buf := []; last_send := now; blocked_since := None; last_send_attempt := now; is_dirty := false |}]>
         (connections s)) (dirty s) (to_remove s)
  | Disconnected id =>
    {| connections := delete id (connections s); dirty := unmark_dirty id (dirty s); to_remove := to_remove s;
       cadence := cadence s;
       active_connections := match connections s !! id with
                             | Some _ => wrapping_add (active_connections s) (-1) | None => active_connections s end;
       fenced := fenced s; flushes := flushes s; sockets := sockets s; shut := shut s; panicked := panicked s |}
  end.
Definition drain_control (now : Z) (events : list ControlEvent) (s : UringEgress) : UringEgress :=
  fold_left (drain_one now) events s.

Section reply.
Context {R Q : Type} `{ResponseEncoder R Q}.

Definition send_slot (s : UringEgress) (id : Z) (slot : OutputSlot R Q) (backing : Backing) (b : Buffers) (now : Z)
    : SlotOutcome * UringEgress * Buffers :=
  match connections s !! id with
  | None => (Unknown, s, b)
  | Some e =>
    let '(f, ends) := into_frames slot backing (encode_buf b) (batch_ends b) in
    let '(_, e, s) := append_frames s (sf_payload f) (sf_trailer f) id e (sf_buf f) now in
    (Known, with_cadence s (on_append (cadence s) (length (send_buf e))), {| encode_buf := sf_buf f; batch_ends := ends |})
  end.

(** [append_early_reply]; [None] where an [expect] would fail. *)
Definition append_early_reply (s : UringEgress) (reply : EarlyReply R) (early_buf : list Z) (now : Z)
    : option (UringEgress * list Z) :=
  match connections s !! er_connection_id reply with
  | None => Some (s, early_buf)
  | Some e =>
    '(buf, written) ← encode_early_reply reply early_buf;
    let '(_, e, s) := append_frames s (Some (Ok written)) [] (er_connection_id reply) e buf now in
    Some (with_cadence s (on_append (cadence s) (length (send_buf e))), buf)
  end.

Fixpoint release_early_replies (s : UringEgress) (replies : list (EarlyReply R)) (early_buf : list Z) (now : Z)
    : option (UringEgress * list Z) :=
  match replies with
  | [] => Some (s, early_buf)
  | r :: rest =>
    '(s, buf) ← append_early_reply s r early_buf now;
    release_early_replies (flush_if_due s) rest buf now
  end.
End reply.

Definition after_slot (s : UringEgress) : UringEgress := flush_if_due s.
Definition before_wait (s : UringEgress) : UringEgress := flush s.
Definition after_wait_release (s : UringEgress) : UringEgress := flush (drop_overflowed s).
Definition after_idle_release (s : UringEgress) : UringEgress := drop_overflowed s.
Definition on_idle (s : UringEgress) : UringEgress := flush s.
Definition after_commit (s : UringEgress) : UringEgress := drop_overflowed s.

Definition heartbeat_due (e : ConnectionEntry) (now interval : Z) (frame_len : nat) : bool :=
  (interval <=? sat_sub now (last_send e)) && bool_decide (blocked_since e = None)
  && (length (send_buf e) + frame_len <=? MAX_SEND_BUF)%nat.

Definition heartbeat_one (frame : list Z) (now interval : Z) (s : UringEgress) (id : Z) : UringEgress :=
  match connections s !! id with
  | Some e =>
    if heartbeat_due e now interval (length frame) then
      let '(e, d) := mark_dirty (appended e frame now) id (dirty s) in
      with_table s (<[id := e]> (connections s)) d (to_remove s)
    else s
  | None => s
  end.

Definition send_heartbeats (s : UringEgress) (frame : list Z) (now interval : Z) : UringEgress :=
  let s := fold_left (heartbeat_one frame now interval) (map fst (map_to_list (connections s))) s in
  match dirty s with [] => s | _ => teardown_flush_failures (send_dirty s) end.

Definition on_shutdown (s : UringEgress) : UringEgress :=
  if negb (fenced s) && negb (bool_decide (dirty s = [])) then send_dirty s else s.
End egress.
End Uring.

Module UringFacts.
Import Encoding Uring Streams Ingress.Early Stages.Live Gate.Gate.

Definition accepted (k : gmap Z (list Z)) (id : Z) : list Z := default [] (k !! id).
Definition view (s : UringEgress) : View :=
  {| stream := fun id => (fun e => accepted (sockets s) id ++ send_buf e) <$> connections s !! id;
     sock := accepted (sockets s) |}.

(** The table's invariant: no buffer past the cap; the dirty list is exactly
    the flagged connections, once each; bytes still to be sent are on it,
    or their connection is on its way out. *)
Record ok (s : UringEgress) : Prop := Ok' {
  ok_cap : forall id e, connections s !! id = Some e -> (length (send_buf e) <= MAX_SEND_BUF)%nat;
  ok_flag : forall id, id ∈ dirty s <-> exists e, connections s !! id = Some e /\ is_dirty e = true;
  ok_nodup : NoDup (dirty s);
  ok_bytes : forall id e, connections s !! id = Some e -> send_buf e <> [] -> is_dirty e = true \/ id ∈ to_remove s
}.

(** Connections that leave were shut down, and each gave its permit back. *)
Record leaves (s s' : UringEgress) : Prop := Leaves {
  lv_shut : shut s `prefix_of` shut s';
  lv_gone : forall id, is_Some (connections s !! id) -> connections s' !! id = None -> id ∈ shut s';
  lv_none : forall id, connections s !! id = None -> connections s' !! id = None;
  lv_permits : (active_connections s' - Z.of_nat (size (connections s'))) mod 2 ^ 64 =
               (active_connections s - Z.of_nat (size (connections s))) mod 2 ^ 64;
  lv_fence : fenced s' = fenced s
}.

Lemma leaves_refl s : leaves s s.
Proof. constructor; try done. intros id [e He]. congruence. Qed.

Lemma leaves_trans s1 s2 s3 : leaves s1 s2 -> leaves s2 s3 -> leaves s1 s3.
Proof.
  intros [A1 A2 A3 A4 A5] [B1 B2 B3 B4 B5]. constructor; try congruence; [by transitivity (shut s2)| |eauto].
  intros id Hid Hn. destruct (connections s2 !! id) eqn:H2; [by apply B2; [eauto|]|].
  pose proof (A2 id Hid H2) as Hin. destruct B1 as [l ->]. apply elem_of_app. by left.
Qed.

(** *** The flush, fold by fold *)

Lemma fold_left_rel {A B} (P : A -> A -> Prop) (f : A -> B -> A) (Q : B -> Prop) :
  (forall a, P a a) -> (forall a b c, P a b -> P b c -> P a c) ->
  (forall a b, Q b -> P a (f a b)) -> forall l a, Forall Q l -> P a (fold_left f l a).
Proof.
  intros Hr Ht Hf l. induction l as [|b l IH]; intros a Hl; cbn; [apply Hr|].
  apply Forall_cons in Hl as [Hb Hl]. eapply Ht; [by apply Hf|by apply IH].
Qed.

(** Bytes moved from a buffer to its socket, and nothing else. *)
Definition moved (c : gmap Z ConnectionEntry) (k : gmap Z (list Z)) (c' : gmap Z ConnectionEntry) (k' : gmap Z (list Z)) : Prop :=
  forall id, accepted k id `prefix_of` accepted k' id /\
  match c !! id, c' !! id with
  | None, None => accepted k' id = accepted k id
  | Some e, Some e' => accepted k id ++ send_buf e = accepted k' id ++ send_buf e' /\ is_dirty e' = is_dirty e
  | _, _ => False
  end.

Lemma moved_refl c k : moved c k c k.
Proof. intros id. split; [done|]. by destruct (c !! id). Qed.

Lemma moved_trans c1 k1 c2 k2 c3 k3 : moved c1 k1 c2 k2 -> moved c2 k2 c3 k3 -> moved c1 k1 c3 k3.
Proof.
  intros H12 H23 id. destruct (H12 id) as [P1 M1]. destruct (H23 id) as [P2 M2]. split; [by transitivity (accepted k2 id)|].
  destruct (c1 !! id), (c2 !! id), (c3 !! id); try done; destruct M1, M2; split; congruence || congruence.
Qed.

Lemma moved_insert c k id e e' more :
  c !! id = Some e -> send_buf e = more ++ send_buf e' -> is_dirty e' = is_dirty e ->
  moved c k (<[id := e']> c) (<[id := accepted k id ++ more]> k).
Proof.
  intros He Hb Hd x. unfold accepted. destruct (decide (x = id)) as [->|Hne].
  - rewrite !lookup_insert_eq, He. cbn. split; [by apply prefix_app_r|]. by rewrite Hb, app_assoc.
  - rewrite !lookup_insert_ne by done. split; [done|]. by destruct (c !! x).
Qed.

Lemma moved_same c k id e e' :
  c !! id = Some e -> send_buf e' = send_buf e -> is_dirty e' = is_dirty e -> moved c k (<[id := e']> c) k.
Proof.
  intros He Hb Hd x. destruct (decide (x = id)) as [->|Hne].
  - rewrite lookup_insert_eq, He. by rewrite Hb.
  - rewrite lookup_insert_ne by done. split; [done|]. by destruct (c !! x).
Qed.

Lemma submit_moves now l : forall c rem sub k,
  let '(c', rem', _) := fold_left (submit_one now) l (c, rem, sub) in
  moved c k c' k /\ rem `prefix_of` rem'.
Proof.
  induction l as [|id l IH]; intros c rem sub k; cbn [fold_left]; [by split; [apply moved_refl|]|].
  assert (Hone : let '(c', rem', _) := submit_one now (c, rem, sub) id in moved c k c' k /\ rem `prefix_of` rem').
  { unfold submit_one. destruct (c !! id) as [e|] eqn:He; [|by split; [apply moved_refl|]].
    assert (Hsub : moved c k (<[id := set_attempt e now]> c) k) by by apply (moved_same c k id e).
    repeat case_match; simplify_eq; split; try done; try apply moved_refl; by apply prefix_app_r. }
  destruct (submit_one now (c, rem, sub) id) as [[c1 rem1] sub1]. destruct Hone as [Hm1 Hr1].
  specialize (IH c1 rem1 sub1 k). destruct (fold_left (submit_one now) l (c1, rem1, sub1)) as [[c' rem'] sub'].
  destruct IH as [Hm Hr]. split; [by eapply moved_trans|by transitivity rem1].
Qed.

Lemma complete_moves now l : forall c rem k,
  let '(c', rem', k') := fold_left (complete_one now) l (c, rem, k) in
  moved c k c' k' /\ rem `prefix_of` rem'.
Proof.
  induction l as [|[id r] l IH]; intros c rem k; cbn [fold_left]; [by split; [apply moved_refl|]|].
  assert (Hone : let '(c', rem', k') := complete_one now (c, rem, k) (id, r) in moved c k c' k' /\ rem `prefix_of` rem').
  { unfold complete_one. destruct (c !! id) as [e|] eqn:He; [|by split; [apply moved_refl|]].
    destruct (r =? - EAGAIN); [split; [by apply (moved_same c k id e)|done]|].
    destruct (r <? 0); [split; [apply moved_refl|by apply prefix_app_r]|].
    fold (accepted k id). destruct (Z.to_nat r =? 0)%nat eqn:H0.
    - apply Nat.eqb_eq in H0. split; [|done]. by apply (moved_insert c k id e); [|rewrite H0|].
    - destruct (length (send_buf e) <=? Z.to_nat r)%nat eqn:Hl.
      + apply Nat.leb_le in Hl. split; [|done]. apply (moved_insert c k id e); [done| |done]. cbn. by rewrite take_ge, app_nil_r.
      + split; [|done]. apply (moved_insert c k id e); [done| |done]. cbn. by rewrite take_drop. }
  destruct (complete_one now (c, rem, k) (id, r)) as [[c1 rem1] k1]. destruct Hone as [Hm1 Hr1].
  specialize (IH c1 rem1 k1). destruct (fold_left (complete_one now) l (c1, rem1, k1)) as [[c' rem'] k'].
  destruct IH as [Hm Hr]. split; [by eapply moved_trans|by transitivity rem1].
Qed.

Lemma clear_lookup rem c0 l : forall c id,
  fold_left (clear_dirty rem c0) l c !! id =
  (fun e => if bool_decide (id ∈ l) && negb (stays_dirty c0 rem id) then set_dirty e false else e) <$> c !! id.
Proof.
  induction l as [|x l IH]; intros c id; cbn [fold_left].
  { rewrite bool_decide_false by apply not_elem_of_nil. cbn. by destruct (c !! id). }
  rewrite IH. unfold clear_dirty. destruct (decide (x = id)) as [->|Hne].
  - rewrite (bool_decide_true (id ∈ id :: l)) by constructor. destruct (stays_dirty c0 rem id).
    + by rewrite !andb_false_r.
    + rewrite !andb_true_r. destruct (c !! id) as [e|] eqn:He; [rewrite lookup_insert_eq|by rewrite He]. cbn. by destruct (bool_decide _).
  - assert (Hb : bool_decide (id ∈ x :: l) = bool_decide (id ∈ l)) by (apply bool_decide_ext; rewrite elem_of_cons; naive_solver).
    rewrite Hb. destruct (stays_dirty c0 rem x); [done|]. destruct (c !! x); [|done]. by rewrite lookup_insert_ne.
Qed.

Lemma stays_dirty_true c rem id :
  stays_dirty c rem id = true <-> id ∉ rem /\ exists e, c !! id = Some e /\ send_buf e <> [].
Proof.
  unfold stays_dirty. rewrite andb_true_iff, negb_true_iff, bool_decide_eq_false. split; intros [H1 H2]; (split; [done|]).
  - destruct (c !! id) as [e|]; [|done]. apply negb_true_iff, bool_decide_eq_false in H2. eauto.
  - destruct H2 as (e & -> & Hb). by apply negb_true_iff, bool_decide_eq_false.
Qed.

Lemma stream_refl s : evolves_by nothing (view s) (view s).
Proof. intros id. split; [done|]. by destruct (stream (view s) id); rewrite ?app_nil_r. Qed.

Section facts.
Context (kernel : Kernel).

(** What a flush leaves: the connections, with bytes moved to their sockets;
    the drops it adds; and the flags, in step with the dirty list. *)
Lemma flush_sends_spec s :
  ok s ->
  let s' := flush_sends kernel s in
  ok s' /\ evolves_by nothing (view s) (view s') /\ leaves s s' /\ to_remove s `prefix_of` to_remove s' /\
  (to_remove s = [] -> forall id, id ∈ to_remove s' -> id ∉ dirty s') /\ cadence s' = cadence s /\
  dom (connections s') = dom (connections s).
Proof.
  intros Hok. cbn zeta. unfold flush_sends.
  assert (Hstays : forall s', s' = s \/ s' = panic s ->
    ok s' /\ evolves_by nothing (view s) (view s') /\ leaves s s' /\ to_remove s `prefix_of` to_remove s' /\
    (to_remove s = [] -> forall id, id ∈ to_remove s' -> id ∉ dirty s') /\ cadence s' = cadence s /\
    dom (connections s') = dom (connections s)).
  { intros s' Hs'. assert (Hsame : view s' = view s /\ leaves s s' /\ ok s' /\ to_remove s' = to_remove s /\ cadence s' = cadence s /\
      connections s' = connections s).
    { destruct Hs' as [->| ->]; [by split_and!; [|apply leaves_refl|..]|]. split_and!; try done; [|by destruct Hok].
      destruct (leaves_refl s). by constructor. }
    destruct Hsame as (-> & Hl & Ho & Hr & -> & ->). split_and!; try done; [apply stream_refl|by rewrite Hr|].
    rewrite Hr. by intros -> ? ?%elem_of_nil. }
  destruct (panicked s); [by apply Hstays; left|]. destruct Hok as [Hcap Hflag Hnd Hbytes].
  destruct (nth_flush kernel (flushes s)) as [now submission].
  pose proof (submit_moves now (dirty s) (connections s) (to_remove s) [] (sockets s)) as H1.
  destruct (fold_left (submit_one now) (dirty s) _) as [[c1 rem1] sub]. destruct H1 as [Hm1 Hr1].
  destruct (ring_entries kernel <? length sub)%nat; [by apply Hstays; right|].
  destruct (if (0 <? length sub)%nat then submission else _) as [result|]; [|by apply Hstays; right]. clear Hstays.
  pose proof (complete_moves now (map (fun id => (id, result id)) sub) c1 rem1 (sockets s)) as H2.
  destruct (fold_left (complete_one now) _ _) as [[c2 rem2] k2]. destruct H2 as [Hm2 Hr2].
  pose proof (moved_trans _ _ _ _ _ _ Hm1 Hm2) as Hm. clear Hm1 Hm2.
  assert (Hlook : forall id e', fold_left (clear_dirty rem2 c2) (dirty s) c2 !! id = Some e' ->
    exists e e2, connections s !! id = Some e /\ c2 !! id = Some e2 /\ send_buf e' = send_buf e2 /\
      accepted (sockets s) id ++ send_buf e = accepted k2 id ++ send_buf e2 /\
      (length (send_buf e2) <= length (send_buf e))%nat /\
      is_dirty e' = is_dirty e && negb (bool_decide (id ∈ dirty s) && negb (stays_dirty c2 rem2 id))).
  { intros id e'. rewrite clear_lookup. destruct (Hm id) as [Hp Hid].
    destruct (c2 !! id) as [e2|]; [|done]. destruct (connections s !! id) as [e|]; [|done]. destruct Hid as [Hst Hd].
    intros [= <-]. exists e, e2. split; [done|]. split; [done|].
    assert (Hl : (length (send_buf e2) <= length (send_buf e))%nat).
    { apply (f_equal length) in Hst. rewrite !length_app in Hst. apply prefix_length in Hp. lia. }
    destruct (bool_decide (id ∈ dirty s) && negb (stays_dirty c2 rem2 id)); cbn [negb set_dirty send_buf is_dirty];
      repeat (split; [done|]); by rewrite ?Hd, ?andb_false_r, ?andb_true_r. }
  assert (Hnone : forall id, fold_left (clear_dirty rem2 c2) (dirty s) c2 !! id = None <-> connections s !! id = None).
  { intros id. rewrite clear_lookup, fmap_None. destruct (Hm id) as [_ Hid].
    destruct (c2 !! id), (connections s !! id); try done. }
  split; [constructor|split; [|split; [|split; [by transitivity rem1|split; [|split; [done|]]]]]];
    cbn [connections dirty to_remove sockets active_connections shut fenced].
  - intros id e' He'. destruct (Hlook _ _ He') as (e & e2 & He & _ & -> & _ & Hl & _). specialize (Hcap _ _ He). lia.
  - intros id. rewrite list_elem_of_filter. split.
    + intros [Hs Hin]. apply Hflag in Hin as Hf. destruct Hf as (e & He & Hd).
      destruct (fold_left (clear_dirty rem2 c2) (dirty s) c2 !! id) as [e'|] eqn:He'; [|apply Hnone in He'; congruence].
      exists e'. split; [done|]. destruct (Hlook _ _ He') as (e0 & e2 & He0 & _ & _ & _ & _ & ->). simplify_eq.
      by rewrite Hd, Hs, andb_false_r.
    + intros (e' & He' & Hd'). destruct (Hlook _ _ He') as (e & e2 & He & _ & _ & _ & _ & Hd). rewrite Hd' in Hd.
      symmetry in Hd. apply andb_true_iff in Hd as [Hd Hs]. assert (Hin : id ∈ dirty s) by (apply Hflag; eauto).
      split; [|done]. rewrite bool_decide_true in Hs by done. by destruct (stays_dirty c2 rem2 id).
  - by apply NoDup_filter.
  - intros id e' He' Hne. destruct (Hlook _ _ He') as (e & e2 & He & He2 & Hb & _ & Hl & ->).
    destruct (decide (id ∈ rem2)) as [|Hnr]; [by right|left].
    assert (Hs : stays_dirty c2 rem2 id = true) by (apply stays_dirty_true; split; [done|]; exists e2; split; congruence).
    assert (Hne0 : send_buf e <> []) by (intros Hz; rewrite Hz in Hl; destruct (send_buf e2); cbn in Hl; [congruence|lia]).
    destruct (Hbytes _ _ He Hne0) as [->|Hin]; [by rewrite Hs, andb_false_r|].
    exfalso. apply Hnr. destruct Hr1 as [r1 ->]. destruct Hr2 as [r2 ->]. apply elem_of_app. left. apply elem_of_app. by left.
  - intros id. split; [apply Hm|]. cbn [view stream sock sockets connections].
    destruct (fold_left (clear_dirty rem2 c2) (dirty s) c2 !! id) as [e'|] eqn:He'.
    + destruct (Hlook _ _ He') as (e & e2 & He & _ & Hb & Hst & _). rewrite He. cbn. by rewrite Hb, <- Hst, app_nil_r.
    + apply Hnone in He' as Hn. rewrite Hn. cbn. destruct (Hm id) as [_ Hid]. rewrite Hn in Hid. by destruct (c2 !! id).
  - assert (Hsize : size (fold_left (clear_dirty rem2 c2) (dirty s) c2) = size (connections s)).
    { rewrite <- !size_dom. apply (f_equal size). apply set_eq. intros id. rewrite !elem_of_dom, <- !not_eq_None_Some. by rewrite Hnone. }
    constructor; cbn [connections shut active_connections fenced]; try done.
    + intros id [e He] Hn. apply Hnone in Hn. congruence.
    + intros id. apply Hnone.
    + by rewrite Hsize.
  - intros _ id Hin Hd. apply list_elem_of_filter in Hd as [Hs _]. apply stays_dirty_true in Hs as [? _]. done.
  - apply set_eq. intros id. rewrite !elem_of_dom, <- !not_eq_None_Some. by rewrite Hnone.
Qed.

Lemma submit_counts now l : forall c rem sub,
  (length (snd (fold_left (submit_one now) l (c, rem, sub))) <= length sub + length l)%nat.
Proof.
  induction l as [|id l IH]; intros c rem sub; cbn [fold_left length]; [cbn [snd]; lia|].
  destruct (submit_one now (c, rem, sub) id) as [[c1 rem1] sub1] eqn:Hs. etransitivity; [apply IH|].
  assert (Hl : (length sub1 <= S (length sub))%nat); [|lia].
  unfold submit_one in Hs. repeat case_match; simplify_eq; rewrite ?length_app; cbn [length]; lia.
Qed.

(** A ring deep enough for one send per connection and a kernel that takes
    the submission: the flush does not panic. *)
Lemma flush_lives s :
  ok s -> panicked s = false -> (size (connections s) <= ring_entries kernel)%nat ->
  is_Some (snd (nth_flush kernel (flushes s))) -> panicked (flush_sends kernel s) = false.
Proof.
  intros Hok Hp Hsize [result Hres]. unfold flush_sends. rewrite Hp.
  destruct (nth_flush kernel (flushes s)) as [now submission]. cbn [snd] in Hres. subst submission.
  pose proof (submit_counts now (dirty s) (connections s) (to_remove s) []) as Hl. cbn [length] in Hl.
  assert (Hd : (length (dirty s) <= size (connections s))%nat).
  { destruct Hok as [_ Hflag Hnd _]. rewrite <- size_dom, <- (size_list_to_set (C:=gset Z) (dirty s)) by done.
    apply subseteq_size. intros id Hin. apply elem_of_list_to_set, Hflag in Hin as (e & He & _). apply elem_of_dom. by exists e. }
  destruct (fold_left (submit_one now) (dirty s) _) as [[c1 rem1] sub]. cbn [snd] in Hl.
  rewrite (proj2 (Nat.ltb_ge _ _)) by lia. destruct (if (0 <? length sub)%nat then _ else _) as [r|] eqn:Hr; [|by destruct (0 <? length sub)%nat].
  by destruct (fold_left (complete_one now) _ _) as [[c2 rem2] k2].
Qed.

(** *** Dropping connections *)

Lemma tear_down_one s id :
  let s' := tear_down s id in
  connections s' = delete id (connections s) /\ sockets s' = sockets s /\ dirty s' = dirty s /\
  to_remove s' = to_remove s /\ cadence s' = cadence s /\ leaves s s'.
Proof.
  unfold tear_down. destruct (connections s !! id) as [e|] eqn:He; cbn zeta.
  - cbn [connections sockets dirty to_remove cadence]. repeat (split; [done|]).
    constructor; cbn [connections shut active_connections fenced]; [by eexists| | | |done].
    + intros x [e' Hx] Hn. apply elem_of_app. apply lookup_delete_None in Hn as [->|Hn]; [right; by constructor|]; congruence.
    + intros x Hx. apply lookup_delete_None. by right.
    + rewrite map_size_delete, He. unfold wrapping_add.
      assert (Hsz : (size (connections s) <> 0)%nat) by (intros Hz; apply map_size_empty_inv in Hz; by rewrite Hz, lookup_empty in He).
      rewrite Zminus_mod_idemp_l. f_equal. lia.
  - split; [by rewrite delete_id|]. repeat (split; [done|]). apply leaves_refl.
Qed.

(** A fold of drops, whatever else each step does to the dirty list. *)
Lemma tear_down_all (f : UringEgress -> Z -> UringEgress) :
  (forall s id, exists d, f s id = with_table (tear_down s id) (connections (tear_down s id)) d (to_remove s)) ->
  forall l s, let s' := fold_left f l s in
  (forall id, connections s' !! id = if decide (id ∈ l) then None else connections s !! id) /\
  sockets s' = sockets s /\ to_remove s' = to_remove s /\ cadence s' = cadence s /\ leaves s s'.
Proof.
  intros Hf l. induction l as [|x l IH]; intros s; cbn [fold_left]; [repeat (split; [done|]); apply leaves_refl|].
  specialize (IH (f s x)). cbn zeta in IH. destruct IH as (H1 & H2 & H3 & H4 & H5).
  destruct (Hf s x) as [d Hd]. destruct (tear_down_one s x) as (T1 & T2 & _ & T4 & T5 & T6).
  assert (Hlv : leaves s (f s x)) by (rewrite Hd; destruct T6; by constructor).
  assert (Hfs : connections (f s x) = delete x (connections s) /\ sockets (f s x) = sockets s /\
    to_remove (f s x) = to_remove s /\ cadence (f s x) = cadence s) by (rewrite Hd; cbn; by rewrite T1, T2, T5).
  destruct Hfs as (F1 & F2 & F3 & F4).
  split; [|split; [congruence|split; [congruence|split; [congruence|by eapply leaves_trans]]]].
  intros id. rewrite H1, F1. destruct (decide (id ∈ l)) as [Hin|Hin].
  - by rewrite decide_True by by apply elem_of_cons; right.
  - destruct (decide (x = id)) as [->|Hne].
    + rewrite lookup_delete_eq, decide_True; [done|constructor].
    + rewrite lookup_delete_ne by done. rewrite decide_False; [done|]. rewrite elem_of_cons. naive_solver.
Qed.

(** Dropped connections change nobody's stream. *)
Lemma drop_view s s' (l : list Z) :
  (forall id, connections s' !! id = if decide (id ∈ l) then None else connections s !! id) ->
  sockets s' = sockets s -> evolves_by nothing (view s) (view s').
Proof.
  intros Hc Hs id. cbn [view stream sock]. rewrite Hs. split; [done|]. rewrite Hc.
  destruct (connections s !! id) as [e|]; destruct (decide (id ∈ l)); cbn; rewrite ?app_nil_r; try done. by eexists.
Qed.

Lemma drop_ok s s' (l : list Z) :
  ok s -> to_remove s = l -> (forall id, connections s' !! id = if decide (id ∈ l) then None else connections s !! id) ->
  (forall id, id ∈ dirty s' <-> id ∈ dirty s /\ id ∉ l) -> NoDup (dirty s') -> ok s'.
Proof.
  intros [Hcap Hflag Hnd Hbytes] Hl Hc Hd Hnd'. constructor; [| |done|].
  - intros id e. rewrite Hc. case_decide; [done|]. eauto.
  - intros id. rewrite Hd, Hflag, Hc. case_decide as Hin; split; [by intros [_ ?]|by intros (? & ? & _)|by intros [? _]|done].
  - intros id e. rewrite Hc. case_decide as Hin; [done|]. intros He Hne. destruct (Hbytes _ _ He Hne) as [|Hin']; [by left|].
    rewrite Hl in Hin'. done.
Qed.

Definition steady (s : UringEgress) : Prop := ok s /\ to_remove s = [].

Lemma teardown_spec s :
  ok s -> (forall id, id ∈ to_remove s -> id ∉ dirty s) ->
  let s' := teardown_flush_failures s in
  steady s' /\ evolves_by nothing (view s) (view s') /\ leaves s s' /\ cadence s' = cadence s /\
  (forall id, connections s' !! id = if decide (id ∈ to_remove s) then None else connections s !! id).
Proof.
  intros Hok Hdisj. cbn zeta. unfold teardown_flush_failures.
  assert (Hf : forall s id, exists d, tear_down s id = with_table (tear_down s id) (connections (tear_down s id)) d (to_remove s)).
  { intros s0 id. exists (dirty s0). unfold tear_down. by destruct (connections s0 !! id), s0. }
  destruct (tear_down_all tear_down Hf (to_remove s) s) as (H1 & H2 & H3 & H4 & H5).
  assert (Hd : dirty (fold_left tear_down (to_remove s) s) = dirty s).
  { clear. generalize (to_remove s) as l. intros l. revert s. induction l as [|x l IH]; intros s; [done|]. cbn. rewrite IH.
    unfold tear_down. by destruct (connections s !! x). }
  set (s1 := fold_left tear_down (to_remove s) s) in *.
  split; [split; [|done]|split; [by apply (drop_view s _ (to_remove s))|split; [|by split]]].
  - apply (drop_ok s _ (to_remove s)); try done; cbn [with_table dirty]; rewrite Hd; [|by destruct Hok].
    intros id. split; [|by intros [? _]]. intros Hin. split; [done|]. intros Hr. by apply (Hdisj id).
  - eapply leaves_trans; [exact H5|]. by constructor; try done; intros id [e He]; cbn; congruence.
Qed.

Lemma drop_overflowed_spec s :
  ok s -> let s' := drop_overflowed s in
  steady s' /\ evolves_by nothing (view s) (view s') /\ leaves s s' /\ cadence s' = cadence s /\
  (forall id, connections s' !! id = if decide (id ∈ to_remove s) then None else connections s !! id).
Proof.
  intros Hok. cbn zeta. unfold drop_overflowed. set (f := fun s id => _).
  assert (Hf : forall s id, exists d, f s id = with_table (tear_down s id) (connections (tear_down s id)) d (to_remove s)).
  { intros s0 id. exists (unmark_dirty id (dirty s0)). subst f. unfold tear_down. by destruct (connections s0 !! id), s0. }
  destruct (tear_down_all f Hf (to_remove s) s) as (H1 & H2 & H3 & H4 & H5).
  assert (Hd : (forall id, id ∈ dirty (fold_left f (to_remove s) s) <-> id ∈ dirty s /\ id ∉ to_remove s) /\
               NoDup (dirty (fold_left f (to_remove s) s))).
  { destruct Hok as [_ _ Hnd _]. clear -Hnd. generalize (to_remove s) as l. intros l. revert s Hnd.
    induction l as [|x l IH]; intros s Hnd; cbn [fold_left]; [split; [|done]; intros id; rewrite elem_of_nil; naive_solver|].
    assert (Hx : dirty (f s x) = unmark_dirty x (dirty s)) by (subst f; unfold tear_down; by destruct (connections s !! x)).
    destruct (IH (f s x)) as [IH1 IH2]; [rewrite Hx; by apply NoDup_filter|]. split; [|done].
    intros id. rewrite IH1, Hx. unfold unmark_dirty. rewrite list_elem_of_filter, elem_of_cons. naive_solver. }
  destruct Hd as [Hd Hnd]. set (s1 := fold_left f (to_remove s) s) in *.
  split; [split; [|done]|split; [by apply (drop_view s _ (to_remove s))|split; [|by split]]].
  - by apply (drop_ok s _ (to_remove s)).
  - eapply leaves_trans; [exact H5|]. by constructor; try done; intros id [e He]; cbn; congruence.
Qed.

(** *** The flushes *)

Lemma cadence_view s c : view (with_cadence s c) = view s.
Proof. done. Qed.
Lemma cadence_ok s c : ok s -> ok (with_cadence s c).
Proof. by intros []. Qed.
Lemma cadence_leaves s c : leaves s (with_cadence s c).
Proof. constructor; try done. intros id [e He]. cbn. congruence. Qed.

(** [send_dirty] and the teardown of its failures. *)
Lemma send_and_teardown s :
  steady s -> let s' := teardown_flush_failures (send_dirty kernel s) in
  steady s' /\ evolves_by nothing (view s) (view s') /\ leaves s s' /\ cadence s' = cadence_default.
Proof.
  intros [Hok Hr]. destruct (flush_sends_spec s Hok) as (F1 & F2 & F3 & F4 & F5 & F6 & F7). cbn zeta in *.
  destruct (teardown_spec (send_dirty kernel s)) as (T1 & T2 & T3 & T4 & _); [by apply cadence_ok|by apply F5|].
  split; [done|]. split; [by eapply evolves_quiet; [exact F2|]|]. split; [|done].
  eapply leaves_trans; [exact F3|]. eapply leaves_trans; [|exact T3]. apply cadence_leaves.
Qed.

Lemma flush_spec s :
  steady s -> let s' := flush kernel s in
  steady s' /\ evolves_by nothing (view s) (view s') /\ leaves s s' /\ cadence s' = cadence_default.
Proof.
  intros Hs. unfold flush. destruct (dirty s) eqn:Hd; [|by apply send_and_teardown].
  destruct Hs as [Hok Hr]. split; [split; [by apply cadence_ok|done]|]. split; [rewrite cadence_view; apply stream_refl|]. by split; [apply cadence_leaves|].
Qed.

(** The consumed path's flush leaves nothing to drop, whenever a drop is
    only ever queued with a flush due. *)
Lemma flush_if_due_spec s :
  ok s -> (to_remove s <> [] -> is_due (cadence s) = true) ->
  let s' := flush_if_due kernel s in
  steady s' /\ evolves_by nothing (view s) (view s') /\ leaves s s' /\
  (forall id, id ∈ to_remove s -> connections s' !! id = None).
Proof.
  intros Hok Hdue. unfold flush_if_due. destruct (is_due (cadence s)) eqn:Hc.
  - destruct (drop_overflowed_spec s Hok) as (D1 & D2 & D3 & _ & D5). cbn zeta in *.
    destruct (flush_spec _ D1) as (F1 & F2 & F3 & _). cbn zeta in *. split; [done|].
    split; [by eapply evolves_quiet|]. split; [by eapply leaves_trans|].
    intros id Hin. destruct F3 as [_ _ Hn _ _]. apply Hn. rewrite D5. by rewrite decide_True.
  - assert (Hr : to_remove s = []) by (destruct (to_remove s); [done|]; by discriminate Hdue). cbn zeta.
    split; [by split|]. split; [apply stream_refl|]. split; [apply leaves_refl|]. rewrite Hr. intros id Hin. by apply elem_of_nil in Hin.
Qed.

(** *** Appends *)

Lemma view_insert s id e e' bytes d r :
  connections s !! id = Some e -> send_buf e' = send_buf e ++ bytes ->
  evolves_by (only id bytes) (view s) (view (with_table s (<[id := e']> (connections s)) d r)).
Proof.
  intros He Hb x. split; [done|]. cbn [view stream sock with_table connections sockets]. unfold only.
  destruct (decide (x = id)) as [->|Hne].
  - rewrite lookup_insert_eq, He. cbn. by rewrite Hb, app_assoc.
  - rewrite lookup_insert_ne by done. destruct (connections s !! x); cbn; by rewrite ?app_nil_r.
Qed.

Lemma insert_leaves s id e e' d r :
  connections s !! id = Some e -> leaves s (with_table s (<[id := e']> (connections s)) d r).
Proof.
  intros He. constructor; cbn [with_table shut connections active_connections fenced]; try done.
  - intros x [ex Hx] Hn. destruct (decide (x = id)) as [->|Hne]; [by rewrite lookup_insert_eq in Hn|].
    rewrite lookup_insert_ne in Hn by done. congruence.
  - intros x Hx. destruct (decide (x = id)) as [->|Hne]; [congruence|]. by rewrite lookup_insert_ne.
  - by rewrite map_size_insert, He.
Qed.

Lemma insert_ok s id e bytes now :
  ok s -> connections s !! id = Some e -> (length (send_buf e) + length bytes <= MAX_SEND_BUF)%nat ->
  let '(e', d) := mark_dirty (appended e bytes now) id (dirty s) in
  ok (with_table s (<[id := e']> (connections s)) d (to_remove s)) /\ send_buf e' = send_buf e ++ bytes.
Proof.
  intros [Hcap Hflag Hnd Hbytes] He Hlen. unfold mark_dirty. cbn [appended is_dirty].
  assert (Hin : id ∈ dirty s <-> is_dirty e = true).
  { rewrite Hflag. split; [intros (e0 & H0 & ?); congruence|eauto]. }
  destruct (is_dirty e) eqn:Hd.
  - split; [|done]. constructor; cbn [with_table connections dirty to_remove]; [| |done|].
    + intros x ex. destruct (decide (x = id)) as [->|Hne]; [rewrite lookup_insert_eq; intros [= <-]; cbn; rewrite length_app; lia|].
      rewrite lookup_insert_ne by done. apply Hcap.
    + intros x. destruct (decide (x = id)) as [->|Hne]; [|rewrite lookup_insert_ne by done; apply Hflag].
      rewrite lookup_insert_eq. split; [intros _; by eexists|]. intros _. by apply Hin.
    + intros x ex. destruct (decide (x = id)) as [->|Hne]; [rewrite lookup_insert_eq; intros [= <-] _; by left|].
      rewrite lookup_insert_ne by done. apply Hbytes.
  - assert (Hnin : id ∉ dirty s) by (rewrite Hin; done).
    split; [|done]. constructor; cbn [with_table connections dirty to_remove].
    + intros x ex. destruct (decide (x = id)) as [->|Hne]; [rewrite lookup_insert_eq; intros [= <-]; cbn; rewrite length_app; lia|].
      rewrite lookup_insert_ne by done. apply Hcap.
    + intros x. rewrite elem_of_app, list_elem_of_singleton. destruct (decide (x = id)) as [->|Hne].
      * rewrite lookup_insert_eq. split; [intros _; by eexists|by right].
      * rewrite lookup_insert_ne by done. rewrite <- Hflag. naive_solver.
    + apply NoDup_app. split; [done|]. split; [|apply NoDup_singleton]. intros x Hx Hx1. apply list_elem_of_singleton in Hx1 as ->. done.
    + intros x ex. destruct (decide (x = id)) as [->|Hne]; [rewrite lookup_insert_eq; intros [= <-] _; by left|].
      rewrite lookup_insert_ne by done. apply Hbytes.
Qed.

Lemma append_spec s id e bytes now :
  steady s -> connections s !! id = Some e ->
  let '(_, e', s1) := append_bytes s id e bytes now in
  ok s1 /\ leaves s s1 /\ cadence s1 = cadence s /\
  ((to_remove s1 = [] /\ evolves_by (only id bytes) (view s) (view s1) /\ send_buf e' = send_buf e ++ bytes) \/
   (to_remove s1 = [id] /\ view s1 = view s /\ e' = e /\ (MAX_SEND_BUF < length (send_buf e) + length bytes)%nat)).
Proof.
  intros [Hok Hr] He. unfold append_bytes. destruct bytes as [|b bytes].
  - split; [done|]. split; [apply leaves_refl|]. split; [done|]. left. split; [done|]. split; [|by rewrite app_nil_r].
    eapply evolves_ext; [|apply stream_refl]. intros x. unfold only, nothing. by case_decide.
  - destruct (MAX_SEND_BUF <? length (send_buf e) + length (b :: bytes))%nat eqn:Hl.
    + apply Nat.ltb_lt in Hl. split; [|split; [|split; [done|right; by rewrite Hr]]].
      * destruct Hok as [Hcap Hflag Hnd Hbytes]. constructor; try done. intros x ex Hx Hne.
        destruct (Hbytes x ex Hx Hne) as [|Hin]; [by left|]. rewrite Hr in Hin. by apply elem_of_nil in Hin.
      * constructor; try done. intros x [ex Hx]. cbn. congruence.
    + apply Nat.ltb_ge in Hl. pose proof (insert_ok s id e (b :: bytes) now Hok He Hl) as Hi.
      destruct (mark_dirty _ _ _) as [e' d]. destruct Hi as [Hi Hb].
      split; [done|]. split; [by eapply insert_leaves|]. split; [done|]. left. split; [done|]. split; [by eapply view_insert|done].
Qed.

(** An append, its cadence and the flush that may follow: the bytes are at
    the end of the connection's stream, or the connection is gone. A reply
    far below the cap that overflows a buffer finds the byte trigger set,
    so the connection is dropped before anything more is appended to it. *)
Lemma append_settles s id e bytes now :
  steady s -> connections s !! id = Some e -> (length bytes + FLUSH_BYTES_THRESHOLD <= MAX_SEND_BUF)%nat ->
  let '(_, e', s1) := append_bytes s id e bytes now in
  let s2 := flush_if_due kernel (with_cadence s1 (on_append (cadence s1) (length (send_buf e')))) in
  steady s2 /\ evolves_by (only id bytes) (view s) (view s2) /\ leaves s s2.
Proof.
  intros Hs He Hlen. pose proof (append_spec s id e bytes now Hs He) as Ha.
  destruct (append_bytes s id e bytes now) as [[o e'] s1]. destruct Ha as (Hok & Hlv & _ & Ha).
  set (s1' := with_cadence s1 _). cbn zeta.
  destruct (flush_if_due_spec s1') as (F1 & F2 & F3 & F4).
  { by apply cadence_ok. }
  { cbn [s1' with_cadence to_remove cadence is_due on_append due]. destruct Ha as [(-> & _)|(_ & _ & -> & Hl)]; [done|]. intros _.
    unfold is_due. cbn. rewrite (proj2 (Nat.leb_le FLUSH_BYTES_THRESHOLD _)) by lia. by rewrite orb_true_r. }
  cbn zeta in *. split; [done|]. split; [|eapply leaves_trans; [exact Hlv|]; eapply leaves_trans; [|exact F3]; apply cadence_leaves].
  destruct Ha as [(_ & Hev & _)|(Hrem & Hv & _ & Hl)]; [by eapply evolves_quiet|].
  change (view s1') with (view s1) in F2. rewrite Hv in F2. intros x. destruct (F2 x) as [Hp Hx]. split; [done|].
  unfold only. destruct (decide (x = id)) as [->|Hne]; [|done].
  assert (Hgone : stream (view (flush_if_due kernel s1')) id = None).
  { cbn [view stream]. rewrite F4; [done|]. cbn [s1' with_cadence to_remove]. rewrite Hrem. by constructor. }
  rewrite Hgone in *. destruct (stream (view s) id) as [st|]; [|done]. unfold nothing in Hx. rewrite app_nil_r in Hx.
  by apply prefix_app_r.
Qed.

(** *** Slots and early replies *)

Section replies.
Context {R Q : Type} `{ResponseEncoder R Q, !ResponseEncoderLaws R Q}.

Lemma slot_len (slot : OutputSlot R Q) backing : (length (slot_bytes slot backing) <= 530)%nat.
Proof.
  unfold slot_bytes. rewrite length_app. assert (H1 : (length (payload_bytes (payload slot)) <= MAX_APP_FRAME)%nat).
  { destruct (payload slot); cbn [payload_bytes length]; try apply app_frame_len; lia. }
  change MAX_APP_FRAME with 517%nat in H1. destruct (is_last_in_request slot); [|cbn [length]; lia].
  destruct backing; unfold ends_with, frame_of; rewrite length_app, le_length; cbn [response_payload tag_and_id length];
    rewrite length_app, le_length; cbn [length]; lia.
Qed.

Lemma small_fits n : (n <= 530)%nat -> (n + FLUSH_BYTES_THRESHOLD <= MAX_SEND_BUF)%nat.
Proof. unfold FLUSH_BYTES_THRESHOLD, MAX_SEND_BUF. lia. Qed.

Lemma send_slot_spec s id (slot : OutputSlot R Q) backing b now :
  steady s -> buffers_ok b ->
  let '(o, s1, b1) := send_slot s id slot backing b now in
  let s2 := after_slot kernel s1 in
  buffers_ok b1 /\ o <> Stopped /\ (o = Known <-> is_Some (stream (view s) id)) /\
  (o = Known -> steady s2 /\ evolves_by (only id (slot_bytes slot backing)) (view s) (view s2) /\ leaves s s2) /\
  (o = Unknown -> s1 = s).
Proof.
  intros Hs [Hb1 Hb2]. unfold send_slot, after_slot. destruct (connections s !! id) as [e|] eqn:He.
  - pose proof (into_frames_bytes slot backing (encode_buf b) (batch_ends b) Hb1 Hb2) as Hf.
    destruct (into_frames slot backing (encode_buf b) (batch_ends b)) as [f ends]. destruct Hf as (Hbytes & Hlen & Hends).
    unfold append_frames. rewrite Hbytes.
    pose proof (append_settles s id e (slot_bytes slot backing) now Hs He (small_fits _ (slot_len slot backing))) as Ha.
    destruct (append_bytes s id e (slot_bytes slot backing) now) as [[o e'] s1]. cbn zeta in *.
    split; [split; cbn [encode_buf batch_ends]; [congruence|done]|]. split; [done|]. split; [|by split].
    split; [|done]. intros _. cbn [view stream]. rewrite He. by eexists.
  - split; [done|]. split; [done|]. split; [|by split]. split; [done|]. cbn [view stream]. rewrite He. by intros [? ?].
Qed.

Lemma release_spec (replies : list (EarlyReply R)) now : forall s buf,
  steady s -> length buf = MAX_EARLY_REPLY ->
  exists s' buf', release_early_replies kernel s replies buf now = Some (s', buf') /\ length buf' = MAX_EARLY_REPLY /\
    steady s' /\ leaves s s' /\
    evolves_by (fun id => flat_map (fun r => if decide (er_connection_id r = id) then early_bytes r else []) replies) (view s) (view s').
Proof.
  induction replies as [|r replies IH]; intros s buf Hs Hb; cbn [release_early_replies].
  { exists s, buf. repeat (split; [done|]). split; [apply leaves_refl|apply stream_refl]. }
  assert (Hone : exists s1 buf1, append_early_reply s r buf now = Some (s1, buf1) /\ length buf1 = MAX_EARLY_REPLY /\
    let s2 := flush_if_due kernel s1 in
    steady s2 /\ leaves s s2 /\ evolves_by (only (er_connection_id r) (early_bytes r)) (view s) (view s2)).
  { unfold append_early_reply. destruct (connections s !! er_connection_id r) as [e|] eqn:He.
    - destruct (early_encoded r buf Hb) as (buf1 & -> & Ht & Hl1). cbn [mbind option_bind].
      unfold append_frames. rewrite Ht, app_nil_r.
      pose proof (append_settles s _ e (early_bytes r) now Hs He) as Ha.
      destruct (append_bytes s (er_connection_id r) e (early_bytes r) now) as [[o e'] s1]. cbn zeta in *.
      eexists _, buf1. split; [done|]. split; [by rewrite Hl1|].
      destruct Ha as (A1 & A2 & A3); [|done]. apply small_fits. etransitivity; [apply early_len|]. by vm_compute.
    - exists s, buf. split; [done|]. split; [done|]. destruct Hs as [Hok Hr].
      destruct (flush_if_due_spec s Hok) as (F1 & F2 & F3 & _); [by rewrite Hr|]. cbn zeta in *.
      split; [done|]. split; [done|]. intros x. destruct (F2 x) as [Hp Hx]. split; [done|]. unfold only.
      destruct (decide (x = er_connection_id r)) as [->|]; [|done]. cbn [view stream] in Hx |- *. rewrite He in *. done. }
  destruct Hone as (s1 & buf1 & -> & Hl1 & Hs1 & Hlv1 & Hev1). cbn [mbind option_bind] in *.
  destruct (IH (flush_if_due kernel s1) buf1 Hs1 Hl1) as (s' & buf' & -> & Hl' & Hs' & Hlv' & Hev').
  exists s', buf'. split; [done|]. split; [done|]. split; [done|]. split; [by eapply leaves_trans|].
  eapply evolves_ext; [|by eapply stream_trans]. intros id. cbn [flat_map]. unfold then_add, only.
  by destruct (decide (id = er_connection_id r)) as [->|]; [rewrite decide_True|rewrite decide_False].
Qed.
End replies.

(** *** Registration *)

Lemma drain_one_spec now s ev :
  steady s -> match ev with Connected id => stream (view s) id = None | Disconnected _ => True end ->
  steady (drain_one now s ev) /\ same_view (view (drain_one now s ev)) (control_view (view s) ev).
Proof.
  intros [[Hcap Hflag Hnd Hbytes] Hr] Hf. destruct ev as [id|id]; cbn [drain_one]; [apply fmap_None in Hf|]; (split; [split; [constructor|done]|split; [|done]]);
    cbn [with_table connections dirty to_remove sockets].
  - intros x e. destruct (decide (x = id)) as [->|Hne]; [rewrite lookup_insert_eq; intros [= <-]; cbn; lia|].
    rewrite lookup_insert_ne by done. apply Hcap.
  - intros x. destruct (decide (x = id)) as [->|Hne]; [|rewrite lookup_insert_ne by done; apply Hflag].
    rewrite lookup_insert_eq, Hflag, Hf. split; [by intros (? & ? & _)|]. intros (e & [= <-] & Hd). done.
  - done.
  - intros x e. destruct (decide (x = id)) as [->|Hne]; [rewrite lookup_insert_eq; by intros [= <-]|].
    rewrite lookup_insert_ne by done. apply Hbytes.
  - intros x. cbn. case_decide as Hx; [subst; rewrite lookup_insert_eq; cbn; by rewrite app_nil_r|]. by rewrite lookup_insert_ne.
  - intros x e Hx. apply lookup_delete_Some in Hx as [_ Hx]. eauto.
  - intros x. unfold unmark_dirty. rewrite list_elem_of_filter, Hflag. setoid_rewrite lookup_delete_Some. naive_solver.
  - by apply NoDup_filter.
  - intros x e Hx. apply lookup_delete_Some in Hx as [_ Hx]. eauto.
  - intros x. cbn. case_decide as Hx; [subst; by rewrite lookup_delete_eq|]. by rewrite lookup_delete_ne.
Qed.

Lemma drain_control_spec now events : forall s,
  steady s -> fresh (view s) events ->
  steady (drain_control now events s) /\ same_view (view (drain_control now events s)) (fold_left control_view events (view s)).
Proof.
  induction events as [|ev events IH]; intros s Hs Hr; [done|]. destruct Hr as [Hev Hr].
  destruct (drain_one_spec now s ev Hs Hev) as [Hs1 Hv1]. destruct (IH _ Hs1) as [Hs' Hv'].
  { eapply fresh_ext; [|exact Hr]. destruct Hv1 as [V1 V2]. split; intros x; by rewrite ?V1, ?V2. }
  split; [done|].
  cbn [fold_left]. revert Hv'. change (drain_control now (ev :: events) s) with (drain_control now events (drain_one now s ev)).
  pose proof (control_views_ext events _ _ Hv1) as [F1 F2]. intros [G1 G2]. split; intros x; [by rewrite G1|by rewrite G2].
Qed.

(** *** Heartbeats and the way out *)

Lemma heartbeats_spec s frame now interval :
  steady s -> let s' := send_heartbeats kernel s frame now interval in
  exists beats : Z -> bool,
    steady s' /\ leaves s s' /\ evolves_by (fun id => if beats id then frame else []) (view s) (view s').
Proof.
  intros Hs. cbn zeta. unfold send_heartbeats.
  assert (Hfold : forall ids s0, NoDup ids -> steady s0 ->
    exists beats : Z -> bool, (forall id, beats id = true -> id ∈ ids) /\
      let s1 := fold_left (heartbeat_one frame now interval) ids s0 in
      steady s1 /\ leaves s0 s1 /\ evolves_by (fun id => if beats id then frame else []) (view s0) (view s1)).
  { intros ids. induction ids as [|x ids IH]; intros s0 Hnd Hs0; cbn [fold_left].
    { exists (fun _ => false). split; [done|]. split; [done|]. split; [apply leaves_refl|apply stream_refl]. }
    apply NoDup_cons in Hnd as [Hx Hnd].
    assert (Hone : exists b : bool, steady (heartbeat_one frame now interval s0 x) /\ leaves s0 (heartbeat_one frame now interval s0 x) /\
      evolves_by (only x (if b then frame else [])) (view s0) (view (heartbeat_one frame now interval s0 x))).
    { unfold heartbeat_one. destruct (connections s0 !! x) as [e|] eqn:He.
      2: { exists false. split; [done|]. split; [apply leaves_refl|]. eapply evolves_ext; [|apply stream_refl]. intros y. unfold only, nothing. by case_decide. }
      destruct (heartbeat_due e now interval (length frame)) eqn:Hd.
      2: { exists false. split; [done|]. split; [apply leaves_refl|]. eapply evolves_ext; [|apply stream_refl]. intros y. unfold only, nothing. by case_decide. }
      exists true. unfold heartbeat_due in Hd. apply andb_true_iff in Hd as [_ Hd]. apply Nat.leb_le in Hd.
      destruct Hs0 as [Hok0 Hr0]. pose proof (insert_ok s0 x e frame now Hok0 He Hd) as Hi.
      destruct (mark_dirty _ _ _) as [e' d]. destruct Hi as [Hi Hb]. split; [by split|]. split; [by eapply insert_leaves|by eapply view_insert]. }
    destruct Hone as (b & Hs1 & Hlv1 & Hev1). destruct (IH _ Hnd Hs1) as (beats & Hin & Hs2 & Hlv2 & Hev2).
    exists (fun id => if decide (id = x) then b else beats id). split.
    { intros id. case_decide; [subst; intros _; constructor|]. intros Hb. apply elem_of_cons. right. by apply Hin. }
    split; [done|]. split; [by eapply leaves_trans|]. eapply evolves_ext; [|by eapply stream_trans].
    intros id. unfold then_add, only. destruct (decide (id = x)) as [->|]; [|done].
    destruct (beats x) eqn:Hbx; [by apply Hin in Hbx|]. by rewrite app_nil_r. }
  destruct (Hfold (map fst (map_to_list (connections s))) s) as (beats & _ & H1 & H2 & H3); [apply NoDup_fst_map_to_list|done|].
  cbn zeta in *. set (s1 := fold_left _ _ s) in *. exists beats. destruct (dirty s1); [done|].
  destruct (send_and_teardown s1 H1) as (S1 & S2 & S3 & _). cbn zeta in *.
  split; [done|]. split; [by eapply leaves_trans|by eapply evolves_quiet].
Qed.

(** On the way out: the buffered replies go, unless the node was fenced. *)
Lemma on_shutdown_spec s :
  steady s -> let s' := on_shutdown kernel s in
  evolves_by nothing (view s) (view s') /\ (fenced s = true -> s' = s).
Proof.
  intros [Hok _]. cbn zeta. unfold on_shutdown. destruct (fenced s); [by split; [apply stream_refl|]|].
  destruct (bool_decide (dirty s = [])); [by split; [apply stream_refl|]|]. split; [|done].
  by destruct (flush_sends_spec s Hok) as (_ & F2 & _).
Qed.
End facts.
End UringFacts.
