(* ===== verification/Response.v ===== *)
(** * The response stage

    [Loop] is the stage's loop ([server-runtime/src/response_loop.rs]), with
    the boundary tracker ([batch_boundary.rs]), the early-reply snapshot
    ([early_reply.rs]) and the idle housekeeping ([idle_housekeeping.rs]),
    around the durability gate of [Gate] and any egress. The egress is an
    interface, the class [Egress] with its laws; [UringStage] discharges it
    for the kernel TCP stage. What the stage meets (the slots published, the
    early replies made visible, the control events, the gate's passes, the
    clocks) is a script, turn by turn. The utilization gauges and the trace
    recorders are left out. *)

From stdpp Require Import gmap.
From S2P Require Import Prelude Cursors AckPolicy Lineage Codec Protocol Presence Stages Gate GateProofs Spsc ClientWire Ingress Egress.
Import Egress.Encoding Egress.Streams Ingress.Early Stages.Live Gate.Gate.

(** ** Idle housekeeping *)

Module Housekeeping.
Import Gate.Timer Spsc.Wait.

(** Nanoseconds. *)
Definition IDLE_HOUSEKEEPING_INTERVAL : Z := 10000000.
Definition HEARTBEAT_SCAN_INTERVAL : Z := 1000000000.

Record IdleHousekeeping := { timer : AmortizedTimer; last_heartbeat_scan : Z }.
Record Due := { due_now : Z; heartbeat_scan : bool }.

Definition elapsed (last now interval : Z) : bool * Z :=
  let due := interval <=? sat_sub now last in (due, if due then now else last).

Definition due_at (h : IdleHousekeeping) (now : Z) : Due * IdleHousekeeping :=
  let '(scan, last) := elapsed (last_heartbeat_scan h) now HEARTBEAT_SCAN_INTERVAL in
  ({| due_now := now; heartbeat_scan := scan |}, {| timer := timer h; last_heartbeat_scan := last |}).

(** [t1], [t2]: the timer's two reads of the clock; [now] the tick's own. *)
Definition tick (h : IdleHousekeeping) (w : waiter) (t1 t2 now : Z) : option Due * IdleHousekeeping :=
  let masked := spinning w && past_spin_budget w in
  let '(fired, t) := Gate.Timer.tick (timer h) IDLE_HOUSEKEEPING_INTERVAL masked t1 t2 in
  let h := {| timer := t; last_heartbeat_scan := last_heartbeat_scan h |} in
  match fired with
  | None => (None, h)
  | Some _ => let '(due, h) := due_at h now in (Some due, h)
  end.
End Housekeeping.

(** ** The egress, as an interface *)

Module Interface.

Class Egress (S R Q : Type) := {
  drain_control : Z -> list ControlEvent -> S -> S;
  send_slot : S -> Z -> OutputSlot R Q -> Backing -> Buffers -> Z -> SlotOutcome * S * Buffers;
  after_slot : S -> S;
  release_early_replies : S -> list (EarlyReply R) -> list Z -> Z -> option (S * list Z);
  before_wait : S -> S;
  after_wait_release : S -> S;
  after_idle_release : S -> S;
  on_idle : S -> S;
  send_heartbeats : S -> list Z -> Z -> Z -> S;
  after_commit : S -> S;
  on_shutdown : S -> S;
  alive : S -> bool
}.

(** What the loop relies on: every operation keeps the egress steady and
    every connection's stream as it was, but for the reply it was handed,
    whole and at the end, or the connection is gone. *)
Class EgressLaws (S R Q : Type) `{Egress S R Q, ResponseEncoder R Q} := {
  steady : S -> Prop;
  view : S -> View;
  drain_law : forall now evs s, steady s -> fresh (view s) evs ->
    steady (drain_control now evs s) /\
    same_view (view (drain_control now evs s)) (fold_left control_view evs (view s));
  send_law : forall s id slot backing b now, steady s -> buffers_ok b ->
    let '(o, s1, b1) := send_slot s id slot backing b now in
    buffers_ok b1 /\ (o = Known <-> is_Some (stream (view s) id)) /\
    (o = Known -> steady (after_slot s1) /\
       evolves_by (only id (slot_bytes slot backing)) (view s) (view (after_slot s1))) /\
    (o = Unknown -> s1 = s) /\
    (o = Stopped -> steady s1 /\ evolves_by nothing (view s) (view s1));
  release_law : forall s replies buf now, steady s -> length buf = MAX_EARLY_REPLY ->
    exists s' buf', release_early_replies s replies buf now = Some (s', buf') /\
      length buf' = MAX_EARLY_REPLY /\ steady s' /\
      evolves_by (fun id => flat_map (fun r => if decide (er_connection_id r = id) then early_bytes r else []) replies)
        (view s) (view s');
  quiet_law : forall f s, f ∈ [after_slot; before_wait; after_wait_release; after_idle_release; on_idle; after_commit] ->
    steady s -> steady (f s) /\ evolves_by nothing (view s) (view (f s));
  heartbeat_law : forall s frame now interval, steady s -> exists beats : Z -> bool,
    steady (send_heartbeats s frame now interval) /\
    evolves_by (fun id => if beats id then frame else []) (view s) (view (send_heartbeats s frame now interval));
  shutdown_law : forall s, steady s -> evolves_by nothing (view s) (view (on_shutdown s));
  socket_law : forall s id x, stream (view s) id = Some x -> sock (view s) id `prefix_of` x
}.
End Interface.

(** ** The loop *)

Module Loop.
Import Interface Housekeeping Spsc.Wait.

Definition MAX_BATCH : nat := Z.to_nat 1024.

(** The heartbeat's frame, encoded once. *)
Definition heartbeat_frame : list Z :=
  match ClientWire.Reply.encode_transport_response ClientWire.Reply.Heartbeat 8 with Ok f => f | Err _ => [] end.

Section loop.
Context {S R Q : Type} `{Egress S R Q, ResponseEncoder R Q}.
Context (heartbeat_interval : option Z).

(** A snapshot of the early-reply queue and the drain that follows it: the
    replies made visible since the last one, and the control events. *)
Record Snap := { seen : list (EarlyReply R); control : list ControlEvent; snap_now : Z }.

(** What admitting one slot meets: the clock outside the wait, the gate's
    passes, and a snapshot and a clock per turn of the wait. *)
Record AdmitEnv := { a_now : Z; a_passes : list Pass; a_waits : list (Snap * Z) }.

Record IdleEnv := { i_now : Z; i_t1 : Z; i_t2 : Z; i_tick : Z; i_pass : Pass }.

Record Turn := {
  t_shutdown : bool;
  t_published : list (OutputSlot R Q);
  t_limit : nat;
  t_snap : Snap;
  t_batch_now : Z;
  t_admits : list AdmitEnv;
  t_after : Z;
  t_idle : IdleEnv
}.

(** What the stage took from its channels and handed its egress or its gate,
    in order. *)
Inductive Handed :=
| HSnapshot (replies : list (EarlyReply R))
| HControl (ev : ControlEvent)
| HSlot (slot : OutputSlot R Q) (backing : Backing)
| HChange (slot : OutputSlot R Q)
| HEarly (reply : EarlyReply R)
| HBeat.

(** [ring] is the output ring's slots published and not committed; [log]
    what was taken and handed over. *)
Record Stage := {
  egress : S;
  gate : DurabilityGate;
  between_events : bool;
  snapshot : list (EarlyReply R);
  buffers : Buffers;
  early_buf : list Z;
  ring : list (OutputSlot R Q);
  degraded_acks : Z;
  housekeeping : IdleHousekeeping;
  wait : waiter;
  log : list Handed
}.

Definition with_egress (st : Stage) (e : S) (l : list Handed) : Stage :=
  {| egress := e; gate := gate st; between_events := between_events st; snapshot := snapshot st; buffers := buffers st;
     early_buf := early_buf st; ring := ring st; degraded_acks := degraded_acks st; housekeeping := housekeeping st;
     wait := wait st; log := log st ++ l |}.
Definition with_gate (st : Stage) (g : DurabilityGate) : Stage :=
  {| egress := egress st; gate := g; between_events := between_events st; snapshot := snapshot st; buffers := buffers st;
     early_buf := early_buf st; ring := ring st; degraded_acks := degraded_acks st; housekeeping := housekeeping st;
     wait := wait st; log := log st |}.
Definition with_boundary (st : Stage) (b : bool) : Stage :=
  {| egress := egress st; gate := gate st; between_events := b; snapshot := snapshot st; buffers := buffers st;
     early_buf := early_buf st; ring := ring st; degraded_acks := degraded_acks st; housekeeping := housekeeping st;
     wait := wait st; log := log st |}.
Definition with_snapshot (st : Stage) (rs : list (EarlyReply R)) (buf : list Z) : Stage :=
  {| egress := egress st; gate := gate st; between_events := between_events st; snapshot := rs; buffers := buffers st;
     early_buf := buf; ring := ring st; degraded_acks := degraded_acks st; housekeeping := housekeeping st;
     wait := wait st; log := log st |}.
Definition with_buffers (st : Stage) (b : Buffers) (acks : Z) : Stage :=
  {| egress := egress st; gate := gate st; between_events := between_events st; snapshot := snapshot st; buffers := b;
     early_buf := early_buf st; ring := ring st; degraded_acks := acks; housekeeping := housekeeping st;
     wait := wait st; log := log st |}.
Definition with_ring (st : Stage) (r : list (OutputSlot R Q)) : Stage :=
  {| egress := egress st; gate := gate st; between_events := between_events st; snapshot := snapshot st; buffers := buffers st;
     early_buf := early_buf st; ring := r; degraded_acks := degraded_acks st; housekeeping := housekeeping st;
     wait := wait st; log := log st |}.
Definition with_wait (st : Stage) (h : IdleHousekeeping) (w : waiter) : Stage :=
  {| egress := egress st; gate := gate st; between_events := between_events st; snapshot := snapshot st; buffers := buffers st;
     early_buf := early_buf st; ring := ring st; degraded_acks := degraded_acks st; housekeeping := h;
     wait := w; log := log st |}.

(** [EarlyReplyQueue::register], [Registered::reregister]: the snapshot
    first, then the control channel. *)
Definition register (st : Stage) (p : Snap) : Stage :=
  let st := with_snapshot st (snapshot st ++ seen p) (early_buf st) in
  with_egress st (drain_control (snap_now p) (control p) (egress st)) (HSnapshot (seen p) :: map HControl (control p)).

(** Every reply of the snapshot is handed over; [None] where an [expect]
    would fail. *)
Definition release (st : Stage) (now : Z) : option (Stage * nat) :=
  '(e, buf) ← release_early_replies (egress st) (snapshot st) (early_buf st) now;
  Some (with_snapshot (with_egress st e (map HEarly (snapshot st))) [] buf, length (snapshot st)).

(** [GateWaitHook]: the calls the gate made while it held the slot. *)
Fixpoint run_hooks (calls : list HookCall) (at_boundary : bool) (waits : list (Snap * Z)) (st : Stage) : option Stage :=
  match calls with
  | [] => Some st
  | BeforeWait :: calls => run_hooks calls at_boundary waits (with_egress st (before_wait (egress st)) [])
  | WhileWaiting :: calls =>
    if at_boundary then
      match waits with
      | [] => run_hooks calls at_boundary [] st
      | (p, now) :: waits =>
        '(st, sent) ← release (register st p) now;
        run_hooks calls at_boundary waits
          (if (0 <? sent)%nat then with_egress st (after_wait_release (egress st)) [] else st)
      end
    else run_hooks calls at_boundary waits st
  end.

(** How a step leaves the stage: going on, on its way out, or still in a
    wait whose end the script does not reach. A stage whose egress panicked in
    a flush is on its way out, without the epilogue; [Panics] is any other
    [expect] or [panic!]. *)
Inductive Flow := Goes (st : Stage) | Leaves (st : Stage) | Held (st : Stage) | Panics.

(** The reply of an admitted slot. *)
Definition send (st : Stage) (slot : OutputSlot R Q) (connection_id : Z) (backing : Backing) (now : Z) : Flow :=
  let '(outcome, e, b) := send_slot (egress st) connection_id slot backing (buffers st) now in
  match outcome with
  | Known =>
    let acks := match backing with
                | PrimaryOnly => if is_last_in_request slot then wrapping_add (degraded_acks st) 1 else degraded_acks st
                | Policy => degraded_acks st end in
    Goes (with_egress (with_buffers st b acks) (after_slot e) [HSlot slot backing])
  | Unknown => Goes (with_egress (with_buffers st b (degraded_acks st)) (after_slot e) [HSlot slot backing])
  | Stopped => Leaves (with_egress (with_buffers st b (degraded_acks st)) e [])
  end.

(** One slot of the batch. *)
Definition step_slot (st : Stage) (slot : OutputSlot R Q) (env : AdmitEnv) (batch_now : Z) : Flow :=
  let at_boundary := between_events st in
  match (if at_boundary then fst <$> release st batch_now else Some st) with
  | None => Panics
  | Some st =>
    if negb (alive (egress st)) then Leaves st
    else
    match admit_output (gate st) slot (a_now env) (a_passes env) with
    | Done admission g h _ =>
      match run_hooks (calls h) at_boundary (a_waits env) (with_gate st g) with
      | None => Panics
      | Some st =>
        if negb (alive (egress st)) then Leaves st
        else
        match admission with
        | Shutdown => Leaves st
        | GateOnly =>
          let st := with_boundary st (is_last_in_request slot) in
          Goes (with_egress st (after_slot (egress st)) [HChange slot])
        | Gate.Reply connection_id backing =>
          send (with_boundary st (is_last_in_request slot)) slot connection_id backing batch_now
        end
      end
    | Waiting g h =>
      match run_hooks (calls h) at_boundary (a_waits env) (with_gate st g) with
      | None => Panics
      | Some st => if alive (egress st) then Held st else Leaves st
      end
    | OutOfFuel => Panics
    end
  end.

Fixpoint step_batch (st : Stage) (slots : list (OutputSlot R Q)) (envs : list AdmitEnv) (batch_now : Z) : Flow :=
  match slots with
  | [] => Goes st
  | slot :: slots =>
    match envs with
    | [] => Held st
    | env :: envs =>
      match step_slot st slot env batch_now with
      | Goes st => if alive (egress st) then step_batch st slots envs batch_now else Leaves st
      | f => f
      end
    end
  end.

(** The ring was empty: early replies between events, the egress's turn, and
    the housekeeping that is due. *)
Definition idle_turn (st : Stage) (env : IdleEnv) : Flow :=
  match (if between_events st
         then '(st, _) ← release st (i_now env); Some (with_egress st (after_idle_release (egress st)) [])
         else Some st) with
  | None => Panics
  | Some st =>
    let st := with_egress st (on_idle (egress st)) [] in
    let '(due, hk) := tick (housekeeping st) (wait st) (i_t1 env) (i_t2 env) (i_tick env) in
    let st :=
      match due with
      | None => st
      | Some d =>
        let st := match heartbeat_interval with
                  | Some interval =>
                    if heartbeat_scan d
                    then with_egress st (send_heartbeats (egress st) heartbeat_frame (due_now d) interval) [HBeat]
                    else st
                  | None => st
                  end in
        with_gate st (idle_recheck (gate st) (due_now d) (i_pass env))
      end in
    Goes (with_wait st hk (fst (do_idle (wait st))))
  end.

(** One iteration. *)
Definition turn (st : Stage) (t : Turn) : Flow :=
  if t_shutdown t then Leaves st
  else
    let st := with_ring st (ring st ++ t_published t) in
    let slots := take (Nat.min (t_limit t) MAX_BATCH) (ring st) in
    let st := register st (t_snap t) in
    match slots with
    | [] => idle_turn st (t_idle t)
    | _ =>
      let st := with_wait st (housekeeping st) (reset (wait st)) in
      match step_batch st slots (t_admits t) (t_batch_now t) with
      | Goes st =>
        let st := with_ring st (drop (length slots) (ring st)) in
        let st := with_egress st (after_commit (egress st)) [] in
        Goes (with_gate st (after_batch (gate st) (t_after t)))
      | f => f
      end
    end.

(** The loop, and the one epilogue every exit leads to but a panic. *)
Fixpoint run (st : Stage) (turns : list Turn) : Flow :=
  match turns with
  | [] => Held st
  | t :: turns =>
    match turn st t with
    | Goes st => if alive (egress st) then run st turns else Leaves st
    | Leaves st => Leaves (if alive (egress st) then with_egress st (on_shutdown (egress st)) [] else st)
    | f => f
    end
  end.

Definition start (e : S) (g : DurabilityGate) (hk : IdleHousekeeping) (s : wait_strategy) : Stage :=
  {| egress := e; gate := g; between_events := true; snapshot := [];
     buffers := {| encode_buf := replicate MAX_APP_FRAME 0; batch_ends := batch_ends_new |};
     early_buf := replicate MAX_EARLY_REPLY 0; ring := []; degraded_acks := 0; housekeeping := hk;
     wait := new_waiter s; log := [] |}.
End loop.
End Loop.

(** ** The stage's ledger

    What the log says of a connection, of the slots and of the early replies. *)

Module Ledger.
Import Interface Housekeeping Loop GateProofs.Contract.

Section ledger.
Context {R Q : Type} `{ResponseEncoder R Q}.
Notation Handed := (@Handed R Q).

Definition opened (events : list ControlEvent) : list Z :=
  flat_map (fun ev => match ev with Connected id => [id] | Disconnected _ => [] end) events.
Definition connects (l : list Handed) : list Z :=
  flat_map (fun h => match h with HControl ev => opened [ev] | _ => [] end) l.
Definition slots_of (l : list Handed) : list (OutputSlot R Q) :=
  flat_map (fun h => match h with HSlot slot _ | HChange slot => [slot] | _ => [] end) l.
Definition earlies_of (l : list Handed) : list (EarlyReply R) :=
  flat_map (fun h => match h with HEarly r => [r] | _ => [] end) l.
Definition taken_of (l : list Handed) : list (EarlyReply R) :=
  flat_map (fun h => match h with HSnapshot rs => rs | _ => [] end) l.

(** Between two events: the last slot ended its event, or there is none. *)
Definition boundary (slots : list (OutputSlot R Q)) : bool :=
  match last slots with Some slot => is_last_in_request slot | None => true end.

(** No early reply falls inside an event's reply. *)
Definition whole (l : list Handed) : Prop :=
  forall pre r post, l = pre ++ HEarly r :: post -> boundary (slots_of pre) = true.

(** What one entry adds to a registered connection's stream: its own slots
    and early replies, whole; a heartbeat or not; nothing else. *)
Inductive adds (id : Z) : Handed -> list Z -> Prop :=
| adds_slot slot backing : o_connection_id slot = id -> adds id (HSlot slot backing) (slot_bytes slot backing)
| adds_early r : er_connection_id r = id -> adds id (HEarly r) (early_bytes r)
| adds_beat : adds id HBeat heartbeat_frame
| adds_no_beat : adds id HBeat []
| adds_other_slot slot backing : o_connection_id slot <> id -> adds id (HSlot slot backing) []
| adds_other_early r : er_connection_id r <> id -> adds id (HEarly r) []
| adds_change slot : adds id (HChange slot) []
| adds_snapshot rs : adds id (HSnapshot rs) [].

(** The stream the log owes a connection, and whether it is registered:
    empty when it registers, every entry's bytes in order while it is, and
    nothing more once it is not. *)
Inductive owed (id : Z) : list Handed -> bool -> list Z -> Prop :=
| owed_start : owed id [] false []
| owed_connect l s : owed id l false s -> owed id (l ++ [HControl (Connected id)]) true []
| owed_disconnect l live s : owed id l live s -> owed id (l ++ [HControl (Disconnected id)]) false s
| owed_control l live s ev : owed id l live s -> ev <> Connected id -> ev <> Disconnected id ->
    owed id (l ++ [HControl ev]) live s
| owed_adds l s h a : owed id l true s -> adds id h a -> owed id (l ++ [h]) true (s ++ a)
| owed_skips l s h a : owed id l false s -> adds id h a -> owed id (l ++ [h]) false s.

(** What an egress gave a connection, against what the log owes it: the
    socket has a prefix, and a connection not given up on has the rest on
    its way. *)
Definition delivered (id : Z) (l : list Handed) (v : View) : Prop :=
  exists live s, owed id l live s /\ sock v id `prefix_of` s /\
    forall x, stream v id = Some x -> live = true /\ x = s.

(** *** The ledger's parts, entry by entry *)

Lemma connects_app l k : connects (l ++ k) = connects l ++ connects k.
Proof. apply flat_map_app. Qed.
Lemma slots_app l k : slots_of (l ++ k) = slots_of l ++ slots_of k.
Proof. apply flat_map_app. Qed.
Lemma earlies_app l k : earlies_of (l ++ k) = earlies_of l ++ earlies_of k.
Proof. apply flat_map_app. Qed.
Lemma taken_app l k : taken_of (l ++ k) = taken_of l ++ taken_of k.
Proof. apply flat_map_app. Qed.

Lemma control_connects evs : connects (map HControl evs) = opened evs.
Proof. induction evs as [|[id|id] evs IH]; [done|exact (f_equal (cons id) IH)|exact IH]. Qed.
Lemma control_silent evs :
  slots_of (map HControl evs) = [] /\ earlies_of (map HControl evs) = [] /\ taken_of (map HControl evs) = [].
Proof. by induction evs as [|ev evs IH]. Qed.
Lemma early_entries rs :
  connects (map HEarly rs) = [] /\ slots_of (map HEarly rs) = [] /\
  earlies_of (map HEarly rs) = rs /\ taken_of (map HEarly rs) = [].
Proof. induction rs as [|r rs (H1 & H2 & H3 & H4)]; [done|]. split_and!; try done. exact (f_equal (cons r) H3). Qed.

Lemma boundary_snoc slots slot : boundary (slots ++ [slot]) = is_last_in_request slot.
Proof. unfold boundary. by rewrite last_snoc. Qed.

Lemma whole_app l hs : whole l -> earlies_of hs = [] \/ (slots_of hs = [] /\ boundary (slots_of l) = true) -> whole (l ++ hs).
Proof.
  intros Hl Hhs pre r post Heq. apply app_eq_app in Heq as [k [[-> Hk]|[-> Hk]]].
  - destruct k as [|h k]; [|injection Hk as <- ->; by eapply (Hl pre r k)]. rewrite app_nil_r in *. cbn in Hk. rewrite <- Hk in Hhs.
    destruct Hhs as [Hhs|[_ Hb]]; [done|done].
  - rewrite slots_app. destruct Hhs as [Hhs|[Hs Hb]].
    + rewrite Hk, earlies_app in Hhs. by apply app_eq_nil in Hhs as [_ Hhs].
    + rewrite Hk, slots_app in Hs. apply app_eq_nil in Hs as [-> _]. by rewrite app_nil_r.
Qed.

(** *** Delivery, step by step *)

Lemma owed_fresh id l live s : owed id l live s -> id ∉ connects l -> live = false /\ s = [].
Proof.
  induction 1 as [|l s Ho IH|l live s Ho IH|l live s ev Ho IH H1 H2|l s h a Ho IH Ha|l s h a Ho IH Ha];
    rewrite ?connects_app; intros Hn; [done|..]; apply not_elem_of_app in Hn as [Hn Hn'].
  - destruct Hn'. by left.
  - split; [done|]. by apply IH.
  - by apply IH.
  - by destruct (IH Hn).
  - by apply IH.
Qed.

Inductive adds_all (id : Z) : list Handed -> list Z -> Prop :=
| all_nil : adds_all id [] []
| all_cons h hs a b : adds id h a -> adds_all id hs b -> adds_all id (h :: hs) (a ++ b).

Lemma owed_adds_all id hs a : adds_all id hs a -> forall l live s, owed id l live s ->
  owed id (l ++ hs) live (if live then s ++ a else s).
Proof.
  induction 1 as [|h hs a b Ha Hall IH]; intros l live s Ho; [rewrite !app_nil_r; by destruct live|].
  replace (l ++ h :: hs) with ((l ++ [h]) ++ hs) by (by rewrite <- app_assoc).
  destruct live.
  - rewrite app_assoc. apply (IH _ true). by apply owed_adds.
  - apply (IH _ false). by eapply owed_skips.
Qed.

Lemma adds_earlies id rs :
  adds_all id (map HEarly rs) (flat_map (fun r => if decide (er_connection_id r = id) then early_bytes r else []) rs).
Proof. induction rs as [|r rs IH]; cbn; constructor; [|done]. by case_decide; constructor. Qed.

Lemma adds_one id h a : adds id h a -> adds_all id [h] a.
Proof. intros Ha. rewrite <- (app_nil_r a). by repeat constructor. Qed.

Lemma delivered_evolves id l hs v v' add :
  delivered id l v -> (forall x, stream v' id = Some x -> sock v' id `prefix_of` x) ->
  evolves_by add v v' -> adds_all id hs (add id) -> delivered id (l ++ hs) v'.
Proof.
  intros (live & s & Ho & Hp & Hs) Hv He Ha. exists live, (if live then s ++ add id else s).
  split; [by apply owed_adds_all|]. destruct (He id) as [_ He'].
  destruct (stream v id) as [x|] eqn:Hx.
  - destruct (Hs x eq_refl) as [-> ->]. destruct (stream v' id) as [x'|] eqn:Hx'.
    + subst x'. split; [by apply Hv|]. by intros ? [= <-].
    + by split.
  - destruct (stream v' id) as [x'|]; [done|]. rewrite He'. split; [|done]. destruct live; [by apply prefix_app_r|done].
Qed.

Lemma delivered_same id l v v' : same_view v v' -> delivered id l v' -> delivered id l v.
Proof. intros [H1 H2] (live & s & Ho & Hp & Hs). exists live, s. by rewrite H1, H2. Qed.

Lemma delivered_control l v ev :
  (forall id, delivered id l v) -> match ev with Connected id => id ∉ connects l | Disconnected _ => True end ->
  forall id, delivered id (l ++ [HControl ev]) (control_view v ev).
Proof.
  intros Hd Hev id. destruct (Hd id) as (live & s & Ho & Hp & Hs). destruct ev as [x|x]; destruct (decide (id = x)) as [->|Hne].
  - destruct (owed_fresh _ _ _ _ Ho Hev) as [-> ->]. exists true, []. split; [by eapply owed_connect|]. split; [done|].
    cbn. rewrite decide_True by done. intros y [= <-]. split; [done|]. by apply prefix_nil_inv in Hp.
  - exists live, s. split; [apply owed_control; congruence|]. split; [done|]. cbn. by rewrite decide_False.
  - exists false, s. split; [by eapply owed_disconnect|]. split; [done|]. cbn. by rewrite decide_True.
  - exists live, s. split; [apply owed_control; congruence|]. split; [done|]. cbn. by rewrite decide_False.
Qed.

Lemma delivered_controls evs : forall l v,
  (forall id, delivered id l v) -> NoDup (connects l ++ opened evs) ->
  fresh v evs /\ forall id, delivered id (l ++ map HControl evs) (fold_left control_view evs v).
Proof.
  induction evs as [|ev evs IH]; intros l v Hd Hnd; [by rewrite app_nil_r|].
  assert (Hev : match ev with Connected id => id ∉ connects l | Disconnected _ => True end).
  { destruct ev as [x|x]; [|done]. apply NoDup_app in Hnd as (_ & Hnd & _). intros Hx. apply (Hnd x Hx). by left. }
  destruct (IH (l ++ [HControl ev]) (control_view v ev)) as [Hf Hd'].
  { by apply delivered_control. }
  { rewrite connects_app, <- app_assoc. by destruct ev. }
  split.
  - split; [|done]. destruct ev as [x|x]; [|done]. destruct (Hd x) as (live & s & Ho & _ & Hs).
    destruct (owed_fresh _ _ _ _ Ho Hev) as [-> _]. destruct (stream v x) as [y|]; [|done]. by destruct (Hs y eq_refl).
  - intros id. cbn. rewrite <- app_assoc in Hd'. apply Hd'.
Qed.
End ledger.
End Ledger.

Module Walk.
Import Interface Housekeeping Loop Ledger GateProofs.Contract Spsc.Wait.

Section walk.
Context {S R Q : Type} {Eg : Egress S R Q} {En : ResponseEncoder R Q} {Laws : EgressLaws S R Q}.
Context (heartbeat_interval : option Z).
Context (evidence : Pass -> Prop) (lineage : Z -> Z -> bool -> Prop) (g0 : DurabilityGate).
Notation Stage := (@Stage S R Q).
Notation Handed := (@Handed R Q).

(** What a reply handed over rests on: the policy in force, reached from the
    gate's first by the contract's steps, or a release on this node's disk. *)
Definition backed (h : Handed) : Prop :=
  match h with
  | HSlot slot Policy =>
    exists a th, rtc (switch evidence lineage) (policy_state g0) (a, th) /\ confirmed evidence a (o_wire_seq slot)
  | HSlot slot PrimaryOnly =>
    exists a th gr p, rtc (switch evidence lineage) (policy_state g0) (a, th) /\
      (confirmed evidence a (o_wire_seq slot) \/ on_disk evidence (o_wire_seq slot)) /\
      evidence p /\ grace g0 = Some gr /\ release_evidence gr p
  | _ => True
  end.

(** What holds of the stage on every way out. *)
Record past (st : Stage) : Prop := {
  p_delivered : forall id, delivered id (log st) (view (egress st));
  p_whole : whole (log st);
  p_backed : Forall backed (log st);
  p_taken : earlies_of (log st) ++ snapshot st = taken_of (log st)
}.

(** And while it runs; [fut] are the connections still to come. *)
Record inv (fut : list Z) (st : Stage) : Prop := {
  i_past : past st;
  i_fresh : NoDup (connects (log st) ++ fut);
  i_steady : steady (egress st);
  i_buffers : buffers_ok (buffers st);
  i_early : length (early_buf st) = MAX_EARLY_REPLY;
  i_between : between_events st = boundary (slots_of (log st))
}.

(** The gate's side. *)
Record gate_inv (st : Stage) : Prop := {
  g_inv : ginv evidence lineage (gate st);
  g_switch : rtc (switch evidence lineage) (policy_state g0) (policy_state (gate st));
  g_grace : grace (gate st) = grace g0;
  g_ring : Forall (slot_in_lineage lineage) (ring st)
}.

(** The gate, the ring and the slots handed over are as they were. *)
Definition kept (st st' : Stage) : Prop :=
  gate st' = gate st /\ ring st' = ring st /\ slots_of (log st') = slots_of (log st) /\ between_events st' = between_events st.

Lemma kept_trans a b c : kept a b -> kept b c -> kept a c.
Proof. intros (?&?&?&?) (?&?&?&?). split_and!; congruence. Qed.

Lemma inv_drop a fut st : inv (a ++ fut) st -> inv fut st.
Proof.
  intros [H1 H2 H3 H4 H5 H6]. constructor; try done. rewrite app_assoc in H2.
  apply NoDup_app in H2 as (H2 & Hd & Hf). apply NoDup_app in H2 as (H2 & _ & _). apply NoDup_app. split; [done|].
  split; [|done]. intros x Hx. apply Hd. apply elem_of_app. by left.
Qed.

Lemma gate_kept st st' : kept st st' -> gate_inv st -> gate_inv st'.
Proof. intros (Hg & Hr & _) [H1 H2 H3 H4]. constructor; by rewrite ?Hg, ?Hr. Qed.

(** The egress did its part, and the log says what it was handed. *)
Lemma past_egress st e hs add :
  past st -> evolves_by add (view (egress st)) (view e) -> (forall id, adds_all id hs (add id)) ->
  earlies_of hs = [] -> taken_of hs = [] -> Forall backed hs -> past (with_egress st e hs).
Proof.
  intros [H1 H2 H3 H4] He Ha Hne Hnt Hb. constructor; cbn [with_egress log egress snapshot].
  - intros id. eapply delivered_evolves; [apply H1|intros x; apply socket_law|exact He|apply Ha].
  - apply whole_app; [done|by left].
  - by apply Forall_app.
  - by rewrite earlies_app, taken_app, Hne, Hnt, !app_nil_r.
Qed.

Lemma inv_quiet fut f st :
  f ∈ [after_slot; before_wait; after_wait_release; after_idle_release; on_idle; after_commit] -> inv fut st ->
  inv fut (with_egress st (f (egress st)) []) /\ kept st (with_egress st (f (egress st)) []).
Proof.
  intros Hf [H1 H2 H3 H4 H5 H6]. destruct (quiet_law f (egress st) Hf H3) as [Q1 Q2].
  split; [|split_and!; cbn; by rewrite ?app_nil_r]. constructor; cbn [with_egress log egress buffers early_buf between_events];
    rewrite ?app_nil_r; try done.
  eapply past_egress; [done|exact Q2|constructor|done|done|done].
Qed.

Lemma inv_register fut st p :
  inv (opened (control p) ++ fut) st -> inv fut (register st p) /\ kept st (register st p).
Proof.
  intros [[D W B T] F St Bu Ea Be]. unfold register.
  assert (Hnd : NoDup (connects (log st) ++ opened (control p))) by (rewrite app_assoc in F; by apply NoDup_app in F as (? & _)).
  assert (Hd0 : forall id, delivered id (log st ++ [HSnapshot (seen p)]) (view (egress st))).
  { intros id. eapply (delivered_evolves id _ _ _ _ nothing); [apply D|intros x; apply socket_law| |apply adds_one; constructor].
    intros x. split; [done|]. destruct (stream _ x); [unfold nothing; by rewrite app_nil_r|done]. }
  destruct (delivered_controls (control p) _ _ Hd0) as [Hf Hd]; [by rewrite connects_app, app_nil_r|].
  destruct (drain_law (snap_now p) (control p) (egress st) St Hf) as [Hs Hv].
  destruct (control_silent (R := R) (Q := Q) (control p)) as (C1 & C2 & C3).
  assert (Hsl : forall l : list Handed, slots_of (l ++ HSnapshot (seen p) :: map HControl (control p)) = slots_of l).
  { intros l. rewrite slots_app. change (slots_of (HSnapshot (seen p) :: map HControl (control p)))
      with (slots_of (R := R) (Q := Q) (map HControl (control p))). by rewrite C1, app_nil_r. }
  split; [|split_and!; try done; apply Hsl].
  constructor; cbn [with_egress with_snapshot log egress buffers early_buf between_events]; try done; [constructor| |];
    cbn [with_egress with_snapshot log egress snapshot].
  - intros id. eapply delivered_same; [exact Hv|]. rewrite <- app_assoc in Hd. apply Hd.
  - apply whole_app; [done|]. by left.
  - apply Forall_app. split; [done|]. constructor; [done|]. apply Forall_map, Forall_true. by intros.
  - rewrite earlies_app, taken_app. change (earlies_of (HSnapshot (seen p) :: map HControl (control p)))
      with (earlies_of (R := R) (Q := Q) (map HControl (control p))).
    change (taken_of (HSnapshot (seen p) :: map HControl (control p)))
      with (seen p ++ taken_of (R := R) (Q := Q) (map HControl (control p))).
    rewrite C2, C3, !app_nil_r, app_assoc. by rewrite T.
  - rewrite connects_app. change (connects (HSnapshot (seen p) :: map HControl (control p)))
      with (connects (R := R) (Q := Q) (map HControl (control p))). by rewrite control_connects, <- app_assoc.
  - by rewrite Hsl.
Qed.

Lemma inv_release fut st now :
  inv fut st -> between_events st = true ->
  exists st' n, release st now = Some (st', n) /\ inv fut st' /\ kept st st'.
Proof.
  intros [[D W B T] F St Bu Ea Be] Hb. unfold release.
  destruct (release_law (egress st) (snapshot st) (early_buf st) now St Ea) as (e & buf & -> & Hl & Hs & He). cbn [mbind option_bind].
  eexists _, _. split; [done|]. destruct (early_entries (R := R) (Q := Q) (snapshot st)) as (C1 & C2 & C3 & C4).
  split; [|split_and!; cbn [with_snapshot with_egress gate ring log between_events]; try done; by rewrite slots_app, C2, app_nil_r].
  constructor; cbn [with_egress with_snapshot log egress buffers early_buf between_events]; try done; [constructor| |];
    cbn [with_egress with_snapshot log egress snapshot].
  - intros id. eapply delivered_evolves; [apply D|intros x; apply socket_law|exact He|apply adds_earlies].
  - apply whole_app; [done|]. right. by rewrite C2, <- Be.
  - apply Forall_app. split; [done|]. apply Forall_map, Forall_true. by intros.
  - by rewrite earlies_app, taken_app, C3, C4, !app_nil_r.
  - by rewrite connects_app, C1, app_nil_r.
  - by rewrite slots_app, C2, app_nil_r.
Qed.

Definition waits_opened (waits : list (@Snap R * Z)) : list Z := flat_map (fun w => opened (control w.1)) waits.

Lemma inv_hooks fut calls : forall waits st,
  inv (waits_opened waits ++ fut) st ->
  exists st', run_hooks calls (between_events st) waits st = Some st' /\ inv fut st' /\ kept st st'.
Proof.
  induction calls as [|[|] calls IH]; intros waits st Hi; cbn [run_hooks].
  - exists st. split; [done|]. split; [by eapply inv_drop|by split_and!].
  - destruct (inv_quiet (waits_opened waits ++ fut) before_wait st) as [Hi1 Hk1]; [by repeat constructor|done|].
    destruct (IH waits _ Hi1) as (st' & H1 & H2 & H3). exists st'.
    change (between_events (with_egress st (before_wait (egress st)) [])) with (between_events st) in H1.
    split; [done|]. split; [done|by eapply kept_trans].
  - destruct (between_events st) eqn:Hb; [|rewrite <- Hb; by apply IH]. destruct waits as [|[p now] waits].
    { rewrite <- Hb. by apply IH. }
    cbn [waits_opened flat_map fst] in Hi. rewrite <- app_assoc in Hi.
    destruct (inv_register _ st p Hi) as [Hi1 Hk1].
    destruct (inv_release _ (register st p) now Hi1 Hb) as (st2 & sent & -> & Hi2 & Hk2). cbn [mbind option_bind].
    assert (Hk12 : kept st st2) by (by eapply kept_trans).
    assert (Hgo : forall st3, inv (waits_opened waits ++ fut) st3 -> kept st2 st3 -> exists st',
      run_hooks calls true waits st3 = Some st' /\ inv fut st' /\ kept st st').
    { intros st3 Hi3 Hk3. destruct (IH waits st3 Hi3) as (st' & H1 & H2 & H3).
      assert (Hb3 : between_events st3 = true) by (destruct Hk12 as (_ & _ & _ & ?), Hk3 as (_ & _ & _ & ?); congruence).
      rewrite Hb3 in H1. exists st'. split; [done|]. split; [done|]. eapply kept_trans; [exact Hk12|by eapply kept_trans]. }
    destruct (0 <? sent)%nat; [|apply Hgo; [done|by split_and!]].
    destruct (inv_quiet (waits_opened waits ++ fut) after_wait_release st2) as [Hi3 Hk3]; [|done|by apply Hgo].
    by do 2 right; left.
Qed.

Lemma inv_gate fut st g : inv fut st -> inv fut (with_gate st g).
Proof. by intros [[D W B T] F St Bu Ea Be]. Qed.

(** A slot is handed over: the log has it, and the boundary is its flag. *)
Lemma inv_handed fut st slot h e add bufs acks :
  inv fut st -> steady e -> buffers_ok bufs -> evolves_by add (view (egress st)) (view e) ->
  (forall id, adds id h (add id)) -> backed h -> h = HChange slot \/ (exists b, h = HSlot slot b) ->
  inv fut (with_egress (with_buffers (with_boundary st (is_last_in_request slot)) bufs acks) e [h]).
Proof.
  intros [P F St Bu Ea Be] Hs Hb He Ha Hbk Hh.
  assert (Hz : slots_of [h] = [slot] /\ connects [h] = [] /\ earlies_of [h] = [] /\ taken_of [h] = []).
  { by destruct Hh as [->|[b ->]]. }
  destruct Hz as (Z1 & Z2 & Z3 & Z4). constructor; cbn [with_egress with_buffers with_boundary log egress buffers early_buf between_events]; try done.
  - apply (past_egress (with_buffers (with_boundary st _) bufs acks) e [h] add); try done.
    + by destruct P.
    + intros id. by apply adds_one.
    + by constructor.
  - by rewrite connects_app, Z2, app_nil_r.
  - by rewrite slots_app, Z1, boundary_snoc.
Qed.

(** Where a step leaves the stage when it does not go on. *)
Definition out (st st' : Stage) : Prop :=
  past st' /\ steady (egress st') /\ ring st' = ring st /\ slots_of (log st') = slots_of (log st).

Lemma inv_out fut st st' : inv fut st' -> kept st st' -> out st st'.
Proof. intros Hi (_ & Hr & Hl & _). split; [apply Hi|]. split; [apply Hi|]. by split. Qed.

Definition handed (fut : list Z) (slot : OutputSlot R Q) (st st' : Stage) : Prop :=
  inv fut st' /\ gate st' = gate st /\ ring st' = ring st /\ slots_of (log st') = slots_of (log st) ++ [slot].

Lemma send_spec fut st slot backing now :
  inv fut st -> backed (HSlot slot backing) ->
  match send (with_boundary st (is_last_in_request slot)) slot (o_connection_id slot) backing now with
  | Goes st' => handed fut slot st st'
  | Leaves st' => out st st'
  | Held _ | Panics => False
  end.
Proof.
  intros Hi Hbk. pose proof Hi as [P F St Bu Ea Be]. unfold send. cbn [with_boundary egress buffers degraded_acks].
  pose proof (send_law (egress st) (o_connection_id slot) slot backing (buffers st) now St Bu) as Hs.
  destruct (send_slot (egress st) (o_connection_id slot) slot backing (buffers st) now) as [[o e] b].
  destruct Hs as (Hb & Hknown & Hk & Hu & Hst).
  assert (Hlog : slots_of (log st ++ [HSlot slot backing]) = slots_of (log st) ++ [slot]) by exact (slots_app (log st) [HSlot slot backing]).
  destruct o.
  - destruct (Hk eq_refl) as [Hse Hev]. split; [|by split_and!]. eapply inv_handed; try done; [|by right; eexists].
    intros id. unfold only. case_decide; subst; by constructor.
  - rewrite (Hu eq_refl) in *. destruct (quiet_law after_slot (egress st)) as [Q1 Q2]; [by left|done|].
    split; [|by split_and!]. eapply (inv_handed _ _ _ _ _ (fun id => if decide (id = o_connection_id slot) then slot_bytes slot backing else []));
      try done; [| |by right; eexists].
    + intros x. destruct (Q2 x) as [Hp Hx]. split; [done|]. destruct (decide (x = o_connection_id slot)) as [->|]; [|done].
      destruct (stream (view (egress st)) (o_connection_id slot)) eqn:Hx0; [|done].
      assert (Hk' : Unknown = Known) by (apply Hknown; by eexists). done.
    + intros id. case_decide; subst; by constructor.
  - destruct (Hst eq_refl) as [Hse Hev]. split; [|split; [done|split; [done|]]].
    + eapply (past_egress (with_buffers (with_boundary st _) b _) e [] nothing); try done; [by destruct P|constructor].
    + cbn. by rewrite app_nil_r.
Qed.

Lemma step_slot_spec fut st slot env now :
  inv (waits_opened (a_waits env) ++ fut) st -> gate_inv st -> slot_in_lineage lineage slot ->
  Forall (good_pass evidence lineage) (a_passes env) ->
  match step_slot st slot env now with
  | Goes st' => inv fut st' /\ gate_inv st' /\ ring st' = ring st /\ slots_of (log st') = slots_of (log st) ++ [slot]
  | Leaves st' | Held st' => out st st'
  | Panics => False
  end.
Proof.
  intros Hi Hg Hl Hp. unfold step_slot.
  assert (Hrel : exists st1, (if between_events st then fst <$> release st now else Some st) = Some st1 /\
    inv (waits_opened (a_waits env) ++ fut) st1 /\ kept st st1).
  { destruct (between_events st) eqn:Hb; [|exists st; split; [done|split; [done|by split_and!]]].
    destruct (inv_release _ st now Hi Hb) as (st1 & n & -> & ?). by exists st1. }
  destruct Hrel as (st1 & -> & Hi1 & Hk1). pose proof (gate_kept _ _ Hk1 Hg) as Hg1.
  destruct Hk1 as (K1 & K2 & K3 & K4). rewrite <- K4.
  assert (Hhooks : forall g calls, exists st2, run_hooks calls (between_events st1) (a_waits env) (with_gate st1 g) = Some st2 /\
    inv fut st2 /\ kept (with_gate st1 g) st2).
  { intros g calls. apply (inv_hooks fut calls (a_waits env) (with_gate st1 g)). by apply inv_gate. }
  assert (Hout : forall g st2, inv fut st2 -> kept (with_gate st1 g) st2 -> out st st2).
  { intros g st2 Hi2 (_ & R2 & L2 & _). split; [apply Hi2|]. split; [apply Hi2|]. cbn [with_gate ring log] in R2, L2. split; congruence. }
  destruct (alive (egress st1)); cbn [negb]; [|split; [apply Hi1|split; [apply Hi1|by split]]].
  pose proof (admit_never_starves (gate st1) slot (a_now env) (a_passes env)) as Hfuel.
  destruct (admit_output (gate st1) slot (a_now env) (a_passes env)) as [adm g h rest|g h|] eqn:Ha; [| |done].
  2: { destruct (Hhooks g (calls h)) as (st2 & -> & Hi2 & Hk2). destruct (alive (egress st2)); by eapply Hout. }
  destruct (Hhooks g (calls h)) as (st2 & -> & Hi2 & Hk2). destruct (alive (egress st2)); cbn [negb]; [|by eapply Hout].
  destruct (admit_spec _ _ _ _ _ _ _ _ Ha) as (used & Hused & Hspec). rewrite Hused in Hp. apply Forall_app in Hp as [Hp _].
  destruct (Hspec evidence lineage Hp (g_inv _ Hg1) Hl) as (G1 & G2 & G3).
  assert (Hg2 : gate_inv st2).
  { destruct Hk2 as (E1 & E2 & _). destruct Hg1 as [_ I2 I3 I4]. cbn in *.
    constructor; rewrite ?E1, ?E2; try done; [by etrans|]. by rewrite (admit_grace _ _ _ _ _ _ _ _ Ha). }
  assert (Hgo : forall st', handed fut slot st2 st' ->
    inv fut st' /\ gate_inv st' /\ ring st' = ring st /\ slots_of (log st') = slots_of (log st) ++ [slot]).
  { intros st' (H1 & H2 & H3 & H4). destruct Hk2 as (_ & R2 & L2 & _). cbn [with_gate ring log] in R2, L2. split; [done|]. split; [|split; congruence].
    destruct Hg2. constructor; by rewrite ?H2, ?H3. }
  destruct adm as [conn backing| |].
  - assert (Hconn : conn = o_connection_id slot) by (by destruct backing, G3). subst conn.
    assert (Hsw : rtc (switch evidence lineage) (policy_state g0) (active_policy g, applied_through g)).
    { etrans; [apply (g_switch _ Hg1)|exact G2]. }
    assert (Hbk : backed (HSlot slot backing)).
    { destruct backing; cbn in G3 |- *; [destruct G3; by eexists _, _|].
      destruct G3 as (_ & Hc & gr & p & Hin & Hgr & Hev). exists (active_policy g), (applied_through g), gr, p.
      split_and!; try done; [|by rewrite <- (g_grace _ Hg1)]. rewrite Forall_forall in Hp. by apply Hp. }
    pose proof (send_spec fut st2 slot backing now Hi2 Hbk) as Hs.
    destruct (send _ _ _ _ _) as [st'|st'|st'|]; [by apply Hgo| |done|done].
    destruct Hs as (S1 & S2 & S3 & S4), Hk2 as (_ & R2 & L2 & _). cbn [with_gate ring log] in R2, L2. split_and!; try done; congruence.
  - apply Hgo. destruct (quiet_law after_slot (egress st2)) as [Q1 Q2]; [by left|apply Hi2|].
    split; [|split_and!; [done|done|exact (slots_app (log st2) [HChange slot])]].
    apply (inv_handed fut st2 slot (HChange slot) _ nothing (buffers st2) (degraded_acks st2)); try done; [apply Hi2| |by left].
    intros id. constructor.
  - by eapply Hout.
Qed.

(** *** Batches, turns, runs *)

Definition batch_opened (envs : list (@AdmitEnv R)) : list Z := flat_map (fun e => waits_opened (a_waits e)) envs.

Definition admits_ok (envs : list (@AdmitEnv R)) : Prop :=
  Forall (fun e => Forall (good_pass evidence lineage) (a_passes e)) envs.

Lemma step_batch_spec fut now slots : forall envs st,
  inv (batch_opened envs ++ fut) st -> gate_inv st -> Forall (slot_in_lineage lineage) slots -> admits_ok envs ->
  match step_batch st slots envs now with
  | Goes st' => inv fut st' /\ gate_inv st' /\ ring st' = ring st /\ slots_of (log st') = slots_of (log st) ++ slots
  | Leaves st' | Held st' => past st' /\ steady (egress st') /\ ring st' = ring st /\
    exists part rest, slots = part ++ rest /\ slots_of (log st') = slots_of (log st) ++ part
  | Panics => False
  end.
Proof.
  induction slots as [|slot slots IH]; intros envs st Hi Hg Hl Ha; cbn [step_batch].
  { rewrite app_nil_r. split; [by eapply inv_drop|done]. }
  apply Forall_cons in Hl as [Hl1 Hl]. destruct envs as [|env envs].
  { split; [apply Hi|]. split; [apply Hi|]. split; [done|]. exists [], (slot :: slots). by rewrite app_nil_r. }
  apply Forall_cons in Ha as [Ha1 Ha]. unfold batch_opened in Hi. cbn [flat_map] in Hi. rewrite <- app_assoc in Hi.
  pose proof (step_slot_spec _ st slot env now Hi Hg Hl1 Ha1) as Hs.
  assert (Hstop : forall st', out st st' -> past st' /\ steady (egress st') /\ ring st' = ring st /\
    exists part rest, slot :: slots = part ++ rest /\ slots_of (log st') = slots_of (log st) ++ part).
  { intros st' (O1 & O2 & O3 & O4). split_and!; try done. exists [], (slot :: slots). by rewrite app_nil_r. }
  destruct (step_slot st slot env now) as [st1|st1|st1|]; [|by apply Hstop|by apply Hstop|done].
  destruct Hs as (Hi1 & Hg1 & Hr1 & Hl1'). destruct (alive (egress st1)).
  2: { split; [apply Hi1|]. split; [apply Hi1|]. split; [done|]. by exists [slot], slots. }
  pose proof (IH envs st1 Hi1 Hg1 Hl Ha) as Hrest.
  destruct (step_batch st1 slots envs now) as [st'|st'|st'|]; [| | |done].
  - destruct Hrest as (R1 & R2 & R3 & R4). split_and!; try done; [congruence|]. by rewrite R4, Hl1', <- app_assoc.
  - destruct Hrest as (R1 & R2 & R3 & part & rest & -> & R4). split_and!; try done; [congruence|].
    exists (slot :: part), rest. by rewrite R4, Hl1', <- app_assoc.
  - destruct Hrest as (R1 & R2 & R3 & part & rest & -> & R4). split_and!; try done; [congruence|].
    exists (slot :: part), rest. by rewrite R4, Hl1', <- app_assoc.
Qed.

Lemma inv_wait fut st h w : inv fut st -> inv fut (with_wait st h w).
Proof. by intros [[D W B T] F St Bu Ea Be]. Qed.
Lemma inv_ring fut st r : inv fut st -> inv fut (with_ring st r).
Proof. by intros [[D W B T] F St Bu Ea Be]. Qed.

Lemma idle_turn_spec fut st env :
  inv fut st -> gate_inv st -> evidence (i_pass env) ->
  exists st', idle_turn heartbeat_interval st env = Goes st' /\ inv fut st' /\ gate_inv st' /\
    ring st' = ring st /\ slots_of (log st') = slots_of (log st).
Proof.
  intros Hi Hg Hp. unfold idle_turn.
  assert (Hrel : exists st1, (if between_events st
         then '(st, _) ← release st (i_now env); Some (with_egress st (after_idle_release (egress st)) [])
         else Some st) = Some st1 /\ inv fut st1 /\ kept st st1).
  { destruct (between_events st) eqn:Hb; [|exists st; split; [done|split; [done|by split_and!]]].
    destruct (inv_release _ st (i_now env) Hi Hb) as (st1 & n & -> & Hi1 & Hk1). cbn [mbind option_bind].
    destruct (inv_quiet fut after_idle_release st1) as [Hi2 Hk2]; [by do 3 right; left|done|].
    eexists. split; [done|]. split; [done|by eapply kept_trans]. }
  destruct Hrel as (st1 & -> & Hi1 & Hk1).
  destruct (inv_quiet fut on_idle st1) as [Hi2 Hk2]; [by do 4 right; left|done|].
  set (st2 := with_egress st1 (on_idle (egress st1)) []) in *.
  assert (Hk : kept st st2) by (by eapply kept_trans). clear Hi1 Hk1 Hk2.
  pose proof (gate_kept _ _ Hk Hg) as Hg2. destruct Hk as (_ & K2 & K3 & _).
  destruct (tick _ _ _ _ _) as [due hk]. eexists. split; [done|].
  destruct due as [d|]; [|split; [by apply inv_wait|split; [by destruct Hg2|done]]].
  set (st3 := match heartbeat_interval with Some _ => _ | None => st2 end).
  assert (H3 : inv fut st3 /\ gate st3 = gate st2 /\ ring st3 = ring st2 /\ slots_of (log st3) = slots_of (log st2)).
  { unfold st3. destruct heartbeat_interval as [interval|]; [|done]. destruct (heartbeat_scan d); [|done].
    destruct (heartbeat_law (egress st2) heartbeat_frame (due_now d) interval (i_steady _ _ Hi2)) as (beats & Hs & He).
    split; [|split; [done|split; [done|]]]; [|cbn [with_egress log]; rewrite slots_app; apply app_nil_r].
    destruct Hi2 as [P F St Bu Ea Be]. constructor; cbn [with_egress log egress buffers early_buf between_events]; try done.
    - eapply past_egress; [done|exact He| |done|done|by constructor]. intros id. apply adds_one. destruct (beats id); constructor.
    - by rewrite connects_app, app_nil_r.
    - by rewrite slots_app, app_nil_r. }
  destruct H3 as (Hi3 & E1 & E2 & E3).
  split; [by apply inv_wait, inv_gate|]. cbn [with_wait with_gate gate ring log]. split; [|split; congruence].
  destruct Hg2 as [I1 I2 I3 I4]. rewrite <- E1 in I1, I2, I3.
  destruct (idle_recheck_ginv evidence lineage (gate st3) (due_now d) (i_pass env) Hp I1) as [J1 J2].
  constructor; cbn [with_wait with_gate gate ring]; [done|by etrans|by rewrite idle_grace|by rewrite E2].
Qed.

Definition turn_opened (t : @Turn R Q) : list Z := opened (control (t_snap t)) ++ batch_opened (t_admits t).

(** What the threads around the stage promise: the passes read the node's
    journal, and a change published is the journaled one. *)
Definition turn_ok (t : @Turn R Q) : Prop :=
  admits_ok (t_admits t) /\ evidence (i_pass (t_idle t)) /\ Forall (slot_in_lineage lineage) (t_published t).

(** The slots published, against the ring and the log: committed ones were
    all handed over; the ring holds the rest, of which the log may have a
    part, whose batch did not finish. *)
Definition accounts (pub : list (OutputSlot R Q)) (st : Stage) : Prop :=
  exists committed part todo, pub = committed ++ part ++ todo /\ slots_of (log st) = committed ++ part /\ ring st = part ++ todo.

Lemma turn_spec fut st t :
  inv (turn_opened t ++ fut) st -> gate_inv st -> turn_ok t ->
  match turn heartbeat_interval st t with
  | Goes st' => inv fut st' /\ gate_inv st' /\ slots_of (log st') ++ ring st' = slots_of (log st) ++ ring st ++ t_published t
  | Leaves st' | Held st' => past st' /\ steady (egress st') /\
    exists more, more `prefix_of` t_published t /\ accounts (slots_of (log st) ++ ring st ++ more) st'
  | Panics => False
  end.
Proof.
  intros Hi Hg (Ha & Hp & Hl). unfold turn. destruct (t_shutdown t).
  { split; [apply Hi|]. split; [apply Hi|]. exists []. split; [apply prefix_nil|]. exists (slots_of (log st)), [], (ring st).
    cbn [app]. by rewrite !app_nil_r. }
  set (st1 := with_ring st _). unfold turn_opened in Hi. rewrite <- app_assoc in Hi.
  destruct (inv_register (batch_opened (t_admits t) ++ fut) st1 (t_snap t)) as [Hi2 Hk2]; [by apply inv_ring|].
  set (st2 := register st1 (t_snap t)) in *. cbn zeta.
  assert (Hg1 : gate_inv st1) by (destruct Hg as [I1 I2 I3 I4]; constructor; try done; by apply Forall_app).
  pose proof (gate_kept _ _ Hk2 Hg1) as Hg2. destruct Hk2 as (_ & R2 & L2 & _). cbn [st1 with_ring ring log] in R2, L2.
  change (ring st1) with (ring st ++ t_published t). set (n := Nat.min (t_limit t) MAX_BATCH).
  destruct (take n (ring st ++ t_published t)) as [|x xs] eqn:Ht.
  - destruct (idle_turn_spec fut st2 (t_idle t)) as (st' & -> & I1 & I2 & I3 & I4); [by eapply inv_drop|done|done|].
    split; [done|]. split; [done|]. by rewrite I4, I3, L2, R2.
  - rewrite <- Ht. set (slots := take n (ring st ++ t_published t)) in *.
    assert (Hrs : ring st ++ t_published t = slots ++ drop (length slots) (ring st ++ t_published t)).
    { rewrite <- (take_drop n (ring st ++ t_published t)) at 1. fold slots. f_equal.
      unfold slots. rewrite length_take. destruct (decide (n <= length (ring st ++ t_published t))%nat).
      - by rewrite Nat.min_l. - rewrite !drop_ge by lia. done. }
    assert (Hls : Forall (slot_in_lineage lineage) slots) by (apply Forall_take; rewrite <- R2; apply Hg2).
    pose proof (step_batch_spec fut (t_batch_now t) slots (t_admits t) (with_wait st2 (housekeeping st2) (reset (wait st2)))) as Hb.
    specialize (Hb (inv_wait _ _ _ _ Hi2) ltac:(by destruct Hg2) Hls Ha). cbn [with_wait ring log] in Hb.
    assert (Hend : forall st' part rest, slots = part ++ rest -> ring st' = ring st2 -> slots_of (log st') = slots_of (log st2) ++ part ->
      exists more, more `prefix_of` t_published t /\ accounts (slots_of (log st) ++ ring st ++ more) st').
    { intros st' part rest Hs Hr Hlog. exists (t_published t). split; [done|].
      exists (slots_of (log st)), part, (rest ++ drop (length slots) (ring st ++ t_published t)).
      rewrite Hlog, L2, Hr, R2. split_and!; [|done|]; rewrite Hrs at 1; rewrite Hs at 1; by rewrite <- !app_assoc. }
    destruct (step_batch _ slots (t_admits t) (t_batch_now t)) as [st3|st3|st3|]; [| | |done].
    + destruct Hb as (B1 & B2 & B3 & B4). set (st4 := with_ring st3 _).
      destruct (inv_quiet fut after_commit st4) as [B5 (K1 & K2 & K3 & _)]; [by do 5 right; left|by apply inv_ring|].
      split; [by apply inv_gate|]. cbn [with_gate gate ring log]. rewrite K2, K3.
      assert (Hdrop : ring st4 = drop (length slots) (ring st ++ t_published t)) by (cbn [st4 with_ring ring]; by rewrite B3, R2).
      split.
      * destruct B2 as [I1 I2 I3 I4]. destruct (after_batch_ginv evidence lineage (gate st3) (t_after t) I1) as [J1 J2].
        constructor; cbn [with_gate gate ring]; rewrite ?K1, ?K2; cbn [st4 with_ring gate]; [done|by rewrite J2|by rewrite after_batch_grace|].
        cbn [ring]. by apply Forall_drop.
      * rewrite Hdrop. cbn [st4 with_ring log]. rewrite B4, L2, <- app_assoc. by rewrite <- Hrs.
    + destruct Hb as (B1 & B2 & B3 & part & rest & B4 & B5). split_and!; try done. by eapply Hend.
    + destruct Hb as (B1 & B2 & B3 & part & rest & B4 & B5). split_and!; try done. by eapply Hend.
Qed.

Definition published (turns : list (@Turn R Q)) : list (OutputSlot R Q) := flat_map t_published turns.
Definition script_opened (turns : list (@Turn R Q)) : list Z := flat_map turn_opened turns.

Lemma run_spec turns : forall fut st,
  inv (script_opened turns ++ fut) st -> gate_inv st -> Forall turn_ok turns ->
  match run heartbeat_interval st turns with
  | Leaves st' | Held st' => past st' /\
    exists pub, pub `prefix_of` slots_of (log st) ++ ring st ++ published turns /\ accounts pub st'
  | Goes _ | Panics => False
  end.
Proof.
  induction turns as [|t turns IH]; intros fut st Hi Hg Hok; cbn [run].
  { split; [apply Hi|]. exists (slots_of (log st) ++ ring st). split; [by rewrite app_assoc; apply prefix_app_r|].
    exists (slots_of (log st)), [], (ring st). by rewrite app_nil_r. }
  apply Forall_cons in Hok as [Ht Hok]. unfold script_opened in Hi. cbn [flat_map] in Hi. rewrite <- app_assoc in Hi.
  pose proof (turn_spec _ st t Hi Hg Ht) as Hstep.
  assert (Hpub : forall more, more `prefix_of` t_published t ->
    slots_of (log st) ++ ring st ++ more `prefix_of` slots_of (log st) ++ ring st ++ published (t :: turns)).
  { intros more Hm. do 2 apply prefix_app. cbn [published flat_map]. by apply prefix_app_r. }
  destruct (turn heartbeat_interval st t) as [st1|st1|st1|]; [| | |done].
  - destruct Hstep as (H1 & H2 & H3). destruct (alive (egress st1)).
    2: { split; [apply H1|]. exists (slots_of (log st1) ++ ring st1). split; [rewrite H3; by apply Hpub|].
         exists (slots_of (log st1)), [], (ring st1). by rewrite app_nil_r. }
    pose proof (IH fut st1 H1 H2 Hok) as Hrest.
    destruct (run heartbeat_interval st1 turns) as [st'|st'|st'|]; try done; destruct Hrest as (P' & pub & Hp & Hacc);
      (split; [done|]; exists pub; split; [|done]); rewrite app_assoc, H3 in Hp; cbn [published flat_map]; by rewrite <- !app_assoc in Hp.
  - destruct Hstep as (P1 & S1 & more & Hm & Hacc). destruct (alive (egress st1)).
    2: { split; [done|]. eexists. split; [by apply Hpub|done]. }
    split.
    + eapply past_egress; [done|by apply shutdown_law|constructor|done|done|done].
    + exists (slots_of (log st) ++ ring st ++ more). split; [by apply Hpub|]. unfold accounts in *.
      cbn [with_egress log ring]. by rewrite app_nil_r.
  - destruct Hstep as (P1 & S1 & more & Hm & Hacc). split; [done|]. eexists. split; [by apply Hpub|done].
Qed.

(** The egress before any connection. *)
Definition blank (e : S) : Prop :=
  steady e /\ forall id, stream (view e) id = None /\ sock (view e) id = [].

Lemma blank_inv fut e hk strategy : blank e -> NoDup fut -> inv fut (start e g0 hk strategy).
Proof.
  intros [Hs He] Hnd. constructor; cbn [start log egress buffers early_buf between_events]; try done; [constructor|..].
  - intros id. exists false, []. destruct (He id) as [H1 H2]. split; [constructor|]. cbn. rewrite H1, H2. done.
  - intros pre r post Heq. by destruct pre.
  - constructor.
  - done.
  - split; [apply length_replicate|apply ends_new_ok].
Qed.
End walk.
End Walk.

(** ** What the stage promises *)

Module Promises.
Import Interface Housekeeping Loop Ledger Walk GateProofs.Contract GateProofs.Promises Spsc.Wait.

(** Where a run leaves the stage; [None] if it panicked. *)
Definition stopped {S R Q} (f : @Flow S R Q) : option (@Stage S R Q) :=
  match f with Goes st | Leaves st | Held st => Some st | Panics => None end.

(** Every pass the stage's gate reads in a script. *)
Definition passes_of {R Q} (turns : list (@Turn R Q)) : list Pass :=
  flat_map (fun t => flat_map a_passes (t_admits t) ++ [i_pass (t_idle t)]) turns.

(** Forced changes and published ones are journaled. *)
Definition journaled {R Q} (lineage : Z -> Z -> bool -> Prop) (turns : list (@Turn R Q)) : Prop :=
  (forall p f, p ∈ passes_of turns -> forced p = Some f -> lineage (Lineage.Policy.f_wire_seq f) (Lineage.Policy.f_policy f) true) /\
  Forall (slot_in_lineage lineage) (published turns).

Section promises.
Context {S R Q : Type} {Eg : Egress S R Q} {En : ResponseEncoder R Q} {Laws : EgressLaws S R Q}.
Context (heartbeat_interval : option Z).
Notation Turn := (@Turn R Q).

Lemma script_ok (evidence : Pass -> Prop) lineage (turns : list Turn) :
  (forall p, p ∈ passes_of turns -> evidence p) -> journaled lineage turns -> Forall (turn_ok evidence lineage) turns.
Proof.
  intros Hev [Hf Hl]. apply Forall_forall. intros t Ht.
  assert (Hin : forall p, p ∈ flat_map a_passes (t_admits t) ++ [i_pass (t_idle t)] -> p ∈ passes_of turns).
  { intros p Hp. apply list_elem_of_In, in_flat_map. exists t. split; [by apply list_elem_of_In|by apply list_elem_of_In]. }
  split; [|split].
  - apply Forall_forall. intros env Henv. apply Forall_forall. intros p Hp.
    assert (Hp' : p ∈ passes_of turns).
    { apply Hin, elem_of_app. left. apply list_elem_of_In, in_flat_map. exists env. by split; apply list_elem_of_In. }
    split; [by apply Hev|]. intros f. by apply Hf.
  - apply Hev, Hin, elem_of_app. right. by left.
  - rewrite Forall_forall in Hl. apply Forall_forall. intros x Hx. apply Hl.
    apply list_elem_of_In, in_flat_map. exists t. by split; apply list_elem_of_In.
Qed.

(** A run from the start, in one statement. *)
Lemma run_from_start lineage e gr startup u now tn p0 hk strategy (turns : list Turn) :
  blank e -> NoDup (script_opened turns) -> journaled lineage turns ->
  (forall c, start_pending startup = Some c -> lineage (p_wire_seq c) (AckPolicy.Named.to_byte (p_policy c)) (p_unwitnessed c)) ->
  let g := gate_new gr startup u now tn p0 in
  exists st, stopped (run heartbeat_interval (start e g hk strategy) turns) = Some st /\
    past (fun p => p ∈ p0 :: passes_of turns) lineage g st /\
    exists pub, pub `prefix_of` published turns /\ accounts pub st.
Proof.
  intros He Hnd Hj Hp g. destruct (gate_new_ginv gr startup u now tn p0 lineage Hp) as [Hg _].
  assert (Hgi : gate_inv (fun p => p ∈ p0 :: passes_of turns) lineage g (start e g hk strategy : @Stage S R Q)).
  { constructor; cbn [start gate ring]; [|apply rtc_refl|done|constructor].
    eapply ginv_mono; [|exact Hg]. intros p Hp'%list_elem_of_singleton. subst. by left. }
  pose proof (run_spec heartbeat_interval (fun p => p ∈ p0 :: passes_of turns) lineage g turns [] (start e g hk strategy)) as Hr.
  rewrite app_nil_r in Hr. specialize (Hr (blank_inv _ _ _ _ _ _ _ He Hnd) Hgi).
  specialize (Hr (script_ok _ _ _ (fun p Hp => list_elem_of_further p p0 _ Hp) Hj)).
  destruct (run _ _ _) as [st|st|st|]; try done; exists st; by split.
Qed.

(** C8: The response stage delivers what it is handed. Whatever the ring,
    the early-reply queue, the control channel, the gate and the egress do,
    for every connection the bytes its socket has taken are a prefix of what
    the stage's ledger owes it: the frames of its own slots and early replies,
    whole and in the order they were handed over, with heartbeats only between
    two hand-overs; and what a connection still registered was handed is all of
    it, sent or buffered. (Connection IDs are never reused, and the changes
    published are journaled.) None of the stage's own [expect]s fails. The panics
    left are the flush's, when the kernel does not take a submission or it has
    more sends than the ring has entries: they end the stage, and what is said
    here holds of it then too. *)
Theorem replies_delivered_in_order lineage e gr startup u now tn p0 hk strategy (turns : list Turn) :
  blank e -> NoDup (script_opened turns) -> journaled lineage turns ->
  (forall c, start_pending startup = Some c -> lineage (p_wire_seq c) (AckPolicy.Named.to_byte (p_policy c)) (p_unwitnessed c)) ->
  exists st, stopped (run heartbeat_interval (start e (gate_new gr startup u now tn p0) hk strategy) turns) = Some st /\
    forall id, delivered id (log st) (view (egress st)).
Proof.
  intros He Hnd Hj Hp.
  destruct (run_from_start lineage e gr startup u now tn p0 hk strategy turns He Hnd Hj Hp) as (st & Hst & Hpast & _).
  exists st. split; [done|]. apply Hpast.
Qed.

(** C10: Every slot and every early reply once, and no reply split. The
    slots handed over are those published, in order and without a gap: the
    committed ones and, when the stage is on its way out, a part of the batch
    it did not commit; the early replies handed over are those taken from the
    queue, in order, each once; and an early reply is handed over only
    between two events, never between two slots of one reply. *)
Theorem replies_once_and_whole lineage e gr startup u now tn p0 hk strategy (turns : list Turn) :
  blank e -> NoDup (script_opened turns) -> journaled lineage turns ->
  (forall c, start_pending startup = Some c -> lineage (p_wire_seq c) (AckPolicy.Named.to_byte (p_policy c)) (p_unwitnessed c)) ->
  exists st, stopped (run heartbeat_interval (start e (gate_new gr startup u now tn p0) hk strategy) turns) = Some st /\
    (exists pub, pub `prefix_of` published turns /\ accounts pub st) /\
    earlies_of (log st) ++ snapshot st = taken_of (log st) /\ whole (log st).
Proof.
  intros He Hnd Hj Hp.
  destruct (run_from_start lineage e gr startup u now tn p0 hk strategy turns He Hnd Hj Hp) as (st & Hst & Hpast & Hacc).
  exists st. split; [done|]. split; [done|]. split; apply Hpast.
Qed.

End promises.
End Promises.

(** ** The kernel TCP egress keeps the laws *)

Module UringStage.
Import Interface UringFacts.

Section uring.
Context {R Q : Type} {En : ResponseEncoder R Q} {EnLaws : ResponseEncoderLaws R Q}.
Context (kernel : Uring.Kernel).

#[export] Instance uring_egress : Egress Uring.UringEgress R Q := {
  drain_control := Uring.drain_control;
  send_slot := Uring.send_slot;
  after_slot := Uring.after_slot kernel;
  release_early_replies := Uring.release_early_replies kernel;
  before_wait := Uring.before_wait kernel;
  after_wait_release := Uring.after_wait_release kernel;
  after_idle_release := Uring.after_idle_release;
  on_idle := Uring.on_idle kernel;
  send_heartbeats := Uring.send_heartbeats kernel;
  after_commit := Uring.after_commit;
  on_shutdown := Uring.on_shutdown kernel;
  alive s := negb (Uring.panicked s)
}.

Lemma dropping_spec s : UringFacts.steady s ->
  UringFacts.steady (Uring.drop_overflowed s) /\ evolves_by nothing (UringFacts.view s) (UringFacts.view (Uring.drop_overflowed s)).
Proof. intros [Hok _]. by destruct (drop_overflowed_spec s Hok) as (? & ? & _). Qed.

Lemma flushing_spec s : UringFacts.steady s ->
  UringFacts.steady (Uring.flush kernel s) /\ evolves_by nothing (UringFacts.view s) (UringFacts.view (Uring.flush kernel s)).
Proof. intros Hs. by destruct (flush_spec kernel s Hs) as (? & ? & _). Qed.

Lemma quiet_steps f s :
  f ∈ [after_slot; before_wait; after_wait_release; after_idle_release; on_idle; after_commit] -> UringFacts.steady s ->
  UringFacts.steady (f s) /\ evolves_by nothing (UringFacts.view s) (UringFacts.view (f s)).
Proof.
  intros Hf Hs. repeat (apply elem_of_cons in Hf as [->|Hf]); [..|by apply elem_of_nil in Hf]; cbn.
  - destruct Hs as [Hok Hr]. by destruct (flush_if_due_spec kernel s Hok) as (? & ? & _); [by rewrite Hr|].
  - by apply flushing_spec.
  - destruct (dropping_spec s Hs) as [H1 H2]. destruct (flushing_spec _ H1). split; [done|by eapply evolves_quiet].
  - by apply dropping_spec.
  - by apply flushing_spec.
  - by apply dropping_spec.
Qed.

#[export] Instance uring_laws : EgressLaws Uring.UringEgress R Q.
Proof.
  refine {| Interface.steady := UringFacts.steady; Interface.view := UringFacts.view |}.
  - apply drain_control_spec.
  - intros s id slot backing b now Hs Hb. pose proof (send_slot_spec kernel s id slot backing b now Hs Hb) as H1. cbn.
    destruct (Uring.send_slot s id slot backing b now) as [[o s1] b1]. destruct H1 as (H1 & H2 & H3 & H4 & H5).
    split; [done|]. split; [done|]. split; [|by split]. intros Ho. by destruct (H4 Ho) as (? & ? & _).
  - intros s replies buf now Hs Hb. destruct (release_spec kernel replies now s buf Hs Hb) as (s' & buf' & H1 & H2 & H3 & _ & H4).
    by exists s', buf'.
  - apply quiet_steps.
  - intros s frame now interval Hs. destruct (heartbeats_spec kernel s frame now interval Hs) as (beats & H1 & _ & H3). by exists beats.
  - intros s Hs. by destruct (on_shutdown_spec kernel s Hs).
  - intros s id x. cbn. intros (e & He & ->)%fmap_Some. by apply prefix_app_r.
Defined.
End uring.
End UringStage.

(** A stage over the kernel egress: a connection registers, two requests'
    slots wait for their copies, an early reply comes in between. *)
Module Sample.
Import Interface Housekeeping Loop Ledger Walk Promises UringStage Spsc.Wait GateProofs.Sample GateProofs.Promises.

Definition fill (x : Z) (region : list Z) : list Z * result Z (list Z) :=
  match region with [] => ([], Ok 0) | _ :: rest => (x :: rest, Ok 1) end.
#[export] Instance sample_encoder : ResponseEncoder Z Z := {| encode_report := fill; encode_query := fill |}.
Lemma fill_in_place x : in_place (fill x).
Proof. intros [|y region]; split; try done; by intros n [= <-]. Qed.
#[export] Instance sample_encoder_laws : ResponseEncoderLaws Z Z := {| report_in_place := fill_in_place; query_in_place := fill_in_place |}.

(** Every send is accepted whole. *)
Definition sample_kernel : Uring.Kernel :=
  {| Uring.ring_entries := 8; Uring.nth_flush n := (Z.of_nat n, Some (fun _ => 65536)) |}.
#[export] Instance sample_uring : Egress Uring.UringEgress Z Z := uring_egress sample_kernel.
#[export] Instance sample_laws : EgressLaws Uring.UringEgress Z Z := uring_laws sample_kernel.

Definition sample_egress : Uring.UringEgress :=
  {| Uring.connections := ∅; Uring.dirty := []; Uring.to_remove := []; Uring.cadence := Uring.cadence_default;
     Uring.active_connections := 1; Uring.fenced := false; Uring.flushes := 0; Uring.sockets := ∅; Uring.shut := []; Uring.panicked := false |}.

Lemma sample_blank : blank sample_egress.
Proof.
  split; [|intros id; cbn; unfold UringFacts.accepted; cbn; by rewrite lookup_empty]. split; [|done]. constructor; cbn; try done.
  - intros id. split; [by intros ?%elem_of_nil|]. intros (e & He & _). by rewrite lookup_empty in He.
  - constructor.
Qed.

Definition slot_of (request ws : Z) (p : OutputPayload Z Z) (final : bool) : OutputSlot Z Z :=
  {| o_connection_id := 9; o_request_id := request; input_seq := ws; o_wire_seq := ws; payload := p; is_last_in_request := final |}.
Definition busy : EarlyReply Z := {| er_connection_id := 9; er_request_id := 3; er_kind := Busy |}.
Definition snap (rs : list (EarlyReply Z)) (evs : list ControlEvent) : Snap := {| seen := rs; control := evs; snap_now := 1 |}.
Definition admit_env (passes : list Pass) (waits : list (@Snap Z * Z)) : AdmitEnv :=
  {| a_now := 1; a_passes := passes; a_waits := waits |}.
Definition idle_env : IdleEnv := {| i_now := 1; i_t1 := 1; i_t2 := 1; i_tick := 1; i_pass := pass0 |}.

Definition sample_turns : list (@Turn Z Z) :=
  [ {| t_shutdown := false; t_published := [slot_of 1 6 (Report 7) false]; t_limit := 4; t_snap := snap [] [Connected 9];
       t_batch_now := 1; t_admits := [admit_env healthy_passes [(snap [] [], 1)]]; t_after := 2; t_idle := idle_env |};
    {| t_shutdown := false; t_published := [slot_of 1 6 Stages.Live.BatchEnd true; slot_of 2 6 (Report 8) true]; t_limit := 4;
       t_snap := snap [busy] []; t_batch_now := 2; t_admits := [admit_env [] []; admit_env [] []]; t_after := 3; t_idle := idle_env |};
    {| t_shutdown := false; t_published := []; t_limit := 4; t_snap := snap [] []; t_batch_now := 3; t_admits := [];
       t_after := 4; t_idle := idle_env |} ].

Definition sample_stage : @Stage Uring.UringEgress Z Z :=
  start sample_egress (gate_new (Some 100) (settled AckPolicy.Named.DiskAndRam) sample_utilization 0 0 pass0)
    {| timer := Gate.Timer.timer_new 0; last_heartbeat_scan := 0 |} BusySpin.

(** The early reply waits for the first request's terminator. *)
Example sample_socket :
  (fun st => sock (view (egress st)) 9) <$> stopped (run None sample_stage sample_turns) =
  Some (app_frame (fill 7) ++ frame_of (ClientWire.Reply.BatchEnd 1) ++ frame_of (ClientWire.Reply.ServerBusy 3) ++
        app_frame (fill 8) ++ frame_of (ClientWire.Reply.BatchEnd 2)).
Proof. vm_compute. reflexivity. Qed.

(** A kernel that takes no submission: the stage is down after its first
    flush, and nothing was sent. *)
Example submission_refused :
  let refusing := {| Uring.ring_entries := 8; Uring.nth_flush n := (Z.of_nat n, None) |} in
  (fun st => (Uring.panicked (egress st), UringFacts.accepted (Uring.sockets (egress st)) 9, length (slots_of (log st)))) <$>
    stopped (run (H:=uring_egress refusing) None sample_stage sample_turns) = Some (true, [], 3%nat).
Proof. vm_compute. reflexivity. Qed.

Lemma sample_journaled : journaled no_changes sample_turns.
Proof.
  split.
  - intros p f Hp Hf. exfalso. cbn in Hp. repeat (apply elem_of_cons in Hp as [->|Hp]; [discriminate Hf|]). by apply elem_of_nil in Hp.
  - repeat constructor; intros c Hc; discriminate Hc.
Qed.
Lemma sample_ids : NoDup (script_opened sample_turns).
Proof. cbn. apply NoDup_singleton. Qed.
Lemma sample_lives : Forall live_pass (pass0 :: passes_of sample_turns).
Proof. cbn. repeat (apply Forall_cons; split); try apply Forall_nil; try done; apply sample_live; lia. Qed.

Lemma replies_delivered_in_order_witness :
  exists st, stopped (run None sample_stage sample_turns) = Some st /\ forall id, delivered id (log st) (view (egress st)).
Proof.
  apply (replies_delivered_in_order None no_changes).
  - apply sample_blank.
  - apply sample_ids.
  - apply sample_journaled.
  - intros c Hc. discriminate Hc.
Defined.

Lemma replies_once_and_whole_witness :
  exists st, stopped (run None sample_stage sample_turns) = Some st /\
    (exists pub, pub `prefix_of` published sample_turns /\ accounts pub st) /\
    earlies_of (log st) ++ snapshot st = taken_of (log st) /\ whole (log st).
Proof.
  apply (replies_once_and_whole None no_changes).
  - apply sample_blank.
  - apply sample_ids.
  - apply sample_journaled.
  - intros c Hc. discriminate Hc.
Defined.

End Sample.
