(* ===== verification/Client.v ===== *)
(** * The client library

    [InFlight] and [Outstanding] are the requests a connection has sent and
    not had answered ([client/src/outstanding.rs]); [Answers] tells the
    node's frames apart ([client/src/lib.rs]); [Handshake] is the client's
    half of the handshake; [Polled] the connection over a polled byte stream
    ([client/src/polled.rs]). The stream is an interface, the class
    [ByteStream] with its laws; the signing key is a parameter, its
    signature of a nonce. *)

From stdpp Require Import gmap sorting.
From S2P Require Import Prelude Cursors Codec Protocol ClientWire.
Import Codec.Le Protocol.Framing ClientWire.Split ClientWire.Request ClientWire.Reply.

(** ** Requests in flight *)

Module InFlight.

Section in_flight.
Context {T : Type}.
Implicit Types (entries : list (Z * T)).

Definition key_at entries (i : nat) : Z := default 0 (fst <$> entries !! i).

(** The library's binary search over a slice: the interval halves until one
    candidate is left. *)
Fixpoint narrow (fuel : nat) entries (id : Z) (size base : nat) : nat :=
  match fuel with
  | O => base
  | S fuel =>
    if (size <=? 1)%nat then base
    else
      let half := (size / 2)%nat in
      let mid := (base + half)%nat in
      narrow fuel entries id (size - half) (if id <? key_at entries mid then base else mid)
  end.

Definition binary_search entries (id : Z) : result nat nat :=
  match entries with
  | [] => Err 0%nat
  | _ =>
    let at_ := narrow (length entries) entries id (length entries) 0 in
    if key_at entries at_ =? id then Ok at_
    else Err (if key_at entries at_ <? id then S at_ else at_)
  end.

Definition find entries (id : Z) : result nat nat :=
  match entries with
  | (first, _) :: _ => if first =? id then Ok 0%nat else binary_search entries id
  | [] => binary_search entries id
  end.

Definition insert entries (id : Z) (value : T) : option T * list (Z * T) :=
  match last entries with
  | Some (newest, _) =>
    if newest <? id then (None, entries ++ [(id, value)])
    else
      match find entries id with
      | Ok at_ => (snd <$> entries !! at_, <[at_ := (id, value)]> entries)
      | Err at_ => (None, take at_ entries ++ (id, value) :: drop at_ entries)
      end
  | None => (None, entries ++ [(id, value)])
  end.

Definition remove entries (id : Z) : option T * list (Z * T) :=
  match find entries id with
  | Ok at_ => (snd <$> entries !! at_, take at_ entries ++ drop (S at_) entries)
  | Err _ => (None, entries)
  end.

Definition contains entries (id : Z) : bool := match find entries id with Ok _ => true | Err _ => false end.
Definition len entries : nat := length entries.
Definition is_empty entries : bool := match entries with [] => true | _ => false end.

(** *** A sorted table is a map *)

Definition sorted entries : Prop := StronglySorted Z.lt (map fst entries).

(** The first position at or past [id]. *)
Definition splits entries (id : Z) (i : nat) : Prop :=
  (i <= length entries)%nat /\
  (forall j, (j < i)%nat -> key_at entries j < id) /\ (forall j, (i <= j < length entries)%nat -> id <= key_at entries j).

Lemma key_at_lookup entries i k v : entries !! i = Some (k, v) -> key_at entries i = k.
Proof. unfold key_at. by intros ->. Qed.

Lemma sorted_keys entries i j : sorted entries -> (i < j < length entries)%nat -> key_at entries i < key_at entries j.
Proof.
  intros Hs Hij. unfold key_at.
  destruct (lookup_lt_is_Some_2 entries i) as [[ki vi] Hi]; [lia|]. destruct (lookup_lt_is_Some_2 entries j) as [[kj vj] Hj]; [lia|].
  rewrite Hi, Hj. cbn. revert i j Hij Hi Hj. unfold sorted in Hs. induction entries as [|[k v] entries IH]; intros i j Hij Hi Hj; [done|].
  cbn in Hs. apply StronglySorted_inv in Hs as [Hs Hall]. destruct j as [|j]; [lia|]. cbn in Hj, Hij. destruct i as [|i].
  - injection Hi as -> ->. rewrite Forall_forall in Hall. apply Hall. apply list_elem_of_fmap. exists (kj, vj).
    split; [done|]. by eapply list_elem_of_lookup_2.
  - cbn in Hi. apply (IH Hs i j); [lia|done|done].
Qed.

Lemma narrow_spec entries id : sorted entries -> forall fuel size base,
  (size <= fuel)%nat -> (1 <= size)%nat -> (base + size <= length entries)%nat ->
  (base = 0%nat \/ key_at entries base <= id) ->
  (forall j, (base + size <= j < length entries)%nat -> id < key_at entries j) ->
  let at_ := narrow fuel entries id size base in
  (at_ < length entries)%nat /\ (at_ = 0%nat \/ key_at entries at_ <= id) /\
  (forall j, (at_ < j < length entries)%nat -> id < key_at entries j).
Proof.
  intros Hs. induction fuel as [|fuel IH]; intros size base Hf H1 Hb Hlo Hhi; [lia|]. cbn [narrow].
  destruct (size <=? 1)%nat eqn:Hz.
  - apply Nat.leb_le in Hz. assert (size = 1%nat) as -> by lia. split; [lia|]. split; [done|]. intros j Hj. apply Hhi. lia.
  - apply Nat.leb_gt in Hz.
    assert (Hh : (1 <= size / 2 /\ size / 2 < size)%nat) by (split; [by apply Nat.div_le_lower_bound; lia|apply Nat.div_lt; lia]).
    pose proof (Nat.div_mod_eq size 2) as Hdm. pose proof (Nat.mod_upper_bound size 2 ltac:(lia)) as Hmb.
    destruct (id <? key_at entries (base + size / 2)) eqn:Hk; zb.
    + apply IH; try lia. intros j Hj. destruct (decide (j = base + size / 2)%nat) as [->|Hne]; [done|].
      destruct (decide (j < base + size)%nat); [|apply Hhi; lia]. pose proof (sorted_keys entries (base + size / 2) j Hs ltac:(lia)). lia.
    + apply IH; try lia. intros j Hj. apply Hhi. lia.
Qed.

(** Every search agrees with the one position there is. *)
Lemma find_spec entries id : sorted entries ->
  match find entries id with
  | Ok i => exists v, entries !! i = Some (id, v)
  | Err i => splits entries id i /\ id ∉ map fst entries
  end.
Proof.
  intros Hs. assert (Hb : match binary_search entries id with
    | Ok i => exists v, entries !! i = Some (id, v)
    | Err i => splits entries id i /\ id ∉ map fst entries
    end).
  { unfold binary_search. destruct entries as [|e0 rest] eqn:He.
    { split; [|by intros ?%elem_of_nil]. split; [done|]. split; intros j Hj; cbn in *; lia. }
    rewrite <- He in *. assert (Hlen : (1 <= length entries)%nat) by (rewrite He; cbn; lia).
    destruct (narrow_spec entries id Hs (length entries) (length entries) 0) as (H1 & H2 & H3); try lia.
    set (i := narrow _ _ _ _ _) in *. destruct (lookup_lt_is_Some_2 entries i H1) as [[k v] Hi].
    rewrite (key_at_lookup _ _ _ _ Hi) in *. destruct (k =? id) eqn:Hk; zb; [subst k; by exists v|].
    assert (Hbelow : forall j, (j < i)%nat -> key_at entries j < id).
    { intros j Hj. pose proof (sorted_keys entries j i Hs ltac:(lia)). rewrite (key_at_lookup _ _ _ _ Hi) in *. destruct H2; lia. }
    split.
    - destruct (k <? id) eqn:Hlt; zb; (split; [lia|]); split; intros j Hj.
      + destruct (decide (j = i)) as [->|]; [by rewrite (key_at_lookup _ _ _ _ Hi)|]. apply Hbelow. lia.
      + pose proof (H3 j ltac:(lia)). lia.
      + by apply Hbelow.
      + destruct (decide (j = i)) as [->|]; [rewrite (key_at_lookup _ _ _ _ Hi); lia|]. pose proof (H3 j ltac:(lia)). lia.
    - intros (e & Heq & Hin)%list_elem_of_fmap. apply list_elem_of_lookup in Hin as [j Hj]. destruct e as [k' v']. cbn in Heq. subst k'.
      destruct (Nat.lt_trichotomy j i) as [Hlt|[->|Hgt]].
      + pose proof (Hbelow j Hlt). rewrite (key_at_lookup _ _ _ _ Hj) in *. lia.
      + congruence.
      + pose proof (H3 j ltac:(split; [done|by eapply lookup_lt_Some])). rewrite (key_at_lookup _ _ _ _ Hj) in *. lia. }
  unfold find. destruct entries as [|[first v] rest]; [done|]. destruct (first =? id) eqn:Hf; [|done]. zb. subst first. by exists v.
Qed.

Lemma sorted_nodup entries : sorted entries -> NoDup (map fst entries).
Proof.
  unfold sorted. generalize (map fst entries) as ks. induction ks as [|k ks IH]; intros Hs; [constructor|].
  apply StronglySorted_inv in Hs as [Hs Hall]. constructor; [|by apply IH]. intros Hin. rewrite Forall_forall in Hall.
  specialize (Hall k Hin). lia.
Qed.

Lemma sorted_app l1 l2 : sorted (l1 ++ l2) <->
  sorted l1 /\ sorted l2 /\ forall x y, x ∈ map fst l1 -> y ∈ map fst l2 -> x < y.
Proof.
  unfold sorted. rewrite map_app. generalize (map fst l1) as a, (map fst l2) as b. induction a as [|x a IH]; intros b; cbn.
  - split; [intros H; split; [constructor|split; [done|]]; by intros x y ?%elem_of_nil|]. by intros (_ & ? & _).
  - split.
    + intros [Hs Hall]%StronglySorted_inv. apply IH in Hs as (Ha & Hb & Hab). rewrite Forall_app in Hall. destruct Hall as [H1 H2].
      split; [by constructor|]. split; [done|]. intros u w Hu Hw. apply elem_of_cons in Hu as [->|Hu]; [|by apply Hab].
      rewrite Forall_forall in H2. by apply H2.
    + intros (Ha & Hb & Hab). apply StronglySorted_inv in Ha as [Ha Hall]. constructor.
      * apply IH. split; [done|]. split; [done|]. intros u w Hu. apply Hab. by apply list_elem_of_further.
      * apply Forall_app. split; [done|]. apply Forall_forall. intros w Hw. apply Hab; [apply list_elem_of_here|done].
Qed.

Definition abs entries : gmap Z T := list_to_map entries.

Lemma abs_lookup entries i id v : sorted entries -> entries !! i = Some (id, v) -> abs entries !! id = Some v.
Proof. intros Hs Hi. apply elem_of_list_to_map; [by apply sorted_nodup|]. by eapply list_elem_of_lookup_2. Qed.

Lemma abs_none entries id : id ∉ map fst entries -> abs entries !! id = None.
Proof. apply not_elem_of_list_to_map. Qed.

Lemma abs_insert_mid l1 l2 id v : id ∉ map fst l1 -> abs (l1 ++ (id, v) :: l2) = <[id := v]> (abs (l1 ++ l2)).
Proof.
  intros Hn. unfold abs. induction l1 as [|[k w] l1 IH]; [done|]. cbn in *. apply not_elem_of_cons in Hn as [Hne Hn].
  rewrite IH by done. by rewrite insert_insert_ne.
Qed.

Lemma insert_spec entries id v : sorted entries ->
  let '(old, entries') := insert entries id v in
  sorted entries' /\ old = abs entries !! id /\ abs entries' = <[id := v]> (abs entries).
Proof.
  intros Hs. unfold insert.
  assert (Hend : (forall k, k ∈ map fst entries -> k < id) ->
    sorted (entries ++ [(id, v)]) /\ None = abs entries !! id /\ abs (entries ++ [(id, v)]) = <[id := v]> (abs entries)).
  { intros Hlt. assert (Hn : id ∉ map fst entries) by (intros Hin; specialize (Hlt id Hin); lia). split; [|split].
    - apply sorted_app. split; [done|]. split; [repeat constructor|]. intros x y Hx Hy. apply list_elem_of_singleton in Hy as ->. by apply Hlt.
    - by rewrite abs_none.
    - by rewrite abs_insert_mid, app_nil_r. }
  destruct (last entries) as [[newest w]|] eqn:Hl.
  2: { apply last_None in Hl as ->. apply Hend. by intros k ?%elem_of_nil. }
  destruct (newest <? id) eqn:Hn; zb.
  { apply Hend. apply last_Some in Hl as [l' ->]. intros k Hk. rewrite map_app in Hk. apply elem_of_app in Hk as [Hk|Hk].
    - apply sorted_app in Hs as (_ & _ & Hs). cbn in Hs. specialize (Hs k newest Hk (list_elem_of_here _ _)). lia.
    - apply list_elem_of_singleton in Hk as ->. done. }
  pose proof (find_spec entries id Hs) as Hf. destruct (find entries id) as [i|i].
  - destruct Hf as [w' Hi]. rewrite Hi. cbn. apply list_elem_of_split_length in Hi as (l1 & l2 & -> & ->).
    rewrite insert_app_r_alt, Nat.sub_diag by done. cbn [list_insert base.insert].
    pose proof Hs as Hs'. apply sorted_app in Hs as (S1 & S2 & S3). split; [|split].
    + apply sorted_app. split; [done|]. split; done.
    + symmetry. eapply (abs_lookup _ (length l1)); [done|]. by apply list_lookup_middle.
    + apply sorted_nodup in Hs'. rewrite map_app in Hs'. apply NoDup_app in Hs' as (_ & Hd & _).
      assert (Hn1 : id ∉ map fst l1) by (intros Hin; apply (Hd id Hin); apply list_elem_of_here).
      rewrite !abs_insert_mid by done. by rewrite insert_insert_eq.
  - destruct Hf as ((Hle & Hlo & Hhi) & Hn'). rewrite <- (take_drop i entries) in Hs. apply sorted_app in Hs as (S1 & S2 & S3).
    assert (Htake : forall k, k ∈ map fst (take i entries) -> k < id).
    { intros k ([k' w'] & -> & Hin)%list_elem_of_fmap. apply list_elem_of_lookup in Hin as [j Hj].
      apply lookup_take_Some in Hj as [Hj Hji]. pose proof (Hlo j Hji). by rewrite (key_at_lookup _ _ _ _ Hj) in *. }
    assert (Hdrop : forall k, k ∈ map fst (drop i entries) -> id < k).
    { intros k Hk. pose proof Hk as ([k' w'] & -> & Hin)%list_elem_of_fmap. apply list_elem_of_lookup in Hin as [j Hj].
      rewrite lookup_drop in Hj. pose proof (lookup_lt_Some _ _ _ Hj). pose proof (Hhi (i + j)%nat ltac:(lia)).
      rewrite (key_at_lookup _ _ _ _ Hj) in *. cbn. assert (k' <> id); [|lia]. intros ->. apply Hn'.
      apply list_elem_of_fmap. exists (id, w'). split; [done|]. by eapply list_elem_of_lookup_2. }
    split; [|split].
    + apply sorted_app. split; [done|]. split.
      * unfold sorted in *. cbn. constructor; [done|]. apply Forall_forall. intros k Hk. by apply Hdrop.
      * intros x y Hx Hy. cbn in Hy. apply elem_of_cons in Hy as [->|Hy]; [by apply Htake|by apply S3].
    + by rewrite abs_none.
    + rewrite abs_insert_mid, take_drop; [done|]. intros Hin. specialize (Htake _ Hin). lia.
Qed.

Lemma remove_spec entries id : sorted entries ->
  let '(old, entries') := remove entries id in
  sorted entries' /\ old = abs entries !! id /\ abs entries' = delete id (abs entries).
Proof.
  intros Hs. unfold remove. pose proof (find_spec entries id Hs) as Hf. destruct (find entries id) as [i|i].
  - destruct Hf as [v Hi]. rewrite Hi. cbn. apply list_elem_of_split_length in Hi as (l1 & l2 & -> & ->).
    rewrite take_app_length. replace (drop (S (length l1)) (l1 ++ (id, v) :: l2)) with l2.
    2: { change (S (length l1)) with (1 + length l1)%nat. rewrite Nat.add_comm, <- drop_drop, drop_app_length. done. }
    pose proof Hs as Hs'. apply sorted_app in Hs as (S1 & S2 & S3). unfold sorted in S2. cbn in S2. apply StronglySorted_inv in S2 as [S2 _].
    split; [|split].
    + apply sorted_app. split; [done|]. split; [done|]. intros x y Hx Hy. apply S3; [done|]. cbn. by apply list_elem_of_further.
    + symmetry. eapply (abs_lookup _ (length l1)); [done|]. by apply list_lookup_middle.
    + apply sorted_nodup in Hs'. rewrite map_app in Hs'. apply NoDup_app in Hs' as (_ & Hd & Hnd). cbn in Hnd, Hd.
      apply NoDup_cons in Hnd as [Hn2 _]. assert (Hn1 : id ∉ map fst l1) by (intros Hin; apply (Hd id Hin); apply list_elem_of_here).
      rewrite abs_insert_mid by done. rewrite delete_insert_id; [done|]. apply abs_none. rewrite map_app. by apply not_elem_of_app.
  - destruct Hf as [_ Hn]. split; [done|]. rewrite (abs_none _ _ Hn). split; [done|]. by rewrite delete_id; [|apply abs_none].
Qed.

Lemma contains_spec entries id : sorted entries -> contains entries id = bool_decide (is_Some (abs entries !! id)).
Proof.
  intros Hs. unfold contains. pose proof (find_spec entries id Hs) as Hf. destruct (find entries id) as [i|i].
  - destruct Hf as [v Hi]. by rewrite (abs_lookup _ _ _ _ Hs Hi).
  - destruct Hf as [_ Hn]. by rewrite (abs_none _ _ Hn).
Qed.

Lemma len_spec entries : sorted entries -> len entries = size (abs entries).
Proof.
  intros Hs. apply sorted_nodup in Hs. unfold len, abs. induction entries as [|[k v] entries IH]; [symmetry; apply map_size_empty|].
  cbn in *. apply NoDup_cons in Hs as [Hn Hs]. rewrite map_size_insert_None, IH by (try done; by apply abs_none). done.
Qed.

(** *** Any sequence of calls *)

Inductive op := Insert (id : Z) (value : T) | Remove (id : Z) | Contains (id : Z) | Len.
Inductive answer := Value (v : option T) | Present (b : bool) | Count (n : nat).

Definition apply entries (o : op) : answer * list (Z * T) :=
  match o with
  | Insert id v => let '(old, e) := insert entries id v in (Value old, e)
  | Remove id => let '(old, e) := remove entries id in (Value old, e)
  | Contains id => (Present (contains entries id), entries)
  | Len => (Count (len entries), entries)
  end.

(** The map it stands for. *)
Definition apply_map (m : gmap Z T) (o : op) : answer * gmap Z T :=
  match o with
  | Insert id v => (Value (m !! id), <[id := v]> m)
  | Remove id => (Value (m !! id), delete id m)
  | Contains id => (Present (bool_decide (is_Some (m !! id))), m)
  | Len => (Count (size m), m)
  end.

Fixpoint runs {St} (step : St -> op -> answer * St) (st : St) (ops : list op) : list answer :=
  match ops with [] => [] | o :: ops => let '(a, st) := step st o in a :: runs step st ops end.

Lemma apply_simulates entries o : sorted entries ->
  let '(a, entries') := apply entries o in sorted entries' /\ apply_map (abs entries) o = (a, abs entries').
Proof.
  intros Hs. destruct o as [id v|id|id|]; cbn.
  - pose proof (insert_spec entries id v Hs) as Hi. destruct (insert entries id v) as [old e]. destruct Hi as (H1 & -> & ->). done.
  - pose proof (remove_spec entries id Hs) as Hr. destruct (remove entries id) as [old e]. destruct Hr as (H1 & -> & ->). done.
  - by rewrite contains_spec.
  - by rewrite len_spec.
Qed.

(** The table of requests in flight is a map. Whatever sequence of
    inserts, removals, membership tests and counts a caller makes, in any
    order of IDs, the sorted deque with its fast paths at both ends and its
    binary search answers each exactly as a finite map from IDs to values
    does: an insert returns the value it replaced, a removal the value it
    took, and an ID never answered for another. *)
Theorem in_flight_is_a_map (ops : list op) : runs apply [] ops = runs apply_map ∅ ops.
Proof.
  enough (Hg : forall entries, sorted entries -> runs apply entries ops = runs apply_map (abs entries) ops).
  { apply (Hg []). constructor. }
  induction ops as [|o ops IH]; intros entries Hs; [done|]. cbn [runs]. pose proof (apply_simulates entries o Hs) as Ha.
  destruct (apply entries o) as [a e]. destruct Ha as [He ->]. f_equal. by apply IH.
Qed.
End in_flight.
End InFlight.

(** ** The node's answers *)

Module Answers.

Inductive Ack := Policy | PrimaryOnly.

(** What a protocol error says; the code formats each into its message. *)
Inductive Violation :=
| EmptyFrame
| UnexpectedTag (tag : Z)
| BadLength (len : nat)
| BadRefused (e : BadRefusal)
| NoRequestOutstanding
| InsideAnotherReply (id : Z)
| NotOutstanding (id : Z)
| NotAChallengeFrame (len : nat) (tag : option Z)
| CannotEncode
| NoVerdict (tag : option Z)
| HandshakeComplete
| LongHandshakeFrame (len : Z)
| ReplyBeforeRequest
| AnotherRequest (answered sent : Z)
| NotOneFrame (n : nat).

Inductive IoError := UnexpectedEof | InvalidInput | QueuedShort (queued written : nat) | TimedOut | OtherIo.

(** The variants the protocol itself returns; connecting, keys and NICs have
    theirs. *)
Inductive Error :=
| Io (e : IoError)
| AuthFailed (public_key : list Z)
| NoReply
| Disconnected
| Protocol (v : Violation)
| ProtocolVersion (node client : Z)
| TooLarge (e : FrameTooLarge)
| RequestError (e : RequestFrameError)
| ServerBusyError
| RefusedError (kind : RefusalKind) (reason : list Z)
| Degraded (frames : list (list Z)).

Inductive Frame :=
| Response (body : list Z)
| BatchEnd (id : Z) (ack : Ack)
| ServerBusy (id : Z)
| Refused (id : Z) (kind : RefusalKind) (reason : list Z).

Inductive Reply := Heartbeat | Answer (f : Frame).

Definition is_heartbeat (payload : list Z) : bool :=
  match payload with tag :: _ => tag =? TAG_RESPONSE_HEARTBEAT | [] => false end.

Definition id_frame (payload : list Z) : result Z Error :=
  match terminal_request_id payload with
  | Some id =>
    if (length payload =? BATCH_END_FRAME_LEN - PREFIX_LEN)%nat then Ok id else Err (Protocol (BadLength (length payload)))
  | None => Err (Protocol (BadLength (length payload)))
  end.

Definition classify_answer (payload : list Z) : result Frame Error :=
  match payload with
  | [] => Err (Protocol EmptyFrame)
  | tag :: body =>
    if tag =? TAG_APP then Ok (Response body)
    else if tag =? TAG_BATCH_END then (id <-? id_frame payload ;; Ok (BatchEnd id Policy))
    else if tag =? TAG_BATCH_END_DEGRADED then (id <-? id_frame payload ;; Ok (BatchEnd id PrimaryOnly))
    else if tag =? TAG_SERVER_BUSY then (id <-? id_frame payload ;; Ok (ServerBusy id))
    else if tag =? TAG_REFUSED then
      match decode_refused payload with
      | Ok r => Ok (Refused (r_id r) (r_kind r) (r_reason r))
      | Err e => Err (Protocol (BadRefused e))
      end
    else Err (Protocol (UnexpectedTag tag))
  end.

Definition classify (payload : list Z) : result Reply Error :=
  if is_heartbeat payload then Ok Heartbeat else f <-? classify_answer payload ;; Ok (Answer f).

(** [next_reply]: [classify] over a decoder. *)
Definition next_reply (d : Decoder.FrameDecoder) : result (option Reply) Error * Decoder.FrameDecoder :=
  let '(r, d) := Decoder.next d in
  (match r with
   | Ok (Some payload) => (x <-? classify payload ;; Ok (Some x))
   | Ok None => Ok None
   | Err e => Err (TooLarge e)
   end, d).

(** *** What the node encodes, classified *)

(** How the client reads each of the node's frames. *)
Definition reads (r : TransportResponse) : option Reply :=
  match r with
  | Reply.Heartbeat => Some Heartbeat
  | Reply.BatchEnd id => Some (Answer (BatchEnd id Policy))
  | BatchEndDegraded id => Some (Answer (BatchEnd id PrimaryOnly))
  | Reply.ServerBusy id => Some (Answer (ServerBusy id))
  | Reply.Refused id kind reason => Some (Answer (Refused id kind (truncate_reason reason)))
  | Challenge _ | Reply.AuthFailed | ServerReady => None
  end.

Lemma id_frame_ok tag id : in_u64 id -> tag ∈ [TAG_BATCH_END; TAG_BATCH_END_DEGRADED; TAG_SERVER_BUSY] ->
  id_frame (tag :: le 8 id ++ []) = Ok id.
Proof.
  intros Hid Htag. unfold id_frame.
  assert (Ht : terminal_request_id (tag :: le 8 id ++ []) = Some id).
  { unfold terminal_request_id. rewrite read_id_after by done.
    repeat (apply elem_of_cons in Htag as [->|Htag]; [done|]). by apply elem_of_nil in Htag. }
  rewrite Ht, app_nil_r. cbn [length]. by rewrite le_length.
Qed.

(** A frame of the session reads back as what it is; one of the handshake,
    come late, is refused. *)
Lemma classify_payload r : response_ok r ->
  match reads r with
  | Some reply => classify (response_payload r) = Ok reply
  | None => exists v, classify (response_payload r) = Err (Protocol v)
  end.
Proof.
  assert (Hfin : forall mk tag id, in_u64 id -> tag ∈ [TAG_BATCH_END; TAG_BATCH_END_DEGRADED; TAG_SERVER_BUSY] ->
    rbind (rbind (id_frame (tag :: le 8 id ++ [])) (fun id => Ok (mk id))) (fun f => Ok (Answer f)) = Ok (Answer (mk id))).
  { intros mk tag id Hid Ht. by rewrite id_frame_ok. }
  destruct r as [|id|id|id|id kind reason|nonce| |]; cbn [reads response_ok]; intros Hok;
    [done|by apply (Hfin (fun id => BatchEnd id Policy)); [|left]
         |by apply (Hfin (fun id => BatchEnd id PrimaryOnly)); [|right; left]
         |by apply (Hfin ServerBusy); [|right; right; left]| |by eexists|by eexists|by eexists].
  destruct Hok as [Hid Hu]. pose proof (decode_refused_payload id kind reason Hid Hu) as Hd.
  assert (Hc : classify (response_payload (Reply.Refused id kind reason)) =
    rbind (match decode_refused (response_payload (Reply.Refused id kind reason)) with
           | Ok r => Ok (Refused (r_id r) (r_kind r) (r_reason r))
           | Err e => Err (Protocol (BadRefused e))
           end) (fun f => Ok (Answer f))) by reflexivity.
  by rewrite Hc, Hd.
Qed.

Lemma classify_app body : classify (TAG_APP :: body) = Ok (Answer (Response body)).
Proof. done. Qed.
End Answers.

(** ** Requests outstanding *)

Module Outstanding.
Import InFlight Answers.

Record Outstanding := { next : Z; ids : list (Z * unit); mid_batch : bool }.

Definition default_outstanding : Outstanding := {| next := 1; ids := []; mid_batch := false |}.
Definition next_id (o : Outstanding) : Z := next o.

(** [sent]: the addition is at the counter's width. *)
Definition sent (o : Outstanding) : Z * Outstanding :=
  (next o, {| next := wrapping_add (next o) 1; ids := snd (insert (ids o) (next o) tt); mid_batch := mid_batch o |}).
Definition is_empty (o : Outstanding) : bool := InFlight.is_empty (ids o).
Definition len (o : Outstanding) : nat := InFlight.len (ids o).

Definition settle (o : Outstanding) (id : Z) : result unit Error * Outstanding :=
  match remove (ids o) id with
  | (None, _) => (Err (Protocol (NotOutstanding id)), o)
  | (Some _, rest) => (Ok tt, {| next := next o; ids := rest; mid_batch := false |})
  end.

Definition early (o : Outstanding) (id : Z) : result unit Error * Outstanding :=
  if mid_batch o then (Err (Protocol (InsideAnotherReply id)), o) else settle o id.

Definition observe (o : Outstanding) (f : Frame) : result unit Error * Outstanding :=
  match f with
  | Response _ =>
    if is_empty o then (Err (Protocol NoRequestOutstanding), o)
    else (Ok tt, {| next := next o; ids := ids o; mid_batch := true |})
  | BatchEnd id _ => settle o id
  | ServerBusy id => early o id
  | Refused id _ _ => early o id
  end.

(** *** The set of requests owed an answer *)

Definition owed (o : Outstanding) : gset Z := dom (abs (ids o)).

(** Requests 1 to [n] have been sent. *)
Record wf (n : Z) (o : Outstanding) : Prop := {
  wf_sorted : sorted (ids o);
  wf_next : next o = n + 1;
  wf_ids : forall id, id ∈ owed o -> 1 <= id <= n
}.

Lemma default_wf : wf 0 default_outstanding.
Proof. constructor; [constructor|done|]. intros id Hid. unfold owed, abs in Hid. cbn in Hid. set_solver. Qed.

Lemma sent_spec n o : wf n o -> 0 <= n -> n + 2 <= u64_max ->
  let '(id, o') := sent o in
  id = n + 1 /\ wf (n + 1) o' /\ owed o' = {[ id ]} ∪ owed o /\ id ∉ owed o /\ mid_batch o' = mid_batch o.
Proof.
  intros [H1 H2 H3] Hn0 Hn. unfold sent. pose proof (insert_spec (ids o) (next o) tt H1) as Hi.
  destruct (insert (ids o) (next o) tt) as [old e]. destruct Hi as (I1 & I2 & I3). cbn [snd].
  assert (Ho : owed {| next := wrapping_add (next o) 1; ids := e; mid_batch := mid_batch o |} = {[ next o ]} ∪ owed o).
  { unfold owed. cbn [ids]. by rewrite I3, dom_insert_L. }
  split; [done|]. split; [|split; [done|split; [|done]]].
  - constructor; [done| |].
    + cbn [next]. rewrite H2. unfold wrapping_add. widths. rewrite Z.mod_small; lia.
    + intros id. rewrite Ho, elem_of_union, elem_of_singleton. intros [->|Hid]; [lia|]. specialize (H3 id Hid). lia.
  - intros Hid. specialize (H3 _ Hid). lia.
Qed.

Lemma answered_spec n o id : wf n o ->
  let '(r, o') := settle o id in
  (id ∈ owed o -> r = Ok tt /\ wf n o' /\ owed o' = owed o ∖ {[ id ]} /\ mid_batch o' = false) /\
  (id ∉ owed o -> r = Err (Protocol (NotOutstanding id)) /\ o' = o).
Proof.
  intros [H1 H2 H3]. unfold settle. pose proof (remove_spec (ids o) id H1) as Hr.
  destruct (remove (ids o) id) as [old e]. destruct Hr as (R1 & R2 & R3).
  assert (Hin : id ∈ owed o <-> is_Some old) by (unfold owed; by rewrite elem_of_dom, <- R2).
  assert (Ho : owed {| next := next o; ids := e; mid_batch := false |} = owed o ∖ {[ id ]}).
  { unfold owed. cbn [ids]. by rewrite R3, dom_delete_L. }
  destruct old as [[]|].
  - split; [|by intros Hn; destruct Hn; apply Hin]. intros _. split; [done|]. split; [|done].
    constructor; [done|done|]. intros x. rewrite Ho. intros Hx. apply H3. set_solver.
  - split; [|done]. intros Hi. by apply Hin in Hi as [? ?].
Qed.

Lemma is_empty_spec n o : wf n o -> is_empty o = bool_decide (owed o = ∅).
Proof.
  intros [H1 _ _]. unfold is_empty, owed, InFlight.is_empty. destruct (ids o) as [|[k v] l] eqn:Hi; [by rewrite bool_decide_true|].
  rewrite bool_decide_false; [done|]. unfold abs. cbn. rewrite dom_insert_L. set_solver.
Qed.
End Outstanding.

(** ** The handshake *)

Module Handshake.
Import Answers.

(** The signing key: its signatures and its public half. *)
Record SigningKey := { sign : list Z -> list Z; verifying_key : list Z }.

Inductive HandshakeState := AwaitChallenge (key : SigningKey) | Verdict | Done.

Record Handshake := { h_public_key : list Z; h_state : HandshakeState; h_response : list Z }.

Definition RESPONSE_FRAME_LEN : nat := PREFIX_LEN + CHALLENGE_RESPONSE_LEN.
Definition MAX_HANDSHAKE_FRAME : Z := 64.

Definition new (key : SigningKey) : Handshake :=
  {| h_public_key := verifying_key key; h_state := AwaitChallenge key; h_response := replicate RESPONSE_FRAME_LEN 0 |}.

Definition is_done (h : Handshake) : bool := match h_state h with Done => true | _ => false end.

Inductive Step := Send (frame : list Z) | Ready.

Definition feed (h : Handshake) (payload : list Z) : result Step Error * Handshake :=
  match h_state h with
  | AwaitChallenge key =>
    match decode_challenge payload with
    | Err (Version node) => (Err (ProtocolVersion node CLIENT_PROTOCOL_VERSION), h)
    | Err (NotAChallenge len tag) => (Err (Protocol (NotAChallengeFrame len tag)), h)
    | Ok nonce =>
      let answer := {| signature := sign key nonce; public_key := h_public_key h |} in
      match encode_challenge_response answer (RESPONSE_FRAME_LEN - PREFIX_LEN) with
      | Err _ => (Err (Protocol CannotEncode), h)
      | Ok bytes =>
        let frame := le 4 (Z.of_nat CHALLENGE_RESPONSE_LEN) ++ bytes in
        (Ok (Send frame), {| h_public_key := h_public_key h; h_state := Verdict; h_response := frame |})
      end
    end
  | Verdict =>
    match payload with
    | tag :: _ =>
      if tag =? TAG_SERVER_READY then
        (Ok Ready, {| h_public_key := h_public_key h; h_state := Done; h_response := h_response h |})
      else if tag =? TAG_AUTH_FAILED then (Err (AuthFailed (h_public_key h)), h)
      else (Err (Protocol (NoVerdict (Some tag))), h)
    | [] => (Err (Protocol (NoVerdict None)), h)
    end
  | Done => (Err (Protocol HandshakeComplete), h)
  end.
End Handshake.

(** ** The polled connection *)

Module Polled.
Import Answers Outstanding Handshake.

(** A non-blocking byte stream. [lend] is the region an in-place send lends
    its closure, if it lends one; [queue] takes the region back with the
    number of bytes to queue. *)
Class ByteStream (T : Type) := {
  send : T -> list Z -> result nat IoError * T;
  service : T -> Z -> T;
  recv : T -> nat -> result (list Z) IoError * T;
  lend : T -> option (list Z);
  queue : T -> list Z -> nat -> result nat IoError * T
}.

(** What the trait documents: a send takes a prefix of what it is given, a
    receive no more than the room, a lent region a prefix of what was
    written there. [wire] is every byte taken from the client, [got] every
    byte it received. *)
Class ByteStreamLaws (T : Type) `{ByteStream T} := {
  wire : T -> list Z;
  got : T -> list Z;
  send_takes : forall s data n s', send s data = (Ok n, s') ->
    (n <= length data)%nat /\ wire s' = wire s ++ take n data /\ got s' = got s;
  service_quiet : forall s now, wire (service s now) = wire s /\ got (service s now) = got s;
  recv_gives : forall s room bytes s', recv s room = (Ok bytes, s') ->
    (length bytes <= room)%nat /\ wire s' = wire s /\ got s' = got s ++ bytes;
  queue_takes : forall s region region' n q s', lend s = Some region -> length region' = length region ->
    (n <= length region')%nat -> queue s region' n = (Ok q, s') ->
    (q <= n)%nat /\ wire s' = wire s ++ take q region' /\ got s' = got s
}.

Definition MAX_WIRE_FRAME : nat := PREFIX_LEN + Z.to_nat MAX_FRAME_SIZE.
Definition RECEIVE_BUFFER : nat := 16 * MAX_WIRE_FRAME.

Record PolledConnection := {
  handshake : Handshake;
  challenge_response : list Z;
  challenge_response_len : nat;
  challenge_response_sent : nat;
  rx : list Z;
  rx_head : nat;
  rx_tail : nat;
  tx : list Z;
  tx_head : nat;
  read_timeout_ns : Z;
  deadline_ns : option Z;
  outstanding : Outstanding
}.

Definition with_handshake (c : PolledConnection) (h : Handshake) : PolledConnection :=
  {| handshake := h; challenge_response := challenge_response c; challenge_response_len := challenge_response_len c;
     challenge_response_sent := challenge_response_sent c; rx := rx c; rx_head := rx_head c; rx_tail := rx_tail c;
     tx := tx c; tx_head := tx_head c; read_timeout_ns := read_timeout_ns c; deadline_ns := deadline_ns c;
     outstanding := outstanding c |}.
Definition with_response (c : PolledConnection) (bytes : list Z) (len sent : nat) : PolledConnection :=
  {| handshake := handshake c; challenge_response := bytes; challenge_response_len := len;
     challenge_response_sent := sent; rx := rx c; rx_head := rx_head c; rx_tail := rx_tail c;
     tx := tx c; tx_head := tx_head c; read_timeout_ns := read_timeout_ns c; deadline_ns := deadline_ns c;
     outstanding := outstanding c |}.
Definition with_rx (c : PolledConnection) (buf : list Z) (head tail : nat) : PolledConnection :=
  {| handshake := handshake c; challenge_response := challenge_response c; challenge_response_len := challenge_response_len c;
     challenge_response_sent := challenge_response_sent c; rx := buf; rx_head := head; rx_tail := tail;
     tx := tx c; tx_head := tx_head c; read_timeout_ns := read_timeout_ns c; deadline_ns := deadline_ns c;
     outstanding := outstanding c |}.
Definition with_tx (c : PolledConnection) (buf : list Z) (head : nat) : PolledConnection :=
  {| handshake := handshake c; challenge_response := challenge_response c; challenge_response_len := challenge_response_len c;
     challenge_response_sent := challenge_response_sent c; rx := rx c; rx_head := rx_head c; rx_tail := rx_tail c;
     tx := buf; tx_head := head; read_timeout_ns := read_timeout_ns c; deadline_ns := deadline_ns c;
     outstanding := outstanding c |}.
Definition with_wait (c : PolledConnection) (deadline : option Z) (o : Outstanding) : PolledConnection :=
  {| handshake := handshake c; challenge_response := challenge_response c; challenge_response_len := challenge_response_len c;
     challenge_response_sent := challenge_response_sent c; rx := rx c; rx_head := rx_head c; rx_tail := rx_tail c;
     tx := tx c; tx_head := tx_head c; read_timeout_ns := read_timeout_ns c; deadline_ns := deadline;
     outstanding := o |}.

Definition with_timeout (key : SigningKey) (timeout_ns : Z) : PolledConnection :=
  {| handshake := new key; challenge_response := replicate RESPONSE_FRAME_LEN 0; challenge_response_len := 0;
     challenge_response_sent := 0; rx := replicate RECEIVE_BUFFER 0; rx_head := 0; rx_tail := 0; tx := []; tx_head := 0;
     read_timeout_ns := timeout_ns; deadline_ns := None; outstanding := default_outstanding |}.

Definition is_ready (c : PolledConnection) : bool := is_done (handshake c).

Definition unsent (c : PolledConnection) : nat :=
  (challenge_response_len c - challenge_response_sent c) + (length (tx c) - tx_head c).

(** [make_room]: reset, compact or grow. *)
Definition make_room (c : PolledConnection) (wanted : nat) : PolledConnection :=
  let c :=
    if (rx_head c =? rx_tail c)%nat then with_rx c (rx c) 0 0
    else if (length (rx c) - rx_tail c <? wanted)%nat && (0 <? rx_head c)%nat then
      let moved := take (rx_tail c - rx_head c) (drop (rx_head c) (rx c)) in
      with_rx c (moved ++ drop (length moved) (rx c)) 0 (rx_tail c - rx_head c)
    else c in
  if (length (rx c) - rx_tail c <? wanted)%nat
  then with_rx c (take (rx_tail c + wanted) (rx c ++ replicate (rx_tail c + wanted - length (rx c)) 0)) (rx_head c) (rx_tail c)
  else c.

(** Bytes written at [rx_tail]. *)
Definition put (c : PolledConnection) (bytes : list Z) : PolledConnection :=
  with_rx c (take (rx_tail c) (rx c) ++ bytes ++ drop (rx_tail c + length bytes) (rx c)) (rx_head c) (rx_tail c + length bytes).

Definition feed_bytes (c : PolledConnection) (bytes : list Z) : PolledConnection := put (make_room c (length bytes)) bytes.

Definition received (c : PolledConnection) : list Z := take (rx_tail c - rx_head c) (drop (rx_head c) (rx c)).

Section polled.
Context {T : Type} `{ByteStream T}.

(** Send from a cursor until the stream takes no more: each turn that goes
    on advances the cursor, so the bytes left are fuel enough. *)
Fixpoint send_from (fuel : nat) (s : T) (buf : list Z) (cursor : nat) : result unit IoError * nat * T :=
  match fuel with
  | O => (Ok tt, cursor, s)
  | S fuel =>
    if (cursor <? length buf)%nat then
      match send s (drop cursor buf) with
      | (Ok n, s) => if (n =? 0)%nat then (Ok tt, cursor, s) else send_from fuel s buf (cursor + n)
      | (Err e, s) => (Err e, cursor, s)
      end
    else (Ok tt, cursor, s)
  end.

Definition flush (c : PolledConnection) (s : T) : result unit Error * PolledConnection * T :=
  let out := take (challenge_response_len c) (challenge_response c) in
  let '(r, cursor, s) := send_from (length out) s out (challenge_response_sent c) in
  let c := with_response c (challenge_response c) (challenge_response_len c) cursor in
  match r with
  | Err e => (Err (Io e), c, s)
  | Ok _ =>
    if (cursor <? challenge_response_len c)%nat then (Ok tt, c, s)
    else if negb (is_ready c) then (Ok tt, c, s)
    else
      let '(r, cursor, s) := send_from (length (tx c)) s (tx c) (tx_head c) in
      let c := with_tx c (tx c) cursor in
      match r with
      | Err e => (Err (Io e), c, s)
      | Ok _ => (Ok tt, if (cursor =? length (tx c))%nat then with_tx c [] 0 else c, s)
      end
  end.

(** *** Sending *)

(** [request_sent]. *)
Definition request_sent (c : PolledConnection) (now : Z) : Z * PolledConnection :=
  let '(id, o) := Outstanding.sent (outstanding c) in
  (id, with_wait c (match deadline_ns c with None => Some (sat_add now (read_timeout_ns c)) | d => d end) o).

Section framing.
Context (encode : list Z -> list Z * result Z Error).

Definition frame_in_scratch (c : PolledConnection) (needed : nat) (id : Z) : result unit Error * PolledConnection :=
  let c := if (0 <? tx_head c)%nat then with_tx c (drop (tx_head c) (tx c)) 0 else c in
  match frame_request RequestError encode (replicate needed 0) id with
  | (buf, Ok written) => (Ok tt, with_tx c (tx c ++ take written buf) (tx_head c))
  | (_, Err e) => (Err e, c)
  end.

(** [frame_in_place]: [None] when no region was lent, or too short a one. *)
Definition frame_in_place (s : T) (needed : nat) (id : Z) : result (option (result nat Error * nat)) IoError * T :=
  match lend s with
  | None => (Ok None, s)
  | Some region =>
    if (length region <? needed)%nat then
      match queue s region 0 with (Ok _, s) => (Ok None, s) | (Err e, s) => (Err e, s) end
    else
      let '(region, outcome) := frame_request RequestError encode region id in
      let written := match outcome with Ok n => n | Err _ => 0%nat end in
      match queue s region written with
      | (Ok queued, s) => (Ok (Some (outcome, queued)), s)
      | (Err e, s) => (Err e, s)
      end
  end.

Definition send_with (c : PolledConnection) (s : T) (now max_body : Z) : result Z Error * PolledConnection * T :=
  let needed := (REQUEST_HEADER_LEN + Z.to_nat (Z.min max_body MAX_REQUEST_BODY))%nat in
  let id := next_id (outstanding c) in
  let '(r, c, s) := flush c s in
  match r with
  | Err e => (Err e, c, s)
  | Ok _ =>
    let scratch (s : T) :=
      match frame_in_scratch c needed id with
      | (Err e, c) => (Err e, c, s)
      | (Ok _, c) =>
        let '(id, c) := request_sent c now in
        let '(r, c, s) := flush c s in
        match r with Err e => (Err e, c, s) | Ok _ => (Ok id, c, s) end
      end in
    if is_ready c && (tx_head c =? length (tx c))%nat then
      match frame_in_place s needed id with
      | (Err e, s) => (Err (Io e), c, s)
      | (Ok None, s) => scratch s
      | (Ok (Some (Err e, _)), s) => (Err e, c, s)
      | (Ok (Some (Ok written, queued)), s) =>
        if (queued =? written)%nat then let '(id, c) := request_sent c now in (Ok id, c, s)
        else (Err (Io (QueuedShort queued written)), c, s)
      end
    else scratch s
  end.
End framing.

(** The encoder of [send]: the body, copied. *)
Definition copy_body (body out : list Z) : list Z * result Z Error :=
  if (length body <=? length out)%nat then (body ++ drop (length body) out, Ok (Z.of_nat (length body)))
  else (out, Err (RequestError (BufferTooSmall (Z.of_nat (REQUEST_HEADER_LEN + length body)) (Z.of_nat (REQUEST_HEADER_LEN + length out))))).

Definition send_body (c : PolledConnection) (s : T) (now : Z) (body : list Z) : result Z Error * PolledConnection * T :=
  match request_payload_len (Z.of_nat (length body)) with
  | Err e => (Err (RequestError e), c, s)
  | Ok _ => send_with (copy_body body) c s now (Z.of_nat (length body))
  end.

(** *** Receiving *)

Definition receive (c : PolledConnection) (s : T) : result nat Error * PolledConnection * T :=
  let c := make_room c MAX_WIRE_FRAME in
  match recv s (length (rx c) - rx_tail c) with
  | (Ok bytes, s) => (Ok (length bytes), put c bytes, s)
  | (Err UnexpectedEof, s) => (Err Disconnected, c, s)
  | (Err e, s) => (Err (Io e), c, s)
  end.

Definition nothing_yet (c : PolledConnection) (now : Z) (waiting : bool) : result unit Error * PolledConnection :=
  if negb (waiting || negb (Outstanding.is_empty (outstanding c)) || negb (is_done (handshake c))) then (Ok tt, c)
  else
    match deadline_ns c with
    | None => (Ok tt, with_wait c (Some (sat_add now (read_timeout_ns c))) (outstanding c))
    | Some deadline => if deadline <=? now then (Err NoReply, c) else (Ok tt, c)
    end.

Definition handshake_frame (c : PolledConnection) (s : T) (payload : list Z) : result unit Error * PolledConnection * T :=
  let '(r, h) := feed (handshake c) payload in
  let c := with_handshake c h in
  match r with
  | Err e => (Err e, c, s)
  | Ok step =>
    let c := match step with
             | Send response => with_response c (response ++ drop (length response) (challenge_response c)) (length response) 0
             | Ready => c
             end in
    flush (with_wait c None (outstanding c)) s
  end.

Definition refuse_long_handshake_frame (buf : list Z) : result unit Error :=
  if (length buf <? PREFIX_LEN)%nat then Ok tt
  else
    let len := field 0 4 buf in
    if (MAX_HANDSHAKE_FRAME <? len) && (len <=? MAX_FRAME_SIZE) then Err (Protocol (LongHandshakeFrame len)) else Ok tt.

(** The loop of [poll_found] over what has been received: a payload to
    answer, or none left; every turn that goes on consumes a frame. *)
Fixpoint scan (fuel : nat) (c : PolledConnection) (s : T) : result (option (list Z)) Error * PolledConnection * T :=
  match fuel with
  | O => (Ok None, c, s)
  | S fuel =>
    match (if is_done (handshake c) then Ok tt else refuse_long_handshake_frame (received c)) with
    | Err e => (Err e, c, s)
    | Ok _ =>
      match split_frame (received c) with
      | Err e => (Err (TooLarge e), c, s)
      | Ok None => (Ok None, c, s)
      | Ok (Some payload) =>
        let c := with_rx c (rx c) (rx_head c + consumed payload) (rx_tail c) in
        if negb (is_done (handshake c)) then
          match handshake_frame c s payload with
          | (Err e, c, s) => (Err e, c, s)
          | (Ok _, c, s) => scan fuel c s
          end
        else if is_heartbeat payload then scan fuel c s
        else (Ok (Some payload), c, s)
      end
    end
  end.

Definition scan_all (c : PolledConnection) (s : T) : result (option (list Z)) Error * PolledConnection * T :=
  scan (S (rx_tail c - rx_head c)) c s.

Definition poll_found (c : PolledConnection) (s : T) (now : Z) (waiting : bool)
    : result (option (list Z)) Error * PolledConnection * T :=
  let quiet c s := match nothing_yet c now waiting with (Ok _, c) => (Ok None, c, s) | (Err e, c) => (Err e, c, s) end in
  let '(r, c, s) := flush c s in
  match r with
  | Err e => (Err e, c, s)
  | Ok _ =>
    match scan_all c s with
    | (Ok None, c, s) =>
      match receive c s with
      | (Err e, c, s) => (Err e, c, s)
      | (Ok O, c, s) => quiet c s
      | (Ok _, c, s) =>
        match scan_all c s with
        | (Ok None, c, s) => quiet c s
        | r => r
        end
      end
    | r => r
    end
  end.

Definition answer (c : PolledConnection) (payload : list Z) : result Frame Error * PolledConnection :=
  match classify_answer payload with
  | Err e => (Err e, c)
  | Ok f =>
    match observe (outstanding c) f with
    | (Err e, o) => (Err e, with_wait c (deadline_ns c) o)
    | (Ok _, o) => (Ok f, with_wait c None o)
    end
  end.

Definition poll (c : PolledConnection) (s : T) (now : Z) : result (option Frame) Error * PolledConnection * T :=
  match poll_found c s now false with
  | (Ok (Some payload), c, s) => let '(r, c) := answer c payload in (f <-? r ;; Ok (Some f), c, s)
  | (Ok None, c, s) => (Ok None, c, s)
  | (Err e, c, s) => (Err e, c, s)
  end.
End polled.

(** *** A request's reply *)

Record Batch := { frames : list (list Z); ack : Ack }.

Definition mine (answered sent : Z) : result unit Error :=
  if answered =? sent then Ok tt else Err (Protocol (AnotherRequest answered sent)).

(** [collect_batch] over the frames the session hands over; [None] while it
    still waits. *)
Fixpoint collect_batch (sent : Z) (acc : list (list Z)) (session : list (result Frame Error)) : option (result Batch Error) :=
  match session with
  | [] => None
  | Err e :: _ => Some (Err e)
  | Ok (Response body) :: rest => collect_batch sent (acc ++ [body]) rest
  | Ok (BatchEnd id a) :: _ => Some (_ <-? mine id sent ;; Ok {| frames := acc; ack := a |})
  | Ok (ServerBusy id) :: _ => Some (_ <-? mine id sent ;; Err ServerBusyError)
  | Ok (Refused id kind reason) :: _ => Some (_ <-? mine id sent ;; Err (RefusedError kind reason))
  end.

Definition policy_frames (b : Batch) : result (list (list Z)) Error :=
  match ack b with Policy => Ok (frames b) | PrimaryOnly => Err (Degraded (frames b)) end.

Definition one_frame (fs : list (list Z)) : result (list Z) Error :=
  match fs with [f] => Ok f | _ => Err (Protocol (NotOneFrame (length fs))) end.
End Polled.

(** ** What the polled connection does *)

Module PolledFacts.
Import Answers Outstanding Handshake Polled.

(** The fixed sizes of a signature and a public key. *)
Definition key_ok (key : SigningKey) : Prop :=
  (forall nonce, length (sign key nonce) = 64%nat) /\ length (verifying_key key) = 32%nat.

Definition response_frame (key : SigningKey) (nonce : list Z) : list Z :=
  le 4 (Z.of_nat CHALLENGE_RESPONSE_LEN) ++ TAG_CHALLENGE_RESPONSE :: sign key nonce ++ verifying_key key.

Definition request_frame (id : Z) (body : list Z) : list Z :=
  le 4 (Z.of_nat (REQUEST_TAG_AND_ID_LEN + length body)) ++ request_tag_and_id id ++ body.

(** *** The receive buffer *)

Definition rx_ok (c : PolledConnection) : Prop := (rx_head c <= rx_tail c <= length (rx c))%nat.

Lemma make_room_spec c wanted : rx_ok c ->
  let c' := make_room c wanted in
  rx_ok c' /\ received c' = received c /\ (wanted <= length (rx c') - rx_tail c')%nat /\
  c' = with_rx c (rx c') (rx_head c') (rx_tail c').
Proof.
  intros Hok. unfold make_room. set (c1 := if (rx_head c =? rx_tail c)%nat then _ else _).
  assert (H1 : rx_ok c1 /\ received c1 = received c /\ c1 = with_rx c (rx c1) (rx_head c1) (rx_tail c1)).
  { unfold c1. destruct (rx_head c =? rx_tail c)%nat eqn:He.
    - apply Nat.eqb_eq in He. split; [|split; [|done]]; unfold rx_ok, received in *; cbn; [lia|]. by rewrite He, Nat.sub_diag.
    - destruct (_ && _); [|by destruct c]. unfold rx_ok, received in *. cbn.
      set (m := take (rx_tail c - rx_head c) (drop (rx_head c) (rx c))).
      assert (Hm : length m = (rx_tail c - rx_head c)%nat) by (subst m; rewrite length_take, length_drop; lia).
      split; [rewrite length_app, length_drop; lia|]. split; [|done]. rewrite drop_0, Nat.sub_0_r, <- Hm. apply take_app_length. }
  destruct H1 as ([Ha Hb] & Hr & Hc). cbn zeta. destruct (length (rx c1) - rx_tail c1 <? wanted)%nat eqn:Hw.
  - apply Nat.ltb_lt in Hw. unfold rx_ok, received. cbn [with_rx rx rx_head rx_tail].
    set (n := (rx_tail c1 + wanted)%nat). set (pad := replicate (n - length (rx c1)) 0).
    assert (Hl : length (take n (rx c1 ++ pad)) = n).
    { rewrite length_take, length_app. unfold pad. rewrite length_replicate. lia. }
    split; [lia|]. split; [|split; [lia|rewrite Hc; done]].
    unfold received in Hr. rewrite <- Hr. unfold n. rewrite take_app_ge, drop_app_le, take_app_le by (rewrite ?length_drop; lia). done.
  - apply Nat.ltb_ge in Hw. done.
Qed.

Lemma put_spec c bytes : rx_ok c -> (length bytes <= length (rx c) - rx_tail c)%nat ->
  rx_ok (put c bytes) /\ received (put c bytes) = received c ++ bytes.
Proof.
  unfold rx_ok, received, put. cbn [with_rx rx rx_head rx_tail]. intros [H1 H2] Hl.
  rewrite !length_app, length_take, length_drop. split; [lia|].
  rewrite drop_app_le by (rewrite length_take; lia). rewrite skipn_firstn_comm.
  set (m := take (rx_tail c - rx_head c) (drop (rx_head c) (rx c))).
  assert (Hm : length m = (rx_tail c - rx_head c)%nat) by (subst m; rewrite length_take, length_drop; lia).
  replace (rx_tail c + length bytes - rx_head c)%nat with (length (m ++ bytes)) by (rewrite length_app; lia).
  rewrite app_assoc. apply take_app_length.
Qed.

Lemma consume_spec c n : rx_ok c -> (n <= rx_tail c - rx_head c)%nat ->
  let c' := with_rx c (rx c) (rx_head c + n) (rx_tail c) in rx_ok c' /\ received c' = drop n (received c).
Proof.
  unfold rx_ok, received. cbn. intros Hok Hn. split; [lia|]. rewrite skipn_firstn_comm, drop_drop. f_equal. lia.
Qed.

Lemma received_len c : rx_ok c -> length (received c) = (rx_tail c - rx_head c)%nat.
Proof. unfold rx_ok, received. intros. rewrite length_take, length_drop. lia. Qed.

(** The connection but for its receive side. *)
Definition same_rx (c c' : PolledConnection) : Prop := rx c' = rx c /\ rx_head c' = rx_head c /\ rx_tail c' = rx_tail c.

Lemma same_rx_ok c c' : same_rx c c' -> rx_ok c -> rx_ok c' /\ received c' = received c.
Proof. intros (H1 & H2 & H3). unfold rx_ok, received. by rewrite H1, H2, H3. Qed.

(** *** What was sent *)

Section facts.
Context {T : Type} `{ByteStreamLaws T}.
Context (key : SigningKey) (key_sizes : key_ok key).

Definition response (c : PolledConnection) : list Z := take (challenge_response_len c) (challenge_response c).

(** The handshake's place, and the answer it made. *)
Definition shakes (c : PolledConnection) : Prop :=
  h_public_key (handshake c) = verifying_key key /\ length (challenge_response c) = RESPONSE_FRAME_LEN /\
  match h_state (handshake c) with
  | AwaitChallenge k => k = key /\ challenge_response_len c = 0%nat
  | Verdict | Done => challenge_response_len c = RESPONSE_FRAME_LEN /\ exists nonce, response c = response_frame key nonce
  end.

(** Every byte the stream took, and every byte still to be taken: the
    response, then the requests; none of them before the node is ready. *)
Record sends (requests : list Z) (c : PolledConnection) (s : T) : Prop := {
  s_cursor : (challenge_response_sent c <= challenge_response_len c <= length (challenge_response c))%nat;
  s_head : (tx_head c <= length (tx c))%nat;
  s_wire : exists w, wire s = take (challenge_response_sent c) (response c) ++ w /\ w ++ drop (tx_head c) (tx c) = requests /\
    (w <> [] -> challenge_response_sent c = challenge_response_len c /\ is_ready c = true)
}.

Lemma send_from_spec fuel : forall s buf cursor r cursor' s',
  (cursor <= length buf)%nat -> send_from fuel s buf cursor = (r, cursor', s') ->
  r = Ok tt ->
  (cursor <= cursor' <= length buf)%nat /\ wire s' = wire s ++ take (cursor' - cursor) (drop cursor buf) /\ got s' = got s.
Proof.
  induction fuel as [|fuel IH]; intros s buf cursor r cursor' s' Hc; cbn [send_from].
  { intros [= <- <- <-] _. rewrite Nat.sub_diag, take_0, app_nil_r. done. }
  destruct (cursor <? length buf)%nat eqn:Hlt.
  2: { intros [= <- <- <-] _. rewrite Nat.sub_diag, take_0, app_nil_r. done. }
  apply Nat.ltb_lt in Hlt. destruct (send s (drop cursor buf)) as [[n|e] s1] eqn:Hs; [|by intros [= <- <- <-]].
  destruct (send_takes _ _ _ _ Hs) as (Hn & Hw & Hg). rewrite length_drop in Hn.
  destruct (n =? 0)%nat eqn:Hz.
  { apply Nat.eqb_eq in Hz as ->. intros [= <- <- <-] _. rewrite Nat.sub_diag. done. }
  intros Hrest Hr. destruct (IH s1 buf (cursor + n)%nat r cursor' s' ltac:(lia) Hrest Hr) as (H1 & H2 & H3).
  split; [lia|]. split; [|congruence]. rewrite H2, Hw, <- app_assoc. f_equal.
  replace (cursor' - cursor)%nat with (n + (cursor' - (cursor + n)))%nat by lia.
  replace (drop (cursor + n) buf) with (drop n (drop cursor buf)) by (rewrite drop_drop; f_equal; lia). apply take_take_drop.
Qed.

(** Flushing moves the boundary between what the stream has and what it has
    not, and nothing else. *)
Lemma polled_flush_spec requests c s c' s' :
  sends requests c s -> flush c s = (Ok tt, c', s') ->
  sends requests c' s' /\ got s' = got s /\ same_rx c c' /\ handshake c' = handshake c /\
  outstanding c' = outstanding c /\ response c' = response c /\ challenge_response c' = challenge_response c /\
  challenge_response_len c' = challenge_response_len c /\ (challenge_response_sent c <= challenge_response_sent c')%nat.
Proof.
  intros [Hcur Hhead (w & Hw & Hreq & Hsafe)] Hf. unfold flush in Hf. fold (response c) in Hf.
  assert (Hrl : length (response c) = challenge_response_len c) by (unfold response; rewrite length_take; lia).
  destruct (send_from (length (response c)) s (response c) (challenge_response_sent c)) as [[r cur] s1] eqn:H1.
  destruct r as [[]|]; [|done].
  destruct (send_from_spec _ s (response c) (challenge_response_sent c) _ _ _ ltac:(lia) H1 eq_refl) as (Hc1 & Hw1 & Hg1).
  assert (Hs1 : wire s1 = take cur (response c) ++ w).
  { rewrite Hw1, Hw. destruct w as [|x w].
    - rewrite app_nil_r, app_nil_r. rewrite take_take_drop. f_equal. lia.
    - destruct Hsafe as [Hall _]; [done|]. replace cur with (challenge_response_sent c) by lia. by rewrite Nat.sub_diag, take_0, app_nil_r. }
  set (c1 := with_response c (challenge_response c) (challenge_response_len c) cur) in *.
  assert (Hend1 : sends requests c1 s1 /\ got s1 = got s /\ same_rx c c1 /\ handshake c1 = handshake c /\
    outstanding c1 = outstanding c /\ response c1 = response c /\ challenge_response c1 = challenge_response c /\
    challenge_response_len c1 = challenge_response_len c /\ (challenge_response_sent c <= challenge_response_sent c1)%nat).
  { split; [|split_and!; try done; cbn; lia]. constructor; [cbn; lia|done|]. exists w. split; [done|]. split; [done|]. intros Hne. destruct (Hsafe Hne). cbn. split; [lia|done]. }
  destruct (cur <? challenge_response_len c1)%nat eqn:Hlt; [by injection Hf as <- <-|]. apply Nat.ltb_ge in Hlt.
  destruct (negb (is_ready c1)) eqn:Hready; [by injection Hf as <- <-|]. apply negb_false_iff in Hready.
  destruct (send_from (length (tx c1)) s1 (tx c1) (tx_head c1)) as [[r2 cur2] s2] eqn:H2. destruct r2 as [[]|]; [|done].
  destruct (send_from_spec _ _ _ _ _ _ _ Hhead H2 eq_refl) as (Hc2 & Hw2 & Hg2). cbn [c1 with_response tx tx_head] in Hc2, Hw2, Hf, H2.
  injection Hf as <- <-. split; [|split; [congruence|]; destruct (cur2 =? _)%nat; split_and!; try done; cbn; lia].
  assert (Hrest : (w ++ take (cur2 - tx_head c) (drop (tx_head c) (tx c))) ++ drop cur2 (tx c) = requests).
  { rewrite <- app_assoc, <- Hreq. f_equal. rewrite <- (take_drop (cur2 - tx_head c) (drop (tx_head c) (tx c))) at 2. f_equal.
    rewrite drop_drop. f_equal. lia. }
  assert (Hwire : wire s2 = take cur (response c) ++ w ++ take (cur2 - tx_head c) (drop (tx_head c) (tx c))).
  { by rewrite Hw2, Hs1, <- app_assoc. }
  destruct (cur2 =? length (tx c))%nat eqn:He; constructor; cbn; try lia;
    (exists (w ++ take (cur2 - tx_head c) (drop (tx_head c) (tx c))); split; [done|]; split; [|intros _; cbn in Hlt; split; [lia|done]]).
  - apply Nat.eqb_eq in He. rewrite <- Hrest, He, drop_all. done.
  - done.
Qed.

(** *** What was received *)

Definition left (c : PolledConnection) : list (list Z) * Split.tail := frames_of MAX_FRAME_SIZE (received c).

(** How many handshake frames the node has sent. *)
Definition stage (h : Handshake) : nat :=
  match h_state h with AwaitChallenge _ => 0 | Verdict => 1 | Done => 2 end.

(** The answers among a run of frames: what is left of them past the
    handshake's two, without the heartbeats. *)
Definition answers_from (n : nat) (fs : list (list Z)) : list (list Z) :=
  filter (fun p => is_heartbeat p = false) (drop n fs).

Lemma answers_from_app n fs gs : answers_from n (fs ++ gs) = answers_from n fs ++ answers_from (n - length fs) gs.
Proof. unfold answers_from. by rewrite drop_app, filter_app. Qed.

Lemma answers_one p : answers_from 0 [p] = if is_heartbeat p then [] else [p].
Proof.
  unfold answers_from. cbn [drop]. destruct (is_heartbeat p) eqn:Hp; [by rewrite filter_cons_False, filter_nil by congruence|].
  by rewrite filter_cons_True, filter_nil.
Qed.

(** Frames [fs] were taken off the front. *)
Record took (requests : list Z) (fs : list (list Z)) (c : PolledConnection) (s : T) (c' : PolledConnection) (s' : T) : Prop := {
  t_rx : rx_ok c';
  t_shakes : shakes c';
  t_sends : sends requests c' s';
  t_got : got s' = got s;
  t_out : outstanding c' = outstanding c;
  t_left : left c = (fs ++ (left c').1, (left c').2);
  t_stage : stage (handshake c') = Nat.min 2 (stage (handshake c) + length fs)
}.

Lemma took_refl requests c s : rx_ok c -> shakes c -> sends requests c s -> took requests [] c s c s.
Proof.
  intros. constructor; try done; [by destruct (left c)|]. unfold stage. destruct (h_state _); done.
Qed.

Lemma took_trans requests fs gs c1 s1 c2 s2 c3 s3 :
  took requests fs c1 s1 c2 s2 -> took requests gs c2 s2 c3 s3 -> took requests (fs ++ gs) c1 s1 c3 s3.
Proof.
  intros [A1 A2 A3 A4 A5 A6 A7] [B1 B2 B3 B4 B5 B6 B7]. constructor; try done; try congruence.
  - rewrite A6, B6. cbn. by rewrite app_assoc.
  - rewrite B7, A7, length_app. unfold stage. destruct (h_state (handshake c1)); lia.
Qed.

Lemma sends_rx requests c s buf a b : sends requests c s -> sends requests (with_rx c buf a b) s.
Proof. by intros [H1 H2 H3]. Qed.
Lemma sends_wait requests c s d o : sends requests c s -> sends requests (with_wait c d o) s.
Proof. by intros [H1 H2 H3]. Qed.

(** A frame of the handshake: the node's challenge is answered with the
    nonce signed, its acceptance ends it. *)
Lemma handshake_frame_spec requests c s payload c' s' :
  rx_ok c -> shakes c -> sends requests c s -> is_done (handshake c) = false ->
  handshake_frame c s payload = (Ok tt, c', s') ->
  rx_ok c' /\ received c' = received c /\ shakes c' /\ sends requests c' s' /\ got s' = got s /\ outstanding c' = outstanding c /\
  stage (handshake c') = S (stage (handshake c)).
Proof.
  intros Hrx (Hpk & Hcl & Hst) Hs Hd Hf. unfold handshake_frame, feed in Hf. unfold is_done in Hd.
  destruct key_sizes as [Hsig Hvk].
  destruct (h_state (handshake c)) as [k| |] eqn:Hstate; [| |done].
  - destruct Hst as [-> Hlen]. destruct (decode_challenge payload) as [nonce|[]]; [|done|done]. rewrite Hpk in Hf.
    set (answer := {| signature := sign key nonce; public_key := verifying_key key |}) in Hf.
    change (encode_challenge_response answer (RESPONSE_FRAME_LEN - PREFIX_LEN)) with
      (Ok (E := ProtocolError) (TAG_CHALLENGE_RESPONSE :: sign key nonce ++ verifying_key key)) in Hf.
    cbv beta iota in Hf. fold (response_frame key nonce) in Hf.
    assert (Hfl : length (response_frame key nonce) = RESPONSE_FRAME_LEN).
    { unfold response_frame. rewrite length_app, le_length. cbn [length]. by rewrite length_app, Hsig, Hvk. }
    set (c1 := with_wait _ None _) in Hf.
    assert (Hresp : challenge_response c1 = response_frame key nonce ++ [] /\ response c1 = response_frame key nonce).
    { cbn [c1 with_wait with_response with_handshake challenge_response challenge_response_len response]. unfold response.
      cbn [c1 with_wait with_response with_handshake challenge_response challenge_response_len].
      rewrite drop_ge by lia. split; [done|]. by rewrite take_app_length. }
    destruct Hresp as [Hcr Hresp].
    assert (Hs1 : sends requests c1 s).
    { destruct Hs as [S1 S2 (w & W1 & W2 & W3)]. constructor.
      - rewrite Hcr, app_nil_r. cbn. lia.
      - done.
      - exists w. assert (w = []) as ->.
        { destruct w; [done|]. destruct W3 as [_ W3]; [done|]. unfold is_ready, is_done in W3. by rewrite Hstate in W3. }
        split; [|split; [done|done]]. rewrite W1. unfold response. rewrite Hlen, take_0, take_nil. done. }
    destruct (polled_flush_spec _ _ _ _ _ Hs1 Hf) as (F1 & F2 & F3 & F4 & F5 & F6 & F7 & F8 & F9).
    destruct (same_rx_ok c1 c' F3 Hrx) as [Hrx' Hrec]. split; [done|]. split; [done|].
    split; [|split; [done|split; [done|split; [done|]]]].
    + unfold shakes. rewrite F4, F7, F8, F6, Hcr, app_nil_r, Hresp. split; [done|]. split; [done|]. split; [exact Hfl|by eexists].
    + rewrite F4. unfold stage. by rewrite Hstate.
  - destruct payload as [|tag rest]; [done|]. destruct (tag =? TAG_SERVER_READY); [|by destruct (tag =? TAG_AUTH_FAILED)]. cbv beta iota in Hf.
    set (c1 := with_wait _ None _) in Hf.
    assert (Hs1 : sends requests c1 s).
    { destruct Hs as [S1 S2 (w & W1 & W2 & W3)]. constructor; [done|done|]. exists w. split; [done|]. split; [done|].
      intros Hne. destruct (W3 Hne) as [W4 _]. by split. }
    destruct (polled_flush_spec _ _ _ _ _ Hs1 Hf) as (F1 & F2 & F3 & F4 & F5 & F6 & F7 & F8 & F9).
    destruct (same_rx_ok c1 c' F3 Hrx) as [Hrx' Hrec]. split; [done|]. split; [done|].
    split; [|split; [done|split; [done|split; [done|]]]].
    + unfold shakes. rewrite F4, F7, F8, F6. by cbn.
    + rewrite F4. unfold stage. by rewrite Hstate.
Qed.

Lemma scan_spec requests fuel : forall c s r c' s',
  rx_ok c -> shakes c -> sends requests c s -> (rx_tail c - rx_head c < fuel)%nat ->
  scan fuel c s = (Ok r, c', s') ->
  exists fs, took requests fs c s c' s' /\
    match r with
    | None => (left c').1 = [] /\ answers_from (2 - stage (handshake c)) fs = []
    | Some p => answers_from (2 - stage (handshake c)) fs = [p]
    end.
Proof.
  induction fuel as [|fuel IH]; intros c s r c' s' Hrx Hsh Hse Hfuel; [lia|]. cbn [scan].
  destruct (if is_done (handshake c) then Ok tt else refuse_long_handshake_frame (received c)); [|done].
  pose proof (frames_of_split MAX_FRAME_SIZE (received c)) as Hsplit. fold (left c) in Hsplit.
  destruct (split_frame (received c)) as [[p|]|e] eqn:Hp; unfold split_frame in Hp; rewrite Hp in Hsplit; [| |done].
  2: { intros [= <- <- <-]. exists []. split; [by apply took_refl|]. rewrite Hsplit. unfold answers_from. by rewrite drop_nil. }
  destruct (split_fits _ _ _ Hp) as (Hfit & _). rewrite received_len in Hfit by done.
  destruct (consume_spec c (consumed p) Hrx Hfit) as [Hrx1 Hrec1]. set (c1 := with_rx c (rx c) _ _) in *. cbn zeta.
  assert (Hc1 : left c = ([p] ++ (left c1).1, (left c1).2)) by (unfold left; rewrite Hrec1; exact Hsplit).
  assert (Hlt : (rx_tail c1 - rx_head c1 < fuel)%nat) by (cbn; unfold consumed, PREFIX_LEN in *; lia).
  assert (Hnext : forall c2 s2, rx_ok c2 -> received c2 = received c1 -> shakes c2 -> sends requests c2 s2 -> got s2 = got s ->
    outstanding c2 = outstanding c -> stage (handshake c2) = Nat.min 2 (S (stage (handshake c))) -> took requests [p] c s c2 s2).
  { intros c2 s2 R1 R2 R3 R4 R5 R6 R7. constructor; try done; [unfold left at 2 3; rewrite R2; exact Hc1|]. rewrite R7. cbn [length]. lia. }
  assert (Hlen2 : forall c2, rx_ok c2 -> received c2 = received c1 -> (rx_tail c2 - rx_head c2 < fuel)%nat).
  { intros c2 R1 R2. apply (f_equal length) in R2. by rewrite !received_len in R2 by done; rewrite R2. }
  change (handshake c1) with (handshake c). destruct (is_done (handshake c)) eqn:Hd; cbn [negb].
  - assert (Hst2 : stage (handshake c) = 2%nat) by (unfold is_done, stage in *; by destruct (h_state (handshake c))).
    rewrite Hst2. assert (Ht1 : took requests [p] c s c1 s) by (apply Hnext; try done; [by apply sends_rx|cbn; by rewrite Hst2]).
    destruct (is_heartbeat p) eqn:Hb.
    + intros Hrest. destruct (IH c1 s r c' s' Hrx1 Hsh (t_sends _ _ _ _ _ _ Ht1) Hlt Hrest) as (fs & Ht & Hr).
      exists ([p] ++ fs). split; [by eapply took_trans|]. change (stage (handshake c1)) with (stage (handshake c)) in Hr. rewrite Hst2 in Hr.
      rewrite answers_from_app. change (2 - 2 - length [p])%nat with 0%nat. rewrite answers_one, Hb. done.
    + intros [= <- <- <-]. exists [p]. split; [done|]. by rewrite answers_one, Hb.
  - destruct (handshake_frame c1 s p) as [[[[]|e] c2] s2] eqn:Hh; [|done].
    destruct (handshake_frame_spec requests c1 s p c2 s2 Hrx1 Hsh (sends_rx _ _ _ _ _ _ Hse) Hd Hh) as (R1 & R2 & R3 & R4 & R5 & R6 & R7).
    assert (Hst : (stage (handshake c) < 2)%nat) by (unfold is_done, stage in *; destruct (h_state (handshake c)); [lia|lia|done]).
    change (stage (handshake c1)) with (stage (handshake c)) in R7.
    intros Hrest. destruct (IH c2 s2 r c' s' R1 R3 R4 (Hlen2 _ R1 R2) Hrest) as (fs & Ht & Hr).
    exists ([p] ++ fs). split; [eapply took_trans; [apply Hnext; try done; lia|done]|].
    rewrite answers_from_app. cbn [length]. replace (2 - stage (handshake c) - 1)%nat with (2 - stage (handshake c2))%nat by lia.
    replace (answers_from (2 - stage (handshake c)) [p]) with (@nil (list Z)) by (unfold answers_from; rewrite drop_ge; [done|cbn; lia]). done.
Qed.

(** *** A connection, between calls *)

(** [all] is every byte received, [done] the frames taken from them. *)
Record live (requests all : list Z) (done : list (list Z)) (c : PolledConnection) (s : T) : Prop := {
  l_rx : rx_ok c;
  l_shakes : shakes c;
  l_sends : sends requests c s;
  l_heard : frames_of MAX_FRAME_SIZE all = (done ++ (left c).1, (left c).2);
  l_stage : stage (handshake c) = Nat.min 2 (length done)
}.

Lemma live_took requests all done fs c s c' s' :
  live requests all done c s -> took requests fs c s c' s' -> live requests all (done ++ fs) c' s'.
Proof.
  intros [H1 H2 H3 H4 H5] [B1 B2 B3 B4 B5 B6 B7]. constructor; try done.
  - rewrite H4, B6. cbn. by rewrite app_assoc.
  - rewrite B7, H5, length_app. lia.
Qed.

Lemma live_heard requests all done c s c' s' bytes :
  live requests all done c s -> rx_ok c' -> shakes c' -> sends requests c' s' -> received c' = received c ++ bytes ->
  handshake c' = handshake c -> live requests (all ++ bytes) done c' s'.
Proof.
  intros [H1 H2 H3 H4 H5] R1 R2 R3 R4 R5. constructor; try done; [|by rewrite R5].
  rewrite frames_of_app, H4. unfold left in *. rewrite R4, (frames_of_app _ (received c)). cbn [fst snd].
  destruct (frames_of MAX_FRAME_SIZE (received c)) as [fs [rest|e]]; cbn [fst snd]; [by rewrite app_assoc|done].
Qed.

Lemma live_wait requests all done c s d o : live requests all done c s -> live requests all done (with_wait c d o) s.
Proof. intros [H1 H2 H3 H4 H5]. constructor; try done. by apply sends_wait. Qed.

Lemma live_flush requests all done c s c' s' :
  live requests all done c s -> flush c s = (Ok tt, c', s') ->
  live requests all done c' s' /\ got s' = got s /\ outstanding c' = outstanding c.
Proof.
  intros [H1 H2 H3 H4 H5] Hf. destruct (polled_flush_spec _ _ _ _ _ H3 Hf) as (F1 & F2 & F3 & F4 & F5 & F6 & F7 & F8 & F9).
  destruct (same_rx_ok _ _ F3 H1) as [R1 R2]. split; [|done]. constructor; try done.
  - destruct H2 as (S1 & S2 & S3). unfold shakes. by rewrite F4, F7, F8, F6.
  - unfold left. by rewrite R2.
  - by rewrite F4.
Qed.

Lemma make_room_live requests all done c s wanted :
  live requests all done c s -> let c' := make_room c wanted in
  live requests all done c' s /\ (wanted <= length (rx c') - rx_tail c')%nat /\ outstanding c' = outstanding c /\ handshake c' = handshake c.
Proof.
  intros Hl. pose proof Hl as [H1 H2 H3 H4 H5]. destruct (make_room_spec c wanted H1) as (M1 & M2 & M3 & M4). cbn zeta in *.
  assert (Hsame : live requests (all ++ []) done (make_room c wanted) s).
  { eapply live_heard; [exact Hl|done| | |by rewrite app_nil_r|by rewrite M4]; rewrite M4; [done|by apply sends_rx]. }
  rewrite app_nil_r in Hsame. split; [done|]. split; [done|]. by rewrite M4.
Qed.

Lemma put_live requests all done c s bytes : live requests all done c s -> (length bytes <= length (rx c) - rx_tail c)%nat ->
  live requests (all ++ bytes) done (put c bytes) s.
Proof.
  intros Hl Hb. destruct (put_spec c bytes (l_rx _ _ _ _ _ Hl) Hb) as [P1 P2].
  eapply live_heard; [exact Hl|done|apply Hl|apply sends_rx, Hl|done|done].
Qed.

Lemma scan_all_spec requests all done c s r c' s' :
  live requests all done c s -> scan_all c s = (Ok r, c', s') ->
  exists fs, live requests all (done ++ fs) c' s' /\ got s' = got s /\ outstanding c' = outstanding c /\
    answers_from (2 - length done) fs = option_list r /\ (r = None -> (left c').1 = []).
Proof.
  intros Hl Hs. unfold scan_all in Hs. pose proof Hl as [H1 H2 H3 H4 H5].
  destruct (scan_spec requests (S (rx_tail c - rx_head c)) c s r c' s' H1 H2 H3 ltac:(lia) Hs) as (fs & Ht & Hr).
  exists fs. split; [by eapply live_took|]. split; [apply Ht|]. split; [apply Ht|].
  replace (2 - length done)%nat with (2 - stage (handshake c))%nat by lia. destruct r; [by split|]. by destruct Hr.
Qed.

Lemma receive_live requests all done c s n c' s' :
  live requests all done c s -> receive c s = (Ok n, c', s') ->
  exists bytes, live requests (all ++ bytes) done c' s' /\ got s' = got s ++ bytes /\ n = length bytes /\ outstanding c' = outstanding c.
Proof.
  intros Hl Hr. unfold receive in Hr. destruct (make_room_live _ _ _ _ _ MAX_WIRE_FRAME Hl) as (M1 & _ & M3 & _). cbn zeta in *.
  set (c1 := make_room c MAX_WIRE_FRAME) in *. destruct (recv s (length (rx c1) - rx_tail c1)) as [[bytes|e] s1] eqn:Hv; [|by destruct e].
  destruct (recv_gives _ _ _ _ Hv) as (V1 & V2 & V3). injection Hr as <- <- <-. exists bytes. split; [|done].
  apply put_live; [|done]. destruct M1 as [A1 A2 [B1 B2 B3] A4 A5]. constructor; try done. constructor; try done. by rewrite V2.
Qed.

Lemma poll_found_spec requests all done c s now waiting r c' s' :
  live requests all done c s -> poll_found c s now waiting = (Ok r, c', s') ->
  exists bytes fs, live requests (all ++ bytes) (done ++ fs) c' s' /\ got s' = got s ++ bytes /\
    outstanding c' = outstanding c /\ answers_from (2 - length done) fs = option_list r /\ (r = None -> (left c').1 = []).
Proof.
  intros Hl Hp. unfold poll_found in Hp. destruct (flush c s) as [[[[]|e] c0] s0] eqn:Hf; [|done].
  destruct (live_flush _ _ _ _ _ _ _ Hl Hf) as (L0 & G0 & O0).
  destruct (scan_all c0 s0) as [[[r1|e] c1] s1] eqn:Hs1; [|done].
  destruct (scan_all_spec _ _ _ _ _ _ _ _ L0 Hs1) as (fs1 & L1 & G1 & O1 & A1 & N1).
  destruct r1 as [p|].
  { injection Hp as <- <- <-. exists [], fs1. rewrite !app_nil_r. split; [done|]. split; [congruence|]. split; [congruence|done]. }
  destruct (receive c1 s1) as [[[n|e] c2] s2] eqn:Hv; [|done].
  destruct (receive_live _ _ _ _ _ _ _ _ L1 Hv) as (bytes & L2 & G2 & Hn & O2).
  assert (Hquiet : forall fs c3 s3, live requests (all ++ bytes) (done ++ fs) c3 s3 -> got s3 = got s2 -> outstanding c3 = outstanding c2 ->
    answers_from (2 - length done) fs = [] -> (left c3).1 = [] ->
    match nothing_yet c3 now waiting with (Ok _, c) => (Ok None, c, s3) | (Err e, c) => (Err e, c, s3) end = (Ok r, c', s') ->
    exists bytes fs, live requests (all ++ bytes) (done ++ fs) c' s' /\ got s' = got s ++ bytes /\
      outstanding c' = outstanding c /\ answers_from (2 - length done) fs = option_list r /\ (r = None -> (left c').1 = [])).
  { intros fs c3 s3 L3 G3 O3 A3 N3 Hq. assert (Hc : exists d, (nothing_yet c3 now waiting).2 = with_wait c3 d (outstanding c3)).
    { unfold nothing_yet. destruct (negb _); [exists (deadline_ns c3); by destruct c3|].
      destruct (deadline_ns c3) as [d|] eqn:Hd; [destruct (d <=? now); exists (deadline_ns c3); by destruct c3|by eexists]. }
    destruct Hc as [d Hc]. destruct (nothing_yet c3 now waiting) as [[?|?] c4]; [|done]. cbn in Hc. subst c4. injection Hq as <- <- <-.
    exists bytes, fs. split; [by apply live_wait|]. split; [congruence|]. split; [cbn; congruence|]. done. }
  destruct n as [|n].
  { destruct bytes; [|done]. eapply (Hquiet fs1); try done. pose proof (l_heard _ _ _ _ _ L1) as E1. pose proof (l_heard _ _ _ _ _ L2) as E2.
    rewrite app_nil_r, E1 in E2. injection E2 as E2 _. apply app_inv_head in E2. rewrite <- E2. by apply N1. }
  destruct (scan_all c2 s2) as [[[r3|e] c3] s3] eqn:Hs3; [|done].
  destruct (scan_all_spec _ _ _ _ _ _ _ _ L2 Hs3) as (fs3 & L3 & G3 & O3 & A3 & N3). rewrite <- app_assoc in L3.
  assert (Hans : answers_from (2 - length done) (fs1 ++ fs3) = option_list r3).
  { rewrite answers_from_app, A1. cbn. rewrite <- A3, length_app. f_equal. lia. }
  destruct r3 as [p|]; [|exact (Hquiet (fs1 ++ fs3) c3 s3 L3 G3 O3 Hans (N3 eq_refl) Hp)].
  injection Hp as <- <- <-. exists bytes, (fs1 ++ fs3). split; [done|]. split; [congruence|]. split; [congruence|done].
Qed.

(** *** Sending a request *)

Lemma frame_copy id body buf :
  (REQUEST_HEADER_LEN + length body <= length buf)%nat -> Z.of_nat (length body) <= MAX_REQUEST_BODY ->
  exists buf', frame_request RequestError (copy_body body) buf id = (buf', Ok (REQUEST_HEADER_LEN + length body)%nat) /\
    length buf' = length buf /\ take (REQUEST_HEADER_LEN + length body) buf' = request_frame id body.
Proof.
  intros Hfit Hmax. unfold frame_request, request_body. rewrite (proj2 (Nat.leb_le _ _)) by lia.
  set (region := Nat.min (length buf - REQUEST_HEADER_LEN) (Z.to_nat MAX_REQUEST_BODY)).
  assert (Hreg : (length body <= region)%nat) by lia. set (lent := take region (drop REQUEST_HEADER_LEN buf)).
  assert (Hlent : length lent = region) by (subst lent; rewrite length_take, length_drop; lia).
  unfold copy_body. rewrite (proj2 (Nat.leb_le _ _)) by lia.
  set (buf1 := take REQUEST_HEADER_LEN buf ++ (body ++ drop (length body) lent) ++ drop (REQUEST_HEADER_LEN + region) buf).
  assert (Hl1 : length buf1 = length buf).
  { subst buf1. rewrite !length_app, length_take, !length_drop, Hlent. lia. }
  assert (Hd1 : drop REQUEST_HEADER_LEN buf1 = body ++ drop (length body) lent ++ drop (REQUEST_HEADER_LEN + region) buf).
  { subst buf1. rewrite drop_app_length' by (rewrite length_take; lia). by rewrite <- app_assoc. }
  unfold seal_request, request_payload_len. unfold MAX_REQUEST_BODY in Hmax.
  assert (Hsat : sat_add (Z.of_nat REQUEST_TAG_AND_ID_LEN) (Z.of_nat (length body)) = Z.of_nat (REQUEST_TAG_AND_ID_LEN + length body)).
  { unfold sat_add, MAX_FRAME_SIZE in *. widths. lia. }
  rewrite Hsat. rewrite (proj2 (Z.ltb_ge _ _)) by lia. cbn [rbind].
  rewrite (proj2 (Z.leb_le _ _)) by lia. rewrite <- Nat2Z.inj_add, Nat2Z.id.
  eexists. split; [done|]. rewrite Hd1. split.
  - rewrite !length_app, !length_drop, le_length, Hlent. unfold request_tag_and_id. cbn [length]. rewrite le_length.
    unfold REQUEST_HEADER_LEN, REQUEST_TAG_AND_ID_LEN, PREFIX_LEN, TAG_LEN, REQUEST_ID_LEN in *. lia.
  - unfold request_frame. rewrite Z.mod_small by (unfold MAX_FRAME_SIZE in *; lia).
    set (hd := le 4 _). set (tg := request_tag_and_id id). set (rest := drop (length body) lent ++ _).
    assert (Hh : length (hd ++ tg ++ body) = (REQUEST_HEADER_LEN + length body)%nat).
    { subst hd tg. rewrite !length_app, le_length. unfold request_tag_and_id. cbn [length]. by rewrite le_length. }
    replace (hd ++ tg ++ body ++ rest) with ((hd ++ tg ++ body) ++ rest) by (by rewrite <- !app_assoc).
    by apply take_app_length'.
Qed.

Definition honest (c : PolledConnection) : Prop :=
  is_ready c = true -> challenge_response_sent c = challenge_response_len c.

Lemma flush_honest requests c s c' s' : sends requests c s -> honest c -> flush c s = (Ok tt, c', s') -> honest c'.
Proof.
  intros Hs Hh Hf. destruct (polled_flush_spec _ _ _ _ _ Hs Hf) as (F1 & _ & _ & F4 & _ & _ & _ & F8 & F9).
  unfold honest, is_ready in *. rewrite F4. intros Hr. specialize (Hh Hr). pose proof (s_cursor _ _ _ F1). lia.
Qed.

(** A request is framed whole behind the others, on the stream or in the
    scratch buffer. *)
Lemma append_request requests all done c s frame d o :
  live requests all done c s -> let c0 := if (0 <? tx_head c)%nat then with_tx c (drop (tx_head c) (tx c)) 0 else c in
  live (requests ++ frame) all done (with_wait (with_tx c0 (tx c0 ++ frame) (tx_head c0)) d o) s /\ challenge_response_sent c0 = challenge_response_sent c /\
  challenge_response_len c0 = challenge_response_len c /\ is_ready c0 = is_ready c.
Proof.
  intros [H1 H2 [S1 S2 (w & W1 & W2 & W3)] H4 H5]. cbn zeta. destruct (0 <? tx_head c)%nat eqn:Hz; (split; [|done]);
    (constructor; try done; constructor; cbn; [done| |]).
  - lia.
  - exists w. split; [done|]. split; [|done]. rewrite drop_0, app_assoc. by rewrite W2.
  - rewrite length_app. lia.
  - apply Nat.ltb_ge in Hz. exists w. split; [done|]. split; [|done]. replace (tx_head c) with 0%nat in * by lia.
    rewrite drop_0 in *. by rewrite app_assoc, W2.
Qed.

Lemma send_body_spec requests all done c s now body id c' s' :
  live requests all done c s -> honest c -> send_body c s now body = (Ok id, c', s') ->
  live (requests ++ request_frame id body) all done c' s' /\ honest c' /\ got s' = got s /\
  (id, outstanding c') = Outstanding.sent (outstanding c).
Proof.
  intros Hl Hh Hs. unfold send_body in Hs.
  destruct (request_payload_len (Z.of_nat (length body))) as [plen|] eqn:Hp; [|done].
  assert (Hmax : Z.of_nat (length body) <= MAX_REQUEST_BODY).
  { unfold request_payload_len in Hp. destruct (MAX_FRAME_SIZE <? _) eqn:Hlt; [done|]. zb. unfold MAX_REQUEST_BODY.
    unfold sat_add, MAX_FRAME_SIZE in *. widths. lia. }
  unfold send_with in Hs. rewrite Z.min_l, Nat2Z.id in Hs by done. set (needed := (REQUEST_HEADER_LEN + length body)%nat) in Hs.
  destruct (flush c s) as [[[[]|e] c1] s1] eqn:Hf; [|done].
  destruct (live_flush _ _ _ _ _ _ _ Hl Hf) as (L1 & G1 & O1). pose proof (flush_honest _ _ _ _ _ (l_sends _ _ _ _ _ Hl) Hh Hf) as Hh1.
  change (next_id (outstanding c)) with (Outstanding.sent (outstanding c)).1 in Hs. rewrite <- O1 in Hs |- *.
  set (nid := (Outstanding.sent (outstanding c1)).1) in *.
  assert (Hscratch : forall s2, live requests all done c1 s2 -> got s2 = got s1 ->
    match frame_in_scratch (copy_body body) c1 needed nid with
    | (Err e, c) => (Err e, c, s2)
    | (Ok _, c) =>
      let '(id, c) := request_sent c now in
      let '(r, c, s) := flush c s2 in match r with Err e => (Err e, c, s) | Ok _ => (Ok id, c, s) end
    end = (Ok id, c', s') ->
    live (requests ++ request_frame id body) all done c' s' /\ honest c' /\ got s' = got s /\
    (id, outstanding c') = Outstanding.sent (outstanding c1)).
  { intros s2 L2 G2 Hsc. unfold frame_in_scratch in Hsc.
    destruct (frame_copy nid body (replicate needed 0)) as (buf & Hfr & _ & Htk); [by rewrite length_replicate|done|].
    rewrite Hfr in Hsc. rewrite Htk in Hsc. unfold request_sent in Hsc.
    set (c0 := if (0 <? tx_head c1)%nat then _ else c1) in Hsc.
    assert (Ho0 : outstanding c0 = outstanding c1) by (unfold c0; by destruct (0 <? tx_head c1)%nat).
    cbn [with_tx outstanding] in Hsc. rewrite Ho0 in Hsc.
    destruct (Outstanding.sent (outstanding c1)) as [id0 o0] eqn:Hsent. change nid with id0 in *.
    set (c2 := with_wait _ _ o0) in Hsc.
    destruct (append_request requests all done c1 s2 (request_frame id0 body)
      (match deadline_ns (with_tx c0 (tx c0 ++ request_frame id0 body) (tx_head c0)) with
       | None => Some (sat_add now (read_timeout_ns (with_tx c0 (tx c0 ++ request_frame id0 body) (tx_head c0)))) | d => d end) o0 L2) as (A1 & A2 & A3 & A4).
    cbn zeta in A1, A2, A3, A4. fold c0 in A1, A2, A3, A4. fold c2 in A1.
    destruct (flush c2 s2) as [[[[]|e] c3] s3] eqn:Hf2; [|done]. injection Hsc as <- <- <-.
    assert (Hh2 : honest c2) by (unfold honest; cbn; intros Hr; rewrite A2, A3; apply Hh1; by rewrite <- A4).
    destruct (live_flush _ _ _ _ _ _ _ A1 Hf2) as (L3 & G3 & O3). split; [done|].
    split; [by eapply flush_honest; [apply A1| |]|]. split; [congruence|]. by rewrite O3. }
  destruct (is_ready c1 && (tx_head c1 =? length (tx c1))%nat) eqn:Hready; [|by apply (Hscratch s1)].
  apply andb_true_iff in Hready as [Hr Hempty]. apply Nat.eqb_eq in Hempty.
  assert (Hmove : forall s2, wire s2 = wire s1 -> live requests all done c1 s2).
  { intros s2 Hw. destruct L1 as [A1 A2 [B1 B2 B3] A4 A5]. constructor; try done. constructor; try done. by rewrite Hw. }
  unfold frame_in_place in Hs. destruct (lend s1) as [region|] eqn:Hlend; [|by apply (Hscratch s1)].
  destruct (length region <? needed)%nat eqn:Hshort.
  { destruct (queue s1 region 0) as [[q|e] s2] eqn:Hq; [|done].
    destruct (queue_takes s1 region region 0 q s2 Hlend eq_refl ltac:(lia) Hq) as (Q1 & Q2 & Q3).
    apply (Hscratch s2); [|done|done]. apply Hmove. assert (q = 0%nat) as -> by lia. by rewrite Q2, take_0, app_nil_r. }
  apply Nat.ltb_ge in Hshort. destruct (frame_copy nid body region) as (buf & Hfr & Hlen & Htk); [done|done|]. rewrite Hfr in Hs.
  fold needed in Htk, Hs. destruct (queue s1 buf needed) as [[q|e] s2] eqn:Hq; [|done].
  destruct (queue_takes s1 region buf needed q s2 Hlend Hlen ltac:(lia) Hq) as (Q1 & Q2 & Q3).
  destruct (q =? needed)%nat eqn:Hqn; [|done]. apply Nat.eqb_eq in Hqn. subst q. rewrite Htk in Q2.
  unfold request_sent in Hs. destruct (Outstanding.sent (outstanding c1)) as [id0 o0] eqn:Hsent. injection Hs as <- <- <-.
  change nid with id0 in *. split; [|split; [done|split; [congruence|done]]]. apply live_wait.
  destruct L1 as [A1 A2 [B1 B2 (w & W1 & W2 & W3)] A4 A5]. constructor; try done. constructor; try done.
  rewrite Hempty, drop_all, app_nil_r in W2. subst w. exists (requests ++ request_frame id0 body).
  split; [by rewrite Q2, W1, <- app_assoc|]. split; [rewrite Hempty, drop_all; apply app_nil_r|]. intros _. split; [by apply Hh1|done].
Qed.
End facts.
End PolledFacts.

(** ** Sessions *)

Module Session.
Import Answers Outstanding Handshake Polled PolledFacts.

Inductive event := Polled (f : option Frame) | Sent (id : Z) (body : list Z).

Section session.
Context {T : Type} `{ByteStreamLaws T}.
Context (key : SigningKey) (timeout : Z).

(** A caller's session with the node, call by call, up to an error: what it
    saw, every byte received, the connection and the stream. The node says it
    is ready only once it has the whole answer to its challenge; between
    calls bytes arrive at the stream and leave it. *)
Inductive session : list event -> list Z -> PolledConnection -> T -> Prop :=
| session_start s : wire s = [] -> got s = [] -> session [] [] (with_timeout key timeout) s
| session_poll evs all c s now f c' s' :
    session evs all c s -> poll c s now = (Ok f, c', s') -> honest c' ->
    session (evs ++ [Polled f]) (all ++ drop (length (got s)) (got s')) c' s'
| session_send evs all c s now body id c' s' :
    session evs all c s -> send_body c s now body = (Ok id, c', s') -> session (evs ++ [Sent id body]) all c' s'
| session_feed evs all c s bytes :
    session evs all c s -> session evs (all ++ bytes) (feed_bytes c bytes) s
| session_flush evs all c s c' s' :
    session evs all c s -> flush c s = (Ok tt, c', s') -> session evs all c' s'
| session_service evs all c s now : session evs all c s -> session evs all c (service s now)
| session_world evs all c s s' : session evs all c s -> wire s' = wire s -> got s' = got s -> session evs all c s'.

Definition frames_seen (evs : list event) : list Frame :=
  flat_map (fun e => match e with Polled (Some f) => [f] | _ => [] end) evs.
Definition requests_made (evs : list event) : list (Z * list Z) :=
  flat_map (fun e => match e with Sent id body => [(id, body)] | _ => [] end) evs.
Definition request_bytes (evs : list event) : list Z := flat_map (fun x => request_frame x.1 x.2) (requests_made evs).

(** The connection numbers its requests from 1. *)
Definition numbered (made : list (Z * list Z)) : Prop :=
  forall i id body, made !! i = Some (id, body) -> id = (1 + Z.of_nat i) mod 2 ^ 64.

Record held (evs : list event) (all : list Z) (c : PolledConnection) (s : T) (done : list (list Z)) : Prop := {
  e_live : live key (request_bytes evs) all done c s;
  e_honest : honest c;
  e_frames : Forall2 (fun p f => classify_answer p = Ok f) (answers_from 2 done) (frames_seen evs);
  e_next : next (outstanding c) = (1 + Z.of_nat (length (requests_made evs))) mod 2 ^ 64;
  e_ids : numbered (requests_made evs)
}.

Context (key_sizes : key_ok key).

Lemma start_held s : wire s = [] -> got s = [] -> held [] [] (with_timeout key timeout) s [].
Proof.
  intros Hw Hg. constructor; try done. constructor; try done.
  - unfold rx_ok. cbn [with_timeout rx rx_head rx_tail]. rewrite length_replicate. lia.
  - constructor; [split; [done|apply Nat.le_0_l]|done|]. exists []. by rewrite Hw.
Qed.

Lemma requests_snoc evs e : requests_made (evs ++ [e]) = requests_made evs ++ match e with Sent id body => [(id, body)] | _ => [] end.
Proof. unfold requests_made. rewrite flat_map_app. cbn. by rewrite app_nil_r. Qed.
Lemma frames_snoc evs e : frames_seen (evs ++ [e]) = frames_seen evs ++ match e with Polled (Some f) => [f] | _ => [] end.
Proof. unfold frames_seen. rewrite flat_map_app. cbn. by rewrite app_nil_r. Qed.

Lemma observe_next o f : next (observe o f).2 = next o.
Proof.
  unfold observe, early, settle. destruct f; repeat case_match; try done.
Qed.

Lemma poll_held evs all c s done now f c' s' :
  held evs all c s done -> poll c s now = (Ok f, c', s') -> honest c' ->
  exists fs, held (evs ++ [Polled f]) (all ++ drop (length (got s)) (got s')) c' s' (done ++ fs) /\
    (f = None -> (left c').1 = []).
Proof using key_sizes.
  intros [L Ho Hfr Hn Hid] Hp Hh. unfold poll in Hp.
  destruct (poll_found c s now false) as [[[[p|]|e] c1] s1] eqn:Hf; [| |done];
    destruct (poll_found_spec key key_sizes _ _ _ _ _ _ _ _ _ _ L Hf) as (bytes & fs & L1 & G1 & O1 & A1 & N1).
  - unfold answer in Hp. destruct (classify_answer p) as [fr|e] eqn:Hc; [|done].
    pose proof (observe_next (outstanding c1) fr) as Hnext.
    destruct (observe (outstanding c1) fr) as [[[]|e] o]; [|done]. cbn [rbind] in Hp. injection Hp as <- <- <-.
    exists fs. rewrite G1, drop_app_length. split; [|done]. constructor; try done.
    + unfold request_bytes. rewrite requests_snoc, app_nil_r. by apply live_wait.
    + rewrite frames_snoc, answers_from_app, A1. apply Forall2_app; [done|]. by repeat constructor.
    + rewrite requests_snoc, app_nil_r. cbn in *. congruence.
    + by rewrite requests_snoc, app_nil_r.
  - injection Hp as <- <- <-. exists fs. rewrite G1, drop_app_length. split; [|intros _; by apply N1]. constructor; try done.
    + unfold request_bytes. by rewrite requests_snoc, app_nil_r.
    + rewrite frames_snoc, answers_from_app, A1. cbn [option_list]. by rewrite !app_nil_r.
    + rewrite requests_snoc, app_nil_r. congruence.
    + by rewrite requests_snoc, app_nil_r.
Qed.

Lemma session_held evs all c s : session evs all c s -> exists done, held evs all c s done.
Proof using key_sizes.
  induction 1 as [s Hw Hg|evs all c s now f c' s' _ [done IH] Hp Hh|evs all c s now body id c' s' _ [done IH] Hs
                 |evs all c s bytes _ [done IH]|evs all c s c' s' _ [done IH] Hf|evs all c s now _ [done IH]|evs all c s s' _ [done IH] Hw Hg].
  - exists []. by apply start_held.
  - destruct (poll_held _ _ _ _ _ _ _ _ _ IH Hp Hh) as (fs & IH' & _). by eexists.
  - destruct IH as [L Ho Hfr Hn Hid]. exists done.
    destruct (send_body_spec key _ _ _ _ _ _ _ _ _ _ L Ho Hs) as (L1 & H1 & _ & Hsent).
    unfold Outstanding.sent in Hsent. injection Hsent as Hid' Hout. constructor; try done.
    + unfold request_bytes in *. rewrite requests_snoc, flat_map_app. cbn. by rewrite app_nil_r.
    + by rewrite frames_snoc, app_nil_r.
    + rewrite Hout, requests_snoc, length_app. cbn [next length]. rewrite Hn. unfold wrapping_add. rewrite Zplus_mod_idemp_l. f_equal. lia.
    + rewrite requests_snoc. intros i x b Hi. apply lookup_app_Some in Hi as [Hi|[Hle Hi]]; [by eapply Hid|].
      destruct (i - length (requests_made evs))%nat as [|k] eqn:Hk; [|done]. injection Hi as <- <-.
      rewrite Hid', Hn. f_equal. lia.
  - destruct IH as [L Ho Hfr Hn Hid]. exists done. unfold feed_bytes.
    destruct (make_room_live key _ _ _ _ _ (length bytes) L) as (M1 & M2 & M3 & M4). cbn zeta in *.
    pose proof (put_live key _ _ _ _ _ bytes M1 M2) as P1. constructor; try done.
    + pose proof (make_room_spec c (length bytes) (l_rx _ _ _ _ _ _ L)) as (_ & _ & _ & Hm). cbn zeta in Hm.
      unfold honest, is_ready, put in *. cbn. by rewrite Hm.
    + cbn. by rewrite M3.
  - destruct IH as [L Ho Hfr Hn Hid]. exists done. destruct (live_flush key _ _ _ _ _ _ _ L Hf) as (L1 & _ & O1).
    constructor; try done; [by eapply flush_honest; [apply L| |]|]. by rewrite O1.
  - destruct IH as [L Ho Hfr Hn Hid]. exists done. constructor; try done. destruct L as [A1 A2 [B1 B2 B3] A4 A5].
    constructor; try done. constructor; try done. by rewrite (proj1 (service_quiet s now)).
  - destruct IH as [L Ho Hfr Hn Hid]. exists done. constructor; try done. destruct L as [A1 A2 [B1 B2 B3] A4 A5].
    constructor; try done. constructor; try done. by rewrite Hw.
Qed.

(** C22: The polled connection hears the node's stream exactly. However the
    bytes arrive (whatever the stream's receives return, whatever the caller
    feeds in, wherever they are cut) and whatever calls come between, the
    frames its polls have returned are, in order and each once, the answers
    among the frames of every byte received so far: the two frames of the
    handshake and the heartbeats taken out, each classified; and when a poll
    returns none, no answer that has arrived whole is missing. *)
Theorem polled_hears_stream evs all c s :
  session evs all c s ->
  (exists taken rest t, frames_of MAX_FRAME_SIZE all = (taken ++ rest, t) /\
    Forall2 (fun p f => classify_answer p = Ok f) (answers_from 2 taken) (frames_seen evs)) /\
  forall now c' s', poll c s now = (Ok None, c', s') -> honest c' ->
    Forall2 (fun p f => classify_answer p = Ok f)
      (answers_from 2 (frames_of MAX_FRAME_SIZE (all ++ drop (length (got s)) (got s'))).1) (frames_seen evs).
Proof using key_sizes.
  intros Hs. destruct (session_held _ _ _ _ Hs) as [done Hheld]. split.
  - exists done, (left c).1, (left c).2. split; [apply (l_heard _ _ _ _ _ _ (e_live _ _ _ _ _ Hheld))|apply Hheld].
  - intros now c' s' Hp Hh. destruct (poll_held _ _ _ _ _ _ _ _ _ Hheld Hp Hh) as (fs & Hheld' & Hq).
    rewrite (l_heard _ _ _ _ _ _ (e_live _ _ _ _ _ Hheld')), (Hq eq_refl), app_nil_r. cbn [fst].
    pose proof (e_frames _ _ _ _ _ Hheld') as Hfr. by rewrite frames_snoc, app_nil_r in Hfr.
Qed.

(** C23: The polled connection's bytes leave in order. What the stream has
    taken is a prefix of the answer to the node's challenge followed by one
    frame per request, numbered from 1 in the order they were sent, whichever
    of them were framed in the room the stream lent and whichever in the
    scratch buffer; what is not a prefix yet is what [unsent] counts; and no
    byte of a request goes out before the node has said it is ready. *)
Theorem polled_sends_in_order evs all c s :
  session evs all c s ->
  exists answer later, (answer = [] \/ exists nonce, answer = response_frame key nonce) /\
    wire s ++ later = answer ++ request_bytes evs /\ length later = unsent c /\ numbered (requests_made evs) /\
    (is_ready c = false -> wire s `prefix_of` answer).
Proof using key_sizes.
  intros Hs. destruct (session_held _ _ _ _ Hs) as [done [L Ho Hfr Hn Hid]].
  destruct L as [_ (_ & Hcl & Hst) [Hcur Hhead (w & W1 & W2 & W3)] _ _].
  set (r := response c) in *. set (k := challenge_response_sent c) in *.
  exists r, (drop k r ++ drop (tx_head c) (tx c)).
  assert (Hlen : length r = challenge_response_len c) by (unfold r, response; rewrite length_take; lia).
  split; [|split; [|split; [|split; [done|]]]].
  - destruct (h_state (handshake c)); [left|right..]; [|by destruct Hst as [_ ?]..].
    destruct Hst as [_ Hz]. unfold r, response. by rewrite Hz, take_0.
  - rewrite W1, <- W2. destruct w as [|x w].
    + rewrite app_nil_r. cbn [app]. by rewrite app_assoc, take_drop.
    + destruct W3 as [Hk _]; [done|]. rewrite (take_ge r k) by lia. rewrite (drop_ge r k) by lia. cbn [app]. by rewrite <- !app_assoc.
  - rewrite length_app, !length_drop, Hlen. done.
  - intros Hr. rewrite W1. destruct w as [|x w]; [rewrite app_nil_r; apply prefix_take|]. destruct W3 as [_ W3]; [done|congruence].
Qed.
End session.
End Session.

(** ** A stream in memory *)

Module Buffered.
Import Answers Polled.

(** [BufferStream]: what the caller's own I/O loop moves. [accepted]
    and [handed] are its history: the bytes taken by sends, the bytes
    received. *)
Record BufferStream := {
  b_received : list Z;
  received_head : nat;
  b_sent : list Z;
  sent_head : nat;
  send_capacity : option nat;
  closed : bool;
  accepted : list Z;
  handed : list Z
}.

Definition new : BufferStream :=
  {| b_received := []; received_head := 0; b_sent := []; sent_head := 0; send_capacity := None; closed := false; accepted := []; handed := [] |}.

Definition push_received (b : BufferStream) (bytes : list Z) : BufferStream :=
  let empty := (received_head b =? length (b_received b))%nat in
  {| b_received := (if empty then [] else b_received b) ++ bytes; received_head := if empty then 0%nat else received_head b;
     b_sent := b_sent b; sent_head := sent_head b; send_capacity := send_capacity b; closed := closed b; accepted := accepted b; handed := handed b |}.

Definition close (b : BufferStream) : BufferStream :=
  {| b_received := b_received b; received_head := received_head b; b_sent := b_sent b; sent_head := sent_head b;
     send_capacity := send_capacity b; closed := true; accepted := accepted b; handed := handed b |}.

Definition unreceived (b : BufferStream) : nat := length (b_received b) - received_head b.
Definition sent (b : BufferStream) : list Z := drop (sent_head b) (b_sent b).

(** [None] where the assertion fails. *)
Definition consume_sent (b : BufferStream) (n : nat) : option BufferStream :=
  if (n <=? length (b_sent b) - sent_head b)%nat then
    let head := (sent_head b + n)%nat in
    let empty := (head =? length (b_sent b))%nat in
    Some {| b_received := b_received b; received_head := received_head b; b_sent := if empty then [] else b_sent b;
            sent_head := if empty then 0%nat else head; send_capacity := send_capacity b; closed := closed b;
            accepted := accepted b; handed := handed b |}
  else None.

Definition set_send_capacity (b : BufferStream) (capacity : option nat) : BufferStream :=
  {| b_received := b_received b; received_head := received_head b; b_sent := b_sent b; sent_head := sent_head b;
     send_capacity := capacity; closed := closed b; accepted := accepted b; handed := handed b |}.

(** [None] is no limit. *)
Definition send_room (b : BufferStream) : option nat :=
  match send_capacity b with Some capacity => Some (capacity - (length (b_sent b) - sent_head b))%nat | None => None end.

Definition send (b : BufferStream) (data : list Z) : result nat IoError * BufferStream :=
  let n := match send_room b with Some room => Nat.min (length data) room | None => length data end in
  let reset := (0 <? sent_head b)%nat && (sent_head b =? length (b_sent b))%nat in
  (Ok n,
   {| b_received := b_received b; received_head := received_head b;
      b_sent := (if reset then [] else b_sent b) ++ take n data; sent_head := if reset then 0%nat else sent_head b;
      send_capacity := send_capacity b; closed := closed b; accepted := accepted b ++ take n data; handed := handed b |}).

Definition recv (b : BufferStream) (room : nat) : result (list Z) IoError * BufferStream :=
  match drop (received_head b) (b_received b) with
  | [] => (if closed b then Err UnexpectedEof else Ok [], b)
  | pending =>
    let n := Nat.min (length pending) room in
    (Ok (take n pending),
     {| b_received := b_received b; received_head := received_head b + n; b_sent := b_sent b; sent_head := sent_head b;
        send_capacity := send_capacity b; closed := closed b; accepted := accepted b; handed := handed b ++ take n pending |})
  end.

#[export] Instance buffer_stream : ByteStream BufferStream :=
  {| Polled.send := send; service := fun b _ => b; Polled.recv := recv; lend := fun _ => None; queue := fun b _ _ => (Ok 0%nat, b) |}.

(** The trait's promises hold of it. *)
#[export] Instance buffer_laws : ByteStreamLaws BufferStream.
Proof.
  refine {| wire := accepted; got := handed |}.
  - intros b data n b' Hs. unfold Polled.send, buffer_stream, send in Hs. injection Hs as <- <-.
    split; [destruct (send_room b); lia|done].
  - done.
  - intros b room bytes b' Hr. unfold Polled.recv, buffer_stream, recv in Hr.
    destruct (drop (received_head b) (b_received b)) as [|x pending].
    { destruct (closed b); [done|]. injection Hr as <- <-. rewrite app_nil_r. split; [cbn; lia|done]. }
    revert Hr. generalize (x :: pending) as l. intros l Hr. injection Hr as <- <-. split; [|done]. rewrite length_take. lia.
  - done.
Defined.

(** What the caller's loop still has to move is the end of what was taken:
    no byte is lost, repeated or reordered, at any capacity. *)
Record intact (b : BufferStream) : Prop := {
  in_head : (sent_head b <= length (b_sent b))%nat;
  in_received : (received_head b <= length (b_received b))%nat;
  in_order : sent b `suffix_of` accepted b
}.

Lemma new_intact : intact new.
Proof. constructor; [done|done|]. by exists []. Qed.

Lemma send_intact b data : intact b -> intact (send b data).2.
Proof.
  intros [H1 H2 [pre H3]]. unfold send. cbn [snd]. set (n := match send_room b with Some _ => _ | None => _ end).
  destruct ((0 <? sent_head b)%nat && (sent_head b =? length (b_sent b))%nat) eqn:Hr; constructor; unfold sent; cbn; try done; try lia.
  - apply andb_true_iff in Hr as [_ Hr]. apply Nat.eqb_eq in Hr. rewrite drop_0. by exists (accepted b).
  - rewrite length_app. lia.
  - rewrite drop_app_le by done. fold (sent b). rewrite H3. exists pre. by rewrite app_assoc.
Qed.

Lemma consume_intact b n b' : intact b -> consume_sent b n = Some b' -> intact b' /\ sent b = take n (sent b) ++ sent b'.
Proof.
  intros [H1 H2 [pre H3]]. unfold consume_sent. destruct (n <=? length (b_sent b) - sent_head b)%nat eqn:Hn; [|done].
  apply Nat.leb_le in Hn. intros [= <-].
  assert (Hs : sent b = take n (sent b) ++ drop (sent_head b + n) (b_sent b)).
  { unfold sent. rewrite <- (take_drop n (drop (sent_head b) (b_sent b))) at 1. f_equal. by rewrite drop_drop. }
  destruct (sent_head b + n =? length (b_sent b))%nat eqn:He; unfold sent in *; cbn.
  - apply Nat.eqb_eq in He. rewrite He, drop_all in Hs. split; [|done]. constructor; cbn; try done.
    unfold sent. cbn. exists (accepted b). by rewrite app_nil_r.
  - split; [|done]. constructor; cbn; [lia|done|]. unfold sent. cbn. rewrite H3, Hs at 1. exists (pre ++ take n (drop (sent_head b) (b_sent b))).
    by rewrite <- app_assoc.
Qed.

Lemma recv_intact b room : intact b -> intact (recv b room).2.
Proof.
  intros [H1 H2 H3]. unfold recv. destruct (drop (received_head b) (b_received b)) as [|x pending] eqn:Hp; [done|].
  constructor; [done| |done]. cbn [snd received_head b_received]. apply (f_equal length) in Hp. rewrite length_drop in Hp. lia.
Qed.
End Buffered.

(** A session over the stream in memory. *)
Module Sample.
Import Answers Outstanding Handshake Polled PolledFacts Session Buffered.

Definition sample_key : SigningKey := {| sign := fun nonce => replicate 64 (hd 0 nonce); verifying_key := replicate 32 9 |}.
Lemma sample_key_ok : key_ok sample_key.
Proof. by split. Qed.

Definition node_frame (r : TransportResponse) : list Z := le 4 (Z.of_nat (TAG_LEN + body_len r)) ++ response_payload r.
Definition polled (x : PolledConnection * BufferStream) : PolledConnection * BufferStream :=
  ((poll x.1 x.2 1).1.2, (poll x.1 x.2 1).2).
Definition arrives (x : PolledConnection * BufferStream) (bytes : list Z) : PolledConnection * BufferStream :=
  (x.1, push_received x.2 bytes).
Definition sends_body (x : PolledConnection * BufferStream) (body : list Z) : PolledConnection * BufferStream :=
  ((send_body x.1 x.2 1 body).1.2, (send_body x.1 x.2 1 body).2).

(** The challenge and half of the verdict; the rest, a heartbeat and a reply. *)
Definition x0 := (with_timeout sample_key 1000, Buffered.new).
Definition ready_frame : list Z := node_frame ServerReady.
Definition x1 := arrives x0 (node_frame (Challenge (replicate 32 5)) ++ take 2 ready_frame).
Definition x2 := polled x1.
Definition x3 := arrives x2 (drop 2 ready_frame).
Definition x4 := polled x3.
Definition x5 := sends_body x4 [1; 2].
Definition x6 := arrives x5 (node_frame Reply.Heartbeat ++ le 4 2 ++ [TAG_APP; 7] ++ node_frame (Reply.BatchEnd 1)).
Definition x7 := polled x6.

Definition sample_events : list event := [Polled None; Polled None; Sent 1 [1; 2]; Polled (Some (Response [7]))].
Definition sample_bytes : list Z := handed x7.2.

Notation on := (session sample_key 1000).
Lemma polled_on evs x f :
  on evs (handed x.2) x.1 x.2 -> (poll x.1 x.2 1).1.1 = Ok f -> honest (polled x).1 ->
  handed (polled x).2 = handed x.2 ++ drop (length (handed x.2)) (handed (polled x).2) ->
  on (evs ++ [Polled f]) (handed (polled x).2) (polled x).1 (polled x).2.
Proof.
  intros Hs Hp Hh ->. apply (session_poll sample_key 1000 evs (handed x.2) x.1 x.2 1 f _ _ Hs); [|done]. unfold polled. cbn [fst snd].
  destruct (poll x.1 x.2 1) as [[r c] s]. cbn in *. by rewrite Hp.
Qed.
Lemma arrives_on evs x bytes : on evs (handed x.2) x.1 x.2 -> on evs (handed (arrives x bytes).2) (arrives x bytes).1 (arrives x bytes).2.
Proof. intros Hs. by apply (session_world sample_key 1000 evs (handed x.2) x.1 x.2). Qed.
Lemma sent_on evs x body id :
  on evs (handed x.2) x.1 x.2 -> (send_body x.1 x.2 1 body).1.1 = Ok id -> handed (sends_body x body).2 = handed x.2 ->
  on (evs ++ [Sent id body]) (handed (sends_body x body).2) (sends_body x body).1 (sends_body x body).2.
Proof.
  intros Hs Hp ->. apply (session_send sample_key 1000 evs (handed x.2) x.1 x.2 1 body id _ _ Hs). unfold sends_body. cbn [fst snd].
  destruct (send_body x.1 x.2 1 body) as [[r c] s]. cbn in *. by rewrite Hp.
Qed.

Lemma sample_session : on sample_events sample_bytes x7.1 x7.2.
Proof.
  assert (H0 : on [] (handed x0.2) x0.1 x0.2) by (by apply session_start).
  assert (H2 : on [Polled None] (handed x2.2) x2.1 x2.2).
  { apply (polled_on [] x1 None); [by apply arrives_on|vm_compute; reflexivity|intros Hr; vm_compute in Hr; discriminate Hr|vm_compute; reflexivity]. }
  assert (H4 : on [Polled None; Polled None] (handed x4.2) x4.1 x4.2).
  { apply (polled_on [Polled None] x3 None); [by apply arrives_on|vm_compute; reflexivity|intros _; vm_compute; reflexivity|vm_compute; reflexivity]. }
  assert (H5 : on [Polled None; Polled None; Sent 1 [1; 2]] (handed x5.2) x5.1 x5.2).
  { apply (sent_on [Polled None; Polled None] x4); [done|vm_compute; reflexivity|vm_compute; reflexivity]. }
  apply (polled_on [Polled None; Polled None; Sent 1 [1; 2]] x6 (Some (Response [7])));
    [by apply arrives_on|vm_compute; reflexivity|intros _; vm_compute; reflexivity|vm_compute; reflexivity].
Qed.

Lemma polled_hears_stream_witness :
  (exists taken rest t, frames_of MAX_FRAME_SIZE sample_bytes = (taken ++ rest, t) /\
    Forall2 (fun p f => classify_answer p = Ok f) (answers_from 2 taken) [Response [7]]) /\
  forall now c' s', poll x7.1 x7.2 now = (Ok None, c', s') -> honest c' ->
    Forall2 (fun p f => classify_answer p = Ok f)
      (answers_from 2 (frames_of MAX_FRAME_SIZE (sample_bytes ++ drop (length (handed x7.2)) (handed s'))).1) [Response [7]].
Proof. apply (polled_hears_stream sample_key 1000 sample_key_ok sample_events sample_bytes x7.1 x7.2 sample_session). Defined.

Lemma polled_sends_in_order_witness :
  exists answer later, (answer = [] \/ exists nonce, answer = response_frame sample_key nonce) /\
    wire x7.2 ++ later = answer ++ request_bytes sample_events /\ length later = unsent x7.1 /\
    numbered (requests_made sample_events) /\ (is_ready x7.1 = false -> wire x7.2 `prefix_of` answer).
Proof. apply (polled_sends_in_order sample_key 1000 sample_key_ok sample_events sample_bytes x7.1 x7.2 sample_session). Defined.
End Sample.
