(* ===== verification/Dialogue.v ===== *)
(** * A client and its node

    The composition of the response stage ([Response]) with the client
    library ([Client]), over the wire format they share ([ClientWire]): what
    the stage's ledger owes a connection, read by the client at the other
    end. [Script] says what the other threads promise of a conversation, on
    the slots, replies and registrations the stage is given, and shows that the
    ledger of any run on such a script is one. *)

From stdpp Require Import gmap.
From S2P Require Import Prelude Cursors Codec Protocol Stages Gate Spsc ClientWire Ingress Egress Response Client.
Import Codec.Le Protocol.Framing ClientWire.Split ClientWire.Request ClientWire.Reply.
Import Ingress.Early Stages.Live Egress.Encoding Egress.Streams Response.Loop Response.Ledger.
Import Client.Answers Client.Outstanding.

(** ** The stream as frames *)

Module Payloads.

(** A payload behind its length. *)
Definition wrap (p : list Z) : list Z := le 4 (Z.of_nat (length p)) ++ p.
Definition wrapped (ps : list (list Z)) : list Z := flat_map wrap ps.
Definition fits (p : list Z) : Prop := Z.of_nat (length p) <= MAX_FRAME_SIZE.

Lemma wrapped_app ps qs : wrapped (ps ++ qs) = wrapped ps ++ wrapped qs.
Proof. apply flat_map_app. Qed.

Lemma wrap_splits p rest : fits p -> split_frame_limited (wrap p ++ rest) MAX_FRAME_SIZE = Ok (Some p) /\ drop (consumed p) (wrap p ++ rest) = rest.
Proof.
  intros Hp. apply (Delivery.frame_splits p rest MAX_FRAME_SIZE). unfold fits, MAX_FRAME_SIZE in *. widths. lia.
Qed.

Lemma frames_wrapped ps : Forall fits ps -> frames_of MAX_FRAME_SIZE (wrapped ps) = (ps, Partial []).
Proof.
  induction 1 as [|p ps Hp _ IH]; [done|]. cbn [wrapped flat_map]. rewrite frames_of_split.
  destruct (wrap_splits p (wrapped ps) Hp) as [H1 H2]. unfold wrapped in *. by rewrite H1, H2, IH.
Qed.

(** The frames of a prefix are a prefix of the frames. *)
Lemma frames_prefix ps bytes : Forall fits ps -> bytes `prefix_of` wrapped ps -> (frames_of MAX_FRAME_SIZE bytes).1 `prefix_of` ps.
Proof.
  intros Hp [more Hm]. pose proof (frames_of_app MAX_FRAME_SIZE bytes more) as Ha. rewrite <- Hm, frames_wrapped in Ha by done.
  destruct (frames_of MAX_FRAME_SIZE bytes) as [fs [rest|e]]; cbn [fst snd] in *; [|done].
  injection Ha as -> _. by apply prefix_app_r.
Qed.

Section payloads.
Context {R Q : Type} {En : ResponseEncoder R Q} {EnL : ResponseEncoderLaws R Q}.

Definition app_payloads (encode : list Z -> list Z * result Z (list Z)) : list (list Z) :=
  match encode (replicate MAX_RESPONSE_BODY 0) with
  | (body, Ok len) => if Z.of_nat MAX_RESPONSE_BODY <? len then [] else [TAG_APP :: take (Z.to_nat len) body]
  | (_, Err _) => []
  end.

Definition payload_list (p : OutputPayload R Q) : list (list Z) :=
  match p with Report r => app_payloads (encode_report r) | QueryResponse q => app_payloads (encode_query q) | _ => [] end.
Definition slot_payloads (slot : OutputSlot R Q) (backing : Gate.Gate.Backing) : list (list Z) :=
  payload_list (payload slot) ++ (if is_last_in_request slot then [response_payload (ends_with backing (o_request_id slot))] else []).
Definition early_payloads (r : EarlyReply R) : list (list Z) :=
  match er_kind r with Rejected report => app_payloads (encode_report report) | _ => [] end ++ [response_payload (early_final r)].

Lemma app_payloads_spec encode : in_place encode ->
  app_frame encode = wrapped (app_payloads encode) /\ Forall fits (app_payloads encode) /\
  Forall (fun p => exists body, p = TAG_APP :: body) (app_payloads encode).
Proof.
  intros Hp. unfold app_frame, app_payloads. pose proof (Hp (replicate MAX_RESPONSE_BODY 0)) as [Hl Hn].
  destruct (encode (replicate MAX_RESPONSE_BODY 0)) as [body [len|]]; [|by split_and!]. cbn [fst snd] in *.
  rewrite length_replicate in Hl. destruct (Z.of_nat MAX_RESPONSE_BODY <? len) eqn:Hm; zb; [by split_and!|]. specialize (Hn len eq_refl).
  assert (Hlen : length (TAG_APP :: take (Z.to_nat len) body) = (1 + Z.to_nat len)%nat) by (cbn [length]; rewrite length_take; lia).
  split_and!.
  - cbn [wrapped flat_map]. unfold wrap. rewrite Hlen, app_nil_r. unfold TAG_LEN. f_equal. f_equal. lia.
  - constructor; [|constructor]. unfold fits. rewrite Hlen. unfold MAX_RESPONSE_BODY, MAX_FRAME_SIZE in *. lia.
  - constructor; [by eexists|constructor].
Qed.

Lemma frame_of_wrap r : response_ok r -> frame_of r = wrap (response_payload r) /\ fits (response_payload r).
Proof.
  intros Hok. destruct (response_payload_len r Hok) as [Hl Hb]. unfold frame_of, wrap, fits. rewrite Hl.
  split; [done|]. unfold TAG_LEN, MAX_FRAME_SIZE. lia.
Qed.

Lemma payload_list_spec (p : OutputPayload R Q) :
  payload_bytes p = wrapped (payload_list p) /\ Forall fits (payload_list p) /\
  Forall (fun p => exists body, p = TAG_APP :: body) (payload_list p).
Proof.
  destruct p; cbn [payload_bytes payload_list]; try (by split_and!); apply app_payloads_spec; [apply report_in_place|apply query_in_place].
Qed.

Lemma slot_payloads_spec slot backing : in_u64 (o_request_id slot) ->
  slot_bytes slot backing = wrapped (slot_payloads slot backing) /\ Forall fits (slot_payloads slot backing).
Proof.
  intros Hid. destruct (payload_list_spec (payload slot)) as (H1 & H2 & _). unfold slot_bytes, slot_payloads. rewrite wrapped_app, H1.
  destruct (is_last_in_request slot); [|by rewrite !app_nil_r].
  destruct (frame_of_wrap (ends_with backing (o_request_id slot))) as [H3 H4]; [by destruct backing|].
  rewrite H3. split; [by cbn; rewrite app_nil_r|]. apply Forall_app. split; [done|]. by constructor.
Qed.

(** What the stage may be handed: IDs and reasons as the wire carries them. *)
Definition early_ok (r : EarlyReply R) : Prop :=
  in_u64 (er_request_id r) /\
  match er_kind r with Ingress.Early.Refused _ reason => from_utf8 reason = true | _ => True end.

Lemma early_final_ok r : early_ok r -> response_ok (early_final r).
Proof. unfold early_ok, early_final. intros [Hid Hk]. by destruct (er_kind r). Qed.

Lemma early_payloads_spec r : early_ok r ->
  early_bytes r = wrapped (early_payloads r) /\ Forall fits (early_payloads r).
Proof.
  intros Hok. destruct (frame_of_wrap _ (early_final_ok r Hok)) as [H3 H4]. unfold early_bytes, early_payloads, early_body.
  rewrite wrapped_app, H3. assert (Hb : forall ps, Forall fits ps -> Forall fits (ps ++ [response_payload (early_final r)])).
  { intros ps Hps. apply Forall_app. split; [done|]. by constructor. }
  destruct (er_kind r) as [report| |k reason|]; try (by split; [cbn; rewrite app_nil_r|apply Hb]).
  destruct (app_payloads_spec (encode_report report) (report_in_place report)) as (H1 & H2 & _). rewrite H1.
  split; [by cbn; rewrite app_nil_r|by apply Hb].
Qed.
End payloads.
End Payloads.

(** ** What the client makes of it *)

Module Reading.

(** The frames of a stream past the handshake, as a connection takes them:
    heartbeats skipped, every other one classified and accounted for. *)
Definition read_one (o : Outstanding) (p : list Z) : result Outstanding Error :=
  if is_heartbeat p then Ok o
  else
    f <-? classify_answer p ;;
    match observe o f with (Ok _, o) => Ok o | (Err e, _) => Err e end.

Fixpoint read_all (o : Outstanding) (ps : list (list Z)) : result Outstanding Error :=
  match ps with [] => Ok o | p :: ps => o <-? read_one o p ;; read_all o ps end.

Lemma read_all_app o ps qs : read_all o (ps ++ qs) = (o <-? read_all o ps ;; read_all o qs).
Proof. revert o. induction ps as [|p ps IH]; intros o; [done|]. cbn. destruct (read_one o p); [apply IH|done]. Qed.

Lemma read_prefix o ps qs o' : read_all o ps = Ok o' -> qs `prefix_of` ps -> exists o'', read_all o qs = Ok o''.
Proof. intros Hr [more ->]. rewrite read_all_app in Hr. destruct (read_all o qs) as [o''|]; [by eexists|done]. Qed.

Lemma read_payload o r f : response_ok r -> reads r = Some (Answer f) ->
  read_one o (response_payload r) = match observe o f with (Ok _, o) => Ok o | (Err e, _) => Err e end.
Proof.
  intros Hok Hr. pose proof (classify_payload r Hok) as Hc. rewrite Hr in Hc. unfold classify in Hc. unfold read_one.
  destruct (is_heartbeat (response_payload r)); [done|]. destruct (classify_answer (response_payload r)); [|done].
  cbn [rbind] in *. by injection Hc as ->.
Qed.

(** Response frames, with a request to attribute them to. *)
Lemma read_responses n ps : forall o, Forall (fun p => exists body, p = TAG_APP :: body) ps -> wf n o -> (ps = [] \/ owed o <> ∅) ->
  exists o', read_all o ps = Ok o' /\ wf n o' /\ owed o' = owed o /\ (mid_batch o' = true -> mid_batch o = true \/ ps <> []).
Proof.
  induction ps as [|p ps IH]; intros o Hp Hw Hne; [exists o; cbn; auto|]. destruct Hne as [?|Hne]; [done|].
  apply Forall_cons in Hp as [[body ->] Hp]. cbn [read_all]. unfold read_one. change (is_heartbeat (TAG_APP :: body)) with false.
  change (classify_answer (TAG_APP :: body)) with (Ok (E := Error) (Response body)). cbn [rbind observe].
  rewrite (is_empty_spec n o Hw), bool_decide_false by done.
  destruct (IH {| next := next o; ids := ids o; mid_batch := true |}) as (o' & H1 & H2 & H3 & H4); [done|by destruct Hw|by right|].
  cbn [rbind]. exists o'. split; [done|]. split; [done|]. split; [done|]. by right.
Qed.
End Reading.

(** ** The dialogue *)

Module Talk.
Import Payloads Reading Response.Interface.

Section talk.
Context {R Q : Type} {En : ResponseEncoder R Q} {EnL : ResponseEncoderLaws R Q}.
Notation Handed := (@Handed R Q).

(** One connection's side of the ledger: the event whose reply is under way
    (connection and request), whether the connection is registered, and the
    requests it is owed an answer for. *)
Record Talk := { under_way : option (Z * Z); registered : bool; due : gset Z }.

Definition of_slot (slot : OutputSlot R Q) : Z * Z := (o_connection_id slot, o_request_id slot).

(** The slots as the matching stage publishes them: an event's slots follow
    one another, and each answers a request that is due. *)
Definition slot_fits (id : Z) (t : Talk) (slot : OutputSlot R Q) : bool :=
  match under_way t with
  | Some key => bool_decide (key = of_slot slot)
  | None =>
    if registered t && (o_connection_id slot =? id) then bool_decide (o_request_id slot ∈ due t) else true
  end.

Definition take_slot (id : Z) (t : Talk) (slot : OutputSlot R Q) : Talk :=
  {| under_way := if is_last_in_request slot then None else Some (of_slot slot); registered := registered t;
     due := if registered t && (o_connection_id slot =? id) && is_last_in_request slot
            then due t ∖ {[ o_request_id slot ]} else due t |}.

(** A reader refuses a request once, and only one that is due. *)
Definition take_early (id : Z) (t : Talk) (r : EarlyReply R) : option Talk :=
  if registered t && (er_connection_id r =? id) then
    if bool_decide (er_request_id r ∈ due t) then
      Some {| under_way := under_way t; registered := true; due := due t ∖ {[ er_request_id r ]} |}
    else None
  else Some t.

(** [asked]: the requests of the connection, from its registration on. *)
Definition talk_step (id : Z) (asked : gset Z) (t : Talk) (h : Handed) : option Talk :=
  match h with
  | HControl (Connected c) =>
    if c =? id then
      match under_way t with
      | Some (c, _) => if c =? id then None else Some {| under_way := under_way t; registered := true; due := asked |}
      | None => Some {| under_way := None; registered := true; due := asked |}
      end
    else Some t
  | HControl (Egress.Streams.Disconnected c) =>
    if c =? id then Some {| under_way := under_way t; registered := false; due := due t |} else Some t
  | HSlot slot _ => if slot_fits id t slot then Some (take_slot id t slot) else None
  | HChange slot =>
    if slot_fits id t slot && negb (o_connection_id slot =? id) then Some (take_slot id t slot) else None
  | HEarly r => take_early id t r
  | HSnapshot _ | HBeat => Some t
  end.

Definition talk_start : Talk := {| under_way := None; registered := false; due := ∅ |}.
Definition talk (id : Z) (asked : gset Z) (l : list Handed) : option Talk :=
  fold_left (fun t h => t ← t; talk_step id asked t h) l (Some talk_start).

Lemma talk_snoc id asked l h : talk id asked (l ++ [h]) = (t ← talk id asked l; talk_step id asked t h).
Proof. unfold talk. by rewrite fold_left_app. Qed.

(** What the wire can carry. *)
Definition sendable (h : Handed) : Prop :=
  match h with HSlot slot _ => in_u64 (o_request_id slot) | HEarly r => early_ok r | _ => True end.

(** What the client has made of the stream so far. *)
Record heard (n : Z) (o0 : Outstanding) (id : Z) (t : Talk) (ps : list (list Z)) (o : Outstanding) : Prop := {
  heard_fits : Forall fits ps;
  heard_reads : read_all o0 ps = Ok o;
  heard_wf : wf n o;
  heard_due : registered t = true -> Outstanding.owed o = due t;
  heard_open : registered t = true -> mid_batch o = true -> exists req, under_way t = Some (id, req);
  heard_pending : registered t = true -> forall req, under_way t = Some (id, req) -> req ∈ due t
}.

(** A frame that ends a request's reply. *)
Lemma read_final n o r f id : response_ok r -> reads r = Some (Answer f) -> wf n o -> id ∈ Outstanding.owed o ->
  observe o f = settle o id \/ (mid_batch o = false /\ observe o f = early o id) ->
  exists o', read_all o [response_payload r] = Ok o' /\ wf n o' /\
    Outstanding.owed o' = Outstanding.owed o ∖ {[ id ]} /\ mid_batch o' = false.
Proof.
  intros Hok Hr Hw Hid Hob. cbn [read_all]. rewrite (read_payload o r f Hok Hr).
  assert (He : observe o f = settle o id) by (destruct Hob as [?|[Hm ->]]; [done|unfold early; by rewrite Hm]).
  rewrite He. pose proof (answered_spec n o id Hw) as Hs. destruct (settle o id) as [res o']. destruct Hs as [Hs _].
  destruct (Hs Hid) as (-> & Hw' & Ho & Hm). cbn. by exists o'.
Qed.

Lemma talk_boundary id asked l : forall t, talk id asked l = Some t -> under_way t = None <-> boundary (slots_of l) = true.
Proof.
  induction l as [|h l IH] using rev_ind; intros t; [by intros [= <-]|]. rewrite talk_snoc, slots_app.
  destruct (talk id asked l) as [t0|]; [|done]. specialize (IH t0 eq_refl). intros Ht. cbn [mbind option_bind] in Ht.
  assert (Hslot : forall slot, under_way (take_slot id t0 slot) = None <-> boundary (slots_of l ++ [slot]) = true).
  { intros slot. rewrite boundary_snoc. cbn. by destruct (is_last_in_request slot). }
  destruct h as [rs|ev|slot b|slot|r|]; cbn [talk_step] in Ht.
  - injection Ht as <-. by rewrite app_nil_r.
  - rewrite app_nil_r. destruct ev as [c|c]; destruct (c =? id); try (injection Ht as <-; done).
    destruct (under_way t0) as [[c' q]|] eqn:Hu; [destruct (c' =? id); [done|]|]; injection Ht as <-; cbn; by rewrite <- IH.
  - destruct (slot_fits id t0 slot); [|done]. injection Ht as <-. apply Hslot.
  - destruct (_ && _); [|done]. injection Ht as <-. apply Hslot.
  - rewrite app_nil_r. unfold take_early in Ht. destruct (_ && _); [destruct (bool_decide _); [|done]|]; by injection Ht as <-.
  - injection Ht as <-. by rewrite app_nil_r.
Qed.

(** Nothing changes for a connection that is not registered. *)
Lemma heard_frozen n o0 id t t' ps o : heard n o0 id t ps o -> registered t' = false -> heard n o0 id t' ps o.
Proof. intros [H1 H2 H3 H4 H5 H6] Hr. constructor; try done; by rewrite Hr. Qed.

(** Another connection's slot. *)
Lemma heard_other n o0 id t ps o slot : heard n o0 id t ps o -> slot_fits id t slot = true -> o_connection_id slot <> id ->
  heard n o0 id (take_slot id t slot) ps o.
Proof.
  intros [H1 H2 H3 H4 H5 H6] Hf Hne. unfold slot_fits in Hf. apply Z.eqb_neq in Hne as Hb.
  assert (Hd : due (take_slot id t slot) = due t) by (cbn; by rewrite Hb, andb_false_r).
  constructor; rewrite ?Hd; try done; cbn [take_slot registered under_way]; intros Hr.
  - intros Hm. destruct (H5 Hr Hm) as [req Hu]. rewrite Hu in Hf. apply bool_decide_eq_true in Hf. unfold of_slot in Hf. congruence.
  - intros req. destruct (is_last_in_request slot); [done|]. unfold of_slot. congruence.
Qed.

(** The connection's own slot: the request is due while its reply is under
    way, and settled by the last slot. *)
Lemma heard_slot n o0 id t ps o slot backing :
  heard n o0 id t ps o -> slot_fits id t slot = true -> registered t = true -> o_connection_id slot = id ->
  in_u64 (o_request_id slot) -> exists o', heard n o0 id (take_slot id t slot) (ps ++ slot_payloads slot backing) o'.
Proof.
  intros [H1 H2 H3 H4 H5 H6] Hf Hr Hid Hu. specialize (H4 Hr). specialize (H5 Hr). specialize (H6 Hr).
  assert (Hdue : o_request_id slot ∈ due t).
  { unfold slot_fits in Hf. destruct (under_way t) as [key|].
    - apply bool_decide_eq_true in Hf as ->. apply H6. unfold of_slot. by rewrite Hid.
    - rewrite Hr, Hid, Z.eqb_refl in Hf. by apply bool_decide_eq_true in Hf. }
  destruct (slot_payloads_spec slot backing Hu) as [_ Hfit]. unfold slot_payloads in *. apply Forall_app in Hfit as [Hf1 Hf2].
  destruct (payload_list_spec (payload slot)) as (_ & _ & Happ).
  destruct (read_responses n _ o Happ H3) as (o1 & R1 & R2 & R3 & R4); [right; rewrite H4; set_solver|].
  unfold take_slot. rewrite Hr, Hid, Z.eqb_refl. cbn [andb].
  destruct (is_last_in_request slot).
  - destruct (read_final n o1 (ends_with backing (o_request_id slot))
      (Client.Answers.BatchEnd (o_request_id slot) (match backing with Gate.Gate.Policy => Policy | _ => PrimaryOnly end)) (o_request_id slot))
      as (o2 & S1 & S2 & S3 & S4); [by destruct backing|by destruct backing|done|by rewrite R3, H4|by left|].
    exists o2. constructor; cbn [registered due under_way]; try done.
    + apply Forall_app. split; [done|]. by apply Forall_app.
    + rewrite read_all_app, H2. cbn [rbind]. rewrite read_all_app, R1. cbn [rbind]. done.
    + intros _. by rewrite S3, R3, H4.
    + intros _. by rewrite S4.
  - exists o1. rewrite app_nil_r. constructor; cbn [registered due under_way]; try done.
    + apply Forall_app. by split.
    + by rewrite read_all_app, H2.
    + intros _. by rewrite R3.
    + intros _ _. exists (o_request_id slot). by rewrite <- Hid.
    + intros _ req Hq. unfold of_slot in Hq. by injection Hq as _ <-.
Qed.

(** Its own early reply, between two events. *)
Lemma heard_early n o0 id t t' ps o r :
  heard n o0 id t ps o -> take_early id t r = Some t' -> registered t = true -> er_connection_id r = id -> early_ok r ->
  under_way t = None -> exists o', heard n o0 id t' (ps ++ early_payloads r) o'.
Proof.
  intros [H1 H2 H3 H4 H5 H6] Ht Hr Hid Hok Hn. specialize (H4 Hr). specialize (H5 Hr).
  unfold take_early in Ht. rewrite Hr, Hid, Z.eqb_refl in Ht. cbn [andb] in Ht.
  destruct (bool_decide _) eqn:Hd; [|done]. apply bool_decide_eq_true in Hd. injection Ht as <-.
  destruct (early_payloads_spec r Hok) as [_ Hfit].
  assert (Hm : mid_batch o = false).
  { destruct (mid_batch o); [|done]. destruct (H5 eq_refl) as [q Hq]. by rewrite Hn in Hq. }
  enough (exists o', read_all o (early_payloads r) = Ok o' /\ wf n o' /\
    Outstanding.owed o' = Outstanding.owed o ∖ {[ er_request_id r ]} /\ mid_batch o' = false) as (o' & E1 & E2 & E3 & E4).
  { exists o'. constructor; cbn [registered due under_way]; try done.
    - apply Forall_app. by split.
    - by rewrite read_all_app, H2.
    - intros _. by rewrite E3, H4.
    - intros _. by rewrite E4.
    - intros _ q. by rewrite Hn. }
  pose proof (early_final_ok r Hok) as Hfin. unfold early_payloads, early_final in *.
  destruct (er_kind r) as [report| |k reason|]; cbn [app].
  - destruct (app_payloads_spec (encode_report report) (report_in_place report)) as (_ & _ & Happ).
    destruct (read_responses n _ o Happ H3) as (o1 & R1 & R2 & R3 & _); [right; rewrite H4; set_solver|].
    destruct (read_final n o1 _ _ (er_request_id r) Hfin eq_refl R2) as (o2 & S1 & S2 & S3 & S4); [by rewrite R3, H4|by left|].
    exists o2. rewrite read_all_app, R1. by rewrite <- R3.
  - apply (read_final n o _ _ (er_request_id r) Hfin eq_refl H3); [by rewrite H4|by left].
  - apply (read_final n o _ _ (er_request_id r) Hfin eq_refl H3); [by rewrite H4|by right].
  - apply (read_final n o _ _ (er_request_id r) Hfin eq_refl H3); [by rewrite H4|by right].
Qed.

Lemma heard_beat n o0 id t ps o : heard n o0 id t ps o ->
  exists p, heartbeat_frame = wrapped [p] /\ heard n o0 id t (ps ++ [p]) o.
Proof.
  intros [H1 H2 H3 H4 H5 H6]. exists (response_payload ClientWire.Reply.Heartbeat). split; [by vm_compute|]. constructor; try done.
  - apply Forall_app. split; [done|]. constructor; [|constructor]. by vm_compute.
  - by rewrite read_all_app, H2.
Qed.

Lemma whole_prefix (l k : list Handed) : whole (l ++ k) -> whole l.
Proof. intros Hw pre r post ->. apply (Hw pre r (post ++ k)). by rewrite <- app_assoc. Qed.

(** What an entry adds, heard by a registered connection. *)
Lemma heard_adds n o0 id asked t t' ps o h a :
  heard n o0 id t ps o -> registered t = true -> adds id h a -> talk_step id asked t h = Some t' -> sendable h ->
  (forall r, h = HEarly r -> under_way t = None) ->
  exists qs o', a = wrapped qs /\ heard n o0 id t' (ps ++ qs) o' /\ registered t' = true.
Proof.
  intros Hh Hr Ha Ht Hs Hw.
  assert (Hsame : heard n o0 id t' ps o -> registered t' = true ->
    exists qs o', [] = wrapped qs /\ heard n o0 id t' (ps ++ qs) o' /\ registered t' = true).
  { intros H1 H2. exists [], o. by rewrite app_nil_r. }
  destruct Ha as [slot b Hid|r Hid| | |slot b Hid|r Hid|slot|rs]; cbn [talk_step sendable] in *.
  - destruct (slot_fits id t slot) eqn:Hf; [|done]. injection Ht as <-.
    destruct (heard_slot n o0 id t ps o slot b Hh Hf Hr Hid Hs) as [o' Ho]. exists (slot_payloads slot b), o'.
    split; [by apply slot_payloads_spec|]. by split.
  - destruct (heard_early n o0 id t t' ps o r Hh Ht Hr Hid Hs (Hw r eq_refl)) as [o' Ho]. exists (early_payloads r), o'.
    split; [by apply early_payloads_spec|]. split; [done|]. unfold take_early in Ht. rewrite Hr, Hid, Z.eqb_refl in Ht.
    cbn [andb] in Ht. destruct (bool_decide _); [|done]. by injection Ht as <-.
  - injection Ht as <-. destruct (heard_beat n o0 id t ps o Hh) as (p & Hp & Ho). by exists [p], o.
  - injection Ht as <-. by apply Hsame.
  - destruct (slot_fits id t slot) eqn:Hf; [|done]. injection Ht as <-. apply Hsame; [by apply heard_other|done].
  - unfold take_early in Ht. apply Z.eqb_neq in Hid. rewrite Hid, andb_false_r in Ht. injection Ht as <-. by apply Hsame.
  - destruct (slot_fits id t slot && _) eqn:Hf; [|done]. injection Ht as <-. apply andb_true_iff in Hf as [Hf Hid].
    apply negb_true_iff, Z.eqb_neq in Hid. apply Hsame; [by apply heard_other|done].
  - injection Ht as <-. by apply Hsame.
Qed.

Lemma adds_registered id asked t t' h a : adds id h a -> talk_step id asked t h = Some t' -> registered t' = registered t.
Proof.
  assert (He : forall r, take_early id t r = Some t' -> registered t' = registered t).
  { intros r. unfold take_early. destruct (registered t) eqn:Hr; cbn [andb]; [|by intros [= <-]].
    destruct (er_connection_id r =? id); [|by intros [= <-]]. destruct (bool_decide _); [|done]. by intros [= <-]. }
  destruct 1; cbn [talk_step]; try (by intros [= <-]); try apply He; destruct (slot_fits _ _ _); try done; try (by intros [= <-]).
  destruct (negb _); [by intros [= <-]|done].
Qed.

(** The whole ledger, as the client hears it. *)
Lemma heard_ledger n o0 id l live s : Ledger.owed id l live s -> wf n o0 -> mid_batch o0 = false -> whole l -> Forall sendable l ->
  forall t, talk id (Outstanding.owed o0) l = Some t ->
  registered t = live /\ exists ps o, s = wrapped ps /\ heard n o0 id t ps o.
Proof.
  intros Ho Hwf Hm.
  induction Ho as [|l s Ho IH|l live s Ho IH|l live s ev Ho IH H1 H2|l s h a Ho IH Ha|l s h a Ho IH Ha]; intros Hw Hs t;
    [intros [= <-]; split; [done|]; exists [], o0; by split; [|constructor]|..];
    rewrite talk_snoc; destruct (talk id (Outstanding.owed o0) l) as [t0|] eqn:Ht0; try done; cbn [mbind option_bind];
    apply Forall_app in Hs as [Hs Hs']; destruct (IH (whole_prefix _ _ Hw) Hs t0 eq_refl) as (Hr & ps & o & -> & Hh); clear IH.
  - cbn [talk_step]. rewrite Z.eqb_refl.
    assert (Hb : forall u, (forall q, u <> Some (id, q)) ->
      heard n o0 id {| under_way := u; registered := true; due := Outstanding.owed o0 |} [] o0).
    { intros u Hu. constructor; try done; cbn; [by rewrite Hm|]. intros _ q Hq. by destruct (Hu q). }
    destruct (under_way t0) as [[c q]|]; [destruct (c =? id) eqn:Hc; [done|]; zb|]; intros [= <-]; split; try done;
      exists [], o0; (split; [done|]); apply Hb; congruence.
  - cbn [talk_step]. rewrite Z.eqb_refl. intros [= <-]. split; [done|]. exists ps, o. split; [done|]. by eapply heard_frozen.
  - intros Ht. assert (t0 = t) as <-; [|by split; [|exists ps, o]]. destruct ev as [c|c]; cbn [talk_step] in Ht;
      destruct (c =? id) eqn:Hc; zb; try congruence.
  - intros Ht. apply Forall_cons in Hs' as [Hs' _].
    destruct (heard_adds n o0 id _ t0 t ps o h a Hh Hr Ha Ht Hs') as (qs & o' & -> & Ho' & Hr').
    { intros r ->. apply (talk_boundary id _ l t0 Ht0), (Hw l r []). done. }
    split; [done|]. exists (ps ++ qs), o'. by rewrite wrapped_app.
  - intros Ht. pose proof (adds_registered _ _ _ _ _ _ Ha Ht) as Hr'. split; [congruence|]. exists ps, o. split; [done|].
    eapply heard_frozen; [done|congruence].
Qed.
End talk.
End Talk.

(** ** From the script to the ledger

    What the threads around the stage promise of a conversation, on what the
    stage is given and not on what it makes of it. *)

Module Script.
Import Payloads Talk Response.Interface Response.Walk Response.Promises Gate.Gate Housekeeping Spsc.Wait.

Section script.
Context {S R Q : Type} {Eg : Egress S R Q} {En : ResponseEncoder R Q}.
Context (heartbeat_interval : option Z).
Notation Handed := (@Handed R Q).
Notation Slot := (OutputSlot R Q).
Notation Turn := (@Turn R Q).

Definition waits_seen (ws : list (@Snap R * Z)) : list (EarlyReply R) := flat_map (fun w => seen w.1) ws.
Definition batch_seen (envs : list (@AdmitEnv R)) : list (EarlyReply R) := flat_map (fun env => waits_seen (a_waits env)) envs.
Definition turn_seen (t : Turn) : list (EarlyReply R) := seen (t_snap t) ++ batch_seen (t_admits t).
Definition script_seen (turns : list Turn) : list (EarlyReply R) := flat_map turn_seen turns.

(** An event's slots follow one another, up to the one that ends it. *)
Fixpoint grouped (key : option (Z * Z)) (slots : list Slot) : Prop :=
  match slots with
  | [] => True
  | slot :: slots =>
    match key with Some k => k = of_slot slot | None => True end /\
    grouped (if is_last_in_request slot then None else Some (of_slot slot)) slots
  end.

(** The first slots of the events. *)
Fixpoint heads (mid : bool) (slots : list Slot) : list Slot :=
  match slots with
  | [] => []
  | slot :: slots => (if mid then [] else [slot]) ++ heads (negb (is_last_in_request slot)) slots
  end.

(** The requests of a connection that the stage is given an answer for. *)
Definition slot_request (id : Z) (slot : Slot) : list Z := if o_connection_id slot =? id then [o_request_id slot] else [].
Definition early_request (id : Z) (r : EarlyReply R) : list Z := if er_connection_id r =? id then [er_request_id r] else [].
Definition requests (id : Z) (slots : list Slot) (rs : list (EarlyReply R)) : list Z :=
  flat_map (slot_request id) (heads false slots) ++ flat_map (early_request id) rs.

Definition slots_silent (id : Z) (slots : list Slot) : Prop := Forall (fun slot => o_connection_id slot <> id) slots.
Definition earlies_silent (id : Z) (rs : list (EarlyReply R)) : Prop := Forall (fun r => er_connection_id r <> id) rs.

(** A connection registers before anything of its own is handed over: no
    turn before it does, nor one in whose waits it does, brings any. *)
Fixpoint introduced (id : Z) (turns : list Turn) : Prop :=
  match turns with
  | [] => True
  | t :: turns =>
    (id ∈ batch_opened (t_admits t) ++ script_opened turns ->
       slots_silent id (t_published t) /\ earlies_silent id (turn_seen t)) /\
    introduced id turns
  end.

(** A connection's conversation: [asked] are its requests. *)
Record conversation (id : Z) (asked : gset Z) (turns : list Turn) : Prop := {
  cv_grouped : grouped None (published turns);
  cv_introduced : introduced id turns;
  cv_once : NoDup (requests id (published turns) (script_seen turns));
  cv_asked : Forall (fun q => q ∈ asked) (requests id (published turns) (script_seen turns));
  cv_slots : Forall (fun slot => in_u64 (o_request_id slot) /\
               forall c, payload slot = PolicyChange c -> o_connection_id slot <> id) (published turns);
  cv_earlies : Forall early_ok (script_seen turns)
}.

(** *** The order of the ledger *)

Context (id : Z).

Definition silent (l : list Handed) : Prop := slots_silent id (slots_of l) /\ earlies_silent id (earlies_of l).

Definition ordered (l : list Handed) : Prop :=
  forall pre post, l = pre ++ HControl (Connected id) :: post -> silent pre.

Definition change_ok (h : Handed) : Prop := match h with HChange slot => exists c, payload slot = PolicyChange c | _ => True end.

Lemma silent_app l k : silent (l ++ k) <-> silent l /\ silent k.
Proof.
  unfold silent, slots_silent, earlies_silent. rewrite slots_app, earlies_app, !Forall_app. naive_solver.
Qed.

Lemma silent_control evs : silent (map HControl evs).
Proof. destruct (control_silent (R:=R) (Q:=Q) evs) as (H1 & H2 & _). unfold silent, slots_silent, earlies_silent. rewrite H1, H2. by split; constructor. Qed.

Lemma ordered_app l hs : ordered l ->
  (forall pre post, hs = pre ++ HControl (Connected id) :: post -> silent l /\ silent pre) -> ordered (l ++ hs).
Proof.
  intros Hl Hh pre post Heq. apply app_eq_app in Heq as [k [[-> Hk]|[-> Hk]]].
  - destruct k as [|h k]; [|injection Hk as <- ->; by eapply (Hl pre k)]. rewrite app_nil_r in *. by destruct (Hh [] post (eq_sym Hk)).
  - apply silent_app. by eapply Hh.
Qed.

(** [P]: the connection registers later. *)
Record within (P : Prop) (st : @Stage S R Q) : Prop := {
  wi_ordered : ordered (log st);
  wi_quiet : P -> silent (log st) /\ earlies_silent id (snapshot st);
  wi_changes : Forall change_ok (log st)
}.

Definition grows (sn : list (EarlyReply R)) (st st' : @Stage S R Q) : Prop :=
  exists x, x `sublist_of` sn /\ taken_of (log st') = taken_of (log st) ++ x.

Lemma grows_none st st' hs : log st' = log st ++ hs -> taken_of hs = [] -> forall sn, grows sn st st'.
Proof. intros Hl Ht sn. exists []. split; [apply sublist_nil_l|]. by rewrite Hl, taken_app, Ht. Qed.
Lemma grows_same st st' : log st' = log st -> forall sn, grows sn st st'.
Proof. intros Hl sn. apply (grows_none st st' []); [by rewrite app_nil_r|done]. Qed.
Lemma grows_then a b st1 st2 st3 : grows a st1 st2 -> grows b st2 st3 -> grows (a ++ b) st1 st3.
Proof.
  intros (x & Hx & E1) (y & Hy & E2). exists (x ++ y). split; [by apply sublist_app|]. by rewrite E2, E1, app_assoc.
Qed.
Lemma grows_more a b st st' : a `sublist_of` b -> grows a st st' -> grows b st st'.
Proof. intros Hab (x & Hx & E). exists x. split; [by etrans|done]. Qed.

(** An operation that hands over neither slots nor registrations. *)
Lemma within_egress P st e hs : within P st -> (forall pre post, hs <> pre ++ HControl (Connected id) :: post) ->
  Forall change_ok hs -> (P -> silent hs) -> within P (with_egress st e hs).
Proof.
  intros [Ho Hq Hc] Hn Hk Hs. constructor; cbn [with_egress log snapshot].
  - apply ordered_app; [done|]. intros pre post Heq. by destruct (Hn pre post).
  - intros HP. destruct (Hq HP). split; [|done]. apply silent_app. auto.
  - by apply Forall_app.
Qed.

Lemma within_quietly P st e : within P st -> within P (with_egress st e []).
Proof. intros Hw. apply within_egress; [done|by intros [|? ?]|constructor|by split; constructor]. Qed.

Lemma register_within (P0 P : Prop) st p : within P0 st -> (id ∈ opened (control p) -> P0) -> (P -> P0) ->
  (P -> earlies_silent id (seen p)) -> within P (register st p) /\ grows (seen p) st (register st p).
Proof.
  intros [Ho Hq Hc] Hin HPP Hs. split.
  - constructor; cbn [register with_egress with_snapshot log snapshot].
    + apply ordered_app; [done|]. intros pre post Heq. destruct pre as [|h pre]; [done|]. injection Heq as <- Heq.
      assert (HP : P0).
      { apply Hin. assert (Hx : id ∈ connects (map HControl (control p) : list Handed)).
        { rewrite Heq, connects_app. apply elem_of_app. right. by left. } by rewrite control_connects in Hx. }
      split; [by apply Hq|]. apply (silent_app [HSnapshot (seen p)]). split; [by split; constructor|].
      assert (Hsc := silent_control (control p)). rewrite Heq in Hsc. by apply silent_app in Hsc as [? _].
    + intros HP. destruct (Hq (HPP HP)) as [H1 H2]. split; [|apply Forall_app_2; [done|by apply Hs]]. apply silent_app. split; [done|].
      apply (silent_app [HSnapshot (seen p)]). split; [by split; constructor|apply silent_control].
    + apply Forall_app. split; [done|]. constructor; [done|]. apply Forall_map, Forall_true. done.
  - exists (seen p). split; [done|]. cbn [register with_egress with_snapshot log]. rewrite taken_app. f_equal. cbn [taken_of flat_map].
    destruct (control_silent (R:=R) (Q:=Q) (control p)) as (_ & _ & Ht). unfold taken_of in Ht. by rewrite Ht, app_nil_r.
Qed.

Lemma release_within P st now st' n : within P st -> release st now = Some (st', n) -> within P st' /\ forall sn, grows sn st st'.
Proof.
  intros Hw. unfold release. destruct (release_early_replies _ _ _ _) as [[e buf]|]; [|done]. intros [= <- _].
  pose proof (early_entries (R:=R) (Q:=Q) (snapshot st)) as (H1 & H2 & H3 & H4). split.
  - assert (Hw1 : within P (with_egress st e (map HEarly (snapshot st)))).
    { apply within_egress; [done| | |].
      - intros pre post Heq. assert (Hx : id ∈ connects (map HEarly (snapshot st) : list Handed)).
        { rewrite Heq, connects_app. apply elem_of_app. right. by left. } rewrite H1 in Hx. by apply elem_of_nil in Hx.
      - apply Forall_map, Forall_true. done.
      - intros HP. destruct (wi_quiet _ _ Hw HP) as [_ Hq]. unfold silent. rewrite H2, H3. split; [constructor|done]. }
    destruct Hw1 as [Ho Hq Hc]. constructor; try done. intros HP. destruct (Hq HP). split; [done|constructor].
  - by eapply grows_none.
Qed.

Lemma hooks_within (P : Prop) at_boundary calls : forall waits st st', within P st ->
  (id ∈ waits_opened waits -> P) -> (P -> earlies_silent id (waits_seen waits)) ->
  run_hooks calls at_boundary waits st = Some st' -> within P st' /\ grows (waits_seen waits) st st'.
Proof.
  induction calls as [|[] calls IH]; intros waits st st' Hw Hin Hs; cbn [run_hooks].
  - intros [= <-]. split; [done|by apply grows_same].
  - intros Hr. apply IH in Hr as [H1 H2]; [|by apply within_quietly|done|done]. split; [done|].
    destruct H2 as (x & Hx & E). exists x. split; [done|]. cbn [with_egress log] in E. by rewrite app_nil_r in E.
  - destruct at_boundary; [|by apply IH]. destruct waits as [|[p now] waits]; [by apply IH|].
    destruct (release (register st p) now) as [[st1 sent]|] eqn:Hre; [|done]. cbn [mbind option_bind]. intros Hr.
    unfold waits_opened in Hin. cbn [flat_map fst] in Hin. cbn [waits_seen flat_map fst] in Hs.
    destruct (register_within P P st p Hw) as [Hw1 Hg1].
    { intros Hx. apply Hin, elem_of_app. by left. } { done. } { intros HP. specialize (Hs HP). by apply Forall_app in Hs as [? _]. }
    destruct (release_within P _ _ _ _ Hw1 Hre) as [Hw2 Hg2].
    assert (Hw3 : within P (if (0 <? sent)%nat then with_egress st1 (after_wait_release (egress st1)) [] else st1))
      by (destruct (0 <? sent)%nat; [by apply within_quietly|done]).
    apply IH in Hr as [Hw4 Hg4]; [|done|intros Hx; apply Hin, elem_of_app; by right|intros HP; specialize (Hs HP); by apply Forall_app in Hs as [_ ?]].
    split; [done|]. apply (grows_then (seen p) ([] ++ waits_seen waits) st (register st p) st' Hg1).
    apply (grows_then [] (waits_seen waits) _ st1); [apply Hg2|].
    destruct (0 <? sent)%nat; [|done]. destruct Hg4 as (x & Hx & E). exists x. split; [done|]. cbn [with_egress log] in E. by rewrite app_nil_r in E.
Qed.

Lemma gate_only_change g (slot : Slot) now passes g' h rest :
  admit_output g slot now passes = Done GateOnly g' h rest -> exists c, payload slot = PolicyChange c.
Proof.
  assert (Hfin : forall g1 h1 b r, finish_slot g1 h1 slot b now r = Done GateOnly g' h rest -> exists c, payload slot = PolicyChange c).
  { intros g1 h1 b r. unfold finish_slot. destruct (payload slot); try done. intros _. by eexists. }
  unfold admit_output. destruct (admit_pending _ g hook_new now passes) as [[b|] g1 h1 r1| |]; try done.
  unfold admit_slot. destruct (slot_needs_gate _ _); [|apply Hfin].
  destruct (wait_durable _ _ _ _) as [[b2|] g2 h2 r2| |]; try done. apply Hfin.
Qed.

Lemma within_gate P st g : within P st -> within P (with_gate st g).
Proof. by intros []. Qed.

Lemma release_ring (st : @Stage S R Q) now st' n : release st now = Some (st', n) -> ring st' = ring st.
Proof. unfold release. destruct (release_early_replies _ _ _ _) as [[e buf]|]; [|done]. by intros [= <- _]. Qed.

Lemma hooks_ring calls at_boundary : forall waits (st st' : @Stage S R Q),
  run_hooks calls at_boundary waits st = Some st' -> ring st' = ring st.
Proof.
  induction calls as [|[] calls IH]; intros waits st st'; cbn [run_hooks]; [by intros [= <-]|..].
  - by intros ->%IH.
  - destruct at_boundary; [|by apply IH]. destruct waits as [|[p now] waits]; [by apply IH|].
    destruct (release (register st p) now) as [[st1 sent]|] eqn:Hre; [|done]. cbn [mbind option_bind]. intros ->%IH.
    apply release_ring in Hre. by destruct (0 <? sent)%nat.
Qed.

Lemma step_slot_within (P : Prop) st slot env now : within P st -> (P -> o_connection_id slot <> id) ->
  (id ∈ waits_opened (a_waits env) -> P) -> (P -> earlies_silent id (waits_seen (a_waits env))) ->
  match step_slot st slot env now with
  | Goes st' => (within P st' /\ grows (waits_seen (a_waits env)) st st') /\ ring st' = ring st
  | Leaves st' | Held st' => within P st' /\ grows (waits_seen (a_waits env)) st st'
  | Panics => True
  end.
Proof.
  intros Hw Hid Hin Hs. unfold step_slot. set (sn := waits_seen (a_waits env)) in *.
  destruct (if between_events st then fst <$> release st now else Some st) as [st1|] eqn:Hr; [|done].
  assert (H1 : (within P st1 /\ forall sn, grows sn st st1) /\ ring st1 = ring st).
  { destruct (between_events st); [|injection Hr as <-; split; [split; [done|by apply grows_same]|done]].
    destruct (release st now) as [[x n]|] eqn:Hre; [|done]. injection Hr as <-. split; [by eapply release_within|].
    by eapply release_ring. }
  destruct H1 as [[Hw1 Hg1] Hring1]. destruct (alive (egress st1)); cbn [negb]; [|by split].
  assert (Hhooks : forall g calls st2, run_hooks calls (between_events st) (a_waits env) (with_gate st1 g) = Some st2 ->
    (within P st2 /\ grows sn st st2) /\ ring st2 = ring st).
  { intros g calls st2 Hh. destruct (hooks_within P _ _ _ _ _ (within_gate P st1 g Hw1) Hin Hs Hh) as [Hw2 Hg2].
    split; [split; [done|]|by rewrite (hooks_ring _ _ _ _ _ Hh)]. exact (grows_then [] sn st st1 st2 (Hg1 []) Hg2). }
  destruct (admit_output (gate st1) slot (a_now env) (a_passes env)) as [a g h rest|g h|] eqn:Ha; [| |done].
  2:{ destruct (run_hooks _ _ _ _) as [st2|] eqn:Hh; [|done]. destruct (Hhooks _ _ _ Hh) as [H2 _]. by destruct (alive (egress st2)). }
  destruct (run_hooks _ _ _ _) as [st2|] eqn:Hh; [|done]. destruct (Hhooks _ _ _ Hh) as [H2 Hring2].
  destruct (alive (egress st2)); cbn [negb]; [|done]. destruct H2 as [Hw2 Hg2].
  assert (Hone : forall e h b u k, slots_of [h] = [slot] -> earlies_of [h] = [] -> connects [h] = [] -> taken_of [h] = [] -> change_ok h ->
    let st' := with_egress (with_buffers (with_boundary st2 b) u k) e [h] in
    (within P st' /\ grows sn st st') /\ ring st' = ring st).
  { intros e x b u k Hx1 Hx2 Hx3 Hx4 Hxc. cbv zeta. split; [split|done].
    - apply within_egress; [by destruct Hw2| |by repeat constructor|].
      + intros pre post Heq. assert (Hc : id ∈ connects [x]) by (rewrite Heq, connects_app; apply elem_of_app; right; by left).
        rewrite Hx3 in Hc. by apply elem_of_nil in Hc.
      + intros HP. unfold silent. rewrite Hx1, Hx2. split; repeat constructor. by apply Hid.
    - rewrite <- (app_nil_r sn). eapply grows_then; [exact Hg2|]. by eapply (grows_none st2 _ [x]). }
  destruct a as [conn backing| |]; [| |by split].
  - unfold send. destruct (send_slot _ _ _ _ _ _) as [[outcome e] b]. destruct outcome; try (by apply Hone).
    split; [by destruct (within_quietly P _ e Hw2)|]. rewrite <- (app_nil_r sn). eapply grows_then; [exact Hg2|].
    by apply (grows_none st2 _ []).
  - apply (Hone _ (HChange slot) _ (buffers st2) (degraded_acks st2)); try done. by eapply gate_only_change.
Qed.

Lemma step_batch_within (P : Prop) now slots : forall st envs, within P st -> (P -> slots_silent id slots) ->
  (id ∈ batch_opened envs -> P) -> (P -> earlies_silent id (batch_seen envs)) ->
  match step_batch st slots envs now with
  | Goes st' => (within P st' /\ grows (batch_seen envs) st st') /\ ring st' = ring st
  | Leaves st' | Held st' => within P st' /\ grows (batch_seen envs) st st'
  | Panics => True
  end.
Proof.
  induction slots as [|slot slots IH]; intros st envs Hw Hid Hin Hs; cbn [step_batch].
  { split; [split; [done|by apply grows_same]|done]. }
  destruct envs as [|env envs]; [split; [done|by apply grows_same]|].
  unfold batch_opened in Hin. cbn [flat_map] in Hin. cbn [batch_seen flat_map] in Hs.
  assert (Hstep := step_slot_within P st slot env now Hw).
  assert (Hid1 : P -> o_connection_id slot <> id) by (intros HP; specialize (Hid HP); by apply Forall_cons in Hid as [? _]).
  assert (Hin1 : id ∈ waits_opened (a_waits env) -> P) by (intros Hx; apply Hin, elem_of_app; by left).
  assert (Hs1 : P -> earlies_silent id (waits_seen (a_waits env))) by (intros HP; specialize (Hs HP); by apply Forall_app in Hs as [? _]).
  specialize (Hstep Hid1 Hin1 Hs1).
  assert (Hless : waits_seen (a_waits env) `sublist_of` batch_seen (env :: envs)) by apply sublist_inserts_r, reflexivity.
  destruct (step_slot st slot env now) as [st1|st1|st1|]; [|destruct Hstep; split; [done|by eapply grows_more]..|done].
  destruct Hstep as [[Hw1 Hg1] Hr1]. destruct (alive (egress st1)); [|split; [done|by eapply grows_more]].
  specialize (IH st1 envs Hw1). destruct (step_batch st1 slots envs now) as [st2|st2|st2|]; [| | |done];
    (destruct IH as [IH1 IH2];
     [intros HP; specialize (Hid HP); by apply Forall_cons in Hid as [_ ?]
     |intros Hx; apply Hin, elem_of_app; by right
     |intros HP; specialize (Hs HP); by apply Forall_app in Hs as [_ ?]|]).
  - destruct IH1 as [IH0 IH1]. split; [split; [done|]|congruence]. exact (grows_then _ _ _ _ _ Hg1 IH1).
  - split; [done|]. exact (grows_then _ _ _ _ _ Hg1 IH2).
  - split; [done|]. exact (grows_then _ _ _ _ _ Hg1 IH2).
Qed.

Lemma idle_within P st env : within P st ->
  match idle_turn heartbeat_interval st env with
  | Goes st' => (within P st' /\ forall sn, grows sn st st') /\ ring st' = ring st
  | Leaves _ | Held _ => False
  | Panics => True
  end.
Proof.
  intros Hw. unfold idle_turn. set (m := if between_events st then _ else _). destruct m as [st1|] eqn:Hm; [|done].
  assert (H1 : (within P st1 /\ forall sn, grows sn st st1) /\ ring st1 = ring st).
  { unfold m in Hm. destruct (between_events st); [|injection Hm as <-; split; [split; [done|by apply grows_same]|done]].
    destruct (release st (i_now env)) as [[x n]|] eqn:Hre; [|done]. injection Hm as <-.
    destruct (release_within P _ _ _ _ Hw Hre) as [Hx Hg]. split; [split; [by apply within_quietly|]|by rewrite <- (release_ring _ _ _ _ Hre)].
    intros sn. destruct (Hg sn) as (y & Hy & E). exists y. split; [done|]. cbn [with_egress log]. by rewrite app_nil_r. }
  destruct H1 as [[Hw1 Hg1] Hr1]. clear Hm m.
  assert (Hadd : forall st2 st3 hs, (within P st2 /\ forall sn, grows sn st st2) -> log st3 = log st2 ++ hs -> taken_of hs = [] ->
    forall sn, grows sn st st3).
  { intros st2 st3 hs [_ Hg] Hl Ht sn. rewrite <- (app_nil_r sn). eapply grows_then; [apply Hg|by eapply grows_none]. }
  set (st2 := with_egress st1 (on_idle (egress st1)) []).
  assert (H2 : (within P st2 /\ forall sn, grows sn st st2) /\ ring st2 = ring st).
  { split; [split; [by apply within_quietly|by eapply (Hadd st1 _ [])]|done]. }
  clearbody st2. destruct H2 as [[Hw2 Hg2] Hr2].
  destruct (tick _ _ _ _ _) as [[d|] hk].
  2:{ split; [split; [by destruct Hw2|]|done]. eapply (Hadd st2 _ []); [by split|by rewrite app_nil_r|done]. }
  set (st3 := match heartbeat_interval with Some _ => _ | None => _ end).
  assert (H3 : (within P st3 /\ forall sn, grows sn st st3) /\ ring st3 = ring st).
  { unfold st3. destruct heartbeat_interval; [|done]. destruct (heartbeat_scan d); [|done].
    split; [split; [|by eapply (Hadd st2 _ [HBeat])]|done]. apply within_egress; [done| |by repeat constructor|by split; constructor].
    intros [|? [|? ?]]; done. }
  clearbody st3. destruct H3 as [[Hw3 Hg3] Hr3]. split; [split; [by destruct Hw3|]|done].
  eapply (Hadd st3 _ []); [by split|by rewrite app_nil_r|done].
Qed.

(** Between two turns: the connection, if it is to register, is still silent. *)
Definition between (turns : list Turn) (st : @Stage S R Q) : Prop :=
  within (id ∈ script_opened turns) st /\ (id ∈ script_opened turns -> slots_silent id (ring st)).

Lemma turn_within st t turns : between (t :: turns) st -> NoDup (script_opened (t :: turns)) -> introduced id (t :: turns) ->
  match turn heartbeat_interval st t with
  | Goes st' => between turns st' /\ grows (turn_seen t) st st'
  | Leaves st' | Held st' => (exists P, within P st') /\ grows (turn_seen t) st st'
  | Panics => True
  end.
Proof.
  intros [Hw Hr] Hnd [Hintro _]. unfold turn. destruct (t_shutdown t); [split; [by eexists|by apply grows_same]|].
  set (P := id ∈ batch_opened (t_admits t) ++ script_opened turns) in *.
  set (st1 := with_ring st (ring st ++ t_published t)). set (slots := take _ _).
  unfold script_opened in Hw, Hr, Hnd. cbn [flat_map] in Hw, Hr, Hnd. unfold turn_opened in Hw, Hr, Hnd.
  rewrite <- app_assoc in Hw, Hr, Hnd. fold (script_opened turns) in Hw, Hr, Hnd.
  assert (HP : P -> id ∈ opened (control (t_snap t)) ++ batch_opened (t_admits t) ++ script_opened turns)
    by (intros Hx; apply elem_of_app; by right).
  assert (Hseen : P -> earlies_silent id (seen (t_snap t)) /\ earlies_silent id (batch_seen (t_admits t))).
  { intros Hx. destruct (Hintro Hx) as [_ Hs]. unfold turn_seen in Hs. by apply Forall_app in Hs. }
  destruct (register_within (id ∈ opened (control (t_snap t)) ++ batch_opened (t_admits t) ++ script_opened turns) P st1 (t_snap t))
    as [Hw2 Hg2]; [by destruct Hw|intros Hx; apply elem_of_app; by left|done|intros Hx; by apply Hseen|].
  set (st2 := register st1 (t_snap t)) in *.
  assert (Hring : P -> slots_silent id (ring st2)).
  { intros Hx. apply Forall_app_2; [by apply Hr, HP|by apply Hintro]. }
  assert (Hend : forall st', within P st' -> (P -> slots_silent id (ring st')) -> between turns st').
  { intros st' [W1 W2 W3] Hsl. assert (Hsub : id ∈ script_opened turns -> P) by (intros Hx; apply elem_of_app; by right).
    split; [constructor; auto|auto]. }
  assert (Hslots : P -> slots_silent id slots) by (intros Hx; by apply Forall_take, Hring).
  change (grows (seen (t_snap t)) st1 st2) with (grows (seen (t_snap t)) st st2) in Hg2. clearbody st2 slots. clear st1.
  assert (Hall : forall st', grows (batch_seen (t_admits t)) st2 st' -> grows (turn_seen t) st st')
    by (intros st'; by apply grows_then).
  destruct slots as [|slot slots].
  { pose proof (idle_within P st2 (t_idle t) Hw2) as Hi. destruct (idle_turn heartbeat_interval st2 (t_idle t)) as [st3|st3|st3|]; try done.
    destruct Hi as [[Hw3 Hg3] Hr3]. split; [apply Hend; [done|by rewrite Hr3]|by apply Hall]. }
  assert (Hwait : within P (with_wait st2 (housekeeping st2) (reset (wait st2)))) by (by destruct Hw2).
  pose proof (step_batch_within P (t_batch_now t) (slot :: slots) _ (t_admits t) Hwait Hslots) as Hb.
  specialize (Hb ltac:(intros Hx; apply elem_of_app; by left) ltac:(intros Hx; by apply Hseen)).
  destruct (step_batch _ _ _ _) as [st3|st3|st3|]; [| | |done].
  - destruct Hb as [[Hw3 Hg3] Hr3]. split.
    + apply Hend; [by destruct (within_quietly P _ (after_commit (egress st3)) Hw3)|]. cbn [with_gate with_egress with_ring ring].
      intros Hx. rewrite Hr3. by apply Forall_drop, Hring.
    + apply Hall. destruct Hg3 as (y & Hy & E). exists y. split; [done|]. cbn [with_gate with_egress with_ring log]. by rewrite app_nil_r.
  - destruct Hb as [Hw3 Hg3]. split; [by eexists|by apply Hall].
  - destruct Hb as [Hw3 Hg3]. split; [by eexists|by apply Hall].
Qed.

Lemma run_within turns : forall st st', between turns st -> NoDup (script_opened turns) -> introduced id turns ->
  stopped (run heartbeat_interval st turns) = Some st' -> (exists P, within P st') /\ grows (script_seen turns) st st'.
Proof.
  induction turns as [|t turns IH]; intros st st' Hb Hnd Hin; cbn [run].
  { intros [= <-]. split; [destruct Hb; by eexists|by apply grows_same]. }
  pose proof (turn_within st t turns Hb Hnd Hin) as Ht. destruct Hin as [_ Hin].
  assert (Hnd' : NoDup (script_opened turns)) by (by apply NoDup_app in Hnd as (_ & _ & ?)).
  assert (Hmore : turn_seen t `sublist_of` script_seen (t :: turns)) by apply sublist_inserts_r, reflexivity.
  destruct (turn heartbeat_interval st t) as [st1|st1|st1|]; cbn [stopped]; [| | |done].
  - destruct Ht as [Hb1 Hg1]. destruct (alive (egress st1)).
    + intros Hr. destruct (IH _ _ Hb1 Hnd' Hin Hr) as [Hw Hg]. split; [done|]. exact (grows_then _ _ _ _ _ Hg1 Hg).
    + intros [= <-]. split; [destruct Hb1; by eexists|by eapply grows_more].
  - destruct Ht as [[P Hw] Hg]. intros [= <-]. destruct (alive (egress st1)); [|split; [by eexists|by eapply grows_more]].
    split; [exists P; by apply within_quietly|]. eapply grows_more; [exact Hmore|]. destruct Hg as (y & Hy & E). exists y.
    split; [done|]. cbn [with_egress log]. by rewrite app_nil_r.
  - intros [= <-]. destruct Ht. split; [done|by eapply grows_more].
Qed.

Lemma between_start e g hk strategy turns : between turns (start e g hk strategy : @Stage S R Q).
Proof.
  split; [|by constructor]. constructor; cbn [start log snapshot]; [by intros [|? ?]|by repeat constructor|constructor].
Qed.

(** *** The ledger is a conversation *)

(** The requests the ledger has answered. *)
Definition answers (l : list Handed) : list Z :=
  flat_map (fun h => match h with
                     | HSlot slot _ => if is_last_in_request slot then slot_request id slot else []
                     | HEarly r => early_request id r
                     | _ => []
                     end) l.
Definition answered (l : list Handed) : gset Z := list_to_set (answers l).

(** The event a run of slots leaves under way. *)
Definition open_key (slots : list Slot) : option (Z * Z) :=
  slot ← last slots; if is_last_in_request slot then None else Some (of_slot slot).

Lemma answers_split l k : answers (l ++ k) = answers l ++ answers k.
Proof. apply flat_map_app. Qed.

Lemma open_snoc slots slot : open_key (slots ++ [slot]) = if is_last_in_request slot then None else Some (of_slot slot).
Proof. unfold open_key. by rewrite last_snoc. Qed.

(** What comes next in a grouped stream. *)
Lemma grouped_next slot post : forall pre key, grouped key (pre ++ slot :: post) ->
  match (if decide (pre = []) then key else open_key pre) with Some k => k = of_slot slot | None => True end /\
  heads (bool_decide (is_Some key)) (pre ++ slot :: post) =
    heads (bool_decide (is_Some key)) pre ++
      (if decide (is_Some (if decide (pre = []) then key else open_key pre)) then [] else [slot]) ++
      heads (negb (is_last_in_request slot)) post.
Proof.
  induction pre as [|x pre IH]; intros key; cbn [Datatypes.app grouped heads].
  - intros [Hk _]. rewrite decide_True by done. split; [done|]. by repeat case_decide; [rewrite bool_decide_true|rewrite bool_decide_false].
  - intros [Hk Hg]. apply IH in Hg as [H1 H2]. rewrite (decide_False (P := x :: pre = [])) by done.
    assert (Hopen : open_key (x :: pre) = if decide (pre = []) then (if is_last_in_request x then None else Some (of_slot x)) else open_key pre).
    { unfold open_key. destruct pre as [|y pre]; [by rewrite decide_True|]. rewrite decide_False by done. by rewrite last_cons_cons. }
    rewrite Hopen. split; [done|].
    assert (Hmid : bool_decide (is_Some (if is_last_in_request x then None else Some (of_slot x))) = negb (is_last_in_request x))
      by (by destruct (is_last_in_request x)).
    rewrite Hmid in H2. by rewrite H2, app_assoc.
Qed.

(** Every slot is of an event whose first slot the stream has, or of the one
    under way before it. *)
Lemma heads_cover pre : forall key, grouped key pre -> forall slot, slot ∈ pre ->
  key = Some (of_slot slot) \/ exists x, x ∈ heads (bool_decide (is_Some key)) pre /\ of_slot x = of_slot slot.
Proof.
  induction pre as [|y pre IH]; intros key; cbn [grouped heads]; [by intros _ ? ?%elem_of_nil|]. intros [Hk Hg] slot Hin.
  assert (Hmid : bool_decide (is_Some (if is_last_in_request y then None else Some (of_slot y))) = negb (is_last_in_request y))
    by (by destruct (is_last_in_request y)).
  assert (Hy : key = Some (of_slot y) \/ exists x, x ∈ (if bool_decide (is_Some key) then [] else [y]) /\ of_slot x = of_slot y).
  { destruct key as [k|]; [left; by rewrite Hk|right]. exists y. split; [by left|done]. }
  apply elem_of_cons in Hin as [->|Hin].
  - destruct Hy as [Hy|(x & Hx & Hxy)]; [by left|right]. exists x. split; [apply elem_of_app; by left|done].
  - destruct (IH _ Hg slot Hin) as [Hs|(x & Hx & Hxy)]; rewrite ?Hmid in *.
    + destruct (is_last_in_request y); [done|]. assert (Hys : of_slot y = of_slot slot) by (apply (f_equal (default (of_slot y))) in Hs; exact Hs).
      destruct Hy as [Hy|(x & Hx & Hxy)]; [left; congruence|right]. exists x. split; [apply elem_of_app; by left|congruence].
    + right. exists x. split; [apply elem_of_app; by right|done].
Qed.

Lemma answers_within l : grouped None (slots_of l) -> forall q, q ∈ answers l ->
  q ∈ flat_map (slot_request id) (heads false (slots_of l)) \/ q ∈ flat_map (early_request id) (earlies_of l).
Proof.
  intros Hg q Hq. apply list_elem_of_In, in_flat_map in Hq as (h & Hh & Hq). apply list_elem_of_In in Hh.
  destruct h as [|ev|slot b|slot|r|]; try done.
  - left. destruct (is_last_in_request slot); [|done].
    assert (Hs : slot ∈ slots_of l) by (apply list_elem_of_In, in_flat_map; exists (HSlot slot b); split; [by apply list_elem_of_In|by left]).
    destruct (heads_cover _ _ Hg slot Hs) as [?|(x & Hx & Hxy)]; [done|]. apply list_elem_of_In, in_flat_map. exists x.
    split; [by apply list_elem_of_In|]. unfold slot_request in *. injection Hxy as -> ->. done.
  - right. apply list_elem_of_In, in_flat_map. exists r. split; [|done]. apply in_flat_map. exists (HEarly r). split; [by apply list_elem_of_In|by left].
Qed.

Lemma sublist_flat_map {A B} (f : A -> list B) l k : l `sublist_of` k -> flat_map f l `sublist_of` flat_map f k.
Proof. induction 1; cbn [flat_map]; [constructor|by apply sublist_app|by apply sublist_inserts_l]. Qed.

Lemma sublist_in {A} (x : A) l k : l `sublist_of` k -> x ∈ l -> x ∈ k.
Proof. intros Hs Hx. apply (elem_of_submseteq l k x Hx). by apply sublist_submseteq. Qed.

Lemma grouped_app l k : forall key, grouped key (l ++ k) -> grouped key l.
Proof. induction l as [|x l IH]; intros key; cbn [Datatypes.app grouped]; [done|]. intros [? ?]. split; [done|by apply IH]. Qed.

Section ledger.
Context (asked : gset Z) (turns : list Turn) (Hconv : conversation id asked turns).

(** A slot about to be handed over answers a request that is due. *)
Lemma next_slot_due l slot : slots_of l ++ [slot] `prefix_of` published turns -> earlies_of l `sublist_of` script_seen turns ->
  match open_key (slots_of l) with
  | Some k => k = of_slot slot
  | None => o_connection_id slot = id -> o_request_id slot ∈ asked ∖ answered l
  end.
Proof using Hconv.
  intros [post Hp] Hs. destruct Hconv as [Hg _ Hnd Hin _ _]. rewrite <- app_assoc in Hp. cbn [Datatypes.app] in Hp. unfold requests in *.
  rewrite Hp in Hg, Hnd, Hin. pose proof (grouped_app _ _ _ Hg) as Hgl.
  destruct (grouped_next slot post (slots_of l) None Hg) as [Hk Hh]. change (bool_decide (is_Some None)) with false in Hh.
  assert (Hkey : (if decide (slots_of l = []) then None else open_key (slots_of l)) = open_key (slots_of l)).
  { destruct (slots_of l) as [|y ys]; [by rewrite decide_True|by rewrite decide_False]. }
  rewrite Hkey in Hk, Hh. destruct (open_key (slots_of l)) as [k|]; [done|]. intros Hid.
  rewrite (decide_False (P := is_Some None)) in Hh by (by intros [? ?]).
  rewrite Hh, flat_map_app in Hnd, Hin. cbn [flat_map Datatypes.app] in Hnd, Hin. unfold slot_request at 2 in Hnd. unfold slot_request at 2 in Hin.
  rewrite Hid, Z.eqb_refl in Hnd, Hin. rewrite <- !app_assoc in Hnd, Hin. cbn [Datatypes.app] in Hnd, Hin.
  apply NoDup_app in Hnd as (_ & Hd & Hnd). apply NoDup_cons in Hnd as [Hnot _].
  apply elem_of_difference. split.
  - rewrite Forall_forall in Hin. apply Hin, elem_of_app. right. by left.
  - unfold answered. rewrite elem_of_list_to_set. intros Ha. destruct (answers_within l Hgl _ Ha) as [Hx|Hx].
    + apply (Hd _ Hx). by left.
    + apply Hnot, elem_of_app. right. by eapply sublist_in, Hx; apply sublist_flat_map.
Qed.

(** And so does an early reply. *)
Lemma next_early_due l r : slots_of l `prefix_of` published turns -> earlies_of l ++ [r] `sublist_of` script_seen turns ->
  er_connection_id r = id -> er_request_id r ∈ asked ∖ answered l.
Proof using Hconv.
  intros [post Hp] Hs Hid. destruct Hconv as [Hg _ Hnd Hin _ _]. rewrite Hp in Hg. pose proof (grouped_app _ _ _ Hg) as Hgl.
  pose proof (sublist_flat_map (early_request id) _ _ Hs) as Hse. rewrite flat_map_app in Hse. cbn [flat_map Datatypes.app] in Hse.
  unfold early_request at 2 in Hse. rewrite Hid, Z.eqb_refl in Hse. cbn [Datatypes.app] in Hse.
  unfold requests in *. apply NoDup_app in Hnd as (_ & Hd & Hnd).
  assert (Hr : er_request_id r ∈ flat_map (early_request id) (script_seen turns)).
  { eapply sublist_in; [exact Hse|]. apply elem_of_app. right. by left. }
  apply elem_of_difference. split.
  - rewrite Forall_forall in Hin. apply Hin, elem_of_app. by right.
  - unfold answered. rewrite elem_of_list_to_set. intros Ha. destruct (answers_within l Hgl _ Ha) as [Hx|Hx].
    + apply (Hd (er_request_id r)); [|done]. rewrite Hp. clear -Hx. revert Hx. generalize false as mid.
      induction (slots_of l) as [|y ys IH]; intros mid; cbn [heads Datatypes.app flat_map]; [by intros ?%elem_of_nil|].
      rewrite !flat_map_app, !elem_of_app. intros [Hx|Hx]; [by left|right; by apply IH].
    + pose proof (sublist_NoDup _ _ Hnd Hse) as Hn. apply NoDup_app in Hn as (_ & Hn & _). apply (Hn _ Hx). by left.
Qed.

(** The ledger of a run is a conversation. *)
Lemma talk_total l : ordered l -> Forall change_ok l -> slots_of l `prefix_of` published turns -> earlies_of l `sublist_of` script_seen turns ->
  exists t, talk id asked l = Some t /\ under_way t = open_key (slots_of l) /\ (registered t = true -> due t = asked ∖ answered l).
Proof using Hconv.
  induction l as [|h l IH] using rev_ind; intros Ho Hc Hp Hs; [by exists talk_start|].
  apply Forall_app in Hc as [Hc Hch]. apply Forall_cons_1 in Hch as [Hch _]. rewrite slots_app in Hp. rewrite earlies_app in Hs.
  assert (Ho' : ordered l) by (intros pre post ->; apply (Ho pre (post ++ [h])); by rewrite <- app_assoc).
  assert (Hp' : slots_of l `prefix_of` published turns) by (by eapply prefix_app_l).
  assert (Hs' : earlies_of l `sublist_of` script_seen turns) by (etrans; [|exact Hs]; by apply sublist_inserts_r).
  destruct (IH Ho' Hc Hp' Hs') as (t & Ht & Hu & Hd). rewrite talk_snoc, Ht. cbn [mbind option_bind]. rewrite slots_app.
  assert (Hsame : answers [h] = [] -> answered (l ++ [h]) = answered l) by (intros Hz; unfold answered; by rewrite answers_split, Hz, app_nil_r).
  destruct h as [rs|ev|slot b|slot|r|]; cbn [talk_step].
  - exists t. rewrite Hsame, app_nil_r by done. done.
  - rewrite Hsame, app_nil_r by done. destruct ev as [c|c]; destruct (c =? id) eqn:Hcid; zb; try (by exists t).
    + subst c. destruct (Ho l [] eq_refl) as [Hsl Hse].
      assert (Hnone : answered l = ∅).
      { unfold answered. assert (Hz : answers l = []); [|by rewrite Hz]. clear -Hsl Hse. induction l as [|h l IHl]; [done|].
        change (h :: l) with ([h] ++ l) in *. rewrite slots_app in Hsl. rewrite earlies_app in Hse. rewrite answers_split.
        apply Forall_app in Hsl as [Hsl1 Hsl]. apply Forall_app in Hse as [Hse1 Hse]. rewrite (IHl Hsl Hse), app_nil_r.
        destruct h as [|ev|slot b|slot|r|]; try done; cbn [answers flat_map] in *; rewrite app_nil_r.
        - apply Forall_cons_1 in Hsl1 as [Hx _]. destruct (is_last_in_request slot); [|done]. unfold slot_request. by rewrite (proj2 (Z.eqb_neq _ _)).
        - apply Forall_cons_1 in Hse1 as [Hx _]. unfold early_request. by rewrite (proj2 (Z.eqb_neq _ _)). }
      assert (Hkey : forall c q, under_way t = Some (c, q) -> c <> id).
      { intros c q Hx. rewrite Hu in Hx. unfold open_key in Hx. destruct (last (slots_of l)) as [slot|] eqn:Hl; [|done].
        cbn [mbind option_bind] in Hx. destruct (is_last_in_request slot); [done|]. injection Hx as <- _.
        unfold slots_silent in Hsl. rewrite Forall_forall in Hsl. apply Hsl. by apply last_Some_elem_of. }
      destruct (under_way t) as [[c q]|] eqn:Hut.
      * rewrite (proj2 (Z.eqb_neq _ _)) by (by eapply Hkey). eexists. split; [done|]. cbn. split; [done|]. intros _. rewrite Hnone. set_solver.
      * eexists. split; [done|]. cbn. split; [done|]. intros _. rewrite Hnone. set_solver.
    + subst c. eexists. split; [done|]. by cbn.
  - pose proof (next_slot_due l slot Hp Hs') as Hn. change (slots_of [HSlot slot b]) with [slot]. rewrite open_snoc. rewrite <- Hu in Hn.
    assert (Hfits : slot_fits id t slot = true).
    { unfold slot_fits. destruct (under_way t); [by apply bool_decide_true|]. destruct (registered t); cbn [andb]; [|done].
      destruct (o_connection_id slot =? id) eqn:Hci; [|done]. zb. apply bool_decide_true. rewrite Hd by done. by apply Hn. }
    rewrite Hfits. eexists. split; [done|]. split; [done|]. cbn [take_slot registered due]. intros Hr. rewrite Hr, Hd by done. cbn [andb].
    unfold answered. rewrite answers_split, list_to_set_app_L. cbn [answers flat_map]. rewrite app_nil_r. unfold slot_request.
    destruct (o_connection_id slot =? id), (is_last_in_request slot); cbn [andb]; set_solver.
  - pose proof (next_slot_due l slot Hp Hs') as Hn. change (slots_of [HChange slot]) with [slot]. rewrite open_snoc. rewrite <- Hu in Hn.
    destruct Hch as [c Hpc]. assert (Hne : o_connection_id slot <> id).
    { destruct Hconv as [_ _ _ _ Hsl _]. rewrite Forall_forall in Hsl. eapply Hsl; [|exact Hpc].
      destruct Hp as [k ->]. apply elem_of_app. left. apply elem_of_app. right. by left. }
    assert (Hfits : slot_fits id t slot = true).
    { unfold slot_fits. destruct (under_way t); [by apply bool_decide_true|]. by rewrite (proj2 (Z.eqb_neq _ _) Hne), andb_false_r. }
    rewrite Hfits, (proj2 (Z.eqb_neq _ _) Hne). cbn [andb negb]. eexists. split; [done|]. split; [done|].
    cbn [take_slot registered due]. intros Hr. rewrite (proj2 (Z.eqb_neq _ _) Hne), andb_false_r, andb_false_l, Hsame by done. by apply Hd.
  - rewrite app_nil_r. unfold take_early. change (earlies_of [HEarly r]) with [r] in Hs.
    assert (Ha : answered (l ++ [HEarly r]) = answered l ∪ (if er_connection_id r =? id then {[ er_request_id r ]} else ∅)).
    { unfold answered. rewrite answers_split, list_to_set_app_L. cbn [answers flat_map]. rewrite app_nil_r. unfold early_request.
      destruct (er_connection_id r =? id); set_solver. }
    rewrite Ha. destruct (registered t) eqn:Hr; cbn [andb]; [|exists t; split; [done|]; split; [done|congruence]].
    destruct (er_connection_id r =? id) eqn:Hci; zb.
    + rewrite bool_decide_true by (rewrite Hd by done; by apply next_early_due). eexists. split; [done|]. cbn. split; [done|].
      intros _. rewrite Hd by done. set_solver.
    + exists t. split; [done|]. split; [done|]. intros _. rewrite Hd by done. set_solver.
  - exists t. rewrite Hsame, app_nil_r by done. done.
Qed.

Lemma all_sendable l : slots_of l `prefix_of` published turns -> earlies_of l `sublist_of` script_seen turns -> Forall sendable l.
Proof using Hconv.
  intros [post Hp] Hs. destruct Hconv as [_ _ _ _ Hsl Her]. rewrite Hp in Hsl. apply Forall_app in Hsl as [Hsl _].
  rewrite Forall_forall in Hsl. rewrite Forall_forall in Her. apply Forall_forall. intros h Hh. destruct h as [|ev|slot b|slot|r|]; cbn [sendable]; try done.
  - apply Hsl. apply list_elem_of_In, in_flat_map. exists (HSlot slot b). split; [by apply list_elem_of_In|by left].
  - apply Her. eapply sublist_in; [exact Hs|]. apply list_elem_of_In, in_flat_map. exists (HEarly r). split; [by apply list_elem_of_In|by left].
Qed.
End ledger.
End script.
End Script.

(** ** The client at the other end of the stage *)

Module Agreement.
Import Payloads Reading Talk Script Response.Interface Response.Walk Response.Promises Gate.Gate.

Section agreement.
Context {S R Q : Type} {Eg : Egress S R Q} {En : ResponseEncoder R Q} {Laws : EgressLaws S R Q} {EnL : ResponseEncoderLaws R Q}.
Context (heartbeat_interval : option Z).

(** What a prefix of the owed stream reads as. *)
Lemma reads_prefix n o id t ps o' s bytes : heard n o id t ps o' -> s = wrapped ps -> bytes `prefix_of` s ->
  exists o'', read_all o (frames_of MAX_FRAME_SIZE bytes).1 = Ok o''.
Proof.
  intros [Hf Hr _ _ _ _] -> Hp. apply (read_prefix o ps _ o' Hr). by apply frames_prefix.
Qed.

End agreement.
End Agreement.

(** ** A dialogue *)

Module Sample.
Import Payloads Reading Talk Script Agreement Response.Interface Response.Walk Response.Promises Response.Sample GateProofs.Sample.

(** Four requests sent; the stage of [Response.Sample] answers three. *)
Definition asked : Outstanding := Nat.iter 4 (fun o => snd (sent o)) default_outstanding.

Lemma asked_wf : wf 4 asked.
Proof.
  assert (H : forall n o, wf n o -> 0 <= n <= 8 -> wf (n + 1) (snd (sent o))).
  { intros n o Ho Hn. pose proof (sent_spec n o Ho) as Hs. destruct (sent o). apply Hs; widths; lia. }
  exact (H 3 _ (H 2 _ (H 1 _ (H 0 _ default_wf ltac:(lia)) ltac:(lia)) ltac:(lia)) ltac:(lia)).
Qed.

Definition sample_log : list (@Handed Z Z) :=
  [HSnapshot []; HControl (Connected 9); HSnapshot []; HSlot (slot_of 1 6 (Report 7) false) Gate.Gate.Policy; HSnapshot [busy];
   HSlot (slot_of 1 6 Stages.Live.BatchEnd true) Gate.Gate.Policy; HEarly busy; HSlot (slot_of 2 6 (Report 8) true) Gate.Gate.Policy;
   HSnapshot []].

Example sample_handed : (fun st => log st) <$> stopped (run None sample_stage sample_turns) = Some sample_log.
Proof. vm_compute. reflexivity. Qed.

Example sample_arrived :
  (fun st => bool_decide (stream (view (egress st)) 9 = Some (sock (view (egress st)) 9))) <$>
    stopped (run None sample_stage sample_turns) = Some true.
Proof. vm_compute. reflexivity. Qed.

Lemma sample_conversation : conversation 9 (Outstanding.owed asked) sample_turns.
Proof.
  constructor.
  - vm_compute. by repeat split.
  - cbn [introduced sample_turns]. split_and!; try done; intros Hin; vm_compute in Hin; by apply elem_of_nil in Hin.
  - apply (bool_decide_unpack _). vm_compute. exact I.
  - apply (bool_decide_unpack _). vm_compute. exact I.
  - cbn. repeat (apply Forall_cons_2; [split; [vm_compute; by split|by intros c Hc]|]). apply Forall_nil_2.
  - cbn. apply Forall_cons_2; [|apply Forall_nil_2]. split; [vm_compute; by split|done].
Qed.

End Sample.
