(* ===== verification/Failover.v ===== *)
(** * Failover: votes, promotions and the tenure they open

    The control plane elects with a library ([openraft], a parameter here);
    what the repository adds decides which of its outcomes may promote a
    replica. [Recency] is the order of journal tips, the tips heard from
    peers and the voter's filter ([raft/src/recency.rs]); [Rpc] what one
    authenticated envelope does ([raft/src/rpc_server.rs], with the
    supersession rule); [Request] the one-shot promotion request
    ([server-runtime/src/promotion.rs]); [Decision] the pure rules of
    [server-runtime/src/raft_promotion.rs] and [Thread] the poll loop around
    them; [Tenure] the leadership confirmation ([raft/src/driver.rs]) and the
    epoch a promotion journals ([server-runtime/src/server.rs]). What it is
    all for, that an automatic promotion keeps what the primary acknowledged,
    is the subject of [Survival]. *)

From stdpp Require Import gmap.
From S2P Require Import Prelude Cursors AckPolicy.
Import Cursors.Slots AckPolicy.Named.

(** ** Journal tips and votes *)

Module Recency.

Record JournalTip := { tip_epoch : Z; last_sequence : Z }.

(** Tuples compare from the left. *)
Definition compare_keys (a b : JournalTip) : comparison :=
  match tip_epoch a ?= tip_epoch b with Eq => last_sequence a ?= last_sequence b | c => c end.

Definition is_ahead_of (a b : JournalTip) : bool := match compare_keys a b with Gt => true | _ => false end.

Definition candidate_is_current (candidate local : JournalTip) : bool :=
  match compare_keys candidate local with Lt => false | _ => true end.

(** The last tip heard from each peer, and when. *)
Definition PeerTips := gmap Z (JournalTip * Z).
Definition record_at (tips : PeerTips) (peer : Z) (tip : JournalTip) (at_ : Z) : PeerTips := <[peer := (tip, at_)]> tips.
Definition sample (tips : PeerTips) (peer now : Z) : option (JournalTip * Z) :=
  (fun '(tip, at_) => (tip, sat_sub now at_)) <$> tips !! peer.

Definition LIVENESS_ESCAPE_DROPS : Z := 8.
Record VoteFilter := { consecutive_drops : Z }.
Definition default_filter : VoteFilter := {| consecutive_drops := 0 |}.

Definition should_deliver (f : VoteFilter) (candidate local : JournalTip) : bool * VoteFilter :=
  if candidate_is_current candidate local then (true, f)
  else if LIVENESS_ESCAPE_DROPS <=? consecutive_drops f then (true, f)
  else (false, {| consecutive_drops := consecutive_drops f + 1 |}).
Definition leader_observed (_ : VoteFilter) : VoteFilter := default_filter.

(** *** The order *)

Lemma compare_eq a b : compare_keys a b = Eq <-> a = b.
Proof.
  destruct a as [e s], b as [e' s']. unfold compare_keys. cbn [tip_epoch last_sequence]. destruct (Z.compare_spec e e') as [->|H|H].
  - rewrite Z.compare_eq_iff. split; [by intros ->|by intros [= ->]].
  - split; [done|]. intros [= ? ?]. lia.
  - split; [done|]. intros [= ? ?]. lia.
Qed.

Lemma ahead_spec a b : is_ahead_of a b = true <->
  tip_epoch b < tip_epoch a \/ (tip_epoch a = tip_epoch b /\ last_sequence b < last_sequence a).
Proof.
  unfold is_ahead_of, compare_keys. destruct (Z.compare_spec (tip_epoch a) (tip_epoch b));
    [destruct (Z.compare_spec (last_sequence a) (last_sequence b))|..]; split; try done; try lia; auto.
Qed.

Lemma current_spec a b : candidate_is_current a b = negb (is_ahead_of b a).
Proof.
  apply eq_true_iff_eq. rewrite negb_true_iff, <- not_true_iff_false, ahead_spec. unfold candidate_is_current, compare_keys.
  destruct (Z.compare_spec (tip_epoch a) (tip_epoch b)); [destruct (Z.compare_spec (last_sequence a) (last_sequence b))|..];
    split; intros; try done; lia.
Qed.
End Recency.

(** ** One envelope on an authenticated link *)

Module Rpc.
Import Recency.

(** The elections themselves are the library's: its handlers, on its own
    state, with the node a request names. *)
Class RaftApi (S V VR A AR I IR : Type) := {
  vote : S -> V -> result VR (list Z) * S;
  append_entries : S -> A -> result AR (list Z) * S;
  install_snapshot : S -> I -> result IR (list Z) * S;
  vote_for : V -> option Z;
  append_for : A -> option Z;
  install_for : I -> option Z
}.

Section rpc.
Context {S V VR A AR I IR : Type} `{RaftApi S V VR A AR I IR}.

Inductive RpcBody :=
| VoteReq (r : V) | VoteResp (r : VR)
| AppendReq (r : A) | AppendResp (r : AR)
| SnapshotReq (r : I) | SnapshotResp (r : IR)
| RpcError (why : list Z).

Record RpcFrame := { f_tip : JournalTip; body : RpcBody }.

Definition claimed_sender (b : RpcBody) : option Z :=
  match b with
  | VoteReq r => vote_for r | AppendReq r => append_for r | SnapshotReq r => install_for r
  | _ => None
  end.

(** What the server shares with the data plane and the driver: the fence,
    the advertised tip, whether recovery has seeded them, the tips heard, the
    filter, the shutdown flag and the library's state. *)
Record Node := {
  fence : FenceState;
  seq : Z;
  ready : bool;
  peer_tips : PeerTips;
  vote_filter : VoteFilter;
  shutdown : bool;
  raft : S
}.

Definition local_tip (n : Node) : JournalTip := {| tip_epoch := epoch (fence n); last_sequence := seq n |}.

Definition with_fence (n : Node) (f : FenceState) (s : bool) : Node :=
  {| fence := f; seq := seq n; ready := ready n; peer_tips := peer_tips n; vote_filter := vote_filter n; shutdown := s; raft := raft n |}.
Definition with_tips (n : Node) (t : PeerTips) : Node :=
  {| fence := fence n; seq := seq n; ready := ready n; peer_tips := t; vote_filter := vote_filter n; shutdown := shutdown n; raft := raft n |}.
Definition with_filter (n : Node) (f : VoteFilter) : Node :=
  {| fence := fence n; seq := seq n; ready := ready n; peer_tips := peer_tips n; vote_filter := f; shutdown := shutdown n; raft := raft n |}.
Definition with_raft (n : Node) (s : S) : Node :=
  {| fence := fence n; seq := seq n; ready := ready n; peer_tips := peer_tips n; vote_filter := vote_filter n; shutdown := shutdown n; raft := s |}.

(** [SupersessionPolicy::observe]; [serving] is the policy's closure at the
    call, [None] where no policy is armed. *)
Definition observe_peer_epoch (serving : option bool) (n : Node) (peer_epoch : Z) : Node :=
  match serving with
  | Some true => let '(_, f, s) := fence_if_superseded (fence n) peer_epoch (shutdown n) in with_fence n f s
  | _ => n
  end.

Definition admit_vote (n : Node) (candidate : JournalTip) : bool * Node :=
  if negb (ready n) then (false, n)
  else let '(ok, f) := should_deliver (vote_filter n) candidate (local_tip n) in (ok, with_filter n f).

Definition not_a_request : list Z := [].

Definition handle_body (n : Node) (b : RpcBody) : RpcBody * Node :=
  match b with
  | VoteReq r => let '(res, s) := vote (raft n) r in
                 (match res with Ok x => VoteResp x | Err e => RpcError e end, with_raft n s)
  | AppendReq r => let '(res, s) := append_entries (raft n) r in
                   (match res with Ok x => AppendResp x | Err e => RpcError e end, with_raft n s)
  | SnapshotReq r => let '(res, s) := install_snapshot (raft n) r in
                     (match res with Ok x => SnapshotResp x | Err e => RpcError e end, with_raft n s)
  | _ => (RpcError not_a_request, n)
  end.

(** The frame claims to come from another node than the key proved. *)
Definition impersonates (peer_id : Z) (f : RpcFrame) : bool :=
  match claimed_sender (body f) with Some claimed => negb (claimed =? peer_id) | None => false end.

(** The recency filter's turn: whether the request goes on to the library. *)
Definition filtered (n : Node) (f : RpcFrame) : bool * Node :=
  match body f with
  | VoteReq _ => admit_vote n (f_tip f)
  | AppendReq _ => (true, with_filter n (leader_observed (vote_filter n)))
  | _ => (true, n)
  end.

(** An envelope's tip, from a request or a reply: the supersession rule, then
    the record. *)
Definition heard_tip (serving : option bool) (peer now : Z) (n : Node) (tip : JournalTip) : Node :=
  let n := observe_peer_epoch serving n (tip_epoch tip) in
  with_tips n (record_at (peer_tips n) peer tip now).

(** One frame read from a connection pinned to [peer_id]: the reply, or
    [None] where the link is closed instead. *)
Definition handle_frame (serving : option bool) (peer_id now : Z) (n : Node) (f : RpcFrame) : option RpcFrame * Node :=
  if impersonates peer_id f then (None, n)
  else
    let n := heard_tip serving peer_id now n (f_tip f) in
    let '(ok, n) := filtered n f in
    if negb ok then (None, n)
    else let '(b, n) := handle_body n (body f) in (Some {| f_tip := local_tip n; body := b |}, n).

(** The reply to this node's own request to [target]. *)
Definition handle_reply (serving : option bool) (target now : Z) (n : Node) (f : RpcFrame) : Node :=
  heard_tip serving target now n (f_tip f).

(** The driver's bridge: a leader in the library's metrics re-arms the filter. *)
Definition bridge (n : Node) (current_leader : option Z) : Node :=
  match current_leader with Some _ => with_filter n (leader_observed (vote_filter n)) | None => n end.

(** *** A node's history *)

(** The data plane moves the fence, the tip and the readiness on its own. *)
Inductive Event :=
| Frame (serving : option bool) (peer now : Z) (f : RpcFrame)
| Reply (serving : option bool) (target now : Z) (f : RpcFrame)
| Bridge (current_leader : option Z)
| Data (fence : FenceState) (seq : Z) (ready : bool).

Definition step (n : Node) (e : Event) : Node :=
  match e with
  | Frame serving peer now f => snd (handle_frame serving peer now n f)
  | Reply serving target now f => handle_reply serving target now n f
  | Bridge l => bridge n l
  | Data fe sq rd => {| fence := fe; seq := sq; ready := rd; peer_tips := peer_tips n; vote_filter := vote_filter n;
                        shutdown := shutdown n; raft := raft n |}
  end.

(** What became of a request: a vote request with the two tips the filter
    compares, whether recovery had seeded the local one, and whether a reply
    went out; the other requests; and the leaders in the library's metrics. *)
Inductive Outcome :=
| Ballot (r : V) (candidate local : JournalTip) (ready answered : bool)
| Appended (r : A)
| Installed (r : I)
| Led.

Definition outcome (n : Node) (e : Event) : list Outcome :=
  match e with
  | Frame serving peer now f =>
    if impersonates peer f then []
    else
      match body f with
      | VoteReq r =>
        [Ballot r (f_tip f) (local_tip (heard_tip serving peer now n (f_tip f))) (ready n)
           (bool_decide (is_Some (fst (handle_frame serving peer now n f))))]
      | AppendReq r => [Appended r]
      | SnapshotReq r => [Installed r]
      | _ => []
      end
  | Bridge (Some _) => [Led]
  | _ => []
  end.

Fixpoint history (n : Node) (evs : list Event) : list Outcome * Node :=
  match evs with
  | [] => ([], n)
  | e :: evs => let '(vs, n') := history (step n e) evs in (outcome n e ++ vs, n')
  end.

(** The votes a ready node dropped since a leader was last seen. *)
Fixpoint drops (k : Z) (vs : list Outcome) : Z :=
  match vs with
  | [] => k
  | Ballot _ _ _ true false :: vs => drops (k + 1) vs
  | Ballot _ _ _ _ _ :: vs | Installed _ :: vs => drops k vs
  | Appended _ :: vs | Led :: vs => drops 0 vs
  end.

Lemma drops_app k vs ws : drops k (vs ++ ws) = drops (drops k vs) ws.
Proof. revert k. induction vs as [|[? ? ? [] []| | |]vs IH]; intros k; cbn; auto. Qed.

(** The library's state when it is asked for exactly the ballots answered,
    the appends and the snapshots. *)
Definition library (s : S) (v : Outcome) : S :=
  match v with
  | Ballot r _ _ _ true => snd (vote s r)
  | Ballot _ _ _ _ false | Led => s
  | Appended r => snd (append_entries s r)
  | Installed r => snd (install_snapshot s r)
  end.

(** The rule: only once its own tip is known, a node passes on the candidates
    not behind it, and any candidate after eight drops. *)
Definition passes (k : Z) (candidate local : JournalTip) (ready : bool) : bool :=
  ready && (negb (is_ahead_of local candidate) || (LIVENESS_ESCAPE_DROPS <=? k)).

(** The last tip heard from a peer, under the key it proved. *)
Definition hears (peer : Z) (e : Event) : option (JournalTip * Z) :=
  match e with
  | Frame _ p now f => if (p =? peer) && negb (impersonates p f) then Some (f_tip f, now) else None
  | Reply _ p now f => if p =? peer then Some (f_tip f, now) else None
  | _ => None
  end.
Definition last_heard (peer : Z) (evs : list Event) (start : option (JournalTip * Z)) : option (JournalTip * Z) :=
  fold_left (fun o e => match hears peer e with Some x => Some x | None => o end) evs start.

(** *** What one event does *)

Lemma heard_tip_kept serving peer now n tip :
  vote_filter (heard_tip serving peer now n tip) = vote_filter n /\ ready (heard_tip serving peer now n tip) = ready n /\
  peer_tips (heard_tip serving peer now n tip) = record_at (peer_tips n) peer tip now.
Proof.
  unfold heard_tip, observe_peer_epoch. destruct serving as [[|]|]; [|done..].
  by destruct (fence_if_superseded (fence n) (tip_epoch tip) (shutdown n)) as [[? ?] ?].
Qed.

Lemma handle_body_kept n b :
  vote_filter (snd (handle_body n b)) = vote_filter n /\ peer_tips (snd (handle_body n b)) = peer_tips n.
Proof.
  destruct b; cbn [handle_body]; try done.
  - by destruct (vote (raft n) r).
  - by destruct (append_entries (raft n) r).
  - by destruct (install_snapshot (raft n) r).
Qed.

Lemma filtered_tips n f : peer_tips (snd (filtered n f)) = peer_tips n.
Proof. unfold filtered, admit_vote. destruct (body f); try done. destruct (negb (ready n)); [done|]. by destruct (should_deliver _ _ _). Qed.

Lemma handle_frame_kept serving peer now n f : impersonates peer f = false ->
  vote_filter (snd (handle_frame serving peer now n f)) = vote_filter (snd (filtered (heard_tip serving peer now n (f_tip f)) f)) /\
  peer_tips (snd (handle_frame serving peer now n f)) = record_at (peer_tips n) peer (f_tip f) now.
Proof.
  intros Hi. unfold handle_frame. rewrite Hi. destruct (heard_tip_kept serving peer now n (f_tip f)) as (_ & _ & Ht). cbn zeta.
  set (m := heard_tip _ _ _ _ _) in *. pose proof (filtered_tips m f) as Hf. destruct (filtered m f) as [[] n'] eqn:Hfi; cbn [negb snd] in *.
  - destruct (handle_body_kept n' (body f)) as [H1 H2]. destruct (handle_body n' (body f)); cbn [snd] in *. split; congruence.
  - split; [done|congruence].
Qed.

(** A frame is answered, and the library asked, exactly where the filter lets
    it through. *)
Lemma handle_frame_asks serving peer now n f : impersonates peer f = false ->
  let '(ok, m) := filtered (heard_tip serving peer now n (f_tip f)) f in
  bool_decide (is_Some (fst (handle_frame serving peer now n f))) = ok /\
  raft (snd (handle_frame serving peer now n f)) =
    if ok then match body f with
               | VoteReq r => snd (vote (raft n) r)
               | AppendReq r => snd (append_entries (raft n) r)
               | SnapshotReq r => snd (install_snapshot (raft n) r)
               | _ => raft n
               end
    else raft n.
Proof.
  intros Hi. unfold handle_frame. rewrite Hi. cbn zeta.
  assert (Hr : raft (heard_tip serving peer now n (f_tip f)) = raft n).
  { unfold heard_tip, observe_peer_epoch. destruct serving as [[|]|]; [|done..]. by destruct (fence_if_superseded _ _ _) as [[? ?] ?]. }
  set (m := heard_tip _ _ _ _ _) in *. clearbody m.
  assert (Hf : raft (snd (filtered m f)) = raft n).
  { unfold filtered, admit_vote. destruct (body f); try done. destruct (negb (ready m)); [done|]. by destruct (should_deliver _ _ _). }
  destruct (filtered m f) as [[] m']; cbn [negb snd] in *; [|done]. rewrite <- Hf.
  destruct (body f); cbn [handle_body]; try done.
  - by destruct (vote (raft m') r).
  - by destruct (append_entries (raft m') r).
  - by destruct (install_snapshot (raft m') r).
Qed.

Lemma step_steered n e : 0 <= consecutive_drops (vote_filter n) <= LIVENESS_ESCAPE_DROPS ->
  consecutive_drops (vote_filter (step n e)) = drops (consecutive_drops (vote_filter n)) (outcome n e) /\
  0 <= consecutive_drops (vote_filter (step n e)) <= LIVENESS_ESCAPE_DROPS /\
  raft (step n e) = fold_left library (outcome n e) (raft n) /\
  forall r c l rdy ans, outcome n e = [Ballot r c l rdy ans] -> ans = passes (consecutive_drops (vote_filter n)) c l rdy.
Proof.
  intros Hk. destruct e as [serving peer now f|serving target now f|[l|]|fe sq rd]; cbn [step outcome].
  - destruct (impersonates peer f) eqn:Hi; [by unfold handle_frame; rewrite Hi|].
    destruct (handle_frame_kept serving peer now n f Hi) as [-> _]. pose proof (handle_frame_asks serving peer now n f Hi) as Ha.
    destruct (heard_tip_kept serving peer now n (f_tip f)) as (Hf & Hr & _). set (m := heard_tip _ _ _ _ _) in *. rewrite <- Hf, <- Hr in *. clearbody m.
    destruct (filtered m f) as [ok m'] eqn:Hfi. destruct Ha as [Hans ->]. cbn [snd].
    unfold filtered, admit_vote, should_deliver in Hfi. rewrite current_spec in Hfi. unfold LIVENESS_ESCAPE_DROPS in *.
    destruct (body f); rewrite ?Hans;
      [|injection Hfi as <- <-; cbn; split_and!; try done; lia..].
    unfold passes, LIVENESS_ESCAPE_DROPS. destruct (ready m) eqn:Hrd, (is_ahead_of (local_tip m) (f_tip f)) eqn:Hah; cbn [negb] in Hfi;
      [destruct (8 <=? consecutive_drops (vote_filter m)) eqn:Hd| ..]; injection Hfi as <- <-; cbn; zb;
      (split_and!; [done|lia|lia|done|by intros ? ? ? ? ? [= <- <- <- <- <-]; cbn; rewrite ?Hah, ?Hd]).
  - unfold handle_reply. destruct (heard_tip_kept serving target now n (f_tip f)) as (-> & _). split_and!; try done; try lia.
    unfold heard_tip, observe_peer_epoch. destruct serving as [[|]|]; [|done..]. by destruct (fence_if_superseded _ _ _) as [[? ?] ?].
  - unfold LIVENESS_ESCAPE_DROPS in *. cbn. split_and!; (done || lia).
  - cbn. split_and!; (done || lia).
  - cbn. split_and!; (done || lia).
Qed.

Lemma step_hears n e peer :
  peer_tips (step n e) !! peer = match hears peer e with Some x => Some x | None => peer_tips n !! peer end.
Proof.
  destruct e as [serving p now f|serving p now f|[l|]|fe sq rd]; cbn [step hears]; try done.
  - destruct (impersonates p f) eqn:Hi; cbn [negb].
    { unfold handle_frame. rewrite Hi, andb_false_r. done. }
    destruct (handle_frame_kept serving p now n f Hi) as [_ ->]. rewrite andb_true_r. unfold record_at.
    destruct (p =? peer) eqn:Hp; zb; [subst; apply lookup_insert_eq|by apply lookup_insert_ne].
  - unfold handle_reply. destruct (heard_tip_kept serving p now n (f_tip f)) as (_ & _ & ->). unfold record_at.
    destruct (p =? peer) eqn:Hp; zb; [subst; apply lookup_insert_eq|by apply lookup_insert_ne].
Qed.

Lemma outcome_one n e : outcome n e = [] \/ exists v, outcome n e = [v].
Proof.
  destruct e as [? peer ? f|?|[?|]|? ? ?]; cbn [outcome]; eauto. destruct (impersonates peer f); [eauto|]. destruct (body f); eauto.
Qed.

Lemma history_steered evs : forall n, 0 <= consecutive_drops (vote_filter n) <= LIVENESS_ESCAPE_DROPS ->
  let '(vs, n') := history n evs in
  (forall pre v post, vs = pre ++ v :: post ->
    drops (consecutive_drops (vote_filter n)) pre <= LIVENESS_ESCAPE_DROPS /\
    forall r c l rdy ans, v = Ballot r c l rdy ans -> ans = passes (drops (consecutive_drops (vote_filter n)) pre) c l rdy) /\
  drops (consecutive_drops (vote_filter n)) vs <= LIVENESS_ESCAPE_DROPS /\
  raft n' = fold_left library vs (raft n).
Proof.
  induction evs as [|e evs IH]; intros n Hk; cbn [history].
  { split; [by intros [|? ?] ? ?|]. cbn. split; [lia|done]. }
  destruct (step_steered n e Hk) as (H1 & H2 & H3 & H4). specialize (IH _ H2). destruct (history (step n e) evs) as [vs n'].
  destruct IH as (I1 & I2 & I3). rewrite drops_app, fold_left_app, <- H1, <- H3. split; [|done].
  destruct (outcome_one n e) as [Ho|[v Ho]]; rewrite Ho in *; cbn [Datatypes.app].
  { cbn [drops] in H1. rewrite H1 in I1. exact I1. }
  intros [|w pre] v' post [= <- ->]; [cbn [drops]; split; [lia|]; intros r c l rdy ans ->; by eapply H4|].
  destruct (I1 pre v' post eq_refl) as [Ha Hb]. rewrite H1, <- drops_app in Ha, Hb. done.
Qed.

Lemma history_hears evs peer : forall n, peer_tips (snd (history n evs)) !! peer = last_heard peer evs (peer_tips n !! peer).
Proof.
  induction evs as [|e evs IH]; intros n; [done|]. cbn [history]. specialize (IH (step n e)).
  destruct (history (step n e) evs) as [vs n']. cbn [snd] in *. rewrite IH, step_hears. done.
Qed.

(** C34: Votes are steered to the most recent journal and, once a node knows
    its own tip, never blocked for good. Over any history of envelopes, replies,
    metrics and data-plane progress, a vote request on a link of its own
    candidate is answered exactly when this node's tip has been recovered and
    either the candidate's advertised tip is not behind it or eight requests
    were dropped since a leader was last seen; a node whose tip is recovered never drops
    more than eight between two sightings. The library was asked for exactly
    the votes answered, with every append and snapshot and nothing else, in
    that order: a dropped or impersonated request never touches it. And the tip
    recorded for a peer is the last one heard on a link that proved that peer's
    key, so the promotion rule never reads a tip another node advertised. *)
Theorem votes_steered (n : Node) (evs : list Event) : vote_filter n = default_filter ->
  let '(vs, n') := history n evs in
  (forall pre r c l rdy answered post, vs = pre ++ Ballot r c l rdy answered :: post ->
    answered = passes (drops 0 pre) c l rdy /\ drops 0 pre <= LIVENESS_ESCAPE_DROPS) /\
  drops 0 vs <= LIVENESS_ESCAPE_DROPS /\
  raft n' = fold_left library vs (raft n) /\
  forall peer, peer_tips n' !! peer = last_heard peer evs (peer_tips n !! peer).
Proof.
  intros Hf. assert (Hk : 0 <= consecutive_drops (vote_filter n) <= LIVENESS_ESCAPE_DROPS) by by rewrite Hf.
  pose proof (history_steered evs n Hk) as Hc. pose proof (fun peer => history_hears evs peer n) as Hh. rewrite Hf in Hc.
  destruct (history n evs) as [vs n']. cbn [snd consecutive_drops default_filter] in *. destruct Hc as (H1 & H2 & H3).
  split_and!; try done. intros pre r c l rdy ans post Heq. destruct (H1 _ _ _ Heq) as [Ha Hb]. split; [by eapply Hb|done].
Qed.
End rpc.
End Rpc.

(** ** The promotion request *)

Module Request.

Definition NONE : Z := 0.
Definition MANUAL : Z := u64_max.

(** A term a request can carry. *)
Definition election_term (term : Z) : option Z := if (term =? NONE) || (term =? MANUAL) then None else Some term.

Inductive PromotionOrigin := Manual | Election (term : Z).

Definition epoch_floor (o : PromotionOrigin) : Z := match o with Manual => 1 | Election term => term end.

Definition word_of (o : PromotionOrigin) : Z := match o with Manual => MANUAL | Election term => term end.

(** A compare-exchange from [NONE]: whether it took, and the word after. *)
Definition request (word : Z) (o : PromotionOrigin) : bool * Z :=
  if word =? NONE then (true, word_of o) else (false, word).
Definition is_requested (word : Z) : bool := negb (word =? NONE).
Definition pending (word : Z) : option PromotionOrigin :=
  if word =? NONE then None else if word =? MANUAL then Some Manual else Some (Election word).

(** Origins a request is made with. *)
Definition origin_ok (o : PromotionOrigin) : Prop := match o with Manual => True | Election t => election_term t = Some t end.

Lemma word_ok o : origin_ok o -> word_of o <> NONE /\ pending (word_of o) = Some o.
Proof.
  unfold origin_ok, election_term, pending. destruct o as [|t]; cbn [word_of].
  - intros _. split; [by vm_compute|done].
  - destruct (t =? NONE) eqn:H1; [done|]. destruct (t =? MANUAL) eqn:H2; [done|]. zb. by split.
Qed.

(** Requesters in any order: the first one wins, and nothing changes it. *)
Fixpoint requests (word : Z) (os : list PromotionOrigin) : list bool * Z :=
  match os with
  | [] => ([], word)
  | o :: os => let '(took, word) := request word o in let '(rs, word) := requests word os in (took :: rs, word)
  end.

Lemma requests_lost word os : word <> NONE -> requests word os = (replicate (length os) false, word).
Proof.
  intros Hw. induction os as [|o os IH]; [done|]. cbn [requests]. unfold request.
  destruct (word =? NONE) eqn:H; zb; [done|]. by rewrite IH.
Qed.

Lemma first_request_wins o os : origin_ok o ->
  let '(rs, word) := requests NONE (o :: os) in
  rs = true :: replicate (length os) false /\ pending word = Some o.
Proof.
  intros Ho. destruct (word_ok o Ho) as [Hne Hp]. cbn [requests].
  change (request NONE o) with (true, word_of o). cbv iota beta. rewrite (requests_lost _ os Hne). by split.
Qed.
End Request.

(** ** The rules *)

Module Decision.
Import Recency Request.

(** Durations are nanoseconds. *)
Definition millis (n : Z) : Z := n * 1000000.
Definition PRIMARY_DOWN_GRACE : Z := millis 3000.
Definition PEER_TIP_GRACE : Z := millis 1500.
Definition CHALLENGER_HOLD_DOWN : Z := millis 1500.
Definition STAND_DOWN_GRACE : Z := millis 5000.

Definition ELECTION_TIMEOUT_MAX_MS : Z := 2000.
Definition LEADER_LEASE_MS : Z := ELECTION_TIMEOUT_MAX_MS.
Definition QUORUM_ACK_MAX_AGE_MS : Z := LEADER_LEASE_MS / 2.
Definition QUORUM_ACK_MAX_AGE : Z := millis QUORUM_ACK_MAX_AGE_MS.

(** Why a leader does not promote, in the order the rules are judged. *)
Inductive Refusal :=
| TipNotReady | Fenced | PrimaryLinkUp | PrimaryLinkBlip | NoLeaderLease | BlankGenesis
| PeerAhead | PeerUnknown | DiskPolicy | PolicyUnrecognised | TermBehindEpoch | TermTooLarge.

Definition leader_lease_check (quorum_ack_age : option Z) : result unit Refusal :=
  match quorum_ack_age with
  | Some age => if age <=? QUORUM_ACK_MAX_AGE then Ok tt else Err NoLeaderLease
  | None => Err NoLeaderLease
  end.

Inductive PeerTipObservation := Fresh (tip : JournalTip) | Silent (last : option JournalTip) | Unknown.

Definition observe_peer (tips : PeerTips) (peer leader_for now : Z) : PeerTipObservation :=
  match sample tips peer now with
  | Some (tip, age) => if age <=? PEER_TIP_GRACE then Fresh tip else Silent (Some tip)
  | None => if PEER_TIP_GRACE <? leader_for then Silent None else Unknown
  end.

Definition effective_ack_policy (lineage : option Z) (local_fallback : AckPolicy) : option AckPolicy :=
  match lineage with Some byte => from_byte byte | None => Some local_fallback end.

Record AutoPromotionInputs := {
  tip_ready : bool;
  is_fenced : bool;
  ack_policy : option AckPolicy;
  primary_link_up : bool;
  primary_link_down_for : Z;
  quorum_ack_age : option Z;
  primary_observed : bool;
  i_local_tip : JournalTip;
  peers : list (Z * PeerTipObservation);
  i_term : Z;
  fence_epoch : Z
}.

Fixpoint judge_peers (local : JournalTip) (ps : list (Z * PeerTipObservation)) : result unit Refusal :=
  match ps with
  | [] => Ok tt
  | (_, Fresh tip) :: ps => if is_ahead_of tip local then Err PeerAhead else judge_peers local ps
  | (_, Silent _) :: ps => judge_peers local ps
  | (_, Unknown) :: _ => Err PeerUnknown
  end.

Definition judge_policy (p : option AckPolicy) : result unit Refusal :=
  match p with
  | Some Disk => Err DiskPolicy
  | None => Err PolicyUnrecognised
  | Some (DiskAndRam | TwoDisks | Ram) => Ok tt
  end.

Definition auto_promotion_decision (i : AutoPromotionInputs) : result Z Refusal :=
  if negb (tip_ready i) then Err TipNotReady
  else if is_fenced i then Err Fenced
  else if primary_link_up i then Err PrimaryLinkUp
  else if primary_link_down_for i <? PRIMARY_DOWN_GRACE then Err PrimaryLinkBlip
  else
    _ <-? leader_lease_check (quorum_ack_age i) ;;
    if negb (primary_observed i) && (last_sequence (i_local_tip i) =? 0) then Err BlankGenesis
    else
      _ <-? judge_peers (i_local_tip i) (peers i) ;;
      _ <-? judge_policy (ack_policy i) ;;
      if i_term i <=? fence_epoch i then Err TermBehindEpoch
      else match election_term (i_term i) with Some t => Ok t | None => Err TermTooLarge end.

Definition challenger_should_campaign (tip_ready fenced primary_link_up : bool) (down_for : Z)
    (local : JournalTip) (leader_tip : option JournalTip) : bool :=
  if negb tip_ready || fenced || primary_link_up || (down_for <? PRIMARY_DOWN_GRACE) then false
  else match leader_tip with Some tip => is_ahead_of local tip | None => false end.

Inductive StandDown := StandNotReady | StandFenced | StandBehind.

Definition election_should_stand_down (tip_ready fenced : bool) (local : JournalTip) (samples : list (JournalTip * Z))
    : option StandDown :=
  if negb tip_ready then Some StandNotReady
  else if fenced then Some StandFenced
  else if existsb (fun '(tip, age) => (age <=? STAND_DOWN_GRACE) && is_ahead_of tip local) samples then Some StandBehind
  else None.

(** *** What a promotion rests on *)

Lemma judge_peers_ok local ps : judge_peers local ps = Ok tt <->
  forall id obs, (id, obs) ∈ ps ->
    match obs with Fresh tip => is_ahead_of tip local = false | Silent _ => True | Unknown => False end.
Proof.
  induction ps as [|[id [tip|last|]] ps IH]; cbn [judge_peers].
  - split; [by intros _ id obs ?%elem_of_nil|done].
  - destruct (is_ahead_of tip local) eqn:Ha.
    + split; [done|]. intros Hf. specialize (Hf id (Fresh tip) ltac:(by left)). cbn in Hf. congruence.
    + rewrite IH. split; intros Hf id' obs Hin; [apply elem_of_cons in Hin as [[= -> ->]|Hin]; [done|by eapply Hf]|].
      apply (Hf id'). by right.
  - rewrite IH. split; intros Hf id' obs Hin; [apply elem_of_cons in Hin as [[= -> ->]|Hin]; [done|by eapply Hf]|].
    apply (Hf id'). by right.
  - split; [done|]. intros Hf. by specialize (Hf id Unknown ltac:(by left)).
Qed.

Record allowed (i : AutoPromotionInputs) (t : Z) : Prop := {
  al_ready : tip_ready i = true;
  al_unfenced : is_fenced i = false;
  al_link : primary_link_up i = false;
  al_down : PRIMARY_DOWN_GRACE <= primary_link_down_for i;
  al_lease : exists age, quorum_ack_age i = Some age /\ age <= QUORUM_ACK_MAX_AGE;
  al_seen : primary_observed i = true \/ last_sequence (i_local_tip i) <> 0;
  al_peers : forall id obs, (id, obs) ∈ peers i ->
    match obs with Fresh tip => is_ahead_of tip (i_local_tip i) = false | Silent _ => True | Unknown => False end;
  al_policy : exists p, ack_policy i = Some p /\ p <> Disk;
  al_term : t = i_term i /\ fence_epoch i < t /\ t <> NONE /\ t <> MANUAL
}.

Lemma decision_allowed i t : auto_promotion_decision i = Ok t <-> allowed i t.
Proof.
  unfold auto_promotion_decision. split.
  - intros Hd. destruct (tip_ready i) eqn:H1; [|done]. destruct (is_fenced i) eqn:H2; [done|].
    destruct (primary_link_up i) eqn:H3; [done|]. destruct (primary_link_down_for i <? PRIMARY_DOWN_GRACE) eqn:H4; [done|].
    unfold leader_lease_check in Hd. destruct (quorum_ack_age i) as [age|] eqn:H5; [|done].
    destruct (age <=? QUORUM_ACK_MAX_AGE) eqn:H6; [|done]. cbn [rbind negb] in Hd.
    destruct (negb (primary_observed i) && (last_sequence (i_local_tip i) =? 0)) eqn:H7; [done|].
    destruct (judge_peers (i_local_tip i) (peers i)) as [[]|] eqn:H8; [|done]. cbn [rbind] in Hd.
    destruct (judge_policy (ack_policy i)) as [[]|] eqn:H9; [|done]. cbn [rbind] in Hd.
    destruct (i_term i <=? fence_epoch i) eqn:H10; [done|]. unfold election_term in Hd.
    destruct (i_term i =? NONE) eqn:H11; [done|]. destruct (i_term i =? MANUAL) eqn:H12; [done|]. injection Hd as <-. zb.
    constructor; try done.
    + by exists age.
    + by apply judge_peers_ok.
    + destruct (ack_policy i) as [[]|]; try done; by eexists.
  - intros [H1 H2 H3 H4 (age & H5 & H6) H7 H8 (p & H9 & H10) (-> & H11 & H12 & H13)]. rewrite H1, H2, H3. cbn [negb].
    rewrite (proj2 (Z.ltb_ge _ _)) by done. unfold leader_lease_check. rewrite H5, (proj2 (Z.leb_le _ _)) by done. cbn [rbind].
    assert (Hb : negb (primary_observed i) && (last_sequence (i_local_tip i) =? 0) = false).
    { destruct H7 as [->|Hz]; [done|]. apply andb_false_iff. right. by apply Z.eqb_neq. }
    rewrite Hb. rewrite (proj2 (judge_peers_ok _ _) H8). cbn [rbind]. rewrite H9.
    assert (Hp : judge_policy (Some p) = Ok tt) by by destruct p. rewrite Hp. cbn [rbind].
    rewrite (proj2 (Z.leb_gt _ _)) by done. unfold election_term.
    by rewrite (proj2 (Z.eqb_neq _ _) H12), (proj2 (Z.eqb_neq _ _) H13).
Qed.
End Decision.

(** ** The promotion thread *)

Module Thread.
Import Recency Request Decision.

Definition ROLE_LEADER : Z := 3.
Definition NO_QUORUM_ACK : Z := u64_max.
Definition millis_since_quorum_ack (raw : Z) : option Z := if raw =? NO_QUORUM_ACK then None else Some raw.

(** What one rule's loads return. The atomics are read again by each rule, so
    each has a view of its own; [manual] is whether an operator's [PROMOTE]
    lands before the rule looks at the request, [races] whether one lands
    between that look and the rule's own. *)
Record View := {
  running : bool;
  role : Z;
  term : Z;
  leader_id : Z;
  quorum_ack : Z;
  v_tip_ready : bool;
  v_fenced : bool;
  v_epoch : Z;
  v_seq : Z;
  lineage : option Z;
  requested : AckPolicy;
  v_link_up : bool;
  v_observed : bool;
  tips : PeerTips;
  now : Z;
  hold_now : Z;
  manual : bool;
  races : bool
}.

(** One iteration: the shutdown flag, the loop's own loads and clock
    readings, a view per rule, and a [PROMOTE] before the last look. *)
Record Poll := {
  stop : bool;
  h_link_up : bool;
  h_down_at : Z;
  h_down_read : Z;
  h_term : Z;
  h_leader : bool;
  h_led_at : Z;
  h_led_read : Z;
  promote_view : View;
  challenge_view : View;
  stand_view : View;
  last_manual : bool
}.

(** The thread's clocks and what it last logged, and the shared words it
    writes. *)
Record Watch := {
  link_down_since : option Z;
  leader_since : option (Z * Z);
  last_refused : option (Z * Refusal);
  behind_since : option (Z * Z * Z);
  last_nudged_term : Z;
  stand_down_reason : option StandDown;
  word : Z;
  elect_requested : bool;
  elect_enabled : bool
}.

Section thread.
Context (node_id : Z) (peer_ids : list Z).

Definition with_clocks (w : Watch) (down : option Z) (led : option (Z * Z)) : Watch :=
  {| link_down_since := down; leader_since := led; last_refused := last_refused w; behind_since := behind_since w;
     last_nudged_term := last_nudged_term w; stand_down_reason := stand_down_reason w; word := word w;
     elect_requested := elect_requested w; elect_enabled := elect_enabled w |}.
Definition with_word (w : Watch) (x : Z) (refused : option (Z * Refusal)) : Watch :=
  {| link_down_since := link_down_since w; leader_since := leader_since w; last_refused := refused; behind_since := behind_since w;
     last_nudged_term := last_nudged_term w; stand_down_reason := stand_down_reason w; word := x;
     elect_requested := elect_requested w; elect_enabled := elect_enabled w |}.
Definition with_challenge (w : Watch) (behind : option (Z * Z * Z)) (nudged : Z) (elect : bool) : Watch :=
  {| link_down_since := link_down_since w; leader_since := leader_since w; last_refused := last_refused w; behind_since := behind;
     last_nudged_term := nudged; stand_down_reason := stand_down_reason w; word := word w;
     elect_requested := elect; elect_enabled := elect_enabled w |}.
Definition with_stand (w : Watch) (reason : option StandDown) (enabled : bool) : Watch :=
  {| link_down_since := link_down_since w; leader_since := leader_since w; last_refused := last_refused w; behind_since := behind_since w;
     last_nudged_term := last_nudged_term w; stand_down_reason := reason; word := word w;
     elect_requested := elect_requested w; elect_enabled := enabled |}.

(** An operator's [PROMOTE], if one lands. *)
Definition promoted (lands : bool) (w : Watch) : Watch :=
  if lands then with_word w (snd (request (word w) Manual)) (last_refused w) else w.

Definition view_tip (v : View) : JournalTip := {| tip_epoch := v_epoch v; last_sequence := v_seq v |}.

Definition inputs (v : View) (down_for leader_for : Z) : AutoPromotionInputs :=
  {| tip_ready := v_tip_ready v; is_fenced := v_fenced v;
     ack_policy := effective_ack_policy (lineage v) (requested v);
     primary_link_up := v_link_up v; primary_link_down_for := down_for;
     quorum_ack_age := millis <$> millis_since_quorum_ack (quorum_ack v);
     primary_observed := v_observed v; i_local_tip := view_tip v;
     peers := map (fun p => (p, observe_peer (tips v) p leader_for (now v))) peer_ids;
     i_term := term v; fence_epoch := v_epoch v |}.

Definition consider_auto_promotion (w : Watch) (v : View) (down_for leader_for : Z) : Watch :=
  let w := promoted (manual v) w in
  if negb (running v) || negb (role v =? ROLE_LEADER) || is_requested (word w) then w
  else
    match auto_promotion_decision (inputs v down_for leader_for) with
    | Ok elected =>
      let w := promoted (races v) w in
      with_word w (snd (request (word w) (Election elected))) (last_refused w)
    | Err reason => with_word w (word w) (Some (term v, reason))
    end.

Definition consider_challenger_nudge (w : Watch) (v : View) (down_for : Z) : Watch :=
  let w := promoted (manual v) w in
  let quiet := with_challenge w None (last_nudged_term w) (elect_requested w) in
  if negb (running v) || (role v =? ROLE_LEADER) || is_requested (word w) then quiet
  else if (leader_id v =? 0) || (leader_id v =? node_id) then quiet
  else
    let leader_tip := match sample (tips v) (leader_id v) (now v) with
                      | Some (tip, age) => if age <=? PEER_TIP_GRACE then Some tip else None
                      | None => None end in
    if negb (challenger_should_campaign (v_tip_ready v) (v_fenced v) (v_link_up v) down_for (view_tip v) leader_tip) then quiet
    else
      let fresh := with_challenge w (Some (leader_id v, term v, hold_now v)) (last_nudged_term w) (elect_requested w) in
      match behind_since w with
      | Some (l, t, since) =>
        if (l =? leader_id v) && (t =? term v) then
          if (sat_sub (hold_now v) since <? CHALLENGER_HOLD_DOWN) || (last_nudged_term w =? term v) then w
          else with_challenge w (behind_since w) (term v) true
        else fresh
      | None => fresh
      end.

Definition consider_election_stand_down (w : Watch) (v : View) : Watch :=
  let samples := omap (fun p => sample (tips v) p (now v)) peer_ids in
  let reason := election_should_stand_down (v_tip_ready v) (v_fenced v) (view_tip v) samples in
  with_stand w reason (match reason with None => true | Some _ => false end).

(** The loop's own clocks. *)
Definition clocks (w : Watch) (p : Poll) : Watch :=
  with_clocks w
    (if h_link_up p then None else match link_down_since w with None => Some (h_down_at p) | s => s end)
    (if negb (h_leader p) then None
     else match leader_since w with
          | Some (t, s) => if t =? h_term p then Some (t, s) else Some (h_term p, h_led_at p)
          | None => Some (h_term p, h_led_at p)
          end).
Definition down_for (w : Watch) (p : Poll) : Z := match link_down_since w with Some s => sat_sub (h_down_read p) s | None => 0 end.
Definition led_for (w : Watch) (p : Poll) : Z := match leader_since w with Some (_, s) => sat_sub (h_led_read p) s | None => 0 end.

(** One iteration; whether the loop goes on. *)
Definition poll (w : Watch) (p : Poll) : Watch * bool :=
  let w := clocks w p in
  let down := down_for w p in
  let w := consider_auto_promotion w (promote_view p) down (led_for w p) in
  let w := consider_challenger_nudge w (challenge_view p) down in
  let w := consider_election_stand_down w (stand_view p) in
  let w := promoted (last_manual p) w in
  (w, negb (is_requested (word w))).

(** The loop, and the flag it clears on its way out. *)
Fixpoint run (w : Watch) (ps : list Poll) : Watch * bool :=
  match ps with
  | [] => (w, false)
  | p :: ps =>
    let done := (with_stand w (stand_down_reason w) true, true) in
    if stop p then done
    else let '(w, go) := poll w p in
         if go then run w ps else (with_stand w (stand_down_reason w) true, true)
  end.

Definition start (x : Z) : Watch :=
  {| link_down_since := None; leader_since := None; last_refused := None; behind_since := None; last_nudged_term := 0;
     stand_down_reason := None; word := x; elect_requested := false; elect_enabled := true |}.

(** *** What a promotion was filed on *)

(** The polls [seen] end in a stretch in which [P] held at each one, begun at
    the poll [q]. *)
Definition since (P : Poll -> Prop) (seen : list Poll) (q : Poll) : Prop :=
  exists a b, seen = a ++ q :: b /\ Forall P (q :: b).

Definition linkless (p : Poll) : Prop := h_link_up p = false.
Definition leads (t : Z) (p : Poll) : Prop := h_leader p = true /\ h_term p = t.

(** The thread's clocks tell how long each stretch has lasted. *)
Record clocked (seen : list Poll) (w : Watch) : Prop := {
  clocked_down : forall s, link_down_since w = Some s -> exists q, since linkless seen q /\ h_down_at q = s;
  clocked_led : forall t s, leader_since w = Some (t, s) -> exists q, since (leads t) seen q /\ h_led_at q = s
}.

Lemma since_new (P : Poll -> Prop) seen p : P p -> since P (seen ++ [p]) p.
Proof. intros Hp. exists seen, []. by repeat constructor. Qed.
Lemma since_more (P : Poll -> Prop) seen q p : since P seen q -> P p -> since P (seen ++ [p]) q.
Proof.
  intros (a & b & -> & Hf) Hp. exists a, (b ++ [p]). split; [by rewrite <- app_assoc|].
  rewrite app_comm_cons. apply Forall_app. split; [done|]. by constructor.
Qed.

Lemma clocks_clocked seen w p : clocked seen w -> clocked (seen ++ [p]) (clocks w p).
Proof.
  intros [Hd Hl]. constructor; cbn.
  - destruct (h_link_up p) eqn:Hu; [done|]. destruct (link_down_since w) as [s0|] eqn:Hs; intros s [= <-].
    + destruct (Hd s0 eq_refl) as (q & Hq & ?). exists q. split; [by apply since_more|done].
    + exists p. split; [by apply since_new|done].
  - intros t s. destruct (h_leader p) eqn:Hu; cbn [negb]; [|done].
    assert (Hnew : Some (h_term p, h_led_at p) = Some (t, s) -> exists q, since (leads t) (seen ++ [p]) q /\ h_led_at q = s).
    { intros [= <- <-]. exists p. split; [by apply since_new|done]. }
    destruct (leader_since w) as [[t0 s0]|] eqn:Hs; [|done]. destruct (t0 =? h_term p) eqn:Ht; zb; [|done].
    intros [= <- <-]. destruct (Hl t0 s0 eq_refl) as (q & Hq & ?). exists q. split; [|done]. by apply since_more.
Qed.

(** Only the clocks' own step moves them. *)
Definition same_clocks (w w' : Watch) : Prop := link_down_since w' = link_down_since w /\ leader_since w' = leader_since w.

Lemma promoted_kept lands w : same_clocks w (promoted lands w) /\
  (word (promoted lands w) = word w \/ (word w = NONE /\ word (promoted lands w) = MANUAL)).
Proof.
  unfold promoted, request. destruct lands; [|by split; [|left]]. split; [done|]. cbn.
  destruct (word w =? NONE) eqn:Hw; zb; [by right|by left].
Qed.

Lemma challenge_kept w v d : same_clocks w (consider_challenger_nudge w v d) /\
  (word (consider_challenger_nudge w v d) = word w \/ (word w = NONE /\ word (consider_challenger_nudge w v d) = MANUAL)).
Proof.
  unfold consider_challenger_nudge. cbn zeta. destruct (promoted_kept (manual v) w) as [Hs Hw]. set (u := promoted (manual v) w) in *.
  repeat (match goal with |- context [if ?b then _ else _] => destruct b end; [by split|]).
  destruct (behind_since u) as [[[l t] s]|]; [|by split]. destruct (_ && _); [|by split]. destruct (_ || _); by split.
Qed.

(** What the decision was taken on. *)
Definition filed_on (w : Watch) (p : Poll) (t : Z) : Prop :=
  running (promote_view p) = true /\ role (promote_view p) = ROLE_LEADER /\
  allowed (inputs (promote_view p) (down_for w p) (led_for w p)) t.

Lemma promotion_kept w v d l : same_clocks w (consider_auto_promotion w v d l) /\
  (word (consider_auto_promotion w v d l) = word w \/
   (word w = NONE /\ (word (consider_auto_promotion w v d l) = MANUAL \/
     running v = true /\ role v = ROLE_LEADER /\ allowed (inputs v d l) (word (consider_auto_promotion w v d l))))).
Proof.
  unfold consider_auto_promotion. cbn zeta. destruct (promoted_kept (manual v) w) as [Hs Hw]. set (u := promoted (manual v) w) in *.
  destruct (negb (running v) || negb (role v =? ROLE_LEADER) || is_requested (word u)) eqn:Hg; [split; [done|]; tauto|].
  apply orb_false_iff in Hg as [Hg Hq]. apply orb_false_iff in Hg as [Hr Hl]. apply negb_false_iff in Hr, Hl. apply Z.eqb_eq in Hl.
  unfold is_requested in Hq. apply negb_false_iff, Z.eqb_eq in Hq.
  assert (Hnone : word w = NONE) by (destruct Hw as [?|[? ?]]; congruence).
  destruct (auto_promotion_decision (inputs v d l)) as [t|r] eqn:Hd; [|cbn; split; [done|]; left; congruence].
  apply decision_allowed in Hd. destruct (promoted_kept (races v) u) as [Hs2 Hw2]. set (u2 := promoted (races v) u) in *.
  split; [destruct Hs, Hs2; split; cbn; congruence|]. right. split; [done|]. cbn.
  destruct Hw2 as [->|[_ ->]]; [rewrite Hq; right; by split_and!|left]. unfold request.
  by change (MANUAL =? NONE) with false.
Qed.

Lemma poll_filed seen w p : clocked seen w ->
  let w' := fst (poll w p) in
  clocked (seen ++ [p]) w' /\
  (word w' = word w \/ (word w = NONE /\ (word w' = MANUAL \/
    (clocked (seen ++ [p]) (clocks w p) /\ filed_on (clocks w p) p (word w'))))).
Proof.
  intros Hc. unfold poll. cbn [fst]. pose proof (clocks_clocked seen w p Hc) as Hk. set (w0 := clocks w p) in *.
  assert (H0 : word w0 = word w) by done.
  destruct (promotion_kept w0 (promote_view p) (down_for w0 p) (led_for w0 p)) as [[C1 C1'] W1].
  set (w1 := consider_auto_promotion _ _ _ _) in *.
  destruct (challenge_kept w1 (challenge_view p) (down_for w0 p)) as [[C2 C2'] W2]. set (w2 := consider_challenger_nudge _ _ _) in *.
  set (w3 := consider_election_stand_down w2 (stand_view p)).
  assert (H3 : word w3 = word w2 /\ same_clocks w2 w3) by done. destruct H3 as [H3 [C3 C3']].
  destruct (promoted_kept (last_manual p) w3) as [[C4 C4'] W4]. set (w4 := promoted _ w3) in *. split.
  - destruct Hk as [Hd Hl]. constructor; intros; [apply Hd|apply Hl]; congruence.
  - rewrite H0 in W1. rewrite H3 in W4. unfold filed_on.
    destruct W1 as [W1|[Hn [W1|(Hr & Hl & Ha)]]]; destruct W2 as [W2|[Hn2 W2]]; destruct W4 as [W4|[Hn4 W4]]; rewrite ?W4, ?W2 in *;
      try (left; congruence); try (right; split; [congruence|left; congruence]).
    + right. split; [done|]. right. by split.
Qed.

Lemma run_filed ps : forall seen w t, clocked seen w -> word w = NONE ->
  pending (word (fst (run w ps))) = Some (Election t) ->
  exists pre p post w0, ps = pre ++ p :: post /\ clocked (seen ++ pre ++ [p]) w0 /\ filed_on w0 p t /\
    Forall (fun q => stop q = false) (pre ++ [p]).
Proof.
  induction ps as [|p ps IH]; intros seen w t Hc Hw; cbn [run fst].
  { rewrite Hw. done. }
  destruct (stop p) eqn:Hstop; [cbn; by rewrite Hw|]. destruct (poll_filed seen w p Hc) as [Hc' Hf]. cbn zeta in *.
  assert (Hgo : snd (poll w p) = negb (is_requested (word (fst (poll w p))))) by done.
  destruct (poll w p) as [w' go]. cbn [fst snd] in *. subst go.
  assert (Hhere : word w' <> NONE -> pending (word w') = Some (Election t) ->
    exists pre p0 post w0, p :: ps = pre ++ p0 :: post /\ clocked (seen ++ pre ++ [p0]) w0 /\ filed_on w0 p0 t /\
      Forall (fun q => stop q = false) (pre ++ [p0])).
  { intros Hne Hp. destruct Hf as [Hf|[_ [Hf|[Hk Hf]]]]; [congruence|by rewrite Hf in Hp|].
    assert (Heq : word w' = t).
    { unfold pending in Hp. destruct (word w' =? NONE) eqn:E1; [done|]. destruct (word w' =? MANUAL) eqn:E2; [done|]. by injection Hp. }
    rewrite Heq in Hf. exists [], p, ps, (clocks w p). split; [done|]. split; [done|]. split; [done|]. by repeat constructor. }
  unfold is_requested. destruct (word w' =? NONE) eqn:Hz; cbn [negb].
  - apply Z.eqb_eq in Hz. intros Hp. destruct (IH (seen ++ [p]) w' t Hc' Hz Hp) as (pre & p0 & post & w0 & -> & H1 & H2 & H3).
    exists (p :: pre), p0, post, w0. split; [done|]. split; [by rewrite <- app_assoc in H1|]. split; [done|]. by constructor.
  - apply Z.eqb_neq in Hz. cbn. by apply Hhere.
Qed.

Lemma down_for_since seen w p : clocked seen w -> 0 < down_for w p ->
  exists q, since linkless seen q /\ down_for w p = sat_sub (h_down_read p) (h_down_at q).
Proof.
  intros [Hd _]. unfold down_for. destruct (link_down_since w) as [s|] eqn:Hs; [|lia]. intros _.
  destruct (Hd s eq_refl) as (q & Hq & <-). by exists q.
Qed.

Lemma led_for_since seen w p : clocked seen w -> 0 < led_for w p ->
  exists t q, since (leads t) seen q /\ led_for w p = sat_sub (h_led_read p) (h_led_at q).
Proof.
  intros [_ Hl]. unfold led_for. destruct (leader_since w) as [[t s]|] eqn:Hs; [|lia]. intros _.
  destruct (Hl t s eq_refl) as (q & Hq & <-). by exists t, q.
Qed.

(** What was known of a peer when the promotion was filed: its last tip was
    not ahead, or it had been silent for the grace; one never heard had not
    answered a leader of one term for that long. *)
Definition peer_settled (seen : list Poll) (p : Poll) (id : Z) : Prop :=
  let v := promote_view p in
  match tips v !! id with
  | Some (tip, at_) => sat_sub (now v) at_ <= PEER_TIP_GRACE -> is_ahead_of tip (view_tip v) = false
  | None => exists t q, since (leads t) seen q /\ PEER_TIP_GRACE < sat_sub (h_led_read p) (h_led_at q)
  end.

(** C28: A replica promotes itself only on evidence. Whatever the atomics,
    the clock and racing operators do over the life of the thread, an election
    it files was filed by one poll, before which the loop was never told to
    stop, and at which: the node led the control plane, a majority had
    acknowledged it within a second, its journal was recovered and it was not
    fenced; the link to the primary had been found down by every poll of a
    stretch of at least three seconds; no peer heard within the grace was ahead
    of it, and a peer never heard had failed to answer this leader for longer
    than that; the policy its lineage was acknowledged under needs a second
    node; and the term is the one read, above the epoch in force. *)
Theorem promotion_earned (ps : list Poll) (t : Z) :
  pending (word (fst (run (start NONE) ps))) = Some (Election t) ->
  exists pre p post, ps = pre ++ p :: post /\ Forall (fun q => stop q = false) (pre ++ [p]) /\
    let v := promote_view p in
    role v = ROLE_LEADER /\ t = term v /\ v_epoch v < t /\
    v_tip_ready v = true /\ v_fenced v = false /\ v_link_up v = false /\
    (exists ms, millis_since_quorum_ack (quorum_ack v) = Some ms /\ ms <= 1000) /\
    (exists q, since linkless (pre ++ [p]) q /\ PRIMARY_DOWN_GRACE <= sat_sub (h_down_read p) (h_down_at q)) /\
    (exists policy, effective_ack_policy (lineage v) (requested v) = Some policy /\ policy <> Disk) /\
    (v_observed v = true \/ v_seq v <> 0) /\
    forall id, id ∈ peer_ids -> peer_settled (pre ++ [p]) p id.
Proof.
  intros Hp. assert (Hc : clocked [] (start NONE)) by (constructor; discriminate).
  destruct (run_filed ps [] (start NONE) t Hc eq_refl Hp) as (pre & p & post & w0 & -> & Hk & (Hrun & Hrole & Ha) & Hstop).
  cbn [app] in Hk. exists pre, p, post. split; [done|]. split; [done|]. cbn zeta.
  destruct Ha as [A1 A2 A3 A4 (age & A5 & A6) A7 A8 A9 (-> & A10 & _)]. cbn [inputs tip_ready is_fenced ack_policy primary_link_up
    primary_link_down_for quorum_ack_age primary_observed i_local_tip peers i_term fence_epoch view_tip last_sequence] in *.
  split_and!; try done.
  - apply fmap_Some in A5 as (ms & A5 & ->). exists ms. split; [done|].
    unfold QUORUM_ACK_MAX_AGE, millis, QUORUM_ACK_MAX_AGE_MS, LEADER_LEASE_MS, ELECTION_TIMEOUT_MAX_MS in A6. change (2000 / 2) with 1000 in A6. lia.
  - destruct (down_for_since _ w0 p Hk) as (q & Hq & Hd); [unfold PRIMARY_DOWN_GRACE, millis in A4; lia|].
    exists q. split; [done|]. by rewrite <- Hd.
  - intros id Hid. unfold peer_settled. specialize (A8 id (observe_peer (tips (promote_view p)) id (led_for w0 p) (now (promote_view p)))).
    assert (Hin : (id, observe_peer (tips (promote_view p)) id (led_for w0 p) (now (promote_view p))) ∈
      map (fun x => (x, observe_peer (tips (promote_view p)) x (led_for w0 p) (now (promote_view p)))) peer_ids).
    { apply list_elem_of_In, (in_map (fun x => (x, observe_peer (tips (promote_view p)) x (led_for w0 p) (now (promote_view p))))).
      by apply list_elem_of_In. }
    specialize (A8 Hin). clear Hin. unfold observe_peer, sample in A8.
    destruct (tips (promote_view p) !! id) as [[tip at_]|]; cbn [fmap option_fmap option_map] in A8.
    + intros Hle. apply Z.leb_le in Hle. by rewrite Hle in A8.
    + destruct (PEER_TIP_GRACE <? led_for w0 p) eqn:Hl; [|done]. zb.
      destruct (led_for_since _ w0 p Hk) as (t & q & Hq & Heq); [unfold PEER_TIP_GRACE, millis in Hl; lia|].
      exists t, q. split; [done|]. by rewrite <- Heq.
Qed.
End thread.
End Thread.

(** ** The tenure a promotion opens *)

Module Tenure.
Import Request Decision.

Definition LEADER_CONFIRM_TIMEOUT_MS : Z := 500.
Definition LEADER_CONFIRM_TIMEOUT : Z := millis LEADER_CONFIRM_TIMEOUT_MS.
Definition SCHEDULING_SLACK_MS : Z := 200.

Inductive LeaderConfirmError := NotLeader | TermMoved (now : Z) | NoQuorum | TimedOut | DriverStopped.

(** The library's answer to a linearizable read: the read log's term, if
    any, or why there is none. *)
Inductive ReadLogIdAnswer := ReadLog (term : option Z) | ForwardToLeader | QuorumNotEnough | Fatal.

Definition confirmation_outcome (term : Z) (answer : ReadLogIdAnswer) : result unit LeaderConfirmError :=
  match answer with
  | ReadLog (Some confirmed) => if confirmed =? term then Ok tt else Err (TermMoved confirmed)
  | ReadLog None => Err NotLeader
  | ForwardToLeader => Err NotLeader
  | QuorumNotEnough => Err NoQuorum
  | Fatal => Err DriverStopped
  end.

(** What the wait for the driver's reply ended in. *)
Inductive Received := Answered (o : result unit LeaderConfirmError) | Timeout | Disconnected.

Definition accept_answer (received : Received) (now deadline : Z) : result unit LeaderConfirmError :=
  match received with
  | Answered o => if deadline <? now then Err TimedOut else o
  | Timeout => Err TimedOut
  | Disconnected => Err DriverStopped
  end.

(** A confirmation's environment: whether the request reached the driver,
    what it answered, if it did, and the clock before it is asked and after. *)
Record Confirm := { sent : bool; answer : option ReadLogIdAnswer; hung_up : bool; asked_at : Z; read_at : Z }.

Definition confirm (c : Confirm) (term : Z) : result unit LeaderConfirmError :=
  let deadline := asked_at c + LEADER_CONFIRM_TIMEOUT in
  if negb (sent c) then Err DriverStopped
  else accept_answer (match answer c with
                      | Some a => Answered (confirmation_outcome term a)
                      | None => if hung_up c then Disconnected else Timeout end) (read_at c) deadline.

Definition confirm_leadership (handle : option Confirm) (term : Z) : result unit LeaderConfirmError :=
  match handle with Some c => confirm c term | None => Err DriverStopped end.

Definition mint (f : FenceState) (o : PromotionOrigin) : Z := Z.max (sat_add (epoch f) 1) (epoch_floor o).

Definition misaligned_election_term (o : PromotionOrigin) (new_epoch : Z) : option Z :=
  match o with Manual => None | Election term => if new_epoch =? term then None else Some term end.

(** The epoch of the [EpochBump] published, or the refusal with nothing
    published. *)
Definition journal_promotion_epoch_bump (o : PromotionOrigin) (f : FenceState) (handle : option Confirm)
    : result Z LeaderConfirmError :=
  let new_epoch := mint f o in
  match o with
  | Manual => Ok new_epoch
  | Election term => match confirm_leadership handle term with Ok _ => Ok new_epoch | Err e => Err e end
  end.

(** The confirmation is read, and acted on, inside the lease it renewed. *)
Lemma confirmed_in_lease : LEADER_CONFIRM_TIMEOUT_MS + SCHEDULING_SLACK_MS < LEADER_LEASE_MS.
Proof. by vm_compute. Qed.

Lemma confirm_ok c term : confirm c term = Ok tt ->
  answer c = Some (ReadLog (Some term)) /\ read_at c <= asked_at c + LEADER_CONFIRM_TIMEOUT.
Proof.
  unfold confirm. destruct (sent c); [|done]. cbn [negb]. destruct (answer c) as [a|]; [|by destruct (hung_up c)].
  cbn [accept_answer]. destruct (_ <? read_at c) eqn:Hd; [done|]. zb. destruct a as [[t|]| | |]; cbn; try done.
  destruct (t =? term) eqn:Ht; [|done]. zb. intros _. by subst.
Qed.

(** A node that hears a higher epoch stops serving. *)
Definition fenced_by (f : FenceState) (e : Z) : Prop := forall s, fence_if_superseded f e s = (Some (negb (fenced f)), {| epoch := epoch f; fenced := true |}, true).

Lemma higher_fences f e : epoch f < e -> fenced_by f e.
Proof. intros He s. unfold fence_if_superseded. by rewrite (proj2 (Z.leb_gt _ _)). Qed.

(** C33: A tenure opens above every epoch it supersedes, and an automatic one
    only while a majority confirms the term it was elected at. Any node still
    at the epoch the promotion found, or below the one it minted, is fenced on
    hearing it; an election's bump is published only if the control plane
    answered, within half a second of being asked, that this node leads in
    exactly that term; and unless a concurrent promotion has raised the fence
    to the term meanwhile the epoch is the term, so of two such tenures the
    later election's fences the earlier's. *)
Theorem tenure_fences (o : PromotionOrigin) (f : FenceState) (handle : option Confirm) (e : Z) :
  epoch f < u64_max -> journal_promotion_epoch_bump o f handle = Ok e ->
  (forall f', epoch f' <= epoch f \/ epoch f' < e -> fenced_by f' e) /\
  match o with
  | Manual => 0 <= epoch f -> e = epoch f + 1
  | Election t =>
    (exists c, handle = Some c /\ answer c = Some (ReadLog (Some t)) /\ read_at c <= asked_at c + LEADER_CONFIRM_TIMEOUT) /\
    (epoch f < t -> e = t /\ misaligned_election_term o e = None /\
      forall o' f' handle' t' e', o' = Election t' -> t < t' -> epoch f' < t' ->
        journal_promotion_epoch_bump o' f' handle' = Ok e' -> fenced_by {| epoch := e; fenced := false |} e')
  end.
Proof.
  intros Hmax He. assert (Hm : e = mint f o).
  { unfold journal_promotion_epoch_bump in He. destruct o as [|t]; [by injection He|].
    destruct (confirm_leadership handle t); [by injection He|done]. }
  assert (Hlt : epoch f < e) by (subst e; unfold mint, sat_add; lia).
  split; [intros f' Hf'; apply higher_fences; lia|]. destruct o as [|t].
  - subst e. unfold mint, sat_add. cbn [epoch_floor]. lia.
  - split.
    + unfold journal_promotion_epoch_bump in He. destruct handle as [c|]; [|done]. cbn [confirm_leadership] in He.
      destruct (confirm c t) as [[]|] eqn:Hc; [|done]. exists c. split; [done|]. by apply confirm_ok.
    + intros Ht. assert (Het : e = t) by (subst e; unfold mint, sat_add; cbn [epoch_floor]; lia). split; [done|].
      unfold misaligned_election_term. rewrite Het, Z.eqb_refl. split; [done|].
      intros o' f' handle' t' e' -> Htt Hf' He'. apply higher_fences. cbn [epoch].
      unfold journal_promotion_epoch_bump in He'. destruct (confirm_leadership handle' t'); [|done]. injection He' as <-.
      unfold mint, sat_add. cbn [epoch_floor]. lia.
Qed.

(** An election overtaken by the fence takes the next election's epoch: the
    two tenures' epochs are equal, and neither fences the other. *)
Example overtaken_epochs_meet :
  mint {| epoch := 5; fenced := false |} (Election 5) = 6 /\ mint {| epoch := 5; fenced := false |} (Election 6) = 6.
Proof. by vm_compute. Qed.
End Tenure.

(** ** A failover *)

Module Sample.
Import Recency Rpc Request Decision Thread Tenure.

(** A library that grants every vote and counts what reached it. *)
#[export] Instance counting : RaftApi Z Z Z Z Z Z Z := {|
  vote s v := (Ok v, s + 1); append_entries s v := (Ok v, s); install_snapshot s v := (Ok v, s);
  vote_for v := Some v; append_for v := Some v; install_for v := Some v
|}.

Definition node : @Node Z :=
  {| fence := {| epoch := 3; fenced := false |}; seq := 100; ready := true; peer_tips := ∅; vote_filter := default_filter;
     shutdown := false; raft := 0 |}.
Definition tip_of (e s : Z) : JournalTip := {| tip_epoch := e; last_sequence := s |}.
Definition ask (peer e s : Z) : @Event Z Z Z Z Z Z := Frame None peer 7 {| f_tip := tip_of e s; body := VoteReq peer |}.

(** A current candidate, one behind, one ahead by its epoch, an impostor. *)
Definition asks : list (@Event Z Z Z Z Z Z) :=
  [ask 2 3 100; ask 2 3 99; ask 3 4 1; Frame None 3 9 {| f_tip := tip_of 9 9; body := VoteReq 2 |}].

Example asked_outcomes : history node asks =
  ([Ballot 2 (tip_of 3 100) (tip_of 3 100) true true; Ballot 2 (tip_of 3 99) (tip_of 3 100) true false;
    Ballot 3 (tip_of 4 1) (tip_of 3 100) true true], snd (history node asks)) /\ raft (snd (history node asks)) = 2.
Proof. by vm_compute. Qed.

Lemma votes_steered_witness : peer_tips (snd (history node asks)) !! 3 = Some (tip_of 4 1, 7).
Proof.
  pose proof (votes_steered node asks eq_refl) as H. destruct (history node asks) as [vs n']. destruct H as (_ & _ & _ & H).
  cbn [snd]. rewrite (H 3). vm_compute. reflexivity.
Defined.

(** The primary (1) died; node 2 leads at term 4 and hears replica 3. *)
Definition heard_tips : PeerTips := <[3 := (tip_of 3 95, millis 3900)]> (<[1 := (tip_of 3 101, millis 100)]> ∅).
Definition view_at (ms : Z) : View :=
  {| running := true; role := 3; term := 4; leader_id := 2; quorum_ack := 120; v_tip_ready := true; v_fenced := false;
     v_epoch := 3; v_seq := 100; lineage := Some 1; requested := Disk; v_link_up := false; v_observed := true;
     tips := heard_tips; now := millis ms; hold_now := millis ms; manual := false; races := false |}.
Definition poll_at (ms : Z) : Poll :=
  {| stop := false; h_link_up := false; h_down_at := millis ms; h_down_read := millis ms; h_term := 4; h_leader := true;
     h_led_at := millis ms; h_led_read := millis ms; promote_view := view_at ms; challenge_view := view_at ms;
     stand_view := view_at ms; last_manual := false |}.
Definition polls : list Poll := [poll_at 1000; poll_at 2500; poll_at 3900; poll_at 4000].

Example filed : pending (word (fst (run 2 [1; 3] (start NONE) polls))) = Some (Election 4).
Proof. by vm_compute. Qed.

Lemma promotion_earned_witness : exists p, p ∈ polls /\ role (promote_view p) = ROLE_LEADER /\ v_epoch (promote_view p) < 4.
Proof.
  destruct (promotion_earned 2 [1; 3] polls 4 filed) as (pre & p & post & Hp & _ & Hr & _ & He & _).
  exists p. split; [rewrite Hp; apply elem_of_app; right; by left|]. by split.
Defined.

Definition confirmed_now : Confirm :=
  {| sent := true; answer := Some (ReadLog (Some 4)); hung_up := false; asked_at := 0; read_at := millis 30 |}.

Lemma tenure_fences_witness :
  journal_promotion_epoch_bump (Election 4) {| epoch := 3; fenced := false |} (Some confirmed_now) = Ok 4 /\
  fenced_by {| epoch := 3; fenced := false |} 4.
Proof.
  split; [reflexivity|].
  destruct (tenure_fences (Election 4) {| epoch := 3; fenced := false |} (Some confirmed_now) 4 ltac:(vm_compute; reflexivity) eq_refl) as [Hf _].
  apply Hf. left. cbn. lia.
Defined.
End Sample.
