(* ===== verification/Survival.v ===== *)
(** * What a failover keeps

    [Witness] follows the changes through the durability gate: which are
    applied, in what order, and under which policy each was confirmed.
    [Acked] carries that along a whole run of the response stage, and
    [Survival] joins it to the rules of automatic promotion: what the primary
    told its clients under its policy, a replica that promotes itself holds. *)

From stdpp Require Import gmap sorting.
From S2P Require Import Prelude Cursors AckPolicy Lineage Stages Presence Gate GateProofs Spsc Ingress Egress Response Failover.
Import Lineage.Event Lineage.Policy AckPolicy.View AckPolicy.Named.
Import Stages.Live Gate.Gate GateProofs.Contract.

(** ** Changes through the gate *)

Module Witness.

(** The change an output slot carries, if this build knows its policy. *)
Definition change_of {R Q} (slot : OutputSlot R Q) : list PendingChange :=
  match payload slot with
  | PolicyChange c =>
    match from_byte (policy c) with
    | Some p => [{| p_wire_seq := o_wire_seq slot; p_policy := p; p_unwitnessed := unwitnessed c |}]
    | None => []
    end
  | _ => []
  end.

Definition start_changes (s : GateStart) : list PendingChange :=
  match start_pending s with Some c => [c] | None => [] end.

(** In journal order, and none of them journaled with no replica to witness it. *)
Definition orderly (cs : list PendingChange) : Prop :=
  StronglySorted (fun a b => p_wire_seq a < p_wire_seq b) cs /\ Forall (fun c => p_unwitnessed c = false) cs.

(** The policy once [cs] took effect over [p], one after the other. *)
Definition policy_of (p : AckPolicy) (cs : list PendingChange) : AckPolicy := default p (p_policy <$> last cs).

Lemma policy_of_snoc p cs c : policy_of p (cs ++ [c]) = p_policy c.
Proof. unfold policy_of. by rewrite last_snoc. Qed.

Lemma orderly_app a b : orderly (a ++ b) -> orderly a /\ orderly b.
Proof. intros [Hs Hf]. apply Forall_app in Hf as [? ?]. apply StronglySorted_app in Hs as (_ & ? & ?). by split. Qed.

Lemma orderly_before a b x y : orderly (a ++ b) -> x ∈ a -> y ∈ b -> p_wire_seq x < p_wire_seq y.
Proof. intros [Hs _]. apply StronglySorted_app in Hs as [Hs _]. apply Hs. Qed.

Section witness.
Context (seen : Pass -> Prop) (p0 : AckPolicy).

(** Each of the changes was confirmed under the policy it replaced. *)
Definition witnessed (cs : list PendingChange) : Prop :=
  forall pre c post, cs = pre ++ c :: post -> confirmed seen (policy_of p0 pre) (p_wire_seq c).

Lemma witnessed_snoc cs c : witnessed cs -> confirmed seen (policy_of p0 cs) (p_wire_seq c) -> witnessed (cs ++ [c]).
Proof.
  intros Hw Hc pre d post Heq. destruct post as [|x post] using rev_ind.
  - apply app_inj_tail in Heq as [-> ->]. done.
  - rewrite app_comm_cons, app_assoc in Heq. apply app_inj_tail in Heq as [-> _]. by eapply Hw.
Qed.

(** The gate has seen the changes [done]: the first of them took effect, each
    confirmed, and the others are the ones it holds. *)
Record tracks (done : list PendingChange) (g : DurabilityGate) : Prop := {
  tr_inv : ginv seen (fun _ _ _ => True) g;
  tr_applied : exists applied, done = applied ++ pending g /\ witnessed applied /\
    active_policy g = policy_of p0 applied /\ applied_through g = p_wire_seq <$> last applied
}.

Lemma tracks_same done g g' : ginv seen (fun _ _ _ => True) g' -> pending g' = pending g -> active_policy g' = active_policy g ->
  applied_through g' = applied_through g -> tracks done g -> tracks done g'.
Proof. intros Hg Hp Ha Ht [_ (applied & H1 & H2 & H3 & H4)]. split; [done|]. exists applied. by rewrite Hp, Ha, Ht. Qed.

(** A change newer than those applied takes effect. *)
Lemma change_applied applied rest c g now :
  orderly (applied ++ c :: rest) -> applied_through g = p_wire_seq <$> last applied ->
  let g' := apply_change g (p_wire_seq c) (to_byte (p_policy c)) now in
  active_policy g' = p_policy c /\ applied_through g' = Some (p_wire_seq c) /\ pending g' = pending g.
Proof.
  intros Ho Ht. cbv zeta. unfold apply_change, is_stale. rewrite Ht.
  assert (Hs : match p_wire_seq <$> last applied with Some through => p_wire_seq c <=? through | None => false end = false).
  { destruct (last applied) as [d|] eqn:Hl; [|done]. cbn. apply Z.leb_gt. eapply orderly_before; [exact Ho|by apply last_Some_elem_of|by left]. }
  rewrite Hs, from_to_byte. unfold switch_to. case_bool_decide as Hn; [by cbn in *|]. by cbn.
Qed.

Lemma tracks_front done g c rest now :
  orderly done -> tracks done g -> pending g = c :: rest -> confirmed seen (active_policy g) (p_wire_seq c) ->
  tracks done (apply_front_pending g now) /\ pending (apply_front_pending g now) = rest.
Proof.
  intros Ho [Hg (applied & H1 & H2 & H3 & H4)] Hp Hc.
  destruct (apply_front_evolves seen _ g c rest now Hg Hp (or_introl Hc)) as [He Hrest]. split; [|done].
  split; [apply He|]. exists (applied ++ [c]). rewrite Hrest, <- app_assoc. cbn [Datatypes.app]. rewrite Hp in H1. split; [done|].
  rewrite H3 in Hc. split; [by apply witnessed_snoc|]. rewrite policy_of_snoc, last_snoc. cbn [fmap option_fmap option_map].
  unfold apply_front_pending in *. rewrite Hp in *. rewrite H1 in Ho.
  by destruct (change_applied applied rest c (with_pending g rest) now Ho H4) as (-> & -> & _).
Qed.

Lemma tracks_settle done jp now ps : forall g, orderly done -> tracks done g -> pending g = ps ->
  tracks done (settle_loop ps g jp now).
Proof.
  induction ps as [|c rest IH]; intros g Ho Ht Hp; [done|]. cbn [settle_loop].
  destruct (_ && _) eqn:Hc; [done|].
  assert (Hu : p_unwitnessed c = false).
  { destruct Ht as [_ (applied & H1 & _)], Ho as [_ Hf]. rewrite H1, Hp in Hf. by apply Forall_app in Hf as [_ [? _]%Forall_cons_1]. }
  rewrite Hu in Hc. cbn [andb negb] in Hc. rewrite andb_true_r in Hc. zb.
  destruct (tracks_front done g c rest now Ho Ht Hp) as [Ht' Hp'].
  { eapply confirmed_le; [exact Hc|]. apply (gi_cached _ _ _ (tr_inv _ _ Ht)). }
  by apply IH.
Qed.

Lemma observe_pass_fields g needed p : forced p = None ->
  let g1 := settle_pending_if_durable g (journal_pos p) (now_switch p) in
  let g' := (observe_pass g needed p).1 in
  pending g' = pending g1 /\ active_policy g' = active_policy g1 /\ applied_through g' = applied_through g1.
Proof.
  intros Hf. unfold observe_pass, observe_forced. rewrite Hf. destruct (evaluate_gate _ _ _ _ _) as [status bl]. cbn [fst].
  unfold accrual_step. destruct (Timer.tick _ _ _ _ _) as [[e|] t]; [|done]. by destruct (Logger.logger_tick _ _ _ _ _) as [[l u] ln].
Qed.

Lemma release_fields g l now : let g' := (degraded_release_open g l now).2 in
  pending g' = pending g /\ active_policy g' = active_policy g /\ applied_through g' = applied_through g.
Proof. unfold degraded_release_open. destruct (grace g); [|done]. by destruct l. Qed.

(** A pass the gate reads, with nothing forced on it. *)
Definition unforced (p : Pass) : Prop := seen p /\ forced p = None.

Lemma unforced_good p : unforced p -> good_pass seen (fun _ _ _ => True) p.
Proof. intros [Hs Hf]. by split. Qed.

Lemma tracks_observe done g needed p : orderly done -> unforced p -> tracks done g -> tracks done (observe_pass g needed p).1.
Proof.
  intros Ho Hp Ht. destruct (observe_pass_fields g needed p (proj2 Hp)) as (H1 & H2 & H3).
  eapply tracks_same; [|exact H1|exact H2|exact H3|by apply tracks_settle].
  by destruct (observe_pass_evolves seen _ g needed p (tr_inv _ _ Ht) (unforced_good p Hp)) as [[] _].
Qed.

Lemma tracks_wait done needed passes : forall g h o g' h' rest, orderly done -> Forall unforced passes -> tracks done g ->
  wait_durable g needed h passes = Done o g' h' rest ->
  tracks done g' /\ (pending g = [] -> pending g' = []).
Proof.
  induction passes as [|p passes IH]; intros g h o g' h' rest Ho Hu Ht; cbn [wait_durable]; [done|].
  apply Forall_cons_1 in Hu as [Hp Hu]. destruct (shutdown p); [intros [= <- <- <- <-]; by split|].
  pose proof (tracks_observe done g needed p Ho Hp Ht) as Ht1.
  assert (Hpe : pending g = [] -> pending (observe_pass g needed p).1 = []).
  { intros He. destruct (observe_pass_fields g needed p (proj2 Hp)) as (-> & _). unfold settle_pending_if_durable. by rewrite He. }
  destruct (observe_pass g needed p) as [g1 bl]. cbn [fst] in Ht1, Hpe.
  destruct (needed <=? cached_durable_pos g1) eqn:Ec.
  { intros [= <- <- <- <-]. split; [|done]. apply (tracks_same done g1); try done.
    apply (evolves_same seen (fun _ _ _ => True) g1); try done; [apply Ht1|]. cbn. apply (gi_cached _ _ _ (tr_inv _ _ Ht1)). }
  destruct (needed <=? journal_pos p).
  2:{ intros Hw. destruct (IH _ _ _ _ _ _ Ho Hu Ht1 Hw). split; [done|auto]. }
  destruct (release_fields g1 (loss p) (now_release p)) as (R1 & R2 & R3).
  pose proof (ev_inv _ _ _ _ (release_evolves seen (fun _ _ _ => True) g1 (loss p) (now_release p) (tr_inv _ _ Ht1))) as Hg2.
  destruct (degraded_release_open g1 (loss p) (now_release p)) as [op g2]. cbn [snd] in *.
  assert (Ht2 : tracks done g2) by (by eapply tracks_same). destruct op.
  - intros [= <- <- <- <-]. split; [done|]. rewrite R1. done.
  - intros Hw. destruct (IH _ _ _ _ _ _ Ho Hu Ht2 Hw). split; [done|]. rewrite R1 in *. auto.
Qed.

Lemma wait_rest needed passes : forall g h o g' h' rest,
  wait_durable g needed h passes = Done o g' h' rest -> exists used, passes = used ++ rest.
Proof. intros g h o g' h' rest Hw. destruct (wait_spec _ _ _ _ _ _ _ _ Hw) as (used & -> & _). by exists used. Qed.

Lemma tracks_pending done now fuel : forall g h passes o g' h' rest, orderly done -> Forall unforced passes -> tracks done g ->
  admit_pending fuel g h now passes = Done o g' h' rest ->
  tracks done g' /\ Forall unforced rest /\ (o = Open Policy -> pending g' = []).
Proof.
  induction fuel as [|fuel IH]; intros g h passes o g' h' rest Ho Hu Ht; cbn [admit_pending]; [done|].
  destruct (pending g) as [|c cs] eqn:Ep; [by intros [= <- <- <- <-]|].
  destruct (cached_durable_pos g <? p_wire_seq c) eqn:Ec; zb.
  2:{ destruct (tracks_front done g c cs now Ho Ht Ep) as [Ht' _]; [|by apply IH].
      eapply confirmed_le; [exact Ec|apply (gi_cached _ _ _ (tr_inv _ _ Ht))]. }
  destruct (wait_durable g (p_wire_seq c) (starting h) passes) as [o1 g1 h1 r1| |] eqn:Ew; [|done|done].
  destruct (tracks_wait done _ _ _ _ _ _ _ _ Ho Hu Ht Ew) as [Ht1 _].
  destruct (wait_spec _ _ _ _ _ _ _ _ Ew) as (used & -> & Hs). apply Forall_app in Hu as [Hu1 Hu].
  destruct o1 as [[|]|]; [|by intros [= <- <- <- <-]..].
  destruct (Hs seen (fun _ _ _ => True)) as [_ Hc]; [eapply Forall_impl; [exact Hu1|apply unforced_good]|apply Ht|].
  case_bool_decide as Hh; [|by apply IH].
  destruct (pending g1) as [|c' cs1] eqn:Ep1; [done|]. injection Hh as ->.
  destruct (tracks_front done g1 c cs1 now Ho Ht1 Ep1) as [Ht2 _]; [|by apply IH].
  eapply confirmed_le; [exact Hc|apply (gi_cached _ _ _ (tr_inv _ _ Ht1))].
Qed.

(** What the end of an admission does to the slot's own change. *)
Lemma tracks_finish {R Q} done g h (slot : OutputSlot R Q) backing now rest a g' h' rest' :
  orderly (done ++ change_of slot) -> tracks done g ->
  (backing = Policy -> pending g = [] /\ o_wire_seq slot <= cached_durable_pos g) ->
  finish_slot g h slot backing now rest = Done a g' h' rest' ->
  tracks (done ++ change_of slot) g' /\
  forall conn, a = Reply conn Policy -> confirmed seen (policy_of p0 done) (o_wire_seq slot) /\ witnessed done.
Proof.
  intros Ho Ht Hb. unfold finish_slot, change_of in *. pose proof Ht as [Hg (applied & H1 & H2 & H3 & H4)].
  assert (Hreply : backing = Policy -> confirmed seen (policy_of p0 done) (o_wire_seq slot) /\ witnessed done).
  { intros Hp. destruct (Hb Hp) as [He Hc]. rewrite He, app_nil_r in H1. subst applied. split; [|done].
    rewrite <- H3. eapply confirmed_le; [exact Hc|apply (gi_cached _ _ _ Hg)]. }
  destruct (payload slot) as [r|q| |c] eqn:Epl;
    try (intros [= <- <- <- <-]; rewrite app_nil_r; split; [done|]; intros conn [= _ Hp]; by apply Hreply).
  intros [= <- <- <- <-]. split; [|done]. destruct backing.
  - destruct (Hb eq_refl) as [He Hc]. rewrite He, app_nil_r in H1. subst applied.
    assert (Hconf : confirmed seen (active_policy g) (o_wire_seq slot))
      by (eapply confirmed_le; [exact Hc|apply (gi_cached _ _ _ Hg)]).
    destruct (apply_change_evolves seen (fun _ _ _ => True) g (o_wire_seq slot) (policy c) false now Hg I (or_introl Hconf)) as [Hev Hpe].
    destruct (from_byte (policy c)) as [p|] eqn:Eb.
    + split; [apply Hev|]. exists (done ++ [{| p_wire_seq := o_wire_seq slot; p_policy := p; p_unwitnessed := unwitnessed c |}]).
      rewrite Hpe, He, app_nil_r. split; [done|]. rewrite H3 in Hconf. split; [by apply witnessed_snoc|].
      rewrite policy_of_snoc, last_snoc. rewrite (from_byte_inv _ _ Eb).
      destruct (change_applied done [] {| p_wire_seq := o_wire_seq slot; p_policy := p; p_unwitnessed := unwitnessed c |} g now Ho H4)
        as (Ha & Hth & _). by split.
    + rewrite app_nil_r. eapply tracks_same; [apply Hev|..|exact Ht]; unfold apply_change, refuse_unknown; rewrite Eb;
        destruct (is_stale _ _); try done; by case_bool_decide.
  - destruct (defer_ginv seen (fun _ _ _ => True) g (o_wire_seq slot) c Hg I) as [Hg' Hps]. injection Hps as Ha Hth.
    unfold defer_change in *. destruct (from_byte (policy c)) as [p|] eqn:Eb.
    + assert (Hst : is_stale g (o_wire_seq slot) = false).
      { unfold is_stale. rewrite H4. destruct (last applied) as [d|] eqn:Hl; [|done]. cbn. apply Z.leb_gt.
        rewrite H1, <- app_assoc in Ho.
        apply (orderly_before _ _ d {| p_wire_seq := o_wire_seq slot; p_policy := p; p_unwitnessed := unwitnessed c |} Ho);
          [by apply last_Some_elem_of|]. apply elem_of_app. right. by left. }
      rewrite Hst in *. split; [done|]. exists applied. cbn [with_pending pending active_policy applied_through].
      split; [by rewrite H1, <- app_assoc|done].
    + rewrite app_nil_r. eapply tracks_same; [exact Hg'|..|exact Ht]; try done.
      unfold refuse_unknown. destruct (is_stale _ _); [done|]. by case_bool_decide.
Qed.

Lemma tracks_admit {R Q} done g (slot : OutputSlot R Q) now passes a g' h' rest :
  orderly (done ++ change_of slot) -> Forall unforced passes -> tracks done g ->
  admit_output g slot now passes = Done a g' h' rest -> a <> Shutdown ->
  tracks (done ++ change_of slot) g' /\
  forall conn, a = Reply conn Policy -> confirmed seen (policy_of p0 done) (o_wire_seq slot) /\ witnessed done.
Proof.
  intros Ho Hu Ht. destruct (orderly_app _ _ Ho) as [Hod _]. unfold admit_output.
  destruct (admit_pending _ g hook_new now passes) as [o1 g1 h1 r1| |] eqn:Ea; [|done|done].
  destruct (tracks_pending done now _ _ _ _ _ _ _ _ Hod Hu Ht Ea) as (Ht1 & Hu1 & Hp1).
  destruct o1 as [backing|]; [|by intros [= <- <- <- <-]].
  unfold admit_slot, slot_needs_gate. destruct (cached_durable_pos g1 <? o_wire_seq slot) eqn:Ec; zb.
  2:{ intros Hf _. eapply tracks_finish; [exact Ho|exact Ht1| |exact Hf]. intros ->. split; [by apply Hp1|done]. }
  destruct (wait_durable g1 (o_wire_seq slot) (starting h1) r1) as [o2 g2 h2 r2| |] eqn:Ew; [|done|done].
  destruct (tracks_wait done _ _ _ _ _ _ _ _ Hod Hu1 Ht1 Ew) as [Ht2 Hp2].
  destruct (wait_spec _ _ _ _ _ _ _ _ Ew) as (used & -> & Hs). apply Forall_app in Hu1 as [Hu1 _].
  destruct (Hs seen (fun _ _ _ => True)) as [_ Hc]; [eapply Forall_impl; [exact Hu1|apply unforced_good]|apply Ht1|].
  destruct o2 as [released2|]; [|by intros [= <- <- <- <-]].
  intros Hf _. eapply tracks_finish; [exact Ho|exact Ht2| |exact Hf].
  destruct backing, released2; cbn [backing_min]; try done. intros _. split; [by apply Hp2, Hp1|done].
Qed.

Lemma tracks_idle done g now p : orderly done -> seen p -> tracks done g -> tracks done (idle_recheck g now p).
Proof.
  intros Ho Hp Ht. destruct (idle_recheck_ginv seen (fun _ _ _ => True) g now p Hp (tr_inv _ _ Ht)) as [Hg _].
  unfold idle_recheck in *. destruct (_ <? _); [done|].
  destruct (Logger.logger_tick _ _ _ _ _) as [[l u] ln] eqn:El. set (g1 := with_cached _ _ _) in *.
  assert (H1 : tracks done g1).
  { apply (tracks_same done g); try done. pose proof (gauge_logger (degraded_logger g) (utilization g)
      (Core.degraded (View.evaluate_durability (g_policy g) (journal_pos p) (metrics p) (active p))) now DEGRADED_LOG_INTERVAL) as Hga.
    rewrite El in Hga. cbn in Hga. apply (evolves_same seen (fun _ _ _ => True) g); try done; [apply Ht|].
    cbn. right. exists p. split; [done|]. unfold eval_at. by rewrite (gi_policy _ _ _ (tr_inv _ _ Ht)). }
  destruct (release_fields (settle_pending_if_durable g1 (journal_pos p) (now_switch p)) (loss p) (now_release p)) as (R1 & R2 & R3).
  eapply tracks_same; [exact Hg|exact R1|exact R2|exact R3|by apply tracks_settle].
Qed.

Lemma tracks_batch done g now : tracks done g -> tracks done (after_batch g now).
Proof.
  intros Ht. destruct (after_batch_ginv seen (fun _ _ _ => True) g now (tr_inv _ _ Ht)) as [Hg _].
  unfold after_batch in *. destruct (Logger.logger_tick _ _ _ _ _) as [[l u] ln]. apply (tracks_same done g); try done. 
Qed.
End witness.

Lemma tracks_new (seen : Pass -> Prop) gr start u now tn p : seen p -> orderly (start_changes start) ->
  tracks seen (start_in_force start) (start_changes start) (gate_new gr start u now tn p).
Proof.
  intros Hp Ho. unfold gate_new. apply tracks_settle; [done| |done]. split.
  - constructor; cbn; try done.
    + right. exists p. split; [done|]. unfold eval_at. lia.
    + apply Forall_true. done.
  - exists []. unfold start_changes. cbn. split_and!; try done. intros [|? ?] ? ?; done.
Qed.
End Witness.

(** ** Through the response stage *)

Module Acked.
Import Interface Housekeeping Loop Witness Spsc.Wait.

Section acked.
Context {S R Q : Type} `{Egress S R Q, Egress.Encoding.ResponseEncoder R Q}.
Context (heartbeat_interval : option Z).
Notation Slot := (OutputSlot R Q).

(** The slots the stage is done with, and how each reply was backed. *)
Definition admitted (l : list (@Handed R Q)) : list (Slot * option Backing) :=
  flat_map (fun h => match h with HSlot slot b => [(slot, Some b)] | HChange slot => [(slot, None)] | _ => [] end) l.

Lemma admitted_app l k : admitted (l ++ k) = admitted l ++ admitted k.
Proof. apply flat_map_app. Qed.
Lemma admitted_in l slot b : HSlot slot b ∈ l -> (slot, Some b) ∈ admitted l.
Proof. intros Hin. apply list_elem_of_In, in_flat_map. exists (HSlot slot b). split; [by apply list_elem_of_In|by left]. Qed.
Lemma admitted_quiet evs (rs : list (Ingress.Early.EarlyReply R)) : admitted (map HControl evs) = [] /\ admitted (map HEarly rs) = [].
Proof. split; [by induction evs|by induction rs]. Qed.

(** The gate, the ring and the slots done with are as they were. *)
Definition quietly (st st' : @Stage S R Q) : Prop :=
  gate st' = gate st /\ ring st' = ring st /\ admitted (log st') = admitted (log st).

Lemma quietly_trans a b c : quietly a b -> quietly b c -> quietly a c.
Proof. intros (?&?&?) (?&?&?). split_and!; congruence. Qed.

Lemma egress_quietly (st : @Stage S R Q) e hs : admitted hs = [] -> quietly st (with_egress st e hs).
Proof. intros Hh. split_and!; try done. cbn. by rewrite admitted_app, Hh, app_nil_r. Qed.

Lemma register_quietly (st : @Stage S R Q) p : quietly st (register st p).
Proof.
  unfold register. eapply (quietly_trans _ (with_snapshot st (snapshot st ++ seen p) (early_buf st))); [done|].
  apply egress_quietly. exact (proj1 (admitted_quiet (control p) [])).
Qed.

Lemma release_quietly (st : @Stage S R Q) now st' n : release st now = Some (st', n) -> quietly st st'.
Proof.
  unfold release. destruct (release_early_replies _ _ _ _) as [[e buf]|]; [|done]. intros [= <- _].
  eapply quietly_trans; [apply (egress_quietly st e (map HEarly (snapshot st)))|done]. exact (proj2 (admitted_quiet [] _)).
Qed.

Lemma hooks_quietly calls at_boundary : forall waits (st st' : @Stage S R Q),
  run_hooks calls at_boundary waits st = Some st' -> quietly st st'.
Proof.
  induction calls as [|[] calls IH]; intros waits st st'; cbn [run_hooks]; [by intros [= <-]|..].
  - intros Hr. eapply quietly_trans; [|by eapply IH]. by apply egress_quietly.
  - destruct at_boundary; [|by apply IH]. destruct waits as [|[p now] waits]; [by apply IH|].
    destruct (release (register st p) now) as [[st1 sent]|] eqn:Hre; [|done]. cbn [mbind option_bind]. intros Hr.
    eapply quietly_trans; [apply register_quietly|]. eapply quietly_trans; [by eapply release_quietly|].
    eapply quietly_trans; [|by eapply IH]. destruct (0 <? sent)%nat; [by apply egress_quietly|done].
Qed.

(** What holds of the slots done with and of the gate, if every call of the
    gate keeps it. *)
Section walk.
Context (total : list Slot) (ok : Pass -> Prop) (J : list (Slot * option Backing) -> DurabilityGate -> Prop).
Hypothesis J_admit : forall l g slot now passes a g' h rest,
  J l g -> map fst l ++ [slot] `prefix_of` total -> Forall ok passes -> admit_output g slot now passes = Done a g' h rest ->
  match a with
  | Reply _ b => J (l ++ [(slot, Some b)]) g'
  | GateOnly => J (l ++ [(slot, None)]) g'
  | Shutdown => True
  end.
Hypothesis J_idle : forall l g now p, J l g -> ok p -> J l (idle_recheck g now p).
Hypothesis J_batch : forall l g now, J l g -> J l (after_batch g now).

Definition holds (st : @Stage S R Q) : Prop := J (admitted (log st)) (gate st).
Definition held (st : @Stage S R Q) : Prop := exists g, J (admitted (log st)) g.

Lemma holds_quietly st st' : quietly st st' -> holds st -> holds st'.
Proof. unfold holds. by intros (-> & _ & ->). Qed.

Lemma step_slot_keeps st slot env now :
  holds st -> map fst (admitted (log st)) ++ [slot] `prefix_of` total -> Forall ok (a_passes env) ->
  match step_slot st slot env now with
  | Goes st' => holds st' /\ ring st' = ring st /\ map fst (admitted (log st')) = map fst (admitted (log st)) ++ [slot]
  | Leaves st' | Held st' => held st'
  | Panics => True
  end.
Proof.
  intros Hj Ht Hok. unfold step_slot.
  destruct (if between_events st then fst <$> release st now else Some st) as [st1|] eqn:Hr; [|done].
  assert (Hq1 : quietly st st1).
  { destruct (between_events st); [|by injection Hr as <-]. destruct (release st now) as [[x n]|] eqn:Hre; [|done].
    injection Hr as <-. by eapply release_quietly. }
  pose proof (holds_quietly _ _ Hq1 Hj) as Hj1. destruct Hq1 as (_ & Hr1 & Ha1). rewrite <- Ha1 in Ht. rewrite <- Hr1, <- Ha1.
  destruct (alive (egress st1)); cbn [negb]; [|by exists (gate st1)].
  destruct (admit_output (gate st1) slot (a_now env) (a_passes env)) as [a g h rest|g h|] eqn:Ha; [| |done].
  - pose proof (J_admit _ _ _ _ _ _ _ _ _ Hj1 Ht Hok Ha) as Hja.
    destruct (run_hooks _ _ _ _) as [st2|] eqn:Hh; [|done]. destruct (hooks_quietly _ _ _ _ _ Hh) as (Hg2 & Hr2 & Ha2).
    cbn [with_gate gate ring log] in Hg2, Hr2, Ha2.
    destruct (alive (egress st2)); cbn [negb]; [|exists (gate st1); by rewrite Ha2].
    assert (Hgoes : forall e l (b : option Backing) bu k, admitted l = [(slot, b)] -> J (admitted (log st1) ++ [(slot, b)]) g ->
      let st' := with_egress (with_buffers (with_boundary st2 (is_last_in_request slot)) bu k) e l in
      holds st' /\ ring st' = ring st1 /\ map fst (admitted (log st')) = map fst (admitted (log st1)) ++ [slot]).
    { intros e l b bu k Hl HJ. cbv zeta. unfold holds. cbn [with_egress with_buffers with_boundary gate ring log].
      rewrite admitted_app, Ha2, Hl, Hg2. split_and!; [done|done|]. by rewrite map_app. }
    destruct a as [conn backing| |].
    + unfold send. destruct (send_slot _ _ _ _ _ _) as [[outcome e] b]. destruct outcome.
      * by apply (Hgoes _ _ (Some backing)).
      * by apply (Hgoes _ _ (Some backing)).
      * exists (gate st1). cbn [with_egress with_buffers with_boundary log]. rewrite app_nil_r, Ha2. done.
    + by apply (Hgoes _ _ None (buffers st2) (degraded_acks st2)).
    + exists (gate st1). by rewrite Ha2.
  - destruct (run_hooks _ _ _ _) as [st2|] eqn:Hh; [|done]. destruct (hooks_quietly _ _ _ _ _ Hh) as (_ & _ & Ha2).
    cbn [with_gate log] in Ha2. destruct (alive (egress st2)); exists (gate st1); by rewrite Ha2.
Qed.

Lemma step_batch_keeps now slots : forall st envs,
  holds st -> map fst (admitted (log st)) ++ slots `prefix_of` total -> Forall (fun env => Forall ok (a_passes env)) envs ->
  match step_batch st slots envs now with
  | Goes st' => holds st' /\ ring st' = ring st /\ map fst (admitted (log st')) = map fst (admitted (log st)) ++ slots
  | Leaves st' | Held st' => held st'
  | Panics => True
  end.
Proof.
  induction slots as [|slot slots IH]; intros st envs Hj Ht Hok; cbn [step_batch]; [by rewrite app_nil_r|].
  destruct envs as [|env envs]; [by exists (gate st)|]. apply Forall_cons_1 in Hok as [Ho Hok].
  rewrite cons_middle, app_assoc in Ht |- *.
  pose proof (step_slot_keeps st slot env now Hj) as Hs.
  destruct (step_slot st slot env now) as [st1|st1|st1|]; try (apply Hs; [by eapply prefix_app_l|done]).
  destruct Hs as (Hj1 & Hr1 & Ha1); [by eapply prefix_app_l|done|].
  destruct (alive (egress st1)); [|by exists (gate st1)]. rewrite <- Ha1 in Ht |- *. rewrite <- Hr1. by apply IH.
Qed.

(** The slots done with, on the ring and still to come are the stream's. *)
Definition aligned (st : @Stage S R Q) (turns : list (@Turn R Q)) : Prop :=
  map fst (admitted (log st)) ++ ring st ++ Walk.published turns = total.

Lemma idle_turn_keeps st env : holds st -> ok (i_pass env) ->
  match idle_turn heartbeat_interval st env with
  | Goes st' => holds st' /\ ring st' = ring st /\ admitted (log st') = admitted (log st)
  | Leaves _ | Held _ => False
  | Panics => True
  end.
Proof.
  intros Hj Hok. unfold idle_turn. set (m := if between_events st then _ else _). destruct m as [st1|] eqn:Hm; [|done].
  assert (Hq : quietly st st1).
  { unfold m in Hm. destruct (between_events st); [|by injection Hm as <-].
    destruct (release st (i_now env)) as [[x n]|] eqn:Hre; [|done]. injection Hm as <-.
    eapply quietly_trans; [by eapply release_quietly|by apply egress_quietly]. }
  set (st2 := with_egress st1 (on_idle (egress st1)) []).
  assert (Hq2 : quietly st st2) by (eapply quietly_trans; [exact Hq|by apply egress_quietly]). clearbody st2.
  destruct (tick _ _ _ _ _) as [[d|] hk]; cbn [with_wait gate ring log].
  - set (st3 := match heartbeat_interval with Some _ => _ | None => _ end).
    assert (Hq3 : quietly st st3).
    { unfold st3. destruct heartbeat_interval; [|done]. destruct (heartbeat_scan d); [|done].
      eapply quietly_trans; [exact Hq2|by apply egress_quietly]. }
    clearbody st3. pose proof (holds_quietly _ _ Hq3 Hj) as Hj3. destruct Hq3 as (_ & H2 & H3).
    split_and!; [unfold holds; cbn [with_wait with_gate gate log]; by apply J_idle|done|done].
  - pose proof (holds_quietly _ _ Hq2 Hj) as Hj2. by destruct Hq2 as (_ & H2 & H3).
Qed.

Lemma turn_keeps st t turns : holds st -> aligned st (t :: turns) ->
  Forall (fun env => Forall ok (a_passes env)) (t_admits t) -> ok (i_pass (t_idle t)) ->
  match turn heartbeat_interval st t with
  | Goes st' => holds st' /\ aligned st' turns
  | Leaves st' | Held st' => held st'
  | Panics => True
  end.
Proof.
  intros Hj Hal Hok Hid. unfold turn. destruct (t_shutdown t); [by exists (gate st)|].
  set (st1 := with_ring st (ring st ++ t_published t)). set (slots := take _ _).
  destruct (register_quietly st1 (t_snap t)) as (Hg2 & Hr2 & Ha2). set (st2 := register st1 (t_snap t)) in *.
  assert (Hj2 : holds st2) by (unfold holds; by rewrite Hg2, Ha2).
  assert (Hal2 : map fst (admitted (log st2)) ++ ring st2 ++ Walk.published turns = total).
  { rewrite Ha2, Hr2. unfold aligned, Walk.published in Hal. cbn [flat_map] in Hal. cbn. rewrite <- app_assoc. exact Hal. }
  assert (Hcut : ring st2 = slots ++ drop (length slots) (ring st2)).
  { rewrite Hr2. unfold slots. rewrite <- (take_drop (Nat.min (t_limit t) MAX_BATCH) (ring st1)) at 1. f_equal.
    rewrite length_take. destruct (decide (Nat.min (t_limit t) MAX_BATCH <= length (ring st1))%nat); [f_equal; lia|].
    rewrite !drop_ge by lia. done. }
  clearbody st2 slots. destruct slots as [|slot slots].
  { pose proof (idle_turn_keeps st2 (t_idle t) Hj2 Hid) as Hi.
    destruct (idle_turn heartbeat_interval st2 (t_idle t)) as [st3|st3|st3|]; try done. destruct Hi as (Hj3 & Hr3 & Ha3).
    split; [done|]. unfold aligned. by rewrite Hr3, Ha3. }
  pose proof (step_batch_keeps (t_batch_now t) (slot :: slots) (with_wait st2 (housekeeping st2) (reset (wait st2))) (t_admits t) Hj2) as Hb.
  destruct (step_batch _ _ _ _) as [st3|st3|st3|].
  - destruct Hb as (Hj3 & Hr3 & Ha3); [|done|].
    { cbn [with_wait log]. rewrite <- Hal2, Hcut, <- !app_assoc, app_assoc. apply prefix_app_r. done. }
    cbn [with_wait log ring] in Hr3, Ha3. split.
    + unfold holds. cbn [with_gate with_egress with_ring gate log]. rewrite app_nil_r. by apply J_batch.
    + unfold aligned. cbn [with_gate with_egress with_ring ring log]. rewrite app_nil_r, Ha3, Hr3, <- Hal2.
      rewrite Hcut at 2. by rewrite <- !app_assoc.
  - apply Hb; [|done]. cbn [with_wait log]. rewrite <- Hal2, Hcut, <- !app_assoc, app_assoc. by apply prefix_app_r.
  - apply Hb; [|done]. cbn [with_wait log]. rewrite <- Hal2, Hcut, <- !app_assoc, app_assoc. by apply prefix_app_r.
  - done.
Qed.

Lemma run_holds turns : forall st st', holds st -> aligned st turns -> Forall ok (Promises.passes_of turns) ->
  Promises.stopped (run heartbeat_interval st turns) = Some st' -> held st'.
Proof.
  induction turns as [|t turns IH]; intros st st' Hj Hal Hok; cbn [run]; [intros [= <-]; by exists (gate st)|].
  unfold Promises.passes_of in Hok. cbn [flat_map] in Hok. apply Forall_app in Hok as [Ht Hok]. apply Forall_app in Ht as [Hta Hti].
  apply Forall_cons_1 in Hti as [Hti _].
  assert (Hte : Forall (fun env => Forall ok (a_passes env)) (t_admits t)).
  { rewrite Forall_forall in Hta. apply Forall_forall. intros env Henv. apply Forall_forall. intros p Hp. apply Hta.
    apply list_elem_of_In, in_flat_map. exists env. by split; apply list_elem_of_In. }
  pose proof (turn_keeps st t turns Hj Hal Hte Hti) as Hs.
  destruct (turn heartbeat_interval st t) as [st1|st1|st1|]; cbn [Promises.stopped].
  - destruct Hs as [Hj1 Hal1]. destruct (alive (egress st1)); [by apply IH|]. intros [= <-]. by exists (gate st1).
  - intros [= <-]. destruct Hs as [g Hg]. exists g. destruct (alive (egress st1)); [|done]. cbn [with_egress log]. by rewrite app_nil_r.
  - by intros [= <-].
  - done.
Qed.
End walk.

(** *** The changes behind a policy-backed reply *)

Section replies.
Context (seen : Pass -> Prop) (p0 : AckPolicy) (before : list PendingChange) (total : list Slot).
Hypothesis total_orderly : orderly (before ++ flat_map change_of total).

(** The changes up to a point of the stream. *)
Definition changes_at (l : list (Slot * option Backing)) : list PendingChange := before ++ flat_map change_of (map fst l).

(** A policy-backed reply had its copies under the policy of the changes
    before it, each of which had its own. *)
Definition all_witnessed (l : list (Slot * option Backing)) : Prop :=
  forall pre slot post, l = pre ++ (slot, Some Policy) :: post ->
    confirmed seen (policy_of p0 (changes_at pre)) (o_wire_seq slot) /\ witnessed seen p0 (changes_at pre).

Definition follows (l : list (Slot * option Backing)) (g : DurabilityGate) : Prop :=
  tracks seen p0 (changes_at l) g /\ all_witnessed l /\ map fst l `prefix_of` total.

Lemma changes_snoc l x : changes_at (l ++ [x]) = changes_at l ++ change_of x.1.
Proof. unfold changes_at. by rewrite map_app, flat_map_app, app_assoc, <- (app_nil_r (change_of x.1)). Qed.

Lemma changes_orderly l : map fst l `prefix_of` total -> orderly (changes_at l).
Proof.
  intros [k Hk]. pose proof total_orderly as Ho. rewrite Hk, flat_map_app, app_assoc in Ho. by apply orderly_app in Ho as [Ho _].
Qed.

Lemma witnessed_more l slot b :
  all_witnessed l -> (b = Some Policy -> confirmed seen (policy_of p0 (changes_at l)) (o_wire_seq slot) /\ witnessed seen p0 (changes_at l)) ->
  all_witnessed (l ++ [(slot, b)]).
Proof.
  intros Hl Hb pre x post Heq. destruct post as [|y post _] using rev_ind.
  - apply app_inj_tail in Heq as [-> [= -> ->]]. by apply Hb.
  - rewrite app_comm_cons, app_assoc in Heq. apply app_inj_tail in Heq as [-> _]. by eapply Hl.
Qed.

Lemma follows_admit l g slot now passes a g' h rest :
  follows l g -> map fst l ++ [slot] `prefix_of` total -> Forall (unforced seen) passes ->
  admit_output g slot now passes = Done a g' h rest ->
  match a with
  | Reply _ b => follows (l ++ [(slot, Some b)]) g'
  | GateOnly => follows (l ++ [(slot, None)]) g'
  | Shutdown => True
  end.
Proof using total_orderly.
  intros (Ht & Hw & _) Hpre Hu Ha.
  assert (Ho : forall b : option Backing, orderly (changes_at l ++ change_of slot) /\ map fst (l ++ [(slot, b)]) `prefix_of` total).
  { intros b. assert (Hp : map fst (l ++ [(slot, b)]) `prefix_of` total) by by rewrite map_app.
    split; [|done]. pose proof (changes_snoc l (slot, b)) as Hc. cbn [fst] in Hc. rewrite <- Hc. by apply changes_orderly. }
  destruct a as [conn b| |]; [| |done].
  - destruct (Ho (Some b)) as [Ho1 Hp1]. destruct (tracks_admit seen p0 _ _ _ _ _ _ _ _ _ Ho1 Hu Ht Ha) as [Ht' Hr]; [done|].
    split_and!; [by rewrite changes_snoc| |done]. apply witnessed_more; [done|]. intros [= ->]. by eapply Hr.
  - destruct (Ho None) as [Ho1 Hp1]. destruct (tracks_admit seen p0 _ _ _ _ _ _ _ _ _ Ho1 Hu Ht Ha) as [Ht' _]; [done|].
    split_and!; [by rewrite changes_snoc| |done]. by apply witnessed_more.
Qed.

Lemma follows_idle l g now p : follows l g -> unforced seen p -> follows l (idle_recheck g now p).
Proof using total_orderly.
  intros (Ht & Hw & Hp) [Hs _]. split_and!; try done. apply tracks_idle; [|done|done]. by apply changes_orderly.
Qed.

Lemma follows_batch l g now : follows l g -> follows l (after_batch g now).
Proof. intros (Ht & Hw & Hp). split_and!; try done. by apply tracks_batch. Qed.
End replies.

(** Every policy-backed reply of a run from the start. *)
Lemma replies_witnessed e gr startup u now tn first hk strategy turns st :
  orderly (start_changes startup ++ flat_map change_of (Walk.published turns)) ->
  Forall (fun p => forced p = None) (Promises.passes_of turns) ->
  Promises.stopped (run heartbeat_interval (start e (gate_new gr startup u now tn first) hk strategy) turns) = Some st ->
  map fst (admitted (log st)) `prefix_of` Walk.published turns /\
  all_witnessed (fun p => p ∈ first :: Promises.passes_of turns) (start_in_force startup) (start_changes startup) (admitted (log st)).
Proof.
  intros Ho Hf Hrun. set (seen := fun p => p ∈ first :: Promises.passes_of turns).
  destruct (run_holds (Walk.published turns) (unforced seen) (follows seen (start_in_force startup) (start_changes startup) (Walk.published turns))
    (follows_admit seen _ _ _ Ho) (follows_idle seen _ _ _ Ho) (follows_batch seen _ _ _) turns
    (start e (gate_new gr startup u now tn first) hk strategy) st) as (g & _ & Hw & Hp); try done.
  - split_and!; [|by intros [|? ?] ? ?|apply prefix_nil]. unfold changes_at. cbn. rewrite app_nil_r.
    apply tracks_new; [by left|]. by apply orderly_app in Ho as [Ho _].
  - rewrite Forall_forall in Hf. apply Forall_forall. intros p Hp. split; [by right|]. by apply Hf.
Qed.
End acked.
End Acked.

(** ** What survives *)

Module Survival.
Import AckPolicy.Core(NodeCursors, in_memory, persisted, Persisted, InMemory).
Import Recency Request Decision Interface Housekeeping Loop Witness Acked GateProofs.Promises Spsc.Wait.

(** A promise that needs a second node names a copy outside the primary. *)
Lemma promised_elsewhere p s jp rs : 0 < s -> p <> Disk -> promised p s jp rs ->
  exists c, c ∈ rs /\ (s <= in_memory c \/ s <= persisted c).
Proof.
  intros Hpos. assert (Hc : forall l, (1 <= Core.copies l s rs)%nat -> exists c, c ∈ rs /\ (s <= in_memory c \/ s <= persisted c)).
  { intros l. unfold Core.copies. destruct (filter (Core.reached l s) rs) as [|c k] eqn:Hf; [cbn; lia|]. intros _.
    assert (Hin : c ∈ filter (Core.reached l s) rs) by (rewrite Hf; by left).
    apply list_elem_of_filter in Hin as [Hr Hin]. exists c. split; [done|]. unfold Core.reached in Hr.
    rewrite Core.effective_cursor_eq in Hr. destruct l; lia. }
  intros Hp. unfold promised, replicas_at. destruct p; try done; intros H; repeat destruct H as [? H]; eauto.
  - destruct H as [[_ H]|H]; [by eapply Hc|]. apply (Hc Persisted). lia.
Qed.

Lemma none_held (cs : list PendingChange) tip : Forall (fun c => tip < p_wire_seq c) cs -> filter (fun c => p_wire_seq c <= tip) cs = [].
Proof. induction 1 as [|c cs Hc _ IH]; [done|]. rewrite filter_cons_False by lia. done. Qed.

(** Changes in journal order: those up to a sequence come first. *)
Lemma split_at_tip cs tip : orderly cs ->
  exists missing, cs = filter (fun c => p_wire_seq c <= tip) cs ++ missing /\ Forall (fun c => tip < p_wire_seq c) missing.
Proof.
  intros [Hs _]. induction Hs as [|c cs Hs IH Hf]; [by exists []|]. destruct IH as (missing & Heq & Hm).
  destruct (decide (p_wire_seq c <= tip)) as [Hle|Hgt].
  - rewrite filter_cons_True by done. exists missing. cbn. by rewrite <- Heq.
  - assert (Hall : Forall (fun d => tip < p_wire_seq d) (c :: cs)).
    { constructor; [lia|]. eapply Forall_impl; [exact Hf|]. cbn beta. intros d Hd. lia. }
    exists (c :: cs). by rewrite none_held.
Qed.

Section survival.
Context {S R Q : Type} `{Egress S R Q, Egress.Encoding.ResponseEncoder R Q}.
Context (heartbeat_interval : option Z).

(** No replica lost what it told the primary it had: each cursor a pass read
    is within this node's tip, or within the other replica's under the epoch
    in force. *)
Definition cursors_kept (epoch_in_force tip : Z) (peer_tip : JournalTip) (p : Pass) : Prop :=
  forall c n, c ∈ replicas p -> n <= in_memory c \/ n <= persisted c ->
    n <= tip \/ (tip_epoch peer_tip = epoch_in_force /\ n <= last_sequence peer_tip).

(** C3: No event acknowledged under the policy is lost by an automatic
    failover. Take any run of the primary's response stage, whatever its
    connections, waits, losses and policy changes did, in which no change was
    forced with no replica to witness it; and a replica the promotion rules let
    promote itself while it hears the other replica, which holds the lineage's
    changes up to its tip, neither replica having lost what it had acknowledged.
    Every event the primary acknowledged as policy-backed is in that replica's journal. (Under
    [disk] alone no copy need exist; but the change to [disk] itself needed the
    copies of the policy before it, so a replica the rules would let promote
    under another policy has seen every event acknowledged since.) Degraded
    acknowledgements and events after a forced [disk] are not covered: the first
    are marked as such to the client, and both can be lost. *)
Theorem failover_keeps_acked e gr startup u now tn first hk strategy turns (st : @Stage S R Q) journal
    (i : AutoPromotionInputs) (epoch_in_force peer t : Z) (peer_tip : JournalTip) :
  Promises.stopped (run heartbeat_interval (start e (gate_new gr startup u now tn first) hk strategy) turns) = Some st ->
  Walk.published turns `prefix_of` journal -> StronglySorted (fun a b => o_wire_seq a <= o_wire_seq b) journal ->
  let changes := start_changes startup ++ flat_map change_of journal in let tip := last_sequence (i_local_tip i) in
  orderly changes -> Forall (fun p => forced p = None) (Promises.passes_of turns) ->
  Forall live_pass (first :: Promises.passes_of turns) ->
  Forall (cursors_kept epoch_in_force tip peer_tip) (first :: Promises.passes_of turns) ->
  auto_promotion_decision i = Ok t -> (peer, Fresh peer_tip) ∈ peers i ->
  tip_epoch (i_local_tip i) = epoch_in_force -> tip_epoch peer_tip <= epoch_in_force -> 0 <= tip ->
  Decision.ack_policy i = Some (policy_of (start_in_force startup) (filter (fun c => p_wire_seq c <= tip) changes)) ->
  forall slot, HSlot slot Policy ∈ log st -> o_wire_seq slot <= tip.
Proof.
  intros Hrun Hpub Hsort changes tip Ho Hforced Hlive Hkept Hd Hpeer HA HB Htip Hpol slot Hin.
  destruct Hpub as [later Hj]. unfold changes in *. rewrite Hj, flat_map_app, app_assoc in Ho.
  destruct (orderly_app _ _ Ho) as [Ho1 _].
  destruct (replies_witnessed heartbeat_interval _ _ _ _ _ _ _ _ _ _ _ Ho1 Hforced Hrun) as [[rest Hpre] Hw].
  apply admitted_in, list_elem_of_split in Hin as (pre & post & Heq). destruct (Hw _ _ _ Heq) as [Hc Hchanges].
  set (read := fun p => p ∈ first :: Promises.passes_of turns) in *. apply decision_allowed in Hd.
  assert (Hcopy : forall q s, q <> Disk -> confirmed read q s -> s <= tip).
  { intros q s Hq Hcs. destruct (decide (s <= 0)) as [|Hpos]; [lia|]. destruct Hcs as [?|(p & Hp & Hle)]; [lia|].
    rewrite Forall_forall in Hlive, Hkept. apply (eval_at_promised _ _ _ (Hlive p Hp)) in Hle; [|lia].
    destruct (promised_elsewhere q s _ _ ltac:(lia) Hq Hle) as (c & Hrc & Hn).
    destruct (Hkept p Hp c s Hrc Hn) as [?|[He Hn']]; [done|].
    pose proof (al_peers i t Hd _ _ Hpeer) as Ha. cbn in Ha. apply not_true_iff_false in Ha. rewrite ahead_spec in Ha. unfold tip. lia. }
  destruct (decide (o_wire_seq slot <= tip)) as [|Hgt]; [done|]. exfalso.
  set (done := changes_at (start_changes startup) pre) in *.
  assert (Hdone : exists after, start_changes startup ++ flat_map change_of journal = done ++ after /\
    Forall (fun c => tip < p_wire_seq c) after).
  { rewrite Heq, map_app in Hpre. cbn [map fst] in Hpre. rewrite Hj, Hpre, <- !app_assoc, <- app_comm_cons in Hsort |- *.
    exists (flat_map change_of (slot :: map fst post ++ rest ++ later)). unfold done, changes_at.
    split; [by rewrite flat_map_app, <- app_assoc|].
    apply StronglySorted_app in Hsort as (_ & _ & Hs). apply StronglySorted_inv in Hs as [_ Hs].
    apply Forall_forall. intros c (x & Hx & Hcx)%list_elem_of_In%in_flat_map.
    assert (Hcw : p_wire_seq c = o_wire_seq x).
    { unfold change_of in Hcx. destruct (payload x); try done. destruct (from_byte _); [|done]. by destruct Hcx as [<-|[]]. }
    rewrite Hcw. destruct Hx as [<-|Hx]; [lia|]. rewrite Forall_forall in Hs. specialize (Hs x (proj2 (list_elem_of_In _ _) Hx)). lia. }
  destruct Hdone as (after & Hall & Hafter). rewrite Hall in Hpol.
  assert (Hod : orderly done).
  { rewrite <- app_assoc, <- flat_map_app, <- Hj, Hall in Ho. by apply orderly_app in Ho as [Ho _]. }
  destruct (split_at_tip done tip Hod) as (missing & Hsplit & Hmiss).
  rewrite filter_app, (none_held after), app_nil_r in Hpol by done.
  set (known := filter _ done) in *. destruct (al_policy i t Hd) as (q & Hq & Hne). rewrite Hpol in Hq. injection Hq as Hq. rewrite <- Hq in Hne.
  destruct missing as [|c missing].
  - rewrite app_nil_r in Hsplit. rewrite Hsplit in Hc. specialize (Hcopy _ _ Hne Hc). lia.
  - pose proof (Hcopy _ _ Hne (Hchanges _ _ _ Hsplit)) as Hle. apply Forall_cons_1 in Hmiss as [Hm _]. lia.
Qed.
End survival.
End Survival.

Module Sample.
Import Recency Decision Interface Housekeeping Loop Witness Acked Survival UringStage Spsc.Wait.
Import GateProofs.Sample GateProofs.Promises Response.Sample.

(** A replica at 8 hears the other at 5; the primary is silent. *)
Definition survivor (tip : Z) : AutoPromotionInputs :=
  {| tip_ready := true; is_fenced := false; Decision.ack_policy := Some DiskAndRam; primary_link_up := false;
     primary_link_down_for := millis 3000; quorum_ack_age := Some 0; primary_observed := true;
     i_local_tip := {| tip_epoch := 3; last_sequence := tip |};
     peers := [(1, Silent None); (3, Fresh {| tip_epoch := 3; last_sequence := 5 |})]; i_term := 4; fence_epoch := 3 |}.

Lemma sample_kept jp ack mem act l now : 0 <= ack <= 8 -> 0 <= mem <= 8 ->
  cursors_kept 3 8 {| tip_epoch := 3; last_sequence := 5 |} (sample_pass jp ack mem act None l now).
Proof.
  intros Ha Hm c n Hin Hn. left. destruct act; cbn in Hin.
  - apply list_elem_of_singleton in Hin as ->. cbn in Hn. lia.
  - by apply elem_of_nil in Hin.
Qed.

Lemma sample_all_kept :
  Forall (cursors_kept 3 8 {| tip_epoch := 3; last_sequence := 5 |}) (pass0 :: Promises.passes_of sample_turns).
Proof.
  change (Promises.passes_of sample_turns) with
    (healthy_passes ++ [pass0] ++ [pass0] ++ [pass0]). unfold healthy_passes, pass0. cbn [Datatypes.app].
  repeat (apply Forall_cons_2; [apply sample_kept; lia|]). apply Forall_nil_2.
Qed.

(** Three replies went out under the policy. *)
Example sample_admitted :
  (fun st => map (fun x => (o_wire_seq x.1, x.2)) (admitted (log st))) <$> Promises.stopped (run None sample_stage sample_turns) =
  Some [(6, Some Policy); (6, Some Policy); (6, Some Policy)].
Proof. vm_compute. reflexivity. Qed.

Lemma failover_keeps_acked_witness :
  auto_promotion_decision (survivor 8) = Ok 4 /\
  exists st, Promises.stopped (run None sample_stage sample_turns) = Some st /\
    forall slot, HSlot slot Policy ∈ log st -> o_wire_seq slot <= 8.
Proof.
  split; [vm_compute; reflexivity|]. destruct (Promises.stopped (run None sample_stage sample_turns)) as [st|] eqn:Hst; [|vm_compute in Hst; discriminate].
  exists st. split; [done|].
  apply (failover_keeps_acked None sample_egress (Some 100) (settled DiskAndRam) sample_utilization 0 0 pass0
    {| timer := Gate.Timer.timer_new 0; last_heartbeat_scan := 0 |} BusySpin sample_turns st (Walk.published sample_turns)
    (survivor 8) 3 3 4 {| tip_epoch := 3; last_sequence := 5 |} Hst (reflexivity _)).
  - cbn. repeat constructor; cbn; lia.
  - cbn. split; constructor.
  - cbn. repeat constructor.
  - exact sample_lives.
  - exact sample_all_kept.
  - vm_compute. reflexivity.
  - right. by left.
  - reflexivity.
  - cbn. lia.
  - cbn. lia.
  - vm_compute. reflexivity.
Defined.

(** The replicas leave at 5; the reply for 6 goes out on the primary's disk
    alone, and the rules let the replica at 5 take over without it. *)
Definition lost_turns : list (@Turn Z Z) :=
  [ {| t_shutdown := false; t_published := [slot_of 1 6 (Report 7) true]; t_limit := 4; t_snap := snap [] [Egress.Streams.Connected 9];
       t_batch_now := 1; t_admits := [admit_env lost_passes [(snap [] [], 1)]]; t_after := 2; t_idle := idle_env |} ].

Definition empty_start : Pass := sample_pass 5 3 5 true None None 0.

Example degraded_ack_can_be_lost :
  (fun st => map (fun x => (o_wire_seq x.1, x.2)) (admitted (log st))) <$>
    Promises.stopped (run None (start sample_egress (gate_new (Some 100) (settled DiskAndRam) sample_utilization 0 0 empty_start)
      {| timer := Gate.Timer.timer_new 0; last_heartbeat_scan := 0 |} BusySpin) lost_turns) =
  Some [(6, Some PrimaryOnly)] /\
  auto_promotion_decision (survivor 5) = Ok 4.
Proof. vm_compute. done. Qed.

(** A forced [disk] at 6 that no replica holds, and a reply for 7 under it. *)
Definition forced_pass : Pass := sample_pass 7 3 5 false (Some {| f_wire_seq := 6; f_policy := 0 |}) (Some (Presence.At 0)) 10.
Definition forced_turns : list (@Turn Z Z) :=
  [ {| t_shutdown := false;
       t_published := [slot_of 0 6 (PolicyChange {| policy := 0; unwitnessed := true |}) true; slot_of 1 7 (Report 7) true];
       t_limit := 4; t_snap := snap [] [Egress.Streams.Connected 9]; t_batch_now := 1;
       t_admits := [admit_env [forced_pass] []; admit_env [forced_pass] []]; t_after := 2; t_idle := idle_env |} ].

Example forced_disk_can_lose :
  (fun st => map (fun x => (o_wire_seq x.1, x.2)) (admitted (log st))) <$>
    Promises.stopped (run None (start sample_egress (gate_new (Some 100) (settled DiskAndRam) sample_utilization 0 0 empty_start)
      {| timer := Gate.Timer.timer_new 0; last_heartbeat_scan := 0 |} BusySpin) forced_turns) =
  Some [(6, None); (7, Some Policy)] /\
  auto_promotion_decision (survivor 5) = Ok 4.
Proof. vm_compute. done. Qed.
End Sample.
