(* ===== verification/RaftStore.v ===== *)
(** * The control plane's files

    The file-backed storage the Raft library runs on ([raft/src/storage.rs]):
    the vote, the log, the state machine and the snapshot of a node.
    [Framing] is the record format and the file header; [Files] a directory
    whose changes a crash can take back, the system calls on it and a Hoare
    logic with a crash condition for the code that makes them; [Store] the code
    itself; [Spec] what a store promises, on values instead of files; [Exact]
    that the code keeps it through any number of crashes, each at any system
    call. The Raft library's types and the serializer are parameters. *)

From Stdlib Require Import Sorted.
From stdpp Require Import functions gmap strings pretty.
From S2P Require Import Prelude Codec.
Import Codec.Le.

Module Framing.

Definition MAGIC : list Z := [77; 82; 102; 116].
Definition VERSION : Z := 1.
Definition HEADER_LEN : nat := length MAGIC + 1.
Definition MAX_RECORD_LEN : Z := Z.shiftl 1 20.
Definition file_header : list Z := MAGIC ++ [VERSION].

Inductive Damage := ShortFile | BadMagic | BadVersion | CorruptRecord | CorruptMarker | Undecodable | Unencodable.

(** [buf.get(a..b)]. *)
Definition slice (buf : list Z) (a b : nat) : option (list Z) :=
  if (b <=? length buf)%nat then Some (take (b - a) (drop a buf)) else None.

Definition check_header (buf : list Z) : result unit Damage :=
  match slice buf 0 HEADER_LEN with
  | None => Err ShortFile
  | Some header =>
    if negb (bool_decide (take 4 header = MAGIC)) then Err BadMagic
    else if negb (nth 4 header 0 =? VERSION) then Err BadVersion
    else Ok tt
  end.

Section framing.
Context (crc32c : list Z -> Z).

Definition encode_record (payload : list Z) : list Z :=
  le 4 (Z.of_nat (length payload) mod 2 ^ 32) ++ le 4 (crc32c payload) ++ payload.

(** [None] is [RecordRead::Tail]. *)
Definition read_record (buf : list Z) (off : nat) : option (list Z * nat) :=
  match slice buf off (off + 8) with
  | None => None
  | Some head =>
    let len := unle (take 4 head) in
    let crc := unle (drop 4 head) in
    if MAX_RECORD_LEN <? len then None
    else match slice buf (off + 8) (off + 8 + Z.to_nat len) with
         | None => None
         | Some payload =>
           if negb (crc32c payload =? crc) then None else Some (payload, (off + 8 + Z.to_nat len)%nat)
         end
  end.

(** The bytes of a file that [write_file_atomic] leaves. *)
Definition single (payload : list Z) : list Z := file_header ++ encode_record payload.

(** [read_single_record_file] on the bytes of an existing file. *)
Definition read_single (buf : list Z) : result (list Z) Damage :=
  _ <-? check_header buf ;;
  match read_record buf HEADER_LEN with
  | Some (payload, next) => if (next =? length buf)%nat then Ok payload else Err CorruptRecord
  | None => Err CorruptRecord
  end.

(** ** What is written is read back, and a torn record is not read *)

Definition small (payload : list Z) : Prop := Z.of_nat (length payload) <= MAX_RECORD_LEN.

Lemma record_length payload : length (encode_record payload) = (8 + length payload)%nat.
Proof. unfold encode_record. rewrite !length_app, !le_length. lia. Qed.

Lemma small_u32 payload :
  small payload -> Z.of_nat (length payload) mod 2 ^ 32 = Z.of_nat (length payload) /\ in_u32 (Z.of_nat (length payload)).
Proof.
  unfold small. change MAX_RECORD_LEN with 1048576. intros Hs. split; [apply Z.mod_small; lia|widths; lia].
Qed.

Lemma slice_at (pre mid post : list Z) a b :
  a = length pre -> b = (length pre + length mid)%nat -> slice (pre ++ mid ++ post) a b = Some mid.
Proof.
  intros -> ->. unfold slice. rewrite (proj2 (Nat.leb_le _ _)) by (rewrite !length_app; lia).
  rewrite drop_app_length. f_equal. apply take_app_length'. lia.
Qed.

Lemma slice_short (buf : list Z) a b : (length buf < b)%nat -> slice buf a b = None.
Proof. intros Hl. unfold slice. by rewrite (proj2 (Nat.leb_gt _ _)). Qed.

Hypothesis crc_range : forall bs, in_u32 (crc32c bs).

Lemma read_back (pre payload rest : list Z) :
  small payload ->
  read_record (pre ++ encode_record payload ++ rest) (length pre) = Some (payload, (length pre + length (encode_record payload))%nat).
Proof.
  intros Hs. destruct (small_u32 _ Hs) as [Hm Hu]. rewrite record_length. unfold read_record, encode_record. rewrite Hm, <- !app_assoc.
  rewrite (app_assoc (le 4 _)).
  rewrite (slice_at pre (le 4 (Z.of_nat (length payload)) ++ le 4 (crc32c payload)))
    by (rewrite ?length_app, ?le_length; lia).
  rewrite take_app_length', drop_app_length' by (by rewrite le_length). rewrite !unle_u32 by (done || apply crc_range).
  unfold small in Hs. rewrite (proj2 (Z.ltb_ge _ _)), Nat2Z.id by lia. rewrite (app_assoc pre).
  rewrite slice_at by (rewrite !length_app, !le_length; lia). rewrite Z.eqb_refl. cbn [negb]. do 2 f_equal. lia.
Qed.

(** A proper prefix of a record is a tail. *)
Lemma torn_unread (pre payload : list Z) k :
  small payload -> (k < length (encode_record payload))%nat ->
  read_record (pre ++ take k (encode_record payload)) (length pre) = None.
Proof.
  intros Hs Hk. rewrite record_length in Hk. destruct (small_u32 _ Hs) as [Hm Hu]. unfold read_record.
  destruct (decide (k < 8)%nat) as [H8|H8].
  { rewrite slice_short; [done|]. rewrite length_app, length_take, record_length. lia. }
  unfold encode_record. rewrite Hm, app_assoc, take_app_ge by (rewrite length_app, !le_length; lia).
  rewrite (slice_at pre (le 4 (Z.of_nat (length payload)) ++ le 4 (crc32c payload)))
    by (rewrite ?length_app, ?le_length; lia).
  rewrite take_app_length', drop_app_length' by (by rewrite le_length). rewrite unle_u32 by done. rewrite Nat2Z.id.
  destruct (MAX_RECORD_LEN <? _); [done|]. rewrite slice_short; [done|].
  rewrite !length_app, !le_length, length_take. lia.
Qed.

Lemma header_checks rest : check_header (file_header ++ rest) = Ok tt.
Proof. reflexivity. Qed.

Lemma single_reads payload : small payload -> read_single (single payload) = Ok payload.
Proof.
  intros Hs. unfold read_single, single. rewrite header_checks. cbn [rbind].
  pose proof (read_back file_header payload [] Hs) as Hr. rewrite app_nil_r in Hr.
  change HEADER_LEN with (length file_header). rewrite Hr, length_app, Nat.eqb_refl. done.
Qed.
End framing.
End Framing.

(** ** The directory *)
Module Files.

Inductive File := VOTE_FILE | LOG_FILE | SM_FILE | SNAPSHOT_FILE.
Inductive Name := At (f : File) | Tmp (f : File).

#[export] Instance File_eq_dec : EqDecision File.
Proof. solve_decision. Defined.
#[export] Instance Name_eq_dec : EqDecision Name.
Proof. solve_decision. Defined.

Definition file_code (f : File) : nat := match f with VOTE_FILE => 0 | LOG_FILE => 1 | SM_FILE => 2 | SNAPSHOT_FILE => 3 end.
Definition code_file (n : nat) : option File :=
  match n with
  | 0 => Some VOTE_FILE | 1 => Some LOG_FILE | 2 => Some SM_FILE | 3 => Some SNAPSHOT_FILE | _ => None
  end%nat.
#[export] Instance File_countable : Countable File.
Proof. apply (inj_countable file_code code_file). by intros []. Defined.
#[export] Instance Name_countable : Countable Name.
Proof.
  apply (inj_countable (fun n => match n with At f => inl f | Tmp f => inr f end)
           (fun s => Some (match s with inl f => At f | inr f => Tmp f end))). by intros [].
Defined.

(** An inode is a number; a change of the directory is not durable until the
    directory is synced. *)
Inductive DirOp := Link (n : Name) (i : nat) | Move (from to : Name) (i : nat).

Notation Dir := (gmap Name nat).
Definition apply_op (d : Dir) (op : DirOp) : Dir :=
  match op with Link n i => <[n := i]> d | Move from to i => <[to := i]> (delete from d) end.

(** [live] is the directory system calls see, [disk] the durable one, [pending]
    the changes between them; [cur] the bytes reads see, [dur] those at the
    file's last sync. *)
Record Fs := {
  live : Dir;
  disk : Dir;
  pending : list DirOp;
  cur : gmap nat (list Z);
  dur : gmap nat (list Z);
  fresh : nat
}.

Definition empty_fs : Fs := {| live := ∅; disk := ∅; pending := []; cur := ∅; dur := ∅; fresh := 0 |}.

(** What a crash can leave of a file: when the unsynced change only appended or
    only shortened, the bytes between; otherwise anything. *)
Definition survives (d c b : list Z) : Prop :=
  (d `prefix_of` c -> d `prefix_of` b /\ b `prefix_of` c) /\
  (c `prefix_of` d -> c `prefix_of` b /\ b `prefix_of` d).

Definition crash (fs fs' : Fs) : Prop :=
  (exists ops, ops `sublist_of` pending fs /\ live fs' = foldl apply_op (disk fs) ops) /\
  disk fs' = live fs' /\ pending fs' = [] /\ dur fs' = cur fs' /\ fresh fs' = fresh fs /\
  forall i, match dur fs !! i, cur fs !! i with
            | Some d, Some c => exists b, cur fs' !! i = Some b /\ survives d c b
            | _, _ => True
            end.

(** ** System calls

    Code that makes system calls runs with a count of the calls left; the call
    that finds none does nothing and fails. This is a call that returned an
    error and equally the node dying at it: either way nothing after it runs. *)

Inductive IoError := Interrupted | NotFound | InvalidData (d : Framing.Damage).

Definition M (A : Type) : Type := Fs * nat -> result A IoError * (Fs * nat).

#[export] Instance M_ret : MRet M := fun A a w => (Ok a, w).
#[export] Instance M_bind : MBind M := fun A B k m w =>
  match m w with (Ok a, w) => k a w | (Err e, w) => (Err e, w) end.

Definition call {A} (k : Fs -> result A IoError * Fs) : M A := fun '(fs, n) =>
  match n with
  | O => (Err Interrupted, (fs, O))
  | S n => let '(r, fs') := k fs in (r, (fs', n))
  end.

Definition lift {A} (r : result A Framing.Damage) : M A := fun w =>
  (match r with Ok a => Ok a | Err d => Err (InvalidData d) end, w).

Definition record_op (op : DirOp) (fs : Fs) : Fs :=
  {| live := apply_op (live fs) op; disk := disk fs; pending := pending fs ++ [op]; cur := cur fs; dur := dur fs; fresh := fresh fs |}.
Definition set_cur (i : nat) (b : list Z) (fs : Fs) : Fs :=
  {| live := live fs; disk := disk fs; pending := pending fs; cur := <[i := b]> (cur fs); dur := dur fs; fresh := fresh fs |}.
Definition set_dur (i : nat) (b : list Z) (fs : Fs) : Fs :=
  {| live := live fs; disk := disk fs; pending := pending fs; cur := cur fs; dur := <[i := b]> (dur fs); fresh := fresh fs |}.
Definition new_inode (fs : Fs) : Fs :=
  {| live := live fs; disk := disk fs; pending := pending fs; cur := <[fresh fs := []]> (cur fs);
     dur := <[fresh fs := []]> (dur fs); fresh := S (fresh fs) |}.

(** [File::create]: an existing file is emptied. *)
Definition create (n : Name) : M nat := call (fun fs =>
  match live fs !! n with
  | Some i => (Ok i, set_cur i [] fs)
  | None => (Ok (fresh fs), record_op (Link n (fresh fs)) (new_inode fs))
  end).

(** [write_all], at the end of the file: the handle is new or in append mode.
    What a call that wrote only a part leaves is among what a crash after the
    whole leaves. *)
Definition write_all (i : nat) (buf : list Z) : M unit := call (fun fs =>
  match cur fs !! i with Some c => (Ok tt, set_cur i (c ++ buf) fs) | None => (Err NotFound, fs) end).

Definition set_len (i : nat) (len : nat) : M unit := call (fun fs =>
  match cur fs !! i with Some c => (Ok tt, set_cur i (take len c) fs) | None => (Err NotFound, fs) end).

Definition sync_data (i : nat) : M unit := call (fun fs =>
  match cur fs !! i with Some c => (Ok tt, set_dur i c fs) | None => (Err NotFound, fs) end).

Definition rename (from to : Name) : M unit := call (fun fs =>
  match live fs !! from with Some i => (Ok tt, record_op (Move from to i) fs) | None => (Err NotFound, fs) end).

Definition fsync_dir : M unit := call (fun fs =>
  (Ok tt, {| live := live fs; disk := live fs; pending := []; cur := cur fs; dur := dur fs; fresh := fresh fs |})).

(** [fs::read], [None] when there is no such file. *)
Definition read (n : Name) : M (option (list Z)) := call (fun fs => (Ok (live fs !! n ≫= fun i => cur fs !! i), fs)).

Definition open_file (n : Name) : M nat := call (fun fs =>
  match live fs !! n with Some i => (Ok i, fs) | None => (Err NotFound, fs) end).

(** ** A Hoare logic with a crash condition

    [triple k P m Q C]: from a state of [P], with any number of calls left, [m]
    returns in a state of [Q], having made at most [k] calls, or is interrupted
    in one of [C], and then fewer than [k] were left. *)
Definition triple {A} (k : nat) (P : Fs -> Prop) (m : M A) (Q : A -> Fs -> Prop) (C : Fs -> Prop) : Prop :=
  forall fs n, P fs ->
  match m (fs, n) with
  | (Ok a, (fs', n')) => Q a fs' /\ (n <= n' + k)%nat
  | (Err Interrupted, (fs', _)) => C fs' /\ (n < k)%nat
  | (Err _, _) => False
  end.

Lemma triple_ret {A} k (P : Fs -> Prop) (a : A) Q C : (forall fs, P fs -> Q a fs) -> triple k P (mret a) Q C.
Proof. intros H fs n HP. cbn. split; [by apply H|lia]. Qed.

Lemma triple_bind {A B} k1 k2 P (m : M A) (f : A -> M B) Q R C :
  triple k1 P m Q C -> (forall a, triple k2 (Q a) (f a) R C) -> triple (k1 + k2) P (m ≫= f) R C.
Proof.
  intros Hm Hf fs n HP. specialize (Hm fs n HP). unfold mbind, M_bind. destruct (m (fs, n)) as [[a|[]] [fs' n']]; try done.
  - destruct Hm as [HQ Hn]. specialize (Hf a fs' n' HQ). destruct (f a (fs', n')) as [[b|[]] [fs'' n'']]; try done.
    + destruct Hf; split; [done|lia].
    + destruct Hf; split; [done|lia].
  - destruct Hm; split; [done|lia].
Qed.

(** The same, for a sequence whose first two steps have a triple together. *)
Lemma triple_assoc {A B D} k1 k2 P (m : M A) (f : A -> M B) (g : B -> M D) Q R C :
  triple k1 P (m ≫= f) Q C -> (forall b, triple k2 (Q b) (g b) R C) -> triple (k1 + k2) P (m ≫= fun a => f a ≫= g) R C.
Proof.
  intros Hm Hg fs n HP. pose proof (triple_bind k1 k2 P _ g Q R C Hm Hg fs n HP) as H. unfold mbind, M_bind in *.
  by destruct (m (fs, n)) as [[a|e] w].
Qed.

Lemma triple_conseq {A} k k' (P P' : Fs -> Prop) (m : M A) (Q Q' : A -> Fs -> Prop) (C C' : Fs -> Prop) :
  triple k P m Q C -> (k <= k')%nat -> (forall fs, P' fs -> P fs) -> (forall a fs, Q a fs -> Q' a fs) -> (forall fs, C fs -> C' fs) ->
  triple k' P' m Q' C'.
Proof.
  intros Hm Hk HP HQ HC fs n H. specialize (Hm fs n (HP fs H)). destruct (m (fs, n)) as [[a|[]] [fs' n']]; try done.
  - destruct Hm as [Ha Hn]. split; [by apply HQ|lia].
  - destruct Hm as [Ha Hn]. split; [by apply HC|lia].
Qed.

Lemma triple_call {A} (P : Fs -> Prop) (k : Fs -> result A IoError * Fs) (Q : A -> Fs -> Prop) (C : Fs -> Prop) :
  (forall fs, P fs -> C fs) -> (forall fs, P fs -> exists a fs', k fs = (Ok a, fs') /\ Q a fs') -> triple 1 P (call k) Q C.
Proof.
  intros HC HQ fs [|n] HP; cbn; [split; [by apply HC|lia]|]. destruct (HQ fs HP) as (a & fs' & -> & Ha). split; [done|lia].
Qed.

Lemma triple_lift {A} k (P : Fs -> Prop) (r : result A Framing.Damage) a (Q : A -> Fs -> Prop) C :
  r = Ok a -> (forall fs, P fs -> Q a fs) -> triple k P (lift r) Q C.
Proof. intros -> H fs n HP. cbn. split; [by apply H|lia]. Qed.

(** A precondition that is an existential or a fact. *)
Lemma triple_exists {A X} k (P : X -> Fs -> Prop) (m : M A) Q C :
  (forall x, triple k (P x) m Q C) -> triple k (fun fs => exists x, P x fs) m Q C.
Proof. intros H fs n [x HP]. by apply (H x). Qed.

Lemma triple_pure {A} k (P : Prop) (R : Fs -> Prop) (m : M A) Q C :
  (P -> triple k R m Q C) -> triple k (fun fs => P /\ R fs) m Q C.
Proof. intros H fs n [HP HR]. by apply H. Qed.
End Files.

(** ** Replacing a file

    [holds img fs]: the directory is durable, and what each file holds is
    [img]. A replacement keeps every other file, and a crash in it leaves the
    old bytes or the new ones. *)
Module Replace.
Import Files.

Notation Image := (File -> option (list Z)).

Definition image (d : Dir) (m : gmap nat (list Z)) (f : File) : option (list Z) := d !! At f ≫= fun i => m !! i.

Record sound (d : Dir) (m : gmap nat (list Z)) (fr : nat) : Prop := {
  so_inj : forall a b i, d !! a = Some i -> d !! b = Some i -> a = b;
  so_known : forall a i, d !! a = Some i -> (i < fr)%nat /\ is_Some (m !! i)
}.

Record holds (img : Image) (fs : Fs) : Prop := {
  ho_pending : pending fs = [];
  ho_disk : disk fs = live fs;
  ho_dur : dur fs = cur fs;
  ho_sound : sound (live fs) (cur fs) (fresh fs);
  ho_image : forall f, image (live fs) (cur fs) f = img f
}.

(** What a crash leaves is settled, and one of [I]. *)
Definition left (I : Image -> Prop) (fs : Fs) : Prop := forall fs', crash fs fs' -> exists img, holds img fs' /\ I img.

Lemma left_mono (I J : Image -> Prop) fs : (forall img, I img -> J img) -> left I fs -> left J fs.
Proof. intros HIJ HI fs' Hc. destruct (HI fs' Hc) as (img & Hh & Hi). exists img. auto. Qed.

Lemma sound_sub d d' m fr : d ⊆ d' -> sound d' m fr -> sound d m fr.
Proof.
  intros Hsub [Hi Hk]. split.
  - intros a b i Ha Hb. eapply Hi; eapply lookup_weaken; eassumption.
  - intros a i Ha. apply (Hk a). by eapply lookup_weaken.
Qed.

Lemma survives_same c b : survives c c b -> b = c.
Proof. intros [H _]. destruct (H (reflexivity c)) as [H1 H2]. by apply (anti_symm prefix). Qed.

(** Memory after a crash, on the inodes in use. *)
Lemma crash_mem fs fs' j :
  crash fs fs' -> dur fs !! j = cur fs !! j -> is_Some (cur fs !! j) -> cur fs' !! j = cur fs !! j.
Proof.
  intros (_ & _ & _ & _ & _ & Hm) Hd [b Hb]. specialize (Hm j). rewrite Hd, Hb in Hm.
  destruct Hm as (b' & Hb' & ->%survives_same). congruence.
Qed.

Lemma crash_known fs fs' j : crash fs fs' -> is_Some (dur fs !! j) -> is_Some (cur fs !! j) -> is_Some (cur fs' !! j).
Proof. intros (_ & _ & _ & _ & _ & Hm) [d Hd] [c Hc]. specialize (Hm j). rewrite Hd, Hc in Hm. destruct Hm as (b & -> & _). eauto. Qed.

(** A settled directory survives a crash as it is. *)
Lemma holds_left img fs : holds img fs -> left (fun img' => img' = img) fs.
Proof.
  intros [Hp Hd Hu [Hi Hk] Him] fs' Hc. pose proof Hc as ((ops & Hops & Hl) & Hd' & Hp' & Hu' & Hf & _).
  rewrite Hp in Hops. apply sublist_nil_r in Hops. subst ops. cbn in Hl. rewrite Hd in Hl.
  assert (Hsame : forall a i, live fs !! a = Some i -> cur fs' !! i = cur fs !! i).
  { intros a i Ha. apply crash_mem; [done|by rewrite Hu|]. by apply (Hk a i). }
  exists img. split; [|done]. split; try done; try congruence.
  - rewrite Hl, Hf. split; [exact Hi|]. intros a i Ha. destruct (Hk a i Ha) as [Hlt Hs]. split; [done|]. by rewrite (Hsame a i Ha).
  - intros f. rewrite <- Him. unfold image. rewrite Hl. destruct (live fs !! At f) as [i|] eqn:E; [|done]. cbn. by apply (Hsame (At f)).
Qed.

(** Between [File::create] of the temporary file and its rename; [synced] once
    its bytes are on disk. *)
Record writing (f : File) (i : nat) (c : list Z) (synced : bool) (img : Image) (fs : Fs) : Prop := {
  wr_tmp : live fs !! Tmp f = Some i;
  wr_sound : sound (live fs) (cur fs) (fresh fs);
  wr_dir : (pending fs = [] /\ disk fs = live fs) \/
           (pending fs = [Link (Tmp f) i] /\ live fs = <[Tmp f := i]> (disk fs) /\ disk fs !! Tmp f = None);
  wr_other : forall j, j <> i -> dur fs !! j = cur fs !! j;
  wr_known : is_Some (dur fs !! i);
  wr_cur : cur fs !! i = Some c;
  wr_dur : synced = true -> dur fs !! i = Some c;
  wr_image : forall g, image (live fs) (cur fs) g = img g
}.

Lemma writing_sub f i c s img fs : writing f i c s img fs -> disk fs ⊆ live fs.
Proof. intros []. destruct wr_dir0 as [[_ ->]|(_ & -> & Hn)]; [done|]. by apply insert_subseteq. Qed.

(** Both directories a crash can leave show the old files. *)
Lemma writing_dirs f i c s img fs ops :
  writing f i c s img fs -> ops `sublist_of` pending fs ->
  let d := foldl apply_op (disk fs) ops in
  d ⊆ live fs /\ forall g, d !! At g = live fs !! At g.
Proof.
  intros Hw Hops d. pose proof (writing_sub _ _ _ _ _ _ Hw) as Hsub. destruct Hw. destruct wr_dir0 as [[Hp Hd]|(Hp & Hl & Hn)]; rewrite Hp in Hops.
  - apply sublist_nil_r in Hops. subst ops. unfold d. cbn. by rewrite Hd.
  - assert (Hcase : ops = [] \/ ops = [Link (Tmp f) i]).
    { destruct ops as [|o ops]; [by left|]. right. apply sublist_cons_l in Hops as (k1 & k2 & Hk & Ho).
      destruct k1 as [|? [|]]; simplify_eq/=. by apply sublist_nil_r in Ho as ->. }
    destruct Hcase as [->| ->]; unfold d; cbn [foldl apply_op].
    + split; [done|]. intros g. by rewrite Hl, lookup_insert_ne.
    + by rewrite <- Hl.
Qed.

Lemma writing_mem f i c s img fs fs' a j :
  writing f i c s img fs -> crash fs fs' -> live fs !! a = Some j ->
  is_Some (cur fs' !! j) /\ (a <> Tmp f -> cur fs' !! j = cur fs !! j).
Proof.
  intros [] Hc Ha. destruct (so_known _ _ _ wr_sound0 a j Ha) as [_ Hk]. split.
  - destruct (decide (j = i)) as [->|Hj]; [by eapply crash_known|]. eapply crash_known; [done| |done]. by rewrite wr_other0.
  - intros Hn. apply crash_mem; [done| |done]. apply wr_other0. intros ->. by apply Hn, (so_inj _ _ _ wr_sound0 _ _ i).
Qed.

Lemma writing_left f i c s img fs : writing f i c s img fs -> left (fun img' => img' = img) fs.
Proof.
  intros Hw fs' Hc. pose proof Hc as ((ops & Hops & Hl) & Hd' & Hp' & Hu' & Hf & _).
  destruct (writing_dirs _ _ _ _ _ _ _ Hw Hops) as [Hsub Hat]. rewrite <- Hl in Hsub, Hat.
  exists img. split; [|done]. split; try done.
  - destruct (sound_sub _ _ _ _ Hsub (wr_sound _ _ _ _ _ _ Hw)) as [Hi Hk]. rewrite Hf. split; [exact Hi|].
    intros a j Ha. split; [by apply (Hk a)|]. eapply writing_mem; [done|done|]. by eapply lookup_weaken.
  - intros g. rewrite <- (wr_image _ _ _ _ _ _ Hw). unfold image. rewrite Hat. destruct (live fs !! At g) as [j|] eqn:E; [|done]. cbn.
    by eapply writing_mem.
Qed.

(** The rename, on any directory that shows the old files. *)
Lemma moved f i c img (live0 d : Dir) (m : gmap nat (list Z)) fr :
  live0 !! Tmp f = Some i -> d ⊆ live0 -> (forall g, d !! At g = live0 !! At g) -> sound live0 m fr ->
  m !! i = Some c -> (forall g, image live0 m g = img g) ->
  let d' := <[At f := i]> (delete (Tmp f) d) in sound d' m fr /\ forall g, image d' m g = <[f := Some c]> img g.
Proof.
  intros Ht Hsub Hat Hs Hm Him d'.
  assert (Hother : forall a j, a <> At f -> d' !! a = Some j -> d !! a = Some j /\ j <> i).
  { intros a j Ha Hj. unfold d' in Hj. rewrite lookup_insert_ne in Hj by done. apply lookup_delete_Some in Hj as [Hne Hj]. split; [done|].
    intros ->. apply Hne. eapply (so_inj _ _ _ Hs); [done|by eapply lookup_weaken]. }
  assert (Hf : d' !! At f = Some i) by apply lookup_insert_eq. split; [split|].
  - intros a b j Ha Hb. destruct (decide (a = At f)) as [->|Hna], (decide (b = At f)) as [->|Hnb]; [done|..].
    + destruct (Hother b j Hnb Hb). congruence.
    + destruct (Hother a j Hna Ha). congruence.
    + destruct (Hother a j Hna Ha), (Hother b j Hnb Hb). eapply (so_inj _ _ _ Hs); by eapply lookup_weaken.
  - intros a j Ha. destruct (decide (a = At f)) as [->|Hna].
    + rewrite Hf in Ha. injection Ha as <-. split; [|by rewrite Hm]. by apply (so_known _ _ _ Hs (Tmp f)).
    + destruct (Hother a j Hna Ha) as [Hd _]. apply (so_known _ _ _ Hs a). by eapply lookup_weaken.
  - intros g. unfold image. destruct (decide (g = f)) as [->|Hg]; [by rewrite Hf, fn_lookup_insert|].
    rewrite fn_lookup_insert_ne by done. unfold d'. rewrite lookup_insert_ne, lookup_delete_ne by congruence. rewrite Hat. apply Him.
Qed.

(** After the rename, the directory not yet synced. *)
Definition renamed (f : File) (c : list Z) (img : Image) (fs : Fs) : Prop :=
  exists i fs0, writing f i c true img fs0 /\ fs = record_op (Move (Tmp f) (At f) i) fs0.

Definition replaced (f : File) (c : list Z) (img : Image) : Image -> Prop := fun img' => img' = img \/ img' = <[f := Some c]> img.

Lemma sublist_snoc_inv {A} (xs ys : list A) (y : A) :
  xs `sublist_of` ys ++ [y] -> (xs `sublist_of` ys) \/ exists zs, xs = zs ++ [y] /\ zs `sublist_of` ys.
Proof.
  intros (k1 & k2 & -> & H1 & H2)%sublist_app_r. destruct k2 as [|z k2]; [left; by rewrite app_nil_r|]. right.
  apply sublist_cons_l in H2 as (l1 & l2 & Hl & Ho). destruct l1 as [|? [|]]; simplify_eq/=.
  apply sublist_nil_r in Ho as ->. eauto.
Qed.

(** The temporary file's inode, after a crash, when its bytes are synced. *)
Lemma writing_synced f i c img fs fs' : writing f i c true img fs -> crash fs fs' -> cur fs' !! i = Some c.
Proof. intros [] Hc. rewrite (crash_mem fs fs' i Hc); [done| |by rewrite wr_cur0]. by rewrite wr_cur0, wr_dur0. Qed.

Lemma renamed_left f c img fs : renamed f c img fs -> left (replaced f c img) fs.
Proof.
  intros (i & fs0 & Hw & ->) fs' Hc. pose proof Hc as ((ops & Hops & Hl) & Hd & Hp & Hu & Hf & Hm). cbn in Hops, Hl, Hf, Hm.
  assert (Hback : forall d, (exists ops0, ops0 `sublist_of` pending fs0 /\ d = foldl apply_op (disk fs0) ops0) ->
    crash fs0 {| live := d; disk := d; pending := []; cur := cur fs'; dur := cur fs'; fresh := fresh fs' |}).
  { intros d Hd'. by repeat split. }
  destruct (sublist_snoc_inv _ _ _ Hops) as [Hs|(zs & -> & Hs)].
  - destruct (writing_left _ _ _ _ _ _ Hw _ (Hback (live fs') (ex_intro _ ops (conj Hs Hl)))) as (img' & Hh & ->). exists img. split; [|by left].
    destruct fs'. cbn in *. by subst.
  - pose proof (Hback _ (ex_intro _ zs (conj Hs eq_refl))) as Hc0. destruct (writing_dirs _ _ _ _ _ _ _ Hw Hs) as [Hsub Hat].
    rewrite foldl_app in Hl. cbn [foldl apply_op] in Hl.
    destruct (moved f i c img (live fs0) (foldl apply_op (disk fs0) zs) (cur fs') (fresh fs')) as [Hso Him]; try done.
    + apply Hw.
    + destruct (wr_sound _ _ _ _ _ _ Hw) as [Hi Hk]. rewrite Hf. split; [exact Hi|]. intros a j Ha. split; [by apply (Hk a)|].
      eapply (writing_mem _ _ _ _ _ _ _ _ _ Hw Hc0). exact Ha.
    + apply (writing_synced _ _ _ _ _ _ Hw Hc0).
    + intros g. rewrite <- (wr_image _ _ _ _ _ _ Hw). unfold image. destruct (live fs0 !! At g) as [j|] eqn:E; [|done]. cbn.
      eapply (writing_mem _ _ _ _ _ _ _ _ _ Hw Hc0); done.
    + rewrite <- Hl in *. exists (<[f := Some c]> img). split; [|by right]. by split.
Qed.

(** The five calls of [write_file_atomic] and of [LogInner::rewrite]. *)
Definition publish (f : File) (buf : list Z) : M unit :=
  h ← create (Tmp f); write_all h buf;; sync_data h;; rename (Tmp f) (At f);; fsync_dir.

Lemma sound_mem d (m m' : gmap nat (list Z)) fr fr' :
  (forall j, is_Some (m !! j) -> is_Some (m' !! j)) -> (fr <= fr')%nat -> sound d m fr -> sound d m' fr'.
Proof. intros Hm Hfr [Hi Hk]. split; [exact Hi|]. intros a i Ha. destruct (Hk a i Ha). split; [lia|auto]. Qed.

Lemma insert_known {A} (m : gmap nat A) i b j : is_Some (m !! j) -> is_Some (<[i := b]> m !! j).
Proof. intros Hm. destruct (decide (i = j)) as [->|Hn]; [rewrite lookup_insert_eq; eauto|by rewrite lookup_insert_ne]. Qed.

Lemma image_mem d (m m' : gmap nat (list Z)) g :
  (forall j, d !! At g = Some j -> m' !! j = m !! j) -> image d m' g = image d m g.
Proof. intros H. unfold image. destruct (d !! At g) as [j|]; [|done]. cbn. by apply H. Qed.

Lemma create_triple f img : triple 1 (holds img) (create (Tmp f)) (fun i => writing f i [] false img) (left (fun img' => img' = img)).
Proof.
  apply triple_call; [by apply holds_left|]. intros fs [Hp Hd Hu Hs Him]. destruct (live fs !! Tmp f) as [i|] eqn:E.
  - exists i, (set_cur i [] fs). split; [done|]. destruct (so_known _ _ _ Hs _ _ E) as [_ Hk]. split; cbn; try done.
    + eapply sound_mem; [|done|exact Hs]. intros j. apply insert_known.
    + by left.
    + intros j Hj. by rewrite Hu, lookup_insert_ne.
    + by rewrite Hu.
    + apply lookup_insert_eq.
    + intros g. rewrite <- Him. apply image_mem. intros j Hj. apply lookup_insert_ne. intros <-. by pose proof (so_inj _ _ _ Hs _ _ _ Hj E).
  - exists (fresh fs), (record_op (Link (Tmp f) (fresh fs)) (new_inode fs)). split; [done|].
    assert (Hold : forall a j, live fs !! a = Some j -> j <> fresh fs).
    { intros a j Ha. apply (so_known _ _ _ Hs) in Ha as [? _]. lia. }
    split; cbn; try done.
    + apply lookup_insert_eq.
    + split.
      * intros a b j Ha Hb. destruct (decide (a = Tmp f)) as [->|Hna], (decide (b = Tmp f)) as [->|Hnb]; try done;
          rewrite ?lookup_insert_eq in *; rewrite ?lookup_insert_ne in * by done; simplify_eq.
        -- by apply Hold in Hb.
        -- by apply Hold in Ha.
        -- by apply (so_inj _ _ _ Hs _ _ j).
      * intros a j Ha. destruct (decide (a = Tmp f)) as [->|Hna].
        -- rewrite lookup_insert_eq in Ha. injection Ha as <-. rewrite lookup_insert_eq. split; [lia|eauto].
        -- rewrite lookup_insert_ne in Ha by done. destruct (so_known _ _ _ Hs _ _ Ha). split; [lia|by apply insert_known].
    + right. rewrite Hp, Hd. by repeat split.
    + intros j Hj. rewrite !lookup_insert_ne by done. by rewrite Hu.
    + rewrite lookup_insert_eq. eauto.
    + apply lookup_insert_eq.
    + intros g. rewrite <- Him. unfold image. rewrite lookup_insert_ne by done. destruct (live fs !! At g) as [j|] eqn:Eg; [|done]. cbn.
      rewrite lookup_insert_ne; [done|]. intros Hj. by apply (Hold (At g) j).
Qed.

Lemma write_triple f i c s img buf :
  triple 1 (writing f i c s img) (write_all i buf) (fun _ => writing f i (c ++ buf) false img) (left (fun img' => img' = img)).
Proof.
  apply triple_call; [apply writing_left|]. intros fs Hw. exists tt, (set_cur i (c ++ buf) fs). rewrite (wr_cur _ _ _ _ _ _ Hw). split; [done|].
  destruct Hw. split; cbn; try done.
  - eapply sound_mem; [|done|exact wr_sound0]. intros j. apply insert_known.
  - intros j Hj. rewrite lookup_insert_ne by done. by apply wr_other0.
  - apply lookup_insert_eq.
  - intros g. rewrite <- wr_image0. apply image_mem. intros j Hj. apply lookup_insert_ne. intros <-.
    by pose proof (so_inj _ _ _ wr_sound0 _ _ _ Hj wr_tmp0).
Qed.

Lemma sync_triple f i c s img :
  triple 1 (writing f i c s img) (sync_data i) (fun _ => writing f i c true img) (left (fun img' => img' = img)).
Proof.
  apply triple_call; [apply writing_left|]. intros fs []. exists tt, (set_dur i c fs). rewrite wr_cur0. split; [done|]. split; cbn; try done.
  - intros j Hj. rewrite lookup_insert_ne by done. by apply wr_other0.
  - by apply insert_known.
  - intros _. apply lookup_insert_eq.
Qed.

Lemma rename_triple f i c img :
  triple 1 (writing f i c true img) (rename (Tmp f) (At f)) (fun _ => renamed f c img) (left (replaced f c img)).
Proof.
  apply triple_call.
  - intros fs Hw. eapply left_mono; [|by eapply writing_left]. by left.
  - intros fs Hw. rewrite (wr_tmp _ _ _ _ _ _ Hw). do 2 eexists. split; [done|]. by exists i, fs.
Qed.

Lemma fsync_triple f c img : triple 1 (renamed f c img) fsync_dir (fun _ => holds (<[f := Some c]> img)) (left (replaced f c img)).
Proof.
  apply triple_call; [apply renamed_left|]. intros fs (i & fs0 & Hw & ->). do 2 eexists. split; [done|].
  destruct (moved f i c img (live fs0) (live fs0) (cur fs0) (fresh fs0)) as [Hso Him]; try apply Hw; try done.
  split; try done. cbn. apply map_eq. intros j. destruct (decide (j = i)) as [->|Hj]; [|by apply Hw].
  by rewrite (wr_cur _ _ _ _ _ _ Hw), (wr_dur _ _ _ _ _ _ Hw).
Qed.

(** A replacement is atomic, over a temporary file left open too. *)
Lemma publish_from k (P : Fs -> Prop) f buf img :
  triple k P (create (Tmp f)) (fun i => writing f i [] false img) (left (fun img' => img' = img)) ->
  triple (k + 4) P (publish f buf) (fun _ => holds (<[f := Some buf]> img)) (left (replaced f buf img)).
Proof.
  assert (Hl : forall fs, left (fun img' => img' = img) fs -> left (replaced f buf img) fs).
  { intros fs. apply left_mono. by left. }
  assert (Hw : forall A k (P : Fs -> Prop) (m : M A) Q, triple k P m Q (left (fun img' => img' = img)) -> triple k P m Q (left (replaced f buf img))).
  { intros A k' P' m Q Hm. eapply triple_conseq; try done. }
  intros Hc. apply (triple_bind k 4 _ _ _ _ _ _ (Hw _ _ _ _ _ Hc)).
  intros i. apply (triple_bind 1 3 _ _ _ _ _ _ (Hw _ _ _ _ _ (write_triple f i [] false img buf))).
  intros _. apply (triple_bind 1 2 _ _ _ _ _ _ (Hw _ _ _ _ _ (sync_triple f i buf false img))).
  intros _. apply (triple_bind 1 1 _ _ _ _ _ _ (rename_triple f i buf img)). intros _. apply fsync_triple.
Qed.

Lemma publish_triple f buf img :
  triple 5 (holds img) (publish f buf) (fun _ => holds (<[f := Some buf]> img)) (left (replaced f buf img)).
Proof. apply (publish_from 1), create_triple. Qed.

Lemma publish_again_triple f i c s buf img :
  triple 5 (writing f i c s img) (publish f buf) (fun _ => holds (<[f := Some buf]> img)) (left (replaced f buf img)).
Proof.
  apply (publish_from 1), triple_call; [apply writing_left|]. intros fs []. rewrite wr_tmp0. do 2 eexists. split; [done|]. split; cbn; try done.
  - eapply sound_mem; [|done|exact wr_sound0]. intros j. apply insert_known.
  - intros j Hj. rewrite lookup_insert_ne by done. by apply wr_other0.
  - apply lookup_insert_eq.
  - intros g. rewrite <- wr_image0. apply image_mem. intros j Hj. apply lookup_insert_ne. intros <-.
    by pose proof (so_inj _ _ _ wr_sound0 _ _ _ Hj wr_tmp0).
Qed.

(** The least a crash can leave: only what is synced. *)
Definition least (fs : Fs) : Fs :=
  {| live := disk fs; disk := disk fs; pending := []; cur := dur fs; dur := dur fs; fresh := fresh fs |}.

Lemma least_crash fs : crash fs (least fs).
Proof.
  split; [exists []; split; [apply sublist_nil_l|done]|]. split_and!; try done. intros i. cbn.
  destruct (dur fs !! i) as [d|]; [|done]. destruct (cur fs !! i) as [c|]; [|done]. exists d. by repeat split.
Qed.

(** ** Changing a file in place

    The file [f], open at [h], holds [c]; [d] of it is on disk. *)
Record changing (f : File) (h : nat) (d c : list Z) (img : Image) (fs : Fs) : Prop := {
  ch_handle : live fs !! At f = Some h;
  ch_sound : sound (live fs) (cur fs) (fresh fs);
  ch_pending : pending fs = [];
  ch_disk : disk fs = live fs;
  ch_other : forall j, j <> h -> dur fs !! j = cur fs !! j;
  ch_cur : cur fs !! h = Some c;
  ch_dur : dur fs !! h = Some d;
  ch_image : forall g, g <> f -> image (live fs) (cur fs) g = img g
}.

Definition between (d c b : list Z) : Prop := (d `prefix_of` b /\ b `prefix_of` c) \/ (c `prefix_of` b /\ b `prefix_of` d).
Definition changed (f : File) (d c : list Z) (img : Image) : Image -> Prop :=
  fun img' => exists b, between d c b /\ img' f = Some b /\ forall g, g <> f -> img' g = img g.

Lemma changing_left f h d c img fs :
  changing f h d c img fs -> d `prefix_of` c \/ c `prefix_of` d -> left (changed f d c img) fs.
Proof.
  intros [] Hpre fs' Hc. pose proof Hc as ((ops & Hops & Hl) & Hd & Hp & Hu & Hf & Hm). rewrite ch_pending0 in Hops. apply sublist_nil_r in Hops.
  subst ops. cbn in Hl. rewrite ch_disk0 in Hl. specialize (Hm h). rewrite ch_cur0, ch_dur0 in Hm. destruct Hm as (b & Hb & Hs1 & Hs2).
  assert (Hsame : forall a j, live fs !! a = Some j -> a <> At f -> cur fs' !! j = cur fs !! j).
  { intros a j Ha Hn. apply crash_mem; [done| |by apply (so_known _ _ _ ch_sound0 a)]. apply ch_other0. intros ->.
    by apply Hn, (so_inj _ _ _ ch_sound0 _ _ h). }
  exists (<[f := Some b]> img). split.
  - split; try done.
    + rewrite Hl, Hf. split; [apply ch_sound0|]. intros a j Ha. destruct (so_known _ _ _ ch_sound0 a j Ha) as [? Hk]. split; [done|].
      destruct (decide (a = At f)) as [->|Hn]; [|by rewrite (Hsame a)]. rewrite ch_handle0 in Ha. simplify_eq. by rewrite Hb.
    + intros g. destruct (decide (g = f)) as [->|Hg]; [unfold image; by rewrite Hl, ch_handle0, fn_lookup_insert|].
      rewrite fn_lookup_insert_ne, <- ch_image0 by done. rewrite Hl. apply image_mem. intros j Hj. apply (Hsame (At g)); [done|congruence].
  - exists b. split; [destruct Hpre as [H|H]; [left; auto|right; auto]|]. split; [apply fn_lookup_insert|].
    intros g Hg. by apply fn_lookup_insert_ne.
Qed.

(** The file is open at [h]: the first call of a change, and its sync. *)
Definition opened (f : File) (h : nat) (img : Image) (fs : Fs) : Prop := holds img fs /\ live fs !! At f = Some h.

Lemma opened_cur f h c img fs : opened f h img fs -> img f = Some c -> cur fs !! h = Some c.
Proof. intros [Hh Hl] Hf. rewrite <- (ho_image _ _ Hh) in Hf. unfold image in Hf. by rewrite Hl in Hf. Qed.

Lemma opened_changing f h c c' img fs : opened f h img fs -> img f = Some c -> changing f h c c' img (set_cur h c' fs).
Proof.
  intros Ho Hf. pose proof (opened_cur _ _ _ _ _ Ho Hf) as Hc. destruct Ho as [[] Hl]. split; cbn; try done.
  - eapply sound_mem; [|done|exact ho_sound0]. intros j. apply insert_known.
  - intros j Hj. by rewrite ho_dur0, lookup_insert_ne.
  - apply lookup_insert_eq.
  - by rewrite ho_dur0.
  - intros g Hg. rewrite <- ho_image0. apply image_mem. intros j Hj. apply lookup_insert_ne. intros <-.
    pose proof (so_inj _ _ _ ho_sound0 _ _ _ Hj Hl). congruence.
Qed.

Lemma opened_left f h c c' img fs :
  opened f h img fs -> img f = Some c -> c `prefix_of` c' \/ c' `prefix_of` c -> left (changed f c c' img) fs.
Proof.
  intros [Hh _] Hf Hpre. eapply left_mono; [|by apply holds_left]. intros img' ->. exists c.
  split; [destruct Hpre; [left|right]; by split|done].
Qed.

Lemma write_live_triple f h c buf img :
  img f = Some c ->
  triple 1 (opened f h img) (write_all h buf) (fun _ => changing f h c (c ++ buf) img) (left (changed f c (c ++ buf) img)).
Proof.
  intros Hf. apply triple_call; intros fs Ho.
  - eapply opened_left; [done|done|]. left. by apply prefix_app_r.
  - rewrite (opened_cur _ _ _ _ _ Ho Hf). do 2 eexists. split; [done|]. by apply opened_changing.
Qed.

Lemma set_len_triple f h c n img :
  img f = Some c ->
  triple 1 (opened f h img) (set_len h n) (fun _ => changing f h c (take n c) img) (left (changed f c (take n c) img)).
Proof.
  intros Hf. apply triple_call; intros fs Ho.
  - eapply opened_left; [done|done|]. right. apply prefix_take.
  - rewrite (opened_cur _ _ _ _ _ Ho Hf). do 2 eexists. split; [done|]. by apply opened_changing.
Qed.

Lemma sync_live_triple f h d c img :
  d `prefix_of` c \/ c `prefix_of` d ->
  triple 1 (changing f h d c img) (sync_data h) (fun _ => opened f h (<[f := Some c]> img)) (left (changed f d c img)).
Proof.
  intros Hpre. apply triple_call; [intros fs Hc; by eapply changing_left|]. intros fs []. rewrite ch_cur0. do 2 eexists. split; [done|].
  split; [|done]. split; cbn; try done.
  - apply map_eq. intros j. destruct (decide (j = h)) as [->|Hj]; [by rewrite lookup_insert_eq|]. rewrite lookup_insert_ne by done. by apply ch_other0.
  - intros g. destruct (decide (g = f)) as [->|Hg]; [unfold image; by rewrite ch_handle0, fn_lookup_insert|].
    rewrite fn_lookup_insert_ne by done. by apply ch_image0.
Qed.

Lemma append_triple f h c buf img :
  img f = Some c ->
  triple 2 (opened f h img) (write_all h buf;; sync_data h) (fun _ => opened f h (<[f := Some (c ++ buf)]> img))
    (left (changed f c (c ++ buf) img)).
Proof.
  intros Hf. apply (triple_bind 1 1 _ _ _ _ _ _ (write_live_triple f h c buf img Hf)). intros _. apply sync_live_triple.
  left. by apply prefix_app_r.
Qed.

Lemma shorten_triple f h c n img :
  img f = Some c ->
  triple 2 (opened f h img) (set_len h n;; sync_data h) (fun _ => opened f h (<[f := Some (take n c)]> img))
    (left (changed f c (take n c) img)).
Proof.
  intros Hf. apply (triple_bind 1 1 _ _ _ _ _ _ (set_len_triple f h c n img Hf)). intros _. apply sync_live_triple.
  right. apply prefix_take.
Qed.

Lemma open_triple f c img : img f = Some c -> triple 1 (holds img) (open_file (At f)) (fun h => opened f h img) (left (fun img' => img' = img)).
Proof.
  intros Hf. apply triple_call; [by apply holds_left|]. intros fs Hh. pose proof (ho_image _ _ Hh f) as Hi. unfold image in Hi.
  rewrite Hf in Hi. destruct (live fs !! At f) as [h|] eqn:E; [|done]. exists h, fs. split; [done|by split].
Qed.

Lemma read_triple f img :
  triple 1 (holds img) (read (At f)) (fun b fs => b = img f /\ holds img fs) (left (fun img' => img' = img)).
Proof.
  apply triple_call; [by apply holds_left|]. intros fs Hh. do 2 eexists. split; [done|]. split; [apply (ho_image _ _ Hh f)|done].
Qed.

(** ** Handles on other files stay open *)
Definition keeps {A} (g : File) (m : M A) : Prop :=
  forall fs n a fs' n', m (fs, n) = (Ok a, (fs', n')) -> live fs' !! At g = live fs !! At g.

Lemma keeps_call {A} g (k : Fs -> result A IoError * Fs) :
  (forall fs a fs', k fs = (Ok a, fs') -> live fs' !! At g = live fs !! At g) -> keeps g (call k).
Proof. intros H fs [|n] a fs' n' Hm; cbn in Hm; [done|]. destruct (k fs) as [r fs1] eqn:E. simplify_eq. by eapply H. Qed.

Lemma keeps_bind {A B} g (m : M A) (k : A -> M B) : keeps g m -> (forall a, keeps g (k a)) -> keeps g (m ≫= k).
Proof.
  intros Hm Hk fs n a fs' n' E. unfold mbind, M_bind in E. destruct (m (fs, n)) as [[x|e] [fs1 n1]] eqn:E1; [|done].
  rewrite (Hk x _ _ _ _ _ E). by eapply Hm.
Qed.

Lemma keeps_triple {A} k (P : Fs -> Prop) (m : M A) (Q : A -> Fs -> Prop) C g x :
  triple k P m Q C -> keeps g m ->
  triple k (fun fs => P fs /\ live fs !! At g = x) m (fun a fs => Q a fs /\ live fs !! At g = x) C.
Proof.
  intros Hm Hk fs n [HP Hx]. specialize (Hm fs n HP). specialize (Hk fs n). destruct (m (fs, n)) as [[a|[]] [fs' n']]; try done.
  destruct Hm as [HQ Hle]. split; [split; [done|]|done]. rewrite <- Hx. by eapply Hk.
Qed.

Lemma publish_keeps f g buf : f <> g -> keeps g (publish f buf).
Proof.
  intros Hne. unfold publish. apply keeps_bind.
  { apply keeps_call. intros fs a fs'. destruct (live fs !! Tmp f); intros [= <- <-]; [done|]. cbn. by rewrite lookup_insert_ne. }
  intros h. apply keeps_bind.
  { apply keeps_call. intros fs a fs'. destruct (cur fs !! h); by intros [= <- <-]. }
  intros _. apply keeps_bind.
  { apply keeps_call. intros fs a fs'. destruct (cur fs !! h); by intros [= <- <-]. }
  intros _. apply keeps_bind.
  { apply keeps_call. intros fs a fs'. destruct (live fs !! Tmp f); intros [= <- <-]. cbn.
    by rewrite lookup_insert_ne, lookup_delete_ne by congruence. }
  intros _. apply keeps_call. by intros fs a fs' [= <- <-].
Qed.
End Replace.

(** ** The store *)
Module Store.
Import Framing Files Replace.

(** The Raft library's identifiers: a log id has an index and an order. *)
Class LogIds (LogId : Type) := { index : LogId -> Z; id_lt : LogId -> LogId -> bool }.

(** The serializer, on one of the types the store keeps. *)
Class Serde (T : Type) := { to_bytes : T -> option (list Z); from_bytes : list Z -> option T }.

Section types.
Context {LogId Membership : Type}.

Inductive ControlRequest := Noop.
Inductive EntryPayload := Blank | Normal (r : ControlRequest) | MembershipEntry (m : Membership).
Record Entry := { log_id : LogId; payload : EntryPayload }.
Record StoredMembership := { member_id : option LogId; members : Membership }.

Record SmData := { last_applied : option LogId; membership : StoredMembership; snapshot_idx : Z }.
Record SnapshotMeta := { last_log_id : option LogId; last_membership : StoredMembership; snapshot_id : string }.
Record StoredSnapshot := { meta : SnapshotMeta; sdata : list Z }.
End types.
Arguments Entry : clear implicits.
Arguments EntryPayload : clear implicits.
Arguments StoredMembership : clear implicits.
Arguments SmData : clear implicits.
Arguments SnapshotMeta : clear implicits.
Arguments StoredSnapshot : clear implicits.

Section store.
Context (crc32c : list Z -> Z).
Context {Vote LogId Membership : Type} {ids : LogIds LogId} (no_members : Membership).
Context {vote_serde : Serde Vote} {marker_serde : Serde (option LogId)} {entry_serde : Serde (Entry LogId Membership)}.
Context {sm_serde : Serde (SmData LogId Membership)} {snap_serde : Serde (StoredSnapshot LogId Membership)}.

Notation LogEntry := (Entry LogId Membership).
Notation Sm := (SmData LogId Membership).

Definition encode {T} `{Serde T} (x : T) : result (list Z) Damage :=
  match to_bytes x with Some b => Ok b | None => Err Unencodable end.
Definition decode {T} `{Serde T} (b : list Z) : result T Damage :=
  match from_bytes b with Some x => Ok x | None => Err Undecodable end.

Definition write_file_atomic (f : File) (payload : list Z) : M unit := publish f (single crc32c payload).

Definition read_single_record_file (f : File) : M (option (list Z)) :=
  b ← read (At f);
  match b with
  | None => mret None
  | Some buf => p ← lift (read_single crc32c buf); mret (Some p)
  end.

(** The log in memory: a [BTreeMap] from an entry's index to the entry, as the
    list of its entries in the order of their indexes. *)
Fixpoint insert_entry (e : LogEntry) (es : list LogEntry) : list LogEntry :=
  match es with
  | [] => [e]
  | x :: es =>
    if index (log_id e) <? index (log_id x) then e :: x :: es
    else if index (log_id e) =? index (log_id x) then e :: es
    else x :: insert_entry e es
  end.
Definition below (k : Z) (es : list LogEntry) : list LogEntry := List.filter (fun e => index (log_id e) <? k) es.
Definition from (k : Z) (es : list LogEntry) : list LogEntry := List.filter (fun e => k <=? index (log_id e)) es.

Record LogInner := { log_file : nat; entries : list LogEntry; last_purged : option LogId; vote : option Vote }.

(** The payloads of the entries, or that one does not encode. *)
Fixpoint encode_entries (es : list LogEntry) : result (list Z) Damage :=
  match es with
  | [] => Ok []
  | e :: es => p <-? encode e ;; rest <-? encode_entries es ;; Ok (encode_record crc32c p ++ rest)
  end.

Definition encode_full (l : LogInner) : result (list Z) Damage :=
  marker <-? encode (last_purged l) ;;
  rest <-? encode_entries (entries l) ;;
  Ok (file_header ++ encode_record crc32c marker ++ rest).

Definition rewrite_log (l : LogInner) : M LogInner :=
  buf ← lift (encode_full l);
  publish LOG_FILE buf;;
  h ← open_file (At LOG_FILE);
  mret {| log_file := h; entries := entries l; last_purged := last_purged l; vote := vote l |}.

(** The scan of a log: every record that reads, and where it stopped. *)
Fixpoint scan (fuel : nat) (buf : list Z) (off : nat) (es : list LogEntry) : result (list LogEntry * nat) Damage :=
  match fuel with
  | O => Ok (es, off)
  | S fuel =>
    match read_record crc32c buf off with
    | None => Ok (es, off)
    | Some (p, next) => e <-? decode p ;; scan fuel buf next (insert_entry e es)
    end
  end.

(** The log as [open_impl] reads it: the purge marker, the entries, the end. *)
Definition read_log (buf : list Z) : result (option LogId * list LogEntry * nat) Damage :=
  _ <-? check_header buf ;;
  match read_record crc32c buf HEADER_LEN with
  | None => Err CorruptMarker
  | Some (p, next) =>
    marker <-? decode p ;;
    r <-? scan (length buf) buf next [] ;;
    Ok (marker, fst r, snd r)
  end.

Definition default_sm : Sm :=
  {| last_applied := None; membership := {| member_id := None; members := no_members |}; snapshot_idx := 0 |}.

Record Node := { log : LogInner; data : Sm }.

(** A directory without a log gets an empty one: the header and the marker. *)
Definition create_log : M (list LogEntry * option LogId) :=
  h ← create (Tmp LOG_FILE);
  rewrite_log {| log_file := h; entries := []; last_purged := None; vote := None |};;
  mret ([], None).

(** An existing log is read, and cut where its last record is torn. *)
Definition recover_log (buf : list Z) : M (list LogEntry * option LogId) :=
  '(marker, es, off) ← lift (read_log buf);
  (if (off <? length buf)%nat then h ← open_file (At LOG_FILE); set_len h off;; sync_data h else mret tt);;
  mret (es, marker).

Definition open_log (v : option Vote) : M LogInner :=
  b ← read (At LOG_FILE);
  r ← match b with None => create_log | Some buf => recover_log buf end;
  h ← open_file (At LOG_FILE);
  mret {| log_file := h; entries := fst r; last_purged := snd r; vote := v |}.

Definition open_vote : M (option Vote) :=
  p ← read_single_record_file VOTE_FILE;
  match p with Some p => v ← lift (decode p); mret (Some v) | None => mret None end.

Definition open_sm : M Sm :=
  p ← read_single_record_file SM_FILE;
  match p with Some p => lift (decode p) | None => mret default_sm end.

(** [open_impl], past its first lines: the directory exists and its own entry is
    durable, which is what creating it and syncing its parent leave. *)
Definition open_impl : M Node :=
  v ← open_vote;
  l ← open_log v;
  d ← open_sm;
  mret {| log := l; data := d |}.

(** *** Log storage *)
Definition save_vote (v : Vote) (l : LogInner) : M LogInner :=
  p ← lift (encode v);
  write_file_atomic VOTE_FILE p;;
  mret {| log_file := log_file l; entries := entries l; last_purged := last_purged l; vote := Some v |}.

Definition append (es : list LogEntry) (l : LogInner) : M LogInner :=
  buf ← lift (encode_entries es);
  write_all (log_file l) buf;;
  sync_data (log_file l);;
  mret {| log_file := log_file l; entries := foldl (fun m e => insert_entry e m) (entries l) es; last_purged := last_purged l; vote := vote l |}.

Definition truncate (id : LogId) (l : LogInner) : M LogInner :=
  rewrite_log {| log_file := log_file l; entries := below (index id) (entries l); last_purged := last_purged l; vote := vote l |}.

(** The purge marker never moves back. *)
Definition purge_mark (p : option LogId) (id : LogId) : option LogId :=
  match p with Some q => if id_lt q id then Some id else p | None => Some id end.

(** The increment of the index is the code's [u64] one short of its end, where the
    library's log indices never are. *)
Definition purge (id : LogId) (l : LogInner) : M LogInner :=
  rewrite_log {| log_file := log_file l; entries := from (index id + 1) (entries l);
                 last_purged := purge_mark (last_purged l) id; vote := vote l |}.

Definition get_log_state (l : LogInner) : option LogId * option LogId :=
  (last_purged l, match last (entries l) with Some e => Some (log_id e) | None => last_purged l end).

(** [try_get_log_entries], on a range from [a], up to [b] and not including it. *)
Definition try_get_log_entries (a b : Z) (l : LogInner) : list LogEntry := below b (from a (entries l)).

Definition last_logged_membership (l : LogInner) : option (StoredMembership LogId Membership) :=
  last (omap (fun e => match payload e with
                       | MembershipEntry m => Some {| member_id := Some (log_id e); members := m |}
                       | _ => None
                       end) (entries l)).

(** [Option<LogId>]'s order: [None] is the least. *)
Definition opt_lt (a b : option LogId) : bool :=
  match a, b with None, Some _ => true | Some a, Some b => id_lt a b | _, None => false end.

Definition stored_membership (n : Node) : StoredMembership LogId Membership :=
  let applied := membership (data n) in
  match last_logged_membership (log n) with
  | Some logged => if opt_lt (member_id applied) (member_id logged) then logged else applied
  | None => applied
  end.

(** *** State machine *)
Definition persist (d : Sm) : M unit := p ← lift (encode d); write_file_atomic SM_FILE p.

Definition apply_entry (d : Sm) (e : LogEntry) : Sm :=
  {| last_applied := Some (log_id e);
     membership := match payload e with
                   | MembershipEntry m => {| member_id := Some (log_id e); members := m |}
                   | _ => membership d
                   end;
     snapshot_idx := snapshot_idx d |}.

Definition apply (es : list LogEntry) (d : Sm) : M Sm :=
  let d := foldl apply_entry d es in persist d;; mret d.

(** One more snapshot built: a [u64] counter, whose wrap is not modelled. *)
Definition bump (d : Sm) : Sm :=
  {| last_applied := last_applied d; membership := membership d; snapshot_idx := snapshot_idx d + 1 |}.

(** The meta of a snapshot of [d], its counter already moved. *)
Definition snapshot_meta (d : Sm) : SnapshotMeta LogId Membership :=
  {| last_log_id := last_applied d; last_membership := membership d;
     snapshot_id := (pretty (match last_applied d with Some l => index l | None => 0 end) +:+ "-" +:+ pretty (snapshot_idx d))%string |}.

Definition build_snapshot (d : Sm) : M (Sm * (SnapshotMeta LogId Membership * list Z)) :=
  let d := bump d in
  let m := snapshot_meta d in
  blob ← lift (encode d);
  p ← lift (encode {| meta := m; sdata := blob |});
  write_file_atomic SNAPSHOT_FILE p;;
  persist d;;
  mret (d, (m, blob)).

(** The state machine a snapshot installs: the meta's pointers, and a counter
    that does not move back. *)
Definition installed (m : SnapshotMeta LogId Membership) (sm d : Sm) : Sm :=
  {| last_applied := last_log_id m; membership := last_membership m; snapshot_idx := Z.max (snapshot_idx sm) (snapshot_idx d) |}.

Definition install_snapshot (m : SnapshotMeta LogId Membership) (blob : list Z) (d : Sm) : M Sm :=
  sm ← lift (decode blob);
  p ← lift (encode {| meta := m; sdata := blob |});
  write_file_atomic SNAPSHOT_FILE p;;
  persist (installed m sm d);;
  mret (installed m sm d).

Definition get_current_snapshot : M (option (StoredSnapshot LogId Membership)) :=
  p ← read_single_record_file SNAPSHOT_FILE;
  match p with Some p => s ← lift (decode p); mret (Some s) | None => mret None end.

Definition applied_state (d : Sm) : option LogId * StoredMembership LogId Membership := (last_applied d, membership d).

(** *** One operation of the Raft library on the two stores *)
Inductive Op :=
| SaveVote (v : Vote)
| Append (es : list LogEntry)
| Truncate (id : LogId)
| Purge (id : LogId)
| Apply (es : list LogEntry)
| BuildSnapshot
| InstallSnapshot (m : SnapshotMeta LogId Membership) (blob : list Z).

Definition on_log (n : Node) (m : LogInner -> M LogInner) : M Node := l ← m (log n); mret {| log := l; data := data n |}.
Definition on_sm (n : Node) (m : Sm -> M Sm) : M Node := d ← m (data n); mret {| log := log n; data := d |}.

Definition perform (n : Node) (op : Op) : M Node :=
  match op with
  | SaveVote v => on_log n (save_vote v)
  | Append es => on_log n (append es)
  | Truncate id => on_log n (truncate id)
  | Purge id => on_log n (purge id)
  | Apply es => on_sm n (apply es)
  | BuildSnapshot => on_sm n (fun d => r ← build_snapshot d; mret (fst r))
  | InstallSnapshot m blob => on_sm n (install_snapshot m blob)
  end.
End store.
End Store.

(** ** What a store promises

    The same operations on values: what each leaves when it returns, and what
    it may leave when the node dies in it. *)
Module Spec.
Import Store.

Section spec.
Context {Vote LogId Membership : Type} {ids : LogIds LogId} (no_members : Membership).
Context {sm_serde : Serde (SmData LogId Membership)}.
Notation LogEntry := (Entry LogId Membership).

Record Kept := {
  k_vote : option Vote;
  k_purged : option LogId;
  k_entries : list LogEntry;
  k_data : SmData LogId Membership;
  k_snap : option (StoredSnapshot LogId Membership)
}.

Definition nothing_kept : Kept :=
  {| k_vote := None; k_purged := None; k_entries := []; k_data := default_sm no_members; k_snap := None |}.

Definition with_log (p : option LogId) (es : list LogEntry) (a : Kept) : Kept :=
  {| k_vote := k_vote a; k_purged := p; k_entries := es; k_data := k_data a; k_snap := k_snap a |}.
Definition with_data (d : SmData LogId Membership) (a : Kept) : Kept :=
  {| k_vote := k_vote a; k_purged := k_purged a; k_entries := k_entries a; k_data := d; k_snap := k_snap a |}.
Definition with_snap (s : option (StoredSnapshot LogId Membership)) (a : Kept) : Kept :=
  {| k_vote := k_vote a; k_purged := k_purged a; k_entries := k_entries a; k_data := k_data a; k_snap := s |}.

Definition logged (es : list LogEntry) (a : Kept) : Kept :=
  with_log (k_purged a) (foldl (fun m e => insert_entry e m) (k_entries a) es) a.

(** The snapshot an operation writes, with the state machine that goes with it. *)
Definition snapshot_of (op : @Op Vote LogId Membership) (a : Kept) : option (StoredSnapshot LogId Membership * SmData LogId Membership) :=
  match op with
  | BuildSnapshot =>
    let d := bump (k_data a) in
    Some ({| meta := snapshot_meta d; sdata := default [] (to_bytes d) |}, d)
  | InstallSnapshot m blob =>
    match from_bytes blob with Some sm => Some ({| meta := m; sdata := blob |}, installed m sm (k_data a)) | None => None end
  | _ => None
  end.

Definition after (op : Op) (a : Kept) : Kept :=
  match op with
  | SaveVote v => {| k_vote := Some v; k_purged := k_purged a; k_entries := k_entries a; k_data := k_data a; k_snap := k_snap a |}
  | Append es => logged es a
  | Truncate id => with_log (k_purged a) (below (index id) (k_entries a)) a
  | Purge id => with_log (purge_mark (k_purged a) id) (from (index id + 1) (k_entries a)) a
  | Apply es => with_data (foldl apply_entry (k_data a) es) a
  | BuildSnapshot | InstallSnapshot _ _ =>
    match snapshot_of op a with Some (s, d) => with_data d (with_snap (Some s) a) | None => a end
  end.

(** What may be kept when the node dies in an operation: all of it or nothing;
    of an append, its first entries; of the two files of a snapshot, the first. *)
Definition cut (op : Op) (a : Kept) : list Kept :=
  match op with
  | Append es => map (fun k => logged (take k es) a) (seq 0 (S (length es)))
  | BuildSnapshot | InstallSnapshot _ _ =>
    [a; with_snap (match snapshot_of op a with Some (s, _) => Some s | None => k_snap a end) a; after op a]
  | _ => [a; after op a]
  end.

(** A node's history: the operations that returned, and those it died in. *)
Inductive Event := Done (op : @Op Vote LogId Membership) | Cut (op : @Op Vote LogId Membership).
Definition op_of (e : Event) : Op := match e with Done op | Cut op => op end.

Fixpoint outcomes (a : Kept) (evs : list Event) : list Kept :=
  match evs with
  | [] => [a]
  | Done op :: evs => outcomes (after op a) evs
  | Cut op :: evs => a' ← cut op a; outcomes a' evs
  end.

Lemma outcomes_app a b xs ys : b ∈ outcomes a xs -> forall c, c ∈ outcomes b ys -> c ∈ outcomes a (xs ++ ys).
Proof.
  revert a. induction xs as [|[op|op] xs IH]; intros a Hb c Hc; cbn [outcomes app] in *.
  - apply list_elem_of_singleton in Hb. by subst.
  - by apply (IH _ Hb).
  - apply list_elem_of_bind in Hb as (a' & Hb & Ha'). apply list_elem_of_bind. exists a'. split; [|done]. by apply (IH a').
Qed.

Lemma cut_after op a : after op a ∈ cut op a.
Proof.
  destruct op; cbn [cut]; try (right; left); try (right; right; left).
  apply list_elem_of_fmap. exists (length es). split; [cbn [after]; by rewrite firstn_all|]. apply elem_of_seq. lia.
Qed.

Lemma cut_before op a : a ∈ cut op a.
Proof.
  destruct op; cbn [cut]; try left. apply list_elem_of_fmap. exists O. split; [|apply elem_of_seq; lia].
  unfold logged, with_log. cbn. by destruct a.
Qed.
End spec.
End Spec.

(** ** The code keeps the promise *)
Module Exact.
Import Framing Files Replace Store Spec.

(** The serializer reads back what it wrote. *)
Class SerdeLaws (T : Type) `{Serde T} : Prop := { round_trip : forall (x : T) b, to_bytes x = Some b -> from_bytes b = Some x }.

Section exact.
Context (crc32c : list Z -> Z) (crc_range : forall bs, in_u32 (crc32c bs)).
Context {Vote LogId Membership : Type} {ids : LogIds LogId} (no_members : Membership).
Context {vote_serde : Serde Vote} {marker_serde : Serde (option LogId)} {entry_serde : Serde (Entry LogId Membership)}.
Context {sm_serde : Serde (SmData LogId Membership)} {snap_serde : Serde (StoredSnapshot LogId Membership)}.
Context `{!SerdeLaws Vote, !SerdeLaws (option LogId), !SerdeLaws (Entry LogId Membership), !SerdeLaws (SmData LogId Membership),
          !SerdeLaws (StoredSnapshot LogId Membership)}.
Notation LogEntry := (Entry LogId Membership).
Notation rec := (encode_record crc32c).
Notation kept := (@Kept Vote LogId Membership).

Definition encoded {T} `{Serde T} (x : T) (p : list Z) : Prop := to_bytes x = Some p /\ small p.

Lemma encoded_encode {T} `{Serde T} (x : T) p : encoded x p -> encode x = Ok p.
Proof. intros [He _]. unfold encode. by rewrite He. Qed.

Lemma encoded_decode {T} `{SerdeLaws T} (x : T) p : encoded x p -> decode p = Ok x.
Proof. intros [He _]. unfold decode. by rewrite (round_trip x p He). Qed.

(** *** The log's bytes *)
Definition records (ps : list (list Z)) : list Z := concat (map rec ps).
Definition log_bytes (m : list Z) (ps : list (list Z)) : list Z := file_header ++ rec m ++ records ps.

Definition torn (tail : list Z) : Prop := exists p k, small p /\ (k < length (rec p))%nat /\ tail = take k (rec p).

Lemma torn_nil : torn [].
Proof. exists [], O. split; [done|]. rewrite record_length. split; [lia|done]. Qed.

Lemma torn_prefix t k : torn t -> torn (take k t).
Proof. intros (p & n & Hs & Hn & ->). exists p, (Nat.min k n). split; [done|]. rewrite take_take. split; [lia|done]. Qed.

(** Any prefix of records is records and a torn one. *)
Lemma records_prefix ps k :
  Forall small ps -> exists j tail, take k (records ps) = records (take j ps) ++ tail /\ torn tail.
Proof.
  intros Hs. revert k. induction Hs as [|p ps Hp Hps IH]; intros k.
  { exists O, []. split; [by destruct k|apply torn_nil]. }
  unfold records. cbn [map concat]. destruct (decide (k < length (rec p))%nat) as [Hk|Hk].
  - exists O, (take k (rec p)). split; [by rewrite take_app_le by lia|]. by exists p, k.
  - destruct (IH (k - length (rec p))%nat) as (j & tail & Hj & Ht). exists (S j), tail. split; [|done].
    rewrite take_app_ge by lia. unfold records in Hj. rewrite Hj. cbn [take map concat]. by rewrite app_assoc.
Qed.

Lemma records_app xs ys : records (xs ++ ys) = records xs ++ records ys.
Proof. unfold records. by rewrite map_app, concat_app. Qed.

Lemma records_length ps : (length ps <= length (records ps))%nat.
Proof. induction ps as [|p ps IH]; [done|]. unfold records in *. cbn [map concat length]. rewrite length_app, record_length. lia. Qed.

Definition inserted (acc es : list LogEntry) : list LogEntry := foldl (fun m e => insert_entry e m) acc es.

Lemma scan_reads (es : list LogEntry) ps tail fuel pre acc :
  Forall2 encoded es ps -> torn tail -> (length ps <= fuel)%nat ->
  scan crc32c fuel (pre ++ records ps ++ tail) (length pre) acc = Ok (inserted acc es, (length pre + length (records ps))%nat).
Proof.
  intros Hes Ht. revert fuel pre acc. induction Hes as [|e p es ps He Hes IH]; intros fuel pre acc Hf.
  - unfold records. cbn [map concat app length]. rewrite Nat.add_0_r. destruct fuel as [|fuel]; [done|]. cbn [scan].
    destruct Ht as (p & k & Hp & Hk & ->). by rewrite torn_unread.
  - destruct fuel as [|fuel]; [cbn in Hf; lia|]. cbn [scan length] in *. unfold records. cbn [map concat].
    change (concat (map rec ps)) with (records ps). rewrite <- app_assoc, read_back by (done || apply He).
    rewrite (encoded_decode _ _ He). cbn [rbind].
    replace (length pre + length (rec p))%nat with (length (pre ++ rec p)) by apply length_app.
    rewrite app_assoc, IH by lia. cbn [inserted foldl]. do 2 f_equal. rewrite !length_app. lia.
Qed.

Lemma log_reads (mark : option LogId) m (es : list LogEntry) ps tail :
  encoded mark m -> Forall2 encoded es ps -> torn tail ->
  read_log crc32c (log_bytes m ps ++ tail) = Ok (mark, inserted [] es, length (log_bytes m ps)).
Proof.
  intros Hm Hes Ht. unfold read_log, log_bytes. rewrite <- !app_assoc, header_checks. cbn [rbind].
  change HEADER_LEN with (length file_header). rewrite read_back by (done || apply Hm). rewrite (encoded_decode _ _ Hm). cbn [rbind].
  rewrite (app_assoc file_header).
  replace (length file_header + length (rec m))%nat with (length (file_header ++ rec m)) by apply length_app.
  rewrite (scan_reads es) by (done || (rewrite !length_app; pose proof (records_length ps); lia)). cbn. by rewrite !length_app.
Qed.

Lemma encode_entries_ok (es : list LogEntry) ps : Forall2 encoded es ps -> encode_entries crc32c es = Ok (records ps).
Proof. induction 1 as [|e p es ps He Hes IH]; [done|]. cbn [encode_entries]. by rewrite (encoded_encode _ _ He), IH. Qed.

(** *** The index of the log in memory *)
Notation key e := (index (log_id e)) (only parsing).
Definition ordered (es : list LogEntry) : Prop := StronglySorted (fun a b => index (log_id a) < index (log_id b)) es.

Lemma insert_elem e (es : list LogEntry) x : x ∈ insert_entry e es -> x = e \/ x ∈ es.
Proof.
  induction es as [|y es IH]; cbn [insert_entry].
  - intros ->%list_elem_of_singleton. by left.
  - destruct (key e <? key y); [intros [->|?]%elem_of_cons; [by left|by right]|]. destruct (key e =? key y).
    + intros [->|?]%elem_of_cons; [by left|right; by right].
    + intros [->|[->|?]%IH]%elem_of_cons; [right; left|by left|right; by right].
Qed.

Lemma insert_ordered e (es : list LogEntry) : ordered es -> ordered (insert_entry e es).
Proof.
  unfold ordered. induction 1 as [|y es Hs IH Hy]; cbn [insert_entry]; [by repeat constructor|].
  destruct (Z.ltb_spec (key e) (key y)) as [Hlt|Hge].
  - constructor; [by constructor|]. constructor; [done|]. eapply Forall_impl; [exact Hy|]. cbn. intros; lia.
  - destruct (Z.eqb_spec (key e) (key y)) as [Heq|Hne].
    + constructor; [done|]. eapply Forall_impl; [exact Hy|]. cbn. intros; lia.
    + constructor; [done|]. apply Forall_forall. intros x [->|Hx]%insert_elem; [lia|]. rewrite Forall_forall in Hy. by apply Hy.
Qed.

Lemma inserted_ordered (es acc : list LogEntry) : ordered acc -> ordered (inserted acc es).
Proof. revert acc. induction es as [|e es IH]; intros acc Ha; [done|]. cbn. apply IH. by apply insert_ordered. Qed.

Lemma inserted_elem (es acc : list LogEntry) x : x ∈ inserted acc es -> x ∈ acc \/ x ∈ es.
Proof.
  revert acc. induction es as [|e es IH]; intros acc Hx; [by left|]. cbn in Hx. destruct (IH _ Hx) as [Ha|Ha]; [|right; by right].
  apply insert_elem in Ha as [->|Ha]; [right; left|by left].
Qed.

Lemma insert_last e (es : list LogEntry) : Forall (fun x => key x < key e) es -> insert_entry e es = es ++ [e].
Proof.
  induction 1 as [|y es Hy Hes IH]; [done|]. cbn [insert_entry app]. rewrite (proj2 (Z.ltb_ge _ _)), (proj2 (Z.eqb_neq _ _)), IH by lia. done.
Qed.

(** A log written in order reads back in order. *)
Lemma inserted_id (es acc : list LogEntry) : ordered (acc ++ es) -> inserted acc es = acc ++ es.
Proof.
  revert acc. induction es as [|e es IH]; intros acc Ho; [by rewrite app_nil_r|]. cbn [inserted foldl]. change (foldl _ ?a es) with (inserted a es).
  rewrite insert_last.
  - rewrite IH; rewrite <- app_assoc; done.
  - clear IH. unfold ordered in Ho. induction acc as [|a acc IHa]; [done|]. cbn [app] in Ho. apply StronglySorted_inv in Ho as [Ho Ha].
    constructor; [|by apply IHa]. apply Forall_app in Ha as [_ Ha]. by apply Forall_cons in Ha as [Ha _].
Qed.

Lemma filter_ordered (f : LogEntry -> bool) es : ordered es -> ordered (List.filter f es).
Proof.
  unfold ordered. induction 1 as [|y es Hs IH Hy]; cbn [List.filter]; [constructor|]. destruct (f y); [|done]. constructor; [done|].
  apply Forall_forall. intros x Hx. rewrite Forall_forall in Hy. apply Hy. apply list_elem_of_In. apply list_elem_of_In, filter_In in Hx. by destruct Hx.
Qed.

(** *** Files and values *)
Definition rep_single {T} `{Serde T} (x : option T) (b : option (list Z)) : Prop :=
  match x with Some t => exists p, encoded t p /\ b = Some (single crc32c p) | None => b = None end.

(** [whole]: there is a log and nothing torn at its end. *)
Definition rep_log (whole : bool) (mark : option LogId) (es : list LogEntry) (b : option (list Z)) : Prop :=
  (whole = false /\ b = None /\ mark = None /\ es = []) \/
  exists m recs ps tail, b = Some (log_bytes m ps ++ tail) /\ encoded mark m /\ Forall2 encoded recs ps /\
    inserted [] recs = es /\ torn tail /\ (whole = true -> tail = []).

Definition rep_sm (d : SmData LogId Membership) (b : option (list Z)) : Prop :=
  (b = None /\ d = default_sm no_members) \/ rep_single (Some d) b.

Record rep (whole : bool) (img : Image) (a : kept) : Prop := {
  rp_vote : rep_single (k_vote a) (img VOTE_FILE);
  rp_log : rep_log whole (k_purged a) (k_entries a) (img LOG_FILE);
  rp_sm : rep_sm (k_data a) (img SM_FILE);
  rp_snap : rep_single (k_snap a) (img SNAPSHOT_FILE)
}.

(** Every value is small enough to be read back. *)
Record fits (a : kept) : Prop := {
  ft_vote : forall v, k_vote a = Some v -> exists p, encoded v p;
  ft_purged : exists p, encoded (k_purged a) p;
  ft_data : exists p, encoded (k_data a) p;
  ft_snap : forall s, k_snap a = Some s -> exists p, encoded s p
}.

Lemma rep_log_weaken w mark es b : rep_log w mark es b -> rep_log false mark es b.
Proof. intros [(_ & H)|(m & recs & ps & tail & H1 & H2 & H3 & H4 & H5 & _)]; [by left|]. right. by exists m, recs, ps, tail. Qed.

Lemma rep_weaken w img a : rep w img a -> rep false img a.
Proof. intros []. split; try done. by eapply rep_log_weaken. Qed.

Lemma rep_ordered w mark es b : rep_log w mark es b -> ordered es.
Proof.
  intros [(_ & _ & _ & ->)|(m & recs & ps & tail & _ & _ & _ & <- & _)]; [constructor|]. apply inserted_ordered. constructor.
Qed.

Lemma rep_encodes w mark es b : rep_log w mark es b -> Forall (fun e => exists p, encoded e p) es.
Proof.
  intros [(_ & _ & _ & ->)|(m & recs & ps & tail & _ & _ & Hes & <- & _)]; [constructor|]. apply Forall_forall. intros e [He|He]%inserted_elem.
  - by apply elem_of_nil in He.
  - apply list_elem_of_lookup in He as [i Hi]. destruct (Forall2_lookup_l _ _ _ _ _ Hes Hi) as (p & _ & Hp). by exists p.
Qed.

Ltac images := rewrite ?fn_lookup_insert; rewrite ?fn_lookup_insert_ne by done.

Lemma rep_set_vote w img a v p :
  rep w img a -> encoded v p -> rep w (<[VOTE_FILE := Some (single crc32c p)]> img) (after (SaveVote v) a).
Proof. intros [] He. split; cbn; images; try done. by exists p. Qed.

Lemma rep_set_log w w' img a mark es buf :
  rep w img a -> rep_log w' mark es (Some buf) -> rep w' (<[LOG_FILE := Some buf]> img) (with_log mark es a).
Proof. intros [] He. by split; cbn; images. Qed.

Lemma rep_set_sm w img a d p :
  rep w img a -> encoded d p -> rep w (<[SM_FILE := Some (single crc32c p)]> img) (with_data d a).
Proof. intros [] He. split; cbn; images; try done. right. by exists p. Qed.

Lemma rep_set_snap w img a s p :
  rep w img a -> encoded s p -> rep w (<[SNAPSHOT_FILE := Some (single crc32c p)]> img) (with_snap (Some s) a).
Proof. intros [] He. split; cbn; images; try done. by exists p. Qed.

(** *** A rewrite of the log *)
Lemma encode_full_ok (l : @LogInner Vote LogId Membership) :
  ordered (entries l) -> (exists m, encoded (last_purged l) m) -> Forall (fun e => exists p, encoded e p) (entries l) ->
  exists buf, encode_full crc32c l = Ok buf /\ rep_log true (last_purged l) (entries l) (Some buf).
Proof.
  intros Ho [m Hm] He. apply Forall_exists_Forall2_l in He as [ps Hps]. exists (log_bytes m ps). unfold encode_full.
  rewrite (encoded_encode _ _ Hm). cbn [rbind]. rewrite (encode_entries_ok _ _ Hps). split; [done|]. right.
  exists m, (entries l), ps, []. rewrite app_nil_r. split_and!; try done; [by apply inserted_id|apply torn_nil].
Qed.

Lemma triple_weak {A} k (P : Fs -> Prop) (m : M A) Q (I J : Image -> Prop) :
  triple k P m Q (left I) -> (forall img, I img -> J img) -> triple k P m Q (left J).
Proof. intros Hm HIJ. eapply triple_conseq; try done. intros fs. by apply left_mono. Qed.

Definition same_log (l l' : @LogInner Vote LogId Membership) : Prop :=
  entries l' = entries l /\ last_purged l' = last_purged l /\ vote l' = vote l.

Lemma rewrite_triple (P : Fs -> Prop) (l : @LogInner Vote LogId Membership) buf img :
  encode_full crc32c l = Ok buf ->
  triple 5 P (publish LOG_FILE buf) (fun _ => holds (<[LOG_FILE := Some buf]> img)) (left (replaced LOG_FILE buf img)) ->
  triple 6 P (rewrite_log crc32c l)
    (fun l' fs => same_log l l' /\ opened LOG_FILE (log_file l') (<[LOG_FILE := Some buf]> img) fs) (left (replaced LOG_FILE buf img)).
Proof.
  intros Hb Hp. unfold rewrite_log. apply (triple_bind 0 6 _ _ _ (fun b fs => b = buf /\ P fs)); [by eapply triple_lift|].
  intros b. apply triple_pure. intros ->. apply (triple_bind 5 1 _ _ _ _ _ _ Hp). intros _. apply (triple_bind 1 0 _ _ _ (fun h => opened LOG_FILE h (<[LOG_FILE := Some buf]> img))).
  - eapply triple_weak; [apply (open_triple _ buf)|]; [apply fn_lookup_insert|]. intros img' ->. by right.
  - intros h. apply triple_ret. intros fs Ho. by split.
Qed.

(** *** Opening *)
Lemma single_triple {T} `{SerdeLaws T} (x : option T) f img :
  rep_single x (img f) ->
  triple 1 (holds img) (read_single_record_file crc32c f)
    (fun r fs => (match x with Some t => exists p, encoded t p /\ r = Some p | None => r = None end) /\ holds img fs)
    (left (fun img' => img' = img)).
Proof.
  intros Hx. unfold read_single_record_file. apply (triple_bind 1 0 _ _ _ _ _ _ (read_triple f img)). intros b. apply triple_pure. intros ->.
  destruct x as [t|]; cbn in Hx.
  - destruct Hx as (p & He & ->). apply (triple_bind 0 0 _ _ _ (fun r fs => r = p /\ holds img fs)).
    + eapply triple_lift; [apply single_reads; [done|apply He]|done].
    + intros r. apply triple_pure. intros ->. apply triple_ret. intros fs Hh. split; [by exists p|done].
  - rewrite Hx. by apply triple_ret.
Qed.

Lemma value_triple {T} `{SerdeLaws T} (x : option T) f img :
  rep_single x (img f) ->
  triple 1 (holds img)
    (p ← read_single_record_file crc32c f; match p with Some p => v ← lift (decode p); mret (Some v) | None => mret None end)
    (fun v fs => v = x /\ holds img fs) (left (fun img' => img' = img)).
Proof.
  intros Hx. apply (triple_bind 1 0 _ _ _ _ _ _ (single_triple x f img Hx)). intros r. apply triple_pure. destruct x as [t|].
  - intros (p & He & ->). apply (triple_bind 0 0 _ _ _ (fun v fs => v = t /\ holds img fs)).
    + eapply triple_lift; [by apply encoded_decode|done].
    + intros v. apply triple_pure. intros ->. by apply triple_ret.
  - intros ->. by apply triple_ret.
Qed.

Lemma open_sm_triple d img :
  rep_sm d (img SM_FILE) ->
  triple 1 (holds img) (open_sm crc32c no_members) (fun v fs => v = d /\ holds img fs) (left (fun img' => img' = img)).
Proof.
  intros [[Hb ->]|Hx].
  - apply (triple_bind 1 0 _ _ _ _ _ _ (single_triple (T := SmData LogId Membership) None SM_FILE img Hb)). intros r. apply triple_pure.
    intros ->. by apply triple_ret.
  - apply (triple_bind 1 0 _ _ _ _ _ _ (single_triple _ SM_FILE img Hx)). intros r. apply triple_pure. intros (p & He & ->).
    eapply triple_lift; [by apply encoded_decode|done].
Qed.

(** What shortening a torn log passes through. *)
Lemma between_torn (whole tail b : list Z) :
  torn tail -> between (whole ++ tail) (take (length whole) (whole ++ tail)) b -> exists tail', b = whole ++ tail' /\ torn tail'.
Proof.
  intros Ht Hb. rewrite take_app_length in Hb.
  assert (Hpre : whole `prefix_of` b /\ b `prefix_of` whole ++ tail).
  { destruct Hb as [[H1 H2]|H]; [|done]. split; [by eapply prefix_app_l|]. etrans; [exact H2|]. by apply prefix_app_r. }
  destruct Hpre as [[t ->] Hp]. exists t. split; [done|]. apply prefix_app_inv in Hp as [u ->].
  apply (torn_prefix _ (length t)) in Ht. by rewrite take_app_length in Ht.
Qed.

(** The log is whole on disk, and has been read. *)
Definition recovered (a : kept) (r : list LogEntry * option LogId) (fs : Fs) : Prop :=
  exists img', holds img' fs /\ rep true img' a /\ r = (k_entries a, k_purged a).

Lemma same_triple {A} k (P : Fs -> Prop) (m : M A) Q (I : Image -> Prop) img :
  triple k P m Q (left (fun img' => img' = img)) -> I img -> triple k P m Q (left I).
Proof. intros Hm HI. eapply triple_weak; [done|]. by intros img' ->. Qed.

Lemma create_log_triple (a : kept) img :
  rep false img a -> fits a -> k_purged a = None -> k_entries a = [] ->
  triple 7 (holds img) (create_log (Vote := Vote) crc32c) (recovered a) (left (fun img' => rep false img' a)).
Proof.
  intros Hr Hfit Hm Hes. apply (triple_bind 1 6 _ _ _ _ _ _ (same_triple _ _ _ _ _ _ (create_triple LOG_FILE img) Hr)). intros h.
  set (l0 := {| log_file := h; entries := []; last_purged := None; vote := None |} : @LogInner Vote LogId Membership).
  destruct (encode_full_ok l0) as (buf & Henc & Hlog); [constructor| |constructor|].
  { destruct (ft_purged _ Hfit) as [p Hp]. rewrite Hm in Hp. by exists p. }
  assert (Hnew : rep true (<[LOG_FILE := Some buf]> img) a).
  { replace a with (with_log None [] a) by (destruct a; cbn in *; by subst). by eapply rep_set_log. }
  apply (triple_bind 6 0 _ _ _ (fun l' fs => holds (<[LOG_FILE := Some buf]> img) fs)).
  - eapply triple_conseq; [apply (rewrite_triple _ l0 buf img Henc), (publish_again_triple LOG_FILE h [] false)|done|done| |].
    + by intros l' fs [_ [Hh _]].
    + intros fs. apply left_mono. intros img' [->| ->]; [done|by eapply rep_weaken].
  - intros _. apply triple_ret. intros fs Hh. exists (<[LOG_FILE := Some buf]> img). rewrite Hm, Hes. by split_and!.
Qed.

Lemma recover_log_triple (a : kept) img buf :
  rep false img a -> img LOG_FILE = Some buf ->
  triple 7 (holds img) (recover_log crc32c buf) (recovered a) (left (fun img' => rep false img' a)).
Proof.
  intros Hr Hb. destruct (rp_log _ _ _ Hr) as [(_ & Hb' & _)|(m & recs & ps & tail & Hb' & Hm & Hes & Hin & Ht & _)]; [congruence|].
  set (w := log_bytes m ps) in *. assert (buf = w ++ tail) as -> by congruence.
  assert (Hread : read_log crc32c (w ++ tail) = Ok (k_purged a, k_entries a, length w)).
  { unfold w. rewrite (log_reads _ _ _ _ _ Hm Hes Ht). by rewrite Hin. }
  assert (Hrep : forall t whole img', torn t -> (whole = true -> t = []) -> img' LOG_FILE = Some (w ++ t) ->
            (forall g, g <> LOG_FILE -> img' g = img g) -> rep whole img' a).
  { intros t whole img' Htt Hwt Hi Hoth. destruct Hr. split; rewrite ?Hoth by done; try done. right. exists m, recs, ps, t. by split_and!. }
  apply (triple_bind 0 7 _ _ _ (fun r fs => r = (k_purged a, k_entries a, length w) /\ holds img fs)).
  { eapply triple_lift; [exact Hread|done]. }
  intros r. apply triple_pure. intros ->. apply (triple_bind 7 0 _ _ _ (fun _ fs => exists img', holds img' fs /\ rep true img' a)).
  2: { intros []. apply triple_exists. intros img'. apply triple_ret. intros fs [Hh Hr']. by exists img'. }
  destruct (Nat.ltb_spec (length w) (length (w ++ tail))) as [Hlt|Hge].
  - apply (triple_bind 1 6 _ _ _ _ _ _ (same_triple _ _ _ _ _ _ (open_triple LOG_FILE _ img Hb) Hr)). intros h.
    eapply triple_conseq; [apply (shorten_triple LOG_FILE h _ (length w) img Hb)|lia|done| |].
    + intros _ fs [Hh _]. rewrite take_app_length in Hh. eexists. split; [exact Hh|].
      apply (Hrep [] true); [apply torn_nil|done|rewrite app_nil_r; apply fn_lookup_insert|intros g Hg; by apply fn_lookup_insert_ne].
    + intros fs. apply left_mono. intros img' (b & Hbt & Hb2 & Hoth). apply between_torn in Hbt as (t & -> & Htt); [|done]. by apply (Hrep t false).
  - apply triple_ret. intros fs Hh. exists img. split; [done|]. apply (Hrep tail true); try done.
    intros _. apply nil_length_inv. rewrite length_app in Hge. lia.
Qed.

Lemma open_log_triple (v : option Vote) (a : kept) img :
  rep false img a -> fits a ->
  triple 9 (holds img) (open_log crc32c v)
    (fun l fs => exists img', opened LOG_FILE (log_file l) img' fs /\ rep true img' a /\
       entries l = k_entries a /\ last_purged l = k_purged a /\ vote l = v)
    (left (fun img' => rep false img' a)).
Proof.
  intros Hr Hfit. apply (triple_bind 1 8 _ _ _ _ _ _ (same_triple _ _ _ _ _ _ (read_triple LOG_FILE img) Hr)). intros b. apply triple_pure. intros ->.
  apply (triple_bind 7 1 _ _ _ (recovered a)).
  - destruct (img LOG_FILE) as [buf|] eqn:Hb; [by apply recover_log_triple|].
    destruct (rp_log _ _ _ Hr) as [(_ & _ & Hm & Hes)|(m & recs & ps & tail & Hb' & _)]; [|congruence]. by apply create_log_triple.
  - intros [es mark]. apply triple_exists. intros img' fs n (Hh & Hr' & [= -> ->]).
    assert (exists c, img' LOG_FILE = Some c) as [c Hc].
    { destruct (rp_log _ _ _ Hr') as [(? & _)|(m & recs & ps & tail & -> & _)]; [done|eauto]. }
    revert fs n Hh. refine (triple_bind 1 0 _ _ _ _ _ _ (same_triple _ _ _ _ _ _ (open_triple LOG_FILE c img' Hc) _) _); [by eapply rep_weaken|].
    intros h. apply triple_ret. intros fs Ho. exists img'. by split_and!.
Qed.

(** A node that runs on its files: what it has in memory is what they hold. *)
Definition running (n : @Node Vote LogId Membership) (a : kept) (fs : Fs) : Prop :=
  exists img, opened LOG_FILE (log_file (log n)) img fs /\ rep true img a /\
    entries (log n) = k_entries a /\ last_purged (log n) = k_purged a /\ vote (log n) = k_vote a /\ data n = k_data a.

Lemma read_single_keeps f g : keeps g (read_single_record_file crc32c f).
Proof.
  unfold read_single_record_file. apply keeps_bind; [apply keeps_call; by intros fs a fs' [= <- <-]|]. intros [b|].
  - apply keeps_bind; [|by intros p fs n a fs' n' [= <- <- <-]]. intros fs n a fs' n' H. unfold lift in H.
    destruct (read_single crc32c b); by simplify_eq.
  - by intros fs n a fs' n' [= <- <- <-].
Qed.

Lemma open_sm_keeps g : keeps g (open_sm crc32c no_members).
Proof.
  unfold open_sm. apply keeps_bind; [apply read_single_keeps|]. intros [p|].
  - intros fs n a fs' n' H. unfold lift in H. destruct (decode p); by simplify_eq.
  - by intros fs n a fs' n' [= <- <- <-].
Qed.

Lemma open_impl_triple (a : kept) img :
  rep false img a -> fits a ->
  triple 11 (holds img) (open_impl crc32c no_members) (fun n => running n a) (left (fun img' => rep false img' a)).
Proof.
  intros Hr Hfit. apply (triple_bind 1 10 _ _ _ _ _ _ (same_triple _ _ _ _ _ _ (value_triple _ VOTE_FILE img (rp_vote _ _ _ Hr)) Hr)).
  intros v. apply triple_pure. intros ->. apply (triple_bind 9 1 _ _ _ _ _ _ (open_log_triple (k_vote a) a img Hr Hfit)). intros l.
  apply triple_exists. intros img' fs n (Ho & Hr' & Hrest). revert fs n Ho.
  refine (triple_bind 1 0 _ _ _ _ _ _ (same_triple _ _ _ _ _ _ (keeps_triple _ _ _ _ _ _ _ (open_sm_triple (k_data a) img' (rp_sm _ _ _ Hr'))
    (open_sm_keeps LOG_FILE)) _) _); [by eapply rep_weaken|].
  intros d. apply triple_ret. intros fs [[-> Hh] Hl]. exists img'. destruct Hrest as (? & ? & ?). by split_and!.
Qed.

(** *** The operations *)

(** The entries of an append are small; a snapshot to install decodes. *)
Definition op_ok (op : @Op Vote LogId Membership) : Prop :=
  match op with
  | Append es => Forall (fun e => exists p, encoded e p) es
  | InstallSnapshot _ blob => is_Some (from_bytes (T := SmData LogId Membership) blob)
  | _ => True
  end.

Definition cut_image (op : Op) (a : kept) (img : Image) : Prop := exists a', a' ∈ cut op a /\ rep false img a'.

Lemma replace_triple f p h img :
  f <> LOG_FILE ->
  triple 5 (opened LOG_FILE h img) (write_file_atomic crc32c f p) (fun _ => opened LOG_FILE h (<[f := Some (single crc32c p)]> img))
    (left (replaced f (single crc32c p) img)).
Proof. intros Hf. exact (keeps_triple _ _ _ _ _ _ _ (publish_triple f (single crc32c p) img) (publish_keeps f LOG_FILE _ Hf)). Qed.

Lemma encode_triple {A T} `{Serde T} k (x : T) p (P : Fs -> Prop) (m : list Z -> M A) Q C :
  encoded x p -> triple k P (m p) Q C -> triple k P (p ← lift (encode x); m p) Q C.
Proof.
  intros He Hm. apply (triple_bind 0 k _ _ _ (fun r fs => r = p /\ P fs)).
  - eapply triple_lift; [by apply encoded_encode|done].
  - intros r. apply triple_pure. by intros ->.
Qed.

Lemma save_vote_triple (n : @Node Vote LogId Membership) v a img p :
  let h := log_file (log n) in
  encoded v p -> rep true img a -> entries (log n) = k_entries a -> last_purged (log n) = k_purged a -> data n = k_data a ->
  triple 5 (opened LOG_FILE h img) (perform crc32c n (SaveVote v)) (fun n' => running n' (after (SaveVote v) a)) (left (cut_image (SaveVote v) a)).
Proof.
  intros h He Hr H1 H2 H3. pose proof (rep_set_vote _ _ _ _ _ Hr He) as Hr'. apply (triple_bind 5 0 _ _ _ (fun l fs =>
    opened LOG_FILE (log_file l) (<[VOTE_FILE := Some (single crc32c p)]> img) fs /\
    entries l = k_entries a /\ last_purged l = k_purged a /\ vote l = Some v)).
  - apply (encode_triple 5 v p); [done|]. apply (triple_bind 5 0 _ _ _ (fun _ => opened LOG_FILE h (<[VOTE_FILE := Some (single crc32c p)]> img))).
    + eapply triple_weak; [by apply replace_triple|]. intros img' [->| ->]; [exists a|exists (after (SaveVote v) a)].
      * split; [left|by eapply rep_weaken].
      * split; [right; left|by eapply rep_weaken].
    + intros _. apply triple_ret. intros fs Ho. by split_and!.
  - intros l. apply triple_ret. intros fs (Ho & ? & ? & ?). eexists. by split_and!.
Qed.

(** Truncation and purge: the log is rewritten with some of its entries. *)
Lemma rewrite_op_triple (n : @Node Vote LogId Membership) (l : @LogInner Vote LogId Membership) op a img f :
  (op = Truncate f \/ op = Purge f) -> after op a = with_log (last_purged l) (entries l) a ->
  (exists m, encoded (last_purged l) m) -> (exists g, entries l = List.filter g (k_entries a)) -> vote l = k_vote a -> data n = k_data a ->
  rep true img a ->
  triple 6 (holds img) (on_log n (fun _ => rewrite_log crc32c l)) (fun n' => running n' (after op a)) (left (cut_image op a)).
Proof.
  intros Hop Haf Hm [g Hg] Hv Hd Hr. pose proof (rp_log _ _ _ Hr) as Hlog. destruct (encode_full_ok l) as (buf & Henc & Hnew).
  - rewrite Hg. by apply filter_ordered, (rep_ordered _ _ _ _ Hlog).
  - done.
  - rewrite Hg. apply Forall_forall. intros e He. apply list_elem_of_In, filter_In in He as [He _]. apply list_elem_of_In in He.
    pose proof (rep_encodes _ _ _ _ Hlog) as Hall. rewrite Forall_forall in Hall. by apply Hall.
  - assert (Hr' : rep true (<[LOG_FILE := Some buf]> img) (after op a)) by (rewrite Haf; by eapply rep_set_log).
    apply (triple_bind 6 0 _ _ _ (fun l' fs => same_log l l' /\ opened LOG_FILE (log_file l') (<[LOG_FILE := Some buf]> img) fs)).
    + eapply triple_weak; [by apply rewrite_triple, publish_triple|].
      assert (Hcut : a ∈ cut op a /\ after op a ∈ cut op a) by (split; [apply cut_before|apply cut_after]).
      intros img' [->| ->]; [exists a|exists (after op a)]; split; try apply Hcut; by eapply rep_weaken.
    + intros l'. apply triple_ret. intros fs [(H1 & H2 & H3) Ho]. exists (<[LOG_FILE := Some buf]> img).
      split_and!; cbn; try done; rewrite Haf; cbn; congruence.
Qed.

Lemma between_append (c buf b : list Z) : between c (c ++ buf) b -> exists k, b = c ++ take k buf.
Proof.
  intros [[[t ->] Hp]|[[t ->] Hp]].
  - apply prefix_app_inv in Hp as [u ->]. exists (length t). by rewrite take_app_length.
  - exists (length buf). rewrite firstn_all. apply prefix_length in Hp. rewrite !length_app in Hp.
    rewrite (nil_length_inv t) by lia. by rewrite app_nil_r.
Qed.

(** A log with further records at its end, the last one perhaps torn. *)
Lemma rep_log_extend whole mark m (recs : list LogEntry) qs es ps t :
  encoded mark m -> Forall2 encoded recs qs -> Forall2 encoded es ps -> torn t -> (whole = true -> t = []) ->
  rep_log whole mark (inserted (inserted [] recs) es) (Some (log_bytes m qs ++ records ps ++ t)).
Proof.
  intros Hm Hrecs Hes Ht Hw. right. exists m, (recs ++ es), (qs ++ ps), t. split_and!; try done.
  - unfold log_bytes. by rewrite records_app, <- !app_assoc.
  - by apply Forall2_app.
  - unfold inserted. by rewrite foldl_app.
Qed.

Lemma append_op_triple (n : @Node Vote LogId Membership) es a img :
  let h := log_file (log n) in
  op_ok (Append es) -> rep true img a -> entries (log n) = k_entries a -> last_purged (log n) = k_purged a ->
  vote (log n) = k_vote a -> data n = k_data a ->
  triple 2 (opened LOG_FILE h img) (perform crc32c n (Append es)) (fun n' => running n' (after (Append es) a)) (left (cut_image (Append es) a)).
Proof.
  intros h Hok Hr H1 H2 H3 H4. apply Forall_exists_Forall2_l in Hok as [ps Hps].
  destruct (rp_log _ _ _ Hr) as [(? & _)|(m & recs & qs & tail & Hb & Hm & Hes & Hin & Ht & Hnil)]; [done|]. rewrite Hnil, app_nil_r in Hb by done.
  assert (Hsmall : Forall small ps) by (clear -Hps; induction Hps as [|e p es ps [_ Hp] _ IH]; by constructor).
  set (c := log_bytes m qs) in *. set (img2 := <[LOG_FILE := Some (c ++ records ps)]> img).
  assert (Hcut : forall img', changed LOG_FILE c (c ++ records ps) img img' -> cut_image (Append es) a img').
  { intros img' (b & [k ->]%between_append & Hl & Hoth). destruct (records_prefix ps k Hsmall) as (j & t & Hj & Htt).
    exists (logged (take j es) a). split.
    - apply list_elem_of_fmap. destruct (decide (j <= length es)%nat) as [Hle|Hgt]; [exists j; split; [done|apply elem_of_seq; lia]|].
      exists (length es). rewrite firstn_all, take_ge by lia. split; [done|apply elem_of_seq; lia].
    - destruct Hr. split; cbn; rewrite ?Hoth by done; try done. rewrite Hl, Hj, <- Hin. apply rep_log_extend; try done. by apply Forall2_take. }
  apply (triple_bind 2 0 _ _ _ (fun l fs => opened LOG_FILE (log_file l) img2 fs /\
    entries l = inserted (k_entries a) es /\ last_purged l = k_purged a /\ vote l = k_vote a)).
  - apply (triple_bind 0 2 _ _ _ (fun r fs => r = records ps /\ opened LOG_FILE h img fs)).
    { eapply triple_lift; [by apply encode_entries_ok|done]. }
    intros r. apply triple_pure. intros ->. apply (triple_bind 1 1 _ _ _ (fun _ => changing LOG_FILE h c (c ++ records ps) img)).
    { eapply triple_weak; [by apply write_live_triple|done]. }
    intros _. apply (triple_bind 1 0 _ _ _ (fun _ => opened LOG_FILE h img2)).
    { eapply triple_weak; [apply sync_live_triple; left; by apply prefix_app_r|done]. }
    intros _. apply triple_ret. intros fs Ho. split_and!; try done. cbn. by rewrite H1.
  - intros l. apply triple_ret. intros fs (Ho & He & Hp & Hv). exists img2. split_and!; try done.
    eapply rep_set_log; [exact Hr|]. cbn. rewrite <- Hin, <- (app_nil_r (records ps)). apply rep_log_extend; try done. apply torn_nil.
Qed.

(** State machine: one file, or the snapshot's and then it. *)
Lemma persist_triple h d p img :
  encoded d p ->
  triple 5 (opened LOG_FILE h img) (persist crc32c d) (fun _ => opened LOG_FILE h (<[SM_FILE := Some (single crc32c p)]> img))
    (left (replaced SM_FILE (single crc32c p) img)).
Proof. intros He. apply (encode_triple 5 d p); [done|]. by apply replace_triple. Qed.

Lemma sm_running (n : @Node Vote LogId Membership) d a img fs :
  opened LOG_FILE (log_file (log n)) img fs -> rep true img (with_data d a) -> entries (log n) = k_entries a ->
  last_purged (log n) = k_purged a -> vote (log n) = k_vote a -> running {| log := log n; data := d |} (with_data d a) fs.
Proof. intros. exists img. by split_and!. Qed.

Lemma apply_op_triple (n : @Node Vote LogId Membership) es a img p :
  encoded (foldl apply_entry (k_data a) es) p -> rep true img a -> entries (log n) = k_entries a -> last_purged (log n) = k_purged a ->
  vote (log n) = k_vote a -> data n = k_data a ->
  triple 5 (opened LOG_FILE (log_file (log n)) img) (perform crc32c n (Apply es)) (fun n' => running n' (after (Apply es) a))
    (left (cut_image (Apply es) a)).
Proof.
  intros He Hr H1 H2 H3 H4. pose proof (rep_set_sm _ _ _ _ _ Hr He) as Hr'. cbn [perform]. unfold on_sm, apply. rewrite H4.
  set (d := foldl apply_entry (k_data a) es) in *. set (img2 := <[SM_FILE := Some (single crc32c p)]> img) in *.
  apply (triple_bind 5 0 _ _ _ (fun d' fs => d' = d /\ opened LOG_FILE (log_file (log n)) img2 fs)).
  - apply (triple_bind 5 0 _ _ _ (fun _ => opened LOG_FILE (log_file (log n)) img2)).
    + eapply triple_weak; [by apply persist_triple|]. intros img' [->| ->]; [exists a|exists (after (Apply es) a)].
      * split; [left|by eapply rep_weaken].
      * split; [right; left|by eapply rep_weaken].
    + intros _. by apply triple_ret.
  - intros d'. apply triple_pure. intros ->. apply triple_ret. intros fs Ho. by apply (sm_running n d a img2).
Qed.

(** A snapshot: its file first, then the state machine that goes with it. *)
Lemma snapshot_triple (n : @Node Vote LogId Membership) op s d a img ps pd :
  snapshot_of op a = Some (s, d) -> encoded s ps -> encoded d pd -> rep true img a ->
  triple 10 (opened LOG_FILE (log_file (log n)) img) (write_file_atomic crc32c SNAPSHOT_FILE ps;; persist crc32c d)
    (fun _ fs => exists img', opened LOG_FILE (log_file (log n)) img' fs /\ rep true img' (after op a)) (left (cut_image op a)).
Proof.
  intros Hs Hes Hed Hr. pose proof (rep_set_snap _ _ _ _ _ Hr Hes) as Hr1. pose proof (rep_set_sm _ _ _ _ _ Hr1 Hed) as Hr2.
  set (img1 := <[SNAPSHOT_FILE := Some (single crc32c ps)]> img) in *. set (img2 := <[SM_FILE := Some (single crc32c pd)]> img1) in *.
  assert (Haf : after op a = with_data d (with_snap (Some s) a)) by (destruct op; try done; cbn [after]; by rewrite Hs).
  assert (Hcut : cut op a = [a; with_snap (Some s) a; after op a]) by (destruct op; try done; cbn [cut]; by rewrite Hs).
  assert (H0 : cut_image op a img) by (exists a; rewrite Hcut; split; [left|by eapply rep_weaken]).
  assert (H1 : cut_image op a img1) by (exists (with_snap (Some s) a); rewrite Hcut; split; [right; left|by eapply rep_weaken]).
  assert (H2 : cut_image op a img2) by (exists (after op a); rewrite Hcut; split; [right; right; left|rewrite Haf; by eapply rep_weaken]).
  apply (triple_bind 5 5 _ _ _ (fun _ => opened LOG_FILE (log_file (log n)) img1)).
  - eapply triple_weak; [by apply replace_triple|]. by intros img' [->| ->].
  - intros _. eapply triple_conseq; [by apply (persist_triple (log_file (log n)) d pd img1)|done|done| |].
    + intros x fs Ho. exists img2. by rewrite Haf.
    + intros fs. apply left_mono. by intros img' [->| ->].
Qed.

Lemma snapshot_op_triple (n : @Node Vote LogId Membership) op a img :
  op_ok op -> fits (after op a) -> match op with BuildSnapshot | InstallSnapshot _ _ => True | _ => False end ->
  rep true img a -> entries (log n) = k_entries a -> last_purged (log n) = k_purged a -> vote (log n) = k_vote a -> data n = k_data a ->
  triple 10 (opened LOG_FILE (log_file (log n)) img) (perform crc32c n op) (fun n' => running n' (after op a)) (left (cut_image op a)).
Proof.
  intros Hok Hfit Hop Hr H1 H2 H3 H4.
  assert (exists s d, snapshot_of op a = Some (s, d)) as (s & d & Hs).
  { destruct op as [| | | | | |m blob]; try done; [cbn; eauto|]. destruct Hok as [sm Hsm]. cbn. rewrite Hsm. eauto. }
  assert (Haf : after op a = with_data d (with_snap (Some s) a)) by (destruct op; try done; cbn [after]; by rewrite Hs).
  rewrite Haf in Hfit. destruct (ft_data _ Hfit) as [pd Hed]. destruct (ft_snap _ Hfit s eq_refl) as [ps Hes]. cbn in Hed.
  pose proof (snapshot_triple n op s d a img ps pd Hs Hes Hed Hr) as Ht.
  assert (Hret : forall d', d' = d -> triple 0 (fun fs => exists img', opened LOG_FILE (log_file (log n)) img' fs /\ rep true img' (after op a))
            (mret {| log := log n; data := d' |}) (fun n' => running n' (after op a)) (left (cut_image op a))).
  { intros d' ->. apply triple_ret. intros fs (img' & Ho & Hr'). rewrite Haf in *. by apply (sm_running n d (with_snap (Some s) a) img'). }
  destruct op as [| | | | | |m blob]; try done; cbn [perform]; unfold on_sm.
  - injection Hs as <- <-. rewrite H4. unfold build_snapshot.
    apply (triple_bind 10 0 _ _ _ (fun d' fs => d' = bump (k_data a) /\ exists img', opened LOG_FILE (log_file (log n)) img' fs /\ rep true img' (after BuildSnapshot a))).
    + apply (triple_bind 10 0 _ _ _ (fun r fs => fst r = bump (k_data a) /\ exists img', opened LOG_FILE (log_file (log n)) img' fs /\ rep true img' (after BuildSnapshot a))).
      * apply (encode_triple 10 _ pd); [done|]. destruct Hed as [Hed ?]. rewrite Hed in Hes. apply (encode_triple 10 _ ps); [done|].
        apply (triple_assoc 10 0 _ _ _ _ _ _ _ Ht). intros _. by apply triple_ret.
      * intros r. by apply triple_ret.
    + intros d'. apply triple_pure. intros ->. by apply Hret.
  - destruct Hok as [sm Hsm]. cbn in Hs. rewrite Hsm in Hs. injection Hs as <- <-. rewrite H4. unfold install_snapshot.
    apply (triple_bind 10 0 _ _ _ (fun d' fs => d' = installed m sm (k_data a) /\ exists img', opened LOG_FILE (log_file (log n)) img' fs /\ rep true img' (after (InstallSnapshot m blob) a))).
    + apply (triple_bind 0 10 _ _ _ (fun r fs => r = sm /\ opened LOG_FILE (log_file (log n)) img fs)).
      { eapply triple_lift; [unfold decode; by rewrite Hsm|done]. }
      intros r. apply triple_pure. intros ->. apply (encode_triple 10 _ ps); [done|].
      apply (triple_assoc 10 0 _ _ _ _ _ _ _ Ht). intros _. by apply triple_ret.
    + intros d'. apply triple_pure. intros ->. by apply Hret.
Qed.

(** Every operation: what it leaves when it returns and when it is cut. *)
Lemma perform_triple (n : @Node Vote LogId Membership) op a :
  op_ok op -> fits (after op a) ->
  triple 10 (running n a) (perform crc32c n op) (fun n' => running n' (after op a)) (left (cut_image op a)).
Proof.
  intros Hok Hfit. apply triple_exists. intros img fs k (Ho & Hr & H1 & H2 & H3 & H4). revert fs k Ho.
  change (triple 10 (opened LOG_FILE (log_file (log n)) img) (perform crc32c n op) (fun n' => running n' (after op a)) (left (cut_image op a))).
  destruct op as [v|es|id|id|es| |m blob].
  - destruct (ft_vote _ Hfit v eq_refl) as [p He]. eapply triple_conseq; [by apply (save_vote_triple n v a img p)|lia|done..].
  - eapply triple_conseq; [by apply (append_op_triple n es a img)|lia|done..].
  - eapply triple_conseq; [apply (rewrite_op_triple n {| log_file := log_file (log n); entries := below (index id) (entries (log n));
      last_purged := last_purged (log n); vote := vote (log n) |} (Truncate id) a img id)|lia| |done..]; cbn; try done.
    + by left.
    + by rewrite H1, H2.
    + rewrite H2. apply (ft_purged _ Hfit).
    + rewrite H1. by eexists.
    + by intros fs [Hh _].
  - eapply triple_conseq; [apply (rewrite_op_triple n {| log_file := log_file (log n); entries := from (index id + 1) (entries (log n));
      last_purged := purge_mark (last_purged (log n)) id; vote := vote (log n) |} (Purge id) a img id)|lia| |done..]; cbn; try done.
    + by right.
    + by rewrite H1, H2.
    + rewrite H2. apply (ft_purged _ Hfit).
    + rewrite H1. by eexists.
    + by intros fs [Hh _].
  - destruct (ft_data _ Hfit) as [p He]. eapply triple_conseq; [by apply (apply_op_triple n es a img p)|lia|done..].
  - by apply snapshot_op_triple.
  - by apply snapshot_op_triple.
Qed.

(** *** Lives of a node

    A life opens the store and serves operations until the calls left run out
    or there is nothing more to do; then the machine crashes. *)
Fixpoint serve (ops : list (@Op Vote LogId Membership)) (n : @Node Vote LogId Membership) (w : Fs * nat) : list (@Event Vote LogId Membership) * Fs :=
  match ops with
  | [] => ([], fst w)
  | op :: ops =>
    match perform crc32c n op w with
    | (Ok n, w) => let '(evs, fs) := serve ops n w in (Done op :: evs, fs)
    | (Err _, (fs, _)) => ([Cut op], fs)
    end
  end.

Definition life (k : nat) (ops : list (@Op Vote LogId Membership)) (fs : Fs) : list Event * Fs :=
  match open_impl crc32c no_members (fs, k) with
  | (Ok n, w) => serve ops n w
  | (Err _, (fs, _)) => ([], fs)
  end.

Inductive lived : list (@Event Vote LogId Membership) -> Fs -> Prop :=
| lived_new : lived [] empty_fs
| lived_again evs fs k ops evs' fs1 fs2 : lived evs fs -> life k ops fs = (evs', fs1) -> crash fs1 fs2 -> lived (evs ++ evs') fs2.

(** What the values of a history may be are all small enough. *)
Definition all_fit (a : kept) (evs : list Event) : Prop :=
  Forall (fun e => op_ok (op_of e)) evs /\ forall pre b, pre `prefix_of` evs -> b ∈ outcomes a pre -> fits b.

Definition left_by (a : kept) (evs : list Event) (img : Image) : Prop := exists a', a' ∈ outcomes a evs /\ rep false img a'.

Lemma all_fit_cons e evs a b : all_fit a (e :: evs) -> b ∈ outcomes a [e] -> op_ok (op_of e) /\ fits b /\ all_fit b evs.
Proof.
  intros [Hok Hfit] Hb. apply Forall_cons in Hok as [Hop Hok]. split_and!; [done| |split; [done|]].
  - apply (Hfit [e]); [by apply prefix_cons, prefix_nil|done].
  - intros pre c Hpre Hc. apply (Hfit (e :: pre)); [by apply prefix_cons|]. by apply (outcomes_app a b [e] pre).
Qed.

Lemma outcomes_cut (a : kept) op : outcomes a [Cut op] = cut op a.
Proof. cbn. induction (cut op a) as [|b bs IH]; [done|]. cbn in *. by rewrite IH. Qed.

Lemma serve_spec ops (n : @Node Vote LogId Membership) a fs k evs fs1 :
  running n a fs -> serve ops n (fs, k) = (evs, fs1) -> all_fit a evs -> left (left_by a evs) fs1.
Proof.
  revert n a fs k evs. induction ops as [|op ops IH]; intros n a fs k evs Hrun Hs Hfit; cbn [serve] in Hs.
  - simplify_eq/=. destruct Hrun as (img & [Hh _] & Hr & _). eapply left_mono; [|by apply holds_left]. intros img' ->.
    exists a. split; [left|by eapply rep_weaken].
  - destruct (perform crc32c n op (fs, k)) as [[n'|e] [fs' k']] eqn:Ep.
    + destruct (serve ops n' (fs', k')) as [evs' fs2] eqn:Es. simplify_eq.
      destruct (all_fit_cons _ _ _ (after op a) Hfit) as (Hop & Hf & Hrest); [left|].
      pose proof (perform_triple n op a Hop Hf fs k Hrun) as Ht. rewrite Ep in Ht. destruct Ht as [Hrun' _].
      exact (IH n' (after op a) fs' k' evs' Hrun' Es Hrest).
    + simplify_eq. destruct (all_fit_cons _ _ _ (after op a) Hfit) as (Hop & Hf & _); [rewrite outcomes_cut; apply cut_after|].
      pose proof (perform_triple n op a Hop Hf fs k Hrun) as Ht. rewrite Ep in Ht. destruct e; try done. destruct Ht as [Hl _].
      eapply left_mono; [|exact Hl]. intros img' (a' & Ha' & Hr). exists a'. by rewrite outcomes_cut.
Qed.

Lemma empty_holds : holds (fun _ => None) empty_fs.
Proof. by split. Qed.

Lemma all_fit_app a evs evs' : all_fit a (evs ++ evs') -> all_fit a evs /\ forall b, b ∈ outcomes a evs -> fits b /\ all_fit b evs'.
Proof.
  intros [Hok Hfit]. apply Forall_app in Hok as [Hok Hok']. split.
  - split; [done|]. intros pre b Hpre. apply Hfit. etrans; [exact Hpre|]. by apply prefix_app_r.
  - intros b Hb. split; [apply (Hfit evs); [by apply prefix_app_r|done]|]. split; [done|].
    intros pre c Hpre Hc. apply (Hfit (evs ++ pre)); [by apply prefix_app|]. by apply (outcomes_app a b).
Qed.

Lemma lived_spec evs fs :
  lived evs fs -> all_fit (nothing_kept no_members) evs -> exists img, holds img fs /\ left_by (nothing_kept no_members) evs img.
Proof.
  induction 1 as [|evs fs k ops evs' fs1 fs2 _ IH Hl Hc]; intros Hfit.
  - exists (fun _ => None). split; [apply empty_holds|]. exists (nothing_kept no_members). split; [left|]. split; try done; by left.
  - destruct (all_fit_app _ _ _ Hfit) as [Hfit1 Hfit2]. destruct (IH Hfit1) as (img & Hh & a & Ha & Hr). destruct (Hfit2 a Ha) as [Hfa Hfa'].
    pose proof (open_impl_triple a img Hr Hfa fs k Hh) as Ht. unfold life in Hl.
    assert (Hleft : left (left_by a evs') fs1).
    { destruct (open_impl crc32c no_members (fs, k)) as [[n|e] [fs' k']].
      - destruct Ht as [Hrun _]. by eapply serve_spec.
      - simplify_eq. destruct e; try done. destruct Ht as [Ht _]. eapply left_mono; [|exact Ht]. intros img' Hi. exists a. split; [left|done]. }
    destruct (Hleft fs2 Hc) as (img' & Hh' & b & Hb & Hrb). exists img'. split; [done|]. exists b. split; [|done]. by apply (outcomes_app _ a).
Qed.

(** What an open store answers is what is kept. *)
Definition answers (n : @Node Vote LogId Membership) (a : kept) : Prop :=
  vote (log n) = k_vote a /\ get_log_state (log n) = (k_purged a, match last (k_entries a) with Some e => Some (log_id e) | None => k_purged a end) /\
  entries (log n) = k_entries a /\ applied_state (data n) = (last_applied (k_data a), membership (k_data a)).

(** C6: The control plane forgets nothing it acknowledged. Through any number
    of lives, each ended by a crash at any system call or after any operation,
    the next open succeeds and finds what the history allows and nothing else:
    every operation that returned, whole; of the one a life ended in, all or
    nothing, for an append its first entries, for a snapshot perhaps its file
    and not yet the state machine. So a vote that was granted is never
    forgotten, a torn log tail is no acknowledged entry, and the store is ready
    for any further operation. *)
Theorem raft_store_survives evs fs :
  lived evs fs -> all_fit (nothing_kept no_members) evs ->
  exists a, a ∈ outcomes (nothing_kept no_members) evs /\
  forall k, (11 <= k)%nat -> exists n fs' k', open_impl crc32c no_members (fs, k) = (Ok n, (fs', k')) /\ answers n a /\
    fst (get_current_snapshot crc32c (fs', 1%nat)) = Ok (k_snap a) /\
    forall op j, op_ok op -> fits (after op a) -> (10 <= j)%nat -> exists n' w, perform crc32c n op (fs', j) = (Ok n', w).
Proof.
  intros Hl Hfit. destruct (lived_spec evs fs Hl Hfit) as (img & Hh & a & Ha & Hr). exists a. split; [done|]. intros k Hk.
  assert (Hfa : fits a) by (destruct Hfit as [_ Hfit]; by apply (Hfit evs)).
  pose proof (open_impl_triple a img Hr Hfa fs k Hh) as Ht. destruct (open_impl crc32c no_members (fs, k)) as [[n|e] [fs' k']].
  2: { destruct e; try done. lia. }
  destruct Ht as [Hrun _]. exists n, fs', k'. split; [done|]. pose proof Hrun as (img' & [Hh' _] & Hr' & H1 & H2 & H3 & H4). split_and!.
  - unfold answers, get_log_state, applied_state. by rewrite H1, H2, H3, H4.
  - pose proof (value_triple _ SNAPSHOT_FILE img' (rp_snap _ _ _ Hr') fs' 1%nat Hh') as Hv.
    change (_ ≫= _) with (get_current_snapshot (LogId := LogId) (Membership := Membership) crc32c) in Hv.
    destruct (get_current_snapshot crc32c (fs', 1%nat)) as [[s|e] [fs'' k'']]; [|destruct e; try done; lia]. destruct Hv as [[-> _] _]. done.
  - intros op j Hop Hf Hj. pose proof (perform_triple n op a Hop Hf fs' j Hrun) as Hp.
    destruct (perform crc32c n op (fs', j)) as [[n'|e] [fs'' j']]; [eauto|]. destruct e; try done. lia.
Qed.

(** *** A process that dies without its machine

    What the dead process had not synced is still there for the next one to
    read, and still not on disk. [alike]: code that only reads does the same on
    two directories that look alike. *)
Definition alike {A} (fs fs' : Fs) (m : M A) (n : nat) : Prop := exists r n', m (fs, n) = (r, (fs, n')) /\ m (fs', n) = (r, (fs', n')).

Lemma alike_bind {A B} fs fs' (m : M A) (f : A -> M B) n :
  alike fs fs' m n -> (forall a n', m (fs', n) = (Ok a, (fs', n')) -> alike fs fs' (f a) n') -> alike fs fs' (m ≫= f) n.
Proof.
  intros (r & n' & H1 & H2) Hf. unfold alike, mbind, M_bind. rewrite H1, H2. destruct r as [a|e]; [by apply Hf|by exists (Err e), n'].
Qed.

Lemma alike_lift {A} fs fs' (r : result A Damage) n : alike fs fs' (lift r) n.
Proof. unfold alike, lift. eauto. Qed.

Lemma alike_ret {A} fs fs' (a : A) n : alike fs fs' (mret a) n.
Proof. unfold alike, mret, M_ret. eauto. Qed.

Section twins.
Context (fs fs' : Fs) (Hlive : live fs = live fs') (Hcur : cur fs = cur fs').

Lemma alike_read x n : alike fs fs' (read x) n.
Proof. destruct n; unfold alike, read; cbn; rewrite ?Hlive, ?Hcur; eauto. Qed.

Lemma alike_open x n : alike fs fs' (open_file x) n.
Proof. destruct n; unfold alike, open_file; cbn; rewrite ?Hlive; [eauto|]. destruct (live fs' !! x); eauto. Qed.

Lemma alike_single f n : alike fs fs' (read_single_record_file crc32c f) n.
Proof.
  apply alike_bind; [apply alike_read|]. intros [b|] k _; [|apply alike_ret]. apply alike_bind; [apply alike_lift|]. intros. apply alike_ret.
Qed.

Lemma alike_open_impl (a : kept) img n : holds img fs' -> rep true img a -> alike fs fs' (open_impl (Vote := Vote) crc32c no_members) n.
Proof.
  intros Hh Hr. unfold open_impl. apply alike_bind.
  { apply alike_bind; [apply alike_single|]. intros [p|] k _; [|apply alike_ret]. apply alike_bind; [apply alike_lift|]. intros. apply alike_ret. }
  intros v n1 _. apply alike_bind.
  2: { intros l k _. apply alike_bind; [|intros; apply alike_ret]. apply alike_bind; [apply alike_single|].
       intros [p|] k' _; [apply alike_lift|apply alike_ret]. }
  apply alike_bind; [apply alike_read|]. intros b n2 Hb. apply alike_bind; [|intros; apply alike_bind; [apply alike_open|intros; apply alike_ret]].
  pose proof (read_triple LOG_FILE img fs' n1 Hh) as Ht. rewrite Hb in Ht. destruct Ht as [[-> _] _].
  destruct (rp_log _ _ _ Hr) as [(? & _)|(m & recs & ps & tail & -> & Hm & Hes & Hin & Ht & Hnil)]; [done|]. rewrite Hnil by done.
  apply alike_bind; [apply alike_lift|]. intros r k Hl. rewrite (log_reads _ _ _ _ _ Hm Hes torn_nil) in Hl. unfold lift in Hl.
  assert (r = (k_purged a, inserted [] recs, length (log_bytes m ps))) as -> by congruence.
  rewrite app_nil_r, Nat.ltb_irrefl. apply alike_bind; [apply alike_ret|]. intros. apply alike_ret.
Qed.
End twins.

(** A call with calls left returns, and leaves one fewer. *)
Lemma call_returns {A} (P : Fs -> Prop) (k : Fs -> result A IoError * Fs) (Q : A -> Fs -> Prop) C fs n :
  triple 1 P (call k) Q C -> P fs -> exists a fs', call k (fs, S n) = (Ok a, (fs', n)) /\ Q a fs'.
Proof.
  intros Ht HP. specialize (Ht fs (S n) HP). cbn in *. destruct (k fs) as [[a|e] fs'].
  - destruct Ht as [HQ _]. eauto.
  - destruct e; try done. lia.
Qed.

Lemma publish_cut f buf img fs : holds img fs -> exists fs1, publish f buf (fs, 4%nat) = (Err Interrupted, (fs1, O)) /\ renamed f buf img fs1.
Proof.
  intros Hh. unfold publish, mbind, M_bind.
  destruct (call_returns _ _ _ _ fs 3 (create_triple f img) Hh) as (i & fsa & Ha & Hw). fold (create (Tmp f)) in Ha. rewrite Ha.
  destruct (call_returns _ _ _ _ fsa 2 (write_triple f i [] false img buf) Hw) as ([] & fsb & Hb & Hwb). fold (write_all i buf) in Hb. rewrite Hb.
  destruct (call_returns _ _ _ _ fsb 1 (sync_triple f i buf false img) Hwb) as ([] & fsc & Hc & Hwc). fold (sync_data i) in Hc. rewrite Hc.
  destruct (call_returns _ _ _ _ fsc 0 (rename_triple f i buf img) Hwc) as ([] & fsd & Hd & Hwd). fold (rename (Tmp f) (At f)) in Hd. rewrite Hd.
  by exists fsd.
Qed.

(** C38: What an opened store says is not always on disk. Whatever a store
    keeps and whatever vote it is asked to save, if the process dies between
    the rename of the vote's file and the sync of the directory, the next
    process opens the store and finds the new vote, and it is still only in
    memory: a crash after the open takes it back, and the node that voted
    has its old vote again. Opening syncs the parent directory, not the
    directory that was renamed in. *)
Theorem opened_vote_can_be_forgotten (n : @Node Vote LogId Membership) (a : kept) (v : Vote) fs :
  running n a fs -> fits a -> fits (after (SaveVote v) a) ->
  exists fs1 fs2 n1 k1 n2 w2,
    perform crc32c n (SaveVote v) (fs, 4%nat) = (Err Interrupted, (fs1, O)) /\
    open_impl crc32c no_members (fs1, 11%nat) = (Ok n1, (fs1, k1)) /\ answers n1 (after (SaveVote v) a) /\
    crash fs1 fs2 /\ open_impl crc32c no_members (fs2, 11%nat) = (Ok n2, w2) /\ answers n2 a.
Proof.
  intros (img & [Hh Hl] & Hr & _) Hfa Hfb. destruct (ft_vote _ Hfb v eq_refl) as [p He].
  destruct (publish_cut VOTE_FILE (single crc32c p) img fs Hh) as (fs1 & Hcut & Hren).
  pose proof (rep_set_vote _ _ _ _ _ Hr He) as Hr1. pose proof Hren as (i & fs0 & Hw & Hfs1).
  assert (Hans : forall b img' x, holds img' x -> rep true img' b -> fits b ->
            exists n' w, open_impl crc32c no_members (x, 11%nat) = (Ok n', w) /\ answers n' b).
  { intros b img' x Hx Hrb Hfit. pose proof (open_impl_triple b img' (rep_weaken _ _ _ Hrb) Hfit x 11%nat Hx) as Ht.
    destruct (open_impl crc32c no_members (x, 11%nat)) as [[n'|e] [fs' k']]; [|destruct e; try done; lia]. exists n', (fs', k').
    split; [done|]. destruct Ht as [(im & _ & _ & H1 & H2 & H3 & H4) _]. unfold answers, get_log_state, applied_state. by rewrite H1, H2, H3, H4. }
  destruct (call_returns _ _ _ _ fs1 0 (fsync_triple VOTE_FILE _ img) Hren) as (u & fst' & Hs & Hht). injection Hs as <- Hs.
  destruct (Hans _ _ _ Hht Hr1 Hfb) as (n1 & w1 & Ho1 & Ha1).
  destruct (alike_open_impl fs1 fst' ltac:(by rewrite <- Hs) ltac:(by rewrite <- Hs) _ _ 11%nat Hht Hr1) as (r & k1 & Hk1 & Hk2). rewrite Ho1 in Hk2. injection Hk2 as <- ->.
  destruct (writing_left _ _ _ _ _ _ Hw _ (least_crash fs0)) as (img' & Hhl & ->). destruct (Hans a img (least fs0) Hhl Hr Hfa) as (n2 & w2 & Ho2 & Ha2).
  exists fs1, (least fs0), n1, k1, n2, w2. split_and!; try done.
  - cbn [perform]. unfold on_log, save_vote, mbind, M_bind, lift. rewrite (encoded_encode _ _ He). unfold write_file_atomic. by rewrite Hcut.
  - rewrite Hfs1. exact (least_crash (record_op _ fs0)).
Qed.
End exact.
End Exact.

(** ** A node's vote *)
Module Sample.
Import Framing Files Replace Store Spec Exact.

(** A serializer for any type with a numbering. *)
Definition numbered (T : Type) `{Countable T} : Serde T :=
  {| to_bytes x := Some [Zpos (countable.encode x)];
     from_bytes b := match b with [Zpos p] => countable.decode p | _ => None end |}.

Lemma numbered_laws (T : Type) `{Countable T} : @SerdeLaws T (numbered T).
Proof. constructor. intros x b [= <-]. apply decode_encode. Qed.

#[export] Instance request_dec : EqDecision ControlRequest.
Proof. solve_decision. Defined.
#[export] Instance payload_dec : EqDecision (EntryPayload Z).
Proof. solve_decision. Defined.
#[export] Instance entry_dec : EqDecision (Entry Z Z).
Proof. solve_decision. Defined.
#[export] Instance membership_dec : EqDecision (StoredMembership Z Z).
Proof. solve_decision. Defined.
#[export] Instance sm_dec : EqDecision (SmData Z Z).
Proof. solve_decision. Defined.
#[export] Instance meta_dec : EqDecision (SnapshotMeta Z Z).
Proof. solve_decision. Defined.
#[export] Instance snapshot_dec : EqDecision (StoredSnapshot Z Z).
Proof. solve_decision. Defined.

#[export] Instance entry_countable : Countable (Entry Z Z).
Proof.
  apply (inj_countable' (fun e => (log_id e, match payload e with Blank => None | Normal _ => Some None | MembershipEntry m => Some (Some m) end))
    (fun '(i, p) => {| log_id := i; payload := match p with None => Blank | Some None => Normal Noop | Some (Some m) => MembershipEntry m end |})).
  by intros [i [|[]|m]].
Defined.
#[export] Instance membership_countable : Countable (StoredMembership Z Z).
Proof. apply (inj_countable' (fun m => (member_id m, members m)) (fun '(i, m) => {| member_id := i; members := m |})). by intros []. Defined.
#[export] Instance sm_countable : Countable (SmData Z Z).
Proof.
  apply (inj_countable' (fun d => (last_applied d, membership d, snapshot_idx d))
    (fun '(l, m, i) => {| last_applied := l; membership := m; snapshot_idx := i |})). by intros [].
Defined.
#[export] Instance meta_countable : Countable (SnapshotMeta Z Z).
Proof.
  apply (inj_countable' (fun d => (last_log_id d, last_membership d, snapshot_id d))
    (fun '(l, m, i) => {| last_log_id := l; last_membership := m; snapshot_id := i |})). by intros [].
Defined.
#[export] Instance snapshot_countable : Countable (StoredSnapshot Z Z).
Proof. apply (inj_countable' (fun s => (meta s, sdata s)) (fun '(m, b) => {| meta := m; sdata := b |})). by intros []. Defined.

#[export] Instance ids : LogIds Z := {| index i := i; id_lt := Z.ltb |}.
#[export] Instance vote_serde : Serde Z := numbered Z.
#[export] Instance marker_serde : Serde (option Z) := numbered (option Z).
#[export] Instance entry_serde : Serde (Entry Z Z) := numbered (Entry Z Z).
#[export] Instance sm_serde : Serde (SmData Z Z) := numbered (SmData Z Z).
#[export] Instance snapshot_serde : Serde (StoredSnapshot Z Z) := numbered (StoredSnapshot Z Z).

Definition crc (bs : list Z) : Z := Z.of_nat (length bs) mod 2 ^ 32.
Lemma crc_ok bs : in_u32 (crc bs).
Proof. unfold crc. pose proof (Z.mod_pos_bound (Z.of_nat (length bs)) (2 ^ 32) ltac:(lia)). widths. lia. Qed.

Lemma numbered_fits {T} `{Countable T} (x : T) : exists p, @encoded T (numbered T) x p.
Proof. eexists. split; [reflexivity|]. unfold small. change MAX_RECORD_LEN with 1048576. cbn. lia. Qed.

Lemma everything_fits (a : @Kept Z Z Z) : fits a.
Proof. split; intros; apply numbered_fits. Qed.

Definition blank (i : Z) : Entry Z Z := {| log_id := i; payload := Blank |}.
Definition first_ops : list (@Op Z Z Z) := [SaveVote 7; Append [blank 1; blank 2]].

(** The first life dies at the sync of its append, with everything but the
    log's tail on disk. *)
Definition first_life : list (@Event Z Z Z) * Fs := life crc 0 17 first_ops empty_fs.

Example first_life_died : fst first_life = [Done (SaveVote 7); Cut (Append [blank 1; blank 2])].
Proof. by vm_compute. Qed.

Lemma raft_store_survives_witness :
  exists a n w, open_impl crc 0 (least (snd first_life), 11%nat) = (Ok n, w) /\ answers n a /\ k_vote a = Some 7.
Proof.
  destruct (raft_store_survives crc crc_ok (0 : Z)
    (SerdeLaws0 := numbered_laws Z) (SerdeLaws1 := numbered_laws (option Z)) (SerdeLaws2 := numbered_laws (Entry Z Z))
    (SerdeLaws3 := numbered_laws (SmData Z Z)) (SerdeLaws4 := numbered_laws (StoredSnapshot Z Z))
    (fst first_life) (least (snd first_life))) as (a & Ha & H).
  - apply (lived_again crc 0 [] empty_fs 17 first_ops _ (snd first_life)); [apply lived_new|apply surjective_pairing|apply least_crash].
  - rewrite first_life_died. split; [|intros; apply everything_fits]. repeat constructor; apply numbered_fits.
  - destruct (H 11%nat (le_n _)) as (n & fs' & k' & Ho & Hans & _). exists a, n, (fs', k'). split_and!; try done.
    rewrite first_life_died in Ha. cbn in Ha. rewrite !elem_of_cons in Ha. destruct Ha as [-> |[-> |[-> |Ha]]]; try done. by apply elem_of_nil in Ha.
Defined.

(** A new node, asked for its first vote. *)
Lemma opened_vote_can_be_forgotten_witness :
  exists fs1 fs2 (n1 n2 : @Node Z Z Z) k1 w2, open_impl crc 0 (fs1, 11%nat) = (Ok n1, (fs1, k1)) /\ vote (log n1) = Some 7 /\
    crash fs1 fs2 /\ open_impl crc 0 (fs2, 11%nat) = (Ok n2, w2) /\ vote (log n2) = None.
Proof.
  assert (Hrep : rep crc (0 : Z) false (fun _ => None) (nothing_kept (Vote := Z) (LogId := Z) (0 : Z))) by (split; try done; by left).
  pose proof (open_impl_triple crc crc_ok (0 : Z) (SerdeLaws0 := numbered_laws Z) (SerdeLaws1 := numbered_laws (option Z))
    (SerdeLaws2 := numbered_laws (Entry Z Z)) (SerdeLaws3 := numbered_laws (SmData Z Z))
    (nothing_kept (0 : Z)) (fun _ => None) Hrep (everything_fits _) empty_fs 11%nat empty_holds) as Ht.
  destruct (open_impl crc (0 : Z) (empty_fs, 11%nat)) as [[n|e] [fs k]]; [|destruct e; try done; lia]. destruct Ht as [Hrun _].
  destruct (opened_vote_can_be_forgotten crc crc_ok (0 : Z) (SerdeLaws0 := numbered_laws Z) (SerdeLaws1 := numbered_laws (option Z))
    (SerdeLaws2 := numbered_laws (Entry Z Z)) (SerdeLaws3 := numbered_laws (SmData Z Z))
    n (nothing_kept (0 : Z)) 7 fs Hrun (everything_fits _) (everything_fits _))
    as (fs1 & fs2 & n1 & k1 & n2 & w2 & _ & Ho1 & [Hv1 _] & Hc & Ho2 & [Hv2 _]).
  exists fs1, fs2, n1, n2, k1, w2. by split_and!.
Defined.
End Sample.
