(* ===== verification/Mailbox.v ===== *)
(** * The ack-policy mailbox

    How an operator's [ACK-POLICY] command reaches the journal
    ([server-runtime/src/policy_control.rs]). [Mailbox] is the shared state and
    the code of both sides, each critical section one function; [Threads] runs
    the admin thread and the primary's own thread against each other, one
    critical section or flag read at a time; [Truth] that what an operator is
    told is what the journal holds. What the halt gate shows when a change is
    journaled is given at each step. *)

From S2P Require Import Prelude Lineage AckPolicy Cursors Presence.
Import Lineage.Event Lineage.Policy AckPolicy.Named Presence.Halt.

Module Mailbox.

Inductive Refused := RingFull | ProducerStopped | AnotherWaiting | NoReplicaCanAttach.
Inductive RequestOutcome := Published | Staged | RefusedFor (r : Refused).

Record Request := { r_policy : AckPolicy; ticket : Z }.

(** The mutex's state; how a parked producer is woken is left out. *)
Record State := {
  attached : bool;
  request : option Request;
  issued : Z;
  published : Z;
  requested : AckPolicy
}.

Record AckPolicyControl := { state : State; pending : bool; shape : Replication }.

Definition with_publish_wait (configured : AckPolicy) (r : Replication) : AckPolicyControl :=
  {| state := {| attached := false; request := None; issued := 0; published := 0; requested := configured |};
     pending := false; shape := r |}.

Definition with_state (c : AckPolicyControl) (s : State) (p : bool) : AckPolicyControl :=
  {| state := s; pending := p; shape := shape c |}.

(** [request], up to its wait: an outcome at once, or a ticket to wait for. The
    ticket counter is a [u64], one per command; its wrap is not modelled. *)
Definition post (c : AckPolicyControl) (p : AckPolicy) : (RequestOutcome + Z) * AckPolicyControl :=
  if negb (can_meet (shape c) p) then (inl (RefusedFor NoReplicaCanAttach), c)
  else
    let s := state c in
    if negb (attached s) then
      (inl Staged, with_state c {| attached := attached s; request := request s; issued := issued s;
                                   published := published s; requested := p |} (pending c))
    else match request s with
    | Some _ => (inl (RefusedFor AnotherWaiting), c)
    | None =>
      let t := issued s + 1 in
      (inr t, with_state c {| attached := attached s; request := Some {| r_policy := p; ticket := t |}; issued := t;
                              published := published s; requested := requested s |} true)
    end.

(** One turn of [request]'s wait loop, the lock held; [expired]: its deadline
    has passed. *)
Definition wait_turn (c : AckPolicyControl) (t : Z) (expired : bool) : option RequestOutcome * AckPolicyControl :=
  let s := state c in
  if t <=? published s then (Some Published, c)
  else if negb (match request s with Some r => ticket r =? t | None => false end)
  then (Some (RefusedFor ProducerStopped), c)
  else if expired then
    (Some (RefusedFor RingFull), with_state c {| attached := attached s; request := None; issued := issued s;
                                                 published := published s; requested := requested s |} false)
  else (None, c).

(** The input ring: the changes published so far, with where each came from. *)
Definition Ring : Type := list (AckPolicyChange * Origin).

(** A change journaled through the halt gate, with room on the ring or not. *)
Definition journal_on (ring : Ring) (h : HaltGate) (p : AckPolicy) (o : Origin) (room : bool) : result Ring unit :=
  let d := decision_change (decide_change h p o) in
  match journal h p o (fun _ => if room then Ok (Z.of_nat (length ring)) else Err tt) with
  | Ok _ => Ok (ring ++ [(d, o)])
  | Err e => Err e
  end.

(** [publish_staged]: a blocking publish, it waits for room. *)
Definition publish_staged (ring : Ring) (h : HaltGate) (p : AckPolicy) : Ring :=
  match journal_on ring h p Halt.Staged true with Ok ring => ring | Err _ => ring end.

(** [PublisherClaim::journal_boot]. *)
Definition journal_boot (lineage : option LineagePolicy) (policy : AckPolicy) (ring : Ring) (h : HaltGate) : Ring :=
  match boot_entry lineage policy (replication h) with
  | Some _ => publish_staged ring h policy
  | None => ring
  end.

(** [BootedClaim::attach]: under the lock, and after it. *)
Definition attach_lock (c : AckPolicyControl) : AckPolicy * AckPolicyControl :=
  let s := state c in
  (requested s, with_state c {| attached := true; request := request s; issued := issued s; published := published s;
                                requested := requested s |} (pending c)).
Definition attach_publish (policy staged : AckPolicy) (ring : Ring) (h : HaltGate) : Ring :=
  if bool_decide (staged = policy) then ring else publish_staged ring h staged.

(** [AckPolicyPublisher::publish]. *)
Definition publish (c : AckPolicyControl) (ring : Ring) (h : HaltGate) (room : bool) : AckPolicyControl * Ring :=
  let s := state c in
  match request s with
  | None => (c, ring)
  | Some r =>
    match journal_on ring h (r_policy r) Runtime room with
    | Err _ => (c, ring)
    | Ok ring =>
      (with_state c {| attached := attached s; request := None; issued := issued s; published := ticket r;
                       requested := r_policy r |} false, ring)
    end
  end.

(** [Drop for AckPolicyPublisher]. *)
Definition detach (c : AckPolicyControl) : AckPolicyControl :=
  let s := state c in
  with_state c {| attached := false; request := None; issued := issued s; published := published s; requested := requested s |} false.
End Mailbox.

(** ** The threads *)
Module Threads.
Import Mailbox.

(** The admin thread serves one command at a time. *)
Inductive Admin := Idle | Waiting (p : AckPolicy) (t : Z).

(** The tenure: the claim, the boot entry, attaching in two parts, then the
    producer's loop, between its read of the flag and the publish. *)
Inductive Producer :=
| Unclaimed
| Claimed (p : AckPolicy)
| Booted (p : AckPolicy)
| Attaching (p staged : AckPolicy)
| Looping
| Publishing
| Stopped.

Record System := { control : AckPolicyControl; ring : Ring; admin : Admin; producer : Producer; told : list (AckPolicy * RequestOutcome) }.

Section steps.
(** The lineage the tenure starts on. *)
Context (lineage : option LineagePolicy).

Inductive step : System -> System -> Prop :=
| step_command c r q h p (res : RequestOutcome + Z) c' :
    post c p = (res, c') ->
    step {| control := c; ring := r; admin := Idle; producer := q; told := h |}
      {| control := c'; ring := r; admin := match res with inl _ => Idle | inr t => Waiting p t end; producer := q;
         told := match res with inl o => h ++ [(p, o)] | inr _ => h end |}
| step_wait c r q h p t expired res c' :
    wait_turn c t expired = (res, c') ->
    step {| control := c; ring := r; admin := Waiting p t; producer := q; told := h |}
      {| control := c'; ring := r; admin := match res with Some _ => Idle | None => Waiting p t end; producer := q;
         told := match res with Some o => h ++ [(p, o)] | None => h end |}
| step_claim c r a h :
    step {| control := c; ring := r; admin := a; producer := Unclaimed; told := h |}
      {| control := c; ring := r; admin := a; producer := Claimed (requested (state c)); told := h |}
| step_boot c r a h p g :
    step {| control := c; ring := r; admin := a; producer := Claimed p; told := h |}
      {| control := c; ring := journal_boot lineage p r g; admin := a; producer := Booted p; told := h |}
| step_attach c r a h p :
    step {| control := c; ring := r; admin := a; producer := Booted p; told := h |}
      {| control := snd (attach_lock c); ring := r; admin := a; producer := Attaching p (fst (attach_lock c)); told := h |}
| step_attached c r a h p staged g :
    step {| control := c; ring := r; admin := a; producer := Attaching p staged; told := h |}
      {| control := c; ring := attach_publish p staged r g; admin := a; producer := Looping; told := h |}
| step_load c r a h :
    step {| control := c; ring := r; admin := a; producer := Looping; told := h |}
      {| control := c; ring := r; admin := a; producer := if pending c then Publishing else Looping; told := h |}
| step_publish c r a h g room :
    step {| control := c; ring := r; admin := a; producer := Publishing; told := h |}
      {| control := fst (publish c r g room); ring := snd (publish c r g room); admin := a; producer := Looping; told := h |}
| step_drop c r a h :
    step {| control := c; ring := r; admin := a; producer := Looping; told := h |}
      {| control := detach c; ring := r; admin := a; producer := Stopped; told := h |}.

Definition start (configured : AckPolicy) (shape : Replication) : System :=
  {| control := with_publish_wait configured shape; ring := []; admin := Idle; producer := Unclaimed; told := [] |}.

Definition reachable (configured : AckPolicy) (shape : Replication) : System -> Prop := rtc step (start configured shape).
End steps.
End Threads.

(** ** What the operator is told is true *)
Module Truth.
Import Mailbox Threads.

Definition is_published (x : AckPolicy * RequestOutcome) : bool := match snd x with Published => true | _ => false end.
Definition is_runtime (x : AckPolicyChange * Origin) : bool := match snd x with Runtime => true | Halt.Staged => false end.

(** The policies journaled for commands, and those of the commands told so. *)
Definition journaled (r : Ring) : list Z := map (fun x => policy (fst x)) (List.filter is_runtime r).
Definition confirmed (h : list (AckPolicy * RequestOutcome)) : list AckPolicy := map fst (List.filter is_published h).

(** The commands that were taken: staged for the next producer, or journaled. *)
Definition is_accepted (x : AckPolicy * RequestOutcome) : bool := match snd x with Published | Staged => true | RefusedFor _ => false end.
Definition accepted (h : list (AckPolicy * RequestOutcome)) : list AckPolicy := map fst (List.filter is_accepted h).

#[local] Arguments journaled : simpl never.
#[local] Arguments accepted : simpl never.
#[local] Arguments confirmed : simpl never.

(** The command whose entry is on the ring and who is yet to hear of it. *)
Definition unheard (a : Admin) (c : AckPolicyControl) : list AckPolicy :=
  match a with Waiting p t => if t <=? published (state c) then [p] else [] | Idle => [] end.

(** The policy the journal names: the last change, or the lineage's. *)
Definition named (lineage : option LineagePolicy) (r : Ring) : option Z :=
  match last r with Some (c, _) => Some (policy c) | None => in_force <$> lineage end.

Definition serving (q : Producer) : bool := match q with Attaching _ _ | Looping | Publishing => true | _ => false end.

Section truth.
Context (lineage : option LineagePolicy) (configured : AckPolicy) (node : Replication).

(** A command is refused for want of a replica exactly when the node takes
    none and the policy needs one, and never for another one waiting. *)
Definition sound_answer (x : AckPolicy * RequestOutcome) : Prop :=
  (snd x = RefusedFor NoReplicaCanAttach <-> can_meet node (fst x) = false) /\ snd x <> RefusedFor AnotherWaiting.

Record inv (s : System) : Prop := {
  iv_shape : shape (control s) = node;
  iv_truth : journaled (ring s) = map to_byte (confirmed (told s) ++ unheard (admin s) (control s));
  iv_attached : attached (state (control s)) = serving (producer s);
  iv_pending : pending (control s) = bool_decide (is_Some (request (state (control s))));
  iv_order : published (state (control s)) <= issued (state (control s));
  iv_request : match admin s with
               | Idle => request (state (control s)) = None
               | Waiting p t => t = issued (state (control s)) /\
                   (published (state (control s)) < t ->
                    request (state (control s)) = if serving (producer s) then Some {| r_policy := p; ticket := t |} else None)
               end;
  iv_done : match admin s with Waiting p t => t <= published (state (control s)) -> request (state (control s)) = None | Idle => True end;
  iv_late : match admin s, producer s with Waiting _ _, (Unclaimed | Claimed _ | Booted _) => False | _, _ => True end;
  iv_named : match producer s with
             | Unclaimed | Claimed _ => ring s = []
             | Booted p => named lineage (ring s) = Some (to_byte p)
             | Attaching p st => named lineage (ring s) = Some (to_byte p) /\ requested (state (control s)) = st
             | Looping | Publishing => named lineage (ring s) = Some (to_byte (requested (state (control s))))
             | Stopped => True
             end;
  iv_requested : requested (state (control s)) = default configured (last (accepted (told s) ++ unheard (admin s) (control s)));
  iv_told : Forall sound_answer (told s);
  iv_waiting : match admin s with Waiting p _ => can_meet node p = true | Idle => True end
}.

Lemma journal_on_ok r h p o : exists d, journal_on r h p o true = Ok (r ++ [(d, o)]) /\ policy d = to_byte p.
Proof. eexists. split; [reflexivity|done]. Qed.

Lemma journal_on_full r h p o : journal_on r h p o false = Err tt.
Proof. reflexivity. Qed.

Lemma journaled_app r x : journaled (r ++ [x]) = journaled r ++ (if is_runtime x then [policy (fst x)] else []).
Proof. unfold journaled. rewrite List.filter_app, map_app. cbn. by destruct (is_runtime x). Qed.

Lemma confirmed_app h x : confirmed (h ++ [x]) = confirmed h ++ (if is_published x then [fst x] else []).
Proof. unfold confirmed. rewrite List.filter_app, map_app. cbn. by destruct (is_published x). Qed.

Lemma accepted_app h x : accepted (h ++ [x]) = accepted h ++ (if is_accepted x then [fst x] else []).
Proof. unfold accepted. rewrite List.filter_app, map_app. cbn. by destruct (is_accepted x). Qed.

Lemma named_app r d o : named lineage (r ++ [(d, o)]) = Some (policy d).
Proof. unfold named. by rewrite last_snoc. Qed.

Lemma staged_ring r h p : journaled (publish_staged r h p) = journaled r /\ named lineage (publish_staged r h p) = Some (to_byte p).
Proof.
  unfold publish_staged. destruct (journal_on_ok r h p Halt.Staged) as (d & -> & Hd). rewrite journaled_app, named_app. cbn.
  by rewrite app_nil_r, Hd.
Qed.

Lemma boot_ring h p : journaled (journal_boot lineage p [] h) = [] /\ named lineage (journal_boot lineage p [] h) = Some (to_byte p).
Proof.
  unfold journal_boot. destruct (boot_entry lineage p (replication h)) eqn:E; [apply staged_ring|]. split; [done|]. unfold named. cbn.
  unfold boot_entry in E. destruct lineage as [l|]; [|done]. destruct (Z.eqb_spec (in_force l) (to_byte p)) as [He|]; [|done]. cbn. by rewrite He.
Qed.

Lemma attach_ring r g p st :
  named lineage r = Some (to_byte p) ->
  journaled (attach_publish p st r g) = journaled r /\ named lineage (attach_publish p st r g) = Some (to_byte st).
Proof.
  intros Hn. unfold attach_publish. destruct (decide (st = p)) as [->|Hd]; [by rewrite bool_decide_eq_true_2|].
  rewrite bool_decide_eq_false_2 by done. apply staged_ring.
Qed.

Lemma mailbox_start_inv : inv (start configured node).
Proof. by split. Qed.

(** An answer that was sound joins the others. *)
Lemma told_app h p o :
  Forall sound_answer h -> (o = RefusedFor NoReplicaCanAttach <-> can_meet node p = false) -> o <> RefusedFor AnotherWaiting ->
  Forall sound_answer (h ++ [(p, o)]).
Proof. intros Hh Ho Ha. apply Forall_app. split; [done|]. by apply Forall_singleton. Qed.

Lemma command_inv c r q h p res c' :
  inv {| control := c; ring := r; admin := Idle; producer := q; told := h |} -> post c p = (res, c') ->
  inv {| control := c'; ring := r; admin := match res with inl _ => Idle | inr t => Waiting p t end; producer := q;
         told := match res with inl o => h ++ [(p, o)] | inr _ => h end |}.
Proof.
  intros [] Hp. cbn in *. unfold post in Hp. rewrite iv_shape0, iv_request0 in Hp. rewrite app_nil_r in iv_truth0, iv_requested0.
  destruct (can_meet node p) eqn:Em; cbn in Hp.
  2: { simplify_eq. split; cbn; try done; [by rewrite confirmed_app, !app_nil_r|by rewrite accepted_app, !app_nil_r|by apply told_app]. }
  destruct (attached (state c)) eqn:Ea; cbn in Hp; simplify_eq; split; cbn; try done; try lia.
  - rewrite (proj2 (Z.leb_gt _ _)) by lia. by rewrite app_nil_r.
  - split; [done|]. intros _. by rewrite <- iv_attached0.
  - by destruct q.
  - rewrite (proj2 (Z.leb_gt _ _)) by lia. by rewrite app_nil_r.
  - by rewrite confirmed_app, !app_nil_r.
  - by rewrite iv_pending0, iv_request0.
  - by destruct q.
  - rewrite accepted_app, app_nil_r. cbn. by rewrite last_snoc.
  - apply told_app; [done| |done]. rewrite Em. done.
Qed.

Lemma wait_inv c r q h p t expired res c' :
  inv {| control := c; ring := r; admin := Waiting p t; producer := q; told := h |} -> wait_turn c t expired = (res, c') ->
  inv {| control := c'; ring := r; admin := match res with Some _ => Idle | None => Waiting p t end; producer := q;
         told := match res with Some o => h ++ [(p, o)] | None => h end |}.
Proof.
  intros [] Hw. cbn in *. destruct iv_request0 as [Ht Hreq]. unfold wait_turn in Hw.
  assert (Htold : forall o, o <> RefusedFor NoReplicaCanAttach -> o <> RefusedFor AnotherWaiting -> Forall sound_answer (h ++ [(p, o)])).
  { intros o Ho Ha. apply told_app; [done| |done]. rewrite iv_waiting0. done. }
  destruct (Z.leb_spec t (published (state c))) as [Hle|Hgt]; [|rewrite app_nil_r in iv_truth0, iv_requested0].
  - simplify_eq. split; cbn; try done; [by rewrite confirmed_app, !app_nil_r|by apply iv_done0|by rewrite accepted_app, app_nil_r|by apply Htold].
  - specialize (Hreq Hgt). rewrite Hreq in Hw. destruct (serving q) eqn:Es; cbn in Hw.
    + rewrite Z.eqb_refl in Hw. cbn in Hw. destruct expired; simplify_eq; split; cbn; try done.
      * by rewrite confirmed_app, !app_nil_r.
      * congruence.
      * by rewrite accepted_app, !app_nil_r.
      * by apply Htold.
      * by rewrite (proj2 (Z.leb_gt _ _)), app_nil_r by lia.
      * congruence.
      * by rewrite Es.
      * by rewrite (proj2 (Z.leb_gt _ _)), app_nil_r by lia.
    + simplify_eq. split; cbn; try done; try congruence; [by rewrite confirmed_app, !app_nil_r|by rewrite accepted_app, !app_nil_r|by apply Htold].
Qed.

Lemma publish_inv c r a h g room :
  inv {| control := c; ring := r; admin := a; producer := Publishing; told := h |} ->
  inv {| control := fst (publish c r g room); ring := snd (publish c r g room); admin := a; producer := Looping; told := h |}.
Proof.
  intros Hi. unfold publish. destruct (request (state c)) as [q|] eqn:Eq; [|destruct Hi; by split].
  destruct room; [|rewrite journal_on_full; destruct Hi; by split].
  destruct (journal_on_ok r g (r_policy q) Runtime) as (d & -> & Hd). destruct Hi. cbn in *.
  destruct a as [|p t]; [congruence|]. destruct iv_request0 as [Ht Hreq].
  assert (Hlt : published (state c) < t) by (destruct (Z.le_gt_cases t (published (state c))) as [Hle|]; [specialize (iv_done0 Hle); congruence|lia]).
  specialize (Hreq Hlt). rewrite Eq in Hreq. injection Hreq as ->. cbn in *.
  rewrite (proj2 (Z.leb_gt _ _)), app_nil_r in iv_truth0, iv_requested0 by lia. split; cbn; try done; try lia.
  - rewrite journaled_app, Z.leb_refl, map_app, iv_truth0. cbn. by rewrite Hd.
  - rewrite named_app, Hd. done.
  - by rewrite Z.leb_refl, last_snoc.
Qed.

Lemma step_inv s s' : step lineage s s' -> inv s -> inv s'.
Proof.
  intros Hs Hi. destruct Hs as [c r q h p res c' Hp|c r q h p t expired res c' Hw|c r a h|c r a h p g|c r a h p|c r a h p st g|c r a h|c r a h g room|c r a h].
  - by eapply command_inv.
  - by eapply wait_inv.
  - destruct Hi. by split.
  - destruct Hi. cbn in *. subst r. destruct (boot_ring g p) as [Hj Hn]. split; cbn; try done. by rewrite Hj.
  - destruct Hi. destruct a as [|p' t]; [|done]. by split.
  - destruct Hi. destruct iv_named0 as [Hn Hr]. cbn in *. destruct (attach_ring r g p st Hn) as [Hj Hn'].
    split; cbn; try done; [by rewrite Hj|by rewrite Hn', Hr].
  - destruct Hi. by destruct (pending c); split.
  - by apply publish_inv.
  - destruct Hi. cbn in *. destruct a as [|p t]; split; cbn; try done. by destruct iv_request0.
Qed.

Lemma mailbox_inv s : reachable lineage configured node s -> inv s.
Proof. intros H. eapply (rtc_ind_r inv); [apply mailbox_start_inv| |exact H]. intros x y _ Hs Hi. by eapply step_inv. Qed.

(** C32: What an operator is told of an [ACK-POLICY] command is what happened,
    however the admin thread, a starting primary and its producer interleave.
    The changes journaled for commands are, in order and each once, those
    of the commands told so, with at most the one whose requester has yet to
    wake; so a refused command changed nothing. A command that waits is
    journaled, or is still there for the running producer with the flag up, or
    its producer has stopped and its next turn is refused for that. A command
    is refused for want of a replica exactly when the node takes none and the
    policy needs one, and none ever meets another one waiting. The requested
    policy is the last one taken, staged or journaled, or the configured one;
    and while the producer runs it is the one the journal names. *)
Theorem mailbox_truthful s :
  reachable lineage configured node s ->
  let c := control s in
  journaled (ring s) = map to_byte (confirmed (told s) ++ unheard (admin s) c) /\
  (forall p t, admin s = Waiting p t ->
     t <= published (state c) \/
     (serving (producer s) = true /\ pending c = true /\ request (state c) = Some {| r_policy := p; ticket := t |}) \/
     (producer s = Stopped /\ forall expired, wait_turn c t expired = (Some (RefusedFor ProducerStopped), c))) /\
  Forall sound_answer (told s) /\
  requested (state c) = default configured (last (accepted (told s) ++ unheard (admin s) c)) /\
  (producer s = Looping \/ producer s = Publishing -> named lineage (ring s) = Some (to_byte (requested (state c)))).
Proof.
  intros Hr c. destruct (mailbox_inv s Hr). split_and!; try done.
  - intros p t Ha. rewrite Ha in iv_request0, iv_late0. destruct iv_request0 as [Ht Hreq].
    destruct (Z.le_gt_cases t (published (state c))) as [|Hgt]; [by left|right]. unfold c in *. specialize (Hreq ltac:(lia)).
    destruct (serving (producer s)) eqn:Es; [left|right].
    + split_and!; [done| |done]. rewrite iv_pending0, Hreq. by apply bool_decide_eq_true_2.
    + split; [by destruct (producer s)|]. intros expired. unfold wait_turn. rewrite (proj2 (Z.leb_gt _ _)), Hreq by lia. done.
  - intros [Hp|Hp]; by rewrite Hp in iv_named0.
Qed.
End truth.
End Truth.

(** ** A forced change *)
Module Sample.
Import Mailbox Threads Truth.

Definition gate : HaltGate :=
  {| replicas_connected := None; fence_state := {| Slots.epoch := 1; Slots.fenced := false |}; refused := 0 |}.

(** A new primary boots under [disk+ram]; its operator asks for [disk]. *)
Definition asked : System :=
  let c0 := with_publish_wait DiskAndRam Enabled in
  let c1 := snd (attach_lock c0) in
  let c2 := snd (post c1 Disk) in
  let r := attach_publish DiskAndRam DiskAndRam (journal_boot None DiskAndRam [] gate) gate in
  {| control := fst (publish c2 r gate true); ring := snd (publish c2 r gate true); admin := Idle; producer := Looping;
     told := [(Disk, Published)] |}.

Lemma asked_reachable : reachable None DiskAndRam Enabled asked.
Proof.
  eapply rtc_l; [apply step_claim|]. eapply rtc_l; [apply (step_boot _ _ _ _ _ _ gate)|]. eapply rtc_l; [apply step_attach|].
  eapply rtc_l; [apply (step_attached _ _ _ _ _ _ _ gate)|]. eapply rtc_l; [by eapply (step_command _ _ _ _ _ Disk)|].
  eapply rtc_l; [apply step_load|]. eapply rtc_l; [apply (step_publish _ _ _ _ _ gate true)|].
  eapply rtc_l; [by eapply (step_wait _ _ _ _ _ _ _ false)|]. vm_compute. apply rtc_refl.
Qed.

Lemma mailbox_truthful_witness : journaled (ring asked) = [to_byte Disk] /\ named None (ring asked) = Some (to_byte Disk).
Proof.
  destruct (mailbox_truthful None DiskAndRam Enabled asked asked_reachable) as (Hj & _ & _ & _ & Hn).
  split; [exact Hj|]. exact (Hn (or_introl eq_refl)).
Defined.
End Sample.
