(* ===== verification/Admission.v ===== *)
(** * Who may connect

    [Text] is what the parser uses of Rust's strings; [Keys] the
    [authorized_keys] file and the application's role table
    ([app/src/auth.rs]); [Listing] what a file means and that the parser reads
    exactly that; [Clients] the client listener's verdict
    ([server-runtime/src/client_auth.rs]) and what it comes to from the file to
    the application's decoder; [Limits] the connection cap and the ring sizes
    derived from it ([server-runtime/src/connection_limit.rs]). A string is the
    list of its characters' code points; base64 and Ed25519 are parameters. *)

From stdpp Require Import gmap strings.
From S2P Require Import Prelude Codec Protocol Ingress.
Import Protocol.Auth.

Module Text.

(** [char::is_whitespace]. *)
Definition is_whitespace (c : Z) : bool :=
  ((9 <=? c) && (c <=? 13)) || (c =? 32) || (c =? 0x85) || (c =? 0xA0) || (c =? 0x1680) ||
  ((0x2000 <=? c) && (c <=? 0x200A)) || (c =? 0x2028) || (c =? 0x2029) || (c =? 0x202F) || (c =? 0x205F) || (c =? 0x3000).

(** [str::split], at every [c]: at least one piece. *)
Fixpoint split_at (c : Z) (s : list Z) : list (list Z) :=
  match s with
  | [] => [[]]
  | x :: s =>
    if x =? c then [] :: split_at c s
    else match split_at c s with [] => [[x]] | piece :: rest => (x :: piece) :: rest end
  end.

(** [str::lines]: a trailing carriage return is cut off each line, and a last
    empty line is not one. *)
Definition strip_cr (line : list Z) : list Z :=
  match last line with Some 13 => take (length line - 1) line | _ => line end.
Definition lines (s : list Z) : list (list Z) :=
  let pieces := split_at 10 s in
  map strip_cr (match last pieces with Some [] => take (length pieces - 1) pieces | _ => pieces end).

Fixpoint trim_start (s : list Z) : list Z :=
  match s with [] => [] | x :: s' => if is_whitespace x then trim_start s' else s end.
Definition trim (s : list Z) : list Z := reverse (trim_start (reverse (trim_start s))).

(** [str::split_whitespace]: the maximal runs of other characters. *)
Fixpoint words_from (run : list Z) (s : list Z) : list (list Z) :=
  match s with
  | [] => match run with [] => [] | _ => [reverse run] end
  | x :: s =>
    if is_whitespace x then match run with [] => words_from [] s | _ => reverse run :: words_from [] s end
    else words_from (x :: run) s
  end.
Definition split_whitespace (s : list Z) : list (list Z) := words_from [] s.

Definition chars (s : string) : list Z := map (fun a => Z.of_nat (Ascii.nat_of_ascii a)) (String.list_ascii_of_string s).

(** ** Trimming does not change the words *)
Lemma words_trim_start s : split_whitespace (trim_start s) = split_whitespace s.
Proof.
  unfold split_whitespace. induction s as [|x s IH]; [done|]. cbn [trim_start words_from]. by destruct (is_whitespace x) eqn:E; cbn; rewrite ?E.
Qed.

Lemma words_blank run s : Forall (fun x => is_whitespace x = true) s -> words_from run s = match run with [] => [] | _ => [reverse run] end.
Proof. intros Hs. revert run. induction Hs as [|x s Hx Hs IH]; intros run; [done|]. cbn. rewrite Hx. destruct run; by rewrite IH. Qed.

Lemma words_app_blank run s ws : Forall (fun x => is_whitespace x = true) ws -> words_from run (s ++ ws) = words_from run s.
Proof.
  intros Hw. revert run. induction s as [|x s IH]; intros run; [by apply words_blank|]. cbn. destruct (is_whitespace x); [destruct run|]; by rewrite IH.
Qed.

Lemma trim_start_split s : exists ws, s = ws ++ trim_start s /\ Forall (fun x => is_whitespace x = true) ws.
Proof.
  induction s as [|x s (ws & Hs & Hw)]; [by exists []|]. cbn. destruct (is_whitespace x) eqn:E; [|by exists []].
  exists (x :: ws). split; [cbn; by rewrite <- Hs|by constructor].
Qed.

Lemma words_trim s : split_whitespace (trim s) = split_whitespace s.
Proof.
  rewrite <- (words_trim_start s). unfold trim. set (t := trim_start s). destruct (trim_start_split (reverse t)) as (ws & Ht & Hw).
  assert (Hr : t = reverse (trim_start (reverse t)) ++ reverse ws) by (rewrite <- reverse_app, <- Ht; by rewrite reverse_involutive).
  rewrite Hr at 2. unfold split_whitespace. symmetry. apply words_app_blank. by apply Forall_reverse.
Qed.

(** The first word of a line begins with its first character, and there is
    none exactly when the trimmed line is empty. *)
Lemma words_run run s : run <> [] -> exists w ws, words_from run s = w :: ws /\ head w = last run.
Proof.
  revert run. induction s as [|x s IH]; intros run Hr; cbn.
  - destruct run as [|y run]; [done|]. exists (reverse (y :: run)), []. split; [done|]. by rewrite head_reverse.
  - destruct (is_whitespace x); [|destruct (IH (x :: run)) as (w & ws & Hw & Hh); [done|]].
    + destruct run as [|y run]; [done|]. do 2 eexists. split; [done|]. by rewrite head_reverse.
    + exists w, ws. split; [done|]. rewrite Hh. by destruct run.
Qed.

Lemma trim_start_head s : match head (trim_start s) with Some x => is_whitespace x = false | None => True end.
Proof. induction s as [|x s IH]; [done|]. cbn. by destruct (is_whitespace x) eqn:E; cbn. Qed.

Lemma words_head s :
  match head (trim_start s) with
  | None => split_whitespace s = []
  | Some x => exists w ws, split_whitespace s = (x :: w) :: ws
  end.
Proof.
  rewrite <- words_trim_start. pose proof (trim_start_head s) as Hh. destruct (trim_start s) as [|x t]; [done|]. cbn in *.
  unfold split_whitespace. cbn. rewrite Hh. destruct (words_run [x] t) as (w & ws & -> & Hw); [done|]. cbn in Hw.
  destruct w as [|y w]; [done|]. cbn in Hw. injection Hw as ->. eauto.
Qed.

Lemma trim_head s : head (trim s) = head (trim_start s).
Proof.
  unfold trim. pose proof (trim_start_head s) as Hx. destruct (trim_start s) as [|x t]; [done|]. cbn in Hx.
  destruct (trim_start_split (reverse (x :: t))) as (ws & Ht & Hw). set (u := trim_start (reverse (x :: t))) in *.
  assert (Hr : x :: t = reverse u ++ reverse ws) by (by rewrite <- reverse_app, <- Ht, reverse_involutive).
  destruct (reverse u) as [|y v]; [|by injection Hr as ->]. cbn in Hr. exfalso. assert (Hin : x ∈ reverse ws) by (rewrite <- Hr; left).
  rewrite elem_of_reverse in Hin. rewrite Forall_forall in Hw. specialize (Hw x Hin). congruence.
Qed.
End Text.

Module Keys.
Import Text.

Definition OPERATOR_TOKEN : list Z := chars "operator".
Definition REPLICATION_TOKEN : list Z := chars "replication".

Inductive RoleTableError :=
| TooManyRoles (n : nat)
| BadToken (token : list Z)
| RuntimeToken (token : list Z)
| TokenTwice (token : list Z)
| RoleTwice (earlier token : list Z).

(** A line number, from 1, and what is wrong with it. *)
Inductive LineError := MissingRole | MissingKey | UnknownRole (token : list Z) | InvalidBase64 | KeyLength (n : nat) | ListedTwice.
Inductive KeysError := RoleTable (e : RoleTableError) | Line (n : nat) (e : LineError).

Definition is_lower (b : Z) : bool := (97 <=? b) && (b <=? 122).
Definition is_digit (b : Z) : bool := (48 <=? b) && (b <=? 57).
Definition is_valid_token (token : list Z) : bool :=
  match token with
  | [] => false
  | b :: rest => is_lower b && forallb (fun b => is_lower b || is_digit b || (b =? 45) || (b =? 95)) rest
  end.

Definition CAPACITY : nat := 256.

Notation Table := (gmap (list Z) KeyRole).

Section roles.
Context {R : Type} `{!EqDecision R}.
(** [Role::ROLES]. *)
Context (ROLES : list (list Z * R)).

Fixpoint check_earlier (token : list Z) (role : R) (earlier : list (list Z * R)) : result unit RoleTableError :=
  match earlier with
  | [] => Ok tt
  | (earlier_token, earlier_role) :: rest =>
    if bool_decide (earlier_token = token) then Err (TokenTwice token)
    else if bool_decide (earlier_role = role) then Err (RoleTwice earlier_token token)
    else check_earlier token role rest
  end.

Fixpoint check_roles (before roles : list (list Z * R)) : result unit RoleTableError :=
  match roles with
  | [] => Ok tt
  | (token, role) :: roles =>
    if negb (is_valid_token token) then Err (BadToken token)
    else if bool_decide (token = OPERATOR_TOKEN) || bool_decide (token = REPLICATION_TOKEN) then Err (RuntimeToken token)
    else _ <-? check_earlier token role before ;; check_roles (before ++ [(token, role)]) roles
  end.

Definition validate_roles : result unit RoleTableError :=
  if (CAPACITY <? length ROLES)%nat then Err (TooManyRoles (length ROLES)) else check_roles [] ROLES.

(** [Iterator::position]. *)
Fixpoint position (token : list Z) (roles : list (list Z * R)) : option nat :=
  match roles with
  | [] => None
  | (t, _) :: roles => if bool_decide (t = token) then Some O else S <$> position token roles
  end.

(** A panic is [None]: the index does not fit a byte. *)
Definition role_for_token (token : list Z) : option (option KeyRole) :=
  if bool_decide (token = OPERATOR_TOKEN) then Some (Some (Client Operator))
  else if bool_decide (token = REPLICATION_TOKEN) then Some (Some Replication)
  else match position token ROLES with
       | None => Some None
       | Some i => if (i <=? 255)%nat then Some (Some (Client (AppRole i))) else None
       end.

(** The base64 crate's decoder. *)
Context (b64 : list Z -> option (list Z)).

(** One line of the file: nothing to add, a key and its role, an error; or a
    panic. *)
Definition parse_line (line : list Z) : option (result (option (list Z * KeyRole)) LineError) :=
  let line := trim line in
  match line with
  | [] => Some (Ok None)
  | 35 :: _ => Some (Ok None)
  | _ =>
    match split_whitespace line with
    | [] => Some (Err MissingRole)
    | [_] => Some (Err MissingKey)
    | role_token :: key_b64 :: _ =>
      match role_for_token role_token with
      | None => None
      | Some None => Some (Err (UnknownRole role_token))
      | Some (Some role) =>
        match b64 key_b64 with
        | None => Some (Err InvalidBase64)
        | Some key => if negb (length key =? 32)%nat then Some (Err (KeyLength (length key))) else Some (Ok (Some (key, role)))
        end
      end
    end
  end.

Fixpoint parse_lines (n : nat) (keys : Table) (ls : list (list Z)) : option (result Table KeysError) :=
  match ls with
  | [] => Some (Ok keys)
  | line :: ls =>
    match parse_line line with
    | None => None
    | Some (Err e) => Some (Err (Line n e))
    | Some (Ok None) => parse_lines (S n) keys ls
    | Some (Ok (Some (key, role))) =>
      match keys !! key with
      | Some _ => Some (Err (Line n ListedTwice))
      | None => parse_lines (S n) (<[key := role]> keys) ls
      end
    end
  end.

Definition parse (content : list Z) : option (result Table KeysError) :=
  match validate_roles with
  | Err e => Some (Err (RoleTable e))
  | Ok _ => parse_lines 1 ∅ (lines content)
  end.

(** [AuthorizedKeys::token]. *)
Definition token (role : KeyRole) : list Z :=
  match role with
  | Replication => REPLICATION_TOKEN
  | Client Operator => OPERATOR_TOKEN
  | Client (AppRole id) => match ROLES !! id with Some (t, _) => t | None => chars "?" end
  end.
End roles.

(** [KeyRole::client]. *)
Definition client (r : KeyRole) : option ClientRole := match r with Replication => None | Client r => Some r end.
End Keys.

(** ** What a keys file means

    An entry is a line whose first word does not begin with [#]; its first
    word names the role and its second the key. *)
Module Listing.
Import Text Keys.

Section listing.
Context {R : Type} `{!EqDecision R} (ROLES : list (list Z * R)) (b64 : list Z -> option (list Z)).

Definition entry (line : list Z) : option (list (list Z)) :=
  match split_whitespace line with
  | [] => None
  | w :: ws => if bool_decide (head w = Some 35) then None else Some (w :: ws)
  end.

(** What a line says, once read. *)
Definition says (ws : list (list Z)) (kr : list Z * KeyRole) : Prop :=
  exists tok b rest, ws = tok :: b :: rest /\ b64 b = Some kr.1 /\ length kr.1 = 32%nat /\ token ROLES kr.2 = tok /\
    match kr.2 with Client (AppRole i) => (i < length ROLES)%nat | _ => True end.

(** A token: a lowercase letter, then lowercase letters, digits, [-] and [_]. *)
Definition well_formed (t : list Z) : Prop :=
  exists b rest, t = b :: rest /\ 97 <= b <= 122 /\ Forall (fun c => 97 <= c <= 122 \/ 48 <= c <= 57 \/ c = 45 \/ c = 95) rest.

Lemma is_valid_token_spec t : is_valid_token t = true <-> well_formed t.
Proof.
  unfold well_formed. destruct t as [|b rest]; [split; [done|by intros (? & ? & ? & _)]|]. cbn. unfold is_lower, is_digit.
  rewrite andb_true_iff, forallb_forall. split.
  - intros [Hb Hr]. exists b, rest. split_and!; [done|lia|lia|]. apply Forall_forall. intros c Hc%list_elem_of_In. specialize (Hr c Hc). lia.
  - intros (b' & rest' & [= <- <-] & Hb & Hr). split; [lia|]. intros c Hc%list_elem_of_In. rewrite Forall_forall in Hr. specialize (Hr c Hc). lia.
Qed.

(** A role table the runtime accepts: at most as many roles as a byte indexes,
    every token well formed and not the runtime's own, no token or role twice. *)
Record valid_roles : Prop := {
  vr_size : (length ROLES <= 256)%nat;
  vr_tokens : Forall (fun r => well_formed r.1 /\ r.1 <> chars "operator" /\ r.1 <> chars "replication") ROLES;
  vr_nodup : NoDup ROLES.*1;
  vr_roles : NoDup ROLES.*2
}.

Lemma check_earlier_ok tok (role : R) (earlier : list (list Z * R)) : check_earlier tok role earlier = Ok tt <-> tok ∉ earlier.*1 /\ role ∉ earlier.*2.
Proof.
  induction earlier as [|[t r] earlier IH]; cbn [check_earlier fmap list_fmap].
  - split; [|done]. intros _. split; apply not_elem_of_nil.
  - rewrite !not_elem_of_cons. cbn. destruct (decide (t = tok)) as [->|Ht]; [rewrite bool_decide_eq_true_2 by done; naive_solver|].
    rewrite bool_decide_eq_false_2 by done. destruct (decide (r = role)) as [->|Hr]; [rewrite bool_decide_eq_true_2 by done; naive_solver|].
    rewrite bool_decide_eq_false_2, IH by done. naive_solver.
Qed.

Lemma check_roles_ok (before roles : list (list Z * R)) :
  NoDup before.*1 -> NoDup before.*2 ->
  check_roles before roles = Ok tt <->
  Forall (fun r => is_valid_token r.1 = true /\ r.1 <> OPERATOR_TOKEN /\ r.1 <> REPLICATION_TOKEN) roles /\
  NoDup (before ++ roles).*1 /\ NoDup (before ++ roles).*2.
Proof.
  revert before. induction roles as [|[t r] roles IH]; intros before H1 H2; cbn [check_roles].
  - rewrite app_nil_r. by split.
  - rewrite Forall_cons. cbn [fst]. destruct (is_valid_token t); cbn; [|naive_solver].
    destruct (decide (t = OPERATOR_TOKEN)) as [Ho|Ho]; [rewrite (bool_decide_eq_true_2 _ Ho); cbn; naive_solver|].
    destruct (decide (t = REPLICATION_TOKEN)) as [Hp|Hp]; [rewrite (bool_decide_eq_true_2 _ Hp), orb_true_r; cbn; naive_solver|].
    rewrite !bool_decide_eq_false_2 by done. cbn. destruct (check_earlier t r before) as [[]|e] eqn:E.
    + apply check_earlier_ok in E as [Et Er]. cbn. rewrite IH, <- app_assoc; [cbn; naive_solver|..];
        rewrite fmap_app; apply NoDup_app; (split_and!; [done| |apply NoDup_singleton]); cbn; intros x Hx ->%list_elem_of_singleton; done.
    + cbn. split; [done|]. rewrite !fmap_app. cbn. intros (_ & (_ & Hd1 & _)%NoDup_app & (_ & Hd2 & _)%NoDup_app).
      assert (Hok : check_earlier t r before = Ok tt); [|congruence]. apply check_earlier_ok.
      split; intros Hin; [apply (Hd1 _ Hin)|apply (Hd2 _ Hin)]; left.
Qed.

Lemma validate_ok : validate_roles ROLES = Ok tt <-> valid_roles.
Proof.
  unfold validate_roles, CAPACITY. destruct (Nat.ltb_spec 256 (length ROLES)) as [Hl|Hl].
  - split; [done|]. intros []. lia.
  - rewrite check_roles_ok by constructor. cbn.
    assert (Ht : Forall (fun r : list Z * R => is_valid_token r.1 = true /\ r.1 <> OPERATOR_TOKEN /\ r.1 <> REPLICATION_TOKEN) ROLES <->
                 Forall (fun r => well_formed r.1 /\ r.1 <> chars "operator" /\ r.1 <> chars "replication") ROLES).
    { apply Forall_iff. intros r. by rewrite is_valid_token_spec. }
    rewrite Ht. split; [intros (? & ? & ?); by split|intros []; done].
Qed.

Lemma position_found tok (roles : list (list Z * R)) i : position tok roles = Some i -> exists r, roles !! i = Some (tok, r).
Proof.
  revert i. induction roles as [|[t r] roles IH]; intros i Hp; cbn in Hp; [done|]. destruct (decide (t = tok)) as [->|Ht].
  - rewrite bool_decide_eq_true_2 in Hp by done. injection Hp as <-. eauto.
  - rewrite bool_decide_eq_false_2 in Hp by done. apply fmap_Some in Hp as (j & Hj & ->). by apply IH.
Qed.

Lemma position_at tok (roles : list (list Z * R)) i r : NoDup roles.*1 -> roles !! i = Some (tok, r) -> position tok roles = Some i.
Proof.
  revert i. induction roles as [|[t r'] roles IH]; intros i Hd Hi; [done|]. cbn in Hd. apply NoDup_cons in Hd as [Hn Hd]. cbn.
  destruct i as [|i]; cbn in Hi.
  - injection Hi as -> ->. by rewrite bool_decide_eq_true_2.
  - rewrite bool_decide_eq_false_2; [by rewrite (IH i)|]. intros ->. apply Hn. apply list_elem_of_fmap. exists (tok, r). split; [done|].
    by eapply list_elem_of_lookup_2.
Qed.

Hypothesis roles_ok : valid_roles.

Definition in_table (kr : KeyRole) : Prop := match kr with Client (AppRole i) => (i < length ROLES)%nat | _ => True end.

Lemma role_for_token_spec tok :
  exists o, role_for_token ROLES tok = Some o /\ forall kr, o = Some kr <-> token ROLES kr = tok /\ in_table kr.
Proof.
  unfold role_for_token. assert (Hdiff : OPERATOR_TOKEN <> REPLICATION_TOKEN) by (vm_compute; congruence).
  assert (Hrun : forall i t r, ROLES !! i = Some (t, r) -> t <> OPERATOR_TOKEN /\ t <> REPLICATION_TOKEN).
  { intros i t r Hi. pose proof (Forall_lookup_1 _ _ _ _ (vr_tokens roles_ok) Hi) as (_ & Ho & Hr). by split. }
  assert (Hat : forall i, (i < length ROLES)%nat -> exists t r, ROLES !! i = Some (t, r)).
  { intros i Hi. destruct (lookup_lt_is_Some_2 _ _ Hi) as [[t r] H]. eauto. }
  destruct (decide (tok = OPERATOR_TOKEN)) as [->|Ho].
  { rewrite bool_decide_eq_true_2 by done. eexists. split; [done|]. intros kr. split; [by intros [= <-]|]. intros [Ht Hin].
    destruct kr as [|[|i]]; [by cbn in Ht|done|]. destruct (Hat i Hin) as (t & r & Hi). cbn in Ht. rewrite Hi in Ht. subst t. by destruct (Hrun _ _ _ Hi). }
  rewrite bool_decide_eq_false_2 by done. destruct (decide (tok = REPLICATION_TOKEN)) as [->|Hr].
  { rewrite bool_decide_eq_true_2 by done. eexists. split; [done|]. intros kr. split; [by intros [= <-]|]. intros [Ht Hin].
    destruct kr as [|[|i]]; [done|by cbn in Ht|]. destruct (Hat i Hin) as (t & r & Hi). cbn in Ht. rewrite Hi in Ht. subst t. by destruct (Hrun _ _ _ Hi). }
  rewrite bool_decide_eq_false_2 by done. destruct (position tok ROLES) as [i|] eqn:Ep.
  - destruct (position_found _ _ _ Ep) as (r & Hi). pose proof (lookup_lt_Some _ _ _ Hi) as Hlt. pose proof (vr_size roles_ok) as Hs.
    rewrite (proj2 (Nat.leb_le i 255)) by lia. eexists. split; [done|]. intros kr. split.
    + intros [= <-]. cbn. by rewrite Hi.
    + intros [Ht Hin]. destruct kr as [|[|j]]; [by cbn in Ht|by cbn in Ht|]. destruct (Hat j Hin) as (t & r' & Hj). cbn in Ht. rewrite Hj in Ht. subst t.
      pose proof (position_at _ _ _ _ (vr_nodup roles_ok) Hj). congruence.
  - eexists. split; [done|]. intros kr. split; [done|]. intros [Ht Hin]. exfalso. destruct kr as [|[|j]]; [by cbn in Ht|by cbn in Ht|].
    destruct (Hat j Hin) as (t & r' & Hj). cbn in Ht. rewrite Hj in Ht. subst t. pose proof (position_at _ _ _ _ (vr_nodup roles_ok) Hj). congruence.
Qed.

(** A line is read as it is meant, and no line makes the parser panic. *)
Lemma parse_line_spec line :
  match entry line with
  | None => parse_line ROLES b64 line = Some (Ok None)
  | Some ws => exists r, parse_line ROLES b64 line = Some r /\ r <> Ok None /\ forall kr, r = Ok (Some kr) <-> says ws kr
  end.
Proof.
  unfold entry, parse_line. rewrite <- (words_trim line). pose proof (words_head line) as Hw. rewrite <- trim_head, <- (words_trim line) in Hw.
  destruct (trim line) as [|x l] eqn:El; [done|]. cbn [head] in Hw. destruct Hw as (w & ws & Hw). rewrite Hw. cbn [head].
  destruct (decide (x = 35)) as [->|Hx]; [by rewrite bool_decide_eq_true_2|]. rewrite bool_decide_eq_false_2 by congruence.
  assert (Hmatch : forall A (a b : A), match x with 35 => a | _ => b end = b).
  { intros A a b. destruct x as [|p|p]; try done. destruct p as [p|p|]; try done. destruct p as [p|p|]; try done. destruct p as [p|p|]; try done.
    destruct p as [p|p|]; try done. destruct p as [p|p|]; try done. by destruct p. }
  rewrite Hmatch. destruct ws as [|b rest].
  { eexists. split; [done|]. split; [done|]. intros kr. split; [done|]. by intros (? & ? & ? & ? & _). }
  destruct (role_for_token_spec (x :: w)) as (o & -> & Ho). destruct o as [role|].
  2: { eexists. split; [done|]. split; [done|]. intros kr. split; [done|]. intros (? & ? & ? & [= <- <- <-] & _ & _ & Ht & Hin).
       assert (None = Some kr.2) by (by apply Ho). done. }
  destruct (b64 b) as [key|] eqn:Eb.
  2: { eexists. split; [done|]. split; [done|]. intros kr. split; [done|]. intros (? & ? & ? & [= <- <- <-] & Hb & _). congruence. }
  destruct (Nat.eqb_spec (length key) 32) as [Hk|Hk]; cbn [negb].
  - eexists. split; [done|]. split; [done|]. intros kr. destruct (proj1 (Ho role) eq_refl) as [Ht Hin]. split.
    + intros [= <-]. exists (x :: w), b, rest. by split_and!.
    + intros (? & ? & ? & [= <- <- <-] & Hb & _ & Ht' & Hin'). destruct kr as [k r]. cbn in *. rewrite Eb in Hb.
      assert (Some role = Some r) by (by apply Ho). congruence.
  - eexists. split; [done|]. split; [done|]. intros kr. split; [done|]. intros (? & ? & ? & [= <- <- <-] & Hb & Hl & _). congruence.
Qed.

Lemma parse_lines_spec n keys ls :
  exists r, parse_lines ROLES b64 n keys ls = Some r /\
  forall t, r = Ok t <-> exists es, Forall2 says (omap entry ls) es /\ NoDup es.*1 /\ (forall k, k ∈ es.*1 -> keys !! k = None) /\
                             t = list_to_map es ∪ keys.
Proof.
  revert n keys. induction ls as [|line ls IH]; intros n keys; cbn [parse_lines omap list_omap].
  { eexists. split; [done|]. intros t. split.
    - intros [= <-]. exists []. split_and!; [constructor|constructor|by intros k Hk%elem_of_nil|]. cbn. by rewrite (left_id ∅ _).
    - intros (es & Hes & _ & _ & ->). apply Forall2_nil_inv_l in Hes as ->. cbn. by rewrite (left_id ∅ _). }
  pose proof (parse_line_spec line) as Hl. destruct (entry line) as [ws|]; [|rewrite Hl; apply IH].
  destruct Hl as (r & -> & Hne & Hr). destruct r as [[[key role]|]|e]; [|done|].
  2: { eexists. split; [done|]. intros t. split; [done|]. intros (es & Hes & _). apply Forall2_cons_inv_l in Hes as (kr & es' & Hs & _ & ->).
       apply Hr in Hs. done. }
  pose proof (proj1 (Hr (key, role)) eq_refl) as Hsays.
  assert (Huniq : forall kr, says ws kr -> kr = (key, role)) by (intros kr Hs; apply Hr in Hs; congruence).
  destruct (keys !! key) as [old|] eqn:Ek.
  - eexists. split; [done|]. intros t. split; [done|]. intros (es & Hes & _ & Hnew & _). apply Forall2_cons_inv_l in Hes as (kr & es' & Hs & _ & ->).
    rewrite (Huniq kr Hs) in Hnew. specialize (Hnew key). cbn in Hnew. rewrite Ek in Hnew. discriminate Hnew. left.
  - destruct (IH (S n) (<[key := role]> keys)) as (r & -> & Hrr). eexists. split; [done|]. intros t. rewrite Hrr. split.
    + intros (es & Hes & Hd & Hnew & ->). assert (Hk : key ∉ es.*1).
      { intros Hin. specialize (Hnew _ Hin). by rewrite lookup_insert_eq in Hnew. }
      exists ((key, role) :: es). split_and!; cbn; [by constructor|by constructor| |].
      * intros k [->|Hin]%elem_of_cons; [done|]. specialize (Hnew _ Hin). rewrite lookup_insert_ne in Hnew; [done|]. by intros <-.
      * rewrite <- insert_union_l, insert_union_r; [done|]. by apply not_elem_of_list_to_map_1.
    + intros (es & Hes & Hd & Hnew & ->). apply Forall2_cons_inv_l in Hes as (kr & es' & Hs & Hes & ->). rewrite (Huniq kr Hs) in *. clear kr Hs.
      cbn in Hd. apply NoDup_cons in Hd as [Hk Hd]. exists es'. split_and!; [done|done| |].
      * intros k Hin. rewrite lookup_insert_ne by (intros <-; done). apply Hnew. cbn. by right.
      * cbn. rewrite <- insert_union_l, insert_union_r; [done|]. by apply not_elem_of_list_to_map_1.
Qed.
End listing.

(** What a file grants, in full: [parse] never panics, and it accepts a file
    exactly when the role table is valid, every entry reads and no key is
    listed twice; the table is then the file's entries. *)
Lemma parse_exact {R} `{!EqDecision R} (ROLES : list (list Z * R)) b64 content :
  exists r, parse ROLES b64 content = Some r /\
  forall t, r = Ok t <-> valid_roles ROLES /\ exists es, Forall2 (says ROLES b64) (omap entry (lines content)) es /\ NoDup es.*1 /\ t = list_to_map es.
Proof.
  unfold parse. destruct (validate_roles ROLES) as [[]|e] eqn:E.
  - pose proof (proj1 (validate_ok ROLES b64) E) as Hv. destruct (parse_lines_spec ROLES b64 Hv 1 ∅ (lines content)) as (r & -> & Hr).
    eexists. split; [done|]. intros t. rewrite Hr. split.
    + intros (es & Hes & Hd & _ & ->). split; [done|]. exists es. split_and!; try done. apply (right_id ∅ _).
    + intros (_ & es & Hes & Hd & ->). exists es. split_and!; try done. symmetry. apply (right_id ∅ _).
  - eexists. split; [done|]. intros t. split; [done|]. intros [Hv _]. apply (validate_ok ROLES b64) in Hv. congruence.
Qed.
End Listing.

(** ** The client listener *)
Module Clients.
Import Text Keys Listing.

Definition MAX_AUTH_FRAME : Z := 256.

Inductive ClientAuthError := ReplicationKeyRefused | UnknownClientKey | InvalidClientKey | BadClientSignature.

Section clients.
Context (valid_key : list Z -> bool) (verify : list Z -> list Z -> list Z -> bool).

Definition verify_client (authorized_keys : Table) (nonce public_key signature : list Z) : result ClientRole ClientAuthError :=
  role <-? match authorized_keys !! public_key with Some r => Ok r | None => Err UnknownClientKey end ;;
  role <-? match client role with Some r => Ok r | None => Err ReplicationKeyRefused end ;;
  guard? valid_key public_key else InvalidClientKey ;;
  guard? verify public_key nonce signature else BadClientSignature ;;
  Ok role.

(** The role as the reader carries it to the decoder. *)
Definition carried (r : ClientRole) : Ingress.Frames.ClientRole nat :=
  match r with Operator => Ingress.Frames.Operator | AppRole id => Ingress.Frames.AppRole id end.

Lemma verify_client_ok t nonce pk sig role :
  verify_client t nonce pk sig = Ok role <-> t !! pk = Some (Client role) /\ valid_key pk = true /\ verify pk nonce sig = true.
Proof.
  unfold verify_client. destruct (t !! pk) as [[|r]|]; cbn; [split; [done|naive_solver]| |split; [done|naive_solver]].
  destruct (valid_key pk); [|split; [done|naive_solver]]. destruct (verify pk nonce sig); [|split; [done|naive_solver]]. cbn. naive_solver.
Qed.

Context {R E : Type} `{!EqDecision R} (ROLES : list (list Z * R)) (b64 : list Z -> option (list Z)).
Context (decode : list Z -> Ingress.Frames.ClientRole R -> Ingress.Frames.Decoded E) (out_of_table : list Z).

(** C35: A connection is who the operator's file says. Whatever the file and the
    application's role table hold, loading does not panic, and it succeeds
    exactly when the table is valid (at most 256 roles, every token well formed
    and not the runtime's own, no token or role twice), every entry of the file
    reads and no key is listed twice. A client is then admitted under a role
    exactly when its key is listed under that role's token and the key signed
    this listener's nonce; every request it makes reaches the application's
    decoder with the very role of the table that the token names; and no key
    opens both a client connection and a replication stream. *)
Theorem admitted_as_listed (content : list Z) :
  exists r, parse ROLES b64 content = Some r /\
  ((exists t, r = Ok t) <-> valid_roles ROLES /\ exists es, Forall2 (says ROLES b64) (omap entry (lines content)) es /\ NoDup es.*1) /\
  forall t, r = Ok t ->
  exists es, Forall2 (says ROLES b64) (omap entry (lines content)) es /\ NoDup es.*1 /\
  forall nonce pk sig,
    (forall role, verify_client t nonce pk sig = Ok role <-> (pk, Client role) ∈ es /\ valid_key pk = true /\ verify pk nonce sig = true) /\
    (forall id, verify_client t nonce pk sig = Ok (AppRole id) -> exists role, ROLES !! id = Some (token ROLES (Client (AppRole id)), role) /\
       forall body, Ingress.Frames.decode_erased decode ROLES.*2 out_of_table body (carried (AppRole id)) = decode body (Ingress.Frames.AppRole role)) /\
    (forall role nonce' frame resp v, verify_client t nonce pk sig = Ok role ->
       Protocol.Control.decode_challenge_response frame = Ok resp -> Protocol.Control.pubkey resp = pk ->
       verify_challenge_response valid_key verify nonce' frame t <> Ok v).
Proof.
  destruct (parse_exact ROLES b64 content) as (r & Hp & Hr). exists r. split; [done|]. split.
  { split; [intros (t & Ht); apply Hr in Ht as (Hv & es & Hes & Hd & _); eauto|]. intros (Hv & es & Hes & Hd). exists (list_to_map es). apply Hr. eauto. }
  intros t Ht. apply Hr in Ht as (Hv & es & Hes & Hd & ->).
  exists es. split_and!; [done|done|]. intros nonce pk sig.
  assert (Hin : forall role, list_to_map (M := Table) es !! pk = Some (Client role) <-> (pk, Client role) ∈ es) by (intros; symmetry; by apply elem_of_list_to_map).
  assert (Hcl : forall role, verify_client (list_to_map es) nonce pk sig = Ok role <-> (pk, Client role) ∈ es /\ valid_key pk = true /\ verify pk nonce sig = true).
  { intros role. by rewrite verify_client_ok, Hin. }
  split_and!; [done| |].
  - intros id Hok. apply Hcl in Hok as [Hlist _]. apply list_elem_of_lookup in Hlist as [i Hi].
    destruct (Forall2_lookup_r _ _ _ _ _ Hes Hi) as (ws & _ & (tok & b & rest & _ & _ & _ & _ & Hlt)). cbn in Hlt.
    destruct (lookup_lt_is_Some_2 _ _ Hlt) as [[tk role] Hrole]. exists role. split; [cbn; by rewrite Hrole|]. intros body. cbn.
    by rewrite list_lookup_fmap, Hrole.
  - intros role nonce' frame resp v Hok Hdec Hpk Hrep. apply Hcl in Hok as [Hlist _]. apply Hin in Hlist.
    unfold verify_challenge_response, decoded in Hrep. rewrite Hdec in Hrep. cbn in Hrep. by rewrite Hpk, Hlist in Hrep.
Qed.
End clients.
End Clients.

(** ** The connection cap *)
Module Limits.

Definition MAX_RING_ENTRIES : Z := 32768.
Definition MIN_RING_ENTRIES : Z := 64.
Definition MIN_PROVIDED_BUFFERS : Z := 32.
Definition SQES_PER_CONNECTION : Z := 2.
Definition HOUSEKEEPING_SQES : Z := 4.
Definition BUFFERS_PER_CONNECTION : Z := 2.
Definition MAX_SUPPORTED_CONNECTIONS : Z := MAX_RING_ENTRIES / 2 / BUFFERS_PER_CONNECTION.

Record RingSizing := { ring_entries : Z; provided_buffers : Z }.
Inductive MaxConnectionsError := Unlimited | AboveCeiling (n : Z).

(** [u64::next_power_of_two] and [u64::is_power_of_two]. *)
Definition next_power_of_two (n : Z) : Z := 2 ^ Z.log2_up n.
Definition is_power_of_two (n : Z) : bool := (0 <? n) && (n =? 2 ^ Z.log2 n).

(** A failed [expect] or [assert!] is [None]. *)
Definition for_max_connections (max_connections : Z) : option (result RingSizing MaxConnectionsError) :=
  if max_connections =? 0 then Some (Err Unlimited)
  else if MAX_SUPPORTED_CONNECTIONS <? max_connections then Some (Err (AboveCeiling max_connections))
  else
    let sqes := SQES_PER_CONNECTION * max_connections + HOUSEKEEPING_SQES in
    let buffers := Z.max (next_power_of_two (BUFFERS_PER_CONNECTION * max_connections)) MIN_PROVIDED_BUFFERS in
    let entries := Z.min (Z.max (Z.max (next_power_of_two sqes) (2 * buffers)) MIN_RING_ENTRIES) MAX_RING_ENTRIES in
    if negb (bool_decide (in_u32 entries) && bool_decide (in_u16 buffers)) then None
    else if negb (sqes <=? entries) then None
    else if negb (is_power_of_two buffers) then None
    else if negb (buffers <? entries) then None
    else Some (Ok {| ring_entries := entries; provided_buffers := buffers |}).

(** What a sizing for [n] connections must satisfy. *)
Definition sized (n : Z) (s : RingSizing) : bool :=
  (SQES_PER_CONNECTION * n + HOUSEKEEPING_SQES <=? ring_entries s) && (ring_entries s <=? MAX_RING_ENTRIES) && is_power_of_two (ring_entries s) &&
  (BUFFERS_PER_CONNECTION * n <=? provided_buffers s) && is_power_of_two (provided_buffers s) && (provided_buffers s <? ring_entries s).

Definition sizes (n : Z) : bool := match for_max_connections n with Some (Ok s) => sized n s | _ => false end.

Lemma every_cap_sizes : forallb sizes (seqZ 1 8192) = true.
Proof. vm_compute. reflexivity. Qed.

(** Startup never trips over its own assertions, and the ceiling is exactly
    where the kernel's largest ring stops being enough. *)
Lemma ring_sizing (n : Z) :
  in_u64 n -> exists r, for_max_connections n = Some r /\
  match r with
  | Ok s => 1 <= n <= 8192 /\ sized n s = true
  | Err Unlimited => n = 0
  | Err (AboveCeiling m) => m = n /\ 8192 < n
  end.
Proof.
  intros Hn. destruct (decide (1 <= n <= 8192)) as [Hr|Hr].
  - pose proof every_cap_sizes as Hs. rewrite forallb_forall in Hs. specialize (Hs n). rewrite <- list_elem_of_In, elem_of_seqZ in Hs.
    specialize (Hs ltac:(lia)). unfold sizes in Hs. destruct (for_max_connections n) as [[s|e]|]; try done. by exists (Ok s).
  - unfold for_max_connections. change MAX_SUPPORTED_CONNECTIONS with 8192. destruct (Z.eqb_spec n 0) as [->|H0]; [by exists (Err Unlimited)|].
    rewrite (proj2 (Z.ltb_lt _ _)) by (widths; lia). exists (Err (AboveCeiling n)). split; [done|]. split; [done|widths; lia].
Qed.
End Limits.

(** ** A keys file *)
Module Sample.
Import Text Keys Listing Clients.

Definition roles : list (list Z * Z) := [(chars "trader", 1); (chars "auditor", 2)].
Definition key_of (c : Z) : list Z := replicate 32 c.
Definition newline : list Z := [10].
Definition keys_file : list Z :=
  chars "# staff" ++ newline ++ chars "operator " ++ key_of 65 ++ chars " ops team" ++ [13] ++ newline ++ newline ++
  chars "  auditor " ++ key_of 66 ++ newline ++ chars "replication " ++ key_of 67.

Definition decode_any (body : list Z) (r : Ingress.Frames.ClientRole Z) : Ingress.Frames.Decoded (Ingress.Frames.ClientRole Z) :=
  Ingress.Frames.Permitted r.

Example keys_file_reads :
  parse roles Some keys_file =
    Some (Ok (<[key_of 65 := Client Operator]> (<[key_of 66 := Client (AppRole 1%nat)]> (<[key_of 67 := Replication]> ∅)))).
Proof. vm_compute. reflexivity. Qed.

Lemma admitted_as_listed_witness :
  exists t, parse roles Some keys_file = Some (Ok t) /\
    verify_client (fun _ => true) (fun _ _ s => bool_decide (s = [7])) t [1] (key_of 66) [7] = Ok (AppRole 1%nat) /\
    Ingress.Frames.decode_erased decode_any roles.*2 [] [9] (carried (AppRole 1%nat)) = Ingress.Frames.Permitted (Ingress.Frames.AppRole 2).
Proof.
  destruct (admitted_as_listed (fun _ => true) (fun _ _ s => bool_decide (s = [7])) roles Some decode_any [] keys_file) as (r & Hp & _ & H).
  rewrite keys_file_reads in Hp. injection Hp as <-. eexists. split; [exact keys_file_reads|].
  destruct (H _ eq_refl) as (es & _ & _ & Hall). destruct (Hall [1] (key_of 66) [7]) as (_ & Hrole & _).
  assert (Hok : verify_client (fun _ => true) (fun _ _ s => bool_decide (s = [7]))
    (<[key_of 65 := Client Operator]> (<[key_of 66 := Client (AppRole 1%nat)]> (<[key_of 67 := Replication]> ∅))) [1] (key_of 66) [7] = Ok (AppRole 1%nat))
    by (vm_compute; reflexivity).
  split; [exact Hok|]. destruct (Hrole _ Hok) as (role & Hr & Hd). vm_compute in Hr. injection Hr as <-. exact (Hd [9]).
Defined.
End Sample.
